(* ===== verification/_CoqProject ===== *)
-Q . S2P
Prelude.v
Bits.v
BitStream.v
Varint.v
Crc32.v
EncBuf.v
Tombstones.v
Order.v
Files.v
Labels.v
Records.v
Postings.v
PostingsSpec.v
MemPostings.v
XorChunk.v
Chunks.v
ChunksDir.v
Buffer.v
SeriesIter.v
SeriesSets.v
Querier.v
MemSeries.v
Head.v
HeadInv.v
HeadAppend.v
HeadQuery.v
HeadGc.v
HeadWal.v
Wal.v
WalSpec.v
WalLog.v
Recovery.v
Plan.v
PlanSpec.v
Db.v
DbSpec.v
Compaction.v
CompactSpec.v
IndexFile.v
IndexSpec.v
Blocks.v
BlockSpec.v
Checkpoint.v
CheckpointSpec.v
CheckpointLoad.v
LegacyWal.v
LegacyWalSpec.v
LegacyWalLog.v
Repair.v
DbQuery.v
Compactor.v
CompactorSpec.v
HeadBlock.v
Database.v
HeadCompact.v
DbCompact.v
DatabaseSpec.v
