(* ===== verification/Prelude.v ===== *)
(** A verification of tsdb, the time series database of Prometheus, by shallow
    embedding: the Go code under src/ as executable functions, and what makes it
    correct as theorems about them.

    * The program

    The head (src/head.go) keeps the latest samples in memory.  An appender logs what
    it commits to the write-ahead log (src/wal/wal.go, records of src/record.go), from
    which the head is loaded again; checkpoints (src/checkpoint.go) replace the old
    part of the log.  Each series keeps its samples in XOR chunks (src/chunkenc).
    The database (src/db.go) has the compactor (src/compact.go) write a range of the
    head as a block when it is old enough, and merge neighbouring blocks.  A block
    (src/block.go) is a directory: segment files with the chunks (src/chunks), an index
    (src/index), deletions (src/tombstones.go) and metadata.  Queries
    (src/querier.go) find the series of matchers (src/labels) with postings lists and
    give the samples of head and blocks that are in range and not deleted.

    * Files, from the bottom up

    - Prelude: errors, the type [res] of results, integers of a width, lists.
    - Bits, BitStream, XorChunk: chunkenc/bstream.go, xor.go and chunk.go.  Bits is the
      abstract view (lists of booleans).
    - Varint, Crc32, EncBuf: encoding/binary and hash/crc32 of the Go library as the code
      uses them, encoding_helpers.go.
    - Files: what the code uses of files (os.File, bufio, package fileutil), on their
      contents and on directories of numbered files.
    - Tombstones: tombstones.go.  Order, Labels: package labels; Order is what the code
      uses of package sort.  Records: record.go.
    - Postings (the interface [Postings], its implementations and combinators),
      PostingsSpec (what a postings iterator promises, as a class, and that every
      implementation keeps it), MemPostings: index/postings.go.
    - Chunks, ChunksDir: chunks/chunks.go, over the contents of the segments, and writing
      them to a directory with the buffer, preallocation and mapping.  IndexFile, IndexSpec: index/index.go, the writer and the
      reader of the index of a block.
    - Buffer: tsdbutil/buffer.go.  SeriesIter, SeriesSets, Querier: querier.go, the
      samples of one series, several blocks, one block.  The querier is proved against
      the class [IndexHolds]; HeadQuery and IndexSpec show that the index of the head and
      that of a block are instances.
    - MemSeries, Head: head.go.  HeadInv has the invariant, as the relation [rep] between
      the head and the abstract contents of its series; HeadAppend, HeadQuery, HeadGc and
      HeadWal show what appending, querying, garbage collection and replaying do.
    - Wal, WalSpec, WalLog: wal/wal.go.  Recovery: head and log together.
      Checkpoint, CheckpointSpec, CheckpointLoad: checkpoint.go and the parts of the head
      that use it.
    - LegacyWal, LegacyWalSpec, LegacyWalLog: src/wal.go, the log of older versions, and
      its migration (db.go).
    - Plan, PlanSpec: which blocks are compacted (compact.go).  Db, DbSpec: db.go.
    - Blocks, BlockSpec: block.go.  Repair: repair.go, with the states a crash leaves.
    - Compaction, CompactSpec: the merge of the series of blocks (compact.go,
      populateBlock).  Compactor, CompactorSpec: writing and compacting block directories.
      HeadBlock: writing the head as a block.
    - DbQuery: a query on the database, over the blocks and the head.  Database: the rest
      of db.go with its parts put together (the leveled compactor on the block
      directories, Open, Close, Snapshot, the loop in the background).  HeadCompact and
      DbCompact show that compacting the head and the blocks changes no answer,
      DatabaseSpec what opening finds again and what the loop and snapshots do.

    Each definition bears the name of the Go function, with a prefix where two types
    have a method of the same name ([w_] for the log, [p_] for postings, [ci_] for chunk
    iterators, [ms_] for memSeries, [h_] and [a_] for the head and its appender,
    [pb_] for blocks).

    * How the code is modelled

    - A function that can fail or panic returns [res]: [Ok], [Err] with the error or
      [Panic] for what stops the Go program (an index out of range, a nil pointer).
    - State is passed explicitly.  What the program shares is kept shared: the series of
      the head are a heap of [memSeries] with locations, as appenders, maps and iterators
      refer to the same series.
    - Integers are Z with the wrap-around of their width written out ([u64], [i64], [u32],
      [u8] and the shifts [shlU], [shrU]); float64 values are their bit patterns.
    - Interfaces are classes with the implementations as instances ([PostingsOps],
      [ChunkIterator], [IndexReader], [ChunkReader], [TombstoneReader], [ChunkWriter],
      [IndexWriter], [WAL], [LegacyWAL], [DbHead], [BlockDir]), and their contracts are classes, too ([PostingsSpec],
      [IndexHolds], [ChunkWriterLaws], [SegmentChunks], [CompareLaws]).
    - Files are lists of bytes, a directory is a map.  Operations of the file system
      succeed unless a definition says otherwise; a crash is a log or a directory cut at
      any point where the theorems say so.
    - Iterating over a Go map gives any order: the order is a parameter, with the
      hypothesis that it is a permutation.  Regular expressions and the hash of a label
      set are parameters as well (they are code of other packages).
    - Loops that are not structural have fuel, always a bound that the state gives: what
      is left of the postings for the loops over them ([p_size]), the samples left for
      chunk iterators ([ci_size]), the series left for a set ([cs_size]), the bytes left
      for decoders, the pages of a record for the log.  Running out of it is an error
      or panic of its own, which the theorems exclude as they state the result.

    * What is shown

    - Codecs are inverse to each other, with their bounds: the bit stream and XOR chunks,
      varints, buffers, records, tombstone files, segment files, the index file.  Decoders
      of damaged data end and do not panic where this holds (tombstones, chunks).
    - Iterators refine lists: postings and their intersection, merge and difference;
      deleted samples, chunks of a series, chained series, merged sets.  A query on a
      block, on the head or on several blocks gives the matching series with exactly the
      visible samples.
    - The head: appending refines a map from label sets to samples; the invariant is kept
      by appending, garbage collection and loading; a series reads back what was
      appended.
    - Durability: what is logged is read back, over segments, restarts and crashes; repair
      keeps a prefix; committed transactions survive a crash; truncating the log
      behind a checkpoint loses nothing that is still there.
    - Blocks: planning keeps blocks in sequence; reloading ends with the blocks that are
      not obsolete wherever a crash left the directory; compacting the head ends;
      deletion and closing of a block; the merge of blocks.
    - From end to end: [HeadBlock.Write_head_correct] (the block written from the head has
      just what a query on the head sees), [CompactorSpec.Compact_correct] (the block
      compacted from blocks on disk has just their visible samples, and can be compacted
      again; [Compact_failure] is what it leaves when it fails) and
      [Recovery.committed_survives_crash].
    - Where the code does not do what it means to, a theorem shows it on a concrete input;
      such theorems stand at the ends of the files.
    - [HeadCompact.compact_head_keeps_answers]: the loop that turns ranges of the head into
      blocks ends, and every query on the database gives the same before and after.
      [DbCompact.compact_blocks_keeps_answers] is the same for the loop that merges blocks,
      as long as nothing was deleted from them.
      [DbQuery.db_Select_correct]: what a query gives, of blocks and head.
      [DatabaseSpec.Open_recovers]: opening after a crash, with repair, migration, reload
      and the loading of checkpoint and log.  [DatabaseSpec.run_loop_correct]: the waits
      and the end of the background loop, in every interleaving with commits and closing.
      [compact] is there in two forms: [Db.compact] and its loops run it in one go, with
      what each look at [stopc] finds as an argument, and [Db.compact_step] takes it step by
      step (each look, each write or merge, each reload), for the interleavings;
      [compact_runs] in DatabaseSpec says that the first takes the steps of the second.
      [commit_during_compaction_lost] shows what a commit between a write and the reload
      behind it can lose.
    - Old formats: what was written to the legacy log is read back and migrated, and
      repaired after damage.  The files that its [cut] leaves to the background to finish
      are a queue in its state, which the background works off at any time or, when the
      program ends before, not at all: then a first part is read ([legacy_log_roundtrip],
      [cut_off_loses_data]); the repair of old blocks can be broken off anywhere.

    * What is not modelled

    - Of src/fileutil the locking and renaming of files and the system calls of mapping;
      src/cmd and src/testutil.
    - Goroutines, locks and channels, but for the background loop of the database, the
      background of the legacy log and the readers of a block, which are step relations or
      a queue (DatabaseSpec, LegacyWalLog, BlockSpec).  Every operation is one step; writing
      a block from the head and reloading are one step each.  The workers that load
      the log apply the records one after the other, which is what they do when the
      record of a series comes before its samples.
    - compactionMerger adds the deletions of one block to the slice of the other in place;
      the model makes a new list, as the compaction does not read the slice again.
    - What the new log leaves to the background, syncing and closing the segments it has
      cut, changes no contents and is left out; deleting checkpoints is done at once.
    - Metrics, logging, the lock file of the database (its outcome is a parameter of
      [Database.Open]), expanding meta.json (a parameter of the files of a block). *)
From stdpp Require Export base numbers list gmap strings option sorting.
From Stdlib Require Export ZArith Lia.
#[local] Open Scope Z_scope.

(** * Errors and results *)

(** The error values of the program.  The sentinel errors the code compares
    against are constructors of their own; every other error is a message. *)
Inductive error :=
| EOF                  (* io.EOF *)
| ErrOverflow          (* "varint overflows a 64-bit integer" of encoding/binary *)
| ErrInvalidSize       (* errInvalidSize *)
| ErrInvalidChecksum   (* errInvalidChecksum *)
| ErrNotFound          (* ErrNotFound *)
| ErrOutOfOrderSample  (* ErrOutOfOrderSample *)
| ErrAmendSample       (* ErrAmendSample *)
| ErrOutOfBounds       (* ErrOutOfBounds *)
| ErrClosing           (* ErrClosing *)
| ErrMsg (msg : string).

#[export] Instance error_eq_dec : EqDecision error.
Proof. solve_decision. Defined.

(** Outcome of a fallible Go call: a value, a returned error, or a run-time
    panic (index or slice out of range, explicit [panic]). *)
Inductive res (A : Type) :=
| Ok (a : A)
| Err (e : error)
| Panic.
Arguments Ok {A} a.
Arguments Err {A} e.
Arguments Panic {A}.

Definition res_bind {A B} (r : res A) (f : A -> res B) : res B :=
  match r with Ok a => f a | Err e => Err e | Panic => Panic end.

Definition res_map {A B} (f : A -> B) (r : res A) : res B :=
  match r with Ok a => Ok (f a) | Err e => Err e | Panic => Panic end.

Definition no_panic {A} (r : res A) : Prop := r <> Panic.

Declare Scope tsdb_scope.
Delimit Scope tsdb_scope with tsdb.
Notation "'let?' x ':=' r 'in' k" := (res_bind r (fun x => k))
  (at level 10, x pattern, k at level 200) : tsdb_scope.
#[global] Open Scope tsdb_scope.

Lemma res_bind_ok {A B} (r : res A) (f : A -> res B) b :
  res_bind r f = Ok b <-> exists a, r = Ok a /\ f a = Ok b.
Proof. destruct r; naive_solver. Qed.

(** * Machine integers *)

(** Conversion to an unsigned, respectively a two's complement signed integer
    of [w] bits: Go's wrap-around arithmetic applies it to the exact result. *)
Definition wrapU (w x : Z) : Z := x mod 2 ^ w.
Definition wrapS (w x : Z) : Z := (x + 2 ^ (w - 1)) mod 2 ^ w - 2 ^ (w - 1).

Definition u8 (x : Z) : Z := wrapU 8 x.
Definition u16 (x : Z) : Z := wrapU 16 x.
Definition u32 (x : Z) : Z := wrapU 32 x.
Definition u64 (x : Z) : Z := wrapU 64 x.
Definition i64 (x : Z) : Z := wrapS 64 x.

Definition is_u (w x : Z) : Prop := 0 <= x < 2 ^ w.
Definition is_s (w x : Z) : Prop := - 2 ^ (w - 1) <= x < 2 ^ (w - 1).

Abbreviation is_byte := (is_u 8).
Abbreviation is_u64 := (is_u 64).
Abbreviation is_i64 := (is_s 64).

Definition MaxInt64 : Z := 2 ^ 63 - 1.
Definition MinInt64 : Z := - 2 ^ 63.
Definition MaxUint32 : Z := 2 ^ 32 - 1.

(** Go's shifts on [w]-bit unsigned values: a count of [w] or more gives 0. *)
Definition shlU (w x k : Z) : Z := if k <? w then wrapU w (Z.shiftl x k) else 0.
Definition shrU (x k : Z) : Z := Z.shiftr x k.

#[export] Instance is_u_dec w x : Decision (is_u w x).
Proof. unfold is_u. apply _. Defined.
#[export] Instance is_s_dec w x : Decision (is_s w x).
Proof. unfold is_s. apply _. Defined.

(** [lia] with quotients, remainders and the integer types unfolded. *)
Ltac zlia :=
  unfold u8, u16, u32, u64, i64, wrapU, wrapS, is_u, is_s, MaxInt64, MinInt64,
    MaxUint32 in *;
  Z.div_mod_to_equations; lia.

(** A closed decidable goal, by evaluating its decision procedure. *)
Ltac decided := apply (bool_decide_unpack _); vm_compute; exact I.

Create HintDb mint.

Section MachineInts.
Context (w : Z) (Hw : 0 < w).

Lemma pow2_pos : 0 < 2 ^ w.
Proof using Hw. apply Z.pow_pos_nonneg; lia. Qed.

#[local] Hint Resolve pow2_pos : core.

Lemma wrapU_range x : is_u w (wrapU w x).
Proof using Hw. by apply Z.mod_pos_bound. Qed.

Lemma wrapU_small x : is_u w x -> wrapU w x = x.
Proof using Type. apply Z.mod_small. Qed.

Lemma pow2_half : 2 ^ w = 2 * 2 ^ (w - 1).
Proof using Hw. rewrite <- Z.pow_succ_r by lia. f_equal. lia. Qed.

Lemma wrapS_range x : is_s w (wrapS w x).
Proof using Hw.
  unfold is_s, wrapS. pose proof pow2_half. pose proof pow2_pos.
  pose proof (Z.mod_pos_bound (x + 2 ^ (w - 1)) (2 ^ w)). lia.
Qed.

Lemma wrapS_small x : is_s w x -> wrapS w x = x.
Proof using Hw.
  unfold is_s, wrapS. intros ?. pose proof pow2_half. pose proof pow2_pos.
  rewrite Z.mod_small; lia.
Qed.

Lemma wrapU_eq_iff x y : wrapU w x = wrapU w y <-> exists k, x = y + k * 2 ^ w.
Proof using Hw.
  pose proof pow2_pos. unfold wrapU. split.
  - intros E. exists (x / 2 ^ w - y / 2 ^ w).
    pose proof (Z.div_mod x (2 ^ w)). pose proof (Z.div_mod y (2 ^ w)). nia.
  - intros [k ->]. apply Z.mod_add. lia.
Qed.

Lemma wrapS_wrapU x : wrapS w (wrapU w x) = wrapS w x.
Proof using Hw.
  unfold wrapS, wrapU. by rewrite Z.add_mod_idemp_l by lia.
Qed.

Lemma wrapU_wrapS x : wrapU w (wrapS w x) = wrapU w x.
Proof using Hw.
  unfold wrapS, wrapU. rewrite Zminus_mod_idemp_l.
  by replace (x + 2 ^ (w - 1) - 2 ^ (w - 1)) with x by lia.
Qed.

Lemma wrapS_eq_of_wrapU x y : is_s w y -> wrapU w x = wrapU w y -> wrapS w x = y.
Proof using Hw.
  intros Hy E. rewrite <- (wrapS_small y) by done.
  by rewrite <- (wrapS_wrapU x), E, wrapS_wrapU.
Qed.
End MachineInts.

Lemma u64_range x : is_u64 (u64 x).
Proof. by apply wrapU_range. Qed.
Lemma u8_range x : is_byte (u8 x).
Proof. by apply wrapU_range. Qed.
Lemma i64_range x : is_i64 (i64 x).
Proof. by apply wrapS_range. Qed.
Lemma u64_small x : is_u64 x -> u64 x = x.
Proof. by apply wrapU_small. Qed.
Lemma u8_small x : is_byte x -> u8 x = x.
Proof. by apply wrapU_small. Qed.
Lemma i64_small x : is_i64 x -> i64 x = x.
Proof. by apply wrapS_small. Qed.
Lemma i64_u64 x : i64 (u64 x) = i64 x.
Proof. by apply wrapS_wrapU. Qed.
Lemma u64_i64 x : u64 (i64 x) = u64 x.
Proof. by apply wrapU_wrapS. Qed.
#[export] Hint Resolve u64_range u8_range i64_range : mint.
#[export] Hint Rewrite i64_u64 u64_i64 : mint.

Lemma join_cons {A} (x : list A) ls : mjoin (x :: ls) = x ++ mjoin ls.
Proof. done. Qed.

Lemma StronglySorted_lookup_lt {A} (R : A -> A -> Prop) (l : list A) i j x y :
  StronglySorted R l -> l !! i = Some x -> l !! j = Some y -> (i < j)%nat -> R x y.
Proof.
  intros Hl. revert i j. induction Hl as [|a l _ IH Ha]; intros i j Hi Hj Hij; [done|].
  destruct i as [|i], j as [|j]; cbn in *; try lia.
  - simplify_eq. rewrite Forall_forall in Ha. apply Ha. by eapply list_elem_of_lookup_2.
  - apply (IH i j); (done || lia).
Qed.

Lemma filter_all {A} (P : A -> Prop) `{!forall x, Decision (P x)} (l : list A) :
  Forall P l -> filter P l = l.
Proof. induction 1 as [|x l Hx _ IH]; [done|]. by rewrite filter_cons, decide_True, IH. Qed.

Lemma filter_none {A} (P : A -> Prop) `{!forall x, Decision (P x)} (l : list A) :
  Forall (fun x => ~ P x) l -> filter P l = [].
Proof. induction 1 as [|x l Hx _ IH]; [done|]. by rewrite filter_cons, decide_False, IH. Qed.

Lemma Forall_filter_weaken {A} (P Q : A -> Prop) `{!forall x, Decision (P x)} (l : list A) :
  Forall Q l -> Forall Q (filter P l).
Proof. rewrite !Forall_forall. intros HQ x [_ Hx]%list_elem_of_filter. auto. Qed.

Lemma StronglySorted_filter {A} (R : A -> A -> Prop) (P : A -> Prop) `{!forall x, Decision (P x)} l :
  StronglySorted R l -> StronglySorted R (filter P l).
Proof.
  induction 1 as [|x l _ IH Hx]; [constructor|]. rewrite filter_cons.
  case_decide; [constructor; [done|by apply Forall_filter_weaken]|done].
Qed.

Lemma StronglySorted_weaken {A} (R R' : A -> A -> Prop) l :
  (forall x y, R x y -> R' x y) -> StronglySorted R l -> StronglySorted R' l.
Proof.
  intros HR. induction 1 as [|x l _ IH Hx]; constructor; [done|].
  eapply Forall_impl; [exact Hx|]. auto.
Qed.

(** * Slices *)

Definition zlen {A} (l : list A) : Z := Z.of_nat (length l).

(** [l[i]], [l[i] = x] and [l[a:b]]: a panic out of range. *)
Definition index {A} (l : list A) (i : Z) : res A :=
  if 0 <=? i then match l !! Z.to_nat i with Some x => Ok x | None => Panic end else Panic.
Definition set_index {A} (l : list A) (i : Z) (x : A) : res (list A) :=
  if (0 <=? i) && (i <? zlen l) then Ok (<[Z.to_nat i := x]> l) else Panic.
Definition slice {A} (l : list A) (a b : Z) : res (list A) :=
  if (0 <=? a) && (a <=? b) && (b <=? zlen l)
  then Ok (take (Z.to_nat (b - a)) (drop (Z.to_nat a) l)) else Panic.

Lemma index_ok {A} (l : list A) i x : index l i = Ok x <-> 0 <= i /\ l !! Z.to_nat i = Some x.
Proof.
  unfold index. destruct (Z.leb_spec 0 i); [|split; [done|lia]].
  destruct (l !! Z.to_nat i); naive_solver.
Qed.

Lemma set_index_ok {A} (l : list A) i x :
  0 <= i < zlen l -> set_index l i x = Ok (<[Z.to_nat i := x]> l).
Proof.
  unfold set_index. intros ?. by rewrite (proj2 (Z.leb_le _ _)), (proj2 (Z.ltb_lt _ _)) by lia.
Qed.

Lemma slice_ok {A} (l : list A) a b :
  0 <= a <= b -> b <= zlen l -> slice l a b = Ok (take (Z.to_nat (b - a)) (drop (Z.to_nat a) l)).
Proof.
  unfold slice. intros ??. by rewrite !(proj2 (Z.leb_le _ _)) by lia.
Qed.

Lemma zlen_app {A} (l k : list A) : zlen (l ++ k) = zlen l + zlen k.
Proof. unfold zlen. rewrite length_app. lia. Qed.

Lemma zlen_nonneg {A} (l : list A) : 0 <= zlen l.
Proof. unfold zlen. lia. Qed.

Lemma zlen_take {A} (n : Z) (l : list A) : 0 <= n <= zlen l -> zlen (take (Z.to_nat n) l) = n.
Proof. unfold zlen. intros ?. rewrite length_take. lia. Qed.

Lemma zlen_drop {A} (n : Z) (l : list A) : 0 <= n <= zlen l -> zlen (drop (Z.to_nat n) l) = zlen l - n.
Proof. unfold zlen. intros ?. rewrite length_drop. lia. Qed.

Lemma to_nat_zlen {A} (l : list A) : Z.to_nat (zlen l) = length l.
Proof. unfold zlen. lia. Qed.

Definition zeros (n : nat) : list Z := replicate n 0.

Lemma zlen_zeros n : zlen (zeros n) = Z.of_nat n.
Proof. unfold zlen, zeros. by rewrite length_replicate. Qed.
