(* ===== verification/Bits.v ===== *)
(** Big-endian bit lists: the abstract view of the chunk bit stream. *)
From S2P Require Import Prelude.
#[local] Open Scope Z_scope.

(** The [n] low bits of [x], most significant first. *)
Fixpoint bits_be (n : nat) (x : Z) : list bool :=
  match n with
  | O => []
  | S n => Z.testbit x (Z.of_nat n) :: bits_be n x
  end.

(** The number a bit list denotes, most significant bit first. *)
Definition bits_val (l : list bool) : Z :=
  foldl (fun acc b => 2 * acc + Z.b2z b) 0 l.

(** The bits of a byte sequence. *)
Definition flat (s : list Z) : list bool := mjoin (bits_be 8 <$> s).

(** * Bits of a number *)

Lemma length_bits_be n x : length (bits_be n x) = n.
Proof. induction n; simpl; auto. Qed.

Lemma lookup_bits_be n x i :
  (i < n)%nat -> bits_be n x !! i = Some (Z.testbit x (Z.of_nat (n - 1 - i))).
Proof.
  revert i. induction n as [|n IH]; intros i Hi; [lia|].
  destruct i as [|i]; cbn [bits_be].
  - by replace (S n - 1 - 0)%nat with n by lia.
  - simpl. rewrite IH by lia. do 2 f_equal. lia.
Qed.

Lemma bits_be_ext n x y :
  (forall i, 0 <= i < Z.of_nat n -> Z.testbit x i = Z.testbit y i) ->
  bits_be n x = bits_be n y.
Proof.
  induction n as [|n IH]; intros H; [done|]. cbn [bits_be].
  f_equal; [apply H; lia|]. apply IH. intros. apply H. lia.
Qed.

Lemma bits_be_mod n m x : Z.of_nat n <= m -> bits_be n (x mod 2 ^ m) = bits_be n x.
Proof. intros ?. apply bits_be_ext. intros i ?. apply Z.mod_pow2_bits_low. lia. Qed.

Lemma bits_be_add n m x :
  bits_be (n + m) x = bits_be n (Z.shiftr x (Z.of_nat m)) ++ bits_be m x.
Proof.
  induction n as [|n IH]; [done|]. cbn [bits_be Nat.add app]. rewrite IH. f_equal.
  rewrite Z.shiftr_spec by lia. f_equal. lia.
Qed.

Lemma take_bits_be k n x :
  (k <= n)%nat -> take k (bits_be n x) = bits_be k (Z.shiftr x (Z.of_nat (n - k))).
Proof.
  intros ?. replace n with (k + (n - k))%nat at 1 by lia.
  rewrite bits_be_add, take_app_le by (rewrite length_bits_be; lia).
  rewrite take_ge; [done|]. rewrite length_bits_be. lia.
Qed.

Lemma drop_bits_be k n x : (k <= n)%nat -> drop k (bits_be n x) = bits_be (n - k) x.
Proof.
  intros ?. replace n with (k + (n - k))%nat at 1 by lia.
  rewrite bits_be_add. apply drop_app_length'. by rewrite length_bits_be.
Qed.

Lemma bits_be_0 n : bits_be n 0 = replicate n false.
Proof. induction n; simpl; [done|]. rewrite Z.testbit_0_l. by f_equal. Qed.

(** * The number of a bit list *)

Lemma bits_val_app l r :
  bits_val (l ++ r) = bits_val l * 2 ^ Z.of_nat (length r) + bits_val r.
Proof.
  unfold bits_val. rewrite foldl_app.
  generalize (foldl (fun acc b => 2 * acc + Z.b2z b) 0 l) as a.
  induction r as [|b r IH] using rev_ind; intros a; [simpl; lia|].
  rewrite !foldl_app, length_app. cbn [length foldl]. rewrite IH.
  rewrite Nat2Z.inj_add, Z.pow_add_r by lia. change (2 ^ Z.of_nat 1) with 2. lia.
Qed.

Lemma bits_val_singleton b : bits_val [b] = Z.b2z b.
Proof. by destruct b. Qed.

Lemma bits_val_cons b l : bits_val (b :: l) = Z.b2z b * 2 ^ Z.of_nat (length l) + bits_val l.
Proof. rewrite <- (bits_val_singleton b). exact (bits_val_app [b] l). Qed.

Lemma bits_val_range l : 0 <= bits_val l < 2 ^ Z.of_nat (length l).
Proof.
  induction l as [|b l IH]; [done|]. rewrite bits_val_cons. cbn [length].
  rewrite Nat2Z.inj_succ, Z.pow_succ_r by lia. destruct b; simpl; lia.
Qed.

Lemma bits_val_bits_be n x : bits_val (bits_be n x) = x mod 2 ^ Z.of_nat n.
Proof.
  induction n as [|n IH]; [by rewrite Z.mod_1_r|].
  cbn [bits_be]. rewrite bits_val_cons, IH, length_bits_be.
  rewrite Z.testbit_spec' by lia.
  rewrite Nat2Z.inj_succ, Z.pow_succ_r by lia.
  pose proof (Z.pow_pos_nonneg 2 (Z.of_nat n)).
  rewrite (Z.mul_comm 2 (2 ^ Z.of_nat n)), Z.rem_mul_r by lia. lia.
Qed.

Lemma bits_be_bits_val l : bits_be (length l) (bits_val l) = l.
Proof.
  induction l as [|b l IH]; [done|]. cbn [bits_be length].
  pose proof (bits_val_range l) as Hr. rewrite bits_val_cons. f_equal.
  - apply Z.b2z_inj. rewrite Z.testbit_spec' by lia.
    rewrite Z.div_add_l, Z.div_small, Z.add_0_r by lia.
    by destruct b.
  - transitivity (bits_be (length l) (bits_val l)); [|done].
    apply bits_be_ext. intros i Hi.
    rewrite <- (Z.mod_pow2_bits_low _ (Z.of_nat (length l))) by lia.
    rewrite Z.add_comm, Z.mod_add, Z.mod_small by lia. done.
Qed.

(** * Byte sequences *)

Lemma flat_nil : flat [] = [].
Proof. done. Qed.
Lemma flat_cons x s : flat (x :: s) = bits_be 8 x ++ flat s.
Proof. done. Qed.
Lemma flat_app s t : flat (s ++ t) = flat s ++ flat t.
Proof. unfold flat. by rewrite fmap_app, join_app. Qed.
Lemma flat_singleton x : flat [x] = bits_be 8 x.
Proof. by rewrite flat_cons, flat_nil, app_nil_r. Qed.
Lemma length_flat s : length (flat s) = (8 * length s)%nat.
Proof.
  induction s as [|x s IH]; [done|].
  rewrite flat_cons, length_app, IH, length_bits_be. simpl. lia.
Qed.
#[export] Hint Rewrite length_bits_be length_flat @length_app @length_drop @length_take : bits.

(** * Bits of shifted and wrapped values *)

Lemma testbit_wrapU w x i :
  0 <= w -> Z.testbit (wrapU w x) i = bool_decide (i < w) && Z.testbit x i.
Proof.
  intros ?. unfold wrapU. case_bool_decide; simpl.
  - by apply Z.mod_pow2_bits_low.
  - apply Z.mod_pow2_bits_high. lia.
Qed.

Lemma testbit_shlU w x k i :
  0 <= k -> 0 <= i -> 0 <= w ->
  Z.testbit (shlU w x k) i = bool_decide (i < w) && Z.testbit x (i - k).
Proof.
  intros ???. unfold shlU. destruct (Z.ltb_spec k w).
  - by rewrite testbit_wrapU, Z.shiftl_spec by lia.
  - rewrite Z.testbit_0_l. case_bool_decide; simpl; [|done].
    by rewrite Z.testbit_neg_r by lia.
Qed.

Lemma testbit_shrU x k i : 0 <= i -> Z.testbit (shrU x k) i = Z.testbit x (i + k).
Proof. intros ?. by apply Z.shiftr_spec. Qed.

Lemma testbit_is_u w x i : 0 <= w -> is_u w x -> w <= i -> Z.testbit x i = false.
Proof.
  intros ? Hx ?. rewrite <- (wrapU_small w x Hx), testbit_wrapU by done.
  by rewrite bool_decide_false by lia.
Qed.

Lemma testbit_1 i : Z.testbit 1 i = bool_decide (i = 0).
Proof.
  case_bool_decide as E; [by subst|]. destruct (decide (i < 0)).
  - by apply Z.testbit_neg_r.
  - apply Z.bits_above_log2; simpl; lia.
Qed.

Lemma shlU_range w x k : 0 < w -> is_u w (shlU w x k).
Proof.
  intros ?. unfold shlU. destruct (k <? w); [by apply wrapU_range|].
  pose proof (pow2_pos w). unfold is_u. lia.
Qed.

Lemma is_u_of_testbit w x :
  0 <= w -> 0 <= x -> (forall i, w <= i -> Z.testbit x i = false) -> is_u w x.
Proof.
  intros ? ? H. assert (x = x mod 2 ^ w) as ->; [|by apply Z.mod_pos_bound, Z.pow_pos_nonneg].
  apply Z.bits_inj'. intros i ?. destruct (decide (i < w)).
  - by rewrite Z.mod_pow2_bits_low.
  - rewrite Z.mod_pow2_bits_high by lia. apply H. lia.
Qed.

Lemma lor_is_u w x y : 0 <= w -> is_u w x -> is_u w y -> is_u w (Z.lor x y).
Proof.
  intros ? Hx Hy. apply is_u_of_testbit; [done|apply Z.lor_nonneg; unfold is_u in *; lia|].
  intros i ?. rewrite Z.lor_spec.
  by rewrite (testbit_is_u w x), (testbit_is_u w y).
Qed.

Lemma shrU_range w x k : 0 <= w -> 0 <= k -> is_u w x -> is_u w (shrU x k).
Proof.
  intros ?? Hx. apply is_u_of_testbit; [done|apply Z.shiftr_nonneg; unfold is_u in *; lia|].
  intros i ?. rewrite testbit_shrU by lia. apply (testbit_is_u w x); [done..|lia].
Qed.

(** A double shift keeps [k] bits out of the middle of a word. *)
Lemma shrU_le_small x k : 0 <= k -> 0 <= x < 2 ^ k -> shrU x k = 0.
Proof. intros ??. unfold shrU. rewrite Z.shiftr_div_pow2 by done. by apply Z.div_small. Qed.

#[export] Hint Rewrite Z.lor_spec Z.lxor_spec Z.land_spec : testbit.
#[export] Hint Rewrite testbit_wrapU testbit_shlU testbit_shrU Z.shiftr_spec Z.shiftl_spec
  using lia : testbit.
#[export] Hint Resolve shlU_range lor_is_u shrU_range : mint.

(** Decide the [bool_decide]s of linear arithmetic in the goal. *)
Ltac bool_decide_lia :=
  repeat match goal with
  | |- context [bool_decide ?P] =>
      first [rewrite (bool_decide_true P) by lia | rewrite (bool_decide_false P) by lia]
  end.

(** Appending bits to a word: [(u << n) | v]. *)
Lemma lor_shl_bits_val l r :
  (length l + length r <= 64)%nat ->
  Z.lor (shlU 64 (bits_val l) (Z.of_nat (length r))) (bits_val r) = bits_val (l ++ r).
Proof.
  intros Hlen. rewrite bits_val_app. set (n := Z.of_nat (length r)).
  pose proof (bits_val_range l). pose proof (bits_val_range r) as Hr. fold n in Hr.
  assert (0 < 2 ^ n) by (apply Z.pow_pos_nonneg; lia).
  apply Z.bits_inj'. intros i ?. autorewrite with testbit.
  destruct (decide (i < n)).
  - rewrite (Z.testbit_neg_r _ (i - n)), andb_false_r, orb_false_l by lia.
    rewrite <- (Z.mod_pow2_bits_low (_ + _) n) by lia.
    by rewrite Z.add_comm, Z.mod_add, Z.mod_small by lia.
  - rewrite (testbit_is_u n (bits_val r)), orb_false_r by (done || lia).
    replace (Z.testbit (_ + _) i)
      with (Z.testbit ((bits_val l * 2 ^ n + bits_val r) / 2 ^ n) (i - n))
      by (rewrite Z.div_pow2_bits by lia; f_equal; lia).
    rewrite Z.div_add_l, Z.div_small, Z.add_0_r by lia.
    case_bool_decide; [done|]. simpl. symmetry.
    apply (testbit_is_u (Z.of_nat (length l))); [lia|done|lia].
Qed.

(** A decidable fact about bytes holds when it holds of all 256. *)
Lemma byte_exhaustive (P : Z -> bool) :
  forallb P (seqZ 0 256) = true -> forall b, is_byte b -> P b = true.
Proof.
  intros H b Hb. rewrite forallb_forall in H. apply H.
  apply list_elem_of_In, elem_of_seqZ. unfold is_u in Hb. lia.
Qed.

Lemma lxor_is_u w x y : 0 <= w -> is_u w x -> is_u w y -> is_u w (Z.lxor x y).
Proof.
  intros ? Hx Hy. apply is_u_of_testbit; [done|apply Z.lxor_nonneg; unfold is_u in *; lia|].
  intros i ?. rewrite Z.lxor_spec.
  by rewrite (testbit_is_u w x), (testbit_is_u w y).
Qed.

(** Placing a [k]-bit field below a shifted value is an addition. *)
Lemma lor_add a b k : 0 <= k -> 0 <= b < 2 ^ k -> Z.lor (a * 2 ^ k) b = a * 2 ^ k + b.
Proof.
  intros Hk Hb. symmetry. apply Z.add_nocarry_lor. apply Z.bits_inj'. intros n Hn.
  rewrite Z.land_spec, Z.bits_0. destruct (Z.lt_ge_cases n k).
  - by rewrite Z.mul_pow2_bits_low.
  - rewrite (testbit_is_u k b n) by done. by rewrite andb_false_r.
Qed.
