(* ===== verification/BitStream.v ===== *)
(** chunkenc/bstream.go: the bit stream chunks are written to and read from.
    The writer refines appending to a list of bits, the reader refines consuming one. *)
From S2P Require Import Prelude Bits.
#[local] Open Scope Z_scope.

(** [stream] is the data, [count] how many bits are valid in the current byte:
    the last one for a writer, the first one for a reader. *)
Record bstream := mk_bstream { stream : list Z; count : Z }.

Definition newBReader (b : list Z) : bstream := mk_bstream b 8.

(** [make([]byte, 0, size)]: the capacity does not show in the contents. *)
Definition newBWriter (size : Z) : bstream := mk_bstream [] 0.

(** The copy is a fresh slice with the same bytes. *)
Definition clone (b : bstream) : bstream := mk_bstream (stream b) (count b).

Definition bytes (b : bstream) : list Z := stream b.

(** A bit is a Go boolean: [zero] is false and [one] true. *)
Definition zero : bool := false.
Definition one : bool := true.

(** [b.stream[len(b.stream)-1] |= v]; the update of an empty stream would
    panic, which no reachable state does ([wf_writer]). *)
Definition or_last (v : Z) (s : list Z) : list Z :=
  alter (fun x => Z.lor x v) (length s - 1)%nat s.

(** The [b.count == 0] case both write operations start with. *)
Definition next_byte (b : bstream) : bstream :=
  if count b =? 0 then mk_bstream (stream b ++ [0]) 8 else b.

Definition writeBit (b : bstream) (bit : bool) : bstream :=
  let b := next_byte b in
  let s := if bit then or_last (shlU 8 1 (count b - 1)) (stream b) else stream b in
  mk_bstream s (count b - 1).

Definition writeByte (b : bstream) (byt : Z) : bstream :=
  let b := next_byte b in
  let s := or_last (shrU byt (8 - count b)) (stream b) in
  mk_bstream (s ++ [shlU 8 byt (count b)]) (count b).

(** The two loops of [writeBits], whole bytes first. *)
Fixpoint writeBits_bytes (fuel : nat) (b : bstream) (u nbits : Z) : bstream * Z * Z :=
  match fuel with
  | O => (b, u, nbits)
  | S fuel =>
      if 8 <=? nbits
      then writeBits_bytes fuel (writeByte b (u8 (shrU u 56))) (shlU 64 u 8) (nbits - 8)
      else (b, u, nbits)
  end.

Fixpoint writeBits_bits (fuel : nat) (b : bstream) (u nbits : Z) : bstream :=
  match fuel with
  | O => b
  | S fuel =>
      if 0 <? nbits
      then writeBits_bits fuel (writeBit b (shrU u 63 =? 1)) (shlU 64 u 1) (nbits - 1)
      else b
  end.

(** [nbits] is at least 0; each loop runs at most [nbits] times. *)
Definition writeBits (b : bstream) (u nbits : Z) : bstream :=
  let u := shlU 64 u (u64 (64 - nbits)) in
  let '(b, u, nbits') := writeBits_bytes (Z.to_nat nbits) b u nbits in
  writeBits_bits (Z.to_nat nbits) b u nbits'.

(** [(x << (8 - count)) >> (8 - k)] on bytes. *)
Definition mid_bits (x count k : Z) : Z := shrU (shlU 8 x (8 - count)) (8 - k).

Definition readBit (b : bstream) : res bool * bstream :=
  match stream b with
  | [] => (Err EOF, b)
  | x :: s =>
      if count b =? 0 then
        match s with
        | [] => (Err EOF, mk_bstream [] 0)
        | y :: _ =>
            (Ok (negb (Z.land (shlU 8 y (8 - 8)) 128 =? 0)), mk_bstream s (8 - 1))
        end
      else
        (Ok (negb (Z.land (shlU 8 x (8 - count b)) 128 =? 0)),
         mk_bstream (x :: s) (count b - 1))
  end.

Definition readByte (b : bstream) : res Z * bstream :=
  match stream b with
  | [] => (Err EOF, b)
  | x :: s =>
      if count b =? 0 then
        match s with
        | [] => (Err EOF, mk_bstream [] 0)
        | y :: _ => (Ok y, mk_bstream s 0)
        end
      else if count b =? 8 then (Ok x, mk_bstream (x :: s) 0)
      else
        match s with
        | [] => (Err EOF, mk_bstream [] (count b))
        | y :: _ => (Ok (Z.lor (shlU 8 x (8 - count b)) (shrU y (count b))), mk_bstream s (count b))
        end
  end.

(** The exported method. *)
Definition ReadByte (b : bstream) : res Z * bstream := readByte b.

Fixpoint readBits_bytes (fuel : nat) (b : bstream) (u nbits : Z) : res (Z * Z) * bstream :=
  match fuel with
  | O => (Ok (u, nbits), b)
  | S fuel =>
      if 8 <=? nbits then
        match readByte b with
        | (Ok byt, b) => readBits_bytes fuel b (Z.lor (shlU 64 u 8) byt) (nbits - 8)
        | (Err e, b) => (Err e, b)
        | (Panic, b) => (Panic, b)
        end
      else (Ok (u, nbits), b)
  end.

(** The last, partial byte: [b.stream[0]] panics on an empty stream. *)
Definition readBits_tail (b : bstream) (u nbits : Z) : res Z * bstream :=
  match stream b with
  | [] => (Panic, b)
  | x :: s =>
      if count b <? nbits then
        let u := Z.lor (shlU 64 u (count b)) (mid_bits x (count b) (count b)) in
        let nbits := nbits - count b in
        match s with
        | [] => (Err EOF, mk_bstream [] (count b))
        | y :: _ =>
            (Ok (Z.lor (shlU 64 u nbits) (mid_bits y 8 nbits)), mk_bstream s (8 - nbits))
        end
      else
        (Ok (Z.lor (shlU 64 u nbits) (mid_bits x (count b) nbits)),
         mk_bstream (x :: s) (count b - nbits))
  end.

Definition readBits (b : bstream) (nbits : Z) : res Z * bstream :=
  match readBits_bytes (Z.to_nat nbits) b 0 nbits with
  | (Ok (u, nbits), b) => if nbits =? 0 then (Ok u, b) else readBits_tail b u nbits
  | (Err e, b) => (Err e, b)
  | (Panic, b) => (Panic, b)
  end.

(** * The writer *)

(** The bits written so far. *)
Definition wbits (b : bstream) : list bool :=
  take (8 * length (stream b) - Z.to_nat (count b)) (flat (stream b)).

(** The bits of the last byte that are still free are zero. *)
Definition wf_writer (b : bstream) : Prop :=
  Forall is_byte (stream b) /\ 0 <= count b <= 8 /\
  (0 < count b -> exists s x, stream b = s ++ [x] /\
     forall i, 0 <= i < count b -> Z.testbit x i = false).

Lemma or_last_snoc v s x : or_last v (s ++ [x]) = s ++ [Z.lor x v].
Proof.
  unfold or_last. rewrite length_app. simpl.
  replace (length s + 1 - 1)%nat with (length s + 0)%nat by lia.
  by rewrite alter_app_r.
Qed.

Lemma wbits_snoc s x c :
  0 <= c <= 8 ->
  wbits (mk_bstream (s ++ [x]) c) = flat s ++ bits_be (Z.to_nat (8 - c)) (Z.shiftr x c).
Proof.
  intros ?. unfold wbits. cbn [stream count].
  rewrite length_app, flat_app, flat_singleton. cbn [length].
  rewrite take_app_ge by (autorewrite with bits; lia). f_equal.
  rewrite take_bits_be by (autorewrite with bits; lia).
  autorewrite with bits. f_equal; [lia|]. f_equal. lia.
Qed.

Lemma next_byte_spec b :
  wf_writer b ->
  exists s x c, next_byte b = mk_bstream (s ++ [x]) c /\ 0 < c <= 8 /\
    Forall is_byte s /\ is_byte x /\ (forall i, 0 <= i < c -> Z.testbit x i = false) /\
    wbits b = flat s ++ bits_be (Z.to_nat (8 - c)) (Z.shiftr x c).
Proof.
  destruct b as [st c]. intros (Hst & Hc & Hlast). cbn [stream count] in *.
  unfold next_byte. cbn [stream count]. destruct (Z.eqb_spec c 0) as [->|].
  - exists st, 0, 8. split_and!; try done.
    + intros. apply Z.testbit_0_l.
    + unfold wbits. cbn [stream count]. simpl. rewrite app_nil_r.
      apply take_ge. rewrite length_flat. lia.
  - destruct Hlast as (s & x & -> & Hx); [lia|].
    apply Forall_app in Hst as [? [? _]%Forall_cons].
    exists s, x, c. split_and!; try done; try lia. apply wbits_snoc. lia.
Qed.

Lemma writeBit_spec b bit :
  wf_writer b -> wf_writer (writeBit b bit) /\ wbits (writeBit b bit) = wbits b ++ [bit].
Proof.
  intros (s & x & c & E & Hc & Hs & Hx & Hz & ->)%next_byte_spec.
  unfold writeBit. rewrite E. cbn [stream count]. clear E.
  set (x' := if bit then Z.lor x (shlU 8 1 (c - 1)) else x).
  assert (Hx' : forall i, 0 <= i < 8 ->
    Z.testbit x' i = if decide (i = c - 1) then bit else Z.testbit x i).
  { intros i ?. unfold x'. destruct bit; autorewrite with testbit; rewrite ?testbit_1.
    - destruct (decide _); bool_decide_lia; by rewrite ?orb_true_r, ?orb_false_r.
    - destruct (decide _); [apply Hz; lia|done]. }
  assert (is_byte x') by (unfold x'; destruct bit; eauto with mint lia).
  replace (if bit then or_last _ _ else _) with (s ++ [x'])
    by (unfold x'; destruct bit; by rewrite ?or_last_snoc).
  split.
  - split_and!; cbn [stream count]; try lia.
    + apply Forall_app; auto.
    + intros ?. exists s, x'. split; [done|]. intros i ?.
      rewrite Hx' by lia. destruct (decide _); [lia|]. apply Hz. lia.
  - rewrite wbits_snoc, <- app_assoc by lia. f_equal.
    replace (Z.to_nat (8 - (c - 1))) with (Z.to_nat (8 - c) + 1)%nat by lia.
    rewrite bits_be_add, Z.shiftr_shiftr by lia. f_equal.
    + apply bits_be_ext. intros i ?. rewrite !Z.shiftr_spec, Hx' by lia.
      destruct (decide _); [lia|]. f_equal. lia.
    + cbn. rewrite Z.shiftr_spec, Hx' by lia. by destruct (decide _); [|lia].
Qed.

Lemma writeByte_spec b byt :
  wf_writer b -> is_byte byt ->
  wf_writer (writeByte b byt) /\ wbits (writeByte b byt) = wbits b ++ bits_be 8 byt.
Proof.
  intros (s & x & c & E & Hc & Hs & Hx & Hz & ->)%next_byte_spec Hb.
  unfold writeByte. rewrite E. cbn [stream count]. clear E.
  rewrite or_last_snoc. set (x' := Z.lor x (shrU byt (8 - c))).
  assert (is_byte x') by (unfold x'; eauto with mint lia).
  split.
  - split_and!; cbn [stream count]; try lia.
    + rewrite !Forall_app, !Forall_singleton. eauto with mint lia.
    + intros _. eexists _, _. split; [done|]. intros i ?.
      autorewrite with testbit. rewrite (Z.testbit_neg_r _ (i - c)) by lia. apply andb_false_r.
  - rewrite wbits_snoc, flat_app, flat_singleton, <- !app_assoc by lia. f_equal.
    set (n := Z.to_nat (8 - c)). set (m := Z.to_nat c).
    transitivity (bits_be n (Z.shiftr x c) ++ bits_be m (shrU byt (8 - c)) ++ bits_be n byt).
    + rewrite app_assoc. f_equal.
      * replace 8%nat with (n + m)%nat by lia. rewrite bits_be_add. f_equal.
        -- apply bits_be_ext. intros i ?. unfold x'. autorewrite with testbit.
           rewrite (testbit_is_u 8 byt) by (done || lia). rewrite orb_false_r. f_equal. lia.
        -- apply bits_be_ext. intros i ?. unfold x'. autorewrite with testbit.
           rewrite Hz by lia. done.
      * apply bits_be_ext. intros i ?. autorewrite with testbit. bool_decide_lia. cbn. f_equal. lia.
    + f_equal. replace 8%nat with (m + n)%nat by lia. rewrite bits_be_add. f_equal.
      apply bits_be_ext. intros i ?. autorewrite with testbit. f_equal. lia.
Qed.

(** The [k] most significant bits of a 64-bit word. *)
Definition top_bits (k u : Z) : list bool := bits_be (Z.to_nat k) (shrU u (64 - k)).

Lemma top_bits_split j k u :
  0 <= j <= k -> k <= 64 ->
  top_bits k u = bits_be (Z.to_nat j) (shrU u (64 - j)) ++ top_bits (k - j) (shlU 64 u j).
Proof.
  intros ??. unfold top_bits.
  replace (Z.to_nat k) with (Z.to_nat j + Z.to_nat (k - j))%nat by lia.
  rewrite bits_be_add. f_equal.
  - apply bits_be_ext. intros i ?. autorewrite with testbit. f_equal. lia.
  - apply bits_be_ext. intros i ?. autorewrite with testbit. bool_decide_lia. cbn. f_equal. lia.
Qed.

Lemma writeBits_bytes_spec fuel b u k :
  wf_writer b -> is_u64 u -> 0 <= k <= 64 -> k <= Z.of_nat fuel ->
  exists b' u' k', writeBits_bytes fuel b u k = (b', u', k') /\ wf_writer b' /\ is_u64 u' /\
    0 <= k' < 8 /\ k' <= k /\ wbits b' ++ top_bits k' u' = wbits b ++ top_bits k u.
Proof.
  revert b u k. induction fuel as [|fuel IH]; intros b u k Hb Hu Hk Hf; cbn [writeBits_bytes].
  - exists b, u, k. split_and!; try done; lia.
  - destruct (Z.leb_spec 8 k); [|by exists b, u, k; split_and!; try done; lia].
    destruct (writeByte_spec b (u8 (shrU u 56))) as [Hb' E]; [done|apply u8_range|].
    destruct (IH (writeByte b (u8 (shrU u 56))) (shlU 64 u 8) (k - 8)) as
      (b' & u' & k' & -> & ? & ? & ? & ? & E'); [done|eauto with mint lia|lia..|].
    exists b', u', k'. split_and!; try done; try lia.
    rewrite E', E, <- app_assoc, (top_bits_split 8 k u) by lia. do 2 f_equal.
    by apply (bits_be_mod 8 8).
Qed.

Lemma writeBits_bits_spec fuel b u k :
  wf_writer b -> is_u64 u -> 0 <= k <= 64 -> k <= Z.of_nat fuel ->
  wf_writer (writeBits_bits fuel b u k) /\
  wbits (writeBits_bits fuel b u k) = wbits b ++ top_bits k u.
Proof.
  revert b u k. induction fuel as [|fuel IH]; intros b u k Hb Hu Hk Hf; cbn [writeBits_bits].
  - replace k with 0 by lia. by rewrite app_nil_r.
  - destruct (Z.ltb_spec 0 k); [|replace k with 0 by lia; by rewrite app_nil_r].
    destruct (writeBit_spec b (shrU u 63 =? 1)) as [Hb' E]; [done|].
    destruct (IH (writeBit b (shrU u 63 =? 1)) (shlU 64 u 1) (k - 1)) as [? E'];
      [done|eauto with mint lia|lia..|].
    split; [done|]. rewrite E', E, <- app_assoc, (top_bits_split 1 k u) by lia. do 2 f_equal.
    change (bits_be (Z.to_nat 1) (shrU u (64 - 1))) with [Z.testbit (shrU u 63) 0].
    f_equal. destruct Hu as [? ?].
    assert (Hr : 0 <= shrU u 63 < 2).
    { unfold shrU. rewrite Z.shiftr_div_pow2 by lia. zlia. }
    destruct (Z.eqb_spec (shrU u 63) 1) as [->|]; [done|]. by replace (shrU u 63) with 0 by lia.
Qed.

Lemma writeBits_refines b u n :
  wf_writer b -> 0 <= n <= 64 ->
  wf_writer (writeBits b u n) /\ wbits (writeBits b u n) = wbits b ++ bits_be (Z.to_nat n) u.
Proof.
  intros Hb Hn. unfold writeBits. rewrite (u64_small (64 - n)) by zlia.
  destruct (writeBits_bytes_spec (Z.to_nat n) b (shlU 64 u (64 - n)) n) as
    (b' & u' & k' & -> & ? & ? & ? & ? & E); [done|eauto with mint lia|lia..|].
  destruct (writeBits_bits_spec (Z.to_nat n) b' u' k') as [? ->]; [done..|lia|lia|].
  split; [done|]. rewrite E. f_equal. apply bits_be_ext. intros i ?.
  autorewrite with testbit. bool_decide_lia. cbn. f_equal. lia.
Qed.

(** * The reader *)

(** The bits left to read. *)
Definition rbits (b : bstream) : list bool :=
  drop (8 - Z.to_nat (count b)) (flat (stream b)).

Definition wf_reader (b : bstream) : Prop :=
  Forall is_byte (stream b) /\ 0 <= count b <= 8.

(** A reader that has not run off its stream: the states between successful
    reads, in which [readBits] cannot panic. *)
Definition live_reader (b : bstream) : Prop := wf_reader b /\ stream b <> [].

Lemma rbits_cons x s c :
  0 <= c <= 8 -> rbits (mk_bstream (x :: s) c) = bits_be (Z.to_nat c) x ++ flat s.
Proof.
  intros ?. unfold rbits. cbn [stream count]. rewrite flat_cons.
  rewrite drop_app_le by (autorewrite with bits; lia).
  rewrite drop_bits_be by lia. do 2 f_equal. lia.
Qed.

Lemma rbits_nil c : rbits (mk_bstream [] c) = [].
Proof. apply drop_nil. Qed.

Lemma rbits_full s : rbits (mk_bstream s 8) = flat s.
Proof. done. Qed.

(** The top bit test of [readBit]. *)
Lemma top_bit_test x c :
  1 <= c <= 8 -> negb (Z.land (shlU 8 x (8 - c)) 128 =? 0) = Z.testbit x (c - 1).
Proof.
  intros ?. set (y := shlU 8 x (8 - c)).
  replace (Z.testbit x (c - 1)) with (Z.testbit y 7).
  - change 128 with (2 ^ 7). destruct (Z.testbit y 7) eqn:E.
    + destruct (Z.eqb_spec (Z.land y (2 ^ 7)) 0) as [E'|]; [|done].
      apply (f_equal (fun z => Z.testbit z 7)) in E'.
      by rewrite Z.land_spec, E, Z.testbit_0_l in E'.
    + replace (Z.land y (2 ^ 7)) with 0; [done|]. symmetry. apply Z.bits_inj'. intros i ?.
      rewrite Z.land_spec, Z.testbit_0_l, Z.pow2_bits_eqb by lia.
      destruct (Z.eqb_spec 7 i) as [<-|]; [by rewrite E|apply andb_false_r].
  - unfold y. autorewrite with testbit. bool_decide_lia. cbn. f_equal. lia.
Qed.

(** What a read of [n] bits does to the bits left: the value of the first [n]
    when there are so many, the end of the stream otherwise. *)
Definition read_spec {A} (n : nat) (f : list bool -> A) (b : bstream) (r : res A * bstream) : Prop :=
  if decide (n <= length (rbits b))%nat
  then exists b', r = (Ok (f (take n (rbits b))), b') /\
         live_reader b' /\ rbits b' = drop n (rbits b)
  else fst r = Err EOF.

Definition first_bit (l : list bool) : bool := default false (head l).

Lemma read_spec_ok {A} n (f : list bool -> A) b l b' r :
  rbits b = l ++ rbits b' -> length l = n -> r = (Ok (f l), b') -> live_reader b' ->
  read_spec n f b r.
Proof.
  intros E Hl -> Hb'. unfold read_spec. rewrite E, length_app, decide_True by lia.
  exists b'. by rewrite take_app_length', drop_app_length'.
Qed.

Lemma read_spec_eof {A} n (f : list bool -> A) b r :
  (length (rbits b) < n)%nat -> fst r = Err EOF -> read_spec n f b r.
Proof. intros ??. unfold read_spec. by rewrite decide_False by lia. Qed.

Lemma read_spec_ext {A} n (f g : list bool -> A) b r :
  (forall l, f l = g l) -> read_spec n f b r -> read_spec n g b r.
Proof.
  intros E. unfold read_spec. destruct (decide _); [|done].
  intros (b' & -> & ?). exists b'. by rewrite E.
Qed.

Ltac live := split; [split; cbn [stream count] in *; [first [done|by apply Forall_cons]|lia]|done].

Lemma readBit_spec b : wf_reader b -> read_spec 1 first_bit b (readBit b).
Proof.
  destruct b as [[|x s] c]; intros [Hs Hc]; cbn [stream count] in *.
  { apply read_spec_eof; [|done]. rewrite rbits_nil. simpl; lia. }
  apply Forall_cons in Hs as [Hx Hs]. unfold readBit. cbn [stream count].
  destruct (Z.eqb_spec c 0) as [->|].
  - destruct s as [|y s].
    + apply read_spec_eof; [|done]. rewrite rbits_cons by lia. simpl. lia.
    + apply Forall_cons in Hs as [Hy Hs].
      apply (read_spec_ok _ _ _ [Z.testbit y 7] (mk_bstream (y :: s) (8 - 1))); [|done|..|live].
      * by rewrite !rbits_cons by lia.
      * by rewrite top_bit_test by lia.
  - apply (read_spec_ok _ _ _ [Z.testbit x (c - 1)] (mk_bstream (x :: s) (c - 1))); [|done|..|live].
    + rewrite !rbits_cons by lia. rewrite app_assoc. f_equal.
      replace (Z.to_nat c) with (S (Z.to_nat (c - 1))) by lia. cbn [bits_be app].
      do 2 f_equal. lia.
    + by rewrite top_bit_test by lia.
Qed.

Lemma readByte_spec b : wf_reader b -> read_spec 8 bits_val b (readByte b).
Proof.
  destruct b as [[|x s] c]; intros [Hs Hc]; cbn [stream count] in *.
  { apply read_spec_eof; [|done]. rewrite rbits_nil. simpl; lia. }
  apply Forall_cons in Hs as [Hx Hs]. unfold readByte. cbn [stream count].
  assert (Hv : forall y, is_byte y -> y = bits_val (bits_be 8 y)).
  { intros y ?. rewrite bits_val_bits_be. symmetry. by apply u8_small. }
  destruct (Z.eqb_spec c 0) as [->|]; [|destruct (Z.eqb_spec c 8) as [->|]].
  - destruct s as [|y s].
    + apply read_spec_eof; [|done]. rewrite rbits_cons by lia. simpl. lia.
    + apply Forall_cons in Hs as [Hy Hs].
      apply (read_spec_ok _ _ _ (bits_be 8 y) (mk_bstream (y :: s) 0));
        [by rewrite !rbits_cons by lia|done|by rewrite <- Hv|live].
  - apply (read_spec_ok _ _ _ (bits_be 8 x) (mk_bstream (x :: s) 0));
      [by rewrite !rbits_cons by lia|done|by rewrite <- Hv|live].
  - destruct s as [|y s].
    + apply read_spec_eof; [|done].
      rewrite rbits_cons, length_app, length_bits_be by lia. simpl. lia.
    + apply Forall_cons in Hs as [Hy Hs]. set (v := Z.lor (shlU 8 x (8 - c)) (shrU y c)).
      assert (is_byte v) by (unfold v; eauto with mint lia).
      apply (read_spec_ok _ _ _ (bits_be 8 v) (mk_bstream (y :: s) c));
        [|done|by rewrite <- Hv|live].
      rewrite !rbits_cons, flat_cons, !app_assoc by lia. f_equal.
      set (k := Z.to_nat c). set (m := Z.to_nat (8 - c)).
      replace 8%nat with (k + m)%nat by lia. rewrite (bits_be_add k m v).
      replace (k + m)%nat with (m + k)%nat by lia. rewrite (bits_be_add m k y), app_assoc.
      f_equal. f_equal.
      * apply bits_be_ext. intros i ?. unfold v. autorewrite with testbit. bool_decide_lia.
        rewrite (testbit_is_u 8 y) by (done || lia). cbn. rewrite orb_false_r. f_equal. lia.
      * apply bits_be_ext. intros i ?. unfold v. autorewrite with testbit. bool_decide_lia.
        rewrite (Z.testbit_neg_r x) by lia. cbn. f_equal. lia.
Qed.

Lemma mid_bits_val x c k :
  0 <= k <= c -> c <= 8 ->
  mid_bits x c k = bits_val (bits_be (Z.to_nat k) (shrU x (c - k))).
Proof.
  intros ??. rewrite bits_val_bits_be, Z2Nat.id by lia. fold (wrapU k (shrU x (c - k))).
  unfold mid_bits. apply Z.bits_inj'. intros i ?. autorewrite with testbit.
  rewrite (bool_decide_ext (i + (8 - k) < 8) (i < k)) by lia. do 2 f_equal. lia.
Qed.

(** Reading continues from the [l] already read: the prefix [l] joins what
    comes next. *)
Lemma read_spec_step {A} m n (f : list bool -> A) l b b' r :
  rbits b = l ++ rbits b' -> length l = m ->
  read_spec n (fun l' => f (l ++ l')) b' r -> read_spec (m + n) f b r.
Proof.
  intros E Hl. unfold read_spec. rewrite E, length_app, Hl.
  destruct (decide (n <= length (rbits b'))%nat) as [|].
  - rewrite decide_True by lia. intros (b'' & -> & ? & Hb''). exists b''.
    rewrite take_app_ge, drop_app_ge, Hl by lia. rewrite Hb''.
    by replace (m + n - m)%nat with n by lia.
  - by rewrite decide_False by lia.
Qed.

Lemma readBits_tail_spec b l k :
  live_reader b -> 0 < k < 8 -> (length l + Z.to_nat k <= 64)%nat ->
  read_spec (Z.to_nat k) (fun l' => bits_val (l ++ l')) b (readBits_tail b (bits_val l) k).
Proof.
  destruct b as [[|x s] c]; intros [[Hs Hc] Hne] Hk Hl; [done|]. cbn [stream count] in *.
  unfold readBits_tail. cbn [stream count]. destruct (Z.ltb_spec c k).
  - set (p := bits_be (Z.to_nat c) x).
    replace (mid_bits x c c) with (bits_val p)
      by (rewrite mid_bits_val by lia; f_equal; apply bits_be_ext; intros i ?;
          autorewrite with testbit; f_equal; lia).
    assert (Hp : c = Z.of_nat (length p)) by (unfold p; rewrite length_bits_be; lia).
    pose proof (lor_shl_bits_val l p) as E. rewrite <- Hp in E. rewrite E by lia. clear E.
    destruct s as [|y s].
    { apply read_spec_eof; [|done]. rewrite rbits_cons by lia. rewrite length_app, length_bits_be.
      simpl. lia. }
    apply Forall_cons in Hs as [_ Hs]. pose proof Hs as [Hy Hs']%Forall_cons.
    set (q := bits_be (Z.to_nat (k - c)) (shrU y (8 - (k - c)))).
    apply (read_spec_ok _ _ _ (p ++ q) (mk_bstream (y :: s) (8 - (k - c))));
      [|rewrite length_app; unfold q; rewrite length_bits_be; lia| |live].
    + rewrite !rbits_cons, flat_cons, <- !app_assoc by lia. fold p. f_equal.
      rewrite app_assoc. f_equal.
      replace 8%nat with (Z.to_nat (k - c) + Z.to_nat (8 - (k - c)))%nat by lia.
      rewrite bits_be_add. f_equal. unfold q, shrU. do 2 f_equal. lia.
    + rewrite mid_bits_val by lia. fold q.
      assert (Hq : k - c = Z.of_nat (length q)) by (unfold q; rewrite length_bits_be; lia).
      pose proof (lor_shl_bits_val (l ++ p) q) as E. rewrite <- Hq in E.
      rewrite E, app_assoc; [done|]. rewrite length_app. lia.
  - set (q := bits_be (Z.to_nat k) (shrU x (c - k))).
    apply (read_spec_ok _ _ _ q (mk_bstream (x :: s) (c - k)));
      [|unfold q; by rewrite length_bits_be| |live].
    + rewrite !rbits_cons, app_assoc by lia. f_equal.
      replace (Z.to_nat c) with (Z.to_nat k + Z.to_nat (c - k))%nat by lia.
      rewrite bits_be_add. f_equal. unfold q, shrU. do 2 f_equal. lia.
    + rewrite mid_bits_val by lia. fold q.
      assert (Hq : k = Z.of_nat (length q)) by (unfold q; rewrite length_bits_be; lia).
      pose proof (lor_shl_bits_val l q) as E. rewrite <- Hq in E.
      rewrite E; [done|]. lia.
Qed.

(** [readBits] continued with the bits [l] read so far. *)
Definition readBits_from (fuel : nat) (b : bstream) (u nbits : Z) : res Z * bstream :=
  match readBits_bytes fuel b u nbits with
  | (Ok (u, nbits), b) => if nbits =? 0 then (Ok u, b) else readBits_tail b u nbits
  | (Err e, b) => (Err e, b)
  | (Panic, b) => (Panic, b)
  end.

Lemma readBits_from_spec fuel b l k :
  live_reader b -> 0 <= k -> k <= Z.of_nat fuel -> (length l + Z.to_nat k <= 64)%nat ->
  read_spec (Z.to_nat k) (fun l' => bits_val (l ++ l')) b (readBits_from fuel b (bits_val l) k).
Proof.
  revert b l k. induction fuel as [|fuel IH]; intros b l k Hb Hk Hf Hl.
  - replace k with 0 by lia. unfold readBits_from. cbn.
    by apply (read_spec_ok _ _ _ [] b); [..|by rewrite app_nil_r|].
  - unfold readBits_from. cbn [readBits_bytes]. destruct (Z.leb_spec 8 k).
    + pose proof (readByte_spec b (proj1 Hb)) as Hr. unfold read_spec in Hr.
      destruct (decide _) as [Hlen|Hlen].
      * destruct Hr as (b' & -> & Hb' & Hdrop).
        assert (Hp : length (take 8 (rbits b)) = 8%nat) by (rewrite length_take; lia).
        pose proof (lor_shl_bits_val l (take 8 (rbits b))) as E.
        rewrite Hp in E. change (Z.of_nat 8) with 8 in E. rewrite E by lia.
        replace (Z.to_nat k) with (8 + Z.to_nat (k - 8))%nat by lia.
        apply (read_spec_step _ _ _ (take 8 (rbits b)) _ b');
          [by rewrite Hdrop, take_drop|done|].
        eapply read_spec_ext, (IH b' (l ++ take 8 (rbits b)) (k - 8)); [|done|lia..|].
        -- intros l'. by rewrite app_assoc.
        -- rewrite length_app. lia.
      * destruct (readByte b) as [[?|e|] b']; try done. injection Hr as ->.
        apply read_spec_eof; [lia|done].
    + destruct (Z.eqb_spec k 0) as [->|].
      * by apply (read_spec_ok _ _ _ [] b); [..|by rewrite app_nil_r|].
      * apply readBits_tail_spec; [done|lia|done].
Qed.

Lemma readBits_spec b n :
  live_reader b -> 0 <= n <= 64 -> read_spec (Z.to_nat n) bits_val b (readBits b n).
Proof.
  intros Hb Hn. apply (readBits_from_spec (Z.to_nat n) b [] n); [done|lia..|simpl; lia].
Qed.

(** The writer read back: a reader over the stream of a writer has the bits
    written, followed by the zero bits that pad the last byte. *)
Lemma rbits_of_writer b :
  wf_writer b ->
  live_reader (newBReader (bytes b)) \/ wbits b = [] /\ stream b = [].
Proof.
  destruct b as [[|x s] c]; intros (Hs & Hc & _); [by right|left].
  split; [|done]. split; cbn [newBReader bytes stream count] in *; [done|lia].
Qed.

Lemma rbits_newBReader b :
  wf_writer b -> exists pad, rbits (newBReader (bytes b)) = wbits b ++ pad.
Proof.
  intros _. eexists. symmetry. apply take_drop.
Qed.

(** The read lemmas in the form decoders use: the bits left start with the
    encoding of what is read. *)
Lemma readBit_app b c rest :
  wf_reader b -> rbits b = c :: rest ->
  exists b', readBit b = (Ok c, b') /\ live_reader b' /\ rbits b' = rest.
Proof.
  intros Hb E. pose proof (readBit_spec b Hb) as Hr. unfold read_spec in Hr. rewrite E in Hr.
  rewrite decide_True in Hr by (simpl; lia). destruct Hr as (b' & -> & ? & ?). by exists b'.
Qed.

Lemma readByte_app b x rest :
  wf_reader b -> is_byte x -> rbits b = bits_be 8 x ++ rest ->
  exists b', readByte b = (Ok x, b') /\ live_reader b' /\ rbits b' = rest.
Proof.
  intros Hb Hx E. pose proof (readByte_spec b Hb) as Hr. unfold read_spec in Hr.
  rewrite decide_True in Hr by (rewrite E, length_app, length_bits_be; lia).
  destruct Hr as (b' & -> & ? & Hd). exists b'.
  rewrite Hd, E, take_app_length', drop_app_length' by done.
  split_and!; try done. do 2 f_equal. rewrite bits_val_bits_be. by apply u8_small.
Qed.

Lemma readBits_app b n x rest :
  live_reader b -> 0 <= n <= 64 -> rbits b = bits_be (Z.to_nat n) x ++ rest ->
  exists b', readBits b n = (Ok (x mod 2 ^ n), b') /\ live_reader b' /\ rbits b' = rest.
Proof.
  intros Hb Hn E. pose proof (readBits_spec b n Hb Hn) as Hr. unfold read_spec in Hr.
  rewrite decide_True in Hr by (rewrite E, length_app, length_bits_be; lia).
  destruct Hr as (b' & -> & ? & Hd). exists b'.
  rewrite Hd, E, take_app_length', drop_app_length' by by rewrite length_bits_be.
  by rewrite bits_val_bits_be, Z2Nat.id by lia.
Qed.

Lemma live_wf b : live_reader b -> wf_reader b.
Proof. by intros []. Qed.
#[export] Hint Resolve live_wf : core.
