(* ===== verification/Varint.v ===== *)
(** encoding/binary of the Go standard library, as far as the code uses it:
    varints (buffer and reader forms) and big endian integers. *)
From S2P Require Import Prelude Bits.
#[local] Open Scope Z_scope.

Definition MaxVarintLen64 : nat := 10.
Definition MaxVarintLen32 : nat := 5.

(** io.ByteReader: what [binary.ReadUvarint] asks of the bit stream. *)
Class ByteReader (S : Type) := read_byte : S -> res Z * S.

(** [binary.PutUvarint] as the bytes it writes; an unsigned 64-bit value takes
    at most ten rounds. *)
Fixpoint uvarint_bytes (fuel : nat) (x : Z) : list Z :=
  match fuel with
  | O => [u8 x]
  | S fuel =>
      if 128 <=? x then Z.lor (u8 x) 128 :: uvarint_bytes fuel (shrU x 7) else [u8 x]
  end.

Definition PutUvarint (x : Z) : list Z := uvarint_bytes MaxVarintLen64 x.

(** The zig-zag map of [binary.PutVarint]: [ux := uint64(x) << 1; if x < 0 { ux = ^ux }]. *)
Definition zigzag (x : Z) : Z :=
  let ux := shlU 64 (u64 x) 1 in if x <? 0 then Z.lxor ux (2 ^ 64 - 1) else ux.

Definition unzigzag (ux : Z) : Z :=
  let x := i64 (shrU ux 1) in if Z.odd ux then Z.lnot x else x.

Definition PutVarint (x : Z) : list Z := PutUvarint (zigzag x).

(** [binary.Uvarint]: value and number of bytes read; 0 bytes when the buffer
    is too small, a negative number on overflow. *)
Fixpoint uvarint_loop (i : nat) (buf : list Z) (x s : Z) : Z * Z :=
  match buf with
  | [] => (0, 0)
  | b :: buf =>
      if (i =? 10)%nat then (0, - (Z.of_nat i + 1))
      else if b <? 128 then
        if (i =? 9)%nat && (1 <? b) then (0, - (Z.of_nat i + 1))
        else (Z.lor x (shlU 64 b s), Z.of_nat i + 1)
      else uvarint_loop (S i) buf (Z.lor x (shlU 64 (Z.land b 127) s)) (s + 7)
  end.

Definition Uvarint (buf : list Z) : Z * Z := uvarint_loop 0 buf 0 0.

Definition Varint (buf : list Z) : Z * Z :=
  let '(ux, n) := Uvarint buf in (unzigzag ux, n).

Section Readers.
Context {S : Type} `{ByteReader S}.

(** [binary.ReadUvarint]: at most ten bytes. *)
Fixpoint read_uvarint_loop (fuel : nat) (r : S) (x s : Z) : res Z * S :=
  match fuel with
  | O => (Err ErrOverflow, r)
  | Datatypes.S fuel =>
      match read_byte r with
      | (Ok b, r) =>
          if b <? 128 then
            if (fuel =? 0)%nat && (1 <? b) then (Err ErrOverflow, r)
            else (Ok (Z.lor x (shlU 64 b s)), r)
          else read_uvarint_loop fuel r (Z.lor x (shlU 64 (Z.land b 127) s)) (s + 7)
      | (Err e, r) => (Err e, r)
      | (Panic, r) => (Panic, r)
      end
  end.

Definition ReadUvarint (r : S) : res Z * S := read_uvarint_loop MaxVarintLen64 r 0 0.

Definition ReadVarint (r : S) : res Z * S :=
  match ReadUvarint r with
  | (Ok ux, r) => (Ok (unzigzag ux), r)
  | (Err e, r) => (Err e, r)
  | (Panic, r) => (Panic, r)
  end.
End Readers.

(** * Big endian integers *)

Fixpoint be_bytes (n : nat) (x : Z) : list Z :=
  match n with
  | O => []
  | S n => u8 (shrU x (8 * Z.of_nat n)) :: be_bytes n x
  end.

Definition be_val (l : list Z) : Z := foldl (fun acc b => 256 * acc + b) 0 l.

Definition PutUint16 (x : Z) : list Z := be_bytes 2 x.
Definition PutUint32 (x : Z) : list Z := be_bytes 4 x.
Definition PutUint64 (x : Z) : list Z := be_bytes 8 x.

(** [binary.BigEndian.UintN]: panics on a slice of fewer than N/8 bytes. *)
Definition UintN (n : nat) (b : list Z) : res Z :=
  if (n <=? length b)%nat then Ok (be_val (take n b)) else Panic.
Definition Uint16 : list Z -> res Z := UintN 2.
Definition Uint32 : list Z -> res Z := UintN 4.
Definition Uint64 : list Z -> res Z := UintN 8.

(** * Proofs: big endian *)

Lemma length_be_bytes n x : length (be_bytes n x) = n.
Proof. induction n; simpl; auto. Qed.

Lemma Forall_be_bytes n x : Forall is_byte (be_bytes n x).
Proof. induction n; simpl; constructor; auto. apply u8_range. Qed.

Lemma be_val_app l r : be_val (l ++ r) = be_val l * 256 ^ Z.of_nat (length r) + be_val r.
Proof.
  unfold be_val. rewrite foldl_app. generalize (foldl (fun acc b => 256 * acc + b) 0 l) as a.
  induction r as [|b r IH] using rev_ind; intros a; [simpl; lia|].
  rewrite !foldl_app, length_app. cbn [length foldl]. rewrite IH.
  rewrite Nat2Z.inj_add, Z.pow_add_r by lia. lia.
Qed.

Lemma be_val_cons b l : be_val (b :: l) = b * 256 ^ Z.of_nat (length l) + be_val l.
Proof. exact (be_val_app [b] l). Qed.

Lemma be_val_be_bytes n x : be_val (be_bytes n x) = x mod 2 ^ (8 * Z.of_nat n).
Proof.
  induction n as [|n IH]; [by rewrite Z.mod_1_r|].
  cbn [be_bytes]. rewrite be_val_cons, IH, length_be_bytes.
  unfold u8, wrapU, shrU. rewrite Z.shiftr_div_pow2 by lia.
  replace (8 * Z.of_nat (S n)) with (8 * Z.of_nat n + 8) by lia.
  rewrite Z.pow_add_r by lia. change (256) with (2 ^ 8). rewrite <- Z.pow_mul_r by lia.
  pose proof (Z.pow_pos_nonneg 2 (8 * Z.of_nat n)).
  rewrite Z.rem_mul_r by lia. lia.
Qed.

Lemma be_bytes_be_val l : Forall is_byte l -> be_bytes (length l) (be_val l) = l.
Proof.
  induction 1 as [|b l Hb Hl IH]; [done|].
  cbn [length be_bytes]. rewrite be_val_cons. set (n := Z.of_nat (length l)) in *.
  assert (Hr : 0 <= be_val l < 2 ^ (8 * n)).
  { rewrite <- IH, be_val_be_bytes. apply Z.mod_pos_bound, Z.pow_pos_nonneg; lia. }
  change 256 with (2 ^ 8). rewrite <- Z.pow_mul_r by lia. f_equal.
  - unfold shrU. rewrite Z.shiftr_div_pow2, Z.div_add_l, Z.div_small, Z.add_0_r by lia.
    by apply u8_small.
  - transitivity (be_bytes (length l) (be_val l)); [|done].
    assert (E : forall k, (k <= length l)%nat ->
      be_bytes k (b * 2 ^ (8 * n) + be_val l) = be_bytes k (be_val l)); [|by apply E].
    induction k as [|k IHk]; intros ?; [done|]. cbn [be_bytes]. f_equal; [|apply IHk; lia].
    unfold u8, wrapU, shrU. rewrite !Z.shiftr_div_pow2 by lia.
    replace (8 * n) with (8 * Z.of_nat k + 8 + (8 * n - 8 * Z.of_nat k - 8)) by lia.
    rewrite !Z.pow_add_r by lia.
    replace (b * (2 ^ (8 * Z.of_nat k) * 2 ^ 8 * 2 ^ (8 * n - 8 * Z.of_nat k - 8)) + be_val l)
      with ((b * 2 ^ (8 * n - 8 * Z.of_nat k - 8) * 2 ^ 8) * 2 ^ (8 * Z.of_nat k) + be_val l) by lia.
    rewrite Z.div_add_l by lia. by rewrite Z.add_comm, Z.mod_add.
Qed.

Lemma flat_be_bytes n x : flat (be_bytes n x) = bits_be (8 * n) x.
Proof.
  induction n as [|n IH]; [done|]. cbn [be_bytes]. rewrite flat_cons, IH.
  replace (8 * S n)%nat with (8 + 8 * n)%nat by lia. rewrite bits_be_add. f_equal.
  unfold u8, wrapU. rewrite bits_be_mod by lia. unfold shrU. do 2 f_equal. lia.
Qed.

Lemma UintN_app n x l : UintN n (be_bytes n x ++ l) = Ok (x mod 2 ^ (8 * Z.of_nat n)).
Proof.
  unfold UintN. rewrite length_app, length_be_bytes.
  destruct (Nat.leb_spec n (n + length l)); [|lia].
  rewrite take_app_length' by (by rewrite length_be_bytes). by rewrite be_val_be_bytes.
Qed.

(** * Proofs: varints *)

(** The bytes [bs] can be read from [r] one after the other, leaving [r']. *)
Inductive feeds {S : Type} `{ByteReader S} : S -> list Z -> S -> Prop :=
| feeds_nil r : feeds r [] r
| feeds_cons r b r1 bs r' :
    read_byte r = (Ok b, r1) -> feeds r1 bs r' -> feeds r (b :: bs) r'.

Lemma continuation_byte v :
  128 <= Z.lor (u8 v) 128 < 256 /\ Z.land (Z.lor (u8 v) 128) 127 = v mod 128.
Proof.
  pose proof (byte_exhaustive
    (fun b => bool_decide (128 <= Z.lor b 128 < 256 /\ Z.land (Z.lor b 128) 127 = b mod 128))
    ltac:(by vm_compute) (u8 v) (u8_range v)) as H%bool_decide_eq_true.
  destruct H as [? ->]. split; [done|]. zlia.
Qed.

(** One round of decoding puts seven more bits in place. *)
Lemma uvarint_step v s :
  0 <= s <= 56 ->
  shlU 64 (v mod 128) s = Z.shiftl (v mod 128) s /\
  forall x, Z.lor (Z.lor x (Z.shiftl (v mod 128) s)) (Z.shiftl (shrU v 7) (s + 7)) =
            Z.lor x (Z.shiftl v s).
Proof.
  intros Hs. split.
  - unfold shlU. destruct (Z.ltb_spec s 64); [|lia]. apply wrapU_small.
    rewrite Z.shiftl_mul_pow2 by lia.
    pose proof (Z.mod_pos_bound v 128 ltac:(lia)).
    pose proof (Z.pow_pos_nonneg 2 s). pose proof (Z.pow_le_mono_r 2 s 56).
    unfold is_u. change (2 ^ 64) with (256 * 2 ^ 56). nia.
  - intros x. rewrite <- Z.lor_assoc. f_equal. change 128 with (2 ^ 7).
    apply Z.bits_inj'. intros i ?. rewrite Z.lor_spec, !Z.shiftl_spec by lia.
    destruct (decide (i < s + 7)).
    + rewrite (Z.testbit_neg_r _ (i - (s + 7))), orb_false_r by lia.
      destruct (decide (i < s)); [by rewrite !Z.testbit_neg_r by lia|].
      apply Z.mod_pow2_bits_low. lia.
    + rewrite Z.mod_pow2_bits_high, testbit_shrU by lia. cbn. f_equal. lia.
Qed.

Lemma uvarint_last v s : 0 <= s -> 0 <= v < 2 ^ (64 - s) -> shlU 64 v s = Z.shiftl v s.
Proof.
  intros ??. unfold shlU. destruct (Z.ltb_spec s 64).
  - apply wrapU_small. rewrite Z.shiftl_mul_pow2 by lia. unfold is_u.
    replace 64 with ((64 - s) + s) by lia. rewrite Z.pow_add_r by lia.
    pose proof (Z.pow_pos_nonneg 2 s). nia.
  - destruct (decide (s = 64)) as [->|]; [|rewrite Z.pow_neg_r in *; lia].
    replace v with 0 by (change (2 ^ (64 - 64)) with 1 in *; lia). by rewrite Z.shiftl_0_l.
Qed.

Lemma shrU_7_range v n : 7 <= n -> 0 <= v < 2 ^ n -> 0 <= shrU v 7 < 2 ^ (n - 7).
Proof.
  intros ??. unfold shrU. rewrite Z.shiftr_div_pow2 by lia.
  split; [apply Z.div_pos; lia|]. apply Z.div_lt_upper_bound; [lia|].
  rewrite <- Z.pow_add_r by lia. replace (7 + (n - 7)) with n by lia. lia.
Qed.

(** Decoding state before byte [i] of the encoding of a 64-bit value. *)
Definition uvarint_inv (i fuel : nat) (v s : Z) : Prop :=
  s = 7 * Z.of_nat i /\ (i + fuel = 9)%nat /\ 0 <= v < 2 ^ (64 - s).

Lemma uvarint_inv_step i fuel v s :
  uvarint_inv i (S fuel) v s -> uvarint_inv (S i) fuel (shrU v 7) (s + 7).
Proof.
  intros (-> & ? & ?). split; [lia|]. split; [lia|].
  replace (64 - (7 * Z.of_nat i + 7)) with (64 - 7 * Z.of_nat i - 7) by lia.
  apply shrU_7_range; (lia || done).
Qed.

Lemma uvarint_inv_0 i v s : uvarint_inv i 0 v s -> 0 <= v < 2.
Proof. intros (-> & ? & ?). replace i with 9%nat in * by lia. done. Qed.

Lemma uvarint_loop_bytes i fuel x v s rest :
  uvarint_inv i fuel v s ->
  uvarint_loop i (uvarint_bytes fuel v ++ rest) x s =
    (Z.lor x (Z.shiftl v s), Z.of_nat (i + length (uvarint_bytes fuel v))).
Proof.
  revert i x v s. induction fuel as [|fuel IH]; intros i x v s Hinv.
  - pose proof (uvarint_inv_0 _ _ _ Hinv). destruct Hinv as (Hs & Hi & Hv).
    cbn [uvarint_bytes app uvarint_loop length].
    rewrite u8_small by (unfold is_u; lia).
    destruct (Nat.eqb_spec i 10); [lia|]. destruct (Z.ltb_spec v 128); [|lia].
    destruct (Z.ltb_spec 1 v); [lia|]. rewrite andb_false_r, uvarint_last by (done || lia).
    f_equal. lia.
  - pose proof (uvarint_inv_step _ _ _ _ Hinv) as Hstep. destruct Hinv as (Hs & Hi & Hv).
    cbn [uvarint_bytes]. destruct (Z.leb_spec 128 v).
    + cbn [app uvarint_loop length]. destruct (continuation_byte v) as [? ->].
      destruct (Nat.eqb_spec i 10); [lia|]. destruct (Z.ltb_spec (Z.lor (u8 v) 128) 128); [lia|].
      destruct (uvarint_step v s) as [-> E]; [lia|].
      rewrite IH, E by done. f_equal. lia.
    + cbn [app uvarint_loop length]. rewrite u8_small by (unfold is_u; lia).
      destruct (Nat.eqb_spec i 10); [lia|]. destruct (Z.ltb_spec v 128); [|lia].
      destruct (Nat.eqb_spec i 9); [lia|]. cbn [andb].
      rewrite uvarint_last by (done || lia). f_equal. lia.
Qed.

Lemma uvarint_bytes_range fuel v :
  Forall is_byte (uvarint_bytes fuel v) /\ (1 <= length (uvarint_bytes fuel v) <= S fuel)%nat.
Proof.
  revert v. induction fuel as [|fuel IH]; intros v; cbn [uvarint_bytes].
  - split; [constructor; [apply u8_range|done]|simpl; lia].
  - destruct (_ <=? _); cbn [length].
    + destruct (IH (shrU v 7)). split; [|lia]. constructor; [|done].
      apply lor_is_u; eauto with mint; done.
    + split; [constructor; [apply u8_range|done]|lia].
Qed.

(** With ten rounds or nine, a 64-bit value is encoded the same. *)
Lemma uvarint_bytes_fuel fuel v :
  0 <= v < 2 ^ (7 * Z.of_nat fuel + 7) ->
  uvarint_bytes (S fuel) v = uvarint_bytes fuel v.
Proof.
  revert v. induction fuel as [|fuel IH]; intros v Hv.
  - cbn [uvarint_bytes]. destruct (Z.leb_spec 128 v); [|done]. simpl in Hv. lia.
  - change (uvarint_bytes (S (S fuel)) v) with
      (if 128 <=? v then Z.lor (u8 v) 128 :: uvarint_bytes (S fuel) (shrU v 7) else [u8 v]).
    change (uvarint_bytes (S fuel) v) with
      (if 128 <=? v then Z.lor (u8 v) 128 :: uvarint_bytes fuel (shrU v 7) else [u8 v]).
    rewrite IH; [done|].
    replace (7 * Z.of_nat fuel + 7) with (7 * Z.of_nat (S fuel) + 7 - 7) by lia.
    apply shrU_7_range; [lia|done].
Qed.

Lemma PutUvarint_9 x : is_u64 x -> PutUvarint x = uvarint_bytes 9 x.
Proof.
  intros [? ?]. apply uvarint_bytes_fuel. split; [done|].
  eapply Z.lt_le_trans; [done|]. by apply Z.pow_le_mono_r.
Qed.

Lemma uvarint_inv_init x : is_u64 x -> uvarint_inv 0 9 x 0.
Proof. intros ?. split_and!; [done|done|apply H..]. Qed.

Lemma length_PutUvarint x : (1 <= length (PutUvarint x) <= 11)%nat.
Proof. apply uvarint_bytes_range. Qed.

Lemma length_PutUvarint_u64 x : is_u64 x -> (1 <= length (PutUvarint x) <= 10)%nat.
Proof. intros ?. rewrite PutUvarint_9 by done. apply uvarint_bytes_range. Qed.

Lemma Forall_PutUvarint x : Forall is_byte (PutUvarint x).
Proof. apply uvarint_bytes_range. Qed.

Lemma Uvarint_PutUvarint x rest :
  is_u64 x -> Uvarint (PutUvarint x ++ rest) = (x, Z.of_nat (length (PutUvarint x))).
Proof.
  intros Hx. rewrite PutUvarint_9 by done. unfold Uvarint.
  rewrite uvarint_loop_bytes by by apply uvarint_inv_init.
  by rewrite Z.shiftl_0_r, Z.lor_0_l.
Qed.

Lemma read_uvarint_loop_bytes {S} `{ByteReader S} i fuel x v s (r r' : S) :
  uvarint_inv i fuel v s -> feeds r (uvarint_bytes fuel v) r' ->
  read_uvarint_loop (Datatypes.S fuel) r x s = (Ok (Z.lor x (Z.shiftl v s)), r').
Proof.
  revert i x v s r. induction fuel as [|fuel IH]; intros i x v s r Hinv Hf.
  - pose proof (uvarint_inv_0 _ _ _ Hinv). destruct Hinv as (Hs & Hi & Hv).
    cbn [uvarint_bytes] in Hf. rewrite u8_small in Hf by (unfold is_u; lia).
    inversion Hf as [|? ? r1 ? ? Hr Hf']; subst. inversion Hf'; subst.
    cbn [read_uvarint_loop]. rewrite Hr.
    destruct (Z.ltb_spec v 128); [|lia]. destruct (Z.ltb_spec 1 v); [lia|].
    by rewrite uvarint_last by (done || lia).
  - pose proof (uvarint_inv_step _ _ _ _ Hinv) as Hstep. destruct Hinv as (Hs & Hi & Hv).
    cbn [uvarint_bytes] in Hf. change (read_uvarint_loop (Datatypes.S (Datatypes.S fuel)) r x s) with
      (match read_byte r with
        | (Ok b, r) =>
            if b <? 128 then
              if (Datatypes.S fuel =? 0)%nat && (1 <? b) then (Err ErrOverflow, r)
              else (Ok (Z.lor x (shlU 64 b s)), r)
            else read_uvarint_loop (Datatypes.S fuel) r (Z.lor x (shlU 64 (Z.land b 127) s)) (s + 7)
        | (Err e, r) => (Err e, r)
        | (Panic, r) => (Panic, r)
        end).
    destruct (Z.leb_spec 128 v);
      inversion Hf as [|? ? r1 ? ? Hr Hf']; subst; rewrite Hr.
    + destruct (continuation_byte v) as [? ->].
      destruct (Z.ltb_spec (Z.lor (u8 v) 128) 128); [lia|].
      destruct (uvarint_step v (7 * Z.of_nat i)) as [-> E]; [lia|].
      by rewrite (IH _ _ _ _ _ Hstep Hf'), E.
    + inversion Hf'; subst. rewrite u8_small by (unfold is_u; lia).
      destruct (Z.ltb_spec v 128); [|lia]. cbn [Nat.eqb andb].
      by rewrite uvarint_last by (done || lia).
Qed.

Lemma ReadUvarint_PutUvarint {S} `{ByteReader S} x (r r' : S) :
  is_u64 x -> feeds r (PutUvarint x) r' -> ReadUvarint r = (Ok x, r').
Proof.
  intros Hx Hf. rewrite PutUvarint_9 in Hf by done. unfold ReadUvarint.
  rewrite (read_uvarint_loop_bytes 0 9 0 x 0 r r') by (done || by apply uvarint_inv_init).
  by rewrite Z.shiftl_0_r, Z.lor_0_l.
Qed.

(** * Zig-zag *)

Lemma lxor_ones x : is_u64 x -> Z.lxor x (2 ^ 64 - 1) = 2 ^ 64 - 1 - x.
Proof.
  intros Hx. change (2 ^ 64 - 1) with (Z.ones 64) at 1.
  rewrite <- (u64_small x) at 1 by done. unfold u64, wrapU.
  rewrite <- Z.land_ones, Z.lxor_comm by lia.
  assert (Z.ldiff (Z.ones 64) x = 2 ^ 64 - 1 - x) as <-.
  { rewrite <- Z.sub_nocarry_ldiff; [done|]. apply Z.bits_inj'. intros i ?.
    rewrite Z.ldiff_spec, Z.testbit_0_l. destruct (decide (i < 64)).
    - rewrite Z.ones_spec_low by lia. apply andb_false_r.
    - rewrite (testbit_is_u 64 x) by (done || lia). done. }
  apply Z.bits_inj'. intros i ?. rewrite Z.lxor_spec, Z.land_spec, Z.ldiff_spec.
  destruct (Z.testbit (Z.ones 64) i), (Z.testbit x i); done.
Qed.

Lemma zigzag_spec x : is_i64 x -> zigzag x = if x <? 0 then - 2 * x - 1 else 2 * x.
Proof.
  intros Hx. unfold zigzag. replace (shlU 64 (u64 x) 1) with (u64 (2 * x)).
  - destruct (Z.ltb_spec x 0); [|zlia]. rewrite lxor_ones by apply u64_range. zlia.
  - unfold shlU. cbn [Z.ltb Z.compare Pos.compare Pos.compare_cont].
    rewrite Z.shiftl_mul_pow2 by lia. change (1 <? 64) with true. cbn [Z.pow]. zlia.
Qed.

Lemma zigzag_range x : is_i64 x -> is_u64 (zigzag x).
Proof. intros Hx. rewrite zigzag_spec by done. destruct (Z.ltb_spec x 0); zlia. Qed.

Lemma unzigzag_zigzag x : is_i64 x -> unzigzag (zigzag x) = x.
Proof.
  intros Hx. rewrite zigzag_spec by done. unfold unzigzag, shrU.
  rewrite Z.shiftr_div_pow2 by lia. change (2 ^ 1) with 2.
  destruct (Z.ltb_spec x 0).
  - replace (- 2 * x - 1) with (1 + 2 * (- x - 1)) by lia.
    rewrite Z.odd_add_mul_2. cbn [Z.odd]. unfold Z.lnot. rewrite i64_small; zlia.
  - rewrite Z.odd_mul. cbn [Z.odd andb]. rewrite i64_small; zlia.
Qed.

Lemma Varint_PutVarint x rest :
  is_i64 x -> Varint (PutVarint x ++ rest) = (x, Z.of_nat (length (PutVarint x))).
Proof.
  intros Hx. unfold Varint, PutVarint.
  by rewrite Uvarint_PutUvarint, unzigzag_zigzag by auto using zigzag_range.
Qed.

Lemma ReadVarint_PutVarint {S} `{ByteReader S} x (r r' : S) :
  is_i64 x -> feeds r (PutVarint x) r' -> ReadVarint r = (Ok x, r').
Proof.
  intros Hx Hf. unfold ReadVarint, PutVarint in *.
  by rewrite (ReadUvarint_PutUvarint (zigzag x) r r'), unzigzag_zigzag by auto using zigzag_range.
Qed.
