(* ===== verification/Crc32.v ===== *)
(** hash/crc32 of the Go standard library with the Castagnoli polynomial. *)
From S2P Require Import Prelude Bits Varint.
#[local] Open Scope Z_scope.

Definition castagnoli : Z := 2197175160. (* 0x82F63B78, reflected *)

Definition crc32_round (c : Z) : Z :=
  if Z.odd c then Z.lxor (shrU c 1) castagnoli else shrU c 1.

Definition crc32_byte (c b : Z) : Z :=
  Nat.iter 8 crc32_round (Z.lxor c b).

(** State of a running hash before the final complement. *)
Definition crc32_update (c : Z) (l : list Z) : Z := foldl crc32_byte c l.

Definition crc32_init : Z := MaxUint32.

(** [crc32.Checksum(l, castagnoliTable)]. *)
Definition crc32 (l : list Z) : Z := Z.lxor (crc32_update crc32_init l) MaxUint32.

Example crc32_check_value :
  crc32 [49; 50; 51; 52; 53; 54; 55; 56; 57] = 3808858755. (* 0xE3069283 *)
Proof. vm_compute. reflexivity. Qed.

Lemma crc32_round_range c : is_u 32 c -> is_u 32 (crc32_round c).
Proof.
  intros Hc. unfold crc32_round. destruct (Z.odd c).
  - apply lxor_is_u; [done|by apply shrU_range|done].
  - by apply shrU_range.
Qed.

Lemma crc32_byte_range c b : is_u 32 c -> is_byte b -> is_u 32 (crc32_byte c b).
Proof.
  intros Hc Hb. unfold crc32_byte.
  assert (is_u 32 (Z.lxor c b)) as Hx.
  { apply lxor_is_u; [done..|]. unfold is_u in *. lia. }
  revert Hx. generalize (Z.lxor c b) as x. intros x Hx.
  do 8 (apply crc32_round_range in Hx). exact Hx.
Qed.

Lemma crc32_update_range c l : is_u 32 c -> Forall is_byte l -> is_u 32 (crc32_update c l).
Proof.
  intros Hc Hl. revert c Hc. induction Hl as [|b l Hb _ IH]; intros c Hc; [done|].
  apply IH. by apply crc32_byte_range.
Qed.

Lemma crc32_range l : Forall is_byte l -> is_u 32 (crc32 l).
Proof. intros Hl. apply lxor_is_u; [done|by apply crc32_update_range|done]. Qed.
