(* ===== verification/EncBuf.v ===== *)
(** encoding_helpers.go (and its copy index/encoding_helpers.go): the encode
    and decode buffers every on-disk format is written and read with. *)
From S2P Require Import Prelude Bits Varint Crc32.
From Stdlib Require Import Ascii.
From Stdlib Require String.
#[local] Open Scope list_scope.
#[local] Open Scope Z_scope.

(** * Strings as bytes *)

Definition byte_of_ascii (a : ascii) : Z := Z.of_N (N_of_ascii a).
Definition ascii_of_byte (b : Z) : ascii := ascii_of_N (Z.to_N b).
Definition string_bytes (s : string) : list Z := byte_of_ascii <$> String.list_ascii_of_string s.
Definition bytes_string (l : list Z) : string := String.string_of_list_ascii (ascii_of_byte <$> l).

(** * encbuf *)

(** The contents; the scratch array [c] never outlives a call. *)
Record encbuf := mk_encbuf { eb : list Z }.

Definition e_reset (e : encbuf) : encbuf := mk_encbuf [].
Definition e_get (e : encbuf) : list Z := eb e.
Definition e_len (e : encbuf) : Z := Z.of_nat (length (eb e)).

Definition putBytes (b : list Z) (e : encbuf) : encbuf := mk_encbuf (eb e ++ b).
Definition putString (s : string) (e : encbuf) : encbuf := mk_encbuf (eb e ++ string_bytes s).
Definition putByte (c : Z) (e : encbuf) : encbuf := mk_encbuf (eb e ++ [c]).
Definition putBE32 (x : Z) (e : encbuf) : encbuf := mk_encbuf (eb e ++ PutUint32 x).
Definition putBE64 (x : Z) (e : encbuf) : encbuf := mk_encbuf (eb e ++ PutUint64 x).
Definition putUvarint64 (x : Z) (e : encbuf) : encbuf := mk_encbuf (eb e ++ PutUvarint x).
Definition putVarint64 (x : Z) (e : encbuf) : encbuf := mk_encbuf (eb e ++ PutVarint x).
Definition putBE32int (x : Z) (e : encbuf) : encbuf := putBE32 (u32 x) e.
Definition putBE64int (x : Z) (e : encbuf) : encbuf := putBE64 (u64 x) e.
Definition putBE64int64 (x : Z) (e : encbuf) : encbuf := putBE64 (u64 x) e.
Definition putUvarint32 (x : Z) (e : encbuf) : encbuf := putUvarint64 (u64 x) e.
Definition putUvarint (x : Z) (e : encbuf) : encbuf := putUvarint64 (u64 x) e.

(** The length prefix is the number of bytes of the string. *)
Definition putUvarintStr (s : string) (e : encbuf) : encbuf :=
  putString s (putUvarint (Z.of_nat (length (string_bytes s))) e).

(** [putHash] with the CRC32 hash, the only one passed: [Sum] appends the
    checksum big endian. *)
Definition putHash (e : encbuf) : encbuf := mk_encbuf (eb e ++ PutUint32 (crc32 (eb e))).

(** * decbuf *)

(** The bytes left and the sticky error. *)
Record decbuf := mk_decbuf { db : list Z; de : option error }.

Definition d_err (d : decbuf) : option error := de d.
Definition d_len (d : decbuf) : Z := Z.of_nat (length (db d)).
Definition d_get (d : decbuf) : list Z := db d.
Definition d_fail (d : decbuf) (e : error) : decbuf := mk_decbuf (db d) (Some e).

(** Every getter returns a value and the buffer after it, and may panic. *)
Definition getter (A : Type) : Type := decbuf -> res (A * decbuf).

Definition g_ret {A} (a : A) : getter A := fun d => Ok (a, d).
Definition g_bind {A B} (m : getter A) (f : A -> getter B) : getter B :=
  fun d => let? (a, d) := m d in f a d.
Notation "'let!' x ':=' m 'in' k" := (g_bind m (fun x => k))
  (at level 10, x pattern, k at level 200) : tsdb_scope.

Definition d_crc32 (d : decbuf) : Z := crc32 (db d).

(** [if d.e != nil { return zero }] around the rest of a getter. *)
Definition unless_failed {A} (z : A) (k : getter A) : getter A :=
  fun d => match de d with Some _ => Ok (z, d) | None => k d end.

(** A varint: [n] is the number of bytes [binary.Uvarint] or [binary.Varint] read. *)
Definition take_varint (x n : Z) : getter Z := fun d =>
  if n <? 1 then Ok (0, d_fail d ErrInvalidSize)
  else Ok (x, mk_decbuf (drop (Z.to_nat n) (db d)) None).

Definition d_uvarint64 : getter Z :=
  unless_failed 0 (fun d => let '(x, n) := Uvarint (db d) in take_varint x n d).
Definition d_varint64 : getter Z :=
  unless_failed 0 (fun d => let '(x, n) := Varint (db d) in take_varint x n d).

Definition d_uvarint : getter Z := let! x := d_uvarint64 in g_ret (i64 x).
Definition d_uvarint32 : getter Z := let! x := d_uvarint64 in g_ret (u32 x).

(** [s := string(d.b[:l]); d.b = d.b[l:]]: panics when [l] is out of range. *)
Definition d_take (l : Z) (d : decbuf) : res (list Z * decbuf) :=
  if (0 <=? l) && (l <=? d_len d)
  then Ok (take (Z.to_nat l) (db d), mk_decbuf (drop (Z.to_nat l) (db d)) (de d))
  else Panic.

(** The bound is checked on [int(l)], which is negative for [l >= 2^63]. *)
Definition d_uvarintStr : getter string :=
  let! l := d_uvarint64 in
  unless_failed EmptyString (fun d =>
    if d_len d <? i64 l then Ok (EmptyString, d_fail d ErrInvalidSize)
    else let? (s, d) := d_take l d in Ok (bytes_string s, d)).

(** [be64] asks for 4 bytes and then reads 8: [binary.BigEndian.Uint64] panics
    when there are 4 to 7 left. *)
Definition d_be64 : getter Z := unless_failed 0 (fun d =>
  if d_len d <? 4 then Ok (0, d_fail d ErrInvalidSize)
  else let? x := Uint64 (db d) in Ok (x, mk_decbuf (drop 8 (db d)) None)).

Definition d_be32 : getter Z := unless_failed 0 (fun d =>
  if d_len d <? 4 then Ok (0, d_fail d ErrInvalidSize)
  else let? x := Uint32 (db d) in Ok (x, mk_decbuf (drop 4 (db d)) None)).

Definition d_byte : getter Z := unless_failed 0 (fun d =>
  match db d with
  | [] => Ok (0, d_fail d ErrInvalidSize)
  | x :: b => Ok (x, mk_decbuf b None)
  end).

Definition d_be32int : getter Z := d_be32.
Definition d_be64int64 : getter Z := let! x := d_be64 in g_ret (i64 x).

(** A buffer over the next [l] bytes. *)
Definition d_decbuf (l : Z) : getter decbuf := fun d =>
  match de d with
  | Some e => Ok (mk_decbuf [] (Some e), d)
  | None =>
      if d_len d <? l then Ok (mk_decbuf [] (Some ErrInvalidSize), d)
      else let? (b, d) := d_take l d in Ok (mk_decbuf b None, d)
  end.

(** * Proofs: what a put writes a get reads back *)

(** The getter [m] consumes exactly the bytes [bs], whatever follows them, and
    returns [a]. *)
Definition decodes {A} (m : getter A) (bs : list Z) (a : A) : Prop :=
  forall rest, m (mk_decbuf (bs ++ rest) None) = Ok (a, mk_decbuf rest None).

Create HintDb decode.

Lemma decodes_ret {A} (a : A) : decodes (g_ret a) [] a.
Proof. by intros rest. Qed.

Lemma decodes_bind {A B} (m : getter A) (f : A -> getter B) b1 b2 a b :
  decodes m b1 a -> decodes (f a) b2 b -> decodes (g_bind m f) (b1 ++ b2) b.
Proof.
  intros Hm Hf rest. unfold g_bind. rewrite <- (assoc_L (++)), Hm. apply Hf.
Qed.

Lemma decodes_map {A B} (m : getter A) (f : A -> B) bs a :
  decodes m bs a -> decodes (let! x := m in g_ret (f x)) bs (f a).
Proof.
  intros Hm. rewrite <- (app_nil_r bs). eapply decodes_bind; [done|]. apply decodes_ret.
Qed.

Lemma decodes_end {A} (m : getter A) bs a :
  decodes m bs a -> m (mk_decbuf bs None) = Ok (a, mk_decbuf [] None).
Proof. intros Hm. rewrite <- (app_nil_r bs) at 1. apply Hm. Qed.

Lemma byte_of_ascii_range a : is_byte (byte_of_ascii a).
Proof. destruct a as [[] [] [] [] [] [] [] []]; by vm_compute. Qed.

Lemma Forall_string_bytes s : Forall is_byte (string_bytes s).
Proof. apply Forall_fmap, Forall_true. intros a. apply byte_of_ascii_range. Qed.

Lemma bytes_string_bytes s : bytes_string (string_bytes s) = s.
Proof.
  unfold bytes_string, string_bytes. rewrite <- list_fmap_compose.
  rewrite (list_fmap_ext _ id), list_fmap_id.
  - apply String.string_of_list_ascii_of_string.
  - intros i a _. unfold compose, ascii_of_byte, byte_of_ascii.
    by rewrite N2Z.id, ascii_N_embedding.
Qed.

Lemma string_bytes_inj s t : string_bytes s = string_bytes t -> s = t.
Proof. intros E. by rewrite <- (bytes_string_bytes s), E, bytes_string_bytes. Qed.

Lemma decodes_uvarint64 x : is_u64 x -> decodes d_uvarint64 (PutUvarint x) x.
Proof.
  intros Hx rest. unfold d_uvarint64, unless_failed; cbn [de db].
  rewrite Uvarint_PutUvarint by done. unfold take_varint.
  pose proof (length_PutUvarint x). rewrite (proj2 (Z.ltb_ge _ _)) by lia.
  cbn [db]. by rewrite Nat2Z.id, drop_app_length.
Qed.

Lemma decodes_varint64 x : is_i64 x -> decodes d_varint64 (PutVarint x) x.
Proof.
  intros Hx rest. unfold d_varint64, unless_failed; cbn [de db].
  rewrite Varint_PutVarint by done. unfold take_varint.
  pose proof (length_PutUvarint (zigzag x)). unfold PutVarint.
  rewrite (proj2 (Z.ltb_ge _ _)) by lia.
  cbn [db]. by rewrite Nat2Z.id, drop_app_length.
Qed.

(** A count or length: a non-negative [int]. *)
Lemma decodes_uvarint x : 0 <= x < 2 ^ 63 -> decodes d_uvarint (PutUvarint (u64 x)) x.
Proof.
  intros Hx. unfold d_uvarint. assert (i64 (u64 x) = x) as E by zlia.
  rewrite <- E at 2. apply (decodes_map d_uvarint64 i64), decodes_uvarint64, u64_range.
Qed.

Lemma decodes_uvarint32 x : is_u 32 x -> decodes d_uvarint32 (PutUvarint (u64 x)) x.
Proof.
  intros Hx. unfold d_uvarint32. assert (u32 (u64 x) = x) as E by zlia.
  rewrite <- E at 2. apply (decodes_map d_uvarint64 u32), decodes_uvarint64, u64_range.
Qed.

Lemma d_take_app l bs rest e :
  l = Z.of_nat (length bs) -> d_take l (mk_decbuf (bs ++ rest) e) = Ok (bs, mk_decbuf rest e).
Proof.
  intros ->. unfold d_take, d_len; cbn [db de]. rewrite length_app.
  rewrite (proj2 (Z.leb_le 0 _)), (proj2 (Z.leb_le (Z.of_nat (length bs)) _)) by lia. cbn [andb].
  by rewrite Nat2Z.id, take_app_length, drop_app_length.
Qed.

Lemma decodes_uvarintStr s :
  Z.of_nat (length (string_bytes s)) < 2 ^ 63 ->
  decodes d_uvarintStr (PutUvarint (u64 (Z.of_nat (length (string_bytes s)))) ++ string_bytes s) s.
Proof.
  intros Hs. assert (Hl : is_u64 (Z.of_nat (length (string_bytes s)))) by (unfold is_u; lia).
  rewrite u64_small by done. eapply decodes_bind; [by apply decodes_uvarint64|].
  intros rest. unfold unless_failed; cbn [de].
  rewrite i64_small by (unfold is_s; lia).
  unfold d_len; cbn [db]. rewrite length_app, (proj2 (Z.ltb_ge _ _)) by lia.
  rewrite d_take_app by done. cbn [res_bind]. by rewrite bytes_string_bytes.
Qed.

Lemma decodes_be32 x : is_u 32 x -> decodes d_be32 (PutUint32 x) x.
Proof.
  intros Hx rest. unfold d_be32, unless_failed, d_len, PutUint32; cbn [de db].
  rewrite length_app, length_be_bytes, (proj2 (Z.ltb_ge _ _)) by lia.
  unfold Uint32. rewrite UintN_app. cbn [res_bind].
  rewrite drop_app_length' by (by rewrite length_be_bytes).
  by rewrite (Z.mod_small x) by exact Hx.
Qed.

Lemma decodes_be64 x : is_u64 x -> decodes d_be64 (PutUint64 x) x.
Proof.
  intros Hx rest. unfold d_be64, unless_failed, d_len, PutUint64; cbn [de db].
  rewrite length_app, length_be_bytes, (proj2 (Z.ltb_ge _ _)) by lia.
  unfold Uint64. rewrite UintN_app. cbn [res_bind].
  rewrite drop_app_length' by (by rewrite length_be_bytes).
  by rewrite (Z.mod_small x) by exact Hx.
Qed.

Lemma decodes_be64int64 x : is_i64 x -> decodes d_be64int64 (PutUint64 (u64 x)) x.
Proof.
  intros Hx. unfold d_be64int64. rewrite <- (i64_small x) at 2 by done.
  rewrite <- (i64_u64 x). apply (decodes_map d_be64 i64), decodes_be64, u64_range.
Qed.

Lemma decodes_byte x : decodes d_byte [x] x.
Proof. by intros rest. Qed.

#[export] Hint Resolve decodes_ret decodes_uvarint64 decodes_varint64 decodes_uvarint
  decodes_uvarint32 decodes_uvarintStr decodes_be32 decodes_be64 decodes_be64int64
  decodes_byte : decode.

(** ** Sequences of fields *)

(** The kinds of field the formats are made of, and the put and the get the
    code pairs for each. *)
Inductive field :=
| FByte (x : Z) | FBE32 (x : Z) | FBE64 (x : Z) | FInt64 (x : Z)
| FUvarint (x : Z) | FVarint (x : Z) | FStr (s : string).

Definition field_ok (f : field) : Prop :=
  match f with
  | FByte x => is_byte x
  | FBE32 x => is_u 32 x
  | FBE64 x | FUvarint x => is_u64 x
  | FInt64 x | FVarint x => is_i64 x
  | FStr s => Z.of_nat (length (string_bytes s)) < 2 ^ 63
  end.

Definition put_field (e : encbuf) (f : field) : encbuf :=
  match f with
  | FByte x => putByte x e
  | FBE32 x => putBE32 x e
  | FBE64 x => putBE64 x e
  | FInt64 x => putBE64int64 x e
  | FUvarint x => putUvarint64 x e
  | FVarint x => putVarint64 x e
  | FStr s => putUvarintStr s e
  end.

(** Reads a field of the kind of [f]. *)
Definition get_field (f : field) : getter field :=
  match f with
  | FByte _ => let! x := d_byte in g_ret (FByte x)
  | FBE32 _ => let! x := d_be32 in g_ret (FBE32 x)
  | FBE64 _ => let! x := d_be64 in g_ret (FBE64 x)
  | FInt64 _ => let! x := d_be64int64 in g_ret (FInt64 x)
  | FUvarint _ => let! x := d_uvarint64 in g_ret (FUvarint x)
  | FVarint _ => let! x := d_varint64 in g_ret (FVarint x)
  | FStr _ => let! s := d_uvarintStr in g_ret (FStr s)
  end.

Fixpoint get_fields (fs : list field) : getter (list field) :=
  match fs with
  | [] => g_ret []
  | f :: fs => let! x := get_field f in let! xs := get_fields fs in g_ret (x :: xs)
  end.

Lemma put_field_app e f : eb (put_field e f) = eb e ++ eb (put_field (mk_encbuf []) f).
Proof.
  destruct f; try done. cbn. by rewrite <- (assoc_L (++)).
Qed.

Lemma put_fields_app fs e :
  eb (foldl put_field e fs) = eb e ++ mjoin ((fun f => eb (put_field (mk_encbuf []) f)) <$> fs).
Proof.
  revert e. induction fs as [|f fs IH]; intros e; cbn; [by rewrite app_nil_r|].
  rewrite IH, put_field_app. by rewrite <- (assoc_L (++)).
Qed.

Lemma decodes_field f : field_ok f -> decodes (get_field f) (eb (put_field (mk_encbuf []) f)) f.
Proof.
  destruct f; intros Hf; cbn [get_field put_field].
  - apply (decodes_map d_byte FByte), decodes_byte.
  - by apply (decodes_map d_be32 FBE32), decodes_be32.
  - by apply (decodes_map d_be64 FBE64), decodes_be64.
  - by apply (decodes_map d_be64int64 FInt64), decodes_be64int64.
  - by apply (decodes_map d_uvarint64 FUvarint), decodes_uvarint64.
  - by apply (decodes_map d_varint64 FVarint), decodes_varint64.
  - by apply (decodes_map d_uvarintStr FStr), decodes_uvarintStr.
Qed.

Lemma decodes_fields fs :
  Forall field_ok fs ->
  decodes (get_fields fs) (mjoin ((fun f => eb (put_field (mk_encbuf []) f)) <$> fs)) fs.
Proof.
  induction 1 as [|f fs Hf _ IH]; [apply decodes_ret|]. cbn.
  eapply decodes_bind; [by apply decodes_field|].
  by apply (decodes_map (get_fields fs) (cons f)).
Qed.

(** ** Panics *)

(** A getter that always returns, sets no error but [errInvalidSize], and never
    grows the buffer. *)
Definition safe_getter {A} (m : getter A) : Prop := forall d,
  exists a d', m d = Ok (a, d') /\ (de d' = de d \/ de d' = Some ErrInvalidSize) /\
    (length (db d') <= length (db d))%nat.

Lemma safe_bind {A B} (m : getter A) (f : A -> getter B) :
  safe_getter m -> (forall a, safe_getter (f a)) -> safe_getter (g_bind m f).
Proof.
  intros Hm Hf d. destruct (Hm d) as (a & d' & E & He & Hl).
  destruct (Hf a d') as (b & d'' & E' & He' & Hl'). exists b, d''.
  unfold g_bind. rewrite E. cbn [res_bind]. rewrite E'. split_and!; [done| |lia].
  destruct He' as [->|]; auto.
Qed.

Lemma safe_ret {A} (a : A) : safe_getter (g_ret a).
Proof. intros d. exists a, d. auto. Qed.

Lemma safe_unless_failed {A} (z : A) (k : getter A) :
  (forall b, exists a d', k (mk_decbuf b None) = Ok (a, d') /\
     (de d' = None \/ de d' = Some ErrInvalidSize) /\ (length (db d') <= length b)%nat) ->
  safe_getter (unless_failed z k).
Proof.
  intros Hk [b [e|]]; unfold unless_failed; cbn [de]; [exists z; eexists; eauto|apply Hk].
Qed.

Lemma safe_take_varint x n b : exists a d',
  take_varint x n (mk_decbuf b None) = Ok (a, d') /\
  (de d' = None \/ de d' = Some ErrInvalidSize) /\ (length (db d') <= length b)%nat.
Proof.
  unfold take_varint. destruct (n <? 1); do 2 eexists; split_and!; try done; eauto.
  cbn [db]. rewrite length_drop. lia.
Qed.

Lemma safe_uvarint64 : safe_getter d_uvarint64.
Proof. apply safe_unless_failed. intros b. destruct (Uvarint _). apply safe_take_varint. Qed.

Lemma safe_varint64 : safe_getter d_varint64.
Proof. apply safe_unless_failed. intros b. destruct (Varint _). apply safe_take_varint. Qed.

Lemma UintN_ok n b : (n <= length b)%nat -> UintN n b = Ok (be_val (take n b)).
Proof. unfold UintN. intros ?. by destruct (Nat.leb_spec n (length b)); [|lia]. Qed.

Lemma safe_be32 : safe_getter d_be32.
Proof.
  apply safe_unless_failed. intros b. unfold d_len, Uint32; cbn [db].
  destruct (Z.ltb_spec (Z.of_nat (length b)) 4); [do 2 eexists; eauto|].
  rewrite UintN_ok by lia. do 2 eexists; split_and!; try done; eauto.
  cbn [db]. rewrite length_drop. lia.
Qed.

Lemma safe_byte : safe_getter d_byte.
Proof.
  apply safe_unless_failed. intros [|x b]; do 2 eexists; split_and!; try done; eauto.
  cbn [db length]. lia.
Qed.

Lemma safe_no_panic {A} (m : getter A) d : safe_getter m -> no_panic (m d).
Proof. intros Hm. by destruct (Hm d) as (? & ? & -> & _). Qed.

#[export] Hint Resolve safe_bind safe_ret safe_uvarint64 safe_varint64 safe_be32 safe_byte : decode.

(** * Properties *)

(** The encoding buffer round trip.  Whatever sequence of fields is put into
    an empty [encbuf] (bytes, big-endian 32 and 64 bit words, signed 64 bit
    times, varints of both kinds and length-prefixed strings), the matching
    sequence of [decbuf] getters returns exactly those fields, consumes exactly
    the bytes the puts wrote, leaves what follows them untouched and sets no
    error. *)
Theorem encbuf_roundtrip (fs : list field) (rest : list Z) :
  Forall field_ok fs ->
  get_fields fs (mk_decbuf (e_get (foldl put_field (mk_encbuf []) fs) ++ rest) None)
  = Ok (fs, mk_decbuf rest None).
Proof.
  intros Hfs. unfold e_get. rewrite put_fields_app. by apply decodes_fields.
Qed.

Lemma encbuf_roundtrip_witness :
  let fs := [FBE32 4294967295; FByte 7; FStr "job"; FVarint (-5); FUvarint 300; FInt64 (-1)] in
  get_fields fs (mk_decbuf (e_get (foldl put_field (mk_encbuf []) fs) ++ [9; 9]) None)
  = Ok (fs, mk_decbuf [9; 9] None).
Proof.
  apply encbuf_roundtrip. repeat constructor; by vm_compute.
Defined.

(** What [decbuf.be64] does on every buffer without a pending error.  Below 4
    bytes it records [errInvalidSize]; from 8 bytes on it returns the big-endian
    value of the first 8 and drops them; with 4 to 7 bytes left, which its
    length check lets through, it panics. *)
Theorem be64_behaviour (b : list Z) :
  d_be64 (mk_decbuf b None) =
    if decide (length b < 4)%nat then Ok (0, mk_decbuf b (Some ErrInvalidSize))
    else if decide (length b < 8)%nat then Panic
    else Ok (be_val (take 8 b), mk_decbuf (drop 8 b) None).
Proof.
  unfold d_be64, unless_failed, d_len, Uint64, UintN; cbn [de db].
  destruct (Z.ltb_spec (Z.of_nat (length b)) 4); case_decide; try lia; [done|].
  destruct (Nat.leb_spec 8 (length b)); case_decide; try lia; done.
Qed.
