(* ===== verification/Tombstones.v ===== *)
(** tombstones.go: deletion intervals, the in-memory tombstones and their file. *)
From S2P Require Import Prelude Bits Varint Crc32 EncBuf.
#[local] Open Scope list_scope.
#[local] Open Scope Z_scope.

(** * Intervals *)

Record Interval := mkInterval { Mint : Z; Maxt : Z }.
Abbreviation Intervals := (list Interval).

#[export] Instance Interval_eq_dec : EqDecision Interval.
Proof. solve_decision. Defined.

Definition inBounds (tr : Interval) (t : Z) : bool := (Mint tr <=? t) && (t <=? Maxt tr).

Fixpoint isSubrange (tr : Interval) (dranges : Intervals) : bool :=
  match dranges with
  | [] => false
  | r :: dranges => if inBounds r (Mint tr) && inBounds r (Maxt tr) then true else isSubrange tr dranges
  end.

(** [j] of [add]: how many of the intervals after the extended one start before
    [n] ends. *)
Fixpoint overlap_count (n : Interval) (l : Intervals) : nat :=
  match l with
  | [] => 0
  | r2 :: l => if Maxt n <? Mint r2 then 0 else S (overlap_count n l)
  end.

(** The first branch of [add]: [r] is [itvs[i]] and [rest] is [itvs[i+1:]]. *)
Definition extend_right (r : Interval) (rest : Intervals) (n : Interval) : Intervals :=
  let r := if Maxt r <? Maxt n then mkInterval (Mint r) (Maxt n) else r in
  let j := overlap_count n rest in
  match j with
  | O => r :: rest
  | S j' =>
      let r := match rest !! j' with
               | Some rj => if Maxt n <? Maxt rj then mkInterval (Mint r) (Maxt rj) else r
               | None => r
               end in
      r :: drop j rest
  end.

(** [n.Mint-1] and [n.Maxt+1] wrap around at the ends of int64. *)
Fixpoint add (itvs : Intervals) (n : Interval) : Intervals :=
  match itvs with
  | [] => [n]
  | r :: rest =>
      if inBounds r (i64 (Mint n - 1)) || inBounds r (Mint n) then extend_right r rest n
      else if inBounds r (i64 (Maxt n + 1)) || inBounds r (Maxt n) then
        (if Mint n <? Maxt r then mkInterval (Mint n) (Maxt r) else r) :: rest
      else if Mint n <? Mint r then n :: r :: rest
      else r :: add rest n
  end.

(** * memTombstones *)

Abbreviation memTombstones := (gmap Z Intervals).

Definition NewMemTombstones : memTombstones := ∅.

(** A nil slice for a missing reference. *)
Definition Get (t : memTombstones) (ref : Z) : Intervals := default [] (t !! ref).

Definition addInterval (t : memTombstones) (ref : Z) (itvs : list Interval) : memTombstones :=
  foldl (fun t itv => <[ref := add (Get t ref) itv]> t) t itvs.

(** [Iter] ranges over the map in an unspecified order: the order is an argument. *)
Definition iteration (t : memTombstones) (order : list (Z * Intervals)) : Prop :=
  order ≡ₚ map_to_list t.

Definition Total (order : list (Z * Intervals)) : Z :=
  foldl (fun total kv => u64 (total + Z.of_nat (length (snd kv)))) 0 order.

(** * The tombstones file *)

Definition MagicTombstone : Z := 0x130BA30.
Definition tombstoneFormatV1 : Z := 1.

(** One stone: the buffer [buf] of the callback of [writeTombstoneFile]. *)
Definition stone_bytes (ref : Z) (iv : Interval) : list Z :=
  e_get (putVarint64 (Maxt iv) (putVarint64 (Mint iv) (putUvarint64 ref (mk_encbuf [])))).

Definition stones_bytes (order : list (Z * Intervals)) : list Z :=
  mjoin ((fun kv => mjoin (stone_bytes (fst kv) <$> snd kv)) <$> order).

(** The contents of the file: header, stones, checksum of the stones. *)
Definition writeTombstoneFile (order : list (Z * Intervals)) : list Z :=
  let meta := e_get (putByte tombstoneFormatV1 (putBE32 MagicTombstone (mk_encbuf []))) in
  let body := stones_bytes order in
  meta ++ body ++ PutUint32 (crc32 body).

Definition read_stone : getter (Z * Interval) :=
  let! k := d_uvarint64 in
  let! mint := d_varint64 in
  let! maxt := d_varint64 in
  g_ret (k, mkInterval mint maxt).

Definition out_of_fuel : error := ErrMsg "out of fuel".

(** [for d.len() > 0]: each round reads at least a byte or fails, so the number
    of bytes left is enough fuel. *)
Fixpoint readTombstones_loop (fuel : nat) (d : decbuf) (m : memTombstones) : res memTombstones :=
  if d_len d <=? 0 then Ok m
  else match fuel with
  | O => Err out_of_fuel
  | S fuel =>
      let? (s, d) := read_stone d in
      match d_err d with
      | Some e => Err e
      | None => readTombstones_loop fuel d (addInterval m (fst s) [snd s])
      end
  end.

(** [None]: the file does not exist. *)
Definition readTombstones (file : option (list Z)) : res memTombstones :=
  match file with
  | None => Ok NewMemTombstones
  | Some b =>
      let n := length b in
      if (n <? 5)%nat then Err ErrInvalidSize
      else
        let? (mg, d) := d_be32 (mk_decbuf (take (n - 4) b) None) in
        if negb (mg =? MagicTombstone) then Err (ErrMsg "invalid magic number")
        else
          let? (flag, d) := d_byte d in
          if negb (flag =? tombstoneFormatV1) then Err (ErrMsg "invalid tombstone format")
          else match d_err d with
          | Some e => Err e
          | None =>
              let? sum := Uint32 (drop (n - 4) b) in
              if negb (sum =? d_crc32 d) then Err (ErrMsg "checksum did not match")
              else readTombstones_loop (length (d_get d)) d NewMemTombstones
          end
  end.

(** The bug scenario on small intervals. *)
Example add_swallow :
  foldl add [] [mkInterval 5 10; mkInterval 1 20; mkInterval 2 6] = [mkInterval 1 10].
Proof. reflexivity. Qed.

Example tombstones_file_example :
  readTombstones (Some (writeTombstoneFile [(3, [mkInterval (-5) 7; mkInterval 10 20]); (1, [mkInterval 1 2])]))
  = Ok (<[3 := [mkInterval (-5) 7; mkInterval 10 20]]> {[1 := [mkInterval 1 2]]}).
Proof. vm_compute. reflexivity. Qed.

(** * Specification: the set of deleted times *)

Definition deleted (l : Intervals) (t : Z) : bool := existsb (fun r => inBounds r t) l.

(** "Increasing and non-overlapping", the invariant [Intervals] is documented
    to have. *)
Fixpoint ordered (l : Intervals) : Prop :=
  match l with
  | [] => True
  | r :: l => Mint r <= Maxt r /\ Forall (fun r2 => Maxt r < Mint r2) l /\ ordered l
  end.

#[export] Instance ordered_dec l : Decision (ordered l).
Proof. induction l as [|r l IH]; cbn; apply _. Defined.

(** An interval whose ends are not the extreme int64 values. *)
Definition interior (n : Interval) : Prop :=
  MinInt64 < Mint n /\ Mint n <= Maxt n /\ Maxt n < MaxInt64.

(** [n] touches an interval of [l] that starts before it. *)
Definition touches (l : Intervals) (n : Interval) : Prop :=
  Exists (fun r => Mint r <= Mint n <= Maxt r + 1) l.

(** [n] strictly contains an interval of [l] and touches none on its left. *)
Definition swallows (l : Intervals) (n : Interval) : Prop :=
  ~ touches l n /\ Exists (fun r => Mint n < Mint r /\ Maxt r < Maxt n) l.

#[export] Instance interior_dec n : Decision (interior n).
Proof. unfold interior. apply _. Defined.
#[export] Instance touches_dec l n : Decision (touches l n).
Proof. unfold touches. apply _. Defined.
#[export] Instance swallows_dec l n : Decision (swallows l n).
Proof. unfold swallows. apply _. Defined.

Lemma inBounds_spec r t : inBounds r t = true <-> Mint r <= t <= Maxt r.
Proof. unfold inBounds. rewrite andb_true_iff, !Z.leb_le. done. Qed.

Lemma deleted_spec l t : deleted l t = true <-> Exists (fun r => Mint r <= t <= Maxt r) l.
Proof.
  unfold deleted. rewrite existsb_exists, Exists_exists.
  setoid_rewrite inBounds_spec. by setoid_rewrite list_elem_of_In.
Qed.

Lemma ordered_app l1 l2 :
  ordered (l1 ++ l2) <->
  ordered l1 /\ ordered l2 /\ Forall (fun r => Forall (fun r2 => Maxt r < Mint r2) l2) l1.
Proof.
  induction l1 as [|r l1 IH]; cbn; [naive_solver|].
  rewrite IH, Forall_app, Forall_cons. naive_solver.
Qed.

Lemma ordered_valid l r : ordered l -> r ∈ l -> Mint r <= Maxt r.
Proof.
  induction l as [|x l IH]; [by intros _ ?%not_elem_of_nil|]. intros (? & _ & ?).
  intros [->|?]%elem_of_cons; auto.
Qed.

(** The intervals [add] merges into [itvs[i]] are a prefix of the rest. *)
Lemma overlap_count_spec n l :
  ordered l ->
  exists pre post, l = pre ++ post /\ overlap_count n l = length pre /\
    Forall (fun r => Mint r <= Maxt n) pre /\ Forall (fun r => Maxt n < Mint r) post.
Proof.
  induction l as [|r l IH]; cbn; [by exists [], []|]. intros (Hr & Hlt & Hl).
  destruct (Z.ltb_spec (Maxt n) (Mint r)) as [Hn|Hn].
  - exists [], (r :: l). split_and!; try done. constructor; [done|].
    eapply Forall_impl; [exact Hlt|]. cbn. lia.
  - destruct (IH Hl) as (pre & post & -> & Hc & H1 & H2).
    exists (r :: pre), post. rewrite Hc. split_and!; try done. by constructor.
Qed.

(** The first branch of [add] replaces the touched interval and those the new
    one reaches by one interval. *)
Lemma extend_right_eq r rest n :
  ordered (r :: rest) -> Mint n <= Maxt n ->
  exists pre post M, rest = pre ++ post /\ extend_right r rest n = mkInterval (Mint r) M :: post /\
    Forall (fun r2 => Mint r2 <= Maxt n) pre /\ Forall (fun r2 => Maxt n < Mint r2) post /\
    Maxt r <= M /\ Maxt n <= M /\ Forall (fun r2 => Maxt r2 <= M) pre /\
    (M <= Z.max (Maxt r) (Maxt n) \/ Exists (fun r2 => Maxt r2 = M) pre).
Proof.
  intros (Hr & Hlt & Hrest) Hn.
  destruct (overlap_count_spec n rest Hrest) as (pre & post & -> & Hc & Hpre & Hpost).
  unfold extend_right. rewrite Hc.
  destruct pre as [|rj pre _] using rev_ind; cbn [length].
  - exists [], post, (Z.max (Maxt r) (Maxt n)).
    assert ((if Maxt r <? Maxt n then mkInterval (Mint r) (Maxt n) else r)
            = mkInterval (Mint r) (Z.max (Maxt r) (Maxt n))) as ->.
    { destruct r as [a b]; cbn in *. destruct (Z.ltb_spec b (Maxt n)); f_equal; lia. }
    split_and!; try done; lia || (left; lia).
  - rewrite length_app, Nat.add_1_r, drop_app_length' by (rewrite length_app; cbn; lia).
    rewrite lookup_app_l, lookup_app_r, Nat.sub_diag by (rewrite ?length_app; cbn; lia).
    cbn [lookup list_lookup].
    apply ordered_app in Hrest as (Hord & _ & _). apply ordered_app in Hord as (_ & _ & Hbef).
    apply Forall_app in Hpre as [Hpre [Hj _]%Forall_cons_1].
    apply Forall_app in Hlt as [Hlt _]. apply Forall_app in Hlt as [_ [Hltj _]%Forall_cons_1].
    rewrite (proj2 (Z.ltb_lt (Maxt r) _)) by lia.
    exists (pre ++ [rj]), post, (Z.max (Maxt n) (Maxt rj)). cbn [Mint].
    split_and!; try done; try lia.
    + f_equal. destruct (Z.ltb_spec (Maxt n) (Maxt rj)); f_equal; lia.
    + apply Forall_app; auto.
    + apply Forall_app. split; [|constructor; [lia|done]].
      eapply Forall_impl; [exact Hbef|]. cbn. intros r2 [Hr2 _]%Forall_cons_1. lia.
    + destruct (Z.le_gt_cases (Maxt rj) (Maxt n)); [left; lia|right].
      apply Exists_app. right. constructor. lia.
Qed.

Lemma inBounds_reflect r t : reflect (Mint r <= t <= Maxt r) (inBounds r t).
Proof. apply iff_reflect. symmetry. apply inBounds_spec. Qed.

Lemma deleted_cons r l t : deleted (r :: l) t = inBounds r t || deleted l t.
Proof. done. Qed.

Lemma Exists_deleted_app l1 l2 t :
  deleted (l1 ++ l2) t = deleted l1 t || deleted l2 t.
Proof. apply existsb_app. Qed.

Lemma extend_right_union r rest n t :
  ordered (r :: rest) -> Mint n <= Maxt n -> Mint r <= Mint n <= Maxt r + 1 ->
  deleted (extend_right r rest n) t = deleted (r :: rest) t || inBounds n t.
Proof.
  intros Ho Hn Hr. apply eq_true_iff_eq. rewrite orb_true_iff, inBounds_spec, !deleted_spec.
  destruct (extend_right_eq r rest n Ho Hn)
    as (pre & post & M & -> & -> & Hpre & Hpost & ? & ? & HM & Hcase).
  cbn in Ho. destruct Ho as (? & Hlt & Hord).
  rewrite !Exists_cons, Exists_app. cbn [Mint Maxt].
  rewrite Forall_app in Hlt. destruct Hlt as [Hlt _]. split.
  - intros [Ht|]; [|tauto]. destruct Hcase as [?|Hex]; [lia|].
    destruct (decide (t <= Maxt n)); [lia|]. left. right. left.
    apply Exists_exists in Hex as (r2 & Hin & <-). apply Exists_exists. exists r2.
    rewrite Forall_forall in Hpre. specialize (Hpre r2 Hin). split; [done|lia].
  - intros [[?|[Hex|?]]|?]; try tauto; left; try lia.
    apply Exists_exists in Hex as (r2 & Hin & ?). rewrite !Forall_forall in *.
    specialize (HM r2 Hin). specialize (Hlt r2 Hin). cbn in *. lia.
Qed.

Lemma extend_right_ordered r rest n :
  ordered (r :: rest) -> Mint n <= Maxt n -> ordered (extend_right r rest n).
Proof.
  intros Ho Hn.
  destruct (extend_right_eq r rest n Ho Hn)
    as (pre & post & M & -> & -> & Hpre & Hpost & ? & ? & HM & Hcase).
  cbn in Ho |- *. destruct Ho as (Hr & Hlt & Hord). apply ordered_app in Hord as (_ & Hord & Hbef).
  apply Forall_app in Hlt as [_ Hlt].
  split_and!; [lia| |done]. destruct Hcase as [?|Hex].
  - rewrite !Forall_forall in *. intros r2 Hin. specialize (Hlt r2 Hin). specialize (Hpost r2 Hin).
    cbn in *. lia.
  - apply Exists_exists in Hex as (r2 & Hin & <-). rewrite !Forall_forall in *.
    intros r3 Hin3. specialize (Hbef r2 Hin). rewrite Forall_forall in Hbef. by apply Hbef.
Qed.

(** The two guards of [add] away from the int64 extremes. *)
Lemma guard_left_reflect r n :
  interior n -> Mint r <= Maxt r ->
  reflect (Mint r <= Mint n <= Maxt r + 1) (inBounds r (i64 (Mint n - 1)) || inBounds r (Mint n)).
Proof.
  intros (? & ? & ?) ?. rewrite i64_small by zlia.
  destruct (inBounds_reflect r (Mint n - 1)), (inBounds_reflect r (Mint n)); cbn; constructor; lia.
Qed.

Lemma guard_right_reflect r n :
  interior n -> Mint r <= Maxt r ->
  reflect (Mint r - 1 <= Maxt n <= Maxt r) (inBounds r (i64 (Maxt n + 1)) || inBounds r (Maxt n)).
Proof.
  intros (? & ? & ?) ?. rewrite i64_small by zlia.
  destruct (inBounds_reflect r (Maxt n + 1)), (inBounds_reflect r (Maxt n)); cbn; constructor; lia.
Qed.

(** One round of [add] on an ordered list, by the four branches of the loop. *)
Lemma add_cons r l n :
  interior n -> ordered (r :: l) ->
  (Mint r <= Mint n <= Maxt r + 1 /\ add (r :: l) n = extend_right r l n) \/
  (Mint n < Mint r /\ Mint r - 1 <= Maxt n <= Maxt r /\ add (r :: l) n = mkInterval (Mint n) (Maxt r) :: l) \/
  (Mint n < Mint r /\ (Maxt n < Mint r - 1 \/ Maxt r < Maxt n) /\ add (r :: l) n = n :: r :: l) \/
  (Maxt r + 1 < Mint n /\ add (r :: l) n = r :: add l n).
Proof.
  intros Hn (Hr & _). cbn [add]. pose proof Hn as (? & ? & ?).
  destruct (guard_left_reflect r n Hn Hr); [by left|right].
  destruct (guard_right_reflect r n Hn Hr).
  - left. rewrite (proj2 (Z.ltb_lt _ _)) by lia. split; [lia|done].
  - right. destruct (Z.ltb_spec (Mint n) (Mint r)); [left|right]; split_and!; try done; lia.
Qed.

Lemma add_union_aux l n t :
  interior n -> ordered l -> deleted (add l n) t = deleted l t || inBounds n t.
Proof.
  intros Hn. pose proof Hn as (? & ? & ?). induction l as [|r l IH]; intros Ho; [cbn; by destruct (inBounds n t)|].
  pose proof Ho as (Hr & Hlt & Hl).
  destruct (add_cons r l n Hn Ho) as [(? & ->)|[(? & ? & ->)|[(? & ? & ->)|(? & ->)]]].
  - by apply extend_right_union.
  - rewrite !deleted_cons. destruct (deleted l t); rewrite ?orb_true_r, ?orb_false_r; [done|].
    destruct (inBounds_reflect (mkInterval (Mint n) (Maxt r)) t), (inBounds_reflect r t),
      (inBounds_reflect n t); cbn in *; try done; lia.
  - by rewrite deleted_cons, orb_comm.
  - by rewrite !deleted_cons, IH, orb_assoc.
Qed.

Lemma add_lower b l n :
  interior n -> ordered l -> Forall (fun r => b < Mint r) l -> b < Mint n ->
  Forall (fun r => b < Mint r) (add l n).
Proof.
  intros Hn. induction l as [|r l IH]; intros Ho Hb Hbn; [by constructor|].
  pose proof Ho as (Hr & Hlt & Hl). inversion Hb; subst.
  destruct (add_cons r l n Hn Ho) as [(? & ->)|[(? & ? & ->)|[(? & ? & ->)|(? & ->)]]];
    [|by repeat constructor..|constructor; auto].
  destruct (extend_right_eq r l n Ho (proj1 (proj2 Hn)))
    as (pre & post & M & -> & -> & _). constructor; [done|]. by eapply Forall_app.
Qed.

Lemma add_ordered_aux l n :
  interior n -> ordered l -> ordered (add l n) <-> ~ swallows l n.
Proof.
  intros Hn. pose proof Hn as (? & ? & ?).
  induction l as [|r l IH]; intros Ho.
  { cbn. split; [|by repeat split]. intros _ [_ Hex]. inversion Hex. }
  pose proof Ho as (Hr & Hlt & Hl). unfold swallows, touches in *. rewrite !Exists_cons.
  destruct (add_cons r l n Hn Ho) as [(? & ->)|[(? & ? & ->)|[(? & ? & ->)|(? & ->)]]].
  - split; [tauto|]. intros _. by apply extend_right_ordered.
  - split.
    + intros _ [_ [?|Hex]]; [lia|]. apply Exists_exists in Hex as (r2 & Hin & ?).
      rewrite Forall_forall in Hlt. specialize (Hlt r2 Hin). cbn in Hlt.
      pose proof (ordered_valid _ _ Hl Hin). lia.
    + intros _. cbn. split_and!; [lia|done|done].
  - assert (Hall : Forall (fun r2 => Mint r < Mint r2) l).
    { eapply Forall_impl; [exact Hlt|]. cbn. lia. }
    split.
    + cbn. intros (_ & Hn1 & _) [_ Hex]. inversion Hn1 as [|? ? Hnr Hnl]; subst.
      destruct Hex as [|Hex]; [lia|]. apply Exists_exists in Hex as (r2 & Hin & ?).
      rewrite Forall_forall in Hnl, Hall. specialize (Hnl r2 Hin). cbn in Hnl.
      specialize (Hall r2 Hin). cbn in Hall.
      pose proof (ordered_valid _ _ Hl Hin). lia.
    + intros Hns. destruct (decide (Maxt n < Mint r)).
      * cbn. split_and!; try done. constructor; [done|]. eapply Forall_impl; [exact Hall|]. cbn. lia.
      * exfalso. apply Hns. split; [|left; lia]. intros [?|Hex]; [lia|].
        apply Exists_exists in Hex as (r2 & Hin & ?). rewrite Forall_forall in Hall.
        specialize (Hall r2 Hin). cbn in Hall. lia.
  - assert (Forall (fun r2 => Maxt r < Mint r2) (add l n)) by (apply add_lower; done || lia).
    specialize (IH Hl). cbn. split.
    + intros (_ & _ & Ha) [Hnt Hex]. apply IH; [done|]. split; [tauto|].
      destruct Hex as [|Hex]; [lia|done].
    + intros Hns. split_and!; try done. apply IH. intros [Hnt Hex]. apply Hns. split; [|by right].
      intros [?|?]; [lia|done].
Qed.

(** * Proofs: adding in order *)

Definition separated (l : Intervals) : Prop :=
  ordered l /\ forall i r r2, l !! i = Some r -> l !! S i = Some r2 -> Maxt r + 1 < Mint r2.

(** The intervals of [l] come after those of [acc]. *)
Definition before (acc l : Intervals) : Prop :=
  Forall (fun r => Forall (fun r2 => Maxt r < Mint r2) l) acc.

Lemma ordered_maxt_deleted l r : ordered l -> r ∈ l -> deleted l (Maxt r) = true.
Proof.
  intros Ho Hin. apply deleted_spec, Exists_exists. exists r. split; [done|].
  pose proof (ordered_valid _ _ Ho Hin). lia.
Qed.

Lemma foldl_add_ordered l acc :
  ordered acc -> ordered l -> Forall interior l -> before acc l ->
  ordered (foldl add acc l) /\
  forall t, deleted (foldl add acc l) t = deleted acc t || deleted l t.
Proof.
  revert acc. induction l as [|n l IH]; intros acc Hacc Hl Hint Hbef; cbn [foldl].
  { split; [done|]. intros t. by rewrite orb_false_r. }
  inversion Hint as [|? ? Hn Hints]; subst. destruct Hl as (Hnv & Hlt & Hl).
  assert (Ho : ordered (add acc n)).
  { apply add_ordered_aux; [done..|]. intros [_ Hex]. apply Exists_exists in Hex as (r & Hin & ?).
    unfold before in Hbef. rewrite Forall_forall in Hbef.
    destruct (Forall_cons_1 _ _ _ (Hbef r Hin)). pose proof (ordered_valid _ _ Hacc Hin). lia. }
  destruct (IH (add acc n)) as [Ho' Hd]; try done.
  { apply Forall_forall. intros r Hin. pose proof (ordered_maxt_deleted _ _ Ho Hin) as Hr.
    rewrite add_union_aux, orb_true_iff, inBounds_spec, deleted_spec in Hr by done.
    assert (Maxt r <= Maxt n).
    { destruct Hr as [Hex|]; [|lia]. apply Exists_exists in Hex as (r2 & Hin2 & ?).
      unfold before in Hbef. rewrite Forall_forall in Hbef.
      destruct (Forall_cons_1 _ _ _ (Hbef r2 Hin2)). lia. }
    eapply Forall_impl; [exact Hlt|]. cbn. lia. }
  split; [done|]. intros t. by rewrite Hd, add_union_aux, deleted_cons, orb_assoc.
Qed.

(** Adding an interval that starts beyond the last one appends it. *)
Lemma add_append acc n :
  interior n -> ordered acc -> Forall (fun r => Maxt r + 1 < Mint n) acc -> add acc n = acc ++ [n].
Proof.
  intros Hn. induction acc as [|r acc IH]; intros Ho Hb; [done|].
  inversion Hb; subst. pose proof Ho as (? & _ & Ho').
  destruct (add_cons r acc n Hn Ho) as [(? & ->)|[(? & ? & ->)|[(? & ? & ->)|(? & ->)]]]; try lia.
  cbn. by rewrite IH.
Qed.

Lemma foldl_add_separated l acc :
  Forall interior l -> separated (acc ++ l) -> foldl add acc l = acc ++ l.
Proof.
  revert acc. induction l as [|n l IH]; intros acc Hint Hs; cbn [foldl]; [by rewrite app_nil_r|].
  inversion Hint as [|? ? Hn Hints]; subst. rewrite add_append; [|done|..].
  - rewrite IH by (try done; by rewrite <- (assoc_L (++))). by rewrite <- (assoc_L (++)).
  - destruct Hs as [Ho _]. by apply ordered_app in Ho as (? & _).
  - destruct Hs as [Ho Hs]. clear IH Hint Hints.
    assert (Hlast : forall acc' r, acc = acc' ++ [r] -> Maxt r + 1 < Mint n).
    { intros acc' r ->. apply (Hs (length acc') r n).
      - rewrite <- (assoc_L (++)). by apply list_lookup_middle.
      - rewrite lookup_app_r by (rewrite length_app; cbn; lia).
        rewrite length_app. cbn [length]. by replace (S (length acc') - (length acc' + 1))%nat with 0%nat by lia. }
    destruct acc as [|r acc' _] using rev_ind; [done|]. specialize (Hlast acc' r eq_refl).
    apply Forall_app. split; [|by repeat constructor].
    rewrite ordered_app in Ho. destruct Ho as (Ho & _ & _). apply ordered_app in Ho as (_ & Hr & Hb).
    destruct Hr as (? & _). eapply Forall_impl; [exact Hb|]. cbn. intros r2 [? _]%Forall_cons_1. lia.
Qed.

(** * Proofs: the in-memory tombstones *)

Lemma Get_addInterval t ref itvs ref' :
  Get (addInterval t ref itvs) ref' = if decide (ref = ref') then foldl add (Get t ref') itvs else Get t ref'.
Proof.
  unfold addInterval. revert t. induction itvs as [|n itvs IH]; intros t; cbn [foldl]; [by case_decide|].
  rewrite IH. case_decide as E.
  - subst. unfold Get at 1. by rewrite lookup_insert_eq.
  - unfold Get at 1. by rewrite lookup_insert_ne.
Qed.

(** The stones of a file, one per interval. *)
Definition stones (order : list (Z * Intervals)) : list (Z * Interval) :=
  order ≫= (fun kv => pair (fst kv) <$> snd kv).

Definition add_stones (t : memTombstones) (ss : list (Z * Interval)) : memTombstones :=
  foldl (fun t s => addInterval t (fst s) [snd s]) t ss.

Lemma Get_add_stones t ss ref :
  Get (add_stones t ss) ref = foldl add (Get t ref) (snd <$> filter (fun s => fst s = ref) ss).
Proof.
  unfold add_stones. revert t. induction ss as [|[k iv] ss IH]; intros t; cbn [foldl]; [done|].
  rewrite IH, Get_addInterval, filter_cons. cbn [fst snd]. by case_decide.
Qed.

Lemma filter_stones order ref :
  NoDup order.*1 ->
  snd <$> filter (fun s => fst s = ref) (stones order) = default [] ((list_to_map order : memTombstones) !! ref).
Proof.
  induction order as [|[k ivs] order IH]; intros Hnd; [done|].
  cbn in Hnd. apply NoDup_cons in Hnd as [Hk Hnd].
  change (stones ((k, ivs) :: order)) with ((pair k <$> ivs) ++ stones order).
  rewrite filter_app, fmap_app, IH by done.
  assert (snd <$> filter (fun s : Z * Interval => fst s = ref) (pair k <$> ivs) = if decide (k = ref) then ivs else []) as ->.
  { clear. induction ivs as [|iv ivs IHi]; [by case_decide|].
    rewrite fmap_cons, filter_cons. cbn [fst].
    by destruct (decide (k = ref)); [rewrite fmap_cons|]; rewrite IHi. }
  cbn [list_to_map foldr fst snd]. case_decide as E.
  - subst. rewrite lookup_insert_eq, not_elem_of_list_to_map_1 by done. cbn. by rewrite app_nil_r.
  - by rewrite lookup_insert_ne.
Qed.

Lemma Get_stones t order ref :
  iteration t order -> Get (add_stones ∅ (stones order)) ref = foldl add [] (Get t ref).
Proof.
  intros Hp. rewrite Get_add_stones. unfold Get at 1. rewrite lookup_empty. cbn.
  rewrite filter_stones by (rewrite Hp; apply NoDup_fst_map_to_list).
  by rewrite (list_to_map_proper order (map_to_list t)), list_to_map_to_list
    by (try done; rewrite Hp; apply NoDup_fst_map_to_list).
Qed.

(** * Proofs: the tombstones file *)

Definition stone_ok (s : Z * Interval) : Prop :=
  is_u64 (fst s) /\ is_i64 (Mint (snd s)) /\ is_i64 (Maxt (snd s)).

Lemma stone_bytes_eq ref iv :
  stone_bytes ref iv = PutUvarint ref ++ PutVarint (Mint iv) ++ PutVarint (Maxt iv).
Proof. unfold stone_bytes, e_get. cbn. by rewrite (assoc_L (++)). Qed.

Lemma decodes_stone s : stone_ok s -> decodes read_stone (stone_bytes (fst s) (snd s)) s.
Proof.
  destruct s as [ref [a b]]. intros (? & ? & ?). cbn [fst snd] in *. rewrite stone_bytes_eq.
  eapply decodes_bind; [by apply decodes_uvarint64|].
  eapply decodes_bind; [by apply decodes_varint64|].
  apply (decodes_map d_varint64 (fun maxt => (ref, mkInterval a maxt))). by apply decodes_varint64.
Qed.

Lemma stones_bytes_eq order :
  stones_bytes order = mjoin ((fun s => stone_bytes (fst s) (snd s)) <$> stones order).
Proof.
  unfold stones_bytes. induction order as [|[k ivs] order IH]; [done|].
  change (stones ((k, ivs) :: order)) with ((pair k <$> ivs) ++ stones order).
  rewrite fmap_app, join_app, <- IH, <- list_fmap_compose. done.
Qed.

Lemma stone_bytes_cons ref iv : exists b bs, stone_bytes ref iv = b :: bs.
Proof.
  rewrite stone_bytes_eq. pose proof (length_PutUvarint ref).
  destruct (PutUvarint ref) as [|b bs]; [cbn in *; lia|]. by eexists b, _.
Qed.

Lemma Forall_stones_bytes order : Forall is_byte (stones_bytes order).
Proof.
  rewrite stones_bytes_eq. apply Forall_join, Forall_fmap, Forall_true. intros s. cbv beta.
  unfold compose; rewrite stone_bytes_eq. unfold PutVarint. rewrite !Forall_app. auto using Forall_PutUvarint.
Qed.

Lemma readTombstones_loop_stones ss m fuel :
  Forall stone_ok ss -> (length ss <= fuel)%nat ->
  readTombstones_loop fuel (mk_decbuf (mjoin ((fun s => stone_bytes (fst s) (snd s)) <$> ss)) None) m
  = Ok (add_stones m ss).
Proof.
  intros Hss. revert m fuel. induction Hss as [|s ss Hs _ IH]; intros m fuel Hf; [by destruct fuel|].
  destruct fuel as [|fuel]; [cbn in Hf; lia|]. cbn [readTombstones_loop fmap list_fmap mjoin list_join].
  unfold d_len; cbn [db]. destruct (stone_bytes_cons (fst s) (snd s)) as (b & bs & E).
  rewrite (proj2 (Z.leb_gt _ _)) by (rewrite E; cbn [app length]; lia).
  rewrite (decodes_stone s Hs). cbn [res_bind d_err de].
  rewrite IH by (cbn [length] in Hf; lia). done.
Qed.

Lemma readTombstones_file body :
  Forall is_byte body ->
  readTombstones (Some ([0x01; 0x30; 0xBA; 0x30; tombstoneFormatV1] ++ body ++ PutUint32 (crc32 body)))
  = readTombstones_loop (length body) (mk_decbuf body None) NewMemTombstones.
Proof.
  intros Hb. unfold readTombstones. rewrite !length_app. unfold PutUint32. rewrite length_be_bytes.
  cbn [length]. replace (5 + (length body + 4) - 4)%nat with (5 + length body)%nat by lia.
  destruct (Nat.ltb_spec (5 + (length body + 4)) 5); [lia|].
  rewrite (assoc_L (++)), take_app_length', drop_app_length' by (rewrite length_app; done).
  cbn [app]. assert (Hmg : decodes d_be32 [0x01; 0x30; 0xBA; 0x30] MagicTombstone).
  { by apply (decodes_be32 MagicTombstone). }
  pose proof (Hmg (1 :: body)) as E. cbn [app] in E. unfold tombstoneFormatV1 at 1. rewrite E.
  cbn [res_bind negb]. rewrite Z.eqb_refl. cbn [negb d_byte unless_failed de db res_bind d_err].
  rewrite Z.eqb_refl. cbn [negb].
  rewrite <- (app_nil_r (be_bytes 4 _)). unfold Uint32. rewrite UintN_app. cbn [res_bind].
  rewrite Z.mod_small by (by apply crc32_range). unfold d_crc32; cbn [db].
  by rewrite Z.eqb_refl.
Qed.

Lemma read_write_stones order :
  Forall stone_ok (stones order) ->
  readTombstones (Some (writeTombstoneFile order)) = Ok (add_stones ∅ (stones order)).
Proof.
  intros Hs. unfold writeTombstoneFile.
  change (e_get (putByte tombstoneFormatV1 (putBE32 MagicTombstone (mk_encbuf []))))
    with [0x01; 0x30; 0xBA; 0x30; tombstoneFormatV1].
  rewrite readTombstones_file by apply Forall_stones_bytes.
  rewrite stones_bytes_eq. apply readTombstones_loop_stones; [done|].
  clear. induction (stones order) as [|s ss IH]; [done|].
  rewrite fmap_cons, join_cons, length_app. cbn [length].
  destruct (stone_bytes_cons (fst s) (snd s)) as (b & bs & ->). cbn [length]. lia.
Qed.

Lemma stones_ok t order :
  iteration t order ->
  (forall ref ivs, t !! ref = Some ivs -> is_u64 ref /\ Forall interior ivs) ->
  Forall stone_ok (stones order).
Proof.
  intros Hp Ht. apply Forall_forall. intros [ref iv] Hin.
  apply list_elem_of_bind in Hin as ([k ivs] & Hin & Hk).
  apply list_elem_of_fmap in Hin as (iv' & [= -> ->] & Hin). cbn [fst snd] in *.
  rewrite Hp in Hk. apply elem_of_map_to_list in Hk. destruct (Ht _ _ Hk) as [? Hi].
  rewrite Forall_forall in Hi. destruct (Hi _ Hin) as (? & ? & ?).
  split_and!; cbn [fst snd]; [done|unfold is_s, MinInt64, MaxInt64 in *; lia..].
Qed.

Lemma Forall_Get t (P : Intervals -> Prop) ref :
  P [] -> (forall ref ivs, t !! ref = Some ivs -> P ivs) -> P (Get t ref).
Proof. intros H0 H. unfold Get. destruct (t !! ref) eqn:E; [by eapply H|done]. Qed.

(** A successful [read_stone] consumes at least a byte. *)
Lemma read_stone_progress d s d' :
  read_stone d = Ok (s, d') -> de d' = None -> (length (db d') < length (db d))%nat.
Proof.
  unfold read_stone, g_bind, d_uvarint64, d_varint64, unless_failed, take_varint, d_fail, g_ret.
  intros E He. destruct (de d) eqn:Ed.
  { cbn in E. rewrite Ed in E. cbn in E. rewrite Ed in E. cbn in E. congruence. }
  destruct (Uvarint (db d)) as [x n] eqn:EU. destruct (Z.ltb_spec n 1); cbn in E; [by simplify_eq|].
  destruct (db d) as [|b bs]; [by vm_compute in EU; simplify_eq; lia|].
  assert (length (drop (Z.to_nat n) (b :: bs)) < length (b :: bs))%nat.
  { rewrite length_drop. cbn [length]. lia. }
  destruct (Varint _) as [y k]. destruct (k <? 1); cbn in E; [by simplify_eq|].
  destruct (Varint _) as [y' k']. destruct (k' <? 1); cbn in E; simplify_eq.
  cbn [db]. rewrite !length_drop in *. cbn [length] in *. lia.
Qed.

Lemma safe_read_stone : safe_getter read_stone.
Proof. unfold read_stone. eauto 8 with decode. Qed.

Definition ok_or_invalid_size {A} (r : res A) : Prop :=
  match r with Ok _ => True | Err e => e = ErrInvalidSize | Panic => False end.

Lemma readTombstones_loop_total fuel b m :
  (length b <= fuel)%nat -> ok_or_invalid_size (readTombstones_loop fuel (mk_decbuf b None) m).
Proof.
  revert b m. induction fuel as [|fuel IH]; intros b m Hf; cbn [readTombstones_loop]; unfold d_len; cbn [db].
  - destruct (Z.leb_spec (Z.of_nat (length b)) 0); [done|lia].
  - destruct (_ <=? 0); [done|].
    destruct (safe_read_stone (mk_decbuf b None)) as (s & [b' e'] & E & He & _).
    rewrite E. cbn [res_bind d_err de] in *. destruct He as [-> | ->]; [|done].
    apply IH. pose proof (read_stone_progress _ _ _ E eq_refl). cbn [db] in *. lia.
Qed.

(** * Properties *)

(** C36: adding an interval to an increasing, non-overlapping list of intervals
    deletes exactly the union: a time is deleted afterwards if and only if it
    was deleted before or lies in the new interval; and the result is again
    increasing and non-overlapping exactly when the new interval does not
    swallow an existing one without touching an earlier one. *)
Theorem add_union (l : Intervals) (n : Interval) :
  ordered l -> interior n ->
  (forall t, deleted (add l n) t = deleted l t || inBounds n t) /\
  (ordered (add l n) <-> ~ swallows l n).
Proof.
  intros Hl Hn. split; [intros t; by apply add_union_aux|by apply add_ordered_aux].
Qed.

Lemma add_union_witness :
  let l := [mkInterval 1 5; mkInterval 10 20; mkInterval 30 40] in
  (forall t, deleted (add l (mkInterval 6 32)) t = deleted l t || inBounds (mkInterval 6 32) t) /\
  (ordered (add l (mkInterval 6 32)) <-> ~ swallows l (mkInterval 6 32)).
Proof. apply add_union; decided. Defined.

(** The documented invariant of [Intervals] is not kept: three calls of
    [add], each with a proper interval, leave a list from which a time deleted
    by the second one is missing. *)
Theorem add_loses_deletion :
  exists l n1 n2 t,
    ordered l /\ interior n1 /\ interior n2 /\
    deleted (add l n1) t = true /\ ~ ordered (add l n1) /\
    deleted (add (add l n1) n2) t = false.
Proof.
  exists [mkInterval 5 10], (mkInterval 1 20), (mkInterval 2 6), 15.
  split_and!; decided.
Qed.

(** The tombstones file round trip.  For in-memory tombstones whose interval
    lists are increasing and non-overlapping, the file written in any iteration
    order of the map reads back without error, and for every series the
    tombstones read delete exactly the same times; where no two intervals of a
    series are adjacent the very same intervals come back. *)
Theorem tombstones_roundtrip (t : memTombstones) (order : list (Z * Intervals)) :
  iteration t order ->
  (forall ref ivs, t !! ref = Some ivs -> is_u64 ref /\ ordered ivs /\ Forall interior ivs) ->
  exists t', readTombstones (Some (writeTombstoneFile order)) = Ok t' /\
    forall ref,
      ordered (Get t' ref) /\
      (forall x, deleted (Get t' ref) x = deleted (Get t ref) x) /\
      (separated (Get t ref) -> Get t' ref = Get t ref).
Proof.
  intros Hp Ht. exists (add_stones ∅ (stones order)). split.
  { apply read_write_stones, (stones_ok t order Hp). intros ref ivs E. split; apply (Ht _ _ E). }
  intros ref. rewrite (Get_stones t order ref Hp).
  assert (ordered (Get t ref) /\ Forall interior (Get t ref)) as [Ho Hi].
  { apply (Forall_Get t (fun l => ordered l /\ Forall interior l)); [by split|].
    intros k ivs E. split; apply (Ht _ _ E). }
  destruct (foldl_add_ordered (Get t ref) []) as [Ho' Hd]; try done; [by constructor|].
  split_and!; [done|done|]. intros Hs. by rewrite foldl_add_separated.
Qed.

Lemma tombstones_roundtrip_witness :
  let t : memTombstones := <[3 := [mkInterval (-5) 7; mkInterval 10 20]]> {[1 := [mkInterval 1 2]]} in
  exists t', readTombstones (Some (writeTombstoneFile (map_to_list t))) = Ok t' /\
    forall ref,
      ordered (Get t' ref) /\
      (forall x, deleted (Get t' ref) x = deleted (Get t ref) x) /\
      (separated (Get t ref) -> Get t' ref = Get t ref).
Proof.
  apply tombstones_roundtrip; [unfold iteration; reflexivity|].
  intros ref ivs Hr. apply lookup_insert_Some in Hr as [[<- <-]|[_ Hr]].
  - split_and!; decided.
  - apply lookup_singleton_Some in Hr as [<- <-].
    split_and!; decided.
Defined.

(** Reading a tombstones file of any contents, or none, terminates without a
    panic, and the bound on the number of stones read is never the reason for
    an error. *)
Theorem readTombstones_total (file : option (list Z)) :
  no_panic (readTombstones file) /\ readTombstones file <> Err out_of_fuel.
Proof.
  destruct file as [b|]; [|done]. cbn [readTombstones].
  destruct (Nat.ltb_spec (length b) 5); [done|].
  destruct (safe_be32 (mk_decbuf (take (length b - 4) b) None)) as (mg & [b1 e1] & -> & He & _).
  cbn [res_bind]. destruct (negb _); [done|].
  destruct (safe_byte (mk_decbuf b1 e1)) as (flag & [b2 e2] & E2 & He2 & _).
  rewrite E2. cbn [res_bind]. destruct (negb _); [done|]. cbn [d_err de].
  destruct e2 as [e|].
  - split; [done|]. unfold out_of_fuel. intros [= ->]. destruct He2, He; cbn in *; congruence.
  - rewrite (UintN_ok 4) by (rewrite length_drop; lia). cbn [res_bind].
    destruct (negb _); [done|]. cbn [d_get db].
    pose proof (readTombstones_loop_total (length b2) b2 NewMemTombstones ltac:(done)) as Ht.
    by destruct (readTombstones_loop _ _ _) as [|e|]; cbn in Ht; [|subst|].
Qed.
