(* ===== verification/Order.v ===== *)
(** Comparison functions, sorting and binary search: what the code uses of
    [strings.Compare], [sort.Sort] and [sort.Search]. *)
From S2P Require Import Prelude EncBuf.
#[local] Open Scope list_scope.

(** * Three-way comparisons *)

(** The laws of a total order given by a three-way comparison. *)
Class CompareLaws {A} (cmp : A -> A -> comparison) : Prop := {
  cmp_eq a b : cmp a b = Eq <-> a = b;
  cmp_opp a b : cmp b a = CompOpp (cmp a b);
  cmp_lt_trans a b c : cmp a b = Lt -> cmp b c = Lt -> cmp a c = Lt;
}.

Arguments cmp_eq {A} cmp {_} a b.
Arguments cmp_opp {A} cmp {_} a b.
Arguments cmp_lt_trans {A} cmp {_} a b c.

(** First [c], then [d]. *)
Definition then_cmp (c : comparison) (d : comparison) : comparison :=
  match c with Eq => d | _ => c end.

(** Lexicographic order; the shorter of two lists with a common prefix first. *)
Fixpoint lex_cmp {A} (cmp : A -> A -> comparison) (l k : list A) : comparison :=
  match l, k with
  | [], [] => Eq
  | [], _ :: _ => Lt
  | _ :: _, [] => Gt
  | a :: l, b :: k => then_cmp (cmp a b) (lex_cmp cmp l k)
  end.

Definition pair_cmp {A B} (ca : A -> A -> comparison) (cb : B -> B -> comparison)
    (p q : A * B) : comparison :=
  then_cmp (ca (fst p) (fst q)) (cb (snd p) (snd q)).

(** Go compares strings byte by byte. *)
Definition str_cmp (s t : string) : comparison := lex_cmp Z.compare (string_bytes s) (string_bytes t).

(** [strings.Compare]. *)
Definition strings_Compare (s t : string) : Z :=
  match str_cmp s t with Lt => -1 | Eq => 0 | Gt => 1 end%Z.

#[export] Instance Z_compare_laws : CompareLaws Z.compare.
Proof.
  split; [apply Z.compare_eq_iff|intros; apply Z.compare_antisym|].
  intros a b c. rewrite !Z.compare_lt_iff. lia.
Qed.

Section Laws.
Context {A B : Type} (ca : A -> A -> comparison) (cb : B -> B -> comparison).
Context `{!CompareLaws ca, !CompareLaws cb}.

Lemma cmp_refl a : ca a a = Eq.
Proof using Type*. by apply (cmp_eq ca). Qed.

Lemma cmp_gt a b : ca a b = Gt <-> ca b a = Lt.
Proof using Type*. rewrite (cmp_opp ca a b). by destruct (ca a b). Qed.

#[export] Instance pair_cmp_laws : CompareLaws (pair_cmp ca cb).
Proof using Type*.
  unfold pair_cmp. split.
  - intros [a b] [a' b']; cbn. pose proof (cmp_eq ca a a'). pose proof (cmp_eq cb b b').
    destruct (ca a a'); cbn; naive_solver.
  - intros [a b] [a' b']; cbn. rewrite (cmp_opp ca a a'), (cmp_opp cb b b'). by destruct (ca a a').
  - intros [a b] [a' b'] [a'' b'']; cbn.
    destruct (ca a a') eqn:E1, (ca a' a'') eqn:E2; try done; cbn; intros H1 H2.
    + apply (cmp_eq ca) in E1, E2. subst. rewrite cmp_refl. cbn. by eapply (cmp_lt_trans cb).
    + apply (cmp_eq ca) in E1. subst. by rewrite E2.
    + apply (cmp_eq ca) in E2. subst. by rewrite E1.
    + by rewrite (cmp_lt_trans ca _ _ _ E1 E2).
Qed.

#[export] Instance lex_cmp_laws : CompareLaws (lex_cmp ca).
Proof using Type*.
  split.
  - induction a as [|x a IH]; intros [|y b]; cbn; try done.
    specialize (IH b). pose proof (cmp_eq ca x y). destruct (ca x y); cbn; naive_solver.
  - induction a as [|x a IH]; intros [|y b]; cbn; try done.
    rewrite (cmp_opp ca x y), (IH b). by destruct (ca x y).
  - induction a as [|x a IH]; intros [|y b] [|z c]; cbn; try done.
    destruct (ca x y) eqn:E1, (ca y z) eqn:E2; try done; cbn; intros H1 H2.
    + apply (cmp_eq ca) in E1, E2. subst. rewrite cmp_refl. cbn. eauto.
    + apply (cmp_eq ca) in E1. subst. by rewrite E2.
    + apply (cmp_eq ca) in E2. subst. by rewrite E1.
    + by rewrite (cmp_lt_trans ca _ _ _ E1 E2).
Qed.
End Laws.

#[export] Instance str_cmp_laws : CompareLaws str_cmp.
Proof.
  unfold str_cmp. split.
  - intros a b. rewrite (cmp_eq (lex_cmp Z.compare)). split; [apply string_bytes_inj|by intros ->].
  - intros. apply (cmp_opp (lex_cmp Z.compare)).
  - intros a b c. apply (cmp_lt_trans (lex_cmp Z.compare)).
Qed.

Definition cmp_le {A} (cmp : A -> A -> comparison) (a b : A) : Prop := cmp a b <> Gt.
Definition cmp_ltb {A} (cmp : A -> A -> comparison) (a b : A) : bool :=
  match cmp a b with Lt => true | _ => false end.

#[export] Instance cmp_le_dec {A} (cmp : A -> A -> comparison) : RelDecision (cmp_le cmp).
Proof. intros a b. unfold cmp_le. apply _. Defined.

Section LawsLe.
Context {A : Type} (cmp : A -> A -> comparison) `{!CompareLaws cmp}.

#[export] Instance cmp_le_trans : Transitive (cmp_le cmp).
Proof using Type*.
  unfold cmp_le. intros a b c H1 H2.
  destruct (cmp a b) eqn:E1, (cmp b c) eqn:E2; try done.
  - apply (cmp_eq cmp) in E1, E2. subst. by rewrite cmp_refl.
  - apply (cmp_eq cmp) in E1. subst. by rewrite E2.
  - apply (cmp_eq cmp) in E2. subst. by rewrite E1.
  - by rewrite (cmp_lt_trans cmp _ _ _ E1 E2).
Qed.

#[export] Instance cmp_le_total : Total (cmp_le cmp).
Proof using Type*. intros a b. unfold cmp_le. rewrite (cmp_opp cmp a b). destruct (cmp a b); auto. Qed.

#[export] Instance cmp_le_antisym : AntiSymm (=) (cmp_le cmp).
Proof using Type*.
  intros a b. unfold cmp_le. rewrite (cmp_opp cmp a b). destruct (cmp a b) eqn:E; try done.
  intros _ _. by apply (cmp_eq cmp).
Qed.

Lemma cmp_ltb_lt a b : cmp_ltb cmp a b = true <-> cmp a b = Lt.
Proof using Type. unfold cmp_ltb. by destruct (cmp a b). Qed.

Lemma cmp_lt_irrefl a : cmp a a <> Lt.
Proof using Type*. by rewrite cmp_refl. Qed.

Lemma cmp_lt_le_trans a b c : cmp a b = Lt -> cmp_le cmp b c -> cmp a c = Lt.
Proof using Type*.
  unfold cmp_le. intros H1 H2. destruct (cmp b c) eqn:E; [|by eapply (cmp_lt_trans cmp)|done].
  apply (cmp_eq cmp) in E. by subst.
Qed.
End LawsLe.

(** * sort.Sort *)

(** The result of [sort.Sort] with [Less(i, j)] comparing keys: a sorted
    permutation.  It is determined by its argument when the keys are distinct;
    [sort.Sort] leaves the order of equal keys open. *)
Definition sort_by {A K} (key : A -> K) (cmp : K -> K -> comparison) (l : list A) : list A :=
  merge_sort (fun a b => cmp_le cmp (key a) (key b)) l.

Section Sort.
Context {A K : Type} (key : A -> K) (cmp : K -> K -> comparison) `{!CompareLaws cmp}.

#[local] Instance key_le_trans : Transitive (fun a b => cmp_le cmp (key a) (key b)).
Proof using Type*. intros a b c. apply (cmp_le_trans cmp). Qed.
#[local] Instance key_le_total : Total (fun a b => cmp_le cmp (key a) (key b)).
Proof using Type*. intros a b. apply (cmp_le_total cmp). Qed.

Lemma sort_by_perm l : sort_by key cmp l ≡ₚ l.
Proof using Type. apply merge_sort_Permutation. Qed.

Lemma sort_by_sorted l : StronglySorted (fun a b => cmp_le cmp (key a) (key b)) (sort_by key cmp l).
Proof using Type*. apply (StronglySorted_merge_sort _). Qed.

(** Strictly increasing keys. *)
Definition increasing (l : list A) : Prop :=
  StronglySorted (fun a b => cmp (key a) (key b) = Lt) l.

Lemma increasing_NoDup l : increasing l -> NoDup (key <$> l).
Proof using Type*.
  induction 1 as [|a l _ IH Hall]; [constructor|]. cbn. constructor; [|done].
  intros Hin. apply list_elem_of_fmap in Hin as (b & E & Hin). rewrite Forall_forall in Hall.
  specialize (Hall b Hin). rewrite E in Hall. by apply cmp_lt_irrefl in Hall.
Qed.

(** A list with distinct keys has only one sorted permutation. *)
Lemma sorted_unique l k :
  NoDup (key <$> l) -> l ≡ₚ k ->
  StronglySorted (fun a b => cmp_le cmp (key a) (key b)) l ->
  StronglySorted (fun a b => cmp_le cmp (key a) (key b)) k -> l = k.
Proof using Type*.
  intros Hnd Hp Hl. revert k Hp. induction Hl as [|a l Hl IH Ha]; intros k Hp Hk.
  { by apply Permutation_nil_l in Hp. }
  destruct k as [|b k]; [by apply Permutation_nil_r in Hp|].
  cbn in Hnd. apply NoDup_cons in Hnd as [Hna Hnd].
  apply StronglySorted_inv in Hk as [Hk Hb].
  assert (a = b) as ->.
  { assert (Hbin : b ∈ a :: l) by (rewrite Hp; left). assert (Hain : a ∈ b :: k) by (rewrite <- Hp; left).
    apply elem_of_cons in Hbin as [->|Hbin]; [done|]. apply elem_of_cons in Hain as [->|Hain]; [done|].
    rewrite Forall_forall in Ha, Hb.
    assert (key a = key b) as E by (apply (anti_symm (cmp_le cmp)); auto).
    exfalso. apply Hna. rewrite E. by apply list_elem_of_fmap_2. }
  f_equal. apply IH; [done| |done]. by apply Permutation_cons_inv in Hp.
Qed.

Lemma increasing_sorted l : increasing l -> StronglySorted (fun a b => cmp_le cmp (key a) (key b)) l.
Proof using Type*.
  induction 1 as [|a l _ IH Hall]; constructor; [done|].
  eapply Forall_impl; [exact Hall|]. unfold cmp_le. by intros b ->.
Qed.

Lemma sort_by_unique l k : increasing k -> l ≡ₚ k -> sort_by key cmp l = k.
Proof using Type*.
  intros Hk Hp. symmetry. apply sorted_unique.
  - by apply increasing_NoDup.
  - by rewrite sort_by_perm.
  - by apply increasing_sorted.
  - apply sort_by_sorted.
Qed.

Lemma sort_by_increasing l : increasing l -> sort_by key cmp l = l.
Proof using Type*. intros Hl. by apply sort_by_unique. Qed.

Lemma sorted_increasing l :
  NoDup (key <$> l) -> StronglySorted (fun a b => cmp_le cmp (key a) (key b)) l -> increasing l.
Proof using Type*.
  intros Hnd. induction 1 as [|a l _ IH Hall]; [constructor|].
  cbn in Hnd. apply NoDup_cons in Hnd as [Ha Hnd]. constructor; [by apply IH|].
  apply Forall_forall. intros b Hb. rewrite Forall_forall in Hall. specialize (Hall b Hb).
  unfold cmp_le in Hall. destruct (cmp (key a) (key b)) eqn:E; try done.
  apply (cmp_eq cmp) in E. exfalso. apply Ha. rewrite E. by apply list_elem_of_fmap_2.
Qed.
End Sort.

(** * Merging sorted lists *)

(** Two sorted lists merged; elements with the same key are joined. *)
Section Merge.
Context {A K : Type} (key : A -> K) (cmp : K -> K -> comparison) (join : A -> A -> A).

Fixpoint kmerge (la : list A) : list A -> list A :=
  fix go (lb : list A) : list A :=
    match la, lb with
    | [], _ => lb
    | _, [] => la
    | a :: la', b :: lb' =>
        match cmp (key a) (key b) with
        | Gt => b :: go lb'
        | Lt => a :: kmerge la' lb
        | Eq => join a b :: kmerge la' lb'
        end
    end.

Lemma kmerge_nil_l lb : kmerge [] lb = lb.
Proof using Type. by destruct lb. Qed.

Lemma kmerge_nil_r la : kmerge la [] = la.
Proof using Type. by destruct la. Qed.

Lemma kmerge_cons a la b lb :
  kmerge (a :: la) (b :: lb) =
  match cmp (key a) (key b) with
  | Gt => b :: kmerge (a :: la) lb
  | Lt => a :: kmerge la (b :: lb)
  | Eq => join a b :: kmerge la lb
  end.
Proof using Type. cbn. by destruct (cmp (key a) (key b)). Qed.

(** Induction along the merge. *)
Lemma kmerge_ind (P : list A -> list A -> list A -> Prop) :
  (forall lb, P [] lb lb) -> (forall la, P la [] la) ->
  (forall a la b lb, cmp (key a) (key b) = Eq -> P la lb (kmerge la lb) ->
     P (a :: la) (b :: lb) (join a b :: kmerge la lb)) ->
  (forall a la b lb, cmp (key a) (key b) = Lt -> P la (b :: lb) (kmerge la (b :: lb)) ->
     P (a :: la) (b :: lb) (a :: kmerge la (b :: lb))) ->
  (forall a la b lb, cmp (key a) (key b) = Gt -> P (a :: la) lb (kmerge (a :: la) lb) ->
     P (a :: la) (b :: lb) (b :: kmerge (a :: la) lb)) ->
  forall la lb, P la lb (kmerge la lb).
Proof using Type.
  intros H1 H2 H3 H4 H5 la. induction la as [|a la IHa]; intros lb; [rewrite kmerge_nil_l; apply H1|].
  induction lb as [|b lb IHb]; [apply H2|]. rewrite kmerge_cons. destruct (cmp (key a) (key b)) eqn:E; auto.
Qed.

Context `{!CompareLaws cmp} (Hjoin : forall a b, key (join a b) = key a).

Lemma kmerge_keys la lb k : k ∈ key <$> kmerge la lb <-> k ∈ key <$> la \/ k ∈ key <$> lb.
Proof using Type*.
  revert k. pattern la, lb, (kmerge la lb). apply kmerge_ind; clear la lb.
  - intros lb k. cbn. rewrite elem_of_nil. tauto.
  - intros la k. cbn. rewrite elem_of_nil. tauto.
  - intros a la b lb E%(cmp_eq cmp) IH k. cbn. rewrite !elem_of_cons, IH, Hjoin, E. tauto.
  - intros a la b lb _ IH k. cbn in *. rewrite !elem_of_cons, IH, elem_of_cons. tauto.
  - intros a la b lb _ IH k. cbn in *. rewrite !elem_of_cons, IH, elem_of_cons. tauto.
Qed.

Lemma increasing_cons a l :
  increasing key cmp (a :: l) <-> increasing key cmp l /\ forall k, k ∈ key <$> l -> cmp (key a) k = Lt.
Proof using Type.
  unfold increasing. split.
  - intros [Hl Ha]%StronglySorted_inv. split; [done|]. rewrite Forall_forall in Ha.
    intros k (b & -> & Hb)%list_elem_of_fmap. auto.
  - intros [Hl Ha]. constructor; [done|]. apply Forall_forall. intros b Hb. by apply Ha, list_elem_of_fmap_2.
Qed.

Lemma kmerge_increasing la lb :
  increasing key cmp la -> increasing key cmp lb -> increasing key cmp (kmerge la lb).
Proof using Type*.
  pattern la, lb, (kmerge la lb). apply kmerge_ind; clear la lb; [done|done|..].
  - intros a la b lb E IH [Hla Ha]%increasing_cons [Hlb Hb]%increasing_cons. apply increasing_cons.
    split; [auto|]. intros k [Hk|Hk]%kmerge_keys; rewrite Hjoin; [auto|].
    apply (cmp_eq cmp) in E. rewrite E. auto.
  - intros a la b lb E IH [Hla Ha]%increasing_cons Hb. apply increasing_cons. split; [auto|].
    apply increasing_cons in Hb as [_ Hb].
    intros k [Hk|Hk]%kmerge_keys; [auto|]. cbn in Hk. apply elem_of_cons in Hk as [->|Hk]; [done|].
    by eapply (cmp_lt_trans cmp), Hb.
  - intros a la b lb E IH Ha [Hlb Hb]%increasing_cons. apply increasing_cons. split; [auto|].
    apply increasing_cons in Ha as [_ Ha]. apply (cmp_gt cmp) in E.
    intros k [Hk|Hk]%kmerge_keys; [|auto]. cbn in Hk. apply elem_of_cons in Hk as [->|Hk]; [done|].
    by eapply (cmp_lt_trans cmp), Ha.
Qed.

(** The element with a key. *)
Definition kfind `{EqDecision K} (k : K) (l : list A) : option A := snd <$> list_find (fun a => key a = k) l.

Lemma kfind_cons `{EqDecision K} k a l : kfind k (a :: l) = if decide (key a = k) then Some a else kfind k l.
Proof using Type.
  unfold kfind. cbn [list_find]. case_decide; [done|]. by destruct (list_find _ l) as [[]|].
Qed.

Lemma kfind_None `{EqDecision K} k l : kfind k l = None <-> k ∉ key <$> l.
Proof using Type.
  induction l as [|a l IH]; [split; [intros _; apply not_elem_of_nil|done]|].
  rewrite kfind_cons, fmap_cons, elem_of_cons. case_decide; [split; [done|]|rewrite IH]; naive_solver.
Qed.

Lemma kfind_Some `{EqDecision K} k l a : kfind k l = Some a -> a ∈ l /\ key a = k.
Proof using Type.
  induction l as [|b l IH]; [done|]. rewrite kfind_cons. case_decide; [intros [= ->]; by split; [left|]|].
  intros [? ?]%IH. split; [by right|done].
Qed.

Lemma kfind_elem `{EqDecision K} l a : increasing key cmp l -> a ∈ l -> kfind (key a) l = Some a.
Proof using CompareLaws0.
  clear Hjoin. induction 1 as [|b l _ IH Hb]; [by intros ?%not_elem_of_nil|]. rewrite kfind_cons.
  intros [->|Hin]%elem_of_cons; [by rewrite decide_True|]. rewrite decide_False; [by apply IH|]. intros E.
  rewrite Forall_forall in Hb. specialize (Hb a Hin). rewrite E in Hb. by apply (cmp_lt_irrefl cmp) in Hb.
Qed.

Lemma kfind_kmerge `{EqDecision K} k la lb :
  increasing key cmp la -> increasing key cmp lb ->
  kfind k (kmerge la lb) = union_with (fun a b => Some (join a b)) (kfind k la) (kfind k lb).
Proof using Type*.
  pattern la, lb, (kmerge la lb). apply kmerge_ind; clear la lb.
  - intros lb _ _. cbn. by destruct (kfind k lb).
  - intros la _ _. cbn. by destruct (kfind k la).
  - intros a la b lb E%(cmp_eq cmp) IH [Hla _]%increasing_cons [Hlb _]%increasing_cons.
    rewrite !kfind_cons, Hjoin, <- E. case_decide; [done|by apply IH].
  - intros a la b lb E IH [Hla _]%increasing_cons Hb. rewrite !kfind_cons, (IH Hla Hb). case_decide as Ek; [|by rewrite kfind_cons].
    rewrite <- kfind_cons, (proj2 (kfind_None k (b :: lb))); [done|]. intros Hin.
    assert (Hlt : forall k', k' ∈ key <$> b :: lb -> cmp (key a) k' = Lt).
    { apply increasing_cons in Hb as [_ Hb]. intros k' [->|Hk]%elem_of_cons; [done|]. by eapply (cmp_lt_trans cmp), Hb. }
    specialize (Hlt k Hin). rewrite Ek in Hlt. by apply (cmp_lt_irrefl cmp) in Hlt.
  - intros a la b lb E IH Ha [Hlb _]%increasing_cons. apply (cmp_gt cmp) in E. rewrite !kfind_cons, (IH Ha Hlb).
    destruct (decide (key b = k)) as [Ek|]; [|by rewrite kfind_cons].
    rewrite <- kfind_cons, (proj2 (kfind_None k (a :: la))); [done|]. intros Hin.
    assert (Hlt : forall k', k' ∈ key <$> a :: la -> cmp (key b) k' = Lt).
    { apply increasing_cons in Ha as [_ Ha]. intros k' [->|Hk]%elem_of_cons; [done|]. by eapply (cmp_lt_trans cmp), Ha. }
    specialize (Hlt k Hin). rewrite Ek in Hlt. by apply (cmp_lt_irrefl cmp) in Hlt.
Qed.
End Merge.

(** * sort.Search *)

(** [for i < j { h := (i+j)/2; if !f(h) { i = h+1 } else { j = h } }]. *)
Fixpoint search_loop (fuel : nat) (f : nat -> bool) (i j : nat) : nat :=
  match fuel with
  | O => i
  | S fuel =>
      if (i <? j)%nat then
        let h := ((i + j) / 2)%nat in
        if negb (f h) then search_loop fuel f (h + 1) j else search_loop fuel f i h
      else i
  end.

Definition Search (n : nat) (f : nat -> bool) : nat := search_loop n f 0 n.

Lemma search_loop_spec fuel f i j :
  (i <= j)%nat -> (j - i <= fuel)%nat ->
  (forall k, (k < i)%nat -> f k = false) ->
  (forall k, (k < j)%nat -> f k = true -> forall k', (k <= k' < j)%nat -> f k' = true) ->
  (i <= search_loop fuel f i j <= j)%nat /\
  (forall k, (k < search_loop fuel f i j)%nat -> f k = false) /\
  (forall k, (search_loop fuel f i j <= k < j)%nat -> f k = true).
Proof.
  revert i j. induction fuel as [|fuel IH]; intros i j Hij Hf Hlow Hmono; cbn [search_loop].
  { split_and!; [lia|lia|done|intros; lia]. }
  destruct (Nat.ltb_spec i j); [|split_and!; [lia|lia|done|intros; lia]].
  assert (i <= (i + j) / 2 < j)%nat as [Hh1 Hh2].
  { split; [apply Nat.div_le_lower_bound; lia|apply Nat.Div0.div_lt_upper_bound; lia]. }
  set (h := ((i + j) / 2)%nat) in *. destruct (f h) eqn:Eh; cbn [negb].
  - destruct (IH i h) as (? & ? & H3); try done; try lia.
    { intros k ? Hk k' ?. apply (Hmono k); (done || lia). }
    split_and!; [lia|lia|done|]. intros k Hk. destruct (decide (k < h)%nat); [apply H3; lia|].
    apply (Hmono h); (done || lia).
  - destruct (IH (h + 1)%nat j) as (? & ? & ?); try done; try lia; [|split_and!; (done || lia)].
    intros k Hk. destruct (f k) eqn:Ek; [|done].
    assert (f h = true) by (apply (Hmono k); (done || lia)). congruence.
Qed.

(** The least index from which on a monotone predicate holds. *)
Lemma Search_spec n f :
  (forall k k', f k = true -> (k <= k' < n)%nat -> f k' = true) ->
  (Search n f <= n)%nat /\ (forall k, (k < Search n f)%nat -> f k = false) /\
  (forall k, (Search n f <= k < n)%nat -> f k = true).
Proof.
  intros Hmono. unfold Search.
  destruct (search_loop_spec n f 0 n) as (? & ? & ?); try lia; [|split_and!; (done || lia)].
  intros k ? Hk k' ?. apply (Hmono k); (done || lia).
Qed.
