(* ===== verification/Files.v ===== *)
(** What the code uses of files: the Go functions on a file's contents, the buffered
    writer, and directories of files with numbers for names. *)
From S2P Require Import Prelude Order.
#[local] Open Scope list_scope.
#[local] Open Scope Z_scope.

(** The files of a directory by number, as [ReadDir] lists the six-digit names in
    the order of the numbers. *)
Abbreviation directory := (gmap Z (list Z)).

(** * Operations *)

(** [File.Write] at [pos]: what is there is replaced, a gap is filled with zeros. *)
Definition write_at (c : list Z) (pos : Z) (b : list Z) : list Z :=
  let p := Z.to_nat pos in
  take p c ++ replicate (p - length c) 0 ++ b ++ drop (p + length b) c.

(** [File.Truncate]. *)
Definition truncate_at (c : list Z) (pos : Z) : list Z :=
  let p := Z.to_nat pos in take p c ++ replicate (p - length c) 0.

(** [preallocExtend]: the file has the size asked for at least.  Nothing is done for
    size 0. *)
Definition preallocExtend (c : list Z) (sizeInBytes : Z) : list Z := c ++ replicate (Z.to_nat sizeInBytes - length c) 0.

(** The fallback where the file system cannot allocate.  [Seek] by the size from the end
    gives the position behind both, which is not below the size. *)
Definition preallocExtendTrunc (c : list Z) (sizeInBytes : Z) : list Z :=
  let size := zlen c + sizeInBytes in
  if size <? sizeInBytes then c else truncate_at c sizeInBytes.

(** [Preallocate]: allocating without extending the file leaves its contents. *)
Definition Preallocate (c : list Z) (sizeInBytes : Z) (extendFile : bool) : list Z :=
  if sizeInBytes =? 0 then c
  else if extendFile then preallocExtend c sizeInBytes
  else c.

(** [ioutil.ReadDir]: all names in order. *)
Definition dir_names (dir : directory) : list Z := fst <$> sort_by fst Z.compare (map_to_list dir).

(** [sequenceFiles]: the names that are numbers. *)
Definition sequenceFiles (dir : directory) : list Z := dir_names dir.

Definition nextSequenceFile (dir : directory) : Z := default 0 (last (sequenceFiles dir)) + 1.

(** [bufio.Writer.Write]: the bytes that go to the file, and the buffer after it. *)
Definition bufio_Write (size : Z) (buf p : list Z) : list Z * list Z :=
  if zlen p <=? size - zlen buf then ([], buf ++ p)
  else if zlen buf =? 0 then (p, [])
  else
    let k := Z.to_nat (size - zlen buf) in
    let out := buf ++ take k p in
    let p := drop k p in
    if zlen p <=? size then (out, p) else (out ++ p, []).

(** * Proofs *)

Lemma truncate_at_take c p : 0 <= p <= zlen c -> truncate_at c p = take (Z.to_nat p) c.
Proof.
  intros H. unfold truncate_at. unfold zlen in H. replace (Z.to_nat p - length c)%nat with 0%nat by lia.
  apply app_nil_r.
Qed.

(** Writing again what is there. *)
Lemma write_at_twice c p b : write_at (write_at c p b) p b = write_at c p b.
Proof.
  unfold write_at at 2 3. set (n := Z.to_nat p). set (a := take n c ++ replicate (n - length c) 0).
  assert (Ha : length a = n) by (unfold a; rewrite length_app, length_take, length_replicate; lia).
  rewrite (assoc_L (++) (take n c)). fold a. unfold write_at. fold n. rewrite <- Ha, take_app_length.
  replace (length a - length (a ++ b ++ drop (length a + length b) c))%nat with 0%nat by (rewrite length_app; lia). cbn [replicate app].
  by rewrite (drop_app_add a), drop_app_length.
Qed.

Lemma write_at_zeros pre n p b :
  p = zlen pre -> write_at (pre ++ zeros n) p b = pre ++ b ++ zeros (n - length b).
Proof.
  intros ->. unfold write_at. rewrite to_nat_zlen, take_app_length.
  replace (length pre - length (pre ++ zeros n))%nat with 0%nat by (rewrite length_app; lia). cbn [replicate app].
  do 2 f_equal. rewrite drop_app_ge by lia. replace (length pre + length b - length pre)%nat with (length b) by lia.
  apply drop_replicate.
Qed.

(** A new file is zeros, whichever way it is allocated. *)
Lemma Preallocate_new size : exists n, Preallocate [] size true = zeros n /\ (0 <= size -> preallocExtendTrunc [] size = zeros n).
Proof.
  unfold Preallocate. destruct (Z.eqb_spec size 0) as [->|_]; [by exists 0%nat|]. exists (Z.to_nat size).
  unfold preallocExtend, preallocExtendTrunc, truncate_at, zeros. cbn [length app]. rewrite Nat.sub_0_r. change (zlen []) with 0.
  rewrite Z.add_0_l, Z.ltb_irrefl. by rewrite take_nil.
Qed.

Lemma truncate_at_zeros pre n p : p = zlen pre -> truncate_at (pre ++ zeros n) p = pre.
Proof.
  intros ->. rewrite truncate_at_take by (rewrite zlen_app; pose proof (zlen_nonneg pre); pose proof (zlen_nonneg (zeros n)); lia).
  by rewrite to_nat_zlen, take_app_length.
Qed.

Lemma alter_insert (dir : directory) k c g : alter g k (<[k := c]> dir) = <[k := g c]> dir.
Proof.
  apply map_eq. intros j. destruct (decide (j = k)) as [->|].
  - by rewrite lookup_alter_eq, !lookup_insert_eq.
  - by rewrite lookup_alter_ne, !lookup_insert_ne by done.
Qed.

Lemma bufio_Write_app size buf p out buf' : bufio_Write size buf p = (out, buf') -> out ++ buf' = buf ++ p.
Proof.
  unfold bufio_Write. destruct (_ <=? _); [by intros [= <- <-]|].
  destruct (Z.eqb_spec (zlen buf) 0) as [E|_].
  { intros [= <- <-]. assert (buf = []) as -> by (unfold zlen in E; destruct buf; cbn in E; [done|lia]). apply app_nil_r. }
  destruct (_ <=? _); intros [= <- <-].
  - by rewrite <- (assoc_L (++)), take_drop.
  - by rewrite app_nil_r, <- (assoc_L (++)), take_drop.
Qed.

(** ** Directories with consecutive numbers *)

Fixpoint numbered {A} (i : Z) (cs : list A) : list (Z * A) :=
  match cs with [] => [] | c :: cs => (i, c) :: numbered (i + 1) cs end.

Definition seg_dir (i : Z) (cs : list (list Z)) : directory := list_to_map (numbered i cs).

Lemma seg_dir_lookup i cs k : seg_dir i cs !! k = if decide (i <= k) then cs !! Z.to_nat (k - i) else None.
Proof.
  revert i. induction cs as [|c cs IH]; intros i; unfold seg_dir; cbn [numbered list_to_map].
  - by case_decide.
  - change (list_to_map (numbered (i + 1) cs)) with (seg_dir (i + 1) cs). cbn [fst snd list_to_map foldr].
    destruct (decide (i = k)) as [->|Hk].
    + rewrite decide_True, Z.sub_diag by lia. apply lookup_insert_eq.
    + etransitivity; [by apply lookup_insert_ne|]. etransitivity; [apply IH|].
      repeat case_decide; [|lia|lia|done].
      by replace (Z.to_nat (k - i)) with (S (Z.to_nat (k - (i + 1)))) by lia.
Qed.

Lemma numbered_increasing {A} i (cs : list A) : increasing fst Z.compare (numbered i cs).
Proof.
  revert i. induction cs as [|c cs IH]; intros i; constructor; [apply IH|]. clear IH.
  assert (Hk : forall j, i < j -> Forall (fun b => (i ?= fst b) = Lt) (numbered j cs)); [|apply Hk; lia].
  induction cs as [|c' cs IH]; intros j Hj; constructor; [by apply Z.compare_lt_iff|]. apply IH. lia.
Qed.

Lemma numbered_app {A} i (cs cs' : list A) : numbered i (cs ++ cs') = numbered i cs ++ numbered (i + zlen cs) cs'.
Proof.
  revert i. induction cs as [|c cs IH]; intros i; unfold zlen; cbn; [by rewrite Z.add_0_r|].
  rewrite IH. unfold zlen. do 3 f_equal. lia.
Qed.

Lemma last_numbered {A} i (cs : list A) c : last (numbered i (cs ++ [c])) = Some (i + zlen cs, c).
Proof. rewrite numbered_app. cbn [numbered]. apply last_snoc. Qed.

Lemma seg_dir_snoc i cs c : seg_dir i (cs ++ [c]) = <[i + zlen cs := c]> (seg_dir i cs).
Proof.
  apply map_eq. intros k. unfold zlen. destruct (decide (k = i + Z.of_nat (length cs))) as [->|Hk].
  - rewrite lookup_insert_eq, seg_dir_lookup, decide_True by lia.
    replace (Z.to_nat (i + Z.of_nat (length cs) - i)) with (length cs) by lia. by rewrite list_lookup_middle.
  - rewrite lookup_insert_ne, !seg_dir_lookup by done. case_decide; [|done].
    destruct (decide (Z.to_nat (k - i) < length cs)%nat).
    + by rewrite !lookup_app_l.
    + rewrite !lookup_ge_None_2; [done| |]; rewrite ?length_app; cbn; lia.
Qed.

Lemma sequenceFiles_seg_dir i cs : sequenceFiles (seg_dir i cs) = fst <$> numbered i cs.
Proof.
  unfold sequenceFiles, dir_names, seg_dir. f_equal. apply (sort_by_unique fst Z.compare).
  - apply numbered_increasing.
  - apply map_to_list_to_map. apply (increasing_NoDup fst Z.compare), numbered_increasing.
Qed.

Lemma numbered_lookup {A} i (cs : list A) x : x ∈ numbered i cs -> i <= fst x /\ cs !! Z.to_nat (fst x - i) = Some (snd x).
Proof.
  revert i. induction cs as [|c cs IH]; intros i Hx; [by apply not_elem_of_nil in Hx|].
  apply elem_of_cons in Hx as [->|Hx]; cbn [fst snd].
  - split; [done|]. by rewrite Z.sub_diag.
  - destruct (IH _ Hx) as [H1 H2]. split; [lia|].
    by replace (Z.to_nat (fst x - i)) with (S (Z.to_nat (fst x - (i + 1)))) by lia.
Qed.

Lemma numbered_snd {A} i (cs : list A) : snd <$> numbered i cs = cs.
Proof. revert i. induction cs as [|c cs IH]; intros i; [done|]. cbn. by rewrite IH. Qed.

(** The fallback cuts a file that is longer than asked for. *)
Lemma preallocExtendTrunc_cuts : preallocExtendTrunc [1; 2; 3] 1 = [1].
Proof. done. Qed.
