(* ===== verification/Labels.v ===== *)
(** labels/labels.go and labels/selector.go: label sets, their order, hash and
    matchers. *)
From S2P Require Import Prelude EncBuf Order.
#[local] Open Scope list_scope.
#[local] Open Scope Z_scope.

(** * Label sets *)

(** A label is the pair of its name and value. *)
Definition Label : Type := string * string.
Abbreviation Name := (@fst string string) (only parsing).
Abbreviation Value := (@snd string string) (only parsing).
Abbreviation Labels := (list (string * string)).

Definition Less (a b : Label) : bool := cmp_ltb str_cmp (Name a) (Name b).

Definition sort_labels (ls : Labels) : Labels := sort_by Name str_cmp ls.

(** [for _, l := range ls { if l.Name == name { return l.Value } }; return ""] *)
Fixpoint labels_Get (ls : Labels) (name : string) : string :=
  match ls with
  | [] => EmptyString
  | l :: ls => if decide (Name l = name) then Value l else labels_Get ls name
  end.

Fixpoint equals_loop (ls o : Labels) : bool :=
  match ls, o with
  | l :: ls, l' :: o => if decide (l' = l) then equals_loop ls o else false
  | _, _ => true
  end.

Definition labels_Equals (ls o : Labels) : bool :=
  if negb (length ls =? length o)%nat then false else equals_loop ls o.

Definition labels_Map (ls : Labels) : gmap string string :=
  foldl (fun m l => <[Name l := Value l]> m) ∅ ls.

Definition New (ls : Labels) : Labels := sort_labels ls.

(** The order in which [range m] visits the map is an argument. *)
Definition FromMap (order : list (string * string)) : Labels := New order.

Fixpoint pairs_of (ss : list string) : option Labels :=
  match ss with
  | [] => Some []
  | n :: v :: ss => cons (n, v) <$> pairs_of ss
  | _ => None
  end.

(** Panics on an odd number of strings. *)
Definition FromStrings (ss : list string) : res Labels :=
  match pairs_of ss with Some ls => Ok (sort_labels ls) | None => Panic end.

(** The loop of [Compare] over the common length; [Some d]: an early return. *)
Fixpoint compare_loop (a b : Labels) : option Z :=
  match a, b with
  | x :: a, y :: b =>
      let d := strings_Compare (Name x) (Name y) in
      if negb (d =? 0) then Some d
      else
        let d := strings_Compare (Value x) (Value y) in
        if negb (d =? 0) then Some d else compare_loop a b
  | _, _ => None
  end.

Definition Compare (a b : Labels) : Z :=
  match compare_loop a b with
  | Some d => d
  | None => Z.of_nat (length a) - Z.of_nat (length b)
  end.

(** [Less] of the sortable slice of label sets. *)
Definition slice_Less (a b : Labels) : bool := Compare a b <? 0.

Definition sep : Z := 255.

(** The bytes that are hashed. *)
Definition hash_bytes (ls : Labels) : list Z :=
  foldl (fun b v => b ++ string_bytes (Name v) ++ [sep] ++ string_bytes (Value v) ++ [sep]) [] ls.

(** [xxhash.Sum64] is outside the repository. *)
Definition labels_Hash (Sum64 : list Z -> Z) (ls : Labels) : Z := Sum64 (hash_bytes ls).

(** * Matchers *)

(** A compiled regular expression is known by what it matches. *)
Inductive Matcher :=
| EqualMatcher (name value : string)
| regexpMatcher (name : string) (re : string -> bool)
| notMatcher (m : Matcher)
| PrefixMatcher (name prefix : string).

Fixpoint m_Name (m : Matcher) : string :=
  match m with
  | EqualMatcher name _ | regexpMatcher name _ | PrefixMatcher name _ => name
  | notMatcher m => m_Name m
  end.

Fixpoint m_Matches (m : Matcher) (v : string) : bool :=
  match m with
  | EqualMatcher _ value => bool_decide (v = value)
  | regexpMatcher _ re => re v
  | notMatcher m => negb (m_Matches m v)
  | PrefixMatcher _ prefix => String.prefix prefix v
  end.

Definition NewEqualMatcher (name value : string) : Matcher := EqualMatcher name value.
Definition Not (m : Matcher) : Matcher := notMatcher m.
Definition NewPrefixMatcher (name prefix : string) : Matcher := PrefixMatcher name prefix.

Section Regexp.
(** [regexp.Compile]: [None] is a syntax error. *)
Context (Compile : string -> option (string -> bool)).

Definition NewRegexpMatcher (name pattern : string) : res Matcher :=
  match Compile pattern with
  | Some re => Ok (regexpMatcher name re)
  | None => Err (ErrMsg "error parsing regexp")
  end.

Definition NewMustRegexpMatcher (name pattern : string) : res Matcher :=
  match Compile pattern with Some re => Ok (regexpMatcher name re) | None => Panic end.
End Regexp.

Abbreviation Selector := (list Matcher).

Fixpoint sel_Matches (s : Selector) (ls : Labels) : bool :=
  match s with
  | [] => true
  | m :: s =>
      let v := labels_Get ls (m_Name m) in
      if negb (m_Matches m v) then false else sel_Matches s ls
  end.

Example compare_example :
  Compare [("a", "1"); ("b", "2")] [("a", "1"); ("b", "10")]%string = 1 /\
  Compare [("a", "1")] [("a", "1"); ("b", "2")]%string = -1.
Proof. by vm_compute. Qed.

(** * Proofs *)

(** The order [Compare] decides. *)
Definition labels_cmp : Labels -> Labels -> comparison := lex_cmp (pair_cmp str_cmp str_cmp).

Lemma labels_cmp_laws : CompareLaws labels_cmp.
Proof. apply _. Qed.
#[export] Existing Instance labels_cmp_laws.

Lemma strings_Compare_cmp s t : (strings_Compare s t ?= 0) = str_cmp s t.
Proof. unfold strings_Compare. by destruct (str_cmp s t). Qed.

Lemma Compare_cmp a b : (Compare a b ?= 0) = labels_cmp a b.
Proof.
  unfold Compare, labels_cmp. revert b. induction a as [|[n v] a IH]; intros [|[n' v'] b]; try done.
  cbn [compare_loop lex_cmp fst snd]. unfold pair_cmp at 1; cbn [fst snd]. pose proof (strings_Compare_cmp n n') as En.
  pose proof (strings_Compare_cmp v v') as Ev.
  destruct (Z.eqb_spec (strings_Compare n n') 0) as [E|E]; cbn [negb].
  - rewrite E in En. rewrite <- En. cbn.
    destruct (Z.eqb_spec (strings_Compare v v') 0) as [E'|E']; cbn [negb].
    + rewrite E' in Ev. rewrite <- Ev. cbn. rewrite <- IH.
      destruct (compare_loop a b); [done|]. f_equal. cbn [length]. lia.
    + rewrite <- Ev. destruct (Z.compare_spec (strings_Compare v v') 0); done.
  - rewrite <- En. destruct (Z.compare_spec (strings_Compare n n') 0); done.
Qed.

Lemma labels_Equals_spec a b : labels_Equals a b = true <-> a = b.
Proof.
  unfold labels_Equals. destruct (Nat.eqb_spec (length a) (length b)) as [El|El]; cbn.
  - revert b El. induction a as [|x a IH]; intros [|y b] El; try done.
    cbn [equals_loop length] in *. case_decide; [rewrite IH by lia|]; naive_solver.
  - split; [done|]. by intros ->.
Qed.

Lemma labels_Get_elem ls n v :
  NoDup ls.*1 -> (n, v) ∈ ls -> labels_Get ls n = v.
Proof.
  induction ls as [|[n' v'] ls IH]; intros Hnd Hin; [by apply not_elem_of_nil in Hin|].
  cbn in *. apply NoDup_cons in Hnd as [Hn Hnd]. apply elem_of_cons in Hin as [[= -> ->]|Hin].
  - by rewrite decide_True.
  - rewrite decide_False; [by apply IH|]. intros ->. apply Hn. by apply (list_elem_of_fmap_2 fst) in Hin.
Qed.

Lemma labels_Get_not_elem ls n : n ∉ ls.*1 -> labels_Get ls n = EmptyString.
Proof.
  induction ls as [|[n' v'] ls IH]; intros Hn; [done|]. cbn in *.
  apply not_elem_of_cons in Hn as [? ?]. rewrite decide_False by done. by apply IH.
Qed.

Lemma labels_Map_list ls : NoDup ls.*1 -> labels_Map ls = list_to_map ls.
Proof.
  unfold labels_Map. intros Hnd.
  assert (H : forall m : gmap string string, (forall n, n ∈ ls.*1 -> m !! n = None) ->
    foldl (fun m l => <[fst l := snd l]> m) m ls = (list_to_map ls : gmap string string) ∪ m);
    [|by rewrite H, map_union_empty].
  induction ls as [|[n v] ls IH]; intros m Hm; cbn; [by rewrite map_empty_union|].
  cbn in Hnd. apply NoDup_cons in Hnd as [Hn Hnd]. rewrite IH; [|done|].
  - rewrite <- insert_union_l, <- insert_union_r; [done|]. by apply not_elem_of_list_to_map_1.
  - intros n' Hn'. rewrite lookup_insert_ne; [apply Hm; by right|]. by intros ->.
Qed.

(** The separator byte does not occur in a well-formed UTF-8 string. *)
Definition no_sep (l : Label) : Prop :=
  sep ∉ string_bytes (Name l) /\ sep ∉ string_bytes (Value l).

#[export] Instance no_sep_dec l : Decision (no_sep l).
Proof. unfold no_sep. apply _. Defined.

Definition label_bytes (v : Label) : list Z :=
  string_bytes (Name v) ++ [sep] ++ string_bytes (Value v) ++ [sep].

Lemma hash_bytes_eq ls : hash_bytes ls = mjoin (label_bytes <$> ls).
Proof.
  unfold hash_bytes. enough (H : forall b, foldl (fun b v => b ++ label_bytes v) b ls = b ++ mjoin (label_bytes <$> ls))
    by apply H.
  induction ls as [|l ls IH]; intros b; cbn [foldl]; [cbn; by rewrite app_nil_r|].
  rewrite IH. cbn. by rewrite (assoc_L (++)).
Qed.

(** A separated prefix is determined by the whole. *)
Lemma sep_split (s a b c d : list Z) x :
  s = [x] -> x ∉ a -> x ∉ c -> a ++ s ++ b = c ++ s ++ d -> a = c /\ b = d.
Proof.
  intros ->. revert c. induction a as [|y a IH]; intros [|z c] Ha Hc E; cbn in E; simplify_eq.
  - done.
  - by apply not_elem_of_cons in Hc as [? _].
  - by apply not_elem_of_cons in Ha as [? _].
  - apply not_elem_of_cons in Ha as [_ ?], Hc as [_ ?]. by destruct (IH c) as [-> ->].
Qed.

Lemma hash_bytes_inj_aux ls ls' :
  Forall no_sep ls -> Forall no_sep ls' -> hash_bytes ls = hash_bytes ls' -> ls = ls'.
Proof.
  rewrite !hash_bytes_eq. intros Hls. revert ls'.
  induction Hls as [|[n v] ls [Hn Hv] _ IH]; intros ls' Hls' E.
  - destruct Hls' as [|[n' v'] ls' _ _]; [done|]. exfalso. apply (f_equal length) in E.
    rewrite fmap_cons, join_cons, length_app in E. unfold label_bytes in E.
    rewrite !length_app in E. cbn in E. lia.
  - destruct Hls' as [|[n' v'] ls' [Hn' Hv'] Hls'].
    { exfalso. apply (f_equal length) in E. rewrite fmap_cons, join_cons, length_app in E.
      unfold label_bytes in E. rewrite !length_app in E. cbn in E. lia. }
    rewrite !fmap_cons, !join_cons in E. unfold label_bytes at 1 3 in E. rewrite <- !(assoc_L (++)) in E.
    cbn [fst snd] in *.
    apply (sep_split [sep] _ _ _ _ sep) in E as [En E]; [|done..].
    apply (sep_split [sep] _ _ _ _ sep) in E as [Ev E]; [|done..].
    apply string_bytes_inj in En as ->, Ev as ->. f_equal. by apply IH.
Qed.

(** * Properties *)

(** C39: the sign of [Compare] is that of the lexicographic order on the pairs of name
    and value.  Hence it is a total order on label sets: it is 0 exactly on equal sets
    (where [Equals] holds), swapping the arguments swaps the sign, and "less" is
    transitive, so that the sorted slices and the merges by [Compare] are well defined. *)
Theorem Compare_order (a b c : Labels) :
  (Compare a b ?= 0) = lex_cmp (pair_cmp str_cmp str_cmp) a b /\
  (Compare a b = 0 <-> labels_Equals a b = true) /\
  (slice_Less a b = true <-> Compare b a > 0) /\
  implb (slice_Less a b && slice_Less b c) (slice_Less a c) = true.
Proof.
  assert (Hl : forall x y, slice_Less x y = true <-> labels_cmp x y = Lt).
  { intros x y. unfold slice_Less. by rewrite Z.ltb_lt, <- Compare_cmp, Z.compare_lt_iff. }
  split_and!; [apply Compare_cmp| | |].
  - rewrite labels_Equals_spec, <- (cmp_eq labels_cmp), <- Compare_cmp. by rewrite Z.compare_eq_iff.
  - rewrite Hl, <- (cmp_gt labels_cmp), <- Compare_cmp, Z.compare_gt_iff. lia.
  - destruct (slice_Less a b) eqn:E1, (slice_Less b c) eqn:E2; try done. cbn.
    rewrite Hl in *. by eapply (cmp_lt_trans labels_cmp).
Qed.

(** A label set built from a map, in whatever order the map is visited, is
    the same strictly sorted list of labels; [Get] on it is the lookup in the
    map (empty for a missing name) and [Map] gives the map back. *)
Theorem FromMap_spec (m : gmap string string) (order : list (string * string)) :
  order ≡ₚ map_to_list m ->
  FromMap order = FromMap (map_to_list m) /\ increasing Name str_cmp (FromMap order) /\
  (forall n, labels_Get (FromMap order) n = default EmptyString (m !! n)) /\
  labels_Map (FromMap order) = m.
Proof.
  intros Hp. assert (Hs : forall o, o ≡ₚ map_to_list m -> FromMap o ≡ₚ map_to_list m).
  { intros o Ho. rewrite <- Ho. apply sort_by_perm. }
  assert (Hnd : forall o, o ≡ₚ map_to_list m -> NoDup o.*1).
  { intros o ->. apply NoDup_fst_map_to_list. }
  pose proof (Hs _ Hp) as Hf. split_and!.
  - apply (sorted_unique Name str_cmp); [by apply Hnd, Hs| |apply sort_by_sorted; apply _..].
    by rewrite Hf, (Hs (map_to_list m)).
  - apply (sorted_increasing Name str_cmp); [by apply Hnd|apply sort_by_sorted; apply _].
  - intros n. destruct (m !! n) as [v|] eqn:E; cbn.
    + apply labels_Get_elem; [by apply Hnd|]. rewrite Hf. by apply elem_of_map_to_list.
    + apply labels_Get_not_elem. rewrite Hf. intros ([n' v] & -> & Hin)%list_elem_of_fmap.
      apply elem_of_map_to_list in Hin. cbn in E. congruence.
  - rewrite labels_Map_list by by apply Hnd.
    rewrite (list_to_map_proper _ (map_to_list m)) by (try done; by apply Hnd).
    apply list_to_map_to_list.
Qed.

Lemma FromMap_spec_witness :
  let m : gmap string string := <["job" := "api"]> {["host" := "h1"]}%string in
  FromMap [("job", "api"); ("host", "h1")]%string = FromMap (map_to_list m) /\
  increasing Name str_cmp (FromMap [("job", "api"); ("host", "h1")]%string) /\
  (forall n, labels_Get (FromMap [("job", "api"); ("host", "h1")]%string) n = default EmptyString (m !! n)) /\
  labels_Map (FromMap [("job", "api"); ("host", "h1")]%string) = m.
Proof.
  apply FromMap_spec. rewrite map_to_list_insert, map_to_list_singleton; [done|by vm_compute].
Defined.

(** The bytes that are hashed determine the label set, as long as no name
    or value holds the separator byte (none that is valid UTF-8 does): two
    label sets with one hash are equal unless the hash function itself
    collides. *)
Theorem hash_bytes_inj (Sum64 : list Z -> Z) (ls ls' : Labels) :
  Forall no_sep ls -> Forall no_sep ls' ->
  labels_Hash Sum64 ls = labels_Hash Sum64 ls' ->
  ls = ls' \/ (hash_bytes ls <> hash_bytes ls' /\ Sum64 (hash_bytes ls) = Sum64 (hash_bytes ls')).
Proof.
  intros Hls Hls' E. destruct (decide (hash_bytes ls = hash_bytes ls')); [left|by right].
  by apply hash_bytes_inj_aux.
Qed.

Lemma hash_bytes_inj_witness :
  let ls := [("a", "b"); ("job", "api")]%string in
  let sum := foldl (fun acc b => (31 * acc + b) mod 2 ^ 64) 7 in
  ls = ls \/ (hash_bytes ls <> hash_bytes ls /\ sum (hash_bytes ls) = sum (hash_bytes ls)).
Proof.
  apply (hash_bytes_inj (foldl (fun acc b => (31 * acc + b) mod 2 ^ 64) 7)); [decided|decided|done].
Defined.
