(* ===== verification/Records.v ===== *)
(** record.go: encoding and decoding of the write-ahead log's records. *)
From S2P Require Import Prelude Bits Varint EncBuf Order Labels Tombstones.
#[local] Open Scope list_scope.
#[local] Open Scope Z_scope.

(** * Data *)

Definition RecordInvalid : Z := 255.
Definition RecordSeries : Z := 1.
Definition RecordSamples : Z := 2.
Definition RecordTombstones : Z := 3.

Record RefSeries := mkRefSeries { rs_Ref : Z; rs_Labels : Labels }.
(** [V] is the bit pattern of the float64 value. *)
Record RefSample := mkRefSample { s_Ref : Z; s_T : Z; s_V : Z }.
Record Stone := mkStone { st_ref : Z; st_intervals : Intervals }.

(** * RecordEncoder *)

Definition enc_label (buf : encbuf) (l : Label) : encbuf := putUvarintStr (snd l) (putUvarintStr (fst l) buf).

Definition enc_series (buf : encbuf) (s : RefSeries) : encbuf :=
  let buf := putBE64 (rs_Ref s) buf in
  let buf := putUvarint (Z.of_nat (length (rs_Labels s))) buf in
  foldl enc_label buf (rs_Labels s).

Definition Enc_Series (series : list RefSeries) (b : list Z) : list Z :=
  e_get (foldl enc_series (putByte RecordSeries (mk_encbuf b)) series).

Definition enc_sample (first : RefSample) (buf : encbuf) (s : RefSample) : encbuf :=
  let buf := putVarint64 (i64 (i64 (s_Ref s) - i64 (s_Ref first))) buf in
  let buf := putVarint64 (i64 (s_T s - s_T first)) buf in
  putBE64 (s_V s) buf.

Definition Enc_Samples (samples : list RefSample) (b : list Z) : list Z :=
  let buf := putByte RecordSamples (mk_encbuf b) in
  match samples with
  | [] => e_get buf
  | first :: _ =>
      let buf := putBE64 (s_Ref first) buf in
      let buf := putBE64int64 (s_T first) buf in
      e_get (foldl (enc_sample first) buf samples)
  end.

Definition enc_interval (ref : Z) (buf : encbuf) (iv : Interval) : encbuf :=
  putVarint64 (Maxt iv) (putVarint64 (Mint iv) (putBE64 ref buf)).

Definition Enc_Tombstones (tstones : list Stone) (b : list Z) : list Z :=
  e_get (foldl (fun buf s => foldl (enc_interval (st_ref s)) buf (st_intervals s))
           (putByte RecordTombstones (mk_encbuf b)) tstones).

(** * RecordDecoder *)

Definition Type_ (rec : list Z) : Z :=
  match rec with
  | [] => RecordInvalid
  | t :: _ =>
      if (t =? RecordSeries) || (t =? RecordSamples) || (t =? RecordTombstones) then t
      else RecordInvalid
  end.

Definition errRecordType : error := ErrMsg "invalid record type".
Definition errBytesLeft : error := ErrMsg "unexpected bytes left in entry".

Section Loop.
Context {A : Type} (m : getter A).

(** [for len(dec.b) > 0 && dec.err() == nil { acc = append(acc, m(dec)) }].  Each
    round consumes a byte or sets the error. *)
Fixpoint dec_loop (fuel : nat) (d : decbuf) (acc : list A) : res (list A * decbuf) :=
  match de d with
  | Some _ => Ok (acc, d)
  | None =>
      if d_len d <=? 0 then Ok (acc, d)
      else match fuel with
      | O => Err out_of_fuel
      | S fuel => let? (a, d) := m d in dec_loop fuel d (acc ++ [a])
      end
  end.

(** The loop and the checks after it. *)
Definition dec_all (d : decbuf) (acc : list A) : res (list A) :=
  let? (acc, d) := dec_loop (length (db d)) d acc in
  match d_err d with
  | Some e => Err e
  | None => if 0 <? d_len d then Err errBytesLeft else Ok acc
  end.
End Loop.

(** [make(labels.Labels, n)]: panics when the length is negative or the 32 byte
    elements exceed the address space. *)
Definition make_ok (n : Z) : bool := (0 <=? n) && (n * 32 <=? 2 ^ 48).

Fixpoint dec_labels (n : nat) : getter Labels :=
  match n with
  | O => g_ret []
  | S n =>
      let! name := d_uvarintStr in
      let! value := d_uvarintStr in
      let! ls := dec_labels n in
      g_ret ((name, value) :: ls)
  end.

Definition dec_series : getter RefSeries :=
  let! ref := d_be64 in
  let! n := d_uvarint in
  if negb (make_ok n) then (fun _ => Panic)
  else
    let! lset := dec_labels (Z.to_nat n) in
    g_ret (mkRefSeries ref (sort_labels lset)).

Definition Dec_Series (rec : list Z) (series : list RefSeries) : res (list RefSeries) :=
  let? (t, d) := d_byte (mk_decbuf rec None) in
  if negb (t =? RecordSeries) then Err errRecordType
  else dec_all dec_series d series.

Definition dec_sample (baseRef baseTime : Z) : getter RefSample :=
  let! dref := d_varint64 in
  let! dtime := d_varint64 in
  let! val := d_be64 in
  g_ret (mkRefSample (u64 (i64 (i64 baseRef + dref))) (i64 (baseTime + dtime)) val).

Definition Dec_Samples (rec : list Z) (samples : list RefSample) : res (list RefSample) :=
  let? (t, d) := d_byte (mk_decbuf rec None) in
  if negb (t =? RecordSamples) then Err errRecordType
  else if d_len d =? 0 then Ok samples
  else
    let? (baseRef, d) := d_be64 d in
    let? (baseTime, d) := d_be64int64 d in
    dec_all (dec_sample baseRef baseTime) d samples.

Definition dec_stone : getter Stone :=
  let! ref := d_be64 in
  let! mint := d_varint64 in
  let! maxt := d_varint64 in
  g_ret (mkStone ref [mkInterval mint maxt]).

Definition Dec_Tombstones (rec : list Z) (tstones : list Stone) : res (list Stone) :=
  let? (t, d) := d_byte (mk_decbuf rec None) in
  if negb (t =? RecordTombstones) then Err errRecordType
  else dec_all dec_stone d tstones.

(** * Proofs *)

Lemma d_byte_cons x b : d_byte (mk_decbuf (x :: b) None) = Ok (x, mk_decbuf b None).
Proof. done. Qed.

Lemma dec_loop_decodes {A} (m : getter A) (enc : A -> list Z) l acc fuel :
  Forall (fun a => decodes m (enc a) a /\ enc a <> []) l -> (length l <= fuel)%nat ->
  dec_loop m fuel (mk_decbuf (mjoin (enc <$> l)) None) acc = Ok (acc ++ l, mk_decbuf [] None).
Proof.
  intros Hl. revert acc fuel. induction Hl as [|a l [Ha Hne] _ IH]; intros acc fuel Hf.
  - destruct fuel; cbn; by rewrite app_nil_r.
  - destruct fuel as [|fuel]; [cbn in Hf; lia|]. cbn [dec_loop de].
    rewrite fmap_cons, join_cons. unfold d_len; cbn [db].
    destruct (Z.leb_spec (Z.of_nat (length (enc a ++ mjoin (enc <$> l)))) 0) as [H0|_].
    { rewrite length_app in H0. destruct (enc a); [done|]. cbn in H0. lia. }
    rewrite Ha. cbn [res_bind]. rewrite IH by (cbn in Hf; lia). by rewrite <- (assoc_L (++)).
Qed.

Lemma length_mjoin_nonempty {A B} (enc : A -> list B) l :
  Forall (fun a => enc a <> []) l -> (length l <= length (mjoin (enc <$> l)))%nat.
Proof.
  induction 1 as [|a l Ha _ IH]; [done|]. rewrite fmap_cons, join_cons, length_app.
  destruct (enc a); [done|]. cbn. lia.
Qed.

Lemma dec_all_decodes {A} (m : getter A) (enc : A -> list Z) l acc :
  Forall (fun a => decodes m (enc a) a /\ enc a <> []) l ->
  dec_all m (mk_decbuf (mjoin (enc <$> l)) None) acc = Ok (acc ++ l).
Proof.
  intros Hl. unfold dec_all. cbn [db]. rewrite (dec_loop_decodes m enc); [done..|].
  apply length_mjoin_nonempty. eapply Forall_impl; [exact Hl|]. by intros a [_ ?].
Qed.

(** An encoder that appends to the buffer. *)
Lemma foldl_enc {A} (f : encbuf -> A -> encbuf) (enc : A -> list Z) l buf :
  (forall buf a, eb (f buf a) = eb buf ++ enc a) ->
  eb (foldl f buf l) = eb buf ++ mjoin (enc <$> l).
Proof.
  intros Hf. revert buf. induction l as [|a l IH]; intros buf; cbn [foldl]; [by rewrite app_nil_r|].
  rewrite IH, Hf, fmap_cons, join_cons. by rewrite <- (assoc_L (++)).
Qed.

Lemma PutUint64_nonempty x l : PutUint64 x ++ l <> [].
Proof. done. Qed.

Definition str_bytes (s : string) : list Z :=
  PutUvarint (u64 (Z.of_nat (length (string_bytes s)))) ++ string_bytes s.

Lemma putUvarintStr_app s buf : eb (putUvarintStr s buf) = eb buf ++ str_bytes s.
Proof. unfold putUvarintStr, str_bytes. cbn. by rewrite <- (assoc_L (++)). Qed.

Definition str_ok (s : string) : Prop := Z.of_nat (length (string_bytes s)) < 2 ^ 63.

#[export] Instance str_ok_dec s : Decision (str_ok s).
Proof. unfold str_ok. apply _. Defined.

Lemma decodes_str s : str_ok s -> decodes d_uvarintStr (str_bytes s) s.
Proof. apply decodes_uvarintStr. Qed.

Lemma decodes_labels ls :
  Forall (fun l => str_ok (fst l) /\ str_ok (snd l)) ls ->
  decodes (dec_labels (length ls)) (mjoin ((fun l => str_bytes (fst l) ++ str_bytes (snd l)) <$> ls)) ls.
Proof.
  induction 1 as [|[n v] ls [Hn Hv] _ IH]; [apply decodes_ret|].
  rewrite fmap_cons, join_cons, <- (assoc_L (++)). cbn [length dec_labels fst snd] in *.
  eapply decodes_bind; [by apply decodes_str|]. eapply decodes_bind; [by apply decodes_str|].
  by apply (decodes_map (dec_labels (length ls)) (cons (n, v))).
Qed.

Definition series_ok (s : RefSeries) : Prop :=
  is_u64 (rs_Ref s) /\ Z.of_nat (length (rs_Labels s)) <= 2 ^ 43 /\
  Forall (fun l => str_ok (fst l) /\ str_ok (snd l)) (rs_Labels s) /\
  increasing fst str_cmp (rs_Labels s).

Definition series_bytes (s : RefSeries) : list Z :=
  PutUint64 (rs_Ref s) ++ PutUvarint (u64 (Z.of_nat (length (rs_Labels s)))) ++
  mjoin ((fun l => str_bytes (fst l) ++ str_bytes (snd l)) <$> rs_Labels s).

Lemma enc_series_app buf s : eb (enc_series buf s) = eb buf ++ series_bytes s.
Proof.
  unfold enc_series, series_bytes.
  rewrite (foldl_enc _ (fun l => str_bytes (fst l) ++ str_bytes (snd l))).
  - cbn. by rewrite <- !(assoc_L (++)).
  - intros b l. unfold enc_label. rewrite !putUvarintStr_app. by rewrite <- (assoc_L (++)).
Qed.

Lemma decodes_series s : series_ok s -> decodes dec_series (series_bytes s) s.
Proof.
  intros (Href & Hlen & Hstr & Hinc). destruct s as [ref ls]; cbn [rs_Ref rs_Labels] in *.
  unfold dec_series, series_bytes; cbn [rs_Ref rs_Labels].
  eapply decodes_bind; [by apply decodes_be64|].
  eapply decodes_bind; [apply decodes_uvarint; lia|].
  assert (make_ok (Z.of_nat (length ls)) = true) as ->.
  { unfold make_ok. rewrite andb_true_iff, !Z.leb_le. lia. }
  cbn [negb]. rewrite Nat2Z.id. rewrite <- (sort_by_increasing fst str_cmp ls Hinc) at 3.
  by apply (decodes_map (dec_labels (length ls)) (fun l => mkRefSeries ref (sort_labels l))), decodes_labels.
Qed.

Definition sample_ok (s : RefSample) : Prop := is_u64 (s_Ref s) /\ is_i64 (s_T s) /\ is_u64 (s_V s).
Definition stone_wf (s : Stone) : Prop :=
  is_u64 (st_ref s) /\ Forall (fun iv => is_i64 (Mint iv) /\ is_i64 (Maxt iv)) (st_intervals s).

#[export] Instance sample_ok_dec s : Decision (sample_ok s).
Proof. unfold sample_ok. apply _. Defined.
#[export] Instance stone_wf_dec s : Decision (stone_wf s).
Proof. unfold stone_wf. apply _. Defined.

Definition sample_bytes (first s : RefSample) : list Z :=
  PutVarint (i64 (i64 (s_Ref s) - i64 (s_Ref first))) ++ PutVarint (i64 (s_T s - s_T first)) ++
  PutUint64 (s_V s).

Lemma enc_sample_app first buf s : eb (enc_sample first buf s) = eb buf ++ sample_bytes first s.
Proof. unfold enc_sample, sample_bytes. cbn. by rewrite <- !(assoc_L (++)). Qed.

(** The delta to the first sample's reference or time is added back modulo 2^64. *)
Lemma ref_delta r b : is_u64 r -> u64 (i64 (i64 b + i64 (i64 r - i64 b))) = r.
Proof. intros ?. zlia. Qed.

Lemma time_delta t b : is_i64 t -> i64 (b + i64 (t - b)) = t.
Proof. intros ?. zlia. Qed.

Lemma decodes_sample first s :
  sample_ok s -> decodes (dec_sample (s_Ref first) (s_T first)) (sample_bytes first s) s.
Proof.
  destruct s as [r t v]. intros (Hr & Ht & Hv). cbn [s_Ref s_T s_V] in *.
  unfold dec_sample, sample_bytes; cbn [s_Ref s_T s_V].
  eapply decodes_bind; [apply decodes_varint64, i64_range|].
  eapply decodes_bind; [apply decodes_varint64, i64_range|].
  rewrite ref_delta, time_delta by done.
  by apply (decodes_map d_be64 (mkRefSample r t)), decodes_be64.
Qed.

(** A stone per interval. *)
Definition split_stone (s : Stone) : list Stone :=
  (fun iv => mkStone (st_ref s) [iv]) <$> st_intervals s.

Definition interval_bytes (ref : Z) (iv : Interval) : list Z :=
  PutUint64 ref ++ PutVarint (Mint iv) ++ PutVarint (Maxt iv).

Definition stone_enc (s : Stone) : list Z := mjoin (interval_bytes (st_ref s) <$> st_intervals s).

Lemma enc_interval_app ref buf iv : eb (enc_interval ref buf iv) = eb buf ++ interval_bytes ref iv.
Proof. unfold enc_interval, interval_bytes. cbn. by rewrite <- !(assoc_L (++)). Qed.

Lemma decodes_dec_stone ref iv :
  is_u64 ref -> is_i64 (Mint iv) -> is_i64 (Maxt iv) ->
  decodes dec_stone (interval_bytes ref iv) (mkStone ref [iv]).
Proof.
  destruct iv as [a b]. intros ? ? ?. unfold dec_stone, interval_bytes. cbn [Mint Maxt] in *.
  eapply decodes_bind; [by apply decodes_be64|]. eapply decodes_bind; [by apply decodes_varint64|].
  by apply (decodes_map d_varint64 (fun m => mkStone ref [mkInterval a m])), decodes_varint64.
Qed.

Lemma stones_enc_split tstones :
  mjoin (stone_enc <$> tstones) = mjoin (stone_enc <$> (tstones ≫= split_stone)).
Proof.
  induction tstones as [|s tstones IH]; [done|].
  change ((s :: tstones) ≫= split_stone) with (split_stone s ++ (tstones ≫= split_stone)).
  rewrite fmap_cons, join_cons, fmap_app, join_app, IH. f_equal.
  unfold split_stone, stone_enc at 1. rewrite <- list_fmap_compose.
  induction (st_intervals s) as [|iv ivs IHi]; [done|].
  rewrite !fmap_cons, !join_cons, IHi. f_equal. cbn. by rewrite app_nil_r.
Qed.

(** ** Whole records *)

Lemma Dec_Series_Enc (series acc : list RefSeries) :
  Forall series_ok series ->
  Type_ (Enc_Series series []) = RecordSeries /\
  Dec_Series (Enc_Series series []) acc = Ok (acc ++ series).
Proof.
  intros Hs. unfold Enc_Series, e_get. rewrite (foldl_enc _ series_bytes) by apply enc_series_app.
  split; [done|]. unfold Dec_Series. cbn [eb putByte app].
  rewrite d_byte_cons. cbn [res_bind negb Z.eqb RecordSeries Pos.eqb].
  apply dec_all_decodes. eapply Forall_impl; [exact Hs|]. intros s ?.
  split; [by apply decodes_series|done].
Qed.

Lemma Dec_Samples_Enc (samples acc : list RefSample) :
  Forall sample_ok samples ->
  Type_ (Enc_Samples samples []) = RecordSamples /\
  Dec_Samples (Enc_Samples samples []) acc = Ok (acc ++ samples).
Proof.
  intros Hs. destruct samples as [|first samples]; [split; [done|]; cbn; by rewrite app_nil_r|].
  cbn [Enc_Samples]. unfold e_get. rewrite (foldl_enc _ (sample_bytes first)) by apply enc_sample_app.
  split; [done|]. unfold Dec_Samples. cbn [eb putByte putBE64 putBE64int64 app].
  rewrite <- !(assoc_L (++)). rewrite d_byte_cons.
  cbn [res_bind negb Z.eqb RecordSamples Pos.eqb].
  pose proof (Forall_inv Hs) as (Hr & Ht & _).
  unfold d_len at 1; cbn [db]. rewrite length_app. unfold PutUint64 at 1. rewrite length_be_bytes.
  destruct (Z.eqb_spec (Z.of_nat (8 + length (PutUint64 (u64 (s_T first)) ++ mjoin (sample_bytes first <$> first :: samples)))) 0); [lia|].
  rewrite (decodes_be64 (s_Ref first) Hr). cbn [res_bind].
  rewrite (decodes_be64int64 (s_T first) Ht). cbn [res_bind].
  apply dec_all_decodes. eapply Forall_impl; [exact Hs|]. intros s ?.
  split; [by apply decodes_sample|]. unfold sample_bytes, PutVarint.
  pose proof (length_PutUvarint (zigzag (i64 (i64 (s_Ref s) - i64 (s_Ref first))))).
  by destruct (PutUvarint _); [cbn in *; lia|].
Qed.

Lemma Dec_Tombstones_Enc (tstones acc : list Stone) :
  Forall stone_wf tstones ->
  Type_ (Enc_Tombstones tstones []) = RecordTombstones /\
  Dec_Tombstones (Enc_Tombstones tstones []) acc = Ok (acc ++ (tstones ≫= split_stone)).
Proof.
  intros Hs. unfold Enc_Tombstones, e_get.
  rewrite (foldl_enc _ stone_enc) by (intros; apply foldl_enc, enc_interval_app).
  split; [done|]. unfold Dec_Tombstones. cbn [eb putByte app].
  rewrite d_byte_cons. cbn [res_bind negb Z.eqb RecordTombstones Pos.eqb].
  rewrite stones_enc_split. apply dec_all_decodes.
  apply Forall_bind. eapply Forall_impl; [exact Hs|]. intros s (Hr & Hi).
  apply Forall_fmap. eapply Forall_impl; [exact Hi|]. intros iv [? ?]. cbn.
  unfold stone_enc; cbn. rewrite app_nil_r. split; [by apply decodes_dec_stone|done].
Qed.

(** ** Records are bytes *)

#[local] Hint Resolve Forall_be_bytes Forall_PutUvarint Forall_string_bytes Forall_app_2 Forall_nil_2 : core.

Lemma Forall_mjoin_fmap {A B} (P : B -> Prop) (f : A -> list B) l : (forall a, Forall P (f a)) -> Forall P (mjoin (f <$> l)).
Proof. intros Hf. apply Forall_join, Forall_fmap, Forall_true. exact Hf. Qed.
#[local] Hint Resolve Forall_mjoin_fmap : core.

Lemma Forall_series_bytes s : Forall is_byte (series_bytes s).
Proof. unfold series_bytes, str_bytes, PutUint64. auto 20. Qed.

Lemma Forall_sample_bytes first s : Forall is_byte (sample_bytes first s).
Proof. unfold sample_bytes, PutVarint, PutUint64. auto 20. Qed.
#[local] Hint Resolve Forall_series_bytes Forall_sample_bytes : core.

Lemma Forall_Enc_Series series : Forall is_byte (Enc_Series series []).
Proof.
  unfold Enc_Series, e_get. rewrite (foldl_enc _ series_bytes) by apply enc_series_app.
  apply Forall_app_2; [by repeat constructor|auto].
Qed.

Lemma Forall_Enc_Samples samples : Forall is_byte (Enc_Samples samples []).
Proof.
  destruct samples as [|first samples]; [by repeat constructor|].
  cbn [Enc_Samples]. unfold e_get. rewrite (foldl_enc _ (sample_bytes first)) by apply enc_sample_app.
  cbn [eb putByte putBE64 putBE64int64 app]. constructor; [done|]. unfold PutUint64. auto.
Qed.

(** * Properties *)

(** Series records round trip.  Decoding what [RecordEncoder.Series] wrote
    appends exactly the encoded series, references and label sets (sorted, with
    distinct names) unchanged, to the given slice; the record announces its
    type. *)
Theorem record_series_roundtrip (series acc : list RefSeries) :
  Forall series_ok series ->
  Type_ (Enc_Series series []) = RecordSeries /\
  Dec_Series (Enc_Series series []) acc = Ok (acc ++ series).
Proof. apply Dec_Series_Enc. Qed.

Lemma record_series_roundtrip_witness :
  let series := [mkRefSeries 7 [("host", "a"); ("job", "api")]%string; mkRefSeries (2 ^ 64 - 1) []] in
  Type_ (Enc_Series series []) = RecordSeries /\
  Dec_Series (Enc_Series series []) [] = Ok ([] ++ series).
Proof.
  apply record_series_roundtrip.
  assert (H1 : increasing fst str_cmp [("host", "a"); ("job", "api")]%string).
  { repeat constructor. }
  assert (H2 : increasing fst str_cmp ([] : Labels)) by constructor.
  repeat apply Forall_cons_2; [| |apply Forall_nil_2]; (split_and!; [decided|decided|decided|done]).
Defined.

(** Sample records round trip.  References and times are stored as signed
    deltas to the first sample, computed modulo 2^64; whatever the samples, also
    when the deltas overflow, decoding appends exactly the encoded samples, to
    the bit of their values. *)
Theorem record_samples_roundtrip (samples acc : list RefSample) :
  Forall sample_ok samples ->
  Type_ (Enc_Samples samples []) = RecordSamples /\
  Dec_Samples (Enc_Samples samples []) acc = Ok (acc ++ samples).
Proof. apply Dec_Samples_Enc. Qed.

Lemma record_samples_roundtrip_witness :
  let samples := [mkRefSample 5 MaxInt64 1; mkRefSample (2 ^ 64 - 1) MinInt64 (2 ^ 63)] in
  Type_ (Enc_Samples samples []) = RecordSamples /\
  Dec_Samples (Enc_Samples samples []) [] = Ok ([] ++ samples).
Proof. apply record_samples_roundtrip. decided. Defined.

(** Tombstone records round trip: decoding appends one stone per encoded
    interval, in order, with its series reference. *)
Theorem record_tombstones_roundtrip (tstones acc : list Stone) :
  Forall stone_wf tstones ->
  Type_ (Enc_Tombstones tstones []) = RecordTombstones /\
  Dec_Tombstones (Enc_Tombstones tstones []) acc = Ok (acc ++ (tstones ≫= split_stone)).
Proof. apply Dec_Tombstones_Enc. Qed.

Lemma record_tombstones_roundtrip_witness :
  let tstones := [mkStone 3 [mkInterval (-5) 7; mkInterval 10 MaxInt64]; mkStone 4 []] in
  Type_ (Enc_Tombstones tstones []) = RecordTombstones /\
  Dec_Tombstones (Enc_Tombstones tstones []) [] = Ok ([] ++ (tstones ≫= split_stone)).
Proof. apply record_tombstones_roundtrip. decided. Defined.
