(* ===== verification/PostingsSpec.v ===== *)
(** What a [Postings] iterator promises, and the proofs that every
    implementation of index/postings.go keeps the promise. *)
From S2P Require Import Prelude Varint Order Postings.
#[local] Open Scope list_scope.
#[local] Open Scope Z_scope.

(** * Increasing lists of ids *)

Abbreviation incr := (StronglySorted Z.lt).

Lemma incr_lt c r x : incr (c :: r) -> x ∈ r -> c < x.
Proof. intros [_ Hc]%StronglySorted_inv Hx. rewrite Forall_forall in Hc. by apply Hc. Qed.

Lemma incr_tail c r : incr (c :: r) -> incr r.
Proof. by intros [? _]%StronglySorted_inv. Qed.

Lemma incr_cons c r : incr r -> (forall x, x ∈ r -> c < x) -> incr (c :: r).
Proof. intros ? ?. constructor; [done|]. by apply Forall_forall. Qed.

Lemma incr_filter (P : Z -> Prop) `{!forall x, Decision (P x)} r : incr r -> incr (filter P r).
Proof.
  induction 1 as [|a r Hr IH Ha]; [constructor|]. rewrite filter_cons.
  destruct (decide (P a)); [|done]. apply incr_cons; [done|].
  intros x [_ Hx]%list_elem_of_filter. rewrite Forall_forall in Ha. by apply Ha.
Qed.

Lemma incr_ge c r x : incr (c :: r) -> x ∈ c :: r -> c <= x.
Proof. intros Hr [->|Hx]%elem_of_cons; [done|]. pose proof (incr_lt _ _ _ Hr Hx). lia. Qed.

(** The least element of an increasing list is its head. *)
Lemma incr_head (P : Z -> Prop) r y :
  incr r -> (forall x, x ∈ r <-> P x) -> P y -> (forall x, P x -> y <= x) ->
  exists r', r = y :: r' /\ incr (y :: r') /\ forall x, x ∈ r' <-> P x /\ y < x.
Proof.
  intros Hr Hm Hy Hmin. destruct r as [|z r]; [by apply Hm, not_elem_of_nil in Hy|].
  assert (z = y) as ->.
  { pose proof (Hmin z (proj1 (Hm z) (list_elem_of_here _ _))).
    apply Hm, elem_of_cons in Hy as [->|Hy]; [done|]. pose proof (incr_lt _ _ _ Hr Hy). lia. }
  exists r. split_and!; [done|done|]. intros x. rewrite <- Hm, elem_of_cons. split.
  - intros Hx. split; [by right|by eapply incr_lt].
  - intros [[->|Hx] ?]; [lia|done].
Qed.

Lemma incr_ext r k : incr r -> incr k -> (forall x, x ∈ r <-> x ∈ k) -> r = k.
Proof.
  intros Hr. revert k. induction Hr as [|a r Hr IH Ha]; intros k Hk Hm.
  { destruct k as [|b k]; [done|]. destruct (not_elem_of_nil b). apply Hm. left. }
  assert (Har : incr (a :: r)) by (by constructor).
  destruct (incr_head (fun x => x ∈ a :: r) k a Hk) as (k' & -> & Hk' & Hm').
  - intros x. by rewrite Hm.
  - by left.
  - intros x [->|Hx]%elem_of_cons; [done|]. pose proof (incr_lt _ _ _ Har Hx). lia.
  - f_equal. apply IH; [by eapply incr_tail|]. intros x. rewrite Hm', elem_of_cons. split.
    + intros Hx. split; [by right|exact (incr_lt _ _ _ Har Hx)].
    + intros [[->|?] ?]; [lia|done].
Qed.

(** Two increasing lists with the same head. *)
Lemma common_head v ra rb r :
  incr r -> incr (v :: ra) -> incr (v :: rb) ->
  (forall x, x ∈ r <-> x ∈ v :: ra /\ x ∈ v :: rb) ->
  exists r', r = v :: r' /\ incr (v :: r') /\ forall x, x ∈ r' <-> x ∈ ra /\ x ∈ rb.
Proof.
  intros Hr Ha Hb Hm. destruct (incr_head _ r v Hr Hm) as (r' & -> & Hr' & Hm').
  - split; left.
  - intros x [Hx _]. exact (incr_ge _ _ _ Ha Hx).
  - exists r'. split_and!; [done|done|]. intros x. rewrite Hm', !elem_of_cons. split.
    + intros [[[->|?] [?|?]] ?]; subst; (lia || done).
    + intros [Hx1 Hx2]. split; [tauto|]. exact (incr_lt _ _ _ Ha Hx1).
Qed.

Lemma incr_NoDup r : incr r -> NoDup r.
Proof.
  induction 1 as [|a r _ IH Ha]; constructor; [|done]. intros Hin.
  rewrite Forall_forall in Ha. specialize (Ha a Hin). lia.
Qed.

Lemma incr_length r k : incr r -> (forall x, x ∈ r -> x ∈ k) -> (length r <= length k)%nat.
Proof. intros Hr Hk. apply submseteq_length, NoDup_submseteq; [by apply incr_NoDup|exact Hk]. Qed.

#[export] Instance incr_dec r : Decision (incr r).
Proof.
  induction r as [|x r IH]; [left; constructor|].
  destruct IH as [Hr|Hr]; [|right; by intros ?%incr_tail].
  destruct (decide (Forall (Z.lt x) r)) as [Hx|Hx]; [left; by constructor|right].
  by intros [_ ?]%StronglySorted_inv.
Defined.

Lemma not_elem_nil {A} (l : list A) : (forall x, x ∉ l) -> l = [].
Proof. destruct l as [|x l]; [done|]. intros H. destruct (H x). by left. Qed.

(** [at_least x r]: what [Seek x] leaves of [r]. *)
Definition at_least (x : Z) (r : list Z) : list Z := filter (fun y => x <= y) r.

Lemma elem_of_at_least x r y : y ∈ at_least x r <-> y ∈ r /\ x <= y.
Proof. unfold at_least. rewrite list_elem_of_filter. tauto. Qed.

Lemma incr_at_least x r : incr r -> incr (at_least x r).
Proof. by apply incr_filter. Qed.

Lemma at_least_length x r : (length (at_least x r) <= length r)%nat.
Proof. apply length_filter. Qed.

Lemma at_least_cons_le x y r : x <= y -> incr (y :: r) -> at_least x (y :: r) = y :: r.
Proof.
  intros Hx Hr. apply incr_ext; [by apply incr_at_least|done|].
  intros z. rewrite elem_of_at_least. split; [tauto|]. intros Hz. split; [done|].
  apply elem_of_cons in Hz as [->|Hz]; [done|]. pose proof (incr_lt _ _ _ Hr Hz). lia.
Qed.

Lemma at_least_cons_gt x y r : y < x -> at_least x (y :: r) = at_least x r.
Proof. intros Hx. unfold at_least. rewrite filter_cons, decide_False by lia. done. Qed.

(** * The specification of an iterator *)

(** After a move that returned [ok]: positioned on the head of [l], or, when
    nothing is left, exhausted for every value from [d] on. *)
Definition outcome {S} (L : S -> Z -> list Z -> Prop) (E : S -> Z -> Prop)
    (r : bool * S) (l : list Z) (d : Z) : Prop :=
  let '(ok, s) := r in
  if ok then exists c k, l = c :: k /\ L s c k else l = [] /\ E s d.

(** [live s c r]: [s] is at [c] (0 before the first move) with [r] to come.
    Ids are positive and below [M]. *)
Class PostingsSpec (M : Z) (S : Type) `{PostingsOps S} := {
  live : S -> Z -> list Z -> Prop;
  exhausted : S -> Z -> Prop;
  live_At s c r : live s c r -> p_At s = c;
  live_Err s c r : live s c r -> p_Err s = None;
  exhausted_Err s d : exhausted s d -> p_Err s = None;
  live_ids s c r : live s c r -> 0 <= c < M /\ incr (c :: r) /\ Forall (fun x => x < M) r;
  live_size s c r : live s c r -> (length r <= p_size s)%nat;
  exhausted_mono s d d' : exhausted s d -> d <= d' -> exhausted s d';
  Next_spec s c r : live s c r -> outcome live exhausted (p_Next s) r (c + 1);
  Seek_here s c r x : live s c r -> 0 < x <= c -> exists s', p_Seek s x = (true, s') /\ live s' c r;
  Seek_spec s c r x : live s c r -> c < x < M -> outcome live exhausted (p_Seek s x) (at_least x r) x;
}.
Arguments live M {S _ _} s c r.
Arguments exhausted M {S _ _} s d.

(** An iterator that can be sought again after its end. *)
Class ReSeek (M : Z) (S : Type) `{PostingsSpec M S} : Prop :=
  Seek_exhausted s d x : exhausted M s d -> d <= x < M ->
    exists s', p_Seek s x = (false, s') /\ exhausted M s' x.

Abbreviation pending M := (outcome (live M) (exhausted M)).

Section Interface.
Context {M : Z} {S : Type} `{PostingsSpec M S}.

Lemma live_incr s c r : live M s c r -> incr r.
Proof using Type. intros Hs. destruct (live_ids _ _ _ Hs) as (_ & Hi & _). by eapply incr_tail. Qed.

Lemma pending_mono ok s l d d' : pending M (ok, s) l d -> d <= d' -> pending M (ok, s) l d'.
Proof using Type.
  unfold outcome. destruct ok; [done|]. intros [? ?] ?. split; [done|]. by eapply exhausted_mono.
Qed.

Lemma pending_incr ok s l d : pending M (ok, s) l d -> incr l /\ Forall (fun x => x < M) l.
Proof using Type.
  unfold outcome. destruct ok; [|intros [-> _]; split; constructor].
  intros (c & k & -> & Hs). destruct (live_ids _ _ _ Hs) as (? & ? & ?).
  split; [done|]. constructor; [lia|done].
Qed.

Lemma pending_size ok s l d : pending M (ok, s) l d -> (length l <= p_size s + Nat.b2n ok)%nat.
Proof using Type.
  unfold outcome. destruct ok; [|intros [-> _]; simpl; lia].
  intros (c & k & -> & Hs). pose proof (live_size _ _ _ Hs). cbn. lia.
Qed.

Lemma pending_Err ok s l d : pending M (ok, s) l d -> p_Err s = None.
Proof using Type.
  unfold outcome. destruct ok.
  - intros (c & k & -> & Hs). by eapply live_Err.
  - intros [_ ?]. by eapply exhausted_Err.
Qed.

Lemma pending_true s l d : pending M (true, s) l d -> exists k, l = p_At s :: k /\ live M s (p_At s) k.
Proof using Type. intros (c & k & -> & Hs). exists k. by rewrite (live_At _ _ _ Hs). Qed.

Lemma pending_false s l d : pending M (false, s) l d -> l = [] /\ exhausted M s d.
Proof using Type. done. Qed.

(** Seeking a value, also one not beyond the current element. *)
Lemma Seek_at_least s c r x :
  live M s c r -> 0 < x < M -> pending M (p_Seek s x) (at_least x (c :: r)) x.
Proof using Type.
  intros Hs Hx. destruct (live_ids _ _ _ Hs) as (? & Hi & ?). destruct (decide (x <= c)).
  - rewrite at_least_cons_le by done. destruct (Seek_here _ _ _ x Hs) as (s' & -> & Hs'); [lia|].
    by exists c, r.
  - rewrite at_least_cons_gt by lia. apply (Seek_spec _ _ _ _ Hs). lia.
Qed.

(** Moving an iterator whose current element has been used up. *)
Lemma pending_Next s c k d :
  pending M (true, s) (c :: k) d -> pending M (p_Next s) k (c + 1).
Proof using Type. intros (? & ? & [= <- <-] & Hs). by apply Next_spec. Qed.

(** Seeking an iterator whose current element is still to be used. *)
Lemma pending_Seek `{!ReSeek M S} ok s l d x :
  pending M (ok, s) l d -> d <= x < M -> 0 < x -> pending M (p_Seek s x) (at_least x l) x.
Proof using Type.
  intros Hp Hx Hx0. destruct ok.
  - destruct Hp as (c & k & -> & Hs). apply Seek_at_least; [done|lia].
  - destruct Hp as [-> He]. destruct (Seek_exhausted _ _ x He) as (s' & -> & He'); [lia|]. done.
Qed.

(** [ExpandPostings] gives the ids to come, in order, and no error. *)
Lemma expand_loop_spec fuel s c r :
  live M s c r -> (length r < fuel)%nat ->
  exists s', expand_loop fuel s = (r, s') /\ p_Err s' = None.
Proof using Type.
  revert s c r. induction fuel as [|fuel IH]; intros s c r Hs Hf; [lia|]. cbn [expand_loop].
  pose proof (Next_spec _ _ _ Hs) as Hn. destruct (p_Next s) as [[] s1].
  - apply pending_true in Hn as (k & -> & Hs1). cbn [length] in Hf.
    destruct (IH _ _ _ Hs1 ltac:(lia)) as (s' & -> & ?). by exists s'.
  - apply pending_false in Hn as [-> He]. exists s1. split; [done|]. by eapply exhausted_Err.
Qed.

Lemma ExpandPostings_live s r : live M s 0 r -> ExpandPostings s = (r, None).
Proof using Type.
  intros Hs. unfold ExpandPostings. pose proof (live_size _ _ _ Hs).
  destruct (expand_loop_spec (Datatypes.S (p_size s)) _ _ _ Hs ltac:(lia)) as (s' & -> & ->). done.
Qed.
End Interface.

(** * The leaves *)

(** The bound on ids: positive, and for postings stored in 32 bits at most 2^32. *)
Class PosBound (M : Z) : Prop := pos_bound : 0 < M.
Class Bound32 (M : Z) : Prop := bound32 : 0 < M <= 2 ^ 32.

#[export, program] Instance err_spec M `{!PosBound M} : PostingsSpec M errPostings := {|
  live s c r := c = 0 /\ r = [] /\ ep_err s = None;
  exhausted s d := ep_err s = None;
|}.
Next Obligation. by intros M ? s c r (-> & -> & ?). Qed.
Next Obligation. by intros M ? s c r (-> & -> & ?). Qed.
Next Obligation. done. Qed.
Next Obligation.
  intros M HM s c r (-> & -> & ?). unfold PosBound in HM. split; [lia|]. split; repeat constructor.
Qed.
Next Obligation. intros M ? s c r (-> & -> & ?). cbn. lia. Qed.
Next Obligation. done. Qed.
Next Obligation. by intros M ? s c r (-> & -> & ?). Qed.
Next Obligation. intros M ? s c r x (-> & -> & ?) ?. lia. Qed.
Next Obligation. by intros M ? s c r x (-> & -> & ?) ?. Qed.

#[export] Instance err_reseek M `{!PosBound M} : ReSeek M errPostings.
Proof. intros s d x ? ?. by exists s. Qed.

(** Sought by binary search, an increasing list splits at the first element of
    at least [x]. *)
Lemma Search_at_least x r (f : nat -> bool) :
  incr r -> (forall i y, r !! i = Some y -> f i = (x <=? y)) ->
  (Search (length r) f <= length r)%nat /\ drop (Search (length r) f) r = at_least x r.
Proof.
  intros Hr Hf. destruct (Search_spec (length r) f) as (Hle & Hlow & Hhigh).
  { intros k k' Hk Hk'. destruct (lookup_lt_is_Some_2 r k) as [y Ey]; [lia|].
    destruct (lookup_lt_is_Some_2 r k') as [y' Ey']; [lia|].
    rewrite (Hf _ _ Ey), Z.leb_le in Hk. rewrite (Hf _ _ Ey'), Z.leb_le.
    destruct (decide (k = k')) as [->|]; [simplify_eq; done|].
    pose proof (StronglySorted_lookup_lt Z.lt r k k' y y' Hr Ey Ey'). lia. }
  split; [done|]. set (i := Search (length r) f) in *.
  rewrite <- (take_drop i r) at 2. unfold at_least. rewrite filter_app.
  rewrite (not_elem_nil (filter _ (take i r))), app_nil_l.
  - symmetry. apply filter_all. apply Forall_forall. intros y Hy.
    apply list_elem_of_lookup in Hy as (j & Hy). rewrite lookup_drop in Hy.
    specialize (Hhigh (i + j)%nat). rewrite (Hf _ _ Hy), Z.leb_le in Hhigh. apply Hhigh.
    apply lookup_lt_Some in Hy. lia.
  - intros y [Hxy Hy]%list_elem_of_filter. apply list_elem_of_lookup in Hy as (j & Hy).
    apply lookup_take_Some in Hy as [Hy Hj]. specialize (Hlow j Hj). rewrite (Hf _ _ Hy) in Hlow.
    apply Z.leb_gt in Hlow. lia.
Qed.

Definition ids_ok (M c : Z) (r : list Z) : Prop :=
  0 <= c < M /\ incr (c :: r) /\ Forall (fun x => x < M) r.

#[export] Instance ids_ok_dec M c r : Decision (ids_ok M c r).
Proof. unfold ids_ok. apply _. Defined.

Lemma ids_ok_tail M c x r : ids_ok M c (x :: r) -> ids_ok M x r.
Proof.
  intros (? & Hi & Hx). pose proof (incr_lt _ _ x Hi (list_elem_of_here _ _)).
  inversion Hx; subst. split; [lia|]. split; [by eapply incr_tail|done].
Qed.

Lemma ids_ok_suffix M c pre x r : ids_ok M c (pre ++ x :: r) -> ids_ok M x r.
Proof.
  revert c. induction pre as [|y pre IH]; intros c; [apply ids_ok_tail|].
  intros H%ids_ok_tail. by eapply IH.
Qed.

#[export, program] Instance list_spec M `{!PosBound M} : PostingsSpec M listPostings := {|
  live s c r := s = mkListPostings r c /\ ids_ok M c r;
  exhausted s d := lp_list s = [] /\ lp_cur s < d;
|}.
Next Obligation. by intros M ? s c r (-> & ?). Qed.
Next Obligation. done. Qed.
Next Obligation. done. Qed.
Next Obligation. by intros M ? s c r (-> & ?). Qed.
Next Obligation. by intros M ? s c r (-> & ?). Qed.
Next Obligation. intros M ? s d d' (? & ?) ?. split; [done|lia]. Qed.
Next Obligation.
  intros M ? s c r (-> & Hr). cbn. unfold list_Next; cbn. destruct r as [|x r].
  - destruct Hr as (? & _). cbn. split; [done|]. split; [done|lia].
  - exists x, r. split; [done|]. split; [done|]. by eapply ids_ok_tail.
Qed.
Next Obligation.
  intros M ? s c r x (-> & Hr) Hx. cbn. unfold list_Seek; cbn.
  rewrite (proj2 (Z.leb_le _ _)) by lia. by eexists.
Qed.
Next Obligation.
  intros M ? s c r x (-> & Hr) Hx.
  change (p_Seek (mkListPostings r c) x) with (list_Seek (mkListPostings r c) x).
  unfold list_Seek; cbn [lp_cur lp_list].
  rewrite (proj2 (Z.leb_gt _ _)) by lia.
  pose proof Hr as (_ & Hi%incr_tail & _).
  set (f := fun i => match r !! i with Some v => x <=? v | None => false end).
  destruct (Search_at_least x r f Hi) as [Hle Hd]; [by unfold f; intros i y ->|].
  set (i := Search (length r) f) in *. rewrite <- Hd.
  unfold outcome. destruct (r !! i) as [v|] eqn:E.
  - rewrite (drop_S r v i E), Nat.add_1_r. exists v, (drop (S i) r). split; [done|]. split; [done|].
    apply (ids_ok_suffix M c (take i r)). by rewrite <- (drop_S r v i E), take_drop.
  - apply lookup_ge_None in E. rewrite drop_ge by done. cbn. split; [done|]. split; [done|lia].
Qed.

#[export] Instance list_reseek M `{!PosBound M} : ReSeek M listPostings.
Proof.
  intros [l c] d x [? ?] ?. cbn in *. subst. unfold list_Seek; cbn.
  rewrite (proj2 (Z.leb_gt _ _)) by lia. eexists. split; [done|]. cbn. split; [done|lia].
Qed.

(** ** Big-endian postings *)

(** The bytes hold the ids [r] in four bytes each, then less than one more. *)
Definition be_holds (l : list Z) (r : list Z) : Prop :=
  exists tail, l = mjoin (PutUint32 <$> r) ++ tail /\ (length tail < 4)%nat.

Lemma be_holds_cons l x r :
  be_holds l (x :: r) -> exists l', l = PutUint32 x ++ l' /\ be_holds l' r.
Proof.
  intros (tail & -> & Ht). rewrite fmap_cons, join_cons, <- (assoc_L (++)).
  eexists. split; [done|]. by exists tail.
Qed.

Lemma be_holds_drop l r i :
  be_holds l r -> (i <= length r)%nat -> be_holds (drop (i * 4) l) (drop i r).
Proof.
  revert l r. induction i as [|i IH]; intros l r Hl Hi; [by rewrite !drop_0|].
  destruct r as [|x r]; [cbn in Hi; lia|]. apply be_holds_cons in Hl as (l' & -> & Hl).
  cbn [drop]. replace (S i * 4)%nat with (4 + i * 4)%nat by lia.
  rewrite <- drop_drop, drop_app_length' by (unfold PutUint32; by rewrite length_be_bytes).
  apply IH; [done|]. cbn in Hi. lia.
Qed.

Lemma be_holds_length l r : be_holds l r -> (length l / 4 = length r)%nat.
Proof.
  revert l. induction r as [|x r IH]; intros l Hl.
  - destruct Hl as (tail & -> & Ht). apply Nat.div_small. done.
  - apply be_holds_cons in Hl as (l' & -> & Hl). rewrite length_app. unfold PutUint32.
    rewrite length_be_bytes. cbn [length]. rewrite <- (IH l' Hl).
    replace (4 + length l')%nat with (1 * 4 + length l')%nat by lia. by rewrite Nat.div_add_l.
Qed.

Lemma be_entry_holds l r i v :
  be_holds l r -> r !! i = Some v -> 0 <= v < 2 ^ 32 -> be_entry l i = v.
Proof.
  intros Hl Hi Hv. unfold be_entry.
  pose proof (be_holds_drop _ _ i Hl ltac:(apply lookup_lt_Some in Hi; lia)) as Hd.
  rewrite (drop_S r v i Hi) in Hd. apply be_holds_cons in Hd as (l' & -> & _).
  unfold PutUint32. rewrite take_app_length' by by rewrite length_be_bytes.
  rewrite be_val_be_bytes. by apply Z.mod_small.
Qed.

Lemma ids_ok_bound M c r i v : ids_ok M c r -> r !! i = Some v -> 0 <= v < M.
Proof.
  intros (? & Hi & HM) Hv. apply list_elem_of_lookup_2 in Hv.
  pose proof (incr_lt _ _ _ Hi Hv). rewrite Forall_forall in HM. specialize (HM v Hv). lia.
Qed.

#[export] Instance bound32_pos M : Bound32 M -> PosBound M.
Proof. unfold Bound32, PosBound. lia. Qed.

#[export, program] Instance be_spec M `{!Bound32 M} : PostingsSpec M bigEndianPostings := {|
  live s c r := be_cur s = c /\ be_holds (be_list s) r /\ ids_ok M c r;
  exhausted s d := (length (be_list s) < 4)%nat /\ be_cur s < d;
|}.
Next Obligation. by intros M ? s c r (<- & ?). Qed.
Next Obligation. done. Qed.
Next Obligation. done. Qed.
Next Obligation. by intros M ? s c r (? & ? & ?). Qed.
Next Obligation. intros M ? s c r (? & Hl & ?). change (p_size s) with (length (be_list s) / 4)%nat. by rewrite (be_holds_length _ _ Hl). Qed.
Next Obligation. intros M ? s d d' (? & ?) ?. split; [done|lia]. Qed.
Next Obligation.
  intros M HM [l c'] c r (Hc & Hl & Hr). cbn [be_cur be_list] in *. subst c'.
  change (p_Next _) with (be_Next (mkBigEndianPostings l c)). unfold be_Next; cbn [be_list].
  destruct r as [|x r].
  - destruct Hl as (tail & -> & Ht). cbn [fmap list_fmap mjoin list_join app].
    destruct (Nat.leb_spec 4 (length tail)); [lia|]. split; [done|]. split; [done|cbn; lia].
  - destruct (Nat.leb_spec 4 (length l)) as [_|Hn].
    + exists x, r. split; [done|]. cbn [be_cur be_list]. split_and!; [|by apply (be_holds_drop _ _ 1 Hl); cbn; lia|by eapply ids_ok_tail].
      apply (be_entry_holds _ (x :: r)); [done|done|].
      pose proof (ids_ok_bound _ _ _ 0 x Hr eq_refl). unfold Bound32 in HM. lia.
    + exfalso. apply be_holds_cons in Hl as (l' & -> & _). rewrite length_app in Hn. unfold PutUint32 in Hn.
      rewrite length_be_bytes in Hn. lia.
Qed.
Next Obligation.
  intros M ? s c r x (<- & Hl & Hr) Hx. exists s. split; [|done].
  change (p_Seek s x) with (be_Seek s x). unfold be_Seek. by rewrite (proj2 (Z.leb_le _ _)) by lia.
Qed.
Next Obligation.
  intros M HM [l c'] c r x (Hc & Hl & Hr) Hx. cbn [be_cur be_list] in *. subst c'.
  change (p_Seek _ x) with (be_Seek (mkBigEndianPostings l c) x). unfold be_Seek; cbn [be_cur be_list].
  rewrite (proj2 (Z.leb_gt _ _)) by lia. pose proof Hr as (? & Hi%incr_tail & _).
  rewrite (be_holds_length _ _ Hl). unfold Bound32 in HM. unfold u32. rewrite wrapU_small by (unfold is_u; lia).
  set (f := fun i => x <=? be_entry l i).
  destruct (Search_at_least x r f Hi) as [Hle Hd].
  { intros i y Hy. unfold f. rewrite (be_entry_holds l r i y); [done..|].
    pose proof (ids_ok_bound _ _ _ _ _ Hr Hy). lia. }
  set (i := Search (length r) f) in *. rewrite <- Hd. unfold outcome.
  destruct (Nat.ltb_spec i (length r)) as [Hlt|Hge].
  - destruct (lookup_lt_is_Some_2 r i Hlt) as [v E]. pose proof (ids_ok_bound _ _ _ _ _ Hr E).
    rewrite (drop_S r v i E). exists v, (drop (S i) r). split; [done|]. cbn [be_cur be_list].
    split_and!.
    + apply (be_entry_holds l r); [done..|lia].
    + replace (i * 4 + 4)%nat with (S i * 4)%nat by lia. apply be_holds_drop; [done|lia].
    + apply (ids_ok_suffix M c (take i r)). by rewrite <- (drop_S r v i E), take_drop.
  - rewrite drop_ge by done. split; [done|]. cbn. lia.
Qed.

#[export] Instance be_reseek M `{!Bound32 M} : ReSeek M bigEndianPostings.
Proof.
  intros [l c] d x [Hl ?] ?. cbn [be_cur be_list] in *.
  change (p_Seek _ x) with (be_Seek (mkBigEndianPostings l c) x). unfold be_Seek; cbn [be_cur be_list].
  rewrite (proj2 (Z.leb_gt _ _)) by lia. rewrite (Nat.div_small (length l) 4) by done. cbn.
  eexists. split; [done|]. cbn. lia.
Qed.

(** * The combinators *)

(** ** Intersection *)

Section Intersection.
Context (M : Z) {A B : Type} `{PostingsSpec M A} `{PostingsSpec M B}.

Definition in_live (it : intersectPostings A B) (c : Z) (r : list Z) : Prop :=
  in_cur it = c /\ incr (c :: r) /\
  exists ra rb, live M (in_a it) c ra /\ live M (in_b it) c rb /\
    forall x, x ∈ r <-> x ∈ ra /\ x ∈ rb.

Definition in_exhausted (it : intersectPostings A B) (d : Z) : Prop :=
  p_Err (in_a it) = None /\ p_Err (in_b it) = None.

(** Both iterators at a common element. *)
Lemma in_found (a : A) (b : B) v ra rb r d :
  live M a v ra -> live M b v rb -> incr r ->
  (forall x, x ∈ r <-> x ∈ v :: ra /\ x ∈ v :: rb) ->
  outcome in_live in_exhausted (true, mkIntersect a b v) r d.
Proof using Type.
  intros Ha Hb Hr Hm. destruct (live_ids _ _ _ Ha) as (_ & Hia & _).
  destruct (live_ids _ _ _ Hb) as (_ & Hib & _).
  destruct (common_head v ra rb r Hr Hia Hib Hm) as (r' & -> & Hr' & Hm').
  exists v, r'. split; [done|]. split; [done|]. split; [done|]. by exists ra, rb.
Qed.

(** Dropping the elements below [v] from one side loses nothing in common when
    the other side starts at [v]. *)
Lemma in_drop v (la k r : list Z) :
  incr (v :: k) -> (forall x, x ∈ r <-> x ∈ la /\ x ∈ v :: k) ->
  forall x, x ∈ r <-> x ∈ at_least v la /\ x ∈ v :: k.
Proof using Type.
  intros Hk Hm x. rewrite Hm, elem_of_at_least. split; [|tauto].
  intros [? Hx]. split_and!; try done. by eapply incr_ge.
Qed.

(** [doNext] with [a] at [id] and [b] not beyond: it finds the least common
    element of what they still have, their current elements included. *)
Lemma doNext_spec fuel it id ra cb rb r d :
  live M (in_a it) id ra -> live M (in_b it) cb rb -> 0 < id ->
  (length ra < fuel)%nat -> incr r ->
  (forall x, x ∈ r <-> x ∈ id :: ra /\ x ∈ cb :: rb) ->
  outcome in_live in_exhausted (doNext fuel it id) r d.
Proof using Type.
  revert it id ra cb rb. induction fuel as [|fuel IH]; intros it id ra cb rb Ha Hb Hid Hf Hr Hm; [lia|].
  destruct (live_ids _ _ _ Ha) as (HidM & Hia & _).
  assert (Hmb : forall x, x ∈ r <-> x ∈ at_least id (cb :: rb) /\ x ∈ id :: ra).
  { apply in_drop; [done|]. intros x. rewrite Hm. tauto. }
  cbn [doNext]. pose proof (Seek_at_least _ _ _ id Hb ltac:(lia)) as Hsb. clear Hm.
  destruct (p_Seek (in_b it) id) as [[] b']; cbn [negb].
  2:{ apply pending_false in Hsb as [E He]. rewrite E in Hmb. split.
      - apply not_elem_nil. intros x [Hx _]%Hmb. by apply not_elem_of_nil in Hx.
      - split; cbn; [by eapply live_Err|by eapply exhausted_Err]. }
  apply pending_true in Hsb as (rb' & E & Hb'). rewrite E in Hmb. set (vb := p_At b') in *.
  assert (Hvb : vb ∈ at_least id (cb :: rb)) by (rewrite E; left).
  apply elem_of_at_least in Hvb as [_ Hvb]. destruct (live_ids _ _ _ Hb') as (HvbM & Hib' & _).
  assert (Hma : forall x, x ∈ r <-> x ∈ id :: ra /\ x ∈ vb :: rb').
  { intros x. rewrite Hmb. tauto. }
  destruct (Z.eqb_spec vb id) as [Evb|Nvb]; cbn [negb].
  { rewrite <- Evb in *. by apply (in_found _ _ _ ra rb'). }
  pose proof (Seek_at_least _ _ _ vb Ha ltac:(lia)) as Hsa. pose proof (in_drop _ _ _ _ Hib' Hma) as Hma'. clear Hma. cbn [in_a].
  destruct (p_Seek (in_a it) vb) as [[] a']; cbn [negb].
  2:{ apply pending_false in Hsa as [Ea' He]. rewrite Ea' in Hma'. split.
      - apply not_elem_nil. intros x [Hx _]%Hma'. by apply not_elem_of_nil in Hx.
      - split; cbn; [by eapply exhausted_Err|by eapply live_Err]. }
  apply pending_true in Hsa as (ra' & Era & Ha'). rewrite Era in Hma'.
  destruct (Z.eqb_spec vb (p_At a')) as [E'|N']; cbn [negb].
  { rewrite <- E' in *. by apply (in_found _ _ _ ra' rb'). }
  apply (IH _ (p_At a') ra' vb rb'); cbn [in_a in_b]; try done.
  - destruct (live_ids _ _ _ Ha') as (? & _). assert (Hin : p_At a' ∈ at_least vb (id :: ra)) by (rewrite Era; left).
    apply elem_of_at_least in Hin as [_ ?]. lia.
  - rewrite at_least_cons_gt in Era by lia. pose proof (at_least_length vb ra) as Hlen.
    rewrite Era in Hlen. cbn in Hlen. lia.
Qed.

Lemma in_fuel_enough (a : A) c r : live M a c r -> (length r < in_fuel a)%nat.
Proof using Type. intros Hs. pose proof (live_size _ _ _ Hs). unfold in_fuel. lia. Qed.

(** [Seek] of an intersection, to a value beyond its current element or not. *)
Lemma in_Seek it c ra rb r x :
  live M (in_a it) c ra -> live M (in_b it) c rb -> 0 < x < M -> incr r ->
  (forall y, y ∈ r <-> y ∈ at_least x (c :: ra) /\ y ∈ c :: rb) ->
  forall d, outcome in_live in_exhausted (intersect_Seek it x) r d.
Proof using Type.
  intros Ha Hb Hx Hr Hm d. unfold intersect_Seek.
  pose proof (Seek_at_least _ _ _ x Ha Hx) as Hs.
  destruct (p_Seek (in_a it) x) as [[] a']; cbn [negb].
  - apply pending_true in Hs as (ra' & E & Ha'). rewrite E in Hm.
    assert (Hin : p_At a' ∈ at_least x (c :: ra)) by (rewrite E; left).
    apply elem_of_at_least in Hin as [_ ?].
    eapply (doNext_spec _ _ _ ra' c rb); [done|done|lia|by eapply in_fuel_enough|done|done].
  - apply pending_false in Hs as [E He]. rewrite E in Hm. split.
    + apply not_elem_nil. intros y [Hy _]%Hm. by apply not_elem_of_nil in Hy.
    + split; cbn; [by eapply exhausted_Err|by eapply live_Err].
Qed.

Lemma in_Next it c r : in_live it c r -> outcome in_live in_exhausted (intersect_Next it) r (c + 1).
Proof using Type.
  intros (Hc & Hr & ra & rb & Ha & Hb & Hm). unfold intersect_Next.
  pose proof (Next_spec _ _ _ Ha) as Hn. destruct (live_ids _ _ _ Ha) as (? & Hia & _).
  destruct (p_Next (in_a it)) as [[] a']; cbn [negb].
  - apply pending_true in Hn as (ra' & -> & Ha').
    pose proof (incr_lt _ _ (p_At a') Hia (list_elem_of_here _ _)).
    eapply (doNext_spec _ _ _ ra' c rb); [done|done|lia|by eapply in_fuel_enough|by eapply incr_tail|].
    intros x. rewrite Hm, (elem_of_cons rb). split; [tauto|]. intros [Hx [->|?]]; [|done].
    pose proof (incr_lt _ _ _ Hia Hx). lia.
  - apply pending_false in Hn as [-> He]. split.
    + apply not_elem_nil. intros x [Hx _]%Hm. by apply not_elem_of_nil in Hx.
    + split; cbn; [by eapply exhausted_Err|by eapply live_Err].
Qed.

#[export, program] Instance intersect_spec : PostingsSpec M (intersectPostings A B) := {|
  live := in_live;
  exhausted := in_exhausted;
|}.
Next Obligation. by intros s c r (? & _). Qed.
Next Obligation.
  intros s c r (_ & _ & ra & rb & Ha & Hb & _). cbn. unfold first_err.
  by rewrite (live_Err _ _ _ Ha), (live_Err _ _ _ Hb).
Qed.
Next Obligation. intros s d [Ha Hb]. cbn. unfold first_err. by rewrite Ha, Hb. Qed.
Next Obligation.
  intros s c r (_ & Hr & ra & rb & Ha & Hb & Hm). destruct (live_ids _ _ _ Ha) as (? & _ & HM).
  split_and!; [lia|lia|done|]. apply Forall_forall. intros x [Hx _]%Hm.
  rewrite Forall_forall in HM. by apply HM.
Qed.
Next Obligation.
  intros s c r (_ & Hr & ra & rb & Ha & Hb & Hm). cbn. etrans; [|by eapply live_size].
  apply incr_length; [by eapply incr_tail|]. intros x Hx. by apply Hm.
Qed.
Next Obligation. done. Qed.
Next Obligation. exact in_Next. Qed.
Next Obligation.
  intros s c r x (Hc & Hr & ra & rb & Ha & Hb & Hm) Hx. destruct (live_ids _ _ _ Ha) as (? & Hia & _).
  destruct (live_ids _ _ _ Hb) as (_ & Hib & _).
  pose proof (in_Seek s c ra rb (c :: r) x Ha Hb ltac:(lia) Hr) as Hs.
  assert (Ho : outcome in_live in_exhausted (intersect_Seek s x) (c :: r) 0).
  { apply Hs. intros y. rewrite at_least_cons_le by (done || lia). rewrite !elem_of_cons, Hm.
    split; [tauto|]. intros [[?|?] [?|?]]; auto. }
  cbn. destruct (intersect_Seek s x) as [[] s']; [|by destruct Ho].
  destruct Ho as (? & ? & [= <- <-] & Hl). by exists s'.
Qed.
Next Obligation.
  intros s c r x (Hc & Hr & ra & rb & Ha & Hb & Hm) Hx. destruct (live_ids _ _ _ Ha) as (? & Hia & _).
  apply (in_Seek s c ra rb); [done|done|lia|by eapply incr_at_least, incr_tail|].
  intros y. rewrite at_least_cons_gt by lia. rewrite !elem_of_at_least, Hm, elem_of_cons.
  split; [tauto|]. intros [[? ?] [?|?]]; [subst; lia|done].
Qed.

(** A new intersection. *)
Lemma live_intersect (a : A) (b : B) ra rb :
  live M a 0 ra -> live M b 0 rb ->
  live M (newIntersectPostings a b) 0 (filter (fun x => x ∈ rb) ra).
Proof using Type.
  intros Ha Hb. destruct (live_ids _ _ _ Ha) as (? & Hi & _). split; [done|]. split.
  - apply incr_cons; [by eapply incr_filter, incr_tail|]. intros x [_ Hx]%list_elem_of_filter.
    by eapply incr_lt.
  - exists ra, rb. split_and!; try done. intros x. rewrite list_elem_of_filter. tauto.
Qed.
End Intersection.

(** ** Union *)

Lemma ids_at_least M c x r : ids_ok M c r -> c < x < M -> ids_ok M (x - 1) (at_least x r).
Proof.
  intros (? & Hi & HM) Hx. split; [lia|]. split.
  - apply incr_cons; [by eapply incr_at_least, incr_tail|]. intros y [_ ?]%elem_of_at_least. lia.
  - apply Forall_forall. intros y [Hy _]%elem_of_at_least. rewrite Forall_forall in HM. by apply HM.
Qed.

Lemma tail_union y (ka lb : list Z) x :
  incr (y :: ka) -> (forall z, z ∈ lb -> y < z) ->
  (x ∈ y :: ka \/ x ∈ lb) /\ y < x <-> x ∈ ka \/ x ∈ lb.
Proof.
  intros Ha Hb. rewrite elem_of_cons. split.
  - intros [[[->|?]|?] ?]; [lia|auto..].
  - intros [Hx|Hx]; split; auto. exact (incr_lt _ _ _ Ha Hx).
Qed.

Lemma tail_both y (ka kb : list Z) x :
  incr (y :: ka) -> incr (y :: kb) ->
  (x ∈ y :: ka \/ x ∈ y :: kb) /\ y < x <-> x ∈ ka \/ x ∈ kb.
Proof.
  intros Ha Hb. rewrite !elem_of_cons. split.
  - intros [[[->|?]|[->|?]] ?]; (lia || auto).
  - intros [Hx|Hx]; split; auto; [exact (incr_lt _ _ _ Ha Hx)|exact (incr_lt _ _ _ Hb Hx)].
Qed.

(** The least element of a list of ids described by [P]. *)
Lemma ids_head M d r (P : Z -> Prop) y :
  ids_ok M d r -> (forall x, x ∈ r <-> P x) -> P y -> (forall x, P x -> y <= x) ->
  exists r', r = y :: r' /\ d < y /\ ids_ok M y r' /\ forall x, x ∈ r' <-> P x /\ y < x.
Proof.
  intros Hr Hm Hy Hmin. pose proof Hr as (_ & Hi & _).
  destruct (incr_head P r y (incr_tail _ _ Hi) Hm Hy Hmin) as (r' & -> & _ & Hm'). exists r'.
  split_and!; [done|exact (incr_lt _ _ y Hi (list_elem_of_here _ _))|by eapply ids_ok_tail|done].
Qed.

Section Union.
Context (M : Z) {A B : Type} `{PostingsSpec M A} `{PostingsSpec M B}.
Context `{!ReSeek M A} `{!ReSeek M B}.

(** Initialized, with [la] and [lb] pending in the two iterators. *)
Definition mg_ready (it : mergedPostings A B) (d : Z) (r : list Z) : Prop :=
  mg_initialized it = true /\ exists la lb,
    pending M (mg_aok it, mg_a it) la d /\ pending M (mg_bok it, mg_b it) lb d /\
    forall x, x ∈ r <-> x ∈ la \/ x ∈ lb.

Definition mg_fresh (it : mergedPostings A B) (c : Z) (r : list Z) : Prop :=
  mg_initialized it = false /\ mg_aok it = false /\ mg_bok it = false /\ c = 0 /\
  exists ra rb, live M (mg_a it) 0 ra /\ live M (mg_b it) 0 rb /\ forall x, x ∈ r <-> x ∈ ra \/ x ∈ rb.

Definition mg_live (it : mergedPostings A B) (c : Z) (r : list Z) : Prop :=
  mg_cur it = c /\ ids_ok M c r /\ (mg_fresh it c r \/ mg_ready it (c + 1) r).

Definition mg_exhausted (it : mergedPostings A B) (d : Z) : Prop :=
  mg_initialized it = true /\ 0 <= mg_cur it < d /\ mg_ready it d [].

(** Taking the least pending element. *)
Lemma mg_taken it d r y r' :
  ids_ok M y r' -> mg_cur it = y -> d <= y + 1 -> mg_ready it (y + 1) r' -> r = y :: r' ->
  outcome mg_live mg_exhausted (true, it) r d.
Proof using Type. intros Hi Hc Hd Hr ->. exists y, r'. split; [done|]. split; [done|]. split; [done|]. by right. Qed.

Lemma merged_take_a_ready it d y ka lb r' :
  mg_initialized it = true -> d <= y + 1 ->
  pending M (true, mg_a it) (y :: ka) d -> pending M (mg_bok it, mg_b it) lb d ->
  (forall x, x ∈ r' <-> x ∈ ka \/ x ∈ lb) ->
  mg_ready (merged_take_a it y) (y + 1) r' /\ mg_cur (merged_take_a it y) = y.
Proof using Type.
  intros Hin Hd Ha Hb Hm. apply pending_Next in Ha. unfold merged_take_a.
  destruct (p_Next (mg_a it)) as [aok a]. split; [|done]. split; [done|]. exists ka, lb.
  split_and!; [done|by eapply pending_mono|done].
Qed.

Lemma merged_take_b_ready it d y la kb r' :
  mg_initialized it = true -> d <= y + 1 ->
  pending M (mg_aok it, mg_a it) la d -> pending M (true, mg_b it) (y :: kb) d ->
  (forall x, x ∈ r' <-> x ∈ la \/ x ∈ kb) ->
  mg_ready (merged_take_b it y) (y + 1) r' /\ mg_cur (merged_take_b it y) = y.
Proof using Type.
  intros Hin Hd Ha Hb Hm. apply pending_Next in Hb. unfold merged_take_b.
  destruct (p_Next (mg_b it)) as [bok b]. split; [|done]. split; [done|]. exists la, kb.
  split_and!; [by eapply pending_mono|done|done].
Qed.

(** What a step that takes [y], the least pending element, has to establish. *)
Lemma mg_take (it it' : mergedPostings A B) d r (la lb : list Z) y :
  0 <= mg_cur it < d -> ids_ok M (d - 1) r -> (forall x, x ∈ r <-> x ∈ la \/ x ∈ lb) ->
  y ∈ la \/ y ∈ lb -> (forall x, x ∈ la \/ x ∈ lb -> y <= x) ->
  (forall r', d <= y + 1 -> (forall x, x ∈ r' <-> (x ∈ la \/ x ∈ lb) /\ y < x) ->
     mg_ready it' (y + 1) r' /\ mg_cur it' = y) ->
  outcome mg_live mg_exhausted (true, it') r d.
Proof using Type.
  intros Hcur Hr Hm Hy Hmin Hit.
  destruct (ids_head M _ r _ y Hr Hm Hy Hmin) as (r' & -> & Hd & Hr' & Hm').
  destruct (Hit r') as [Hready Hc]; [lia|done|]. exists y, r'. split; [done|]. split; [done|].
  split; [done|]. by right.
Qed.

(** One step over pending elements that are all at or beyond [d]. *)
Lemma merged_step_spec it d r :
  mg_ready it d r -> 0 <= mg_cur it < d -> ids_ok M (d - 1) r ->
  outcome mg_live mg_exhausted (merged_step it) r d.
Proof using Type.
  intros (Hin & la & lb & Ha & Hb & Hm) Hcur Hr. unfold merged_step.
  destruct (pending_incr _ _ _ _ Ha) as [Hla _]. destruct (pending_incr _ _ _ _ Hb) as [Hlb _].
  pose proof (mg_take it) as Htake.
  destruct (mg_aok it) eqn:Eaok, (mg_bok it) eqn:Ebok; cbn [negb andb].
  - destruct (pending_true _ _ _ Ha) as (ka & -> & _). destruct (pending_true _ _ _ Hb) as (kb & -> & _).
    set (ya := p_At (mg_a it)) in *. set (yb := p_At (mg_b it)) in *.
    destruct (Z.ltb_spec ya yb); [|destruct (Z.ltb_spec yb ya)].
    + apply (Htake _ _ _ (ya :: ka) (yb :: kb) ya); [done..|by left; left| |].
      { intros x [Hx|Hx]; [exact (incr_ge _ _ _ Hla Hx)|]. pose proof (incr_ge _ _ _ Hlb Hx). lia. }
      intros r' Hd Hm'. apply (merged_take_a_ready it d ya ka (yb :: kb)); rewrite ?Ebok; try done.
      intros x. rewrite Hm'. apply tail_union; [done|]. intros z Hz. pose proof (incr_ge _ _ _ Hlb Hz). lia.
    + apply (Htake _ _ _ (ya :: ka) (yb :: kb) yb); [done..|by right; left| |].
      { intros x [Hx|Hx]; [|exact (incr_ge _ _ _ Hlb Hx)]. pose proof (incr_ge _ _ _ Hla Hx). lia. }
      intros r' Hd Hm'. apply (merged_take_b_ready it d yb (ya :: ka) kb); rewrite ?Eaok; try done.
      intros x. rewrite Hm', (or_comm (x ∈ ya :: ka) (x ∈ yb :: kb)), (or_comm (x ∈ ya :: ka) (x ∈ kb)). apply tail_union; [done|].
      intros z Hz. pose proof (incr_ge _ _ _ Hla Hz). lia.
    + assert (yb = ya) as E by lia. rewrite E in *.
      apply (Htake _ _ _ (ya :: ka) (ya :: kb) ya); [done..|by left; left| |].
      { intros x [Hx|Hx]; [exact (incr_ge _ _ _ Hla Hx)|exact (incr_ge _ _ _ Hlb Hx)]. }
      intros r' Hd Hm'. unfold merged_take_b, merged_take_a.
      apply pending_Next in Ha, Hb. destruct (p_Next (mg_a it)) as [aok a].
      cbn [mg_b]. destruct (p_Next (mg_b it)) as [bok b]. split; [|done]. split; [done|]. exists ka, kb.
      split_and!; [done|done|]. intros x. rewrite Hm'. by apply tail_both.
  - destruct (pending_true _ _ _ Ha) as (ka & -> & _). apply pending_false in Hb as [-> Hb].
    set (ya := p_At (mg_a it)) in *.
    apply (Htake _ _ _ (ya :: ka) [] ya); [done..|by left; left| |].
    { intros x [Hx|Hx]; [exact (incr_ge _ _ _ Hla Hx)|by apply not_elem_of_nil in Hx]. }
    intros r' Hd Hm'. apply (merged_take_a_ready it d ya ka []); rewrite ?Ebok; try done.
    intros x. rewrite Hm'. apply tail_union; [done|]. by intros z ?%not_elem_of_nil.
  - destruct (pending_true _ _ _ Hb) as (kb & -> & _). apply pending_false in Ha as [-> Ha].
    set (yb := p_At (mg_b it)) in *.
    apply (Htake _ _ _ [] (yb :: kb) yb); [done..|by right; left| |].
    { intros x [Hx|Hx]; [by apply not_elem_of_nil in Hx|exact (incr_ge _ _ _ Hlb Hx)]. }
    intros r' Hd Hm'. apply (merged_take_b_ready it d yb [] kb); rewrite ?Eaok; try done.
    intros x. rewrite Hm', (or_comm (x ∈ []) (x ∈ yb :: kb)), (or_comm (x ∈ []) (x ∈ kb)). apply tail_union; [done|].
    by intros z ?%not_elem_of_nil.
  - destruct Ha as [-> Ha], Hb as [-> Hb].
    assert (r = []) as -> by (apply not_elem_nil; intros x [?%not_elem_of_nil|?%not_elem_of_nil]%Hm; done).
    split; [done|]. split; [done|]. split; [done|]. split; [done|].
    exists [], []. rewrite Eaok, Ebok. by split_and!.
Qed.

Lemma merged_init_ready it c r :
  ids_ok M c r -> mg_fresh it c r \/ mg_ready it (c + 1) r ->
  mg_ready (merged_init it) (c + 1) r /\ mg_cur (merged_init it) = mg_cur it.
Proof using Type.
  intros Hr [(Hi & _ & _ & -> & ra & rb & Ha & Hb & Hm)|Hready]; unfold merged_init.
  - rewrite Hi. cbn [negb]. pose proof (Next_spec _ _ _ Ha) as Ha'. pose proof (Next_spec _ _ _ Hb) as Hb'.
    destruct (p_Next (mg_a it)) as [aok a], (p_Next (mg_b it)) as [bok b].
    split; [|done]. split; [done|]. by exists ra, rb.
  - destruct Hready as [Hi Hx]. rewrite Hi. cbn [negb]. split; [|done]. split; [done|exact Hx].
Qed.

Lemma merged_Seek_from it la lb r x :
  0 <= mg_cur it < x -> pending M (p_Seek (mg_a it) x) la x -> pending M (p_Seek (mg_b it) x) lb x ->
  (forall y, y ∈ r <-> y ∈ la \/ y ∈ lb) -> ids_ok M (x - 1) r ->
  outcome mg_live mg_exhausted (merged_Seek it x) r x.
Proof using Type.
  intros Hc Ha Hb Hm Hr. unfold merged_Seek. rewrite (proj2 (Z.leb_gt _ _)) by lia.
  destruct (p_Seek (mg_a it) x) as [aok a], (p_Seek (mg_b it) x) as [bok b].
  unfold merged_Next, merged_init. cbn [mg_initialized negb].
  apply merged_step_spec; [|cbn; lia|done]. split; [done|]. by exists la, lb.
Qed.

(** Seeking beyond the current element. *)
Lemma merged_Seek_spec it c r x :
  mg_live it c r -> c < x < M -> outcome mg_live mg_exhausted (merged_Seek it x) (at_least x r) x.
Proof using Type*.
  intros (<- & Hr & Hst) Hx. pose proof Hr as (? & Hi & HM). pose proof (ids_at_least M _ x _ Hr) as Hr'.
  destruct Hst as [(_ & _ & _ & Hc & ra & rb & Ha & Hb & Hm)|(_ & la & lb & Ha & Hb & Hm)].
  - apply (merged_Seek_from _ (at_least x ra) (at_least x rb)); [lia| | | |apply Hr'; lia].
    + apply (Seek_spec _ _ _ _ Ha). lia.
    + apply (Seek_spec _ _ _ _ Hb). lia.
    + intros y. rewrite !elem_of_at_least, Hm. tauto.
  - apply (merged_Seek_from _ (at_least x la) (at_least x lb)); [lia| | | |apply Hr'; lia].
    + eapply pending_Seek; [done|lia|lia].
    + eapply pending_Seek; [done|lia|lia].
    + intros y. rewrite !elem_of_at_least, Hm. tauto.
Qed.

#[export, program] Instance merged_spec : PostingsSpec M (mergedPostings A B) := {|
  live := mg_live;
  exhausted := mg_exhausted;
|}.
Next Obligation. by intros s c r (? & _). Qed.
Next Obligation.
  intros s c r (_ & _ & [(_ & _ & _ & _ & ra & rb & Ha & Hb & _)|(_ & la & lb & Ha & Hb & _)]); cbn; unfold first_err.
  - by rewrite (live_Err _ _ _ Ha), (live_Err _ _ _ Hb).
  - by rewrite (pending_Err _ _ _ _ Ha), (pending_Err _ _ _ _ Hb).
Qed.
Next Obligation.
  intros s d (_ & _ & _ & la & lb & Ha & Hb & _). cbn. unfold first_err.
  by rewrite (pending_Err _ _ _ _ Ha), (pending_Err _ _ _ _ Hb).
Qed.
Next Obligation. by intros s c r (_ & ? & _). Qed.
Next Obligation.
  intros s c r (_ & (_ & Hr%incr_tail & _) & Hst). cbn.
  destruct Hst as [(_ & Ea & Eb & _ & ra & rb & Ha & Hb & Hm)|(_ & la & lb & Ha & Hb & Hm)].
  - pose proof (live_size _ _ _ Ha). pose proof (live_size _ _ _ Hb).
    pose proof (incr_length r (ra ++ rb) Hr) as Hl. rewrite length_app in Hl.
    etrans; [apply Hl|lia]. intros x. rewrite Hm, elem_of_app. done.
  - pose proof (pending_size _ _ _ _ Ha). pose proof (pending_size _ _ _ _ Hb).
    pose proof (incr_length r (la ++ lb) Hr) as Hl. rewrite length_app in Hl.
    etrans; [apply Hl|lia]. intros x. rewrite Hm, elem_of_app. done.
Qed.
Next Obligation.
  intros s d d' (Hi & Hc & _ & la & lb & Ha & Hb & Hm) Hd.
  split; [done|]. split; [lia|]. split; [done|]. exists la, lb.
  split_and!; [by eapply pending_mono..|done].
Qed.
Next Obligation.
  intros s c r (<- & Hr & Hst). destruct (merged_init_ready s _ r Hr Hst) as [Hready Hc].
  pose proof Hr as (? & _). apply merged_step_spec; [done|lia|]. by replace (mg_cur s + 1 - 1) with (mg_cur s) by lia.
Qed.
Next Obligation.
  intros s c r x (<- & Hr & Hst) Hx. cbn. unfold merged_Seek.
  rewrite (proj2 (Z.leb_le _ _)) by lia. by exists s.
Qed.
Next Obligation. exact merged_Seek_spec. Qed.

#[export] Instance merged_reseek : ReSeek M (mergedPostings A B).
Proof using Type*.
  intros s d x (Hi & Hc & _ & la & lb & Ha & Hb & Hm) Hx.
  assert (Ho : outcome mg_live mg_exhausted (merged_Seek s x) [] x).
  { apply (merged_Seek_from _ (at_least x la) (at_least x lb)); [lia| | | |].
    - eapply pending_Seek; [done|lia|lia].
    - eapply pending_Seek; [done|lia|lia].
    - intros y. rewrite !elem_of_at_least. specialize (Hm y). pose proof (not_elem_of_nil y). tauto.
    - split; [lia|]. split; repeat constructor. }
  change (p_Seek s x) with (merged_Seek s x).
  destruct (merged_Seek s x) as [[] s']; [by destruct Ho as (? & ? & ? & _)|]. exists s'. by destruct Ho.
Qed.

(** A new union. *)
Lemma live_merged (a : A) (b : B) ra rb r :
  live M a 0 ra -> live M b 0 rb -> incr r -> (forall x, x ∈ r <-> x ∈ ra \/ x ∈ rb) ->
  live M (newMergedPostings a b) 0 r.
Proof using Type.
  intros Ha Hb Hr Hm. destruct (live_ids _ _ _ Ha) as (? & Hia & HMa).
  destruct (live_ids _ _ _ Hb) as (_ & Hib & HMb). rewrite Forall_forall in HMa, HMb.
  split; [done|]. split.
  - split; [lia|]. split.
    + apply incr_cons; [done|]. intros x [Hx|Hx]%Hm; [exact (incr_lt _ _ _ Hia Hx)|exact (incr_lt _ _ _ Hib Hx)].
    + apply Forall_forall. intros x [Hx|Hx]%Hm; auto.
  - left. split_and!; try done. by exists ra, rb.
Qed.
End Union.

(** ** Difference *)

Section Difference.
Context (M : Z) {A B : Type} `{PostingsSpec M A} `{PostingsSpec M B}.
Context `{!ReSeek M A} `{!ReSeek M B}.

Definition rp_ready (rp : removedPostings A B) (d : Z) (r : list Z) : Prop :=
  rp_initialized rp = true /\ exists lf lr,
    pending M (rp_fok rp, rp_full rp) lf d /\ pending M (rp_rok rp, rp_remove rp) lr d /\
    (forall y, y ∈ lf -> d <= y) /\ forall x, x ∈ r <-> x ∈ lf /\ x ∉ lr.

Definition rp_fresh (rp : removedPostings A B) (c : Z) (r : list Z) : Prop :=
  rp_initialized rp = false /\ rp_fok rp = false /\ c = 0 /\
  exists rf rr, live M (rp_full rp) 0 rf /\ live M (rp_remove rp) 0 rr /\
    forall x, x ∈ r <-> x ∈ rf /\ x ∉ rr.

Definition rp_live (rp : removedPostings A B) (c : Z) (r : list Z) : Prop :=
  rp_cur rp = c /\ ids_ok M c r /\ (rp_fresh rp c r \/ rp_ready rp (c + 1) r).

Definition rp_exhausted (rp : removedPostings A B) (d : Z) : Prop :=
  p_Err (rp_full rp) = None /\ p_Err (rp_remove rp) = None.

(** Emitting the head of the full list, which is not to be removed. *)
Lemma rp_emit rp d dr r y k lr e :
  rp_initialized rp = true ->
  pending M (true, rp_full rp) (y :: k) d -> pending M (rp_rok rp, rp_remove rp) lr dr -> dr <= y + 1 ->
  y ∉ lr -> ids_ok M e r -> (forall x, x ∈ r <-> x ∈ y :: k /\ x ∉ lr) ->
  outcome rp_live rp_exhausted (true, removed_advance rp y) r d.
Proof using Type.
  intros Hi Hf Hr Hd Hy Hids Hm. destruct (pending_incr _ _ _ _ Hf) as [Hinc _].
  destruct (ids_head M e r _ y Hids Hm) as (r' & -> & _ & Hr' & Hm').
  { split; [left|done]. }
  { intros x [Hx _]. exact (incr_ge _ _ _ Hinc Hx). }
  apply pending_Next in Hf. unfold removed_advance. destruct (p_Next (rp_full rp)) as [fok full].
  exists y, r'. split; [done|]. split; [done|]. split; [done|]. right. split; [done|]. exists k, lr.
  split_and!; [done|by eapply pending_mono| |].
  { intros x Hx. pose proof (incr_lt _ _ _ Hinc Hx). lia. }
  intros x. rewrite Hm', elem_of_cons. split.
  - intros [[[->|?] ?] ?]; [lia|done].
  - intros [Hx ?]. pose proof (incr_lt _ _ _ Hinc Hx). auto.
Qed.

Lemma removed_loop_spec fuel rp d dr lf lr r e :
  rp_initialized rp = true ->
  pending M (rp_fok rp, rp_full rp) lf d -> pending M (rp_rok rp, rp_remove rp) lr dr ->
  (forall y, y ∈ lf -> 0 < y /\ dr <= y + 1) -> (length lf + length lr < fuel)%nat ->
  ids_ok M e r -> (forall x, x ∈ r <-> x ∈ lf /\ x ∉ lr) ->
  outcome rp_live rp_exhausted (removed_loop fuel rp) r d.
Proof using Type.
  intros Hi. enough (Hgen : forall d', pending M (rp_fok rp, rp_full rp) lf d' ->
    pending M (rp_rok rp, rp_remove rp) lr dr ->
    (forall y, y ∈ lf -> 0 < y /\ dr <= y + 1) -> (length lf + length lr < fuel)%nat ->
    ids_ok M e r -> (forall x, x ∈ r <-> x ∈ lf /\ x ∉ lr) ->
    outcome rp_live rp_exhausted (removed_loop fuel rp) r d) by eauto.
  revert rp lf lr dr Hi. induction fuel as [|fuel IH]; intros rp lf lr dr Hi d' Hf Hr Hd Hlen Hids Hm; [lia|].
  cbn [removed_loop]. destruct (pending_incr _ _ _ _ Hf) as [Hincf HfM].
  destruct (pending_incr _ _ _ _ Hr) as [Hincr _].
  destruct (rp_fok rp) eqn:Ef; cbn [negb].
  2:{ split; [|split; cbn; by eapply pending_Err].
      destruct Hf as [-> _]. apply not_elem_nil. intros x [Hx _]%Hm. by apply not_elem_of_nil in Hx. }
  destruct (pending_true _ _ _ Hf) as (k & -> & Hlive). set (fcur := p_At (rp_full rp)) in *.
  destruct (Hd fcur (list_elem_of_here _ _)) as [Hfpos Hdr].
  assert (Hemit : fcur ∉ lr -> outcome rp_live rp_exhausted (true, removed_advance rp fcur) r d).
  { intros Hn. pose proof (rp_emit rp d' dr r fcur k lr e Hi Hf Hr Hdr Hn Hids Hm) as Ho.
    exact Ho. }
  destruct (rp_rok rp) eqn:Er; cbn [negb].
  2:{ apply Hemit. destruct Hr as [-> _]. apply not_elem_of_nil. }
  destruct (pending_true _ _ _ Hr) as (kr & -> & Hliver). set (rcur := p_At (rp_remove rp)) in *.
  destruct (Z.ltb_spec fcur rcur); [|destruct (Z.ltb_spec rcur fcur)].
  - apply Hemit. intros Hin. pose proof (incr_ge _ _ _ Hincr Hin). lia.
  - inversion HfM; subst.
    pose proof (Seek_at_least _ _ _ fcur Hliver ltac:(lia)) as Hs.
    destruct (p_Seek (rp_remove rp) fcur) as [rok remove].
    apply (IH _ (fcur :: k) (at_least fcur (rcur :: kr)) fcur) with (d' := d'); cbn [rp_initialized rp_fok rp_full rp_rok rp_remove];
      rewrite ?Ef; try done.
    + intros y Hy. pose proof (incr_ge _ _ _ Hincf Hy). lia.
    + rewrite at_least_cons_gt by lia. pose proof (at_least_length fcur kr). cbn [length] in *. lia.
    + intros x. rewrite Hm, elem_of_at_least. split; intros [Hx Hnx]; split; try done; [tauto|].
      intros Hin. apply Hnx. split; [done|]. exact (incr_ge _ _ _ Hincf Hx).
  - assert (rcur = fcur) as E by lia. apply pending_Next in Hf.
    unfold removed_advance. destruct (p_Next (rp_full rp)) as [fok full].
    apply (IH _ k (rcur :: kr) dr) with (d' := fcur + 1); cbn [rp_initialized rp_fok rp_full rp_rok rp_remove];
      rewrite ?Er; try done.
    + intros y Hy. apply Hd. by right.
    + cbn [length] in *. lia.
    + intros x. rewrite Hm, E, !elem_of_cons. tauto.
Qed.

Lemma removed_fuel_enough (rp : removedPostings A B) ok1 ok2 lf lr d d' :
  pending M (ok1, rp_full rp) lf d -> pending M (ok2, rp_remove rp) lr d' ->
  (length lf + length lr < removed_fuel rp)%nat.
Proof using Type.
  intros Hf Hr. apply pending_size in Hf, Hr. unfold removed_fuel. destruct ok1, ok2; cbn in *; lia.
Qed.

(** Running the loop from a state with everything pending at or beyond [d]. *)
Lemma removed_run rp d r :
  rp_ready rp d r -> 0 < d -> ids_ok M (d - 1) r ->
  outcome rp_live rp_exhausted (removed_loop (removed_fuel rp) rp) r d.
Proof using Type.
  intros (Hi & lf & lr & Hf & Hr & Hlow & Hm) Hd Hids.
  apply (removed_loop_spec _ _ _ d lf lr r (d - 1)); try done.
  - intros y Hy. specialize (Hlow y Hy). lia.
  - by eapply removed_fuel_enough.
Qed.

Lemma removed_init_ready rp c r :
  ids_ok M c r -> rp_fresh rp c r \/ rp_ready rp (c + 1) r -> rp_ready (removed_init rp) (c + 1) r.
Proof using Type.
  intros Hids [(Hi & _ & -> & rf & rr & Hf & Hr & Hm)|Hready]; unfold removed_init.
  - rewrite Hi. cbn [negb]. destruct (live_ids _ _ _ Hf) as (_ & Hinc & _).
    pose proof (Next_spec _ _ _ Hf) as Hf'. pose proof (Next_spec _ _ _ Hr) as Hr'.
    destruct (p_Next (rp_full rp)) as [fok full], (p_Next (rp_remove rp)) as [rok remove].
    split; [done|]. exists rf, rr. split_and!; try done.
    intros y Hy. pose proof (incr_lt _ _ _ Hinc Hy). lia.
  - destruct Hready as [Hi Hx]. rewrite Hi. split; [done|exact Hx].
Qed.

(** Seeking beyond the current element. *)
Lemma removed_Seek_spec rp c r x :
  rp_live rp c r -> c < x < M -> outcome rp_live rp_exhausted (removed_Seek rp x) (at_least x r) x.
Proof using Type*.
  intros (<- & Hids & Hst) Hx. pose proof Hids as (? & _). unfold removed_Seek.
  rewrite (proj2 (Z.leb_gt _ _)) by lia.
  assert (exists lf lr, pending M (p_Seek (rp_full rp) x) (at_least x lf) x /\
    pending M (p_Seek (rp_remove rp) x) (at_least x lr) x /\
    forall y, y ∈ r <-> y ∈ lf /\ y ∉ lr) as (lf & lr & Hf & Hr & Hm).
  { destruct Hst as [(_ & _ & Hc & rf & rr & Hf & Hr & Hm)|(_ & lf & lr & Hf & Hr & _ & Hm)].
    - exists rf, rr. split; [apply (Seek_spec _ _ _ _ Hf); lia|].
      split; [apply (Seek_spec _ _ _ _ Hr); lia|done].
    - exists lf, lr. split; [eapply pending_Seek; [done|lia|lia]|].
      split; [eapply pending_Seek; [done|lia|lia]|done]. }
  destruct (p_Seek (rp_full rp) x) as [fok full], (p_Seek (rp_remove rp) x) as [rok remove].
  apply removed_run; [|lia|by apply (ids_at_least M (rp_cur rp))].
  split; [done|]. exists (at_least x lf), (at_least x lr). split_and!; [done|done| |].
  - by intros y [_ ?]%elem_of_at_least.
  - intros y. rewrite !elem_of_at_least, Hm. tauto.
Qed.

#[export, program] Instance removed_spec : PostingsSpec M (removedPostings A B) := {|
  live := rp_live;
  exhausted := rp_exhausted;
|}.
Next Obligation. by intros s c r (? & _). Qed.
Next Obligation.
  intros s c r (_ & _ & [(_ & _ & _ & rf & rr & Hf & Hr & _)|(_ & lf & lr & Hf & Hr & _)]); cbn; unfold first_err.
  - by rewrite (live_Err _ _ _ Hf), (live_Err _ _ _ Hr).
  - by rewrite (pending_Err _ _ _ _ Hf), (pending_Err _ _ _ _ Hr).
Qed.
Next Obligation. intros s d [Hf Hr]. cbn. unfold first_err. by rewrite Hf, Hr. Qed.
Next Obligation. by intros s c r (_ & ? & _). Qed.
Next Obligation.
  intros s c r (_ & (_ & Hr%incr_tail & _) & Hst). cbn.
  destruct Hst as [(_ & Ef & _ & rf & rr & Hf & _ & Hm)|(_ & lf & lr & Hf & _ & _ & Hm)].
  - pose proof (live_size _ _ _ Hf). etrans; [apply (incr_length r rf Hr)|lia]. intros x Hx. by apply Hm.
  - pose proof (pending_size _ _ _ _ Hf). etrans; [apply (incr_length r lf Hr)|lia]. intros x Hx. by apply Hm.
Qed.
Next Obligation. done. Qed.
Next Obligation.
  intros s c r (<- & Hids & Hst). pose proof Hids as (? & _).
  apply removed_run; [by apply removed_init_ready|lia|].
  by replace (rp_cur s + 1 - 1) with (rp_cur s) by lia.
Qed.
Next Obligation.
  intros s c r x (<- & Hr & Hst) Hx. exists s. split; [|done].
  change (p_Seek s x) with (removed_Seek s x). unfold removed_Seek.
  by rewrite (proj2 (Z.leb_le _ _)) by lia.
Qed.
Next Obligation. exact removed_Seek_spec. Qed.

(** A new difference. *)
Lemma live_removed (full : A) (remove : B) rf rr :
  live M full 0 rf -> live M remove 0 rr ->
  live M (newRemovedPostings full remove) 0 (filter (fun x => x ∉ rr) rf).
Proof using Type.
  intros Hf Hr. destruct (live_ids _ _ _ Hf) as (? & Hi & HM). rewrite Forall_forall in HM.
  split; [done|]. split.
  - split; [lia|]. split.
    + apply incr_cons; [by eapply incr_filter, incr_tail|]. intros x [_ Hx]%list_elem_of_filter.
      exact (incr_lt _ _ _ Hi Hx).
    + apply Forall_forall. intros x [_ Hx]%list_elem_of_filter. by apply HM.
  - left. split_and!; try done. exists rf, rr. split_and!; try done.
    intros x. rewrite list_elem_of_filter. tauto.
Qed.
End Difference.

(** * Trees *)

(** The iterator [p] is new and gives the ids [r]: its shape has an
    implementation of the interface for which it is at the start of [r].
    [resumes]: it may also be sought again after its end. *)
Definition denotes (M : Z) (p : Postings) (r : list Z) : Prop :=
  exists spec : PostingsSpec M (state (ps_shape p)), @live M _ _ spec (ps_state p) 0 r.

Definition resumes (M : Z) (p : Postings) (r : list Z) : Prop :=
  exists spec : PostingsSpec M (state (ps_shape p)),
    @ReSeek M _ _ spec /\ @live M _ _ spec (ps_state p) 0 r.

Lemma resumes_denotes M p r : resumes M p r -> denotes M p r.
Proof. intros (spec & _ & Hl). by exists spec. Qed.

Lemma denotes_Expand M p r : denotes M p r -> Expand p = (r, None).
Proof. intros (spec & Hl). by apply (@ExpandPostings_live M _ _ spec). Qed.

Lemma denotes_ids M p r : denotes M p r -> 0 < M /\ ids_ok M 0 r.
Proof. intros (spec & Hl). destruct (@live_ids M _ _ spec _ _ _ Hl) as (? & ? & ?). split; [lia|done]. Qed.

Lemma denotes_incr M p r : denotes M p r -> incr r.
Proof. intros Hp. destruct (denotes_ids M p r Hp) as (_ & _ & Hi & _). by eapply incr_tail. Qed.

Lemma resumes_err M : PosBound M -> resumes M (of_err emptyPostings) [].
Proof. intros HM. exists (err_spec M). split; [apply _|done]. Qed.

Lemma resumes_list M l : PosBound M -> ids_ok M 0 l -> resumes M (of_list l) l.
Proof. intros HM Hl. exists (list_spec M). split; [apply _|done]. Qed.

Lemma resumes_bytes M l : Bound32 M -> ids_ok M 0 l -> resumes M (of_bytes (mjoin (PutUint32 <$> l))) l.
Proof.
  intros HM Hl. exists (be_spec M). split; [apply _|]. split; [done|]. split; [|done].
  exists []. rewrite app_nil_r. split; [done|cbn; lia].
Qed.

Lemma denotes_intersect M a b ra rb :
  denotes M a ra -> denotes M b rb -> denotes M (join_intersect a b) (filter (fun x => x ∈ rb) ra).
Proof.
  intros (sa & Ha) (sb & Hb). exists (@intersect_spec M _ _ _ sa _ sb).
  by eapply live_intersect.
Qed.

Lemma resumes_merged M a b ra rb r :
  resumes M a ra -> resumes M b rb -> incr r -> (forall x, x ∈ r <-> x ∈ ra \/ x ∈ rb) ->
  resumes M (join_merged a b) r.
Proof.
  intros (sa & Ra & Ha) (sb & Rb & Hb) Hr Hm. exists (@merged_spec M _ _ _ sa _ sb Ra Rb).
  split; [exact (@merged_reseek M _ _ _ sa _ sb Ra Rb)|].
  by eapply live_merged.
Qed.

Lemma denotes_without M a b ra rb :
  resumes M a ra -> resumes M b rb -> denotes M (Without a b) (filter (fun x => x ∉ rb) ra).
Proof.
  intros (sa & Ra & Ha) (sb & Rb & Hb). exists (@removed_spec M _ _ _ sa _ sb Ra Rb).
  by eapply live_removed.
Qed.

Lemma union_exists (ra rb : list Z) : exists r, incr r /\ forall x, x ∈ r <-> x ∈ ra \/ x ∈ rb.
Proof.
  exists (sort_by id Z.compare (remove_dups (ra ++ rb))). split.
  - pose proof (sorted_increasing id Z.compare (sort_by id Z.compare (remove_dups (ra ++ rb)))) as Hi.
    eapply StronglySorted_weaken; [|apply Hi].
    + intros x y. apply Z.compare_lt_iff.
    + rewrite list_fmap_id, sort_by_perm. apply NoDup_remove_dups.
    + apply sort_by_sorted; apply _.
  - intros x. rewrite (sort_by_perm id Z.compare), elem_of_remove_dups, elem_of_app. done.
Qed.

(** The halving recursion, for a way to join two iterators that computes [op]
    of the two sets of ids. *)
Section Halve.
Context (M : Z) (den : Postings -> list Z -> Prop) (join : Postings -> Postings -> Postings).
Context (op : Prop -> Prop -> Prop) (big : (list Z -> Prop) -> list (list Z) -> Prop).
Context (big_one : forall P r, big P [r] <-> P r).
Context (big_app : forall P rs1 rs2, rs1 <> [] -> rs2 <> [] -> big P (rs1 ++ rs2) <-> op (big P rs1) (big P rs2)).
Context (join_den : forall a b ra rb, den a ra -> den b rb ->
  exists r, den (join a b) r /\ forall x, x ∈ r <-> op (x ∈ ra) (x ∈ rb)).
Context (op_iff : forall P P' Q Q', (P <-> P') -> (Q <-> Q') -> (op P Q <-> op P' Q')).

Lemma halve_den fuel its rs :
  Forall2 den its rs -> its <> [] -> (length its <= fuel)%nat ->
  exists r, den (halve join fuel its) r /\ forall x, x ∈ r <-> big (fun k => x ∈ k) rs.
Proof using Type*.
  revert its rs. induction fuel as [|fuel IH]; intros its rs Hd Hne Hf.
  { destruct its; [done|cbn in Hf; lia]. }
  destruct Hd as [|it r its rs Hit Hd]; [done|]. destruct Hd as [|it2 r2 its rs Hit2 Hd].
  { exists r. split; [done|]. intros x. by rewrite big_one. }
  assert (Hall : Forall2 den (it :: it2 :: its) (r :: r2 :: rs)) by by repeat constructor.
  assert (Hl2 : (2 <= length (it :: it2 :: its))%nat) by (cbn; lia).
  change (halve join (S fuel) (it :: it2 :: its)) with
    (join (halve join fuel (take (length (it :: it2 :: its) / 2) (it :: it2 :: its)))
          (halve join fuel (drop (length (it :: it2 :: its) / 2) (it :: it2 :: its)))).
  set (its' := it :: it2 :: its) in *. set (rs' := r :: r2 :: rs) in *. clearbody its' rs'.
  pose proof (Forall2_length _ _ _ Hall) as Hlen. set (l := (length its' / 2)%nat).
  assert (Hl : (1 <= l < length its')%nat).
  { split; [apply Nat.div_le_lower_bound; lia|apply Nat.Div0.div_lt_upper_bound; lia]. }
  clearbody l.
  destruct (IH (take l its') (take l rs')) as (ra & Ha & Hma).
  { by apply Forall2_take. } { intros E. apply (f_equal length) in E. rewrite length_take in E. cbn in E. lia. }
  { rewrite length_take. lia. }
  destruct (IH (drop l its') (drop l rs')) as (rb & Hb & Hmb).
  { by apply Forall2_drop. } { intros E. apply (f_equal length) in E. rewrite length_drop in E. cbn in E. lia. }
  { rewrite length_drop. lia. }
  destruct (join_den _ _ _ _ Ha Hb) as (k & Hk & Hmk). exists k. split; [done|]. intros x.
  rewrite Hmk, <- (take_drop l rs'), big_app; [by apply op_iff| |].
  - intros E. apply (f_equal length) in E. rewrite length_take in E. cbn in E. lia.
  - intros E. apply (f_equal length) in E. rewrite length_drop in E. cbn in E. lia.
Qed.
End Halve.

(** * Properties *)

Lemma Intersect_denotes (M : Z) (its : list Postings) (rs : list (list Z)) :
  Forall2 (denotes M) its rs -> its <> [] ->
  exists r, denotes M (Intersect its) r /\ forall x, x ∈ r <-> Forall (fun k => x ∈ k) rs.
Proof.
  intros Hd Hne.
  destruct (halve_den (denotes M) join_intersect and (fun P => Forall P)) with (fuel := length its) (its := its) (rs := rs)
    as (r & Hr & Hm); try done.
  - intros P r. by rewrite Forall_singleton.
  - intros P rs1 rs2 _ _. apply Forall_app.
  - intros a b ra rb Ha Hb. eexists. split; [by apply denotes_intersect|].
    intros x. rewrite list_elem_of_filter. tauto.
  - tauto.
  - by exists r.
Qed.

Lemma Merge_resumes (M : Z) (its : list Postings) (rs : list (list Z)) :
  PosBound M -> Forall2 (resumes M) its rs ->
  exists r, resumes M (Merge its) r /\ forall x, x ∈ r <-> Exists (fun k => x ∈ k) rs.
Proof.
  intros HM Hd. destruct (decide (its = [])) as [->|Hne].
  { apply Forall2_nil_inv_l in Hd as ->. exists []. split; [by apply resumes_err|].
    intros x. split; [by intros ?%not_elem_of_nil|by intros ?%Exists_nil]. }
  destruct (halve_den (resumes M) join_merged or (fun P => Exists P)) with (fuel := length its) (its := its) (rs := rs)
    as (r & Hr & Hm); try done.
  - intros P r. by rewrite Exists_cons, Exists_nil, (right_id False or).
  - intros P rs1 rs2 _ _. apply Exists_app.
  - intros a b ra rb Ha Hb. destruct (union_exists ra rb) as (k & Hk & Hm). exists k.
    split; [by eapply resumes_merged|done].
  - tauto.
  - by exists r.
Qed.

(** [Intersect] of any number of iterators (themselves trees, of whatever
    shape) yields exactly the ids all of them yield, in increasing order,
    without error; and the result is again an iterator that keeps the promises
    of the interface, for [Next] as for [Seek]. *)
Theorem Intersect_spec (M : Z) (its : list Postings) (rs : list (list Z)) :
  Forall2 (denotes M) its rs -> its <> [] ->
  exists r, denotes M (Intersect its) r /\ Expand (Intersect its) = (r, None) /\ incr r /\
    forall x, x ∈ r <-> Forall (fun k => x ∈ k) rs.
Proof.
  intros Hd Hne. destruct (Intersect_denotes M its rs Hd Hne) as (r & Hr & Hm). exists r.
  split_and!; [done|by eapply denotes_Expand|by eapply denotes_incr|done].
Qed.

(** [Merge] of any number of iterators that can be sought again (lists,
    big-endian lists and merges of them) yields the union of their ids, in
    increasing order and without duplicates. *)
Theorem Merge_spec (M : Z) (its : list Postings) (rs : list (list Z)) :
  PosBound M -> Forall2 (resumes M) its rs ->
  exists r, resumes M (Merge its) r /\ Expand (Merge its) = (r, None) /\ incr r /\
    forall x, x ∈ r <-> Exists (fun k => x ∈ k) rs.
Proof.
  intros HM Hd. destruct (Merge_resumes M its rs HM Hd) as (r & Hr & Hm). exists r.
  apply resumes_denotes in Hr as Hr'. split_and!; [done|by eapply denotes_Expand|by eapply denotes_incr|done].
Qed.

(** C32: [Without] yields, in increasing order, the ids of the first iterator
    that the second does not yield, and again keeps the promises of the
    interface. *)
Theorem Without_spec (M : Z) (full drop : Postings) (rf rd : list Z) :
  resumes M full rf -> resumes M drop rd ->
  denotes M (Without full drop) (filter (fun x => x ∉ rd) rf) /\
  Expand (Without full drop) = (filter (fun x => x ∉ rd) rf, None).
Proof.
  intros Hf Hd. pose proof (denotes_without _ _ _ _ _ Hf Hd) as Hw.
  split; [done|by eapply denotes_Expand].
Qed.

Lemma Intersect_spec_witness :
  let its := [of_list [1; 2; 3; 5; 9]; of_bytes (mjoin (PutUint32 <$> [2; 3; 9; 11])); of_list [2; 9]] in
  exists r, denotes (2 ^ 32) (Intersect its) r /\ Expand (Intersect its) = (r, None) /\ incr r /\
    forall x, x ∈ r <-> Forall (fun k => x ∈ k) [[1; 2; 3; 5; 9]; [2; 3; 9; 11]; [2; 9]].
Proof.
  apply Intersect_spec; [|done]. assert (HB : Bound32 (2 ^ 32)) by (unfold Bound32; lia).
  repeat apply Forall2_cons_2; [..|apply Forall2_nil_2]; apply resumes_denotes.
  - apply resumes_list; [apply _|decided].
  - apply resumes_bytes; [done|decided].
  - apply resumes_list; [apply _|decided].
Defined.

Lemma Merge_spec_witness :
  let its := [of_list [1; 5; 9]; of_list [2; 5]; of_err emptyPostings] in
  exists r, resumes (2 ^ 64) (Merge its) r /\ Expand (Merge its) = (r, None) /\ incr r /\
    forall x, x ∈ r <-> Exists (fun k => x ∈ k) [[1; 5; 9]; [2; 5]; []].
Proof.
  assert (HB : PosBound (2 ^ 64)) by (unfold PosBound; lia). apply Merge_spec; [done|].
  repeat apply Forall2_cons_2; [..|apply Forall2_nil_2];
    [apply resumes_list; [done|decided]|apply resumes_list; [done|decided]|by apply resumes_err].
Defined.

Lemma Without_spec_witness :
  let full := of_list [1; 2; 5; 9] in let drop := of_list [2; 3; 9] in
  denotes (2 ^ 64) (Without full drop) (filter (fun x => x ∉ [2; 3; 9]) [1; 2; 5; 9]) /\
  Expand (Without full drop) = (filter (fun x => x ∉ [2; 3; 9]) [1; 2; 5; 9], None).
Proof.
  assert (HB : PosBound (2 ^ 64)) by (unfold PosBound; lia).
  apply Without_spec; apply resumes_list; (done || decided).
Defined.

(** [bigEndianPostings.Seek] compares with its argument truncated to 32
    bits: sought for a value past 2^32 it stops at an entry smaller than the
    value, although the interface promises that value or a greater one. *)
Theorem be_Seek_truncates :
  exists l x s', be_Seek (newBigEndianPostings (mjoin (PutUint32 <$> l))) x = (true, s') /\ p_At s' < x /\
    incr l /\ is_u64 x.
Proof.
  exists [5; 7], (2 ^ 32 + 6). eexists. split; [by vm_compute|]. split; [decided|].
  split; decided.
Qed.
