(* ===== verification/MemPostings.v ===== *)
(** index/postings.go, [MemPostings]: the in-memory postings lists of the head. *)
From S2P Require Import Prelude Order Labels Postings PostingsSpec.
#[local] Open Scope list_scope.
#[local] Open Scope Z_scope.

(** * State and operations *)

(** [allPostingsKey], the key of the list of every id. *)
Definition allPostingsKey : Label := (EmptyString, EmptyString).
Definition AllPostingsKey : string * string := allPostingsKey.

Record MemPostings := mkMemPostings { mp_m : gmap (string * string) (list Z); mp_ordered : bool }.

Definition NewMemPostings : MemPostings := mkMemPostings ∅ true.
Definition NewUnorderedMemPostings : MemPostings := mkMemPostings ∅ false.

(** [p.m[l]]; a missing key is a nil slice. *)
Definition mp_list (p : MemPostings) (l : Label) : list Z := default [] (mp_m p !! l).

(** [keys] is the map's iteration order. *)
Definition SortedKeys (keys : list Label) : list Label := sort_by id (pair_cmp str_cmp str_cmp) keys.

(** No list that is stored is nil: [Add] appends before storing, [Delete]
    removes a key whose list becomes empty. *)
Definition mp_Get (p : MemPostings) (name value : string) : Postings :=
  match mp_m p !! (name, value) with
  | None => of_err EmptyPostings
  | Some l => of_list l
  end.

Definition mp_All (p : MemPostings) : Postings :=
  mp_Get p (fst AllPostingsKey) (snd AllPostingsKey).

(** The workers sort the lists one by one, each by exactly one of them. *)
Definition EnsureOrder (p : MemPostings) : MemPostings :=
  if mp_ordered p then p
  else mkMemPostings (sort_by id Z.compare <$> mp_m p) true.

(** [for i := len(list) - 1; i >= 1; i--]: swap until in order. *)
Fixpoint repair (i : nat) (ls : list Z) : list Z :=
  match i with
  | O => ls
  | S j =>
      match ls !! i, ls !! j with
      | Some x, Some y => if y <=? x then ls else repair j (<[i := y]> (<[j := x]> ls))
      | _, _ => ls
      end
  end.

Definition addFor (id : Z) (l : Label) (p : MemPostings) : MemPostings :=
  let list := mp_list p l ++ [id] in
  if negb (mp_ordered p) then mkMemPostings (<[l := list]> (mp_m p)) (mp_ordered p)
  else mkMemPostings (<[l := repair (length list - 1) list]> (mp_m p)) (mp_ordered p).

Definition mp_Add (id : Z) (lset : Labels) (p : MemPostings) : MemPostings :=
  addFor id allPostingsKey (foldl (fun p l => addFor id l p) p lset).

(** The body of the loop over the keys collected beforehand. *)
Definition delete_key (deleted : gset Z) (p : MemPostings) (l : Label) : MemPostings :=
  let found := existsb (fun id => bool_decide (id ∈ deleted)) (mp_list p l) in
  if negb found then p
  else
    let repl := filter (fun id => id ∉ deleted) (mp_list p l) in
    if (0 <? length repl)%nat then mkMemPostings (<[l := repl]> (mp_m p)) (mp_ordered p)
    else mkMemPostings (delete l (mp_m p)) (mp_ordered p).

(** [keys] is the map's iteration order. *)
Definition mp_Delete (keys : list Label) (deleted : gset Z) (p : MemPostings) : MemPostings :=
  foldl (delete_key deleted) p keys.

(** [Iter] with a callback that may stop with an error. *)
Fixpoint mp_Iter {S} (order : list (Label * list Z)) (f : S -> Label -> Postings -> res S) (s : S) : res S :=
  match order with
  | [] => Ok s
  | (l, p) :: order => let? s := f s l (of_list p) in mp_Iter order f s
  end.

Example add_example :
  mp_list (mp_Add 3 [("a", "1")]%string (mp_Add 5 [("a", "1")]%string NewMemPostings)) ("a", "1")%string = [3; 5].
Proof. by vm_compute. Qed.

(** * Proofs: inserting in order *)

Abbreviation sorted := (StronglySorted Z.le).

Lemma sorted_app l1 l2 :
  sorted (l1 ++ l2) <-> sorted l1 /\ sorted l2 /\ Forall (fun x => Forall (Z.le x) l2) l1.
Proof.
  induction l1 as [|x l1 IH]; cbn.
  - split; [intros; split_and!; auto; constructor|tauto].
  - split.
    + intros [Hs Hx]%StronglySorted_inv. apply IH in Hs as (? & ? & ?).
      apply Forall_app in Hx as [? ?]. split_and!; [by constructor|done|by constructor].
    + intros ([Hs Hx]%StronglySorted_inv & ? & Hc). inversion Hc; subst.
      constructor; [by apply IH|]. by apply Forall_app.
Qed.

(** [l1 ++ l2] is in order, [x] belongs before all of [l2]: the loop moves it
    down to its place in [l1]. *)
Lemma repair_spec l1 x l2 :
  sorted (l1 ++ l2) -> Forall (Z.le x) l2 ->
  sorted (repair (length l1) (l1 ++ x :: l2)) /\ repair (length l1) (l1 ++ x :: l2) ≡ₚ x :: l1 ++ l2.
Proof.
  revert l2. induction l1 as [|y l1 IH] using rev_ind; intros l2 Hs Hx; cbn [length repair].
  { split; [by constructor|done]. }
  rewrite length_app, Nat.add_1_r. cbn [repair].
  assert (E1 : ((l1 ++ [y]) ++ x :: l2) !! S (length l1) = Some x).
  { apply list_lookup_middle. rewrite length_app. cbn. lia. }
  assert (E2 : ((l1 ++ [y]) ++ x :: l2) !! length l1 = Some y).
  { rewrite <- (assoc_L (++)). by apply list_lookup_middle. }
  rewrite E1, E2. destruct (Z.leb_spec y x) as [Hyx|Hyx].
  - split; [|by rewrite Permutation_middle].
    apply sorted_app in Hs as (Hs1 & Hs2 & Hc). apply sorted_app. split_and!; [done|by constructor|].
    apply Forall_app in Hc as [Hc1 Hcy]. apply sorted_app in Hs1 as (_ & _ & Hy).
    apply Forall_app. split.
    + apply Forall_forall. intros z Hz. rewrite Forall_forall in Hc1, Hy.
      pose proof (Forall_inv (Hy z Hz)). constructor; [cbn in *; lia|by apply Hc1].
    + pose proof (Forall_inv Hcy). by repeat constructor.
  - assert (<[S (length l1) := y]> (<[length l1 := x]> ((l1 ++ [y]) ++ x :: l2)) = l1 ++ x :: y :: l2) as ->.
    { rewrite <- !(assoc_L (++)). cbn [app].
      rewrite <- (Nat.add_0_r (length l1)) at 2. rewrite insert_app_r. cbn.
      replace (S (length l1)) with (length l1 + 1)%nat by lia. by rewrite insert_app_r. }
    rewrite <- (assoc_L (++)) in Hs. cbn [app] in Hs.
    destruct (IH (y :: l2)) as [Hs' Hp']; [done|constructor; [lia|done]|].
    split; [done|]. rewrite Hp', <- (assoc_L (++)). done.
Qed.

Lemma repair_append l x :
  sorted l -> sorted (repair (length (l ++ [x]) - 1) (l ++ [x])) /\
    repair (length (l ++ [x]) - 1) (l ++ [x]) ≡ₚ x :: l.
Proof.
  intros Hl. rewrite length_app. cbn [length]. rewrite Nat.add_sub.
  pose proof (repair_spec l x []) as Hr. rewrite app_nil_r in Hr. apply Hr; [done|constructor].
Qed.

(** * Proofs: the invariant and the contents *)

(** Once ordered, every list is; and no stored list is empty. *)
Definition mp_inv (p : MemPostings) : Prop :=
  forall l list, mp_m p !! l = Some list -> list <> [] /\ (mp_ordered p = true -> sorted list).

Lemma mp_Get_list p n v : mp_list p (n, v) <> [] -> mp_Get p n v = of_list (mp_list p (n, v)).
Proof.
  unfold mp_Get, mp_list. intros Hl. by change (mp_m p !! ((n, v) : Label)) with (mp_m p !! (n, v)) in *; destruct (mp_m p !! (n, v)).
Qed.

Lemma mp_list_sorted p l : mp_inv p -> mp_ordered p = true -> sorted (mp_list p l).
Proof.
  intros Hp Ho. unfold mp_list. destruct (mp_m p !! l) as [list|] eqn:E; [by apply (Hp l)|constructor].
Qed.

Lemma addFor_inv id l p : mp_inv p -> mp_inv (addFor id l p).
Proof.
  intros Hp k list. unfold addFor. destruct (mp_ordered p) eqn:Eo; cbn [negb mp_m mp_ordered].
  - intros [[<- <-]|[? Hk]]%lookup_insert_Some; [|destruct (Hp _ _ Hk); split; [done|by auto]].
    destruct (repair_append (mp_list p l) id) as [Hs Hperm]; [by apply mp_list_sorted|].
    split; [|done]. intros E. rewrite E in Hperm. by apply Permutation_nil_l in Hperm.
  - intros [[<- <-]|[? Hk]]%lookup_insert_Some; [|destruct (Hp _ _ Hk); split; [done|by auto]].
    split; [by destruct (mp_list p l)|done].
Qed.

Lemma addFor_ordered id l p : mp_ordered (addFor id l p) = mp_ordered p.
Proof. unfold addFor. by destruct (negb _). Qed.

Lemma addFor_list id l p k :
  mp_inv p -> mp_list (addFor id l p) k ≡ₚ if decide (l = k) then id :: mp_list p k else mp_list p k.
Proof.
  intros Hp. unfold addFor. case_decide as E.
  - subst k. destruct (mp_ordered p) eqn:Eo; cbn [negb]; unfold mp_list at 1; cbn [mp_m];
      rewrite lookup_insert_eq; cbn.
    + apply repair_append. by apply mp_list_sorted.
    + by rewrite Permutation_app_comm.
  - destruct (negb _); unfold mp_list at 1; cbn [mp_m]; by rewrite lookup_insert_ne.
Qed.

Lemma foldl_addFor_inv id lset p : mp_inv p -> mp_inv (foldl (fun p l => addFor id l p) p lset).
Proof. revert p. induction lset as [|l lset IH]; intros p Hp; [done|]. by apply IH, addFor_inv. Qed.

Lemma Add_inv id lset p : mp_inv p -> mp_inv (mp_Add id lset p).
Proof. intros Hp. by apply addFor_inv, foldl_addFor_inv. Qed.

Lemma Add_ordered id lset p : mp_ordered (mp_Add id lset p) = mp_ordered p.
Proof.
  unfold mp_Add. rewrite addFor_ordered. revert p. induction lset as [|l lset IH]; intros p; [done|].
  cbn [foldl]. by rewrite IH, addFor_ordered.
Qed.

(** [id] is added once for each occurrence of the key. *)
Lemma Add_list id lset p k :
  mp_inv p ->
  mp_list (mp_Add id lset p) k ≡ₚ
    replicate (length (filter (fun l => l = k) (allPostingsKey :: lset))) id ++ mp_list p k.
Proof.
  intros Hp. unfold mp_Add. rewrite addFor_list by by apply foldl_addFor_inv.
  assert (Hf : mp_list (foldl (fun p l => addFor id l p) p lset) k ≡ₚ
    replicate (length (filter (fun l => l = k) lset)) id ++ mp_list p k).
  { revert p Hp. induction lset as [|l lset IH]; intros p Hp; [done|]. cbn [foldl].
    rewrite IH by by apply addFor_inv. rewrite filter_cons, addFor_list by done. case_decide; [|done].
    cbn [length replicate app]. by rewrite Permutation_middle. }
  rewrite filter_cons. case_decide; by rewrite Hf.
Qed.

Lemma delete_key_inv D p l : mp_inv p -> mp_inv (delete_key D p l).
Proof.
  intros Hp k list. unfold delete_key. destruct (negb _); [by apply Hp|].
  destruct (Nat.ltb_spec 0 (length (filter (fun id => id ∉ D) (mp_list p l)))) as [Hlen|_]; cbn [mp_m mp_ordered].
  - intros [[<- <-]|[? Hk]]%lookup_insert_Some; [|by apply Hp in Hk]. split.
    + intros E. rewrite E in Hlen. cbn in Hlen. lia.
    + intros Ho. pose proof (mp_list_sorted p l Hp Ho) as Hs. clear Hlen.
      induction Hs as [|x r _ IH Hx]; [constructor|]. rewrite filter_cons. case_decide; [|done].
      constructor; [done|].
      apply Forall_forall. intros y [_ Hy]%list_elem_of_filter. rewrite Forall_forall in Hx. by apply Hx.
  - intros [? Hk]%lookup_delete_Some. by apply Hp in Hk.
Qed.

Lemma delete_key_list D p l k :
  mp_list (delete_key D p l) k =
    if decide (l = k) then filter (fun id => id ∉ D) (mp_list p k) else mp_list p k.
Proof.
  unfold delete_key. destruct (existsb _ _) eqn:Ef; cbn [negb].
  - destruct (Nat.ltb_spec 0 (length (filter (fun id => id ∉ D) (mp_list p l)))) as [Hlen|Hlen]; case_decide as E.
    + subst. unfold mp_list at 1. cbn [mp_m]. by rewrite lookup_insert_eq.
    + unfold mp_list at 1. cbn [mp_m]. by rewrite lookup_insert_ne.
    + subst. unfold mp_list at 1. cbn [mp_m]. rewrite lookup_delete_eq. cbn.
      destruct (filter _ _); [done|cbn in Hlen; lia].
    + unfold mp_list at 1. cbn [mp_m]. by rewrite lookup_delete_ne.
  - case_decide as E; [subst|done]. symmetry. apply filter_all, Forall_forall. intros x Hx HD.
    assert (existsb (fun id => bool_decide (id ∈ D)) (mp_list p k) = true) as Ht; [|congruence].
    apply existsb_exists. exists x. split; [by apply list_elem_of_In|by apply bool_decide_eq_true].
Qed.

Lemma Delete_inv D keys p : mp_inv p -> mp_inv (mp_Delete keys D p).
Proof. revert p. induction keys as [|l keys IH]; intros p Hp; [done|]. by apply IH, delete_key_inv. Qed.

Lemma Delete_list D keys p k :
  (forall l, is_Some (mp_m p !! l) -> l ∈ keys) ->
  mp_list (mp_Delete keys D p) k = filter (fun id => id ∉ D) (mp_list p k).
Proof.
  intros Hk. assert (Hgen : forall p, mp_list (mp_Delete keys D p) k =
    if decide (k ∈ keys) then filter (fun id => id ∉ D) (mp_list p k) else mp_list p k).
  { clear. unfold mp_Delete. induction keys as [|l keys IH]; intros p; cbn [foldl].
    - by rewrite decide_False by apply not_elem_of_nil.
    - rewrite IH, delete_key_list. destruct (decide (l = k)) as [->|Hne].
      + rewrite (decide_True (P := k ∈ k :: keys)) by left. case_decide; [|done].
        rewrite list_filter_filter_r by done. done.
      + destruct (decide (k ∈ keys)); [by rewrite decide_True by by right|].
        rewrite decide_False; [done|]. by rewrite elem_of_cons; intros [|]. }
  rewrite Hgen. case_decide as Hin; [done|]. unfold mp_list.
  destruct (mp_m p !! k) eqn:E; [|done]. exfalso. apply Hin, Hk. by eexists.
Qed.

Lemma EnsureOrder_inv p : mp_inv p -> mp_inv (EnsureOrder p).
Proof.
  intros Hp. unfold EnsureOrder. destruct (mp_ordered p); [done|]. intros l list. cbn [mp_m mp_ordered].
  rewrite lookup_fmap. intros (list' & Hl & ->)%fmap_Some. split.
  - intros E. apply (Hp l) in Hl as [Hne _]. apply Hne.
    pose proof (sort_by_perm id Z.compare list') as Hperm. rewrite E in Hperm. by apply Permutation_nil_l in Hperm.
  - intros _. eapply StronglySorted_weaken; [|apply (sort_by_sorted id Z.compare)].
    intros x y Hxy. exact Hxy.
Qed.

Lemma EnsureOrder_list p k : mp_list (EnsureOrder p) k ≡ₚ mp_list p k.
Proof.
  unfold EnsureOrder. destruct (mp_ordered p); [done|]. unfold mp_list. cbn [mp_m].
  rewrite lookup_fmap. destruct (mp_m p !! k); cbn; [apply sort_by_perm|done].
Qed.

(** * Properties *)

(** A use of the index: fills, the switch to ordered, and deletes (with the
    order in which the map is iterated). *)
Inductive mp_op :=
| OpAdd (id : Z) (lset : Labels)
| OpEnsureOrder
| OpDelete (deleted : gset Z).

(** The specification: the multiset of the ids under each key. *)
Definition spec_op (s : Label -> list Z) (o : mp_op) : Label -> list Z :=
  match o with
  | OpAdd id lset => fun k => replicate (length (filter (fun l => l = k) (allPostingsKey :: lset))) id ++ s k
  | OpEnsureOrder => s
  | OpDelete deleted => fun k => filter (fun id => id ∉ deleted) (s k)
  end.

Inductive mp_step : MemPostings -> mp_op -> MemPostings -> Prop :=
| step_add p id lset : mp_step p (OpAdd id lset) (mp_Add id lset p)
| step_ensure p : mp_step p OpEnsureOrder (EnsureOrder p)
| step_delete p D keys :
    keys ≡ₚ (map_to_list (mp_m p)).*1 -> mp_step p (OpDelete D) (mp_Delete keys D p).

Inductive mp_run : MemPostings -> list mp_op -> MemPostings -> Prop :=
| run_nil p : mp_run p [] p
| run_cons p o p' os p'' : mp_step p o p' -> mp_run p' os p'' -> mp_run p (o :: os) p''.

Lemma mp_step_sound p o p' s :
  mp_step p o p' -> mp_inv p -> (forall k, mp_list p k ≡ₚ s k) ->
  mp_inv p' /\ (forall k, mp_list p' k ≡ₚ spec_op s o k) /\ (mp_ordered p = true -> mp_ordered p' = true).
Proof.
  intros Hstep Hp Hs. destruct Hstep as [p id lset|p|p D keys Hkeys]; cbn [spec_op].
  - split_and!; [by apply Add_inv| |by rewrite Add_ordered]. intros k. by rewrite Add_list, Hs.
  - split_and!; [by apply EnsureOrder_inv| |].
    + intros k. by rewrite EnsureOrder_list, Hs.
    + unfold EnsureOrder. by destruct (mp_ordered p) eqn:E.
  - split_and!; [by apply Delete_inv| |].
    + intros k. rewrite Delete_list; [by rewrite Hs|]. intros l [list Hl]. rewrite Hkeys.
      apply list_elem_of_fmap. exists (l, list). split; [done|]. by apply elem_of_map_to_list.
    + intros Ho. unfold mp_Delete. clear Hkeys Hp Hs. revert p Ho. induction keys as [|l keys IH]; intros p Ho; [done|].
      apply IH. unfold delete_key. destruct (negb _); [done|]. by destruct (_ <? _)%nat.
Qed.

(** C40: whatever is added to and deleted from the in-memory postings, in any
    order of operations, the list under a key holds exactly the ids added with
    that label (or any label, for the key of all ids) and not deleted since;
    and once the postings are ordered, every list handed to readers is sorted,
    though ids may arrive out of order. *)
Theorem MemPostings_correct (ordered : bool) (os : list mp_op) (p : MemPostings) :
  mp_run (mkMemPostings ∅ ordered) os p ->
  (forall k, mp_list p k ≡ₚ foldl spec_op (fun _ => []) os k) /\
  (ordered = true \/ OpEnsureOrder ∈ os -> forall k, sorted (mp_list p k)).
Proof.
  intros Hrun.
  enough (Hgen : forall p0 s, mp_run p0 os p -> mp_inv p0 -> (forall k, mp_list p0 k ≡ₚ s k) ->
    mp_inv p /\ (forall k, mp_list p k ≡ₚ foldl spec_op s os k) /\
    (mp_ordered p0 = true \/ OpEnsureOrder ∈ os -> mp_ordered p = true)).
  { destruct (Hgen _ (fun _ => []) Hrun) as (Hp & Hl & Ho); [intros l list Hl; cbn [mp_m] in Hl; by apply lookup_empty_Some in Hl|done|].
    split; [done|]. intros Hor k. apply mp_list_sorted; [done|]. by apply Ho. }
  clear Hrun. induction os as [|o os IH]; intros p0 s Hrun Hp0 Hs0; inversion Hrun as [|? ? p1 ? ? Hstep Hrun']; subst.
  - split_and!; [done|done|]. intros [?|?%not_elem_of_nil]; done.
  - destruct (mp_step_sound _ _ _ s Hstep Hp0 Hs0) as (Hp1 & Hs1 & Ho1).
    destruct (IH p1 _ Hrun' Hp1 Hs1) as (Hp & Hl & Ho). split_and!; [done|done|].
    intros [?|[<-|?]%elem_of_cons]; apply Ho; [by left; apply Ho1| |by right].
    left. inversion Hstep; subst. unfold EnsureOrder. by destruct (mp_ordered p0) eqn:E.
Qed.

(** Ids arrive out of order, the postings are ordered, one id is deleted. *)
Definition sample_ops : list mp_op :=
  let ls := [("a", "1")]%string in
  [OpAdd 5 ls; OpAdd 3 ls; OpEnsureOrder; OpDelete {[5]}; OpAdd 2 ls].
Definition sample_before : MemPostings :=
  let ls := [("a", "1")]%string in EnsureOrder (mp_Add 3 ls (mp_Add 5 ls NewUnorderedMemPostings)).
Definition sample_after : MemPostings :=
  mp_Add 2 [("a", "1")]%string (mp_Delete (map_to_list (mp_m sample_before)).*1 {[5]} sample_before).

Lemma MemPostings_correct_witness :
  mp_run NewUnorderedMemPostings sample_ops sample_after /\
  (forall k, mp_list sample_after k ≡ₚ foldl spec_op (fun _ => []) sample_ops k) /\
  (forall k, sorted (mp_list sample_after k)) /\ mp_list sample_after ("a", "1")%string = [2; 3].
Proof.
  assert (Hrun : mp_run NewUnorderedMemPostings sample_ops sample_after).
  { eapply run_cons; [apply step_add|]. eapply run_cons; [apply step_add|].
    eapply run_cons; [apply step_ensure|]. eapply run_cons; [by apply step_delete|].
    eapply run_cons; [apply step_add|]. apply run_nil. }
  destruct (MemPostings_correct false sample_ops sample_after Hrun) as [Hl Hs].
  split; [exact Hrun|]. split; [exact Hl|]. split; [|by vm_compute].
  apply Hs. right. unfold sample_ops. do 2 right. left.
Defined.
