(* ===== verification/XorChunk.v ===== *)
(** chunkenc/xor.go and chunkenc/chunk.go: the XOR chunk, its appender and its
    iterator, and the chunk pool.  The main result is that iterating over a
    chunk gives back the samples appended to it. *)
From S2P Require Import Prelude Bits BitStream Varint.
#[local] Open Scope Z_scope.

(** A float64 is its bit pattern: [math.Float64bits] and [math.Float64frombits]
    are the identity, and the code never computes with the value. *)
Definition float64 : Type := Z.
Definition Float64bits (v : float64) : Z := v.
Definition Float64frombits (b : Z) : float64 := b.

Definition sample : Type := Z * float64.

(** XORChunk holds XOR encoded sample data. *)
Record XORChunk := mk_XORChunk { cb : bstream }.

(** [make([]byte, 2, 128)]. *)
Definition NewXORChunk : XORChunk := mk_XORChunk (mk_bstream [0; 0] 0).

(** chunkenc.Encoding: EncNone = 0 and EncXOR = 1. *)
Definition EncNone : Z := 0.
Definition EncXOR : Z := 1.

Definition Encoding_String (e : Z) : string :=
  if e =? EncNone then "none" else if e =? EncXOR then "XOR" else "<unknown>".

Definition Encoding (c : XORChunk) : Z := EncXOR.
Definition Bytes (c : XORChunk) : list Z := bytes (cb c).
Definition NumSamples (c : XORChunk) : res Z := Uint16 (Bytes c).

(** The only chunk implementation is XORChunk: the Chunk interface is this type. *)
Definition FromData (e : Z) (d : list Z) : res XORChunk :=
  if e =? EncXOR then Ok (mk_XORChunk (mk_bstream d 0))
  else Err (ErrMsg "unknown chunk encoding").

(** The appender; [ab] is the chunk's own stream, which it mutates: after an
    append the chunk is [mk_XORChunk (ab a)]. *)
Record xorAppender := mk_xorAppender {
  ab : bstream; at_ : Z; av : float64; atDelta : Z; aleading : Z; atrailing : Z }.

Definition achunk (a : xorAppender) : XORChunk := mk_XORChunk (ab a).

Definition a_write (a : xorAppender) (b : bstream) : xorAppender :=
  mk_xorAppender b (at_ a) (av a) (atDelta a) (aleading a) (atrailing a).

(** * math/bits *)

Definition LeadingZeros64 (x : Z) : Z := if x =? 0 then 64 else 63 - Z.log2 x.

Fixpoint trailing_zeros (fuel : nat) (x : Z) : Z :=
  match fuel with
  | O => 0
  | S fuel => if Z.odd x then 0 else 1 + trailing_zeros fuel (shrU x 1)
  end.
Definition TrailingZeros64 (x : Z) : Z := trailing_zeros 64 x.

(** * Appending *)

Definition bitRange (x nbits : Z) : bool :=
  (- (Z.shiftl 1 (nbits - 1) - 1) <=? x) && (x <=? Z.shiftl 1 (nbits - 1)).

Definition writeBytes (b : bstream) (l : list Z) : bstream := foldl writeByte b l.

Definition writeVDelta (a : xorAppender) (v : float64) : xorAppender :=
  let vDelta := Z.lxor (Float64bits v) (Float64bits (av a)) in
  if vDelta =? 0 then a_write a (writeBit (ab a) zero)
  else
    let a := a_write a (writeBit (ab a) one) in
    let leading := u8 (LeadingZeros64 vDelta) in
    let trailing := u8 (TrailingZeros64 vDelta) in
    let leading := if 32 <=? leading then 31 else leading in
    if negb (aleading a =? 255) && (aleading a <=? leading) && (atrailing a <=? trailing) then
      let b := writeBit (ab a) zero in
      a_write a (writeBits b (shrU vDelta (atrailing a)) (64 - aleading a - atrailing a))
    else
      let b := writeBit (ab a) one in
      let b := writeBits b leading 5 in
      let sigbits := u8 (64 - leading - trailing) in
      let b := writeBits b sigbits 6 in
      let b := writeBits b (shrU vDelta trailing) sigbits in
      mk_xorAppender b (at_ a) (av a) (atDelta a) leading trailing.

(** The delta-of-delta of the third and later samples. *)
Definition writeDod (b : bstream) (dod : Z) : bstream :=
  if dod =? 0 then writeBit b zero
  else if bitRange dod 14 then writeBits (writeBits b 2 2) (u64 dod) 14
  else if bitRange dod 17 then writeBits (writeBits b 6 3) (u64 dod) 17
  else if bitRange dod 20 then writeBits (writeBits b 14 4) (u64 dod) 20
  else writeBits (writeBits b 15 4) (u64 dod) 64.

(** [binary.BigEndian.PutUint16(a.b.bytes(), num)]. *)
Definition put_num (b : bstream) (num : Z) : bstream :=
  mk_bstream (PutUint16 num ++ drop 2 (stream b)) (count b).

Definition Append (a : xorAppender) (t : Z) (v : float64) : res xorAppender :=
  let? num := Uint16 (bytes (ab a)) in
  let '(a', tDelta) :=
    if num =? 0 then
      let b := writeBytes (ab a) (PutVarint t) in
      (a_write a (writeBits b (Float64bits v) 64), 0)
    else if num =? 1 then
      let tDelta := u64 (t - at_ a) in
      let b := writeBytes (ab a) (PutUvarint tDelta) in
      (writeVDelta (a_write a b) v, tDelta)
    else
      let tDelta := u64 (t - at_ a) in
      let dod := i64 (tDelta - atDelta a) in
      (writeVDelta (a_write a (writeDod (ab a) dod)) v, tDelta) in
  Ok (mk_xorAppender (put_num (ab a') (u16 (num + 1))) t v tDelta (aleading a') (atrailing a')).

(** * Iterating *)

Record xorIterator := mk_xorIterator {
  br : bstream; numTotal : Z; numRead : Z;
  it_t : Z; it_val : float64; it_leading : Z; it_trailing : Z;
  it_tDelta : Z; it_err : option error }.

Definition it_br (it : xorIterator) (b : bstream) : xorIterator :=
  mk_xorIterator b (numTotal it) (numRead it) (it_t it) (it_val it) (it_leading it)
    (it_trailing it) (it_tDelta it) (it_err it).
Definition it_fail (it : xorIterator) (e : error) : xorIterator :=
  mk_xorIterator (br it) (numTotal it) (numRead it) (it_t it) (it_val it) (it_leading it)
    (it_trailing it) (it_tDelta it) (Some e).
Definition it_time (it : xorIterator) (t tDelta : Z) : xorIterator :=
  mk_xorIterator (br it) (numTotal it) (numRead it) t (it_val it) (it_leading it)
    (it_trailing it) tDelta (it_err it).
Definition it_window (it : xorIterator) (leading trailing : Z) : xorIterator :=
  mk_xorIterator (br it) (numTotal it) (numRead it) (it_t it) (it_val it) leading trailing
    (it_tDelta it) (it_err it).
(** A value read: [it.val = val; it.numRead++]. *)
Definition it_value (it : xorIterator) (val : float64) : xorIterator :=
  mk_xorIterator (br it) (numTotal it) (u16 (numRead it + 1)) (it_t it) val (it_leading it)
    (it_trailing it) (it_tDelta it) (it_err it).

Instance bstream_reader : ByteReader bstream := ReadByte.

(** A read on the iterator's stream followed by [k]; an error is recorded in
    [it.err] and ends the call with false. *)
Definition it_read {A} (it : xorIterator) (r : res A * bstream)
    (k : xorIterator -> A -> res bool * xorIterator) : res bool * xorIterator :=
  match r with
  | (Ok a, b) => k (it_br it b) a
  | (Err e, b) => (Ok false, it_fail (it_br it b) e)
  | (Panic, b) => (Panic, it_br it b)
  end.

Definition iterator (c : XORChunk) : res xorIterator :=
  let? n := Uint16 (Bytes c) in
  Ok (mk_xorIterator (newBReader (drop 2 (Bytes c))) n 0 0 (Float64frombits 0) 0 0 0 None).

Definition Iterator (c : XORChunk) : res xorIterator := iterator c.

Definition xor_At (it : xorIterator) : sample := (it_t it, it_val it).
Definition xor_Err (it : xorIterator) : option error := it_err it.

(** The value bits once [it.leading] and [it.trailing] are known. *)
Definition read_significant (it : xorIterator) : res bool * xorIterator :=
  let mbits := u8 (64 - it_leading it - it_trailing it) in
  it_read it (readBits (br it) mbits) (fun it bits =>
    let vbits := Z.lxor (Float64bits (it_val it)) (shlU 64 bits (it_trailing it)) in
    (Ok true, it_value it (Float64frombits vbits))).

Definition readValue (it : xorIterator) : res bool * xorIterator :=
  it_read it (readBit (br it)) (fun it bit =>
    if bit then
      it_read it (readBit (br it)) (fun it bit =>
        if bit then
          it_read it (readBits (br it) 5) (fun it bits =>
            let leading := u8 bits in
            let it := it_window it leading (it_trailing it) in
            it_read it (readBits (br it) 6) (fun it bits =>
              let mbits := u8 bits in
              let mbits := if mbits =? 0 then 64 else mbits in
              read_significant (it_window it leading (u8 (64 - leading - mbits)))))
        else read_significant it)
    else (Ok true, it_value it (it_val it))).

(** The prefix code of the delta-of-delta: up to four bits, up to the first 0. *)
Fixpoint read_prefix (fuel : nat) (it : xorIterator) (d : Z)
    (k : xorIterator -> Z -> res bool * xorIterator) : res bool * xorIterator :=
  match fuel with
  | O => k it d
  | S fuel =>
      let d := shlU 8 d 1 in
      it_read it (readBit (br it)) (fun it bit =>
        if bit then read_prefix fuel it (Z.lor d 1) k else k it d)
  end.

(** The last part of [Next]: the time of the sample, then its value. *)
Definition next_dod (it : xorIterator) (dod : Z) : res bool * xorIterator :=
  let tDelta := u64 (i64 (it_tDelta it) + dod) in
  readValue (it_time it (i64 (it_t it + i64 tDelta)) tDelta).

Definition next_sized (it : xorIterator) (sz : Z) : res bool * xorIterator :=
  it_read it (readBits (br it) sz) (fun it bits =>
    let bits := if shlU 64 1 (sz - 1) <? bits then u64 (bits - shlU 64 1 sz) else bits in
    next_dod it (i64 bits)).

(** The switch on the prefix [d]. *)
Definition next_after_prefix (it : xorIterator) (d : Z) : res bool * xorIterator :=
  if d =? 2 then next_sized it 14
  else if d =? 6 then next_sized it 17
  else if d =? 14 then next_sized it 20
  else if d =? 15 then
    it_read it (readBits (br it) 64) (fun it bits => next_dod it (i64 bits))
  else next_dod it 0.

Definition xor_Next (it : xorIterator) : res bool * xorIterator :=
  if bool_decide (it_err it <> None) || (numRead it =? numTotal it) then (Ok false, it)
  else if numRead it =? 0 then
    it_read it (ReadVarint (br it)) (fun it t =>
      it_read it (readBits (br it) 64) (fun it v =>
        (Ok true, it_value (it_time it t (it_tDelta it)) (Float64frombits v))))
  else if numRead it =? 1 then
    it_read it (ReadUvarint (br it)) (fun it tDelta =>
      readValue (it_time it (i64 (it_t it + i64 tDelta)) tDelta))
  else read_prefix 4 it 0 next_after_prefix.

(** Calling [Next] and [At] until the end; the result has the samples and the
    final iterator.  [S n] rounds are enough for a chunk of [n] samples. *)
Fixpoint drain (fuel : nat) (it : xorIterator) : res (list sample) * xorIterator :=
  match fuel with
  | O => (Ok [], it)
  | S fuel =>
      match xor_Next it with
      | (Ok true, it) =>
          let '(r, it') := drain fuel it in (res_map (cons (xor_At it)) r, it')
      | (Ok false, it) => (Ok [], it)
      | (Err e, it) => (Err e, it)
      | (Panic, it) => (Panic, it)
      end
  end.

(** [for it.Next() {}] at the start of [Appender]: a uint16 counts the reads. *)
Definition Appender (c : XORChunk) : res xorAppender :=
  let? it := iterator c in
  let? _ := fst (drain (Z.to_nat (numTotal it) + 1) it) in
  let it := snd (drain (Z.to_nat (numTotal it) + 1) it) in
  match xor_Err it with
  | Some e => Err e
  | None =>
      let? num := Uint16 (Bytes c) in
      Ok (mk_xorAppender (cb c) (it_t it) (it_val it) (it_tDelta it)
            (if num =? 0 then 255 else it_leading it) (it_trailing it))
  end.

(** * The chunk pool *)

(** sync.Pool of the standard library hands out either an object put before or
    a new one; [get_pooled] is its choice.  [Get] overwrites both fields, so
    the choice cannot matter ([pool_Get_independent]). *)
Definition pool_Get (get_pooled : XORChunk) (e : Z) (b : list Z) : res XORChunk :=
  if e =? EncXOR then Ok (mk_XORChunk (mk_bstream b 0))
  else Err (ErrMsg "invalid encoding").

(** The object handed back to the pool: its stream is cleared. *)
Definition pool_Put (c : XORChunk) : res XORChunk :=
  if Encoding c =? EncXOR then Ok (mk_XORChunk (mk_bstream [] 0))
  else Err (ErrMsg "invalid encoding").

(** nopIterator. *)
Definition nop_At : sample := (0, 0).
Definition nop_Next : bool := false.
Definition nop_Err : option error := None.

Definition append_all (a : xorAppender) (l : list sample) : res xorAppender :=
  foldl (fun a s => let? a := a in Append a s.1 s.2) (Ok a) l.

Definition decode (c : XORChunk) : res (list sample) :=
  let? it := iterator c in fst (drain (Z.to_nat (numTotal it) + 1) it).

Example decode_example :
  (let? a := Appender NewXORChunk in
   let? a := append_all a [(1000, 42); (1015, 43); (1030, 43); (1046, 2^63 + 7); (900, 0)] in
   decode (achunk a)) = Ok [(1000, 42); (1015, 43); (1030, 43); (1046, 2^63 + 7); (900, 0)].
Proof. vm_compute. reflexivity. Qed.

(** * Proofs: the bits of a value *)

(** [x] fits between [l] leading and [t] trailing zeros of a 64-bit word. *)
Definition window_fits (x l t : Z) : Prop :=
  0 <= l /\ 0 <= t /\ l + t <= 63 /\ 0 <= x < 2 ^ (64 - l) /\ (2 ^ t | x).

Lemma leading_zeros_spec x :
  0 < x < 2 ^ 64 -> 0 <= LeadingZeros64 x <= 63 /\ x < 2 ^ (64 - LeadingZeros64 x).
Proof.
  intros ?. unfold LeadingZeros64. destruct (Z.eqb_spec x 0); [lia|].
  pose proof (Z.log2_spec x ltac:(lia)). pose proof (Z.log2_nonneg x).
  pose proof (Z.log2_lt_pow2 x 64 ltac:(lia)).
  split; [lia|]. replace (64 - (63 - Z.log2 x)) with (Z.succ (Z.log2 x)) by lia. lia.
Qed.

Lemma trailing_zeros_spec fuel x :
  0 < x < 2 ^ Z.of_nat fuel -> 0 <= trailing_zeros fuel x /\ (2 ^ trailing_zeros fuel x | x).
Proof.
  revert x. induction fuel as [|fuel IH]; intros x Hx; [simpl in Hx; lia|].
  cbn [trailing_zeros]. rewrite Nat2Z.inj_succ, Z.pow_succ_r in Hx by lia.
  destruct (Z.odd x) eqn:Ho; [split; [lia|apply Z.divide_1_l]|].
  rewrite Zodd_even_bool in Ho. apply negb_false_iff, Z.even_spec in Ho as [y ->].
  unfold shrU. rewrite Z.shiftr_div_pow2, Z.mul_comm, Z.div_mul by (cbn; lia).
  destruct (IH y) as [? Hd]; [lia|]. split; [lia|].
  rewrite Z.pow_add_r, Z.mul_comm by lia. by apply Z.mul_divide_mono_r.
Qed.

Lemma divide_pow2_mono x s t : 0 <= s <= t -> (2 ^ t | x) -> (2 ^ s | x).
Proof.
  intros ? Hd. etrans; [|done]. exists (2 ^ (t - s)). rewrite <- Z.pow_add_r by lia. f_equal. lia.
Qed.

Lemma window_fits_weaken x l t l' t' :
  window_fits x l t -> 0 <= l' <= l -> 0 <= t' <= t -> window_fits x l' t'.
Proof.
  intros (? & ? & ? & Hx & Hd) ??. split_and!; try lia.
  - eapply Z.lt_le_trans; [apply Hx|]. apply Z.pow_le_mono_r; lia.
  - by apply (divide_pow2_mono x t' t).
Qed.

Lemma window_of_zeros x :
  0 < x < 2 ^ 64 ->
  window_fits x (LeadingZeros64 x) (TrailingZeros64 x) /\ LeadingZeros64 x <= 63.
Proof.
  intros Hx. destruct (leading_zeros_spec x Hx) as [? ?].
  destruct (trailing_zeros_spec 64 x Hx) as [? Hd].
  fold (TrailingZeros64 x) in *. split; [|lia].
  assert (LeadingZeros64 x + TrailingZeros64 x <= 63); [|unfold window_fits; split_and!; (done || lia)].
  apply Z.divide_pos_le in Hd; [|lia].
  assert (TrailingZeros64 x < 64 - LeadingZeros64 x); [|lia].
  apply (Z.pow_lt_mono_r_iff 2); lia.
Qed.

Lemma shl_shr_window x l t : window_fits x l t -> shlU 64 (shrU x t) t = x.
Proof.
  intros (? & ? & ? & Hx & [y ->]). unfold shrU. rewrite Z.shiftr_div_pow2, Z.div_mul by lia.
  unfold shlU. destruct (Z.ltb_spec t 64); [|lia]. rewrite Z.shiftl_mul_pow2 by lia.
  apply wrapU_small. split; [lia|]. eapply Z.lt_le_trans; [apply Hx|]. apply Z.pow_le_mono_r; lia.
Qed.

Lemma shr_window_range x l t : window_fits x l t -> 0 <= shrU x t < 2 ^ (64 - l - t).
Proof.
  intros (? & ? & ? & Hx & _). unfold shrU. rewrite Z.shiftr_div_pow2 by lia.
  split; [apply Z.div_pos; lia|]. apply Z.div_lt_upper_bound; [lia|].
  rewrite <- Z.pow_add_r by lia. replace (t + (64 - l - t)) with (64 - l) by lia. lia.
Qed.

(** The encodings of the XOR [x] of two values, from window [l], [t]. *)
Inductive value_code (x l t : Z) : list bool -> Z -> Z -> Prop :=
| vc_same : x = 0 -> value_code x l t [false] l t
| vc_reuse :
    l <> 255 -> window_fits x l t ->
    value_code x l t ([true; false] ++ bits_be (Z.to_nat (64 - l - t)) (shrU x t)) l t
| vc_new l' t' :
    l' <= 31 -> window_fits x l' t' ->
    value_code x l t
      ([true; true] ++ bits_be 5 l' ++ bits_be 6 (64 - l' - t') ++
       bits_be (Z.to_nat (64 - l' - t')) (shrU x t')) l' t'.

(** A reachable appender: its window is a pair of counts, 255 meaning none yet. *)
Definition wf_appender (a : xorAppender) : Prop :=
  wf_writer (ab a) /\ 0 <= aleading a /\ 0 <= atrailing a.

Lemma wf_appender_intro b t v d l tr :
  wf_writer b -> 0 <= l -> 0 <= tr -> wf_appender (mk_xorAppender b t v d l tr).
Proof. done. Qed.

Lemma writeBit_wf b c : wf_writer b -> wf_writer (writeBit b c).
Proof. apply writeBit_spec. Qed.
Lemma writeBits_wf b u n : wf_writer b -> 0 <= n <= 64 -> wf_writer (writeBits b u n).
Proof. apply writeBits_refines. Qed.
Lemma wbits_writeBit b c : wf_writer b -> wbits (writeBit b c) = wbits b ++ [c].
Proof. apply writeBit_spec. Qed.
Lemma wbits_writeBits b u n :
  wf_writer b -> 0 <= n <= 64 -> wbits (writeBits b u n) = wbits b ++ bits_be (Z.to_nat n) u.
Proof. apply writeBits_refines. Qed.
#[local] Hint Resolve writeBit_wf : core.
#[local] Hint Extern 1 (wf_writer (writeBits _ _ _)) => apply writeBits_wf; [|lia] : core.
#[local] Hint Rewrite wbits_writeBit wbits_writeBits using (auto || lia) : wbits.

Lemma writeVDelta_spec a v :
  wf_appender a -> is_u64 v -> is_u64 (av a) ->
  exists bits, value_code (Z.lxor v (av a)) (aleading a) (atrailing a) bits
      (aleading (writeVDelta a v)) (atrailing (writeVDelta a v)) /\
    wf_appender (writeVDelta a v) /\
    wbits (ab (writeVDelta a v)) = wbits (ab a) ++ bits.
Proof.
  intros (Hb & Hl & Ht) Hv Hav. unfold writeVDelta, Float64bits.
  set (x := Z.lxor v (av a)).
  destruct (Z.eqb_spec x 0) as [Hx|Hx].
  { eexists. split; [by apply vc_same|]. split; [by apply wf_appender_intro; auto|].
    cbn [ab a_write].
    by autorewrite with wbits. }
  assert (Hx64 : is_u64 x) by (apply lxor_is_u; done).
  assert (0 < x < 2 ^ 64) as Hxr by (unfold is_u in Hx64; lia).
  destruct (window_of_zeros x Hxr) as [Hw Hlz]. pose proof Hw as (? & ? & ? & _).
  rewrite !u8_small by (unfold is_u; lia).
  set (lead := if 32 <=? LeadingZeros64 x then 31 else LeadingZeros64 x).
  assert (Hlead : 0 <= lead <= LeadingZeros64 x /\ lead <= 31)
    by (unfold lead; destruct (Z.leb_spec 32 (LeadingZeros64 x)); lia).
  clearbody lead.
  cbn [a_write ab aleading atrailing]. destruct (_ && _ && _) eqn:Ereuse.
  - apply andb_true_iff in Ereuse as [[He1%negb_true_iff%Z.eqb_neq He2%Z.leb_le]%andb_true_iff He3%Z.leb_le].
    cbn [a_write ab aleading atrailing]. eexists. split; [apply vc_reuse; [done|]|].
    + apply (window_fits_weaken _ _ _ _ _ Hw); lia.
    + split; [apply wf_appender_intro; cbn; auto|].
      cbn [ab a_write].
      autorewrite with wbits. by rewrite <- !app_assoc.
  - set (trail := TrailingZeros64 x) in *.
    rewrite (u8_small (64 - lead - trail)) by (unfold is_u; lia).
    cbn [a_write ab aleading atrailing].
    eexists. split; [apply (vc_new x _ _ lead trail); [lia|]|].
    + apply (window_fits_weaken _ _ _ _ _ Hw); lia.
    + split; [apply wf_appender_intro; [auto 8|lia..]|].
      cbn [ab].
      autorewrite with wbits. by rewrite <- !app_assoc.
Qed.

(** The window of the appender against the iterator's: equal once there is one,
    and until then still the iterator's initial one. *)
Definition same_window (l t il it : Z) : Prop :=
  (l = 255 /\ il = 0 /\ it = 0) \/ (l <> 255 /\ il = l /\ it = t).

Lemma it_read_ok {A} it (a : A) b k : it_read it (Ok a, b) k = k (it_br it b) a.
Proof. done. Qed.

Lemma read_significant_spec it l t x rest :
  it_leading it = l -> it_trailing it = t -> window_fits x l t ->
  live_reader (br it) ->
  rbits (br it) = bits_be (Z.to_nat (64 - l - t)) (shrU x t) ++ rest ->
  exists b', read_significant it = (Ok true, it_value (it_br it b') (Z.lxor (it_val it) x)) /\
    live_reader b' /\ rbits b' = rest.
Proof.
  intros <- <- Hw Hb E. pose proof Hw as (? & ? & ? & _).
  unfold read_significant. rewrite u8_small by (unfold is_u; lia).
  destruct (readBits_app _ (64 - it_leading it - it_trailing it) _ _ Hb ltac:(lia) E)
    as (b' & -> & ? & ?).
  exists b'. rewrite it_read_ok. split_and!; try done.
  pose proof (shr_window_range _ _ _ Hw).
  rewrite Z.mod_small by done. cbn. by rewrite (shl_shr_window _ _ _ Hw).
Qed.

Lemma readValue_spec it x l t bits l' t' rest :
  value_code x l t bits l' t' -> same_window l t (it_leading it) (it_trailing it) ->
  live_reader (br it) -> rbits (br it) = bits ++ rest ->
  exists b' il' it', readValue it =
      (Ok true, it_value (it_window (it_br it b') il' it') (Z.lxor (it_val it) x)) /\
    live_reader b' /\ rbits b' = rest /\ same_window l' t' il' it'.
Proof.
  intros Hc Hsame Hb E. unfold readValue.
  destruct Hc as [->|Hl Hw|l' t' Hl' Hw]; cbn [app] in E;
    destruct (readBit_app _ _ _ (live_wf _ Hb) E) as (b1 & -> & Hb1 & E1); rewrite it_read_ok.
  { exists b1, (it_leading it), (it_trailing it). rewrite Z.lxor_0_r. by destruct it. }
  all: cbn [br it_br]; destruct (readBit_app _ _ _ (live_wf _ Hb1) E1) as (b2 & -> & Hb2 & E2);
    rewrite it_read_ok.
  - destruct Hsame as [[? _]|(? & ? & ?)]; [done|].
    destruct (read_significant_spec (it_br (it_br it b1) b2) l t x rest) as (b3 & -> & ? & ?);
      [done..|]. exists b3, (it_leading it), (it_trailing it).
    split_and!; try done. right. split_and!; (done || lia).
  - pose proof Hw as (? & ? & ? & _).
    rewrite <- app_assoc in E2.
    destruct (readBits_app _ 5 _ _ Hb2 ltac:(lia) E2) as (b3 & E3' & Hb3 & E3).
    cbn [br it_br]. rewrite E3', it_read_ok. clear E3'. rewrite <- app_assoc in E3.
    destruct (readBits_app _ 6 _ _ Hb3 ltac:(lia) E3) as (b4 & E4' & Hb4 & E4).
    cbn [br it_br it_window]. rewrite E4', it_read_ok. clear E4'.
    rewrite (Z.mod_small l') by lia. rewrite (u8_small l') by (unfold is_u; lia).
    set (m := u8 ((64 - l' - t') mod 2 ^ 6)).
    assert (Hm : (if m =? 0 then 64 else m) = 64 - l' - t').
    { unfold m. destruct (decide (64 - l' - t' = 64)) as [->|]; [done|].
      rewrite Z.mod_small, u8_small by (unfold is_u; lia).
      destruct (Z.eqb_spec (64 - l' - t') 0); lia. }
    rewrite Hm. rewrite u8_small by (unfold is_u; lia).
    match goal with |- context [read_significant ?i] =>
      destruct (read_significant_spec i l' t' x rest) as (b5 & -> & ? & ?) end;
      [done|cbn; lia|done..|].
    exists b5, l', (64 - l' - (64 - l' - t')). split_and!; try done. right. lia.
Qed.

(** The bits of a delta-of-delta. *)
Definition dod_bits (dod : Z) : list bool :=
  if dod =? 0 then [false]
  else if bitRange dod 14 then [true; false] ++ bits_be 14 (u64 dod)
  else if bitRange dod 17 then [true; true; false] ++ bits_be 17 (u64 dod)
  else if bitRange dod 20 then [true; true; true; false] ++ bits_be 20 (u64 dod)
  else [true; true; true; true] ++ bits_be 64 (u64 dod).

Lemma writeDod_spec b dod :
  wf_writer b -> wf_writer (writeDod b dod) /\ wbits (writeDod b dod) = wbits b ++ dod_bits dod.
Proof.
  intros Hb. unfold writeDod, dod_bits.
  repeat case_match; (split; [auto|]); autorewrite with wbits; by rewrite <- ?app_assoc.
Qed.

(** Sign extension of the sized delta-of-deltas. *)
Lemma bitRange_decode dod sz :
  bitRange dod sz = true -> 1 < sz < 64 ->
  let bits := u64 dod mod 2 ^ sz in
  i64 (if shlU 64 1 (sz - 1) <? bits then u64 (bits - shlU 64 1 sz) else bits) = dod.
Proof.
  intros [H1%Z.leb_le H2%Z.leb_le]%andb_true_iff Hsz. cbn zeta.
  rewrite Z.shiftl_mul_pow2 in H1, H2 by lia.
  assert (Hs : forall k, 0 <= k < 64 -> shlU 64 1 k = 2 ^ k).
  { intros k ?. unfold shlU. destruct (Z.ltb_spec k 64); [|lia].
    rewrite Z.shiftl_mul_pow2, Z.mul_1_l by lia. apply wrapU_small.
    split; [apply Z.pow_nonneg; lia|apply Z.pow_lt_mono_r; lia]. }
  rewrite !Hs by lia.
  assert (Hp : 2 ^ sz = 2 * 2 ^ (sz - 1)) by (rewrite <- Z.pow_succ_r by lia; f_equal; lia).
  assert (2 ^ (sz - 1) <= 2 ^ 62) by (apply Z.pow_le_mono_r; lia).
  assert (1 <= 2 ^ (sz - 1)) by (apply Z.lt_pred_le, Z.pow_pos_nonneg; lia).
  assert (u64 dod mod 2 ^ sz = dod mod 2 ^ sz) as ->.
  { unfold u64, wrapU. apply Z.mod_mod_divide.
    exists (2 ^ (64 - sz)). rewrite <- Z.pow_add_r by lia. f_equal. lia. }
  destruct (decide (0 <= dod)).
  - rewrite (Z.mod_small dod) by lia. destruct (Z.ltb_spec (2 ^ (sz - 1)) dod); [lia|].
    apply i64_small. unfold is_s. change (64 - 1) with 63. lia.
  - assert (dod mod 2 ^ sz = dod + 2 ^ sz) as ->
      by (symmetry; apply (Z.mod_unique _ _ (-1)); lia).
    destruct (Z.ltb_spec (2 ^ (sz - 1)) (dod + 2 ^ sz)); [|lia].
    replace (dod + 2 ^ sz - 2 ^ sz) with dod by lia.
    fold (wrapU 64 dod). fold (u64 dod). rewrite i64_u64. apply i64_small.
    unfold is_s. change (64 - 1) with 63. lia.
Qed.

(** * Proofs: appending and reading one sample *)

(** The bits after the two header bytes. *)
Definition payload (b : bstream) : list bool := drop 16 (wbits b).

(** A stream with its header written. *)
Definition has_header (b : bstream) : Prop := wf_writer b /\ (16 <= length (wbits b))%nat.

Lemma flat_split b : exists pad, flat (stream b) = wbits b ++ pad.
Proof. eexists. symmetry. apply take_drop. Qed.

Lemma length_wbits_le b : (length (wbits b) <= 8 * length (stream b))%nat.
Proof. unfold wbits. rewrite length_take, length_flat. lia. Qed.

Lemma has_header_bytes b :
  has_header b -> exists x y s, stream b = x :: y :: s /\ is_byte x /\ is_byte y /\
    take 16 (wbits b) = bits_be 16 (256 * x + y).
Proof.
  intros [(Hs & _) Hlen]. pose proof (length_wbits_le b). destruct (flat_split b) as [pad E].
  destruct (stream b) as [|x [|y s]]; cbn [length] in *; try lia.
  inversion Hs as [|? ? Hx Hs']; inversion Hs' as [|? ? Hy]; subst.
  exists x, y, s. split_and!; try done; try apply Hx; try apply Hy.
  assert (take 16 (wbits b) = take 16 (wbits b ++ pad)) as -> by by rewrite take_app_le.
  rewrite <- E, !flat_cons, app_assoc, take_app_length'
    by (rewrite length_app, !length_bits_be; done).
  pose proof (bits_be_add 8 8 (256 * x + y)) as E'. cbn [Nat.add] in E'. rewrite E'. clear E'.
  unfold is_u in *. f_equal.
  - f_equal. rewrite Z.shiftr_div_pow2 by lia. zlia.
  - rewrite <- (bits_be_mod 8 8 (256 * x + y)) by lia. f_equal. zlia.
Qed.

Lemma header_Uint16 b :
  has_header b -> Uint16 (bytes b) = Ok (bits_val (take 16 (wbits b))).
Proof.
  intros Hb. destruct (has_header_bytes b Hb) as (x & y & s & E & Hx & Hy & ->).
  unfold Uint16, UintN, bytes. rewrite E, bits_val_bits_be. cbn.
  rewrite take_0. cbn [foldl]. f_equal. unfold is_u in *. change (2 ^ Z.of_nat 16) with 65536. rewrite Z.mod_small; lia.
Qed.

Lemma put_num_spec b n :
  has_header b -> has_header (put_num b n) /\
  wbits (put_num b n) = bits_be 16 n ++ payload b.
Proof.
  intros Hb. destruct (has_header_bytes b Hb) as (x & y & s & E & Hx & Hy & _).
  destruct Hb as [(Hs & Hc & Hlast) Hlen].
  assert (Hw : wbits (put_num b n) = bits_be 16 n ++ payload b).
  { unfold payload, put_num, wbits. cbn [stream count]. rewrite E. cbn [drop].
    rewrite skipn_firstn_comm, flat_app, length_app, !flat_cons, app_assoc.
    rewrite drop_app_length' by (rewrite length_app, !length_bits_be; done).
    unfold PutUint16. rewrite flat_be_bytes, length_be_bytes.
    unfold wbits in Hlen. rewrite length_take in Hlen.
    rewrite E in Hlen. cbn [length] in *. rewrite !drop_0.
    rewrite take_app_ge by (rewrite length_bits_be; lia).
    f_equal. }
  split; [|done]. split; [|rewrite Hw, length_app, length_bits_be; lia].
  split_and!; cbn [stream count put_num]; [|lia|lia|].
  - apply Forall_app. split; [apply Forall_be_bytes|by apply Forall_drop].
  - intros Hpos. destruct (Hlast Hpos) as (s' & z & E' & Hz). rewrite E'.
    assert (2 <= length s')%nat.
    { unfold wbits in Hlen. rewrite length_take, length_flat, E', length_app in Hlen.
      simpl in Hlen. lia. }
    exists (PutUint16 n ++ drop 2 s'), z. split; [|done].
    by rewrite drop_app_le, app_assoc by lia.
Qed.

Lemma writeBytes_spec l b :
  wf_writer b -> Forall is_byte l ->
  wf_writer (writeBytes b l) /\ wbits (writeBytes b l) = wbits b ++ flat l.
Proof.
  intros Hb Hl. revert b Hb. induction Hl as [|x l Hx _ IH]; intros b Hb.
  - by rewrite flat_nil, app_nil_r.
  - destruct (writeByte_spec b x Hb Hx) as [Hb' E].
    destruct (IH _ Hb') as [? E']. split; [done|].
    change (writeBytes b (x :: l)) with (writeBytes (writeByte b x) l).
    by rewrite E', E, flat_cons, <- app_assoc.
Qed.

(** A reader whose bits start with some bytes feeds them to [ReadUvarint]. *)
Lemma feeds_flat l b rest :
  Forall is_byte l -> wf_reader b -> rbits b = flat l ++ rest ->
  exists b', feeds b l b' /\ wf_reader b' /\ rbits b' = rest /\ (l <> [] -> live_reader b').
Proof.
  intros Hl. revert b. induction Hl as [|x l Hx _ IH]; intros b Hb E.
  - exists b. split_and!; try done. constructor.
  - rewrite flat_cons, <- app_assoc in E.
    destruct (readByte_app _ _ _ Hb Hx E) as (b1 & Hr & Hb1 & E1).
    destruct (IH _ (live_wf _ Hb1) E1) as (b' & Hf & ? & ? & Hlive).
    exists b'. split_and!; try done; [by econstructor|].
    intros _. destruct l; [by inversion Hf; subst|by apply Hlive].
Qed.

(** The iterator [it] has read the [n] samples written to the appender [a]. *)
Record in_step (a : xorAppender) (n : Z) (it : xorIterator) : Prop := {
  step_read : numRead it = n;
  step_err : it_err it = None;
  step_reader : wf_reader (br it);
  step_val : it_val it = av a \/ n = 0;
  step_t : it_t it = at_ a \/ n = 0;
  step_tDelta : it_tDelta it = atDelta a \/ n <= 1;
  step_window : same_window (aleading a) (atrailing a) (it_leading it) (it_trailing it)
}.

(** What [Append] promises: it appends bits from which an iterator in step
    reads the sample and is in step again. *)
Definition appends (a : xorAppender) (n t : Z) (v : float64) (a' : xorAppender) : Prop :=
  exists bits, wf_appender a' /\ is_u64 (av a') /\
    wbits (ab a') = bits_be 16 (n + 1) ++ payload (ab a) ++ bits /\ (0 < length bits <= 168)%nat /\
    forall it rest, in_step a n it -> rbits (br it) = bits ++ rest -> numRead it <> numTotal it ->
      exists it', xor_Next it = (Ok true, it') /\ in_step a' (n + 1) it' /\
        rbits (br it') = rest /\ xor_At it' = (t, v) /\ numTotal it' = numTotal it.

Lemma reader_live b l rest : wf_reader b -> rbits b = l ++ rest -> l <> [] -> live_reader b.
Proof.
  intros Hb E Hl. split; [done|]. destruct b as [[|] c]; [|done].
  rewrite rbits_nil in E. by destruct l.
Qed.

Lemma value_code_nonempty x l t bits l' t' : value_code x l t bits l' t' -> bits <> [].
Proof. by destruct 1. Qed.

Lemma value_code_length x l t bits l' t' : value_code x l t bits l' t' -> (0 < length bits <= 77)%nat.
Proof. destruct 1 as [|? (? & ? & _)|? ? ? (? & ? & _)]; rewrite ?length_app, ?length_bits_be; cbn [length]; lia. Qed.

Lemma dod_bits_length dod : (length (dod_bits dod) <= 68)%nat.
Proof. unfold dod_bits. repeat case_match; rewrite ?length_app, ?length_bits_be; cbn [length]; lia. Qed.

Lemma xor_cancel v w : Z.lxor w (Z.lxor v w) = v.
Proof. by rewrite Z.lxor_comm, Z.lxor_assoc, Z.lxor_nilpotent, Z.lxor_0_r. Qed.

(** [Next] past its two guards. *)
Lemma xor_Next_go it :
  it_err it = None -> numRead it <> numTotal it ->
  bool_decide (it_err it <> None) || (numRead it =? numTotal it) = false.
Proof.
  intros -> ?. rewrite bool_decide_false by auto. by apply Z.eqb_neq.
Qed.

(** The common end of the second and later samples: the value is read after
    the time. *)
Lemma readValue_in_step a n it t v tDelta bits rest a2 :
  value_code (Z.lxor v (av a)) (aleading a) (atrailing a) bits (aleading a2) (atrailing a2) ->
  0 <= n < 65535 -> numRead it = n -> it_err it = None -> it_val it = av a ->
  same_window (aleading a) (atrailing a) (it_leading it) (it_trailing it) ->
  wf_reader (br it) -> rbits (br it) = bits ++ rest ->
  it_t it = t -> it_tDelta it = tDelta -> av a2 = v -> at_ a2 = t -> atDelta a2 = tDelta ->
  exists it', readValue it = (Ok true, it') /\ in_step a2 (n + 1) it' /\
    rbits (br it') = rest /\ xor_At it' = (t, v) /\ numTotal it' = numTotal it.
Proof.
  intros Hc Hn Hread Herr Hval Hwin Hb E Ht Htd Hv2 Ht2 Htd2.
  destruct (readValue_spec it _ _ _ _ _ _ rest Hc Hwin) as (b' & il' & it'' & -> & Hb' & ? & ?);
    [by eapply reader_live, value_code_nonempty|done|].
  rewrite Hval, xor_cancel. eexists. split; [done|]. split_and!; try done; [|unfold xor_At; cbn; by rewrite Ht].
  split; cbn; auto; try (left; congruence).
  rewrite Hread. unfold u16. apply wrapU_small. unfold is_u. lia.
Qed.

Lemma it_br_br it b b' : it_br (it_br it b) b' = it_br it b'.
Proof. done. Qed.

(** The prefix code read back: up to four bits, the last one 0 unless there
    are four. *)
Lemma read_prefix_zero fuel it d k rest :
  wf_reader (br it) -> rbits (br it) = false :: rest ->
  exists b, read_prefix (S fuel) it d k = k (it_br it b) (shlU 8 d 1) /\
    live_reader b /\ rbits b = rest.
Proof.
  intros Hb E. cbn [read_prefix].
  destruct (readBit_app _ _ _ Hb E) as (b & -> & ? & ?). by exists b.
Qed.

Lemma read_prefix_one fuel it d k rest :
  wf_reader (br it) -> rbits (br it) = true :: rest ->
  exists b, read_prefix (S fuel) it d k = read_prefix fuel (it_br it b) (Z.lor (shlU 8 d 1) 1) k /\
    live_reader b /\ rbits b = rest.
Proof.
  intros Hb E. cbn [read_prefix].
  destruct (readBit_app _ _ _ Hb E) as (b & -> & ? & ?). by exists b.
Qed.

Lemma next_sized_spec it dod sz rest :
  bitRange dod sz = true -> 1 < sz < 64 -> live_reader (br it) ->
  rbits (br it) = bits_be (Z.to_nat sz) (u64 dod) ++ rest ->
  exists b, next_sized it sz = next_dod (it_br it b) dod /\ live_reader b /\ rbits b = rest.
Proof.
  intros Hr Hsz Hb E. unfold next_sized.
  destruct (readBits_app _ sz _ _ Hb ltac:(lia) E) as (b & -> & ? & ?).
  exists b. by rewrite it_read_ok, (bitRange_decode dod sz).
Qed.

Lemma read_dod_spec it dod rest :
  is_i64 dod -> wf_reader (br it) -> rbits (br it) = dod_bits dod ++ rest ->
  exists b, read_prefix 4 it 0 next_after_prefix = next_dod (it_br it b) dod /\
    wf_reader b /\ rbits b = rest.
Proof.
  intros Hdod Hb E. unfold dod_bits in E.
  destruct (Z.eqb_spec dod 0) as [->|].
  { destruct (read_prefix_zero 3 it 0 next_after_prefix rest Hb E) as (b & -> & ? & ?).
    exists b. auto. }
  assert (exists c bs, dod_bits dod = true :: c :: bs) as (c & bs & Ebs).
  { unfold dod_bits. destruct (Z.eqb_spec dod 0); [done|].
    repeat case_match; eexists _, _; reflexivity. }
  unfold dod_bits in Ebs. destruct (Z.eqb_spec dod 0); [done|].
  assert (exists tl, rbits (br it) = true :: tl) as [tl E0] by (rewrite E, Ebs; by eexists).
  destruct (read_prefix_one 3 it 0 next_after_prefix tl Hb E0) as (b1 & -> & Hb1 & E1).
  rewrite E in E0. clear Ebs.
  destruct (bitRange dod 14) eqn:R14; [|destruct (bitRange dod 17) eqn:R17;
    [|destruct (bitRange dod 20) eqn:R20]]; cbn [app] in E0; injection E0 as <-.
  - edestruct (read_prefix_zero 2 (it_br it b1)) as (b2 & -> & Hb2 & E2);
      [eauto|exact E1|].
    apply (next_sized_spec (it_br it b2) dod 14 rest) in R14 as (b3 & E3 & ? & ?); [|lia|done|done].
    exists b3. split; [exact E3|auto].
  - edestruct (read_prefix_one 2 (it_br it b1)) as (b2 & -> & Hb2 & E2); [eauto|exact E1|].
    edestruct (read_prefix_zero 1 (it_br it b2)) as (b3 & -> & Hb3 & E3); [eauto|exact E2|].
    apply (next_sized_spec (it_br it b3) dod 17 rest) in R17 as (b4 & E4 & ? & ?); [|lia|done|done].
    exists b4. split; [exact E4|auto].
  - edestruct (read_prefix_one 2 (it_br it b1)) as (b2 & -> & Hb2 & E2); [eauto|exact E1|].
    edestruct (read_prefix_one 1 (it_br it b2)) as (b3 & -> & Hb3 & E3); [eauto|exact E2|].
    edestruct (read_prefix_zero 0 (it_br it b3)) as (b4 & -> & Hb4 & E4); [eauto|exact E3|].
    apply (next_sized_spec (it_br it b4) dod 20 rest) in R20 as (b5 & E5 & ? & ?); [|lia|done|done].
    exists b5. split; [exact E5|auto].
  - edestruct (read_prefix_one 2 (it_br it b1)) as (b2 & -> & Hb2 & E2); [eauto|exact E1|].
    edestruct (read_prefix_one 1 (it_br it b2)) as (b3 & -> & Hb3 & E3); [eauto|exact E2|].
    edestruct (read_prefix_one 0 (it_br it b3)) as (b4 & -> & Hb4 & E4); [eauto|exact E3|].
    destruct (readBits_app b4 64 _ _ Hb4 ltac:(lia) E4) as (b5 & E5 & ? & ?).
    exists b5. split; [|auto]. cbn [read_prefix]. unfold next_after_prefix.
    cbn [br it_br]. rewrite E5. rewrite it_read_ok. f_equal.
    rewrite (Z.mod_small (u64 dod)) by apply u64_range. rewrite i64_u64. by apply i64_small.
Qed.

(** The time arithmetic of the decoder undoes that of the encoder, wrap-around
    included. *)
Lemma time_roundtrip t t0 : is_i64 t -> i64 (t0 + i64 (u64 (t - t0))) = t.
Proof. intros ?. zlia. Qed.

Lemma delta_roundtrip d d0 : is_u64 d -> u64 (i64 d0 + i64 (d - d0)) = d.
Proof. intros ?. zlia. Qed.

Lemma u16_small n : 0 <= n < 65536 -> u16 n = n.
Proof. intros ?. by apply wrapU_small. Qed.

Section AppendCases.
Context (a : xorAppender) (n t : Z) (v : float64).
Context (Ha : wf_appender a) (Hh : has_header (ab a)).
Context (Hn : 0 <= n < 65535) (Ht : is_i64 t) (Hv : is_u64 v) (Hav : is_u64 (av a)).

(** Finishing an append: the header counts one more sample. *)
Lemma appends_intro a1 tDelta bits :
  wf_appender a1 -> wbits (ab a1) = wbits (ab a) ++ bits -> (0 < length bits <= 168)%nat ->
  let a2 := mk_xorAppender (put_num (ab a1) (u16 (n + 1))) t v tDelta (aleading a1) (atrailing a1) in
  (forall it rest, in_step a n it -> rbits (br it) = bits ++ rest -> numRead it <> numTotal it ->
    exists it', xor_Next it = (Ok true, it') /\ in_step a2 (n + 1) it' /\
      rbits (br it') = rest /\ xor_At it' = (t, v) /\ numTotal it' = numTotal it) ->
  appends a n t v a2.
Proof using Hn Hv Hh.
  intros (Hw & ? & ?) E Hne a2 Hnext. exists bits.
  assert (Hh1 : has_header (ab a1)).
  { split; [done|]. destruct Hh. rewrite E, length_app. lia. }
  destruct (put_num_spec (ab a1) (u16 (n + 1)) Hh1) as [[? ?] Ep].
  split; [by apply wf_appender_intro|]. split; [done|]. split; [|done].
  cbn [ab a2]. rewrite Ep, u16_small by lia. f_equal. unfold payload. rewrite E.
  apply drop_app_le. apply Hh.
Qed.

Lemma append_first :
  n = 0 ->
  appends a n t v
    (let a1 := a_write a (writeBits (writeBytes (ab a) (PutVarint t)) (Float64bits v) 64) in
     mk_xorAppender (put_num (ab a1) (u16 (n + 1))) t v 0 (aleading a1) (atrailing a1)).
Proof using Hn Ht Hv Ha Hh.
  intros Hn0. destruct Ha as (Hw & ? & ?).
  destruct (writeBytes_spec (PutVarint t) (ab a) Hw (Forall_PutUvarint _)) as [Hw1 E1].
  destruct (writeBits_refines _ (Float64bits v) 64 Hw1) as [Hw2 E2]; [lia|].
  set (bits := flat (PutVarint t) ++ bits_be 64 v).
  apply (appends_intro (a_write a _) 0 bits).
  - by apply wf_appender_intro.
  - cbn [ab a_write]. by rewrite E2, E1, <- app_assoc.
  - unfold bits, PutVarint. rewrite length_app, length_bits_be, length_flat. pose proof (length_PutUvarint (zigzag t)). lia.
  - intros it rest [? ? ? ? ? ? ?] E Hlt. unfold xor_Next.
    rewrite xor_Next_go by (done || lia).
    destruct (Z.eqb_spec (numRead it) 0); [|lia].
    unfold bits in E. rewrite <- app_assoc in E.
    destruct (feeds_flat (PutVarint t) (br it) _ (Forall_PutUvarint _) ltac:(done) E)
      as (b1 & Hf & _ & Eb1 & Hlive).
    rewrite (ReadVarint_PutVarint t _ _ Ht Hf), it_read_ok. cbn [br it_br].
    assert (Hb1 : live_reader b1).
    { apply Hlive. intros E'. pose proof (length_PutUvarint (zigzag t)) as Hl.
      unfold PutVarint in E'. rewrite E' in Hl. simpl in Hl. lia. }
    destruct (readBits_app b1 64 v rest Hb1 ltac:(lia) Eb1) as (b2 & -> & ? & ?).
    rewrite it_read_ok. rewrite Z.mod_small by done.
    eexists. split; [done|]. split_and!; try done.
    split; cbn; auto; try (right; lia). rewrite step_read0. apply u16_small. lia.
Qed.

Lemma append_second :
  n = 1 ->
  appends a n t v
    (let a1 := writeVDelta (a_write a (writeBytes (ab a) (PutUvarint (u64 (t - at_ a))))) v in
     mk_xorAppender (put_num (ab a1) (u16 (n + 1))) t v (u64 (t - at_ a))
       (aleading a1) (atrailing a1)).
Proof using Hn Ht Hv Ha Hh Hav.
  intros Hn1. destruct Ha as (Hw & ? & ?). set (td := u64 (t - at_ a)).
  destruct (writeBytes_spec (PutUvarint td) (ab a) Hw (Forall_PutUvarint _)) as [Hw1 E1].
  destruct (writeVDelta_spec (a_write a (writeBytes (ab a) (PutUvarint td))) v)
    as (vbits & Hc & Hw2 & E2); [by apply wf_appender_intro|done..|].
  set (a1 := writeVDelta _ v) in *. set (bits := flat (PutUvarint td) ++ vbits).
  apply (appends_intro a1 td bits).
  - done.
  - cbn [ab a_write] in E2. by rewrite E2, E1, <- app_assoc.
  - apply value_code_length in Hc. unfold bits. rewrite length_app, length_flat. pose proof (length_PutUvarint td). lia.
  - intros it rest [? ? ? ? ? ? ?] E Hlt. unfold xor_Next.
    rewrite xor_Next_go by (done || lia).
    destruct (Z.eqb_spec (numRead it) 0); [lia|].
    destruct (Z.eqb_spec (numRead it) 1); [|lia].
    unfold bits in E. rewrite <- app_assoc in E.
    destruct (feeds_flat (PutUvarint td) (br it) _ (Forall_PutUvarint _) ltac:(done) E)
      as (b1 & Hf & Hwf & Eb1 & _).
    rewrite (ReadUvarint_PutUvarint td _ _ (u64_range _) Hf), it_read_ok.
    destruct step_val0 as [Hval|]; [|lia]. destruct step_t0 as [Ht0|]; [|lia].
    cbn [it_t it_br]. rewrite Ht0. unfold td at 1. rewrite time_roundtrip by done.
    apply (readValue_in_step (a_write a (writeBytes (ab a) (PutUvarint td))) n (it_time (it_br it b1) t td) t v td vbits);
      try done.
Qed.

Lemma append_later :
  1 < n ->
  appends a n t v
    (let tDelta := u64 (t - at_ a) in
     let dod := i64 (tDelta - atDelta a) in
     let a1 := writeVDelta (a_write a (writeDod (ab a) dod)) v in
     mk_xorAppender (put_num (ab a1) (u16 (n + 1))) t v tDelta (aleading a1) (atrailing a1)).
Proof using Hn Ht Hv Ha Hh Hav.
  intros Hgt. destruct Ha as (Hw & ? & ?). cbn zeta.
  set (td := u64 (t - at_ a)). set (dod := i64 (td - atDelta a)).
  destruct (writeDod_spec (ab a) dod Hw) as [Hw1 E1].
  destruct (writeVDelta_spec (a_write a (writeDod (ab a) dod)) v)
    as (vbits & Hc & Hw2 & E2); [by apply wf_appender_intro|done..|].
  set (a1 := writeVDelta _ v) in *. set (bits := dod_bits dod ++ vbits).
  apply (appends_intro a1 td bits).
  - done.
  - cbn [ab a_write] in E2. by rewrite E2, E1, <- app_assoc.
  - apply value_code_length in Hc. pose proof (dod_bits_length dod). unfold bits. rewrite length_app. lia.
  - intros it rest [? ? ? ? ? ? ?] E Hlt. unfold xor_Next.
    rewrite xor_Next_go, step_read0 by (done || lia).
    destruct (Z.eqb_spec n 0); [lia|]. destruct (Z.eqb_spec n 1); [lia|].
    unfold bits in E. rewrite <- app_assoc in E.
    destruct (read_dod_spec it dod _ (i64_range _) step_reader0 E) as (b1 & -> & Hwf & Eb1).
    destruct step_val0 as [Hval|]; [|lia]. destruct step_t0 as [Ht0|]; [|lia].
    destruct step_tDelta0 as [Htd|]; [|lia].
    unfold next_dod. cbn [it_t it_tDelta it_br]. rewrite Htd, Ht0. unfold dod.
    rewrite delta_roundtrip by apply u64_range. unfold td at 1. rewrite time_roundtrip by done.
    apply (readValue_in_step (a_write a (writeDod (ab a) dod)) n (it_time (it_br it b1) t td) t v td vbits);
      try done.
Qed.

Lemma Append_appends :
  take 16 (wbits (ab a)) = bits_be 16 n ->
  exists a', Append a t v = Ok a' /\ appends a n t v a'.
Proof using Hn Ht Hv Ha Hh Hav.
  intros Hnum. unfold Append. rewrite header_Uint16 by done.
  rewrite Hnum, bits_val_bits_be. change (2 ^ Z.of_nat 16) with 65536.
  rewrite Z.mod_small by lia. cbn [res_bind].
  destruct (Z.eqb_spec n 0); [|destruct (Z.eqb_spec n 1)];
    (eexists; split; [reflexivity|]).
  - by apply append_first.
  - by apply append_second.
  - apply append_later. lia.
Qed.
End AppendCases.

(** * Proofs: whole chunks *)

Definition valid_sample (s : sample) : Prop := is_i64 s.1 /\ is_u64 s.2.

(** Successive calls of [Next] and [At]. *)
Inductive reads : xorIterator -> list sample -> xorIterator -> Prop :=
| reads_nil it : reads it [] it
| reads_cons it it1 l it' :
    xor_Next it = (Ok true, it1) -> reads it1 l it' -> reads it (xor_At it1 :: l) it'.

Lemma reads_snoc it l it1 it2 :
  reads it l it1 -> xor_Next it1 = (Ok true, it2) -> reads it (l ++ [xor_At it2]) it2.
Proof.
  induction 1; intros; cbn [app]; [|eauto using reads]. eapply reads_cons; [done|]. constructor.
Qed.

Lemma reads_drain it l it' fuel :
  reads it l it' -> (length l < fuel)%nat -> xor_Next it' = (Ok false, it') ->
  drain fuel it = (Ok l, it').
Proof.
  intros Hr. revert fuel. induction Hr as [it|it it1 l it' Hn Hr IH]; intros [|fuel] Hf Hend;
    cbn [length] in Hf; try lia; cbn [drain].
  - by rewrite Hend.
  - rewrite Hn, (IH fuel) by (done || lia). done.
Qed.

(** An iterator as [iterator] makes it. *)
Definition fresh_it (b : bstream) (total : Z) : xorIterator :=
  mk_xorIterator b total 0 0 (Float64frombits 0) 0 0 0 None.

(** The appender [a] has written exactly the samples [l]. *)
Record encodes (a : xorAppender) (l : list sample) : Prop := {
  enc_wf : wf_appender a;
  enc_header : has_header (ab a);
  enc_num : take 16 (wbits (ab a)) = bits_be 16 (Z.of_nat (length l));
  enc_val : is_u64 (av a);
  enc_length : Z.of_nat (length l) <= 65535;
  enc_size : (length (wbits (ab a)) <= 16 + 168 * length l)%nat;
  enc_reads : forall b total rest,
    wf_reader b -> rbits b = payload (ab a) ++ rest -> Z.of_nat (length l) <= total ->
    exists it', reads (fresh_it b total) l it' /\ in_step a (Z.of_nat (length l)) it' /\
      rbits (br it') = rest /\ numTotal it' = total
}.

Definition first_appender : xorAppender := mk_xorAppender (cb NewXORChunk) 0 0 0 255 0.

Lemma Appender_New : Appender NewXORChunk = Ok first_appender.
Proof. reflexivity. Qed.

Lemma encodes_first : encodes first_appender [].
Proof.
  assert (wf_writer (mk_bstream [0; 0] 0)).
  { split_and!; cbn; try lia; by repeat constructor. }
  split; try done.
  intros b total rest Hb E ?. cbn in E. eexists. split; [constructor|].
  split_and!; try done. split; cbn; auto. left. done.
Qed.

Lemma encodes_append a l t v :
  encodes a l -> Z.of_nat (length l) < 65535 -> valid_sample (t, v) ->
  exists a', Append a t v = Ok a' /\ encodes a' (l ++ [(t, v)]).
Proof.
  intros [Hw Hh Hnum Hval _ Hsize Hreads] Hlen [Ht Hv].
  set (n := Z.of_nat (length l)) in *.
  assert (Hn : 0 <= n < 65535) by lia.
  destruct (Append_appends a n t v Hw Hh Hn Ht Hv Hval Hnum)
    as (a' & HA & bits & Hw' & Hv' & Ewb & Hne & Hnext).
  assert (Hlen' : Z.of_nat (length (l ++ [(t, v)])) = n + 1) by (rewrite length_app; simpl; lia).
  exists a'. split; [done|]. split; rewrite ?Hlen'; try done; try lia.
  - split; [apply Hw'|]. rewrite Ewb, length_app, length_bits_be. lia.
  - by rewrite Ewb, take_app_length' by by rewrite length_bits_be.
  - rewrite Ewb, !length_app, length_bits_be. unfold payload. rewrite length_drop. cbn [length]. lia.
  - intros b total rest Hb E Hle. unfold payload in E.
    rewrite Ewb, drop_app_length', <- app_assoc in E by by rewrite length_bits_be.
    destruct (Hreads b total (bits ++ rest) Hb E) as (it & Hr & Hs & E' & Htot); [lia|].
    destruct (Hnext it rest Hs E') as (it' & HN & Hs' & ? & HAt & ?).
    { rewrite Htot. destruct Hs as [-> _ _ _ _ _ _]. lia. }
    exists it'. split_and!; try done; [|congruence].
    rewrite <- HAt. by apply (reads_snoc _ _ it).
Qed.

Lemma encodes_append_all a l l' :
  encodes a l -> Z.of_nat (length (l ++ l')) <= 65535 -> Forall valid_sample l' ->
  exists a', append_all a l' = Ok a' /\ encodes a' (l ++ l').
Proof.
  intros Ha Hlen Hl'. revert a l Ha Hlen.
  induction Hl' as [|[t v] l' Hs _ IH]; intros a l Ha Hlen.
  - exists a. by rewrite app_nil_r.
  - rewrite length_app in Hlen. cbn [length] in Hlen.
    destruct (encodes_append a l t v Ha ltac:(lia) Hs) as (a1 & HA & Ha1).
    destruct (IH a1 (l ++ [(t, v)]) Ha1) as (a' & HA' & Ha').
    { rewrite !length_app. simpl. lia. }
    exists a'. rewrite <- app_assoc in Ha'. split; [|done].
    unfold append_all in *. cbn [foldl fst snd res_bind]. by rewrite HA.
Qed.

Lemma flat_drop_2 s : flat (drop 2 s) = drop 16 (flat s).
Proof.
  destruct s as [|x [|y s]]; [done| |].
  - cbn [drop]. rewrite flat_cons, drop_ge; [done|]. rewrite length_app, length_bits_be. simpl. lia.
  - cbn [drop]. rewrite drop_0, !flat_cons, app_assoc, drop_app_length'; [done|].
    by rewrite length_app, !length_bits_be.
Qed.

Lemma iterator_encodes a l :
  encodes a l -> exists b pad,
    iterator (achunk a) = Ok (fresh_it b (Z.of_nat (length l))) /\ wf_reader b /\
    rbits b = payload (ab a) ++ pad.
Proof.
  intros [(Hw & _) Hh Hnum _ Hlen _ _].
  destruct (flat_split (ab a)) as [pad E].
  exists (newBReader (drop 2 (stream (ab a)))), pad. split_and!.
  - unfold iterator, Bytes, achunk. cbn [cb]. rewrite header_Uint16 by done.
    rewrite Hnum, bits_val_bits_be, Z.mod_small; [done|].
    change (2 ^ Z.of_nat 16) with 65536. lia.
  - split; cbn; [|lia]. apply Forall_drop, Hw.
  - unfold newBReader. rewrite rbits_full, flat_drop_2, E.
    rewrite drop_app_le by apply Hh. done.
Qed.

(** Draining the chunk of an appender: the samples, and an iterator in step. *)
Lemma drain_encodes a l :
  encodes a l -> exists it it',
    iterator (achunk a) = Ok it /\ numTotal it = Z.of_nat (length l) /\
    drain (Z.to_nat (numTotal it) + 1) it = (Ok l, it') /\ in_step a (Z.of_nat (length l)) it' /\
    it_leading it' = it_leading it' /\ xor_Err it' = None.
Proof.
  intros Ha. destruct (iterator_encodes a l Ha) as (b & pad & Hit & Hb & E).
  destruct (enc_reads _ _ Ha b (Z.of_nat (length l)) pad Hb E) as (it' & Hr & Hs & _ & Htot); [lia|].
  exists (fresh_it b (Z.of_nat (length l))), it'. split_and!; try done; [|by destruct Hs].
  apply reads_drain; [done|cbn; lia|].
  unfold xor_Next. destruct Hs as [-> -> _ _ _ _ _]. rewrite Htot, Z.eqb_refl.
  by rewrite orb_true_r.
Qed.

Lemma decode_encodes a l : encodes a l -> decode (achunk a) = Ok l.
Proof.
  intros (it & it' & Hit & _ & Hd & _)%drain_encodes. unfold decode. rewrite Hit.
  cbn [res_bind]. by rewrite Hd.
Qed.

Lemma NumSamples_encodes a l : encodes a l -> NumSamples (achunk a) = Ok (Z.of_nat (length l)).
Proof.
  intros [_ Hh Hnum _ ? _ _]. unfold NumSamples, Bytes. cbn [cb achunk].
  rewrite header_Uint16, Hnum, bits_val_bits_be by done. f_equal.
  apply Z.mod_small. change (2 ^ Z.of_nat 16) with 65536. lia.
Qed.

(** A chunk takes at most 21 bytes for each sample, and the header. *)
Lemma encodes_bytes a l : encodes a l -> 2 <= zlen (Bytes (achunk a)) <= 3 + 21 * Z.of_nat (length l).
Proof.
  intros [((_ & Hc & _) & _) [_ Hh] _ _ _ Hsize _]. unfold Bytes, bytes, zlen. cbn [cb achunk].
  pose proof (length_wbits_le (ab a)). 
  assert (8 * length (stream (ab a)) <= length (wbits (ab a)) + 8)%nat; [|lia].
  unfold wbits. rewrite length_take, length_flat. lia.
Qed.

(** A chunk opened again: the appender it gives continues where the last one
    stopped. *)
Lemma drain_nil n it it' :
  drain (n + 1) it = (Ok [], it') -> numTotal it = 0 -> numRead it = 0 -> it' = it.
Proof.
  intros Hd E1 E2. rewrite Nat.add_comm in Hd. cbn [Nat.add drain] in Hd.
  unfold xor_Next in Hd. rewrite E1, E2, orb_true_r in Hd. by injection Hd.
Qed.

Lemma Appender_encodes a l :
  encodes a l -> exists a', Appender (achunk a) = Ok a' /\ encodes a' l.
Proof.
  intros Ha. destruct (drain_encodes a l Ha) as (it & it' & Hit & Hn & Hd & Hs & _ & Herr).
  unfold Appender. rewrite Hit. cbn [res_bind]. rewrite Hd. cbn [fst snd res_bind]. rewrite Herr.
  pose proof Ha as [(Hw & Hl & Ht) Hh Hnum Hval Hlen Hsize Hreads].
  unfold Bytes, achunk. cbn [cb]. rewrite header_Uint16, Hnum by done.
  rewrite bits_val_bits_be, Z.mod_small by (change (2 ^ Z.of_nat 16) with 65536; lia).
  cbn [res_bind]. eexists. split; [reflexivity|].
  pose proof Hs as [Hread _ _ Hv0 Ht0 Htd Hwin].
  set (n := Z.of_nat (length l)) in *.
  assert (Hl' : 0 <= it_leading it' /\ 0 <= it_trailing it')
    by (unfold same_window in Hwin; lia).
  destruct (Z.eqb_spec n 0) as [Hn0|Hn0].
  - assert (l = []) as -> by (destruct l; [done|subst n; cbn [length] in Hn0; lia]).
    unfold iterator in Hit. apply res_bind_ok in Hit as (? & _ & [= <-]).
    apply drain_nil in Hd as ->; [|cbn in *; congruence|done].
    split; [apply wf_appender_intro; [done|lia..]|done|done| |done|done|].
    + done.
    + intros b total rest Hb E Htot. cbn [ab] in E.
      destruct (Hreads b total rest Hb E Htot) as (it2 & Hr & ? & ? & ?).
      exists it2. split_and!; try done. inversion Hr; subst.
      split; cbn; auto. by left.
  - assert (Hval' : it_val it' = av a) by (destruct Hv0; [done|lia]).
    assert (Ht' : it_t it' = at_ a) by (destruct Ht0; [done|lia]).
    split; [apply wf_appender_intro; [done|lia..]|done|done| |done|done|].
    + cbn [av]. by rewrite Hval'.
    + intros b total rest Hb E Htot. cbn [ab] in E.
      destruct (Hreads b total rest Hb E Htot) as (it2 & ? & [] & ? & ?).
      exists it2. split_and!; try done.
      split; cbn; try done.
      * rewrite Hval'. tauto.
      * rewrite Ht'. tauto.
      * fold n. destruct Htd, step_tDelta0; auto; left; congruence.
      * unfold same_window in *. destruct Hwin as [|]; lia.
Qed.

(** * Proofs: arbitrary chunk data *)

(** A read that cannot panic: it succeeds with a value satisfying [P] and leaves
    data in the current byte for the next one, or reports an error. *)
Definition safe_read {A} (P : A -> Prop) (r : res A * bstream) : Prop :=
  match r with (Ok a, b) => P a /\ live_reader b | (Err _, _) => True | (Panic, _) => False end.

Definition any {A} (_ : A) : Prop := True.

Lemma read_spec_safe {A} n (f : list bool -> A) (P : A -> Prop) b r :
  (forall l, length l = n -> P (f l)) -> read_spec n f b r -> safe_read P r.
Proof.
  intros HP. unfold read_spec. destruct (decide _).
  - intros (b' & -> & ? & _). split; [|done]. apply HP. rewrite length_take. lia.
  - by destruct r as [[] ?].
Qed.

Lemma read_uvarint_loop_safe fuel b x s :
  wf_reader b -> safe_read any (read_uvarint_loop fuel b x s).
Proof.
  revert b x s. induction fuel as [|fuel IH]; intros b x s Hb; cbn [read_uvarint_loop]; [done|].
  pose proof (read_spec_safe _ _ any _ _ (fun _ _ => I) (readByte_spec b Hb)) as Hr.
  change (read_byte b) with (readByte b).
  destruct (readByte b) as [[y|e|] b']; try done. destruct Hr as [_ Hr].
  repeat case_match; try done. by apply IH, live_wf.
Qed.

Lemma ReadUvarint_safe b : wf_reader b -> safe_read any (ReadUvarint b).
Proof. apply read_uvarint_loop_safe. Qed.

Lemma ReadVarint_safe b : wf_reader b -> safe_read any (ReadVarint b).
Proof.
  intros Hb%ReadUvarint_safe. unfold ReadVarint. by destruct (ReadUvarint b) as [[] ?].
Qed.

Lemma readBit_safe b : wf_reader b -> safe_read any (readBit b).
Proof. intros Hb. by eapply read_spec_safe, readBit_spec. Qed.

Lemma readBits_safe b n :
  live_reader b -> 0 <= n <= 64 -> safe_read (fun a => 0 <= a < 2 ^ n) (readBits b n).
Proof.
  intros Hb Hn. eapply read_spec_safe, readBits_spec; [|done..].
  intros l Hl. pose proof (bits_val_range l) as Hr. rewrite Hl, Z2Nat.id in Hr by lia. done.
Qed.

(** The window always leaves between 1 and 64 bits, even when its two bounds,
    which are uint8, have wrapped around. *)
Definition safe_window (it : xorIterator) : Prop :=
  1 <= u8 (64 - it_leading it - it_trailing it) <= 64.

Definition safe_it (it : xorIterator) : Prop :=
  it_err it <> None \/
  (safe_window it /\ (live_reader (br it) \/ numRead it = 0 /\ wf_reader (br it))).

Definition safe_out (r : res bool * xorIterator) : Prop :=
  (exists b, fst r = Ok b) /\ safe_it (snd r).

Lemma it_read_safe {A} P it (r : res A * bstream) k :
  safe_read P r -> (forall b' a, P a -> live_reader b' -> safe_out (k (it_br it b') a)) ->
  safe_out (it_read it r k).
Proof.
  intros Hr Hk. destruct r as [[a|e|] b]; cbn in *; [|split; [by eexists|by left]|done].
  destruct Hr. by apply Hk.
Qed.

Lemma safe_value it v : safe_window it -> live_reader (br it) -> safe_out (Ok true, it_value it v).
Proof. intros ??. split; [by eexists|]. right. split; [done|by left]. Qed.

(** [mbits] survives being stored as [trailing] modulo 256. *)
Lemma window_wrap l m : 1 <= m <= 64 -> u8 (64 - l - u8 (64 - l - m)) = m.
Proof. intros ?. zlia. Qed.

Lemma read_significant_safe it :
  safe_window it -> live_reader (br it) -> safe_out (read_significant it).
Proof.
  intros Hw Hb. unfold read_significant. unfold safe_window in Hw.
  eapply it_read_safe; [apply readBits_safe; [done|lia]|].
  intros b' bits _ Hb'. by apply safe_value.
Qed.

Lemma readValue_safe it : safe_window it -> live_reader (br it) -> safe_out (readValue it).
Proof.
  intros Hw Hb. unfold readValue.
  eapply it_read_safe; [by apply readBit_safe, live_wf|]. intros b1 bit1 _ Hb1.
  destruct bit1; [|by apply safe_value].
  eapply it_read_safe; [by apply readBit_safe, live_wf|]. intros b2 bit2 _ Hb2.
  destruct bit2; [|by apply read_significant_safe].
  eapply it_read_safe; [apply readBits_safe; [done|lia]|]. intros b3 l Hl Hb3. cbn zeta.
  eapply it_read_safe; [apply readBits_safe; [done|lia]|]. intros b4 m Hm Hb4. cbn zeta.
  apply read_significant_safe; [|done].
  unfold safe_window. cbn [it_leading it_trailing it_window it_br].
  cbn beta in Hl, Hm. rewrite (u8_small l), (u8_small m) by (unfold is_u; lia).
  rewrite window_wrap; destruct (Z.eqb_spec m 0); lia.
Qed.

Lemma next_dod_safe it dod : safe_window it -> live_reader (br it) -> safe_out (next_dod it dod).
Proof. intros ??. by apply readValue_safe. Qed.

Lemma next_sized_safe it sz :
  0 <= sz <= 64 -> safe_window it -> live_reader (br it) -> safe_out (next_sized it sz).
Proof.
  intros ? Hw Hb. eapply it_read_safe; [by apply readBits_safe|].
  intros b' bits _ Hb'. by apply next_dod_safe.
Qed.

Lemma next_after_prefix_safe it d :
  safe_window it -> live_reader (br it) -> safe_out (next_after_prefix it d).
Proof.
  intros Hw Hb. unfold next_after_prefix.
  repeat case_match; try (apply next_sized_safe; (done || lia)); [|by apply next_dod_safe].
  eapply it_read_safe; [by apply readBits_safe|]. intros. by apply next_dod_safe.
Qed.

Lemma read_prefix_safe fuel it d :
  safe_window it -> live_reader (br it) -> safe_out (read_prefix fuel it d next_after_prefix).
Proof.
  revert it d. induction fuel as [|fuel IH]; intros it d Hw Hb; cbn [read_prefix].
  - by apply next_after_prefix_safe.
  - eapply it_read_safe; [by apply readBit_safe, live_wf|]. intros b [] _ Hb'.
    + by apply IH.
    + by apply next_after_prefix_safe.
Qed.

Lemma xor_Next_safe it : safe_it it -> safe_out (xor_Next it).
Proof.
  intros Hs. unfold xor_Next. destruct (_ || _) eqn:Eg; [split; [by eexists|done]|].
  apply orb_false_iff in Eg as [Eerr%bool_decide_eq_false Enum%Z.eqb_neq].
  destruct Hs as [|[Hw Hb]]; [done|].
  destruct (Z.eqb_spec (numRead it) 0); [|destruct Hb as [Hb|[? _]]; [|done];
    destruct (Z.eqb_spec (numRead it) 1)].
  - eapply it_read_safe; [apply ReadVarint_safe; destruct Hb as [|[]]; auto|].
    intros b t _ Hb1. eapply it_read_safe; [by apply readBits_safe|].
    intros b2 v _ Hb2. by apply safe_value.
  - eapply it_read_safe; [by apply ReadUvarint_safe, live_wf|].
    intros b td _ Hb1. by apply readValue_safe.
  - by apply read_prefix_safe.
Qed.

Lemma drain_safe fuel it : safe_it it -> exists l, fst (drain fuel it) = Ok l.
Proof.
  revert it. induction fuel as [|fuel IH]; intros it Hs; cbn [drain]; [by eexists|].
  destruct (xor_Next_safe it Hs) as [[b Hb] Hs']. destruct (xor_Next it) as [r it1].
  cbn in *. subst r. destruct b; [|by eexists].
  destruct (IH it1 Hs') as [l Hl]. destruct (drain fuel it1) as [r it2]. cbn in *.
  subst r. by eexists.
Qed.

Lemma iterator_safe d :
  Forall is_byte d -> (2 <= length d)%nat ->
  exists it, iterator (mk_XORChunk (mk_bstream d 0)) = Ok it /\ safe_it it.
Proof.
  intros Hd Hlen. unfold iterator, Bytes, Uint16, UintN, bytes. cbn [cb stream].
  destruct (Nat.leb_spec 2 (length d)); [|lia]. cbn [res_bind]. eexists. split; [reflexivity|].
  right. split; [done|]. right. split; [done|]. split; [by apply Forall_drop|cbn; lia].
Qed.

(** * Main theorems *)

(** Writing a chunk in sessions: each session opens an appender on the chunk and
    appends some samples. *)
Fixpoint sessions (c : XORChunk) (ls : list (list sample)) : res XORChunk :=
  match ls with
  | [] => Ok c
  | l :: ls =>
      let? a := Appender c in
      let? a := append_all a l in
      sessions (achunk a) ls
  end.

Lemma sessions_encodes a l ls :
  encodes a l -> Forall (Forall valid_sample) ls ->
  Z.of_nat (length (l ++ mjoin ls)) <= 65535 ->
  exists a', sessions (achunk a) ls = Ok (achunk a') /\ encodes a' (l ++ mjoin ls).
Proof.
  intros Ha Hls. revert a l Ha. induction Hls as [|l' ls Hl' _ IH]; intros a l Ha Hlen.
  - exists a. cbn. by rewrite app_nil_r.
  - cbn [mjoin list_join] in *. rewrite app_assoc in *.
    destruct (Appender_encodes a l Ha) as (a1 & HA & Ha1).
    destruct (encodes_append_all a1 l l' Ha1) as (a2 & HA2 & Ha2); [|done|].
    { rewrite !length_app in *. lia. }
    destruct (IH a2 (l ++ l') Ha2 Hlen) as (a' & HS & Ha').
    exists a'. split; [|done]. cbn [sessions]. rewrite HA. cbn [res_bind]. rewrite HA2. done.
Qed.

(** C32: the chunk codec is lossless.  Samples appended to a new chunk, in any
    number of sessions that each reopen the chunk, are what its iterator gives
    back, in order, for all int64 times (however the deltas overflow) and all
    float64 bit patterns (NaN payloads included), up to the 65535 samples the
    header can count; [NumSamples] is their number. *)
Theorem chunk_roundtrip (ls : list (list sample)) :
  Forall (Forall valid_sample) ls -> Z.of_nat (length (mjoin ls)) <= 65535 ->
  exists c, sessions NewXORChunk ls = Ok c /\ decode c = Ok (mjoin ls) /\
    NumSamples c = Ok (Z.of_nat (length (mjoin ls))).
Proof.
  intros Hls Hlen.
  destruct (sessions_encodes first_appender [] ls encodes_first Hls Hlen) as (a & HS & Ha).
  exists (achunk a). split_and!; [done|by apply decode_encodes|by apply NumSamples_encodes in Ha].
Qed.

Lemma chunk_roundtrip_witness :
  exists c, sessions NewXORChunk [[(-5, 1); (MaxInt64, 2 ^ 63)]; [(MinInt64, 2 ^ 64 - 1)]] = Ok c /\
    decode c = Ok [(-5, 1); (MaxInt64, 2 ^ 63); (MinInt64, 2 ^ 64 - 1)] /\
    NumSamples c = Ok 3.
Proof.
  apply (chunk_roundtrip [[(-5, 1); (MaxInt64, 2 ^ 63)]; [(MinInt64, 2 ^ 64 - 1)]]).
  - repeat constructor; by vm_compute.
  - by vm_compute.
Defined.

(** C37: iterating over a chunk made from arbitrary bytes never panics: however
    the data is corrupted or truncated, [Next] returns a sample, the end or an
    error.  Only data too short for the two header bytes panics, when the
    iterator is made. *)
Theorem chunk_iteration_safe (d : list Z) (fuel : nat) :
  Forall is_byte d ->
  exists c, FromData EncXOR d = Ok c /\
    if decide (2 <= length d)%nat
    then exists it l, iterator c = Ok it /\ fst (drain fuel it) = Ok l
    else iterator c = Panic.
Proof.
  intros Hd. eexists. split; [reflexivity|]. case_decide.
  - destruct (iterator_safe d) as (it & Hit & Hs); [done..|].
    destruct (drain_safe fuel it Hs) as [l Hl]. by exists it, l.
  - unfold iterator, Uint16, UintN. cbn. destruct d as [|x [|y d]]; try done. simpl in *. lia.
Qed.

Lemma chunk_iteration_safe_witness :
  exists c, FromData EncXOR [0; 9; 200; 1; 255; 255; 255; 3] = Ok c /\
    exists it l, iterator c = Ok it /\ fst (drain 20 it) = Ok l.
Proof.
  apply (chunk_iteration_safe [0; 9; 200; 1; 255; 255; 255; 3] 20).
  by repeat constructor.
Defined.

(** The last append to a chunk, past the range of its counter. *)
Lemma Append_overflow a l t v :
  encodes a l -> Z.of_nat (length l) = 65535 -> is_u64 v ->
  exists a', Append a t v = Ok a' /\ has_header (ab a') /\ take 16 (wbits (ab a')) = bits_be 16 0.
Proof.
  intros [Hwf Hh Hnum Hval _ _] Hlen Hv. pose proof Hwf as (Hw & ? & ?).
  unfold Append. rewrite header_Uint16, Hnum, bits_val_bits_be by done.
  change (2 ^ Z.of_nat 16) with 65536. rewrite Z.mod_small, Hlen by lia.
  cbn [res_bind Z.eqb Pos.eqb]. eexists. split; [reflexivity|]. cbn [ab].
  set (dod := i64 _).
  destruct (writeDod_spec (ab a) dod Hw) as [Hw1 E1].
  destruct (writeVDelta_spec (a_write a (writeDod (ab a) dod)) v)
    as (bits & _ & (Hw2 & _ & _) & E2); [by apply wf_appender_intro|done..|].
  cbn [ab a_write] in E2.
  destruct (put_num_spec (ab (writeVDelta (a_write a (writeDod (ab a) dod)) v)) (u16 (65535 + 1)))
    as [Hh' E]; [split; [done|]; destruct Hh; rewrite E2, E1, !length_app; lia|].
  split; [done|]. rewrite E. by rewrite take_app_length' by by rewrite length_bits_be.
Qed.

(** C38: the sample counter of a chunk is a uint16 and [Append] does not check
    it: the 65536th sample wraps it to 0, and the whole chunk then reads back
    as empty.  The bound of [chunk_roundtrip] is therefore exact. *)
Theorem chunk_counter_wraps (a : xorAppender) (l : list sample) (t : Z) (v : float64) :
  encodes a l -> Z.of_nat (length l) = 65535 -> is_u64 v ->
  exists a', Append a t v = Ok a' /\ NumSamples (achunk a') = Ok 0 /\ decode (achunk a') = Ok [].
Proof.
  intros Ha Hlen Hv. destruct (Append_overflow a l t v Ha Hlen Hv) as (a' & HA & Hh & E).
  exists a'. assert (EN : NumSamples (achunk a') = Ok 0).
  { unfold NumSamples, Bytes. cbn [cb achunk]. by rewrite header_Uint16, E. }
  split; [done|]. split; [done|]. unfold decode, iterator. unfold NumSamples in EN.
  by rewrite EN.
Qed.

Lemma chunk_counter_wraps_witness :
  exists a l, encodes a l /\ Z.of_nat (length l) = 65535 /\
    exists a', Append a 7 0 = Ok a' /\ NumSamples (achunk a') = Ok 0 /\ decode (achunk a') = Ok [].
Proof.
  assert (exists n, Z.of_nat n = 65535) as [n Hn]
    by (exists (Z.to_nat 65535); by apply Z2Nat.id).
  set (l := replicate n (0, 0) : list sample).
  assert (Hl : Z.of_nat (length l) = 65535) by (unfold l; by rewrite length_replicate).
  destruct (encodes_append_all first_appender [] l encodes_first) as (a & _ & Ha).
  - cbn [app]. lia.
  - apply Forall_replicate. by split.
  - exists a, l. split; [exact Ha|]. split; [exact Hl|].
    apply (chunk_counter_wraps a l 7 0 Ha Hl). by split.
Defined.
