(* ===== verification/Chunks.v ===== *)
(** chunks/chunks.go: chunk metadata, and the segment files chunks are written
    to and read from. *)
From S2P Require Import Prelude Bits BitStream Varint Crc32 XorChunk.
#[local] Open Scope list_scope.
#[local] Open Scope Z_scope.

(** * Meta *)

(** Generally only one of the reference and the chunk is set; a nil chunk is
    [None].  [C] is the type of chunks: the Chunk interface. *)
Record Meta (C : Type) := mkMeta { m_Ref : Z; m_Chunk : option C; m_MinTime : Z; m_MaxTime : Z }.
Arguments mkMeta {C}.
Arguments m_Ref {C}.
Arguments m_Chunk {C}.
Arguments m_MinTime {C}.
Arguments m_MaxTime {C}.

Definition OverlapsClosedInterval {C} (cm : Meta C) (mint maxt : Z) : bool :=
  (m_MinTime cm <=? maxt) && (mint <=? m_MaxTime cm).

(** The bytes hashed for a chunk: its encoding and its data. *)
Definition writeHash (c : XORChunk) : list Z := Encoding c :: Bytes c.

(** * Writer *)

Definition MagicChunks : Z := 0x85BD40DD.
Definition chunksFormatV1 : Z := 1.
Definition defaultChunkSegmentSize : Z := 512 * 1024 * 1024.

(** [files] are the contents of the segment files in order, as they are once the
    buffered writer is flushed and the preallocated tail cut off, which happens
    before anything reads them; [wbuf] is nil exactly before the first file. *)
Record Writer := mkWriter { w_files : list (list Z); w_n : Z; w_segmentSize : Z }.

Definition NewWriter : Writer := mkWriter [] 0 defaultChunkSegmentSize.

(** [make([]byte, 8)] with the magic number and the format. *)
Definition segment_header : list Z := PutUint32 MagicChunks ++ [chunksFormatV1; 0; 0; 0].

Definition cut (w : Writer) : Writer := mkWriter (w_files w ++ [segment_header]) 8 (w_segmentSize w).

(** [w.seq()]. *)
Definition seq (w : Writer) : Z := zlen (w_files w) - 1.

(** Writing goes to the last file. *)
Definition write (w : Writer) (b : list Z) : res Writer :=
  match last (w_files w) with
  | None => Panic
  | Some f =>
      Ok (mkWriter (take (length (w_files w) - 1) (w_files w) ++ [f ++ b]) (w_n w + zlen b) (w_segmentSize w))
  end.

(** The space one chunk is assumed to need: length, encoding, data (not the
    checksum). *)
Fixpoint maxLen (chks : list XORChunk) : Z :=
  match chks with
  | [] => Z.of_nat MaxVarintLen32
  | c :: chks => maxLen chks + Z.of_nat MaxVarintLen32 + 1 + zlen (Bytes c)
  end.

Definition needs_cut (w : Writer) (chks : list XORChunk) : bool :=
  let newsz := w_n w + maxLen chks in
  match w_files w with [] => true | _ => false end
  || (w_segmentSize w <? w_n w)
  || ((w_segmentSize w <? newsz) && (maxLen chks <=? w_segmentSize w)).

(** [binary.PutUvarint(b[:], x)] into the 5 byte buffer panics when it does not fit. *)
Definition put_len (x : Z) : res (list Z) :=
  if (length (PutUvarint x) <=? MaxVarintLen32)%nat then Ok (PutUvarint x) else Panic.

(** The loop body: the new reference of the chunk, and the four writes. *)
Definition write_chunk (w : Writer) (c : XORChunk) : res (Z * Writer) :=
  let ref := Z.lor (shlU 64 (u64 (seq w)) 32) (u64 (w_n w)) in
  let? len := put_len (zlen (Bytes c)) in
  let? w := write w len in
  let? w := write w [Encoding c] in
  let? w := write w (Bytes c) in
  let? w := write w (PutUint32 (crc32 (writeHash c))) in
  Ok (ref, w).

Fixpoint write_chunks (w : Writer) (chks : list (Meta XORChunk)) : res (list (Meta XORChunk) * Writer) :=
  match chks with
  | [] => Ok ([], w)
  | m :: chks =>
      match m_Chunk m with
      | None => Panic
      | Some c =>
          let? (ref, w) := write_chunk w c in
          let? (ms, w) := write_chunks w chks in
          Ok (mkMeta ref (Some c) (m_MinTime m) (m_MaxTime m) :: ms, w)
      end
  end.

(** The chunks of the metas; calling a method of a nil chunk panics. *)
Fixpoint all_chunks {C} (chks : list (Meta C)) : res (list C) :=
  match chks with
  | [] => Ok []
  | m :: chks =>
      match m_Chunk m with
      | None => Panic
      | Some c => let? cs := all_chunks chks in Ok (c :: cs)
      end
  end.

(** Sets the references of the metas it is given. *)
Definition WriteChunks (w : Writer) (chks : list (Meta XORChunk)) : res (list (Meta XORChunk) * Writer) :=
  let? cs := all_chunks chks in
  let w := if needs_cut w cs then cut w else w in
  write_chunks w chks.

(** * Reader *)

(** The byte slices of the segments. *)
Record Reader := mkReader { rd_bs : list (list Z) }.

Fixpoint check_magic (bs : list (list Z)) : res unit :=
  match bs with
  | [] => Ok tt
  | b :: bs =>
      if zlen b <? 4 then Err ErrInvalidSize
      else
        let? m := Uint32 b in
        if negb (m =? MagicChunks) then Err (ErrMsg "invalid magic number") else check_magic bs
  end.

Definition newReader (bs : list (list Z)) : res Reader :=
  let? _ := check_magic bs in Ok (mkReader bs).

(** [b.Range(a, e)], a slice whose capacity extends to the end of [b]. *)
Definition Range (b : list Z) (a e : Z) : res (list Z) := slice b a e.

(** [r[1:1+l]] reaches past the length of [r = b[off+n : off+n+l]], up to its
    capacity.  [get_pooled] is the object the pool hands out. *)
Definition Chunk (get_pooled : XORChunk) (s : Reader) (ref : Z) : res XORChunk :=
  let seq := shrU ref 32 in
  let off := shrU (shlU 64 ref 32) 32 in
  if zlen (rd_bs s) <=? seq then Err (ErrMsg "reference sequence out of range")
  else
    let? b := index (rd_bs s) seq in
    if zlen b <=? off then Err (ErrMsg "offset beyond data size")
    else
      let? r := Range b off (off + Z.of_nat MaxVarintLen32) in
      let '(l, n) := Uvarint r in
      if n <=? 0 then Err (ErrMsg "reading chunk length failed")
      else
        let? r := Range b (off + n) (off + n + i64 l) in
        let? enc := index r 0 in
        let? data := slice (drop (Z.to_nat (off + n)) b) 1 (u64 (1 + l)) in
        pool_Get get_pooled enc data.

(** * Proofs *)

Lemma last_snoc_take {A} (l : list A) x : last l = Some x -> take (length l - 1) l ++ [x] = l.
Proof.
  intros [l' ->]%last_Some. rewrite length_app. cbn [length]. rewrite Nat.add_sub.
  by rewrite take_app_length.
Qed.

(** The last file holds [w_n] bytes, fewer than 2^32, and each file starts with
    the header. *)
Record w_inv (w : Writer) : Prop := {
  wi_last f : last (w_files w) = Some f -> w_n w = zlen f;
  wi_header : Forall (fun f => exists r, f = segment_header ++ r) (w_files w);
}.

(** Every file of [w] is a prefix of the same file of [w']. *)
Definition extends (w w' : Writer) : Prop :=
  forall i f, w_files w !! i = Some f -> exists r, w_files w' !! i = Some (f ++ r).

Lemma extends_refl w : extends w w.
Proof. intros i f Hf. exists []. by rewrite app_nil_r. Qed.

Lemma extends_trans w1 w2 w3 : extends w1 w2 -> extends w2 w3 -> extends w1 w3.
Proof.
  intros H1 H2 i f Hf. destruct (H1 i f Hf) as [r Hr]. destruct (H2 i _ Hr) as [r' Hr'].
  exists (r ++ r'). by rewrite (assoc_L (++)).
Qed.

Lemma write_spec w b f :
  w_inv w -> last (w_files w) = Some f ->
  exists w', write w b = Ok w' /\ w_inv w' /\ extends w w' /\ last (w_files w') = Some (f ++ b) /\
    length (w_files w') = length (w_files w) /\ w_segmentSize w' = w_segmentSize w.
Proof.
  intros [Hn Hh] Hf. unfold write. rewrite Hf. eexists. split; [done|].
  pose proof (last_snoc_take _ _ Hf) as E. destruct (proj1 (last_Some _ _) Hf) as [fs Ef].
  rewrite Ef in *. rewrite length_app in *. cbn [length] in *. rewrite Nat.add_sub, take_app_length in *.
  split_and!; cbn [w_files w_n w_segmentSize].
  - split; cbn [w_files w_n].
    + intros f' Hf'. rewrite last_snoc in Hf'. injection Hf' as <-.
      rewrite (Hn f) by by rewrite last_snoc. unfold zlen. rewrite length_app. lia.
    + apply Forall_app in Hh as [Hh1 Hh2]. apply Forall_app. split; [done|]. constructor; [|done].
      destruct (Forall_inv Hh2) as [r ->]. exists (r ++ b). by rewrite (assoc_L (++)).
  - intros i g Hg. cbn [w_files]. rewrite Ef in Hg.
    apply lookup_app_Some in Hg as [Hg|[Hi Hg]].
    + exists []. rewrite app_nil_r. by apply lookup_app_l_Some.
    + exists b. rewrite lookup_app_r by done. destruct (i - length fs)%nat; [|done]. cbn in *. by simplify_eq.
  - by rewrite last_snoc.
  - rewrite length_app. cbn. lia.
  - done.
Qed.

(** ** One chunk *)

Lemma length_uvarint_bytes fuel k x :
  0 <= x < 2 ^ (7 * Z.of_nat k) -> (0 < k)%nat -> (length (uvarint_bytes fuel x) <= k)%nat.
Proof.
  revert k x. induction fuel as [|fuel IH]; intros k x Hx Hk; cbn [uvarint_bytes]; [cbn; lia|].
  destruct (Z.leb_spec 128 x) as [H128|]; [|cbn; lia]. cbn [length].
  destruct k as [|[|k]]; [lia|cbn in Hx; lia|].
  assert (length (uvarint_bytes fuel (shrU x 7)) <= S k)%nat; [|lia]. apply IH; [|lia].
  replace (7 * Z.of_nat (S k)) with (7 * Z.of_nat (S (S k)) - 7) by lia. apply shrU_7_range; [lia|done].
Qed.

Definition chunk_ok (c : XORChunk) : Prop := 1 <= zlen (Bytes c) < 2 ^ 32.

#[export] Instance chunk_ok_dec c : Decision (chunk_ok c).
Proof. unfold chunk_ok. apply _. Defined.

(** The bytes of a chunk in a segment. *)
Definition chunk_record (c : XORChunk) : list Z :=
  PutUvarint (zlen (Bytes c)) ++ [Encoding c] ++ Bytes c ++ PutUint32 (crc32 (writeHash c)).

Lemma put_len_ok c : chunk_ok c -> put_len (zlen (Bytes c)) = Ok (PutUvarint (zlen (Bytes c))).
Proof.
  intros Hc. unfold put_len. rewrite (proj2 (Nat.leb_le _ _)); [done|].
  apply length_uvarint_bytes; [|unfold MaxVarintLen32; lia]. unfold chunk_ok in Hc.
  change (2 ^ (7 * Z.of_nat MaxVarintLen32)) with (2 ^ 35). lia.
Qed.

Lemma write_chunk_spec w c f :
  w_inv w -> last (w_files w) = Some f -> chunk_ok c ->
  exists w', write_chunk w c = Ok (Z.lor (shlU 64 (u64 (seq w)) 32) (u64 (zlen f)), w') /\
    w_inv w' /\ extends w w' /\ last (w_files w') = Some (f ++ chunk_record c) /\
    length (w_files w') = length (w_files w) /\ w_segmentSize w' = w_segmentSize w.
Proof.
  intros Hw Hf Hc. unfold write_chunk. rewrite (wi_last _ Hw f Hf), (put_len_ok c Hc). cbn [res_bind].
  destruct (write_spec w (PutUvarint (zlen (Bytes c))) f Hw Hf) as (w1 & -> & Hw1 & X1 & Hf1 & L1 & S1).
  cbn [res_bind]. destruct (write_spec w1 [Encoding c] _ Hw1 Hf1) as (w2 & -> & Hw2 & X2 & Hf2 & L2 & S2).
  cbn [res_bind]. destruct (write_spec w2 (Bytes c) _ Hw2 Hf2) as (w3 & -> & Hw3 & X3 & Hf3 & L3 & S3).
  cbn [res_bind]. destruct (write_spec w3 (PutUint32 (crc32 (writeHash c))) _ Hw3 Hf3) as (w4 & -> & Hw4 & X4 & Hf4 & L4 & S4).
  exists w4. split; [done|]. split; [done|]. split.
  - eapply extends_trans; [|done]. eapply extends_trans; [|done]. by eapply extends_trans.
  - split_and!; [|congruence|congruence]. rewrite Hf4. unfold chunk_record. by rewrite !(assoc_L (++)).
Qed.

(** The chunk [c] is stored at [ref] in the files [fs]. *)
Definition stored (fs : list (list Z)) (ref : Z) (c : XORChunk) : Prop :=
  exists i pre post,
    fs !! i = Some (pre ++ chunk_record c ++ post) /\ Z.of_nat i < 2 ^ 32 /\ zlen pre < 2 ^ 32 /\
    ref = Z.lor (shlU 64 (u64 (Z.of_nat i)) 32) (u64 (zlen pre)).

Lemma stored_extends w w' ref c : extends w w' -> stored (w_files w) ref c -> stored (w_files w') ref c.
Proof.
  intros Hx (i & pre & post & Hi & ? & ? & ->). destruct (Hx i _ Hi) as [r Hr].
  exists i, pre, (post ++ r). split_and!; try done. by rewrite Hr, <- !(assoc_L (++)).
Qed.

(** A reference splits into the segment and the offset. *)
Lemma ref_parts i off :
  0 <= i < 2 ^ 32 -> 0 <= off < 2 ^ 32 ->
  let ref := Z.lor (shlU 64 (u64 i) 32) (u64 off) in
  shrU ref 32 = i /\ shrU (shlU 64 ref 32) 32 = off.
Proof.
  intros Hi Ho. cbn zeta. rewrite !u64_small by (unfold is_u; lia).
  assert (E : Z.lor (shlU 64 i 32) off = i * 2 ^ 32 + off).
  { unfold shlU. change (32 <? 64) with true. cbn match.
    rewrite Z.shiftl_mul_pow2, wrapU_small by (unfold is_u; lia). by apply lor_add. }
  rewrite E. unfold shrU, shlU. change (32 <? 64) with true. cbn match.
  rewrite !Z.shiftr_div_pow2, Z.shiftl_mul_pow2 by lia. unfold wrapU. split; zlia.
Qed.

(** ** Reading back *)

Lemma zlen_PutUint32 x : zlen (PutUint32 x) = 4.
Proof. unfold zlen, PutUint32. by rewrite length_be_bytes. Qed.

Lemma zlen_PutUvarint c : chunk_ok c -> 1 <= zlen (PutUvarint (zlen (Bytes c))) <= 5.
Proof.
  intros Hc. pose proof (length_PutUvarint (zlen (Bytes c))).
  pose proof (length_uvarint_bytes MaxVarintLen64 5 (zlen (Bytes c))) as Hl. unfold chunk_ok in Hc.
  change (2 ^ (7 * Z.of_nat 5)) with (2 ^ 35) in Hl. fold (PutUvarint (zlen (Bytes c))) in Hl.
  unfold zlen in *. lia.
Qed.

Lemma drop_zlen_app {A} (l k : list A) n : n = zlen l -> drop (Z.to_nat n) (l ++ k) = k.
Proof. intros ->. unfold zlen. rewrite Nat2Z.id. apply drop_app_length. Qed.

Lemma take_zlen_app {A} (l k : list A) n : n = zlen l -> take (Z.to_nat n) (l ++ k) = l.
Proof. intros ->. unfold zlen. rewrite Nat2Z.id. apply take_app_length. Qed.

(** The slice of a concatenation that is exactly its middle part. *)
Lemma slice_mid {A} (p m s : list A) a b :
  a = zlen p -> b = zlen p + zlen m -> slice (p ++ m ++ s) a b = Ok m.
Proof.
  intros -> ->. pose proof (zlen_nonneg p). pose proof (zlen_nonneg m). pose proof (zlen_nonneg s).
  rewrite slice_ok by (rewrite ?zlen_app; lia).
  rewrite drop_zlen_app by done. f_equal. apply take_zlen_app. lia.
Qed.

Lemma Chunk_stored pooled fs ref c :
  chunk_ok c -> stored fs ref c -> Chunk pooled (mkReader fs) ref = Ok (mk_XORChunk (mk_bstream (Bytes c) 0)).
Proof.
  intros Hc (i & pre & post & Hi & Hi32 & Hp32 & ->).
  pose proof (zlen_nonneg pre). pose proof (zlen_nonneg post). pose proof (zlen_PutUvarint c Hc) as Hu.
  destruct (ref_parts (Z.of_nat i) (zlen pre)) as [E1 E2]; [lia|lia|].
  unfold Chunk. rewrite E1, E2. cbn [rd_bs].
  assert (Hlt : Z.of_nat i < zlen fs) by (apply lookup_lt_Some in Hi; unfold zlen; lia).
  destruct (Z.leb_spec (zlen fs) (Z.of_nat i)); [lia|].
  unfold index at 1. rewrite (proj2 (Z.leb_le 0 _)), Nat2Z.id, Hi by lia. cbn [res_bind].
  set (u := PutUvarint (zlen (Bytes c))) in *. set (crc := PutUint32 (crc32 (writeHash c))).
  assert (Hb : pre ++ chunk_record c ++ post = pre ++ u ++ [Encoding c] ++ Bytes c ++ crc ++ post).
  { unfold chunk_record. by rewrite <- !(assoc_L (++)). }
  rewrite Hb. assert (Hcrc : zlen crc = 4) by apply zlen_PutUint32.
  assert (Henc : zlen [Encoding c] = 1) by done. unfold chunk_ok in Hc.
  destruct (Z.leb_spec (zlen (pre ++ u ++ [Encoding c] ++ Bytes c ++ crc ++ post)) (zlen pre)) as [Hl|_].
  { rewrite !zlen_app in Hl. lia. }
  unfold Range. rewrite slice_ok by (rewrite ?zlen_app; unfold MaxVarintLen32; lia).
  cbn [res_bind]. rewrite drop_zlen_app by done.
  replace (zlen pre + Z.of_nat MaxVarintLen32 - zlen pre) with 5 by (unfold MaxVarintLen32; lia).
  rewrite take_app_ge by (unfold zlen in *; lia). unfold u at 1.
  rewrite Uvarint_PutUvarint by (unfold is_u; lia). fold u. fold (zlen u).
  destruct (Z.leb_spec (zlen u) 0); [lia|].
  rewrite i64_small by (unfold is_s; lia).
  assert (Hs : slice (pre ++ u ++ [Encoding c] ++ Bytes c ++ crc ++ post) (zlen pre + zlen u)
      (zlen pre + zlen u + zlen (Bytes c)) = Ok (take (Z.to_nat (zlen (Bytes c))) (Encoding c :: Bytes c ++ crc ++ post))).
  { rewrite slice_ok by (rewrite ?zlen_app; lia).
    rewrite (assoc_L (++)), drop_zlen_app by (rewrite zlen_app; lia).
    f_equal. f_equal. lia. }
  rewrite Hs. cbn [res_bind]. unfold index. cbn [Z.leb Z.compare].
  rewrite lookup_take_lt by lia. cbn [lookup list_lookup]. cbn [res_bind].
  rewrite (assoc_L (++) pre u), drop_zlen_app by (rewrite zlen_app; lia).
  rewrite u64_small by (unfold is_u; lia).
  rewrite (slice_mid [Encoding c] (Bytes c) (crc ++ post)) by lia.
  done.
Qed.

(** ** Batches *)

Fixpoint records_len (cs : list XORChunk) : Z :=
  match cs with [] => 0 | c :: cs => zlen (chunk_record c) + records_len cs end.

Lemma records_len_nonneg cs : 0 <= records_len cs.
Proof. induction cs as [|c cs IH]; cbn [records_len]; [lia|]. pose proof (zlen_nonneg (chunk_record c)). lia. Qed.

(** [m'] is [m] with its reference set to where its chunk is stored. *)
Definition written (fs : list (list Z)) (m m' : Meta XORChunk) : Prop :=
  m_MinTime m' = m_MinTime m /\ m_MaxTime m' = m_MaxTime m /\ m_Chunk m' = m_Chunk m /\
  exists c, m_Chunk m = Some c /\ chunk_ok c /\ stored fs (m_Ref m') c.

Lemma written_extends w w' m m' : extends w w' -> written (w_files w) m m' -> written (w_files w') m m'.
Proof.
  intros Hx (? & ? & ? & c & ? & ? & ?). split_and!; try done. exists c. split_and!; try done.
  by eapply stored_extends.
Qed.

Lemma write_chunks_spec w chks cs f :
  w_inv w -> last (w_files w) = Some f -> all_chunks chks = Ok cs -> Forall chunk_ok cs ->
  zlen f + records_len cs <= 2 ^ 32 -> zlen (w_files w) <= 2 ^ 32 ->
  exists ms w', write_chunks w chks = Ok (ms, w') /\ w_inv w' /\ extends w w' /\
    zlen (w_files w') = zlen (w_files w) /\ w_segmentSize w' = w_segmentSize w /\
    Forall2 (written (w_files w')) chks ms.
Proof.
  revert w f cs. induction chks as [|m chks IH]; intros w f cs Hw Hf Hcs Hok Hlen Hfiles; cbn [write_chunks].
  { exists [], w. split_and!; try done. apply extends_refl. }
  cbn [all_chunks] in Hcs. destruct (m_Chunk m) as [c|] eqn:Em; [|done].
  destruct (all_chunks chks) as [cs'| |] eqn:Ecs; cbn in Hcs; simplify_eq.
  apply Forall_cons in Hok as [Hc Hok]. cbn [records_len] in Hlen.
  destruct (write_chunk_spec w c f Hw Hf Hc) as (w1 & -> & Hw1 & X1 & Hf1 & L1 & S1). cbn [res_bind].
  pose proof (zlen_nonneg (chunk_record c)). pose proof (records_len_nonneg cs').
  destruct (IH w1 (f ++ chunk_record c) cs' Hw1 Hf1) as (ms & w2 & -> & Hw2 & X2 & L2 & S2 & Hms); try done.
  { rewrite zlen_app. lia. } { unfold zlen in *. lia. }
  cbn [res_bind]. do 2 eexists. split; [done|]. split; [done|]. split; [by eapply extends_trans|].
  split; [unfold zlen in *; congruence|]. split; [congruence|]. constructor; [|done].
  split_and!; try done. exists c. split_and!; try done. eapply stored_extends; [exact X2|].
  assert (Hu : 1 <= zlen (chunk_record c)).
  { unfold chunk_record. rewrite zlen_app. pose proof (zlen_PutUvarint c Hc).
    pose proof (zlen_nonneg ([Encoding c] ++ Bytes c ++ PutUint32 (crc32 (writeHash c)))). lia. }
  assert (Hpos : (0 < length (w_files w))%nat) by (apply last_Some in Hf as [? ->]; rewrite length_app; cbn; lia).
  exists (length (w_files w) - 1)%nat, f, []. rewrite app_nil_r. split_and!.
  - rewrite <- L1, <- Hf1, last_lookup. f_equal. lia.
  - unfold zlen in *. lia.
  - lia.
  - cbn [m_Ref]. unfold seq, zlen. replace (Z.of_nat (length (w_files w)) - 1) with (Z.of_nat (length (w_files w) - 1)) by lia. done.
Qed.

Lemma cut_spec w : w_inv w -> w_inv (cut w) /\ extends w (cut w) /\ last (w_files (cut w)) = Some segment_header.
Proof.
  intros [Hn Hh]. unfold cut. split_and!; cbn [w_files w_n].
  - split; cbn [w_files w_n].
    + intros f Hf. rewrite last_snoc in Hf. by injection Hf as <-.
    + apply Forall_app. split; [done|]. constructor; [|done]. exists []. by rewrite app_nil_r.
  - intros i f Hf. exists []. rewrite app_nil_r. cbn [w_files]. by apply lookup_app_l_Some.
  - by rewrite last_snoc.
Qed.

Lemma WriteChunks_spec w chks cs :
  w_inv w -> all_chunks chks = Ok cs -> Forall chunk_ok cs ->
  records_len cs <= 2 ^ 31 -> 0 <= w_segmentSize w <= 2 ^ 30 -> zlen (w_files w) < 2 ^ 32 ->
  exists ms w', WriteChunks w chks = Ok (ms, w') /\ w_inv w' /\ extends w w' /\
    zlen (w_files w') <= zlen (w_files w) + 1 /\ w_segmentSize w' = w_segmentSize w /\
    Forall2 (written (w_files w')) chks ms.
Proof.
  intros Hw Hcs Hok Hlen Hseg Hfiles. unfold WriteChunks. rewrite Hcs. cbn [res_bind].
  destruct (needs_cut w cs) eqn:Ec.
  - destruct (cut_spec w Hw) as (Hw1 & X1 & Hf1). assert (L1 : zlen (w_files (cut w)) = zlen (w_files w) + 1).
    { unfold cut; cbn [w_files]. by rewrite zlen_app. }
    destruct (write_chunks_spec (cut w) chks cs segment_header Hw1 Hf1 Hcs Hok) as (ms & w' & -> & ? & X2 & L2 & S2 & ?).
    { change (zlen segment_header) with 8. lia. } { lia. }
    exists ms, w'. split_and!; try done; [by eapply extends_trans|lia].
  - unfold needs_cut in Ec. rewrite !orb_false_iff in Ec. destruct Ec as ((Hne & Hn) & _).
    apply Z.ltb_ge in Hn. destruct (last (w_files w)) as [f|] eqn:Hf.
    + pose proof (wi_last _ Hw f Hf).
      destruct (write_chunks_spec w chks cs f Hw Hf Hcs Hok) as (ms & w' & -> & ? & X2 & L2 & S2 & ?); [lia|lia|].
      exists ms, w'. split_and!; try done. lia.
    + apply last_None in Hf. by rewrite Hf in Hne.
Qed.

Lemma newReader_ok w : w_inv w -> newReader (w_files w) = Ok (mkReader (w_files w)).
Proof.
  intros [_ Hh]. unfold newReader. assert (check_magic (w_files w) = Ok tt) as ->; [|done].
  induction Hh as [|f fs [r ->] _ IH]; [done|]. cbn [check_magic].
  rewrite (proj2 (Z.ltb_ge _ _)) by (rewrite zlen_app; change (zlen segment_header) with 8; pose proof (zlen_nonneg r); lia).
  unfold segment_header, Uint32. rewrite <- (assoc_L (++)). unfold PutUint32 at 1. rewrite UintN_app.
  cbn [res_bind]. change (MagicChunks mod 2 ^ (8 * Z.of_nat 4)) with MagicChunks.
  by rewrite Z.eqb_refl.
Qed.

(** A sequence of [WriteChunks] calls. *)
Fixpoint write_batches (w : Writer) (batches : list (list (Meta XORChunk))) :
    res (list (list (Meta XORChunk)) * Writer) :=
  match batches with
  | [] => Ok ([], w)
  | chks :: batches =>
      let? (ms, w) := WriteChunks w chks in
      let? (mss, w) := write_batches w batches in
      Ok (ms :: mss, w)
  end.

Definition batch_ok (chks : list (Meta XORChunk)) : Prop :=
  exists cs, all_chunks chks = Ok cs /\ Forall chunk_ok cs /\ records_len cs <= 2 ^ 31.

Lemma write_batches_spec w batches :
  w_inv w -> Forall batch_ok batches -> 0 <= w_segmentSize w <= 2 ^ 30 ->
  zlen (w_files w) + zlen batches <= 2 ^ 32 ->
  exists mss w', write_batches w batches = Ok (mss, w') /\ w_inv w' /\ extends w w' /\
    Forall2 (Forall2 (written (w_files w'))) batches mss.
Proof.
  intros Hw Hb. revert w Hw. induction Hb as [|chks batches (cs & Hcs & Hok & Hlen) _ IH]; intros w Hw Hseg Hfiles.
  { exists [], w. split_and!; try done. apply extends_refl. }
  assert (Hz : zlen (chks :: batches) = 1 + zlen batches) by (unfold zlen; cbn [length]; lia).
  pose proof (zlen_nonneg batches). pose proof (zlen_nonneg (w_files w)).
  destruct (WriteChunks_spec w chks cs Hw Hcs Hok Hlen Hseg) as (ms & w1 & E & Hw1 & X1 & L1 & S1 & Hms); [lia|].
  destruct (IH w1 Hw1) as (mss & w2 & E' & Hw2 & X2 & Hmss); [by rewrite S1|lia|].
  exists (ms :: mss), w2. cbn [write_batches]. rewrite E. cbn [res_bind]. rewrite E'.
  split; [done|]. split; [done|]. split; [by eapply extends_trans|]. constructor; [|done].
  eapply Forall2_impl; [exact Hms|]. intros m m'. by apply written_extends.
Qed.

(** * Properties *)

(** Chunk segments round trip.  Whatever batches of chunks a new writer is
    given (each at most 2 GiB, every chunk at least a byte), all of them are
    written, across as many segment files as are cut; the files are accepted
    by the reader, and each meta that is returned keeps its times and carries a
    reference under which the reader finds the same data, whatever object the
    chunk pool reuses. *)
Theorem chunks_roundtrip (batches : list (list (Meta XORChunk))) :
  Forall batch_ok batches -> zlen batches <= 2 ^ 32 ->
  exists mss w rd, write_batches NewWriter batches = Ok (mss, w) /\ newReader (w_files w) = Ok rd /\
    Forall2 (Forall2 (fun m m' => m_MinTime m' = m_MinTime m /\ m_MaxTime m' = m_MaxTime m /\
      exists c, m_Chunk m = Some c /\ forall pooled, exists c',
        Chunk pooled rd (m_Ref m') = Ok c' /\ Bytes c' = Bytes c)) batches mss.
Proof.
  intros Hb Hlen. destruct (write_batches_spec NewWriter batches) as (mss & w & E & Hw & _ & Hmss); try done.
  exists mss, w, (mkReader (w_files w)). split; [done|]. split; [by apply newReader_ok|].
  eapply Forall2_impl; [exact Hmss|]. intros ms ms' Hms. eapply Forall2_impl; [exact Hms|].
  intros m m' (? & ? & _ & c & Hc & Hok & Hst). split; [done|]. split; [done|]. exists c. split; [done|].
  intros pooled. eexists. split; [by apply Chunk_stored|done].
Qed.

Lemma chunks_roundtrip_witness :
  let c1 := mk_XORChunk (mk_bstream [0; 1; 7; 9] 0) in
  let c2 := mk_XORChunk (mk_bstream [0; 0] 0) in
  let batches := [[mkMeta 0 (Some c1) 1 5; mkMeta 0 (Some c2) 6 8]; [mkMeta 0 (Some c2) 9 10]] in
  exists mss w rd, write_batches NewWriter batches = Ok (mss, w) /\ newReader (w_files w) = Ok rd /\
    Forall2 (Forall2 (fun m m' => m_MinTime m' = m_MinTime m /\ m_MaxTime m' = m_MaxTime m /\
      exists c, m_Chunk m = Some c /\ forall pooled, exists c',
        Chunk pooled rd (m_Ref m') = Ok c' /\ Bytes c' = Bytes c)) batches mss.
Proof.
  apply chunks_roundtrip; [|by vm_compute].
  repeat apply Forall_cons_2; [..|apply Forall_nil_2];
    (eexists; split; [reflexivity|]; split; decided).
Defined.
