(* ===== verification/ChunksDir.v ===== *)
(** chunks/chunks.go once more, with its files: the writer with its buffer and
    preallocated segment files, and the reader of a directory.  They refine the
    writer and the reader of Chunks. *)
From S2P Require Import Prelude Bits BitStream Varint Crc32 Order Files XorChunk Chunks.
#[local] Open Scope list_scope.
#[local] Open Scope Z_scope.

(** This package has its own copies of these two. *)
Definition chunk_sequenceFiles (dir : directory) : list Z := sequenceFiles dir.
Definition chunk_nextSequenceFile (dir : directory) : Z := nextSequenceFile dir.

(** * Writer *)

(** A file is its name and the position of its handle. *)
Record DirWriter := mkDirWriter {
  dw_dir : directory; dw_files : list (Z * Z); dw_wbuf : option (list Z); dw_n : Z; dw_segmentSize : Z }.

Definition NewDirWriter (dir : directory) : DirWriter := mkDirWriter dir [] None 0 defaultChunkSegmentSize.

Definition wbufSize : Z := 8 * 1024 * 1024.

Definition tail (w : DirWriter) : option (Z * Z) := last (dw_files w).

(** What goes from the buffer to the last file. *)
Definition tail_write (w : DirWriter) (out : list Z) (wbuf : list Z) (n : Z) : DirWriter :=
  match tail w with
  | None => mkDirWriter (dw_dir w) (dw_files w) (Some wbuf) n (dw_segmentSize w)
  | Some (name, pos) =>
      mkDirWriter (alter (fun c => write_at c pos out) name (dw_dir w))
        (take (length (dw_files w) - 1) (dw_files w) ++ [(name, pos + zlen out)]) (Some wbuf) n (dw_segmentSize w)
  end.

(** [wbuf.Flush]. *)
Definition dw_flush (w : DirWriter) : DirWriter :=
  match dw_wbuf w with None => w | Some buf => tail_write w buf [] (dw_n w) end.

(** What was preallocated and not written is cut off. *)
Definition finalizeTail (w : DirWriter) : DirWriter :=
  match tail w with
  | None => w
  | Some _ =>
      let w := dw_flush w in
      match tail w with
      | None => w
      | Some (name, pos) =>
          mkDirWriter (alter (fun c => truncate_at c pos) name (dw_dir w)) (dw_files w) (dw_wbuf w) (dw_n w) (dw_segmentSize w)
      end
  end.

Definition dw_cut (w : DirWriter) : DirWriter :=
  let w := finalizeTail w in
  let p := chunk_nextSequenceFile (dw_dir w) in
  let f := write_at (Preallocate (default [] (dw_dir w !! p)) (dw_segmentSize w) true) 0 segment_header in
  mkDirWriter (<[p := f]> (dw_dir w)) (dw_files w ++ [(p, 8)]) (Some []) 8 (dw_segmentSize w).

Definition dw_seq (w : DirWriter) : Z := zlen (dw_files w) - 1.

Definition dw_write (w : DirWriter) (b : list Z) : res DirWriter :=
  match dw_wbuf w with
  | None => Panic
  | Some buf => let '(out, buf) := bufio_Write wbufSize buf b in Ok (tail_write w out buf (dw_n w + zlen b))
  end.

Definition dw_write_chunk (w : DirWriter) (c : XORChunk) : res (Z * DirWriter) :=
  let ref := Z.lor (shlU 64 (u64 (dw_seq w)) 32) (u64 (dw_n w)) in
  let? len := put_len (zlen (Bytes c)) in
  let? w := dw_write w len in
  let? w := dw_write w [Encoding c] in
  let? w := dw_write w (Bytes c) in
  let? w := dw_write w (PutUint32 (crc32 (writeHash c))) in
  Ok (ref, w).

Fixpoint dw_write_chunks (w : DirWriter) (chks : list (Meta XORChunk)) : res (list (Meta XORChunk) * DirWriter) :=
  match chks with
  | [] => Ok ([], w)
  | m :: chks =>
      match m_Chunk m with
      | None => Panic
      | Some c =>
          let? (ref, w) := dw_write_chunk w c in
          let? (ms, w) := dw_write_chunks w chks in
          Ok (mkMeta ref (Some c) (m_MinTime m) (m_MaxTime m) :: ms, w)
      end
  end.

Definition dw_needs_cut (w : DirWriter) (chks : list XORChunk) : bool :=
  let newsz := dw_n w + maxLen chks in
  match dw_wbuf w with None => true | Some _ => false end
  || (dw_segmentSize w <? dw_n w)
  || ((dw_segmentSize w <? newsz) && (maxLen chks <=? dw_segmentSize w)).

Definition dw_WriteChunks (w : DirWriter) (chks : list (Meta XORChunk)) : res (list (Meta XORChunk) * DirWriter) :=
  let? cs := all_chunks chks in
  let w := if dw_needs_cut w cs then dw_cut w else w in
  dw_write_chunks w chks.

Definition dw_Close (w : DirWriter) : DirWriter := finalizeTail w.

(** * Reader *)

(** [fileutil.OpenMmapFile]: an empty file cannot be mapped. *)
Definition OpenMmapFile (dir : directory) (name : Z) : res (list Z) :=
  match dir !! name with
  | None => Err ErrNotFound
  | Some [] => Err (ErrMsg "mmap")
  | Some c => Ok c
  end.

Fixpoint map_files (dir : directory) (files : list Z) : res (list (list Z)) :=
  match files with
  | [] => Ok []
  | fn :: files => let? b := OpenMmapFile dir fn in let? bs := map_files dir files in Ok (b :: bs)
  end.

Definition NewDirReader (dir : directory) : res Reader :=
  let? bs := map_files dir (chunk_sequenceFiles dir) in newReader bs.

(** [closeAll] of this package: the last error. *)
Definition chunks_closeAll (cs : list (option error)) : option error :=
  foldl (fun err e => match e with Some e => Some e | None => err end) None cs.

Definition Reader_Close (closers : list (option error)) : option error := chunks_closeAll closers.

(** * Proofs *)

(** The writer with files is at the state [w] of the abstract one: its files, but for
    what is in the buffer and what was preallocated. *)
Definition rep (dw : DirWriter) (w : Writer) : Prop :=
  dw_n dw = w_n w /\ dw_segmentSize dw = w_segmentSize w /\
  ((w_files w = [] /\ dw_files dw = [] /\ dw_wbuf dw = None /\ dw_dir dw = ∅) \/
   exists fs pre written buf n,
     w_files w = fs ++ [written ++ buf] /\ dw_files dw = pre ++ [(1 + zlen fs, zlen written)] /\ length pre = length fs /\
     dw_wbuf dw = Some buf /\ dw_dir dw = seg_dir 1 (fs ++ [written ++ zeros n])).

(** A write to the last file. *)
Lemma tail_write_last dw fs pre written out buf n k :
  dw_files dw = pre ++ [(1 + zlen fs, zlen written)] -> dw_dir dw = seg_dir 1 (fs ++ [written ++ zeros n]) ->
  exists n', tail_write dw out buf k =
    mkDirWriter (seg_dir 1 (fs ++ [(written ++ out) ++ zeros n'])) (pre ++ [(1 + zlen fs, zlen (written ++ out))]) (Some buf) k (dw_segmentSize dw).
Proof.
  intros E1 E2. exists (n - length out)%nat. unfold tail_write, tail. rewrite E1, last_snoc, E2, length_app. cbn [length].
  rewrite Nat.add_sub, take_app_length, zlen_app. f_equal.
  rewrite !seg_dir_snoc, alter_insert. f_equal. by rewrite write_at_zeros, (assoc_L (++)).
Qed.

Lemma write_rep dw w b w' : rep dw w -> write w b = Ok w' -> exists dw', dw_write dw b = Ok dw' /\ rep dw' w'.
Proof.
  intros (En & Es & [(E1 & _)|(fs & pre & written & buf & n & E1 & E2 & El & E3 & E4)]); unfold write, dw_write; rewrite E1; [done|].
  rewrite last_snoc. intros [= <-]. rewrite E3. destruct (bufio_Write wbufSize buf b) as [out buf'] eqn:Eb.
  apply bufio_Write_app in Eb. destruct (tail_write_last dw fs pre written out buf' n (dw_n dw + zlen b) E2 E4) as (n' & ->).
  eexists. split; [done|]. split; [by rewrite <- En|]. split; [done|]. right.
  exists fs, pre, (written ++ out), buf', n'. split_and!; try done. cbn [w_files].
  rewrite length_app. cbn [length]. rewrite Nat.add_sub, take_app_length. f_equal. f_equal. by rewrite <- !(assoc_L (++)), Eb.
Qed.

Lemma seq_rep dw w : rep dw w -> dw_seq dw = seq w.
Proof.
  intros (_ & _ & [(E1 & E2 & _)|(fs & pre & written & buf & n & E1 & E2 & El & _)]); unfold dw_seq, seq; rewrite E1, E2; [done|].
  unfold zlen. rewrite !length_app, El. done.
Qed.

Lemma write_chunk_rep dw w c ref w' :
  rep dw w -> write_chunk w c = Ok (ref, w') -> exists dw', dw_write_chunk dw c = Ok (ref, dw') /\ rep dw' w'.
Proof.
  intros Hr. unfold write_chunk, dw_write_chunk. rewrite (seq_rep dw w Hr). pose proof Hr as (-> & _).
  intros (len & -> & (w1 & E1 & (w2 & E2 & (w3 & E3 & (w4 & E4 & [= <- <-])%res_bind_ok)%res_bind_ok)%res_bind_ok)%res_bind_ok)%res_bind_ok.
  cbn [res_bind].
  destruct (write_rep _ _ _ _ Hr E1) as (d1 & -> & Hr1). cbn [res_bind].
  destruct (write_rep _ _ _ _ Hr1 E2) as (d2 & -> & Hr2). cbn [res_bind].
  destruct (write_rep _ _ _ _ Hr2 E3) as (d3 & -> & Hr3). cbn [res_bind].
  destruct (write_rep _ _ _ _ Hr3 E4) as (d4 & -> & Hr4). by exists d4.
Qed.

Lemma write_chunks_rep dw w chks ms w' :
  rep dw w -> write_chunks w chks = Ok (ms, w') -> exists dw', dw_write_chunks dw chks = Ok (ms, dw') /\ rep dw' w'.
Proof.
  revert dw w ms w'. induction chks as [|m chks IH]; intros dw w ms w' Hr; cbn [write_chunks dw_write_chunks].
  { intros [= <- <-]. by exists dw. }
  destruct (m_Chunk m) as [c|]; [|done].
  intros ([ref w1] & E1 & ([ms1 w2] & E2 & [= <- <-])%res_bind_ok)%res_bind_ok.
  destruct (write_chunk_rep _ _ _ _ _ Hr E1) as (d1 & -> & Hr1). cbn [res_bind].
  destruct (IH _ _ _ _ Hr1 E2) as (d2 & -> & Hr2). by exists d2.
Qed.

(** Finalized, the files are those of the abstract writer. *)
Lemma finalizeTail_rep dw w : rep dw w ->
  exists files buf n, finalizeTail dw = mkDirWriter (seg_dir 1 (w_files w)) files buf n (w_segmentSize w) /\ length files = length (w_files w).
Proof.
  intros (En & Es & [(E1 & E2 & _ & E4)|(fs & pre & written & buf & n & E1 & E2 & El & E3 & E4)]); unfold finalizeTail.
  { unfold tail. rewrite E2, E1, <- Es. destruct dw as [dir files wbuf n size]; cbn in *. subst dir files. by exists [], wbuf, n. }
  unfold tail at 1. rewrite E2, last_snoc. unfold dw_flush. rewrite E3.
  destruct (tail_write_last dw fs pre written buf [] n (dw_n dw) E2 E4) as (n' & ->).
  unfold tail. cbn [dw_files]. rewrite last_snoc. cbn [dw_dir dw_files dw_segmentSize]. eexists _, _, _. rewrite E1, <- Es. split.
  - f_equal. rewrite !seg_dir_snoc, alter_insert. f_equal. by apply truncate_at_zeros.
  - by rewrite !length_app, El.
Qed.

Lemma last_seg_dir i cs : 0 <= i -> nextSequenceFile (seg_dir i cs) = match cs with [] => 1 | _ => i + zlen cs end.
Proof.
  intros Hi. unfold nextSequenceFile. rewrite sequenceFiles_seg_dir. destruct cs as [|c cs] using rev_ind; [done|].
  rewrite fmap_last, last_numbered. cbn [default fmap option_fmap option_map fst]. unfold id.
  rewrite zlen_app. change (zlen [c]) with 1. destruct cs; cbn [app]; unfold zlen; cbn [length]; lia.
Qed.

Lemma cut_rep dw w : rep dw w -> rep (dw_cut dw) (cut w).
Proof.
  intros Hr. destruct (finalizeTail_rep dw w Hr) as (files & buf & n0 & Ef & El). unfold dw_cut, cut.
  rewrite Ef. cbn [dw_dir dw_files dw_segmentSize]. unfold chunk_nextSequenceFile.
  assert (En : nextSequenceFile (seg_dir 1 (w_files w)) = 1 + zlen (w_files w)).
  { rewrite last_seg_dir by done. by destruct (w_files w). }
  rewrite En. assert (seg_dir 1 (w_files w) !! (1 + zlen (w_files w)) = None) as ->.
  { rewrite seg_dir_lookup. unfold zlen. rewrite decide_True by lia. apply lookup_ge_None_2. lia. }
  cbn [default]. destruct (Preallocate_new (w_segmentSize w)) as (n & -> & _).
  split; [done|]. split; [done|]. right. cbn [w_files dw_files dw_wbuf dw_dir].
  exists (w_files w), files, segment_header, [], (n - length segment_header)%nat.
  split; [by rewrite app_nil_r|]. split; [done|]. split; [done|]. split; [done|].
  rewrite seg_dir_snoc. f_equal. change (zeros n) with ([] ++ zeros n). by rewrite write_at_zeros.
Qed.

Lemma needs_cut_rep dw w cs : rep dw w -> dw_needs_cut dw cs = needs_cut w cs.
Proof.
  unfold dw_needs_cut, needs_cut. intros (-> & -> & [(-> & _ & -> & _)|(fs & pre & written & buf & n & -> & _ & _ & -> & _)]); [done|].
  by destruct fs.
Qed.

Lemma WriteChunks_rep dw w chks ms w' :
  rep dw w -> WriteChunks w chks = Ok (ms, w') -> exists dw', dw_WriteChunks dw chks = Ok (ms, dw') /\ rep dw' w'.
Proof.
  intros Hr. unfold WriteChunks, dw_WriteChunks. intros (cs & -> & E)%res_bind_ok. cbn [res_bind].
  rewrite (needs_cut_rep dw w cs Hr). eapply write_chunks_rep; [|exact E].
  destruct (needs_cut w cs); [by apply cut_rep|done].
Qed.

(** ** Reading the directory *)

Lemma map_files_numbered i cs dir :
  (forall k c, cs !! k = Some c -> dir !! (i + Z.of_nat k) = Some c /\ c <> []) ->
  map_files dir (fst <$> numbered i cs) = Ok cs.
Proof.
  revert i. induction cs as [|c cs IH]; intros i H; [done|]. cbn [numbered fmap list_fmap map_files fst].
  destruct (H 0%nat c eq_refl) as [Hc Hne]. rewrite Z.add_0_r in Hc. unfold OpenMmapFile. rewrite Hc.
  destruct c as [|x c]; [done|]. cbn [res_bind]. rewrite IH; [done|].
  intros k c' Hk. replace (i + 1 + Z.of_nat k) with (i + Z.of_nat (S k)) by lia. by apply (H (S k)).
Qed.

Lemma NewDirReader_seg_dir cs : Forall (fun c => c <> []) cs -> NewDirReader (seg_dir 1 cs) = newReader cs.
Proof.
  intros Hne. unfold NewDirReader, chunk_sequenceFiles. rewrite sequenceFiles_seg_dir, map_files_numbered; [done|].
  intros k c Hk. rewrite seg_dir_lookup, decide_True by lia. replace (Z.to_nat (1 + Z.of_nat k - 1)) with k by lia.
  split; [done|]. rewrite Forall_forall in Hne. apply Hne. by eapply list_elem_of_lookup_2.
Qed.

(** A sequence of [WriteChunks] calls. *)
Fixpoint dw_write_batches (w : DirWriter) (batches : list (list (Meta XORChunk))) :
    res (list (list (Meta XORChunk)) * DirWriter) :=
  match batches with
  | [] => Ok ([], w)
  | chks :: batches =>
      let? (ms, w) := dw_WriteChunks w chks in
      let? (mss, w) := dw_write_batches w batches in
      Ok (ms :: mss, w)
  end.

Lemma write_batches_rep dw w batches mss w' :
  rep dw w -> write_batches w batches = Ok (mss, w') -> exists dw', dw_write_batches dw batches = Ok (mss, dw') /\ rep dw' w'.
Proof.
  revert dw w mss w'. induction batches as [|chks batches IH]; intros dw w mss w' Hr; cbn [write_batches dw_write_batches].
  { intros [= <- <-]. by exists dw. }
  intros ([ms1 w1] & E1 & ([mss2 w2] & E2 & [= <- <-])%res_bind_ok)%res_bind_ok.
  destruct (WriteChunks_rep _ _ _ _ _ Hr E1) as (d1 & -> & Hr1). cbn [res_bind].
  destruct (IH _ _ _ _ Hr1 E2) as (d2 & -> & Hr2). by exists d2.
Qed.

Lemma new_writer_rep : rep (NewDirWriter ∅) NewWriter.
Proof. split; [done|]. split; [done|]. by left. Qed.

(** * Properties *)

(** C34: chunk files round trip.  Whatever batches of chunks a new writer is given in
    an empty directory (each at most 2 GiB, every chunk at least a byte), all of them
    are written, through the buffer and across as many preallocated segment files as
    are cut.  After closing, the files are exactly those of the writer without
    buffer and preallocation; the directory is accepted by the reader, and each
    meta that is returned keeps its times and carries a reference under which the
    reader finds the same data, whatever object the chunk pool reuses. *)
Theorem chunk_files_roundtrip (batches : list (list (Meta XORChunk))) :
  Forall batch_ok batches -> zlen batches <= 2 ^ 32 ->
  exists mss w w' rd, write_batches NewWriter batches = Ok (mss, w) /\
    dw_write_batches (NewDirWriter ∅) batches = Ok (mss, w') /\
    dw_dir (dw_Close w') = seg_dir 1 (w_files w) /\ NewDirReader (dw_dir (dw_Close w')) = Ok rd /\
    Forall2 (Forall2 (fun m m' => m_MinTime m' = m_MinTime m /\ m_MaxTime m' = m_MaxTime m /\
      exists c, m_Chunk m = Some c /\ forall pooled, exists c',
        Chunk pooled rd (m_Ref m') = Ok c' /\ Bytes c' = Bytes c)) batches mss.
Proof.
  intros Hb Hlen. destruct (write_batches_spec NewWriter batches) as (mss & w & E & Hw & _ & Hmss); try done.
  destruct (write_batches_rep _ _ _ _ _ new_writer_rep E) as (dw & E' & Hr).
  destruct (finalizeTail_rep dw w Hr) as (files & buf & n & Ef & _).
  exists mss, w, dw, (mkReader (w_files w)). split; [done|]. split; [done|]. unfold dw_Close. rewrite Ef. cbn [dw_dir]. split; [done|].
  split.
  - rewrite NewDirReader_seg_dir; [by apply newReader_ok|]. eapply Forall_impl; [apply Hw|]. intros f (r & ->). done.
  - eapply Forall2_impl; [exact Hmss|]. intros ms ms' Hms. eapply Forall2_impl; [exact Hms|].
    intros m m' (? & ? & _ & c & Hc & Hok & Hst). split; [done|]. split; [done|]. exists c. split; [done|].
    intros pooled. eexists. split; [by apply Chunk_stored|done].
Qed.

Lemma chunk_files_roundtrip_witness :
  let c1 := mk_XORChunk (mk_bstream [0; 1; 7; 9] 0) in
  let c2 := mk_XORChunk (mk_bstream [0; 0] 0) in
  let batches := [[mkMeta 0 (Some c1) 1 5; mkMeta 0 (Some c2) 6 8]; [mkMeta 0 (Some c2) 9 10]] in
  exists mss w w' rd, write_batches NewWriter batches = Ok (mss, w) /\
    dw_write_batches (NewDirWriter ∅) batches = Ok (mss, w') /\
    dw_dir (dw_Close w') = seg_dir 1 (w_files w) /\ NewDirReader (dw_dir (dw_Close w')) = Ok rd /\
    Forall2 (Forall2 (fun m m' => m_MinTime m' = m_MinTime m /\ m_MaxTime m' = m_MaxTime m /\
      exists c, m_Chunk m = Some c /\ forall pooled, exists c',
        Chunk pooled rd (m_Ref m') = Ok c' /\ Bytes c' = Bytes c)) batches mss.
Proof.
  apply chunk_files_roundtrip; [|by vm_compute].
  repeat apply Forall_cons_2; [..|apply Forall_nil_2];
    (eexists; split; [reflexivity|]; split; decided).
Defined.
