(* ===== verification/Buffer.v ===== *)
(** tsdbutil/buffer.go: the buffered series iterator and its ring of samples;
    and the [SeriesIterator] interface of querier.go it wraps. *)
From S2P Require Import Prelude.
#[local] Open Scope list_scope.
#[local] Open Scope Z_scope.

(** A sample: a time and the bit pattern of a float64. *)
Abbreviation sample := (Z * Z)%type.

(** * The [SeriesIterator] interface *)

Class SeriesIterator (S : Type) := {
  si_Seek : S -> Z -> res (bool * S);
  si_At : S -> res sample;
  si_Next : S -> res (bool * S);
  si_Err : S -> option error;
}.

(** * sampleRing *)

Record sampleRing := mkRing {
  r_delta : Z;
  r_buf : list sample;
  r_i : Z;  (* position of most recent element in ring buffer *)
  r_f : Z;  (* position of first element in ring buffer *)
  r_l : Z;  (* number of elements in buffer *)
}.

Definition zero_sample : sample := (0, 0).

Definition ring_reset (r : sampleRing) : sampleRing := mkRing (r_delta r) (r_buf r) (-1) 0 0.

Definition newSampleRing (delta sz : Z) : sampleRing :=
  ring_reset (mkRing delta (replicate (Z.to_nat sz) zero_sample) 0 0 0).

(** [j := (r.f + i) % len(r.buf)] panics on an empty buffer. *)
Definition ring_at (r : sampleRing) (i : Z) : res sample :=
  if zlen (r_buf r) =? 0 then Panic else index (r_buf r) (Z.rem (r_f r + i) (zlen (r_buf r))).

(** [buf := make([]sample, 2*l); copy(buf[l+r.f:], r.buf[r.f:]); copy(buf, r.buf[:r.f])] *)
Definition ring_grow (r : sampleRing) : list sample :=
  let l := length (r_buf r) in
  let f := Z.to_nat (r_f r) in
  take f (r_buf r) ++ replicate l zero_sample ++ drop f (r_buf r).

(** The first part of [add]: room for the sample and its position. *)
Definition ring_place (r : sampleRing) : sampleRing :=
  let l := zlen (r_buf r) in
  if l =? r_l r then mkRing (r_delta r) (ring_grow r) (r_f r) (r_f r + l) (r_l r)
  else
    let i := r_i r + 1 in
    mkRing (r_delta r) (r_buf r) (if l <=? i then i - l else i) (r_f r) (r_l r).

(** The loop that frees the head; [l] is the length before growing. *)
Fixpoint ring_free (fuel : nat) (l t : Z) (r : sampleRing) : res sampleRing :=
  match fuel with
  | O => Panic
  | S fuel =>
      let? s := index (r_buf r) (r_f r) in
      if fst s <? i64 (t - r_delta r) then
        let f := r_f r + 1 in
        ring_free fuel l t (mkRing (r_delta r) (r_buf r) (r_i r) (if l <=? f then f - l else f) (r_l r - 1))
      else Ok r
  end.

(** With a non-negative delta the loop stops at the latest at the new sample:
    a lap around the buffer is enough fuel. *)
Definition ring_add (r : sampleRing) (t v : Z) : res sampleRing :=
  let l := zlen (r_buf r) in
  let r := ring_place r in
  let? buf := set_index (r_buf r) (r_i r) (t, v) in
  let r := mkRing (r_delta r) buf (r_i r) (r_f r) (r_l r + 1) in
  ring_free (S (length buf)) l t r.

Definition ring_last (r : sampleRing) : res (Z * Z * bool) :=
  if r_l r =? 0 then Ok (0, 0, false)
  else let? s := index (r_buf r) (r_i r) in Ok (fst s, snd s, true).

(** [make([]sample, r.l)], then the two copies. *)
Definition ring_samples (r : sampleRing) : res (list sample) :=
  let k := r_f r + r_l r in
  let '(k, j) := if zlen (r_buf r) <? k then (zlen (r_buf r), r_l r - zlen (r_buf r) + r_f r) else (k, 0) in
  let? a := slice (r_buf r) (r_f r) k in
  let? b := slice (r_buf r) 0 j in
  Ok (take (Z.to_nat (r_l r)) (a ++ b)).

(** ** sampleRingIterator *)

Record sampleRingIterator := mkRingIter { ri_r : sampleRing; ri_i : Z }.

Definition ring_iterator (r : sampleRing) : sampleRingIterator := mkRingIter r (-1).

#[export] Instance ring_iter_ops : SeriesIterator sampleRingIterator := {|
  si_Next it := let i := ri_i it + 1 in Ok (i <? r_l (ri_r it), mkRingIter (ri_r it) i);
  si_Seek it _ := Ok (false, it);
  si_At it := ring_at (ri_r it) (ri_i it);
  si_Err _ := None;
|}.

(** * BufferedSeriesIterator *)

Section Buffered.
Context {S : Type} `{SeriesIterator S}.

Record BufferedSeriesIterator := mkBuffered { bf_it : S; bf_buf : sampleRing; bf_lastTime : Z }.

Definition NewBuffer (it : S) (delta : Z) : BufferedSeriesIterator :=
  mkBuffered it (newSampleRing delta 16) MinInt64.

Definition PeekBack (b : BufferedSeriesIterator) : res (Z * Z * bool) := ring_last (bf_buf b).
Definition bf_Buffer (b : BufferedSeriesIterator) : sampleRingIterator := ring_iterator (bf_buf b).
Definition bf_At (b : BufferedSeriesIterator) : res sample := si_At (bf_it b).
Definition bf_Err (b : BufferedSeriesIterator) : option error := si_Err (bf_it b).

Definition bf_Next (b : BufferedSeriesIterator) : res (bool * BufferedSeriesIterator) :=
  let? s := bf_At b in
  let? buf := ring_add (bf_buf b) (fst s) (snd s) in
  let? (ok, it) := si_Next (bf_it b) in
  let b := mkBuffered it buf (bf_lastTime b) in
  if ok then let? s := bf_At b in Ok (true, mkBuffered it buf (fst s)) else Ok (false, b).

(** [for b.Next() { if b.lastTime >= t { return true } }]; the number of samples
    of the underlying iterator is the fuel. *)
Fixpoint bf_seek_loop (fuel : nat) (t : Z) (b : BufferedSeriesIterator) : res (bool * BufferedSeriesIterator) :=
  match fuel with
  | O => Ok (false, b)
  | Datatypes.S fuel =>
      let? (ok, b) := bf_Next b in
      if negb ok then Ok (false, b)
      else if t <=? bf_lastTime b then Ok (true, b) else bf_seek_loop fuel t b
  end.

Definition bf_Seek (fuel : nat) (b : BufferedSeriesIterator) (t : Z) : res (bool * BufferedSeriesIterator) :=
  let t0 := i64 (t - r_delta (bf_buf b)) in
  let? (ok, b) :=
    if bf_lastTime b <? t0 then
      let buf := ring_reset (bf_buf b) in
      let? (ok, it) := si_Seek (bf_it b) t0 in
      let b := mkBuffered it buf (bf_lastTime b) in
      if negb ok then Ok (false, b)
      else let? s := bf_At b in Ok (true, mkBuffered it buf (fst s))
    else Ok (true, b) in
  if negb ok then Ok (false, b)
  else if t <=? bf_lastTime b then Ok (true, b)
  else bf_seek_loop fuel t b.
End Buffered.
Arguments BufferedSeriesIterator : clear implicits.

Example ring_example :
  (let? r := ring_add (newSampleRing 5 2) 0 10 in
   let? r := ring_add r 1 11 in let? r := ring_add r 2 12 in let? r := ring_add r 6 16 in
   ring_samples r) = Ok [(1, 11); (2, 12); (6, 16)].
Proof. by vm_compute. Qed.

(** * Proofs: the ring *)

(** The ring holds the samples [xs], the oldest first. *)
Record holds (r : sampleRing) (xs : list sample) : Prop := {
  h_len : 0 < zlen (r_buf r);
  h_f : 0 <= r_f r < zlen (r_buf r);
  h_l : r_l r = zlen xs;
  h_fits : zlen xs <= zlen (r_buf r);
  h_i : -1 <= r_i r < zlen (r_buf r) /\ (r_i r + 1 - r_f r - zlen xs) mod zlen (r_buf r) = 0;
  h_at k x : xs !! k = Some x ->
    r_buf r !! Z.to_nat ((r_f r + Z.of_nat k) mod zlen (r_buf r)) = Some x;
}.

Fixpoint drop_old (b : Z) (xs : list sample) : list sample :=
  match xs with
  | [] => []
  | x :: xs' => if fst x <? b then drop_old b xs' else xs
  end.

Lemma mod_once a n : 0 <= a < 2 * n -> a mod n = if n <=? a then a - n else a.
Proof.
  intros ?. destruct (Z.leb_spec n a); [|apply Z.mod_small; lia].
  replace a with ((a - n) + 1 * n) at 1 by lia. rewrite Z.mod_add by lia. apply Z.mod_small. lia.
Qed.

Lemma holds_new delta sz : 0 < sz -> holds (newSampleRing delta sz) [].
Proof.
  intros Hsz. unfold newSampleRing, ring_reset, zlen; cbn [r_buf r_f r_l r_i].
  split; cbn [r_buf r_f r_l r_i]; unfold zlen; rewrite ?length_replicate; cbn [length]; try lia.
  - split; [lia|]. change (-1 + 1 - 0 - Z.of_nat 0) with 0. apply Z.mod_0_l. lia.
  - intros k x Hk. by rewrite lookup_nil in Hk.
Qed.

Lemma holds_head r x xs : holds r (x :: xs) -> index (r_buf r) (r_f r) = Ok x.
Proof.
  intros H. pose proof (h_f _ _ H). pose proof (h_at _ _ H 0 x eq_refl) as Hx.
  rewrite Z.add_0_r, Z.mod_small in Hx by lia. apply index_ok. split; [lia|done].
Qed.

(** Freeing the head, with the wrap-around at the length of the buffer. *)
Lemma holds_free r x xs :
  holds r (x :: xs) ->
  let f := r_f r + 1 in
  holds (mkRing (r_delta r) (r_buf r) (r_i r)
           (if zlen (r_buf r) <=? f then f - zlen (r_buf r) else f) (r_l r - 1)) xs.
Proof.
  intros [Hlen Hf Hl Hfits [Hi Hmod] Hat]. set (n := zlen (r_buf r)) in *.
  assert (Hz : zlen (x :: xs) = zlen xs + 1) by (unfold zlen; cbn [length]; lia).
  intros f. rewrite <- (mod_once f n) by (unfold f; lia).
  split; cbn [r_buf r_f r_l r_i]; fold n; try lia.
  - apply Z.mod_pos_bound. lia.
  - split; [lia|]. rewrite <- Hmod, Hz. rewrite <- (Z.sub_add_distr _ (f mod n)), Zminus_mod.
    rewrite Z.add_mod_idemp_l by lia. rewrite <- Zminus_mod. f_equal. unfold f. lia.
  - intros k y Hy. specialize (Hat (S k) y Hy).
    rewrite Z.add_mod_idemp_l by lia. replace (f + Z.of_nat k) with (r_f r + Z.of_nat (S k)); [done|].
    unfold f. lia.
Qed.

Lemma ring_free_spec fuel t r xs s :
  holds r (xs ++ [s]) -> i64 (t - r_delta r) <= fst s -> (length xs < fuel)%nat ->
  exists r', ring_free fuel (zlen (r_buf r)) t r = Ok r' /\ r_delta r' = r_delta r /\
    r_buf r' = r_buf r /\ holds r' (drop_old (i64 (t - r_delta r)) (xs ++ [s])).
Proof.
  intros Hr Hs. revert r Hr Hs fuel. induction xs as [|x xs IH]; intros r Hr Hs fuel Hf;
    (destruct fuel as [|fuel]; [lia|]); cbn [ring_free app drop_old];
    rewrite (holds_head _ _ _ Hr); cbn [res_bind].
  - rewrite (proj2 (Z.ltb_ge _ _)) by done. by exists r.
  - destruct (Z.ltb_spec (fst x) (i64 (t - r_delta r))); [|by exists r].
    destruct (IH _ (holds_free _ _ _ Hr) Hs fuel) as (r' & E & ? & ? & ?); [cbn in Hf; lia|].
    by exists r'.
Qed.

(** The newest position, one further, is where the next sample goes. *)
Lemma next_position f len i n :
  0 < n -> (i + 1 - f - len) mod n = 0 -> (i + 1) mod n = (f + len) mod n.
Proof.
  intros Hn Hm. pose proof (Z.div_mod (i + 1 - f - len) n ltac:(lia)) as E. rewrite Hm in E.
  replace (i + 1) with (f + len + (i + 1 - f - len) / n * n) by lia. apply Z.mod_add. lia.
Qed.

Lemma zlen_snoc {A} (l : list A) x : zlen (l ++ [x]) = zlen l + 1.
Proof. unfold zlen. rewrite length_app. cbn [length]. lia. Qed.

Lemma zlen_insert {A} (l : list A) i x : zlen (<[i := x]> l) = zlen l.
Proof. unfold zlen. by rewrite length_insert. Qed.

(** A sample written at its position extends the contents. *)
Lemma holds_write r xs s :
  holds r xs -> zlen xs < zlen (r_buf r) ->
  let i := (r_f r + zlen xs) mod zlen (r_buf r) in
  holds (mkRing (r_delta r) (<[Z.to_nat i := s]> (r_buf r)) i (r_f r) (r_l r + 1)) (xs ++ [s]).
Proof.
  intros [Hlen Hf Hl Hfits [Hi Hmod] Hat] Hroom. set (n := zlen (r_buf r)) in *. intros i.
  pose proof (Z.mod_pos_bound (r_f r + zlen xs) n Hlen) as Hib. fold i in Hib.
  split; cbn [r_buf r_f r_l r_i]; rewrite ?zlen_insert, ?zlen_snoc; fold n; try lia.
  - split; [lia|]. unfold i. replace ((r_f r + zlen xs) mod n + 1 - r_f r - (zlen xs + 1))
      with ((r_f r + zlen xs) mod n - (r_f r + zlen xs)) by lia.
    rewrite Zminus_mod, Z.mod_mod, Z.sub_diag by lia. apply Z.mod_0_l. lia.
  - intros k x Hk. assert (Hkl : Z.of_nat k <= zlen xs).
    { apply lookup_lt_Some in Hk. rewrite length_app in Hk. cbn in Hk. unfold zlen. lia. }
    destruct (decide (Z.of_nat k = zlen xs)) as [Ek|Nk].
    + rewrite Ek. fold i. unfold zlen in Ek. apply Nat2Z.inj in Ek. subst k.
      rewrite list_lookup_middle in Hk by done. simplify_eq.
      apply list_lookup_insert_eq. unfold n, zlen in Hib. lia.
    + rewrite lookup_app_l in Hk by (unfold zlen in *; lia). rewrite list_lookup_insert_ne; [by apply Hat|].
      unfold i. rewrite !mod_once by lia.
      destruct (Z.leb_spec n (r_f r + zlen xs)), (Z.leb_spec n (r_f r + Z.of_nat k)); lia.
Qed.

(** Growing keeps the contents. *)
Lemma holds_grow r xs :
  holds r xs -> zlen xs = zlen (r_buf r) ->
  holds (mkRing (r_delta r) (ring_grow r) (r_f r - 1) (r_f r + zlen (r_buf r)) (r_l r)) xs /\
  zlen (ring_grow r) = 2 * zlen (r_buf r).
Proof.
  intros [Hlen Hf Hl Hfits [Hi Hmod] Hat] Hfull. set (n := zlen (r_buf r)) in *.
  assert (Hg : zlen (ring_grow r) = 2 * n).
  { unfold ring_grow, n, zlen. rewrite !length_app, length_replicate, length_take, length_drop. lia. }
  split; [|done]. split; cbn [r_buf r_f r_l r_i]; rewrite ?Hg; try lia.
  - split; [lia|]. replace (r_f r - 1 + 1 - (r_f r + n) - zlen xs) with (-1 * (2 * n)) by lia.
    apply Z.mod_mul. lia.
  - intros k x Hk. assert (Hkl : Z.of_nat k < n).
    { apply lookup_lt_Some in Hk. unfold n, zlen in *. lia. }
    specialize (Hat k x Hk). rewrite mod_once in Hat by lia. rewrite mod_once by lia.
    unfold ring_grow. set (f := Z.to_nat (r_f r)).
    assert (Hft : length (take f (r_buf r)) = f) by (rewrite length_take; unfold n, zlen in *; lia).
    destruct (Z.leb_spec n (r_f r + Z.of_nat k)), (Z.leb_spec (2 * n) (r_f r + n + Z.of_nat k)); try lia.
    + rewrite lookup_app_l by (rewrite Hft; unfold f; lia).
      rewrite lookup_take_lt by (unfold f; lia). rewrite <- Hat. f_equal. lia.
    + rewrite lookup_app_r by (rewrite Hft; unfold f, n, zlen in *; lia).
      rewrite lookup_app_r by (rewrite length_replicate, Hft; unfold f, n, zlen in *; lia).
      rewrite lookup_drop, length_replicate, Hft, <- Hat. f_equal. unfold f, n, zlen in *. lia.
Qed.

(** A full ring grows before the sample is placed. *)
Definition grown (r : sampleRing) : sampleRing :=
  if zlen (r_buf r) =? r_l r
  then mkRing (r_delta r) (ring_grow r) (r_f r - 1) (r_f r + zlen (r_buf r)) (r_l r) else r.

Lemma grown_holds r xs : holds r xs -> holds (grown r) xs /\ zlen xs < zlen (r_buf (grown r)).
Proof.
  intros Hr. pose proof (h_l _ _ Hr). pose proof (h_fits _ _ Hr). pose proof (h_len _ _ Hr). unfold grown.
  destruct (Z.eqb_spec (zlen (r_buf r)) (r_l r)); [|split; [done|lia]].
  cbn [r_buf]. destruct (holds_grow r xs Hr) as [? ->]; [lia|]. split; [done|lia].
Qed.

(** [ring_place] puts the sample after the contents of the grown ring. *)
Lemma ring_place_grown r xs :
  holds r xs ->
  ring_place r = mkRing (r_delta r) (r_buf (grown r)) ((r_f (grown r) + zlen xs) mod zlen (r_buf (grown r)))
                   (r_f (grown r)) (r_l r).
Proof.
  intros Hr. unfold ring_place, grown. pose proof Hr as [Hlen Hf Hl Hfits [Hi Hmod] Hat].
  destruct (Z.eqb_spec (zlen (r_buf r)) (r_l r)) as [E|N]; cbn [r_buf r_f].
  - destruct (holds_grow r xs Hr) as [_ ->]; [lia|]. f_equal.
    replace (r_f r + zlen (r_buf r) + zlen xs) with (r_f r + 1 * (2 * zlen (r_buf r))) by lia.
    rewrite Z.mod_add by lia. symmetry. apply Z.mod_small. lia.
  - f_equal. rewrite <- (next_position _ _ _ _ Hlen Hmod). apply eq_sym, mod_once. lia.
Qed.

Lemma ring_add_spec r xs t v :
  holds r xs -> i64 (t - r_delta r) <= t ->
  zlen xs < zlen (r_buf r) \/ (exists x xs', xs = x :: xs' /\ i64 (t - r_delta r) <= fst x) ->
  exists r', ring_add r t v = Ok r' /\ r_delta r' = r_delta r /\
    holds r' (drop_old (i64 (t - r_delta r)) (xs ++ [(t, v)])).
Proof.
  intros Hr Ht Hcase. pose proof (h_l _ _ Hr) as Hl. unfold ring_add.
  rewrite (ring_place_grown r xs Hr). cbn [r_buf r_i r_f r_l r_delta].
  destruct (grown_holds r xs Hr) as [Hg Hroom]. pose proof (h_len _ _ Hg) as Hglen.
  rewrite set_index_ok by (by apply Z.mod_pos_bound). cbn [res_bind].
  pose proof (holds_write _ _ (t, v) Hg Hroom) as Hw. cbn in Hw.
  assert (r_delta (grown r) = r_delta r /\ r_l (grown r) = r_l r) as [Ed El]
    by (unfold grown; by destruct (_ =? _)).
  rewrite Ed, El in Hw. set (r1 := mkRing (r_delta r) _ _ _ _) in Hw.
  assert (Hfuel : (length xs < S (length (r_buf r1)))%nat).
  { pose proof (h_fits _ _ Hw) as Hfit. rewrite zlen_snoc in Hfit. unfold zlen in Hfit. lia. }
  destruct Hcase as [Hroom'|(x & xs' & -> & Hx)].
  - assert (Ez : zlen (r_buf r) = zlen (r_buf r1)).
    { unfold r1. cbn [r_buf]. rewrite zlen_insert. unfold grown.
      destruct (Z.eqb_spec (zlen (r_buf r)) (r_l r)); [lia|done]. }
    rewrite Ez. destruct (ring_free_spec _ t _ _ _ Hw Ht Hfuel) as (r' & E & ? & _ & ?).
    exists r'. split_and!; [exact E|done|done].
  - cbn [ring_free r_buf r_f r_delta]. pose proof (holds_head _ _ _ Hw) as Hh.
    unfold r1 in Hh. cbn [r_buf r_f] in Hh. rewrite Hh. cbn [res_bind].
    rewrite (proj2 (Z.ltb_ge _ _)) by done. exists r1. cbn [app drop_old].
    rewrite (proj2 (Z.ltb_ge _ _)) by done. done.
Qed.

Lemma ring_samples_spec r xs : holds r xs -> ring_samples r = Ok xs.
Proof.
  intros [Hlen Hf Hl Hfits [Hi Hmod] Hat]. unfold ring_samples. set (n := zlen (r_buf r)) in *.
  assert (Hbound : forall k, (k < length xs)%nat -> exists x, xs !! k = Some x)
    by (intros k ?; by apply lookup_lt_is_Some_2).
  rewrite Hl. destruct (Z.ltb_spec n (r_f r + zlen xs)) as [Hw|Hw].
  - rewrite !slice_ok by (fold n; lia). cbn [res_bind]. f_equal. apply list_eq. intros k.
    destruct (decide (k < length xs)%nat) as [Hk|Hk].
    + destruct (Hbound k Hk) as [x Hx]. rewrite Hx. specialize (Hat k x Hx). unfold zlen in Hw, Hfits.
      rewrite mod_once in Hat by lia. rewrite lookup_take_lt by (unfold zlen; lia).
      assert (Hla : length (take (Z.to_nat (n - r_f r)) (drop (Z.to_nat (r_f r)) (r_buf r))) = Z.to_nat (n - r_f r)).
      { rewrite length_take, length_drop. unfold n, zlen in *. lia. }
      destruct (Z.leb_spec n (r_f r + Z.of_nat k)).
      * rewrite lookup_app_r by (rewrite Hla; unfold n, zlen in *; lia). rewrite Hla, drop_0.
        rewrite lookup_take_lt by (unfold n, zlen in *; lia). rewrite <- Hat. f_equal. unfold n, zlen in *; lia.
      * rewrite lookup_app_l by (rewrite Hla; unfold n, zlen in *; lia).
        rewrite lookup_take_lt by (unfold n, zlen in *; lia). rewrite lookup_drop, <- Hat. f_equal.
        unfold n, zlen in *; lia.
    + rewrite !lookup_ge_None_2; [done|lia|]. rewrite length_take. unfold zlen. lia.
  - rewrite !slice_ok by (fold n; unfold zlen in *; lia). cbn [res_bind]. f_equal. apply list_eq. intros k.
    destruct (decide (k < length xs)%nat) as [Hk|Hk].
    + destruct (Hbound k Hk) as [x Hx]. rewrite Hx. specialize (Hat k x Hx). unfold zlen in Hw, Hfits.
      rewrite mod_once in Hat by lia. rewrite lookup_take_lt by (unfold zlen; lia).
      rewrite lookup_app_l by (rewrite length_take, length_drop; unfold n, zlen in *; lia).
      rewrite lookup_take_lt by (unfold n, zlen in *; lia). rewrite lookup_drop, <- Hat.
      destruct (Z.leb_spec n (r_f r + Z.of_nat k)); f_equal; unfold n, zlen in *; lia.
    + rewrite !lookup_ge_None_2; [done|lia|]. rewrite length_take. unfold zlen. lia.
Qed.

Lemma ring_last_spec r xs s :
  holds r (xs ++ [s]) -> 0 <= r_i r -> ring_last r = Ok (fst s, snd s, true).
Proof.
  intros [Hlen Hf Hl Hfits [Hi Hmod] Hat] Hpos. unfold ring_last. rewrite Hl, zlen_snoc.
  rewrite zlen_snoc in *. set (n := zlen (r_buf r)) in *.
  destruct (Z.eqb_spec (zlen xs + 1) 0); [unfold zlen in *; lia|].
  assert (Hx := Hat (length xs) s ltac:(by apply list_lookup_middle)).
  replace ((r_f r + Z.of_nat (length xs)) mod n) with (r_i r) in Hx.
  - unfold index. rewrite (proj2 (Z.leb_le _ _)) by lia. by rewrite Hx.
  - fold (zlen xs). pose proof (Z.div_mod (r_i r + 1 - r_f r - (zlen xs + 1)) n ltac:(lia)) as E.
    rewrite Hmod in E. rewrite <- (Z.mod_small (r_i r) n) by lia.
    replace (r_i r) with (r_f r + zlen xs + (r_i r + 1 - r_f r - (zlen xs + 1)) / n * n) at 1 by lia.
    by rewrite Z.mod_add by lia.
Qed.

(** * Properties *)

(** Adding a list of samples, one after the other. *)
Fixpoint ring_adds (r : sampleRing) (l : list sample) : res sampleRing :=
  match l with
  | [] => Ok r
  | s :: l => let? r := ring_add r (fst s) (snd s) in ring_adds r l
  end.

Lemma drop_old_all b xs : Forall (fun s => b <= fst s) xs -> drop_old b xs = xs.
Proof. intros [|x l Hx _]; [done|]. cbn. by rewrite (proj2 (Z.ltb_ge _ _)). Qed.

(** Samples that all lie within one delta are all kept, however the ring grows. *)
Lemma ring_adds_holds r xs l lo hi :
  holds r xs -> is_i64 (lo - r_delta r) -> is_i64 (hi - r_delta r) -> hi - r_delta r <= lo -> 0 <= r_delta r ->
  Forall (fun s => lo <= fst s <= hi) (xs ++ l) ->
  exists r', ring_adds r l = Ok r' /\ r_delta r' = r_delta r /\ holds r' (xs ++ l).
Proof.
  intros Hr Hlo Hhi Hd Hd0. revert r xs Hr Hlo Hhi Hd Hd0. induction l as [|[t v] l IH]; intros r xs Hr Hlo Hhi Hd Hd0 Hall.
  { exists r. by rewrite app_nil_r. }
  assert (Hall' : Forall (fun s => lo <= fst s <= hi) ((xs ++ [(t, v)]) ++ l)) by by rewrite <- (assoc_L (++)).
  pose proof Hall' as [Hxt _]%Forall_app. pose proof Hxt as [Hxs Ht%Forall_inv]%Forall_app. cbn [fst] in Ht.
  assert (Eb : i64 (t - r_delta r) = t - r_delta r) by (apply i64_small; unfold is_s in *; lia).
  destruct (ring_add_spec r xs t v Hr) as (r1 & E1 & Ed & Hr1); rewrite ?Eb; [lia| |].
  { destruct xs as [|x xs]; [left; cbn; pose proof (h_len _ _ Hr); unfold zlen in *; cbn; lia|].
    right. exists x, xs. split; [done|]. pose proof (Forall_inv Hxs). cbn in *. lia. }
  rewrite Eb, drop_old_all in Hr1.
  2:{ eapply Forall_impl; [exact Hxt|]. cbn. lia. }
  destruct (IH r1 (xs ++ [(t, v)]) Hr1) as (r' & E' & Ed' & Hr'); rewrite ?Ed; try done.
  exists r'. cbn [ring_adds fst snd]. rewrite E1. cbn [res_bind]. rewrite <- (assoc_L (++)) in Hr'.
  split_and!; [done|congruence|done].
Qed.

(** The ring buffer refines a list of samples: adding a sample appends it
    and drops from the front the samples that fell out of the delta range, and
    [samples] and [last] return that list and its newest element.  It holds as
    long as the buffer has room, or is full and its oldest sample stays in
    range. *)
Theorem ring_add_correct (r : sampleRing) (xs : list sample) (t v : Z) :
  holds r xs -> i64 (t - r_delta r) <= t ->
  zlen xs < zlen (r_buf r) \/ (exists x xs', xs = x :: xs' /\ i64 (t - r_delta r) <= fst x) ->
  exists r', ring_add r t v = Ok r' /\ holds r' (drop_old (i64 (t - r_delta r)) (xs ++ [(t, v)])) /\
    ring_samples r' = Ok (drop_old (i64 (t - r_delta r)) (xs ++ [(t, v)])).
Proof.
  intros Hr Ht Hcase. destruct (ring_add_spec r xs t v Hr Ht Hcase) as (r' & E & _ & Hr').
  exists r'. split_and!; [done|done|by apply ring_samples_spec].
Qed.

Lemma ring_add_correct_witness :
  exists r', ring_add (newSampleRing 5 16) 7 1 = Ok r' /\
    holds r' (drop_old (i64 (7 - 5)) ([] ++ [(7, 1)])) /\
    ring_samples r' = Ok (drop_old (i64 (7 - 5)) ([] ++ [(7, 1)])).
Proof.
  apply (ring_add_correct (newSampleRing 5 16) []); [by apply holds_new|decided|left; decided].
Defined.

(** When the buffer grows in the very call that also drops old samples, the
    freeing loop wraps around at the old length: with the default buffer of 16
    samples and a delta of 15, the sample that makes the 17th drops one sample
    too many or rather all the others, though 15 of them are in range. *)
Theorem ring_growth_loses :
  exists r xs r', ring_adds (newSampleRing 15 16) xs = Ok r /\ holds r xs /\
    ring_add r 16 0 = Ok r' /\ ring_samples r' = Ok [(16, 0)] /\
    drop_old (16 - 15) (xs ++ [(16, 0)]) = drop 1 xs ++ [(16, 0)].
Proof.
  set (xs := (fun k => (Z.of_nat k, 0)) <$> seq 0 16).
  destruct (ring_adds_holds (newSampleRing 15 16) [] xs 0 15) as (r & Hr & _ & Hh);
    [by apply holds_new|decided|decided|decided|decided|decided|].
  exists r, xs. assert (E : exists r', ring_add r 16 0 = Ok r' /\ ring_samples r' = Ok [(16, 0)]).
  { vm_compute in Hr. injection Hr as <-. eexists. split; by vm_compute. }
  destruct E as (r' & E1 & E2). exists r'. split_and!; done.
Qed.
