(* ===== verification/SeriesIter.v ===== *)
(** querier.go, the iterators over the samples of one series: the filter for
    deleted samples, the iterator over the chunks of a series and the iterator
    that chains the same series of several blocks. *)
From S2P Require Import Prelude Bits Varint BitStream XorChunk Tombstones Chunks Buffer.
#[local] Open Scope list_scope.
#[local] Open Scope Z_scope.

(** * Chunk iterators *)

(** [chunkenc.Iterator], with a bound on the samples left from which the loops
    take their fuel. *)
Class ChunkIterator (I : Type) := {
  ci_At : I -> Buffer.sample;
  ci_Err : I -> option error;
  ci_Next : I -> res (bool * I);
  ci_size : I -> nat;
}.

(** What the queries ask of a chunk: [chunkenc.Chunk] with [Iterator]. *)
Class ChunkIface (C I : Type) := ck_Iterator : C -> res I.

#[export] Instance xor_chunk_iterator : ChunkIterator xorIterator := {|
  ci_At := xor_At;
  ci_Err := xor_Err;
  ci_Next it := let '(r, it') := xor_Next it in let? b := r in Ok (b, it');
  ci_size it := Z.to_nat (numTotal it - numRead it);
|}.

#[export] Instance xor_chunk_iface : ChunkIface XORChunk xorIterator := XorChunk.Iterator.

(** The iterator gives the samples [l] and ends without an error. *)
Inductive gives {I} `{ChunkIterator I} : I -> list Buffer.sample -> Prop :=
| gives_nil it it' : ci_Next it = Ok (false, it') -> ci_Err it' = None -> gives it []
| gives_cons it it' l :
    ci_Next it = Ok (true, it') -> ci_Err it' = None -> gives it' l -> (length l < ci_size it)%nat ->
    gives it (ci_At it' :: l).

(** Calling [Next] and [At] on the iterator yields the samples [l]; then it ends
    without an error. *)
Inductive yields {S} `{SeriesIterator S} : S -> list Buffer.sample -> Prop :=
| yields_nil it it' : si_Next it = Ok (false, it') -> si_Err it' = None -> yields it []
| yields_cons it it' s l :
    si_Next it = Ok (true, it') -> si_At it' = Ok s -> yields it' l -> yields it (s :: l).

(** ** The samples of an XOR chunk *)

(** A successful [Next] counts one sample. *)
Definition counts (it : xorIterator) (r : res bool * xorIterator) : Prop :=
  forall it', r = (Ok true, it') ->
  numRead it' = u16 (numRead it + 1) /\ numTotal it' = numTotal it /\ it_err it' = it_err it.

Definition same_count (it it2 : xorIterator) : Prop :=
  numRead it2 = numRead it /\ numTotal it2 = numTotal it /\ it_err it2 = it_err it.

Lemma it_read_counts {A} it it0 (r : res A * bstream) k :
  same_count it0 it -> (forall a it', same_count it0 it' -> counts it0 (k it' a)) -> counts it0 (it_read it r k).
Proof. intros Hs Hk. destruct r as [[a|e|] b]; cbn; [by apply Hk|done|done]. Qed.

Lemma value_counts it it0 v : same_count it0 it -> counts it0 (Ok true, it_value it v).
Proof. intros (En & Et & Ee) it' [= <-]. cbn. by rewrite En. Qed.

Lemma same_count_refl it : same_count it it.
Proof. done. Qed.

#[local] Hint Resolve value_counts same_count_refl : counts.
#[local] Hint Extern 1 (counts _ (it_read _ _ _)) => eapply it_read_counts; [|intros] : counts.
#[local] Hint Extern 1 (same_count _ _) => assumption : counts.

Lemma read_significant_counts it it0 : same_count it0 it -> counts it0 (read_significant it).
Proof. unfold read_significant. auto with counts. Qed.
#[local] Hint Resolve read_significant_counts : counts.

Lemma readValue_counts it it0 : same_count it0 it -> counts it0 (readValue it).
Proof.
  unfold readValue. intros Hs. eapply it_read_counts; [done|]. intros [] ? ?; [|by auto with counts].
  eapply it_read_counts; [done|]. intros [] ? ?; auto 8 with counts.
Qed.
#[local] Hint Resolve readValue_counts : counts.

Lemma next_after_prefix_counts it it0 d : same_count it0 it -> counts it0 (next_after_prefix it d).
Proof.
  intros Hs. unfold next_after_prefix, next_sized, next_dod. repeat case_match;
    first [by apply readValue_counts|eapply it_read_counts; [done|]; intros; by apply readValue_counts].
Qed.

Lemma read_prefix_counts fuel it it0 d :
  same_count it0 it -> counts it0 (read_prefix fuel it d next_after_prefix).
Proof.
  revert it d. induction fuel as [|fuel IH]; intros it d Hs; cbn [read_prefix]; [by apply next_after_prefix_counts|].
  eapply it_read_counts; [done|]. intros [] ? ?; [by apply IH|by apply next_after_prefix_counts].
Qed.

Lemma xor_Next_counts it it' :
  xor_Next it = (Ok true, it') ->
  numRead it' = u16 (numRead it + 1) /\ numTotal it' = numTotal it /\ it_err it' = None.
Proof.
  intros Hn. cut (counts it (xor_Next it)).
  { intros (? & ? & ->)%(fun Hc => Hc it' Hn). split_and!; [done..|].
    unfold xor_Next in Hn. by destruct (it_err it). }
  unfold xor_Next. clear Hn. repeat case_match; [done|..].
  - eapply it_read_counts; [done|]. intros t it1 Hs1. eapply it_read_counts; [done|]. intros v it2 Hs2.
    by apply value_counts.
  - eapply it_read_counts; [done|]. intros t it1 Hs1. by apply readValue_counts.
  - by apply read_prefix_counts.
Qed.

Lemma reads_gives it l it' :
  reads it l it' -> it_err it' = None -> numRead it' = numTotal it' -> 0 <= numRead it ->
  numRead it + Z.of_nat (length l) <= numTotal it <= 65535 -> gives it l.
Proof.
  induction 1 as [it|it it1 l it' Hn Hr IH]; intros He Et H0 Hlen.
  - apply (gives_nil _ it); [|done]. cbn. unfold xor_Next. by rewrite Et, Z.eqb_refl, orb_true_r.
  - destruct (xor_Next_counts _ _ Hn) as (Enum & Etot & Eerr). cbn [length] in Hlen.
    rewrite u16_small in Enum by lia. specialize (IH He Et). rewrite Enum, Etot in IH.
    specialize (IH ltac:(lia) ltac:(lia)).
    change (xor_At it1) with (ci_At it1). apply gives_cons; [cbn; by rewrite Hn|done|done|].
    change (ci_size it) with (Z.to_nat (numTotal it - numRead it)).
    pose proof (eq_refl : @length XorChunk.sample l = @length Buffer.sample l). lia.
Qed.

(** The iterator of an appender's chunk gives the samples appended. *)
Lemma xor_gives a l : encodes a l -> exists it, Iterator (achunk a) = Ok it /\ gives it l.
Proof.
  intros Ha. destruct (iterator_encodes a l Ha) as (b & pad & Hit & Hb & E).
  destruct (enc_reads _ _ Ha b (Z.of_nat (length l)) pad Hb E) as (it' & Hr & Hs & _ & Htot); [lia|].
  pose proof (enc_length _ _ Ha). exists (fresh_it b (Z.of_nat (length l))). split; [done|].
  destruct Hs. eapply reads_gives; [exact Hr|done|congruence|done|cbn; lia].
Qed.

Section Iterators.
Context {C I : Type} `{ChunkIterator I} `{ChunkIface C I}.

(** ** deletedIterator *)

Record deletedIterator := mkDeleted { di_it : I; di_intervals : Intervals }.

(** The loop over the intervals at a sample of time [ts]: is it deleted, and the
    intervals left.  The ranged copy and [it.intervals] advance together. *)
Fixpoint di_scan (ts : Z) (ivs : Intervals) : bool * Intervals :=
  match ivs with
  | [] => (false, [])
  | tr :: ivs' =>
      if inBounds tr ts then (true, ivs)
      else if Maxt tr <? ts then di_scan ts ivs'
      else (false, ivs)
  end.

Fixpoint di_loop (fuel : nat) (it : deletedIterator) : res (bool * deletedIterator) :=
  match fuel with
  | O => Ok (false, it)
  | S fuel =>
      let? (ok, i) := ci_Next (di_it it) in
      if negb ok then Ok (false, mkDeleted i (di_intervals it))
      else
        let '(deleted, ivs) := di_scan (fst (ci_At i)) (di_intervals it) in
        if deleted then di_loop fuel (mkDeleted i ivs) else Ok (true, mkDeleted i ivs)
  end.

#[export] Instance deleted_ops : ChunkIterator deletedIterator := {|
  ci_At it := ci_At (di_it it);
  ci_Err it := ci_Err (di_it it);
  ci_Next it := di_loop (S (ci_size (di_it it))) it;
  ci_size it := ci_size (di_it it);
|}.

(** [it.cur]: the chunk's iterator, filtered when there are intervals. *)
Inductive cur_iter := Plain (it : I) | Deleted (it : deletedIterator).

#[export] Instance cur_ops : ChunkIterator cur_iter := {|
  ci_At c := match c with Plain it => ci_At it | Deleted it => ci_At it end;
  ci_Err c := match c with Plain it => ci_Err it | Deleted it => ci_Err it end;
  ci_Next c := match c with
               | Plain it => let? (ok, it) := ci_Next it in Ok (ok, Plain it)
               | Deleted it => let? (ok, it) := ci_Next it in Ok (ok, Deleted it)
               end;
  ci_size c := match c with Plain it => ci_size it | Deleted it => ci_size it end;
|}.

(** [c.Chunk.Iterator()], filtered when there are intervals. *)
Definition chunk_cur (m : Meta C) (ivs : Intervals) : res cur_iter :=
  match m_Chunk m with
  | None => Panic
  | Some c =>
      let? it := ck_Iterator c in
      if (0 <? length ivs)%nat then Ok (Deleted (mkDeleted it ivs)) else Ok (Plain it)
  end.

(** ** chunkSeriesIterator *)

Record chunkSeriesIterator := mkCsi {
  csi_chunks : list (Meta C); csi_i : Z; csi_cur : cur_iter;
  csi_mint : Z; csi_maxt : Z; csi_intervals : Intervals }.

Definition csi_at (it : chunkSeriesIterator) (i : Z) (cur : cur_iter) : chunkSeriesIterator :=
  mkCsi (csi_chunks it) i cur (csi_mint it) (csi_maxt it) (csi_intervals it).

Definition newChunkSeriesIterator (cs : list (Meta C)) (dranges : Intervals) (mint maxt : Z) :
    res chunkSeriesIterator :=
  let? c := index cs 0 in
  let? cur := chunk_cur c dranges in
  Ok (mkCsi cs 0 cur mint maxt dranges).

(** [for ; it.chunks[it.i].MaxTime < t; it.i++]: the index reached, and whether
    there is such a chunk. *)
Fixpoint find_chunk (fuel : nat) (cs : list (Meta C)) (i t : Z) : res (bool * Z) :=
  match fuel with
  | O => Panic
  | S fuel =>
      let? c := index cs i in
      if m_MaxTime c <? t then
        if i =? zlen cs - 1 then Ok (false, i) else find_chunk fuel cs (i + 1) t
      else Ok (true, i)
  end.

(** [for it.cur.Next() { if t0 >= t { return true } }; return false] *)
Fixpoint seek_cur (fuel : nat) (t : Z) (cur : cur_iter) : res (bool * cur_iter) :=
  match fuel with
  | O => Ok (false, cur)
  | S fuel =>
      let? (ok, cur) := ci_Next cur in
      if negb ok then Ok (false, cur)
      else if t <=? fst (ci_At cur) then Ok (true, cur) else seek_cur fuel t cur
  end.

Definition csi_Seek (it : chunkSeriesIterator) (t : Z) : res (bool * chunkSeriesIterator) :=
  if csi_maxt it <? t then Ok (false, it)
  else
    let t := if t <? csi_mint it then csi_mint it else t in
    let? (ok, i) := find_chunk (length (csi_chunks it)) (csi_chunks it) (csi_i it) t in
    if negb ok then Ok (false, csi_at it i (csi_cur it))
    else
      let? c := index (csi_chunks it) i in
      let? cur := chunk_cur c (csi_intervals it) in
      let? (ok, cur) := seek_cur (S (ci_size cur)) t cur in
      Ok (ok, csi_at it i cur).

(** The recursion moves to the next chunk: the number of chunks is enough fuel. *)
Fixpoint csi_next (fuel : nat) (it : chunkSeriesIterator) : res (bool * chunkSeriesIterator) :=
  match fuel with
  | O => Panic
  | S fuel =>
      let? (ok, cur) := ci_Next (csi_cur it) in
      let it := csi_at it (csi_i it) cur in
      if ok then
        let t := fst (ci_At cur) in
        if t <? csi_mint it then
          let? (ok, it) := csi_Seek it (csi_mint it) in
          if negb ok then Ok (false, it)
          else Ok (fst (ci_At (csi_cur it)) <=? csi_maxt it, it)
        else Ok (negb (csi_maxt it <? t), it)
      else
        match ci_Err cur with
        | Some _ => Ok (false, it)
        | None =>
            if csi_i it =? zlen (csi_chunks it) - 1 then Ok (false, it)
            else
              let? c := index (csi_chunks it) (csi_i it + 1) in
              let? cur := chunk_cur c (csi_intervals it) in
              csi_next fuel (csi_at it (csi_i it + 1) cur)
        end
  end.

Definition csi_Next (it : chunkSeriesIterator) : res (bool * chunkSeriesIterator) :=
  csi_next (length (csi_chunks it)) it.

#[export] Instance csi_ops : SeriesIterator chunkSeriesIterator := {|
  si_Seek := csi_Seek;
  si_At it := Ok (ci_At (csi_cur it));
  si_Next := csi_Next;
  si_Err it := ci_Err (csi_cur it);
|}.

(** * Proofs *)

(** ** Deleted samples *)

Lemma gives_size {J} `{ChunkIterator J} (it : J) l : gives it l -> (length l <= ci_size it)%nat.
Proof using Type. induction 1; cbn [length]; lia. Qed.

Definition increasing_times (l : list Buffer.sample) : Prop :=
  StronglySorted (fun a b => fst a < fst b) l.

(** Intervals that end before [ts] may be dropped for all later samples. *)
Lemma di_scan_spec ts ivs :
  ordered ivs ->
  fst (di_scan ts ivs) = deleted ivs ts /\ ordered (snd (di_scan ts ivs)) /\
  forall t, ts <= t -> deleted (snd (di_scan ts ivs)) t = deleted ivs t.
Proof using Type.
  induction ivs as [|tr ivs IH]; intros Ho; cbn [di_scan]; [done|].
  pose proof Ho as (Htr & Hlt & Ho'). rewrite !deleted_cons.
  destruct (inBounds_reflect tr ts) as [Hin|Hout]; [done|].
  destruct (Z.ltb_spec (Maxt tr) ts) as [Hpast|Hahead]; cbn [fst snd orb].
  - destruct (IH Ho') as (-> & ? & Hd). split_and!; [done|done|]. intros t Ht. rewrite Hd by done.
    rewrite deleted_cons. destruct (inBounds_reflect tr t); [lia|done].
  - split_and!; [|done|done]. symmetry. apply not_true_is_false.
    rewrite deleted_spec, Exists_exists. intros (r & Hr & ?). rewrite Forall_forall in Hlt.
    specialize (Hlt r Hr). cbn in Hlt. lia.
Qed.

Definition kept (ivs : Intervals) (l : list Buffer.sample) : list Buffer.sample :=
  filter (fun s => deleted ivs (fst s) = false) l.

Lemma kept_ext ivs ivs' l :
  Forall (fun s => deleted ivs (fst s) = deleted ivs' (fst s)) l -> kept ivs l = kept ivs' l.
Proof using Type.
  unfold kept. induction 1 as [|s l Hs _ IH]; [done|]. rewrite !filter_cons, IH, Hs. done.
Qed.

Lemma di_loop_spec (it : I) l ivs fuel :
  gives it l -> ordered ivs -> increasing_times l -> (length l < fuel)%nat ->
  match kept ivs l with
  | [] => exists d, di_loop fuel (mkDeleted it ivs) = Ok (false, d) /\ ci_Err d = None
  | s :: r => exists it' ivs' l', di_loop fuel (mkDeleted it ivs) = Ok (true, mkDeleted it' ivs') /\
      ci_At it' = s /\ ci_Err it' = None /\ gives it' l' /\ ordered ivs' /\ increasing_times l' /\ kept ivs' l' = r /\
      (length l' < length l)%nat
  end.
Proof using Type.
  intros Hg. revert ivs fuel. induction Hg as [it it' Hn He|it it' l Hn He Hg IH Hsz]; intros ivs fuel Ho Hs Hf.
  - destruct fuel as [|fuel]; [cbn in Hf; lia|]. cbn. rewrite Hn. cbn. by eexists.
  - destruct fuel as [|fuel]; [cbn in Hf; lia|]. cbn [di_loop di_it]. rewrite Hn. cbn [res_bind negb].
    destruct (di_scan_spec (fst (ci_At it')) ivs Ho) as (Ed & Ho' & Hd).
    apply StronglySorted_inv in Hs as [Hs Hlt]. cbn [di_intervals].
    destruct (di_scan (fst (ci_At it')) ivs) as [b ivs'] eqn:E. cbn [fst snd] in *.
    assert (Hk : kept ivs' l = kept ivs l).
    { apply kept_ext. eapply Forall_impl; [exact Hlt|]. cbn. intros s ?. apply Hd. lia. }
    unfold kept at 1. rewrite filter_cons. fold (kept ivs l). rewrite <- Ed, <- Hk. destruct b; cbn [decide].
    + specialize (IH ivs' fuel Ho' Hs ltac:(cbn in Hf; lia)).
      destruct (decide (true = false)); [done|].
      destruct (kept ivs' l); [done|]. destruct IH as (i2 & v2 & l2 & ? & ? & ? & ? & ? & ? & ? & ?).
      exists i2, v2, l2. split_and!; try done. cbn. lia.
    + rewrite decide_True by done. exists it', ivs', l. split_and!; try done. cbn. lia.
Qed.

Lemma deleted_gives (it : I) l ivs :
  gives it l -> ordered ivs -> increasing_times l -> gives (mkDeleted it ivs) (kept ivs l).
Proof using Type.
  intros Hg Ho Hs. remember (kept ivs l) as r eqn:E. revert it l ivs Hg Ho Hs E.
  induction r as [|s r IH]; intros it l ivs Hg Ho Hs E;
    pose proof (di_loop_spec it l ivs (S (ci_size it)) Hg Ho Hs) as Hl; rewrite <- E in Hl;
    pose proof (gives_size _ _ Hg) as Hsz.
  - destruct Hl as (d & Hd & He); [lia|]. by eapply gives_nil.
  - destruct Hl as (it' & ivs' & l' & Hd & <- & He' & Hg' & Ho' & Hs' & Er & Hsz'); [lia|].
    change (ci_At it') with (ci_At (mkDeleted it' ivs')).
    apply (gives_cons (mkDeleted it ivs) (mkDeleted it' ivs') r); [exact Hd|exact He'|by eapply IH|].
    cbn. rewrite <- Er. unfold kept. pose proof (length_filter (fun s => deleted ivs' (fst s) = false) l'). lia.
Qed.
(** ** The chunks of a series *)

Lemma plain_gives (it : I) l : gives it l -> gives (Plain it) l.
Proof using Type.
  induction 1 as [it it' Hn He|it it' l Hn He Hg IH Hsz].
  - apply (gives_nil _ (Plain it')); [cbn; by rewrite Hn|done].
  - change (ci_At it') with (ci_At (Plain it')). apply gives_cons; [cbn; by rewrite Hn|done|done|done].
Qed.

Lemma filtered_gives (it : deletedIterator) l : gives it l -> gives (Deleted it) l.
Proof using Type.
  induction 1 as [it it' Hn He|it it' l Hn He Hg IH Hsz].
  - apply (gives_nil _ (Deleted it')); [|done].
    change (ci_Next (Deleted it)) with (let? (ok, it) := ci_Next it in Ok (ok, Deleted it)). by rewrite Hn.
  - change (ci_At it') with (ci_At (Deleted it')). apply gives_cons; [|done|done|done].
    change (ci_Next (Deleted it)) with (let? (ok, it) := ci_Next it in Ok (ok, Deleted it)). by rewrite Hn.
Qed.

(** The chunk of [m] gives [l] once the samples deleted by [ivs] are left out. *)
Definition content (ivs : Intervals) (m : Meta C) (l : list Buffer.sample) : Prop :=
  exists cur, chunk_cur m ivs = Ok cur /\ gives cur l.

Lemma content_kept m c it l ivs :
  m_Chunk m = Some c -> ck_Iterator c = Ok it -> gives it l -> ordered ivs -> increasing_times l ->
  content ivs m (kept ivs l).
Proof using Type.
  intros Hm Hit Hg Ho Hs. unfold content, chunk_cur. rewrite Hm, Hit. cbn [res_bind].
  destruct ivs as [|iv ivs]; cbn [length Nat.ltb Nat.leb].
  - eexists. split; [done|]. apply plain_gives. unfold kept. by rewrite filter_all by by apply Forall_true.
  - eexists. split; [done|]. by apply filtered_gives, deleted_gives.
Qed.

Lemma seek_cur_spec cur l t fuel :
  gives cur l -> (length l < fuel)%nat ->
  match filter (fun s => t <= fst s) l with
  | [] => exists cur', seek_cur fuel t cur = Ok (false, cur') /\ ci_Err cur' = None
  | _ => exists cur' pre s r, seek_cur fuel t cur = Ok (true, cur') /\ l = pre ++ s :: r /\
      Forall (fun s => fst s < t) pre /\ t <= fst s /\ ci_At cur' = s /\ ci_Err cur' = None /\ gives cur' r
  end.
Proof using Type.
  intros Hg. revert fuel. induction Hg as [it it' Hn He|it it' l Hn He Hg IH Hsz]; intros fuel Hf.
  - destruct fuel as [|fuel]; [cbn in Hf; lia|]. cbn [seek_cur]. rewrite Hn. by exists it'.
  - destruct fuel as [|fuel]; [cbn in Hf; lia|]. cbn [seek_cur]. rewrite Hn. cbn [res_bind negb].
    rewrite filter_cons. destruct (Z.leb_spec t (fst (ci_At it'))).
    + rewrite decide_True by done. exists it', [], (ci_At it'), l. split_and!; try done.
    + rewrite decide_False by lia. specialize (IH fuel ltac:(cbn in Hf; lia)).
      destruct (filter _ l); [done|]. destruct IH as (c & pre & s & r & ? & -> & ? & ? & ? & ? & ?).
      exists c, (ci_At it' :: pre), s, r. split_and!; try done. by constructor.
Qed.
(** ** Finding the chunk to seek in *)

Lemma find_chunk_spec fuel cs i t :
  0 <= i < zlen cs -> (length cs - Z.to_nat i <= fuel)%nat ->
  match list_find (fun m => t <= m_MaxTime m) (drop (Z.to_nat i) cs) with
  | None => exists j, find_chunk fuel cs i t = Ok (false, j)
  | Some (k, _) => find_chunk fuel cs i t = Ok (true, i + Z.of_nat k)
  end.
Proof using Type.
  revert i. induction fuel as [|fuel IH]; intros i Hi Hf; [unfold zlen in Hi; lia|]. cbn [find_chunk].
  destruct (lookup_lt_is_Some_2 cs (Z.to_nat i)) as [c Hc]; [unfold zlen in Hi; lia|].
  rewrite (proj2 (index_ok cs i c)) by (split; [lia|done]). cbn [res_bind].
  rewrite (drop_S cs c (Z.to_nat i) Hc). cbn [list_find].
  destruct (Z.ltb_spec (m_MaxTime c) t).
  - rewrite decide_False by lia. destruct (Z.eqb_spec i (zlen cs - 1)) as [->|Hne].
    + rewrite drop_ge by (unfold zlen; lia). cbn. by eexists.
    + specialize (IH (i + 1) ltac:(lia) ltac:(unfold zlen in *; lia)).
      replace (Z.to_nat (i + 1)) with (S (Z.to_nat i)) in IH by lia.
      destruct (list_find _ (drop (S (Z.to_nat i)) cs)) as [[k m]|]; cbn; [|done].
      rewrite IH. do 2 f_equal. lia.
  - rewrite decide_True by lia. cbn. do 2 f_equal. lia.
Qed.

(** ** The iterator over the chunks *)

Section ChunkSeries.
Context (cs : list (Meta C)) (ivs : Intervals) (mint maxt : Z) (ls : list (list Buffer.sample)).

(** The samples of the chunks, after deletion: in order; a chunk has none after
    its [MaxTime], and a chunk that reaches [mint] still has a sample there. *)
Hypothesis Hcontent : Forall2 (content ivs) cs ls.
Hypothesis Hsorted : increasing_times (mjoin ls).
Hypothesis Hmax : Forall2 (fun m l => Forall (fun s => fst s <= m_MaxTime m) l /\
  (mint <= m_MaxTime m -> Exists (fun s => mint <= fst s) l)) cs ls.

Definition in_range (s : Buffer.sample) : Prop := mint <= fst s <= maxt.

#[local] Instance in_range_dec s : Decision (in_range s).
Proof using Type. unfold in_range. apply _. Defined.

(** At chunk [i], with [r] left of it. *)
Definition csi_inv (st : chunkSeriesIterator) (i : nat) (r : list Buffer.sample) : Prop :=
  csi_chunks st = cs /\ csi_i st = Z.of_nat i /\ csi_mint st = mint /\ csi_maxt st = maxt /\
  csi_intervals st = ivs /\ gives (csi_cur st) r /\ exists pre, ls !! i = Some (pre ++ r).

Definition remaining (i : nat) (r : list Buffer.sample) : list Buffer.sample :=
  r ++ mjoin (drop (S i) ls).

(** The next sample is the first of the remaining ones that is in range. *)
Definition csi_result (o : res (bool * chunkSeriesIterator)) (rem : list Buffer.sample) : Prop :=
  match filter in_range rem with
  | [] => exists st, o = Ok (false, st) /\ ci_Err (csi_cur st) = None
  | s :: rem' => exists st i r, o = Ok (true, st) /\ ci_At (csi_cur st) = s /\ csi_inv st i r /\
      filter in_range (remaining i r) = rem'
  end.

Lemma ls_length : length ls = length cs.
Proof using Hcontent. symmetry. exact (Forall2_length _ _ _ Hcontent). Qed.

Lemma chunk_at_i i l : ls !! i = Some l -> exists c cur, cs !! i = Some c /\ chunk_cur c ivs = Ok cur /\ gives cur l.
Proof using Hcontent.
  intros Hl. destruct (Forall2_lookup_r _ _ _ _ _ Hcontent Hl) as (c & Hc & cur & ? & ?). by exists c, cur.
Qed.

Lemma increasing_app (l k : list Buffer.sample) :
  increasing_times (l ++ k) ->
  increasing_times l /\ increasing_times k /\ Forall (fun a => Forall (fun b => fst a < fst b) k) l.
Proof using Type.
  unfold increasing_times. induction l as [|a l IH]; cbn.
  - intros ?. split_and!; [constructor|done|constructor].
  - intros [Hs Ha]%StronglySorted_inv. destruct (IH Hs) as (? & ? & ?).
    apply Forall_app in Ha as [? ?]. split_and!; [by constructor|done|by constructor].
Qed.

Lemma increasing_app_intro (l k : list Buffer.sample) :
  increasing_times l -> increasing_times k -> Forall (fun a => Forall (fun b => fst a < fst b) k) l ->
  increasing_times (l ++ k).
Proof using Type.
  intros Hl Hk. induction Hl as [|a l Hl IH Ha]; intros Hlk; [done|]. apply Forall_cons in Hlk as [Hak Hlk].
  constructor; [by apply IH|]. by apply Forall_app.
Qed.

Lemma join_split i l : ls !! i = Some l -> mjoin ls = mjoin (take i ls) ++ l ++ mjoin (drop (S i) ls).
Proof using Type.
  intros Hl. rewrite <- (take_drop_middle ls i l Hl) at 1. by rewrite join_app.
Qed.

Lemma remaining_sorted i l : ls !! i = Some l -> increasing_times (l ++ mjoin (drop (S i) ls)).
Proof using Hsorted.
  intros Hl. pose proof Hsorted as Hs. rewrite (join_split i l Hl) in Hs.
  by apply increasing_app in Hs as (_ & ? & _).
Qed.

Lemma filter_below (l : list Buffer.sample) : Forall (fun s => fst s < mint) l -> filter in_range l = [].
Proof using Type. intros Hl. apply filter_none. eapply Forall_impl; [exact Hl|]. unfold in_range. cbn. lia. Qed.

Lemma filter_above (s : Buffer.sample) l :
  increasing_times (s :: l) -> maxt < fst s -> filter in_range (s :: l) = [].
Proof using Type.
  intros [_ Hl]%StronglySorted_inv Hs. apply filter_none. constructor; [unfold in_range; lia|].
  eapply Forall_impl; [exact Hl|]. unfold in_range. cbn. lia.
Qed.

Lemma chunks_below i k :
  Forall (fun m => ~ mint <= m_MaxTime m) (take k (drop i cs)) ->
  Forall (fun s => fst s < mint) (mjoin (take k (drop i ls))).
Proof using Hmax.
  intros Hb. assert (Hm : Forall2 (fun m l => Forall (fun s : Buffer.sample => fst s <= m_MaxTime m) l)
      (take k (drop i cs)) (take k (drop i ls))).
  { apply Forall2_take, Forall2_drop. eapply Forall2_impl; [exact Hmax|]. by intros ? ? [? _]. }
  induction Hm as [|m l ms lss Hl _ IH]; [constructor|]. inversion Hb; subst.
  rewrite join_cons. apply Forall_app. split; [|by apply IH].
  eapply Forall_impl; [exact Hl|]. cbn. lia.
Qed.

Lemma csi_inv_at st i r j cur pre r' :
  csi_inv st i r -> gives cur r' -> ls !! j = Some (pre ++ r') ->
  csi_inv (csi_at st (Z.of_nat j) cur) j r'.
Proof using Type.
  intros (? & ? & ? & ? & ? & ? & ?) Hg Hl. unfold csi_inv, csi_at. cbn. split_and!; try done. by exists pre.
Qed.

Lemma reaches_mint j c l :
  cs !! j = Some c -> ls !! j = Some l -> mint <= m_MaxTime c -> filter (fun s => mint <= fst s) l <> [].
Proof using Hmax.
  intros Hc Hl Hr Hn. destruct (Forall2_lookup_lr _ _ _ _ _ _ Hmax Hc Hl) as [_ He].
  apply He, Exists_exists in Hr as (s & Hs & ?).
  assert (Hf : s ∈ filter (fun s => mint <= fst s) l) by by apply list_elem_of_filter.
  rewrite Hn in Hf. by apply not_elem_of_nil in Hf.
Qed.

Lemma drop_join i l : ls !! i = Some l -> mjoin (drop i ls) = l ++ mjoin (drop (S i) ls).
Proof using Type. intros Hl. by rewrite (drop_S ls l i Hl), join_cons. Qed.

Lemma join_skip i k : mjoin (drop i ls) = mjoin (take k (drop i ls)) ++ mjoin (drop (i + k) ls).
Proof using Type. by rewrite <- join_app, <- drop_drop, take_drop. Qed.

Lemma list_find_below (l : list (Meta C)) k c (P : Meta C -> Prop) `{forall m, Decision (P m)} :
  list_find P l = Some (k, c) -> Forall (fun m => ~ P m) (take k l).
Proof using Type.
  intros (Hk & _ & Hb)%list_find_Some. apply Forall_lookup. intros j m Hj.
  pose proof (lookup_lt_Some _ _ _ Hj) as Hlt. rewrite length_take in Hlt.
  rewrite lookup_take_lt in Hj by lia. apply (Hb j m Hj). lia.
Qed.

(** [Seek(mint)] goes to the first sample at or after [mint] of the chunks from
    the current one on. *)
Lemma csi_Seek_spec st i r :
  csi_inv st i r -> mint <= maxt ->
  (exists st', csi_Seek st mint = Ok (false, st') /\ csi_cur st' = csi_cur st /\
     filter in_range (mjoin (drop i ls)) = []) \/
  (exists st' j r', csi_Seek st mint = Ok (true, st') /\ ci_Err (csi_cur st') = None /\ csi_inv st' j r' /\
     mint <= fst (ci_At (csi_cur st')) /\ increasing_times (ci_At (csi_cur st') :: remaining j r') /\
     filter in_range (mjoin (drop i ls)) = filter in_range (ci_At (csi_cur st') :: remaining j r')).
Proof using Type*.
  intros Hinv Hm. pose proof Hinv as (Hc & Hi & Hmint & Hmaxt & Hivs & _ & pre & Hl).
  pose proof (lookup_lt_Some _ _ _ Hl) as Hlt. rewrite ls_length in Hlt.
  unfold csi_Seek. rewrite Hmint, Hmaxt, Hc, Hi, Hivs.
  destruct (Z.ltb_spec maxt mint); [lia|]. destruct (Z.ltb_spec mint mint); [lia|]. 
  pose proof (find_chunk_spec (length cs) cs (Z.of_nat i) mint) as Hfind. rewrite Nat2Z.id in Hfind.
  specialize (Hfind ltac:(unfold zlen; lia) ltac:(lia)).
  destruct (list_find (fun m => mint <= m_MaxTime m) (drop i cs)) as [[k c]|] eqn:Ef.
  - right. pose proof (list_find_below _ _ _ _ Ef) as Hbelow. apply list_find_Some in Ef as (Hck & Hr & _). rewrite Hfind. cbn [res_bind negb].
    rewrite lookup_drop in Hck. destruct (lookup_lt_is_Some_2 ls (i + k)) as [lj Hlj].
    { rewrite ls_length. by eapply lookup_lt_Some. }
    destruct (chunk_at_i _ _ Hlj) as (c' & cur & Hc' & Hcur & Hg). rewrite Hc' in Hck. injection Hck as ->.
    rewrite (proj2 (index_ok cs (Z.of_nat i + Z.of_nat k) c)) by (split; [lia|by rewrite <- Nat2Z.inj_add, Nat2Z.id]).
    cbn [res_bind]. rewrite Hcur. cbn [res_bind].
    pose proof (seek_cur_spec cur lj mint (S (ci_size cur)) Hg) as Hs.
    pose proof (gives_size _ _ Hg). specialize (Hs ltac:(lia)).
    pose proof (reaches_mint _ _ _ Hc' Hlj Hr) as Hne.
    destruct (filter (fun s => mint <= fst s) lj); [done|].
    destruct Hs as (cur' & pre' & s & r' & -> & -> & Hpre & Hms & <- & He & Hg'). cbn [res_bind].
    rewrite <- Nat2Z.inj_add.
    exists (csi_at st (Z.of_nat (i + k)) cur'), (i + k)%nat, r'. split_and!; try done.
    + eapply (csi_inv_at st i r _ cur' (pre' ++ [ci_At cur']) r' Hinv Hg'). by rewrite <- app_assoc.
    + pose proof (remaining_sorted _ _ Hlj) as Hsort. rewrite <- app_assoc in Hsort.
      by apply increasing_app in Hsort as (_ & ? & _).
    + rewrite (join_skip i k), (drop_join _ _ Hlj), <- app_assoc, !filter_app.
      rewrite filter_below by by apply chunks_below.
      rewrite (filter_below pre') by done. by rewrite <- filter_app.
  - left. destruct Hfind as [j ->]. cbn [res_bind negb]. eexists. split_and!; [done|done|].
    rewrite <- (take_drop (length cs) (drop i ls)), join_app, filter_app.
    rewrite filter_below; [|by apply chunks_below, Forall_take, (proj1 (list_find_None _ _) Ef)].
    rewrite drop_drop, drop_ge by (rewrite ls_length; lia). done.
Qed.

Lemma csi_inv_sorted i pre r :
  ls !! i = Some (pre ++ r) -> increasing_times (pre ++ remaining i r).
Proof using Hsorted. intros Hl. unfold remaining. rewrite app_assoc. by apply remaining_sorted. Qed.

(** The sample [s] of the current iterator is the next one, unless it is too late. *)
Lemma csi_result_cons st i r :
  ci_Err (csi_cur st) = None -> csi_inv st i r -> mint <= fst (ci_At (csi_cur st)) ->
  increasing_times (ci_At (csi_cur st) :: remaining i r) ->
  csi_result (Ok (fst (ci_At (csi_cur st)) <=? maxt, st)) (ci_At (csi_cur st) :: remaining i r).
Proof using Type.
  intros He Hinv Hm Hs. unfold csi_result. destruct (Z.leb_spec (fst (ci_At (csi_cur st))) maxt).
  - rewrite filter_cons, decide_True by (unfold in_range; lia). by exists st, i, r.
  - rewrite filter_above by (done || lia). by exists st.
Qed.

(** [Next] before [mint]: seek, then compare with [maxt]. *)
Lemma csi_seek_result st i l r pre :
  csi_inv st i r -> ls !! i = Some (pre ++ l) -> ci_Err (csi_cur st) = None ->
  Forall (fun s => fst s < mint) pre -> csi_mint st = mint ->
  csi_result
    (let? (ok, it) := csi_Seek st mint in
     if negb ok then Ok (false, it) else Ok (fst (ci_At (csi_cur it)) <=? csi_maxt it, it)) (remaining i l).
Proof using Type*.
  intros Hinv Hl He Hpre Hm.
  assert (Ef : filter in_range (remaining i l) = filter in_range (mjoin (drop i ls))).
  { rewrite (drop_join _ _ Hl). unfold remaining. by rewrite <- app_assoc, (filter_app _ pre), (filter_below pre). }
  unfold csi_result at 1. rewrite Ef. destruct (Z.leb_spec mint maxt) as [Hle|Hgt].
  - destruct (csi_Seek_spec st i r Hinv Hle) as [(st' & -> & Ec & ->)|(st' & j & r' & -> & ? & Hinv' & ? & ? & ->)]; cbn [res_bind negb].
    + exists st'. by rewrite Ec.
    + pose proof Hinv' as (_ & _ & _ & -> & _). by apply (csi_result_cons st').
  - unfold csi_Seek. pose proof Hinv as (_ & _ & _ & -> & _). destruct (Z.ltb_spec maxt mint); [|lia].
    cbn [res_bind negb]. rewrite filter_none; [by eexists|]. apply Forall_true. intros s. unfold in_range. lia.
Qed.

Lemma csi_next_spec fuel st i r :
  csi_inv st i r -> (length cs - i <= fuel)%nat -> csi_result (csi_next fuel st) (remaining i r).
Proof using Type*.
  revert st i r. induction fuel as [|fuel IH]; intros st i r Hinv Hf.
  { pose proof Hinv as (_ & _ & _ & _ & _ & _ & pre & Hl).
    apply lookup_lt_Some in Hl. rewrite ls_length in Hl. lia. }
  pose proof Hinv as (Hc & Hi & Hmint & Hmaxt & Hivs & Hg & pre & Hl). cbn [csi_next].
  remember (csi_cur st) as cur eqn:Ecur. destruct Hg as [cur cur' Hn He|cur cur' r Hn He Hg Hsz].
  - rewrite Hn. cbn [res_bind csi_at csi_i csi_chunks csi_intervals]. rewrite He, Hc, Hi, Hivs.
    unfold remaining, csi_result. cbn [app]. pose proof (lookup_lt_Some _ _ _ Hl) as Hlt. rewrite ls_length in Hlt.
    destruct (Z.eqb_spec (Z.of_nat i) (zlen cs - 1)) as [Hlast|Hlast].
    + rewrite drop_ge by (rewrite ls_length; unfold zlen in Hlast; lia). by eexists.
    + destruct (lookup_lt_is_Some_2 ls (S i)) as [l' Hl'].
      { rewrite ls_length. unfold zlen in Hlast. lia. }
      destruct (chunk_at_i _ _ Hl') as (c & cur2 & Hc2 & Hcur & Hg).
      rewrite (proj2 (index_ok cs (Z.of_nat i + 1) c)) by (split; [lia|by rewrite Z.add_1_r, <- Nat2Z.inj_succ, Nat2Z.id]).
      cbn [res_bind]. rewrite Hcur. cbn [res_bind]. rewrite (drop_join _ _ Hl').
      apply (IH _ (S i)); [|lia]. rewrite Z.add_1_r, <- Nat2Z.inj_succ. unfold csi_at. cbn.
      by apply (csi_inv_at st i [] _ _ []).
  - rewrite Hn. cbn [res_bind]. pose proof (csi_inv_sorted _ _ _ Hl) as Hs.
    apply increasing_app in Hs as (_ & Hs & Hpre). 
    assert (Hinv' : csi_inv (csi_at st (csi_i st) cur') i r).
    { rewrite Hi. apply (csi_inv_at st i _ _ _ (pre ++ [ci_At cur']) r Hinv Hg). by rewrite <- app_assoc. }
    cbn [csi_at csi_cur csi_mint csi_maxt]. rewrite Hmint, Hmaxt.
    destruct (Z.ltb_spec (fst (ci_At cur')) mint) as [Hlow|Hge].
    + apply (csi_seek_result (csi_at st (csi_i st) cur') i (ci_At cur' :: r) r pre Hinv' Hl He); [|done].
      eapply Forall_impl; [exact Hpre|]. intros s [Hx _]%Forall_cons. cbn beta in Hx. lia.
    + rewrite <- Z.leb_antisym. by apply (csi_result_cons (csi_at st (csi_i st) cur')).
Qed.

(** ** Whole series *)

Lemma csi_yields st i r :
  csi_inv st i r -> yields st (filter in_range (remaining i r)).
Proof using Type*.
  remember (filter in_range (remaining i r)) as l eqn:El. revert st i r El.
  induction l as [|s l IH]; intros st i r El Hinv; pose proof Hinv as (Hc & _);
    pose proof (csi_next_spec (length (csi_chunks st)) st i r Hinv ltac:(rewrite Hc; lia)) as Hn;
    unfold csi_result in Hn; rewrite <- El in Hn.
  - destruct Hn as (st' & ? & ?). by eapply yields_nil.
  - destruct Hn as (st' & i' & r' & ? & <- & Hinv' & <-). eapply yields_cons; [done|done|by eapply IH].
Qed.

Lemma new_csi_yields :
  cs <> [] -> exists st, newChunkSeriesIterator cs ivs mint maxt = Ok st /\ yields st (filter in_range (mjoin ls)).
Proof using Type*.
  intros Hne. destruct (lookup_lt_is_Some_2 ls 0) as [l Hl].
  { rewrite ls_length. by destruct cs; [|cbn; lia]. }
  destruct (chunk_at_i _ _ Hl) as (c & cur & Hc & Hcur & Hg). unfold newChunkSeriesIterator.
  rewrite (proj2 (index_ok cs 0 c)) by done. cbn [res_bind]. rewrite Hcur. cbn [res_bind].
  eexists. split; [done|]. rewrite <- (drop_0 ls), (drop_join _ _ Hl).
  apply (csi_yields _ 0). unfold csi_inv. cbn. split_and!; try done. by exists [].
Qed.
End ChunkSeries.

Lemma increasing_part ls l : increasing_times (mjoin ls) -> l ∈ ls -> increasing_times l.
Proof using Type.
  induction ls as [|k ls IH]; [by intros ? ?%not_elem_of_nil|].
  rewrite join_cons. intros (? & ? & _)%increasing_app [->|Hl]%elem_of_cons; [done|by apply IH].
Qed.

Lemma kept_join ivs ls : kept ivs (mjoin ls) = mjoin (map (kept ivs) ls).
Proof using Type. induction ls as [|l ls IH]; [done|]. cbn [map]. rewrite !join_cons, <- IH. apply filter_app. Qed.

(** The chunk of [m] holds the samples [l]. *)
Definition holds (m : Meta C) (l : list Buffer.sample) : Prop :=
  exists c it, m_Chunk m = Some c /\ ck_Iterator c = Ok it /\ gives it l.

(** What a series asks of a chunk: its samples are not after its [MaxTime], and
    if the range of the query begins in the chunk, some sample there is kept. *)
Definition chunk_fits (mint : Z) (ivs : Intervals) (m : Meta C) (l : list Buffer.sample) : Prop :=
  holds m l /\ Forall (fun s => fst s <= m_MaxTime m) l /\
  (mint <= m_MaxTime m -> Exists (fun s => mint <= fst s /\ deleted ivs (fst s) = false) l).

(** The samples a query for [mint, maxt] sees. *)
Definition visible (mint maxt : Z) (ivs : Intervals) (l : list Buffer.sample) : list Buffer.sample :=
  filter (in_range mint maxt) (kept ivs l).

Lemma new_csi_visible cs ivs mint maxt ls :
  cs <> [] -> ordered ivs -> increasing_times (mjoin ls) -> Forall2 (chunk_fits mint ivs) cs ls ->
  exists st, newChunkSeriesIterator cs ivs mint maxt = Ok st /\ yields st (visible mint maxt ivs (mjoin ls)).
Proof using Type.
  intros Hne Ho Hs Hf. unfold visible. rewrite kept_join.
  assert (Hf' : Forall2 (fun m l => chunk_fits mint ivs m l /\ increasing_times l) cs ls).
  { apply Forall2_same_length_lookup_2; [by eapply Forall2_length|]. intros i m l Hm Hl. split.
    - by eapply Forall2_lookup_lr.
    - eapply increasing_part; [done|]. by eapply list_elem_of_lookup_2. }
  apply new_csi_yields; [| | |done].
  - rewrite Forall2_fmap_r. eapply Forall2_impl; [exact Hf'|].
    intros m l [[(c & it & ? & ? & ?) _] ?]. by eapply content_kept.
  - rewrite <- kept_join. by apply StronglySorted_filter.
  - rewrite Forall2_fmap_r. eapply Forall2_impl; [exact Hf'|]. intros m l [(_ & Hm & He) _]. split.
    + by apply Forall_filter_weaken.
    + intros (s & Hs' & ? & ?)%He%Exists_exists. apply Exists_exists. exists s. split; [|done].
      by apply list_elem_of_filter.
Qed.
End Iterators.

(** The samples of an iterator, by running it. *)
Fixpoint read_all {I} `{ChunkIterator I} (fuel : nat) (it : I) : option (list Buffer.sample) :=
  match fuel with
  | O => None
  | S fuel =>
      match ci_Next it with
      | Ok (true, it') =>
          l ← read_all fuel it';
          if bool_decide (ci_Err it' = None) && bool_decide (length l < ci_size it)%nat
          then Some (ci_At it' :: l) else None
      | Ok (false, it') => if bool_decide (ci_Err it' = None) then Some [] else None
      | _ => None
      end
  end.

Lemma read_all_gives {I} `{ChunkIterator I} fuel (it : I) l : read_all fuel it = Some l -> gives it l.
Proof.
  revert it l. induction fuel as [|fuel IH]; intros it l; cbn [read_all]; [done|].
  destruct (ci_Next it) as [[[] it']| |] eqn:En; [| |done..].
  - intros (k & Hk & Hl)%bind_Some. case_match eqn:Ec; simplify_eq.
    apply andb_true_iff in Ec as [?%bool_decide_eq_true ?%bool_decide_eq_true].
    apply gives_cons; auto.
  - case_bool_decide; intros; simplify_eq. by eapply gives_nil.
Qed.

(** An XOR chunk holding [l], for [l] in the range of the codec. *)
Definition xor_meta (mint maxt : Z) (l : list Buffer.sample) : Meta XORChunk :=
  mkMeta 0 (match (let? a := Appender NewXORChunk in append_all a l) with Ok a => Some (achunk a) | _ => None end)
    mint maxt.

(** The iterator over the chunks of a series yields exactly the samples of
    the chunks that lie in the time range of the query and are not deleted, in
    order, each once, and ends without an error or a panic.  The chunks are in
    time order, hold nothing after their [MaxTime], and the tombstones are in
    order; a chunk that reaches the start of the range keeps a sample there (see
    [series_ends_early] for what happens otherwise). *)
Theorem chunkSeries_yields_visible {C I} `{ChunkIterator I} `{ChunkIface C I}
    (cs : list (Meta C)) (ivs : Intervals) (mint maxt : Z) (ls : list (list Buffer.sample)) :
  cs <> [] -> ordered ivs -> increasing_times (mjoin ls) -> Forall2 (chunk_fits mint ivs) cs ls ->
  exists st, newChunkSeriesIterator cs ivs mint maxt = Ok st /\ yields st (visible mint maxt ivs (mjoin ls)).
Proof. apply new_csi_visible. Qed.

Lemma chunkSeries_yields_visible_witness :
  let cs := [xor_meta 1 9 [(1, 10); (4, 11); (9, 12)]; xor_meta 12 40 [(12, 13); (20, 14); (40, 15)]] in
  exists st, newChunkSeriesIterator cs [mkInterval 9 12] 3 30 = Ok st /\ yields st [(4, 11); (20, 14)].
Proof.
  apply (chunkSeries_yields_visible (I := xorIterator)
    [xor_meta 1 9 [(1, 10); (4, 11); (9, 12)]; xor_meta 12 40 [(12, 13); (20, 14); (40, 15)]]
    [mkInterval 9 12] 3 30 [[(1, 10); (4, 11); (9, 12)]; [(12, 13); (20, 14); (40, 15)]]).
  - done.
  - decided.
  - repeat constructor.
  - repeat apply Forall2_cons_2; [| |constructor].
    + split_and!; [eexists _, _; split_and!; [reflexivity..|by apply (read_all_gives 4)]|decided|].
      intros _. apply Exists_cons_tl, Exists_cons_hd. split; [done|reflexivity].
    + split_and!; [eexists _, _; split_and!; [reflexivity..|by apply (read_all_gives 4)]|decided|].
      intros _. apply Exists_cons_tl, Exists_cons_hd. split; [done|reflexivity].
Defined.

(** A query loses samples when the tombstones cover everything of a chunk
    from the start of the range on but leave something before it.  Here the first
    chunk has samples at 1 and 5, the time 5 is deleted, and the query asks for
    [3, 100]: the sample at 10 of the second chunk is visible, but the first
    [Next], which seeks to 3, ends the iteration without an error. *)
Theorem series_ends_early :
  let cs := [xor_meta 1 5 [(1, 7); (5, 8)]; xor_meta 10 10 [(10, 9)]] in
  visible 3 100 [mkInterval 5 5] [(1, 7); (5, 8); (10, 9)] = [(10, 9)] /\
  exists st st', newChunkSeriesIterator (I := xorIterator) cs [mkInterval 5 5] 3 100 = Ok st /\
    csi_Next st = Ok (false, st') /\ si_Err st' = None.
Proof. cbv zeta. split; [by vm_compute|]. eexists _, _. split_and!; [by vm_compute..|reflexivity]. Qed.
