(* ===== verification/SeriesSets.v ===== *)
(** querier.go, the querier over several blocks: series chained from the series
    of the blocks, merged series sets, and the merge of label values. *)
From S2P Require Import Prelude Order Labels Buffer SeriesIter.
#[local] Open Scope list_scope.
#[local] Open Scope Z_scope.

(** * Series *)

(** What one block's querier gives: [Series] with labels and an iterator. *)
Class BaseSeries (B It : Type) := {
  b_Labels : B -> Labels;
  b_Iterator : B -> res It;
}.

(** The implementations of [Series]: a block's series, or [chainedSeries]. *)
Inductive Series (B : Type) :=
| SBase (b : B)
| SChain (series : list (Series B)).
Arguments SBase {B}.
Arguments SChain {B}.

(** The implementations of [SeriesIterator]: a block's, or
    [chainedSeriesIterator] with its [series], [i] and [cur]. *)
Inductive siter (B It : Type) :=
| IBase (it : It)
| IChain (series : list (Series B)) (i : Z) (cur : siter B It).
Arguments IBase {B It}.
Arguments IChain {B It}.

Section Chained.
Context {B It : Type} `{BaseSeries B It} `{SeriesIterator It}.

Fixpoint s_Labels (s : Series B) : res Labels :=
  match s with
  | SBase b => Ok (b_Labels b)
  | SChain [] => Panic
  | SChain (s0 :: _) => s_Labels s0
  end.

Fixpoint s_Iterator (s : Series B) : res (siter B It) :=
  match s with
  | SBase b => let? it := b_Iterator b in Ok (IBase it)
  | SChain [] => Panic
  | SChain ((s0 :: _) as ss) => let? cur := s_Iterator s0 in Ok (IChain ss 0 cur)
  end.

(** How deep chained series are nested. *)
Fixpoint s_depth (s : Series B) : nat :=
  match s with
  | SBase _ => 0
  | SChain ss => S (foldr (fun s n => s_depth s `max` n) 0 ss)
  end%nat.

Definition it_depth (it : siter B It) : nat :=
  match it with IBase _ => 0 | IChain ss _ _ => s_depth (SChain ss) end%nat.

Fixpoint it_At (it : siter B It) : res Buffer.sample :=
  match it with IBase it => si_At it | IChain _ _ cur => it_At cur end.

Fixpoint it_Err (it : siter B It) : option error :=
  match it with IBase it => si_Err it | IChain _ _ cur => it_Err cur end.

(** [chainedSeriesIterator.Next], where [next] is [Next] of the inner iterators;
    the recursion moves to the next series. *)
Fixpoint chain_next (next : siter B It -> res (bool * siter B It)) (fuel : nat)
    (ss : list (Series B)) (i : Z) (cur : siter B It) : res (bool * siter B It) :=
  match fuel with
  | O => Panic
  | S fuel =>
      let? (ok, cur) := next cur in
      if ok then Ok (true, IChain ss i cur)
      else match it_Err cur with
      | Some _ => Ok (false, IChain ss i cur)
      | None =>
          if i =? zlen ss - 1 then Ok (false, IChain ss i cur)
          else
            let? s := index ss (i + 1) in
            let? cur := s_Iterator s in
            chain_next next fuel ss (i + 1) cur
      end
  end.

(** [for i, s := range it.series[it.i:]]: the index within the slice and the
    iterator that found the time. *)
Fixpoint chain_seek (seek : siter B It -> Z -> res (bool * siter B It)) (t i : Z)
    (ss : list (Series B)) : res (option (Z * siter B It)) :=
  match ss with
  | [] => Ok None
  | s :: ss =>
      let? cur := s_Iterator s in
      let? (ok, cur) := seek cur t in
      if ok then Ok (Some (i, cur)) else chain_seek seek t (i + 1) ss
  end.

(** [d] bounds the nesting of the iterator. *)
Fixpoint it_next (d : nat) (it : siter B It) : res (bool * siter B It) :=
  match it with
  | IBase it => let? (ok, it) := si_Next it in Ok (ok, IBase it)
  | IChain ss i cur =>
      match d with
      | O => Panic
      | S d => chain_next (it_next d) (Z.to_nat (zlen ss - i)) ss i cur
      end
  end.

Fixpoint it_seek (d : nat) (it : siter B It) (t : Z) : res (bool * siter B It) :=
  match it with
  | IBase it => let? (ok, it) := si_Seek it t in Ok (ok, IBase it)
  | IChain ss i cur =>
      match d with
      | O => Panic
      | S d =>
          let? rest := slice ss i (zlen ss) in
          let? r := chain_seek (it_seek d) t 0 rest in
          match r with
          | Some (j, cur) => Ok (true, IChain ss (i + j) cur)
          | None => Ok (false, IChain ss i cur)
          end
      end
  end.

Definition at_depth (d : nat) : SeriesIterator (siter B It) :=
  {| si_Seek := it_seek d; si_At := it_At; si_Next := it_next d; si_Err := it_Err |}.

#[export] Instance siter_ops : SeriesIterator (siter B It) := {|
  si_Seek it := it_seek (it_depth it) it;
  si_At := it_At;
  si_Next it := it_next (it_depth it) it;
  si_Err := it_Err;
|}.

(** ** A chained series yields the samples of its series in order *)

(** Each block's series yields its samples. *)
Inductive s_yields : Series B -> list Buffer.sample -> Prop :=
| sy_base b it l : b_Iterator b = Ok it -> yields it l -> s_yields (SBase b) l
| sy_chain ss ls : ss <> [] -> Forall2 s_yields ss ls -> s_yields (SChain ss) (mjoin ls).

Lemma yields_same_Next {J} `{SeriesIterator J} (it it2 : J) l : si_Next it = si_Next it2 -> yields it2 l -> yields it l.
Proof using Type. intros E Hy. destruct Hy; rewrite <- E in *; [by eapply yields_nil|by eapply yields_cons]. Qed.

Abbreviation yields_at d := (@yields _ (at_depth d)).

Lemma base_yields d it l : yields it l -> yields_at d (IBase it) l.
Proof using Type.
  induction 1 as [it it' Hn He|it it' s l Hn Ha Hy IH].
  - apply (yields_nil _ (IBase it')); [|done]. destruct d; cbn; by rewrite Hn.
  - apply (yields_cons _ (IBase it')); [|done|done]. destruct d; cbn; by rewrite Hn.
Qed.

Lemma chain_yields d ss ls i cur r :
  Forall2 (fun s l => exists it, s_Iterator s = Ok it /\ yields_at d it l) ss ls ->
  (i < length ss)%nat -> yields_at d cur r ->
  yields_at (S d) (IChain ss (Z.of_nat i) cur) (r ++ mjoin (drop (S i) ls)).
Proof using Type.
  intros Hss. pose proof (Forall2_length _ _ _ Hss) as Hlen.
  remember (length ss - i)%nat as k eqn:Ek. revert i cur r Ek.
  induction k as [|k IH]; intros i cur r Ek Hi Hcur; [lia|].
  assert (Hf : Z.to_nat (zlen ss - Z.of_nat i) = S k) by (unfold zlen; lia).
  induction Hcur as [cur cur' Hn He|cur cur' s r Hn Ha Hy IHy].
  - cbn [app]. destruct (Z.eqb_spec (Z.of_nat i) (zlen ss - 1)) as [Elast|Hlast].
    + rewrite drop_ge by (unfold zlen in Elast; lia).
      apply (yields_nil _ (IChain ss (Z.of_nat i) cur')); [|done].
      cbn. rewrite Hf. cbn. cbn in Hn, He. rewrite Hn. cbn. rewrite He, Elast, Z.eqb_refl. done.
    + destruct (lookup_lt_is_Some_2 ls (S i)) as [l Hl]; [unfold zlen in Hlast; lia|].
      destruct (Forall2_lookup_r _ _ _ _ _ Hss Hl) as (s & Hs & it & Hit & Hy).
      rewrite (drop_S ls l _ Hl), join_cons.
      apply (yields_same_Next _ (IChain ss (Z.of_nat (S i)) it)); [|apply (IH (S i)); [lia|unfold zlen in Hlast; lia|done]].
      cbn. rewrite Hf. replace (Z.to_nat _) with k by (unfold zlen; lia). cbn [chain_next].
      cbn in Hn, He. rewrite Hn. cbn [res_bind]. rewrite He.
      rewrite (proj2 (Z.eqb_neq _ _)) by done. rewrite Z.add_1_r, <- Nat2Z.inj_succ.
      rewrite (proj2 (index_ok ss _ s)) by (split; [lia|by rewrite Nat2Z.id]).
      cbn [res_bind]. by rewrite Hit.
  - apply (yields_cons _ (IChain ss (Z.of_nat i) cur')); [|done|done].
    cbn. rewrite Hf. cbn. cbn in Hn. by rewrite Hn.
Qed.

Lemma depth_le s ss : s ∈ ss -> (s_depth s < s_depth (SChain ss))%nat.
Proof using Type. cbn. induction 1; cbn; lia. Qed.

Lemma s_Iterator_depth s it : s_Iterator s = Ok it -> it_depth it = s_depth s.
Proof using Type.
  destruct s as [b|[|s ss]]; cbn [s_Iterator]; [|done|]; intros (x & _ & [= <-])%res_bind_ok; done.
Qed.

Lemma s_yields_at d s l :
  (s_depth s <= d)%nat -> s_yields s l -> exists it, s_Iterator s = Ok it /\ yields_at d it l.
Proof using Type.
  revert s l. induction d as [|d IH]; intros s l Hd Hy; destruct Hy as [b it l Hit Hy|ss ls Hne Hss].
  1,3: exists (IBase it); cbn; rewrite Hit; split; [done|by apply base_yields].
  - cbn in Hd. lia.
  - assert (Hss' : Forall2 (fun s l => exists it, s_Iterator s = Ok it /\ yields_at d it l) ss ls).
    { apply Forall2_same_length_lookup_2; [by eapply Forall2_length|]. intros i s l Hs Hl.
      apply IH; [|by eapply Forall2_lookup_lr]. apply list_elem_of_lookup_2, depth_le in Hs. lia. }
    destruct Hss' as [|s l ss ls (it & Hit & Hy) Hss']; [done|].
    exists (IChain (s :: ss) 0 it). cbn [s_Iterator]. rewrite Hit. split; [done|]. rewrite join_cons.
    apply (chain_yields d (s :: ss) (l :: ls) 0 it l); [|cbn; lia|done]. constructor; [by exists it|done].
Qed.

Lemma it_next_depth d it b it' : it_next d it = Ok (b, it') -> it_depth it' = it_depth it.
Proof using Type.
  destruct it as [it|ss i cur]; [destruct d; cbn; by intros ([] & _ & [= _ <-])%res_bind_ok|].
  destruct d as [|d]; [done|]. cbn [it_next it_depth]. generalize (Z.to_nat (zlen ss - i)). intros n.
  revert i cur. induction n as [|n IH]; intros i cur; [done|]. cbn [chain_next].
  intros ([[] c] & _ & E)%res_bind_ok; [by injection E as _ <-|].
  case_match; [by injection E as _ <-|]. case_match; [by injection E as _ <-|].
  apply res_bind_ok in E as (s & _ & E). apply res_bind_ok in E as (c2 & _ & E). by eapply IH.
Qed.

Lemma yields_at_own it l : yields_at (it_depth it) it l -> yields it l.
Proof using Type.
  remember (it_depth it) as d eqn:Ed. induction 1 as [it it' Hn He|it it' s l Hn Ha Hy IH];
    pose proof (it_next_depth _ _ _ _ Hn) as Ed'.
  - apply (yields_nil _ it'); [|done]. cbn in *. congruence.
  - apply (yields_cons _ it'); [cbn in *; congruence|done|]. apply IH. congruence.
Qed.

(** Whatever the nesting, the iterator of a series yields its samples. *)
Lemma s_yields_yields s l : s_yields s l -> exists it, s_Iterator s = Ok it /\ yields it l.
Proof using Type.
  intros (it & Hit & Hy)%(s_yields_at (s_depth s)); [|done]. exists it. split; [done|].
  apply yields_at_own. by rewrite (s_Iterator_depth _ _ Hit).
Qed.
End Chained.

(** * Series sets *)

(** The [SeriesSet] a block's querier gives. *)
Class BaseSet (X B : Type) := {
  x_Next : X -> res (bool * X);
  x_At : X -> option (Series B);
  x_Err : X -> option error;
}.

(** The implementations of [SeriesSet]: [errSeriesSet], a block's set, and
    [mergedSeriesSet] with its [a], [b], [cur], [adone] and [bdone]. *)
Inductive sset (X B : Type) :=
| SetErr (err : option error)
| SetBase (x : X)
| SetMerged (a b : sset X B) (cur : option (Series B)) (adone bdone : bool).
Arguments SetErr {X B}.
Arguments SetBase {X B}.
Arguments SetMerged {X B}.

(** A series: its labels and samples. *)
Abbreviation entry := (Labels * list Buffer.sample)%type.

Section Sets.
Context {X B It : Type} `{BaseSet X B} `{BaseSeries B It} `{SeriesIterator It}.

(** [At]: a nil [Series] is [None]. *)
Definition set_At (s : sset X B) : option (Series B) :=
  match s with
  | SetErr _ => None
  | SetBase x => x_At x
  | SetMerged _ _ cur _ _ => cur
  end.

Fixpoint set_Err (s : sset X B) : option error :=
  match s with
  | SetErr e => e
  | SetBase x => x_Err x
  | SetMerged a b _ _ _ => match set_Err a with Some e => Some e | None => set_Err b end
  end.

(** Calling [Labels] on a nil series panics. *)
Definition at_Labels (s : sset X B) : res Labels :=
  match set_At s with Some s => s_Labels s | None => Panic end.

(** [mergedSeriesSet.compare]. *)
Definition set_compare (a b : sset X B) (adone bdone : bool) : res Z :=
  if adone then Ok 1
  else if bdone then Ok (-1)
  else
    let? x := at_Labels a in
    let? y := at_Labels b in
    Ok (Compare x y).

(** [&chainedSeries{series: []Series{s.a.At(), s.b.At()}}]; calling a method of
    a nil member would panic. *)
Definition chain_two (a b : option (Series B)) : option (Series B) :=
  match a, b with Some a, Some b => Some (SChain [a; b]) | _, _ => None end.

Fixpoint set_Next (s : sset X B) : res (bool * sset X B) :=
  match s with
  | SetErr _ => Ok (false, s)
  | SetBase x => let? (ok, x) := x_Next x in Ok (ok, SetBase x)
  | SetMerged a b cur adone bdone =>
      if (adone && bdone) || bool_decide (set_Err s <> None) then Ok (false, s)
      else
        let? d := set_compare a b adone bdone in
        if 0 <? d then
          let? (ok, b') := set_Next b in
          Ok (true, SetMerged a b' (set_At b) adone (negb ok))
        else if d <? 0 then
          let? (ok, a') := set_Next a in
          Ok (true, SetMerged a' b (set_At a) (negb ok) bdone)
        else
          let? (oka, a') := set_Next a in
          let? (okb, b') := set_Next b in
          Ok (true, SetMerged a' b' (chain_two (set_At a) (set_At b)) (negb oka) (negb okb))
  end.

Definition newMergedSeriesSet (a b : sset X B) : res (sset X B) :=
  let? (oka, a) := set_Next a in
  let? (okb, b) := set_Next b in
  Ok (SetMerged a b None (negb oka) (negb okb)).

Definition EmptySeriesSet : sset X B := SetErr None.

(** ** What a set gives *)

(** The series [s] has the labels and yields the samples of [e]. *)
Definition denotes (s : Series B) (e : entry) : Prop := s_Labels s = Ok (fst e) /\ s_yields s (snd e).

Inductive set_yields : sset X B -> list entry -> Prop :=
| gy_nil st st' : set_Next st = Ok (false, st') -> set_Err st' = None -> set_yields st []
| gy_cons st st' s e l :
    set_Next st = Ok (true, st') -> set_Err st' = None -> set_At st' = Some s -> denotes s e ->
    set_yields st' l -> set_yields st (e :: l).

(** One element of look-ahead. *)
Inductive ahead : sset X B -> bool -> list entry -> Prop :=
| ahead_done st : set_Err st = None -> ahead st true []
| ahead_at st s e l :
    set_Err st = None -> set_At st = Some s -> denotes s e -> set_yields st l -> ahead st false (e :: l).

(** The specification of the merge: by labels, and the samples of [a] before
    those of [b] for the series both have. *)
Definition smerge : list entry -> list entry -> list entry :=
  kmerge fst labels_cmp (fun e f => (fst e, snd e ++ snd f)).

Lemma smerge_nil_l lb : smerge [] lb = lb.
Proof using Type. apply kmerge_nil_l. Qed.

Lemma smerge_nil_r la : smerge la [] = la.
Proof using Type. apply kmerge_nil_r. Qed.

Lemma ahead_Next st l : set_yields st l -> exists ok st', set_Next st = Ok (ok, st') /\ ahead st' (negb ok) l.
Proof using Type.
  destruct 1 as [st st' Hn He|st st' s e l Hn He Ha Hd Hy].
  - exists false, st'. split; [done|]. by constructor.
  - exists true, st'. split; [done|]. by eapply ahead_at.
Qed.

Lemma ahead_Err st d l : ahead st d l -> set_Err st = None.
Proof using Type. by destruct 1. Qed.

Lemma denotes_chain a b x l k :
  denotes a (x, l) -> denotes b (x, k) -> denotes (SChain [a; b]) (x, l ++ k).
Proof using Type.
  intros [Hx Hl] [_ Hk]. split; [exact Hx|]. cbn [snd].
  replace (l ++ k) with (mjoin [l; k]) by (cbn; by rewrite app_nil_r).
  constructor; [done|]. by repeat constructor.
Qed.

Lemma Compare_sign x y :
  match labels_cmp x y with Lt => Compare x y < 0 | Eq => Compare x y = 0 | Gt => 0 < Compare x y end.
Proof using Type.
  rewrite <- Compare_cmp. destruct (Z.compare_spec (Compare x y) 0); lia.
Qed.

Lemma merged_Err a b cur da db la lb :
  ahead a da la -> ahead b db lb -> set_Err (SetMerged a b cur da db) = None.
Proof using Type. intros Ea%ahead_Err Eb%ahead_Err. cbn. by rewrite Ea. Qed.

(** One step to the first entry of the merge, by the sign of the comparison. *)
Lemma merged_step_b a b da la s e lb cur :
  ahead a da la -> set_Err b = None -> set_At b = Some s -> denotes s e -> set_yields b lb ->
  (exists d, set_compare a b da false = Ok d /\ 0 < d) ->
  (forall b' db, ahead b' db lb -> set_yields (SetMerged a b' (Some s) da db) (smerge la lb)) ->
  set_yields (SetMerged a b cur da false) (e :: smerge la lb).
Proof using Type.
  intros Ha Heb Hat Hd (ok & b' & Hn & Hb')%ahead_Next (d & Hcmp & Hpos) IH.
  pose proof (ahead_Err _ _ _ Ha) as Hea.
  apply (gy_cons _ (SetMerged a b' (Some s) da (negb ok)) s); [| |done|done|by apply IH].
  - cbn [set_Next set_Err]. rewrite Hea, Heb, andb_false_r. cbn [orb].
    rewrite bool_decide_false by (intros Hne; by apply Hne). rewrite Hcmp. cbn [res_bind].
    rewrite (proj2 (Z.ltb_lt _ _)) by done. rewrite Hn. cbn [res_bind]. by rewrite Hat.
  - cbn. by rewrite Hea, (ahead_Err _ _ _ Hb').
Qed.

Lemma merged_step_a a b db lb s e la cur :
  ahead b db lb -> set_Err a = None -> set_At a = Some s -> denotes s e -> set_yields a la ->
  (exists d, set_compare a b false db = Ok d /\ d < 0) ->
  (forall a' da, ahead a' da la -> set_yields (SetMerged a' b (Some s) da db) (smerge la lb)) ->
  set_yields (SetMerged a b cur false db) (e :: smerge la lb).
Proof using Type.
  intros Hb Hea Hat Hd (ok & a' & Hn & Ha')%ahead_Next (d & Hcmp & Hneg) IH.
  pose proof (ahead_Err _ _ _ Hb) as Heb.
  apply (gy_cons _ (SetMerged a' b (Some s) (negb ok) db) s); [| |done|done|by apply IH].
  - cbn [set_Next set_Err]. rewrite Hea, Heb. cbn [andb orb].
    rewrite bool_decide_false by (intros Hne; by apply Hne). rewrite Hcmp. cbn [res_bind].
    rewrite (proj2 (Z.ltb_ge _ _)) by lia. rewrite (proj2 (Z.ltb_lt _ _)) by done.
    rewrite Hn. cbn [res_bind]. by rewrite Hat.
  - cbn. by rewrite Heb, (ahead_Err _ _ _ Ha').
Qed.

Lemma merged_step_both a b sa sb x l k la lb cur :
  set_Err a = None -> set_At a = Some sa -> denotes sa (x, l) -> set_yields a la ->
  set_Err b = None -> set_At b = Some sb -> denotes sb (x, k) -> set_yields b lb ->
  (forall a' da b' db, ahead a' da la -> ahead b' db lb ->
     set_yields (SetMerged a' b' (Some (SChain [sa; sb])) da db) (smerge la lb)) ->
  set_yields (SetMerged a b cur false false) ((x, l ++ k) :: smerge la lb).
Proof using Type.
  intros Hea Hata Hda (oka & a' & Hna & Ha')%ahead_Next Heb Hatb Hdb (okb & b' & Hnb & Hb')%ahead_Next IH.
  apply (gy_cons _ (SetMerged a' b' (Some (SChain [sa; sb])) (negb oka) (negb okb)) (SChain [sa; sb]));
    [| |done|by apply denotes_chain|by apply IH].
  - cbn [set_Next set_Err]. rewrite Hea, Heb. cbn [andb orb].
    rewrite bool_decide_false by (intros Hne; by apply Hne).
    unfold set_compare, at_Labels. rewrite Hata, Hatb, (proj1 Hda), (proj1 Hdb). cbn [res_bind fst].
    pose proof (Compare_sign x x) as Hc. rewrite (cmp_refl labels_cmp) in Hc. rewrite Hc. cbn [Z.ltb Z.compare].
    rewrite Hna. cbn [res_bind]. by rewrite Hnb.
  - cbn. by rewrite (ahead_Err _ _ _ Ha'), (ahead_Err _ _ _ Hb').
Qed.

Lemma merged_yields a b cur da db la lb :
  ahead a da la -> ahead b db lb -> set_yields (SetMerged a b cur da db) (smerge la lb).
Proof using Type.
  remember (length la + length lb)%nat as n eqn:En. revert a b cur da db la lb En.
  induction n as [n IH] using lt_wf_ind. intros a b cur da db la lb En Ha Hb.
  pose proof Ha as Ha'. pose proof Hb as Hb'.
  destruct Ha as [a Hea|a sa [x l] la Hea Hata Hda Hya], Hb as [b Heb|b sb [y k] lb Heb Hatb Hdb Hyb].
  - apply (gy_nil _ (SetMerged a b cur true true)); [done|]. cbn. by rewrite Hea.
  - rewrite smerge_nil_l, <- (smerge_nil_l lb).
    eapply merged_step_b; [done..|by exists 1|]. intros. eapply IH; [|done|done|done]. cbn in En. cbn. lia.
  - rewrite smerge_nil_r, <- (smerge_nil_r la).
    eapply merged_step_a; [done..|by exists (-1)|]. intros. eapply IH; [|done|done|done]. cbn in En. cbn. lia.
  - unfold smerge. rewrite kmerge_cons. fold smerge. cbn [fst snd]. pose proof (Compare_sign x y) as Hc.
    assert (Hcmp : set_compare a b false false = Ok (Compare x y)).
    { unfold set_compare, at_Labels. by rewrite Hata, Hatb, (proj1 Hda), (proj1 Hdb). }
    destruct (labels_cmp x y) eqn:E.
    + apply cmp_eq in E as <-; [|apply _]. eapply merged_step_both; [done..|]. intros. eapply IH; [|done..]. cbn in En. lia.
    + eapply merged_step_a; [done..|by eexists|]. intros. eapply IH; [|done..]. cbn in En. cbn. lia.
    + eapply merged_step_b; [done..|by eexists|]. intros. eapply IH; [|done..]. cbn in En. cbn. lia.
Qed.

(** Merging two sets of series. *)
Lemma newMerged_yields a b la lb :
  set_yields a la -> set_yields b lb ->
  exists st, newMergedSeriesSet a b = Ok st /\ set_yields st (smerge la lb).
Proof using Type.
  intros (oka & a' & Hna & Ha)%ahead_Next (okb & b' & Hnb & Hb)%ahead_Next.
  unfold newMergedSeriesSet. rewrite Hna. cbn [res_bind]. rewrite Hnb. cbn [res_bind].
  eexists. split; [done|]. by apply merged_yields.
Qed.
End Sets.

(** * The querier over several blocks *)

(** [mergeStrings]: what is left of one list goes to the end. *)
Fixpoint mergeStrings (a : list string) : list string -> list string :=
  fix go (b : list string) : list string :=
    match a, b with
    | [], _ => b
    | _, [] => a
    | x :: a', y :: b' =>
        let d := strings_Compare x y in
        if d =? 0 then x :: mergeStrings a' b'
        else if d <? 0 then x :: mergeStrings a' b
        else y :: go b'
    end.

(** [Querier]: of a block, with the errors of the calls. *)
Class Querier (Q X B : Type) := {
  q_Select : Q -> list Matcher -> res (sset X B);
  q_LabelValues : Q -> string -> res (list string);
}.

Section Querying.
Context {Q X B It : Type} `{Querier Q X B} `{BaseSet X B} `{BaseSeries B It} `{SeriesIterator It}.

(** [querier.sel] and [querier.lvals] halve the blocks; the number of blocks is
    enough fuel. *)
Fixpoint sel (fuel : nat) (qs : list Q) (ms : list Matcher) : res (sset X B) :=
  match fuel with
  | O => Ok EmptySeriesSet
  | S fuel =>
      match qs with
      | [] => Ok EmptySeriesSet
      | [q] => q_Select q ms
      | _ =>
          let l := (length qs / 2)%nat in
          let? a := sel fuel (take l qs) ms in
          let? b := sel fuel (drop l qs) ms in
          newMergedSeriesSet a b
      end
  end.

Definition Select (qs : list Q) (ms : list Matcher) : res (sset X B) := sel (length qs) qs ms.

Fixpoint lvals (fuel : nat) (qs : list Q) (n : string) : res (list string) :=
  match fuel with
  | O => Ok []
  | S fuel =>
      match qs with
      | [] => Ok []
      | [q] => q_LabelValues q n
      | _ =>
          let l := (length qs / 2)%nat in
          let? s1 := lvals fuel (take l qs) n in
          let? s2 := lvals fuel (drop l qs) n in
          Ok (mergeStrings s1 s2)
      end
  end.

Definition LabelValues (qs : list Q) (n : string) : res (list string) := lvals (length qs) qs n.

Definition LabelValuesFor (qs : list Q) (n : string) (l : Label) : res (list string) :=
  Err (ErrMsg "not implemented").

(** ** Proofs *)

Lemma mergeStrings_kmerge a b : mergeStrings a b = kmerge id str_cmp (fun x _ => x) a b.
Proof using Type.
  revert b. induction a as [|x a IHa]; intros b; [by destruct b|].
  induction b as [|y b IHb]; [done|]. rewrite kmerge_cons. unfold id at 1 2.
  change (mergeStrings (x :: a) (y :: b)) with
    (let d := strings_Compare x y in
     if d =? 0 then x :: mergeStrings a b
     else if d <? 0 then x :: mergeStrings a (y :: b) else y :: mergeStrings (x :: a) b).
  unfold strings_Compare. destruct (str_cmp x y); cbn [Z.eqb Z.ltb Z.compare]; f_equal; first [apply IHa|apply IHb].
Qed.

(** The samples of the series with labels [x]. *)
Definition samples_at (x : Labels) (l : list entry) : list Buffer.sample :=
  mjoin (snd <$> filter (fun e => fst e = x) l).

Lemma samples_at_cons x e l :
  samples_at x (e :: l) = (if decide (fst e = x) then snd e else []) ++ samples_at x l.
Proof using Type. unfold samples_at. rewrite filter_cons. by case_decide. Qed.

Lemma samples_at_absent x l : x ∉ fst <$> l -> samples_at x l = [].
Proof using Type.
  intros Hx. unfold samples_at. rewrite filter_none; [done|]. apply Forall_forall.
  intros e He <-. by apply Hx, list_elem_of_fmap_2.
Qed.

Abbreviation lincr := (increasing fst labels_cmp).

Lemma samples_at_smaller y a l : lincr (a :: l) -> labels_cmp y (fst a) = Lt -> samples_at y (a :: l) = [].
Proof using Type.
  intros [_ Ha]%increasing_cons Hy. apply samples_at_absent. cbn. intros [->|Hin]%elem_of_cons.
  - by apply (cmp_lt_irrefl labels_cmp) in Hy.
  - specialize (Ha y Hin). rewrite (cmp_opp labels_cmp), Hy in Ha. done.
Qed.

Lemma samples_at_rest a l : lincr (a :: l) -> samples_at (fst a) l = [].
Proof using Type.
  intros [_ Ha]%increasing_cons. apply samples_at_absent. intros Hin.
  by apply Ha, (cmp_lt_irrefl labels_cmp) in Hin.
Qed.

Lemma samples_at_smerge x la lb :
  lincr la -> lincr lb -> samples_at x (smerge la lb) = samples_at x la ++ samples_at x lb.
Proof using Type.
  unfold smerge. pattern la, lb, (kmerge fst labels_cmp (fun e f : entry => (fst e, snd e ++ snd f)) la lb).
  apply kmerge_ind; clear la lb.
  - done.
  - intros la _ _. by rewrite app_nil_r.
  - intros a la b lb E IH Ha Hb. pose proof Ha as [Hla _]%increasing_cons. pose proof Hb as [Hlb _]%increasing_cons.
    apply (cmp_eq labels_cmp) in E. rewrite !samples_at_cons, (IH Hla Hlb), <- E. cbn [fst snd].
    case_decide as Ex; [|done]. rewrite <- Ex, (samples_at_rest a la Ha). by rewrite app_nil_r, <- app_assoc.
  - intros a la b lb _ IH [Hla _]%increasing_cons Hb. by rewrite !(samples_at_cons x a), (IH Hla Hb), app_assoc.
  - intros a la b lb E IH Ha [Hlb _]%increasing_cons. rewrite !(samples_at_cons x b), (IH Ha Hlb).
    case_decide as Ex; [|done]. rewrite <- Ex, (samples_at_smaller (fst b) a la Ha); [done|].
    exact (proj1 (cmp_gt labels_cmp _ _) E).
Qed.

(** What merging the sets of the blocks, in the order of the blocks, gives: the
    series of all blocks by increasing labels, each with its samples of one
    block after the other. *)
Definition merges (ls : list (list entry)) (l : list entry) : Prop :=
  lincr l /\ (forall x, x ∈ fst <$> l <-> exists k, k ∈ ls /\ x ∈ fst <$> k) /\
  (forall x, samples_at x l = mjoin (samples_at x <$> ls)).

Lemma merges_app ls1 ls2 l1 l2 : merges ls1 l1 -> merges ls2 l2 -> merges (ls1 ++ ls2) (smerge l1 l2).
Proof using Type.
  intros (Hi1 & K1 & S1) (Hi2 & K2 & S2). split_and!.
  - by apply (kmerge_increasing _ _ _).
  - intros x. unfold smerge. rewrite (kmerge_keys _ _ _) by done. rewrite K1, K2. setoid_rewrite elem_of_app. naive_solver.
  - intros x. by rewrite samples_at_smerge, S1, S2, fmap_app, join_app.
Qed.

Lemma merges_one l : lincr l -> merges [l] l.
Proof using Type.
  intros Hl. split_and!; [done|..]; intros x.
  - setoid_rewrite list_elem_of_singleton. naive_solver.
  - cbn. by rewrite app_nil_r.
Qed.

(** The block's querier gives the series [l]. *)
Definition q_gives (ms : list Matcher) (q : Q) (l : list entry) : Prop :=
  exists st, q_Select q ms = Ok st /\ set_yields st l /\ lincr l.

Lemma half_range {A} (l : list A) : (2 <= length l)%nat -> (0 < length l / 2 < length l)%nat.
Proof using Type. intros ?. pose proof (Nat.div_mod_eq (length l) 2). pose proof (Nat.mod_upper_bound (length l) 2). lia. Qed.

Lemma sel_merges fuel qs ms ls :
  (length qs <= fuel)%nat -> Forall2 (q_gives ms) qs ls ->
  exists st l, sel fuel qs ms = Ok st /\ set_yields st l /\ merges ls l.
Proof using Type.
  revert qs ls. induction fuel as [|fuel IH]; intros qs ls Hf Hq.
  { destruct Hq; [|cbn in Hf; lia]. exists EmptySeriesSet, []. split_and!; [done|by eapply gy_nil|].
    split_and!; [constructor|set_solver|done]. }
  pose proof (Forall2_length _ _ _ Hq) as Hlen.
  destruct qs as [|q [|q' qs]]; cbn [sel].
  - destruct ls; [|done]. exists EmptySeriesSet, []. split_and!; [done|by eapply gy_nil|].
    split_and!; [constructor|set_solver|done].
  - destruct ls as [|l [|]]; [done| |done]. apply Forall2_cons_1 in Hq as [(st & ? & ? & ?) _].
    exists st, l. split_and!; [done..|by apply merges_one].
  - remember (q :: q' :: qs) as qs0 eqn:Eqs.
    pose proof (half_range qs0 ltac:(subst; cbn; lia)) as Hhalf.
    destruct (IH (take (length qs0 / 2) qs0) (take (length qs0 / 2) ls)) as (sa & la & -> & Ha & Hma).
    { rewrite length_take. lia. } { by apply Forall2_take. }
    destruct (IH (drop (length qs0 / 2) qs0) (drop (length qs0 / 2) ls)) as (sb & lb & -> & Hb & Hmb).
    { rewrite length_drop. lia. } { by apply Forall2_drop. }
    cbn [res_bind]. destruct (newMerged_yields sa sb la lb Ha Hb) as (st & Hst & Hy).
    exists st, (smerge la lb). split_and!; [done|done|].
    rewrite <- (take_drop (length qs0 / 2) ls). by apply merges_app.
Qed.

Lemma lvals_union fuel qs n vs :
  (length qs <= fuel)%nat -> Forall2 (fun q l => q_LabelValues q n = Ok l /\ increasing id str_cmp l) qs vs ->
  exists l, lvals fuel qs n = Ok l /\ increasing id str_cmp l /\ forall x, x ∈ l <-> exists k, k ∈ vs /\ x ∈ k.
Proof using Type.
  revert qs vs. induction fuel as [|fuel IH]; intros qs vs Hf Hq.
  { destruct Hq; [|cbn in Hf; lia]. exists []. split_and!; [done|constructor|set_solver]. }
  pose proof (Forall2_length _ _ _ Hq) as Hlen.
  destruct qs as [|q [|q' qs]]; cbn [lvals].
  - destruct vs; [|done]. exists []. split_and!; [done|constructor|set_solver].
  - destruct vs as [|l [|]]; [done| |done]. apply Forall2_cons_1 in Hq as [[? ?] _].
    exists l. split_and!; [done..|]. intros x. setoid_rewrite list_elem_of_singleton. naive_solver.
  - remember (q :: q' :: qs) as qs0 eqn:Eqs.
    pose proof (half_range qs0 ltac:(subst; cbn; lia)) as Hhalf.
    destruct (IH (take (length qs0 / 2) qs0) (take (length qs0 / 2) vs)) as (la & -> & Ha & Hma).
    { rewrite length_take. lia. } { by apply Forall2_take. }
    destruct (IH (drop (length qs0 / 2) qs0) (drop (length qs0 / 2) vs)) as (lb & -> & Hb & Hmb).
    { rewrite length_drop. lia. } { by apply Forall2_drop. }
    cbn [res_bind]. exists (mergeStrings la lb). rewrite mergeStrings_kmerge. split_and!; [done|by apply (kmerge_increasing _ _ _)|].
    intros x. pose proof (kmerge_keys id str_cmp (fun x _ => x) (fun _ _ => eq_refl) la lb x) as Hk.
    rewrite !list_fmap_id in Hk. rewrite Hk, Hma, Hmb.
    assert (Hin : forall k, k ∈ vs <-> k ∈ take (length qs0 / 2) vs \/ k ∈ drop (length qs0 / 2) vs)
      by (intros; by rewrite <- elem_of_app, take_drop).
    setoid_rewrite Hin. naive_solver.
Qed.
End Querying.

(** * Main theorems *)

(** C17: [Select] over several blocks.  When the querier of each block gives its
    series by increasing labels, the merged set, built by halving the blocks,
    gives every label set of every block once, by increasing labels; and the
    iterator of a series, a chain nested as deep as the merges, yields the samples
    of the block's series one block after the other. *)
Theorem Select_merges {Q X B It} `{Querier Q X B} `{BaseSet X B} `{BaseSeries B It} `{SeriesIterator It}
    (qs : list Q) (ms : list Matcher) (ls : list (list entry)) :
  Forall2 (q_gives ms) qs ls ->
  exists st l, Select qs ms = Ok st /\ set_yields st l /\ merges ls l /\
    forall s e, denotes s e -> exists it, s_Iterator s = Ok it /\ yields it (snd e).
Proof.
  intros Hq. destruct (sel_merges (length qs) qs ms ls) as (st & l & ? & ? & ?); [done..|].
  exists st, l. split_and!; [done..|]. intros s e [_ Hy]. by apply s_yields_yields.
Qed.

(** C37: [LabelValues] over several blocks gives the sorted union of the values
    of the blocks, without duplicates. *)
Theorem LabelValues_union {Q X B} `{Querier Q X B} (qs : list Q) (n : string) (vs : list (list string)) :
  Forall2 (fun q l => q_LabelValues q n = Ok l /\ increasing id str_cmp l) qs vs ->
  exists l, LabelValues qs n = Ok l /\ increasing id str_cmp l /\
    forall x, x ∈ l <-> exists k, k ∈ vs /\ x ∈ k.
Proof. intros Hq. by apply lvals_union. Qed.

(** Blocks held as lists, to run the querier. *)
Module ListBlocks.
#[global] Instance list_iterator : SeriesIterator (list Buffer.sample) := {|
  si_Seek it t := let r := filter (fun s => t <= fst s) (tail it) in
                  Ok (negb (bool_decide (r = [])), r);
  si_At it := match it with [] => Panic | s :: _ => Ok s end;
  si_Next it := Ok (negb (bool_decide (tail it = [])), tail it);
  si_Err it := None;
|}.
#[global] Instance entry_series : BaseSeries entry (list Buffer.sample) := {|
  b_Labels := fst; b_Iterator e := Ok ((0, 0) :: snd e);
|}.
#[global] Instance list_set : BaseSet (list entry) entry := {|
  x_Next x := Ok (negb (bool_decide (tail x = [])), tail x);
  x_At x := SBase <$> head x;
  x_Err x := None;
|}.
#[global] Instance list_querier : Querier (list entry) (list entry) entry := {|
  q_Select q ms := Ok (SetBase (([], []) :: filter (fun e => sel_Matches ms (fst e) = true) q));
  q_LabelValues q n := Ok ((fun e => labels_Get (fst e) n) <$> q);
|}.

Lemma list_yields a l : yields (a :: l) l.
Proof.
  revert a. induction l as [|s l IH]; intros a; [by eapply yields_nil|].
  by apply (yields_cons _ (s :: l)).
Qed.

Lemma list_set_yields e l : set_yields (X := list entry) (B := entry) (SetBase (e :: l)) l.
Proof.
  revert e. induction l as [|a l IH]; intros e; [by eapply gy_nil|].
  apply (gy_cons _ (SetBase (a :: l)) (SBase a)); [done..| |done].
  split; [done|]. eapply sy_base; [done|]. apply list_yields.
Qed.

Definition block1 : list entry := [([("a", "1")], [(1, 5)]); ([("a", "2")], [(2, 6)])]%string.
Definition block2 : list entry := [([("a", "2")], [(7, 1)]); ([("b", "1")], [(8, 2)])]%string.
Definition block3 : list entry := [([("a", "1")], [(10, 3)]); ([("a", "2")], [(11, 4)])]%string.
End ListBlocks.

Lemma Select_merges_witness :
  exists (st : sset (list entry) entry) l,
    Select (It := list Buffer.sample) [ListBlocks.block1; ListBlocks.block2; ListBlocks.block3] [] = Ok st /\
    set_yields (It := list Buffer.sample) st l /\
    merges [ListBlocks.block1; ListBlocks.block2; ListBlocks.block3] l /\
    forall (s : Series entry) e, denotes (It := list Buffer.sample) s e ->
      exists it : siter entry (list Buffer.sample), s_Iterator s = Ok it /\ yields it (snd e).
Proof.
  apply Select_merges. repeat constructor; eexists; (split_and!; [done|apply ListBlocks.list_set_yields|]);
    repeat constructor.
Defined.

Lemma LabelValues_union_witness :
  exists l, LabelValues (X := list entry) (B := entry) [ListBlocks.block1; ListBlocks.block3] "a" = Ok l /\ increasing id str_cmp l /\
    forall x, x ∈ l <-> exists k, k ∈ [["1"; "2"]; ["1"; "2"]]%string /\ x ∈ k.
Proof. apply LabelValues_union. repeat constructor. Defined.
