(* ===== verification/Querier.v ===== *)
(** querier.go, the querier of one block: from matchers to postings, from
    postings to series and their chunks. *)
From S2P Require Import Prelude EncBuf Order Labels Tombstones Postings PostingsSpec Chunks Buffer SeriesIter SeriesSets.
#[local] Open Scope list_scope.
#[local] Open Scope Z_scope.

(** * Interfaces *)

(** [StringTuples]: [At] may fail. *)
Record StringTuples := mkStringTuples { st_Len : nat; st_At : nat -> res (list string) }.

(** What the querier uses of [IndexReader]. *)
Class IndexReader (IX C : Type) := {
  ix_LabelValues : IX -> string -> res StringTuples;
  ix_Postings : IX -> string -> string -> res Postings;
  ix_SortedPostings : IX -> Postings -> Postings;
  ix_Series : IX -> Z -> res (Labels * list (Meta C));
}.

(** [ChunkReader] and [TombstoneReader]. *)
Class ChunkReader (CR C : Type) := cr_Chunk : CR -> Z -> res C.
Class TombstoneReader (TR : Type) := tr_Get : TR -> Z -> res Intervals.

#[export] Instance memTombstones_reader : TombstoneReader memTombstones := fun t ref => Ok (Get t ref).

(** A [Postings] value is an iterator. *)
#[export] Instance Postings_ops : PostingsOps Postings := {|
  p_Next p := let '(ok, s) := p_Next (ps_state p) in (ok, mkPostings (ps_shape p) s);
  p_Seek p x := let '(ok, s) := p_Seek (ps_state p) x in (ok, mkPostings (ps_shape p) s);
  p_At p := p_At (ps_state p);
  p_Err p := p_Err (ps_state p);
  p_size p := p_size (ps_state p);
|}.

(** [index.AllPostingsKey]. *)
Definition AllPostingsKey : string * string := (EmptyString, EmptyString).

(** * Matching label values *)

(** [s[:n]]. *)
Definition str_take (s : string) (n : nat) : res string :=
  if (n <=? String.length s)%nat then Ok (String.substring 0 n s) else Panic.

(** The predicate of the binary search in [tuplesByPrefix]; [len(vs)] is the
    length of the tuple, not of the value. *)
Definition prefix_test (prefix : string) (vs : list string) : res bool :=
  let? val := index vs 0 in
  let l := String.length prefix in
  let l := if (length vs <? l)%nat then String.length val else l in
  let? v := str_take val l in
  Ok (negb (cmp_ltb str_cmp v prefix)).

(** [sort.Search] with a predicate that may set [outErr]. *)
Fixpoint search_err (fuel : nat) (f : nat -> res bool) (i j : nat) (outErr : option error) :
    res (nat * option error) :=
  match fuel with
  | O => Ok (i, outErr)
  | S fuel =>
      if (i <? j)%nat then
        let h := ((i + j) / 2)%nat in
        match f h with
        | Ok b => if negb b then search_err fuel f (h + 1) j outErr else search_err fuel f i h outErr
        | Err _ => search_err fuel f i h (Some (ErrMsg "Failed to read tuple"))
        | Panic => Panic
        end
      else Ok (i, outErr)
  end.

(** [for ; i < tslen; i++]: the matches from [i] on, up to the first value that
    does not match; [n] is [tslen - i]. *)
Fixpoint collect (m : Matcher) (ts : StringTuples) (n i : nat) : res (list string) :=
  match n with
  | O => Ok []
  | S n =>
      let? vs := st_At ts i in
      let? v := index vs 0 in
      if negb (m_Matches m v) then Ok []
      else let? rest := collect m ts n (i + 1) in Ok (v :: rest)
  end.

Definition tuplesByPrefix (name prefix : string) (ts : StringTuples) : res (list string) :=
  let? (i, outErr) := search_err (st_Len ts) (fun i => let? vs := st_At ts i in prefix_test prefix vs)
                       0 (st_Len ts) None in
  match outErr with
  | Some e => Err e
  | None => collect (PrefixMatcher name prefix) ts (st_Len ts - i) i
  end.

(** The values that satisfy [p]: the loop over all tuples. *)
Fixpoint scan_tuples (p : string -> bool) (ts : StringTuples) (n i : nat) : res (list string) :=
  match n with
  | O => Ok []
  | S n =>
      let? vs := st_At ts i in
      let? v := index vs 0 in
      let? rest := scan_tuples p ts n (i + 1) in
      Ok (if p v then v :: rest else rest)
  end.

Section Querier.
Context {IX C CR TR : Type} `{IndexReader IX C} `{ChunkReader CR C} `{TombstoneReader TR}.

(** * Postings for matchers *)

Fixpoint postings_of (ix : IX) (name : string) (vs : list string) : res (list Postings) :=
  match vs with
  | [] => Ok []
  | v :: vs =>
      let? it := ix_Postings ix name v in
      let? rit := postings_of ix name vs in
      Ok (it :: rit)
  end.

Definition postingsForUnsetLabelMatcher (ix : IX) (m : Matcher) : res Postings :=
  let? tpls := ix_LabelValues ix (m_Name m) in
  let? res := scan_tuples (fun v => negb (m_Matches m v)) tpls (st_Len tpls) 0 in
  let? rit := postings_of ix (m_Name m) res in
  let? allPostings := ix_Postings ix (fst AllPostingsKey) (snd AllPostingsKey) in
  Ok (Without allPostings (Merge rit)).

Definition postingsForMatcher (ix : IX) (m : Matcher) : res Postings :=
  if m_Matches m EmptyString then postingsForUnsetLabelMatcher ix m
  else match m with
  | EqualMatcher name value => ix_Postings ix name value
  | _ =>
      let? tpls := ix_LabelValues ix (m_Name m) in
      let? res := match m with
                  | PrefixMatcher name prefix => tuplesByPrefix name prefix tpls
                  | _ => scan_tuples (m_Matches m) tpls (st_Len tpls) 0
                  end in
      if (length res =? 0)%nat then Ok (of_err EmptyPostings)
      else let? rit := postings_of ix (m_Name m) res in Ok (Merge rit)
  end.

Fixpoint matcher_postings (ix : IX) (ms : list Matcher) : res (list Postings) :=
  match ms with
  | [] => Ok []
  | m :: ms =>
      let? it := postingsForMatcher ix m in
      let? its := matcher_postings ix ms in
      Ok (it :: its)
  end.

Definition PostingsForMatchers (ix : IX) (ms : list Matcher) : res Postings :=
  let? its := matcher_postings ix ms in
  Ok (ix_SortedPostings ix (Intersect its)).

(** * Series and their chunks *)

(** ** baseChunkSeries *)

Record baseChunkSeries := mkBase {
  bc_p : Postings; bc_index : IX; bc_tombstones : TR;
  bc_lset : Labels; bc_chks : list (Meta C); bc_intervals : Intervals; bc_err : option error }.

(** A nil tombstone reader stands for empty in-memory tombstones. *)
Definition LookupChunkSeries (ir : IX) (tr : TR) (ms : list Matcher) : res baseChunkSeries :=
  let? p := PostingsForMatchers ir ms in
  Ok (mkBase p ir tr [] [] [] None).

(** Only those chunks that are not entirely deleted. *)
Definition not_deleted_chunks (ivs : Intervals) (chks : list (Meta C)) : list (Meta C) :=
  if (0 <? length ivs)%nat
  then filter (fun chk => isSubrange (mkInterval (m_MinTime chk) (m_MaxTime chk)) ivs = false) chks
  else chks.

Definition bc_fail (s : baseChunkSeries) (p : Postings) (e : option error) : baseChunkSeries :=
  mkBase p (bc_index s) (bc_tombstones s) (bc_lset s) (bc_chks s) (bc_intervals s) e.

(** The number of postings left is enough fuel. *)
Fixpoint base_loop (fuel : nat) (s : baseChunkSeries) : res (bool * baseChunkSeries) :=
  match fuel with
  | O => Panic
  | S fuel =>
      let '(ok, p) := p_Next (bc_p s) in
      if negb ok then
        Ok (false, bc_fail s p (match p_Err p with Some e => Some e | None => bc_err s end))
      else
        match ix_Series (bc_index s) (p_At p) with
        | Panic => Panic
        | Err e => if decide (e = ErrNotFound) then base_loop fuel (bc_fail s p (bc_err s))
                   else Ok (false, bc_fail s p (Some e))
        | Ok (lset, chks) =>
            match tr_Get (bc_tombstones s) (p_At p) with
            | Panic => Panic
            | Err e => Ok (false, mkBase p (bc_index s) (bc_tombstones s) lset chks [] (Some e))
            | Ok ivs =>
                Ok (true, mkBase p (bc_index s) (bc_tombstones s) lset (not_deleted_chunks ivs chks) ivs (bc_err s))
            end
        end
  end.

Definition base_Next (s : baseChunkSeries) : res (bool * baseChunkSeries) :=
  base_loop (S (p_size (bc_p s))) s.

(** ** populatedChunkSeries *)

Record populatedChunkSeries := mkPop {
  pc_set : baseChunkSeries; pc_chunks : CR; pc_mint : Z; pc_maxt : Z;
  pc_err : option error; pc_chks : list (Meta C); pc_lset : Labels; pc_intervals : Intervals }.

(** [chks = chks[1:]] as long as the first chunk ends before [mint]. *)
Fixpoint skip_before (mint : Z) (chks : list (Meta C)) : list (Meta C) :=
  match chks with
  | [] => []
  | c :: rest => if mint <=? m_MaxTime c then chks else skip_before mint rest
  end.

(** The loop over the chunks: up to the first chunk that begins after [maxt],
    their data is loaded.  The first error ends it. *)
Fixpoint load_chunks (cr : CR) (maxt : Z) (chks : list (Meta C)) : res (list (Meta C)) :=
  match chks with
  | [] => Ok []
  | c :: rest =>
      if maxt <? m_MinTime c then Ok []
      else
        let? data := cr_Chunk cr (m_Ref c) in
        let? rest := load_chunks cr maxt rest in
        Ok (mkMeta (m_Ref c) (Some data) (m_MinTime c) (m_MaxTime c) :: rest)
  end.

Definition pc_with (s : populatedChunkSeries) (set : baseChunkSeries) (e : option error) : populatedChunkSeries :=
  mkPop set (pc_chunks s) (pc_mint s) (pc_maxt s) e (pc_chks s) (pc_lset s) (pc_intervals s).

(** When a chunk cannot be loaded [Next] returns false; [ErrNotFound] is not kept
    as the set's error. *)
Fixpoint pop_loop (fuel : nat) (s : populatedChunkSeries) : res (bool * populatedChunkSeries) :=
  match fuel with
  | O => Panic
  | S fuel =>
      let? (ok, set) := base_Next (pc_set s) in
      if negb ok then
        Ok (false, pc_with s set (match bc_err set with Some e => Some e | None => pc_err s end))
      else
        match load_chunks (pc_chunks s) (pc_maxt s) (skip_before (pc_mint s) (bc_chks set)) with
        | Panic => Panic
        | Err e => Ok (false, pc_with s set (if decide (e = ErrNotFound) then None else Some e))
        | Ok chks =>
            (* [s.err] holds the result of the last load. *)
            let err := if (0 <? length chks)%nat then None else pc_err s in
            if (length chks =? 0)%nat then pop_loop fuel (pc_with s set err)
            else Ok (true, mkPop set (pc_chunks s) (pc_mint s) (pc_maxt s) err chks (bc_lset set) (bc_intervals set))
        end
  end.

Definition pop_Next (s : populatedChunkSeries) : res (bool * populatedChunkSeries) :=
  pop_loop (S (S (p_size (bc_p (pc_set s))))) s.

(** ** blockSeriesSet and blockQuerier *)

Record chunkSeries := mkChunkSeries {
  cs_labels : Labels; cs_chunks : list (Meta C); cs_mint : Z; cs_maxt : Z; cs_intervals : Intervals }.

Record blockSeriesSet := mkBlockSet {
  bs_set : populatedChunkSeries; bs_err : option error; bs_cur : option chunkSeries; bs_mint : Z; bs_maxt : Z }.

Definition block_Next (s : blockSeriesSet) : res (bool * blockSeriesSet) :=
  let? (ok, set) := pop_Next (bs_set s) in
  if ok then
    Ok (true, mkBlockSet set (bs_err s)
          (Some (mkChunkSeries (pc_lset set) (pc_chks set) (bs_mint s) (bs_maxt s) (pc_intervals set)))
          (bs_mint s) (bs_maxt s))
  else
    Ok (false, mkBlockSet set (match pc_err set with Some e => Some e | None => bs_err s end)
          (bs_cur s) (bs_mint s) (bs_maxt s)).

Record blockQuerier := mkBlockQuerier {
  bq_index : IX; bq_chunks : CR; bq_tombstones : TR; bq_mint : Z; bq_maxt : Z }.

(** [NewBlockQuerier]: the three readers of a [BlockReader], and their errors. *)
Definition NewBlockQuerier (index : res IX) (chunks : res CR) (tombstones : res TR) (mint maxt : Z) :
    res blockQuerier :=
  let? indexr := index in
  let? chunkr := chunks in
  let? tombsr := tombstones in
  Ok (mkBlockQuerier indexr chunkr tombsr mint maxt).

Definition block_Select (q : blockQuerier) (ms : list Matcher) : res blockSeriesSet :=
  let? base := LookupChunkSeries (bq_index q) (bq_tombstones q) ms in
  Ok (mkBlockSet (mkPop base (bq_chunks q) (bq_mint q) (bq_maxt q) None [] [] []) None None (bq_mint q) (bq_maxt q)).

Definition block_LabelValues (q : blockQuerier) (name : string) : res (list string) :=
  let? tpls := ix_LabelValues (bq_index q) name in
  scan_tuples (fun _ => true) tpls (st_Len tpls) 0.
End Querier.

(** * Proofs: strings with a prefix *)

Lemma byte_of_ascii_inj a b : byte_of_ascii a = byte_of_ascii b -> a = b.
Proof.
  unfold byte_of_ascii. intros E%N2Z.inj. by rewrite <- (Ascii.ascii_N_embedding a), E, Ascii.ascii_N_embedding.
Qed.

Lemma prefix_bytes p v : String.prefix p v = true <-> string_bytes p `prefix_of` string_bytes v.
Proof.
  revert v. induction p as [|c p IH]; intros v; [split; [intros _; apply prefix_nil|by destruct v]|].
  destruct v as [|d v].
  - split; [done|]. by intros ?%prefix_nil_inv.
  - cbn [String.prefix]. change (string_bytes (String c p)) with (byte_of_ascii c :: string_bytes p).
    change (string_bytes (String d v)) with (byte_of_ascii d :: string_bytes v).
    destruct (Ascii.ascii_dec c d) as [->|Hne].
    + rewrite IH. split; [apply prefix_cons|apply prefix_cons_inv_2].
    + split; [done|]. intros Hp%prefix_cons_inv_1. by apply byte_of_ascii_inj in Hp.
Qed.

(** A list is not before its prefixes. *)
Lemma lex_prefix (p v : list Z) : p `prefix_of` v -> lex_cmp Z.compare v p <> Lt.
Proof. intros [k ->]. induction p as [|a p IH]; cbn; [by destruct k|]. by rewrite Z.compare_refl. Qed.

(** A list from [p] on without the prefix [p] is beyond all lists with it. *)
Lemma lex_beyond (p v w : list Z) :
  lex_cmp Z.compare v p <> Lt -> ~ p `prefix_of` v -> p `prefix_of` w -> lex_cmp Z.compare w v = Lt.
Proof.
  revert v w. induction p as [|a p IH]; intros v w Hv Hn [k ->]; [by destruct Hn; apply prefix_nil|].
  destruct v as [|b v]; [done|]. cbn in *. destruct (Z.compare_spec b a); cbn in *; try done.
  - subst. rewrite Z.compare_refl. cbn. apply IH; [done| |by exists k]. intros ?. by apply Hn, prefix_cons.
  - by rewrite (proj2 (Z.compare_lt_iff a b)).
Qed.

Lemma byte_first (a : Z) (k : list Z) b : lex_cmp Z.compare (a :: k) [b] = Lt <-> lex_cmp Z.compare [a] [b] = Lt.
Proof. cbn. destruct (a ?= b); cbn; [|done..]. by destruct k. Qed.

Lemma substring_full s : String.substring 0 (String.length s) s = s.
Proof. induction s as [|c s IH]; [done|]. cbn. by rewrite IH. Qed.

Definition from_prefix (prefix v : string) : bool := negb (cmp_ltb str_cmp v prefix).

(** The comparison of the binary search, for values that are not empty. *)
Lemma prefix_test_ok prefix v :
  prefix <> EmptyString -> v <> EmptyString -> prefix_test prefix [v] = Ok (from_prefix prefix v).
Proof.
  intros Hp Hv. unfold prefix_test, from_prefix, str_take. cbn [index res_bind length].
  change (index [v] 0) with (Ok v). cbn [res_bind]. destruct (Nat.ltb_spec 1 (String.length prefix)).
  - by rewrite Nat.leb_refl, substring_full.
  - destruct prefix as [|b [|]]; [done| |cbn in *; lia]. destruct v as [|a v]; [done|].
    cbn [String.length Nat.leb res_bind String.substring].
    replace (String.substring 0 0 v) with EmptyString by (by destruct v). unfold cmp_ltb, str_cmp.
    pose proof (byte_first (byte_of_ascii a) (string_bytes v) (byte_of_ascii b)) as Hb.
    change (string_bytes (String a v)) with (byte_of_ascii a :: string_bytes v).
    change (string_bytes (String a "")) with [byte_of_ascii a].
    change (string_bytes (String b "")) with [byte_of_ascii b].
    destruct (lex_cmp Z.compare (byte_of_ascii a :: _) _), (lex_cmp Z.compare [byte_of_ascii a] _); naive_solver.
Qed.

(** The tuples hold the values [vs]. *)
Definition tuples_of (ts : StringTuples) (vs : list string) : Prop :=
  st_Len ts = length vs /\ forall i v, vs !! i = Some v -> st_At ts i = Ok [v].

Lemma scan_tuples_filter p ts vs n i :
  tuples_of ts vs -> (n + i = length vs)%nat -> scan_tuples p ts n i = Ok (filter (fun v => p v = true) (drop i vs)).
Proof.
  intros [_ Hat]. revert i. induction n as [|n IH]; intros i Hn; cbn [scan_tuples]; [by rewrite drop_ge by lia|].
  destruct (lookup_lt_is_Some_2 vs i) as [v Hv]; [lia|]. rewrite (Hat _ _ Hv), (drop_S _ _ _ Hv). cbn [res_bind].
  change (index [v] 0) with (Ok v). cbn [res_bind]. rewrite IH by lia. cbn [res_bind]. rewrite Nat.add_1_r, filter_cons.
  by destruct (p v).
Qed.

(** The leading elements that satisfy [p]. *)
Fixpoint leading (p : string -> bool) (l : list string) : list string :=
  match l with [] => [] | v :: l => if p v then v :: leading p l else [] end.

Lemma collect_leading m ts vs n i :
  tuples_of ts vs -> (n + i = length vs)%nat -> collect m ts n i = Ok (leading (m_Matches m) (drop i vs)).
Proof.
  intros [_ Hat]. revert i. induction n as [|n IH]; intros i Hn; cbn [collect]; [by rewrite drop_ge by lia|].
  destruct (lookup_lt_is_Some_2 vs i) as [v Hv]; [lia|]. rewrite (Hat _ _ Hv), (drop_S _ _ _ Hv). cbn [res_bind].
  change (index [v] 0) with (Ok v). cbn [res_bind leading]. destruct (m_Matches m v); [|done]. cbn [negb].
  rewrite IH by lia. by rewrite Nat.add_1_r.
Qed.

Lemma search_err_ok fuel f g i j e :
  (forall h, (h < j)%nat -> f h = Ok (g h)) -> search_err fuel f i j e = Ok (search_loop fuel g i j, e).
Proof.
  revert i j. induction fuel as [|fuel IH]; intros i j Hf; cbn [search_err search_loop]; [done|].
  destruct (Nat.ltb_spec i j); [|done].
  pose proof (Nat.Div0.div_lt_upper_bound (i + j) 2 j ltac:(lia)).
  rewrite Hf by lia. destruct (g _); cbn [negb]; apply IH; intros; apply Hf; lia.
Qed.

(** Among sorted values those with the prefix lead the part from the prefix on. *)
Lemma leading_prefix p vs :
  increasing id str_cmp vs -> Forall (fun v => from_prefix p v = true) vs ->
  leading (String.prefix p) vs = filter (fun v => String.prefix p v = true) vs.
Proof.
  induction 1 as [|v vs _ IH Hlt]; intros Hf; [done|]. apply Forall_cons in Hf as [Hv Hf].
  cbn [leading]. rewrite filter_cons. destruct (String.prefix p v) eqn:E.
  - rewrite decide_True by done. by rewrite IH.
  - rewrite decide_False by done. symmetry. apply filter_none. rewrite Forall_forall in *.
    intros w Hw Hp%prefix_bytes. specialize (Hlt w Hw). unfold id, str_cmp in Hlt.
    rewrite (cmp_opp (lex_cmp Z.compare) (string_bytes w)), (lex_beyond (string_bytes p)) in Hlt; [done| |by rewrite <- prefix_bytes, E|done].
    unfold from_prefix, cmp_ltb, str_cmp in Hv. intros Ec. by rewrite Ec in Hv.
Qed.

Lemma filter_drop_none {A} (P : A -> Prop) `{forall x, Decision (P x)} (l : list A) n :
  Forall (fun x => ~ P x) (take n l) -> filter P (drop n l) = filter P l.
Proof. intros Hn. rewrite <- (take_drop n l) at 2. by rewrite filter_app, (filter_none _ (take n l)). Qed.

Lemma increasing_drop n vs : increasing id str_cmp vs -> increasing id str_cmp (drop n vs).
Proof. intros Hi. revert n. induction Hi as [|v vs Hi IH Hv]; intros [|n]; [constructor..| |apply IH]. by constructor. Qed.

Lemma tuplesByPrefix_ok name prefix ts vs :
  tuples_of ts vs -> increasing id str_cmp vs -> Forall (fun v => v <> EmptyString) vs -> prefix <> EmptyString ->
  tuplesByPrefix name prefix ts = Ok (filter (fun v => String.prefix prefix v = true) vs).
Proof.
  intros Hts Hi Hv Hp. pose proof Hts as [Hlen Hat]. unfold tuplesByPrefix. rewrite Hlen.
  set (g := fun i => match vs !! i with Some v => from_prefix prefix v | None => true end).
  rewrite (search_err_ok _ _ g).
  2: { intros h Hh. destruct (lookup_lt_is_Some_2 vs h Hh) as [v Hlv]. rewrite (Hat _ _ Hlv). cbn [res_bind].
       unfold g. rewrite Hlv. apply prefix_test_ok; [done|]. eapply Forall_lookup_1 in Hv; [|done]. done. }
  fold (Search (length vs) g). cbn [res_bind].
  destruct (Search_spec (length vs) g) as (Hs & Hbelow & Habove).
  { intros k k' Hk Hkk. unfold g in *. destruct (lookup_lt_is_Some_2 vs k') as [w Hw]; [lia|]. rewrite Hw.
    destruct (decide (k = k')) as [->|]; [by rewrite Hw in Hk|].
    destruct (lookup_lt_is_Some_2 vs k) as [v Hlv]; [lia|]. rewrite Hlv in Hk.
    pose proof (StronglySorted_lookup_lt _ _ k k' v w Hi Hlv Hw ltac:(lia)) as Hlt. unfold id in Hlt.
    unfold from_prefix in *. apply negb_true_iff in Hk. apply negb_true_iff, not_true_is_false.
    rewrite (cmp_ltb_lt str_cmp). intros Hwp.
    assert (Hvp : cmp_ltb str_cmp v prefix = true); [|congruence].
    apply (cmp_ltb_lt str_cmp). by eapply (cmp_lt_trans str_cmp). }
  rewrite (collect_leading _ _ vs) by (done || lia). cbn [m_Matches]. f_equal.
  change (m_Matches (PrefixMatcher name prefix)) with (String.prefix prefix).
  rewrite leading_prefix.
  - apply filter_drop_none, Forall_lookup. intros i v Hiv Hpre%prefix_bytes.
    pose proof (lookup_lt_Some _ _ _ Hiv) as Hlt. rewrite length_take in Hlt. rewrite lookup_take_lt in Hiv by lia.
    specialize (Hbelow i ltac:(lia)). unfold g in Hbelow. rewrite Hiv in Hbelow. unfold from_prefix, cmp_ltb, str_cmp in Hbelow.
    apply lex_prefix in Hpre. by destruct (lex_cmp Z.compare (string_bytes v) (string_bytes prefix)).
  - by apply increasing_drop.
  - apply Forall_lookup. intros i v Hiv. rewrite lookup_drop in Hiv. pose proof (lookup_lt_Some _ _ _ Hiv).
    specialize (Habove (Search (length vs) g + i)%nat ltac:(lia)). revert Hiv Habove. generalize (Search (length vs) g + i)%nat.
    intros k Hk. unfold g. by rewrite Hk.
Qed.

(** * The contract of an index *)

(** The iterator gives the ids [l], and each call of [Next] uses up its bound. *)
Inductive p_gives {S} `{PostingsOps S} : S -> list Z -> Prop :=
| pg_nil s s' : p_Next s = (false, s') -> p_Err s' = None -> p_gives s []
| pg_cons s s' l :
    p_Next s = (true, s') -> p_Err s' = None -> p_gives s' l -> (length l < p_size s)%nat -> p_gives s (p_At s' :: l).

Lemma live_gives {M S} `{PostingsSpec M S} (s : S) c r : live M s c r -> p_gives s r.
Proof.
  revert s c. induction r as [|x r IH]; intros s c Hs; pose proof (Next_spec _ _ _ Hs) as Hn;
    pose proof (live_size _ _ _ Hs) as Hsz; destruct (p_Next s) as [[] s'] eqn:E; unfold outcome in Hn.
  - destruct Hn as (? & ? & ? & _). done.
  - eapply pg_nil; [done|]. destruct Hn as [_ He]. by apply exhausted_Err in He.
  - destruct Hn as (y & k & [= -> ->] & Hl). rewrite <- (live_At _ _ _ Hl). apply pg_cons; [done|by eapply live_Err|by eapply IH|].
    cbn in Hsz. lia.
  - by destruct Hn.
Qed.

Lemma denotes_gives M p r : PostingsSpec.denotes M p r -> p_gives p r.
Proof.
  intros (spec & Hl). apply live_gives in Hl. destruct p as [sh s]. cbn [ps_state ps_shape] in Hl.
  induction Hl as [s s' Hn He|s s' l Hn He Hl IH Hsz].
  - apply (pg_nil _ (mkPostings sh s')); [|done]. cbn. by rewrite Hn.
  - change (p_At s') with (p_At (mkPostings sh s')). apply pg_cons; [cbn; by rewrite Hn|done|exact (IH spec)|exact Hsz].
Qed.

Lemma p_gives_size {S} `{PostingsOps S} (s : S) l : p_gives s l -> (length l <= p_size s)%nat.
Proof. induction 1; cbn [length]; lia. Qed.

Lemma p_gives_cons_inv {S} `{PostingsOps S} (s : S) x l :
  p_gives s (x :: l) -> exists s', p_Next s = (true, s') /\ p_At s' = x /\ p_Err s' = None /\ p_gives s' l.
Proof. inversion 1 as [|? s' ? ? ?]; subst. by exists s'. Qed.

(** A list is iterated from its start, whatever its order. *)
Lemma of_list_gives l : p_gives (of_list l) l.
Proof.
  assert (Hc : forall c, p_gives (mkPostings SList (mkListPostings l c)) l); [|apply Hc].
  induction l as [|x l IH]; intros c; [by eapply pg_nil|].
  change x with (p_At (mkPostings SList (mkListPostings l x))) at 2. apply pg_cons; [done|done|apply IH|cbn; lia].
Qed.

(** A series of the index: its reference and labels. *)
Abbreviation iseries := (Z * Labels)%type.

(** The index holds exactly [series]: label values are sorted and those in use;
    the postings of a label pair are the series that have it; sorted postings
    are in the order of the label sets. *)
Class IndexHolds {IX C : Type} `{IndexReader IX C} (M : Z) (ix : IX) (series : list iseries) : Prop := {
  ih_values name : name <> EmptyString ->
    exists ts vs, ix_LabelValues ix name = Ok ts /\ tuples_of ts vs /\ increasing id str_cmp vs /\
      forall v, v ∈ vs <-> exists s, s ∈ series /\ (name, v) ∈ snd s;
  ih_postings name v : name <> EmptyString ->
    exists p r, ix_Postings ix name v = Ok p /\ resumes M p r /\
      forall i, i ∈ r <-> exists ls, (i, ls) ∈ series /\ (name, v) ∈ ls;
  ih_all : exists p r, ix_Postings ix (fst AllPostingsKey) (snd AllPostingsKey) = Ok p /\ resumes M p r /\
      forall i, i ∈ r <-> i ∈ fst <$> series;
  ih_sorted p r : PostingsSpec.denotes M p r -> r ⊆ (fst <$> series) ->
    exists r', p_gives (ix_SortedPostings ix p) r' /\ r' ≡ₚ r /\
      forall i j a b la lb, r' !! i = Some a -> r' !! j = Some b -> (i < j)%nat ->
        (a, la) ∈ series -> (b, lb) ∈ series -> labels_cmp la lb = Lt;
  ih_labels s : s ∈ series -> NoDup (snd s).*1 /\ Forall (fun l => snd l <> EmptyString) (snd s);
  ih_ids : NoDup (fst <$> series);
}.

Lemma labels_Get_cases ls n :
  NoDup ls.*1 -> (n, labels_Get ls n) ∈ ls \/ (forall v, (n, v) ∉ ls) /\ labels_Get ls n = EmptyString.
Proof.
  intros Hnd. destruct (decide (n ∈ ls.*1)) as [([n' v] & -> & Hin)%list_elem_of_fmap|Hn].
  - left. cbn. by rewrite (labels_Get_elem _ _ _ Hnd Hin).
  - right. split; [|by apply labels_Get_not_elem]. intros v Hin. apply Hn. by apply (list_elem_of_fmap_2 fst) in Hin.
Qed.

Section Matching.
Context {IX C : Type} `{IndexReader IX C} (M : Z) `{!PosBound M} (ix : IX) (series : list iseries).
Context `{!IndexHolds M ix series}.

(** The ids of the series whose labels satisfy [P]. *)
Definition ids_of (P : Labels -> Prop) (i : Z) : Prop := exists ls, (i, ls) ∈ series /\ P ls.

Lemma series_unique i ls ls' : (i, ls) ∈ series -> (i, ls') ∈ series -> ls = ls'.
Proof using All.
  intros H1 H2. pose proof (ih_ids (ix := ix) (series := series)) as Hnd.
  apply list_elem_of_lookup in H1 as [k1 H1], H2 as [k2 H2].
  assert (k1 = k2) as ->; [|congruence]. eapply NoDup_lookup; [exact Hnd| |]; rewrite list_lookup_fmap; [by rewrite H1|by rewrite H2].
Qed.

Lemma has_pair i ls n v : (i, ls) ∈ series -> (n, v) ∈ ls <-> labels_Get ls n = v /\ v <> EmptyString.
Proof using All.
  intros Hs. destruct (ih_labels (ix := ix) _ Hs) as [Hnd Hne]. cbn in *. split.
  - intros Hin. split; [by apply labels_Get_elem|]. rewrite Forall_forall in Hne. by apply (Hne _ Hin).
  - intros [<- Hv]. by destruct (labels_Get_cases ls n Hnd) as [|[_ ?]].
Qed.

Lemma postings_of_ok name vs :
  name <> EmptyString ->
  exists rit rs, postings_of ix name vs = Ok rit /\ Forall2 (resumes M) rit rs /\ length rit = length vs /\
    forall i, Exists (fun k => i ∈ k) rs <-> ids_of (fun ls => exists v, v ∈ vs /\ (name, v) ∈ ls) i.
Proof using All.
  intros Hname. induction vs as [|v vs (rit & rs & Hp & Hrs & Hl & Hm)]; cbn [postings_of].
  - exists [], []. split_and!; [done|constructor|done|]. intros i. rewrite Exists_nil. unfold ids_of. set_solver.
  - destruct (ih_postings (ix := ix) (series := series) name v Hname) as (p & r & -> & Hr & Hi). cbn [res_bind]. rewrite Hp.
    exists (p :: rit), (r :: rs). split_and!; [done|by constructor|cbn; by rewrite Hl|].
    intros i. rewrite Exists_cons, Hi, Hm. unfold ids_of. setoid_rewrite elem_of_cons. naive_solver.
Qed.

Definition matcher_ids (m : Matcher) (i : Z) : Prop :=
  ids_of (fun ls => m_Matches m (labels_Get ls (m_Name m)) = true) i.

(** The values of a label that satisfy [p]. *)
Lemma values_where name (p : string -> bool) :
  name <> EmptyString -> exists ts vs, ix_LabelValues ix name = Ok ts /\ tuples_of ts vs /\
    increasing id str_cmp vs /\ Forall (fun v => v <> EmptyString) vs /\
    scan_tuples p ts (st_Len ts) 0 = Ok (filter (fun v => p v = true) vs) /\
    forall i ls, (i, ls) ∈ series ->
      (exists v, v ∈ filter (fun v => p v = true) vs /\ (name, v) ∈ ls) <->
      p (labels_Get ls name) = true /\ labels_Get ls name <> EmptyString.
Proof using All.
  intros Hname. destruct (ih_values (ix := ix) (series := series) name Hname) as (ts & vs & Hts & Htup & Hinc & Hvs).
  exists ts, vs. split_and!; [done..| | |].
  - apply Forall_forall. intros v ([i ls] & Hs & Hin)%Hvs. by apply (has_pair i) in Hin as [].
  - rewrite (scan_tuples_filter _ _ vs); [done|done|]. rewrite (proj1 Htup). lia.
  - intros i ls Hs. setoid_rewrite list_elem_of_filter. setoid_rewrite (has_pair i); [|done]. split.
    + intros (v & [? _] & <- & ?). done.
    + intros [? ?]. exists (labels_Get ls name). split_and!; try done. apply Hvs. exists (i, ls).
      split; [done|]. by apply (has_pair i).
Qed.

(** The union of the postings of some values. *)
Lemma merge_values name vs :
  name <> EmptyString ->
  exists rit r, postings_of ix name vs = Ok rit /\ length rit = length vs /\ resumes M (Merge rit) r /\
    forall i, i ∈ r <-> ids_of (fun ls => exists v, v ∈ vs /\ (name, v) ∈ ls) i.
Proof using All.
  intros Hname. destruct (postings_of_ok name vs Hname) as (rit & rs & ? & Hrs & ? & Hm).
  destruct (Merge_resumes M rit rs ltac:(done) Hrs) as (r & Hr & Hu). exists rit, r.
  split_and!; [done..|]. intros i. by rewrite Hu, Hm.
Qed.

Lemma unset_matcher m :
  m_Name m <> EmptyString -> m_Matches m EmptyString = true ->
  exists p r, postingsForUnsetLabelMatcher ix m = Ok p /\ PostingsSpec.denotes M p r /\
    forall i, i ∈ r <-> matcher_ids m i.
Proof using All.
  intros Hname Hempty. unfold postingsForUnsetLabelMatcher.
  destruct (values_where (m_Name m) (fun v => negb (m_Matches m v)) Hname) as (ts & vs & -> & _ & _ & _ & Hscan & Hv).
  cbn [res_bind]. rewrite Hscan. cbn [res_bind]. destruct (merge_values (m_Name m) (filter (fun v => negb (m_Matches m v) = true) vs) Hname)
    as (rit & r1 & -> & _ & Hr1 & Hm1). cbn [res_bind].
  destruct (ih_all (ix := ix) (series := series)) as (pa & ra & -> & Hra & Hall). cbn [res_bind].
  eexists _, _. split_and!; [done|by apply denotes_without|]. intros i.
  rewrite list_elem_of_filter, Hm1, Hall. unfold matcher_ids, ids_of. split.
  - intros [Hno ([i' ls] & -> & Hs)%list_elem_of_fmap]. cbn in *. exists ls. split; [done|].
    destruct (m_Matches m (labels_Get ls (m_Name m))) eqn:E; [done|]. destruct Hno. exists ls. split; [done|].
    apply (Hv _ _ Hs). split; [by rewrite E|]. intros Hg. rewrite Hg in E. congruence.
  - intros (ls & Hs & E). split; [|by apply (list_elem_of_fmap_2 fst) in Hs].
    intros (ls' & Hs' & Hin). rewrite (series_unique _ _ _ Hs' Hs) in Hin. apply (Hv _ _ Hs) in Hin as [Hn _].
    by rewrite E in Hn.
Qed.

Lemma set_matcher m res :
  m_Name m <> EmptyString -> m_Matches m EmptyString = false ->
  (forall i ls, (i, ls) ∈ series ->
    (exists v, v ∈ res /\ (m_Name m, v) ∈ ls) <->
    m_Matches m (labels_Get ls (m_Name m)) = true /\ labels_Get ls (m_Name m) <> EmptyString) ->
  exists p r,
    (if (length res =? 0)%nat then Ok (of_err EmptyPostings)
     else let? rit := postings_of ix (m_Name m) res in Ok (Merge rit)) = Ok p /\
    PostingsSpec.denotes M p r /\ forall i, i ∈ r <-> matcher_ids m i.
Proof using All.
  intros Hname Hempty Hv. destruct (merge_values (m_Name m) res Hname) as (rit & r & Hp & Hl & Hr & Hm).
  exists (Merge rit), r. split_and!; [|by apply resumes_denotes|].
  - destruct (Nat.eqb_spec (length res) 0) as [E|E]; [|by rewrite Hp].
    rewrite <- Hl in E. by apply nil_length_inv in E as ->.
  - intros i. rewrite Hm. unfold matcher_ids, ids_of. split.
    + intros (ls & Hs & Hin). exists ls. split; [done|]. by apply (Hv _ _ Hs) in Hin as [? _].
    + intros (ls & Hs & E). exists ls. split; [done|]. apply (Hv _ _ Hs). split; [done|].
      intros Hg. rewrite Hg in E. congruence.
Qed.

Lemma postingsForMatcher_ok m :
  m_Name m <> EmptyString ->
  exists p r, postingsForMatcher ix m = Ok p /\ PostingsSpec.denotes M p r /\ forall i, i ∈ r <-> matcher_ids m i.
Proof using All.
  intros Hname. unfold postingsForMatcher. destruct (m_Matches m EmptyString) eqn:Hempty; [by apply unset_matcher|].
  destruct (values_where (m_Name m) (m_Matches m) Hname) as (ts & vs & Hts & Htup & Hinc & Hne & Hscan & Hv).
  assert (Hgen : exists p r,
    (let? tpls := ix_LabelValues ix (m_Name m) in
     let? res := scan_tuples (m_Matches m) tpls (st_Len tpls) 0 in
     if (length res =? 0)%nat then Ok (of_err EmptyPostings)
     else let? rit := postings_of ix (m_Name m) res in Ok (Merge rit)) = Ok p /\
    PostingsSpec.denotes M p r /\ forall i, i ∈ r <-> matcher_ids m i).
  { rewrite Hts. cbn [res_bind]. rewrite Hscan. cbn [res_bind]. by apply set_matcher. }
  destruct m as [name value|name re|m|name prefix]; [|exact Hgen|exact Hgen|].
  - clear Hgen. cbn in Hname, Hempty. apply bool_decide_eq_false in Hempty.
    destruct (ih_postings (ix := ix) (series := series) name value Hname) as (p & r & -> & Hr & Hm).
    exists p, r. split_and!; [done|by apply resumes_denotes|]. intros i. rewrite Hm. unfold matcher_ids, ids_of. cbn.
    setoid_rewrite bool_decide_eq_true. split; intros (ls & Hs & Hin); exists ls; (split; [done|]).
    + by apply (has_pair i) in Hin as [? _].
    + apply (has_pair i); [done|]. split; [done|]. by intros ->.
  - cbn [m_Name] in *. rewrite Hts. cbn [res_bind].
    rewrite (tuplesByPrefix_ok name prefix ts vs Htup Hinc Hne) by (intros ->; cbn in Hempty; done).
    cbn [res_bind]. by apply (set_matcher (PrefixMatcher name prefix)).
Qed.

Lemma matcher_postings_ok ms :
  Forall (fun m => m_Name m <> EmptyString) ms ->
  exists its rs, matcher_postings ix ms = Ok its /\ Forall2 (PostingsSpec.denotes M) its rs /\ length its = length ms /\
    forall i, Forall (fun k => i ∈ k) rs <-> Forall (fun m => matcher_ids m i) ms.
Proof using All.
  induction 1 as [|m ms Hm _ (its & rs & Hp & Hrs & Hl & Hi)]; cbn [matcher_postings].
  - exists [], []. split_and!; [done|constructor|done|]. intros i. by rewrite !Forall_nil.
  - destruct (postingsForMatcher_ok m Hm) as (p & r & -> & Hd & Hr). cbn [res_bind]. rewrite Hp.
    exists (p :: its), (r :: rs). split_and!; [done|by constructor|cbn; by rewrite Hl|].
    intros i. by rewrite !Forall_cons, Hr, Hi.
Qed.

Lemma sel_Matches_all ms ls :
  sel_Matches ms ls = true <-> Forall (fun m => m_Matches m (labels_Get ls (m_Name m)) = true) ms.
Proof using Type.
  clear. induction ms as [|m ms IH]; cbn; [by rewrite Forall_nil|]. rewrite Forall_cons, <- IH.
  destruct (m_Matches m _); cbn; naive_solver.
Qed.

(** What the postings of a query are: the series that satisfy all matchers, by
    increasing labels. *)
Definition query_ids (ms : list Matcher) (l : list Z) : Prop :=
  (forall i, i ∈ l <-> ids_of (fun ls => sel_Matches ms ls = true) i) /\ NoDup l /\
  forall i j a b la lb, l !! i = Some a -> l !! j = Some b -> (i < j)%nat ->
    (a, la) ∈ series -> (b, lb) ∈ series -> labels_cmp la lb = Lt.

Lemma PostingsForMatchers_ok ms :
  Forall (fun m => m_Name m <> EmptyString) ms -> ms <> [] ->
  exists p l, PostingsForMatchers ix ms = Ok p /\ p_gives p l /\ query_ids ms l.
Proof using All.
  intros Hms Hne. destruct (matcher_postings_ok ms Hms) as (its & rs & Hp & Hrs & Hl & Hi).
  unfold PostingsForMatchers. rewrite Hp. cbn [res_bind].
  destruct (Intersect_denotes M its rs Hrs) as (r & Hr & Hm); [by destruct its, ms|].
  assert (Hin : forall i, i ∈ r <-> ids_of (fun ls => sel_Matches ms ls = true) i).
  { intros i. rewrite Hm, Hi. unfold matcher_ids, ids_of. setoid_rewrite sel_Matches_all. split.
    - destruct ms as [|m ms]; [done|]. intros Hall. pose proof (Forall_inv Hall) as (ls & Hs & _).
      exists ls. split; [done|]. eapply Forall_impl; [exact Hall|]. cbn. intros m' (ls' & Hs' & ?).
      by rewrite (series_unique _ _ _ Hs Hs').
    - intros (ls & Hs & Hall). eapply Forall_impl; [exact Hall|]. intros m ?. by exists ls. }
  destruct (ih_sorted (ix := ix) (series := series) _ _ Hr) as (l & Hl1 & Hperm & Hsort).
  { intros i (ls & Hs & _)%Hin. by apply (list_elem_of_fmap_2 fst) in Hs. }
  exists (ix_SortedPostings ix (Intersect its)), l. split_and!; [done|done|]. split_and!; [|  |done].
  - intros i. by rewrite Hperm, Hin.
  - rewrite Hperm. by eapply incr_NoDup, denotes_incr.
Qed.
End Matching.

(** * The contract of a block and its query *)

#[export] Instance chunkSeries_series {C I} `{ChunkIterator I, ChunkIface C I} :
    BaseSeries (chunkSeries (C := C)) (chunkSeriesIterator (C := C) (I := I)) := {|
  b_Labels := cs_labels;
  b_Iterator s := newChunkSeriesIterator (cs_chunks s) (cs_intervals s) (cs_mint s) (cs_maxt s);
|}.

#[export] Instance blockSeriesSet_set {IX C CR TR} `{IndexReader IX C} `{ChunkReader CR C} `{TombstoneReader TR} :
    BaseSet (blockSeriesSet (IX := IX) (C := C) (CR := CR) (TR := TR)) (chunkSeries (C := C)) := {|
  x_Next := block_Next;
  x_At s := SBase <$> bs_cur s;
  x_Err := bs_err;
|}.

(** A series of a block: reference, labels, its chunks with the samples each
    holds, and the intervals deleted. *)
Record bseries (C : Type) := mkBseries {
  b_ref : Z; b_lset : Labels; b_chunks : list (Meta C * list Buffer.sample); b_ivs : Intervals }.
Arguments mkBseries {C}.
Arguments b_ref {C}.
Arguments b_lset {C}.
Arguments b_chunks {C}.
Arguments b_ivs {C}.

Section Block.
Context {IX C CR TR I : Type} `{IndexReader IX C} `{ChunkReader CR C} `{TombstoneReader TR}.
Context `{ChunkIterator I} `{ChunkIface C I}.
Context (mint maxt : Z).

(** The chunk is loaded for the query. *)
Definition in_query (ivs : Intervals) (cl : Meta C * list Buffer.sample) : Prop :=
  mint <= m_MaxTime (fst cl) /\ m_MinTime (fst cl) <= maxt /\
  isSubrange (mkInterval (m_MinTime (fst cl)) (m_MaxTime (fst cl))) ivs = false.

#[export] Instance in_query_dec ivs cl : Decision (in_query ivs cl).
Proof using Type. unfold in_query. apply _. Defined.

Definition q_chunks (b : bseries C) : list (Meta C * list Buffer.sample) := filter (in_query (b_ivs b)) (b_chunks b).

(** The chunk can be read and its samples are within its time range; a chunk
    loaded that reaches [mint] keeps a sample from there on. *)
Definition chunk_ok (cr : CR) (ivs : Intervals) (cl : Meta C * list Buffer.sample) : Prop :=
  (exists data it, cr_Chunk cr (m_Ref (fst cl)) = Ok data /\ ck_Iterator data = Ok it /\ gives it (snd cl)) /\
  Forall (fun s => m_MinTime (fst cl) <= fst s <= m_MaxTime (fst cl)) (snd cl) /\
  m_MinTime (fst cl) <= m_MaxTime (fst cl) /\
  (in_query ivs cl -> Exists (fun s => mint <= fst s /\ deleted ivs (fst s) = false) (snd cl)).

Record series_ok (ix : IX) (cr : CR) (tr : TR) (b : bseries C) : Prop := {
  so_series : ix_Series ix (b_ref b) = Ok (b_lset b, fst <$> b_chunks b);
  so_get : tr_Get tr (b_ref b) = Ok (b_ivs b);
  so_ivs : ordered (b_ivs b);
  so_chunks : Forall (chunk_ok cr (b_ivs b)) (b_chunks b);
  so_order : StronglySorted (fun c d => m_MaxTime (fst c) < m_MinTime (fst d)) (b_chunks b);
  so_samples : increasing_times (mjoin (snd <$> b_chunks b));
}.

(** The samples of a series the query sees. *)
Definition b_visible (b : bseries C) : list Buffer.sample :=
  visible mint maxt (b_ivs b) (mjoin (snd <$> b_chunks b)).

(** ** The chunks of a series *)

Lemma isSubrange_deleted tr ivs t : isSubrange tr ivs = true -> Mint tr <= t <= Maxt tr -> deleted ivs t = true.
Proof using Type.
  intros Hs Ht. induction ivs as [|r ivs IH]; [done|]. cbn [isSubrange] in Hs. rewrite deleted_cons.
  destruct (inBounds r (Mint tr) && inBounds r (Maxt tr)) eqn:E; [|by rewrite IH, orb_true_r].
  apply andb_true_iff in E as [E1 E2].
  destruct (inBounds_reflect r (Mint tr)), (inBounds_reflect r (Maxt tr)), (inBounds_reflect r t); (done || lia).
Qed.

Lemma visible_app ivs l k : visible mint maxt ivs (l ++ k) = visible mint maxt ivs l ++ visible mint maxt ivs k.
Proof using Type. unfold visible, kept. by rewrite !filter_app. Qed.

(** A chunk that is not loaded holds nothing visible. *)
Lemma not_queried cr ivs cl : chunk_ok cr ivs cl -> ~ in_query ivs cl -> visible mint maxt ivs (snd cl) = [].
Proof using Type.
  intros (_ & Hl & _ & _) Hq. unfold visible, kept. apply filter_none, Forall_forall.
  intros s [Hd Hs]%list_elem_of_filter Hr. rewrite Forall_forall in Hl. specialize (Hl s Hs).
  unfold in_range in Hr. apply Hq. split_and!; [lia|lia|]. apply not_true_is_false. intros Hsub.
  eapply isSubrange_deleted in Hsub; [|exact Hl]. congruence.
Qed.

Lemma visible_queried cr ivs cls :
  Forall (chunk_ok cr ivs) cls ->
  visible mint maxt ivs (mjoin (snd <$> filter (in_query ivs) cls)) = visible mint maxt ivs (mjoin (snd <$> cls)).
Proof using Type.
  induction 1 as [|cl cls Hcl _ IH]; [done|]. rewrite filter_cons, fmap_cons, join_cons, visible_app, <- IH.
  case_decide; [by rewrite fmap_cons, join_cons, visible_app|]. by rewrite (not_queried _ _ _ Hcl).
Qed.

Lemma not_deleted_filter ivs (cls : list (Meta C * list Buffer.sample)) :
  not_deleted_chunks ivs (fst <$> cls) =
  fst <$> filter (fun cl => isSubrange (mkInterval (m_MinTime (fst cl)) (m_MaxTime (fst cl))) ivs = false) cls.
Proof using Type.
  unfold not_deleted_chunks. destruct ivs as [|iv ivs]; cbn [length]; cbn [Nat.ltb Nat.leb].
  - rewrite filter_all; [done|]. by apply Forall_true.
  - induction cls as [|cl cls IH]; [done|]. rewrite fmap_cons, !filter_cons, IH. by case_decide.
Qed.

(** The loaded chunk. *)
Definition loaded (cl : Meta C * list Buffer.sample) (m : Meta C) : Prop :=
  m_MinTime m = m_MinTime (fst cl) /\ m_MaxTime m = m_MaxTime (fst cl) /\ holds m (snd cl).

Lemma skip_before_filter (cls : list (Meta C * list Buffer.sample)) :
  StronglySorted (fun c d => m_MaxTime (fst c) < m_MaxTime (fst d)) cls ->
  skip_before mint (fst <$> cls) = fst <$> filter (fun cl => mint <= m_MaxTime (fst cl)) cls.
Proof using Type.
  induction 1 as [|cl cls _ IH Hlt]; [done|]. rewrite fmap_cons. cbn [skip_before]. rewrite filter_cons.
  destruct (Z.leb_spec mint (m_MaxTime (fst cl))).
  - rewrite decide_True by done. rewrite filter_all; [done|]. eapply Forall_impl; [exact Hlt|]. cbn. lia.
  - by rewrite decide_False by lia.
Qed.

Lemma load_chunks_ok cr ivs cls :
  Forall (chunk_ok cr ivs) cls -> StronglySorted (fun c d => m_MinTime (fst c) < m_MinTime (fst d)) cls ->
  exists ms, load_chunks cr maxt (fst <$> cls) = Ok ms /\
    Forall2 loaded (filter (fun cl => m_MinTime (fst cl) <= maxt) cls) ms.
Proof using Type.
  induction 1 as [|cl cls (Hcl & _) _ IH]; intros Hs; [by exists []|].
  apply StronglySorted_inv in Hs as [Hs Hlt]. rewrite fmap_cons. cbn [load_chunks]. rewrite filter_cons.
  destruct (Z.ltb_spec maxt (m_MinTime (fst cl))).
  - rewrite decide_False by lia. exists []. split; [done|]. rewrite filter_none; [done|].
    eapply Forall_impl; [exact Hlt|]. cbn. lia.
  - rewrite decide_True by done. destruct Hcl as (data & it & -> & Hit & Hg). cbn [res_bind].
    destruct (IH Hs) as (ms & -> & Hms). cbn [res_bind]. eexists. split; [done|]. constructor; [|done].
    split_and!; [done..|]. by exists data, it.
Qed.

Lemma StronglySorted_impl_Forall {A} (R R' : A -> A -> Prop) (P : A -> Prop) l :
  Forall P l -> (forall x y, P x -> P y -> R x y -> R' x y) -> StronglySorted R l -> StronglySorted R' l.
Proof using Type.
  intros Hl HR. induction 1 as [|x l _ IH Hx]; [constructor|]. apply Forall_cons in Hl as [Px Pl].
  constructor; [by apply IH|]. apply Forall_forall. intros y Hy. rewrite Forall_forall in Hx, Pl. auto.
Qed.

(** The chunks the query works on are those in its range. *)
Lemma query_chunks ix cr tr b :
  series_ok ix cr tr b ->
  exists ms, load_chunks cr maxt (skip_before mint (not_deleted_chunks (b_ivs b) (fst <$> b_chunks b))) = Ok ms /\
    Forall2 loaded (q_chunks b) ms.
Proof using Type.
  intros [_ _ _ Hc Ho _].
  set (f := filter (fun cl => isSubrange (mkInterval (m_MinTime (fst cl)) (m_MaxTime (fst cl))) (b_ivs b) = false) (b_chunks b)).
  assert (Hf : Forall (chunk_ok cr (b_ivs b)) f) by by apply Forall_filter_weaken.
  assert (Hs : StronglySorted (fun c d => m_MaxTime (fst c) < m_MinTime (fst d)) f) by by apply StronglySorted_filter.
  rewrite not_deleted_filter. fold f. rewrite skip_before_filter.
  2: { eapply StronglySorted_impl_Forall; [exact Hf| |exact Hs]. intros x y _ (_ & _ & ? & _) ?. lia. }
  destruct (load_chunks_ok cr (b_ivs b) (filter (fun cl => mint <= m_MaxTime (fst cl)) f)) as (ms & Hms & Hld).
  - by apply Forall_filter_weaken.
  - apply StronglySorted_filter. eapply StronglySorted_impl_Forall; [exact Hf| |exact Hs].
    intros x y (_ & _ & ? & _) _ ?. lia.
  - exists ms. split; [done|]. unfold f in Hld. rewrite !list_filter_filter in Hld. unfold q_chunks.
    erewrite list_filter_iff; [exact Hld|]. intros cl. unfold in_query. tauto.
Qed.

(** ** One series after the other *)

Context (ix : IX) (cr : CR) (tr : TR).

(** The state of the series set: no error so far, and the series [bl] to come. *)
Definition pop_inv (s : populatedChunkSeries (IX := IX) (C := C) (CR := CR) (TR := TR)) (bl : list (bseries C)) : Prop :=
  p_gives (bc_p (pc_set s)) (b_ref <$> bl) /\ Forall (series_ok ix cr tr) bl /\
  bc_index (pc_set s) = ix /\ bc_tombstones (pc_set s) = tr /\ bc_err (pc_set s) = None /\
  pc_chunks s = cr /\ pc_mint s = mint /\ pc_maxt s = maxt /\ pc_err s = None.

Lemma base_Next_end (s : baseChunkSeries (IX := IX) (C := C) (TR := TR)) :
  p_gives (bc_p s) [] -> bc_err s = None -> exists s', base_Next s = Ok (false, s') /\ bc_err s' = None.
Proof using Type.
  intros Hp He. inversion Hp as [? p' Hn Hpe|]; subst. unfold base_Next. cbn [base_loop]. rewrite Hn. cbn [negb].
  eexists. split; [done|]. cbn [bc_fail bc_err]. by rewrite Hpe.
Qed.

Lemma base_Next_series (s : baseChunkSeries (IX := IX) (C := C) (TR := TR)) b l :
  p_gives (bc_p s) (b_ref b :: l) -> bc_index s = ix -> bc_tombstones s = tr -> series_ok ix cr tr b ->
  exists p', p_gives p' l /\ base_Next s =
    Ok (true, mkBase p' ix tr (b_lset b) (not_deleted_chunks (b_ivs b) (fst <$> b_chunks b)) (b_ivs b) (bc_err s)).
Proof using Type.
  intros Hp Hix Htr Hb. apply p_gives_cons_inv in Hp as (p' & Hn & Eref & _ & Hl). exists p'. split; [done|].
  rewrite <- Hix, <- Htr in *.
  unfold base_Next. cbn [base_loop]. rewrite Hn. cbn [negb]. rewrite Eref, (so_series _ _ _ _ Hb).
  by rewrite (so_get _ _ _ _ Hb).
Qed.

Definition has_chunks (b : bseries C) : Prop := q_chunks b <> [].

#[local] Instance has_chunks_dec b : Decision (has_chunks b).
Proof using Type. unfold has_chunks. destruct (q_chunks b); [right; naive_solver|by left]. Defined.

Lemma pop_loop_ok fuel s bl :
  pop_inv s bl -> (length bl < fuel)%nat ->
  match filter has_chunks bl with
  | [] => exists s', pop_loop fuel s = Ok (false, s') /\ pc_err s' = None
  | b :: _ => exists s' bl', pop_loop fuel s = Ok (true, s') /\ pop_inv s' bl' /\ series_ok ix cr tr b /\
      pc_lset s' = b_lset b /\ pc_intervals s' = b_ivs b /\ Forall2 loaded (q_chunks b) (pc_chks s') /\
      filter has_chunks bl = b :: filter has_chunks bl'
  end.
Proof using Type.
  revert s bl. induction fuel as [|fuel IH]; intros s bl Hinv Hf; [lia|].
  destruct Hinv as (Hp & Hok & Hix & Htr & Hbe & Hcr & Hmint & Hmaxt & He). cbn [pop_loop].
  destruct Hok as [|b bl Hb Hok].
  - destruct (base_Next_end _ Hp Hbe) as (set & Hn & Hse). rewrite Hn. cbn [res_bind negb].
    eexists. split; [done|]. cbn. by rewrite Hse.
  - destruct (base_Next_series _ _ _ Hp Hix Htr Hb) as (p' & Hp' & Hn). rewrite Hn. cbn [res_bind negb bc_chks].
    destruct (query_chunks _ _ _ _ Hb) as (ms & Hms & Hld). rewrite Hcr, Hmaxt, Hmint, Hms.
    rewrite filter_cons. pose proof (Forall2_length _ _ _ Hld) as Hlen.
    destruct (Nat.eqb_spec (length ms) 0) as [E|E].
    + rewrite decide_False by (unfold has_chunks; intros Hne; by destruct (q_chunks b), ms).
      apply IH; [|cbn in Hf; lia]. unfold pop_inv, pc_with. cbn. rewrite E. by split_and!.
    + rewrite decide_True by (unfold has_chunks; intros Hne; by rewrite Hne in Hlen).
      destruct (Nat.ltb_spec 0 (length ms)); [|lia].
      eexists _, bl. split_and!; [done| |done..]. unfold pop_inv. cbn. by split_and!.
Qed.

Lemma increasing_join_filter (P : Meta C * list Buffer.sample -> Prop) `{forall x, Decision (P x)} cls :
  increasing_times (mjoin (snd <$> cls)) -> increasing_times (mjoin (snd <$> filter P cls)).
Proof using Type.
  induction cls as [|cl cls IH]; [done|]. rewrite fmap_cons, join_cons, filter_cons.
  intros (Hl & Hk & Hlk)%increasing_app. case_decide; [|by apply IH]. rewrite fmap_cons, join_cons.
  apply increasing_app_intro; [done|by apply IH|]. eapply Forall_impl; [exact Hlk|]. intros a Ha. cbn beta in Ha.
  rewrite Forall_forall in *. intros b (l & Hb & (cl' & -> & [_ Hcl]%list_elem_of_filter)%list_elem_of_fmap)%list_elem_of_join.
  apply Ha, list_elem_of_join. exists (snd cl'). split; [done|]. by apply list_elem_of_fmap_2.
Qed.

Lemma query_fits b ms :
  series_ok ix cr tr b -> Forall2 loaded (q_chunks b) ms ->
  Forall2 (chunk_fits mint (b_ivs b)) ms (snd <$> q_chunks b).
Proof using Type.
  intros [_ _ _ Hc _ _] Hld.
  assert (Hq : Forall (fun cl => chunk_ok cr (b_ivs b) cl /\ in_query (b_ivs b) cl) (q_chunks b)).
  { apply Forall_forall. intros cl [Hin Hcl]%list_elem_of_filter. rewrite Forall_forall in Hc. split; [by apply Hc|done]. }
  rewrite Forall2_fmap_r. apply Forall2_flip.
  revert Hq. induction Hld as [|cl m cls ms (Emin & Emax & Hh) _ IH]; intros Hq; [constructor|].
  apply Forall_cons in Hq as [((_ & Hl & _ & He) & Hin) Hq]. constructor; [|by apply IH].
  split_and!; [done| |].
  - eapply Forall_impl; [exact Hl|]. cbn. lia.
  - intros _. by apply He.
Qed.

Lemma query_series b ms :
  series_ok ix cr tr b -> has_chunks b -> Forall2 loaded (q_chunks b) ms ->
  denotes (SBase (mkChunkSeries (b_lset b) ms mint maxt (b_ivs b))) (b_lset b, b_visible b).
Proof using Type.
  intros Hb Hne Hld. split; [done|]. cbn [snd]. unfold b_visible.
  pose proof Hb as [_ _ Hivs Hc _ Hs]. rewrite <- (visible_queried cr) by done. fold (q_chunks b).
  destruct (new_csi_visible ms (b_ivs b) mint maxt (snd <$> q_chunks b)) as (st & Hst & Hy); [|done| |by apply query_fits|].
  - intros ->. apply Hne. by inversion Hld.
  - by apply increasing_join_filter.
  - by eapply sy_base.
Qed.

Definition b_entry (b : bseries C) : entry := (b_lset b, b_visible b).

Lemma block_yields s bl :
  pop_inv (bs_set s) bl -> bs_err s = None -> bs_mint s = mint -> bs_maxt s = maxt ->
  set_yields (SetBase s) (b_entry <$> filter has_chunks bl).
Proof using Type.
  remember (filter has_chunks bl) as fl eqn:Ef. revert s bl Ef.
  induction fl as [|b fl IH]; intros s bl Ef Hinv He Hmint Hmaxt; pose proof Hinv as (Hp & _);
    pose proof (p_gives_size _ _ Hp) as Hsz; rewrite length_fmap in Hsz;
    pose proof (pop_loop_ok (S (S (p_size (bc_p (pc_set (bs_set s)))))) (bs_set s) bl Hinv ltac:(lia)) as Hn;
    rewrite <- Ef in Hn.
  - destruct Hn as (s' & Hn & He'). eapply gy_nil.
    + cbn [set_Next x_Next blockSeriesSet_set]. unfold block_Next, pop_Next. rewrite Hn. done.
    + cbn. by rewrite He'.
  - destruct Hn as (s' & bl' & Hn & Hinv' & Hb & Els & Eivs & Hld & [= ->]). rewrite fmap_cons.
    eapply (gy_cons _ (SetBase (mkBlockSet s' (bs_err s) (Some (mkChunkSeries _ _ _ _ _)) (bs_mint s) (bs_maxt s)))).
    + cbn [set_Next x_Next blockSeriesSet_set]. unfold block_Next, pop_Next. rewrite Hn. done.
    + done.
    + done.
    + rewrite Els, Eivs, Hmint, Hmaxt. apply query_series; [done| |done].
      assert (Hin : b ∈ filter has_chunks bl) by (rewrite <- Ef; left). by apply list_elem_of_filter in Hin as [? _].
    + by apply (IH _ bl').
Qed.

Definition b_series (b : bseries C) : iseries := (b_ref b, b_lset b).

Lemma elem_b_series (bs : list (bseries C)) i ls : (i, ls) ∈ b_series <$> bs <-> exists b, b ∈ bs /\ b_ref b = i /\ b_lset b = ls.
Proof using Type. rewrite list_elem_of_fmap. unfold b_series. naive_solver. Qed.

(** The series a query gives, in the order of their labels. *)
Lemma query_bseries (bs : list (bseries C)) ms l :
  query_ids (b_series <$> bs) ms l ->
  exists bl, b_ref <$> bl = l /\ Forall (fun b => b ∈ bs) bl /\ increasing b_lset labels_cmp bl /\
    forall b, b ∈ bl -> b ∈ bs /\ sel_Matches ms (b_lset b) = true.
Proof using Type.
  intros (Hin & _ & Hsort).
  assert (Hl : Forall (fun i => exists b, b ∈ bs /\ b_ref b = i /\ sel_Matches ms (b_lset b) = true) l).
  { apply Forall_forall. intros i (ls & (b & ? & ? & <-)%elem_b_series & ?)%Hin. by exists b. }
  clear Hin. induction Hl as [|i l (b & Hb & Ei & Em) _ IH].
  { exists []. split_and!; [done|constructor|constructor|]. by intros ? ?%not_elem_of_nil. }
  destruct IH as (bl & El & Hbl & Hinc & Hm).
  { intros j k. intros. eapply (Hsort (S j) (S k)); (done || lia). }
  exists (b :: bl). split_and!; [cbn; congruence|by constructor| |].
  - constructor; [done|]. apply Forall_lookup. intros k b' Hb'.
    apply (Hsort 0%nat (S k) (b_ref b) (b_ref b')); [cbn; congruence| |lia|apply elem_b_series; by exists b|].
    + rewrite <- El. change (_ !! S k) with ((b_ref <$> bl) !! k). by rewrite list_lookup_fmap, Hb'.
    + apply elem_b_series. exists b'. split; [|done]. rewrite Forall_forall in Hbl.
      by eapply Hbl, list_elem_of_lookup_2.
  - intros b' [->|Hb']%elem_of_cons; [done|]. by apply Hm.
Qed.

Lemma increasing_entries (bl : list (bseries C)) : increasing b_lset labels_cmp bl -> increasing fst labels_cmp (b_entry <$> bl).
Proof using Type.
  induction 1 as [|b bl _ IH Hb]; [constructor|]. rewrite fmap_cons. constructor; [done|]. by apply Forall_fmap.
Qed.

(** What the block's querier gives. *)
Definition block_entries (bs : list (bseries C)) (ms : list Matcher) (es : list entry) : Prop :=
  increasing fst labels_cmp es /\
  forall e, e ∈ es <-> exists b, b ∈ bs /\ sel_Matches ms (b_lset b) = true /\ has_chunks b /\ e = b_entry b.

Lemma block_Select_ok M `{!PosBound M} (bs : list (bseries C)) ms :
  IndexHolds M ix (b_series <$> bs) -> Forall (series_ok ix cr tr) bs ->
  Forall (fun m => m_Name m <> EmptyString) ms -> ms <> [] ->
  exists st es, block_Select (mkBlockQuerier ix cr tr mint maxt) ms = Ok st /\
    set_yields (SetBase st) es /\ block_entries bs ms es.
Proof using Type.
  intros Hix Hbs Hms Hne. destruct (PostingsForMatchers_ok M ix (b_series <$> bs) ms Hms Hne) as (p & l & Hp & Hg & Hq).
  destruct (query_bseries _ _ _ Hq) as (bl & El & Hbl & Hinc & Hm). pose proof Hq as (Hin & _ & _).
  unfold block_Select, LookupChunkSeries. cbn [bq_index bq_tombstones]. rewrite Hp. cbn [res_bind].
  eexists _, (b_entry <$> filter has_chunks bl). split; [done|]. split.
  - apply block_yields; [|done..]. unfold pop_inv. cbn [bs_set pc_set bc_p bc_index bc_tombstones bc_err pc_chunks pc_mint pc_maxt pc_err bq_chunks bq_mint bq_maxt].
    split_and!; [by rewrite El| |done..]. apply Forall_forall. intros b [Hb _]%Hm.
    rewrite Forall_forall in Hbs. by apply Hbs.
  - split; [by apply increasing_entries, StronglySorted_filter|]. intros e.
    rewrite list_elem_of_fmap. setoid_rewrite list_elem_of_filter. split.
    + intros (b & -> & Hc & Hb). destruct (Hm b Hb). by exists b.
    + intros (b & Hb & Hsel & Hc & ->). exists b. split_and!; [done|done|].
      assert (Hl : b_ref b ∈ l) by (apply Hin; exists (b_lset b); split; [apply elem_b_series; by exists b|done]).
      rewrite <- El in Hl. apply list_elem_of_fmap in Hl as (b' & Er & Hb').
      destruct (Hm b' Hb') as [Hbs' _].
      assert (Eb : b = b'); [|by rewrite Eb].
      pose proof (ih_ids (ix := ix) (series := b_series <$> bs)) as Hnd.
      apply list_elem_of_lookup in Hb as [k1 Hk1], Hbs' as [k2 Hk2].
      assert (k1 = k2) as ->; [|congruence].
      eapply NoDup_lookup; [exact Hnd| |]; rewrite !list_lookup_fmap; [by rewrite Hk1|rewrite Hk2; cbn; by rewrite <- Er].
Qed.
End Block.

(** * Main theorems *)

(** C35: [PostingsForMatchers] of an index gives exactly the references of the
    series whose labels satisfy all matchers (equality, regular expression,
    prefix and negations; a matcher that accepts the empty value also selects the
    series without the label), each once, by increasing labels.  Values are
    matched by a scan, or for a prefix by binary search; both end and neither
    panics. *)
Theorem PostingsForMatchers_correct {IX C} `{IndexReader IX C} (M : Z) `{!PosBound M} (ix : IX)
    (series : list iseries) (ms : list Matcher) :
  IndexHolds M ix series -> Forall (fun m => m_Name m <> EmptyString) ms -> ms <> [] ->
  exists p l, PostingsForMatchers ix ms = Ok p /\ p_gives p l /\ query_ids series ms l.
Proof. intros Hix. by apply (PostingsForMatchers_ok M). Qed.

(** C31: [Select] on a block, from the matchers to the samples.  The set gives
    the series that satisfy the matchers and have a chunk in the time range of
    the query that is not entirely deleted, by increasing labels; and of each
    exactly the samples in the time range that are not deleted. *)
Theorem block_Select_correct {IX C CR TR I} `{IndexReader IX C} `{ChunkReader CR C} `{TombstoneReader TR}
    `{ChunkIterator I} `{ChunkIface C I} (M : Z) `{!PosBound M} (mint maxt : Z) (ix : IX) (cr : CR) (tr : TR)
    (bs : list (bseries C)) (ms : list Matcher) :
  IndexHolds M ix (b_series <$> bs) -> Forall (series_ok mint maxt ix cr tr) bs ->
  Forall (fun m => m_Name m <> EmptyString) ms -> ms <> [] ->
  exists st es, block_Select (mkBlockQuerier ix cr tr mint maxt) ms = Ok st /\
    set_yields (SetBase st) es /\ block_entries mint maxt bs ms es.
Proof. intros. by apply (block_Select_ok mint maxt ix cr tr M). Qed.

(** An index held as a list of series. *)
Module ListIndex.
Abbreviation row := (Z * (Labels * list (Meta XorChunk.XORChunk)))%type.
Record list_index := mkListIndex { li_rows : list row }.

Definition values (ix : list_index) (name : string) : list string :=
  sort_by id str_cmp (remove_dups (mjoin ((fun r : row => snd <$> filter (fun l : Label => fst l = name) (fst (snd r))) <$> li_rows ix))).

#[global] Instance list_index_reader : IndexReader list_index XorChunk.XORChunk := {|
  ix_LabelValues ix name :=
    Ok (mkStringTuples (length (values ix name))
          (fun i => match values ix name !! i with Some v => Ok [v] | None => Err ErrInvalidSize end));
  ix_Postings ix name v :=
    Ok (of_list (fst <$> if decide (name = EmptyString) then li_rows ix
                         else filter (fun r : row => (name, v) ∈ fst (snd r)) (li_rows ix)));
  ix_SortedPostings ix p := p;
  ix_Series ix ref :=
    match list_find (fun r : row => fst r = ref) (li_rows ix) with
    | Some (_, r) => Ok (snd r)
    | None => Err ErrNotFound
    end;
|}.

#[global] Instance map_chunk_reader : ChunkReader (gmap Z XorChunk.XORChunk) XorChunk.XORChunk :=
  fun m ref => match m !! ref with Some c => Ok c | None => Err ErrNotFound end.

Definition row_series (r : row) : iseries := (fst r, fst (snd r)).

Lemma values_spec ix name :
  increasing id str_cmp (values ix name) /\
  forall v, v ∈ values ix name <-> exists s, s ∈ row_series <$> li_rows ix /\ (name, v) ∈ snd s.
Proof.
  unfold values. set (l := mjoin _). split.
  - apply (sorted_increasing id str_cmp); [|apply (sort_by_sorted id str_cmp)].
    rewrite list_fmap_id, (sort_by_perm id str_cmp). apply NoDup_remove_dups.
  - intros v. rewrite (sort_by_perm id str_cmp), elem_of_remove_dups. unfold l. rewrite list_elem_of_join. split.
    + intros (k & Hv & (r & -> & Hr)%list_elem_of_fmap). apply list_elem_of_fmap in Hv as ([n' v'] & -> & [<- Hl]%list_elem_of_filter).
      exists (row_series r). split; [by apply list_elem_of_fmap_2|done].
    + intros (s & (r & -> & Hr)%list_elem_of_fmap & Hin). eexists. split; [|by apply list_elem_of_fmap_2].
      apply list_elem_of_fmap. exists (name, v). split; [done|]. by apply list_elem_of_filter.
Qed.

Lemma Forall_sublist {A} (P : A -> Prop) l k : Forall P l -> k `sublist_of` l -> Forall P k.
Proof. rewrite !Forall_forall. intros Hl Hs x Hx. by eapply Hl, elem_of_sublist. Qed.

Lemma sublist_ids M c (l k : list Z) : ids_ok M c l -> k `sublist_of` l -> ids_ok M c k.
Proof.
  intros (Hc & Hi & HM) Hs. assert (Hk : incr k).
  { apply incr_tail in Hi. clear - Hi Hs. induction Hs as [|x k l Hs IH|x k l Hs IH]; [done| |].
    - apply StronglySorted_inv in Hi as [Hi Hx]. constructor; [by apply IH|]. by eapply Forall_sublist.
    - apply IH. by eapply incr_tail. }
  split; [done|]. split; [|by eapply Forall_sublist]. apply incr_cons; [done|].
  intros x Hx. apply (incr_lt c l); [done|]. by eapply elem_of_sublist.
Qed.

(** The rows are in the order of their references and of their labels. *)
Lemma list_index_holds M `{!PosBound M} (rows : list row) :
  ids_ok M 0 (fst <$> rows) -> increasing (fun r : row => fst (snd r)) labels_cmp rows ->
  Forall (fun r : row => NoDup (fst (snd r)).*1 /\ Forall (fun l => snd l <> EmptyString) (fst (snd r))) rows ->
  IndexHolds M (mkListIndex rows) (row_series <$> rows).
Proof.
  intros Hids Hinc Hlab.
  assert (Efst : fst <$> (row_series <$> rows) = fst <$> rows) by (rewrite <- list_fmap_compose; done).
  assert (Hnd : NoDup (fst <$> rows)) by (apply incr_NoDup; by eapply incr_tail, Hids).
  assert (Hrow : forall i ls, (i, ls) ∈ row_series <$> rows <-> exists r, r ∈ rows /\ fst r = i /\ fst (snd r) = ls).
  { intros i ls. rewrite list_elem_of_fmap. unfold row_series. naive_solver. }
  split.
  - intros name _. destruct (values_spec (mkListIndex rows) name) as [Hv Hm].
    eexists _, (values (mkListIndex rows) name). split_and!; [done| |done|done].
    split; [done|]. intros i v Hi. cbn [st_At]. by rewrite Hi.
  - intros name v Hname. eexists _, _. split; [done|]. rewrite decide_False by done. split.
    + apply resumes_list; [done|]. eapply sublist_ids; [done|]. apply fmap_sublist, sublist_filter.
    + intros i. rewrite list_elem_of_fmap. setoid_rewrite list_elem_of_filter. setoid_rewrite Hrow. naive_solver.
  - eexists _, _. split; [done|]. cbn [AllPostingsKey fst snd]. rewrite decide_True by done. rewrite Efst.
    split; [|done]. by apply resumes_list.
  - intros p r Hp Hr. exists r. split_and!; [by eapply denotes_gives|done|].
    intros i j a b la lb Ha Hb Hij (ra & Hra & <- & <-)%Hrow (rb & Hrb & <- & <-)%Hrow.
    pose proof (StronglySorted_lookup_lt _ _ i j _ _ (denotes_incr _ _ _ Hp) Ha Hb Hij) as Hlt.
    apply list_elem_of_lookup in Hra as [k1 Hk1], Hrb as [k2 Hk2].
    assert (Hk : (k1 < k2)%nat); [|by apply (StronglySorted_lookup_lt _ _ k1 k2 _ _ Hinc)].
    destruct (decide (k2 <= k1)%nat) as [Hle|]; [|lia]. exfalso.
    destruct (decide (k1 = k2)) as [->|]; [rewrite Hk1 in Hk2; injection Hk2 as ->; lia|].
    pose proof (StronglySorted_lookup_lt _ (fst <$> rows) k2 k1 (fst rb) (fst ra) (incr_tail _ _ (proj1 (proj2 Hids)))) as Hlt2.
    rewrite !list_lookup_fmap, Hk1, Hk2 in Hlt2. specialize (Hlt2 eq_refl eq_refl ltac:(lia)). cbn in Hlt2. lia.
  - intros s (r & -> & Hr)%list_elem_of_fmap. rewrite Forall_forall in Hlab. by apply Hlab.
  - by rewrite Efst.
Qed.

Definition c1 : Meta XorChunk.XORChunk := xor_meta 1 9 [(1, 10); (4, 11); (9, 12)].
Definition c2 : Meta XorChunk.XORChunk := xor_meta 12 40 [(12, 13); (20, 14); (40, 15)].
Definition c3 : Meta XorChunk.XORChunk := xor_meta 2 2 [(2, 3)].

(** The chunk under the reference [r], not loaded. *)
Definition at_ref (r : Z) (m : Meta XorChunk.XORChunk) : Meta XorChunk.XORChunk :=
  mkMeta r None (m_MinTime m) (m_MaxTime m).

Definition chunk_map : gmap Z XorChunk.XORChunk :=
  map_imap (fun _ m => m_Chunk m) (list_to_map [(8, c1); (9, c2); (10, c3)] : gmap Z (Meta XorChunk.XORChunk)).

Definition block : list (bseries XorChunk.XORChunk) := [
  mkBseries 1 [("a", "x")] [(at_ref 8 c1, [(1, 10); (4, 11); (9, 12)]); (at_ref 9 c2, [(12, 13); (20, 14); (40, 15)])]
    [mkInterval 9 12];
  mkBseries 2 [("a", "y"); ("b", "1")] [(at_ref 10 c3, [(2, 3)])] []]%string.

Definition rows : list row := (fun b => (b_ref b, (b_lset b, fst <$> b_chunks b))) <$> block.
Definition tombs : memTombstones := {[1 := [mkInterval 9 12]]}.
End ListIndex.

Lemma PostingsForMatchers_correct_witness :
  exists p l, PostingsForMatchers (ListIndex.mkListIndex ListIndex.rows)
      [PrefixMatcher "a" "x"; notMatcher (EqualMatcher "b" "1")]%string = Ok p /\ p_gives p l /\
    query_ids (ListIndex.row_series <$> ListIndex.rows) [PrefixMatcher "a" "x"; notMatcher (EqualMatcher "b" "1")]%string l.
Proof.
  assert (PosBound (2 ^ 64)) by (unfold PosBound; lia).
  apply (PostingsForMatchers_correct (2 ^ 64)).
  - apply ListIndex.list_index_holds; [done|decided..].
  - decided.
  - done.
Defined.

Lemma block_Select_correct_witness :
  exists st es,
    block_Select (CR := gmap Z XorChunk.XORChunk) (TR := memTombstones)
      (mkBlockQuerier (ListIndex.mkListIndex ListIndex.rows) ListIndex.chunk_map ListIndex.tombs 3 30)
      [EqualMatcher "a" "x"]%string = Ok st /\
    set_yields (It := chunkSeriesIterator (I := XorChunk.xorIterator)) (SetBase st) es /\
    block_entries 3 30 ListIndex.block [EqualMatcher "a" "x"]%string es.
Proof.
  assert (PosBound (2 ^ 64)) by (unfold PosBound; lia).
  apply (block_Select_correct (2 ^ 64)).
  - change (b_series <$> ListIndex.block) with (ListIndex.row_series <$> ListIndex.rows).
    apply ListIndex.list_index_holds; [done|decided..].
  - assert (Hc1 : chunk_ok (I := XorChunk.xorIterator) 3 30 ListIndex.chunk_map [mkInterval 9 12] (ListIndex.at_ref 8 ListIndex.c1, [(1, 10); (4, 11); (9, 12)])).
    { split_and!; [|decided|done|].
      - eexists _, _. split_and!; [reflexivity|reflexivity|by apply (read_all_gives 4)].
      - intros _. apply Exists_cons_tl, Exists_cons_hd. by split; [|reflexivity]. }
    assert (Hc2 : chunk_ok (I := XorChunk.xorIterator) 3 30 ListIndex.chunk_map [mkInterval 9 12] (ListIndex.at_ref 9 ListIndex.c2, [(12, 13); (20, 14); (40, 15)])).
    { split_and!; [|decided|done|].
      - eexists _, _. split_and!; [reflexivity|reflexivity|by apply (read_all_gives 4)].
      - intros _. apply Exists_cons_tl, Exists_cons_hd. by split; [|reflexivity]. }
    assert (Hc3 : chunk_ok (I := XorChunk.xorIterator) 3 30 ListIndex.chunk_map [] (ListIndex.at_ref 10 ListIndex.c3, [(2, 3)])).
    { split_and!; [|decided|done|].
      - eexists _, _. split_and!; [reflexivity|reflexivity|by apply (read_all_gives 4)].
      - intros (Hr & _). cbn in Hr. lia. }
    repeat apply Forall_cons_2; [..|apply Forall_nil_2]; (split; [reflexivity|reflexivity|decided| |by repeat constructor|by repeat constructor]).
    + repeat apply Forall_cons_2; [exact Hc1|exact Hc2|apply Forall_nil_2].
    + repeat apply Forall_cons_2; [exact Hc3|apply Forall_nil_2].
  - decided.
  - done.
Defined.

(** When the data of one chunk is gone ([ErrNotFound], which happens while
    a block or a head chunk is being removed), the set of series ends there
    without an error: the series in question, whatever other chunks it has, and
    all series after it are left out of the result. *)
Theorem missing_chunk_ends_set :
  let ix := ListIndex.mkListIndex ListIndex.rows in
  let q := mkBlockQuerier (TR := memTombstones) ix (delete 9 ListIndex.chunk_map) ListIndex.tombs 0 30 in
  exists st st', block_Select q [notMatcher (EqualMatcher "a" "")]%string = Ok st /\
    block_Next st = Ok (false, st') /\ bs_err st' = None /\
    (forall s, s ∈ ListIndex.block -> sel_Matches [notMatcher (EqualMatcher "a" "")]%string (b_lset s) = true) /\
    b_visible 0 30 <$> ListIndex.block = [[(1, 10); (4, 11); (20, 14)]; [(2, 3)]].
Proof.
  cbv zeta. eexists _, _. split_and!; [by vm_compute|by vm_compute|reflexivity| |by vm_compute].
  apply Forall_forall. decided.
Qed.
