(* ===== verification/MemSeries.v ===== *)
(** head.go, one series in memory: its chunks, appending to it, cutting and
    dropping chunks, and the iterator that is safe against appends. *)
From S2P Require Import Prelude Bits BitStream XorChunk Labels Tombstones Chunks Buffer SeriesIter.
#[local] Open Scope list_scope.
#[local] Open Scope Z_scope.

(** * Definitions *)

(** Go's division of int64: it truncates, and panics for a divisor of 0. *)
Definition div64 (x y : Z) : res Z := if y =? 0 then Panic else Ok (i64 (Z.quot x y)).

Definition rangeForTimestamp (t width : Z) : res (Z * Z) :=
  let? q := div64 t width in
  let mint := i64 (q * width) in
  Ok (mint, i64 (mint + width)).

Record memChunk := mkMemChunk { mc_chunk : XORChunk; mc_minTime : Z; mc_maxTime : Z }.

Definition mc_Overlaps (mc : memChunk) (mint maxt : Z) : bool :=
  (mc_minTime mc <=? maxt) && (mint <=? mc_maxTime mc).

(** [sampleBuf] is the array of the last four samples; [ms_app] the appender of
    the last chunk, nil before the first. *)
Record memSeries := mkMemSeries {
  ms_ref : Z; ms_lset : Labels; ms_chunks : list memChunk; ms_chunkRange : Z; ms_firstChunkID : Z;
  ms_nextAt : Z; ms_lastValue : float64; ms_sampleBuf : list Buffer.sample; ms_pendingCommit : bool;
  ms_app : option xorAppender }.

Definition newMemSeries (lset : Labels) (id chunkRange : Z) : memSeries :=
  mkMemSeries id lset [] chunkRange 0 MinInt64 0 (replicate 4 (0, 0)) false None.

Definition ms_head (s : memSeries) : option memChunk := last (ms_chunks s).

Definition ms_minTime (s : memSeries) : Z :=
  match ms_chunks s with [] => MinInt64 | c :: _ => mc_minTime c end.

Definition ms_maxTime (s : memSeries) : Z :=
  match ms_head s with None => MinInt64 | Some c => mc_maxTime c end.

Definition set_pending (s : memSeries) (b : bool) : memSeries :=
  mkMemSeries (ms_ref s) (ms_lset s) (ms_chunks s) (ms_chunkRange s) (ms_firstChunkID s) (ms_nextAt s)
    (ms_lastValue s) (ms_sampleBuf s) b (ms_app s).

Definition set_nextAt (s : memSeries) (t : Z) : memSeries :=
  mkMemSeries (ms_ref s) (ms_lset s) (ms_chunks s) (ms_chunkRange s) (ms_firstChunkID s) t
    (ms_lastValue s) (ms_sampleBuf s) (ms_pendingCommit s) (ms_app s).

(** [cut]: the new chunk is the last one and the appender is its. *)
Definition ms_cut (s : memSeries) (mint : Z) : res memSeries :=
  let c := mkMemChunk NewXORChunk mint MinInt64 in
  let? (_, nextAt) := rangeForTimestamp mint (ms_chunkRange s) in
  match Appender (mc_chunk c) with
  | Ok app =>
      Ok (mkMemSeries (ms_ref s) (ms_lset s) (ms_chunks s ++ [c]) (ms_chunkRange s) (ms_firstChunkID s) nextAt
            (ms_lastValue s) (ms_sampleBuf s) (ms_pendingCommit s) (Some app))
  | _ => Panic
  end.

Definition appendable (s : memSeries) (t : Z) (v : float64) : res unit :=
  match ms_head s with
  | None => Ok ()
  | Some c =>
      if mc_maxTime c <? t then Ok ()
      else if t <? mc_maxTime c then Err ErrOutOfOrderSample
      else if negb (Float64bits (ms_lastValue s) =? Float64bits v) then Err ErrAmendSample
      else Ok ()
  end.

Definition ms_chunk (s : memSeries) (id : Z) : option memChunk :=
  let ix := id - ms_firstChunkID s in
  if (ix <? 0) || (zlen (ms_chunks s) <=? ix) then None else ms_chunks s !! Z.to_nat ix.

Definition ms_chunkID (s : memSeries) (pos : Z) : Z := pos + ms_firstChunkID s.

(** The loop of [truncateChunksBefore]: how many chunks end before [mint]. *)
Fixpoint chunks_before (mint : Z) (cs : list memChunk) : nat :=
  match cs with
  | [] => 0
  | c :: cs => if mint <=? mc_maxTime c then 0 else S (chunks_before mint cs)
  end.

Definition truncateChunksBefore (s : memSeries) (mint : Z) : memSeries * Z :=
  let k := chunks_before mint (ms_chunks s) in
  (mkMemSeries (ms_ref s) (ms_lset s) (drop k (ms_chunks s)) (ms_chunkRange s) (ms_firstChunkID s + Z.of_nat k)
     (ms_nextAt s) (ms_lastValue s) (ms_sampleBuf s) (ms_pendingCommit s) (ms_app s), Z.of_nat k).

Definition computeChunkEndTime (start cur max : Z) : res Z :=
  let? a := div64 (i64 (max - start)) (i64 (i64 (i64 (cur - start) + 1) * 4)) in
  if a =? 0 then Ok max
  else let? q := div64 (i64 (max - start)) a in Ok (i64 (start + q)).

Definition samplesPerChunk : Z := 120.

(** The last part of [append]: the sample goes to the last chunk, whose stream is
    the appender's. *)
Definition ms_push (s : memSeries) (t : Z) (v : float64) : res memSeries :=
  match ms_app s, ms_head s with
  | Some app, Some c =>
      let? app := Append app t v in
      let c := mkMemChunk (achunk app) (mc_minTime c) t in
      Ok (mkMemSeries (ms_ref s) (ms_lset s) (take (length (ms_chunks s) - 1) (ms_chunks s) ++ [c]) (ms_chunkRange s)
            (ms_firstChunkID s) (ms_nextAt s) v (drop 1 (ms_sampleBuf s) ++ [(t, v)]) (ms_pendingCommit s) (Some app))
  | _, _ => Panic
  end.

(** [append]: the series, whether the sample was appended and whether a chunk was
    created. *)
Definition ms_append (s : memSeries) (t : Z) (v : float64) : res (memSeries * (bool * bool)) :=
  let? (s, chunkCreated) := match ms_head s with
                            | None => let? s := ms_cut s t in Ok (s, true)
                            | Some _ => Ok (s, false)
                            end in
  match ms_head s with
  | None => Panic
  | Some c =>
      let? numSamples := NumSamples (mc_chunk c) in
      if t <=? mc_maxTime c then Ok (s, (false, chunkCreated))
      else
        let? s := if numSamples =? samplesPerChunk / 4
                  then let? e := computeChunkEndTime (mc_minTime c) (mc_maxTime c) (ms_nextAt s) in Ok (set_nextAt s e)
                  else Ok s in
        let? (s, chunkCreated) := if ms_nextAt s <=? t then let? s := ms_cut s t in Ok (s, true)
                                  else Ok (s, chunkCreated) in
        let? s := ms_push s t v in
        Ok (s, (true, chunkCreated))
  end.

(** ** memSafeIterator *)

Record memSafeIterator := mkSafe { sf_it : xorIterator; sf_i : Z; sf_total : Z; sf_buf : list Buffer.sample }.

Definition sf_Next (it : memSafeIterator) : res (bool * memSafeIterator) :=
  if sf_total it <=? sf_i it + 1 then Ok (false, it)
  else
    let it := mkSafe (sf_it it) (sf_i it + 1) (sf_total it) (sf_buf it) in
    if 4 <? sf_total it - sf_i it then
      let? (ok, x) := ci_Next (sf_it it) in
      Ok (ok, mkSafe x (sf_i it) (sf_total it) (sf_buf it))
    else Ok (true, it).

(** The index into the four samples is in range whenever [Next] returned true. *)
Definition sf_At (it : memSafeIterator) : Buffer.sample :=
  if 4 <? sf_total it - sf_i it then ci_At (sf_it it)
  else nth (Z.to_nat (4 - (sf_total it - sf_i it))) (sf_buf it) (0, 0).

(** What [memSeries.iterator] returns. *)
Inductive ms_iter := NopIter | ChunkIter (it : xorIterator) | SafeIter (it : memSafeIterator).

#[export] Instance ms_iter_ops : ChunkIterator ms_iter := {|
  ci_At it := match it with NopIter => nop_At | ChunkIter it => ci_At it | SafeIter it => sf_At it end;
  ci_Err it := match it with NopIter => nop_Err | ChunkIter it => ci_Err it | SafeIter it => ci_Err (sf_it it) end;
  ci_Next it := match it with
                | NopIter => Ok (nop_Next, NopIter)
                | ChunkIter it => let? (ok, it) := ci_Next it in Ok (ok, ChunkIter it)
                | SafeIter it => let? (ok, it) := sf_Next it in Ok (ok, SafeIter it)
                end;
  ci_size it := match it with
                | NopIter => 0%nat
                | ChunkIter it => ci_size it
                | SafeIter it => Z.to_nat (sf_total it - sf_i it)
                end;
|}.

Definition ms_iterator (s : memSeries) (id : Z) : res ms_iter :=
  match ms_chunk s id with
  | None => Ok NopIter
  | Some c =>
      let? it := Iterator (mc_chunk c) in
      if id - ms_firstChunkID s <? zlen (ms_chunks s) - 1 then Ok (ChunkIter it)
      else
        let? total := NumSamples (mc_chunk c) in
        Ok (SafeIter (mkSafe it (-1) total (ms_sampleBuf s)))
  end.

(** [safeChunk]: a chunk of a series; [s] is the series when the query runs. *)
Record safeChunk := mkSafeChunk { sc_s : memSeries; sc_cid : Z }.

#[export] Instance safe_chunk_iface : ChunkIface safeChunk ms_iter := fun c => ms_iterator (sc_s c) (sc_cid c).

(** ** Chunk references *)

Definition packChunkID (seriesID chunkID : Z) : res Z :=
  if 2 ^ 40 - 1 <? seriesID then Panic
  else if 2 ^ 24 - 1 <? chunkID then Panic
  else Ok (Z.lor (shlU 64 seriesID 24) chunkID).

Definition unpackChunkID (id : Z) : Z * Z := (shrU id 24, shrU (shlU 64 id 40) 40).

Example append_example :
  (let s := newMemSeries [] 1 100 in
   let? (s, _) := ms_append s 10 1 in
   let? (s, _) := ms_append s 20 2 in
   let? (s, r) := ms_append s 20 3 in
   let? (s, _) := ms_append s 150 4 in
   let? it := ms_iterator s 1 in
   Ok (r, (fun c => (mc_minTime c, mc_maxTime c)) <$> ms_chunks s, read_all 5 it)) =
  Ok ((false, false), [(10, 20); (150, 150)], Some [(150, 4)]).
Proof. by vm_compute. Qed.

(** * Proofs: arithmetic *)

(** Times and chunk ranges for which no int64 operation of a series wraps. *)
Definition time_ok (t : Z) : Prop := - 2 ^ 61 <= t <= 2 ^ 61.
Definition range_ok (w : Z) : Prop := 0 < w <= 2 ^ 59.

Lemma div64_ok x y : 0 < y -> is_i64 x -> div64 x y = Ok (Z.quot x y).
Proof.
  intros Hy Hx. unfold div64. rewrite (proj2 (Z.eqb_neq _ _)) by lia. rewrite i64_small; [done|].
  unfold is_s in *. pose proof (Z.quot_rem' x y). pose proof (Z.rem_bound_abs x y). nia.
Qed.

(** The range a time falls into: it ends after the time, at most twice its width
    later (for a negative time the quotient is rounded up). *)
Lemma rangeForTimestamp_spec t w :
  time_ok t -> range_ok w ->
  exists mint, rangeForTimestamp t w = Ok (mint, mint + w) /\ t - w < mint < t + w /\
    (w | mint) /\ (0 <= t -> mint <= t).
Proof.
  intros Ht Hw. unfold time_ok, range_ok in *. unfold rangeForTimestamp.
  rewrite div64_ok by (unfold is_s; lia). cbn [res_bind].
  pose proof (Z.quot_rem' t w). pose proof (Z.rem_bound_abs t w).
  exists (Z.quot t w * w). split_and!; [|lia..|by exists (Z.quot t w)|].
  - rewrite !i64_small by (unfold is_s; lia). done.
  - intros ?. pose proof (Z.rem_bound_pos t w). lia.
Qed.

Lemma computeChunkEndTime_ok start cur max :
  time_ok start -> start <= cur -> cur - start < 2 ^ 60 -> start < max <= start + 2 ^ 60 ->
  exists e, computeChunkEndTime start cur max = Ok e /\ start < e <= max /\ (cur < max -> cur < e).
Proof.
  unfold time_ok. intros Hs Hc Hc2 Hm. unfold computeChunkEndTime.
  rewrite (i64_small (max - start)), (i64_small (cur - start)) by (unfold is_s; lia).
  rewrite (i64_small (cur - start + 1)) by (unfold is_s; lia). rewrite (i64_small (_ * 4)) by (unfold is_s; lia).
  set (k := (cur - start + 1) * 4). rewrite div64_ok by (unfold is_s, k in *; lia). cbn [res_bind].
  rewrite Z.quot_div_nonneg by (unfold k; lia). destruct (Z.eqb_spec ((max - start) / k) 0) as [E|E].
  - exists max. split_and!; [done|lia|lia|done].
  - assert (Ha : 0 < (max - start) / k) by (pose proof (Z.div_pos (max - start) k); unfold k in *; lia).
    set (a := (max - start) / k) in *. assert (Hak : k * a <= max - start) by (apply Z.mul_div_le; unfold k; lia).
    rewrite div64_ok by (unfold is_s; lia). cbn [res_bind]. rewrite Z.quot_div_nonneg by lia.
    assert (Hq : k <= (max - start) / a) by (apply Z.div_le_lower_bound; lia).
    assert (Hq2 : (max - start) / a <= max - start) by (apply Z.div_le_upper_bound; nia).
    exists (start + (max - start) / a). rewrite i64_small by (unfold is_s, k in *; lia).
    split_and!; [done|unfold k in *; lia..].
Qed.

(** * Proofs: the samples a series holds *)

Definition sample_ok (s : Buffer.sample) : Prop := time_ok (fst s) /\ is_u64 (snd s).

Lemma sample_ok_valid s : sample_ok s -> XorChunk.valid_sample s.
Proof. destruct s as [t v]. intros [Ht Hv]. cbn in *. unfold time_ok in Ht. split; [|done]. cbn. unfold is_s. lia. Qed.

(** The chunk holds the samples [l], which its appender [a] wrote. *)
Definition chunk_holds (c : memChunk) (a : xorAppender) (l : list Buffer.sample) : Prop :=
  encodes a l /\ mc_chunk c = achunk a /\ fst <$> head l = Some (mc_minTime c) /\ fst <$> last l = Some (mc_maxTime c).

(** The last four samples are in the buffer. *)
Definition buffered (buf all : list Buffer.sample) : Prop :=
  let n := (length all `min` 4)%nat in
  length buf = 4%nat /\ drop (4 - n) buf = drop (length all - n) all.

(** The series holds the samples [ls], chunk by chunk. *)
Record ms_holds (s : memSeries) (ls : list (list Buffer.sample)) : Prop := {
  mh_chunks : Forall2 (fun c l => exists a, chunk_holds c a l) (ms_chunks s) ls;
  mh_app : forall c, ms_head s = Some c -> exists a l, ms_app s = Some a /\ last ls = Some l /\ chunk_holds c a l;
  mh_sorted : increasing_times (mjoin ls);
  mh_ok : Forall sample_ok (mjoin ls);
  mh_buf : buffered (ms_sampleBuf s) (mjoin ls);
  mh_range : range_ok (ms_chunkRange s);
  mh_next : forall c, ms_head s = Some c ->
    mc_minTime c < ms_nextAt s <= mc_minTime c + 2 * ms_chunkRange s /\
    mc_maxTime c < mc_minTime c + 2 * ms_chunkRange s;
  mh_value : forall x, last (mjoin ls) = Some x -> ms_lastValue s = snd x;
}.

Lemma buffered_push buf all x : buffered buf all -> buffered (drop 1 buf ++ [x]) (all ++ [x]).
Proof.
  unfold buffered. intros [Hl Hb]. rewrite !length_app, length_drop, Hl. cbn [length]. split; [done|].
  set (n := (length all `min` 4)%nat) in *. set (n' := ((length all + 1) `min` 4)%nat).
  rewrite !drop_app_le by (rewrite ?length_drop; lia). f_equal. rewrite drop_drop.
  destruct (decide (length all < 4)%nat).
  - replace (1 + (4 - n'))%nat with (4 - n)%nat by lia. rewrite Hb. f_equal. lia.
  - replace (1 + (4 - n'))%nat with ((4 - n) + 1)%nat by lia. rewrite <- drop_drop, Hb, drop_drop. f_equal. lia.
Qed.

Lemma buffered_drop buf l all : buffered buf (l ++ all) -> buffered buf all.
Proof.
  unfold buffered. rewrite length_app. intros [Hl Hb]. split; [done|].
  set (n := ((length l + length all) `min` 4)%nat) in *. set (n' := (length all `min` 4)%nat).
  replace (4 - n')%nat with ((4 - n) + (n - n'))%nat by lia. rewrite <- drop_drop, Hb, drop_drop.
  rewrite drop_app_ge by lia. f_equal. lia.
Qed.

Lemma last_join (ls : list (list Buffer.sample)) l : last ls = Some l -> l <> [] -> last (mjoin ls) = last l.
Proof.
  intros Hl Hne. apply last_Some in Hl as [ls' ->]. rewrite join_app. cbn. rewrite app_nil_r, last_app.
  destruct (last l) eqn:E; [done|]. by apply last_None in E.
Qed.

Lemma join_snoc (ls : list (list Buffer.sample)) l x : mjoin (ls ++ [l ++ [x]]) = mjoin (ls ++ [l]) ++ [x].
Proof. rewrite !join_app. cbn. by rewrite !app_nil_r, app_assoc. Qed.

Lemma head_snoc {A} (l : list A) x : head (l ++ [x]) = match head l with Some y => Some y | None => Some x end.
Proof. by destruct l. Qed.

(** The fields an append leaves alone. *)
Definition same_series (s s' : memSeries) : Prop :=
  ms_ref s' = ms_ref s /\ ms_lset s' = ms_lset s /\ ms_firstChunkID s' = ms_firstChunkID s /\
  ms_pendingCommit s' = ms_pendingCommit s /\ ms_chunkRange s' = ms_chunkRange s.

(** The series is about to push [(t, v)] into its last chunk [c], which holds [l]
    (nothing yet when it was just cut). *)
Record ready (s : memSeries) (ls0 : list (list Buffer.sample)) (l : list Buffer.sample) (t : Z) : Prop := {
  rd_chunks : exists cs0 c a, ms_chunks s = cs0 ++ [c] /\ ms_app s = Some a /\ encodes a l /\
    mc_chunk c = achunk a /\ fst <$> head (l ++ [(t, 0)]) = Some (mc_minTime c) /\
    Forall2 (fun c l => exists a, chunk_holds c a l) cs0 ls0 /\
    mc_minTime c < ms_nextAt s <= mc_minTime c + 2 * ms_chunkRange s /\ t < mc_minTime c + 2 * ms_chunkRange s;
  rd_after : Forall (fun x => fst x < t) (mjoin (ls0 ++ [l]));
  rd_sorted : increasing_times (mjoin (ls0 ++ [l]));
  rd_ok : Forall sample_ok (mjoin (ls0 ++ [l]));
  rd_buf : buffered (ms_sampleBuf s) (mjoin (ls0 ++ [l]));
  rd_range : range_ok (ms_chunkRange s);
}.

Lemma push_ok s ls0 l t v :
  ready s ls0 l t -> Z.of_nat (length l) < 65535 -> sample_ok (t, v) ->
  exists s', ms_push s t v = Ok s' /\ ms_holds s' (ls0 ++ [l ++ [(t, v)]]) /\ same_series s s'.
Proof.
  intros [(cs0 & c & a & Hcs & Happ & Ha & Hc & Hhead & Hcs0 & Hnext & Ht) Hafter Hsort Hok Hbuf Hrange] Hlen Hx.
  destruct (encodes_append a l t v Ha Hlen (sample_ok_valid _ Hx)) as (a' & HA & Ha').
  unfold ms_push, ms_head. rewrite Happ, Hcs, last_snoc, HA. cbn [res_bind]. eexists. split; [done|].
  assert (Hcl : chunk_holds (mkMemChunk (achunk a') (mc_minTime c) t) a' (l ++ [(t, v)])).
  { split_and!; [done|done| |by rewrite last_snoc]. rewrite !head_snoc in *. by destruct (head l). }
  rewrite length_app, Nat.add_sub, take_app_length.
  split; [|done]. split; cbn [ms_chunks ms_app ms_sampleBuf ms_chunkRange ms_nextAt]; rewrite ?join_snoc; try done.
  - apply Forall2_app; [done|]. constructor; [by exists a'|constructor].
  - unfold ms_head. cbn [ms_chunks]. intros c'. rewrite last_snoc. intros [= <-]. exists a', (l ++ [(t, v)]).
    by rewrite last_snoc.
  - apply increasing_app_intro; [done|repeat constructor|]. eapply Forall_impl; [exact Hafter|]. by repeat constructor.
  - apply Forall_app. split; [done|]. by apply Forall_singleton.
  - by apply buffered_push.
  - unfold ms_head. cbn [ms_chunks]. intros c'. rewrite last_snoc. intros [= <-]. by cbn.
  - intros x. rewrite last_snoc. by intros [= <-].
Qed.

Lemma cut_ok s ls t :
  ms_holds s ls -> time_ok t -> Forall (fun x => fst x < t) (mjoin ls) ->
  exists s', ms_cut s t = Ok s' /\ ready s' ls [] t /\ same_series s s' /\
    ms_head s' = Some (mkMemChunk NewXORChunk t MinInt64) /\ t < ms_nextAt s'.
Proof.
  intros [Hcs _ Hsort Hok Hbuf Hrange _ _] Ht Hafter. unfold ms_cut.
  destruct (rangeForTimestamp_spec t (ms_chunkRange s) Ht Hrange) as (mint & -> & Hm & _).
  cbn [res_bind mc_chunk]. rewrite Appender_New. eexists. split; [done|].
  assert (Hj : mjoin (ls ++ [[]]) = mjoin ls) by (rewrite join_app; cbn; by rewrite app_nil_r).
  split; [|split; [done|split; [unfold ms_head; cbn; by rewrite last_snoc|cbn; lia]]].
  split; cbn [ms_chunks ms_app ms_sampleBuf ms_chunkRange ms_nextAt]; rewrite ?Hj; try done.
  exists (ms_chunks s), (mkMemChunk NewXORChunk t MinInt64), first_appender.
  split_and!; try done; cbn; unfold range_ok in *; [apply encodes_first|lia..].
Qed.

Lemma after_last (all : list Buffer.sample) t x :
  increasing_times all -> last all = Some x -> fst x < t -> Forall (fun y => fst y < t) all.
Proof.
  intros Hs (l & ->)%last_Some Hx. apply increasing_app in Hs as (_ & _ & Hl).
  apply Forall_app. split; [|by repeat constructor]. eapply Forall_impl; [exact Hl|].
  intros y Hy%Forall_inv. cbn in *. lia.
Qed.

Lemma set_nextAt_holds s ls e :
  ms_holds s ls -> (forall c, ms_head s = Some c -> mc_minTime c < e <= ms_nextAt s) -> ms_holds (set_nextAt s e) ls.
Proof.
  intros [Hc Ha Hs Ho Hb Hr Hn Hv] He. split; try done. intros c Hhd. specialize (He c Hhd). specialize (Hn c Hhd). cbn.
  destruct Hn as [[? ?] ?]. split_and!; lia.
Qed.

Lemma ready_last s ls c t :
  ms_holds s ls -> ms_head s = Some c -> mc_maxTime c < t -> t < ms_nextAt s ->
  exists ls0 l, ls = ls0 ++ [l] /\ ready s ls0 l t.
Proof.
  intros [Hc Ha Hs Ho Hb Hr Hn _] Hhd Hct Ht. destruct (Ha c Hhd) as (a & l & Happ & Hl & Hch).
  destruct (Hn c Hhd) as [[? ?] ?]. apply last_Some in Hl as [ls0 ->].
  destruct Hch as (He & Hmc & Hmin & Hmax). assert (Hne : l <> []) by (by intros ->).
  exists ls0, l. split; [done|]. apply last_Some in Hhd as [cs0 Hcs]. split; try done.
  - exists cs0, c, a. split_and!; try done; [|rewrite Hcs in Hc|lia].
    + rewrite head_snoc. by destruct (head l).
    + apply Forall2_app_inv in Hc as [? ?]; [done|]. apply Forall2_length in Hc. rewrite !length_app in Hc. cbn in Hc. lia.
  - apply fmap_Some in Hmax as (x & Hx & Ex). apply (after_last _ t x); [done| |lia].
    by rewrite (last_join _ l), Hx by (rewrite ?last_snoc; done).
Qed.

(** Is the time not after all samples? *)
Definition late (ls : list (list Buffer.sample)) (t : Z) : bool :=
  match last (mjoin ls) with Some x => t <=? fst x | None => false end.

(** What [append] promises. *)
Definition appended (s : memSeries) (ls : list (list Buffer.sample)) (t v : Z) (r : res (memSeries * (bool * bool))) : Prop :=
  exists s' created ls', r = Ok (s', (true, created)) /\ ms_holds s' ls' /\ same_series s s' /\
    ((created = true /\ ls' = ls ++ [[(t, v)]]) \/
     (created = false /\ exists ls0 l, ls = ls0 ++ [l] /\ ls' = ls0 ++ [l ++ [(t, v)]])).

Lemma same_series_trans s1 s2 s3 : same_series s1 s2 -> same_series s2 s3 -> same_series s1 s3.
Proof. unfold same_series. intuition congruence. Qed.

(** Cutting a chunk and pushing into it. *)
Lemma cut_push s ls t v :
  ms_holds s ls -> sample_ok (t, v) -> Forall (fun x => fst x < t) (mjoin ls) ->
  exists s1, ms_cut s t = Ok s1 /\ ms_head s1 = Some (mkMemChunk NewXORChunk t MinInt64) /\ t < ms_nextAt s1 /\
    exists s', ms_push s1 t v = Ok s' /\ ms_holds s' (ls ++ [[(t, v)]]) /\ same_series s s'.
Proof.
  intros Hs Hx Ha. destruct (cut_ok s ls t Hs (proj1 Hx) Ha) as (s1 & Hcut & Hr & Hsame & Hh & Hn).
  exists s1. split_and!; [done..|]. destruct (push_ok s1 ls [] t v Hr) as (s' & ? & ? & ?); [cbn; lia|done|].
  exists s'. split_and!; [done..|]. by eapply same_series_trans.
Qed.

Lemma append_to_empty s ls t v :
  ms_holds s ls -> ms_head s = None -> sample_ok (t, v) -> ls = [] /\ appended s ls t v (ms_append s t v).
Proof.
  intros Hs Hh Hx. assert (ls = []) as ->.
  { apply last_None in Hh. pose proof (mh_chunks _ _ Hs) as Hc. rewrite Hh in Hc. by apply Forall2_nil_inv_l in Hc. }
  split; [done|]. destruct (cut_push s [] t v Hs Hx) as (s1 & Hcut & Hh1 & Hn & s' & Hpush & Hs' & Hsame); [constructor|].
  exists s', true, [[(t, v)]]. unfold ms_append. rewrite Hh, Hcut. cbn [res_bind]. rewrite Hh1. cbn [mc_chunk].
  change (NumSamples NewXORChunk) with (Ok 0). cbn [res_bind mc_maxTime].
  destruct (Z.leb_spec t MinInt64); [destruct Hx as [Ht _]; unfold time_ok, MinInt64 in *; cbn in Ht; lia|].
  change (0 =? samplesPerChunk / 4) with false. cbn [res_bind].
  destruct (Z.leb_spec (ms_nextAt s1) t); [lia|]. cbn [res_bind]. rewrite Hpush. cbn [res_bind].
  split_and!; try done. by left.
Qed.

Lemma first_last (l : list Buffer.sample) x y :
  increasing_times l -> head l = Some x -> last l = Some y -> fst x <= fst y.
Proof.
  intros Hs Hx Hy. destruct l as [|x' l]; [done|]. injection Hx as ->.
  apply StronglySorted_inv in Hs as [_ Hl]. rewrite last_cons in Hy.
  destruct (last l) as [z|] eqn:E; injection Hy as <-; [|lia].
  rewrite Forall_forall in Hl. apply last_Some_elem_of in E. specialize (Hl z E). cbn in Hl. lia.
Qed.

Lemma head_chunk_times s ls c :
  ms_holds s ls -> ms_head s = Some c -> time_ok (mc_minTime c) /\ mc_minTime c <= mc_maxTime c.
Proof.
  intros Hs Hh. destruct (mh_app _ _ Hs c Hh) as (a & l & _ & Hl & _ & _ & Hmin & Hmax).
  apply fmap_Some in Hmin as (x & Hx & ->). apply fmap_Some in Hmax as (y & Hy & ->).
  pose proof (mh_sorted _ _ Hs) as Hsort. pose proof (mh_ok _ _ Hs) as Hok.
  apply last_Some in Hl as [ls0 ->]. rewrite join_app in Hsort, Hok. cbn in Hsort, Hok. rewrite app_nil_r in Hsort, Hok.
  apply increasing_app in Hsort as (_ & Hsort & _). apply Forall_app in Hok as [_ Hok]. split.
  - destruct l; [done|]. injection Hx as ->. by destruct (Forall_inv Hok).
  - by eapply first_last.
Qed.

(** With a last chunk: [append] after the samples is a push, or a cut and a push. *)
Lemma append_next s ls c t v :
  ms_holds s ls -> ms_head s = Some c -> mc_maxTime c < t -> sample_ok (t, v) ->
  (forall l, last ls = Some l -> Z.of_nat (length l) < 65535) ->
  Forall (fun x => fst x < t) (mjoin ls) -> appended s ls t v (ms_append s t v).
Proof.
  intros Hs Hh Hct Hx Hlen Hafter. unfold ms_append. rewrite Hh. cbn [res_bind]. rewrite Hh.
  destruct (mh_app _ _ Hs c Hh) as (a & l & Happ & Hl & He & Hmc & Hmin & Hmax).
  rewrite Hmc, (NumSamples_encodes a l He). cbn [res_bind]. destruct (Z.leb_spec t (mc_maxTime c)); [lia|].
  pose proof (mh_next _ _ Hs c Hh) as [[Hn1 Hn2] Hn3]. pose proof (mh_range _ _ Hs) as Hr. unfold range_ok in Hr.
  assert (Hupd : exists e,
    (if Z.of_nat (length (A := XorChunk.sample) l) =? samplesPerChunk / 4
     then let? e := computeChunkEndTime (mc_minTime c) (mc_maxTime c) (ms_nextAt s) in Ok (set_nextAt s e)
     else Ok s) = Ok (set_nextAt s e) /\ mc_minTime c < e <= ms_nextAt s).
  { destruct (_ =? _); [|exists (ms_nextAt s); split; [by destruct s|lia]].
    destruct (head_chunk_times _ _ _ Hs Hh) as [Ht0 Hle].
    destruct (computeChunkEndTime_ok (mc_minTime c) (mc_maxTime c) (ms_nextAt s)) as (e & -> & ? & _);
      [done|done|lia|lia|]. exists e. split; [done|lia]. }
  destruct Hupd as (e & -> & Hebd). cbn [res_bind].
  assert (Hs2 : ms_holds (set_nextAt s e) ls).
  { apply set_nextAt_holds; [done|]. intros c'. rewrite Hh. by intros [= <-]. }
  destruct (Z.leb_spec (ms_nextAt (set_nextAt s e)) t) as [Hcut|Hpush].
  - destruct (cut_push _ _ t v Hs2 Hx Hafter) as (s1 & -> & _ & _ & s' & Hp & Hs' & Hsame). cbn [res_bind].
    rewrite Hp. cbn [res_bind]. exists s', true, (ls ++ [[(t, v)]]). split_and!; try done. by left.
  - destruct (ready_last _ _ c t Hs2 Hh Hct Hpush) as (ls0 & l' & -> & Hrd). rewrite last_snoc in Hl. injection Hl as ->.
    cbn [res_bind]. destruct (push_ok _ _ _ t v Hrd) as (s' & -> & Hs' & Hsame); [apply Hlen; by rewrite last_snoc|done|].
    cbn [res_bind]. exists s', false, (ls0 ++ [l ++ [(t, v)]]). split_and!; try done. right. split; [done|]. by exists ls0, l.
Qed.

(** The first time of the last chunk is one of the times of the series. *)
Lemma append_ok s ls t v :
  ms_holds s ls -> sample_ok (t, v) -> (forall l, last ls = Some l -> Z.of_nat (length l) < 65535) ->
  if late ls t then ms_append s t v = Ok (s, (false, false)) else appended s ls t v (ms_append s t v).
Proof.
  intros Hs Hx Hlen. destruct (ms_head s) as [c|] eqn:Hh.
  - destruct (mh_app _ _ Hs c Hh) as (a & l & Happ & Hl & He & Hmc & Hmin & Hmax).
    assert (Hne : l <> []) by (by intros ->). apply fmap_Some in Hmax as (x & Hlx & Ex).
    unfold late. rewrite (last_join _ l), Hlx by done. destruct (Z.leb_spec t (fst x)) as [Hle|Hgt].
    + unfold ms_append. rewrite Hh. cbn [res_bind]. rewrite Hh, Hmc, (NumSamples_encodes a l He). cbn [res_bind].
      destruct (Z.leb_spec t (mc_maxTime c)); [done|lia].
    + apply (append_next s ls c t v); try done; [lia|]. apply (after_last _ t x); [apply Hs| |done].
      by rewrite (last_join _ l).
  - destruct (append_to_empty s ls t v Hs Hh Hx) as [-> Ha]. done.
Qed.

(** ** Dropping chunks *)

Lemma chunks_before_spec mint cs :
  Forall (fun c => mc_maxTime c < mint) (take (chunks_before mint cs) cs) /\
  (forall c, head (drop (chunks_before mint cs) cs) = Some c -> mint <= mc_maxTime c).
Proof.
  induction cs as [|c cs [IH1 IH2]]; cbn [chunks_before]; [split; [constructor|done]|].
  destruct (Z.leb_spec mint (mc_maxTime c)); [split; [constructor|by intros c' [= <-]]|].
  split; [by constructor|exact IH2].
Qed.

Lemma last_drop {A} (l : list A) k x : last (drop k l) = Some x -> last l = Some x.
Proof.
  intros Hl. rewrite <- (take_drop k l), last_app. by rewrite Hl.
Qed.

Lemma truncate_ok s ls mint :
  ms_holds s ls ->
  let k := chunks_before mint (ms_chunks s) in
  ms_holds (fst (truncateChunksBefore s mint)) (drop k ls) /\
  Forall (fun x => fst x < mint) (mjoin (take k ls)) /\
  (forall l, head (drop k ls) = Some l -> Exists (fun x => mint <= fst x) l).
Proof.
  intros Hs. cbn zeta. set (k := chunks_before mint (ms_chunks s)).
  pose proof Hs as [Hc Ha Hsort Hok Hbuf Hr Hn Hv].
  assert (Ej : mjoin ls = mjoin (take k ls) ++ mjoin (drop k ls)) by by rewrite <- join_app, take_drop.
  split_and!.
  - unfold truncateChunksBefore. cbn [fst]. fold k. split; cbn [ms_chunks ms_app ms_sampleBuf ms_chunkRange ms_nextAt].
    + by apply Forall2_drop.
    + unfold ms_head. cbn [ms_chunks]. intros c Hl. pose proof (last_drop _ _ _ Hl) as Hl'.
      destruct (Ha c Hl') as (a & l & ? & Hls & ?). exists a, l. split_and!; try done.
      rewrite <- (take_drop k ls), last_app in Hls. destruct (last (drop k ls)) as [l'|] eqn:E; [done|].
      apply last_None in E. apply (Forall2_drop _ _ _ k) in Hc. rewrite E in Hc. apply Forall2_nil_inv_r in Hc.
      by rewrite Hc in Hl.
    + rewrite Ej in Hsort. by apply increasing_app in Hsort as (_ & ? & _).
    + rewrite Ej in Hok. by apply Forall_app in Hok as [_ ?].
    + rewrite Ej in Hbuf. by eapply buffered_drop.
    + done.
    + unfold ms_head. cbn [ms_chunks]. intros c Hl%last_drop. by apply Hn.
    + intros x Hx. apply Hv. by rewrite Ej, last_app, Hx.
  - pose proof (proj1 (chunks_before_spec mint (ms_chunks s))) as Hb. fold k in Hb.
    apply (Forall2_take _ _ _ k) in Hc. rewrite Ej in Hsort. apply increasing_app in Hsort as (Hsort & _ & _).
    clear Ej. revert Hsort Hb. induction Hc as [|c l cs' ls' (a & _ & _ & _ & Hmax) _ IH]; intros Hsort Hb; [constructor|].
    rewrite join_cons in *. apply increasing_app in Hsort as (Hl & Hsort & _). apply Forall_cons in Hb as [Hcm Hb].
    apply Forall_app. split; [|by apply IH]. apply fmap_Some in Hmax as (x & Hx & Ex).
    apply Forall_forall. intros y Hy. destruct l as [|z l] using rev_ind; [done|]. rewrite last_snoc in Hx. injection Hx as ->.
    apply increasing_app in Hl as (_ & _ & Hl). apply elem_of_app in Hy as [Hy|Hy%list_elem_of_singleton].
    + rewrite Forall_forall in Hl. specialize (Hl y Hy). apply Forall_inv in Hl. cbn in Hl. lia.
    + subst. lia.
  - intros l Hl. apply (Forall2_drop _ _ _ k) in Hc. pose proof (proj2 (chunks_before_spec mint (ms_chunks s))) as Hhd.
    fold k in Hhd. destruct Hc as [|c l' cs' ls' (a & _ & _ & _ & Hmax) _]; [done|]. injection Hl as ->.
    specialize (Hhd c eq_refl). apply fmap_Some in Hmax as (x & Hx & Ex). apply Exists_exists. exists x.
    split; [by apply last_Some_elem_of|lia].
Qed.

(** ** Iterating *)

Lemma chunk_iter_gives it l : gives it l -> gives (ChunkIter it) l.
Proof.
  induction 1 as [it it' Hn He|it it' l Hn He Hg IH Hsz].
  - apply (gives_nil _ (ChunkIter it')); [|done].
    change (ci_Next (ChunkIter it)) with (let? (ok, it) := ci_Next it in Ok (ok, ChunkIter it)). by rewrite Hn.
  - change (ci_At it') with (ci_At (ChunkIter it')). apply gives_cons; [|done|done|done].
    change (ci_Next (ChunkIter it)) with (let? (ok, it) := ci_Next it in Ok (ok, ChunkIter it)). by rewrite Hn.
Qed.

Section SafeIterator.
Context (l buf : list Buffer.sample).
Abbreviation n := (length l).
Hypothesis Hbuf : buffered buf l.

(** The last samples come from the buffer: sample [k] of the last four. *)
Lemma buffer_nth k x : l !! k = Some x -> (n - k <= 4)%nat -> nth (4 - (n - k)) buf (0, 0) = x.
Proof using Hbuf.
  intros Hx Hk. pose proof (lookup_lt_Some _ _ _ Hx) as Hlt. destruct Hbuf as [Hl Hb].
  apply nth_lookup_Some.
  assert (E : drop (4 - (n `min` 4)) buf !! (k - (n - (n `min` 4)))%nat = Some x).
  { rewrite Hb, lookup_drop. rewrite <- Hx. f_equal. lia. }
  rewrite lookup_drop in E. rewrite <- E. f_equal. lia.
Qed.

Definition safe_at (it : xorIterator) (k : nat) : ms_iter := SafeIter (mkSafe it (Z.of_nat k - 1) (zlen l) buf).

Lemma safe_Next_step it k :
  (k < n)%nat ->
  ci_Next (safe_at it k) =
    if (n - k <=? 4)%nat then Ok (true, safe_at it (S k))
    else let? (ok, x) := ci_Next it in Ok (ok, safe_at x (S k)).
Proof using Type.
  intros Hk.
  change (ci_Next (safe_at it k)) with
    (let? (ok, it) := sf_Next (mkSafe it (Z.of_nat k - 1) (zlen l) buf) in Ok (ok, SafeIter it)).
  unfold sf_Next. cbn [sf_total sf_i sf_it sf_buf].
  rewrite (proj2 (Z.leb_gt _ _)) by (unfold zlen; lia).
  unfold safe_at. replace (Z.of_nat (S k) - 1) with (Z.of_nat k - 1 + 1) by lia.
  destruct (Nat.leb_spec (n - k) 4).
  - by rewrite (proj2 (Z.ltb_ge _ _)) by (unfold zlen; lia).
  - rewrite (proj2 (Z.ltb_lt _ _)) by (unfold zlen; lia). by destruct (ci_Next it) as [[]| |].
Qed.

Lemma safe_size it k : (k <= n)%nat -> ci_size (safe_at it k) = S (n - k).
Proof using Type. intros Hk. unfold safe_at. cbn -[Z.of_nat]. unfold zlen. lia. Qed.

Lemma safe_end it : ci_Err it = None -> gives (safe_at it n) [].
Proof using Type.
  intros He. apply (gives_nil _ (safe_at it n)); [|done].
  change (ci_Next (safe_at it n)) with
    (let? (ok, it) := sf_Next (mkSafe it (Z.of_nat n - 1) (zlen l) buf) in Ok (ok, SafeIter it)).
  unfold sf_Next. cbn [sf_total sf_i]. by rewrite (proj2 (Z.leb_le _ _)) by (unfold zlen; lia).
Qed.

Lemma safe_gives_buffer it k : (n - k <= 4)%nat -> (k <= n)%nat -> ci_Err it = None -> gives (safe_at it k) (drop k l).
Proof using Hbuf.
  intros Hk Hkn He. remember (n - k)%nat as d eqn:Ed. revert k Ed Hk Hkn.
  induction d as [|d IH]; intros k Ed Hk Hkn.
  { replace k with n by lia. rewrite drop_ge by lia. by apply safe_end. }
  destruct (lookup_lt_is_Some_2 l k) as [x Hx]; [lia|]. rewrite (drop_S _ _ _ Hx).
  assert (Eat : ci_At (safe_at it (S k)) = x).
  { unfold safe_at. cbn -[Z.of_nat]. unfold sf_At. cbn [sf_total sf_i sf_it sf_buf].
    rewrite (proj2 (Z.ltb_ge _ _)) by (unfold zlen; lia). rewrite <- (buffer_nth k x) by (done || lia).
    f_equal. unfold zlen. lia. }
  rewrite <- Eat. apply gives_cons; [|done|apply IH; lia|].
  - rewrite safe_Next_step by lia. by rewrite (proj2 (Nat.leb_le _ _)) by lia.
  - rewrite safe_size, length_drop by lia. lia.
Qed.

Lemma safe_gives it k : ci_Err it = None -> (k <= n)%nat -> gives it (drop k l) -> gives (safe_at it k) (drop k l).
Proof using Hbuf.
  intros He Hkn Hg. destruct (decide (n - k <= 4)%nat) as [|Hfar]; [by apply safe_gives_buffer|].
  remember (drop k l) as r eqn:Er. revert k Er Hkn Hfar He. induction Hg as [it it' Hn He'|it it' r Hn He' Hg IH Hsz];
    intros k Er Hkn Hfar He.
  { apply (f_equal length) in Er. rewrite length_drop in Er. cbn in Er. lia. }
  destruct (lookup_lt_is_Some_2 l k) as [x Hx]; [lia|]. rewrite (drop_S _ _ _ Hx) in Er. injection Er as Ex Er.
  assert (Eat : ci_At (safe_at it' (S k)) = x).
  { unfold safe_at. cbn -[Z.of_nat]. unfold sf_At. cbn [sf_total sf_i sf_it sf_buf].
    rewrite (proj2 (Z.ltb_lt _ _)) by (unfold zlen; lia). done. }
  change (ci_At it') with (xor_At it') in *. replace (xor_At it') with (ci_At (safe_at it' (S k))) by (rewrite Eat; by symmetry).
  apply gives_cons; [|done| |].
  - rewrite safe_Next_step by lia. rewrite (proj2 (Nat.leb_gt _ _)) by lia. by rewrite Hn.
  - destruct (decide (n - S k <= 4)%nat); [rewrite Er; apply safe_gives_buffer; (done || lia)|].
    apply IH; (done || lia).
  - rewrite safe_size by lia. apply (f_equal length) in Er. rewrite length_drop in Er. lia.
Qed.
End SafeIterator.

Lemma Iterator_Err c it : Iterator c = Ok it -> ci_Err it = None.
Proof. unfold Iterator, iterator. by intros (n & _ & [= <-])%res_bind_ok. Qed.

(** The iterator of a chunk gives the samples of the chunk. *)
Lemma ms_iterator_ok s ls i l :
  ms_holds s ls -> ls !! i = Some l -> exists it, ms_iterator s (ms_chunkID s (Z.of_nat i)) = Ok it /\ gives it l.
Proof.
  intros Hs Hl. pose proof Hs as [Hc _ _ _ Hbuf _ _ _]. pose proof (Forall2_length _ _ _ Hc) as Hlen.
  destruct (Forall2_lookup_r _ _ _ _ _ Hc Hl) as (c & Hci & a & Ha & Emc & _ & _).
  pose proof (lookup_lt_Some _ _ _ Hl) as Hlt.
  unfold ms_iterator, ms_chunk, ms_chunkID. rewrite Z.add_simpl_r, Nat2Z.id.
  rewrite (proj2 (Z.ltb_ge _ _)), (proj2 (Z.leb_gt _ _)) by (unfold zlen; lia). cbn [orb]. rewrite Hci, Emc.
  destruct (xor_gives a l Ha) as (it & Hit & Hg). rewrite Hit. cbn [res_bind].
  destruct (Z.ltb_spec (Z.of_nat i) (zlen (ms_chunks s) - 1)) as [Hi|Hi].
  - eexists. split; [done|]. by apply chunk_iter_gives.
  - rewrite (NumSamples_encodes a l Ha). cbn [res_bind]. eexists. split; [done|].
    apply (safe_gives l (ms_sampleBuf s)) with (k := 0%nat) (it := it).
    + assert (Els : ls = take i ls ++ [l]).
      { rewrite <- (take_drop_middle ls i l Hl) at 1. rewrite drop_ge by (unfold zlen in Hi; lia). done. }
      rewrite Els, join_app in Hbuf. apply buffered_drop in Hbuf. cbn in Hbuf. by rewrite app_nil_r in Hbuf.
    + by eapply Iterator_Err.
    + lia.
    + done.
Qed.

(** ** Sequences of appends *)

Fixpoint ms_appends (s : memSeries) (xs : list Buffer.sample) : res memSeries :=
  match xs with
  | [] => Ok s
  | x :: xs => let? (s, _) := ms_append s (fst x) (snd x) in ms_appends s xs
  end.

(** The specification: a sample is accepted if it is later than all accepted before. *)
Definition accept (acc : list Buffer.sample) (x : Buffer.sample) : list Buffer.sample :=
  match last acc with
  | Some y => if fst x <=? fst y then acc else acc ++ [x]
  | None => acc ++ [x]
  end.

(** What an appender says of a sample: it must not be earlier than the last one,
    and may only repeat it exactly. *)
Definition admits (acc : list Buffer.sample) (x : Buffer.sample) : res unit :=
  match last acc with
  | Some y =>
      if fst y <? fst x then Ok ()
      else if fst x <? fst y then Err ErrOutOfOrderSample
      else if negb (snd y =? snd x) then Err ErrAmendSample
      else Ok ()
  | None => Ok ()
  end.

Lemma appendable_ok s ls t v : ms_holds s ls -> appendable s t v = admits (mjoin ls) (t, v).
Proof.
  intros Hs. unfold appendable, admits. destruct (ms_head s) as [c|] eqn:Hh.
  - destruct (mh_app _ _ Hs c Hh) as (a & l & _ & Hl & _ & _ & _ & (x & Hx & ->)%fmap_Some).
    assert (Hlast : last (mjoin ls) = Some x) by (rewrite (last_join _ l); [done|done|by intros ->]).
    by rewrite (mh_value _ _ Hs x), Hlast.
  - apply last_None in Hh. pose proof (mh_chunks _ _ Hs) as Hc. rewrite Hh in Hc. by apply Forall2_nil_inv_l in Hc as ->.
Qed.

Lemma new_holds lset id w : range_ok w -> ms_holds (newMemSeries lset id w) [].
Proof. intros Hw. split; try done; cbn; constructor. Qed.

Lemma appended_join s ls t v r :
  appended s ls t v r -> exists s' b ls', r = Ok (s', b) /\ ms_holds s' ls' /\ same_series s s' /\ mjoin ls' = mjoin ls ++ [(t, v)].
Proof.
  intros (s' & created & ls' & -> & Hs' & Hsame & [[_ ->]|[_ (ls0 & l & -> & ->)]]);
    exists s', (true, created); eexists; (split_and!; [done|done|done|]).
  - rewrite join_app. cbn. done.
  - apply join_snoc.
Qed.

(** One append, as a step of the specification. *)
Lemma append_accept s ls t v :
  ms_holds s ls -> sample_ok (t, v) -> Z.of_nat (length (mjoin ls)) < 65535 ->
  exists s' b ls', ms_append s t v = Ok (s', b) /\ ms_holds s' ls' /\ same_series s s' /\
    mjoin ls' = accept (mjoin ls) (t, v).
Proof.
  intros Hs Hx Hlen. pose proof (append_ok s ls t v Hs Hx) as Ha.
  assert (Hl : forall l, last ls = Some l -> Z.of_nat (length l) < 65535).
  { intros l [ls0 ->]%last_Some. rewrite join_app, length_app in Hlen. cbn in Hlen. rewrite app_nil_r in Hlen. lia. }
  specialize (Ha Hl). unfold late in Ha. unfold accept. destruct (last (mjoin ls)) as [y|] eqn:E.
  - cbn [fst]. destruct (t <=? fst y); [exists s, (false, false), ls; by split_and!|by apply appended_join].
  - by apply appended_join.
Qed.

Lemma accept_length acc x : (length (accept acc x) <= length acc + 1)%nat.
Proof. unfold accept. repeat case_match; rewrite ?length_app; cbn; lia. Qed.

Lemma appends_accept s ls xs :
  ms_holds s ls -> Forall sample_ok xs -> Z.of_nat (length (mjoin ls) + length xs) <= 65535 ->
  exists s' ls', ms_appends s xs = Ok s' /\ ms_holds s' ls' /\ same_series s s' /\
    mjoin ls' = foldl accept (mjoin ls) xs.
Proof.
  intros Hs Hxs. revert s ls Hs. induction Hxs as [|[t v] xs Hx _ IH]; intros s ls Hs Hlen.
  - by exists s, ls.
  - cbn [length] in Hlen. destruct (append_accept s ls t v Hs Hx) as (s1 & b & ls1 & Ha & Hs1 & Hsame & Ej); [lia|].
    cbn [ms_appends fst snd]. rewrite Ha. cbn [res_bind]. pose proof (accept_length (mjoin ls) (t, v)) as Hal.
    destruct (IH s1 ls1 Hs1) as (s' & ls' & ? & ? & ? & Ej'); [rewrite Ej; lia|].
    exists s', ls'. split_and!; [done|done|by eapply same_series_trans|]. by rewrite Ej', Ej.
Qed.

Lemma pack_unpack s c : 0 <= s < 2 ^ 40 -> 0 <= c < 2 ^ 24 ->
  exists id, packChunkID s c = Ok id /\ unpackChunkID id = (s, c) /\ is_u64 id.
Proof.
  intros Hs Hc. unfold packChunkID. rewrite (proj2 (Z.ltb_ge _ _)), (proj2 (Z.ltb_ge _ _)) by lia.
  assert (E : shlU 64 s 24 = s * 2 ^ 24).
  { unfold shlU. cbn [Z.ltb]. rewrite Z.shiftl_mul_pow2 by lia. apply wrapU_small. unfold is_u. lia. }
  exists (Z.lor (shlU 64 s 24) c). rewrite E.
  assert (El : Z.lor (s * 2 ^ 24) c = s * 2 ^ 24 + c) by (apply lor_add; lia).
  rewrite El. split; [done|]. split; [|unfold is_u; lia]. unfold unpackChunkID, shrU, shlU. cbn [Z.ltb].
  rewrite !Z.shiftr_div_pow2, Z.shiftl_mul_pow2 by lia. f_equal.
  - symmetry. apply (Z.div_unique _ _ _ c); lia.
  - change (40 <? 64) with true. cbn match. unfold wrapU. replace (2 ^ 64) with (2 ^ 24 * 2 ^ 40) by done.
    rewrite Zmult_mod_distr_r, Z.div_mul by lia. symmetry. apply (Z.mod_unique _ _ s); lia.
Qed.

(** * Main theorems *)

(** C33: a series in memory holds exactly what was appended.  After any sequence
    of appends the chunks of the series hold, in order, the samples that were
    later than all accepted before them (an out-of-order or repeated time changes
    nothing), cut wherever a chunk is full; no append panics; and the iterator of
    every chunk, the buffered one of the last chunk included, gives the chunk's
    samples.  Times stay within 2^61 and the chunk range within 2^59 of zero, and
    there are fewer samples than the 65536 a chunk can count (nothing else keeps
    a chunk below that number). *)
Theorem memSeries_holds_appended (lset : Labels) (id w : Z) (xs : list Buffer.sample) :
  range_ok w -> Forall sample_ok xs -> Z.of_nat (length xs) <= 65535 ->
  exists s ls, ms_appends (newMemSeries lset id w) xs = Ok s /\ mjoin ls = foldl accept [] xs /\
    increasing_times (mjoin ls) /\ length (ms_chunks s) = length ls /\
    forall i l, ls !! i = Some l -> exists it, ms_iterator s (ms_chunkID s (Z.of_nat i)) = Ok it /\ gives it l.
Proof.
  intros Hw Hxs Hlen.
  destruct (appends_accept _ [] xs (new_holds lset id w Hw) Hxs) as (s & ls & Ha & Hs & _ & Ej); [cbn; lia|].
  exists s, ls. split_and!; [done|done|apply Hs|by eapply Forall2_length, Hs|]. intros i l Hl. by apply ms_iterator_ok with (ls := ls).
Qed.

Lemma memSeries_holds_appended_witness :
  exists s ls, ms_appends (newMemSeries [("a", "1")]%string 7 100) [(10, 1); (20, 2); (20, 3); (15, 4); (150, 5)] = Ok s /\
    mjoin ls = [(10, 1); (20, 2); (150, 5)] /\ increasing_times (mjoin ls) /\ length (ms_chunks s) = length ls /\
    forall i l, ls !! i = Some l -> exists it, ms_iterator s (ms_chunkID s (Z.of_nat i)) = Ok it /\ gives it l.
Proof.
  apply (memSeries_holds_appended [("a", "1")]%string 7 100 [(10, 1); (20, 2); (20, 3); (15, 4); (150, 5)]).
  - unfold range_ok. lia.
  - unfold sample_ok, time_ok, is_u. repeat constructor; cbn; lia.
  - cbn. lia.
Defined.

(** C37: [truncateChunksBefore] drops whole chunks from the front, only chunks
    with nothing at or after [mint], and as many as possible; ids of the
    remaining chunks do not change and their samples stay. *)
Theorem truncateChunksBefore_correct (s : memSeries) (ls : list (list Buffer.sample)) (mint : Z) :
  ms_holds s ls ->
  let (s', k) := truncateChunksBefore s mint in
  ms_holds s' (drop (Z.to_nat k) ls) /\ Forall (fun x => fst x < mint) (mjoin (take (Z.to_nat k) ls)) /\
  (forall l, head (drop (Z.to_nat k) ls) = Some l -> Exists (fun x => mint <= fst x) l) /\
  (forall i, (Z.to_nat k <= i)%nat -> ms_chunk s' (ms_chunkID s (Z.of_nat i)) = ms_chunk s (ms_chunkID s (Z.of_nat i))).
Proof.
  intros Hs. pose proof (truncate_ok s ls mint Hs) as (H1 & H2 & H3). unfold truncateChunksBefore in *. cbn [fst] in *.
  rewrite Nat2Z.id. split_and!; [done..|]. intros i Hi. unfold ms_chunk, ms_chunkID. cbn [ms_chunks ms_firstChunkID].
  set (k := chunks_before mint (ms_chunks s)) in *. unfold zlen. rewrite length_drop.
  replace (Z.of_nat i + ms_firstChunkID s - (ms_firstChunkID s + Z.of_nat k)) with (Z.of_nat (i - k)) by lia.
  replace (Z.of_nat i + ms_firstChunkID s - ms_firstChunkID s) with (Z.of_nat i) by lia.
  rewrite !(proj2 (Z.ltb_ge _ _)), !Nat2Z.id, lookup_drop by lia. cbn [orb].
  replace (k + (i - k))%nat with i by lia. destruct (Z.leb_spec (Z.of_nat (length (ms_chunks s) - k)) (Z.of_nat (i - k))).
  - rewrite (proj2 (Z.leb_le _ _)) by lia. done.
  - rewrite (proj2 (Z.leb_gt _ _)) by lia. done.
Qed.

Lemma truncateChunksBefore_correct_witness :
  exists s ls, ms_appends (newMemSeries [] 7 100) [(10, 1); (20, 2); (150, 5)] = Ok s /\
    mjoin ls = [(10, 1); (20, 2); (150, 5)] /\
    let (s', k) := truncateChunksBefore s 120 in
    ms_holds s' (drop (Z.to_nat k) ls) /\ Forall (fun x => fst x < 120) (mjoin (take (Z.to_nat k) ls)) /\
    (forall l, head (drop (Z.to_nat k) ls) = Some l -> Exists (fun x => 120 <= fst x) l) /\
    (forall i, (Z.to_nat k <= i)%nat -> ms_chunk s' (ms_chunkID s (Z.of_nat i)) = ms_chunk s (ms_chunkID s (Z.of_nat i))).
Proof.
  destruct (appends_accept (newMemSeries [] 7 100) [] [(10, 1); (20, 2); (150, 5)]) as (s & ls & Ha & Hs & _ & Ej).
  - apply new_holds. unfold range_ok. lia.
  - unfold sample_ok, time_ok, is_u. repeat constructor; cbn; lia.
  - cbn. lia.
  - exists s, ls. split; [exact Ha|]. split; [exact Ej|]. apply (truncateChunksBefore_correct s ls 120 Hs).
Defined.
