(* ===== verification/Head.v ===== *)
(** head.go: the in-memory block.  Series are shared between the two maps and
    the appenders, so they live in a heap and are referred to by location. *)
From S2P Require Import Prelude Order Labels Tombstones Records Postings MemPostings XorChunk Chunks Buffer SeriesIter Querier MemSeries.
#[local] Open Scope list_scope.
#[local] Open Scope Z_scope.

(** * State *)

(** [wal.WAL.Log] of one record; an error may have written part of it. *)
Class WAL (W : Type) := wal_Log : W -> list Z -> W * option error.

Abbreviation loc := nat.

Record Head (W : Type) := mkHead {
  h_chunkRange : Z;
  h_wal : option W;
  h_minTime : Z;
  h_maxTime : Z;
  h_lastSeriesID : Z;
  h_heap : list memSeries;
  h_series : gmap Z loc;          (* stripeSeries.series, of all stripes *)
  h_hashes : gmap Z (list loc);   (* stripeSeries.hashes, of all stripes *)
  h_symbols : gset string;
  h_values : gmap string (gset string);
  h_postings : MemPostings;
  h_tombstones : memTombstones;
}.
Arguments mkHead {W}.
Arguments h_chunkRange {W}.
Arguments h_wal {W}.
Arguments h_minTime {W}.
Arguments h_maxTime {W}.
Arguments h_lastSeriesID {W}.
Arguments h_heap {W}.
Arguments h_series {W}.
Arguments h_hashes {W}.
Arguments h_symbols {W}.
Arguments h_values {W}.
Arguments h_postings {W}.
Arguments h_tombstones {W}.

(** [clampInterval] of block.go. *)
Definition clampInterval (a b mint maxt : Z) : Z * Z :=
  (if a <? mint then mint else a, if maxt <? b then maxt else b).

(** A sample to be committed, with its series. *)
Record headAppender := mkAppender {
  ap_minValidTime : Z; ap_mint : Z; ap_maxt : Z;
  ap_series : list RefSeries; ap_samples : list (RefSample * loc) }.

(** The implementations of [Appender]. *)
Inductive Appender := AInit (app : option headAppender) | AHead (app : headAppender).

(** The body of the loop over the labels in [getOrCreateWithID]. *)
Definition add_value (v : gmap string (gset string)) (l : Label) : gmap string (gset string) :=
  <[fst l := {[snd l]} ∪ default ∅ (v !! fst l)]> v.

Section Head.
Context {W : Type} `{WAL W}.
(** xxhash. *)
Context (Sum64 : list Z -> Z).

Abbreviation Head := (Head W).

Definition NewHead (wal : option W) (chunkRange : Z) : res Head :=
  if chunkRange <? 1 then Err (ErrMsg "invalid chunk range")
  else Ok (mkHead chunkRange wal MaxInt64 MinInt64 0 [] ∅ ∅ ∅ ∅ NewUnorderedMemPostings NewMemTombstones).

Definition with_wal (h : Head) (w : W) : Head :=
  mkHead (h_chunkRange h) (Some w) (h_minTime h) (h_maxTime h) (h_lastSeriesID h) (h_heap h) (h_series h)
    (h_hashes h) (h_symbols h) (h_values h) (h_postings h) (h_tombstones h).
Definition with_times (h : Head) (mint maxt : Z) : Head :=
  mkHead (h_chunkRange h) (h_wal h) mint maxt (h_lastSeriesID h) (h_heap h) (h_series h)
    (h_hashes h) (h_symbols h) (h_values h) (h_postings h) (h_tombstones h).
Definition with_lastID (h : Head) (id : Z) : Head :=
  mkHead (h_chunkRange h) (h_wal h) (h_minTime h) (h_maxTime h) id (h_heap h) (h_series h)
    (h_hashes h) (h_symbols h) (h_values h) (h_postings h) (h_tombstones h).
Definition with_series (h : Head) (heap : list memSeries) (series : gmap Z loc) (hashes : gmap Z (list loc)) : Head :=
  mkHead (h_chunkRange h) (h_wal h) (h_minTime h) (h_maxTime h) (h_lastSeriesID h) heap series
    hashes (h_symbols h) (h_values h) (h_postings h) (h_tombstones h).
Definition with_heap (h : Head) (heap : list memSeries) : Head := with_series h heap (h_series h) (h_hashes h).
Definition with_index (h : Head) (symbols : gset string) (values : gmap string (gset string)) (p : MemPostings) : Head :=
  mkHead (h_chunkRange h) (h_wal h) (h_minTime h) (h_maxTime h) (h_lastSeriesID h) (h_heap h) (h_series h)
    (h_hashes h) symbols values p (h_tombstones h).
Definition with_tombstones (h : Head) (t : memTombstones) : Head :=
  mkHead (h_chunkRange h) (h_wal h) (h_minTime h) (h_maxTime h) (h_lastSeriesID h) (h_heap h) (h_series h)
    (h_hashes h) (h_symbols h) (h_values h) (h_postings h) t.

(** * Series maps *)

(** Both are updates of an atomic: compare and swap until it succeeds. *)
Definition updateMinMaxTime (h : Head) (mint maxt : Z) : Head :=
  with_times h (if h_minTime h <=? mint then h_minTime h else mint)
    (if maxt <=? h_maxTime h then h_maxTime h else maxt).

Definition getByID (h : Head) (id : Z) : option loc := h_series h !! id.

Definition series_at (h : Head) (l : loc) : option memSeries := h_heap h !! l.

Definition lset_at (h : Head) (l : loc) : Labels :=
  match series_at h l with Some s => ms_lset s | None => [] end.

(** [seriesHashmap.get], [set] and [del] on the list of a hash. *)
Fixpoint hm_get (h : Head) (l : list loc) (lset : Labels) : option loc :=
  match l with
  | [] => None
  | s :: l => if labels_Equals (lset_at h s) lset then Some s else hm_get h l lset
  end.

Fixpoint hm_set (h : Head) (l : list loc) (s : loc) (lset : Labels) : list loc :=
  match l with
  | [] => [s]
  | prev :: l => if labels_Equals (lset_at h prev) lset then s :: l else prev :: hm_set h l s lset
  end.

Definition hm_del (h : Head) (l : list loc) (lset : Labels) : list loc :=
  filter (fun s => labels_Equals (lset_at h s) lset = false) l.

Definition hash_list (h : Head) (hash : Z) : list loc := default [] (h_hashes h !! hash).

Definition getByHash (h : Head) (hash : Z) (lset : Labels) : option loc := hm_get h (hash_list h hash) lset.

(** [getOrSet]: the new series gets a location only if it is kept. *)
Definition getOrSet (h : Head) (hash : Z) (s : memSeries) : Head * loc * bool :=
  match hm_get h (hash_list h hash) (ms_lset s) with
  | Some prev => (h, prev, false)
  | None =>
      let l := length (h_heap h) in
      let h' := with_heap h (h_heap h ++ [s]) in
      (with_series h' (h_heap h') (<[ms_ref s := l]> (h_series h))
         (<[hash := hm_set h' (hash_list h hash) l (ms_lset s)]> (h_hashes h)), l, true)
  end.

Definition getOrCreateWithID (h : Head) (id hash : Z) (lset : Labels) : Head * loc * bool :=
  let '(h, s, created) := getOrSet h hash (newMemSeries lset id (h_chunkRange h)) in
  if negb created then (h, s, false)
  else
    (with_index h (list_to_set (lset.*1 ++ lset.*2) ∪ h_symbols h) (foldl add_value (h_values h) lset)
       (mp_Add id lset (h_postings h)), s, true).

Definition labels_hash (lset : Labels) : Z := labels_Hash Sum64 lset.

Definition getOrCreate (h : Head) (hash : Z) (lset : Labels) : Head * loc * bool :=
  match getByHash h hash lset with
  | Some s => (h, s, false)
  | None =>
      let id := u64 (h_lastSeriesID h + 1) in
      getOrCreateWithID (with_lastID h id) id hash lset
  end.

Definition set_series (h : Head) (l : loc) (s : memSeries) : Head := with_heap h (<[l := s]> (h_heap h)).

(** * Appending *)

Definition initTime (h : Head) (t : Z) : Head * bool :=
  if negb (h_minTime h =? MaxInt64) then (h, false)
  else (with_times h t (if h_maxTime h =? MinInt64 then t else h_maxTime h), true).

Definition appender (h : Head) : headAppender :=
  mkAppender (i64 (h_maxTime h - Z.quot (h_chunkRange h) 2)) MaxInt64 MinInt64 [] [].

Definition h_Appender (h : Head) : Appender :=
  if h_minTime h =? MaxInt64 then AInit None else AHead (appender h).

Definition a_AddFast (h : Head) (a : headAppender) (ref t : Z) (v : float64) : Head * headAppender * option error :=
  if t <? ap_minValidTime a then (h, a, Some ErrOutOfBounds)
  else match getByID h ref with
  | None => (h, a, Some ErrNotFound)
  | Some l =>
      match series_at h l with
      | None => (h, a, Some ErrNotFound)
      | Some s =>
          match appendable s t v with
          | Err e => (h, a, Some e)
          | _ =>
              let h := set_series h l (set_pending s true) in
              (h, mkAppender (ap_minValidTime a) (if t <? ap_mint a then t else ap_mint a)
                    (if ap_maxt a <? t then t else ap_maxt a) (ap_series a)
                    (ap_samples a ++ [(mkRefSample ref t v, l)]), None)
          end
      end
  end.

Definition ref_at (h : Head) (l : loc) : Z := match series_at h l with Some s => ms_ref s | None => 0 end.

(** [Add] returns the reference also with the error of [AddFast]. *)
Definition a_Add (h : Head) (a : headAppender) (lset : Labels) (t : Z) (v : float64) :
    Head * headAppender * (Z * option error) :=
  if t <? ap_minValidTime a then (h, a, (0, Some ErrOutOfBounds))
  else
    let '(h, s, created) := getOrCreate h (labels_hash lset) lset in
    let ref := ref_at h s in
    let a := if created
             then mkAppender (ap_minValidTime a) (ap_mint a) (ap_maxt a) (ap_series a ++ [mkRefSeries ref lset]) (ap_samples a)
             else a in
    let '(h, a, e) := a_AddFast h a ref t v in
    (h, a, (ref, e)).

(** [log]: first the series, then the samples. *)
Definition a_log (h : Head) (a : headAppender) : Head * option error :=
  match h_wal h with
  | None => (h, None)
  | Some w =>
      let '(w, e) := if (0 <? length (ap_series a))%nat then wal_Log w (Enc_Series (ap_series a) []) else (w, None) in
      match e with
      | Some e => (with_wal h w, Some e)
      | None =>
          let '(w, e) := if (0 <? length (ap_samples a))%nat
                         then wal_Log w (Enc_Samples (fst <$> ap_samples a) []) else (w, None) in
          (with_wal h w, e)
      end
  end.

(** The loop of [Commit]: a series is appended to wherever it is by now. *)
Fixpoint commit_samples (h : Head) (samples : list (RefSample * loc)) : res Head :=
  match samples with
  | [] => Ok h
  | (x, l) :: samples =>
      match series_at h l with
      | None => Panic
      | Some s =>
          let? (s, _) := ms_append s (s_T x) (s_V x) in
          commit_samples (set_series h l (set_pending s false)) samples
      end
  end.

(** When the log fails nothing is appended, and the series stay marked as having
    pending samples. *)
Definition a_Commit (h : Head) (a : headAppender) : res (Head * option error) :=
  let '(h, e) := a_log h a in
  match e with
  | Some e => Ok (h, Some e)
  | None =>
      let? h := commit_samples h (ap_samples a) in
      Ok (updateMinMaxTime h (ap_mint a) (ap_maxt a), None)
  end.

Definition a_Rollback (h : Head) (a : headAppender) : Head * option error :=
  let h := foldl (fun h x => match series_at h (snd x) with
                             | Some s => set_series h (snd x) (set_pending s false)
                             | None => h
                             end) h (ap_samples a) in
  a_log h (mkAppender (ap_minValidTime a) (ap_mint a) (ap_maxt a) (ap_series a) []).

(** ** initAppender and the [Appender] interface *)

Definition Add (h : Head) (a : Appender) (lset : Labels) (t : Z) (v : float64) : Head * Appender * (Z * option error) :=
  match a with
  | AHead app => let '(h, app, r) := a_Add h app lset t v in (h, AHead app, r)
  | AInit (Some app) => let '(h, app, r) := a_Add h app lset t v in (h, AInit (Some app), r)
  | AInit None =>
      let h := fst (initTime h t) in
      let '(h, app, r) := a_Add h (appender h) lset t v in (h, AInit (Some app), r)
  end.

Definition AddFast (h : Head) (a : Appender) (ref t : Z) (v : float64) : Head * Appender * option error :=
  match a with
  | AHead app => let '(h, app, r) := a_AddFast h app ref t v in (h, AHead app, r)
  | AInit (Some app) => let '(h, app, r) := a_AddFast h app ref t v in (h, AInit (Some app), r)
  | AInit None => (h, a, Some ErrNotFound)
  end.

Definition Commit (h : Head) (a : Appender) : res (Head * option error) :=
  match a with
  | AHead app | AInit (Some app) => a_Commit h app
  | AInit None => Ok (h, None)
  end.

Definition Rollback (h : Head) (a : Appender) : Head * option error :=
  match a with
  | AHead app | AInit (Some app) => a_Rollback h app
  | AInit None => (h, None)
  end.

(** * Reading *)

Record headIndexReader := mkHeadIndex { hi_head : Head; hi_mint : Z; hi_maxt : Z }.
Record headChunkReader := mkHeadChunks { hc_head : Head; hc_mint : Z; hc_maxt : Z }.

Definition indexRange (h : Head) (mint maxt : Z) : headIndexReader :=
  mkHeadIndex h (if mint <? h_minTime h then h_minTime h else mint) maxt.
Definition chunksRange (h : Head) (mint maxt : Z) : headChunkReader :=
  mkHeadChunks h (if mint <? h_minTime h then h_minTime h else mint) maxt.
Definition h_Index (h : Head) : headIndexReader := indexRange h MinInt64 MaxInt64.
Definition h_Chunks (h : Head) : headChunkReader := chunksRange h MinInt64 MaxInt64.

Definition hi_Symbols (r : headIndexReader) : gset string := h_symbols (hi_head r).

(** The values of a label, sorted. *)
Definition hi_values (r : headIndexReader) (name : string) : list string :=
  sort_by id str_cmp (elements (default ∅ (h_values (hi_head r) !! name))).

Definition hi_LabelValues (r : headIndexReader) (names : list string) : res StringTuples :=
  match names with
  | [name] =>
      let sl := hi_values r name in
      Ok (mkStringTuples (length sl) (fun i => match sl !! i with Some v => Ok [v] | None => Panic end))
  | _ => Err ErrInvalidSize
  end.

(** [LabelIndices] for an iteration order of the map of values. *)
Definition hi_LabelIndices (order : list string) : list (list string) := (fun s => [s]) <$> order.

Definition hi_Postings (r : headIndexReader) (name value : string) : Postings := mp_Get (h_postings (hi_head r)) name value.

(** The labels of a reference; an id without a series, which a concurrent
    deletion can leave behind, has none. *)
Definition lset_of (h : Head) (id : Z) : Labels :=
  match getByID h id with Some l => lset_at h l | None => [] end.

Definition hi_SortedPostings (r : headIndexReader) (p : Postings) : Postings :=
  let '(ep, e) := Expand p in
  match e with
  | Some e => of_err (ErrPostings e)
  | None => of_list (sort_by (lset_of (hi_head r)) labels_cmp ep)
  end.

(** The chunks of a series in the reader's range, by position. *)
Fixpoint exposed {C} (mint maxt : Z) (s : memSeries) (i : Z) (cs : list memChunk) : res (list (Meta C)) :=
  match cs with
  | [] => Ok []
  | c :: cs =>
      if negb (mc_Overlaps c mint maxt) then exposed mint maxt s (i + 1) cs
      else
        let? ref := packChunkID (ms_ref s) (u64 (ms_chunkID s i)) in
        let? rest := exposed mint maxt s (i + 1) cs in
        Ok (mkMeta ref None (mc_minTime c) (mc_maxTime c) :: rest)
  end.

Definition hi_Series {C} (r : headIndexReader) (ref : Z) : res (Labels * list (Meta C)) :=
  match getByID (hi_head r) ref with
  | None => Err ErrNotFound
  | Some l =>
      match series_at (hi_head r) l with
      | None => Err ErrNotFound
      | Some s => let? chks := exposed (hi_mint r) (hi_maxt r) s 0 (ms_chunks s) in Ok (ms_lset s, chks)
      end
  end.

#[export] Instance head_index_reader : IndexReader headIndexReader safeChunk := {|
  ix_LabelValues r name := hi_LabelValues r [name];
  ix_Postings r name v := Ok (hi_Postings r name v);
  ix_SortedPostings := hi_SortedPostings;
  ix_Series := hi_Series;
|}.

Definition hc_Chunk (r : headChunkReader) (ref : Z) : res safeChunk :=
  let '(sid, cid) := unpackChunkID ref in
  match getByID (hc_head r) sid with
  | None => Err ErrNotFound
  | Some l =>
      match series_at (hc_head r) l with
      | None => Err ErrNotFound
      | Some s =>
          match ms_chunk s (i64 cid) with
          | Some c => if negb (mc_Overlaps c (hc_mint r) (hc_maxt r)) then Err ErrNotFound else Ok (mkSafeChunk s (i64 cid))
          | None => Err ErrNotFound
          end
      end
  end.

#[export] Instance head_chunk_reader : ChunkReader headChunkReader safeChunk := hc_Chunk.

(** The head as a block, for a time range. *)
Record rangeHead := mkRangeHead { rh_head : Head; rh_mint : Z; rh_maxt : Z }.

Definition rh_Index (r : rangeHead) : res headIndexReader := Ok (indexRange (rh_head r) (rh_mint r) (rh_maxt r)).
Definition rh_Chunks (r : rangeHead) : res headChunkReader := Ok (chunksRange (rh_head r) (rh_mint r) (rh_maxt r)).
Definition rh_Tombstones (r : rangeHead) : res memTombstones := Ok (h_tombstones (rh_head r)).

(** [NewBlockQuerier] of a head. *)
Definition head_querier (h : Head) (mint maxt : Z) :
    res (blockQuerier (IX := headIndexReader) (CR := headChunkReader) (TR := memTombstones)) :=
  let r := mkRangeHead h mint maxt in
  NewBlockQuerier (rh_Index r) (rh_Chunks r) (rh_Tombstones r) mint maxt.

(** * Deleting *)

(** The loop over the postings of the series to delete from; an id without a
    series would be a nil pointer. *)
Fixpoint delete_stones (h : Head) (mint maxt : Z) (ids : list Z) : res (list Stone) :=
  match ids with
  | [] => Ok []
  | id :: ids =>
      match getByID h id with
      | None => Panic
      | Some l =>
          match series_at h l with
          | None => Panic
          | Some s =>
              let t0 := ms_minTime s in
              let t1 := ms_maxTime s in
              let? stones := delete_stones h mint maxt ids in
              if (t0 =? MinInt64) || (t1 =? MinInt64) then Ok stones
              else
                let '(t0, t1) := clampInterval mint maxt t0 t1 in
                Ok (mkStone id [mkInterval t0 t1] :: stones)
          end
      end
  end.

Definition h_Delete (h : Head) (mint maxt : Z) (ms : list Matcher) : res (Head * option error) :=
  let '(mint, maxt) := clampInterval mint maxt (h_minTime h) (h_maxTime h) in
  let ir := indexRange h mint maxt in
  match PostingsForMatchers ir ms with
  | Panic => Panic
  | Err e => Ok (h, Some e)
  | Ok p =>
      let '(ids, e) := Expand p in
      let? stones := delete_stones h mint maxt ids in
      match e with
      | Some e => Ok (h, Some e)
      | None =>
          let '(h, e) := match h_wal h with
                         | None => (h, None)
                         | Some w => let '(w, e) := wal_Log w (Enc_Tombstones stones []) in (with_wal h w, e)
                         end in
          match e with
          | Some e => Ok (h, Some e)
          | None =>
              Ok (with_tombstones h
                    (foldl (fun t s => addInterval t (st_ref s) (st_intervals s)) (h_tombstones h) stones), None)
          end
      end
  end.

(** * Garbage collection *)

(** [stripeSeries.gc] for one series, with what is deleted and removed so far. *)
Definition gc_series (mint hash : Z) (st : Head * (gset Z * Z)) (l : loc) : Head * (gset Z * Z) :=
  let '(h, (deleted, rmChunks)) := st in
  match series_at h l with
  | None => st
  | Some s =>
      let '(s, k) := truncateChunksBefore s mint in
      let h := set_series h l s in
      if (0 <? length (ms_chunks s))%nat || ms_pendingCommit s then (h, (deleted, rmChunks + k))
      else
        let rem := hm_del h (hash_list h hash) (ms_lset s) in
        let hashes := match rem with [] => delete hash (h_hashes h) | _ => <[hash := rem]> (h_hashes h) end in
        (with_series h (h_heap h) (delete (ms_ref s) (h_series h)) hashes, ({[ms_ref s]} ∪ deleted, rmChunks + k))
  end.

(** [order] is the order in which the stripes and their maps of hashes are gone
    through; the list of a hash is the one found when its turn comes. *)
Definition series_gc (h : Head) (mint : Z) (order : list Z) : Head * (gset Z * Z) :=
  foldl (fun st hash => foldl (gc_series mint hash) st (hash_list (fst st) hash)) (h, (∅, 0)) order.

(** The callback of [postings.Iter]: symbols and values in use. *)
Definition gc_values (st : gset string * gmap string (gset string)) (t : Label) :
    gset string * gmap string (gset string) :=
  ({[fst t; snd t]} ∪ fst st, add_value (snd st) t).

(** [hashes] and [keys] are iteration orders of the map of hashes and of the map
    of postings. *)
Definition h_gc (h : Head) (hashes : list Z) (keys : list Label) : Head :=
  let mint := h_minTime h in
  let '(h, (deleted, _)) := series_gc h mint hashes in
  let p := mp_Delete keys deleted (h_postings h) in
  let '(symbols, values) := foldl gc_values (∅, ∅) (map_to_list (mp_m p)).*1 in
  with_index h symbols values p.

(** The part of [Truncate] before the write-ahead log's: the new time bounds, and
    the garbage collection unless the head was not initialized. *)
Definition Truncate (h : Head) (mint : Z) (hashes : list Z) (keys : list Label) : Head :=
  let initialize := h_minTime h =? MaxInt64 in
  if (mint <=? h_minTime h) && negb initialize then h
  else
    let h := with_times h mint (if h_maxTime h <? mint then mint else h_maxTime h) in
    if initialize then h else h_gc h hashes keys.

(** * Reading back the write-ahead log *)

(** [processWALSamples].  The workers divide the series among them, so that each
    sees the samples of its series in the order of the log; together they do what
    this loop does: the head, the count of unknown references and the times.  A worker
    can come to samples only after later records have been decoded; that makes no
    difference as long as the record of a series comes before its samples. *)
Fixpoint processWALSamples (h : Head) (minValidTime : Z) (samples : list RefSample) (unknownRefs mint maxt : Z) :
    res (Head * Z * Z * Z) :=
  match samples with
  | [] => Ok (h, unknownRefs, mint, maxt)
  | x :: samples =>
      if s_T x <? minValidTime then processWALSamples h minValidTime samples unknownRefs mint maxt
      else match getByID h (s_Ref x) with
      | None => processWALSamples h minValidTime samples (unknownRefs + 1) mint maxt
      | Some l =>
          match series_at h l with
          | None => Panic
          | Some s =>
              let? (s, _) := ms_append s (s_T x) (s_V x) in
              processWALSamples (set_series h l s) minValidTime samples unknownRefs
                (if s_T x <? mint then s_T x else mint) (if maxt <? s_T x then s_T x else maxt)
          end
      end
  end.

Definition load_series (h : Head) (s : RefSeries) : Head :=
  let '(h, _, _) := getOrCreateWithID h (rs_Ref s) (labels_hash (rs_Labels s)) (rs_Labels s) in
  if h_lastSeriesID h <? rs_Ref s then with_lastID h (rs_Ref s) else h.

(** [for _, itv := range s.intervals]. *)
Definition load_stone (minValidTime : Z) (t : memTombstones) (s : Stone) : memTombstones :=
  foldl (fun t itv => if Maxt itv <? minValidTime then t else addInterval t (st_ref s) [itv]) t (st_intervals s).

(** The state of the loop over the records: head, unknown references and the
    times of the samples seen. *)
Record loading := mkLoading { ld_head : Head; ld_unknown : Z; ld_mint : Z; ld_maxt : Z }.

Definition load_record (minValidTime : Z) (st : loading) (rec : list Z) : res (loading * option error) :=
  let t := Type_ rec in
  let fail (e : error) := Ok (st, Some e) in
  if t =? RecordSeries then
    match Dec_Series rec [] with
    | Panic => Panic
    | Err e => fail e
    | Ok series => Ok (mkLoading (foldl load_series (ld_head st) series) (ld_unknown st) (ld_mint st) (ld_maxt st), None)
    end
  else if t =? RecordSamples then
    match Dec_Samples rec [] with
    | Panic => Panic
    | Err e => fail e
    | Ok samples =>
        let? (h, unknown, mint, maxt) :=
          processWALSamples (ld_head st) minValidTime samples (ld_unknown st) (ld_mint st) (ld_maxt st) in
        Ok (mkLoading h unknown mint maxt, None)
    end
  else if t =? RecordTombstones then
    match Dec_Tombstones rec [] with
    | Panic => Panic
    | Err e => fail e
    | Ok tstones =>
        Ok (mkLoading (with_tombstones (ld_head st) (foldl (load_stone minValidTime) (h_tombstones (ld_head st)) tstones))
              (ld_unknown st) (ld_mint st) (ld_maxt st), None)
    end
  else fail (ErrMsg "invalid record type").

Fixpoint load_records (minValidTime : Z) (st : loading) (recs : list (list Z)) : res (loading * option error) :=
  match recs with
  | [] => Ok (st, None)
  | rec :: recs =>
      let? (st, e) := load_record minValidTime st rec in
      match e with
      | Some e => Ok (st, Some e)
      | None => load_records minValidTime st recs
      end
  end.

(** [loadWAL] of a reader that gives [recs] and ends with [err].  When a record
    cannot be decoded or the reader fails, the workers are not told to finish and
    never report the times of the samples they have appended. *)
Definition loadWAL (h : Head) (recs : list (list Z)) (err : option error) : res (Head * option error) :=
  let minValidTime := if h_minTime h =? MaxInt64 then MinInt64 else h_minTime h in
  let? (st, e) := load_records minValidTime (mkLoading h 0 MaxInt64 MinInt64) recs in
  match e with
  | Some e => Ok (ld_head st, Some e)
  | None =>
      match err with
      | Some e => Ok (ld_head st, Some e)
      | None => Ok (updateMinMaxTime (ld_head st) (ld_mint st) (ld_maxt st), None)
      end
  end.

(** What [Init] finds on disk: the records of the last checkpoint if there is one,
    those of the segments after it, and the errors their readers end with. *)
Record wal_contents := mkWalContents {
  wc_checkpoint : option (list (list Z) * option error);
  wc_segments : list (list Z) * option error }.

Definition EnsureOrder_head (h : Head) : Head := with_index h (h_symbols h) (h_values h) (EnsureOrder (h_postings h)).

(** [Init]; [repair] is the outcome of [wal.Repair]. *)
Definition Init (h : Head) (wc : wal_contents) (repair : W -> error -> W * option error) : res (Head * option error) :=
  match h_wal h with
  | None => Ok (EnsureOrder_head h, None)
  | Some w =>
      let? (h, e) := match wc_checkpoint wc with
                     | Some (recs, err) => loadWAL h recs err
                     | None => Ok (h, None)
                     end in
      match e with
      | Some e => Ok (EnsureOrder_head h, Some e)
      | None =>
          let? (h, e) := loadWAL h (fst (wc_segments wc)) (snd (wc_segments wc)) in
          match e with
          | None => Ok (EnsureOrder_head h, None)
          | Some e => let '(w, e) := repair w e in Ok (EnsureOrder_head (with_wal h w), e)
          end
      end
  end.
End Head.
Arguments headIndexReader : clear implicits.
Arguments headChunkReader : clear implicits.

(** A write-ahead log that keeps the records and never fails. *)
#[export] Instance list_wal : WAL (list (list Z)) := fun w rec => (w ++ [rec], None).
