(* ===== verification/HeadInv.v ===== *)
(** The invariant of the head, as a refinement of an abstract state: the labels
    and samples of each series; and that the operations keep it. *)
From S2P Require Import Prelude Order Labels Tombstones Records Postings PostingsSpec MemPostings XorChunk Chunks Buffer SeriesIter Querier MemSeries Head.
#[local] Open Scope list_scope.
#[local] Open Scope Z_scope.

(** * The abstract state *)

(** The labels of a series; its samples, chunk by chunk; and whether it waits
    for a commit. *)
Abbreviation content := (Labels * (list (list Buffer.sample) * bool))%type.
Abbreviation contents := (gmap Z content).
Definition chunked (c : content) : list (list Buffer.sample) := fst (snd c).
Definition pending (c : content) : bool := snd (snd c).

(** A label set: sorted by name, no name twice, no empty name or value, and small
    enough for a record. *)
Definition lset_ok (lset : Labels) : Prop :=
  increasing fst str_cmp lset /\ Forall (fun l => fst l <> EmptyString /\ snd l <> EmptyString) lset /\
  Forall (fun l => str_ok (fst l) /\ str_ok (snd l)) lset /\ Z.of_nat (length lset) <= 2 ^ 43.

#[export] Instance lset_ok_dec lset : Decision (lset_ok lset).
Proof. unfold lset_ok, increasing. apply _. Defined.

Definition max_id : Z := 2 ^ 40.

Section Refinement.
Context {W : Type} `{WAL W} (Sum64 : list Z -> Z).

(** The location holds the series [id] with the contents [c]. *)
Definition loc_holds (h : Head W) (l : loc) (id : Z) (c : content) : Prop :=
  exists s, h_heap h !! l = Some s /\ ms_ref s = id /\ ms_lset s = fst c /\ ms_holds s (chunked c) /\
    ms_pendingCommit s = pending c.

(** The two maps of series hold the series of [A], each once. *)
Record series_rep (h : Head W) (A : contents) : Prop := {
  rp_dom id : is_Some (h_series h !! id) <-> is_Some (A !! id);
  rp_loc id l c : h_series h !! id = Some l -> A !! id = Some c -> loc_holds h l id c;
  rp_hash hash l : l ∈ hash_list h hash <->
    exists id c, h_series h !! id = Some l /\ A !! id = Some c /\ labels_hash Sum64 (fst c) = hash;
  rp_hash_nodup hash : NoDup (hash_list h hash);
  rp_unique i j c d : A !! i = Some c -> A !! j = Some d -> fst c = fst d -> i = j;
  rp_ids id c : A !! id = Some c -> 0 < id <= h_lastSeriesID h /\ lset_ok (fst c);
  rp_last : 0 <= h_lastSeriesID h < max_id;
  rp_range : range_ok (h_chunkRange h);
}.

(** The index is that of the series of [A]. *)
Record index_rep (h : Head W) (A : contents) : Prop := {
  rp_inv : mp_inv (h_postings h);
  rp_nodup k : NoDup (mp_list (h_postings h) k);
  rp_postings k id : id ∈ mp_list (h_postings h) k <->
    exists c, A !! id = Some c /\ (k = allPostingsKey \/ k ∈ fst c);
  rp_values n v : n <> EmptyString ->
    v ∈ default ∅ (h_values h !! n) <-> exists id c, A !! id = Some c /\ (n, v) ∈ fst c;
  rp_symbols id c l : A !! id = Some c -> l ∈ fst c -> {[fst l; snd l]} ⊆ h_symbols h;
}.

(** The head holds the series of [A]. *)
Definition rep (h : Head W) (A : contents) : Prop := series_rep h A /\ index_rep h A.

Lemma rep_lookup h A id c :
  series_rep h A -> A !! id = Some c -> exists l, h_series h !! id = Some l /\ loc_holds h l id c.
Proof using Type.
  intros Hr Hc. destruct (proj2 (rp_dom _ _ Hr id)) as [l Hl]; [by eexists|]. exists l. split; [done|]. by eapply rp_loc.
Qed.

Lemma rep_series h A id l : series_rep h A -> h_series h !! id = Some l -> exists c, A !! id = Some c /\ loc_holds h l id c.
Proof using Type.
  intros Hr Hl. destruct (proj1 (rp_dom _ _ Hr id)) as [c Hc]; [by eexists|]. exists c. split; [done|]. by eapply rp_loc.
Qed.

Lemma loc_lset h l id c : loc_holds h l id c -> lset_at h l = fst c.
Proof using Type. intros (s & Hs & _ & El & _). unfold lset_at, series_at. by rewrite Hs. Qed.

(** A location holds one series only. *)
Lemma loc_ref h l id id' c c' : loc_holds h l id c -> loc_holds h l id' c' -> id = id'.
Proof using Type. intros (s & Hs & <- & _) (s' & Hs' & <- & _). congruence. Qed.

Lemma rep_loc_inj h A i j l : series_rep h A -> h_series h !! i = Some l -> h_series h !! j = Some l -> i = j.
Proof using Type.
  intros Hr (c & _ & Hi)%(rep_series _ _ _ _ Hr) (d & _ & Hj)%(rep_series _ _ _ _ Hr). by eapply loc_ref.
Qed.

(** ** Finding a series by its labels *)

Lemma hm_get_some h A l lset hash s :
  series_rep h A -> (forall x, x ∈ l -> x ∈ hash_list h hash) -> hm_get h l lset = Some s ->
  exists id c, h_series h !! id = Some s /\ A !! id = Some c /\ fst c = lset.
Proof using Type.
  intros Hr. induction l as [|x l IH]; [done|]. intros Hl. cbn [hm_get].
  assert (Hx : x ∈ hash_list h hash) by (apply Hl; left).
  apply (rp_hash _ _ Hr) in Hx as (id & c & Hs & Hc & _). pose proof (rp_loc _ _ Hr _ _ _ Hs Hc) as Hlc.
  rewrite (loc_lset _ _ _ _ Hlc). destruct (labels_Equals (fst c) lset) eqn:E.
  - intros [= <-]. apply labels_Equals_spec in E. by exists id, c.
  - intros Hg. apply IH; [|done]. intros y Hy. apply Hl. by right.
Qed.

Lemma hm_get_none h A l lset id c s :
  series_rep h A -> hm_get h l lset = None -> s ∈ l -> h_series h !! id = Some s -> A !! id = Some c -> fst c <> lset.
Proof using Type.
  intros Hr Hg Hin Hs Hc. pose proof (rp_loc _ _ Hr _ _ _ Hs Hc) as Hlc.
  induction l as [|x l IH]; [by apply not_elem_of_nil in Hin|]. cbn [hm_get] in Hg.
  destruct (labels_Equals (lset_at h x) lset) eqn:E; [done|]. apply elem_of_cons in Hin as [<-|Hin]; [|by apply IH].
  rewrite (loc_lset _ _ _ _ Hlc) in E. intros <-. rewrite (proj2 (labels_Equals_spec _ _)) in E; done.
Qed.

Lemma getByHash_spec h A lset :
  series_rep h A ->
  match getByHash h (labels_hash Sum64 lset) lset with
  | Some l => exists id c, h_series h !! id = Some l /\ A !! id = Some c /\ fst c = lset
  | None => forall id c, A !! id = Some c -> fst c <> lset
  end.
Proof using Type.
  intros Hr. unfold getByHash. destruct (hm_get h _ lset) as [l|] eqn:E.
  - by eapply hm_get_some.
  - intros id c Hc. destruct (rep_lookup _ _ _ _ Hr Hc) as (l & Hl & Hlc). intros El.
    eapply (hm_get_none h A _ lset id c l Hr E); [|done..]. apply (rp_hash _ _ Hr). exists id, c. by rewrite El.
Qed.

(** ** Creating a series *)

(** Pairs with distinct names are distinct, and none is the key of all ids. *)
Lemma lset_ok_keys lset : lset_ok lset -> NoDup (allPostingsKey :: lset).
Proof using Type.
  intros (Hinc & Hne & _). pose proof (increasing_NoDup fst str_cmp _ Hinc) as Hnd. constructor.
  - rewrite Forall_forall in Hne. intros Hin%Hne. by destruct Hin.
  - by apply NoDup_fmap_1 in Hnd.
Qed.

Lemma count_NoDup (l : list Label) k :
  NoDup l -> length (filter (fun x => x = k) l) = if decide (k ∈ l) then 1%nat else 0%nat.
Proof using Type.
  induction 1 as [|x l Hx _ IH]; [by rewrite decide_False by apply not_elem_of_nil|].
  rewrite filter_cons. destruct (decide (x = k)) as [->|Hne]; cbn [length].
  - rewrite IH, decide_False by done. by rewrite decide_True by left.
  - rewrite IH. destruct (decide (k ∈ l)); [by rewrite decide_True by by right|].
    by rewrite decide_False by (rewrite elem_of_cons; naive_solver).
Qed.

Lemma add_values_elem lset v n x :
  x ∈ default ∅ (foldl add_value v lset !! n) <-> x ∈ default ∅ (v !! n) \/ (n, x) ∈ lset.
Proof using Type.
  revert v. induction lset as [|[n' x'] lset IH]; intros v; cbn [foldl].
  - split; [by left|]. by intros [|?%not_elem_of_nil].
  - rewrite IH, elem_of_cons. unfold add_value. cbn [fst snd]. destruct (decide (n' = n)) as [->|Hne].
    + rewrite lookup_insert_eq. cbn. rewrite elem_of_union, elem_of_singleton. naive_solver.
    + rewrite lookup_insert_ne by done. naive_solver.
Qed.

(** Without a series of these labels in the list, [set] adds to its end. *)
Lemma hm_set_new (h : Head W) l s lset : hm_get h l lset = None -> hm_set h l s lset = l ++ [s].
Proof using Type.
  induction l as [|x l IH]; [done|]. cbn [hm_get hm_set]. destruct (labels_Equals _ _); [done|].
  intros ?. cbn. by rewrite IH.
Qed.

(** The head with a new series. *)
Definition created (h : Head W) (id last : Z) (lset : Labels) : Head W :=
  let hash := labels_hash Sum64 lset in
  let l := length (h_heap h) in
  mkHead (h_chunkRange h) (h_wal h) (h_minTime h) (h_maxTime h) last (h_heap h ++ [newMemSeries lset id (h_chunkRange h)])
    (<[id := l]> (h_series h)) (<[hash := hash_list h hash ++ [l]]> (h_hashes h))
    (list_to_set (lset.*1 ++ lset.*2) ∪ h_symbols h) (foldl add_value (h_values h) lset)
    (mp_Add id lset (h_postings h)) (h_tombstones h).

Lemma hm_get_heap (h h' : Head W) l lset :
  (forall x, x ∈ l -> h_heap h' !! x = h_heap h !! x) -> hm_get h' l lset = hm_get h l lset.
Proof using Type.
  induction l as [|x l IH]; [done|]. intros Hx. cbn [hm_get]. unfold lset_at, series_at. rewrite Hx by left.
  rewrite IH; [done|]. intros y Hy. apply Hx. by right.
Qed.

Lemma rep_lt h A id l : series_rep h A -> h_series h !! id = Some l -> (l < length (h_heap h))%nat.
Proof using Type. intros Hr (c & _ & s & Hs & _)%(rep_series _ _ _ _ Hr). by eapply lookup_lt_Some. Qed.

Lemma hash_list_lt h A hash l : series_rep h A -> l ∈ hash_list h hash -> (l < length (h_heap h))%nat.
Proof using Type. intros Hr (id & c & Hs & _)%(rp_hash _ _ Hr). by eapply rep_lt. Qed.

Lemma getOrCreateWithID_new h A id lset :
  series_rep h A -> (forall i c, A !! i = Some c -> fst c <> lset) ->
  getOrCreateWithID h id (labels_hash Sum64 lset) lset = (created h id (h_lastSeriesID h) lset, length (h_heap h), true).
Proof using Type.
  intros Hr Hf. unfold getOrCreateWithID, getOrSet. cbn [ms_lset newMemSeries].
  pose proof (getByHash_spec h A lset Hr) as Hg. unfold getByHash in Hg.
  destruct (hm_get h _ lset) as [l|] eqn:E; [destruct Hg as (i & c & _ & Hc & El); by destruct (Hf i c)|].
  cbn [negb]. unfold with_index, created, with_heap, with_series. cbn. rewrite hm_set_new; [done|].
  rewrite (hm_get_heap h); [done|]. cbn. intros x Hx. by rewrite lookup_app_l by by eapply hash_list_lt.
Qed.

Lemma created_loc (h : Head W) id last lset l i c :
  (l < length (h_heap h))%nat -> loc_holds (created h id last lset) l i c <-> loc_holds h l i c.
Proof using Type. intros Hl. unfold loc_holds, created. cbn. by setoid_rewrite (lookup_app_l _ _ _ Hl). Qed.

Lemma created_new_loc (h : Head W) id last lset :
  range_ok (h_chunkRange h) -> loc_holds (created h id last lset) (length (h_heap h)) id (lset, ([], false)).
Proof using Type.
  intros Hw. exists (newMemSeries lset id (h_chunkRange h)). unfold created. cbn [h_heap].
  rewrite list_lookup_middle by done. split_and!; [done..| |done]. by apply new_holds.
Qed.

Lemma created_hash_list (h : Head W) id last lset hash :
  hash_list (created h id last lset) hash =
    hash_list h hash ++ (if decide (labels_hash Sum64 lset = hash) then [length (h_heap h)] else []).
Proof using Type.
  unfold hash_list at 1. unfold created. cbn [h_hashes]. case_decide as E.
  - subst. by rewrite lookup_insert_eq.
  - rewrite lookup_insert_ne by done. by rewrite app_nil_r.
Qed.

Lemma created_series_rep h A id last lset :
  series_rep h A -> A !! id = None -> lset_ok lset -> (forall i c, A !! i = Some c -> fst c <> lset) ->
  0 < id <= last -> h_lastSeriesID h <= last < max_id ->
  series_rep (created h id last lset) (<[id := (lset, ([], false))]> A).
Proof using Type.
  intros Hr Hid Hok Hf Hid2 Hlast. pose proof (rp_range _ _ Hr) as Hw.
  assert (Hfresh : h_series h !! id = None).
  { destruct (h_series h !! id) eqn:E; [|done]. destruct (proj1 (rp_dom _ _ Hr id)) as [c Hc]; [by eexists|congruence]. }
  split; try done.
  - intros i. cbn [created h_series]. destruct (decide (id = i)) as [->|Hne].
    + rewrite !lookup_insert_eq. split; intros _; by eexists.
    + rewrite !lookup_insert_ne by done. apply (rp_dom _ _ Hr).
  - intros i l c. cbn [created h_series]. destruct (decide (id = i)) as [->|Hne].
    + rewrite !lookup_insert_eq. intros [= <-] [= <-]. by apply created_new_loc.
    + rewrite !lookup_insert_ne by done. intros Hl Hc. apply created_loc; [by eapply rep_lt|by eapply rp_loc].
  - intros hash l. rewrite created_hash_list, elem_of_app, (rp_hash _ _ Hr). cbn [created h_series]. split.
    + intros [(i & c & Hl & Hc & Eh)|Hin].
      * exists i, c. assert (i <> id) by congruence. by rewrite !lookup_insert_ne.
      * case_decide as E; [|by apply not_elem_of_nil in Hin]. apply list_elem_of_singleton in Hin as ->.
        exists id, (lset, ([], false)). by rewrite !lookup_insert_eq.
    + intros (i & c & Hl & Hc & Eh). destruct (decide (id = i)) as [->|Hne].
      * rewrite !lookup_insert_eq in *. injection Hl as <-. injection Hc as <-. right. cbn in Eh.
        rewrite decide_True by done. by left.
      * rewrite !lookup_insert_ne in * by done. left. by exists i, c.
  - intros hash. rewrite created_hash_list. apply NoDup_app. split_and!; [apply (rp_hash_nodup _ _ Hr)| |case_decide; [apply NoDup_singleton|constructor]].
    intros l Hl%(hash_list_lt _ _ _ _ Hr). case_decide; [rewrite list_elem_of_singleton; lia|apply not_elem_of_nil].
  - intros i j c d. destruct (decide (i = id)) as [->|Hi], (decide (j = id)) as [->|Hj]; [done|..];
      rewrite ?lookup_insert_eq, ?lookup_insert_ne by done.
    + intros [= <-] Hd E. by destruct (Hf j d Hd).
    + intros Hc [= <-] E. by destruct (Hf i c Hc).
    + by apply (rp_unique _ _ Hr).
  - intros i c. cbn [created h_lastSeriesID]. destruct (decide (id = i)) as [->|Hi].
    + rewrite lookup_insert_eq. by intros [= <-].
    + rewrite lookup_insert_ne by done. intros [? ?]%(rp_ids _ _ Hr). split; [lia|done].
  - cbn [created h_lastSeriesID]. pose proof (rp_last _ _ Hr). lia.
Qed.

(** The list of a key with the new series in it. *)
Lemma created_list h A id last lset k :
  index_rep h A -> lset_ok lset ->
  mp_list (h_postings (created h id last lset)) k ≡ₚ
    (if decide (k ∈ allPostingsKey :: lset) then [id] else []) ++ mp_list (h_postings h) k.
Proof using Type.
  intros Hr Hok. cbn [created h_postings].
  rewrite (Add_list _ _ _ _ (rp_inv _ _ Hr)), count_NoDup by by apply lset_ok_keys. by case_decide.
Qed.

Lemma created_index_rep h A id last lset :
  index_rep h A -> A !! id = None -> lset_ok lset ->
  index_rep (created h id last lset) (<[id := (lset, ([], false))]> A).
Proof using Type.
  intros Hr Hid Hok. split.
  - cbn [created h_postings]. apply Add_inv, Hr.
  - intros k. rewrite (created_list _ _ _ _ _ _ Hr Hok). apply NoDup_app. split_and!; [|intros x Hx Hin|apply Hr].
    + case_decide; [apply NoDup_singleton|constructor].
    + apply (rp_postings _ _ Hr) in Hin as (c & Hc & _).
      case_decide; [apply list_elem_of_singleton in Hx as ->; congruence|by apply not_elem_of_nil in Hx].
  - intros k i. rewrite (created_list _ _ _ _ _ _ Hr Hok), elem_of_app, (rp_postings _ _ Hr). split.
    + intros [Hx|(c & Hc & Hk)].
      * case_decide as Hk; [|by apply not_elem_of_nil in Hx]. apply list_elem_of_singleton in Hx as ->.
        exists (lset, ([], false)). rewrite lookup_insert_eq. split; [done|]. by apply elem_of_cons in Hk.
      * exists c. rewrite lookup_insert_ne by congruence. done.
    + intros (c & Hc & Hk). destruct (decide (id = i)) as [->|Hi].
      * rewrite lookup_insert_eq in Hc. injection Hc as <-. left. rewrite decide_True by by apply elem_of_cons. by left.
      * rewrite lookup_insert_ne in Hc by done. right. by exists c.
  - intros n v Hn. cbn [created h_values]. rewrite add_values_elem, (rp_values _ _ Hr) by done. split.
    + intros [(i & c & Hc & ?)|Hin].
      * exists i, c. by rewrite lookup_insert_ne by congruence.
      * exists id, (lset, ([], false)). by rewrite lookup_insert_eq.
    + intros (i & c & Hc & Hin). destruct (decide (id = i)) as [->|Hi].
      * rewrite lookup_insert_eq in Hc. injection Hc as <-. by right.
      * rewrite lookup_insert_ne in Hc by done. left. by exists i, c.
  - intros i c l. cbn [created h_symbols]. destruct (decide (id = i)) as [->|Hi].
    + rewrite lookup_insert_eq. intros [= <-] Hin. apply union_subseteq_l'. cbn [fst] in Hin.
      intros x. rewrite elem_of_union, !elem_of_singleton, elem_of_list_to_set, elem_of_app.
      intros [->| ->]; [left|right]; by apply (list_elem_of_fmap_2 _ lset).
    + rewrite lookup_insert_ne by done. intros Hc Hin. apply union_subseteq_r'. by eapply (rp_symbols _ _ Hr).
Qed.

Lemma created_rep h A id last lset :
  rep h A -> A !! id = None -> lset_ok lset -> (forall i c, A !! i = Some c -> fst c <> lset) ->
  0 < id <= last -> h_lastSeriesID h <= last < max_id ->
  rep (created h id last lset) (<[id := (lset, ([], false))]> A).
Proof using Type. intros [Hs Hi] ?????. split; [by apply created_series_rep|by apply created_index_rep]. Qed.

(** ** Changing a series *)

Definition same_lsets (A A' : contents) : Prop := forall id, fst <$> A !! id = fst <$> A' !! id.

Lemma same_lsets_fw A A' id c : same_lsets A A' -> A !! id = Some c -> exists c', A' !! id = Some c' /\ fst c' = fst c.
Proof using Type.
  intros HA Hc. specialize (HA id). rewrite Hc in HA. symmetry in HA. apply fmap_Some in HA as (c' & ? & ?). by exists c'.
Qed.

Lemma same_lsets_sym A A' : same_lsets A A' -> same_lsets A' A.
Proof using Type. intros HA id. by rewrite HA. Qed.

Lemma same_lsets_ex A A' id (P : Labels -> Prop) :
  same_lsets A A' -> (exists c, A !! id = Some c /\ P (fst c)) <-> (exists c, A' !! id = Some c /\ P (fst c)).
Proof using Type.
  intros HA. pose proof (same_lsets_sym _ _ HA) as HA'.
  split; intros (c & Hc & HP); [destruct (same_lsets_fw _ _ _ _ HA Hc) as (c' & ? & E)|
    destruct (same_lsets_fw _ _ _ _ HA' Hc) as (c' & ? & E)]; exists c'; by rewrite E.
Qed.

Lemma heap_series_rep h A A' heap :
  series_rep h A -> same_lsets A A' ->
  (forall id l c, h_series h !! id = Some l -> A' !! id = Some c -> loc_holds (with_heap h heap) l id c) ->
  series_rep (with_heap h heap) A'.
Proof using Type.
  intros Hr HA Hl. pose proof (same_lsets_sym _ _ HA) as HA'. split; try apply Hr; try done.
  - intros id. cbn. rewrite (rp_dom _ _ Hr). split; intros [c Hc]; [destruct (same_lsets_fw _ _ _ _ HA Hc) as (? & ? & _)|
      destruct (same_lsets_fw _ _ _ _ HA' Hc) as (? & ? & _)]; by eexists.
  - intros hash l. change (hash_list (with_heap h heap) hash) with (hash_list h hash). rewrite (rp_hash _ _ Hr).
    cbn [with_heap with_series h_series]. apply exist_proper. intros id.
    pose proof (same_lsets_ex A A' id (fun ls => h_series h !! id = Some l /\ labels_hash Sum64 ls = hash) HA). naive_solver.
  - intros i j c d Hc Hd E. destruct (same_lsets_fw _ _ _ _ HA' Hc) as (c' & Hc' & Ec).
    destruct (same_lsets_fw _ _ _ _ HA' Hd) as (d' & Hd' & Ed). eapply (rp_unique _ _ Hr); [done|done|congruence].
  - intros i c Hc. destruct (same_lsets_fw _ _ _ _ HA' Hc) as (c' & Hc' & <-). by apply (rp_ids _ _ Hr).
Qed.

Lemma heap_index_rep h A A' heap : index_rep h A -> same_lsets A A' -> index_rep (with_heap h heap) A'.
Proof using Type.
  intros Hr HA. split; try apply Hr.
  - intros k id. cbn [with_heap with_series h_postings]. rewrite (rp_postings _ _ Hr).
    apply (same_lsets_ex A A' id (fun ls => k = allPostingsKey \/ k ∈ ls) HA).
  - intros n v Hn. cbn [with_heap with_series h_values]. rewrite (rp_values _ _ Hr) by done.
    apply exist_proper. intros id. apply (same_lsets_ex A A' id (fun ls => (n, v) ∈ ls) HA).
  - intros id c l Hc. destruct (same_lsets_fw _ _ _ _ (same_lsets_sym _ _ HA) Hc) as (c' & Hc' & <-).
    by apply (rp_symbols _ _ Hr id).
Qed.

Lemma set_same_lsets (A : contents) id c c' : A !! id = Some c -> fst c' = fst c -> same_lsets A (<[id := c']> A).
Proof using Type.
  intros Hc E i. destruct (decide (id = i)) as [->|?]; [by rewrite lookup_insert_eq, Hc; cbn; rewrite E|].
  by rewrite lookup_insert_ne.
Qed.

(** A live series changes: the others do not. *)
Lemma set_series_rep h A id l c c' s :
  series_rep h A -> h_series h !! id = Some l -> A !! id = Some c -> fst c' = fst c ->
  ms_ref s = id -> ms_lset s = fst c' -> ms_holds s (chunked c') -> ms_pendingCommit s = pending c' ->
  series_rep (set_series h l s) (<[id := c']> A).
Proof using Type.
  intros Hr Hl Hc E Hid Hls Hh Hp. apply (heap_series_rep h A); [done|by eapply set_same_lsets|].
  intros i k d Hk. pose proof (rep_lt _ _ _ _ Hr Hl) as Hlt. destruct (decide (id = i)) as [->|Hne].
  - rewrite lookup_insert_eq. intros [= <-]. assert (k = l) as -> by congruence.
    exists s. cbn [with_heap with_series h_heap]. rewrite list_lookup_insert_eq by done. done.
  - rewrite lookup_insert_ne by done. intros Hd. destruct (rp_loc _ _ Hr _ _ _ Hk Hd) as (s' & Hs' & ?).
    exists s'. cbn [with_heap with_series h_heap]. rewrite list_lookup_insert_ne; [done|].
    intros ->. apply Hne. by eapply rep_loc_inj.
Qed.

Lemma set_rep h A id l c c' s :
  rep h A -> h_series h !! id = Some l -> A !! id = Some c -> fst c' = fst c ->
  ms_ref s = id -> ms_lset s = fst c' -> ms_holds s (chunked c') -> ms_pendingCommit s = pending c' ->
  rep (set_series h l s) (<[id := c']> A).
Proof using Type.
  intros [Hr Hi] Hl Hc E ????. split; [by eapply set_series_rep|].
  by apply (heap_index_rep h A); [|eapply set_same_lsets].
Qed.

Lemma with_wal_rep h A w : rep h A <-> rep (with_wal h w) A.
Proof using Type. split; intros [[] []]; by split. Qed.
Lemma with_times_rep h A mint maxt : rep h A <-> rep (with_times h mint maxt) A.
Proof using Type. split; intros [[] []]; by split. Qed.
Lemma with_tombstones_rep h A t : rep h A <-> rep (with_tombstones h t) A.
Proof using Type. split; intros [[] []]; by split. Qed.

(** The lists of the index get in order. *)
Lemma EnsureOrder_rep h A : rep h A -> rep (EnsureOrder_head h) A /\ mp_ordered (h_postings (EnsureOrder_head h)) = true.
Proof using Type.
  intros [Hs Hi]. split; [|cbn; unfold EnsureOrder; by destruct (mp_ordered (h_postings h)) eqn:E].
  split; [destruct Hs; by split|]. split; cbn [EnsureOrder_head with_index h_postings h_values h_symbols].
  - apply EnsureOrder_inv, Hi.
  - intros k. rewrite EnsureOrder_list. apply Hi.
  - intros k id. rewrite EnsureOrder_list. apply (rp_postings _ _ Hi).
  - apply Hi.
  - apply Hi.
Qed.

(** A new head is empty. *)
Lemma NewHead_rep wal w : range_ok w -> exists h, NewHead wal w = Ok h /\ rep h ∅.
Proof using Type.
  intros Hw. unfold NewHead. rewrite (proj2 (Z.ltb_ge _ _)) by (unfold range_ok in Hw; lia). eexists. split; [done|].
  assert (Hnone : forall (P : Z -> content -> Prop), (exists id c, (∅ : contents) !! id = Some c /\ P id c) <-> False).
  { intros P. split; [|done]. by intros (id & c & Hc & _). }
  split; split; cbn; try done.
  - intros id. by rewrite !lookup_empty.
  - intros hash l. unfold hash_list. cbn. rewrite lookup_empty. cbn. rewrite elem_of_nil. split; [done|].
    by intros (id & c & _ & Hc & _).
  - intros hash. unfold hash_list. cbn. rewrite lookup_empty. constructor.
  - intros k. constructor.
  - intros k id. unfold mp_list. cbn. rewrite lookup_empty. cbn. rewrite elem_of_nil. split; [done|]. by intros (c & Hc & _).
  - intros n v _. rewrite lookup_empty, Hnone. cbn. by rewrite elem_of_empty.
Qed.
End Refinement.
