(* ===== verification/HeadAppend.v ===== *)
(** Appending to the head: [Add] and [Commit] refine the abstract appender, which
    maps label sets to samples. *)
From S2P Require Import Prelude Order Labels Tombstones Records Postings PostingsSpec MemPostings XorChunk Chunks Buffer SeriesIter Querier MemSeries Head HeadInv.
#[local] Open Scope list_scope.
#[local] Open Scope Z_scope.

Section Append.
Context {W : Type} `{WAL W} (Sum64 : list Z -> Z).
Abbreviation rep := (rep Sum64).

(** ** getOrCreate *)

(** The series at [l] is [id], its contents are [c]. *)
Definition live (h : Head W) (A : contents) (l : loc) (id : Z) (c : content) : Prop :=
  h_series h !! id = Some l /\ A !! id = Some c.

(** The live series stay, with their labels. *)
Definition keeps (h : Head W) (A : contents) (h' : Head W) (A' : contents) : Prop :=
  forall l id c, live h A l id c -> exists c', live h' A' l id c' /\ fst c' = fst c.

(** [lset] has no series. *)
Definition absent (A : contents) (lset : Labels) : Prop := forall i c, A !! i = Some c -> fst c <> lset.

Lemma rep_fresh (h : Head W) A : rep h A -> A !! (h_lastSeriesID h + 1) = None.
Proof using Type.
  intros [Hr _]. destruct (A !! _) as [c|] eqn:E; [|done]. destruct (rp_ids _ _ _ Hr _ _ E). lia.
Qed.

Lemma getOrCreate_ok (h : Head W) A lset :
  rep h A -> lset_ok lset -> h_lastSeriesID h + 1 < max_id ->
  (exists l id c, getOrCreate h (labels_hash Sum64 lset) lset = (h, l, false) /\ live h A l id c /\ fst c = lset) \/
  (absent A lset /\ exists h' l id, getOrCreate h (labels_hash Sum64 lset) lset = (h', l, true) /\
     let A' := <[id := (lset, ([], false))]> A in
     rep h' A' /\ A !! id = None /\ live h' A' l id (lset, ([], false)) /\ keeps h A h' A' /\
     h_lastSeriesID h' = h_lastSeriesID h + 1 /\ h_maxTime h' = h_maxTime h /\ h_minTime h' = h_minTime h).
Proof using Type.
  intros Hr Hok Hid. pose proof Hr as [Hs Hi]. unfold getOrCreate. pose proof (getByHash_spec _ _ _ lset Hs) as Hg.
  destruct (getByHash h _ lset) as [l|].
  - left. destruct Hg as (id & c & ? & ? & ?). by exists l, id, c.
  - right. split; [done|]. pose proof (rp_last _ _ _ Hs) as Hl. set (id := h_lastSeriesID h + 1) in *.
    rewrite u64_small by (unfold is_u, max_id in *; lia).
    assert (Hr' : rep (with_lastID h id) A).
    { split; [|destruct Hi; by split]. destruct Hs. split; try done; cbn.
      - intros i c Hc. destruct (rp_ids i c Hc). split; [lia|done].
      - lia. }
    rewrite (getOrCreateWithID_new _ _ A) by (by apply Hr' || done).
    eexists _, _, id. split; [done|]. cbn zeta. pose proof (rep_fresh _ _ Hr) as Hnone.
    split_and!; try done; [|split|].
    + apply created_rep; [done|done|done|done|cbn; lia|cbn; lia].
    + cbn. by rewrite lookup_insert_eq.
    + by rewrite lookup_insert_eq.
    + intros k i d [Hk Hd]. assert (i <> id) by (unfold id; congruence). exists d. split; [|done].
      split; [cbn|]; by rewrite lookup_insert_ne.
Qed.

(** ** The abstract appender *)

(** The samples of each label set. *)
Abbreviation db := (gmap Labels (list Buffer.sample)).

Definition shows (A : contents) (D : db) : Prop :=
  forall lset xs, D !! lset = Some xs <-> exists id c, A !! id = Some c /\ fst c = lset /\ mjoin (chunked c) = xs.

(** A sample for a label set. *)
Abbreviation request := (Labels * Buffer.sample)%type.

(** [Add]: the series exists from then on; the sample is only checked. *)
Definition spec_add (minValidTime : Z) (D : db) (r : request) : db * option error :=
  if fst (snd r) <? minValidTime then (D, Some ErrOutOfBounds)
  else
    let xs := default [] (D !! fst r) in
    (<[fst r := xs]> D, match admits xs (snd r) with Err e => Some e | _ => None end).

(** A sequence of them: the samples that were taken and all results. *)
Fixpoint spec_adds (minValidTime : Z) (D : db) (rs : list request) : db * list request * list (option error) :=
  match rs with
  | [] => (D, [], [])
  | r :: rs =>
      let '(D, e) := spec_add minValidTime D r in
      let '(D, taken, es) := spec_adds minValidTime D rs in
      (D, if e is None then r :: taken else taken, e :: es)
  end.

(** [Commit]: what is not later than the last sample of its series is dropped. *)
Definition spec_commit (D : db) (taken : list request) : db :=
  foldl (fun D r => alter (fun acc => accept acc (snd r)) (fst r) D) D taken.

(** The same sequence on the head. *)
Fixpoint adds (h : Head W) (a : headAppender) (rs : list request) : Head W * headAppender * list (option error) :=
  match rs with
  | [] => (h, a, [])
  | r :: rs =>
      let '(h, a, (_, e)) := a_Add Sum64 h a (fst r) (fst (snd r)) (snd (snd r)) in
      let '(h, a, es) := adds h a rs in
      (h, a, e :: es)
  end.

Definition request_ok (r : request) : Prop := lset_ok (fst r) /\ sample_ok (snd r).

(** ** Add *)

Lemma shows_live h A D l id c :
  shows A D -> live h A l id c -> D !! fst c = Some (mjoin (chunked c)).
Proof using Type. intros HD [_ Hc]. apply HD. by exists id, c. Qed.

Lemma shows_absent A D lset : shows A D -> absent A lset -> D !! lset = None.
Proof using Type.
  intros HD Ha. destruct (D !! lset) as [xs|] eqn:E; [|done]. apply HD in E as (id & c & Hc & El & _). by destruct (Ha id c).
Qed.

(** One series changes. *)
Lemma shows_insert A D id c c' :
  shows A D -> (forall i j c d, A !! i = Some c -> A !! j = Some d -> fst c = fst d -> i = j) ->
  A !! id = Some c -> fst c' = fst c -> shows (<[id := c']> A) (<[fst c := mjoin (chunked c')]> D).
Proof using Type.
  intros HD Hu Hc E lset xs. destruct (decide (fst c = lset)) as [<-|Hne].
  - rewrite lookup_insert_eq. split.
    + intros [= <-]. exists id, c'. by rewrite lookup_insert_eq.
    + intros (i & d & Hd & El & <-). f_equal. destruct (decide (id = i)) as [<-|Hi]; [rewrite lookup_insert_eq in Hd; by injection Hd as <-|].
      rewrite lookup_insert_ne in Hd by done. exfalso. apply Hi. by eapply Hu.
  - rewrite lookup_insert_ne by done. rewrite (HD lset xs). apply exist_proper. intros i.
    destruct (decide (id = i)) as [<-|Hi].
    + rewrite lookup_insert_eq. split; [intros (d & Hd & ? & _); congruence|intros (d & [= <-] & ? & _); congruence].
    + by rewrite lookup_insert_ne.
Qed.

(** A new series without samples. *)
Lemma shows_new A D id lset b :
  shows A D -> A !! id = None -> absent A lset -> shows (<[id := (lset, ([], b))]> A) (<[lset := []]> D).
Proof using Type.
  intros HD Hid Ha ls xs. destruct (decide (lset = ls)) as [<-|Hne].
  - rewrite lookup_insert_eq. split.
    + intros [= <-]. exists id, (lset, ([], b)). by rewrite lookup_insert_eq.
    + intros (i & d & Hd & El & <-). destruct (decide (id = i)) as [<-|Hi]; [rewrite lookup_insert_eq in Hd; by injection Hd as <-|].
      rewrite lookup_insert_ne in Hd by done. by destruct (Ha i d).
  - rewrite lookup_insert_ne by done. rewrite (HD ls xs). apply exist_proper. intros i.
    destruct (decide (id = i)) as [<-|Hi]; [|by rewrite lookup_insert_ne].
    rewrite lookup_insert_eq, Hid. split; [by intros (? & ? & _)|]. by intros (d & [= <-] & ? & _).
Qed.

(** ** The appender's buffers *)

(** The samples of each series. *)
Definition flat (A : contents) : gmap Z (Labels * list Buffer.sample) := (fun c => (fst c, mjoin (chunked c))) <$> A.

(** What the records of a transaction do to them. *)
Definition flat_series (F : gmap Z (Labels * list Buffer.sample)) (l : list RefSeries) :=
  foldl (fun F rs => <[rs_Ref rs := (rs_Labels rs, [])]> F) F l.
Definition flat_sample (F : gmap Z (Labels * list Buffer.sample)) (x : RefSample) :=
  alter (fun c => (fst c, accept (snd c) (s_T x, s_V x))) (s_Ref x) F.
Definition flat_samples (F : gmap Z (Labels * list Buffer.sample)) (l : list RefSample) := foldl flat_sample F l.

(** The new series of a transaction are new. *)
Fixpoint series_fresh (F : gmap Z (Labels * list Buffer.sample)) (l : list RefSeries) : Prop :=
  match l with
  | [] => True
  | rs :: l =>
      F !! rs_Ref rs = None /\ (forall i c, F !! i = Some c -> fst c <> rs_Labels rs) /\ lset_ok (rs_Labels rs) /\
      0 < rs_Ref rs < max_id /\ series_fresh (<[rs_Ref rs := (rs_Labels rs, [])]> F) l
  end.

Lemma series_fresh_snoc F l rs :
  series_fresh F (l ++ [rs]) <-> series_fresh F l /\ series_fresh (flat_series F l) [rs].
Proof using Type.
  revert F. induction l as [|x l IH]; intros F; [cbn; tauto|]. cbn [app]. cbn [series_fresh].
  change (flat_series F (x :: l)) with (flat_series (<[rs_Ref x := (rs_Labels x, [])]> F) l). rewrite IH. cbn [series_fresh]. tauto.
Qed.

(** A buffered sample is the request's, for a live series. *)
Definition buffers (h : Head W) (A : contents) (x : RefSample * loc) (r : request) : Prop :=
  exists c, live h A (snd x) (s_Ref (fst x)) c /\ fst c = fst r /\ (s_T (fst x), s_V (fst x)) = snd r.

(** The appender [a], with [taken] in its buffers, begun when the head held [F0]. *)
Record app_rep (F0 : gmap Z (Labels * list Buffer.sample)) (h : Head W) (A : contents) (D : db) (a : headAppender)
    (taken : list request) : Prop := {
  ar_rep : rep h A;
  ar_shows : shows A D;
  ar_samples : Forall2 (buffers h A) (ap_samples a) taken;
  ar_series : flat A = flat_series F0 (ap_series a);
  ar_fresh : series_fresh F0 (ap_series a);
  ar_times : Forall (fun r => ap_mint a <= fst (snd r) <= ap_maxt a) taken;
}.

Lemma buffers_keeps h A h' A' xs rs :
  keeps h A h' A' -> Forall2 (buffers h A) xs rs -> Forall2 (buffers h' A') xs rs.
Proof using Type.
  intros Hk Hb. eapply Forall2_impl; [exact Hb|]. intros x r (c & Hl & El & E).
  apply Hk in Hl as (c' & ? & El'). exists c'. by rewrite El'.
Qed.

Lemma flat_insert A id c : flat (<[id := c]> A) = <[id := (fst c, mjoin (chunked c))]> (flat A).
Proof using Type. unfold flat. by rewrite fmap_insert. Qed.

Lemma flat_insert_same A id c c' :
  A !! id = Some c -> fst c' = fst c -> mjoin (chunked c') = mjoin (chunked c) -> flat (<[id := c']> A) = flat A.
Proof using Type.
  intros Hc E Ej. rewrite flat_insert, E, Ej. apply insert_id. unfold flat. by rewrite lookup_fmap, Hc.
Qed.

(** ** AddFast *)

(** What [AddFast] does for a live series. *)
Lemma AddFast_ok F0 h A D a taken l id c t v :
  app_rep F0 h A D a taken -> live h A l id c -> ap_minValidTime a <= t ->
  match admits (mjoin (chunked c)) (t, v) with
  | Err e => a_AddFast h a id t v = (h, a, Some e)
  | _ => exists h' a', a_AddFast h a id t v = (h', a', None) /\
      app_rep F0 h' (<[id := (fst c, (chunked c, true))]> A) D a' (taken ++ [(fst c, (t, v))]) /\
      ap_minValidTime a' = ap_minValidTime a /\ h_lastSeriesID h' = h_lastSeriesID h /\ h_maxTime h' = h_maxTime h /\ h_minTime h' = h_minTime h
  end.
Proof using Type.
  intros Ha Hlc Ht. pose proof Hlc as [Hl Hc]. destruct Ha as [Hr HD Hsm Hser Hfr Htm].
  destruct (rp_loc _ _ _ (proj1 Hr) _ _ _ Hl Hc) as (s & Hs & Hid & Els & Hh & Hp).
  unfold a_AddFast, getByID, series_at. rewrite (proj2 (Z.ltb_ge _ _)), Hl, Hs, (appendable_ok _ _ _ _ Hh) by done.
  destruct (admits _ _) as [u|e|] eqn:E; [|done|].
  2: { unfold admits in E. by repeat case_match. }
  eexists _, _. split; [done|]. split; [|done]. set (c' := (fst c, (chunked c, true)) : content).
  assert (Hk : keeps h A (set_series h l (set_pending s true)) (<[id := c']> A)).
  { intros k i d [Hk Hd]. destruct (decide (id = i)) as [<-|Hi].
    - exists c'. split; [split; [done|by rewrite lookup_insert_eq]|]. cbn. congruence.
    - exists d. split; [split; [done|by rewrite lookup_insert_ne]|done]. }
  split; cbn [ap_samples ap_series ap_mint ap_maxt].
  - apply (set_rep Sum64 h A id l c); try done. by destruct s, Hh.
  - pose proof (shows_insert A D id c c' HD (rp_unique _ _ _ (proj1 Hr)) Hc eq_refl) as HD'.
    rewrite (insert_id D) in HD'; [exact HD'|]. exact (shows_live h _ _ _ _ _ HD Hlc).
  - apply Forall2_app; [by eapply buffers_keeps|]. apply Forall2_cons. split; [|constructor].
    destruct (Hk _ _ _ Hlc) as (d & ? & ?). by exists d.
  - by rewrite (flat_insert_same _ _ c).
  - done.
  - apply Forall_app. split.
    + eapply Forall_impl; [exact Htm|]. cbn. intros r ?. repeat case_match; lia.
    + apply Forall_singleton. cbn. destruct (Z.ltb_spec t (ap_mint a)), (Z.ltb_spec (ap_maxt a) t); lia.
Qed.

(** ** Add *)

Lemma live_ref h A l id c : rep h A -> live h A l id c -> ref_at h l = id.
Proof using Type.
  intros [Hr _] [Hl Hc]. destruct (rp_loc _ _ _ Hr _ _ _ Hl Hc) as (s & Hs & Hid & _).
  unfold ref_at, series_at. by rewrite Hs.
Qed.

(** The series of a request, made if it is new: the state [AddFast] starts from. *)
Lemma create_ok F0 h A D a taken lset :
  app_rep F0 h A D a taken -> lset_ok lset -> h_lastSeriesID h + 1 < max_id ->
  exists h' A' a' l id c b, getOrCreate h (labels_hash Sum64 lset) lset = (h', l, b) /\
    a' = (if b then mkAppender (ap_minValidTime a) (ap_mint a) (ap_maxt a) (ap_series a ++ [mkRefSeries (ref_at h' l) lset]) (ap_samples a)
          else a) /\
    app_rep F0 h' A' (<[lset := default [] (D !! lset)]> D) a' taken /\
    live h' A' l id c /\ fst c = lset /\ mjoin (chunked c) = default [] (D !! lset) /\
    h_lastSeriesID h' <= h_lastSeriesID h + 1 /\ h_maxTime h' = h_maxTime h /\ h_minTime h' = h_minTime h.
Proof using Type.
  intros Ha Hok Hid. pose proof Ha as [Hr HD Hsm Hser Hfr Htm].
  destruct (getOrCreate_ok h A lset Hr Hok Hid) as [(l & id & c & Hg & Hl & El)|(Hab & h' & l & id & Hg & Hr' & Hnone & Hl & Hk & Hlast & Hmax & Hmin)].
  - exists h, A, a, l, id, c, false. pose proof (shows_live _ _ _ _ _ _ HD Hl) as E. rewrite El in E. rewrite E. cbn [default].
    rewrite insert_id by done. split_and!; try done. lia.
  - pose proof (live_ref _ _ _ _ _ Hr' Hl) as Eref. pose proof (shows_absent _ _ _ HD Hab) as E. rewrite E.
    eexists h', _, _, l, id, _, true. split_and!; try done; [|lia].
    rewrite Eref. split; cbn [ap_samples ap_series ap_mint ap_maxt default]; try done.
    + by apply shows_new.
    + by eapply buffers_keeps.
    + rewrite flat_insert, Hser. unfold flat_series. by rewrite foldl_app.
    + apply series_fresh_snoc. split; [done|]. rewrite <- Hser. cbn [series_fresh rs_Ref rs_Labels].
      pose proof (rp_ids _ _ _ (proj1 Hr') _ _ (proj2 Hl)) as [Hpos _]. pose proof (rp_last _ _ _ (proj1 Hr')).
      split; [unfold flat; by rewrite lookup_fmap, Hnone|]. split; [|split; [done|split; [lia|done]]].
      intros i d. unfold flat. rewrite lookup_fmap_Some. intros (c & <- & Hc). exact (Hab i c Hc).
Qed.

Lemma Add_ok F0 h A D a taken r :
  app_rep F0 h A D a taken -> request_ok r -> h_lastSeriesID h + 1 < max_id ->
  let '(D', e) := spec_add (ap_minValidTime a) D r in
  exists h' A' a' ref, a_Add Sum64 h a (fst r) (fst (snd r)) (snd (snd r)) = (h', a', (ref, e)) /\
    app_rep F0 h' A' D' a' (if e is None then taken ++ [r] else taken) /\ ap_minValidTime a' = ap_minValidTime a /\
    h_lastSeriesID h' <= h_lastSeriesID h + 1 /\ h_maxTime h' = h_maxTime h /\ h_minTime h' = h_minTime h.
Proof using Type.
  intros Ha [Hok Hsok] Hid. destruct r as [lset [t v]]. unfold spec_add, a_Add. cbn [fst snd] in *.
  destruct (Z.ltb_spec t (ap_minValidTime a)) as [Hlt|Hge].
  { exists h, A, a, 0. split_and!; try done. lia. }
  destruct (create_ok _ _ _ _ _ _ _ Ha Hok Hid) as (h1 & A1 & a1 & l & id & c & b & Hg & Ea & Ha1 & Hl & <- & Ej & Hlast & Hmax & Hmin).
  rewrite Hg, <- Ea, (live_ref _ _ _ _ _ (ar_rep _ _ _ _ _ _ Ha1) Hl).
  assert (Hmv : ap_minValidTime a1 = ap_minValidTime a) by (rewrite Ea; by destruct b).
  pose proof (AddFast_ok _ _ _ _ _ _ _ _ _ t v Ha1 Hl ltac:(by rewrite Hmv)) as Hadd. rewrite Ej in Hadd.
  destruct (admits _ _) as [u|e|].
  1, 3: destruct Hadd as (h' & a' & -> & Ha' & ? & ? & ? & ?); eexists _, _, _, _; split_and!; [done|exact Ha'|congruence..|lia|congruence|congruence].
  rewrite Hadd. by exists h1, A1, a1, id.
Qed.

Lemma adds_ok F0 h A D a taken rs :
  app_rep F0 h A D a taken -> Forall request_ok rs -> h_lastSeriesID h + Z.of_nat (length rs) < max_id ->
  let '(D', more, es) := spec_adds (ap_minValidTime a) D rs in
  exists h' A' a', adds h a rs = (h', a', es) /\ app_rep F0 h' A' D' a' (taken ++ more) /\
    h_lastSeriesID h' <= h_lastSeriesID h + Z.of_nat (length rs) /\ h_maxTime h' = h_maxTime h /\ h_minTime h' = h_minTime h.
Proof using Type.
  intros Ha Hrs. revert h A D a taken Ha. induction Hrs as [|r rs Hr _ IH]; intros h A D a taken Ha Hid; cbn [spec_adds adds].
  { exists h, A, a. rewrite app_nil_r. split_and!; try done. cbn. lia. }
  cbn [length] in Hid. pose proof (Add_ok _ _ _ _ _ _ _ Ha Hr ltac:(lia)) as Hadd.
  destruct (spec_add _ D r) as [D1 e]. destruct Hadd as (h1 & A1 & a1 & ref & -> & Ha1 & Hmv & Hlast & Hmax & Hmin).
  specialize (IH _ _ _ _ _ Ha1 ltac:(lia)). rewrite Hmv in IH. destruct (spec_adds _ D1 rs) as [[D2 more] es].
  destruct IH as (h2 & A2 & a2 & -> & Ha2 & ? & ? & ?). exists h2, A2, a2. split_and!; [done| |cbn [length]; lia|congruence..].
  destruct e; [done|]. by rewrite <- (assoc_L (++)) in Ha2.
Qed.

(** ** Commit *)

(** Room for [n] more samples: a chunk counts its samples in 16 bits. *)
Definition room (A : contents) (n : nat) : Prop :=
  forall id c, A !! id = Some c -> Z.of_nat (length (mjoin (chunked c)) + n) <= 65535.

Lemma accept_same xs ys x : xs = ys -> accept xs x = accept ys x.
Proof using Type. by intros ->. Qed.

Lemma shows_alter A D id c c' r :
  shows A D -> (forall i j c d, A !! i = Some c -> A !! j = Some d -> fst c = fst d -> i = j) ->
  A !! id = Some c -> fst c' = fst c -> fst c = fst r -> mjoin (chunked c') = accept (mjoin (chunked c)) (snd r) ->
  shows (<[id := c']> A) (alter (fun acc => accept acc (snd r)) (fst r) D).
Proof using Type.
  intros HD Hu Hc E Er Ej. pose proof (shows_insert A D id c c' HD Hu Hc E) as HD'.
  assert (HDc : D !! fst c = Some (mjoin (chunked c))) by (apply HD; by exists id, c).
  replace (alter _ (fst r) D) with (<[fst c := mjoin (chunked c')]> D); [done|].
  apply map_eq. intros k. rewrite <- Er. destruct (decide (fst c = k)) as [<-|Hne].
  - by rewrite lookup_insert_eq, lookup_alter_eq, HDc, Ej.
  - by rewrite lookup_insert_ne, lookup_alter_ne.
Qed.

(** A sample is appended to its series; a commit also clears the pending flag. *)
Lemma append_live h A x l c b :
  rep h A -> live h A l (s_Ref x) c -> sample_ok (s_T x, s_V x) -> room A 1 ->
  exists s s' bs c', series_at h l = Some s /\ ms_append s (s_T x) (s_V x) = Ok (s', bs) /\
    fst c' = fst c /\ mjoin (chunked c') = accept (mjoin (chunked c)) (s_T x, s_V x) /\
    let h' := set_series h l (if b : bool then set_pending s' false else s') in
    let A' := <[s_Ref x := c']> A in
    rep h' A' /\ flat A' = flat_sample (flat A) x /\ keeps h A h' A'.
Proof using Type.
  intros Hr [Hl Hc] Hok Hroom. specialize (Hroom _ _ Hc).
  destruct (rp_loc _ _ _ (proj1 Hr) _ _ _ Hl Hc) as (s & Hs & Hid & Els & Hh & Hp).
  destruct (append_accept _ _ _ _ Hh Hok) as (s' & bs & ls' & Ha & Hs' & (Er' & Els' & _ & Ep' & _) & Ej); [lia|].
  set (c' := (fst c, (ls', if b then false else pending c)) : content).
  exists s, s', bs, c'. do 4 (split; [done|]). cbn zeta. split; [|split].
  - apply (set_rep Sum64 h A _ l c); try done; destruct b; cbn; try congruence. by destruct s', Hs'.
  - rewrite flat_insert. unfold flat_sample. apply map_eq. intros k. destruct (decide (s_Ref x = k)) as [<-|Hk].
    + rewrite lookup_insert_eq, lookup_alter_eq. unfold flat. rewrite lookup_fmap, Hc. cbn. by rewrite Ej.
    + by rewrite lookup_insert_ne, lookup_alter_ne.
  - intros k i d [Hk Hd]. destruct (decide (s_Ref x = i)) as [<-|Hi].
    + exists c'. split; [split; [done|by rewrite lookup_insert_eq]|]. cbn. congruence.
    + exists d. split; [split; [done|by rewrite lookup_insert_ne]|done].
Qed.

Lemma room_step A n id c c' x :
  room A (S n) -> A !! id = Some c -> mjoin (chunked c') = accept (mjoin (chunked c)) x -> room (<[id := c']> A) n.
Proof using Type.
  intros Hroom Hc Ej i d. destruct (decide (id = i)) as [<-|Hi].
  - rewrite lookup_insert_eq. intros [= <-]. specialize (Hroom _ _ Hc). pose proof (accept_length (mjoin (chunked c)) x).
    rewrite Ej. lia.
  - rewrite lookup_insert_ne by done. intros Hd. specialize (Hroom _ _ Hd). lia.
Qed.

Lemma room_weaken A n m : room A n -> (m <= n)%nat -> room A m.
Proof using Type. intros Hroom Hm id c Hc. specialize (Hroom _ _ Hc). lia. Qed.

Lemma commit_samples_ok h A D xs rs :
  rep h A -> shows A D -> Forall2 (buffers h A) xs rs -> Forall (fun r => sample_ok (snd r)) rs -> room A (length xs) ->
  exists h' A', commit_samples h xs = Ok h' /\ rep h' A' /\ shows A' (spec_commit D rs) /\
    flat A' = flat_samples (flat A) (fst <$> xs) /\ h_minTime h' = h_minTime h /\ h_maxTime h' = h_maxTime h.
Proof using Type.
  revert rs h A D.
  induction xs as [|[x l] xs IH]; intros rs h A D Hr HD Hb Hrs Hroom; inversion Hb as [|? r ? rs' Hx Hb']; subst; cbn [commit_samples].
  { by exists h, A. }
  apply Forall_cons in Hrs as [Hok Hrs].
  destruct Hx as (c & Hlc & Er & E). cbn [fst snd] in *.
  destruct (append_live h A x l c true Hr Hlc) as (s & s' & bs & c' & -> & -> & El & Ej & Hr' & Hflat & Hk).
  { by rewrite E. }
  { eapply room_weaken; [exact Hroom|cbn; lia]. }
  rewrite E in Ej. pose proof (shows_alter A D _ c c' r HD (rp_unique _ _ _ (proj1 Hr)) (proj2 Hlc) El Er Ej) as HD'.
  cbn [res_bind]. destruct (IH rs' _ _ _ Hr' HD') as (h2 & A2 & -> & Hr2 & HD2 & Hf2 & ? & ?).
  - exact (buffers_keeps _ _ _ _ _ _ Hk Hb').
  - done.
  - exact (room_step _ _ _ _ _ _ Hroom (proj2 Hlc) Ej).
  - exists h2, A2. split_and!; try done. by rewrite Hf2, Hflat.
Qed.

(** Logging changes only the log. *)
Lemma a_log_head h a : fst (a_log h a) = h \/ exists w, fst (a_log h a) = with_wal h w.
Proof using Type.
  unfold a_log. destruct (h_wal h) as [w|]; [|by left]. right. repeat (case_match; cbn [fst]); by eexists.
Qed.

Lemma a_log_rep h A a : rep h A -> rep (fst (a_log h a)) A.
Proof using Type. destruct (a_log_head h a) as [->|[w ->]]; [done|]. by apply with_wal_rep. Qed.

Lemma a_log_buffers h A a xs rs : Forall2 (buffers h A) xs rs -> Forall2 (buffers (fst (a_log h a)) A) xs rs.
Proof using Type. destruct (a_log_head h a) as [->|[w ->]]; done. Qed.

Lemma a_log_times h a : h_minTime (fst (a_log h a)) = h_minTime h /\ h_maxTime (fst (a_log h a)) = h_maxTime h.
Proof using Type. by destruct (a_log_head h a) as [->|[w ->]]. Qed.

(** ** A transaction *)

Lemma spec_adds_grows m D rs :
  let '(D', taken, _) := spec_adds m D rs in
  (length taken <= length rs)%nat /\ (forall lset xs, D' !! lset = Some xs -> D !! lset = Some xs \/ xs = []) /\
  Forall (fun r => r ∈ rs) taken.
Proof using Type.
  revert D. induction rs as [|r rs IH]; intros D; cbn [spec_adds]; [split_and!; [done|by left|constructor]|].
  assert (H1 : forall lset xs, fst (spec_add m D r) !! lset = Some xs -> D !! lset = Some xs \/ xs = []).
  { intros lset xs. unfold spec_add. destruct (_ <? _); [by left|]. cbn [fst]. destruct (decide (fst r = lset)) as [<-|Hne].
    - rewrite lookup_insert_eq. destruct (D !! fst r); intros [= <-]; [by left|by right].
    - rewrite lookup_insert_ne by done. by left. }
  destruct (spec_add m D r) as [D1 e]. cbn [fst] in H1. specialize (IH D1).
  destruct (spec_adds m D1 rs) as [[D2 taken] es]. destruct IH as (IHl & IHd & IHt).
  assert (IHt' : Forall (fun x => x ∈ r :: rs) taken) by (eapply Forall_impl; [exact IHt|]; intros; by right).
  split_and!.
  - destruct e; cbn [length]; lia.
  - intros lset xs [Hx|]%IHd; [by apply H1|by right].
  - destruct e; [done|]. constructor; [by left|done].
Qed.

Lemma appender_rep h A D : rep h A -> shows A D -> app_rep (flat A) h A D (appender h) [].
Proof using Type. intros Hr HD. split; try done; constructor. Qed.

Lemma Commit_ok F0 h A D a taken :
  app_rep F0 h A D a taken -> Forall (fun r => sample_ok (snd r)) taken -> room A (length taken) ->
  exists h2 A2, a_Commit h a = Ok (h2, snd (a_log h a)) /\ rep h2 A2 /\
    match snd (a_log h a) with
    | Some _ => shows A2 D
    | None => shows A2 (spec_commit D taken) /\ flat A2 = flat_samples (flat_series F0 (ap_series a)) (fst <$> ap_samples a) /\
        Forall (fun r => h_minTime h2 <= fst (snd r) <= h_maxTime h2) taken /\
        h_minTime h2 <= h_minTime h /\ h_maxTime h <= h_maxTime h2
    end.
Proof using Type.
  intros [Hr HD Hsm Hser _ Htm] Hok Hroom. unfold a_Commit.
  pose proof (a_log_rep h A a Hr) as Hr1. pose proof (a_log_buffers _ _ a _ _ Hsm) as Hb. pose proof (a_log_times h a) as [Et1 Et2].
  destruct (a_log h a) as [h1 [e|]]; cbn [fst snd] in *; [by exists h1, A|].
  pose proof (Forall2_length _ _ _ Hsm) as Hlen.
  destruct (commit_samples_ok _ _ _ _ _ Hr1 HD Hb Hok) as (h2 & A2 & -> & Hr2 & HD2 & Hf & Emin & Emax); [by rewrite Hlen|].
  cbn [res_bind]. eexists _, A2. split; [done|]. split; [by apply with_times_rep|]. rewrite Hf, Hser.
  split_and!; try done; cbn [updateMinMaxTime with_times h_minTime h_maxTime].
  - eapply Forall_impl; [exact Htm|]. cbn. intros r ?. repeat case_match; lia.
  - case_match; lia.
  - case_match; lia.
Qed.

(** C9: an appender refines the abstract one, in which the database maps label
    sets to their samples.  Each [Add] answers as the abstract [Add] does: a time
    before the appender's first valid time is out of bounds; otherwise the series
    exists from then on, and the sample must not be earlier than the last one of
    the series or differ from it at the same time.  [Commit] then appends the
    samples taken, dropping those that an earlier one of the same transaction
    has made late, and the head's times cover them; when the log fails, it
    returns the error and appends nothing. *)
Theorem Add_Commit_refines (h : Head W) (A : contents) (D : db) (rs : list request) :
  rep h A -> shows A D -> Forall request_ok rs -> h_lastSeriesID h + Z.of_nat (length rs) < max_id ->
  Z.of_nat (length rs) <= 65535 ->
  (forall lset xs, D !! lset = Some xs -> Z.of_nat (length xs + length rs) <= 65535) ->
  let '(D1, taken, es) := spec_adds (ap_minValidTime (appender h)) D rs in
  exists h1 a1 h2 A2, adds h (appender h) rs = (h1, a1, es) /\
    a_Commit h1 a1 = Ok (h2, snd (a_log h1 a1)) /\ rep h2 A2 /\
    match snd (a_log h1 a1) with
    | Some _ => shows A2 D1
    | None => shows A2 (spec_commit D1 taken) /\ Forall (fun r => h_minTime h2 <= fst (snd r) <= h_maxTime h2) taken
    end.
Proof using Type.
  intros Hr HD Hrs Hid Hlen Hroom. pose proof (adds_ok _ _ _ _ _ _ rs (appender_rep _ _ _ Hr HD) Hrs Hid) as Ha.
  pose proof (spec_adds_grows (ap_minValidTime (appender h)) D rs) as Hg.
  destruct (spec_adds _ D rs) as [[D1 taken] es]. destruct Hg as (Hl & Hd & Ht). destruct Ha as (h1 & A1 & a1 & Hadds & Ha1 & _).
  cbn [app] in Ha1. destruct (Commit_ok _ _ _ _ _ _ Ha1) as (h2 & A2 & Hc & Hr2 & Hm).
  - rewrite Forall_forall in Hrs, Ht |- *. intros r Hin%Ht. by apply Hrs.
  - intros id c Hc. assert (Hs : D1 !! fst c = Some (mjoin (chunked c))) by (apply (ar_shows _ _ _ _ _ _ Ha1); by exists id, c).
    apply Hd in Hs as [Hs|Hs]; [apply Hroom in Hs; lia|]. rewrite Hs. cbn. lia.
  - exists h1, a1, h2, A2. split_and!; [done..|]. by destruct (snd (a_log h1 a1)); [|destruct Hm as (? & _ & ? & _)].
Qed.
End Append.

(** An example: a head with a log, and a transaction. *)
Module AppendExample.
Definition sum (l : list Z) : Z := foldl Z.add 0 l.

Definition fresh : Head (list (list Z)) :=
  mkHead 1000 (Some []) 10 10 0 [] ∅ ∅ ∅ ∅ NewUnorderedMemPostings NewMemTombstones.

Definition reqs : list (Labels * Buffer.sample) :=
  [([("a", "1")], (10, 1)); ([("a", "2")], (12, 5)); ([("a", "1")], (11, 2)); ([("a", "1")], (11, 3)); ([("a", "2")], (-900, 1))]%string.

Lemma fresh_rep : rep sum fresh ∅.
Proof.
  destruct (NewHead_rep sum (Some ([] : list (list Z))) 1000) as (h & [= <-] & Hr); [unfold range_ok; lia|].
  exact (proj1 (with_times_rep sum _ ∅ 10 10) Hr).
Qed.

Lemma empty_shows : shows ∅ ∅.
Proof. intros lset xs. rewrite lookup_empty. split; [done|]. intros (id & c & Hc & _). by rewrite lookup_empty in Hc. Qed.

(** The transaction on the head: the samples taken, the errors and the commit.
    The second sample at time 11 is only seen to be late by the commit. *)
Example transaction :
  (let '(h, a, es) := adds sum fresh (appender fresh) reqs in
   let? (h, e) := a_Commit h a in
   Ok (es, e, (fun s => (ms_ref s, length (ms_chunks s), ms_lastValue s)) <$> h_heap h, (h_minTime h, h_maxTime h))) =
  Ok ([None; None; None; None; Some ErrOutOfBounds], None, [(1, 1%nat, 2); (2, 1%nat, 5)], (10, 12)).
Proof. by vm_compute. Qed.
End AppendExample.

Lemma Add_Commit_refines_witness :
  let '(D1, taken, es) := spec_adds (ap_minValidTime (appender AppendExample.fresh)) ∅ AppendExample.reqs in
  exists h1 a1 h2 A2,
    adds AppendExample.sum AppendExample.fresh (appender AppendExample.fresh) AppendExample.reqs = (h1, a1, es) /\
    a_Commit h1 a1 = Ok (h2, snd (a_log h1 a1)) /\ rep AppendExample.sum h2 A2 /\
    match snd (a_log h1 a1) with
    | Some _ => shows A2 D1
    | None => shows A2 (spec_commit D1 taken) /\ Forall (fun r => h_minTime h2 <= fst (snd r) <= h_maxTime h2) taken
    end.
Proof.
  apply (Add_Commit_refines AppendExample.sum AppendExample.fresh ∅ ∅ AppendExample.reqs).
  - exact AppendExample.fresh_rep.
  - exact (AppendExample.empty_shows).
  - unfold request_ok, sample_ok, time_ok, is_u. repeat (constructor; [split; [decided|cbn; lia]|]). constructor.
  - reflexivity.
  - done.
  - intros lset xs. by rewrite lookup_empty.
Defined.
