(* ===== verification/HeadQuery.v ===== *)
(** Querying the head: its index reader holds its series, its chunk reader their
    chunks, so that the block querier gives exactly the visible samples. *)
From S2P Require Import Prelude Order Labels Tombstones Records Postings PostingsSpec MemPostings XorChunk Chunks Buffer SeriesIter SeriesSets Querier MemSeries Head HeadInv HeadAppend.
#[local] Open Scope list_scope.
#[local] Open Scope Z_scope.

Lemma sorted_lt_incr c l : sorted l -> NoDup l -> Forall (fun x => c < x) l -> incr (c :: l).
Proof.
  intros Hs Hnd Hc. constructor; [|done]. clear Hc. induction Hs as [|x l _ IH Hx]; [constructor|].
  apply NoDup_cons in Hnd as [Hin Hnd]. constructor; [by apply IH|]. rewrite Forall_forall in Hx |- *.
  intros y Hy. specialize (Hx y Hy). assert (x <> y) by (by intros ->). lia.
Qed.

#[export] Instance max_id_pos : PosBound max_id.
Proof. unfold PosBound, max_id. lia. Qed.

Section Index.
Context {W : Type} `{WAL W} (Sum64 : list Z -> Z).
Context (h : Head W) (A : contents) (Hrep : rep Sum64 h A) (Hord : mp_ordered (h_postings h) = true).
Context (mint maxt : Z).

(** The series of the head, as an index holds them. *)
Definition head_series : list iseries := prod_map id fst <$> map_to_list A.

Lemma elem_head_series i ls : (i, ls) ∈ head_series <-> exists c, A !! i = Some c /\ fst c = ls.
Proof using Type.
  unfold head_series. rewrite list_elem_of_fmap. split.
  - intros ([j c] & [= -> ->] & Hc%elem_of_map_to_list). by exists c.
  - intros (c & Hc & <-). exists (i, c). split; [done|]. by apply elem_of_map_to_list.
Qed.

Lemma fst_head_series : fst <$> head_series = (map_to_list A).*1.
Proof using Type. unfold head_series. by rewrite <- list_fmap_compose. Qed.

Lemma elem_fst_head_series i : i ∈ fst <$> head_series <-> is_Some (A !! i).
Proof using Type.
  rewrite list_elem_of_fmap. split.
  - intros ([j ls] & -> & (c & Hc & _)%elem_head_series). by exists c.
  - intros [c Hc]. exists (i, fst c). split; [done|]. apply elem_head_series. by exists c.
Qed.

(** The list of a key, through [Get]. *)
Lemma Get_resumes n v :
  exists r, resumes max_id (mp_Get (h_postings h) n v) r /\ r = mp_list (h_postings h) (n, v).
Proof using Hrep Hord.
  unfold mp_Get, mp_list. destruct (mp_m (h_postings h) !! (n, v)) as [l|] eqn:E; cbn [default].
  - exists l. split; [|exact (eq_sym (f_equal (default []) E))]. apply resumes_list; [apply _|]. destruct Hrep as [Hs Hi].
    assert (El : mp_list (h_postings h) (n, v) = l) by exact (f_equal (default []) E).
    pose proof (rp_nodup _ _ Hi (n, v)) as Hnd. rewrite El in Hnd.
    assert (Hin : forall i, i ∈ l -> 0 < i < max_id).
    { intros i Hin. assert (Hin' : i ∈ mp_list (h_postings h) (n, v)) by (by rewrite El).
      apply (rp_postings _ _ Hi) in Hin' as (c & Hc & _). destruct (rp_ids _ _ _ Hs _ _ Hc). pose proof (rp_last _ _ _ Hs). lia. }
    split; [unfold max_id; lia|]. split.
    + apply sorted_lt_incr; [by apply (rp_inv _ _ Hi) in E as [_ ?]; auto|done|]. apply Forall_forall. intros i Hi'%Hin. lia.
    + apply Forall_forall. intros i Hi'%Hin. lia.
  - exists []. split; [|exact (eq_sym (f_equal (default []) E))]. apply resumes_err, _.
Qed.

Lemma hi_values_spec n :
  n <> EmptyString ->
  increasing id str_cmp (hi_values (indexRange h mint maxt) n) /\
  forall v, v ∈ hi_values (indexRange h mint maxt) n <-> exists s, s ∈ head_series /\ (n, v) ∈ snd s.
Proof using Hrep.
  intros Hn. unfold hi_values. cbn [indexRange hi_head]. set (vs := default ∅ _). split.
  - apply (sorted_increasing id str_cmp); [|apply (sort_by_sorted id str_cmp)].
    rewrite list_fmap_id, (sort_by_perm id str_cmp). apply NoDup_elements.
  - intros v. rewrite (sort_by_perm id str_cmp), elem_of_elements. unfold vs. rewrite (rp_values _ _ (proj2 Hrep)) by done. split.
    + intros (i & c & Hc & Hin). exists (i, fst c). split; [|done]. apply elem_head_series. by exists c.
    + intros ([i ls] & (c & Hc & <-)%elem_head_series & Hin). by exists i, c.
Qed.

Lemma lset_of_live i c : A !! i = Some c -> lset_of h i = fst c.
Proof using Hrep.
  intros Hc. destruct (rep_lookup _ _ _ _ _ (proj1 Hrep) Hc) as (l & Hl & Hlc). unfold lset_of, getByID. rewrite Hl.
  by eapply loc_lset.
Qed.

(** Sorting by labels: they are distinct. *)
Lemma SortedPostings_ok p r :
  PostingsSpec.denotes max_id p r -> r ⊆ (fst <$> head_series) ->
  exists r', p_gives (hi_SortedPostings (indexRange h mint maxt) p) r' /\ r' ≡ₚ r /\
    forall i j a b la lb, r' !! i = Some a -> r' !! j = Some b -> (i < j)%nat ->
      (a, la) ∈ head_series -> (b, lb) ∈ head_series -> labels_cmp la lb = Lt.
Proof using Hrep.
  intros Hp Hsub. unfold hi_SortedPostings. rewrite (denotes_Expand _ _ _ Hp). cbn [indexRange hi_head].
  set (r' := sort_by (lset_of h) labels_cmp r). exists r'.
  assert (Hperm : r' ≡ₚ r) by apply sort_by_perm. split; [apply of_list_gives|]. split; [done|].
  assert (Hinc : increasing (lset_of h) labels_cmp r').
  { apply (sorted_increasing (lset_of h) labels_cmp); [|apply (sort_by_sorted (lset_of h) labels_cmp)].
    rewrite Hperm. apply NoDup_fmap_2_strong; [|apply incr_NoDup; by eapply denotes_incr].
    intros i j [c Hc]%Hsub%elem_fst_head_series [d Hd]%Hsub%elem_fst_head_series.
    rewrite (lset_of_live _ _ Hc), (lset_of_live _ _ Hd). by apply (rp_unique _ _ _ (proj1 Hrep)). }
  intros i j a b la lb Ha Hb Hij (c & Hc & <-)%elem_head_series (d & Hd & <-)%elem_head_series.
  pose proof (StronglySorted_lookup_lt _ _ i j _ _ Hinc Ha Hb Hij) as Hlt. cbn in Hlt.
  by rewrite (lset_of_live _ _ Hc), (lset_of_live _ _ Hd) in Hlt.
Qed.

Lemma head_index_holds : IndexHolds max_id (indexRange h mint maxt) head_series.
Proof using Hrep Hord.
  split.
  - intros n Hn. destruct (hi_values_spec n Hn) as [Hi Hv]. eexists _, (hi_values (indexRange h mint maxt) n).
    split; [done|]. split; [|done]. split; [done|]. intros i v Hi'. cbn [st_At]. by rewrite Hi'.
  - intros n v Hn. destruct (Get_resumes n v) as (r & Hr & E). eexists _, r. split; [done|]. split; [done|].
    intros i. rewrite E, (rp_postings _ _ (proj2 Hrep)). split.
    + intros (c & Hc & [[= ? ?]|Hin]); [done|]. exists (fst c). split; [|done]. apply elem_head_series. by exists c.
    + intros (ls & (c & Hc & <-)%elem_head_series & Hin). exists c. by split; [|right].
  - destruct (Get_resumes (fst AllPostingsKey) (snd AllPostingsKey)) as (r & Hr & E). eexists _, r. split; [done|]. split; [done|].
    intros i. rewrite E, (rp_postings _ _ (proj2 Hrep)), elem_fst_head_series. split.
    + intros (c & Hc & _). by exists c.
    + intros [c Hc]. exists c. by split; [|left].
  - apply SortedPostings_ok.
  - intros [i ls] (c & Hc & <-)%elem_head_series. destruct (rp_ids _ _ _ (proj1 Hrep) _ _ Hc) as [_ (Hnd & Hne & _)].
    split; [by apply (increasing_NoDup fst str_cmp)|]. eapply Forall_impl; [exact Hne|]. by intros l [_ ?].
  - rewrite fst_head_series. apply NoDup_fst_map_to_list.
Qed.
End Index.

(** * The chunks of a series *)

(** The first and the last time of a chunk's samples. *)
Definition span (l : list Buffer.sample) : Z * Z := (default 0 (fst <$> head l), default 0 (fst <$> last l)).

Definition in_span (lo hi : Z) (l : list Buffer.sample) : Prop := fst (span l) <= hi /\ lo <= snd (span l).

#[export] Instance in_span_dec lo hi l : Decision (in_span lo hi l).
Proof. unfold in_span. apply _. Defined.

(** The times of a chunk are those of its samples. *)
Lemma chunk_holds_span c a l : chunk_holds c a l -> span l = (mc_minTime c, mc_maxTime c).
Proof. intros (_ & _ & Hmin & Hmax). unfold span. by rewrite Hmin, Hmax. Qed.

Lemma chunk_holds_overlaps c a l lo hi : chunk_holds c a l -> mc_Overlaps c lo hi = true <-> in_span lo hi l.
Proof.
  intros Hc. unfold mc_Overlaps, in_span. rewrite (chunk_holds_span _ _ _ Hc), andb_true_iff, !Z.leb_le. done.
Qed.

(** The ids of the chunks fit their references. *)
Definition ids_fit (s : memSeries) : Prop := 0 <= ms_firstChunkID s /\ ms_firstChunkID s + zlen (ms_chunks s) <= 2 ^ 24.

#[export] Instance ids_fit_dec s : Decision (ids_fit s).
Proof. unfold ids_fit. apply _. Defined.

Lemma times_between (l : list Buffer.sample) a b :
  increasing_times l -> fst <$> head l = Some a -> fst <$> last l = Some b -> Forall (fun s => a <= fst s <= b) l.
Proof.
  intros Hl (x & Hx & ->)%fmap_Some (y & Hy & ->)%fmap_Some. apply Forall_forall. intros z Hz. split.
  - destruct l as [|x' l]; [done|]. injection Hx as ->. apply elem_of_cons in Hz as [->|Hz]; [lia|].
    apply StronglySorted_inv in Hl as [_ Hl]. rewrite Forall_forall in Hl. specialize (Hl _ Hz). lia.
  - apply last_Some in Hy as [l' ->]. apply increasing_app in Hl as (_ & _ & Hl). apply elem_of_app in Hz as [Hz|Hz%list_elem_of_singleton].
    + rewrite Forall_forall in Hl. specialize (Hl _ Hz). apply Forall_inv in Hl. lia.
    + subst. lia.
Qed.

Section Chunks.
Context (s : memSeries) (ls : list (list Buffer.sample)) (Hs : ms_holds s ls) (Hfit : ids_fit s).
Context (Hid : 0 <= ms_ref s < 2 ^ 40) (lo hi : Z).

(** A chunk exposed, with its samples: chunk [j] of the series. *)
Definition exposes (cl : Meta safeChunk * list Buffer.sample) : Prop :=
  exists j c, ms_chunks s !! j = Some c /\ ls !! j = Some (snd cl) /\ mc_Overlaps c lo hi = true /\
    (exists ref, packChunkID (ms_ref s) (ms_chunkID s (Z.of_nat j)) = Ok ref /\
       fst cl = mkMeta ref None (mc_minTime c) (mc_maxTime c)).

Lemma chunk_ref j c : ms_chunks s !! j = Some c ->
  exists ref, packChunkID (ms_ref s) (ms_chunkID s (Z.of_nat j)) = Ok ref /\
    unpackChunkID ref = (ms_ref s, ms_chunkID s (Z.of_nat j)) /\ 0 <= ms_chunkID s (Z.of_nat j) < 2 ^ 24.
Proof using Hfit Hid.
  intros Hj%lookup_lt_Some. unfold ids_fit, zlen in Hfit.
  assert (Hc : 0 <= ms_chunkID s (Z.of_nat j) < 2 ^ 24) by (unfold ms_chunkID; lia).
  destruct (pack_unpack (ms_ref s) (ms_chunkID s (Z.of_nat j))) as (ref & ? & ? & _); [done..|]. by exists ref.
Qed.

Lemma exposed_ok j :
  exists cls, exposed (C := safeChunk) lo hi s (Z.of_nat j) (drop j (ms_chunks s)) = Ok (fst <$> cls) /\
    Forall exposes cls /\ snd <$> cls = filter (in_span lo hi) (drop j ls).
Proof using Hs Hfit Hid.
  pose proof (Forall2_length _ _ _ (mh_chunks _ _ Hs)) as Hlen.
  remember (length (ms_chunks s) - j)%nat as n eqn:En. revert j En. induction n as [|n IH]; intros j En.
  { exists []. rewrite !drop_ge by lia. split_and!; [done|constructor|done]. }
  destruct (lookup_lt_is_Some_2 (ms_chunks s) j) as [c Hc]; [lia|].
  destruct (Forall2_lookup_l _ _ _ _ _ (mh_chunks _ _ Hs) Hc) as (l & Hl & a & Ha).
  rewrite (drop_S _ _ _ Hc), (drop_S _ _ _ Hl), filter_cons. cbn [exposed].
  destruct (IH (S j) ltac:(lia)) as (cls & Hcls & Hex & Esnd).
  replace (Z.of_nat j + 1) with (Z.of_nat (S j)) by lia. rewrite Hcls. cbn [res_bind].
  pose proof (chunk_holds_overlaps c a l lo hi Ha) as Hov. destruct (mc_Overlaps c lo hi) eqn:Eov; cbn [negb].
  - destruct (chunk_ref j c Hc) as (ref & Hp & _ & Hb). rewrite u64_small by (unfold is_u; lia). rewrite Hp. cbn [res_bind].
    exists ((mkMeta ref None (mc_minTime c) (mc_maxTime c), l) :: cls). rewrite decide_True by by apply Hov.
    split_and!; [done| |cbn; by rewrite Esnd]. constructor; [|done]. exists j, c. split_and!; [done..|]. by exists ref.
  - exists cls. rewrite decide_False; [done|]. intros Hin%Hov. done.
Qed.

End Chunks.

(** The samples of chunks outside of the range are not in the range. *)
Lemma visible_spans lo hi ivs (ls : list (list Buffer.sample)) :
  Forall (fun l => l <> []) ls -> increasing_times (mjoin ls) ->
  visible lo hi ivs (mjoin (filter (in_span lo hi) ls)) = visible lo hi ivs (mjoin ls).
Proof.
  induction 1 as [|l ls Hne _ IH]; [done|]. rewrite !join_cons. intros (Hl & Hsort & _)%increasing_app.
  rewrite filter_cons. unfold visible, kept in *. rewrite !filter_app. case_decide as Hin.
  - rewrite join_cons, !filter_app. f_equal. by apply IH.
  - rewrite (IH Hsort). rewrite (filter_none (in_range lo hi) (filter _ l)); [done|]. apply Forall_filter_weaken.
    destruct (head l) as [a|] eqn:Ea; [|by destruct l]. destruct (last l) as [b|] eqn:Eb; [|by apply last_None in Eb].
    unfold in_span, span in Hin. rewrite Ea, Eb in Hin. cbn in Hin.
    eapply Forall_impl; [exact (times_between l (fst a) (fst b) Hl ltac:(by rewrite Ea) ltac:(by rewrite Eb))|].
    unfold in_range. cbn. intros x Hx Hr. apply Hin. lia.
Qed.

Lemma increasing_filter (P : list Buffer.sample -> Prop) `{!forall l, Decision (P l)} (ls : list (list Buffer.sample)) :
  increasing_times (mjoin ls) -> increasing_times (mjoin (filter P ls)).
Proof.
  induction ls as [|l ls IH]; [done|]. rewrite join_cons, filter_cons. intros (Hl & Hk & Hlk)%increasing_app.
  case_decide; [|by apply IH]. rewrite join_cons. apply increasing_app_intro; [done|by apply IH|].
  eapply Forall_impl; [exact Hlk|]. intros a Ha. cbn beta in Ha. rewrite Forall_forall in Ha |- *.
  intros b (k & Hb & [_ Hin]%list_elem_of_filter)%list_elem_of_join. apply Ha, list_elem_of_join. by exists k.
Qed.

(** Chunks in the order of their samples are in the order of their times. *)
Lemma spans_order {C} (cls : list (Meta C * list Buffer.sample)) :
  Forall (fun cl => span (snd cl) = (m_MinTime (fst cl), m_MaxTime (fst cl)) /\ snd cl <> []) cls ->
  increasing_times (mjoin (snd <$> cls)) ->
  StronglySorted (fun c d => m_MaxTime (fst c) < m_MinTime (fst d)) cls.
Proof.
  induction 1 as [|cl cls [Hcl Hne] Hcls IH]; [constructor|]. rewrite fmap_cons, join_cons.
  intros (Hl & Hsort & Hlt)%increasing_app. constructor; [by apply IH|]. apply Forall_forall. intros dl Hd.
  rewrite Forall_forall in Hcls. destruct (Hcls _ Hd) as [Hdl Hdne]. unfold span in Hcl, Hdl.
  destruct (last (snd cl)) as [b|] eqn:Eb; [|by apply last_None in Eb]. destruct (head (snd dl)) as [a|] eqn:Ea; [|by destruct (snd dl)].
  injection Hcl as _ <-. injection Hdl as <- _. cbn. apply last_Some_elem_of in Eb. rewrite Forall_forall in Hlt.
  specialize (Hlt _ Eb). rewrite Forall_forall in Hlt. apply Hlt, list_elem_of_join. exists (snd dl).
  split; [by destruct (snd dl); [|injection Ea as ->; left]|by apply (list_elem_of_fmap_2 snd)].
Qed.

(** * Queries on the head *)

Section Query.
Context {W : Type} `{WAL W} (Sum64 : list Z -> Z).
Context (h : Head W) (A : contents) (Hrep : rep Sum64 h A).
Context (mint maxt : Z).

Abbreviation ix := (indexRange h mint maxt).
Abbreviation cr := (chunksRange h mint maxt).
Abbreviation tr := (h_tombstones h).

(** A chunk of a series keeps a sample from [mint] on, unless a single interval
    covers it or it ends before. *)
Definition survives (ivs : Intervals) (l : list Buffer.sample) : Prop :=
  isSubrange (mkInterval (fst (span l)) (snd (span l))) ivs = false -> mint <= snd (span l) ->
  Exists (fun s => mint <= fst s /\ deleted ivs (fst s) = false) l.

Context (Hfit : Forall ids_fit (h_heap h)) (Hord : forall id, ordered (Get tr id)).
Context (Hsurv : forall id c l, A !! id = Some c -> l ∈ chunked c -> survives (Get tr id) l).

(** The head hides chunks that end before its first time. *)
Definition lo : Z := if mint <? h_minTime h then h_minTime h else mint.

(** The series [id] as a block's. *)
Record is_bseries (id : Z) (c : content) (b : bseries safeChunk) : Prop := {
  ib_ref : b_ref b = id;
  ib_lset : b_lset b = fst c;
  ib_ivs : b_ivs b = Get tr id;
  ib_chunks : snd <$> b_chunks b = filter (in_span lo maxt) (chunked c);
  ib_ok : series_ok mint maxt ix cr tr b;
}.

Section Series.
Context (id : Z) (c : content) (Hc : A !! id = Some c).
Context (l : loc) (s : memSeries) (Hl : h_series h !! id = Some l) (Hs : h_heap h !! l = Some s).
Context (Eid : ms_ref s = id) (Hh : ms_holds s (chunked c)).

Lemma id_range : 0 <= ms_ref s < 2 ^ 40.
Proof using Hc Hrep Eid. rewrite Eid. destruct (rp_ids _ _ _ (proj1 Hrep) _ _ Hc). pose proof (rp_last _ _ _ (proj1 Hrep)). unfold max_id in *. lia. Qed.

Lemma series_fit : ids_fit s.
Proof using Hs Hfit. rewrite Forall_forall in Hfit. apply Hfit. by eapply list_elem_of_lookup_2. Qed.

Lemma exposes_span cl : exposes s (chunked c) lo maxt cl -> span (snd cl) = (m_MinTime (fst cl), m_MaxTime (fst cl)) /\ snd cl <> [].
Proof using Hh.
  intros (j & mc & Hj & Hcl & _ & ref & _ & E). rewrite E.
  destruct (Forall2_lookup_lr _ _ _ _ _ _ (mh_chunks _ _ Hh) Hj Hcl) as [a Ha]. split; [by eapply chunk_holds_span|].
  destruct Ha as (_ & _ & Hmin & _). by intros E'; rewrite E' in Hmin.
Qed.

Lemma hc_Chunk_ok cl : exposes s (chunked c) lo maxt cl ->
  exists it, hc_Chunk cr (m_Ref (fst cl)) = Ok (mkSafeChunk s (snd (unpackChunkID (m_Ref (fst cl))))) /\
    ms_iterator s (snd (unpackChunkID (m_Ref (fst cl)))) = Ok it /\ gives it (snd cl).
Proof using Hc Hrep Eid Hs Hl Hh Hfit.
  intros (j & mc & Hj & Hcl & Hov & ref & Href & E). rewrite E. cbn [m_Ref].
  destruct (chunk_ref s series_fit id_range j mc Hj) as (ref' & Href' & Hun & Hb). assert (ref' = ref) as -> by congruence.
  destruct (ms_iterator_ok _ _ _ _ Hh Hcl) as (it & Hit & Hg). exists it. unfold hc_Chunk. rewrite Hun. cbn [snd].
  unfold getByID, series_at. cbn [chunksRange hc_head hc_mint hc_maxt]. rewrite Eid, Hl, Hs.
  rewrite i64_small by (unfold is_s; lia). unfold ms_chunk at 1, ms_chunkID at 1 2 3.
  pose proof (lookup_lt_Some _ _ _ Hj) as Hlt. rewrite Z.add_simpl_r, Nat2Z.id.
  rewrite (proj2 (Z.ltb_ge _ _)), (proj2 (Z.leb_gt _ _)) by (unfold zlen; lia). cbn [orb]. rewrite Hj.
  fold lo. rewrite Hov. done.
Qed.

Lemma exposed_chunk_ok cl : exposes s (chunked c) lo maxt cl -> chunk_ok mint maxt cr (Get tr id) cl.
Proof using Hc Hrep Eid Hs Hl Hh Hfit Hsurv.
  intros Hex. destruct (hc_Chunk_ok _ Hex) as (it & Hck & Hit & Hg). destruct (exposes_span _ Hex) as [Hspan Hne].
  assert (Hin : snd cl ∈ chunked c) by (destruct Hex as (j & mc & _ & Hcl & _); by eapply list_elem_of_lookup_2).
  pose proof (increasing_part _ _ (mh_sorted _ _ Hh) Hin) as Hl'.
  destruct (head (snd cl)) as [a|] eqn:Ea; [|by destruct (snd cl)].
  destruct (last (snd cl)) as [b|] eqn:Eb; [|by apply last_None in Eb].
  pose proof Hspan as Hspan'. unfold span in Hspan'. rewrite Ea, Eb in Hspan'. cbn in Hspan'. injection Hspan' as Emin Emax.
  pose proof (times_between _ (fst a) (fst b) Hl' ltac:(by rewrite Ea) ltac:(by rewrite Eb)) as Hbt.
  rewrite Emin, Emax in Hbt. split_and!; [by eexists _, _|done| |].
  - rewrite Forall_forall in Hbt. apply last_Some_elem_of in Eb. specialize (Hbt _ Eb). lia.
  - intros (Hmax & Hmin & Hsub). apply (Hsurv id c); [done|done|by rewrite Hspan|by rewrite Hspan].
Qed.

Lemma live_bseries : exists b, is_bseries id c b.
Proof using Hc Hrep Eid Hs Hl Hh Hfit Hsurv Hord.
  destruct (exposed_ok s (chunked c) Hh series_fit id_range lo maxt 0) as (cls & Hcls & Hex & Esnd).
  rewrite !drop_0 in *. exists (mkBseries id (fst c) cls (Get tr id)). split; try done. split; cbn [b_ref b_lset b_chunks b_ivs].
  - cbn [ix_Series head_index_reader]. unfold hi_Series, getByID, series_at. cbn [indexRange hi_head hi_mint hi_maxt].
    rewrite Hl, Hs. fold lo. change 0 with (Z.of_nat 0). rewrite Hcls. cbn [res_bind].
    destruct (rp_loc _ _ _ (proj1 Hrep) _ _ _ Hl Hc) as (s' & Hs' & _ & El & _). rewrite Hs in Hs'. injection Hs' as <-. by rewrite El.
  - done.
  - apply Hord.
  - eapply Forall_impl; [exact Hex|]. apply exposed_chunk_ok.
  - apply spans_order; [eapply Forall_impl; [exact Hex|]; apply exposes_span|]. rewrite Esnd.
    apply increasing_filter, Hh.
  - rewrite Esnd. apply increasing_filter, Hh.
Qed.
End Series.

Lemma head_bseries id c : A !! id = Some c -> exists b, is_bseries id c b.
Proof using Hrep Hfit Hord Hsurv.
  intros Hc. destruct (rep_lookup _ _ _ _ _ (proj1 Hrep) Hc) as (l & Hl & s & Hs & Eid & _ & Hh & _).
  by eapply live_bseries.
Qed.

Lemma head_bseries_all (ics : list (Z * content)) :
  Forall (fun ic => A !! fst ic = Some (snd ic)) ics -> exists bs, Forall2 (fun ic b => is_bseries (fst ic) (snd ic) b) ics bs.
Proof using Hrep Hfit Hord Hsurv.
  induction 1 as [|[id c] ics Hc _ [bs Hbs]]; [by exists []; constructor|].
  destruct (head_bseries id c Hc) as [b Hb]. exists (b :: bs). by constructor.
Qed.

(** The chunks of a series the head shows: those that do not end before its
    first time. *)
Definition current (c : content) : list (list Buffer.sample) :=
  filter (fun l => h_minTime h <= snd (span l)) (chunked c).

Definition head_visible (id : Z) (c : content) : list Buffer.sample :=
  visible mint maxt (Get tr id) (mjoin (current c)).

Lemma filter_in_span (ls : list (list Buffer.sample)) : filter (in_span lo maxt) ls = filter (in_span mint maxt) (filter (fun l => h_minTime h <= snd (span l)) ls).
Proof using Type.
  rewrite list_filter_filter. apply list_filter_iff. intros l. unfold in_span, lo.
  destruct (Z.ltb_spec mint (h_minTime h)); lia.
Qed.

Lemma is_bseries_visible id c b : A !! id = Some c -> is_bseries id c b -> b_entry mint maxt b = (fst c, head_visible id c).
Proof using Hrep.
  intros Hc [_ El Ei Ech _]. destruct (rep_lookup _ _ _ _ _ (proj1 Hrep) Hc) as (l & _ & s & _ & _ & _ & Hh & _).
  unfold b_entry, b_visible, head_visible. rewrite El, Ei, Ech, filter_in_span. f_equal. apply visible_spans.
  - apply Forall_filter_weaken. pose proof (mh_chunks _ _ Hh) as H2. clear -H2.
    induction H2 as [|mc k cs ls (a & _ & _ & Hmin & _) _ IH]; [constructor|]. constructor; [|done]. by intros ->.
  - apply increasing_filter, Hh.
Qed.

(** What a query gives of the head. *)
Definition head_entries (ms : list Matcher) (es : list entry) : Prop :=
  increasing fst labels_cmp es /\
  (forall e, e ∈ es -> exists id c, A !! id = Some c /\ sel_Matches ms (fst c) = true /\ e = (fst c, head_visible id c)) /\
  (forall id c, A !! id = Some c -> sel_Matches ms (fst c) = true -> head_visible id c <> [] -> (fst c, head_visible id c) ∈ es).

Lemma head_block_entries bs ms es :
  Forall2 (fun ic b => is_bseries (fst ic) (snd ic) b) (map_to_list A) bs ->
  block_entries mint maxt bs ms es -> head_entries ms es.
Proof using Hrep.
  intros Hbs [Hinc He]. split; [done|]. split.
  - intros e (b & Hb & Hm & _ & ->)%He. apply list_elem_of_lookup in Hb as [k Hk].
    destruct (Forall2_lookup_r _ _ _ _ _ Hbs Hk) as ([id c] & Hic & Hb). cbn [fst snd] in Hb.
    apply list_elem_of_lookup_2, elem_of_map_to_list in Hic. exists id, c. rewrite (ib_lset _ _ _ Hb) in Hm.
    split_and!; [done..|]. by apply is_bseries_visible.
  - intros id c Hc Hm Hv. pose proof Hc as Hc'. apply elem_of_map_to_list, list_elem_of_lookup in Hc' as [k Hk].
    destruct (Forall2_lookup_l _ _ _ _ _ Hbs Hk) as (b & Hkb & Hb). cbn [fst snd] in Hb.
    apply He. exists b. rewrite <- (is_bseries_visible _ _ _ Hc Hb). apply list_elem_of_lookup_2 in Hkb.
    split_and!; [done|by rewrite (ib_lset _ _ _ Hb)| |done].
    intros Hq. apply Hv. pose proof (is_bseries_visible _ _ _ Hc Hb) as E. injection E as _ <-.
    unfold b_visible. rewrite <- (visible_queried mint maxt cr) by apply (ib_ok _ _ _ Hb).
    fold (q_chunks mint maxt b). by rewrite Hq.
Qed.

Lemma head_Select_ok ms :
  mp_ordered (h_postings h) = true -> Forall (fun m => m_Name m <> EmptyString) ms -> ms <> [] ->
  exists q st es, head_querier h mint maxt = Ok q /\ block_Select q ms = Ok st /\ set_yields (SetBase st) es /\ head_entries ms es.
Proof using Hrep Hfit Hord Hsurv.
  intros Ho Hms Hne. destruct (head_bseries_all (map_to_list A)) as [bs Hbs].
  { apply Forall_forall. intros [id c] Hic. by apply elem_of_map_to_list in Hic. }
  assert (Eser : b_series <$> bs = head_series A).
  { unfold head_series. clear Hsurv. induction Hbs as [|[id c] b ics bs' Hb _ IH]; [done|]. rewrite !fmap_cons, IH.
    f_equal. unfold b_series. cbn. by rewrite (ib_ref _ _ _ Hb), (ib_lset _ _ _ Hb). }
  pose proof (head_index_holds Sum64 h A Hrep Ho mint maxt) as Hix. rewrite <- Eser in Hix.
  destruct (block_Select_ok mint maxt ix cr tr max_id bs ms Hix) as (st & es & Hst & Hy & He); [|done..|].
  - clear -Hbs. induction Hbs as [|[id c] b ics bs' Hb _ IH]; [constructor|]. constructor; [apply Hb|done].
  - exists (mkBlockQuerier ix cr tr mint maxt), st, es. split_and!; [done..|]. by eapply head_block_entries.
Qed.
End Query.

(** Without tombstones nothing is deleted. *)
Lemma no_stones_survive {W} `{WAL W} Sum64 (h : Head W) A mint :
  rep Sum64 h A -> h_tombstones h = ∅ ->
  forall id c l, A !! id = Some c -> l ∈ chunked c -> survives mint (Get (h_tombstones h) id) l.
Proof.
  intros Hr -> id c l Hc Hl _ Hmax. unfold Get. rewrite lookup_empty. cbn.
  destruct (rep_lookup _ _ _ _ _ (proj1 Hr) Hc) as (k & _ & s & _ & _ & _ & Hh & _).
  apply list_elem_of_lookup in Hl as [j Hj].
  destruct (Forall2_lookup_r _ _ _ _ _ (mh_chunks _ _ Hh) Hj) as (mc & _ & a & _ & _ & _ & Hm).
  apply fmap_Some in Hm as (x & Hx & _). apply Exists_exists. exists x. split; [by apply last_Some_elem_of|].
  unfold span in Hmax. rewrite Hx in Hmax. done.
Qed.

(** C10: a query on the head sees what was appended.  For every time range, the
    block querier over the head's index, chunks and tombstones gives the series
    that satisfy the matchers, by increasing labels, each with exactly the
    samples in the range that are not deleted, of the chunks that do not end
    before the head's first time; a matching series with such a sample is never
    left out.  The chunk ids fit a reference, the tombstones of each series are
    ordered, and (what the chunk iterator needs) a chunk reaching the range that
    no single interval covers keeps a sample from its start on. *)
Theorem head_Select_correct {W : Type} `{WAL W} (Sum64 : list Z -> Z) (h : Head W) (A : contents) (mint maxt : Z)
    (ms : list Matcher) :
  rep Sum64 h A -> mp_ordered (h_postings h) = true -> Forall ids_fit (h_heap h) ->
  (forall id, ordered (Get (h_tombstones h) id)) ->
  (forall id c l, A !! id = Some c -> l ∈ chunked c -> survives mint (Get (h_tombstones h) id) l) ->
  Forall (fun m => m_Name m <> EmptyString) ms -> ms <> [] ->
  exists q st es, head_querier h mint maxt = Ok q /\ block_Select q ms = Ok st /\ set_yields (SetBase st) es /\
    head_entries h A mint maxt ms es.
Proof. intros. by apply (head_Select_ok Sum64). Qed.

(** A head after a transaction, with its postings in order. *)
Module QueryExample.
Definition start : Head (list (list Z)) := EnsureOrder_head AppendExample.fresh.

Definition committed : Head (list (list Z)) :=
  let '(h, a, _) := adds AppendExample.sum start (appender start) AppendExample.reqs in
  match a_Commit h a with Ok (h, _) => h | _ => start end.

Lemma committed_rep : exists A, rep AppendExample.sum committed A /\ shows A
  (list_to_map [([("a", "1")], [(10, 1); (11, 2)]); ([("a", "2")], [(12, 5)])]%string).
Proof.
  assert (Hr : rep AppendExample.sum start ∅).
  { destruct AppendExample.fresh_rep as [[] []]. split; split; try done. }
  pose proof (adds_ok AppendExample.sum _ _ _ _ _ _ AppendExample.reqs (appender_rep _ _ _ _ Hr AppendExample.empty_shows)) as Ha.
  assert (Hok : Forall request_ok AppendExample.reqs).
  { unfold request_ok, sample_ok, time_ok, is_u. repeat (constructor; [split; [decided|cbn; lia]|]). constructor. }
  specialize (Ha Hok eq_refl). pose proof (spec_adds_grows (ap_minValidTime (appender start)) ∅ AppendExample.reqs) as Hg.
  assert (E : let '(D1, taken, _) := spec_adds (ap_minValidTime (appender start)) ∅ AppendExample.reqs in
    spec_commit D1 taken = list_to_map [([("a", "1")], [(10, 1); (11, 2)]); ([("a", "2")], [(12, 5)])]%string).
  { vm_compute. reflexivity. }
  destruct (spec_adds _ ∅ AppendExample.reqs) as [[D1 taken] es]. rewrite <- E. clear E.
  destruct Ha as (h1 & A1 & a1 & Hadds & Ha1 & _), Hg as (Hlen & HD1 & Htaken). cbn [app length AppendExample.reqs] in Ha1, Hlen.
  destruct (Commit_ok _ _ _ _ _ _ _ Ha1) as (h2 & A2 & Hc & Hr2 & Hm).
  - rewrite Forall_forall in Hok, Htaken |- *. intros r Hin%Htaken. by apply Hok.
  - intros id c Hid. pose proof (proj2 (ar_shows _ _ _ _ _ _ _ Ha1 (fst c) (mjoin (chunked c)))) as Hs.
    specialize (Hs (ex_intro _ id (ex_intro _ c (conj Hid (conj eq_refl eq_refl))))).
    apply HD1 in Hs as [Hs|Hs]; [by rewrite lookup_empty in Hs|]. rewrite Hs. cbn. lia.
  - exists A2. unfold committed. rewrite Hadds, Hc. split; [done|].
    assert (El : snd (a_log h1 a1) = None); [|rewrite El in Hm; apply Hm].
    pose proof (f_equal (fun x => snd (a_log (fst (fst x)) (snd (fst x)))) Hadds) as El. cbn [fst snd] in El. rewrite <- El.
    vm_compute. reflexivity.
Qed.
End QueryExample.

Lemma head_Select_correct_witness :
  exists A, rep AppendExample.sum QueryExample.committed A /\
  exists q st es, head_querier QueryExample.committed 5 11 = Ok q /\ block_Select q [EqualMatcher "a" "1"]%string = Ok st /\
    set_yields (SetBase st) es /\ head_entries QueryExample.committed A 5 11 [EqualMatcher "a" "1"]%string es.
Proof.
  destruct QueryExample.committed_rep as (A & Hr & _). exists A. split; [exact Hr|].
  apply (head_Select_correct AppendExample.sum QueryExample.committed A 5 11 [EqualMatcher "a" "1"]%string Hr).
  - vm_compute. reflexivity.
  - decided.
  - intros id. assert (E : h_tombstones QueryExample.committed = ∅) by (vm_compute; reflexivity). rewrite E. exact I.
  - apply (no_stones_survive AppendExample.sum); [exact Hr|vm_compute; reflexivity].
  - decided.
  - discriminate.
Defined.
