(* ===== verification/HeadGc.v ===== *)
(** Garbage collection of the head: exactly the chunks that end before the head's
    first time go, with the series that have none left and await no commit, and
    the index is that of the series that stay. *)
From S2P Require Import Prelude Order Labels Tombstones Records Postings PostingsSpec MemPostings XorChunk Chunks Buffer SeriesIter SeriesSets Querier MemSeries Head HeadInv HeadAppend HeadQuery.
#[local] Open Scope list_scope.
#[local] Open Scope Z_scope.

(** * What is kept of a series *)

Fixpoint drop_before (mint : Z) (ls : list (list Buffer.sample)) : list (list Buffer.sample) :=
  match ls with
  | [] => []
  | l :: ls' => if snd (span l) <? mint then drop_before mint ls' else ls
  end.

Definition gc_content (mint : Z) (c : content) : option content :=
  let ls := drop_before mint (chunked c) in
  if (0 <? length ls)%nat || pending c then Some (fst c, (ls, pending c)) else None.

Lemma drop_before_idem mint ls : drop_before mint (drop_before mint ls) = drop_before mint ls.
Proof.
  induction ls as [|l ls IH]; [done|]. cbn [drop_before]. destruct (Z.ltb_spec (snd (span l)) mint) as [|Hge]; [done|].
  cbn [drop_before]. by rewrite (proj2 (Z.ltb_ge _ _)).
Qed.

Lemma gc_content_idem mint (o : option content) : (o ≫= gc_content mint) ≫= gc_content mint = o ≫= gc_content mint.
Proof.
  destruct o as [[ls [cs p]]|]; [|done]. cbn. unfold gc_content, chunked, pending. cbn [fst snd].
  destruct ((0 <? length (drop_before mint cs))%nat || p) eqn:E; [|done]. cbn [mbind option_bind fst snd].
  by rewrite drop_before_idem, E.
Qed.

Lemma gc_content_lset mint c c' : gc_content mint c = Some c' -> fst c' = fst c.
Proof. unfold gc_content. destruct (_ || _); [|done]. by intros [= <-]. Qed.

(** The chunks that go are those [truncateChunksBefore] drops. *)
Lemma chunks_before_spans mint cs ls :
  Forall2 (fun c l => exists a, chunk_holds c a l) cs ls -> drop (chunks_before mint cs) ls = drop_before mint ls.
Proof.
  induction 1 as [|c l cs ls [a Ha] _ IH]; [done|]. cbn [chunks_before drop_before].
  rewrite (chunk_holds_span _ _ _ Ha). cbn [snd].
  destruct (Z.leb_spec mint (mc_maxTime c)); [by rewrite (proj2 (Z.ltb_ge _ _))|].
  rewrite (proj2 (Z.ltb_lt _ _)) by done. cbn [drop]. exact IH.
Qed.

Lemma truncate_holds s c mint :
  ms_holds s (chunked c) ->
  let s' := fst (truncateChunksBefore s mint) in
  ms_holds s' (drop_before mint (chunked c)) /\ length (ms_chunks s') = length (drop_before mint (chunked c)) /\
  ms_ref s' = ms_ref s /\ ms_lset s' = ms_lset s /\ ms_pendingCommit s' = ms_pendingCommit s.
Proof.
  intros Hs. pose proof (truncate_ok s (chunked c) mint Hs) as [Ht _]. cbn zeta in Ht.
  rewrite (chunks_before_spans _ _ _ (mh_chunks _ _ Hs)) in Ht. cbn zeta. split; [done|]. split; [|done].
  exact (Forall2_length _ _ _ (mh_chunks _ _ Ht)).
Qed.

(** * The series maps *)

Section Gc.
Context {W : Type} `{WAL W} (Sum64 : list Z -> Z).
Abbreviation series_rep := (series_rep Sum64).

(** What the collection of series leaves alone. *)
Definition same_rest (h h' : Head W) : Prop :=
  h_postings h' = h_postings h /\ h_values h' = h_values h /\ h_symbols h' = h_symbols h /\ h_minTime h' = h_minTime h /\
  h_maxTime h' = h_maxTime h.

(** A series is removed from the maps. *)
Lemma remove_series_rep (h : Head W) A id l c :
  series_rep h A -> h_series h !! id = Some l -> A !! id = Some c ->
  let hash := labels_hash Sum64 (fst c) in
  let rem := hm_del h (hash_list h hash) (fst c) in
  let hashes := match rem with [] => delete hash (h_hashes h) | _ => <[hash := rem]> (h_hashes h) end in
  let h' := with_series h (h_heap h) (delete id (h_series h)) hashes in
  series_rep h' (delete id A) /\ forall x k, x ∈ hash_list h' k <-> x ∈ hash_list h k /\ x <> l.
Proof using Type.
  intros Hr Hl Hc. cbn zeta. set (hash := labels_hash Sum64 (fst c)). set (rem := hm_del h (hash_list h hash) (fst c)).
  set (h' := with_series _ _ _ _).
  assert (Hlists : forall k, hash_list h' k = if decide (hash = k) then rem else hash_list h k).
  { intros k. unfold hash_list, h'. cbn [with_series h_hashes]. case_decide as E.
    - subst k. destruct rem; [by rewrite lookup_delete_eq|by rewrite lookup_insert_eq].
    - destruct rem; [by rewrite lookup_delete_ne|by rewrite lookup_insert_ne]. }
  assert (Hrem : forall x, x ∈ rem <-> x ∈ hash_list h hash /\ x <> l).
  { intros x. unfold rem, hm_del. rewrite list_elem_of_filter. split.
    - intros [E Hx]. split; [done|]. intros ->. rewrite (loc_lset h l id c) in E by by eapply rp_loc.
      rewrite (proj2 (labels_Equals_spec _ _)) in E; done.
    - intros [Hx Hne]. split; [|done]. apply (rp_hash _ _ _ Hr) in Hx as (j & d & Hj & Hd & _).
      rewrite (loc_lset h x j d) by by eapply rp_loc. apply not_true_is_false. intros E%labels_Equals_spec.
      pose proof (rp_unique _ _ _ Hr _ _ _ _ Hd Hc E) as ->. congruence. }
  assert (Hother : forall x k, hash <> k -> x ∈ hash_list h k -> x <> l).
  { intros x k Hk (j & d & Hj & Hd & <-)%(rp_hash _ _ _ Hr) ->. apply Hk.
    pose proof (rep_loc_inj _ _ _ _ _ _ Hr Hl Hj) as ->. unfold hash. congruence. }
  assert (Helem : forall x k, x ∈ hash_list h' k <-> x ∈ hash_list h k /\ x <> l).
  { intros x k. rewrite Hlists. case_decide as E; [by subst k|]. split; [|by intros [? _]]. intros Hx. split; [done|by eapply Hother]. }
  split; [|done]. split; try apply Hr.
  - intros i. cbn [h' with_series h_series]. destruct (decide (id = i)) as [->|Hi].
    + rewrite !lookup_delete_eq. split; by intros [].
    + rewrite !lookup_delete_ne by done. apply Hr.
  - intros i x d. cbn [h' with_series h_series]. rewrite !lookup_delete_Some. intros [_ Hx] [_ Hd]. exact (rp_loc _ _ _ Hr _ _ _ Hx Hd).
  - intros k x. rewrite Helem, (rp_hash _ _ _ Hr). cbn [h' with_series h_series]. setoid_rewrite lookup_delete_Some. split.
    + intros [(i & d & Hi & Hd & E) Hx]. assert (id <> i) by congruence. by exists i, d.
    + intros (i & d & [Hne Hi] & [_ Hd] & E). split; [by exists i, d|]. intros ->. apply Hne. by eapply rep_loc_inj.
  - intros k. rewrite Hlists. case_decide; [|apply Hr]. apply NoDup_filter, Hr.
  - intros i j d e [_ Hd]%lookup_delete_Some [_ He]%lookup_delete_Some. by apply (rp_unique _ _ _ Hr).
  - intros i d [_ Hd]%lookup_delete_Some. by apply (rp_ids _ _ _ Hr).
Qed.

(** ** The loops *)

Context (mint : Z) (h0 : Head W) (A0 : contents).

Definition collected (A : contents) (id : Z) : Prop := A !! id = A0 !! id ≫= gc_content mint.

(** Somewhere in the loops: each series is collected or not yet visited. *)
Record gc_inv (h : Head W) (A : contents) (D : gset Z) : Prop := {
  gi_rep : series_rep h A;
  gi_rest : same_rest h0 h;
  gi_progress id : A !! id = A0 !! id \/ collected A id;
  gi_deleted id : id ∈ D <-> is_Some (A0 !! id) /\ A !! id = None;
}.

(** The contents when series [id] has been visited. *)
Definition visit (id : Z) (A : contents) : contents := partial_alter (fun o => o ≫= gc_content mint) id A.

Lemma visit_lookup id A i : visit id A !! i = if decide (id = i) then A !! id ≫= gc_content mint else A !! i.
Proof using Type. unfold visit. case_decide as E; [subst; apply lookup_partial_alter_eq|by apply lookup_partial_alter_ne]. Qed.

Lemma visit_collects h A D id : gc_inv h A D -> collected (visit id A) id.
Proof using Type.
  intros Hi. unfold collected. rewrite visit_lookup, decide_True by done.
  destruct (gi_progress _ _ _ Hi id) as [->| ->]; [done|apply gc_content_idem].
Qed.

Lemma visit_keeps A id i : collected A i -> collected (visit id A) i.
Proof using Type.
  unfold collected. intros Hi. rewrite visit_lookup. case_decide as E; [|done]. subst. rewrite Hi. apply gc_content_idem.
Qed.

Lemma visit_progress h A D id : gc_inv h A D -> forall i, visit id A !! i = A0 !! i \/ collected (visit id A) i.
Proof using Type.
  intros Hi i. destruct (decide (id = i)) as [->|Hne]; [right; by eapply visit_collects|].
  destruct (gi_progress _ _ _ Hi i) as [E|E]; [left; by rewrite visit_lookup, decide_False|right; by apply visit_keeps].
Qed.

Lemma gc_series_ok h A D k l hash :
  gc_inv h A D -> l ∈ hash_list h hash ->
  exists id h' D' k', gc_series mint hash (h, (D, k)) l = (h', (D', k')) /\ h_series h !! id = Some l /\
    gc_inv h' (visit id A) D' /\ (forall x, x <> l -> x ∈ hash_list h hash -> x ∈ hash_list h' hash) /\
    forall i, i <> id -> h_series h' !! i = h_series h !! i.
Proof using Type.
  intros Hi Hin. pose proof (gi_rep _ _ _ Hi) as Hr. apply (rp_hash _ _ _ Hr) in Hin as (id & c & Hl & Hc & Eh).
  exists id. destruct (rp_loc _ _ _ Hr _ _ _ Hl Hc) as (s & Hs & Eid & Els & Hh & Hp).
  destruct (truncate_holds s c mint Hh) as (Hh' & Elen & Eid' & Els' & Ep'). unfold gc_series, series_at. rewrite Hs.
  destruct (truncateChunksBefore s mint) as [s' n] eqn:Et. cbn [fst] in *.
  set (c' := (fst c, (drop_before mint (chunked c), pending c)) : content).
  assert (Hr' : series_rep (set_series h l s') (<[id := c']> A)).
  { apply (set_series_rep Sum64 h A id l c c' s'); try done; [congruence|by rewrite Els', Els|]. unfold c', pending. cbn. rewrite Ep'. exact Hp. }
  rewrite Elen, Ep', Hp. pose proof (visit_progress _ _ _ id Hi) as Hprog.
  destruct ((0 <? length (drop_before mint (chunked c)))%nat || pending c) eqn:Ek.
  - assert (Ev : visit id A = <[id := c']> A).
    { unfold visit. apply map_eq. intros i. destruct (decide (id = i)) as [<-|Hne].
      - rewrite lookup_partial_alter_eq, lookup_insert_eq, Hc. cbn. unfold gc_content. by rewrite Ek.
      - by rewrite lookup_partial_alter_ne, lookup_insert_ne. }
    eexists _, _, _. split; [done|]. split; [done|]. rewrite Ev in *. split; [|done]. split; [done|apply Hi|done|].
    intros i. rewrite (gi_deleted _ _ _ Hi). destruct (decide (id = i)) as [<-|Hne].
    + rewrite lookup_insert_eq, Hc. naive_solver.
    + by rewrite lookup_insert_ne.
  - assert (Ev : visit id A = delete id (<[id := c']> A)).
    { unfold visit. apply map_eq. intros i. destruct (decide (id = i)) as [<-|Hne].
      - rewrite lookup_partial_alter_eq, lookup_delete_eq, Hc. cbn. unfold gc_content. by rewrite Ek.
      - by rewrite lookup_partial_alter_ne, lookup_delete_ne, lookup_insert_ne. }
    assert (HA : (<[id := c']> A) !! id = Some c') by by rewrite lookup_insert_eq.
    destruct (remove_series_rep (set_series h l s') _ id l c' Hr' Hl HA) as [Hr'' Hlists].
    change (fst c') with (fst c) in *. rewrite Eh in *.
    assert (Els2 : ms_lset s' = fst c) by congruence. assert (Eid2 : ms_ref s' = id) by congruence.
    rewrite Els2, Eid2. eexists _, _, _. split; [done|]. split; [done|]. rewrite Ev in *. split; [|split].
    + split; [exact Hr''|apply Hi|done|]. intros i. rewrite elem_of_union, elem_of_singleton, (gi_deleted _ _ _ Hi).
      rewrite lookup_delete_None. destruct (decide (id = i)) as [<-|Hne].
      * split; [|by left]. intros _. split; [|by left]. destruct (gi_progress _ _ _ Hi id) as [E|E]; unfold collected in *; rewrite Hc in E.
        -- by eexists.
        -- destruct (A0 !! id); [by eexists|done].
      * rewrite lookup_insert_ne by done. naive_solver.
    + intros x Hx Hxin. by apply Hlists.
    + intros i Hne. by apply lookup_delete_ne.
Qed.

(** What the rest of a loop does to the contents. *)
Definition advances (A A' : contents) : Prop := forall i, collected A i -> collected A' i.

(** The list of a hash, each series in it live when its turn comes. *)
Lemma gc_list_ok hash ls h A D k :
  gc_inv h A D -> NoDup ls -> (forall x, x ∈ ls -> x ∈ hash_list h hash) ->
  exists h' A' D' k', foldl (gc_series mint hash) (h, (D, k)) ls = (h', (D', k')) /\ gc_inv h' A' D' /\ advances A A' /\
    forall id l, l ∈ ls -> h_series h !! id = Some l -> collected A' id.
Proof using Type.
  intros Hi Hnd. revert h A D k Hi. induction Hnd as [|l ls Hl Hnd IH]; intros h A D k Hi Hls.
  { exists h, A, D, k. split_and!; [done|done|by intros i|]. by intros ?? ?%not_elem_of_nil. }
  destruct (gc_series_ok h A D k l hash Hi) as (id & h1 & D1 & k1 & E & Hid & Hi1 & Hstay & Hser); [apply Hls; left|].
  cbn [foldl]. rewrite E. destruct (IH h1 _ D1 k1 Hi1) as (h2 & A2 & D2 & k2 & E2 & Hi2 & Hadv & Hcol).
  { intros x Hx. apply Hstay; [by intros ->|apply Hls; by right]. }
  exists h2, A2, D2, k2. split_and!; [done|done| |].
  - intros i Hci. by apply Hadv, visit_keeps.
  - intros i x Hx Hxs. destruct (decide (i = id)) as [->|Hne]; [apply Hadv; by eapply visit_collects|].
    apply elem_of_cons in Hx as [->|Hx]; [by destruct Hne; eapply rep_loc_inj; [apply Hi|..]|].
    apply (Hcol i x Hx). by rewrite Hser.
Qed.

Lemma gc_hashes_ok order h A D k :
  gc_inv h A D ->
  exists h' A' D' k', foldl (fun st hash => foldl (gc_series mint hash) st (hash_list (fst st) hash)) (h, (D, k)) order = (h', (D', k')) /\
    gc_inv h' A' D' /\ advances A A' /\ forall id c, A0 !! id = Some c -> labels_hash Sum64 (fst c) ∈ order -> collected A' id.
Proof using Type.
  revert h A D k. induction order as [|hash order IH]; intros h A D k Hi; cbn [foldl fst].
  { exists h, A, D, k. split_and!; [done|done|by intros i|]. by intros ??? ?%not_elem_of_nil. }
  destruct (gc_list_ok hash (hash_list h hash) h A D k Hi (rp_hash_nodup _ _ _ (gi_rep _ _ _ Hi) hash) (fun x Hx => Hx))
    as (h1 & A1 & D1 & k1 & E1 & Hi1 & Hadv1 & Hcol1). rewrite E1.
  destruct (IH h1 A1 D1 k1 Hi1) as (h2 & A2 & D2 & k2 & E2 & Hi2 & Hadv2 & Hcol2).
  exists h2, A2, D2, k2. split_and!; [done|done| |].
  - intros i Hci. by apply Hadv2, Hadv1.
  - intros id c Hc [Eh|Hin]%elem_of_cons; [|by eapply Hcol2]. apply Hadv2.
    destruct (gi_progress _ _ _ Hi id) as [E|E]; [|by apply Hadv1]. rewrite Hc in E.
    destruct (rep_lookup _ _ _ _ _ (gi_rep _ _ _ Hi) E) as (l & Hl & _). apply (Hcol1 id l); [|done].
    apply (rp_hash _ _ _ (gi_rep _ _ _ Hi)). by exists id, c.
Qed.
End Gc.

(** ** The whole collection *)

Section Collect.
Context {W : Type} `{WAL W} (Sum64 : list Z -> Z).

Definition gc_contents (mint : Z) (A : contents) : contents := omap (gc_content mint) A.

(** The orders in which the maps are iterated cover them. *)
Definition covers (h : Head W) (hashes : list Z) (keys : list Label) : Prop :=
  (forall hash, is_Some (h_hashes h !! hash) -> hash ∈ hashes) /\
  (forall l, is_Some (mp_m (h_postings h) !! l) -> l ∈ keys).

Lemma covers_hash h A hashes keys id c :
  series_rep Sum64 h A -> covers h hashes keys -> A !! id = Some c -> labels_hash Sum64 (fst c) ∈ hashes.
Proof using Type.
  intros Hr [Hc _] HA. destruct (rep_lookup _ _ _ _ _ Hr HA) as (l & Hl & _).
  assert (Hin : l ∈ hash_list h (labels_hash Sum64 (fst c))) by (apply (rp_hash _ _ _ Hr); by exists id, c).
  apply Hc. unfold hash_list in Hin. destruct (h_hashes h !! _); [by eexists|by apply not_elem_of_nil in Hin].
Qed.

Lemma series_gc_ok h A mint hashes keys :
  series_rep Sum64 h A -> covers h hashes keys ->
  exists h' D k, series_gc h mint hashes = (h', (D, k)) /\ series_rep Sum64 h' (gc_contents mint A) /\ same_rest h h' /\
    forall id, id ∈ D <-> is_Some (A !! id) /\ gc_contents mint A !! id = None.
Proof using Type.
  intros Hr Hcov. assert (Hi : gc_inv Sum64 mint h A h A ∅).
  { split; [done|done|by left|]. intros id. rewrite elem_of_empty. split; [done|]. intros [[c Hc] Hn]. congruence. }
  destruct (gc_hashes_ok Sum64 mint h A hashes h A ∅ 0 Hi) as (h' & A' & D & k & E & Hi' & _ & Hcol).
  assert (EA : A' = gc_contents mint A).
  { apply map_eq. intros id. unfold gc_contents. rewrite lookup_omap. destruct (A !! id) as [c|] eqn:Ec.
    - pose proof (Hcol id c Ec (covers_hash _ _ _ _ _ _ Hr Hcov Ec)) as E'. unfold collected in E'. by rewrite Ec in E'.
    - destruct (gi_progress _ _ _ _ _ _ _ Hi' id) as [E'|E']; unfold collected in *; by rewrite Ec in E'. }
  subst A'. exists h', D, k. split_and!; [done|apply Hi'|apply Hi'|apply Hi'].
Qed.

Lemma gc_values_spec (keys : list Label) sy vs :
  let st := foldl gc_values (sy, vs) keys in
  snd st = foldl add_value vs keys /\ sy ⊆ fst st /\ forall l, l ∈ keys -> {[fst l; snd l]} ⊆ fst st.
Proof using Type.
  revert sy vs. induction keys as [|l keys IH]; intros sy vs; cbn [foldl]; [split_and!; [done|done|by intros ? ?%not_elem_of_nil]|].
  unfold gc_values at 2 4 6. cbn [fst snd]. specialize (IH ({[fst l; snd l]} ∪ sy) (add_value vs l)) as (IHv & IHs & IHk).
  split_and!; [done|set_solver|]. intros k [->|Hk]%elem_of_cons; [set_solver|by apply IHk].
Qed.

(** The keys that are stored are those with a series. *)
Lemma stored_keys p n v : mp_inv p -> (n, v) ∈ (map_to_list (mp_m p)).*1 <-> exists id, id ∈ mp_list p (n, v).
Proof using Type.
  intros Hp. rewrite list_elem_of_fmap. split.
  - intros ([k l] & -> & Hl%elem_of_map_to_list). destruct (Hp _ _ Hl) as [Hne _]. destruct l as [|x l]; [done|].
    exists x. assert (El : mp_list p k = x :: l) by exact (f_equal (default []) Hl). cbn [fst]. rewrite El. left.
  - intros [id Hid]. destruct (mp_m p !! (n, v)) as [l|] eqn:E.
    + exists ((n, v), l). split; [done|]. by apply elem_of_map_to_list.
    + assert (El : mp_list p (n, v) = []) by exact (f_equal (default []) E). rewrite El in Hid. by apply not_elem_of_nil in Hid.
Qed.

Lemma gc_contents_lookup mint A id c' :
  gc_contents mint A !! id = Some c' -> exists c, A !! id = Some c /\ fst c' = fst c.
Proof using Type.
  unfold gc_contents. rewrite lookup_omap. destruct (A !! id) as [c|]; [|done]. cbn. intros Hc%gc_content_lset. by exists c.
Qed.

(** The ids of a key without those of the deleted series. *)
Lemma kept_postings (h : Head W) A mint keys (D : gset Z) k id :
  index_rep h A -> (forall l, is_Some (mp_m (h_postings h) !! l) -> l ∈ keys) ->
  (forall id, id ∈ D <-> is_Some (A !! id) /\ gc_contents mint A !! id = None) ->
  id ∈ mp_list (mp_Delete keys D (h_postings h)) k <->
    exists c, gc_contents mint A !! id = Some c /\ (k = allPostingsKey \/ k ∈ fst c).
Proof using Type.
  intros Hi Hk HD. rewrite Delete_list, list_elem_of_filter, (rp_postings _ _ Hi) by done. split.
  - intros [Hnd (c & Hc & Hkc)]. destruct (gc_contents mint A !! id) as [c'|] eqn:E.
    + exists c'. split; [done|]. apply gc_contents_lookup in E as (d & Hd & ->). congruence.
    + destruct Hnd. apply HD. split; [by eexists|done].
  - intros (c & Hc & Hkc). split; [intros [_ ?]%HD; congruence|].
    apply gc_contents_lookup in Hc as (d & Hd & E). exists d. by rewrite <- E.
Qed.

Lemma h_gc_ok h A hashes keys :
  rep Sum64 h A -> covers h hashes keys ->
  rep Sum64 (h_gc h hashes keys) (gc_contents (h_minTime h) A) /\
  h_minTime (h_gc h hashes keys) = h_minTime h /\ h_maxTime (h_gc h hashes keys) = h_maxTime h.
Proof using Type.
  intros [Hr Hi] Hcov. unfold h_gc.
  destruct (series_gc_ok h A (h_minTime h) hashes keys Hr Hcov) as (h' & D & k & E & Hr' & (Ep & Ev & Es & Em & EM) & HD). rewrite E.
  set (A' := gc_contents (h_minTime h) A) in *. rewrite Ep.
  pose proof (Delete_inv D keys _ (rp_inv _ _ Hi)) as Hinv. set (p := mp_Delete keys D (h_postings h)) in *.
  pose proof (fun k id => kept_postings h A (h_minTime h) keys D k id Hi (proj2 Hcov) HD) as Hkept. fold A' p in Hkept.
  pose proof (gc_values_spec (map_to_list (mp_m p)).*1 ∅ ∅) as Hv. destruct (foldl gc_values _ _) as [sy vs]. cbn [fst snd] in Hv.
  destruct Hv as (-> & _ & Hsy). split; [|by split]. split; [destruct Hr'; by split|]. split; cbn [with_index h_postings h_values h_symbols].
  - exact Hinv.
  - intros x. unfold p. rewrite Delete_list by apply (proj2 Hcov). apply NoDup_filter, Hi.
  - exact Hkept.
  - intros n v Hn. rewrite add_values_elem, lookup_empty. cbn [default]. rewrite stored_keys by done. setoid_rewrite Hkept. split.
    + intros [Hin|(id & c & Hc & [[= ? ?]|Hin])]; [by apply not_elem_of_empty in Hin|done|by exists id, c].
    + intros (id & c & Hc & Hin). right. exists id, c. by split; [|right].
  - intros id c [n v] Hc Hl. apply Hsy, stored_keys; [done|]. exists id. apply Hkept. exists c. by split; [|right].
Qed.
End Collect.

(** ** What goes and what stays *)

Lemma span_last (l : list Buffer.sample) x : increasing_times l -> x ∈ l -> fst x <= snd (span l).
Proof.
  intros Hl Hx. destruct (head l) as [a|] eqn:Ea; [|destruct l; [by apply not_elem_of_nil in Hx|done]].
  destruct (last l) as [b|] eqn:Eb; [|apply last_None in Eb; subst; by apply not_elem_of_nil in Hx].
  pose proof (times_between l (fst a) (fst b) Hl ltac:(by rewrite Ea) ltac:(by rewrite Eb)) as Hb.
  rewrite Forall_forall in Hb. specialize (Hb _ Hx). unfold span. rewrite Eb. cbn. lia.
Qed.

Lemma drop_before_keeps mint ls x :
  increasing_times (mjoin ls) -> x ∈ mjoin ls -> mint <= fst x -> x ∈ mjoin (drop_before mint ls).
Proof.
  induction ls as [|l ls IH]; [done|]. rewrite join_cons. intros (Hl & Hs & _)%increasing_app Hx Hm.
  cbn [drop_before]. destruct (Z.ltb_spec (snd (span l)) mint); [|by rewrite join_cons].
  apply elem_of_app in Hx as [Hx|Hx]; [|by apply IH]. pose proof (span_last _ _ Hl Hx). lia.
Qed.

Lemma spans_after ls l :
  increasing_times (mjoin (l :: ls)) -> Forall (fun k => k <> []) (l :: ls) -> Forall (fun k => snd (span l) <= snd (span k)) ls.
Proof.
  rewrite join_cons. intros (_ & Hs & Hlt)%increasing_app [Hne Hnes]%Forall_cons. apply Forall_forall. intros k Hk.
  rewrite Forall_forall in Hnes. specialize (Hnes _ Hk). destruct (last l) as [x|] eqn:Ex; [|by apply last_None in Ex].
  destruct (last k) as [y|] eqn:Ey; [|by apply last_None in Ey]. unfold span. rewrite Ex, Ey. cbn.
  apply last_Some_elem_of in Ex, Ey. rewrite Forall_forall in Hlt. specialize (Hlt _ Ex). rewrite Forall_forall in Hlt.
  specialize (Hlt y). apply Z.lt_le_incl, Hlt, list_elem_of_join. by exists k.
Qed.

Lemma drop_before_reach mint ls :
  increasing_times (mjoin ls) -> Forall (fun k => k <> []) ls -> Forall (fun l => mint <= snd (span l)) (drop_before mint ls).
Proof.
  induction ls as [|l ls IH]; intros Hs Hne; [constructor|]. cbn [drop_before].
  destruct (Z.ltb_spec (snd (span l)) mint) as [|Hge].
  - apply Forall_cons in Hne as [_ Hne]. rewrite join_cons in Hs. apply increasing_app in Hs as (_ & Hs & _). by apply IH.
  - pose proof (spans_after _ _ Hs Hne) as Ha. constructor; [done|]. eapply Forall_impl; [exact Ha|]. intros k Hk. cbn beta in *. lia.
Qed.

Lemma holds_nonempty s ls : ms_holds s ls -> Forall (fun l => l <> []) ls.
Proof.
  intros Hs. pose proof (mh_chunks _ _ Hs) as Hc. clear Hs. induction Hc as [|c l cs ls (a & _ & _ & Hm & _) _ IH]; [constructor|].
  constructor; [by intros ->|done].
Qed.

Lemma Truncate_rep {W : Type} `{WAL W} (Sum64 : list Z -> Z) (h : Head W) (A : contents) (mint : Z)
    (hashes : list Z) (keys : list Label) :
  rep Sum64 h A -> h_minTime h <> MaxInt64 -> h_minTime h < mint -> covers h hashes keys ->
  let h' := Truncate h mint hashes keys in
  let A' := gc_contents mint A in
  rep Sum64 h' A' /\ h_minTime h' = mint /\ mint <= h_maxTime h' /\
  (forall id c x, A !! id = Some c -> x ∈ mjoin (chunked c) -> mint <= fst x ->
     exists c', A' !! id = Some c' /\ fst c' = fst c /\ x ∈ mjoin (chunked c')) /\
  (forall id c l, A' !! id = Some c -> l ∈ chunked c -> mint <= snd (span l)).
Proof.
  intros Hr Hinit Hlt Hcov. cbn zeta. unfold Truncate.
  rewrite (proj2 (Z.eqb_neq _ _)), (proj2 (Z.leb_gt _ _)) by done. cbn [andb negb].
  set (h1 := with_times h mint _). assert (Hr1 : rep Sum64 h1 A) by by apply with_times_rep.
  pose proof (h_gc_ok Sum64 h1 A hashes keys Hr1 Hcov) as (Hgc & Emin & Emax). change (h_minTime h1) with mint in Hgc, Emin.
  assert (Hh : forall id c, A !! id = Some c -> exists s, ms_holds s (chunked c)).
  { intros id c Hc. destruct (rep_lookup _ _ _ _ _ (proj1 Hr) Hc) as (l & _ & s & _ & _ & _ & ? & _). by exists s. }
  split; [done|]. split; [done|]. split; [|split].
  - rewrite Emax. cbn. destruct (Z.ltb_spec (h_maxTime h) mint); lia.
  - intros id c x Hc Hx Hm. destruct (Hh _ _ Hc) as (s & Hs). pose proof (drop_before_keeps mint _ _ (mh_sorted _ _ Hs) Hx Hm) as Hk.
    unfold gc_contents. rewrite lookup_omap, Hc. cbn. unfold gc_content.
    destruct (drop_before mint (chunked c)) as [|l ls] eqn:E; [by apply not_elem_of_nil in Hk|]. cbn [length Nat.ltb Nat.leb orb].
    eexists. split; [done|]. done.
  - intros id c' l Hc' Hl. unfold gc_contents in Hc'. rewrite lookup_omap in Hc'. destruct (A !! id) as [c|] eqn:Hc; [|done].
    destruct (Hh _ _ Hc) as (s & Hs). cbn in Hc'. unfold gc_content in Hc'.
    pose proof (drop_before_reach mint _ (mh_sorted _ _ Hs) (holds_nonempty _ _ Hs)) as Hf. rewrite Forall_forall in Hf.
    destruct (_ || _); [|done]. injection Hc' as <-. by apply Hf.
Qed.

(** What else truncating leaves. *)
Section Rest.
Context {W : Type} `{WAL W} (Sum64 : list Z -> Z).

Lemma gc_series_heap (P : memSeries -> Prop) mint hash st l :
  (forall s, P s -> P (fst (truncateChunksBefore s mint))) ->
  Forall P (h_heap (fst st : Head W)) -> Forall P (h_heap (fst (gc_series mint hash st l))).
Proof using Type.
  intros HP Hh. destruct st as [h [D k]]. cbn [gc_series]. unfold series_at. destruct (h_heap h !! l) as [s|] eqn:Es; [|done].
  pose proof (HP s (proj1 (Forall_lookup _ _) Hh l s Es)) as Hs. destruct (truncateChunksBefore s mint) as [s' n]. cbn [fst] in Hs.
  destruct (_ || _); cbn [fst h_heap with_series with_heap set_series]; by apply Forall_insert.
Qed.

Lemma series_gc_heap (P : memSeries -> Prop) (h : Head W) mint order :
  (forall s, P s -> P (fst (truncateChunksBefore s mint))) ->
  Forall P (h_heap h) -> Forall P (h_heap (fst (series_gc h mint order))).
Proof using Type.
  intros HP Hh. unfold series_gc. revert Hh. change h with (fst (h, (∅ : gset Z, 0))) at 1. generalize (h, (∅ : gset Z, 0)) as st.
  induction order as [|hash order IH]; intros st Hh; [done|]. cbn [foldl]. apply IH. generalize (hash_list (fst st) hash) as ls. intros ls.
  revert st Hh. induction ls as [|l ls IHl]; intros st Hh; [done|]. cbn [foldl]. by apply IHl, gc_series_heap.
Qed.

Lemma Truncate_heap (P : memSeries -> Prop) (h : Head W) mint hashes keys :
  (forall s t, P s -> P (fst (truncateChunksBefore s t))) ->
  Forall P (h_heap h) -> Forall P (h_heap (Truncate h mint hashes keys)).
Proof using Type.
  intros HP Hh. unfold Truncate. destruct (_ && _); [done|]. destruct (h_minTime h =? MaxInt64); [done|]. unfold h_gc.
  set (h1 := with_times h mint _). pose proof (series_gc_heap P h1 (h_minTime h1) hashes (fun s => HP s _) Hh) as Hg.
  destruct (series_gc h1 (h_minTime h1) hashes) as [h2 [D k]]. by destruct (foldl gc_values _ _).
Qed.

Lemma Delete_ordered keys D p : mp_ordered (mp_Delete keys D p) = mp_ordered p.
Proof using Type.
  unfold mp_Delete. revert p. induction keys as [|k keys IH]; intros p; [done|]. cbn [foldl]. rewrite IH.
  unfold delete_key. destruct (negb _); [done|]. by destruct (_ <? _)%nat.
Qed.

Lemma gc_series_tombstones mint hash (st : Head W * (gset Z * Z)) l : h_tombstones (fst (gc_series mint hash st l)) = h_tombstones (fst st).
Proof using Type.
  destruct st as [h [D k]]. cbn [gc_series]. destruct (series_at h l) as [s|]; [|done]. destruct (truncateChunksBefore s mint).
  by destruct (_ || _).
Qed.

Lemma series_gc_tombstones (h : Head W) mint order : h_tombstones (fst (series_gc h mint order)) = h_tombstones h.
Proof using Type.
  unfold series_gc. change h with (fst (h, (∅ : gset Z, 0))) at 2. generalize (h, (∅ : gset Z, 0)) as st.
  induction order as [|hash order IH]; intros st; [done|]. cbn [foldl]. rewrite IH. generalize (hash_list (fst st) hash) as ls. intros ls.
  clear IH. revert st. induction ls as [|l ls IHl]; intros st; [done|]. cbn [foldl]. by rewrite IHl, gc_series_tombstones.
Qed.

(** The symbols are those of the labels in use, and the empty one of the key of all postings. *)
Lemma gc_values_symbols (keys : list Label) sy vs (S : gset string) :
  sy ⊆ S -> (forall l, l ∈ keys -> {[fst l; snd l]} ⊆ S) -> fst (foldl gc_values (sy, vs) keys) ⊆ S.
Proof using Type.
  revert sy vs. induction keys as [|l keys IH]; intros sy vs Hsy Hk; [done|]. cbn [foldl]. unfold gc_values at 2. cbn [fst snd].
  apply IH; [pose proof (Hk l ltac:(left)); set_solver|]. intros k Hin. apply Hk. by right.
Qed.

Lemma Truncate_rest (h : Head W) (A : contents) mint hashes keys :
  rep Sum64 h A -> h_minTime h <> MaxInt64 -> h_minTime h < mint -> covers h hashes keys ->
  let h' := Truncate h mint hashes keys in
  mp_ordered (h_postings h') = mp_ordered (h_postings h) /\ h_tombstones h' = h_tombstones h /\
  h_symbols h' ⊆ {[EmptyString : string]} ∪ h_symbols h.
Proof using Type.
  intros Hr Hinit Hlt Hcov. cbn zeta. unfold Truncate.
  rewrite (proj2 (Z.eqb_neq _ _)), (proj2 (Z.leb_gt _ _)) by done. cbn [andb negb].
  set (h1 := with_times h mint _). assert (Hr1 : rep Sum64 h1 A) by by apply with_times_rep. unfold h_gc. change (h_minTime h1) with mint.
  destruct (series_gc_ok Sum64 h1 A mint hashes keys (proj1 Hr1) Hcov) as (h2 & D & k & E & _ & (Ep & _ & _ & _ & _) & HD).
  pose proof (series_gc_tombstones h1 mint hashes) as Et. rewrite E in Et. cbn [fst] in Et. rewrite E, Ep.
  pose proof (Delete_inv D keys _ (rp_inv _ _ (proj2 Hr1))) as Hinv.
  pose proof (gc_values_symbols (map_to_list (mp_m (mp_Delete keys D (h_postings h1)))).*1 ∅ ∅ ({[EmptyString : string]} ∪ h_symbols h)) as Hs.
  destruct (foldl gc_values _ _) as [sy vs]. cbn [fst] in Hs. cbn [with_index h_postings h_tombstones h_symbols]. split_and!.
  - apply Delete_ordered.
  - exact Et.
  - apply Hs; [done|]. intros [n v] Hin. apply stored_keys in Hin as [id Hid]; [|exact Hinv].
    apply (kept_postings h1 A mint keys D (n, v) id (proj2 Hr1) (proj2 Hcov) HD) in Hid as (c & Hc & Hk).
    apply gc_contents_lookup in Hc as (d & Hd & Ed). rewrite Ed in Hk. destruct Hk as [[= -> ->]|Hk]; [set_solver|].
    pose proof (rp_symbols _ _ (proj2 Hr) id d (n, v) Hd Hk). cbn [fst snd] in *. set_solver.
Qed.
End Rest.

(** C11: truncating an initialized head collects exactly what lies before the new
    first time.  The result is again a well-formed head, whatever order the maps
    are iterated in: every series keeps its chunks from the first one that
    reaches [mint] on, a series without such a chunk is gone from the maps and
    the index (unless it awaits a commit), so that no sample at or after [mint]
    is lost and every chunk left reaches [mint]; and the head's times begin at
    [mint]. *)
Theorem Truncate_collects {W : Type} `{WAL W} (Sum64 : list Z -> Z) (h : Head W) (A : contents) (mint : Z)
    (hashes : list Z) (keys : list Label) :
  rep Sum64 h A -> h_minTime h <> MaxInt64 -> h_minTime h < mint -> covers h hashes keys ->
  let h' := Truncate h mint hashes keys in
  let A' := gc_contents mint A in
  rep Sum64 h' A' /\ h_minTime h' = mint /\ mint <= h_maxTime h' /\
  (forall id c x, A !! id = Some c -> x ∈ mjoin (chunked c) -> mint <= fst x ->
     exists c', A' !! id = Some c' /\ fst c' = fst c /\ x ∈ mjoin (chunked c')) /\
  (forall id c l, A' !! id = Some c -> l ∈ chunked c -> mint <= snd (span l)).
Proof. intros. by apply Truncate_rep. Qed.

(** The keys of the maps cover them. *)
Lemma covers_all {W : Type} (h : Head W) : covers h (map_to_list (h_hashes h)).*1 (map_to_list (mp_m (h_postings h))).*1.
Proof.
  split; intros k [v Hv]; apply list_elem_of_fmap; exists (k, v); (split; [done|]); by apply elem_of_map_to_list.
Qed.

Lemma Truncate_collects_witness :
  let h := QueryExample.committed in
  let h' := Truncate h 12 (map_to_list (h_hashes h)).*1 (map_to_list (mp_m (h_postings h))).*1 in
  ms_ref <$> h_heap h = [1; 2] /\ (map_to_list (h_series h')).*1 = [2] /\
  exists A, rep AppendExample.sum h A /\ rep AppendExample.sum h' (gc_contents 12 A) /\ h_minTime h' = 12 /\ 12 <= h_maxTime h' /\
    (forall id c x, A !! id = Some c -> x ∈ mjoin (chunked c) -> 12 <= fst x ->
       exists c', gc_contents 12 A !! id = Some c' /\ fst c' = fst c /\ x ∈ mjoin (chunked c')) /\
    (forall id c l, gc_contents 12 A !! id = Some c -> l ∈ chunked c -> 12 <= snd (span l)).
Proof.
  split; [vm_compute; reflexivity|]. split; [vm_compute; reflexivity|].
  destruct QueryExample.committed_rep as (A & Hr & _). exists A. split; [exact Hr|].
  apply (Truncate_collects AppendExample.sum QueryExample.committed A 12 _ _ Hr).
  - intros E. vm_compute in E. discriminate E.
  - vm_compute. reflexivity.
  - apply covers_all.
Defined.
