(* ===== verification/HeadWal.v ===== *)
(** Recovery of the head from its log: replaying the records of the transactions
    gives back their series and samples; and where the replay falls short. *)
From S2P Require Import Prelude Order Labels Tombstones Records Postings PostingsSpec MemPostings XorChunk Chunks Buffer SeriesIter Querier MemSeries Head HeadInv HeadAppend.
#[local] Open Scope list_scope.
#[local] Open Scope Z_scope.

Section Replay.
Context {W : Type} `{WAL W} (Sum64 : list Z -> Z).
Abbreviation rep := (HeadInv.rep (W := W) Sum64).
Abbreviation load_records := (Head.load_records (W := W) Sum64).
Abbreviation flatmap := (gmap Z (Labels * list Buffer.sample)).

(** ** Series records *)

Lemma load_series_eq (h : Head W) id lset :
  load_series Sum64 h (mkRefSeries id lset) =
    let '(h, _, _) := getOrCreateWithID h id (labels_hash Sum64 lset) lset in
    if h_lastSeriesID h <? id then with_lastID h id else h.
Proof using Type. done. Qed.

Lemma load_series_ok (h : Head W) A rs :
  rep h A -> series_fresh (flat A) [rs] ->
  exists A', rep (load_series Sum64 h rs) A' /\ flat A' = flat_series (flat A) [rs] /\
    h_minTime (load_series Sum64 h rs) = h_minTime h /\ h_maxTime (load_series Sum64 h rs) = h_maxTime h.
Proof using Type.
  intros Hr (Hid & Hls & Hok & Hpos & _). destruct rs as [id lset]. cbn [rs_Ref rs_Labels] in *. rewrite load_series_eq.
  assert (Hab : forall i c, A !! i = Some c -> fst c <> lset).
  { intros i c Hc. apply (Hls i (fst c, mjoin (chunked c))). unfold flat. by rewrite lookup_fmap, Hc. }
  assert (HidA : A !! id = None).
  { unfold flat in Hid. rewrite lookup_fmap in Hid. by destruct (A !! id). }
  rewrite (getOrCreateWithID_new _ _ A) by (by apply Hr || done). pose proof (rp_last _ _ _ (proj1 Hr)) as Hl.
  set (last := if h_lastSeriesID h <? id then id else h_lastSeriesID h).
  assert (E : (if h_lastSeriesID (created Sum64 h id (h_lastSeriesID h) lset) <? id
               then with_lastID (created Sum64 h id (h_lastSeriesID h) lset) id
               else created Sum64 h id (h_lastSeriesID h) lset) = created Sum64 h id last lset).
  { unfold last. cbn. by destruct (_ <? _). }
  rewrite E. exists (<[id := (lset, ([], false))]> A). split; [|split; [apply flat_insert|done]].
  assert (h_lastSeriesID h <= last /\ id <= last < max_id) as [? ?].
  { unfold last. destruct (Z.ltb_spec (h_lastSeriesID h) id); lia. }
  by apply created_rep; [| | | |lia|lia].
Qed.

Lemma load_all_series (h : Head W) A l :
  rep h A -> series_fresh (flat A) l ->
  exists A', rep (foldl (load_series Sum64) h l) A' /\ flat A' = flat_series (flat A) l /\
    h_minTime (foldl (load_series Sum64) h l) = h_minTime h /\ h_maxTime (foldl (load_series Sum64) h l) = h_maxTime h.
Proof using Type.
  revert h A. induction l as [|rs l IH]; intros h A Hr Hf; [by exists A|]. cbn [foldl].
  destruct (load_series_ok h A rs Hr) as (A1 & Hr1 & E1 & Emin & Emax).
  { cbn [series_fresh] in *. tauto. }
  destruct (IH (load_series Sum64 h rs) A1 Hr1) as (A2 & Hr2 & E2 & ? & ?).
  { rewrite E1. cbn [series_fresh] in Hf. apply Hf. }
  exists A2. split; [exact Hr2|]. split; [by rewrite E2, E1|]. split; congruence.
Qed.

(** ** Sample records *)

Lemma flat_lookup A id : flat A !! id = (fun c => (fst c, mjoin (chunked c))) <$> A !! id.
Proof using Type. unfold flat. by rewrite lookup_fmap. Qed.

Definition known (F : flatmap) (x : RefSample) : Prop := is_Some (F !! s_Ref x).

Lemma known_step F x y : known F x -> known (flat_sample F y) x.
Proof using Type.
  unfold known, flat_sample. intros Hx. destruct (decide (s_Ref y = s_Ref x)) as [E|E].
  - rewrite E, lookup_alter_eq. by apply fmap_is_Some.
  - by rewrite lookup_alter_ne.
Qed.

(** The least and the greatest time of the samples, from [a] and [b]. *)
Definition mint_of (a : Z) (xs : list RefSample) : Z := foldl (fun a x => if s_T x <? a then s_T x else a) a xs.
Definition maxt_of (b : Z) (xs : list RefSample) : Z := foldl (fun b x => if b <? s_T x then s_T x else b) b xs.

Lemma load_samples_ok (h : Head W) A m xs u a b :
  rep h A -> Forall (fun x => known (flat A) x /\ MemSeries.sample_ok (s_T x, s_V x) /\ m <= s_T x) xs -> room A (length xs) ->
  exists h' A', processWALSamples h m xs u a b = Ok (h', u, mint_of a xs, maxt_of b xs) /\ rep h' A' /\
    flat A' = flat_samples (flat A) xs /\ h_minTime h' = h_minTime h /\ h_maxTime h' = h_maxTime h.
Proof using Type.
  revert h A a b. induction xs as [|x xs IH]; intros h A a b Hr Hxs Hroom; [by exists h, A|].
  apply Forall_cons in Hxs as [(Hk & Hok & Hm) Hxs]. cbn [processWALSamples]. rewrite (proj2 (Z.ltb_ge _ _)) by done.
  unfold known in Hk. rewrite flat_lookup in Hk. apply fmap_is_Some in Hk as [c Hc].
  destruct (rep_lookup _ _ _ _ _ (proj1 Hr) Hc) as (l & Hl & _). unfold getByID. rewrite Hl.
  destruct (append_live Sum64 h A x l c false Hr) as (s & s' & bs & c' & -> & -> & El & Ej & Hr' & Hflat & _).
  { by split. }
  { done. }
  { eapply room_weaken; [exact Hroom|cbn; lia]. }
  cbn [res_bind]. destruct (IH (set_series h l s') _ (if s_T x <? a then s_T x else a) (if b <? s_T x then s_T x else b) Hr')
    as (h2 & A2 & E2 & Hr2 & Hf2 & ? & ?).
  - rewrite Hflat. eapply Forall_impl; [exact Hxs|]. intros y (? & ? & ?). split_and!; [by apply known_step|done..].
  - exact (room_step _ _ _ _ _ _ Hroom Hc Ej).
  - exists h2, A2. split; [exact E2|]. split; [done|]. split; [by rewrite Hf2, Hflat|done].
Qed.

(** ** The records of a transaction *)

(** [log]: a record of the new series and one of the samples, if there are any. *)
Definition tx_records (series : list RefSeries) (samples : list RefSample) : list (list Z) :=
  (if (0 <? length series)%nat then [Enc_Series series []] else []) ++
  (if (0 <? length samples)%nat then [Enc_Samples samples []] else []).

Lemma load_records_app m st r1 r2 :
  load_records m st (r1 ++ r2) =
    let? (st, e) := load_records m st r1 in
    match e with Some e => Ok (st, Some e) | None => load_records m st r2 end.
Proof using Type.
  revert st. induction r1 as [|r r1 IH]; intros st; [done|]. cbn [app Head.load_records].
  destruct (load_record Sum64 m st r) as [[st' [e|]]|e|]; cbn [res_bind]; [done|apply IH|done|done].
Qed.

Lemma load_record_series m (st : loading (W := W)) l :
  Forall Records.series_ok l ->
  load_record Sum64 m st (Enc_Series l []) =
    Ok (mkLoading (foldl (load_series Sum64) (ld_head st) l) (ld_unknown st) (ld_mint st) (ld_maxt st), None).
Proof using Type.
  intros Hl. destruct (Dec_Series_Enc l [] Hl) as [Et Ed]. unfold load_record. by rewrite Et, Ed.
Qed.

Lemma load_record_samples m (st : loading (W := W)) l :
  Forall Records.sample_ok l ->
  load_record Sum64 m st (Enc_Samples l []) =
    let? (h, unknown, mint, maxt) := processWALSamples (ld_head st) m l (ld_unknown st) (ld_mint st) (ld_maxt st) in
    Ok (mkLoading h unknown mint maxt, None).
Proof using Type.
  intros Hl. destruct (Dec_Samples_Enc l [] Hl) as [Et Ed]. unfold load_record. by rewrite Et, Ed.
Qed.

Lemma fresh_series_ok F l : series_fresh F l -> Forall Records.series_ok l.
Proof using Type.
  revert F. induction l as [|rs l IH]; intros F; [constructor|]. intros (_ & _ & (Hinc & _ & Hstr & Hlen) & Hpos & Hf).
  constructor; [|by eapply IH]. unfold max_id in Hpos. split_and!; [unfold is_u; lia|done..].
Qed.

(** What has been loaded: the series and samples [F], whose times are noted. *)
Record loaded (st : loading (W := W)) (h0 : Head W) (F : flatmap) : Prop := {
  lo_unknown : ld_unknown st = 0;
  lo_rep : exists A, rep (ld_head st) A /\ flat A = F;
  lo_times id c x : F !! id = Some c -> x ∈ snd c -> ld_mint st <= fst x <= ld_maxt st;
  lo_min : h_minTime (ld_head st) = h_minTime h0;
  lo_max : h_maxTime (ld_head st) = h_maxTime h0;
}.

Definition froom (F : flatmap) (n : nat) : Prop := forall id c, F !! id = Some c -> Z.of_nat (length (snd c) + n) <= 65535.

Lemma room_flat A n : room A n <-> froom (flat A) n.
Proof using Type.
  unfold room, froom. setoid_rewrite flat_lookup. setoid_rewrite fmap_Some. split.
  - intros Hr id c (d & Hd & ->). by apply (Hr id).
  - intros Hr id c Hc. apply (Hr id (fst c, mjoin (chunked c))). by exists c.
Qed.

Lemma accept_elem acc x y : y ∈ accept acc x -> y ∈ acc \/ y = x.
Proof using Type.
  unfold accept. assert (Hs : y ∈ acc ++ [x] -> y ∈ acc \/ y = x) by by rewrite elem_of_app, list_elem_of_singleton.
  destruct (last acc); [case_match; [by left|done]|done].
Qed.

Lemma flat_sample_elem F x id c y :
  flat_sample F x !! id = Some c -> y ∈ snd c -> (exists d, F !! id = Some d /\ y ∈ snd d) \/ y = (s_T x, s_V x).
Proof using Type.
  unfold flat_sample. destruct (decide (s_Ref x = id)) as [<-|Hne].
  - rewrite lookup_alter_eq. intros (d & Hd & ->)%fmap_Some. cbn [snd]. intros [Hy|Hy]%accept_elem; [left; by exists d|by right].
  - rewrite lookup_alter_ne by done. intros Hc Hy. left. by exists c.
Qed.

Lemma flat_series_elem F l id c y : flat_series F l !! id = Some c -> y ∈ snd c -> exists d, F !! id = Some d /\ y ∈ snd d.
Proof using Type.
  revert F. induction l as [|rs l IH]; intros F; [intros ? ?; by exists c|]. cbn. intros Hc Hy.
  destruct (IH _ Hc Hy) as (d & Hd & Hyd). destruct (decide (rs_Ref rs = id)) as [<-|Hne].
  - rewrite lookup_insert_eq in Hd. injection Hd as <-. by apply not_elem_of_nil in Hyd.
  - rewrite lookup_insert_ne in Hd by done. by exists d.
Qed.

(** A sample takes the room of one. *)
Lemma froom_samples F xs n : froom F (length xs + n) -> froom (flat_samples F xs) n.
Proof using Type.
  revert F. induction xs as [|x xs IH]; intros F Hf; [done|]. cbn [flat_samples foldl]. apply IH. intros id c.
  unfold flat_sample. destruct (decide (s_Ref x = id)) as [<-|Hne].
  - rewrite lookup_alter_eq. intros (d & Hd & ->)%fmap_Some. specialize (Hf _ _ Hd). cbn [snd length] in *.
    pose proof (accept_length (snd d) (s_T x, s_V x)). lia.
  - rewrite lookup_alter_ne by done. intros Hc. specialize (Hf _ _ Hc). cbn [length] in Hf. lia.
Qed.

(** The samples loaded are between the times noted. *)
Lemma samples_times F xs a b :
  (forall id c x, F !! id = Some c -> x ∈ snd c -> a <= fst x <= b) ->
  forall id c x, flat_samples F xs !! id = Some c -> x ∈ snd c -> mint_of a xs <= fst x <= maxt_of b xs.
Proof using Type.
  revert F a b. induction xs as [|x xs IH]; intros F a b Hab; [done|]. cbn [flat_samples foldl mint_of maxt_of].
  apply IH. intros id c y Hc Hy. destruct (flat_sample_elem _ _ _ _ _ Hc Hy) as [(d & Hd & Hyd)| ->].
  - specialize (Hab _ _ _ Hd Hyd). destruct (Z.ltb_spec (s_T x) a), (Z.ltb_spec b (s_T x)); lia.
  - cbn. destruct (Z.ltb_spec (s_T x) a), (Z.ltb_spec b (s_T x)); lia.
Qed.

Lemma load_series_part st h0 F l m :
  loaded st h0 F -> series_fresh F l ->
  exists st', load_records m st (if (0 <? length l)%nat then [Enc_Series l []] else []) = Ok (st', None) /\
    loaded st' h0 (flat_series F l).
Proof using Type.
  intros Hld Hf. destruct l as [|rs l]; [by exists st|]. cbn [length Nat.ltb Nat.leb Head.load_records].
  rewrite load_record_series by by eapply fresh_series_ok. cbn [res_bind].
  destruct (lo_rep _ _ _ Hld) as (A & Hr & <-). destruct (load_all_series _ A (rs :: l) Hr Hf) as (A' & Hr' & Ef & Emin & Emax).
  eexists. split; [done|]. split; cbn [ld_head ld_unknown ld_mint ld_maxt].
  - apply Hld.
  - by exists A'.
  - intros id c x Hc Hx. destruct (flat_series_elem _ _ _ _ _ Hc Hx) as (d & Hd & Hxd). by apply (lo_times _ _ _ Hld id d).
  - rewrite Emin. apply Hld.
  - rewrite Emax. apply Hld.
Qed.

(** A sample that a transaction logs. *)
Definition loggable (F : flatmap) (x : RefSample) : Prop :=
  known F x /\ MemSeries.sample_ok (s_T x, s_V x) /\ is_u64 (s_Ref x).

Lemma load_samples_part st h0 F xs :
  loaded st h0 F -> Forall (loggable F) xs -> froom F (length xs) ->
  exists st', load_records MinInt64 st (if (0 <? length xs)%nat then [Enc_Samples xs []] else []) = Ok (st', None) /\
    loaded st' h0 (flat_samples F xs).
Proof using Type.
  intros Hld Hxs Hroom. destruct (decide (xs = [])) as [->|Hne]; [by exists st|].
  assert (E : (0 <? length xs)%nat = true) by by destruct xs. rewrite E. cbn [Head.load_records].
  rewrite load_record_samples.
  2: { eapply Forall_impl; [exact Hxs|]. intros y (_ & [Ht Hv] & Hr). unfold time_ok in Ht. cbn in Ht, Hv.
       split_and!; [done|unfold is_s; lia|done]. }
  destruct (lo_rep _ _ _ Hld) as (A & Hr & EA). rewrite <- EA in *.
  destruct (load_samples_ok _ A MinInt64 xs (ld_unknown st) (ld_mint st) (ld_maxt st) Hr) as (h' & A' & -> & Hr' & Ef & Emin & Emax).
  - eapply Forall_impl; [exact Hxs|]. intros y (? & [Ht Hv] & _). split; [done|]. split; [by split|].
    unfold time_ok in Ht. cbn in Ht. unfold MinInt64. lia.
  - by apply room_flat.
  - cbn [res_bind]. eexists. split; [done|]. split; cbn [ld_head ld_unknown ld_mint ld_maxt].
    + apply Hld.
    + by exists A'.
    + apply samples_times. apply (lo_times _ _ _ Hld).
    + rewrite Emin. apply Hld.
    + rewrite Emax. apply Hld.
Qed.

Lemma load_tx st h0 F series samples :
  loaded st h0 F -> series_fresh F series -> Forall (loggable (flat_series F series)) samples ->
  froom (flat_series F series) (length samples) ->
  exists st', load_records MinInt64 st (tx_records series samples) = Ok (st', None) /\
    loaded st' h0 (flat_samples (flat_series F series) samples).
Proof using Type.
  intros Hld Hf Hx Hroom. unfold tx_records. rewrite load_records_app.
  destruct (load_series_part st h0 F series MinInt64 Hld Hf) as (st1 & -> & Hld1). cbn [res_bind].
  by apply load_samples_part.
Qed.

(** The records bring back [F]. *)
Definition recovers (recs : list (list Z)) (F : flatmap) : Prop :=
  forall h0, rep h0 ∅ -> exists st, load_records MinInt64 (mkLoading h0 0 MaxInt64 MinInt64) recs = Ok (st, None) /\ loaded st h0 F.

Lemma recovers_nil : recovers [] ∅.
Proof using Type.
  intros h0 Hr. eexists. split; [done|]. split; try done.
  - exists ∅. split; [done|]. unfold flat. by rewrite fmap_empty.
Qed.

Lemma recovers_tx recs F series samples :
  recovers recs F -> series_fresh F series -> Forall (loggable (flat_series F series)) samples ->
  froom (flat_series F series) (length samples) ->
  recovers (recs ++ tx_records series samples) (flat_samples (flat_series F series) samples).
Proof using Type.
  intros Hrec Hf Hx Hroom h0 Hr. destruct (Hrec h0 Hr) as (st & E & Hld). rewrite load_records_app, E. cbn [res_bind].
  by apply load_tx.
Qed.
End Replay.

(** ** A load that fails *)

Section Failing.
Context {W : Type} `{WAL W} (Sum64 : list Z -> Z).

Definition same_times (h h' : Head W) : Prop := h_minTime h' = h_minTime h /\ h_maxTime h' = h_maxTime h.

Lemma same_times_trans h1 h2 h3 : same_times h1 h2 -> same_times h2 h3 -> same_times h1 h3.
Proof using Type. unfold same_times. intuition congruence. Qed.

Lemma load_series_times h l : same_times h (foldl (load_series Sum64) h l).
Proof using Type.
  revert h. induction l as [|[id ls] l IH]; intros h; [done|]. cbn [foldl].
  assert (Hs : same_times h (load_series Sum64 h (mkRefSeries id ls))).
  { unfold load_series, getOrCreateWithID, getOrSet. destruct (hm_get _ _ _); cbn; by destruct (_ <? _). }
  by eapply same_times_trans.
Qed.

Lemma processWALSamples_times h m xs u a b h' u' a' b' :
  processWALSamples h m xs u a b = Ok (h', u', a', b') -> same_times h h'.
Proof using Type.
  revert h u a b. induction xs as [|x xs IH]; intros h u a b; cbn [processWALSamples]; [by intros [= <- _ _ _]|].
  destruct (s_T x <? m); [apply IH|]. destruct (getByID h (s_Ref x)); [|apply IH]. destruct (series_at h _) as [s|]; [|done].
  intros ([s' c] & _ & Hp)%res_bind_ok. by apply IH in Hp.
Qed.

Lemma load_record_times m (st : loading (W := W)) rec st' e :
  load_record Sum64 m st rec = Ok (st', e) -> same_times (ld_head st) (ld_head st').
Proof using Type.
  unfold load_record. repeat case_match; try by intros [= <- <-].
  - intros [= <- <-]. apply load_series_times.
  - intros ([[[h1 u1] a1] b1] & Hp & [= <- <-])%res_bind_ok. by apply processWALSamples_times in Hp.
Qed.

Lemma load_records_times m (st : loading (W := W)) recs st' e :
  Head.load_records Sum64 m st recs = Ok (st', e) -> same_times (ld_head st) (ld_head st').
Proof using Type.
  revert st. induction recs as [|r recs IH]; intros st; cbn [Head.load_records]; [by intros [= <- <-]|].
  intros ([st1 e1] & H1%load_record_times & Hr)%res_bind_ok. destruct e1; [by injection Hr as <- _|].
  by eapply same_times_trans; [|apply IH].
Qed.
End Failing.

(** * A run of the head with its log *)

(** What the head relies on from its log: it keeps the records it is given, in
    order. *)
Class LogStore (W : Type) `{WAL W} := {
  log_holds : W -> list (list Z) -> Prop;
  wal_Log_holds (w : W) recs rec :
    log_holds w recs -> Forall is_byte rec -> exists w', wal_Log w rec = (w', None) /\ log_holds w' (recs ++ [rec]);
}.

(** The log that is the list of its records. *)
#[export, program] Instance list_store : LogStore (list (list Z)) := {| log_holds w recs := w = recs |}.
Next Obligation. intros w recs rec -> _. by eexists. Qed.

Section Run.
Context {W : Type} `{HL : LogStore W} (Sum64 : list Z -> Z).
Abbreviation head := (Head W).
Abbreviation rep := (HeadInv.rep (W := W) Sum64).

(** Transactions one after the other, each committed. *)
Fixpoint transactions (h : head) (txs : list (list (Labels * Buffer.sample))) : res head :=
  match txs with
  | [] => Ok h
  | rs :: txs =>
      let '(h, a, _) := adds Sum64 h (appender h) rs in
      let? (h, _) := a_Commit h a in
      transactions h txs
  end.

(** The appender does not touch the log. *)
Lemma getOrCreate_wal (h : head) hash lset : h_wal (fst (fst (getOrCreate h hash lset))) = h_wal h.
Proof using Type.
  unfold getOrCreate, getOrCreateWithID, getOrSet. destruct (getByHash h hash lset); [done|].
  destruct (hm_get _ _ _); done.
Qed.

Lemma AddFast_wal (h : head) a ref t v : h_wal (fst (fst (a_AddFast h a ref t v))) = h_wal h.
Proof using Type. unfold a_AddFast. by repeat case_match. Qed.

Lemma Add_wal (h : head) a lset t v : h_wal (fst (fst (a_Add Sum64 h a lset t v))) = h_wal h.
Proof using Type.
  unfold a_Add. destruct (_ <? _); [done|]. pose proof (getOrCreate_wal h (labels_hash Sum64 lset) lset) as Eg.
  destruct (getOrCreate h _ lset) as [[h1 l] b]. cbn [fst] in Eg. set (a1 := if b then _ else _).
  pose proof (AddFast_wal h1 a1 (ref_at h1 l) t v) as Ea. destruct (a_AddFast h1 a1 _ t v) as [[h2 a2] e]. cbn [fst] in *. congruence.
Qed.

Lemma adds_wal (h : head) a rs : h_wal (fst (fst (adds Sum64 h a rs))) = h_wal h.
Proof using Type.
  revert h a. induction rs as [|r rs IH]; intros h a; [done|]. cbn [adds].
  pose proof (Add_wal h a (fst r) (fst (snd r)) (snd (snd r))) as Ea. destruct (a_Add Sum64 h a _ _ _) as [[h1 a1] [ref e]].
  specialize (IH h1 a1). destruct (adds Sum64 h1 a1 rs) as [[h2 a2] es]. cbn [fst] in *. congruence.
Qed.

Lemma commit_samples_frame (h : head) xs h' :
  commit_samples h xs = Ok h' -> h_wal h' = h_wal h /\ h_lastSeriesID h' = h_lastSeriesID h.
Proof using Type.
  revert h. induction xs as [|[x l] xs IH]; intros h; cbn [commit_samples]; [by intros [= <-]|].
  destruct (series_at h l) as [s|]; [|done]. intros ([s' b] & _ & Hc)%res_bind_ok. by apply IH in Hc.
Qed.

Lemma a_log_store (h : head) a w recs :
  h_wal h = Some w -> log_holds w recs ->
  exists w', a_log h a = (with_wal h w', None) /\ log_holds w' (recs ++ tx_records (ap_series a) (fst <$> ap_samples a)).
Proof using Type.
  intros Hw Hl. unfold a_log, tx_records. rewrite Hw, length_fmap, (assoc_L (++)).
  assert (H1 : exists w1, (if (0 <? length (ap_series a))%nat then wal_Log w (Enc_Series (ap_series a) []) else (w, None)) = (w1, None) /\
    log_holds w1 (recs ++ (if (0 <? length (ap_series a))%nat then [Enc_Series (ap_series a) []] else []))).
  { destruct (_ <? _)%nat; [by apply wal_Log_holds, Forall_Enc_Series|]. exists w. by rewrite app_nil_r. }
  destruct H1 as (w1 & -> & Hl1). revert Hl1. generalize (recs ++ (if (0 <? length (ap_series a))%nat then [Enc_Series (ap_series a) []] else [])).
  intros recs1 Hl1. destruct (_ <? _)%nat; [|exists w1; by rewrite app_nil_r].
  destruct (wal_Log_holds w1 recs1 (Enc_Samples (fst <$> ap_samples a) []) Hl1 ltac:(by apply Forall_Enc_Samples)) as (w2 & -> & Hl2).
  by exists w2.
Qed.

(** What a transaction logs can be replayed. *)
Lemma app_loggable F0 (h : head) A D a taken :
  app_rep Sum64 F0 h A D a taken -> Forall (fun r => sample_ok (snd r)) taken ->
  Forall (loggable (flat_series F0 (ap_series a))) (fst <$> ap_samples a).
Proof using Type.
  intros [Hr _ Hsm <- _ _] Hok. induction Hsm as [|x r xs rs (c & [_ Hc] & _ & E) _ IH]; [constructor|].
  apply Forall_cons in Hok as [Hok Hoks]. cbn. constructor; [|by apply IH].
  pose proof (rp_ids _ _ _ (proj1 Hr) _ _ Hc) as [Hid _]. pose proof (rp_last _ _ _ (proj1 Hr)) as Hl. unfold max_id in Hl.
  split; [unfold known; rewrite flat_lookup, Hc; by eexists|]. split; [by rewrite E|unfold is_u; lia].
Qed.

(** The head, with room for [n] more samples, and its log agree. *)
Record logged (h : head) (A : contents) (n : nat) : Prop := {
  lg_rep : rep h A;
  lg_shows : exists D, shows A D;
  lg_log : exists w recs, h_wal h = Some w /\ log_holds w recs /\ recovers (W := W) Sum64 recs (flat A);
  lg_room : room A n /\ Z.of_nat n <= 65535;
  lg_ids : h_lastSeriesID h + Z.of_nat n < max_id;
}.

Lemma transaction_logged h A rs n :
  logged h A (length rs + n) -> Forall request_ok rs ->
  exists h1 a1 es h2 A2, adds Sum64 h (appender h) rs = (h1, a1, es) /\ a_Commit h1 a1 = Ok (h2, None) /\ logged h2 A2 n.
Proof using Type.
  intros [Hr [D HD] (w & recs & Hw & Hwl & Hrec) [Hroom Hn] Hids] Hrs.
  pose proof (adds_ok Sum64 _ _ _ _ _ _ rs (appender_rep Sum64 _ _ _ Hr HD) Hrs ltac:(lia)) as Ha.
  pose proof (spec_adds_grows (ap_minValidTime (appender h)) D rs) as Hg. pose proof (adds_wal h (appender h) rs) as Ew.
  destruct (spec_adds _ D rs) as [[D1 taken] es]. destruct Hg as (Hl & Hd & Ht).
  destruct Ha as (h1 & A1 & a1 & Hadds & Ha1 & Hlast & _). cbn [app] in Ha1. rewrite Hadds in Ew. cbn [fst] in Ew.
  assert (Hok : Forall (fun r => sample_ok (snd r)) taken).
  { rewrite Forall_forall in Hrs, Ht |- *. intros r Hin%Ht. by apply Hrs. }
  assert (Hroom1 : room A1 (length rs + n)).
  { intros id c Hc. pose proof (proj2 (ar_shows _ _ _ _ _ _ _ Ha1 (fst c) (mjoin (chunked c)))
      (ex_intro _ id (ex_intro _ c (conj Hc (conj eq_refl eq_refl))))) as Hs.
    apply Hd in Hs as [Hs|Hs]; [|rewrite Hs; cbn; lia]. apply HD in Hs as (i & d & Hi & _ & <-). by apply (Hroom i). }
  destruct (Commit_ok Sum64 _ _ _ _ _ _ Ha1 Hok) as (h2 & A2 & Hc & Hr2 & Hm); [eapply room_weaken; [exact Hroom1|lia]|].
  destruct (a_log_store h1 a1 w recs ltac:(by rewrite Ew) Hwl) as (w' & El & Hwl'). rewrite El in Hc, Hm. cbn [snd] in Hc, Hm.
  destruct Hm as (HD2 & Hf2 & _). exists h1, a1, es, h2, A2. split; [done|]. split; [done|].
  pose proof (app_loggable _ _ _ _ _ _ Ha1 Hok) as Hlog. pose proof (Forall2_length _ _ _ (ar_samples _ _ _ _ _ _ _ Ha1)) as Hlen.
  assert (Hframe : h_wal h2 = Some w' /\ h_lastSeriesID h2 = h_lastSeriesID h1).
  { unfold a_Commit in Hc. rewrite El in Hc. apply res_bind_ok in Hc as (h3 & Hcs & [= <-]).
    destruct (commit_samples_frame _ _ _ Hcs) as [Ew3 Ei3]. cbn. by rewrite Ew3, Ei3. }
  split; [done|by exists (spec_commit D1 taken)| | |lia].
  - eexists w', _. split; [apply Hframe|]. split; [exact Hwl'|]. rewrite Hf2. apply recovers_tx; [done|apply Ha1|done|].
    rewrite <- (ar_series _ _ _ _ _ _ _ Ha1), length_fmap. apply room_flat. eapply room_weaken; [exact Hroom1|lia].
  - split; [|lia]. apply room_flat. rewrite Hf2. apply froom_samples. rewrite length_fmap, Hlen.
    rewrite <- (ar_series _ _ _ _ _ _ _ Ha1). apply room_flat. eapply room_weaken; [exact Hroom1|lia].
Qed.

Lemma transactions_logged h A txs n :
  logged h A (length (mjoin txs) + n) -> Forall (Forall request_ok) txs ->
  exists h' A', transactions h txs = Ok h' /\ logged h' A' n.
Proof using Type.
  revert h A. induction txs as [|rs txs IH]; intros h A Hlg Htxs; [by exists h, A|].
  apply Forall_cons in Htxs as [Hrs Htxs]. rewrite join_cons, length_app, <- Nat.add_assoc in Hlg.
  destruct (transaction_logged _ _ _ _ Hlg Hrs) as (h1 & a1 & es & h2 & A2 & E1 & E2 & Hlg2). cbn [transactions].
  rewrite E1, E2. cbn [res_bind]. by eapply IH.
Qed.

(** A new head on a log. *)
Definition new_head (w : Z) (wal : W) : head :=
  mkHead w (Some wal) MaxInt64 MinInt64 0 [] ∅ ∅ ∅ ∅ NewUnorderedMemPostings NewMemTombstones.

Lemma new_head_rep w wal : range_ok w -> NewHead (Some wal) w = Ok (new_head w wal) /\ rep (new_head w wal) ∅.
Proof using Type.
  intros Hw. destruct (NewHead_rep Sum64 (Some wal) w Hw) as (h & E & Hr).
  assert (E' : NewHead (Some wal) w = Ok (new_head w wal)).
  { unfold NewHead. by rewrite (proj2 (Z.ltb_ge _ _)) by (unfold range_ok in Hw; lia). }
  rewrite E' in E. injection E as <-. done.
Qed.

Lemma new_logged w wal t0 n :
  range_ok w -> log_holds wal [] -> Z.of_nat n <= 65535 -> logged (fst (initTime (new_head w wal) t0)) ∅ n.
Proof using Type.
  intros Hw Hwl Hn. destruct (new_head_rep w wal Hw) as [_ Hr]. split.
  - apply with_times_rep, Hr.
  - exists ∅. intros lset xs. rewrite lookup_empty. split; [done|]. intros (id & c & Hc & _). by rewrite lookup_empty in Hc.
  - exists wal, []. split; [done|]. split; [done|]. unfold flat. rewrite fmap_empty. apply recovers_nil.
  - split; [|done]. intros id c Hc. by rewrite lookup_empty in Hc.
  - change (h_lastSeriesID _) with 0. unfold max_id. lia.
Qed.

(** Loading into a new head. *)
Lemma Init_ok w wal recs F repair :
  range_ok w -> recovers (W := W) Sum64 recs F ->
  exists h A, Init Sum64 (new_head w wal) (mkWalContents None (recs, None)) repair = Ok (h, None) /\ rep h A /\ flat A = F /\
    mp_ordered (h_postings h) = true /\
    forall id c x, F !! id = Some c -> x ∈ snd c -> h_minTime h <= fst x <= h_maxTime h.
Proof using Type.
  intros Hw Hrec. destruct (new_head_rep w wal Hw) as [_ Hr]. destruct (Hrec _ Hr) as (st & E & Hld).
  destruct (lo_rep _ _ _ _ Hld) as (A & HrA & EA).
  unfold Init. cbn [new_head h_wal wc_checkpoint wc_segments res_bind fst snd]. unfold loadWAL. cbn [new_head h_minTime].
  rewrite Z.eqb_refl. fold (new_head w wal). rewrite E. cbn [res_bind].
  set (h1 := updateMinMaxTime (ld_head st) (ld_mint st) (ld_maxt st)).
  assert (Hr1 : rep h1 A) by by apply with_times_rep. destruct (EnsureOrder_rep Sum64 h1 A Hr1) as [Hr2 Ho].
  exists (EnsureOrder_head h1), A. split; [done|]. split; [done|]. split; [done|]. split; [done|].
  intros id c x Hc Hx. pose proof (lo_times _ _ _ _ Hld _ _ _ Hc Hx) as Ht. cbn.
  rewrite (lo_min _ _ _ _ Hld), (lo_max _ _ _ _ Hld). cbn [new_head h_minTime h_maxTime].
  destruct (Z.leb_spec MaxInt64 (ld_mint st)), (Z.leb_spec (ld_maxt st) MinInt64); lia.
Qed.

(** The state of a head and what its log holds; [repair] is never called. *)
Lemma recovery_ok w t0 txs wal :
  range_ok w -> log_holds wal [] -> Forall (Forall request_ok) txs -> Z.of_nat (length (mjoin txs)) <= 65535 ->
  exists h wl recs A, transactions (fst (initTime (new_head w wal) t0)) txs = Ok h /\ h_wal h = Some wl /\ log_holds wl recs /\ rep h A /\
  forall wal' repair, exists h' A', Init Sum64 (new_head w wal') (mkWalContents None (recs, None)) repair = Ok (h', None) /\ rep h' A' /\
    flat A' = flat A /\ mp_ordered (h_postings h') = true /\
    forall id c x, flat A !! id = Some c -> x ∈ snd c -> h_minTime h' <= fst x <= h_maxTime h'.
Proof using Type.
  intros Hw Hwl Htxs Hlen. rewrite <- (Nat.add_0_r (length (mjoin txs))) in Hlen.
  destruct (transactions_logged _ ∅ txs 0 (new_logged w wal t0 _ Hw Hwl Hlen) Htxs) as (h & A & E & [Hr _ (wl & recs & Hwal & Hwl' & Hrec) _ _]).
  exists h, wl, recs, A. do 4 (split; [done|]). intros wal' repair.
  destruct (Init_ok w wal' recs (flat A) repair Hw Hrec) as (h' & A' & ? & ? & ? & ? & ?). by exists h', A'.
Qed.

(** C8: crash recovery, for any log that keeps its records.  Whatever transactions
    are committed one after the other on a new head, loading the records they have
    left in the log into a new head succeeds and gives a well-formed head with the
    same series, references and samples, whose times cover the samples and whose
    postings are in order. *)
Theorem recovery_roundtrip (w t0 : Z) (txs : list (list (Labels * Buffer.sample))) (wal wal' : W)
    (repair : W -> error -> W * option error) :
  range_ok w -> log_holds wal [] -> Forall (Forall request_ok) txs -> Z.of_nat (length (mjoin txs)) <= 65535 ->
  exists h wl recs A, transactions (fst (initTime (new_head w wal) t0)) txs = Ok h /\ h_wal h = Some wl /\ log_holds wl recs /\ rep h A /\
  exists h' A', Init Sum64 (new_head w wal') (mkWalContents None (recs, None)) repair = Ok (h', None) /\ rep h' A' /\
    flat A' = flat A /\ mp_ordered (h_postings h') = true /\
    forall id c x, flat A !! id = Some c -> x ∈ snd c -> h_minTime h' <= fst x <= h_maxTime h'.
Proof using Type.
  intros Hw Hwl Htxs Hlen. destruct (recovery_ok w t0 txs wal Hw Hwl Htxs Hlen) as (h & wl & recs & A & E & Hwal & Hwl' & Hr & Hi).
  exists h, wl, recs, A. do 4 (split; [done|]). apply Hi.
Qed.
End Run.

Lemma example_requests_ok : Forall request_ok AppendExample.reqs.
Proof.
  unfold request_ok, sample_ok, time_ok, is_u. repeat (constructor; [split; [decided|cbn; lia]|]). constructor.
Qed.

Lemma recovery_roundtrip_witness :
  exists (h : Head (list (list Z))) wl recs A,
    transactions AppendExample.sum (fst (initTime (new_head 1000 ([] : list (list Z))) 10)) [AppendExample.reqs; AppendExample.reqs] = Ok h /\
    h_wal h = Some wl /\ log_holds wl recs /\ HeadInv.rep AppendExample.sum h A /\
  exists h' A', Init AppendExample.sum (new_head 1000 ([] : list (list Z))) (mkWalContents None (recs, None)) (fun w e => (w, Some e)) = Ok (h', None) /\
    HeadInv.rep AppendExample.sum h' A' /\ flat A' = flat A /\ mp_ordered (h_postings h') = true /\
    forall id c x, flat A !! id = Some c -> x ∈ snd c -> h_minTime h' <= fst x <= h_maxTime h'.
Proof.
  apply (recovery_roundtrip AppendExample.sum 1000 10 [AppendExample.reqs; AppendExample.reqs]).
  - unfold range_ok. lia.
  - done.
  - repeat (apply Forall_cons_2; [exact example_requests_ok|]). apply Forall_nil_2.
  - cbn. lia.
Defined.

(** A load of the log that fails, because of a record that cannot be decoded
    or of an error of the reader, leaves the head's times as they were, whatever
    samples the records before have brought: the workers that would report the
    times are never told to finish. *)
Theorem failed_load_keeps_times {W : Type} `{WAL W} (Sum64 : list Z -> Z) (h h' : Head W) (recs : list (list Z))
    (err : option error) (e : error) :
  loadWAL Sum64 h recs err = Ok (h', Some e) -> same_times h h'.
Proof.
  unfold loadWAL. intros ([st e1] & Hl%load_records_times & Hr)%res_bind_ok. cbn [ld_head] in Hl.
  destruct e1 as [e1|]; [by injection Hr as <- _|]. destruct err as [err|]; [by injection Hr as <- _|done].
Qed.

(** A log cut short: the sample of the first transaction is loaded. *)
Definition cut_log : list (list Z) := tx_records [mkRefSeries 1 [("a", "1")]%string] [mkRefSample 1 10 7] ++ [[9]].

Lemma failed_load_keeps_times_witness :
  exists h' : Head (list (list Z)), loadWAL AppendExample.sum (new_head 1000 ([] : list (list Z))) cut_log None = Ok (h', Some (ErrMsg "invalid record type")) /\
    (fun s => (ms_ref s, length (ms_chunks s), ms_lastValue s)) <$> h_heap h' = [(1, 1%nat, 7)] /\
    h_minTime h' = MaxInt64 /\ h_maxTime h' = MinInt64.
Proof.
  eexists. split; [vm_compute; reflexivity|]. split; [reflexivity|].
  apply (failed_load_keeps_times AppendExample.sum (new_head 1000 ([] : list (list Z))) _ cut_log None (ErrMsg "invalid record type")).
  vm_compute. reflexivity.
Defined.

(** * Two appenders at once *)

(** Two transactions that overlap: the first creates the series, the second, which
    adds to it, commits before. *)
Definition interleaved : res (Head (list (list Z))) :=
  let h := fst (initTime (new_head 1000 ([] : list (list Z))) 10) in
  let lset := [("a", "1")]%string in
  let '(h, a, _) := a_Add AppendExample.sum h (appender h) lset 10 1 in
  let '(h, b, _) := a_Add AppendExample.sum h (appender h) lset 11 2 in
  let? (h, _) := a_Commit h b in
  let? (h, _) := a_Commit h a in
  Ok h.

(** All samples in memory, by series. *)
Definition contents_of (h : Head (list (list Z))) : list (Z * option (list XorChunk.sample)) :=
  (fun s => (ms_ref s, match ms_iterator s 0 with Ok it => read_all 10 it | _ => None end)) <$> h_heap h.

(** The log has the samples of the second before the series of the first: the
    replay drops the committed sample, and the head it gives differs from the one
    that was lost. *)
Theorem replay_loses_committed :
  (let? h := interleaved in Ok (contents_of h)) = Ok [(1, Some [(11, 2)])] /\
  (let? h := interleaved in
   let? (h', e) := Init AppendExample.sum (new_head 1000 ([] : list (list Z))) (mkWalContents None (default [] (h_wal h), None)) (fun w e => (w, Some e)) in
   Ok (contents_of h', e)) = Ok ([(1, Some [(10, 1)])], None).
Proof. split; vm_compute; reflexivity. Qed.

(** * A series that comes back *)

(** A series whose samples are old is collected; then it gets a new sample and so is
    created again, with a new reference. *)
Definition collected_and_back : res (Head (list (list Z))) :=
  let h := fst (initTime (new_head 1000 ([] : list (list Z))) 10) in
  let lset := [("a", "1")]%string in
  let '(h, a, _) := a_Add AppendExample.sum h (appender h) lset 10 1 in
  let? (h, _) := a_Commit h a in
  let h := Truncate h 1000 (map_to_list (h_hashes h)).*1 (map_to_list (mp_m (h_postings h))).*1 in
  let '(h, a, _) := a_Add AppendExample.sum h (appender h) lset 2000 2 in
  let? (h, _) := a_Commit h a in
  Ok h.

(** The series of the head, by reference. *)
Definition series_contents (h : Head (list (list Z))) : list (Z * option (list XorChunk.sample)) :=
  (fun '(id, l) => (id, nth l (snd <$> contents_of h) None)) <$> map_to_list (h_series h).

(** The log still has the first record of the series, so that the replay takes the
    second for the same series and knows no series of the second reference: the new
    sample, which was committed, is dropped. *)
Theorem replay_loses_recreated :
  (let? h := collected_and_back in Ok (series_contents h)) = Ok [(2, Some [(2000, 2)])] /\
  (let? h := collected_and_back in
   let? (h', e) := Init AppendExample.sum (Truncate (new_head 1000 ([] : list (list Z))) 1000 [] [])
                     (mkWalContents None (default [] (h_wal h), None)) (fun w e => (w, Some e)) in
   Ok (series_contents h', e)) = Ok ([(1, Some [])], None).
Proof. split; vm_compute; reflexivity. Qed.
