(* ===== verification/Wal.v ===== *)
(** wal/wal.go: the write-ahead log.  Records are split into fragments that fill
    pages; pages make up segment files.  The directory is the map of its segment
    files; operations of the file system succeed. *)
From S2P Require Import Prelude Bits Varint Crc32 Order Tombstones Head.
#[local] Open Scope list_scope.
#[local] Open Scope Z_scope.

(** * Data *)

Definition defaultSegmentSize : Z := 128 * 1024 * 1024.
Definition pageSize : Z := 32 * 1024.
Definition recordHeaderSize : Z := 7.

Record page := mkPage { p_alloc : Z; p_flushed : Z; p_buf : list Z }.

Definition new_page : page := mkPage 0 0 (replicate (Z.to_nat pageSize) 0).

Definition remaining (p : page) : Z := pageSize - p_alloc p.
Definition full (p : page) : bool := pageSize - p_alloc p <? recordHeaderSize.

(** The segment files of a directory, by index. *)
Abbreviation directory := (gmap Z (list Z)).

Record CorruptionErr := mkCorruption { ce_Segment : Z; ce_Offset : Z; ce_Err : error }.

Record wal := mkWal { w_segmentSize : Z; w_dir : directory; w_segment : Z; w_donePages : Z; w_page : page }.

Definition with_page (w : wal) (p : page) : wal :=
  mkWal (w_segmentSize w) (w_dir w) (w_segment w) (w_donePages w) p.

(** ** Segments *)

(** [OpenWriteSegment]: a torn last page is filled with zeros. *)
Definition pad_torn (c : list Z) : list Z :=
  let d := zlen c mod pageSize in
  if negb (d =? 0) then c ++ replicate (Z.to_nat (pageSize - d)) 0 else c.

Definition OpenWriteSegment (dir : directory) (k : Z) : res directory :=
  match dir !! k with
  | None => Err ErrNotFound
  | Some c => Ok (<[k := pad_torn c]> dir)
  end.

(** [CreateSegment]: an existing file is opened as it is. *)
Definition CreateSegment (dir : directory) (k : Z) : directory :=
  match dir !! k with None => <[k := []]> dir | Some _ => dir end.

(** [segment.Write]. *)
Definition seg_Write (dir : directory) (k : Z) (b : list Z) : directory := alter (fun c => c ++ b) k dir.

(** [listSegments]: the indices in order, which must be sequential.  The names are
    the indices with zeros in front, so [ReadDir]'s order is that of the indices. *)
Fixpoint sequential (prev : option Z) (ks : list Z) : bool :=
  match ks with
  | [] => true
  | k :: ks => (match prev with Some last => k <=? last + 1 | None => true end) && sequential (Some k) ks
  end.

Definition listSegments (dir : directory) : res (list (Z * list Z)) :=
  let refs := sort_by fst Z.compare (map_to_list dir) in
  if sequential None (fst <$> refs) then Ok refs else Err (ErrMsg "segments are not sequential").

Definition Segments (w : wal) : res (Z * Z) :=
  let? refs := listSegments (w_dir w) in
  match head refs, last refs with
  | Some (i, _), Some (j, _) => Ok (i, j)
  | _, _ => Ok (-1, -1)
  end.

(** [NewSize] on the files of a directory. *)
Definition NewSize (dir : directory) (segmentSize : Z) : res wal :=
  if negb (Z.rem segmentSize pageSize =? 0) then Err (ErrMsg "invalid segment size")
  else
    let? (_, j) := Segments (mkWal segmentSize dir (-1) 0 new_page) in
    if j =? -1 then Ok (mkWal segmentSize (CreateSegment dir 0) 0 0 new_page)
    else
      let? dir := OpenWriteSegment dir j in
      Ok (mkWal segmentSize dir j (zlen (default [] (dir !! j)) / pageSize) new_page).

(** * Writing *)

Definition flushPage (w : wal) (clear : bool) : res wal :=
  let p := w_page w in
  let clear := clear || full p in
  let p := if clear then mkPage pageSize (p_flushed p) (p_buf p) else p in
  let? b := slice (p_buf p) (p_flushed p) (p_alloc p) in
  let dir := seg_Write (w_dir w) (w_segment w) b in
  let p := mkPage (p_alloc p) (p_flushed p + zlen b) (p_buf p) in
  if clear
  then Ok (mkWal (w_segmentSize w) dir (w_segment w) (w_donePages w + 1)
             (mkPage 0 0 (replicate (length (p_buf p)) 0)))
  else Ok (mkWal (w_segmentSize w) dir (w_segment w) (w_donePages w) p).

(** The previous segment is synced and closed in the background. *)
Definition nextSegment (w : wal) : res wal :=
  let? w := if 0 <? p_alloc (w_page w) then flushPage w true else Ok w in
  Ok (mkWal (w_segmentSize w) (CreateSegment (w_dir w) (w_segment w + 1)) (w_segment w + 1) 0 (w_page w)).

Definition recPageTerm : Z := 0.
Definition recFull : Z := 1.
Definition recFirst : Z := 2.
Definition recMiddle : Z := 3.
Definition recLast : Z := 4.

Definition pagesPerSegment (w : wal) : Z := Z.quot (w_segmentSize w) pageSize.

(** A fragment: type, length, checksum and the bytes of the record in it. *)
Definition fragment (typ : Z) (part : list Z) : list Z :=
  [u8 typ] ++ PutUint16 (u16 (zlen part)) ++ PutUint32 (crc32 part) ++ part.

(** The writes to [p.buf[p.alloc:]]; without room for a header they panic. *)
Definition write_fragment (p : page) (typ : Z) (part : list Z) : res page :=
  if zlen (p_buf p) <? p_alloc p + recordHeaderSize then Panic
  else
    let f := fragment typ part in
    Ok (mkPage (p_alloc p + zlen part + recordHeaderSize) (p_flushed p)
          (take (Z.to_nat (p_alloc p)) (p_buf p) ++ f ++ drop (Z.to_nat (p_alloc p) + length f) (p_buf p))).

(** The loop of [log]: one round per page, and at least one. *)
Fixpoint log_loop (fuel : nat) (w : wal) (rec : list Z) (first final : bool) : res wal :=
  match fuel with
  | O => Err out_of_fuel
  | S fuel =>
      let p := w_page w in
      let l := Z.min (zlen rec) (pageSize - p_alloc p - recordHeaderSize) in
      let? part := slice rec 0 l in
      let typ := if first && (zlen part =? zlen rec) then recFull
                 else if zlen part =? zlen rec then recLast
                 else if first then recFirst
                 else recMiddle in
      let? p := write_fragment p typ part in
      let w := with_page w p in
      let? w := if final || negb (typ =? recFull) || full p then flushPage w false else Ok w in
      let rec := drop (Z.to_nat l) rec in
      if (0 <? length rec)%nat then log_loop fuel w rec false final else Ok w
  end.

Definition w_log (w : wal) (rec : list Z) (final : bool) : res wal :=
  let left := remaining (w_page w) - recordHeaderSize +
              (pageSize - recordHeaderSize) * (pagesPerSegment w - w_donePages w - 1) in
  let? w := if left <? zlen rec then nextSegment w else Ok w in
  log_loop (S (S (length rec))) w rec true final.

(** [Log]: the page is flushed with the last record of the batch. *)
Fixpoint Log (w : wal) (recs : list (list Z)) : res wal :=
  match recs with
  | [] => Ok w
  | r :: recs => let? w := w_log w r (match recs with [] => true | _ => false end) in Log w recs
  end.

(** [Truncate]: the segments before [i] go. *)
Definition wal_Truncate (w : wal) (i : Z) : res wal :=
  let? refs := listSegments (w_dir w) in
  Ok (mkWal (w_segmentSize w) (filter (fun kv => i <= fst kv) (w_dir w)) (w_segment w) (w_donePages w) (w_page w)).

(** [Close]: the files that are left. *)
Definition Close (w : wal) : res directory :=
  let? w := if 0 <? p_alloc (w_page w) then flushPage w true else Ok w in
  Ok (w_dir w).

(** * Reading *)

(** What [io.ReadFull] does on an [io.Reader]: the bytes read, fewer than asked for
    only at the end of the input; [rd_at] is the position of a
    [segmentBufReader], a segment and an offset in it. *)
Class IoReader (R : Type) := {
  rd_Fill : R -> nat -> list Z * R;
  rd_size : R -> nat;
  rd_at : R -> option (Z * Z);
}.

(** A file read from its start. *)
#[export] Instance bytes_reader : IoReader (list Z) := {|
  rd_Fill b n := (take n b, drop n b);
  rd_size b := length b;
  rd_at _ := None;
|}.

(** [segmentBufReader]: the current segment with what is left of it, and the
    segments to come.  [sb_more] is unset when the current one has ended. *)
Record segmentBufReader := mkSegBuf {
  sb_cur : Z; sb_off : Z; sb_more : bool; sb_left : list Z; sb_segs : list (Z * list Z) }.

Definition newSegmentBufReader (segs : list (Z * list Z)) : segmentBufReader := mkSegBuf (-1) 0 false [] segs.

(** [n > 0] bytes, across segments: each segment ends with a read of no bytes. *)
Fixpoint sb_fill (segs : list (Z * list Z)) (cur off : Z) (left : list Z) (n : nat) : list Z * segmentBufReader :=
  if (n <=? length left)%nat then (take n left, mkSegBuf cur (off + Z.of_nat n) true (drop n left) segs)
  else
    match segs with
    | [] => (left, mkSegBuf cur (off + zlen left) false [] [])
    | (i, c) :: segs =>
        let '(b, r) := sb_fill segs i 0 c (n - length left) in
        (left ++ b, r)
    end.

#[export] Instance segment_reader : IoReader segmentBufReader := {|
  rd_Fill r n := match n with O => ([], r) | _ => sb_fill (sb_segs r) (sb_cur r) (sb_off r) (sb_left r) n end;
  rd_size r := (length (sb_left r) + length (mjoin (snd <$> sb_segs r)))%nat;
  rd_at r := Some (sb_cur r, sb_off r);
|}.

Record Reader (R : Type) := mkReader { r_rdr : R; r_err : option error; r_rec : list Z; r_total : Z }.
Arguments mkReader {R}.
Arguments r_rdr {R}.
Arguments r_err {R}.
Arguments r_rec {R}.
Arguments r_total {R}.

Section Reader.
Context {R : Type} `{IoReader R}.
Abbreviation Reader := (Reader R).

Definition NewReader (rdr : R) : Reader := mkReader rdr None [] 0.

Definition ErrUnexpectedEOF : error := ErrMsg "unexpected EOF".

(** [io.ReadFull] and [r.total += n]; the total counts only complete reads. *)
Definition ReadFull (r : Reader) (n : Z) : list Z * Reader * option error :=
  let '(b, rdr) := rd_Fill (r_rdr r) (Z.to_nat n) in
  if (length b <? Z.to_nat n)%nat
  then (b, mkReader rdr (r_err r) (r_rec r) (r_total r), Some (if (length b =? 0)%nat then EOF else ErrUnexpectedEOF))
  else (b, mkReader rdr (r_err r) (r_rec r) (r_total r + n), None).

Definition add_rec (r : Reader) (b : list Z) : Reader := mkReader (r_rdr r) (r_err r) (r_rec r ++ b) (r_total r).

(** What a fragment's type says at the [i]-th fragment of a record: go on, done,
    or an error. *)
Definition fragment_type (typ : Z) (i : nat) : res bool :=
  if typ =? recFull then if negb (i =? 0)%nat then Err (ErrMsg "unexpected full record") else Ok true
  else if typ =? recFirst then if negb (i =? 0)%nat then Err (ErrMsg "unexpected first record") else Ok false
  else if typ =? recMiddle then if (i =? 0)%nat then Err (ErrMsg "unexpected middle record") else Ok false
  else if typ =? recLast then if (i =? 0)%nat then Err (ErrMsg "unexpected last record") else Ok true
  else Err (ErrMsg "unexpected record type").

(** After a zero type: the rest of the page must be zeros. *)
Definition gobble (r : Reader) : Reader * option error :=
  let k := pageSize - r_total r mod pageSize in
  if k =? pageSize then (r, None)
  else
    let '(b, r, e) := ReadFull r k in
    match e with
    | Some e => (r, Some e)
    | None => (r, if forallb (Z.eqb 0) b then None else Some (ErrMsg "unexpected non-zero byte in padded page"))
    end.

(** The fragment after its type. *)
Definition read_fragment (r : Reader) : Reader * option error :=
  let '(h, r, e) := ReadFull r (recordHeaderSize - 1) in
  match e with
  | Some e => (r, Some e)
  | None =>
      let length := be_val (take 2 h) in
      let crc := be_val (drop 2 h) in
      if pageSize - recordHeaderSize <? length then (r, Some (ErrMsg "invalid record size"))
      else
        let '(b, r, e) := ReadFull r length in
        match e with
        | Some e => (r, Some e)
        | None => if negb (crc32 b =? crc) then (r, Some (ErrMsg "unexpected checksum")) else (add_rec r b, None)
        end
  end.

(** The loop of [next]: a round takes a byte at least. *)
Fixpoint next_loop (fuel : nat) (r : Reader) (i : nat) : Reader * option error :=
  match fuel with
  | O => (r, Some out_of_fuel)
  | S fuel =>
      let '(b, r, e) := ReadFull r 1 in
      match e with
      | Some e => (r, Some e)
      | None =>
          let typ := nth 0 b 0 in
          if typ =? recPageTerm then
            let '(r, e) := gobble r in
            match e with Some e => (r, Some e) | None => next_loop fuel r i end
          else
            let '(r, e) := read_fragment r in
            match e with
            | Some e => (r, Some e)
            | None =>
                match fragment_type typ i with
                | Ok true => (r, None)
                | Ok false => next_loop fuel r (S i)
                | Err e => (r, Some e)
                | Panic => (r, Some out_of_fuel)
                end
            end
      end
  end.

Definition next (r : Reader) : Reader * option error :=
  next_loop (S (rd_size (r_rdr r))) (mkReader (r_rdr r) (r_err r) [] (r_total r)) 0.

(** [Next]: the end of the input is no error. *)
Definition Next (r : Reader) : bool * Reader :=
  let '(r, e) := next r in
  match e with
  | Some EOF => (false, r)
  | Some e => (false, mkReader (r_rdr r) (Some e) (r_rec r) (r_total r))
  | None => (true, mkReader (r_rdr r) None (r_rec r) (r_total r))
  end.

Definition r_Err (r : Reader) : option CorruptionErr :=
  match r_err r with
  | None => None
  | Some e =>
      match rd_at (r_rdr r) with
      | Some (seg, off) => Some (mkCorruption seg off e)
      | None => Some (mkCorruption (-1) (r_total r) e)
      end
  end.

(** The client's loop: all records, and the error at the end. *)
Fixpoint read_records (fuel : nat) (r : Reader) : list (list Z) * Reader :=
  match fuel with
  | O => ([], r)
  | S fuel =>
      let '(ok, r) := Next r in
      if ok then let '(recs, r') := read_records fuel r in (r_rec r :: recs, r') else ([], r)
  end.
End Reader.

(** [NewSegmentsRangeReader]: -1 leaves an end of the range open. *)
Definition NewSegmentsRangeReader (dir : directory) (first last : Z) : res segmentBufReader :=
  let? refs := listSegments dir in
  Ok (newSegmentBufReader
        (filter (fun kv => (first < 0 \/ first <= fst kv) /\ (last < 0 \/ fst kv <= last)) refs)).

Definition MaxInt32 : Z := 2 ^ 31 - 1.
Definition NewSegmentsReader (dir : directory) : res segmentBufReader := NewSegmentsRangeReader dir 0 MaxInt32.

(** All records of a reader. *)
Definition read_all_records {R} `{IoReader R} (rdr : R) : list (list Z) * Reader R :=
  read_records (S (rd_size rdr)) (NewReader rdr).

(** [Repair]: drop the segments after the corruption and write the corrupted one
    again, up to it.  The page and the count of pages stay those of the segment
    that was active. *)
Definition Repair (w : wal) (origErr : option CorruptionErr) : res wal :=
  match origErr with
  | None => Err (ErrMsg "cannot handle error")
  | Some cerr =>
      if ce_Segment cerr <? 0 then Err (ErrMsg "corruption error does not specify position")
      else
        let? segs := listSegments (w_dir w) in
        let dir := filter (fun kv => fst kv <= ce_Segment cerr) (w_dir w) in
        match dir !! ce_Segment cerr with
        | None => Err ErrNotFound
        | Some c =>
            let dir := CreateSegment (delete (ce_Segment cerr) dir) (ce_Segment cerr) in
            let w := mkWal (w_segmentSize w) dir (ce_Segment cerr) (w_donePages w) (w_page w) in
            foldl (fun w r => let? w := w in Log w [r]) (Ok w) (fst (read_all_records c))
        end
  end.

Example log_example :
  (let? w := NewSize ∅ (4 * pageSize) in
   let? w := Log w [[1; 2; 3]; []; [7]] in
   let? r := NewSegmentsReader (w_dir w) in
   let '(recs, r) := read_all_records r in
   Ok (recs, r_Err r, (fun kv => (fst kv, zlen (snd kv))) <$> map_to_list (w_dir w))) =
  Ok ([[1; 2; 3]; []; [7]], None, [(0, 25)]).
Proof. by vm_compute. Qed.
