(* ===== verification/WalSpec.v ===== *)
(** The write-ahead log gives back the records it was given: what a stream of pages
    holds, that the writer produces such streams and that the reader reads them. *)
From S2P Require Import Prelude Bits Varint Crc32 Order Tombstones Head Wal.
#[local] Open Scope list_scope.
#[local] Open Scope Z_scope.

Lemma pageSize_bounds : recordHeaderSize < pageSize < 2 ^ 16.
Proof. done. Qed.
#[local] Opaque pageSize.

Ltac page_lia := pose proof pageSize_bounds; unfold recordHeaderSize in *; lia.

(** * What a stream holds *)


Definition frag_type (first whole : bool) : Z :=
  if first && whole then recFull else if whole then recLast else if first then recFirst else recMiddle.

(** How much of [rec] goes into a page with [a] bytes taken. *)
Definition part_len (a : Z) (rec : list Z) : Z := Z.min (zlen rec) (pageSize - a - recordHeaderSize).

(** The fragments of a record that begins in a page with [a] bytes taken: each but
    the last fills its page. *)
Fixpoint rec_frags (fuel : nat) (a : Z) (rec : list Z) (first : bool) : list Z :=
  match fuel with
  | O => []
  | S fuel =>
      let part := take (Z.to_nat (part_len a rec)) rec in
      let rest := drop (Z.to_nat (part_len a rec)) rec in
      fragment (frag_type first (zlen part =? zlen rec)) part ++
      (if (0 <? length rest)%nat then rec_frags fuel 0 rest false else [])
  end.

Definition rec_bytes (a : Z) (rec : list Z) : list Z := rec_frags (S (S (length rec))) a rec true.

(** From position [t] on, the bytes are those of the records: fragments, and zeros
    up to the end of a page. *)
Inductive holds : Z -> list Z -> list (list Z) -> Prop :=
| holds_nil t : holds t [] []
| holds_zeros t n bs recs :
    (0 < n)%nat -> Z.of_nat n < pageSize -> (t + Z.of_nat n) mod pageSize = 0 -> holds (t + Z.of_nat n) bs recs ->
    holds t (zeros n ++ bs) recs
| holds_rec t rec bs recs :
    t mod pageSize <= pageSize - recordHeaderSize -> Forall is_byte rec ->
    holds (t + zlen (rec_bytes (t mod pageSize) rec)) bs recs ->
    holds t (rec_bytes (t mod pageSize) rec ++ bs) (rec :: recs).

Lemma holds_app t bs recs bs' recs' :
  holds t bs recs -> holds (t + zlen bs) bs' recs' -> holds t (bs ++ bs') (recs ++ recs').
Proof.
  intros Hh. revert bs' recs'. induction Hh as [t|t n bs recs Hn Hn2 Hm _ IH|t rec bs recs Ht Hb _ IH]; intros bs' recs' Hh'.
  - unfold zlen in Hh'. cbn in Hh'. by rewrite Z.add_0_r in Hh'.
  - rewrite <- (assoc_L (++)). apply holds_zeros; [done..|]. apply IH.
    rewrite zlen_app, Z.add_assoc in Hh'. unfold zeros at 1, zlen at 1 in Hh'. by rewrite length_replicate in Hh'.
  - rewrite <- (assoc_L (++)). cbn [app]. apply holds_rec; [done..|]. apply IH. by rewrite zlen_app, Z.add_assoc in Hh'.
Qed.

Lemma mod_eq_add t t' k : t mod pageSize = t' mod pageSize -> (t + k) mod pageSize = (t' + k) mod pageSize.
Proof. intros E. rewrite (Z.add_mod t), (Z.add_mod t'), E by page_lia. done. Qed.

(** Only the position in the page matters. *)
Lemma holds_shift t t' bs recs : holds t bs recs -> t mod pageSize = t' mod pageSize -> holds t' bs recs.
Proof.
  intros Hh. revert t'. induction Hh as [t|t n bs recs Hn Hn2 Hm _ IH|t rec bs recs Ht Hb _ IH]; intros t' E.
  - constructor.
  - apply holds_zeros; [done|done| |apply IH; by apply mod_eq_add]. by rewrite <- (mod_eq_add t t').
  - rewrite E. rewrite E in Ht, IH. apply holds_rec; [done..|]. apply IH. by apply mod_eq_add.
Qed.

Lemma part_len_bounds a rec :
  0 <= a <= pageSize - recordHeaderSize -> 0 <= part_len a rec <= zlen rec /\ part_len a rec <= pageSize - a - recordHeaderSize.
Proof. intros Ha. unfold part_len. pose proof (zlen_nonneg rec). lia. Qed.

Lemma zlen_fragment typ part : zlen (fragment typ part) = recordHeaderSize + zlen part.
Proof.
  unfold fragment, zlen, PutUint16, PutUint32, recordHeaderSize. rewrite !length_app, !length_be_bytes. cbn [length]. lia.
Qed.

Lemma length_fragment typ part : length (fragment typ part) = (7 + length part)%nat.
Proof. pose proof (zlen_fragment typ part) as E. unfold zlen, recordHeaderSize in E. lia. Qed.

(** The rounds it takes to write [rec]. *)
Definition enough (fuel : nat) (a : Z) (rec : list Z) : Prop :=
  (length rec + (if decide (a = 0%Z) then 0 else 1) < fuel)%nat.

Lemma enough_rest fuel a rec :
  enough (S fuel) a rec -> 0 <= a <= pageSize - recordHeaderSize ->
  let rest := drop (Z.to_nat (part_len a rec)) rec in (0 < length rest)%nat -> enough fuel 0 rest.
Proof.
  intros He Ha rest Hr. unfold enough in *. rewrite decide_True by done. subst rest. rewrite length_drop in *.
  unfold part_len, zlen in *. case_decide; page_lia.
Qed.

Lemma enough_start a rec : enough (S (S (length rec))) a rec.
Proof. unfold enough. case_decide; lia. Qed.

Lemma length_rec_frags fuel a rec first :
  0 <= a <= pageSize - recordHeaderSize -> enough fuel a rec -> (length rec < length (rec_frags fuel a rec first))%nat.
Proof.
  revert a rec first. induction fuel as [|fuel IH]; intros a rec first Ha He; [unfold enough in He; lia|].
  cbn [rec_frags]. rewrite length_app, length_fragment. set (part := take _ rec). set (rest := drop _ rec).
  assert (Hl : (length rec = length part + length rest)%nat) by (unfold part, rest; rewrite length_take, length_drop; lia).
  destruct (Nat.ltb_spec 0 (length rest)) as [Hr|Hr]; [|cbn; lia].
  pose proof (IH 0 rest false ltac:(page_lia) (enough_rest _ _ _ He Ha Hr)). lia.
Qed.

Lemma holds_length t bs recs : 0 <= t -> holds t bs recs -> (length recs <= length bs)%nat.
Proof.
  intros Ht. induction 1 as [t|t n bs recs Hn Hn2 Hm _ IH|t rec bs recs Hl Hb _ IH]; cbn [length]; rewrite ?length_app; [done| |].
  - specialize (IH ltac:(lia)). lia.
  - pose proof (length_rec_frags (S (S (length rec))) (t mod pageSize) rec true
      ltac:(pose proof (Z.mod_pos_bound t pageSize ltac:(page_lia)); lia) (enough_start _ _)).
    specialize (IH ltac:(pose proof (zlen_nonneg (rec_bytes (t mod pageSize) rec)); lia)). unfold rec_bytes. lia.
Qed.

(** * Reading *)

(** A reader whose bytes are a list. *)
Class IoContent (R : Type) `{IoReader R} := {
  rd_content : R -> list Z;
  rd_Fill_spec r n : fst (rd_Fill r n) = take n (rd_content r) /\ rd_content (snd (rd_Fill r n)) = drop n (rd_content r);
  rd_size_spec r : rd_size r = length (rd_content r);
}.

#[export, program] Instance bytes_content : IoContent (list Z) := {| rd_content b := b |}.
Solve All Obligations with done.

Definition sb_content (r : segmentBufReader) : list Z := sb_left r ++ mjoin (snd <$> sb_segs r).

Lemma sb_fill_spec segs cur off left n :
  fst (sb_fill segs cur off left n) = take n (left ++ mjoin (snd <$> segs)) /\
  sb_content (snd (sb_fill segs cur off left n)) = drop n (left ++ mjoin (snd <$> segs)).
Proof.
  revert cur off left n. induction segs as [|[i c] segs IH]; intros cur off left n; cbn [sb_fill];
    destruct (Nat.leb_spec n (length left)) as [Hn|Hn]; cbn [fst snd].
  1, 3: unfold sb_content; cbn [sb_left sb_segs]; by rewrite take_app_le, drop_app_le.
  - change (mjoin _) with (@nil Z). unfold sb_content; cbn [sb_left sb_segs fmap list_fmap].
    rewrite !app_nil_r. by rewrite take_ge, drop_ge by lia.
  - specialize (IH i 0 c (n - length left)%nat). destruct (sb_fill segs i 0 c (n - length left)) as [b r]. cbn [fst snd] in *.
    destruct IH as [Eb Er]. rewrite fmap_cons, join_cons. cbn [snd]. by rewrite take_app_ge, drop_app_ge, Eb by lia.
Qed.

#[export, program] Instance segment_content : IoContent segmentBufReader := {| rd_content := sb_content |}.
Next Obligation. intros r n. cbn [rd_Fill segment_reader]. destruct n; [by split; [|rewrite drop_0]|]. apply sb_fill_spec. Qed.
Next Obligation. intros r. cbn. unfold sb_content. by rewrite length_app. Qed.

Section Reading.
Context {R : Type} `{HC : IoContent R}.

(** The reader has [bs] to read and has counted [t] bytes. *)
Definition reads (r : Reader R) (t : Z) (bs : list Z) : Prop :=
  r_total r = t /\ rd_content (r_rdr r) = bs /\ r_err r = None.

Lemma ReadFull_app r t b bs rec :
  reads r t (b ++ bs) -> r_rec r = rec ->
  exists r', ReadFull r (zlen b) = (b, r', None) /\ reads r' (t + zlen b) bs /\ r_rec r' = rec.
Proof.
  intros (Ht & Hc & He) Hr. unfold ReadFull.
  destruct (rd_Fill_spec (r_rdr r) (Z.to_nat (zlen b))) as [E1 E2].
  destruct (rd_Fill _ _) as [b' rdr]; cbn [fst snd] in *. rewrite Hc in E1, E2.
  unfold zlen in *. rewrite Nat2Z.id in *. rewrite take_app_length in E1. rewrite drop_app_length in E2. subst b'.
  rewrite Nat.ltb_irrefl. eexists. split; [done|]. unfold reads; cbn. by subst.
Qed.

Lemma ReadFull_end r t n :
  reads r t [] -> 0 < n ->
  exists r', ReadFull r n = ([], r', Some EOF) /\ reads r' t [].
Proof.
  intros (Ht & Hc & He) Hn. unfold ReadFull. destruct (rd_Fill_spec (r_rdr r) (Z.to_nat n)) as [E1 E2].
  destruct (rd_Fill _ _) as [b' rdr]; cbn [fst snd] in *. rewrite Hc in E1, E2.
  rewrite take_nil in E1. rewrite drop_nil in E2. subst b'.
  rewrite (proj2 (Nat.ltb_lt _ _)) by (cbn; lia). eexists. split; [done|]. by unfold reads.
Qed.

Lemma forallb_zeros n : forallb (Z.eqb 0) (zeros n) = true.
Proof. by induction n. Qed.

Lemma next_loop_zeros f r t n bs rec i :
  reads r t (zeros n ++ bs) -> r_rec r = rec ->
  (0 < n)%nat -> Z.of_nat n <= pageSize -> (t + Z.of_nat n) mod pageSize = 0 ->
  exists r', next_loop (S f) r i = next_loop f r' i /\ reads r' (t + Z.of_nat n) bs /\ r_rec r' = rec.
Proof.
  intros Hr Hrec Hn Hn2 Hm. destruct n as [|n]; [lia|]. change (zeros (S n) ++ bs) with ([0] ++ zeros n ++ bs) in Hr.
  destruct (ReadFull_app _ _ _ _ _ Hr Hrec) as (r1 & E1 & Hr1 & Hrec1). cbn [next_loop].
  change (zlen [0]) with 1 in *. rewrite E1. cbn [nth Z.eqb recPageTerm]. unfold gobble. rewrite (proj1 Hr1).
  assert (Hk : (t + 1) mod pageSize = (pageSize - Z.of_nat n) mod pageSize).
  { pose proof (Z.div_mod (t + Z.of_nat (S n)) pageSize ltac:(page_lia)) as E. rewrite Hm in E.
    replace (t + 1) with (pageSize - Z.of_nat n + ((t + Z.of_nat (S n)) / pageSize - 1) * pageSize) by lia.
    apply Z.mod_add. page_lia. }
  rewrite Hk. destruct n as [|n].
  - replace ((pageSize - Z.of_nat 0) mod pageSize) with 0 by (rewrite Z.sub_0_r, Z.mod_same; page_lia).
    rewrite (proj2 (Z.eqb_eq _ _)) by lia. eexists. split; [done|].
    cbn [zeros replicate app] in Hr1. by replace (t + Z.of_nat 1) with (t + 1) by lia.
  - rewrite Z.mod_small by page_lia. rewrite (proj2 (Z.eqb_neq _ _)) by page_lia.
    destruct (ReadFull_app _ _ _ _ _ Hr1 Hrec1) as (r2 & E2 & Hr2 & Hrec2).
    replace (zlen (zeros (S n))) with (Z.of_nat (S n)) in * by (unfold zlen, zeros; by rewrite length_replicate).
    replace (pageSize - (pageSize - Z.of_nat (S n))) with (Z.of_nat (S n)) by lia.
    rewrite E2, forallb_zeros. eexists. split; [done|]. by replace (t + Z.of_nat (S (S n))) with (t + 1 + Z.of_nat (S n)) by lia.
Qed.

Lemma read_fragment_ok r t part bs rec :
  reads r t (PutUint16 (u16 (zlen part)) ++ PutUint32 (crc32 part) ++ part ++ bs) -> r_rec r = rec ->
  zlen part <= pageSize - recordHeaderSize -> Forall is_byte part ->
  exists r', read_fragment r = (r', None) /\ reads r' (t + 6 + zlen part) bs /\ r_rec r' = rec ++ part.
Proof.
  intros Hr Hrec Hl Hb. rewrite (assoc_L (++)) in Hr.
  assert (Hh : zlen (PutUint16 (u16 (zlen part)) ++ PutUint32 (crc32 part)) = 6)
    by (unfold zlen, PutUint16, PutUint32; by rewrite length_app, !length_be_bytes).
  destruct (ReadFull_app _ _ _ _ _ Hr Hrec) as (r1 & E1 & Hr1 & Hrec1). rewrite Hh in *.
  unfold read_fragment. change (recordHeaderSize - 1) with 6. rewrite E1.
  rewrite take_app_length', drop_app_length' by (unfold PutUint16; by rewrite length_be_bytes).
  assert (Hlen : be_val (PutUint16 (u16 (zlen part))) = zlen part).
  { unfold PutUint16. rewrite be_val_be_bytes. change (8 * Z.of_nat 2) with 16. unfold u16, wrapU.
    rewrite Z.mod_mod by done. apply Z.mod_small. unfold zlen in *. page_lia. }
  assert (Hcrc : be_val (PutUint32 (crc32 part)) = crc32 part)
    by (unfold PutUint32; rewrite be_val_be_bytes; apply Z.mod_small; by apply crc32_range).
  rewrite Hlen, Hcrc, (proj2 (Z.ltb_ge _ _)) by lia.
  destruct (ReadFull_app _ _ _ _ _ Hr1 Hrec1) as (r2 & E2 & Hr2 & Hrec2). rewrite E2, Z.eqb_refl. cbn [negb].
  eexists. split; [done|]. split; [exact Hr2|]. unfold add_rec; cbn [r_rec]. by rewrite Hrec2.
Qed.

Lemma next_loop_fragment f r t typ part bs rec i :
  reads r t (fragment typ part ++ bs) -> r_rec r = rec -> 1 <= typ <= 4 ->
  zlen part <= pageSize - recordHeaderSize -> Forall is_byte part ->
  exists r', next_loop (S f) r i =
      match fragment_type typ i with
      | Ok true => (r', None) | Ok false => next_loop f r' (S i)
      | Err e => (r', Some e) | Panic => (r', Some out_of_fuel)
      end /\ reads r' (t + zlen (fragment typ part)) bs /\ r_rec r' = rec ++ part.
Proof.
  intros Hr Hrec Ht Hl Hb. unfold fragment in Hr. rewrite <- (assoc_L (++)) in Hr.
  destruct (ReadFull_app _ _ _ _ _ Hr Hrec) as (r1 & E1 & Hr1 & Hrec1). cbn [next_loop].
  change (zlen [u8 typ]) with 1 in *. rewrite E1. cbn [nth]. rewrite u8_small by (unfold is_u; lia).
  rewrite (proj2 (Z.eqb_neq typ recPageTerm)) by (unfold recPageTerm; lia).
  rewrite <- !(assoc_L (++)) in Hr1.
  destruct (read_fragment_ok _ _ _ _ _ Hr1 Hrec1 Hl Hb) as (r2 & E2 & Hr2 & Hrec2). rewrite E2.
  eexists. split; [done|]. split; [|done].
  replace (t + zlen (fragment typ part)) with (t + 1 + 6 + zlen part); [done|].
  unfold fragment, zlen, PutUint16, PutUint32. rewrite !length_app, !length_be_bytes. cbn. lia.
Qed.

Lemma next_loop_rec fuel r f t a rec bs acc first i :
  reads r t (rec_frags fuel a rec first ++ bs) -> r_rec r = acc -> first = (i =? 0)%nat ->
  0 <= a <= pageSize - recordHeaderSize -> enough fuel a rec -> (fuel <= f)%nat -> Forall is_byte rec ->
  exists r', next_loop f r i = (r', None) /\ reads r' (t + zlen (rec_frags fuel a rec first)) bs /\ r_rec r' = acc ++ rec.
Proof.
  revert r f t a rec acc first i. induction fuel as [|fuel IH]; intros r f t a rec acc first i Hr Hrec Hi Ha He Hf Hb;
    [unfold enough in He; lia|].
  destruct f as [|f]; [lia|]. cbn [rec_frags] in *. pose proof (part_len_bounds a rec Ha) as Hp.
  set (part := take _ rec) in *. set (rest := drop _ rec) in *.
  assert (Hpart : zlen part = part_len a rec) by (apply zlen_take; lia).
  assert (Hrest : zlen rest = zlen rec - part_len a rec) by (apply zlen_drop; lia).
  rewrite <- (assoc_L (++)) in Hr.
  destruct (next_loop_fragment f _ _ _ _ _ _ i Hr Hrec) as (r1 & E1 & Hr1 & Hrec1);
    [by destruct first, (zlen part =? zlen rec)|page_lia|by apply Forall_take|].
  rewrite E1, zlen_app. destruct (Nat.ltb_spec 0 (length rest)) as [Hl|Hl].
  - assert (Hne : (zlen part =? zlen rec) = false) by (apply Z.eqb_neq; unfold zlen in *; lia).
    rewrite Hne. assert (Hty : fragment_type (frag_type first false) i = Ok false)
      by (subst first; unfold frag_type, fragment_type; by destruct i). rewrite Hty.
    destruct (IH r1 f _ 0 rest (acc ++ part) false (S i) Hr1 Hrec1) as (r2 & E2 & Hr2 & Hrec2);
      [done|page_lia|by apply (enough_rest fuel a rec)|lia|by apply Forall_drop|].
    exists r2. split; [done|]. rewrite Hne in Hr2. split; [by rewrite Z.add_assoc|].
    rewrite Hrec2, <- (assoc_L (++)). unfold part, rest. by rewrite take_drop.
  - assert (Heq : (zlen part =? zlen rec) = true) by (apply Z.eqb_eq; unfold zlen in *; lia).
    rewrite Heq in *. assert (Hty : fragment_type (frag_type first true) i = Ok true)
      by (subst first; unfold frag_type, fragment_type; by destruct i). rewrite Hty.
    exists r1. split; [done|]. cbn [app] in Hr1. split; [by change (zlen []) with 0; rewrite Z.add_0_r|].
    rewrite Hrec1. f_equal. unfold part. apply take_ge. unfold zlen in *. lia.
Qed.

Lemma next_loop_holds f r t bs recs :
  0 <= t -> holds t bs recs -> reads r t bs -> r_rec r = [] -> (length bs < f)%nat ->
  match recs with
  | [] => exists r' t', next_loop f r 0 = (r', Some EOF) /\ reads r' t' []
  | rec :: recs =>
      exists r' t' bs', next_loop f r 0 = (r', None) /\ r_rec r' = rec /\ 0 <= t' /\ reads r' t' bs' /\ holds t' bs' recs
  end.
Proof.
  intros Ht Hh. revert f r Ht. induction Hh as [t|t n bs recs Hn Hn2 Hm _ IH|t rec bs recs Hl Hb Hh _];
    intros f r Ht Hr Hrec Hf; (destruct f as [|f]; [lia|]).
  - destruct (ReadFull_end r t 1 Hr ltac:(done)) as (r1 & E1 & Hr1). cbn [next_loop]. rewrite E1. eauto.
  - destruct (next_loop_zeros f r t n bs [] 0 Hr Hrec Hn ltac:(lia) Hm) as (r1 & -> & Hr1 & Hrec1).
    apply IH; [lia|done..|]. rewrite length_app in Hf. unfold zeros in Hf. rewrite length_replicate in Hf. lia.
  - pose proof (Z.mod_pos_bound t pageSize ltac:(page_lia)) as Ha.
    pose proof (length_rec_frags (S (S (length rec))) (t mod pageSize) rec true ltac:(lia) (enough_start _ _)) as Hlen.
    rewrite length_app in Hf. unfold rec_bytes in *.
    destruct (next_loop_rec _ r (S f) _ _ _ _ [] true 0 Hr Hrec eq_refl ltac:(lia) (enough_start _ _)) as (r1 & E1 & Hr1 & Hrec1);
      [lia|done|].
    eexists r1, _, bs. split; [exact E1|]. split; [exact Hrec1|]. split; [|split; [exact Hr1|exact Hh]].
    pose proof (zlen_nonneg (rec_frags (S (S (length rec))) (t mod pageSize) rec true)). lia.
Qed.

Lemma read_records_holds fuel r t bs recs :
  0 <= t -> holds t bs recs -> reads r t bs -> (length recs < fuel)%nat ->
  exists r' t', read_records fuel r = (recs, r') /\ reads r' t' [].
Proof.
  revert r t bs recs. induction fuel as [|fuel IH]; intros r t bs recs Ht Hh Hr Hf; [lia|].
  cbn [read_records]. unfold Next, next.
  pose proof (next_loop_holds (S (rd_size (r_rdr r))) (mkReader (r_rdr r) (r_err r) [] (r_total r)) t bs recs Ht Hh Hr eq_refl) as Hn.
  rewrite rd_size_spec, (proj1 (proj2 Hr)) in *. specialize (Hn ltac:(lia)). destruct recs as [|rec recs].
  - destruct Hn as (r1 & t1 & -> & Hr1). eauto.
  - destruct Hn as (r1 & t1 & bs1 & -> & Hrec1 & Ht1 & Hr1 & Hh1).
    destruct (IH (mkReader (r_rdr r1) None (r_rec r1) (r_total r1)) t1 bs1 recs Ht1 Hh1) as (r2 & t2 & -> & Hr2);
      [by split; [|split; [apply Hr1|]]; [apply Hr1|]|cbn in Hf; lia|].
    exists r2, t2. cbn [r_rec]. by rewrite Hrec1.
Qed.

(** Everything a stream holds is read back, with no error. *)
Lemma read_all_holds (rdr : R) recs :
  holds 0 (rd_content rdr) recs -> exists r, read_all_records rdr = (recs, r) /\ r_Err r = None.
Proof.
  intros Hh. unfold read_all_records.
  destruct (read_records_holds (S (rd_size rdr)) (NewReader rdr) 0 (rd_content rdr) recs) as (r & t & -> & Hr);
    [done|done|by split|rewrite rd_size_spec; apply holds_length in Hh; lia|].
  exists r. split; [done|]. unfold r_Err. by rewrite (proj2 (proj2 Hr)).
Qed.
End Reading.
