(* ===== verification/WalLog.v ===== *)
(** The writer of the write-ahead log: every way of logging records and reopening the
    log leaves segments that hold exactly the records, none across two segments. *)
From S2P Require Import Prelude Bits Varint Crc32 Order Files Tombstones Head Wal WalSpec.
#[local] Open Scope list_scope.
#[local] Open Scope Z_scope.
#[local] Opaque pageSize.

(** * Directories with consecutive segments *)

Lemma numbered_sequential {A} i (cs : list A) prev :
  (match prev with Some l => i = l + 1 | None => True end) -> sequential prev (fst <$> numbered i cs) = true.
Proof.
  revert i prev. induction cs as [|c cs IH]; intros i prev Hp; [done|]. cbn. rewrite IH by done.
  destruct prev; [|done]. by rewrite (proj2 (Z.leb_le _ _)) by lia.
Qed.

Lemma listSegments_seg_dir i cs : listSegments (seg_dir i cs) = Ok (numbered i cs).
Proof.
  unfold listSegments, seg_dir. rewrite (sort_by_unique fst Z.compare _ (numbered i cs)).
  - by rewrite numbered_sequential.
  - apply numbered_increasing.
  - apply map_to_list_to_map. apply (increasing_NoDup fst Z.compare), numbered_increasing.
Qed.

Lemma seg_Write_last i cs c b :
  seg_Write (seg_dir i (cs ++ [c])) (i + zlen cs) b = seg_dir i (cs ++ [c ++ b]).
Proof.
  apply map_eq. intros k. unfold seg_Write. destruct (decide (k = i + zlen cs)) as [->|Hk].
  - rewrite lookup_alter_eq, !seg_dir_lookup. unfold zlen. rewrite !decide_True by lia.
    replace (Z.to_nat (i + Z.of_nat (length cs) - i)) with (length cs) by lia.
    by rewrite (list_lookup_middle cs []), (list_lookup_middle cs [] (c ++ b)).
  - rewrite lookup_alter_ne, !seg_dir_lookup by done. case_decide; [|done].
    unfold zlen in Hk. destruct (decide (Z.to_nat (k - i) < length cs)%nat).
    + by rewrite !lookup_app_l.
    + rewrite !lookup_ge_None_2; [done| |]; rewrite length_app; cbn; lia.
Qed.

Lemma CreateSegment_next i cs : CreateSegment (seg_dir i cs) (i + zlen cs) = seg_dir i (cs ++ [[]]).
Proof.
  unfold CreateSegment. rewrite seg_dir_lookup. unfold zlen. rewrite decide_True by lia.
  replace (Z.to_nat (i + Z.of_nat (length cs) - i)) with (length cs) by lia. rewrite lookup_ge_None_2 by done.
  apply map_eq. intros k. destruct (decide (k = i + Z.of_nat (length cs))) as [->|Hk].
  - rewrite lookup_insert_eq, seg_dir_lookup, decide_True by lia.
    replace (Z.to_nat (i + Z.of_nat (length cs) - i)) with (length cs) by lia. by rewrite list_lookup_middle.
  - rewrite lookup_insert_ne, !seg_dir_lookup by done. case_decide; [|done].
    destruct (decide (Z.to_nat (k - i) < length cs)%nat).
    + by rewrite !lookup_app_l.
    + rewrite !lookup_ge_None_2; [done| |]; rewrite ?length_app; cbn; lia.
Qed.

(** * The writer *)

(** The segments from [i] on are [segs] and a last one; [L] is what is in the last one
    and in the page.  Behind [p_alloc], the page is zero. *)
Definition writer (i : Z) (segs : list (list Z)) (L : list Z) (w : wal) : Prop :=
  let p := w_page w in
  exists file pre pend n,
    w_dir w = seg_dir i (segs ++ [file]) /\ w_segment w = i + zlen segs /\ L = file ++ pend /\
    p_buf p = pre ++ pend ++ zeros n /\
    zlen pre = p_flushed p /\ zlen pre + zlen pend = p_alloc p /\ p_alloc p + Z.of_nat n = pageSize /\
    zlen file mod pageSize = p_flushed p mod pageSize.

(** Another header fits into the page. *)
Definition ready (w : wal) : Prop := p_alloc (w_page w) <= pageSize - recordHeaderSize.
Definition synced (w : wal) : Prop := p_flushed (w_page w) = p_alloc (w_page w).

Lemma writer_alloc i segs L w :
  writer i segs L w -> 0 <= p_flushed (w_page w) <= p_alloc (w_page w) /\ p_alloc (w_page w) <= pageSize /\
  zlen L mod pageSize = p_alloc (w_page w) mod pageSize.
Proof.
  intros (file & pre & pend & n & _ & _ & -> & _ & Hf & Ha & Hn & Hm).
  pose proof (zlen_nonneg pre). pose proof (zlen_nonneg pend). split; [lia|]. split; [lia|].
  rewrite zlen_app, <- Ha, <- Hf in *. by apply mod_eq_add.
Qed.

Lemma full_ready w : full (w_page w) = false <-> ready w.
Proof. unfold full, ready. rewrite Z.ltb_ge. lia. Qed.

Lemma take_app3 {A} (a b c : list A) : take (length b) (drop (length a) (a ++ b ++ c)) = b.
Proof. by rewrite drop_app_length, take_app_length. Qed.

Lemma flushPage_keep i segs L w :
  writer i segs L w -> ready w ->
  exists w', flushPage w false = Ok w' /\ writer i segs L w' /\ ready w' /\ synced w'.
Proof.
  intros (file & pre & pend & n & Hd & Hs & -> & Hb & Hf & Ha & Hn & Hm) Hr. unfold flushPage.
  rewrite (proj2 (full_ready w)) by done. cbn [orb]. pose proof (zlen_nonneg pre). pose proof (zlen_nonneg pend).
  rewrite Hb, slice_ok by (rewrite ?zlen_app, ?zlen_zeros; lia). cbn [res_bind].
  assert (E : take (Z.to_nat (p_alloc (w_page w) - p_flushed (w_page w)))
      (drop (Z.to_nat (p_flushed (w_page w))) (pre ++ pend ++ zeros n)) = pend).
  { rewrite <- Ha, <- Hf. replace (zlen pre + zlen pend - zlen pre) with (zlen pend) by lia.
    unfold zlen. by rewrite !Nat2Z.id, take_app3. }
  rewrite E. eexists. split; [done|].
  split; [|by unfold ready, synced in *; cbn [w_page p_alloc p_flushed]; split; lia].
  exists (file ++ pend), (pre ++ pend), [], n. cbn [w_dir w_segment w_page p_buf p_flushed p_alloc].
  rewrite Hd, Hs, seg_Write_last, app_nil_r, !zlen_app, <- (assoc_L (++)). change (zlen []) with 0.
  split; [done|]. split; [done|]. split; [done|]. split; [done|]. split; [lia|]. split; [lia|]. split; [lia|].
  by apply mod_eq_add.
Qed.

Lemma flushPage_clear i segs L w clear :
  writer i segs L w -> clear = true \/ full (w_page w) = true ->
  exists w', flushPage w clear = Ok w' /\
    writer i segs (L ++ zeros (Z.to_nat (pageSize - p_alloc (w_page w)))) w' /\
    p_alloc (w_page w') = 0 /\ p_flushed (w_page w') = 0.
Proof.
  intros (file & pre & pend & n & Hd & Hs & -> & Hb & Hf & Ha & Hn & Hm) Hc. unfold flushPage.
  assert (clear || full (w_page w) = true) as -> by (destruct Hc as [->| ->]; by rewrite ?orb_true_r).
  pose proof (zlen_nonneg pre). pose proof (zlen_nonneg pend). cbn [p_buf p_flushed p_alloc].
  assert (Hl : zlen (p_buf (w_page w)) = pageSize) by (rewrite Hb, !zlen_app, zlen_zeros; lia).
  rewrite slice_ok by (rewrite ?Hl; lia). cbn [res_bind].
  assert (E : take (Z.to_nat (pageSize - p_flushed (w_page w))) (drop (Z.to_nat (p_flushed (w_page w))) (p_buf (w_page w))) =
    pend ++ zeros n).
  { rewrite <- Hf. unfold zlen at 2. rewrite Nat2Z.id, Hb, drop_app_length. apply take_ge.
    assert (zlen (pend ++ zeros n) = pageSize - zlen pre) by (rewrite zlen_app, zlen_zeros; lia). unfold zlen in *. lia. }
  rewrite E. eexists. split; [done|]. split; [|by split].
  exists (file ++ pend ++ zeros n), [], [], (length (p_buf (w_page w))). cbn [w_dir w_segment w_page p_buf p_flushed p_alloc].
  rewrite Hd, Hs, seg_Write_last, app_nil_r. change (zlen []) with 0.
  split; [done|]. split; [done|]. split.
  { replace (Z.to_nat (pageSize - p_alloc (w_page w))) with n by lia. by rewrite <- (assoc_L (++)). }
  split; [done|]. split; [done|]. split; [done|]. split; [unfold zlen in Hl; lia|].
  rewrite (zlen_app file). replace (zlen (pend ++ zeros n)) with (pageSize - p_flushed (w_page w)) by (rewrite zlen_app, zlen_zeros; lia).
  etransitivity; [apply (mod_eq_add _ _ _ Hm)|]. replace (_ + _) with pageSize by lia. by rewrite Z.mod_same by page_lia.
Qed.

Lemma write_fragment_writer i segs L w typ part :
  writer i segs L w -> zlen part <= pageSize - p_alloc (w_page w) - recordHeaderSize ->
  exists p, write_fragment (w_page w) typ part = Ok p /\ writer i segs (L ++ fragment typ part) (with_page w p) /\
    p_alloc p = p_alloc (w_page w) + recordHeaderSize + zlen part.
Proof.
  intros (file & pre & pend & n & Hd & Hs & -> & Hb & Hf & Ha & Hn & Hm) Hl. unfold write_fragment.
  pose proof (zlen_fragment typ part) as Hfr. pose proof (zlen_nonneg part). pose proof (zlen_nonneg pre). pose proof (zlen_nonneg pend).
  assert (zlen (p_buf (w_page w)) = pageSize) as -> by (rewrite Hb, !zlen_app, zlen_zeros; lia).
  rewrite (proj2 (Z.ltb_ge _ _)) by lia. eexists. split; [done|].
  set (f := fragment typ part) in *. split; [|cbn [p_alloc]; lia].
  exists file, pre, (pend ++ f), (n - length f)%nat. cbn [with_page w_dir w_segment w_page p_buf p_flushed p_alloc].
  split; [done|]. split; [done|]. split; [by rewrite <- (assoc_L (++))|]. split.
  - assert (Hal : Z.to_nat (p_alloc (w_page w)) = length (pre ++ pend)).
    { rewrite length_app. unfold zlen in Ha. lia. }
    rewrite Hal, Hb, (assoc_L (++) pre). rewrite take_app_length, <- !(assoc_L (++)). do 3 f_equal.
    rewrite (assoc_L (++)), drop_app_ge by lia. unfold zeros. rewrite drop_replicate. f_equal. lia.
  - rewrite zlen_app, Hfr. unfold zlen in *. split; [done|]. split; [lia|]. split; [lia|done].
Qed.

Lemma frag_type_cases (first whole : bool) :
  (if first && whole then recFull else if whole then recLast else if first then recFirst else recMiddle) = frag_type first whole.
Proof. by destruct first, whole. Qed.

(** After a round of [log]: the page is flushed when it is full, and then there is
    a new one; a flush is forced after the part of a record. *)
Lemma flush_round i segs L w (force : bool) :
  writer i segs L w ->
  exists w' n, (if force || full (w_page w) then flushPage w false else Ok w) = Ok w' /\
    writer i segs (L ++ zeros n) w' /\ ready w' /\ (force = true -> synced w') /\
    (n = 0%nat \/ Z.of_nat n < recordHeaderSize /\ p_alloc (w_page w') = 0) /\
    (p_alloc (w_page w) = pageSize -> n = 0%nat /\ p_alloc (w_page w') = 0).
Proof.
  intros Hw. destruct (full (w_page w)) eqn:Hf.
  - rewrite orb_true_r. destruct (flushPage_clear i segs L w false Hw (or_intror Hf)) as (w' & E & Hw' & Ha & Hfl).
    exists w', (Z.to_nat (pageSize - p_alloc (w_page w))). unfold full in Hf. apply Z.ltb_lt in Hf.
    pose proof (writer_alloc _ _ _ _ Hw) as (? & ? & _). unfold ready, synced. rewrite Ha, Hfl.
    split; [done|]. split; [done|]. split; [page_lia|]. split; [done|]. split; [right; split; [lia|done]|].
    intros ->. split; [lia|done].
  - apply full_ready in Hf. destruct (flushPage_keep i segs L w Hw Hf) as (w' & E & Hw' & Hr' & Hs').
    assert (Hn : p_alloc (w_page w) <> pageSize) by (unfold ready in Hf; page_lia).
    exists (if force then w' else w), 0%nat. rewrite orb_false_r. change (zeros 0) with (@nil Z). rewrite app_nil_r.
    destruct force; (split; [done|]; split; [done|]; split; [done|]; split; [done|]; split; [by left|done]).
Qed.

Lemma log_loop_writer fuel i segs L w rec first final :
  writer i segs L w -> ready w -> enough fuel (p_alloc (w_page w)) rec ->
  exists w' n, log_loop fuel w rec first final = Ok w' /\
    writer i segs (L ++ rec_frags fuel (p_alloc (w_page w)) rec first ++ zeros n) w' /\ ready w' /\
    (final = true -> synced w') /\ (n = 0%nat \/ Z.of_nat n < recordHeaderSize /\ p_alloc (w_page w') = 0).
Proof.
  revert L w rec first. induction fuel as [|fuel IH]; intros L w rec first Hw Hr He; [unfold enough in He; lia|].
  pose proof (writer_alloc _ _ _ _ Hw) as (Ha1 & _ & _). pose proof (part_len_bounds (p_alloc (w_page w)) rec) as Hp.
  unfold ready in Hr. specialize (Hp ltac:(lia)). cbn [log_loop rec_frags].
  change (Z.min (zlen rec) _) with (part_len (p_alloc (w_page w)) rec).
  rewrite slice_ok, Z.sub_0_r by lia. cbn [res_bind]. change (drop (Z.to_nat 0) rec) with rec.
  pose proof (enough_rest fuel _ _ He ltac:(lia)) as Her.
  set (part := take _ rec) in *. set (rest := drop _ rec) in *. set (a := p_alloc (w_page w)) in *.
  assert (Hpart : zlen part = part_len a rec) by (apply zlen_take; lia).
  assert (Hrest : zlen rest = zlen rec - part_len a rec) by (apply zlen_drop; lia).
  rewrite frag_type_cases. set (typ := frag_type _ _).
  destruct (write_fragment_writer i segs L w typ part Hw) as (p & -> & Hw1 & Ha2); [fold a; lia|]. cbn [res_bind].
  destruct (flush_round i segs _ _ (final || negb (typ =? recFull)) Hw1) as (w2 & n & E & Hw2 & Hr2 & Hs2 & Hn & Hfull).
  cbn [with_page w_page] in *. change (w_page (with_page w p)) with p in *. rewrite E. cbn [res_bind].
  destruct (Nat.ltb_spec 0 (length rest)) as [Hl|Hl].
  - assert (Hpl : p_alloc p = pageSize) by (unfold part_len, zlen in *; lia). apply Hfull in Hpl as [-> Ha0].
    change (zeros 0) with (@nil Z) in Hw2. rewrite app_nil_r in Hw2.
    destruct (IH _ w2 rest false Hw2 Hr2) as (w3 & n3 & -> & Hw3 & Hr3 & Hs3 & Hn3); [rewrite Ha0; by apply Her|].
    exists w3, n3. rewrite Ha0, <- (assoc_L (++) L) in Hw3. rewrite <- !(assoc_L (++)). by split.
  - exists w2, n. rewrite app_nil_r. split; [done|]. split; [by rewrite (assoc_L (++))|]. split; [done|].
    split; [intros ->; by apply Hs2|done].
Qed.

Lemma nextSegment_writer i segs L w :
  writer i segs L w -> ready w ->
  exists w' n, nextSegment w = Ok w' /\ writer i (segs ++ [L ++ zeros n]) [] w' /\ ready w' /\
    zlen (L ++ zeros n) mod pageSize = 0 /\ Z.of_nat n < pageSize.
Proof.
  intros Hw Hr. unfold nextSegment.
  assert (Hflush : exists w1 n, (if 0 <? p_alloc (w_page w) then flushPage w true else Ok w) = Ok w1 /\
    writer i segs (L ++ zeros n) w1 /\ p_alloc (w_page w1) = 0 /\ p_flushed (w_page w1) = 0 /\ Z.of_nat n < pageSize).
  { pose proof (writer_alloc _ _ _ _ Hw) as (Ha1 & Ha2 & _). destruct (Z.ltb_spec 0 (p_alloc (w_page w))) as [Ha|Ha].
    - destruct (flushPage_clear i segs L w true Hw (or_introl eq_refl)) as (w' & E & Hw' & Hal & Hfl). 
      exists w', (Z.to_nat (pageSize - p_alloc (w_page w))). do 4 (split; [done|]). lia.
    - exists w, 0%nat. change (zeros 0) with (@nil Z). rewrite app_nil_r. split; [done|]. split; [done|]. page_lia. }
  destruct Hflush as (w1 & n & -> & Hw1 & Ha & Hf & Hn). cbn [res_bind]. eexists _, n. split; [done|].
  pose proof (writer_alloc _ _ _ _ Hw1) as (_ & _ & Hm). rewrite Ha in Hm.
  destruct Hw1 as (file & pre & pend & k & Hd & Hs & HL & Hb & Hf1 & Ha1 & Hn1 & Hm1).
  pose proof (zlen_nonneg pre). pose proof (zlen_nonneg pend).
  assert (pend = []) as -> by (apply length_zero_iff_nil; unfold zlen in *; lia). rewrite app_nil_r in HL. subst file.
  split; [|split; [unfold ready; cbn [w_page]; page_lia|split; [by rewrite Hm, Z.mod_0_l by page_lia|done]]].
  exists [], pre, [], k. cbn [w_dir w_segment w_page]. rewrite Hd, Hs. split.
  { rewrite zlen_app in *. rewrite <- CreateSegment_next, zlen_app. f_equal. change (zlen [L ++ zeros n]) with 1. lia. }
  split; [rewrite zlen_app; change (zlen [L ++ zeros n]) with 1; lia|].
  split; [done|]. split; [done|]. split; [done|]. split; [done|]. split; [done|]. by rewrite Hf.
Qed.

(** * Records *)

(** The segments from [i] on hold [rss], the last one with the page holds [cur]. *)
Definition logged (i : Z) (w : wal) (rss : list (list (list Z))) (cur : list (list Z)) : Prop :=
  exists segs L, writer i segs L w /\ ready w /\ holds 0 L cur /\
    Forall2 (fun c rs => zlen c mod pageSize = 0 /\ holds 0 c rs) segs rss.

Lemma holds_snoc_zeros t bs recs n :
  holds t bs recs -> Z.of_nat n < pageSize -> n = 0%nat \/ (t + zlen bs + Z.of_nat n) mod pageSize = 0 ->
  holds t (bs ++ zeros n) recs.
Proof.
  intros Hh Hn Hz. rewrite <- (app_nil_r recs). apply holds_app; [done|]. destruct n as [|n]; [constructor|].
  rewrite <- (app_nil_r (zeros (S n))). apply holds_zeros; [lia|done|by destruct Hz|constructor].
Qed.

Lemma log_loop_logged i segs L w rec final cur :
  writer i segs L w -> ready w -> holds 0 L cur -> Forall is_byte rec ->
  exists w' L', log_loop (S (S (length rec))) w rec true final = Ok w' /\
    writer i segs L' w' /\ ready w' /\ holds 0 L' (cur ++ [rec]) /\ (final = true -> synced w').
Proof.
  intros Hw Hr Hh Hb.
  destruct (log_loop_writer (S (S (length rec))) i segs L w rec true final Hw Hr (enough_start _ _)) as (w' & n & E & Hw' & Hr' & Hs' & Hn).
  eexists w', _. split; [done|]. split; [done|]. split; [done|]. split; [|done].
  pose proof (writer_alloc _ _ _ _ Hw) as (Ha & _ & Hm). pose proof (writer_alloc _ _ _ _ Hw') as (_ & _ & Hm').
  unfold ready in Hr. rewrite (Z.mod_small (p_alloc _)) in Hm by page_lia.
  apply holds_app; [done|]. fold (rec_bytes (p_alloc (w_page w)) rec) in *. apply holds_snoc_zeros.
  - rewrite <- (app_nil_r (rec_bytes _ rec)), Z.add_0_l, <- Hm. apply holds_rec; [rewrite Hm; lia|done|constructor].
  - destruct Hn as [->|[Hn _]]; page_lia.
  - destruct Hn as [->|[Hn Ha0]]; [by left|right]. rewrite Ha0, !zlen_app, zlen_zeros, Z.mod_0_l in Hm' by page_lia.
    by rewrite Z.add_0_l, <- Z.add_assoc.
Qed.

Lemma w_log_logged i w rss cur rec final :
  logged i w rss cur -> Forall is_byte rec ->
  exists w', w_log w rec final = Ok w' /\ (final = true -> synced w') /\
    (logged i w' rss (cur ++ [rec]) \/ logged i w' (rss ++ [cur]) [rec]).
Proof.
  intros (segs & L & Hw & Hr & Hh & Hall) Hb. unfold w_log. destruct (_ <? zlen rec).
  - destruct (nextSegment_writer _ _ _ _ Hw Hr) as (w1 & n & -> & Hw1 & Hr1 & Hm & Hn). cbn [res_bind].
    destruct (log_loop_logged i _ [] w1 rec final [] Hw1 Hr1 (holds_nil _) Hb) as (w2 & L2 & -> & Hw2 & Hr2 & Hh2 & Hs2).
    exists w2. split; [done|]. split; [done|]. right. exists (segs ++ [L ++ zeros n]), L2.
    split; [done|]. split; [done|]. split; [done|]. apply Forall2_app; [done|]. constructor; [|constructor].
    split; [done|]. apply holds_snoc_zeros; [done|done|]. right. by rewrite zlen_app, zlen_zeros in Hm.
  - destruct (log_loop_logged i segs L w rec final cur Hw Hr Hh Hb) as (w2 & L2 & E & Hw2 & Hr2 & Hh2 & Hs2).
    exists w2. split; [done|]. split; [done|]. left. by exists segs, L2.
Qed.

(** What [Log] promises: the records are added behind those there are, in the active
    segment and those after it, and nothing stays in the page unwritten. *)
Definition adds_records (rss : list (list (list Z))) cur recs rss' cur' : Prop :=
  mjoin rss' ++ cur' = mjoin rss ++ cur ++ recs /\ zlen rss <= zlen rss' <= zlen rss + zlen recs.

Lemma mjoin_snoc {A} (ls : list (list A)) l : mjoin (ls ++ [l]) = mjoin ls ++ l.
Proof. rewrite join_app. cbn. by rewrite app_nil_r. Qed.

Lemma Log_logged i w rss cur recs :
  logged i w rss cur -> synced w -> Forall (Forall is_byte) recs ->
  exists w' rss' cur', Log w recs = Ok w' /\ logged i w' rss' cur' /\ synced w' /\ adds_records rss cur recs rss' cur'.
Proof.
  intros Hl Hs Hb.
  assert (Hgen : exists w' rss' cur', Log w recs = Ok w' /\ logged i w' rss' cur' /\ (recs <> [] \/ synced w -> synced w') /\
    adds_records rss cur recs rss' cur').
  { clear Hs. revert w rss cur Hl. induction Hb as [|rec recs Hrec Hb IH]; intros w rss cur Hl.
    - exists w, rss, cur. unfold adds_records. rewrite app_nil_r. change (zlen []) with 0. naive_solver lia.
    - cbn [Log]. destruct (w_log_logged i w rss cur rec (match recs with [] => true | _ => false end) Hl Hrec)
        as (w1 & -> & Hs1 & Hl1). cbn [res_bind].
      assert (Hext : exists rss1 cur1, logged i w1 rss1 cur1 /\ adds_records rss cur [rec] rss1 cur1).
      { destruct Hl1 as [Hl1|Hl1]; [exists rss, (cur ++ [rec])|exists (rss ++ [cur]), [rec]]; (split; [done|]); unfold adds_records.
        - change (zlen [rec]) with 1. split; [done|lia].
        - rewrite mjoin_snoc, zlen_app, <- (assoc_L (++)). change (zlen [rec]) with 1. change (zlen [cur]) with 1. split; [done|lia]. }
      destruct Hext as (rss1 & cur1 & Hl1' & Ej & Hle).
      destruct (IH w1 rss1 cur1 Hl1') as (w2 & rss2 & cur2 & E2 & Hl2 & Hs2 & Ej2 & Hle2).
      exists w2, rss2, cur2. split; [done|]. split; [done|]. split.
      + intros _. apply Hs2. destruct recs; [right; by apply Hs1|by left].
      + unfold adds_records. change (rec :: recs) with ([rec] ++ recs) at 1. change (zlen [rec]) with 1 in Hle.
        rewrite Ej2, (assoc_L (++)), Ej, <- !(assoc_L (++)). split; [done|].
        replace (zlen (rec :: recs)) with (1 + zlen recs) by (unfold zlen; cbn; lia). lia. }
  destruct Hgen as (w' & rss' & cur' & E & Hl' & Hs' & He). exists w', rss', cur'.
  split; [done|]. split; [done|]. split; [apply Hs'; by right|done].
Qed.

(** ** Opening and closing *)

(** The files of a directory hold [rss] and, in the last one, [cur]. *)
Definition dir_holds (i : Z) (dir : directory) (rss : list (list (list Z))) (cur : list (list Z)) : Prop :=
  exists segs file, dir = seg_dir i (segs ++ [file]) /\ holds 0 file cur /\
    Forall2 (fun c rs => zlen c mod pageSize = 0 /\ holds 0 c rs) segs rss.

Lemma logged_dir i w rss cur : logged i w rss cur -> synced w -> dir_holds i (w_dir w) rss cur /\ w_segment w = i + zlen rss.
Proof.
  intros (segs & L & (file & pre & pend & n & Hd & Hs & -> & Hb & Hf & Ha & Hn & Hm) & Hr & Hh & Hall) Hsy.
  unfold synced in Hsy. assert (pend = []) as -> by (apply length_zero_iff_nil; unfold zlen in *; lia).
  rewrite app_nil_r in Hh. split; [by exists segs, file|]. rewrite Hs. unfold zlen. by rewrite (Forall2_length _ _ _ Hall).
Qed.

Lemma pad_torn_zeros c : exists n, pad_torn c = c ++ zeros n /\ Z.of_nat n < pageSize /\ zlen (pad_torn c) mod pageSize = 0.
Proof.
  unfold pad_torn. pose proof (Z.mod_pos_bound (zlen c) pageSize ltac:(page_lia)) as Hm.
  destruct (Z.eqb_spec (zlen c mod pageSize) 0) as [E|E]; cbn [negb].
  - exists 0%nat. change (zeros 0) with (@nil Z). rewrite app_nil_r. split; [done|]. page_lia.
  - eexists. split; [done|]. split; [lia|]. fold (zeros (Z.to_nat (pageSize - zlen c mod pageSize))).
    rewrite zlen_app, zlen_zeros, Z2Nat.id by lia. rewrite (Z.div_mod (zlen c) pageSize) at 1 by page_lia.
    replace (_ + _) with ((zlen c / pageSize + 1) * pageSize) by lia. apply Z.mod_mul. page_lia.
Qed.

Lemma Segments_seg_dir i cs c w :
  w_dir w = seg_dir i (cs ++ [c]) -> Segments w = Ok (i, i + zlen cs).
Proof.
  intros E. unfold Segments. rewrite E, listSegments_seg_dir. cbn [res_bind]. rewrite last_numbered.
  destruct cs; cbn; f_equal.
Qed.

Lemma OpenWriteSegment_last i cs c :
  OpenWriteSegment (seg_dir i (cs ++ [c])) (i + zlen cs) = Ok (seg_dir i (cs ++ [pad_torn c])).
Proof.
  unfold OpenWriteSegment. rewrite seg_dir_lookup. unfold zlen. rewrite decide_True by lia.
  replace (Z.to_nat (i + Z.of_nat (length cs) - i)) with (length cs) by lia. rewrite list_lookup_middle by done.
  f_equal. apply map_eq. intros k. destruct (decide (k = i + Z.of_nat (length cs))) as [->|Hk].
  - rewrite lookup_insert_eq, seg_dir_lookup, decide_True by lia.
    replace (Z.to_nat (i + Z.of_nat (length cs) - i)) with (length cs) by lia. by rewrite list_lookup_middle.
  - rewrite lookup_insert_ne, !seg_dir_lookup by done. case_decide; [|done].
    destruct (decide (Z.to_nat (k - i) < length cs)%nat).
    + by rewrite !lookup_app_l.
    + rewrite !lookup_ge_None_2; [done| |]; rewrite ?length_app; cbn; lia.
Qed.

Lemma NewSize_logged i dir rss cur size :
  0 <= i -> Z.rem size pageSize = 0 -> dir_holds i dir rss cur ->
  exists w, NewSize dir size = Ok w /\ logged i w rss cur /\ synced w /\ w_segmentSize w = size.
Proof.
  intros Hi Hz (segs & file & -> & Hh & Hall). unfold NewSize. rewrite Hz. cbn [Z.eqb negb].
  rewrite (Segments_seg_dir i segs file (mkWal size (seg_dir i (segs ++ [file])) (-1) 0 new_page) eq_refl). cbn [res_bind]. pose proof (zlen_nonneg segs).
  rewrite (proj2 (Z.eqb_neq _ _)) by lia. rewrite OpenWriteSegment_last. cbn [res_bind]. eexists. split; [done|].
  split; [|done]. destruct (pad_torn_zeros file) as (n & E & Hn & Hm). exists segs, (pad_torn file).
  split; [|split; [unfold ready; cbn [w_page new_page p_alloc]; page_lia|split; [|done]]].
  - exists (pad_torn file), [], [], (Z.to_nat pageSize). cbn [w_dir w_segment w_page new_page p_buf p_flushed p_alloc].
    split; [done|]. split; [done|]. split; [by rewrite app_nil_r|]. split; [done|]. split; [done|]. split; [done|].
    split; [page_lia|]. by rewrite Hm, Z.mod_0_l by page_lia.
  - rewrite E in *. apply holds_snoc_zeros; [done|done|]. right. by rewrite zlen_app, zlen_zeros in Hm.
Qed.

Lemma NewSize_fresh size :
  Z.rem size pageSize = 0 -> exists w, NewSize ∅ size = Ok w /\ logged 0 w [] [] /\ synced w /\ w_segmentSize w = size.
Proof.
  intros Hz. unfold NewSize. rewrite Hz. cbn [Z.eqb negb].
  assert (Segments (mkWal size ∅ (-1) 0 new_page) = Ok (-1, -1)) as ->.
  { unfold Segments. cbn [w_dir]. change (∅ : directory) with (seg_dir 0 []). by rewrite listSegments_seg_dir. }
  cbn [res_bind Z.eqb]. eexists. split; [done|]. split; [|done]. exists [], [].
  split; [|split; [unfold ready; cbn [w_page new_page p_alloc]; page_lia|split; [constructor|done]]].
  exists [], [], [], (Z.to_nat pageSize). cbn [w_dir w_segment w_page new_page p_buf p_flushed p_alloc].
  split; [exact (CreateSegment_next 0 [])|]. do 5 (split; [done|]). split; [page_lia|done].
Qed.

Lemma Close_logged i w rss cur :
  logged i w rss cur -> synced w -> exists dir, Close w = Ok dir /\ dir_holds i dir rss cur.
Proof.
  intros (segs & L & Hw & Hr & Hh & Hall) Hs. unfold Close.
  pose proof (writer_alloc _ _ _ _ Hw) as (Ha1 & Ha2 & Hm). destruct (Z.ltb_spec 0 (p_alloc (w_page w))) as [Ha|Ha].
  - destruct (flushPage_clear i segs L w true Hw (or_introl eq_refl)) as (w' & -> & Hw' & Hal & Hfl). cbn [res_bind].
    eexists. split; [done|]. apply (logged_dir i w' rss cur); [|unfold synced; by rewrite Hal, Hfl].
    eexists segs, _. split; [done|]. split; [unfold ready; page_lia|]. split; [|done].
    apply holds_snoc_zeros; [done|lia|]. right.
    pose proof (writer_alloc _ _ _ _ Hw') as (_ & _ & Hm'). rewrite Hal, zlen_app, zlen_zeros in Hm'. exact Hm'.
  - eexists. split; [done|]. apply (logged_dir i w rss cur); [by exists segs, L|done].
Qed.

(** ** Reading and truncating *)

Lemma sb_content_numbered i cs : sb_content (newSegmentBufReader (numbered i cs)) = mjoin cs.
Proof.
  unfold sb_content. cbn [newSegmentBufReader sb_left sb_segs app]. f_equal. revert i.
  induction cs as [|c cs IH]; intros i; [done|]. cbn. f_equal. apply IH.
Qed.

Lemma numbered_range {A} i (cs : list A) : Forall (fun kv => i <= fst kv < i + zlen cs) (numbered i cs).
Proof.
  revert i. induction cs as [|c cs IH]; intros i; constructor.
  - cbn [fst]. unfold zlen. cbn. lia.
  - eapply Forall_impl; [apply (IH (i + 1))|]. intros [k x]. unfold zlen; cbn. lia.
Qed.

Lemma holds_join segs rss t :
  t mod pageSize = 0 -> Forall2 (fun c rs => zlen c mod pageSize = 0 /\ holds 0 c rs) segs rss ->
  holds t (mjoin segs) (mjoin rss) /\ (t + zlen (mjoin segs)) mod pageSize = 0.
Proof.
  intros Ht Hall. revert t Ht. induction Hall as [|c rs segs rss [Hm Hh] _ IH]; intros t Ht.
  - split; [constructor|]. change (zlen _) with 0. by rewrite Z.add_0_r.
  - rewrite !join_cons. assert (Ht' : (t + zlen c) mod pageSize = 0).
    { rewrite <- Hm. replace (zlen c) with (0 + zlen c) at 2 by lia. apply mod_eq_add. by rewrite Ht, Z.mod_0_l by page_lia. }
    destruct (IH _ Ht') as [Hj Hm']. split; [|by rewrite zlen_app, Z.add_assoc].
    apply holds_app; [|done]. apply (holds_shift 0); [done|]. by rewrite Ht, Z.mod_0_l by page_lia.
Qed.

(** All that the log in [dir] gives back. *)
Definition reads_back (dir : directory) (recs : list (list Z)) : Prop :=
  exists rd r, NewSegmentsReader dir = Ok rd /\ read_all_records rd = (recs, r) /\ r_Err r = None.

Lemma dir_holds_range i dir rss cur first last :
  first <= i -> (last < 0 \/ i + zlen rss <= last) -> dir_holds i dir rss cur ->
  exists rd r, NewSegmentsRangeReader dir first last = Ok rd /\ read_all_records rd = (mjoin rss ++ cur, r) /\ r_Err r = None.
Proof.
  intros Hi Hmax (segs & file & -> & Hh & Hall). unfold NewSegmentsRangeReader.
  rewrite listSegments_seg_dir. cbn [res_bind]. rewrite filter_all.
  2: { eapply Forall_impl; [apply numbered_range|]. intros [k c]. cbn [fst].
       assert (zlen segs = zlen rss) by (unfold zlen; by rewrite (Forall2_length _ _ _ Hall)).
       rewrite zlen_app. change (zlen [file]) with 1. lia. }
  destruct (read_all_holds (newSegmentBufReader (numbered i (segs ++ [file]))) (mjoin rss ++ cur)) as (r & E & He).
  - cbn [rd_content segment_content]. rewrite sb_content_numbered, mjoin_snoc.
    destruct (holds_join segs rss 0) as [Hj Hm]; [by rewrite Z.mod_0_l by page_lia|done|].
    apply holds_app; [done|]. apply (holds_shift 0); [done|]. by rewrite Hm, Z.mod_0_l by page_lia.
  - by eexists _, r.
Qed.

Lemma dir_holds_reads i dir rss cur :
  0 <= i -> i + zlen rss <= MaxInt32 -> dir_holds i dir rss cur -> reads_back dir (mjoin rss ++ cur).
Proof. intros Hi Hmax Hd. apply (dir_holds_range i); [done|by right|done]. Qed.

Lemma Truncate_logged i j w rss cur :
  logged i w rss cur -> i <= j <= w_segment w ->
  exists w', wal_Truncate w j = Ok w' /\ logged j w' (drop (Z.to_nat (j - i)) rss) cur /\ (synced w -> synced w').
Proof.
  intros (segs & L & (file & pre & pend & n & Hd & Hs & Hp) & Hr & Hh & Hall) Hj.
  unfold wal_Truncate. rewrite Hd, listSegments_seg_dir. cbn [res_bind]. eexists. split; [done|]. split; [|done].
  assert (Hk : (Z.to_nat (j - i) <= length segs)%nat) by (unfold zlen in Hs; lia).
  exists (drop (Z.to_nat (j - i)) segs), L. split; [|split; [done|split; [done|by apply Forall2_drop]]].
  exists file, pre, pend, n. cbn [w_dir w_segment w_page]. split; [|split; [unfold zlen in *; rewrite length_drop; lia|done]].
  apply map_eq. intros k. rewrite map_lookup_filter, !seg_dir_lookup.
  rewrite <- drop_app_le, lookup_drop by done. destruct (decide (i <= k)), (decide (j <= k)); try lia; cbn.
  - replace (Z.to_nat (j - i) + Z.to_nat (k - j))%nat with (Z.to_nat (k - i)) by lia.
    destruct (_ !! _); cbn; [|done]. by case_guard.
  - destruct (_ !! _); cbn; [|done]. case_guard; [lia|done].
  - done.
Qed.

(** ** Records read are bytes *)

Section Bytes.
Context {R : Type} `{HC : IoContent R}.

Definition byte_reader (r : Reader R) : Prop := Forall is_byte (rd_content (r_rdr r)) /\ Forall is_byte (r_rec r).

Lemma ReadFull_bytes r n b r' e : byte_reader r -> ReadFull r n = (b, r', e) -> byte_reader r' /\ Forall is_byte b.
Proof.
  intros [Hc Hr] E. unfold ReadFull in E. destruct (rd_Fill_spec (r_rdr r) (Z.to_nat n)) as [E1 E2].
  destruct (rd_Fill _ _) as [b' rdr]. cbn [fst snd] in *.
  assert (byte_reader (mkReader rdr (r_err r) (r_rec r) (r_total r)) /\ Forall is_byte b') as [[H1 H2] H3].
  { split; [split; [|done]|]; cbn [r_rdr]; [rewrite E2; by apply Forall_drop|rewrite E1; by apply Forall_take]. }
  destruct (_ <? _)%nat; simplify_eq; by split.
Qed.

Lemma read_fragment_bytes r r' e : byte_reader r -> read_fragment r = (r', e) -> byte_reader r'.
Proof.
  intros Hr. unfold read_fragment. destruct (ReadFull r _) as [[h r1] e1] eqn:E1.
  apply ReadFull_bytes in E1 as [H1 _]; [|done]. destruct e1; [by intros [= <- <-]|].
  destruct (_ <? _); [by intros [= <- <-]|]. destruct (ReadFull r1 _) as [[b r2] e2] eqn:E2.
  apply ReadFull_bytes in E2 as [[H2 H2'] Hb]; [|done]. destruct e2; [by intros [= <- <-]|].
  destruct (negb _); intros [= <- <-]; split; try done. cbn. by apply Forall_app.
Qed.

Lemma gobble_bytes r r' e : byte_reader r -> gobble r = (r', e) -> byte_reader r'.
Proof.
  intros Hr. unfold gobble. destruct (_ =? _); [by intros [= <- <-]|]. destruct (ReadFull r _) as [[b r1] e1] eqn:E1.
  apply ReadFull_bytes in E1 as [H1 _]; [|done]. by destruct e1; intros [= <- <-].
Qed.

Lemma next_loop_bytes f r i r' e : byte_reader r -> next_loop f r i = (r', e) -> byte_reader r'.
Proof.
  revert r i. induction f as [|f IH]; intros r i Hr; cbn [next_loop]; [by intros [= <- <-]|].
  destruct (ReadFull r 1) as [[b r1] e1] eqn:E1. apply ReadFull_bytes in E1 as [H1 _]; [|done].
  destruct e1; [by intros [= <- <-]|]. destruct (_ =? recPageTerm).
  - destruct (gobble r1) as [r2 e2] eqn:E2. apply gobble_bytes in E2; [|done].
    destruct e2; [by intros [= <- <-]|]. by apply IH.
  - destruct (read_fragment r1) as [r2 e2] eqn:E2. apply read_fragment_bytes in E2; [|done].
    destruct e2; [by intros [= <- <-]|].
    destruct (fragment_type _ i) as [[|]| |]; [by intros [= <- <-]|by apply IH|by intros [= <- <-]|by intros [= <- <-]].
Qed.

Lemma read_records_bytes fuel r : byte_reader r -> Forall (Forall is_byte) (fst (read_records fuel r)).
Proof.
  revert r. induction fuel as [|fuel IH]; intros r Hr; cbn [read_records]; [constructor|]. unfold Next, next.
  destruct (next_loop _ _ _) as [r1 e] eqn:E.
  apply next_loop_bytes in E as [H1 H2]; [|split; [apply Hr|constructor]].
  destruct e as [[]|]; try constructor. cbn [r_rec].
  specialize (IH (mkReader (r_rdr r1) None (r_rec r1) (r_total r1)) (conj H1 H2)).
  destruct (read_records fuel _) as [recs r2]. by constructor.
Qed.
End Bytes.

(** ** Any history *)

(** What happens to a log: batches of records, clean restarts and crashes between them. *)
Inductive log_op := OLog (recs : list (list Z)) | OClose | OCrash.

Definition run_op (size : Z) (w : wal) (op : log_op) : res wal :=
  match op with
  | OLog recs => Log w recs
  | OClose => let? dir := Close w in NewSize dir size
  | OCrash => NewSize (w_dir w) size
  end.

Fixpoint run_ops (size : Z) (w : wal) (ops : list log_op) : res wal :=
  match ops with [] => Ok w | op :: ops => let? w := run_op size w op in run_ops size w ops end.

Definition run_log (size : Z) (ops : list log_op) : res wal := let? w := NewSize ∅ size in run_ops size w ops.

Definition op_recs (op : log_op) : list (list Z) := match op with OLog recs => recs | _ => [] end.
Definition ops_recs (ops : list log_op) : list (list Z) := mjoin (op_recs <$> ops).

Lemma ops_recs_cons op ops : ops_recs (op :: ops) = op_recs op ++ ops_recs ops.
Proof. done. Qed.

Lemma adds_records_trans rss cur recs rss1 cur1 recs' rss2 cur2 :
  adds_records rss cur recs rss1 cur1 -> adds_records rss1 cur1 recs' rss2 cur2 -> adds_records rss cur (recs ++ recs') rss2 cur2.
Proof.
  unfold adds_records. intros [E1 L1] [E2 L2]. rewrite E2, (assoc_L (++)), E1, <- !(assoc_L (++)), zlen_app. split; [done|lia].
Qed.

Lemma adds_records_refl rss cur : adds_records rss cur [] rss cur.
Proof. unfold adds_records. rewrite app_nil_r. change (zlen []) with 0. split; [done|lia]. Qed.

Lemma run_ops_logged size i ops w rss cur :
  0 <= i -> Z.rem size pageSize = 0 -> logged i w rss cur -> synced w -> Forall (Forall is_byte) (ops_recs ops) ->
  exists w' rss' cur', run_ops size w ops = Ok w' /\ logged i w' rss' cur' /\ synced w' /\ adds_records rss cur (ops_recs ops) rss' cur'.
Proof.
  intros Hi Hz. revert w rss cur. induction ops as [|op ops IH]; intros w rss cur Hl Hs Hb.
  - exists w, rss, cur. do 3 (split; [done|]). apply adds_records_refl.
  - rewrite ops_recs_cons in *. apply Forall_app in Hb as [Hb1 Hb2]. cbn [run_ops].
    assert (Hop : exists w1 rss1 cur1, run_op size w op = Ok w1 /\ logged i w1 rss1 cur1 /\ synced w1 /\ adds_records rss cur (op_recs op) rss1 cur1).
    { destruct op as [recs| |]; cbn [run_op op_recs].
      - by apply Log_logged.
      - destruct (Close_logged i w rss cur Hl Hs) as (dir & -> & Hd). cbn [res_bind].
        destruct (NewSize_logged i dir rss cur size Hi Hz Hd) as (w1 & E & Hl1 & Hs1 & _).
        exists w1, rss, cur. do 3 (split; [done|]). apply adds_records_refl.
      - destruct (logged_dir i w rss cur Hl Hs) as [Hd _].
        destruct (NewSize_logged i _ rss cur size Hi Hz Hd) as (w1 & E & Hl1 & Hs1 & _).
        exists w1, rss, cur. do 3 (split; [done|]). apply adds_records_refl. }
    destruct Hop as (w1 & rss1 & cur1 & -> & Hl1 & Hs1 & He1). cbn [res_bind].
    destruct (IH w1 rss1 cur1 Hl1 Hs1 Hb2) as (w2 & rss2 & cur2 & E & Hl2 & Hs2 & He2).
    exists w2, rss2, cur2. do 3 (split; [done|]). by eapply adds_records_trans.
Qed.

Lemma run_log_logged size ops :
  Z.rem size pageSize = 0 -> Forall (Forall is_byte) (ops_recs ops) ->
  exists w rss cur, run_log size ops = Ok w /\ logged 0 w rss cur /\ synced w /\ w_segment w = zlen rss /\
    mjoin rss ++ cur = ops_recs ops /\ zlen rss <= zlen (ops_recs ops).
Proof.
  intros Hz Hb. unfold run_log. destruct (NewSize_fresh size Hz) as (w0 & -> & Hl0 & Hs0 & _). cbn [res_bind].
  destruct (run_ops_logged size 0 ops w0 [] [] ltac:(done) Hz Hl0 Hs0 Hb) as (w & rss & cur & E & Hl & Hs & [Ej Hle]).
  exists w, rss, cur. destruct (logged_dir 0 w rss cur Hl Hs) as [_ Hseg]. change (zlen []) with 0 in Hle.
  do 3 (split; [done|]). split; [lia|]. split; [done|lia].
Qed.

(** C18: whatever batches are logged, across segments, clean restarts and crashes
    between batches, the log accepts them and reading it gives back exactly the
    records, in order and without an error. *)
Theorem wal_roundtrip (size : Z) (ops : list log_op) :
  Z.rem size pageSize = 0 -> Forall (Forall is_byte) (ops_recs ops) -> zlen (ops_recs ops) <= MaxInt32 ->
  exists w, run_log size ops = Ok w /\ reads_back (w_dir w) (ops_recs ops).
Proof.
  intros Hz Hb Hmax. destruct (run_log_logged size ops Hz Hb) as (w & rss & cur & E & Hl & Hs & _ & Ej & Hle).
  exists w. split; [done|]. rewrite <- Ej. apply (dir_holds_reads 0); [done|lia|]. by apply logged_dir.
Qed.

Lemma dir_holds_segment i dir rss cur k rs :
  dir_holds i dir rss cur -> (rss ++ [cur]) !! k = Some rs ->
  exists c r, dir !! (i + Z.of_nat k) = Some c /\ read_all_records c = (rs, r) /\ r_Err r = None.
Proof.
  intros (segs & file & -> & Hh & Hall) Hk.
  assert (Hall' : Forall2 (fun c rs => holds 0 c rs) (segs ++ [file]) (rss ++ [cur])).
  { apply Forall2_app; [|by constructor]. eapply Forall2_impl; [exact Hall|]. by intros c rs' [_ ?]. }
  destruct (Forall2_lookup_r _ _ _ _ _ Hall' Hk) as (c & Hc & Hcr).
  destruct (read_all_holds (HC := bytes_content) c rs Hcr) as (r & E & He). exists c, r. split; [|done].
  rewrite seg_dir_lookup, decide_True by lia. by replace (Z.to_nat (i + Z.of_nat k - i)) with k by lia.
Qed.

(** C27: no record crosses segments, so that each segment is read on its own;
    truncating the log before a segment keeps exactly the records from that segment
    on, and logging goes on behind them. *)
Theorem Truncate_keeps_suffix (size : Z) (ops : list log_op) :
  Z.rem size pageSize = 0 -> Forall (Forall is_byte) (ops_recs ops) -> zlen (ops_recs ops) <= MaxInt32 ->
  exists w rss cur, run_log size ops = Ok w /\ mjoin rss ++ cur = ops_recs ops /\ w_segment w = zlen rss /\
    (forall k rs, (rss ++ [cur]) !! k = Some rs ->
       exists c r, w_dir w !! Z.of_nat k = Some c /\ read_all_records c = (rs, r) /\ r_Err r = None) /\
    (forall j more, 0 <= j <= w_segment w -> Forall (Forall is_byte) more -> zlen (ops_recs ops) + zlen more <= MaxInt32 ->
       exists w1 w2, wal_Truncate w j = Ok w1 /\ Log w1 more = Ok w2 /\
         reads_back (w_dir w1) (mjoin (drop (Z.to_nat j) rss) ++ cur) /\
         reads_back (w_dir w2) (mjoin (drop (Z.to_nat j) rss) ++ cur ++ more)).
Proof.
  intros Hz Hb Hmax. destruct (run_log_logged size ops Hz Hb) as (w & rss & cur & E & Hl & Hs & Hseg & Ej & Hle).
  destruct (logged_dir 0 w rss cur Hl Hs) as [Hd _]. exists w, rss, cur. do 3 (split; [done|]). split.
  { intros k rs Hk. by apply (dir_holds_segment 0 (w_dir w) rss cur). }
  intros j more Hj Hmore Hmax'. destruct (Truncate_logged 0 j w rss cur Hl Hj) as (w1 & E1 & Hl1 & Hs1).
  rewrite Z.sub_0_r in Hl1. specialize (Hs1 Hs).
  destruct (Log_logged j w1 _ cur more Hl1 Hs1 Hmore) as (w2 & rss2 & cur2 & E2 & Hl2 & Hs2 & [Ej2 Hle2]).
  assert (Hlen : zlen (drop (Z.to_nat j) rss) = zlen rss - j) by (apply zlen_drop; lia).
  exists w1, w2. do 2 (split; [done|]). split.
  - apply (dir_holds_reads j); [lia|lia|]. by apply logged_dir.
  - rewrite <- Ej2. apply (dir_holds_reads j); [lia|lia|]. by apply logged_dir.
Qed.

(** [Repair] logs the records one by one. *)
Lemma Log_each i w rss cur recs :
  logged i w rss cur -> synced w -> Forall (Forall is_byte) recs ->
  exists w' rss' cur', foldl (fun w r => let? w := w in Log w [r]) (Ok w) recs = Ok w' /\
    logged i w' rss' cur' /\ synced w' /\ adds_records rss cur recs rss' cur'.
Proof.
  intros Hl Hs Hb. revert w rss cur Hl Hs. induction Hb as [|rec recs Hrec _ IH]; intros w rss cur Hl Hs.
  - exists w, rss, cur. do 3 (split; [done|]). apply adds_records_refl.
  - destruct (Log_logged i w rss cur [rec] Hl Hs) as (w1 & rss1 & cur1 & E1 & Hl1 & Hs1 & He1); [by constructor|].
    destruct (IH w1 rss1 cur1 Hl1 Hs1) as (w2 & rss2 & cur2 & E2 & Hl2 & Hs2 & He2).
    exists w2, rss2, cur2. cbn [foldl res_bind]. rewrite E1. do 3 (split; [done|]).
    exact (adds_records_trans _ _ _ _ _ _ _ _ He1 He2).
Qed.

Lemma Repair_logged size dir seg dp refs k c off e segs rss :
  listSegments dir = Ok refs -> dir !! k = Some c -> Forall is_byte c -> k = zlen segs ->
  (forall j, j < k -> dir !! j = seg_dir 0 segs !! j) ->
  Forall2 (fun c rs => zlen c mod pageSize = 0 /\ holds 0 c rs) segs rss ->
  exists w rss' cur', Repair (mkWal size dir seg dp new_page) (Some (mkCorruption k off e)) = Ok w /\
    logged 0 w rss' cur' /\ synced w /\ adds_records rss [] (fst (read_all_records c)) rss' cur'.
Proof.
  intros Hls Hk Hc -> Hpre Hall. unfold Repair. cbn [ce_Segment w_dir]. pose proof (zlen_nonneg segs).
  rewrite (proj2 (Z.ltb_ge _ _)), Hls by lia. cbn [res_bind]. set (dir' := filter _ dir).
  assert (Hd' : dir' !! zlen segs = Some c) by (apply map_lookup_filter_Some_2; [done|cbn; lia]). rewrite Hd'.
  set (w0 := mkWal _ _ _ _ _).
  assert (Hw0 : logged 0 w0 rss []).
  { exists segs, []. split; [|split; [unfold ready; cbn [w0 w_page new_page p_alloc]; page_lia|split; [constructor|done]]].
    exists [], [], [], (Z.to_nat pageSize). cbn [w0 w_dir w_segment w_page new_page p_buf p_flushed p_alloc].
    split; [|split; [lia|]; do 4 (split; [done|]); split; [page_lia|done]].
    rewrite <- (CreateSegment_next 0 segs), Z.add_0_l. f_equal.
    apply map_eq. intros j. destruct (decide (j = zlen segs)) as [->|Hj].
    - rewrite lookup_delete_eq, seg_dir_lookup. case_decide; [|done]. symmetry. apply lookup_ge_None_2. unfold zlen. lia.
    - rewrite lookup_delete_ne by done. unfold dir'. rewrite map_lookup_filter.
      destruct (Z.lt_ge_cases j (zlen segs)) as [Hlt|Hge].
      + rewrite Hpre by done. destruct (_ !! j); cbn; [|done]. case_guard; [done|cbn in *; lia].
      + rewrite seg_dir_lookup. transitivity (@None (list Z)).
        * destruct (dir !! j); cbn; [|done]. case_guard; [cbn in *; lia|done].
        * case_decide; [|done]. symmetry. apply lookup_ge_None_2. unfold zlen in *. lia. }
  assert (Hs0 : synced w0) by done. clearbody w0.
  assert (Hrb : Forall (Forall is_byte) (fst (read_all_records c))) by (by apply read_records_bytes).
  destruct (Log_each 0 w0 rss [] (fst (read_all_records c)) Hw0 Hs0 Hrb) as (w' & rss' & cur' & E & Hrest).
  by exists w', rss', cur'.
Qed.

(** C28: repairing a log in which segment [k] is corrupted, and anything may have
    happened to the later ones, keeps the records of the segments before it and
    those that can still be read from it, and drops the rest. *)
Theorem Repair_keeps_prefix (size : Z) (ops : list log_op) :
  Z.rem size pageSize = 0 -> Forall (Forall is_byte) (ops_recs ops) ->
  exists w rss cur, run_log size ops = Ok w /\ mjoin rss ++ cur = ops_recs ops /\ w_segment w = zlen rss /\
    forall k dir refs c off e seg dp,
      0 <= k <= w_segment w -> (forall j, j < k -> dir !! j = w_dir w !! j) -> dir !! k = Some c ->
      listSegments dir = Ok refs -> Forall is_byte c ->
      let kept := fst (read_all_records c) in k + zlen kept <= MaxInt32 ->
      exists w', Repair (mkWal size dir seg dp new_page) (Some (mkCorruption k off e)) = Ok w' /\
        reads_back (w_dir w') (mjoin (take (Z.to_nat k) rss) ++ kept).
Proof.
  intros Hz Hb. destruct (run_log_logged size ops Hz Hb) as (w & rss & cur & E & Hl & Hs & Hseg & Ej & Hle).
  destruct (logged_dir 0 w rss cur Hl Hs) as [(segs & file & Hd & _ & Hall) _].
  exists w, rss, cur. do 3 (split; [done|]). intros k dir refs c off e seg dp Hk Hpre Hc Hls Hcb kept Hmax.
  assert (Hlen : zlen segs = zlen rss) by (unfold zlen; by rewrite (Forall2_length _ _ _ Hall)).
  destruct (Repair_logged size dir seg dp refs k c off e (take (Z.to_nat k) segs) (take (Z.to_nat k) rss))
    as (w' & rss' & cur' & E' & Hl' & Hs' & [Ej' Hle']); [done..| | |by apply Forall2_take|].
  - rewrite zlen_take; lia.
  - intros j Hj. rewrite Hpre, Hd, !seg_dir_lookup by done. case_decide; [|done].
    rewrite lookup_app_l, lookup_take_lt by (unfold zlen in *; lia). done.
  - exists w'. split; [done|]. fold kept in Ej', Hle'. change ([] ++ kept) with kept in Ej'. rewrite <- Ej'.
    rewrite zlen_take in Hle' by lia. apply (dir_holds_reads 0); [done|lia|]. by apply logged_dir.
Qed.

(** ** Witnesses *)

Definition example_ops : list log_op := [OLog [[1; 2; 3]; []]; OCrash; OLog [[7]; [255]]; OClose; OLog []; OLog [[4]]].

Lemma example_bytes : Forall (Forall is_byte) (ops_recs example_ops).
Proof. decided. Qed.

Lemma wal_roundtrip_witness :
  exists w, run_log (4 * pageSize) example_ops = Ok w /\ reads_back (w_dir w) [[1; 2; 3]; []; [7]; [255]; [4]].
Proof. apply (wal_roundtrip (4 * pageSize) example_ops); [apply Z.rem_mul; page_lia|exact example_bytes|done]. Defined.

Lemma Truncate_keeps_suffix_witness :
  exists w rss cur, run_log (4 * pageSize) example_ops = Ok w /\ mjoin rss ++ cur = ops_recs example_ops /\ w_segment w = zlen rss /\
    exists w1, wal_Truncate w (w_segment w) = Ok w1 /\ reads_back (w_dir w1) cur.
Proof.
  destruct (Truncate_keeps_suffix (4 * pageSize) example_ops) as (w & rss & cur & E & Ej & Hs & _ & Ht);
    [apply Z.rem_mul; page_lia|exact example_bytes|done|].
  exists w, rss, cur. do 3 (split; [done|]).
  destruct (Ht (w_segment w) [] ltac:(rewrite Hs; pose proof (zlen_nonneg rss); lia) ltac:(constructor) ltac:(done)) as (w1 & _ & E1 & _ & Hr & _).
  exists w1. split; [done|]. replace (drop (Z.to_nat (w_segment w)) rss) with (@nil (list (list Z))) in Hr; [exact Hr|].
  rewrite Hs. unfold zlen. by rewrite Nat2Z.id, drop_all.
Defined.

(** The first segment is replaced by garbage behind a record. *)
Definition garbled : list Z := fragment recFull [1; 2; 3] ++ [9; 9; 9].

Lemma Repair_keeps_prefix_witness :
  exists w', Repair (mkWal (4 * pageSize) (seg_dir 0 [garbled]) 0 0 new_page) (Some (mkCorruption 0 13 EOF)) = Ok w' /\
    reads_back (w_dir w') [[1; 2; 3]].
Proof.
  destruct (Repair_keeps_prefix (4 * pageSize) [] ltac:(apply Z.rem_mul; page_lia) ltac:(constructor)) as (w & rss & cur & E & _ & Hs & Hr).
  assert (Hk : fst (read_all_records garbled) = [[1; 2; 3]]) by (by vm_compute).
  destruct (Hr 0 (seg_dir 0 [garbled]) (numbered 0 [garbled]) garbled 13 EOF 0 0) as (w' & E' & Hw').
  - rewrite Hs. pose proof (zlen_nonneg rss). lia.
  - intros j Hj. destruct (run_log_logged (4 * pageSize) [] ltac:(apply Z.rem_mul; page_lia) ltac:(constructor)) as (w2 & rss2 & cur2 & E2 & Hl2 & Hs2 & _).
    rewrite E in E2. injection E2 as <-. destruct (logged_dir 0 w rss2 cur2 Hl2 Hs2) as [(segs & file & -> & _) _].
    rewrite !seg_dir_lookup. by rewrite !decide_False by lia.
  - done.
  - apply listSegments_seg_dir.
  - decided.
  - rewrite Hk. done.
  - exists w'. split; [done|]. rewrite Hk in Hw'. exact Hw'.
Defined.

(** ** A record cut at the end of a page *)

Definition big_record : list Z := replicate (Z.to_nat 40000) 1.

(** The first page of a record of two pages has been written before a crash. *)
Definition torn_dir : res directory :=
  let? w := run_log (4 * pageSize) [OLog [[5]; big_record]] in
  Ok (seg_dir 0 [take (Z.to_nat pageSize) (default [] (w_dir w !! 0))]).

Definition read_dir (dir : directory) : res (list (list Z) * option CorruptionErr) :=
  let? rd := NewSegmentsReader dir in
  let '(recs, r) := read_all_records rd in
  Ok (recs, r_Err r).

(** The reader takes the cut record for the end of the log and reports nothing, so
    nothing is repaired; once more records are logged it fails on the first of them,
    and the repair drops those records, which were written in full. *)
Theorem torn_record_poisons_log :
  (let? dir := torn_dir in read_dir dir) = Ok ([[5]], None) /\
  (let? dir := torn_dir in
   let? w := NewSize dir (4 * pageSize) in
   let? w := run_ops (4 * pageSize) w [OLog [[7]]; OLog [[8]]] in
   let? w := NewSize (w_dir w) (4 * pageSize) in
   let? (recs, e) := read_dir (w_dir w) in
   let? w := Repair w e in
   let? (recs', e') := read_dir (w_dir w) in
   Ok (recs, e, recs', e')) =
  Ok ([[5]], Some (mkCorruption 0 32776 (ErrMsg "unexpected full record")), [[5]], None).
Proof. split; vm_compute; reflexivity. Qed.
