(* ===== verification/Recovery.v ===== *)
(** The head on the write-ahead log: what is committed survives a crash. *)
From S2P Require Import Prelude Order Labels Tombstones Records Postings MemPostings XorChunk Chunks Buffer MemSeries Head HeadInv HeadAppend HeadWal Wal WalSpec WalLog.
#[local] Open Scope list_scope.
#[local] Open Scope Z_scope.
#[local] Opaque pageSize.

(** The log the head writes to.  [Log] does not panic ([WalLog.Log_logged]). *)
#[export] Instance wal_log : WAL wal := fun w rec =>
  match Log w [rec] with
  | Ok w' => (w', None)
  | Err e => (w, Some e)
  | Panic => (w, Some (ErrMsg "panic"))
  end.

(** It keeps the records, as the head expects. *)
#[export, program] Instance wal_store : LogStore wal := {|
  log_holds w recs := exists rss cur, WalLog.logged 0 w rss cur /\ synced w /\ mjoin rss ++ cur = recs |}.
Next Obligation.
  intros w recs rec (rss & cur & Hl & Hs & <-) Hb.
  destruct (Log_logged 0 w rss cur [rec] Hl Hs) as (w' & rss' & cur' & E & Hl' & Hs' & [Ej _]); [by constructor|].
  exists w'. unfold wal_Log, wal_log. rewrite E. split; [done|]. exists rss', cur'. split; [done|]. split; [done|].
  by rewrite Ej, (assoc_L (++)).
Qed.

(** Opening the log again and reading it gives its records. *)
Lemma reopen_reads w recs size :
  Z.rem size pageSize = 0 -> log_holds w recs ->
  exists w1 rd r, NewSize (w_dir w) size = Ok w1 /\ log_holds w1 recs /\
    NewSegmentsRangeReader (w_dir w1) 0 (-1) = Ok rd /\ read_all_records rd = (recs, r) /\ r_Err r = None.
Proof.
  intros Hz (rss & cur & Hl & Hs & <-). destruct (logged_dir 0 w rss cur Hl Hs) as [Hd _].
  destruct (NewSize_logged 0 _ rss cur size ltac:(done) Hz Hd) as (w1 & E & Hl1 & Hs1 & _).
  destruct (logged_dir 0 w1 rss cur Hl1 Hs1) as [Hd1 _].
  destruct (dir_holds_range 0 _ rss cur 0 (-1) ltac:(done) ltac:(by left) Hd1) as (rd & r & E2 & E3 & E4).
  exists w1, rd, r. split; [done|]. split; [by exists rss, cur|]. done.
Qed.

(** What [Open] does with the log: it opens it, makes a head on it and loads the
    records of its segments. *)
Definition open_head (Sum64 : list Z -> Z) (dir : directory) (size w : Z) (repair : wal -> error -> wal * option error) :
    res (Head wal * option error) :=
  let? wlog := NewSize dir size in
  let? h := NewHead (Some wlog) w in
  let? rd := NewSegmentsRangeReader (w_dir wlog) 0 (-1) in
  let '(recs, r) := read_all_records rd in
  Init Sum64 h (mkWalContents None (recs, ce_Err <$> r_Err r)) repair.

(** C1: from end to end: transactions committed on a new database whose log is in
    segment files survive a crash.  Opening the directory again reads the log
    without an error and gives a well-formed head with the same series, references
    and samples, whose times cover the samples. *)
Theorem committed_survives_crash (Sum64 : list Z -> Z) (size w t0 : Z) (txs : list (list (Labels * Buffer.sample)))
    (repair : wal -> error -> wal * option error) :
  range_ok w -> Z.rem size pageSize = 0 -> Forall (Forall request_ok) txs -> Z.of_nat (length (mjoin txs)) <= 65535 ->
  exists wal0 h wl A,
    NewSize ∅ size = Ok wal0 /\ transactions Sum64 (fst (initTime (new_head w wal0) t0)) txs = Ok h /\
    h_wal h = Some wl /\ HeadInv.rep Sum64 h A /\
  exists h' A', open_head Sum64 (w_dir wl) size w repair = Ok (h', None) /\ HeadInv.rep Sum64 h' A' /\ flat A' = flat A /\
    forall id c x, flat A !! id = Some c -> x ∈ snd c -> h_minTime h' <= fst x <= h_maxTime h'.
Proof.
  intros Hw Hz Htxs Hlen. destruct (NewSize_fresh size Hz) as (wal0 & E0 & Hl0 & Hs0 & _).
  destruct (recovery_ok Sum64 w t0 txs wal0 Hw) as (h & wl & recs & A & E & Hwal & Hwl & Hr & Hi); [by exists [], []|done|done|].
  destruct (reopen_reads wl recs size Hz Hwl) as (wal1 & rd & r & E1 & _ & E2 & E3 & E4).
  destruct (Hi wal1 repair) as (h' & A' & E5 & Hr' & Ef & _ & Ht).
  exists wal0, h, wl, A. do 4 (split; [done|]). exists h', A'. split; [|done].
  unfold open_head. rewrite E1. cbn [res_bind]. rewrite (proj1 (new_head_rep Sum64 w wal1 Hw)). cbn [res_bind].
  rewrite E2. cbn [res_bind]. by rewrite E3, E4.
Qed.

Lemma committed_survives_crash_witness :
  exists wal0 h wl A,
    NewSize ∅ (128 * pageSize) = Ok wal0 /\
    transactions AppendExample.sum (fst (initTime (new_head 1000 wal0) 10)) [AppendExample.reqs; AppendExample.reqs] = Ok h /\
    h_wal h = Some wl /\ HeadInv.rep AppendExample.sum h A /\
  exists h' A', open_head AppendExample.sum (w_dir wl) (128 * pageSize) 1000 (fun w e => (w, Some e)) = Ok (h', None) /\
    HeadInv.rep AppendExample.sum h' A' /\ flat A' = flat A /\
    forall id c x, flat A !! id = Some c -> x ∈ snd c -> h_minTime h' <= fst x <= h_maxTime h'.
Proof.
  apply (committed_survives_crash AppendExample.sum (128 * pageSize) 1000 10 [AppendExample.reqs; AppendExample.reqs]).
  - unfold range_ok. lia.
  - apply Z.rem_mul. page_lia.
  - repeat (apply Forall_cons_2; [exact example_requests_ok|]). apply Forall_nil_2.
  - cbn. lia.
Defined.
