(* ===== verification/Plan.v ===== *)
(** block.go and compact.go: what is known about a block, which blocks a compaction
    takes and what is known about the block it makes. *)
From S2P Require Import Prelude Order Tombstones Chunks MemSeries.
From Stdlib Require Import SpecFloat.
#[local] Open Scope list_scope.
#[local] Open Scope Z_scope.

(** * Block metadata *)

Record BlockStats := mkStats { NumSamples : Z; NumSeries : Z; NumChunks : Z; NumTombstones : Z }.

(** [U] is the type of the identifiers, [ulid.ULID]. *)
Record BlockDesc (U : Type) := mkDesc { bd_ULID : U; bd_MinTime : Z; bd_MaxTime : Z }.
Arguments mkDesc {U}.
Arguments bd_ULID {U}.
Arguments bd_MinTime {U}.
Arguments bd_MaxTime {U}.

Record BlockMetaCompaction (U : Type) := mkCompaction {
  cp_Level : Z; cp_Sources : list U; cp_Parents : list (BlockDesc U); cp_Failed : bool }.
Arguments mkCompaction {U}.
Arguments cp_Level {U}.
Arguments cp_Sources {U}.
Arguments cp_Parents {U}.
Arguments cp_Failed {U}.

Record BlockMeta (U : Type) := mkBlockMeta {
  bm_ULID : U; bm_MinTime : Z; bm_MaxTime : Z; bm_Stats : BlockStats; bm_Compaction : BlockMetaCompaction U }.
Arguments mkBlockMeta {U}.
Arguments bm_ULID {U}.
Arguments bm_MinTime {U}.
Arguments bm_MaxTime {U}.
Arguments bm_Stats {U}.
Arguments bm_Compaction {U}.

(** [Block.OverlapsClosedInterval]: the block is half open. *)
Definition bm_Overlaps {U} (m : BlockMeta U) (mint maxt : Z) : bool :=
  (bm_MinTime m <=? maxt) && (mint <? bm_MaxTime m).

(** * Block ranges *)

Fixpoint ranges_from (steps : nat) (curRange stepSize : Z) : list Z :=
  match steps with
  | O => []
  | S steps => curRange :: ranges_from steps (i64 (curRange * stepSize)) stepSize
  end.

(** A negative [steps] is no capacity for [make]. *)
Definition ExponentialBlockRanges (minSize steps stepSize : Z) : res (list Z) :=
  if steps <? 0 then Panic else Ok (ranges_from (Z.to_nat steps) minSize stepSize).

(** * Planning *)

(** A [float64] made from a [uint64]. *)
Definition float_of (x : Z) : spec_float := binary_normalize 53 1024 x 0 false.

(** The constant 0.05. *)
Definition five_percent : spec_float := S754_finite false 7205759403792794 (-57).

(** Are more than 5% of the series under tombstones? *)
Definition many_tombstones (s : BlockStats) : bool :=
  SFltb five_percent (SFdiv 53 1024 (float_of (NumTombstones s)) (float_of (u64 (NumSeries s + 1)))).

Example many_tombstones_example :
  (fun n => many_tombstones (mkStats 0 99 0 n)) <$> [0; 5; 6; 100] = [false; false; true; true].
Proof. by vm_compute. Qed.

Section Planning.
Context {U : Type}.
Abbreviation BlockMeta := (BlockMeta U).

Record dirMeta := mkDirMeta { dm_dir : string; dm_meta : BlockMeta }.

Definition dm_min (d : dirMeta) : Z := bm_MinTime (dm_meta d).
Definition dm_max (d : dirMeta) : Z := bm_MaxTime (dm_meta d).

(** The start of the aligned range of size [tr] at or before the block's start. *)
Definition range_start (tr mint : Z) : res Z :=
  if 0 <=? mint
  then let? q := div64 mint tr in Ok (i64 (tr * q))
  else let? q := div64 (i64 (i64 (mint - tr) + 1)) tr in Ok (i64 (tr * q)).

Definition fits (t0 tr : Z) (d : dirMeta) : bool :=
  negb ((dm_min d <? t0) || (i64 (t0 + tr) <? dm_max d)).

(** The directories up to the first that does not fit. *)
Fixpoint span_fits (t0 tr : Z) (ds : list dirMeta) : list dirMeta * list dirMeta :=
  match ds with
  | [] => ([], [])
  | d :: rest =>
      if fits t0 tr d then let '(group, rest) := span_fits t0 tr rest in (d :: group, rest)
      else ([], ds)
  end.

(** Each round takes a directory at least. *)
Fixpoint split_loop (fuel : nat) (ds : list dirMeta) (tr : Z) : res (list (list dirMeta)) :=
  match ds with
  | [] => Ok []
  | d :: rest =>
      match fuel with
      | O => Err out_of_fuel
      | S fuel =>
          let? t0 := range_start tr (dm_min d) in
          if negb (fits t0 tr d) then split_loop fuel rest tr
          else
            let '(group, rest) := span_fits t0 tr ds in
            let? parts := split_loop fuel rest tr in
            Ok (if (0 <? length group)%nat then group :: parts else parts)
      end
  end.

Definition splitByRange (ds : list dirMeta) (tr : Z) : res (list (list dirMeta)) := split_loop (length ds) ds tr.

(** Is the part taken: no block of it failed, it spans the whole range or lies
    before the most recent block, and there is something to merge. *)
Definition part_selected (iv highTime : Z) (p : list dirMeta) : res bool :=
  if existsb (fun d => cp_Failed (bm_Compaction (dm_meta d))) p then Ok false
  else
    let? first := index p 0 in
    let? last := index p (zlen p - 1) in
    let mint := dm_min first in
    let maxt := dm_max last in
    Ok (((i64 (maxt - mint) =? iv) || (maxt <=? highTime)) && (1 <? length p)%nat).

Fixpoint select_part (iv highTime : Z) (parts : list (list dirMeta)) : res (option (list dirMeta)) :=
  match parts with
  | [] => Ok None
  | p :: parts =>
      let? b := part_selected iv highTime p in
      if b then Ok (Some p) else select_part iv highTime parts
  end.

Fixpoint select_range (ivs : list Z) (highTime : Z) (ds : list dirMeta) : res (list dirMeta) :=
  match ivs with
  | [] => Ok []
  | iv :: ivs =>
      let? parts := splitByRange ds iv in
      let? p := select_part iv highTime parts in
      match p with Some p => Ok p | None => select_range ivs highTime ds end
  end.

Definition selectDirs (ranges : list Z) (ds : list dirMeta) : res (list dirMeta) :=
  if (length ranges <? 2)%nat || (length ds <? 1)%nat then Ok []
  else
    let? last := index ds (zlen ds - 1) in
    select_range (drop 1 ranges) (dm_min last) ds.

(** Large blocks with many tombstones, from the most recent one down. *)
Fixpoint select_stones (range : Z) (ds : list dirMeta) : list string :=
  match ds with
  | [] => []
  | d :: ds =>
      if i64 (dm_max d - dm_min d) <? range then []
      else if many_tombstones (bm_Stats (dm_meta d)) then [dm_dir d]
      else select_stones range ds
  end.

(** [plan].  Blocks that begin at the same time may come in any order. *)
Definition plan (ranges : list Z) (dms : list dirMeta) : res (list string) :=
  let dms := sort_by dm_min Z.compare dms in
  let? dms := slice dms 0 (zlen dms - 1) in
  let? sel := selectDirs ranges dms in
  let res := dm_dir <$> sel in
  if (0 <? length res)%nat then Ok res
  else
    match rev dms with
    | [] => Ok []
    | _ => let? range := index ranges (Z.quot (zlen ranges) 2) in Ok (select_stones range (rev dms))
    end.

(** [Plan] on the blocks of the directory; [None] for a block whose metadata cannot
    be read. *)
Definition Plan (ranges : list Z) (dirs : list (string * option BlockMeta)) : res (list string) :=
  if (length dirs <? 1)%nat then Ok []
  else
    let? dms := foldr (fun d r =>
        match snd d with
        | None => Err (ErrMsg "read meta file")
        | Some m => let? r := r in Ok (mkDirMeta (fst d) m :: r)
        end) (Ok []) dirs in
    plan ranges dms.

(** * The metadata of a compacted block *)

Context `{Countable U} (Compare : U -> U -> comparison).

Definition desc (m : BlockMeta) : BlockDesc U := mkDesc (bm_ULID m) (bm_MinTime m) (bm_MaxTime m).

Definition compactBlockMetas (uid : U) (blocks : list BlockMeta) : res BlockMeta :=
  let? first := index blocks 0 in
  let? last := index blocks (zlen blocks - 1) in
  let level := foldl (fun l b => if l <? cp_Level (bm_Compaction b) then cp_Level (bm_Compaction b) else l) 0 blocks in
  let sources : gset U := list_to_set (mjoin ((fun b => cp_Sources (bm_Compaction b)) <$> blocks)) in
  Ok (mkBlockMeta uid (bm_MinTime first) (bm_MaxTime last) (mkStats 0 0 0 0)
        (mkCompaction (level + 1) (sort_by id Compare (elements sources)) (desc <$> blocks) false)).
End Planning.
Arguments dirMeta : clear implicits.
Arguments plan {U}.
Arguments Plan {U}.
Arguments splitByRange {U}.
Arguments selectDirs {U}.

(** The example of the documentation of [splitByRange]. *)
Definition example_meta (u mint maxt : Z) : BlockMeta Z := mkBlockMeta u mint maxt (mkStats 0 0 0 0) (mkCompaction 1 [u] [] false).
Definition example_dir (u mint maxt : Z) : dirMeta Z := mkDirMeta "" (example_meta u mint maxt).

Example splitByRange_example :
  (let? parts := splitByRange [example_dir 1 0 10; example_dir 2 10 20; example_dir 3 50 60; example_dir 4 90 100] 30 in
   Ok (map (map (fun d => (dm_min d, dm_max d))) parts)) =
  Ok [[(0, 10); (10, 20)]; [(50, 60)]; [(90, 100)]].
Proof. by vm_compute. Qed.
