(* ===== verification/PlanSpec.v ===== *)
(** Planning is sound: what [splitByRange] and [plan] select, and that replacing the
    selected blocks by the compacted one keeps the blocks of the database in order. *)
From S2P Require Import Prelude Order Chunks MemSeries Plan.
#[local] Open Scope list_scope.
#[local] Open Scope Z_scope.

(** Times and ranges far from the limits of [int64]. *)
Definition small_time (t : Z) : Prop := - 2 ^ 61 <= t <= 2 ^ 61.
Definition small_range (r : Z) : Prop := 0 < r <= 2 ^ 61.

Section Split.
Context {U : Type}.
Abbreviation dirMeta := (Plan.dirMeta U).

Definition meta_ok (m : BlockMeta U) : Prop := small_time (bm_MinTime m) /\ small_time (bm_MaxTime m) /\ bm_MinTime m < bm_MaxTime m.
Abbreviation dir_ok := (fun d : dirMeta => meta_ok (dm_meta d)).

(** The number of the aligned range a block begins in, if the block lies in it. *)
Definition range_of (tr : Z) (d : dirMeta) : option Z :=
  let w := dm_min d / tr in if dm_max d <=? tr * w + tr then Some w else None.

Lemma range_start_ok tr t : small_time t -> small_range tr -> range_start tr t = Ok (tr * (t / tr)).
Proof.
  unfold small_time, small_range, range_start. intros Ht Hr.
  pose proof (Z.div_mod t tr ltac:(lia)). pose proof (Z.mod_pos_bound t tr ltac:(lia)).
  assert (Hq : - 2 ^ 62 <= t / tr <= 2 ^ 62) by nia.
  destruct (Z.leb_spec 0 t) as [Hn|Hn]; unfold div64; rewrite (proj2 (Z.eqb_neq tr 0)) by lia; cbn [res_bind].
  - rewrite Z.quot_div_nonneg by lia. rewrite (i64_small (t / tr)) by (unfold is_s; lia).
    rewrite i64_small by (unfold is_s; nia). done.
  - rewrite (i64_small (t - tr)), (i64_small (t - tr + 1)) by (unfold is_s; lia).
    assert (E : Z.quot (t - tr + 1) tr = t / tr).
    { replace (t - tr + 1) with (- (tr - 1 - t)) by lia. rewrite Z.quot_opp_l, Z.quot_div_nonneg by lia.
      rewrite <- (Z.div_unique (tr - 1 - t) tr (- (t / tr)) (tr - 1 - t mod tr)); lia. }
    rewrite E, (i64_small (t / tr)) by (unfold is_s; lia). rewrite i64_small by (unfold is_s; nia). done.
Qed.

Lemma fits_range tr w (d : dirMeta) :
  dir_ok d -> small_range tr -> - 2 ^ 62 <= tr * w <= 2 ^ 62 -> fits (tr * w) tr d = bool_decide (range_of tr d = Some w).
Proof.
  unfold small_time, small_range, fits, range_of. intros (H1 & H2 & H3) Hr Hw. change (bm_MinTime (dm_meta d)) with (dm_min d) in *.
  change (bm_MaxTime (dm_meta d)) with (dm_max d) in *.
  rewrite i64_small by (unfold is_s; lia).
  pose proof (Z.div_mod (dm_min d) tr ltac:(lia)). pose proof (Z.mod_pos_bound (dm_min d) tr ltac:(lia)).
  destruct (Z.ltb_spec (dm_min d) (tr * w)), (Z.ltb_spec (tr * w + tr) (dm_max d)); cbn [orb negb].
  - rewrite bool_decide_eq_false_2; [done|]. destruct (Z.leb_spec (dm_max d) (tr * (dm_min d / tr) + tr)); [|done]. intros [= E]. nia.
  - rewrite bool_decide_eq_false_2; [done|]. destruct (Z.leb_spec (dm_max d) (tr * (dm_min d / tr) + tr)); [|done]. intros [= E]. nia.
  - rewrite bool_decide_eq_false_2; [done|]. destruct (Z.leb_spec (dm_max d) (tr * (dm_min d / tr) + tr)); [|done]. intros [= E]. nia.
  - assert (E : dm_min d / tr = w) by (symmetry; apply (Z.div_unique _ _ _ (dm_min d - tr * w)); lia).
    rewrite E, (proj2 (Z.leb_le _ _)) by lia. by rewrite bool_decide_eq_true_2.
Qed.

Lemma span_fits_spec t0 tr (ds : list dirMeta) :
  let '(g, rest) := span_fits t0 tr ds in
  ds = g ++ rest /\ Forall (fun d => fits t0 tr d = true) g /\ forall d, head rest = Some d -> fits t0 tr d = false.
Proof.
  induction ds as [|d ds IH]; cbn [span_fits]; [done|]. destruct (fits t0 tr d) eqn:E.
  - destruct (span_fits t0 tr ds) as [g rest]. destruct IH as (-> & Hg & Hr). split; [done|]. split; [by constructor|done].
  - split; [done|]. split; [constructor|]. by intros d' [= <-].
Qed.

(** A part of the directories: a maximal run of blocks of one range. *)
Definition is_part (tr : Z) (ds p : list dirMeta) : Prop :=
  exists pre post w, ds = pre ++ p ++ post /\ p <> [] /\ Forall (fun d => range_of tr d = Some w) p /\
    forall d, head post = Some d -> range_of tr d <> Some w.

Lemma is_part_app tr (pre ds p : list dirMeta) : is_part tr ds p -> is_part tr (pre ++ ds) p.
Proof. intros (pre' & post & w & -> & Hp). exists (pre ++ pre'), post, w. by rewrite <- (assoc_L (++)). Qed.

Lemma start_bounds tr t : small_time t -> small_range tr -> - 2 ^ 62 <= tr * (t / tr) <= 2 ^ 62.
Proof.
  unfold small_time, small_range. intros Ht Hr.
  pose proof (Z.div_mod t tr ltac:(lia)). pose proof (Z.mod_pos_bound t tr ltac:(lia)). lia.
Qed.

Lemma split_loop_spec fuel (ds : list dirMeta) tr :
  (length ds <= fuel)%nat -> Forall dir_ok ds -> small_range tr ->
  exists parts, split_loop fuel ds tr = Ok parts /\
    mjoin parts = filter (fun d => is_Some (range_of tr d)) ds /\ Forall (is_part tr ds) parts.
Proof.
  revert ds. induction fuel as [|fuel IH]; intros ds Hf Hok Htr.
  { destruct ds; [|cbn in Hf; lia]. by exists []. }
  destruct ds as [|d ds]; [by exists []|]. cbn [split_loop].
  pose proof (Forall_inv Hok) as Hd. cbn beta in Hd. pose proof (start_bounds tr (dm_min d) (proj1 Hd) Htr) as Hw.
  rewrite (range_start_ok tr (dm_min d)) by (done || apply Hd). cbn [res_bind].
  set (w := dm_min d / tr) in *. rewrite (fits_range tr w d) by done.
  destruct (decide (range_of tr d = Some w)) as [E|E].
  - rewrite bool_decide_eq_true_2 by done. cbn [negb].
    pose proof (span_fits_spec (tr * w) tr (d :: ds)) as Hs. destruct (span_fits (tr * w) tr (d :: ds)) as [g rest] eqn:Es.
    destruct Hs as (Eg & Hg & Hr). assert (Hgne : (0 < length g)%nat).
    { cbn [span_fits] in Es. rewrite (fits_range tr w d), bool_decide_eq_true_2 in Es by done.
      destruct (span_fits (tr * w) tr ds). injection Es as <- _. cbn. lia. }
    rewrite Eg in Hok, Hf. apply Forall_app in Hok as [Hok1 Hok2].
    rewrite length_app in Hf. destruct (IH rest ltac:(lia) Hok2 Htr) as (parts & -> & Ej & Hp). cbn [res_bind].
    rewrite (proj2 (Nat.ltb_lt _ _)) by done. exists (g :: parts). split; [done|]. rewrite Eg.
    assert (Hgw : Forall (fun d => range_of tr d = Some w) g).
    { apply Forall_forall. intros x Hx. rewrite Forall_forall in Hg, Hok1. specialize (Hg x Hx). cbn beta in Hg.
      rewrite (fits_range tr w x) in Hg by (done || by apply Hok1). by apply bool_decide_eq_true in Hg. }
    split; [|constructor].
    + rewrite join_cons, filter_app, Ej. f_equal. symmetry. apply filter_all.
      eapply Forall_impl; [exact Hgw|]. intros x ->. by eexists.
    + exists [], rest, w. split; [done|]. split; [by destruct g; [cbn in Hgne; lia|]|]. split; [done|].
      intros x Hx E'. pose proof (Hr x Hx) as Hfx. destruct rest as [|y rest]; [done|]. injection Hx as ->.
      rewrite (fits_range tr w x), bool_decide_eq_true_2 in Hfx by (done || by apply (Forall_inv Hok2)). done.
    + eapply Forall_impl; [exact Hp|]. intros p. apply is_part_app.
  - rewrite bool_decide_eq_false_2 by done. cbn [negb].
    destruct (IH ds) as (parts & E' & Ej & Hp); [cbn in Hf; lia|by apply Forall_inv_tail in Hok|done|].
    exists parts. split; [done|]. split.
    + rewrite Ej, filter_cons. rewrite decide_False; [done|]. intros [w' Hw']. apply E. rewrite Hw'. f_equal.
      unfold range_of in Hw'. case_match; by simplify_eq.
    + eapply Forall_impl; [exact Hp|]. intros p. apply (is_part_app tr [d]).
Qed.
End Split.

Lemma index_first {A} (x : A) l : index (x :: l) 0 = Ok x.
Proof. done. Qed.

Lemma index_last {A} (l : list A) x : index (l ++ [x]) (zlen (l ++ [x]) - 1) = Ok x.
Proof.
  apply index_ok. rewrite zlen_app. change (zlen [x]) with 1. pose proof (zlen_nonneg l). split; [lia|].
  apply list_lookup_middle. unfold zlen. lia.
Qed.

Lemma slice_init {A} (l : list A) x : slice (l ++ [x]) 0 (zlen (l ++ [x]) - 1) = Ok l.
Proof.
  pose proof (zlen_nonneg l). rewrite slice_ok; rewrite zlen_app; change (zlen [x]) with 1; [|lia..].
  change (drop (Z.to_nat 0) (l ++ [x])) with (l ++ [x]).
  rewrite take_app_length'; [done|]. unfold zlen. lia.
Qed.

Section Select.
Context {U : Type}.
Abbreviation dirMeta := (Plan.dirMeta U).
Abbreviation dir_ok := (fun d : dirMeta => meta_ok (dm_meta d)).

(** What is merged: more than one block, none of which failed before, together as
    long as the range or all before [highTime]. *)
Definition mergeable (iv highTime : Z) (p : list dirMeta) : Prop :=
  exists first mid last, p = first :: mid ++ [last] /\ Forall (fun d => cp_Failed (bm_Compaction (dm_meta d)) = false) p /\
    (i64 (dm_max last - dm_min first) = iv \/ dm_max last <= highTime).

Lemma part_selected_ok iv highTime (p : list dirMeta) :
  p <> [] -> exists b, part_selected iv highTime p = Ok b /\ (b = true <-> mergeable iv highTime p).
Proof.
  intros Hp. unfold part_selected. destruct (existsb _ p) eqn:Ef.
  { exists false. split; [done|]. split; [done|]. intros (f & m & l & -> & Hf & _).
    apply existsb_exists in Ef as (d & Hd%list_elem_of_In & Ed). rewrite Forall_forall in Hf. by rewrite Hf in Ed. }
  assert (Hnf : Forall (fun d => cp_Failed (bm_Compaction (dm_meta d)) = false) p).
  { apply Forall_forall. intros d Hd. destruct (cp_Failed _) eqn:E; [|done]. rewrite <- Ef. symmetry.
    apply existsb_exists. exists d. split; [by apply list_elem_of_In|done]. }
  destruct p as [|first p]; [done|]. rewrite index_first. cbn [res_bind].
  destruct (exists_last (l := first :: p) ltac:(done)) as (init & last & E). 
  assert (El : index (first :: p) (zlen (first :: p) - 1) = Ok last) by (rewrite E; apply index_last).
  rewrite El. cbn [res_bind]. eexists. split; [done|]. rewrite andb_true_iff, orb_true_iff, Z.eqb_eq, Z.leb_le, Nat.ltb_lt. split.
  - intros [Hr Hlen]. destruct init as [|i init]; [injection E as -> ->; cbn in Hlen; lia|]. injection E as -> ->.
    by exists i, init, last.
  - intros (f & m & l & E' & _ & Hr). assert (first = f) as -> by (by injection E').
    assert (last = l) as -> by (rewrite E' in E; by apply (app_inj_tail (f :: m) init) in E as [_ ->]).
    split; [done|]. rewrite E'. cbn. rewrite length_app. cbn. lia.
Qed.

Lemma select_part_ok iv highTime (parts : list (list dirMeta)) :
  Forall (fun p => p <> []) parts ->
  exists o, select_part iv highTime parts = Ok o /\
    match o with Some p => p ∈ parts /\ mergeable iv highTime p | None => Forall (fun p => ~ mergeable iv highTime p) parts end.
Proof.
  induction 1 as [|p parts Hp _ IH]; cbn [select_part]; [by exists None|].
  destruct (part_selected_ok iv highTime p Hp) as (b & -> & Hb). cbn [res_bind]. destruct b.
  - exists (Some p). split; [done|]. split; [left|by apply Hb].
  - destruct IH as (o & -> & Ho). exists o. split; [done|]. destruct o as [q|].
    + destruct Ho. split; [by right|done].
    + constructor; [|done]. intros Hm%Hb. done.
Qed.

Lemma select_range_ok ivs highTime (ds : list dirMeta) :
  Forall small_range ivs -> Forall dir_ok ds ->
  exists sel, select_range ivs highTime ds = Ok sel /\
    (sel = [] \/ exists iv, iv ∈ ivs /\ is_part iv ds sel /\ mergeable iv highTime sel).
Proof.
  intros Hivs Hds. induction Hivs as [|iv ivs Hiv _ IH]; cbn [select_range]; [exists []; by auto|].
  destruct (split_loop_spec (length ds) ds iv) as (parts & E & _ & Hp); [done..|].
  unfold splitByRange. rewrite E. cbn [res_bind].
  destruct (select_part_ok iv highTime parts) as (o & -> & Ho).
  { eapply Forall_impl; [exact Hp|]. by intros p (_ & _ & _ & _ & ? & _). }
  cbn [res_bind]. destruct o as [p|].
  - exists p. split; [done|]. right. exists iv. destruct Ho as [Hin Hm]. rewrite Forall_forall in Hp.
    split; [left|]. split; [by apply Hp|done].
  - destruct IH as (sel & -> & Hsel). exists sel. split; [done|]. destruct Hsel as [->|(iv' & ? & ?)]; [by left|].
    right. exists iv'. split; [by right|done].
Qed.

Lemma selectDirs_ok ranges (ds : list dirMeta) :
  Forall small_range ranges -> Forall dir_ok ds ->
  exists sel, selectDirs ranges ds = Ok sel /\
    (sel = [] \/ exists iv high, iv ∈ drop 1 ranges /\ is_part iv ds sel /\ mergeable iv high sel).
Proof.
  intros Hr Hds. unfold selectDirs. destruct (_ || _) eqn:E; [exists []; by auto|].
  apply orb_false_iff in E as [_ E]. apply Nat.ltb_ge in E.
  destruct (exists_last (l := ds)) as (init & last & ->); [by destruct ds; [cbn in E; lia|]|].
  rewrite index_last. cbn [res_bind].
  destruct (select_range_ok (drop 1 ranges) (dm_min last) (init ++ [last])) as (sel & Es & Hs); [by apply Forall_drop|done|].
  exists sel. split; [done|]. destruct Hs as [->|(iv & ? & ? & ?)]; [by left|]. right. eauto.
Qed.

Lemma select_stones_ok range (ds : list dirMeta) :
  select_stones range ds = [] \/
  exists d, d ∈ ds /\ select_stones range ds = [dm_dir d] /\ many_tombstones (bm_Stats (dm_meta d)) = true /\ range <= i64 (dm_max d - dm_min d).
Proof.
  induction ds as [|d ds IH]; cbn [select_stones]; [by left|]. destruct (Z.ltb_spec (i64 (dm_max d - dm_min d)) range) as [H|H]; [by left|].
  destruct (many_tombstones _) eqn:E.
  - right. exists d. split; [left|]. done.
  - destruct IH as [IH|(d' & Hd & Hr)]; [by left|]. right. exists d'. split; [by right|done].
Qed.
End Select.

Section Compacting.
Context {U : Type} `{Countable U} (Compare : U -> U -> comparison) `{!CompareLaws Compare}.
Abbreviation dirMeta := (Plan.dirMeta U).
Abbreviation BlockMeta := (Plan.BlockMeta U).

(** Blocks one after the other. *)
Definition in_sequence (ms : list BlockMeta) : Prop :=
  Forall meta_ok ms /\ StronglySorted (fun a b => bm_MaxTime a <= bm_MinTime b) ms.

Lemma in_sequence_app l k :
  in_sequence (l ++ k) <-> in_sequence l /\ in_sequence k /\ forall a b, a ∈ l -> b ∈ k -> bm_MaxTime a <= bm_MinTime b.
Proof. unfold in_sequence. rewrite Forall_app, StronglySorted_app. tauto. Qed.

Lemma in_sequence_bounds first l last :
  in_sequence (first :: l ++ [last]) ->
  Forall (fun a => bm_MinTime first <= bm_MinTime a /\ bm_MaxTime a <= bm_MaxTime last) (first :: l ++ [last]).
Proof.
  intros Hs. apply Forall_forall. intros a Ha. change (first :: l ++ [last]) with ((first :: l) ++ [last]) in *.
  apply in_sequence_app in Hs as (Hl & [Hlast _] & Hb). pose proof (Forall_inv Hlast) as (_ & _ & Hlt). split.
  - destruct Hl as [Hok Hsl]. pose proof (Forall_inv Hok) as (_ & _ & Hf). apply StronglySorted_inv in Hsl as [_ Hsl].
    apply elem_of_app in Ha as [Ha|Ha].
    + apply elem_of_cons in Ha as [->|Ha]; [lia|]. rewrite Forall_forall in Hsl. specialize (Hsl a Ha). cbn in Hsl. lia.
    + apply list_elem_of_singleton in Ha as ->. specialize (Hb first last ltac:(left) ltac:(left)). lia.
  - apply elem_of_app in Ha as [Ha|Ha]; [|apply list_elem_of_singleton in Ha as ->; lia].
    specialize (Hb a last Ha ltac:(left)). lia.
Qed.

(** The compacted block covers its parents. *)
Lemma compactBlockMetas_ok uid (ms : list BlockMeta) :
  ms <> [] -> in_sequence ms ->
  exists m, compactBlockMetas Compare uid ms = Ok m /\ bm_ULID m = uid /\ meta_ok m /\
    Forall (fun a => bm_MinTime m <= bm_MinTime a /\ bm_MaxTime a <= bm_MaxTime m) ms /\
    (exists a, a ∈ ms /\ bm_MinTime m = bm_MinTime a) /\ (exists a, a ∈ ms /\ bm_MaxTime m = bm_MaxTime a) /\
    cp_Parents (bm_Compaction m) = desc <$> ms /\ cp_Failed (bm_Compaction m) = false /\
    (forall u, u ∈ cp_Sources (bm_Compaction m) <-> exists a, a ∈ ms /\ u ∈ cp_Sources (bm_Compaction a)).
Proof.
  intros Hne Hs. destruct ms as [|first ms]; [done|]. unfold compactBlockMetas. rewrite index_first. cbn [res_bind].
  destruct (exists_last (l := first :: ms) ltac:(done)) as (init & last & E).
  assert (El : index (first :: ms) (zlen (first :: ms) - 1) = Ok last) by (rewrite E; apply index_last).
  rewrite El. cbn [res_bind]. eexists. split; [done|]. cbn [bm_ULID bm_MinTime bm_MaxTime bm_Compaction cp_Parents cp_Failed cp_Sources].
  assert (Hlast : last ∈ first :: ms) by (rewrite E; apply elem_of_app; right; left).
  assert (Hb : Forall (fun a => bm_MinTime first <= bm_MinTime a /\ bm_MaxTime a <= bm_MaxTime last) (first :: ms)).
  { destruct init as [|i init]; injection E as -> ->; [by repeat constructor|]. by apply in_sequence_bounds. }
  split; [done|]. split.
  { pose proof (proj1 Hs) as Hok. rewrite Forall_forall in Hok, Hb. destruct (Hok first ltac:(left)) as (? & ? & ?), (Hok last Hlast) as (? & ? & ?).
    destruct (Hb last Hlast). unfold meta_ok; cbn. split; [done|]. split; [done|]. lia. }
  split; [done|]. split; [exists first; by split; [left|]|]. split; [by exists last|]. split; [done|]. split; [done|].
  intros u. rewrite (sort_by_perm id Compare), elem_of_elements, elem_of_list_to_set, list_elem_of_join. split.
  - intros (us & Hu & Hus). apply list_elem_of_fmap in Hus as (a & -> & Ha). by exists a.
  - intros (a & Ha & Hu). exists (cp_Sources (bm_Compaction a)). split; [done|]. by apply (list_elem_of_fmap_2 (fun b => cp_Sources (bm_Compaction b))).
Qed.

(** It takes their place. *)
Lemma in_sequence_replace pre ms post m :
  in_sequence (pre ++ ms ++ post) -> meta_ok m ->
  (exists a, a ∈ ms /\ bm_MinTime m = bm_MinTime a) -> (exists a, a ∈ ms /\ bm_MaxTime m = bm_MaxTime a) ->
  in_sequence (pre ++ m :: post).
Proof.
  intros Hs Hm (a & Ha & Ea) (b & Hb & Eb).
  apply in_sequence_app in Hs as (Hpre & Hs & H1). apply in_sequence_app in Hs as (Hms & Hpost & H2).
  apply in_sequence_app. split; [done|]. split.
  - split; [by constructor; [|apply Hpost]|]. constructor; [apply Hpost|]. apply Forall_forall. intros c Hc. rewrite Eb. by apply H2.
  - intros c d Hc [->|Hd]%elem_of_cons; [rewrite Ea|]; (apply H1; [done|]); apply elem_of_app; [by left|by right].
Qed.

Lemma sorted_dms_last (dms : list dirMeta) :
  dms <> [] -> exists init last, sort_by dm_min Z.compare dms = init ++ [last].
Proof.
  intros Hne. destruct (exists_last (l := sort_by dm_min Z.compare dms)) as (init & last & E); [|by exists init, last].
  intros E. apply Hne. apply Permutation_nil. by rewrite <- E, sort_by_perm.
Qed.

Lemma plan_selects ranges (dms : list dirMeta) init last :
  Forall small_range ranges -> ranges <> [] -> Forall (fun d => meta_ok (dm_meta d)) init ->
  sort_by dm_min Z.compare dms = init ++ [last] ->
  exists sel pre post, plan ranges dms = Ok (dm_dir <$> sel) /\ init = pre ++ sel ++ post /\
    (sel = [] \/
     (exists iv w, iv ∈ drop 1 ranges /\ (1 < length sel)%nat /\ Forall (fun d => range_of iv d = Some w) sel /\
       Forall (fun d => cp_Failed (bm_Compaction (dm_meta d)) = false) sel) \/
     (exists d, sel = [d] /\ many_tombstones (bm_Stats (dm_meta d)) = true)).
Proof.
  intros Hr Hne Hok E. unfold plan. rewrite E, slice_init. cbn [res_bind].
  destruct (selectDirs_ok ranges init Hr Hok) as (sel & -> & Hsel). cbn [res_bind].
  destruct Hsel as [->|(iv & high & Hiv & (pre & post & w & Ei & Hpne & Hw & _) & (f & m & l & Es & Hf & _))].
  - cbn [fmap list_fmap length]. rewrite (proj2 (Nat.ltb_ge _ _)) by done.
    destruct (rev init) as [|d ds] eqn:Erev.
    { exists [], init, []. split; [done|]. split; [by rewrite app_nil_r|by left]. }
    assert (Hidx : exists r, index ranges (Z.quot (zlen ranges) 2) = Ok r).
    { unfold index. pose proof (zlen_nonneg ranges). rewrite Z.quot_div_nonneg by lia.
      pose proof (Z.div_pos (zlen ranges) 2 ltac:(lia) ltac:(lia)). rewrite (proj2 (Z.leb_le _ _)) by lia.
      destruct (lookup_lt_is_Some_2 ranges (Z.to_nat (zlen ranges / 2))) as [r ->]; [|by exists r].
      assert (0 < zlen ranges) by (destruct ranges; [done|]; unfold zlen; cbn; lia).
      pose proof (Z.div_lt (zlen ranges) 2 ltac:(lia) ltac:(lia)). unfold zlen in *. lia. }
    destruct Hidx as [r ->]. cbn [res_bind]. rewrite <- Erev.
    destruct (select_stones_ok r (rev init)) as [->|(d' & Hd & -> & Hm & _)].
    + exists [], init, []. split; [done|]. split; [by rewrite app_nil_r|by left].
    + rewrite list_elem_of_In, <- in_rev, <- list_elem_of_In in Hd. apply list_elem_of_split in Hd as (l1 & l2 & ->).
      exists [d'], l1, l2. split; [done|]. split; [done|]. right. right. by exists d'.
  - rewrite length_fmap. rewrite (proj2 (Nat.ltb_lt _ _)) by (rewrite Es; cbn; lia).
    exists sel, pre, post. split; [done|]. split; [done|]. right. left. exists iv, w. split; [done|].
    split; [rewrite Es; cbn; rewrite length_app; cbn; lia|]. done.
Qed.

(** C14: planning is sound.  For blocks one after the other, the plan never takes the
    most recent block; it takes neighbours, none of which failed before, that lie in
    one aligned range, or a single block with many tombstones; and when the block
    made of them takes their place the blocks are one after the other again. *)
Theorem plan_keeps_sequence (uid : U) (ranges : list Z) (dms : list dirMeta) :
  Forall small_range ranges -> ranges <> [] -> dms <> [] ->
  in_sequence (dm_meta <$> sort_by dm_min Z.compare dms) ->
  exists pre sel post last, plan ranges dms = Ok (dm_dir <$> sel) /\
    sort_by dm_min Z.compare dms = pre ++ sel ++ post ++ [last] /\
    ((1 < length sel)%nat -> exists iv w, iv ∈ drop 1 ranges /\
       Forall (fun d => cp_Failed (bm_Compaction (dm_meta d)) = false /\ iv * w <= dm_min d /\ dm_max d <= iv * w + iv) sel) /\
    (sel <> [] -> exists m, compactBlockMetas Compare uid (dm_meta <$> sel) = Ok m /\
       Forall (fun d => bm_MinTime m <= dm_min d /\ dm_max d <= bm_MaxTime m) sel /\
       in_sequence ((dm_meta <$> pre) ++ m :: (dm_meta <$> post ++ [last]))).
Proof.
  intros Hr Hrne Hne Hs. destruct (sorted_dms_last dms Hne) as (init & last & E). rewrite E in *.
  rewrite fmap_app in Hs. pose proof Hs as [Hok _]. apply Forall_app in Hok as [Hok _]. rewrite Forall_fmap in Hok.
  destruct (plan_selects ranges dms init last Hr Hrne Hok E) as (sel & pre & post & Ep & -> & Hsel).
  exists pre, sel, post, last. split; [done|]. split; [by rewrite <- !(assoc_L (++))|]. split.
  - intros Hlen. destruct Hsel as [->|[(iv & w & Hiv & _ & Hw & Hf)|(d & -> & _)]]; [cbn in Hlen; lia| |cbn in Hlen; lia].
    exists iv, w. split; [done|]. pose proof (proj1 (Forall_forall _ _) Hr) as Hr'. rewrite Forall_forall in Hw, Hf |- *.
    intros d Hd. split; [by apply Hf|].
    assert (Hiv' : small_range iv). { apply Hr'. rewrite <- (take_drop 1 ranges). apply elem_of_app. by right. }
    specialize (Hw d Hd). cbn beta in Hw. unfold range_of in Hw. destruct (Z.leb_spec (dm_max d) (iv * (dm_min d / iv) + iv)); [|done].
    injection Hw as <-. pose proof (Z.mul_div_le (dm_min d) iv). unfold small_range in Hiv'. lia.
  - intros Hsne. rewrite !fmap_app, <- !(assoc_L (++)) in Hs.
    assert (Hms : in_sequence (dm_meta <$> sel)) by (apply in_sequence_app in Hs as (_ & (Hms & _)%in_sequence_app & _); done).
    destruct (compactBlockMetas_ok uid (dm_meta <$> sel)) as (m & Em & _ & Hm & Hc & Hmin & Hmax & _); [by destruct sel|done|].
    exists m. split; [done|]. split; [by rewrite Forall_fmap in Hc|]. rewrite fmap_app. by eapply in_sequence_replace.
Qed.
End Compacting.

(** Splitting by a range, at negative times too, terminates and gives the blocks
    that lie in one aligned range, all of them and in order, in parts that are the
    runs of blocks of the same range. *)
Theorem splitByRange_correct {U : Type} (tr : Z) (ds : list (Plan.dirMeta U)) :
  small_range tr -> Forall (fun d => meta_ok (dm_meta d)) ds ->
  exists parts, splitByRange ds tr = Ok parts /\
    mjoin parts = filter (fun d => is_Some (range_of tr d)) ds /\ Forall (is_part tr ds) parts.
Proof. intros Htr Hok. by apply split_loop_spec. Qed.

(** ** Witnesses *)

Definition example_dirs : list (Plan.dirMeta Z) :=
  [example_dir 1 (-20) (-10); example_dir 2 (-10) 0; example_dir 3 0 10; example_dir 4 10 20; example_dir 5 20 30; example_dir 6 30 40].

Lemma splitByRange_correct_witness :
  exists parts, splitByRange example_dirs 30 = Ok parts /\
    mjoin parts = filter (fun d => is_Some (range_of 30 d)) example_dirs /\ Forall (is_part 30 example_dirs) parts.
Proof.
  apply (splitByRange_correct 30 example_dirs).
  - unfold small_range. lia.
  - repeat (apply Forall_cons_2; [unfold meta_ok, small_time; cbn; lia|]). apply Forall_nil_2.
Defined.

Lemma plan_keeps_sequence_witness :
  exists pre sel post last, plan [10; 30] example_dirs = Ok (dm_dir <$> sel) /\
    sort_by dm_min Z.compare example_dirs = pre ++ sel ++ post ++ [last] /\
    ((1 < length sel)%nat -> exists iv w, iv ∈ drop 1 [10; 30] /\
       Forall (fun d => cp_Failed (bm_Compaction (dm_meta d)) = false /\ iv * w <= dm_min d /\ dm_max d <= iv * w + iv) sel) /\
    (sel <> [] -> exists m, compactBlockMetas Z.compare 7 (dm_meta <$> sel) = Ok m /\
       Forall (fun d => bm_MinTime m <= dm_min d /\ dm_max d <= bm_MaxTime m) sel /\
       in_sequence ((dm_meta <$> pre) ++ m :: (dm_meta <$> post ++ [last]))).
Proof.
  apply (plan_keeps_sequence Z.compare 7 [10; 30] example_dirs).
  - repeat (apply Forall_cons_2; [unfold small_range; lia|]). apply Forall_nil_2.
  - done.
  - done.
  - change (sort_by dm_min Z.compare example_dirs) with example_dirs. split.
    + repeat (apply Forall_cons_2; [unfold meta_ok, small_time; cbn; lia|]). apply Forall_nil_2.
    + repeat (constructor; [|repeat (apply Forall_cons_2; [cbn; lia|]); apply Forall_nil_2]). constructor.
Defined.
