(* ===== verification/Db.v ===== *)
(** db.go: the blocks of the database.  Which of them overlap, loading them from disk
    and dropping the obsolete ones, compacting the head and the blocks, and the
    blocks a query needs.  A directory of blocks is the map of its block directories;
    the operations of the file system succeed unless a block is unreadable. *)
From S2P Require Import Prelude Order Tombstones Chunks MemPostings MemSeries Head Plan.
#[local] Open Scope list_scope.
#[local] Open Scope Z_scope.

(** * Overlapping blocks *)

Section Overlaps.
Context {U : Type}.
Abbreviation BlockMeta := (BlockMeta U).

(** The groups found so far, the blocks that have not ended, and whether none has
    ended since the last group. *)
Record sweep := mkSweep { sw_overlaps : list (list BlockMeta); sw_pending : list BlockMeta; sw_continuous : bool }.

(** [overlaps[len(overlaps)-1] = append(overlaps[len(overlaps)-1], b)]. *)
Definition extend_last (gs : list (list BlockMeta)) (b : BlockMeta) : list (list BlockMeta) :=
  alter (fun g => g ++ [b]) (length gs - 1)%nat gs.

Definition sweep_step (s : sweep) (b : BlockMeta) : sweep :=
  let newPending := filter (fun p => bm_MinTime b < bm_MaxTime p) (sw_pending s) in
  let continuous := sw_continuous s && (length newPending =? length (sw_pending s))%nat in
  let pending := newPending ++ [b] in
  if (length newPending =? 0)%nat then mkSweep (sw_overlaps s) pending continuous
  else if continuous && (0 <? length (sw_overlaps s))%nat
  then mkSweep (extend_last (sw_overlaps s) b) pending continuous
  else mkSweep (sw_overlaps s ++ [newPending ++ [b]]) pending true.

Definition overlap_groups (bm : list BlockMeta) : list (list BlockMeta) :=
  match bm with
  | [] => []
  | b :: bm => sw_overlaps (foldl sweep_step (mkSweep [] [b] true) bm)
  end.

(** [TimeRange]: the minimum starts from 0. *)
Definition group_range (g : list BlockMeta) : Z * Z :=
  foldl (fun r b => (if fst r <? bm_MinTime b then bm_MinTime b else fst r,
                     if bm_MaxTime b <? snd r then bm_MaxTime b else snd r)) (0, MaxInt64) g.

Definition OverlappingBlocks (bm : list BlockMeta) : gmap (Z * Z) (list BlockMeta) :=
  if (length bm <=? 1)%nat then ∅
  else foldl (fun m g => <[group_range g := g]> m) ∅ (overlap_groups bm).

(** [validateBlockSequence] on the metadata of the blocks. *)
Definition validateBlockSequence (bs : list BlockMeta) : res unit :=
  if (length bs <=? 1)%nat then Ok ()
  else if (0 <? size (OverlappingBlocks bs))%nat then Err (ErrMsg "block time ranges overlap") else Ok ().
End Overlaps.

(** * The database *)

(** What the database asks of its head; [Truncate] may fail. *)
Class DbHead (H : Type) := {
  hd_MinTime : H -> Z;
  hd_MaxTime : H -> Z;
  hd_Truncate : H -> Z -> H * option error;
}.

(** The head of head.go, with an order in which its maps are gone through. *)
#[export] Instance head_db_head {W} `{WAL W} : DbHead (Head W) := {|
  hd_MinTime := h_minTime;
  hd_MaxTime := h_maxTime;
  hd_Truncate h t := (Truncate h t (map_to_list (h_hashes h)).*1 (map_to_list (mp_m (h_postings h))).*1, None);
|}.

(** What a block's directory gives: its metadata, unless [meta.json] cannot be read,
    and what opening its files gives. *)
Class BlockDir (F U D : Type) := { de_meta : F -> option (BlockMeta U); de_data : F -> res D }.

(** [Block]. *)
Record Block (U D : Type) := mkBlock { blk_meta : BlockMeta U; blk_data : D }.
Arguments mkBlock {U D}.
Arguments blk_meta {U D}.
Arguments blk_data {U D}.

Section DB.
Context {F U D H : Type} `{Countable U} (Compare : U -> U -> comparison) `{BlockDir F U D} `{DbHead H}.
Abbreviation BlockMeta := (BlockMeta U).
Abbreviation Block := (Block U D).
Abbreviation disk := (gmap U F).

(** [Options] in force. *)
Record Options := mkOptions { o_RetentionDuration : Z; o_BlockRanges : list Z }.

Record DB := mkDB { db_opts : Options; db_disk : disk; db_blocks : list Block; db_head : H; db_compactionsEnabled : bool }.

Definition with_disk (db : DB) (d : disk) : DB := mkDB (db_opts db) d (db_blocks db) (db_head db) (db_compactionsEnabled db).
Definition with_blocks (db : DB) (bs : list Block) : DB := mkDB (db_opts db) (db_disk db) bs (db_head db) (db_compactionsEnabled db).
Definition with_head (db : DB) (h : H) : DB := mkDB (db_opts db) (db_disk db) (db_blocks db) h (db_compactionsEnabled db).

Definition DisableCompactions (db : DB) : DB := mkDB (db_opts db) (db_disk db) (db_blocks db) (db_head db) false.
Definition EnableCompactions (db : DB) : DB := mkDB (db_opts db) (db_disk db) (db_blocks db) (db_head db) true.

Definition beyondRetention (db : DB) (m : BlockMeta) : bool :=
  if o_RetentionDuration (db_opts db) =? 0 then false
  else match last (db_blocks db) with
       | None => false
       | Some b => bm_MaxTime m <? i64 (bm_MaxTime (blk_meta b) - o_RetentionDuration (db_opts db))
       end.

(** [blockDirs]: by name, the order of the identifiers. *)
Definition blockDirs (d : disk) : list (U * F) := sort_by fst Compare (map_to_list d).

(** ** Reloading *)

Definition getBlock (db : DB) (id : U) : option Block :=
  snd <$> list_find (fun b => bm_ULID (blk_meta b) = id) (db_blocks db).

(** The first loop: the directories that cannot be read and the blocks to delete. *)
Definition scan_dir (db : DB) (st : list U * gset U) (e : U * F) : list U * gset U :=
  let '(corrupted, deleteable) := st in
  match de_meta (snd e) with
  | None => (corrupted ++ [fst e], deleteable)
  | Some m =>
      if beyondRetention db m then (corrupted, {[bm_ULID m]} ∪ deleteable)
      else (corrupted, list_to_set (bd_ULID <$> cp_Parents (bm_Compaction m)) ∪ deleteable)
  end.

(** The second loop: the blocks, those in memory as they are, the others opened. *)
Fixpoint load_blocks (db : DB) (deleteable : gset U) (es : list (U * F)) : res (list Block) :=
  match es with
  | [] => Ok []
  | e :: es =>
      match de_meta (snd e) with
      | None => Err (ErrMsg "read meta information")
      | Some m =>
          if decide (bm_ULID m ∈ deleteable) then load_blocks db deleteable es
          else
            let? b := match getBlock db (bm_ULID m) with
                      | Some b => Ok b
                      | None => let? data := de_data (snd e) in Ok (mkBlock m data)
                      end in
            let? bs := load_blocks db deleteable es in
            Ok (b :: bs)
      end
  end.

Definition blk_min (b : Block) : Z := bm_MinTime (blk_meta b).

(** What [reload] finds: the blocks in order and the directories to delete.  Blocks
    that begin at the same time may come in any order, but then they overlap. *)
Definition reload_plan (db : DB) : res (list Block * gset U) :=
  let dirs := blockDirs (db_disk db) in
  let '(corrupted, deleteable) := foldl (scan_dir db) ([], ∅) dirs in
  if existsb (fun c => bool_decide (c ∉ deleteable)) corrupted then Err (ErrMsg "unexpected corrupted block")
  else
    let? blocks := load_blocks db deleteable dirs in
    let blocks := sort_by blk_min Z.compare blocks in
    let? _ := validateBlockSequence (blk_meta <$> blocks) in
    Ok (blocks, deleteable).

(** The directories named by the identifiers are removed. *)
Definition remove_dirs (us : gset U) (d : disk) : disk := filter (fun e => fst e ∉ us) d.

Definition reload (db : DB) : res (DB * option error) :=
  match reload_plan db with
  | Panic => Panic
  | Err e => Ok (db, Some e)
  | Ok (blocks, deleteable) =>
      let db := with_disk (with_blocks db blocks) (remove_dirs deleteable (db_disk db)) in
      match last blocks with
      | None => Ok (db, None)
      | Some b => let '(h, e) := hd_Truncate (db_head db) (bm_MaxTime (blk_meta b)) in Ok (with_head db h, e)
      end
  end.

(** ** Compacting *)

(** [BlockReader]: the head bounded to a range, or a block. *)
Inductive BlockReader := RangeHead (h : H) (mint maxt : Z) | OnDisk (b : Block).

(** [Compactor]: its operations on the directory.  [Write] takes a reader and the
    parent's metadata. *)
Record Compactor := mkCompactor {
  c_Plan : disk -> res (list U);
  c_Write : disk -> BlockReader -> Z -> Z -> option BlockMeta -> disk * res U;
  c_Compact : disk -> list U -> disk * res U;
}.

(** How a loop of [compact] ends: with a break, or [compact] returns from inside it. *)
Inductive loop_end := Broke | Return (err : option error).

(** The head has no compactable range: one and a half ranges at most. *)
Definition head_small (r0 : Z) (db : DB) : bool :=
  i64 (hd_MaxTime (db_head db) - hd_MinTime (db_head db)) <=? i64 (Z.quot r0 2 * 3).

(** A range of the head is written as a block. *)
Definition write_head (c : Compactor) (r0 : Z) (db : DB) : res (DB * option error) :=
  let? (mint, maxt) := rangeForTimestamp (hd_MinTime (db_head db)) r0 in
  let '(d, r) := c_Write c (db_disk db) (RangeHead (db_head db) mint (i64 (maxt - 1))) mint maxt None in
  match r with
  | Panic => Panic
  | Err e => Ok (with_disk db d, Some e)
  | Ok _ => Ok (with_disk db d, None)
  end.

(** The blocks of a plan are merged. *)
Definition merge_blocks (c : Compactor) (plan : list U) (db : DB) : res (DB * option error) :=
  let '(d, r) := c_Compact c (db_disk db) plan in
  match r with
  | Panic => Panic
  | Err e => Ok (with_disk db d, Some e)
  | Ok _ => Ok (with_disk db d, None)
  end.

(** Both are followed by a reload. *)
Definition and_reload (r : res (DB * option error)) : res (DB * option error) :=
  let? (db, e) := r in
  match e with Some e => Ok (db, Some e) | None => reload db end.

(** The first loop of [compact]: while the head holds more than one and a half
    ranges, a range of it becomes a block.  [stopc n] is what the [select] of round [n]
    finds: whether the database is being closed. *)
Fixpoint compact_head (fuel : nat) (c : Compactor) (stopc : nat -> bool) (db : DB) : res (DB * loop_end) :=
  match fuel with
  | O => Err out_of_fuel
  | S fuel =>
      if stopc O then Ok (db, Return None)
      else
        let? r0 := index (o_BlockRanges (db_opts db)) 0 in
        if head_small r0 db then Ok (db, Broke)
        else
          let? (db, e) := and_reload (write_head c r0 db) in
          match e with
          | Some e => Ok (db, Return (Some e))
          | None => compact_head fuel c (fun n => stopc (S n)) db
          end
  end.

(** The second loop: as long as there is something to compact. *)
Fixpoint compact_blocks (fuel : nat) (c : Compactor) (stopc : nat -> bool) (db : DB) : res (DB * loop_end) :=
  match fuel with
  | O => Err out_of_fuel
  | S fuel =>
      match c_Plan c (db_disk db) with
      | Panic => Panic
      | Err e => Ok (db, Return (Some e))
      | Ok [] => Ok (db, Broke)
      | Ok p =>
          if stopc O then Ok (db, Return None)
          else
            let? (db, e) := and_reload (merge_blocks c p db) in
            match e with
            | Some e => Ok (db, Return (Some e))
            | None => compact_blocks fuel c (fun n => stopc (S n)) db
            end
      end
  end.

(** [compact] when nobody else uses the database meanwhile; [stop1] and [stop2] are what
    its two loops find in [stopc]. *)
Definition compact (fuel : nat) (c : Compactor) (stop1 stop2 : nat -> bool) (db : DB) : res (DB * option error) :=
  if negb (db_compactionsEnabled db) then Ok (db, None)
  else
    let? (db, l) := compact_head fuel c stop1 db in
    match l with
    | Return e => Ok (db, e)
    | Broke =>
        let? (db, l) := compact_blocks fuel c stop2 db in
        Ok (db, match l with Return e => e | Broke => None end)
    end.

(** [compact] in steps, between which others use the database: where it is, and the step
    from there, which finds [stopc] closed or not. *)
Inductive compact_at :=
| AtHeadStop | AtHeadWrite | AtHeadReload
| AtPlan | AtBlocksStop (plan : list U) | AtBlocksReload
| AtReturn (err : option error).

Definition on_error (e : option error) (next : compact_at) : compact_at :=
  match e with Some e => AtReturn (Some e) | None => next end.

Definition compact_step (c : Compactor) (stopc : bool) (p : compact_at) (db : DB) : res (compact_at * DB) :=
  match p with
  | AtHeadStop => Ok (if stopc then AtReturn None else AtHeadWrite, db)
  | AtHeadWrite =>
      let? r0 := index (o_BlockRanges (db_opts db)) 0 in
      if head_small r0 db then Ok (AtPlan, db)
      else let? (db, e) := write_head c r0 db in Ok (on_error e AtHeadReload, db)
  | AtHeadReload => let? (db, e) := reload db in Ok (on_error e AtHeadStop, db)
  | AtPlan =>
      match c_Plan c (db_disk db) with
      | Panic => Panic
      | Err e => Ok (AtReturn (Some e), db)
      | Ok [] => Ok (AtReturn None, db)
      | Ok plan => Ok (AtBlocksStop plan, db)
      end
  | AtBlocksStop plan =>
      if stopc then Ok (AtReturn None, db)
      else let? (db, e) := merge_blocks c plan db in Ok (on_error e AtBlocksReload, db)
  | AtBlocksReload => let? (db, e) := reload db in Ok (on_error e AtPlan, db)
  | AtReturn e => Ok (AtReturn e, db)
  end.

(** After a commit: is a compaction triggered? *)
Definition commit_triggers (chunkRange : Z) (h : H) : bool :=
  i64 (Z.quot chunkRange 2 * 3) <? i64 (hd_MaxTime h - hd_MinTime h).

(** ** Deleting *)

(** [numStones] counts the intervals of a block's tombstones. *)
Definition block_CleanTombstones (c : Compactor) (numStones : D -> nat) (d : disk) (b : Block) : disk * res (option U) :=
  if (numStones (blk_data b) =? 0)%nat then (d, Ok None)
  else
    let '(d, r) := c_Write c d (OnDisk b) (bm_MinTime (blk_meta b)) (bm_MaxTime (blk_meta b)) (Some (blk_meta b)) in
    (d, res_map Some r).

Fixpoint clean_blocks (c : Compactor) (numStones : D -> nat) (d : disk) (bs : list Block) (newUIDs : list U) :
    disk * list U * res unit :=
  match bs with
  | [] => (d, newUIDs, Ok ())
  | b :: bs =>
      let '(d, r) := block_CleanTombstones c numStones d b in
      match r with
      | Ok uid => clean_blocks c numStones d bs (newUIDs ++ match uid with Some u => [u] | None => [] end)
      | Err e => (d, newUIDs, Err e)
      | Panic => (d, newUIDs, Panic)
      end
  end.

(** [CleanTombstones]: on an error the new directories are removed. *)
Definition CleanTombstones (c : Compactor) (numStones : D -> nat) (db : DB) : res (DB * option error) :=
  let '(d, newUIDs, r) := clean_blocks c numStones (db_disk db) (db_blocks db) [] in
  let db := with_disk db d in
  let undo (db : DB) (e : error) := Ok (with_disk db (remove_dirs (list_to_set newUIDs) (db_disk db)), Some e) in
  match r with
  | Panic => Panic
  | Err e => undo db e
  | Ok _ =>
      let? (db, e) := reload db in
      match e with Some e => undo db e | None => Ok (db, None) end
  end.

(** [Delete]: every block that overlaps the range and the head, each on its own;
    the error is one of theirs. *)
Definition db_Delete (blockDelete : Block -> Block * option error) (headDelete : H -> H * option error)
    (db : DB) (mint maxt : Z) : DB * option error :=
  let rs := map (fun b => if bm_Overlaps (blk_meta b) mint maxt then blockDelete b else (b, None)) (db_blocks db) in
  let '(h, e) := headDelete (db_head db) in
  (with_head (with_blocks db rs.*1) h,
   foldr (fun r o => match snd r with Some e => Some e | None => o end) e rs).

(** ** Queries *)

(** [Querier]: the readers it takes, the blocks that overlap the range and the head. *)
Definition query_readers (db : DB) (mint maxt : Z) : list (Block + H) :=
  (inl <$> filter (fun b => bm_Overlaps (blk_meta b) mint maxt = true) (db_blocks db)) ++
  (if hd_MinTime (db_head db) <=? maxt then [inr (db_head db)] else []).

(** [NewBlockQuerier] on each; the first error ends it. *)
Fixpoint open_queriers {Q} (open : Block + H -> res Q) (rs : list (Block + H)) : res (list Q) :=
  match rs with
  | [] => Ok []
  | r :: rs => let? q := open r in let? qs := open_queriers open rs in Ok (q :: qs)
  end.
End DB.

Example overlaps_example :
  size (OverlappingBlocks [example_meta 1 0 10; example_meta 2 10 20]) = 0%nat /\
  map (map bm_ULID) (map_to_list (OverlappingBlocks [example_meta 1 0 10; example_meta 2 5 20; example_meta 3 20 30; example_meta 4 25 26])).*2 =
    [[1; 2]; [3; 4]].
Proof. by vm_compute. Qed.
