(* ===== verification/DbSpec.v ===== *)
(** The blocks of the database: overlaps are found, reloading gives the blocks that
    are not obsolete wherever a crash left the directory, and compacting the head
    ends. *)
From S2P Require Import Prelude Order Tombstones Chunks MemPostings MemSeries Head Plan PlanSpec Db.
#[local] Open Scope list_scope.
#[local] Open Scope Z_scope.

Section Overlaps.
Context {U : Type}.
Abbreviation BlockMeta := (BlockMeta U).
Implicit Types (b : BlockMeta) (l g : list BlockMeta) (gs : list (list BlockMeta)).

Definition by_min l : Prop := StronglySorted (fun a b => bm_MinTime a <= bm_MinTime b) l.

(** The blocks of a group share a time. *)
Definition share l g : Prop := exists t, Forall (fun a => a ∈ l /\ bm_MinTime a <= t < bm_MaxTime a) g.

(** A group ends before the next one does. *)
Definition before g g' : Prop :=
  exists a c, a ∈ g /\ c ∈ g' /\ bm_MaxTime a <= bm_MinTime c /\ Forall (fun c' => bm_MaxTime a < bm_MaxTime c') g'.

(** The sweep after the blocks [l ++ [x]]. *)
Record swept l x (s : sweep (U := U)) : Prop := {
  sp_pending : sw_pending s = filter (fun p => bm_MinTime x < bm_MaxTime p) (l ++ [x]);
  sp_pairs i j a b : (i < j)%nat -> (l ++ [x]) !! i = Some a -> (l ++ [x]) !! j = Some b -> bm_MinTime b < bm_MaxTime a ->
    exists g, g ∈ sw_overlaps s /\ a ∈ g /\ b ∈ g;
  sp_share : Forall (share (l ++ [x])) (sw_overlaps s);
  sp_before : StronglySorted before (sw_overlaps s);
  sp_last gs g : sw_overlaps s = gs ++ [g] ->
    if sw_continuous s then g = sw_pending s else exists a, a ∈ g /\ bm_MaxTime a <= bm_MinTime x;
}.

Lemma extend_last_snoc gs g b : extend_last (gs ++ [g]) b = gs ++ [g ++ [b]].
Proof.
  unfold extend_last. rewrite length_app. cbn [length]. replace (length gs + 1 - 1)%nat with (length gs + 0)%nat by lia.
  by rewrite alter_app_r.
Qed.

Lemma filter_iff_in {A} (P Q : A -> Prop) `{!forall x, Decision (P x), !forall x, Decision (Q x)} (l : list A) :
  Forall (fun x => P x <-> Q x) l -> filter P l = filter Q l.
Proof. induction 1 as [|x l Hx _ IH]; [done|]. rewrite !filter_cons, IH. do 2 case_decide; tauto. Qed.

Lemma filter_length_all {A} (P : A -> Prop) `{!forall x, Decision (P x)} (l : list A) :
  length (filter P l) = length l -> filter P l = l.
Proof.
  induction l as [|x l IH]; [done|]. rewrite filter_cons. case_decide as Hx; cbn.
  - intros [= E]. by rewrite IH.
  - intros E. pose proof (length_filter P l). lia.
Qed.

Lemma share_weaken l l' g : (forall a, a ∈ l -> a ∈ l') -> share l g -> share l' g.
Proof. intros Hl [t Ht]. exists t. eapply Forall_impl; [exact Ht|]. intros a [Ha ?]. by split; [apply Hl|]. Qed.

Lemma by_min_last l x a : by_min (l ++ [x]) -> a ∈ l ++ [x] -> bm_MinTime a <= bm_MinTime x.
Proof.
  intros Hs [Ha|Ha]%elem_of_app; [|apply list_elem_of_singleton in Ha as ->; lia].
  apply (StronglySorted_app_1_elem_of _ _ _ _ _ Hs Ha). left.
Qed.

Section Step.
Context (l : list BlockMeta) (x b : BlockMeta) (s : sweep (U := U)).
Context (Hok : Forall meta_ok (l ++ [x; b])) (Hs : by_min (l ++ [x; b])) (Hsw : swept l x s).

Lemma step_min : bm_MinTime x <= bm_MinTime b.
Proof using Hs.
  change [x; b] with ([x] ++ [b]) in Hs. rewrite (assoc_L (++)) in Hs. apply (by_min_last (l ++ [x])); [done|].
  apply elem_of_app. left. apply elem_of_app. right. left.
Qed.

Lemma step_ok : bm_MinTime b < bm_MaxTime b.
Proof using Hok. apply Forall_app in Hok as [_ (_ & (_ & _ & ?)%Forall_inv)%Forall_cons]. done. Qed.

(** What is still pending at [b]. *)
Lemma step_pending :
  filter (fun p => bm_MinTime b < bm_MaxTime p) (sw_pending s) = filter (fun p => bm_MinTime b < bm_MaxTime p) (l ++ [x]).
Proof using Hs Hsw.
  rewrite (sp_pending _ _ _ Hsw), list_filter_filter. apply list_filter_iff. intros p. pose proof step_min. lia.
Qed.

Lemma step_shares : share ((l ++ [x]) ++ [b]) (filter (fun p => bm_MinTime b < bm_MaxTime p) (l ++ [x]) ++ [b]).
Proof using Hok Hs.
  exists (bm_MinTime b). apply Forall_app. split.
  - apply Forall_forall. intros a [Hlt Ha]%list_elem_of_filter. split; [by apply elem_of_app; left|]. split; [|done].
    apply (by_min_last (l ++ [x])); [|by apply elem_of_app; left]. rewrite <- (assoc_L (++)). exact Hs.
  - constructor; [|constructor]. split; [by apply elem_of_app; right; left|]. pose proof step_ok. lia.
Qed.

(** The pairs with [b]. *)
Lemma step_pairs gs :
  (forall i j a c, (i < j)%nat -> (l ++ [x]) !! i = Some a -> (l ++ [x]) !! j = Some c -> bm_MinTime c < bm_MaxTime a ->
     exists g, g ∈ gs /\ a ∈ g /\ c ∈ g) ->
  (forall a, a ∈ l ++ [x] -> bm_MinTime b < bm_MaxTime a -> exists g, g ∈ gs /\ a ∈ g /\ b ∈ g) ->
  forall i j a c, (i < j)%nat -> ((l ++ [x]) ++ [b]) !! i = Some a -> ((l ++ [x]) ++ [b]) !! j = Some c -> bm_MinTime c < bm_MaxTime a ->
    exists g, g ∈ gs /\ a ∈ g /\ c ∈ g.
Proof using Type.
  intros Hold Hnew i j a c Hij Hi Hj Hlt. pose proof (lookup_lt_Some _ _ _ Hj) as Hlen. rewrite length_app in Hlen. cbn in Hlen.
  rewrite lookup_app_l in Hi by lia. destruct (decide (j < length (l ++ [x]))%nat) as [Hjl|Hjl].
  - rewrite lookup_app_l in Hj by lia. exact (Hold i j a c Hij Hi Hj Hlt).
  - rewrite lookup_app_r in Hj by lia. replace (j - length (l ++ [x]))%nat with 0%nat in Hj by lia. injection Hj as <-.
    apply Hnew; [by eapply list_elem_of_lookup_2|done].
Qed.

Lemma step_old_min a : a ∈ l ++ [x] -> bm_MinTime a <= bm_MinTime b.
Proof using Hs.
  intros Ha. pose proof step_min. cut (bm_MinTime a <= bm_MinTime x); [lia|]. apply (by_min_last l); [|done].
  change [x; b] with ([x] ++ [b]) in Hs. rewrite (assoc_L (++)) in Hs. by apply StronglySorted_app_1_l in Hs.
Qed.

Lemma step_x_pending : x ∈ sw_pending s.
Proof using Hok Hsw.
  rewrite (sp_pending _ _ _ Hsw). apply list_elem_of_filter. split; [|apply elem_of_app; right; left].
  apply Forall_app in Hok as [_ (_ & _ & ?)%Forall_inv]. done.
Qed.

(** A group that was complete, or some of whose blocks has just ended. *)
Lemma step_ended gs g : sw_overlaps s = gs ++ [g] ->
  sw_continuous s && (length (filter (fun p => (bm_MinTime b < bm_MaxTime p)%Z) (sw_pending s)) =? length (sw_pending s))%nat = false ->
  exists a, a ∈ g /\ bm_MaxTime a <= bm_MinTime b.
Proof using Hs Hsw.
  intros E Hc. pose proof (sp_last _ _ _ Hsw gs g E) as Hl. destruct (sw_continuous s).
  - subst g. cbn [andb] in Hc. apply Nat.eqb_neq in Hc.
    destruct (decide (Exists (fun p => bm_MaxTime p <= bm_MinTime b) (sw_pending s))) as [(a & Ha & Hle)%Exists_exists|Hn].
    + by exists a.
    + exfalso. apply Hc. f_equal. apply filter_all. apply not_Exists_Forall in Hn; [|apply _].
      eapply Forall_impl; [exact Hn|]. cbn. intros a. lia.
  - destruct Hl as (a & Ha & Hle). exists a. split; [done|]. pose proof step_min. lia.
Qed.

Lemma step_swept : swept (l ++ [x]) b (sweep_step s b).
Proof using Hok Hs Hsw.
  assert (Hsub : forall a, a ∈ l ++ [x] -> a ∈ (l ++ [x]) ++ [b]) by (intros; apply elem_of_app; by left).
  assert (Hpend : filter (fun p => bm_MinTime b < bm_MaxTime p) ((l ++ [x]) ++ [b]) = filter (fun p => bm_MinTime b < bm_MaxTime p) (l ++ [x]) ++ [b]).
  { rewrite filter_app. f_equal. rewrite filter_cons, decide_True; [done|apply step_ok]. }
  pose proof step_ended as Hend. pose proof step_shares as Hsh. pose proof step_pending as Hnew.
  assert (Hin : forall a, a ∈ l ++ [x] -> bm_MinTime b < bm_MaxTime a -> a ∈ filter (fun p => bm_MinTime b < bm_MaxTime p) (l ++ [x]))
    by (intros; by apply list_elem_of_filter).
  unfold sweep_step. rewrite Hnew in *. set (np := filter _ (l ++ [x])) in *.
  set (cont := sw_continuous s && _) in *. destruct (Nat.eqb_spec (length np) 0) as [E0|E0].
  - apply length_zero_iff_nil in E0. split; cbn [sw_pending sw_overlaps sw_continuous].
    + by rewrite Hpend.
    + apply step_pairs; [apply (sp_pairs _ _ _ Hsw)|]. intros a Ha Hlt. specialize (Hin a Ha Hlt). rewrite E0 in Hin. by apply not_elem_of_nil in Hin.
    + eapply Forall_impl; [apply (sp_share _ _ _ Hsw)|]. intros g. by apply share_weaken.
    + apply (sp_before _ _ _ Hsw).
    + intros gs g E. assert (cont = false) as Ec.
      { unfold cont. rewrite E0. apply andb_false_iff. right. apply Nat.eqb_neq. pose proof step_x_pending as Hx.
        destruct (sw_pending s); [by apply not_elem_of_nil in Hx|done]. }
      rewrite Ec. by apply (Hend gs).
  - destruct (cont && (0 <? length (sw_overlaps s))%nat) eqn:Ecc.
    + apply andb_true_iff in Ecc as [Ec Hlen]. apply Nat.ltb_lt in Hlen.
      destruct (exists_last (l := sw_overlaps s)) as (gs & g & E); [by destruct (sw_overlaps s); [cbn in Hlen; lia|]|].
      pose proof (sp_last _ _ _ Hsw gs g E) as Hl. pose proof Ec as Ec'. unfold cont in Ec'. apply andb_true_iff in Ec' as [Econt Elen].
      rewrite Econt in Hl. subst g. apply Nat.eqb_eq in Elen.
      assert (Enp : np = sw_pending s). { rewrite <- Hnew in Elen |- *. by apply filter_length_all. }
      rewrite E, extend_last_snoc, <- Enp. rewrite <- Enp in E. split; cbn [sw_pending sw_overlaps sw_continuous].
      * by rewrite Hpend.
      * apply step_pairs.
        -- intros i j a c Hij Hi Hj Hlt. destruct (sp_pairs _ _ _ Hsw i j a c Hij Hi Hj Hlt) as (g & Hg & Hag & Hcg).
           rewrite E in Hg. apply elem_of_app in Hg as [Hg|Hg]; [exists g; split; [apply elem_of_app; by left|done]|].
           apply list_elem_of_singleton in Hg as ->. exists (np ++ [b]). split; [apply elem_of_app; right; left|].
           split; apply elem_of_app; by left.
        -- intros a Ha Hlt. exists (np ++ [b]). split; [apply elem_of_app; right; left|].
           split; apply elem_of_app; [left; by apply Hin|right; left].
      * pose proof (sp_share _ _ _ Hsw) as Hshare. rewrite E in Hshare. apply Forall_app in Hshare as [Hshare _].
        apply Forall_app. split; [|by constructor]. eapply Forall_impl; [exact Hshare|]. intros g. by apply share_weaken.
      * pose proof (sp_before _ _ _ Hsw) as Hb. rewrite E in Hb. apply StronglySorted_app in Hb as (Hb & Hb1 & _).
        apply StronglySorted_app. split; [|split; [done|repeat constructor]]. intros h g' Hh Hg'%list_elem_of_singleton. subst g'.
        destruct (Hb h np Hh ltac:(left)) as (a & c & Ha & Hc & Hle & Hall).
        exists a, c. split; [done|]. split; [apply elem_of_app; by left|]. split; [done|]. apply Forall_app. split; [done|].
        constructor; [|constructor]. pose proof step_ok. pose proof (proj1 (list_elem_of_filter _ _ _) Hc) as [_ Hcl].
        pose proof (step_old_min c Hcl). lia.
      * intros gs' g' E'. rewrite Ec. by apply app_inj_tail in E' as [_ <-].
    + split; cbn [sw_pending sw_overlaps sw_continuous].
      * by rewrite Hpend.
      * apply step_pairs.
        -- intros i j a c Hij Hi Hj Hlt. destruct (sp_pairs _ _ _ Hsw i j a c Hij Hi Hj Hlt) as (g & Hg & Hag).
           exists g. split; [apply elem_of_app; by left|done].
        -- intros a Ha Hlt. exists (np ++ [b]). split; [apply elem_of_app; right; left|].
           split; apply elem_of_app; [left; by apply Hin|right; left].
      * apply Forall_app. split; [|by constructor]. eapply Forall_impl; [apply (sp_share _ _ _ Hsw)|]. intros g. by apply share_weaken.
      * apply StronglySorted_app. split; [|split; [apply (sp_before _ _ _ Hsw)|repeat constructor]].
        intros h g' Hh Hg'%list_elem_of_singleton. subst g'.
        destruct (exists_last (l := sw_overlaps s)) as (gs & g & E); [by intros E; rewrite E in Hh; apply not_elem_of_nil in Hh|].
        assert (Ec : cont = false).
        { apply andb_false_iff in Ecc as [?|Hlen]; [done|]. apply Nat.ltb_ge in Hlen. rewrite E, length_app in Hlen. cbn in Hlen. lia. }
        destruct (Hend gs g E Ec) as (a & Ha & Hle).
        assert (Hnp : Forall (fun c' => bm_MinTime b < bm_MaxTime c') (np ++ [b])).
        { apply Forall_app. split; [|by constructor; [apply step_ok|]]. apply Forall_forall. intros c [Hc _]%list_elem_of_filter. done. }
        rewrite E in Hh. apply elem_of_app in Hh as [Hh|Hh].
        -- pose proof (sp_before _ _ _ Hsw) as Hb. rewrite E in Hb.
           destruct (StronglySorted_app_1_elem_of _ _ _ _ _ Hb Hh ltac:(left)) as (a' & c & Ha' & Hc & Hle' & Hall).
           rewrite Forall_forall in Hall. specialize (Hall a Ha). exists a', b. split; [done|]. split; [apply elem_of_app; right; left|].
           split; [cbn in Hall; lia|]. eapply Forall_impl; [exact Hnp|]. cbn. intros c' ?. cbn in Hall. lia.
        -- apply list_elem_of_singleton in Hh as ->. exists a, b. split; [done|]. split; [apply elem_of_app; right; left|].
           split; [done|]. eapply Forall_impl; [exact Hnp|]. cbn. intros c' ?. lia.
      * intros gs g E. by apply app_inj_tail in E as [_ <-].
Qed.
End Step.

Lemma sweep_start x : meta_ok x -> swept [] x (mkSweep [] [x] true).
Proof.
  intros (_ & _ & Hx). split; cbn [sw_pending sw_overlaps sw_continuous app].
  - by rewrite filter_cons, decide_True.
  - intros i j a b Hij Hi Hj. destruct j as [|j]; [lia|done].
  - constructor.
  - constructor.
  - intros gs g E. by destruct gs.
Qed.

Lemma sweep_all bs l x s :
  Forall meta_ok (l ++ x :: bs) -> by_min (l ++ x :: bs) -> swept l x s ->
  exists l' x', l ++ x :: bs = l' ++ [x'] /\ swept l' x' (foldl sweep_step s bs).
Proof.
  revert l x s. induction bs as [|b bs IH]; intros l x s Hok Hs Hsw; [by exists l, x|]. cbn [foldl].
  assert (Hsplit : l ++ x :: b :: bs = (l ++ [x; b]) ++ bs) by by rewrite <- (assoc_L (++)).
  destruct (IH (l ++ [x]) b (sweep_step s b)) as (l' & x' & E & Hsw').
  - by rewrite <- (assoc_L (++)).
  - by rewrite <- (assoc_L (++)).
  - rewrite Hsplit in Hok, Hs. apply Forall_app in Hok as [Hok _]. apply StronglySorted_app_1_l in Hs. by apply step_swept.
  - exists l', x'. split; [|done]. rewrite <- E. by rewrite <- (assoc_L (++)).
Qed.

(** ** The groups by their ranges *)

Lemma group_range_snd g r :
  snd (foldl (fun r b => (if fst r <? bm_MinTime b then bm_MinTime b else fst r,
                          if bm_MaxTime b <? snd r then bm_MaxTime b else snd r)) r g) =
  foldr (fun b m => Z.min m (bm_MaxTime b)) (snd r) (rev g).
Proof.
  revert r. induction g as [|b g IH]; intros r; [done|]. cbn [foldl rev]. rewrite IH, foldr_app. cbn [snd foldr]. f_equal.
  destruct (Z.ltb_spec (bm_MaxTime b) (snd r)); lia.
Qed.

Lemma min_bounds g m k :
  (forall a, a ∈ g -> foldr (fun b m => Z.min m (bm_MaxTime b)) m g <= bm_MaxTime a) /\
  (k < m -> Forall (fun a => k < bm_MaxTime a) g -> k < foldr (fun b m => Z.min m (bm_MaxTime b)) m g).
Proof.
  induction g as [|b g [IH1 IH2]]; cbn [foldr]; split; try done.
  - by intros a ?%not_elem_of_nil.
  - intros a [->|Ha]%elem_of_cons; [lia|]. specialize (IH1 a Ha). lia.
  - intros Hk Hf. pose proof (Forall_inv Hf). specialize (IH2 Hk (Forall_inv_tail Hf)). cbn in *. lia.
Qed.

Lemma before_ranges g g' : Forall meta_ok g' -> before g g' -> snd (group_range g) < snd (group_range g').
Proof.
  intros Hok (a & c & Ha & Hc & _ & Hall). unfold group_range. rewrite !group_range_snd. cbn [snd].
  destruct (min_bounds (rev g) MaxInt64 0) as [H1 _]. destruct (min_bounds (rev g') MaxInt64 (bm_MaxTime a)) as [_ H2].
  specialize (H1 a). rewrite list_elem_of_In, <- in_rev, <- list_elem_of_In in H1. specialize (H1 Ha).
  rewrite Forall_forall in Hok, Hall. destruct (Hok c Hc) as (_ & Hsm & _). pose proof (Hall c Hc) as Hac. cbn in Hac.
  unfold small_time in Hsm. cut (bm_MaxTime a < foldr (fun b m => Z.min m (bm_MaxTime b)) MaxInt64 (rev g')); [lia|].
  apply H2; [unfold MaxInt64; lia|]. apply Forall_forall. intros x. rewrite list_elem_of_In, <- in_rev, <- list_elem_of_In. apply Hall.
Qed.

Lemma insert_groups {K V} `{Countable K} (k : V -> K) (gs : list V) (m : gmap K V) :
  (forall key v, foldl (fun m (v : V) => <[k v := v]> m) m gs !! key = Some v -> m !! key = Some v \/ v ∈ gs /\ key = k v) /\
  (NoDup (k <$> gs) -> forall v, v ∈ gs -> foldl (fun m (v : V) => <[k v := v]> m) m gs !! k v = Some v) /\
  (forall key, key ∉ k <$> gs -> foldl (fun m (v : V) => <[k v := v]> m) m gs !! key = m !! key).
Proof.
  revert m. induction gs as [|g0 gs IH]; intros m; cbn [foldl].
  { split; [by left|]. split; [by intros _ v ?%not_elem_of_nil|done]. }
  destruct (IH (<[k g0 := g0]> m)) as (H1 & H2 & H3). split; [|split].
  - intros key v Hv. destruct (H1 key v Hv) as [Hv'|[Hv' ->]]; [|right; split; [by right|done]].
    apply lookup_insert_Some in Hv' as [[<- <-]|[_ Hv']]; [right; split; [left|done]|by left].
  - intros [Hg Hnd]%NoDup_cons v [->|Hv]%elem_of_cons; [rewrite H3 by done; apply lookup_insert_eq|by apply H2].
  - intros key [Hne Hk]%not_elem_of_cons. rewrite H3 by done. by apply lookup_insert_ne.
Qed.

Lemma groups_distinct gs : Forall (Forall meta_ok) gs -> StronglySorted before gs -> NoDup (group_range <$> gs).
Proof.
  intros Hok. induction 1 as [|g gs _ IH Hg]; cbn; [constructor|]. apply Forall_cons in Hok as [_ Hok].
  constructor; [|by apply IH]. intros (g' & E & Hg')%list_elem_of_fmap. rewrite Forall_forall in Hg, Hok.
  pose proof (before_ranges g g' (Hok g' Hg') (Hg g' Hg')) as Hlt. rewrite E in Hlt. lia.
Qed.

(** Blocks in sequence give no groups. *)
Lemma sweep_none bs l x s :
  in_sequence (l ++ x :: bs) -> swept l x s -> sw_overlaps (foldl sweep_step s bs) = sw_overlaps s.
Proof.
  revert l x s. induction bs as [|b bs IH]; intros l x s Hq Hsw; [done|]. cbn [foldl].
  assert (Hsplit : l ++ x :: b :: bs = (l ++ [x; b]) ++ bs) by by rewrite <- (assoc_L (++)).
  pose proof Hq as Hq2. rewrite Hsplit in Hq2. apply in_sequence_app in Hq2 as ([Hok Hss] & _ & _).
  assert (Hs : by_min (l ++ [x; b])).
  { clear -Hok Hss. induction Hss as [|a l' _ IH Ha]; constructor; [apply IH; by apply Forall_inv_tail in Hok|].
    pose proof (Forall_inv Hok) as (_ & _ & ?). eapply Forall_impl; [exact Ha|]. cbn. intros c ?. lia. }
  rewrite (IH (l ++ [x]) b (sweep_step s b)).
  - unfold sweep_step. rewrite (step_pending l x b s Hs Hsw).
    assert (filter (fun p => bm_MinTime b < bm_MaxTime p) (l ++ [x]) = []) as ->; [|done]. apply filter_none.
    change [x; b] with ([x] ++ [b]) in Hss. rewrite (assoc_L (++)) in Hss. apply Forall_forall. intros a Ha.
    pose proof (StronglySorted_app_1_elem_of _ _ _ _ _ Hss Ha ltac:(left)) as Hle. cbn in Hle. lia.
  - by rewrite <- (assoc_L (++)).
  - by apply step_swept.
Qed.

Lemma by_min_sequence l :
  Forall meta_ok l -> by_min l ->
  (forall i j a b, (i < j)%nat -> l !! i = Some a -> l !! j = Some b -> bm_MaxTime a <= bm_MinTime b) -> in_sequence l.
Proof.
  intros Hok _ Hp. split; [done|]. clear Hok. induction l as [|a l IH]; constructor.
  - apply IH. intros i j b c Hij Hi Hj. apply (Hp (S i) (S j)); [lia|done|done].
  - apply Forall_forall. intros b Hb. apply list_elem_of_lookup in Hb as [j Hj]. apply (Hp 0%nat (S j)); [lia|done|done].
Qed.

Lemma OverlappingBlocks_groups l :
  Forall meta_ok l -> by_min l ->
  (forall r g, OverlappingBlocks l !! r = Some g -> g ∈ overlap_groups l /\ share l g) /\
  (forall i j a b, (i < j)%nat -> l !! i = Some a -> l !! j = Some b -> bm_MinTime b < bm_MaxTime a ->
     exists r g, OverlappingBlocks l !! r = Some g /\ a ∈ g /\ b ∈ g).
Proof.
  intros Hok Hs. unfold OverlappingBlocks. destruct (Nat.leb_spec (length l) 1) as [Hl|Hl].
  { split; [intros r g Hg; by rewrite lookup_empty in Hg|]. intros i j a b Hij _ Hj%lookup_lt_Some. lia. }
  destruct l as [|x bs]; [cbn in Hl; lia|]. cbn [overlap_groups].
  destruct (sweep_all bs [] x _ Hok Hs (sweep_start x (Forall_inv Hok))) as (l' & x' & E & Hsw). cbn [app] in E.
  set (s := foldl sweep_step _ bs) in *. pose proof (sp_share _ _ _ Hsw) as Hsh. pose proof (sp_pairs _ _ _ Hsw) as Hpairs. rewrite <- E in Hsh, Hpairs.
  destruct (insert_groups group_range (sw_overlaps s) ∅) as (H1 & H2 & _).
  assert (Hnd : NoDup (group_range <$> sw_overlaps s)).
  { apply groups_distinct; [|apply (sp_before _ _ _ Hsw)]. eapply Forall_impl; [exact Hsh|]. intros g [t Ht].
    eapply Forall_impl; [exact Ht|]. cbn. intros a [Ha _]. rewrite Forall_forall in Hok. by apply Hok. }
  split.
  - intros r g Hg. destruct (H1 r g Hg) as [Hg'|[Hg' _]]; [by rewrite lookup_empty in Hg'|]. split; [done|].
    rewrite Forall_forall in Hsh. by apply Hsh.
  - intros i j a b Hij Hi Hj Hlt. destruct (Hpairs i j a b Hij Hi Hj Hlt) as (g & Hg & Hag & Hbg).
    exists (group_range g), g. split; [by apply H2|done].
Qed.

Lemma OverlappingBlocks_empty l :
  Forall meta_ok l -> by_min l -> OverlappingBlocks l = ∅ <-> in_sequence l.
Proof.
  intros Hok Hs. split.
  - intros E. apply by_min_sequence; [done..|]. intros i j a b Hij Hi Hj.
    destruct (Z.le_gt_cases (bm_MaxTime a) (bm_MinTime b)) as [?|Hlt]; [done|].
    destruct (proj2 (OverlappingBlocks_groups l Hok Hs) i j a b Hij Hi Hj Hlt) as (r & g & Hg & _). rewrite E in Hg. done.
  - intros Hq. unfold OverlappingBlocks. destruct (_ <=? _)%nat; [done|]. destruct l as [|x bs]; [done|]. cbn [overlap_groups].
    by rewrite (sweep_none bs [] x _ Hq (sweep_start x (Forall_inv Hok))).
Qed.

Lemma validate_ok l : Forall meta_ok l -> by_min l -> validateBlockSequence l = Ok () <-> in_sequence l.
Proof.
  intros Hok Hs. rewrite <- (OverlappingBlocks_empty l Hok Hs). unfold validateBlockSequence, OverlappingBlocks.
  destruct (_ <=? 1)%nat; [done|]. generalize (foldl (fun m g => <[group_range g := g]> m) (∅ : gmap (Z * Z) (list BlockMeta)) (overlap_groups l)). intros m.
  destruct (Nat.ltb_spec 0 (size m)) as [Hm|Hm]; split; try done.
  - intros ->. rewrite map_size_empty in Hm. lia.
  - intros _. apply map_size_empty_inv. lia.
Qed.

Lemma validate_cases l : validateBlockSequence l = Ok () \/ validateBlockSequence l = Err (ErrMsg "block time ranges overlap").
Proof. unfold validateBlockSequence. destruct (_ <=? _)%nat; [by left|]. destruct (_ <? _)%nat; [by right|by left]. Qed.
End Overlaps.

(** The blocks that overlap are found.  For blocks by their first times, two
    blocks overlap exactly when some reported group has both; nothing is reported
    exactly when the blocks are one after the other. *)
Theorem OverlappingBlocks_correct {U : Type} (bm : list (BlockMeta U)) :
  Forall meta_ok bm -> by_min bm ->
  (OverlappingBlocks bm = ∅ <-> in_sequence bm) /\
  (forall i j a b, (i < j)%nat -> bm !! i = Some a -> bm !! j = Some b ->
     bm_MinTime b < bm_MaxTime a <-> exists r g, OverlappingBlocks bm !! r = Some g /\ a ∈ g /\ b ∈ g).
Proof.
  intros Hok Hs. split; [by apply OverlappingBlocks_empty|]. destruct (OverlappingBlocks_groups bm Hok Hs) as [H1 H2].
  intros i j a b Hij Hi Hj. split; [by apply (H2 i j)|]. intros (r & g & Hg & Ha & Hb).
  destruct (H1 r g Hg) as [_ [t Ht]]. rewrite Forall_forall in Ht. destruct (Ht a Ha) as [_ ?], (Ht b Hb) as [_ ?]. lia.
Qed.

Definition example_metas : list (BlockMeta Z) := [example_meta 1 (-20) 0; example_meta 2 (-10) 20; example_meta 3 20 30; example_meta 4 25 26].

Lemma OverlappingBlocks_correct_witness :
  (OverlappingBlocks example_metas = ∅ <-> in_sequence example_metas) /\
  (forall i j a b, (i < j)%nat -> example_metas !! i = Some a -> example_metas !! j = Some b ->
     bm_MinTime b < bm_MaxTime a <-> exists r g, OverlappingBlocks example_metas !! r = Some g /\ a ∈ g /\ b ∈ g).
Proof.
  apply (OverlappingBlocks_correct example_metas).
  - repeat (apply Forall_cons_2; [unfold meta_ok, small_time; cbn; lia|]). apply Forall_nil_2.
  - repeat (constructor; [|repeat (apply Forall_cons_2; [cbn; lia|]); apply Forall_nil_2]). constructor.
Defined.

(** * Reloading *)

Section Reload.
Context {F U D H : Type} `{Countable U} (Compare : U -> U -> comparison) `{!CompareLaws Compare} `{BlockDir F U D} `{DbHead H}.
Abbreviation Block := (Block U D).
Abbreviation DB := (DB (F := F) (U := U) (D := D) (H := H)).
Implicit Types (db : DB) (e : U * F) (b : Block).

(** A block is obsolete when it is beyond the retention, or the parent of a block
    that is not. *)
Definition obsolete db (u : U) : Prop :=
  exists k x m, db_disk db !! k = Some x /\ de_meta x = Some m /\
    if beyondRetention db m then u = bm_ULID m else u ∈ bd_ULID <$> cp_Parents (bm_Compaction m).

(** The block in memory for a directory: the one there is, or a new one. *)
Definition loads db e b : Prop :=
  exists m, de_meta (snd e) = Some m /\
    match getBlock db (bm_ULID m) with
    | Some b' => b = b'
    | None => exists data, de_data (snd e) = Ok data /\ b = mkBlock m data
    end.

(** Directories are named by their blocks; those that are not obsolete can be opened. *)
Definition good_disk db : Prop :=
  forall k x, db_disk db !! k = Some x ->
    exists m, de_meta x = Some m /\ bm_ULID m = k /\ (obsolete db k \/ exists b, loads db (k, x) b).

Lemma elem_of_dirs db e : e ∈ blockDirs Compare (db_disk db) <-> db_disk db !! (fst e) = Some (snd e).
Proof using Type.
  unfold blockDirs. rewrite (sort_by_perm fst Compare). destruct e as [k e]. by rewrite elem_of_map_to_list.
Qed.

Definition scan db (es : list (U * F)) := foldl (scan_dir db) ([], ∅) es.

Lemma scan_spec db es c d :
  (forall u, u ∈ fst (foldl (scan_dir db) (c, d) es) <-> u ∈ c \/ exists e, e ∈ es /\ de_meta (snd e) = None /\ u = fst e) /\
  (forall u, u ∈ snd (foldl (scan_dir db) (c, d) es) <-> u ∈ d \/ exists e m, e ∈ es /\ de_meta (snd e) = Some m /\
     if beyondRetention db m then u = bm_ULID m else u ∈ bd_ULID <$> cp_Parents (bm_Compaction m)).
Proof using Type.
  revert c d. induction es as [|e es IH]; intros c d; cbn [foldl].
  { split; intros u; (split; [by left|]); [intros [?|(e & ?%not_elem_of_nil & _)]|intros [?|(e & m & ?%not_elem_of_nil & _)]]; done. }
  assert (Estep : scan_dir db (c, d) e = match de_meta (snd e) with
    | None => (c ++ [fst e], d)
    | Some m => if beyondRetention db m then (c, {[bm_ULID m]} ∪ d)
                else (c, list_to_set (bd_ULID <$> cp_Parents (bm_Compaction m)) ∪ d) end) by done.
  rewrite Estep. clear Estep. destruct (de_meta (snd e)) as [m|] eqn:Em.
  - destruct (beyondRetention db m) eqn:Er.
    + destruct (IH c ({[bm_ULID m]} ∪ d)) as [Hc Hd]. split; intros u; [rewrite Hc|rewrite Hd].
      * split; [intros [?|(e' & ? & ?)]; [by left|right; exists e'; split; [by right|done]]|].
        intros [?|(e' & [->|?]%elem_of_cons & ? & ?)]; [by left|congruence|right; by exists e'].
      * rewrite elem_of_union, elem_of_singleton. split.
        -- intros [[->|?]|(e' & m' & ? & ?)]; [right; exists e, m; rewrite Er; split; [left|done]|by left|right; exists e', m'; split; [by right|done]].
        -- intros [?|(e' & m' & [->|?]%elem_of_cons & E & Hu)]; [left; by right| |right; by exists e', m'].
           rewrite Em in E. injection E as <-. rewrite Er in Hu. subst u. left. by left.
    + destruct (IH c (list_to_set (bd_ULID <$> cp_Parents (bm_Compaction m)) ∪ d)) as [Hc Hd]. split; intros u; [rewrite Hc|rewrite Hd].
      * split; [intros [?|(e' & ? & ?)]; [by left|right; exists e'; split; [by right|done]]|].
        intros [?|(e' & [->|?]%elem_of_cons & ? & ?)]; [by left|congruence|right; by exists e'].
      * rewrite elem_of_union, elem_of_list_to_set. split.
        -- intros [[?|?]|(e' & m' & ? & ?)]; [right; exists e, m; rewrite Er; split; [left|done]|by left|right; exists e', m'; split; [by right|done]].
        -- intros [?|(e' & m' & [->|?]%elem_of_cons & E & Hu)]; [left; by right| |right; by exists e', m'].
           rewrite Em in E. injection E as <-. rewrite Er in Hu. left. by left.
  - destruct (IH (c ++ [fst e]) d) as [Hc Hd]. split; intros u; [rewrite Hc|rewrite Hd].
    + rewrite elem_of_app, list_elem_of_singleton. split.
      * intros [[?| ->]|(e' & ? & ?)]; [by left|right; exists e; split; [left|done]|right; exists e'; split; [by right|done]].
      * intros [?|(e' & [->|?]%elem_of_cons & ? & ?)]; [left; by left|left; by right|right; by exists e'].
    + split; [intros [?|(e' & m' & ? & ?)]; [by left|right; exists e', m'; split; [by right|done]]|].
      intros [?|(e' & m' & [->|?]%elem_of_cons & ? & ?)]; [by left|congruence|right; by exists e', m'].
Qed.

Lemma scan_obsolete db u : u ∈ snd (scan db (blockDirs Compare (db_disk db))) <-> obsolete db u.
Proof using Type.
  unfold scan. rewrite (proj2 (scan_spec db _ [] ∅)). split.
  - intros [?%not_elem_of_empty|(e & m & He%elem_of_dirs & Hm & Hu)]; [done|]. by exists (fst e), (snd e), m.
  - intros (k & e & m & He & Hm & Hu). right. exists (k, e), m. split; [by apply elem_of_dirs|done].
Qed.

#[export] Instance obsolete_dec db u : Decision (obsolete db u).
Proof using Type*. refine (cast_if (decide (u ∈ snd (scan db (blockDirs Compare (db_disk db)))))); by rewrite <- scan_obsolete. Defined.

Lemma load_blocks_ok db del es :
  Forall (fun e => exists m, de_meta (snd e) = Some m /\ bm_ULID m = fst e /\ (fst e ∈ del \/ exists b, loads db e b)) es ->
  exists bs, load_blocks db del es = Ok bs /\ Forall2 (loads db) (filter (fun e => fst e ∉ del) es) bs.
Proof using Type.
  induction 1 as [|e es (m & Em & Ek & Hl) _ (bs & E & Hbs)]; cbn [load_blocks]; [by exists []|].
  rewrite Em, filter_cons, <- Ek. rewrite <- Ek in Hl. destruct (decide (bm_ULID m ∈ del)) as [Hd|Hd].
  - rewrite decide_False by (intros Hn; done). by exists bs.
  - destruct Hl as [?|[b Hb]]; [done|]. rewrite decide_True by done. pose proof Hb as (m' & Em' & Hg). rewrite Em in Em'. injection Em' as <-.
    exists (b :: bs). split; [|by constructor]. destruct (getBlock db (bm_ULID m)) as [b'|].
    + subst b'. cbn [res_bind]. by rewrite E.
    + destruct Hg as (data & -> & ->). cbn [res_bind]. by rewrite E.
Qed.

(** The blocks that are not obsolete, by their first times, and their directories. *)
Definition live db (bs : list Block) : Prop :=
  exists bs0, Forall2 (loads db) (filter (fun e => ~ obsolete db (fst e)) (blockDirs Compare (db_disk db))) bs0 /\
    bs = sort_by blk_min Z.compare bs0.
Definition live_disk db : gmap U F := filter (fun e => ~ obsolete db (fst e)) (db_disk db).

(** The database on these blocks, with the head truncated to the end of the last. *)
Definition reloaded db (bs : list Block) : DB * option error :=
  let db := with_disk (with_blocks db bs) (live_disk db) in
  match last bs with
  | None => (db, None)
  | Some b => let '(h, e) := hd_Truncate (db_head db) (bm_MaxTime (blk_meta b)) in (with_head db h, e)
  end.

Lemma reload_plan_ok db :
  good_disk db ->
  exists bs, live db bs /\ reload_plan Compare db =
    (let? _ := validateBlockSequence (blk_meta <$> bs) in Ok (bs, snd (scan db (blockDirs Compare (db_disk db))))).
Proof using Type*.
  intros Hg. unfold reload_plan. fold (scan db (blockDirs Compare (db_disk db))).
  set (es := blockDirs Compare (db_disk db)). destruct (scan db es) as [corrupted del] eqn:Es. cbn [snd].
  assert (Hdel : forall u, u ∈ del <-> obsolete db u) by (intros u; rewrite <- scan_obsolete; fold es; by rewrite Es).
  assert (Hc : corrupted = []).
  { destruct corrupted as [|c cs]; [done|]. exfalso.
    assert (Hin : c ∈ fst (scan db es)) by (rewrite Es; left). unfold scan in Hin. rewrite (proj1 (scan_spec db es [] ∅)) in Hin.
    destruct Hin as [?%not_elem_of_nil|(e & He%elem_of_dirs & Hm & _)]; [done|]. destruct (Hg _ _ He) as (m & Hm' & _). congruence. }
  subst corrupted. cbn [existsb].
  destruct (load_blocks_ok db del es) as (bs0 & -> & Hbs).
  { apply Forall_forall. intros [k x] He. apply elem_of_dirs in He. cbn in He. destruct (Hg k x He) as (m & Hm & Hk & Ho).
    exists m. split; [done|]. split; [done|]. cbn [fst]. by rewrite Hdel. }
  cbn [res_bind]. exists (sort_by blk_min Z.compare bs0). split; [|done]. exists bs0. split; [|done].
  rewrite (list_filter_iff _ (fun e => fst e ∉ del)); [exact Hbs|]. intros e. by rewrite Hdel.
Qed.

Lemma live_min bs db : live db bs -> by_min (blk_meta <$> bs).
Proof using Type.
  intros (bs0 & _ & ->). unfold by_min. pose proof (sort_by_sorted blk_min Z.compare bs0) as Hs.
  induction Hs as [|b l _ IH Hb]; cbn; constructor; [done|]. apply Forall_fmap. eapply Forall_impl; [exact Hb|].
  intros c Hc. exact Hc.
Qed.

Lemma remove_obsolete db : remove_dirs (snd (scan db (blockDirs Compare (db_disk db)))) (db_disk db) = live_disk db.
Proof using Type. unfold remove_dirs, live_disk. apply map_filter_ext. intros u x _. cbn. by rewrite scan_obsolete. Qed.

Lemma reload_ok db :
  good_disk db ->
  exists bs, live db bs /\ (Forall meta_ok (blk_meta <$> bs) ->
    (in_sequence (blk_meta <$> bs) -> reload Compare db = Ok (reloaded db bs)) /\
    (~ in_sequence (blk_meta <$> bs) -> reload Compare db = Ok (db, Some (ErrMsg "block time ranges overlap")))).
Proof using Type*.
  intros Hg. destruct (reload_plan_ok db Hg) as (bs & Hl & E). exists bs. split; [done|]. intros Hok.
  unfold reload. rewrite E. pose proof (validate_ok _ Hok (live_min bs db Hl)) as Hv. split.
  - intros Hq. rewrite (proj2 Hv Hq). cbn [res_bind]. rewrite remove_obsolete. unfold reloaded.
    change (db_head (with_disk (with_blocks db bs) (live_disk db))) with (db_head db).
    destruct (last bs) as [b|]; [|done]. by destruct (hd_Truncate (db_head db) _).
  - intros Hq. destruct (validate_cases (blk_meta <$> bs)) as [Ev|Ev]; [by destruct Hq; apply Hv|]. by rewrite Ev.
Qed.

(** ** A crash while the obsolete blocks are removed *)

Lemma blockDirs_remove (S : gset U) (d : gmap U F) :
  blockDirs Compare (remove_dirs S d) = filter (fun e => fst e ∉ S) (blockDirs Compare d).
Proof using Type*.
  unfold blockDirs at 1, remove_dirs. apply (sort_by_unique fst Compare).
  - apply StronglySorted_filter. apply (sorted_increasing fst Compare); [|apply sort_by_sorted, _].
    unfold blockDirs. rewrite sort_by_perm. apply (NoDup_fst_map_to_list d).
  - rewrite map_filter_alt, map_to_list_to_map; [|].
    + apply filter_Permutation. unfold blockDirs. by rewrite sort_by_perm.
    + eapply sublist_NoDup; [apply (NoDup_fst_map_to_list d)|]. apply fmap_sublist, sublist_filter.
Qed.

(** [S] are obsolete blocks whose parents are gone already. *)
Definition removable db (S : gset U) : Prop :=
  forall s, s ∈ S -> obsolete db s /\
    forall x m p, db_disk db !! s = Some x -> de_meta x = Some m -> p ∈ bd_ULID <$> cp_Parents (bm_Compaction m) -> db_disk db !! p = None.

Section Crash.
Context (db : DB) (S : gset U) (Hg : good_disk db) (HS : removable db S).
Let db' := with_disk db (remove_dirs S (db_disk db)).

Lemma crash_lookup k x : db_disk db' !! k = Some x <-> db_disk db !! k = Some x /\ k ∉ S.
Proof using Type. apply map_lookup_filter_Some. Qed.

Lemma crash_obsolete u x : db_disk db' !! u = Some x -> obsolete db' u <-> obsolete db u.
Proof using Hg HS.
  intros [Hu HuS]%crash_lookup. split; intros (k & y & m & Hk & Hm & Ho).
  - apply crash_lookup in Hk as [Hk _]. by exists k, y, m.
  - exists k, y, m. split; [|done]. apply crash_lookup. split; [done|]. intros HkS.
    destruct (HS k HkS) as [_ Hp]. destruct (Hg k y Hk) as (m' & Hm' & Ek & _). rewrite Hm in Hm'. injection Hm' as <-.
    destruct (beyondRetention db m); [congruence|]. specialize (Hp y m u Hk Hm Ho). congruence.
Qed.

Lemma crash_good : good_disk db'.
Proof using Hg HS.
  intros k x Hk. pose proof Hk as [Hk' HkS]%crash_lookup. destruct (Hg k x Hk') as (m & Hm & Ek & Ho).
  exists m. split; [done|]. split; [done|]. destruct Ho as [Ho|Hl]; [left; by apply (crash_obsolete k x)|by right].
Qed.

Lemma crash_live bs : live db' bs <-> live db bs.
Proof using All.
  unfold live. enough (filter (fun e => ~ obsolete db' (fst e)) (blockDirs Compare (db_disk db')) =
    filter (fun e => ~ obsolete db (fst e)) (blockDirs Compare (db_disk db))) as -> by done.
  change (db_disk db') with (remove_dirs S (db_disk db)). rewrite blockDirs_remove, list_filter_filter.
  apply filter_iff_in, Forall_forall. intros [k x] He%elem_of_dirs. cbn [fst snd] in *. split.
  - intros [Hn HkS] Ho. apply Hn. apply (crash_obsolete k x); [by apply crash_lookup|done].
  - intros Hn. assert (HkS : k ∉ S) by (intros HkS; by apply Hn, HS). split; [|done].
    intros Ho. apply Hn. apply (crash_obsolete k x); [by apply crash_lookup|done].
Qed.

Lemma crash_disk : live_disk db' = live_disk db.
Proof using Hg HS.
  apply map_eq. intros k. apply option_eq. intros x. unfold live_disk. rewrite !map_lookup_filter_Some. cbn [fst]. split.
  - intros [Hk Hn]. pose proof Hk as [Hk' HkS]%crash_lookup. split; [done|]. intros Ho. apply Hn. by apply (crash_obsolete k x).
  - intros [Hk Hn]. assert (HkS : k ∉ S) by (intros HkS; by apply Hn, HS).
    assert (Hk' : db_disk db' !! k = Some x) by by apply crash_lookup.
    split; [done|]. intros Ho. apply Hn. by apply (crash_obsolete k x).
Qed.

Lemma live_unique (d : DB) bs bs' : live d bs -> live d bs' -> bs = bs'.
Proof using Type.
  intros (b0 & Hb & ->) (b1 & Hb' & ->). f_equal. revert b0 Hb b1 Hb'.
  generalize (filter (fun e => ~ obsolete d (fst e)) (blockDirs Compare (db_disk d))). intros es. induction es as [|e es IH]; intros b0 Hb b1 Hb'.
  { apply Forall2_nil_inv_l in Hb as ->. by apply Forall2_nil_inv_l in Hb' as ->. }
  apply Forall2_cons_inv_l in Hb as (x & b0' & (m & Hm & Hx) & Hb & ->). apply Forall2_cons_inv_l in Hb' as (y & b1' & (m' & Hm' & Hy) & Hb' & ->).
  rewrite Hm in Hm'. injection Hm' as <-. f_equal; [|by apply IH].
  destruct (getBlock d (bm_ULID m)); [by subst|]. destruct Hx as (dx & Hdx & ->), Hy as (dy & Hdy & ->). congruence.
Qed.

Lemma crash_reload bs :
  live db bs -> Forall meta_ok (blk_meta <$> bs) -> in_sequence (blk_meta <$> bs) ->
  reload Compare db = Ok (reloaded db bs) /\ reload Compare db' = Ok (reloaded db bs).
Proof using All.
  intros Hl Hok Hq. destruct (reload_ok db Hg) as (bs1 & Hl1 & Hr1). destruct (reload_ok db' crash_good) as (bs2 & Hl2 & Hr2).
  pose proof (live_unique db bs bs1 Hl Hl1) as <-. apply crash_live in Hl2. pose proof (live_unique db bs bs2 Hl Hl2) as <-.
  split; [by apply (Hr1 Hok)|]. rewrite (proj1 (Hr2 Hok) Hq). f_equal. unfold reloaded. rewrite crash_disk.
  by destruct (last bs).
Qed.
End Crash.
End Reload.

(** * Compacting the head *)

(** What the database relies on from its head: truncating raises the times. *)
Class DbHeadLaws (H : Type) `{DbHead H} : Prop := {
  trunc_times (h : H) t : hd_MinTime h < MaxInt64 ->
    hd_MinTime (fst (hd_Truncate h t)) = Z.max (hd_MinTime h) t /\
    hd_MaxTime (fst (hd_Truncate h t)) = if t <=? hd_MinTime h then hd_MaxTime h else Z.max (hd_MaxTime h) t;
}.

Section HeadTimes.
Context {W : Type} `{WAL W}.
Implicit Types (h : Head W).

Definition times h : Z * Z := (h_minTime h, h_maxTime h).

Lemma gc_series_times mint hash (st : Head W * (gset Z * Z)) l : times (fst (gc_series mint hash st l)) = times (fst st).
Proof.
  destruct st as [h [del rm]]. unfold gc_series. destruct (series_at h l) as [s|]; [|done].
  destruct (truncateChunksBefore s mint) as [s' k]. by destruct (_ || _).
Qed.

Lemma series_gc_times h mint order : times (fst (series_gc h mint order)) = times h.
Proof.
  unfold series_gc. assert (Hin : forall ls hash (st : Head W * (gset Z * Z)), times (fst (foldl (gc_series mint hash) st ls)) = times (fst st)).
  { induction ls as [|l ls IH]; intros hash st; [done|]. cbn [foldl]. by rewrite IH, gc_series_times. }
  change (times h) with (times (fst (h, ((∅ : gset Z), 0)))). generalize (h, ((∅ : gset Z), 0)).
  induction order as [|hash order IH]; intros st; [done|]. cbn [foldl]. by rewrite IH, Hin.
Qed.

Lemma h_gc_times h hashes keys : times (h_gc h hashes keys) = times h.
Proof.
  unfold h_gc. pose proof (series_gc_times h (h_minTime h) hashes) as E. destruct (series_gc h _ hashes) as [h' [del rm]].
  cbn [fst] in E. destruct (foldl gc_values _ _) as [sy va]. exact E.
Qed.

#[export] Instance head_db_laws : DbHeadLaws (Head W).
Proof.
  split. intros h t Hm. cbn. unfold Truncate. rewrite (proj2 (Z.eqb_neq (h_minTime h) MaxInt64)) by (cbn in Hm; lia). cbn [negb andb].
  rewrite andb_true_r. destruct (Z.leb_spec t (h_minTime h)); cbn [fst]; [lia|].
  set (h1 := with_times h t _). pose proof (h_gc_times h1 (map_to_list (h_hashes h)).*1 (map_to_list (mp_m (h_postings h))).*1) as E.
  injection E as -> ->. cbn. destruct (Z.ltb_spec (h_maxTime h) t); lia.
Qed.
End HeadTimes.

Section CompactHead.
Context {F U D H : Type} `{Countable U} (Compare : U -> U -> comparison) `{!CompareLaws Compare} `{BlockDir F U D} `{HL : DbHeadLaws H}.
Abbreviation Block := (Block U D).
Abbreviation DB := (DB (F := F) (U := U) (D := D) (H := H)).
Abbreviation Compactor := (Compactor (F := F) (U := U) (D := D) (H := H)).
Implicit Types (db : DB) (c : Compactor).

(** An identifier nothing on disk knows of. *)
Definition fresh_id (u : U) (d : gmap U F) : Prop :=
  d !! u = None /\ forall k x m, d !! k = Some x -> de_meta x = Some m -> u ∉ bd_ULID <$> cp_Parents (bm_Compaction m).

(** What the database relies on from [Write]: a new directory with a new identifier
    and the range asked for. *)
Class CompactorWrites c : Prop := {
  write_ok d r mint maxt d' u : c_Write c d r mint maxt None = (d', Ok u) ->
    fresh_id u d /\ exists x m, d' = <[u := x]> d /\ de_meta x = Some m /\ de_data x <> Panic /\ bm_ULID m = u /\
      bm_MinTime m = mint /\ bm_MaxTime m = maxt /\ cp_Parents (bm_Compaction m) = [];
  write_total d r mint maxt p : snd (c_Write c d r mint maxt p) <> Panic;
}.

(** The blocks in memory are on disk and end before the head begins, and all numbers
    are far from the limits of [int64]. *)
Record settled (r0 : Z) db : Prop := {
  st_mem : forall b, b ∈ db_blocks db -> is_Some (db_disk db !! bm_ULID (blk_meta b)) /\ meta_ok (blk_meta b) /\
    bm_MaxTime (blk_meta b) <= hd_MinTime (db_head db);
  st_disk : forall k x, db_disk db !! k = Some x -> de_data x <> Panic /\ forall m, de_meta x = Some m -> bm_ULID m = k /\ meta_ok m;
  st_ranges : index (o_BlockRanges (db_opts db)) 0 = Ok r0 /\ range_ok r0;
  st_retention : 0 <= o_RetentionDuration (db_opts db) <= 2 ^ 61;
  st_head : - 2 ^ 60 <= hd_MinTime (db_head db) <= 2 ^ 61 /\ - 2 ^ 61 <= hd_MaxTime (db_head db) <= 2 ^ 61 /\
    (hd_MinTime (db_head db) < hd_MaxTime (db_head db) -> hd_MaxTime (db_head db) <= 2 ^ 60);
}.

Lemma load_blocks_inv db del es bs :
  load_blocks db del es = Ok bs ->
  (forall b, b ∈ bs -> exists e, e ∈ es /\ loads db e b /\ forall m, de_meta (snd e) = Some m -> bm_ULID m ∉ del) /\
  (forall e m, e ∈ es -> de_meta (snd e) = Some m -> bm_ULID m ∉ del -> exists b, b ∈ bs /\ loads db e b).
Proof using Type.
  revert bs. induction es as [|e es IH]; intros bs; cbn [load_blocks].
  { intros [= <-]. split; [by intros b ?%not_elem_of_nil|by intros e m ?%not_elem_of_nil]. }
  destruct (de_meta (snd e)) as [m|] eqn:Em; [|done]. destruct (decide (bm_ULID m ∈ del)) as [Hd|Hd].
  - intros E. destruct (IH bs E) as [I1 I2]. split.
    + intros b Hb. destruct (I1 b Hb) as (e' & He & ?). exists e'. split; [by right|done].
    + intros e' m' [->|He]%elem_of_cons Hm' Hn; [congruence|by apply (I2 e' m')].
  - intros (b & Hb & (bs' & E & [= <-])%res_bind_ok)%res_bind_ok. destruct (IH bs' E) as [I1 I2].
    assert (Hl : loads db e b).
    { exists m. split; [done|]. destruct (getBlock db (bm_ULID m)) as [b'|]; [by injection Hb as <-|].
      apply res_bind_ok in Hb as (data & Hdata & [= <-]). by exists data. }
    split.
    + intros b' [->|Hb']%elem_of_cons; [exists e; split; [left|]; split; [done|]; intros m'; congruence|].
      destruct (I1 b' Hb') as (e' & He & ?). exists e'. split; [by right|done].
    + intros e' m' [->|He]%elem_of_cons Hm' Hn; [exists b; split; [left|done]|].
      destruct (I2 e' m' He Hm' Hn) as (b' & Hb' & ?). exists b'. split; [by right|done].
Qed.

Lemma load_blocks_no_panic db del es : Forall (fun e => de_data (snd e) <> Panic) es -> load_blocks db del es <> Panic.
Proof using Type.
  induction 1 as [|e es He _ IH]; cbn [load_blocks]; [done|]. destruct (de_meta (snd e)) as [m|]; [|done].
  destruct (decide _); [done|]. destruct (getBlock db (bm_ULID m)); cbn [res_bind].
  - by destruct (load_blocks db del es).
  - destruct (de_data (snd e)); cbn [res_bind]; [by destruct (load_blocks db del es)|done|done].
Qed.

Lemma getBlock_some db u b : getBlock db u = Some b -> b ∈ db_blocks db /\ bm_ULID (blk_meta b) = u.
Proof using Type.
  unfold getBlock. intros ([i b'] & Hf & ->)%fmap_Some. cbn [snd]. apply list_find_Some in Hf as (Hi & Hu & _).
  split; [by eapply list_elem_of_lookup_2|done].
Qed.

Lemma loads_meta db k x b :
  (forall b, b ∈ db_blocks db -> meta_ok (blk_meta b)) -> (forall m, de_meta x = Some m -> bm_ULID m = k /\ meta_ok m) ->
  loads db (k, x) b -> bm_ULID (blk_meta b) = k /\ meta_ok (blk_meta b).
Proof using Type.
  intros Hmem Hx (m & Hm & Hb). cbn in Hm. destruct (Hx m Hm) as [Ek Hok]. destruct (getBlock db (bm_ULID m)) as [b'|] eqn:Eg.
  - subst b'. apply getBlock_some in Eg as [Hin Eu]. split; [congruence|by apply Hmem].
  - destruct Hb as (data & _ & ->). done.
Qed.

Lemma reload_total db : (forall k x, db_disk db !! k = Some x -> de_data x <> Panic) -> reload Compare db <> Panic.
Proof using Type.
  intros Hd. unfold reload. destruct (reload_plan Compare db) as [[bs del]| |] eqn:E; [|done|].
  - destruct (last bs); [|done]. by destruct (hd_Truncate _ _).
  - exfalso. revert E. unfold reload_plan. destruct (foldl _ _ _) as [cs del]. destruct (existsb _ _); [done|].
    destruct (load_blocks db del (blockDirs Compare (db_disk db))) as [bs| |] eqn:El; cbn [res_bind]; [|done|].
    + destruct (validate_cases (blk_meta <$> sort_by blk_min Z.compare bs)) as [->| ->]; done.
    + intros _. eapply load_blocks_no_panic; [|exact El]. apply Forall_forall. intros e He%elem_of_dirs. by eapply Hd.
Qed.

(** What a successful reload leaves. *)
Lemma reload_success db db2 :
  reload Compare db = Ok (db2, None) -> (forall b, b ∈ db_blocks db -> meta_ok (blk_meta b)) ->
  (forall k x m, db_disk db !! k = Some x -> de_meta x = Some m -> bm_ULID m = k /\ meta_ok m) ->
  exists bs, db_disk db2 = live_disk Compare db /\ db_blocks db2 = bs /\ db_opts db2 = db_opts db /\
    Forall meta_ok (blk_meta <$> bs) /\ in_sequence (blk_meta <$> bs) /\
    (forall b, b ∈ bs -> is_Some (live_disk Compare db !! bm_ULID (blk_meta b))) /\
    (forall k x, live_disk Compare db !! k = Some x -> exists b, b ∈ bs /\ loads db (k, x) b) /\
    db_head db2 = match last bs with None => db_head db | Some b => fst (hd_Truncate (db_head db) (bm_MaxTime (blk_meta b))) end.
Proof using CompareLaws0.
  intros E Hmem Hdisk. unfold reload in E. destruct (reload_plan Compare db) as [[bs del]| |] eqn:Ep; [|done|done].
  unfold reload_plan in Ep. fold (scan db (blockDirs Compare (db_disk db))) in Ep.
  destruct (scan db (blockDirs Compare (db_disk db))) as [cs del'] eqn:Es. destruct (existsb _ _) eqn:Ex; [done|].
  apply res_bind_ok in Ep as (bs0 & Hl & ([] & Hv & [= <- <-])%res_bind_ok).
  assert (Hrm : remove_dirs del' (db_disk db) = live_disk Compare db) by (rewrite <- (remove_obsolete Compare db), Es; done).
  assert (Hdel : forall u, u ∈ del' <-> obsolete db u) by (intros u; rewrite <- (scan_obsolete Compare db u), Es; done).
  destruct (load_blocks_inv _ _ _ _ Hl) as [I1 I2]. set (bs := sort_by blk_min Z.compare bs0) in *.
  assert (Hin : forall b, b ∈ bs -> exists k x, live_disk Compare db !! k = Some x /\ loads db (k, x) b /\ bm_ULID (blk_meta b) = k /\ meta_ok (blk_meta b)).
  { intros b Hb. unfold bs in Hb. rewrite (sort_by_perm blk_min Z.compare) in Hb. destruct (I1 b Hb) as ([k x] & He%elem_of_dirs & Hlo & Hn).
    cbn [fst snd] in *. exists k, x. destruct (loads_meta db k x b Hmem (fun m => Hdisk k x m He) Hlo) as [Eu Hok].
    split; [|done]. apply map_lookup_filter_Some. split; [done|]. cbn [fst]. rewrite <- Hdel.
    destruct Hlo as (m & Hm & _). cbn in Hm. destruct (Hdisk k x m He Hm) as [<- _]. by apply Hn. }
  assert (Hok : Forall meta_ok (blk_meta <$> bs)).
  { apply Forall_fmap, Forall_forall. intros b Hb. by destruct (Hin b Hb) as (k & x & _ & _ & _ & ?). }
  assert (Hmin : by_min (blk_meta <$> bs)).
  { unfold by_min. pose proof (sort_by_sorted blk_min Z.compare bs0) as Hs. fold bs in Hs. clear -Hs.
    induction Hs as [|b l _ IH Hb]; cbn; constructor; [done|]. apply Forall_fmap. eapply Forall_impl; [exact Hb|]. intros c Hc. exact Hc. }
  exists bs. assert (Hdb2 : db_disk db2 = live_disk Compare db /\ db_blocks db2 = bs /\ db_opts db2 = db_opts db /\
    db_head db2 = match last bs with None => db_head db | Some b => fst (hd_Truncate (db_head db) (bm_MaxTime (blk_meta b))) end).
  { rewrite Hrm in E. destruct (last bs) as [b|]; [|by injection E as <-].
    cbn [with_disk with_blocks db_head] in E. destruct (hd_Truncate (db_head db) _) as [h [e|]]; [done|]. by injection E as <-. }
  destruct Hdb2 as (? & ? & ? & ?). split; [done|]. split; [done|]. split; [done|]. split; [done|]. split; [by apply validate_ok|].
  split; [|split; [|done]].
  - intros b Hb. destruct (Hin b Hb) as (k & x & Hk & _ & -> & _). by exists x.
  - intros k x Hk. apply map_lookup_filter_Some in Hk as [Hk Hn]. cbn [fst] in Hn.
    destruct (existsb_exists (fun v : U => bool_decide (v ∉ del')) cs) as [_ Hex].
    destruct (de_meta x) as [m|] eqn:Em.
    + destruct (Hdisk k x m Hk Em) as [Ek _]. destruct (I2 (k, x) m) as (b & Hb & Hlo); [by apply elem_of_dirs|done|by rewrite Ek, Hdel|].
      exists b. split; [|done]. unfold bs. by rewrite (sort_by_perm blk_min Z.compare).
    + exfalso. rewrite Ex in Hex. discriminate Hex. exists k. split; [|by apply bool_decide_eq_true; rewrite Hdel].
      apply list_elem_of_In. assert (Hc : k ∈ fst (scan db (blockDirs Compare (db_disk db)))); [|by rewrite Es in Hc].
      unfold scan. rewrite (proj1 (scan_spec db _ [] ∅)). right. exists (k, x). split; [by apply elem_of_dirs|done].
Qed.

(** The block just written is not obsolete. *)
Lemma written_live r0 db d' u x0 mint maxt m :
  settled r0 db -> fresh_id u (db_disk db) -> d' = <[u := x0]> (db_disk db) ->
  de_meta x0 = Some m -> bm_ULID m = u -> bm_MinTime m = mint -> bm_MaxTime m = maxt -> cp_Parents (bm_Compaction m) = [] ->
  hd_MinTime (db_head db) < maxt ->
  ~ obsolete (with_disk db d') u.
Proof using Type.
  intros Hst [Hu Hfresh] -> Em0 Eu Emin Emax Epar Hlt (k & x & m' & Hk & Hm & Ho). cbn [with_disk db_disk] in Hk.
  assert (Hbr : forall m', beyondRetention (with_disk db (<[u := x0]> (db_disk db))) m' = beyondRetention db m') by done.
  rewrite Hbr in Ho. apply lookup_insert_Some in Hk as [[<- <-]|[Hne Hk]].
  - rewrite Em0 in Hm. injection Hm as <-. destruct (beyondRetention db m) eqn:Eb; [|rewrite Epar in Ho; by apply not_elem_of_nil in Ho].
    unfold beyondRetention in Eb. destruct (_ =? 0); [done|]. destruct (last (db_blocks db)) as [b|] eqn:El; [|done].
    apply last_Some in El as (bs & Ebs). destruct (st_mem _ _ Hst b) as (_ & (_ & Hb & _) & Hle); [rewrite Ebs; apply elem_of_app; right; left|].
    apply Z.ltb_lt in Eb. pose proof (st_retention _ _ Hst) as Hr. unfold small_time in Hb. rewrite i64_small in Eb by (unfold is_s; lia). lia.
  - destruct (st_disk _ _ Hst k x Hk) as [_ Hd]. destruct (Hd m' Hm) as [Ek _]. destruct (beyondRetention db m').
    + congruence.
    + by apply (Hfresh k x m' Hk Hm).
Qed.

Lemma last_max (bs : list Block) b b' :
  in_sequence (blk_meta <$> bs) -> last bs = Some b -> b' ∈ bs -> bm_MaxTime (blk_meta b') <= bm_MaxTime (blk_meta b).
Proof using Type.
  intros Hq (bs' & ->)%last_Some [Hb|Hb]%elem_of_app; [|apply list_elem_of_singleton in Hb as ->; lia].
  rewrite fmap_app in Hq. apply in_sequence_app in Hq as (_ & [Hok _] & Hle). pose proof (Forall_inv Hok) as (_ & _ & ?).
  specialize (Hle (blk_meta b') (blk_meta b)). cut (bm_MaxTime (blk_meta b') <= bm_MinTime (blk_meta b)); [lia|].
  apply Hle; [by apply list_elem_of_fmap_2|left].
Qed.

(** One round writes a block, and the head begins later. *)
Lemma compact_round c `{!CompactorWrites c} r0 db mint maxt d' u db2 :
  settled r0 db -> hd_MinTime (db_head db) < hd_MaxTime (db_head db) ->
  rangeForTimestamp (hd_MinTime (db_head db)) r0 = Ok (mint, maxt) ->
  c_Write c (db_disk db) (RangeHead (db_head db) mint (i64 (maxt - 1))) mint maxt None = (d', Ok u) ->
  reload Compare (with_disk db d') = Ok (db2, None) ->
  settled r0 db2 /\ hd_MinTime (db_head db) < hd_MinTime (db_head db2) /\
  hd_MaxTime (db_head db2) <= Z.max (hd_MaxTime (db_head db)) (hd_MinTime (db_head db2)).
Proof using HL CompareLaws0.
  intros Hst Hlt Hrange Hw Hre. destruct (st_head _ _ Hst) as (Hmin & Hmax & Hmax').
  destruct (st_ranges _ _ Hst) as [Hidx Hr0]. specialize (Hmax' Hlt).
  destruct (rangeForTimestamp_spec (hd_MinTime (db_head db)) r0) as (mint' & E' & Hm & _); [unfold time_ok; lia|done|].
  rewrite Hrange in E'. injection E' as <- ->. unfold range_ok in Hr0.
  destruct (write_ok _ _ _ _ _ _ Hw) as (Hf & x0 & m & Ed & Em0 & Ed0 & Eu & Emin & Emax & Epar).
  assert (Hmok : meta_ok m) by (unfold meta_ok, small_time; lia).
  assert (Hlive : ~ obsolete (with_disk db d') u) by (eapply written_live; done || lia).
  destruct (reload_success _ _ Hre) as (bs & Edisk & Eblocks & Eopts & Hok & Hq & Hb1 & Hb2 & Ehead).
  { intros b Hb. by destruct (st_mem _ _ Hst b Hb) as (_ & ? & _). }
  { intros k x m' Hk Hm'. cbn [with_disk db_disk] in Hk. rewrite Ed in Hk. apply lookup_insert_Some in Hk as [[<- <-]|[_ Hk]].
    - rewrite Em0 in Hm'. by injection Hm' as <-.
    - destruct (st_disk _ _ Hst k x Hk) as [_ Hd]. by apply Hd. }
  (* the new block is loaded *)
  destruct (Hb2 u x0) as (b & Hb & (m' & Hm' & Hload)).
  { apply map_lookup_filter_Some. split; [|done]. cbn [with_disk db_disk]. rewrite Ed. apply lookup_insert_eq. }
  cbn [snd] in Hm'. rewrite Em0 in Hm'. injection Hm' as <-. destruct (getBlock (with_disk db d') (bm_ULID m)) as [b'|] eqn:Eg.
  { apply getBlock_some in Eg as [Hin Eb]. destruct (st_mem _ _ Hst b' Hin) as ([x Hx] & _). rewrite Eb, Eu, (proj1 Hf) in Hx. done. }
  destruct Hload as (data' & _ & ->). clear Eg.
  destruct (last bs) as [bl|] eqn:El; [|apply last_None in El; subst bs; by rewrite El in Hb; apply not_elem_of_nil in Hb].
  pose proof (last_max bs bl _ Hq El Hb) as Hbl. cbn [blk_meta] in Hbl. rewrite Emax in Hbl.
  set (t := bm_MaxTime (blk_meta bl)) in *. change (db_head (with_disk db d')) with (db_head db) in Ehead.
  destruct (trunc_times (db_head db) t) as [Tmin Tmax]; [unfold MaxInt64; lia|]. rewrite <- Ehead in Tmin, Tmax.
  rewrite (proj2 (Z.leb_gt _ _)) in Tmax by lia.
  assert (Hts : - 2 ^ 61 <= t <= 2 ^ 61).
  { apply last_Some in El as (bs' & Ebs). rewrite Ebs, fmap_app in Hok. apply Forall_app in Hok as [_ (_ & ? & _)%Forall_inv]. done. }
  split; [|lia]. split.
  - intros b1 Hb1in. rewrite Eblocks in Hb1in. split; [by rewrite Edisk; apply Hb1|].
    split; [rewrite Forall_fmap, Forall_forall in Hok; by apply Hok|]. pose proof (last_max bs bl b1 Hq El Hb1in). fold t in H2. lia.
  - intros k x Hk. rewrite Edisk in Hk. apply map_lookup_filter_Some in Hk as [Hk _]. cbn [with_disk db_disk] in Hk. rewrite Ed in Hk.
    apply lookup_insert_Some in Hk as [[<- <-]|[_ Hk]]; [|by apply (st_disk _ _ Hst)]. split; [done|]. intros m1 Hm1. rewrite Em0 in Hm1. by injection Hm1 as <-.
  - rewrite Eopts. by split.
  - rewrite Eopts. apply (st_retention _ _ Hst).
  - lia.
Qed.

(** A round of the loop, with more than one and a half ranges in the head: a block of its
    first range is written and loaded, and the head begins later. *)
Record persist_round (c : Compactor) (r0 : Z) (db db2 : DB) : Prop := {
  hr_full : Z.quot r0 2 * 3 < hd_MaxTime (db_head db) - hd_MinTime (db_head db);
  hr_runs : and_reload Compare (write_head c r0 db) = Ok (db2, None);
  hr_later : hd_MinTime (db_head db) < hd_MinTime (db_head db2);
  hr_within : hd_MaxTime (db_head db2) <= Z.max (hd_MaxTime (db_head db)) (hd_MinTime (db_head db2));
  hr_settled : settled r0 db2;
}.

(** How the loop ends after [n] rounds with the database [mid]. *)
Definition head_ends (c : Compactor) (r0 : Z) (stopc : nat -> bool) (n : nat)
    (mid db : DB) (l : loop_end) : Prop :=
  (forall i, (i < n)%nat -> stopc i = false) /\
  match l with
  | Broke => db = mid /\ stopc n = false /\ hd_MaxTime (db_head db) - hd_MinTime (db_head db) <= Z.quot r0 2 * 3
  | Return None => db = mid /\ stopc n = true
  | Return (Some e) => stopc n = false /\ and_reload Compare (write_head c r0 mid) = Ok (db, Some e)
  end.

Lemma head_small_spec r0 db : settled r0 db ->
  head_small r0 db = true <-> hd_MaxTime (db_head db) - hd_MinTime (db_head db) <= Z.quot r0 2 * 3.
Proof using Type.
  intros Hst. destruct (st_ranges _ _ Hst) as [_ Hr0], (st_head _ _ Hst) as (Hmin & Hmax & _). unfold range_ok in Hr0.
  assert (Hq : 0 <= Z.quot r0 2 <= 2 ^ 58) by (rewrite Z.quot_div_nonneg by lia; Z.div_mod_to_equations; lia).
  unfold head_small. rewrite !i64_small by (unfold is_s; lia). apply Z.leb_le.
Qed.

(** With more than that in the head, a round takes place or fails. *)
Lemma persist_round_total c `{!CompactorWrites c} r0 db : settled r0 db -> head_small r0 db = false ->
  exists db2 e, and_reload Compare (write_head c r0 db) = Ok (db2, e) /\ (e = None -> persist_round c r0 db db2).
Proof using HL CompareLaws0.
  intros Hst Hsm. assert (Hgt : Z.quot r0 2 * 3 < hd_MaxTime (db_head db) - hd_MinTime (db_head db)).
  { apply Z.lt_nge. intros Hle%(head_small_spec r0 db Hst). by rewrite Hle in Hsm. }
  destruct (st_ranges _ _ Hst) as [Hidx Hr0], (st_head _ _ Hst) as (Hmin & Hmax & _).
  assert (Hq : 0 <= Z.quot r0 2) by (unfold range_ok in Hr0; apply Z.quot_pos; lia).
  destruct (rangeForTimestamp_spec (hd_MinTime (db_head db)) r0) as (mint & E & Hm & _); [unfold time_ok; lia|done|].
  unfold write_head. rewrite E. cbn [res_bind]. pose proof (write_total (db_disk db) (RangeHead (db_head db) mint (i64 (mint + r0 - 1))) mint (mint + r0) None) as Hwt.
  destruct (c_Write c _ _ mint (mint + r0) None) as [d' r] eqn:Ew. cbn [snd] in Hwt. destruct r as [u|e|]; [|by exists (with_disk db d'), (Some e)|done].
  cbn [and_reload res_bind]. destruct (reload Compare (with_disk db d')) as [[db2 e]| |] eqn:Er.
  - exists db2, e. split; [done|]. intros ->.
    destruct (compact_round c r0 db mint (mint + r0) d' u db2 Hst ltac:(lia) E Ew Er) as (Hst2 & Hmin2 & Hmax2).
    split; try done. unfold write_head. rewrite E. cbn [res_bind]. rewrite Ew. exact Er.
  - exfalso. revert Er. unfold reload. repeat case_match; done.
  - exfalso. revert Er. apply reload_total. intros k x Hk. cbn [with_disk db_disk] in Hk.
    destruct (write_ok _ _ _ _ _ _ Ew) as (_ & x0 & m & -> & _ & Hx0 & _). apply lookup_insert_Some in Hk as [[_ <-]|[_ Hk]]; [done|by apply (st_disk _ _ Hst k x)].
Qed.

Lemma compact_head_ok c `{!CompactorWrites c} r0 fuel stopc db :
  settled r0 db -> (Z.to_nat (hd_MaxTime (db_head db) - hd_MinTime (db_head db)) < fuel)%nat ->
  exists n mid db' l, nsteps (persist_round c r0) n db mid /\ compact_head Compare fuel c stopc db = Ok (db', l) /\ head_ends c r0 stopc n mid db' l.
Proof using HL CompareLaws0.
  revert stopc db. induction fuel as [|fuel IH]; intros stopc db Hst Hf; [lia|]. cbn [compact_head].
  destruct (stopc O) eqn:Es; [exists O, db, db, (Return None); split_and!; [constructor|done|split; [intros i ?; lia|done]]|].
  rewrite (proj1 (st_ranges _ _ Hst)). cbn [res_bind]. destruct (head_small r0 db) eqn:Esm.
  { exists O, db, db, Broke. split_and!; [constructor|done|]. split; [intros i ?; lia|]. split; [done|]. split; [done|by apply (head_small_spec r0 db)]. }
  destruct (persist_round_total c r0 db Hst Esm) as (db2 & e & E & Hr). rewrite E. cbn [res_bind]. destruct e as [e|].
  { exists O, db, db2, (Return (Some e)). split_and!; [constructor|done|split; [intros i ?; lia|done]]. }
  specialize (Hr eq_refl). pose proof Hr as [Hfull _ Hlater Hwithin Hst2]. destruct (st_head _ _ Hst) as (_ & _ & Hmax').
  assert (Hq : 0 <= Z.quot r0 2) by (destruct (st_ranges _ _ Hst) as [_ Hr0]; unfold range_ok in Hr0; apply Z.quot_pos; lia).
  destruct (IH (fun n => stopc (S n)) db2 Hst2) as (n & mid & db' & l & Hn & E' & Hi & Hl); [lia|].
  exists (S n), mid, db', l. split; [by eapply nsteps_l|]. split; [done|]. split; [|exact Hl].
  intros [|i] ?; [done|apply Hi; lia].
Qed.
End CompactHead.

(** * Main theorems *)

(** C13: reloading.  On a directory whose blocks can be read, those that are not
    obsolete opened, [reload] fails and changes nothing when the blocks that are
    left overlap.  Otherwise it takes exactly the blocks that are neither beyond the
    retention nor parents of a kept block, by their first times, removes the
    directories of the others and truncates the head to the end of the last block;
    and so it does wherever a crash has interrupted the removal of obsolete blocks. *)
Theorem reload_correct {F U D H : Type} `{Countable U} (Compare : U -> U -> comparison) `{!CompareLaws Compare} `{BlockDir F U D} `{DbHead H}
    (db : DB (F := F) (U := U) (D := D) (H := H)) :
  good_disk db ->
  exists bs, live Compare db bs /\ (Forall meta_ok (blk_meta <$> bs) ->
    (in_sequence (blk_meta <$> bs) -> reload Compare db = Ok (reloaded Compare db bs) /\
       forall S, removable db S -> reload Compare (with_disk db (remove_dirs S (db_disk db))) = Ok (reloaded Compare db bs)) /\
    (~ in_sequence (blk_meta <$> bs) -> reload Compare db = Ok (db, Some (ErrMsg "block time ranges overlap")))).
Proof.
  intros Hg. destruct (reload_ok Compare db Hg) as (bs & Hl & Hr). exists bs. split; [done|]. intros Hok.
  destruct (Hr Hok) as [H1' H2']. split; [|done]. intros Hq. split; [by apply H1'|]. intros S HS.
  by apply (crash_reload Compare db S Hg HS bs Hl Hok Hq).
Qed.

(** A directory whose metadata cannot be read makes every reload fail, also when
    its block is obsolete and would be removed. *)
Theorem reload_corrupted_fails {F U D H : Type} `{Countable U} (Compare : U -> U -> comparison) `{!CompareLaws Compare} `{BlockDir F U D} `{DbHead H}
    (db : DB (F := F) (U := U) (D := D) (H := H)) (k : U) (x : F) :
  db_disk db !! k = Some x -> de_meta x = None -> (forall k x, db_disk db !! k = Some x -> de_data x <> Panic) ->
  exists e, reload Compare db = Ok (db, Some e).
Proof.
  intros Hk Hx Hd. pose proof (reload_total Compare db Hd) as Ht. unfold reload in *.
  destruct (reload_plan Compare db) as [[bs del]|e|] eqn:E; [|by exists e|done]. exfalso. clear Ht.
  unfold reload_plan in E. destruct (foldl _ _ _) as [cs del']. destruct (existsb _ _); [done|].
  apply res_bind_ok in E as (bs0 & Hl & _). assert (Hin : (k, x) ∈ blockDirs Compare (db_disk db)) by by apply elem_of_dirs.
  revert bs0 Hl. induction (blockDirs Compare (db_disk db)) as [|e es IH]; [by apply not_elem_of_nil in Hin|].
  intros bs0. cbn [load_blocks]. apply elem_of_cons in Hin as [<-|Hin]; [cbn [snd]; by rewrite Hx|].
  destruct (de_meta (snd e)) as [m|]; [|done]. destruct (decide _); [by apply IH|].
  intros (b & _ & (bs1 & Hl & _)%res_bind_ok)%res_bind_ok. by eapply IH.
Qed.

(** C15: compacting the head ends.  Against any compactor that writes blocks with the
    range asked for under new identifiers, and any head that truncates as it says,
    the loop of [compact] over the head runs some rounds and returns.  Every round finds
    more than one and a half ranges in the head, writes and loads a block of the first of
    them and leaves a head that begins later, with the blocks before it ([persist_round]).  The
    loop ends with a break, when [stopc] was found open each time and one and a half ranges
    at most are left; or it returns without an error at the first round that finds [stopc]
    closed, with what the rounds before have left; or it returns the error of a write or a
    reload ([head_ends]). *)
Theorem compact_head_terminates {F U D H : Type} `{Countable U} (Compare : U -> U -> comparison) `{!CompareLaws Compare}
    `{BlockDir F U D} `{DbHeadLaws H} (c : Compactor (F := F) (U := U) (D := D) (H := H)) `{!CompactorWrites c} (r0 : Z)
    (db : DB (F := F) (U := U) (D := D) (H := H)) (fuel : nat) (stopc : nat -> bool) :
  settled r0 db -> (Z.to_nat (hd_MaxTime (db_head db) - hd_MinTime (db_head db)) < fuel)%nat ->
  exists n mid db' l, nsteps (persist_round Compare c r0) n db mid /\
    compact_head Compare fuel c stopc db = Ok (db', l) /\ head_ends Compare c r0 stopc n mid db' l.
Proof. intros Hst Hf. by apply compact_head_ok. Qed.

(** ** Witnesses *)

Module DbExample.
(** A directory: its metadata, if it can be read. *)
Record dirent := mkDirent { dir_meta : option (BlockMeta Z) }.

#[global] Instance dirent_dir : BlockDir dirent Z unit := {| de_meta := dir_meta; de_data _ := Ok tt |}.

Definition head_at (mint maxt : Z) : Head (list (list Z)) :=
  mkHead 1000 None mint maxt 0 [] ∅ ∅ ∅ ∅ NewUnorderedMemPostings NewMemTombstones.

(** The third block is made of the first two. *)
Definition merged : BlockMeta Z :=
  mkBlockMeta 3 0 20 (mkStats 0 0 0 0) (mkCompaction 2 [1; 2] [mkDesc 1 0 10; mkDesc 2 10 20] false).

Definition ok_dir (m : BlockMeta Z) : dirent := mkDirent (Some m).

Definition disk : gmap Z dirent :=
  list_to_map [(1, ok_dir (example_meta 1 0 10)); (2, ok_dir (example_meta 2 10 20)); (3, ok_dir merged); (4, ok_dir (example_meta 4 20 30))].

Definition db : DB (F := dirent) (U := Z) (D := unit) (H := Head (list (list Z))) := mkDB (mkOptions 0 [10; 30]) disk [] (head_at 0 100) true.

Lemma disk_cases k x : disk !! k = Some x ->
  (k, x) = (1, ok_dir (example_meta 1 0 10)) \/ (k, x) = (2, ok_dir (example_meta 2 10 20)) \/ (k, x) = (3, ok_dir merged) \/
  (k, x) = (4, ok_dir (example_meta 4 20 30)).
Proof. intros Hk%elem_of_list_to_map_2. rewrite !elem_of_cons, elem_of_nil in Hk. tauto. Qed.

Lemma disk_good : good_disk db.
Proof.
  intros k x Hk. apply disk_cases in Hk as [E|[E|[E|E]]]; injection E as -> ->; (eexists; split; [done|]; split; [done|]; right);
    eexists; eexists; (split; [done|]); by eexists.
Qed.

(** Block 1 has been removed before the crash. *)
Lemma disk_removable : removable db {[1]}.
Proof.
  intros s Hs%elem_of_singleton. subst s. split.
  - exists 3, (ok_dir merged), merged. split; [done|]. split; [done|]. cbn. left.
  - intros x m p Hx Hm Hp. injection Hx as <-. injection Hm as <-. by apply not_elem_of_nil in Hp.
Qed.

Lemma reload_live : exists bs, live Z.compare db bs /\ blk_meta <$> bs = [merged; example_meta 4 20 30].
Proof.
  exists [mkBlock merged tt; mkBlock (example_meta 4 20 30) tt]. split; [|done]. eexists. split.
  - assert (E : filter (fun e => ~ obsolete db (fst e)) (blockDirs Z.compare (db_disk db)) = [(3, ok_dir merged); (4, ok_dir (example_meta 4 20 30))]) by by vm_compute.
    rewrite E. constructor; [|constructor; [|constructor]]; eexists; (split; [done|]); by eexists.
  - done.
Qed.

(** The identifiers in use. *)
Definition ids {F D} `{BlockDir F Z D} (d : gmap Z F) : gset Z :=
  list_to_set (mjoin ((fun e => fst e :: match de_meta (snd e) with Some m => bd_ULID <$> cp_Parents (bm_Compaction m) | None => [] end) <$> map_to_list d)).

Lemma ids_fresh {F D} `{BlockDir F Z D} (d : gmap Z F) : fresh_id (fresh (ids d)) d.
Proof.
  pose proof (is_fresh (ids d)) as Hf. split.
  - apply eq_None_not_Some. intros [x Hx]. apply Hf. unfold ids. apply elem_of_list_to_set, list_elem_of_join.
    eexists. split; [|apply list_elem_of_fmap_2, elem_of_map_to_list, Hx]. left.
  - intros k x m Hx Hm Hin. apply Hf. unfold ids. apply elem_of_list_to_set, list_elem_of_join.
    eexists. split; [|apply list_elem_of_fmap_2, elem_of_map_to_list, Hx]. cbn [fst snd]. rewrite Hm. by right.
Qed.

(** A compactor that writes empty blocks. *)
Definition compactor : Compactor (F := dirent) (U := Z) (D := unit) (H := Head (list (list Z))) := {|
  c_Plan _ := Ok [];
  c_Write d _ mint maxt _ := let u := fresh (ids d) in (<[u := ok_dir (example_meta u mint maxt)]> d, Ok u);
  c_Compact d _ := (d, Err (ErrMsg "nothing to compact"));
|}.

#[global] Instance compactor_writes : CompactorWrites compactor.
Proof.
  split; [|done]. intros d r mint maxt d' u [= <- <-]. split; [apply ids_fresh|].
  by exists (ok_dir (example_meta (fresh (ids d)) mint maxt)), (example_meta (fresh (ids d)) mint maxt).
Qed.
End DbExample.

Lemma reload_correct_witness :
  exists bs, live Z.compare DbExample.db bs /\ (Forall meta_ok (blk_meta <$> bs) ->
    (in_sequence (blk_meta <$> bs) -> reload Z.compare DbExample.db = Ok (reloaded Z.compare DbExample.db bs) /\
       forall S, removable DbExample.db S ->
         reload Z.compare (with_disk DbExample.db (remove_dirs S (db_disk DbExample.db))) = Ok (reloaded Z.compare DbExample.db bs)) /\
    (~ in_sequence (blk_meta <$> bs) -> reload Z.compare DbExample.db = Ok (DbExample.db, Some (ErrMsg "block time ranges overlap")))).
Proof. apply (reload_correct Z.compare DbExample.db), DbExample.disk_good. Defined.

Lemma reload_corrupted_fails_witness :
  let db := with_disk DbExample.db (<[1 := DbExample.mkDirent None]> DbExample.disk) in
  obsolete db 1 /\ exists e, reload Z.compare db = Ok (db, Some e).
Proof.
  split.
  - exists 3, (DbExample.ok_dir DbExample.merged), DbExample.merged. split; [done|]. split; [done|]. cbn. left.
  - apply (reload_corrupted_fails Z.compare _ 1 (DbExample.mkDirent None)); [done|done|].
    intros k x Hk. cbn [with_disk db_disk] in Hk. apply lookup_insert_Some in Hk as [[_ <-]|[_ Hk]]; [done|].
    apply DbExample.disk_cases in Hk as [E|[E|[E|E]]]; by injection E as -> ->.
Defined.

Lemma compact_head_terminates_witness :
  let db := mkDB (mkOptions 0 [10; 30]) ∅ [] (DbExample.head_at 3 100) true in
  exists n mid db' l, nsteps (persist_round Z.compare DbExample.compactor 10) n db mid /\
    compact_head Z.compare 98 DbExample.compactor (fun i => 4 <=? i)%nat db = Ok (db', l) /\
    head_ends Z.compare DbExample.compactor 10 (fun i => 4 <=? i)%nat n mid db' l.
Proof.
  intros db. apply (compact_head_terminates Z.compare DbExample.compactor 10 db 98 (fun i => 4 <=? i)%nat).
  - split.
    + by intros b ?%not_elem_of_nil.
    + intros k x Hk. done.
    + split; [done|]. unfold range_ok. lia.
    + cbn. lia.
    + cbn. lia.
  - cbn. lia.
Defined.
