(* ===== verification/Compaction.v ===== *)
(** compact.go: writing a block.  The series sets a compaction reads, the merge of
    the sets of several blocks, and the loop that fills the index and the chunks of the
    new block.  The files it goes into are in Compactor. *)
From S2P Require Import Prelude Order Labels Tombstones Postings MemPostings XorChunk Chunks Buffer SeriesIter Querier Plan Db.
#[local] Open Scope list_scope.
#[local] Open Scope Z_scope.

(** * What a compaction asks of readers and writers *)

(** [IndexReader.Symbols]. *)
Class SymbolReader (IX : Type) := ix_Symbols : IX -> res (gset string).

(** [Chunk.NumSamples]. *)
Class CountedChunk (C : Type) := ck_NumSamples : C -> res Z.

#[export] Instance xor_counted : CountedChunk XORChunk := XorChunk.NumSamples.

(** The chunks of the new block: a chunk of an old block as it is, or a chunk that
    has been encoded anew. *)
Inductive wchunk (C : Type) := Source (c : C) | Recoded (c : XORChunk).
Arguments Source {C}.
Arguments Recoded {C}.

#[export] Instance wchunk_counted {C} `{CountedChunk C} : CountedChunk (wchunk C) :=
  fun c => match c with Source c => ck_NumSamples c | Recoded c => XorChunk.NumSamples c end.

(** [ChunkWriter.WriteChunks] sets the references of the metas it is given. *)
Class ChunkWriter (CW C : Type) := cw_WriteChunks : CW -> list (Meta C) -> res (list (Meta C) * CW).

(** The chunk of the segment files. *)
Definition wchunk_xor (c : wchunk XORChunk) : XORChunk := match c with Source c => c | Recoded c => c end.

Definition meta_xor (m : Meta (wchunk XORChunk)) : Meta XORChunk :=
  mkMeta (m_Ref m) (wchunk_xor <$> m_Chunk m) (m_MinTime m) (m_MaxTime m).

(** The writer of chunks.go. *)
#[export] Instance segments_writer : ChunkWriter Chunks.Writer (wchunk XORChunk) := fun w chks =>
  let? (ms, w) := Chunks.WriteChunks w (meta_xor <$> chks) in
  Ok (zip_with (fun m m' => mkMeta (m_Ref m') (m_Chunk m) (m_MinTime m) (m_MaxTime m)) chks ms, w).

(** [IndexWriter]. *)
Class IndexWriter (IW C : Type) := {
  iw_AddSymbols : IW -> gset string -> res IW;
  iw_AddSeries : IW -> Z -> Labels -> list (Meta C) -> res IW;
  iw_WriteLabelIndex : IW -> list string -> list string -> res IW;
  iw_WritePostings : IW -> string -> string -> Postings -> res IW;
}.

Section Compaction.
Context {IX C CR TR I : Type} `{IndexReader IX C} `{SymbolReader IX} `{ChunkReader CR C} `{TombstoneReader TR}.
Context `{ChunkIterator I} `{ChunkIface C I} `{CountedChunk C}.

(** * The series of one block *)

Record compactionSeriesSet := mkCss {
  ss_p : Postings; ss_index : IX; ss_chunks : CR; ss_tombstones : TR;
  ss_l : Labels; ss_c : list (Meta C); ss_intervals : Intervals; ss_err : option error }.

Definition newCompactionSeriesSet (i : IX) (c : CR) (t : TR) (p : Postings) : compactionSeriesSet :=
  mkCss p i c t [] [] [] None.

(** The loop that loads the chunks; the first error ends it. *)
Fixpoint fetch_chunks (cr : CR) (chks : list (Meta C)) : res (list (Meta C)) :=
  match chks with
  | [] => Ok []
  | chk :: chks =>
      let? data := cr_Chunk cr (m_Ref chk) in
      let? chks := fetch_chunks cr chks in
      Ok (mkMeta (m_Ref chk) (Some data) (m_MinTime chk) (m_MaxTime chk) :: chks)
  end.

Definition ss_fail (s : compactionSeriesSet) (p : Postings) (e : option error) : compactionSeriesSet :=
  mkCss p (ss_index s) (ss_chunks s) (ss_tombstones s) (ss_l s) (ss_c s) (ss_intervals s) e.

(** What the fields hold after an error is not read. *)
Definition ss_Next (s : compactionSeriesSet) : res (bool * compactionSeriesSet) :=
  let '(ok, p) := p_Next (ss_p s) in
  if negb ok then Ok (false, ss_fail s p (ss_err s))
  else
    let r :=
      let? ivs := tr_Get (ss_tombstones s) (p_At p) in
      let? (l, chks) := ix_Series (ss_index s) (p_At p) in
      let? c := fetch_chunks (ss_chunks s) (not_deleted_chunks ivs chks) in
      Ok (l, c, ivs) in
    match r with
    | Panic => Panic
    | Err e => Ok (false, ss_fail s p (Some e))
    | Ok (l, c, ivs) => Ok (true, mkCss p (ss_index s) (ss_chunks s) (ss_tombstones s) l c ivs (ss_err s))
    end.

Definition ss_Err (s : compactionSeriesSet) : option error :=
  match ss_err s with Some e => Some e | None => p_Err (ss_p s) end.

Definition ss_At (s : compactionSeriesSet) : Labels * list (Meta C) * Intervals := (ss_l s, ss_c s, ss_intervals s).

(** * Merging *)

(** The implementations of [ChunkSeriesSet]: the series of a block, or
    [compactionMerger] with its fields. *)
Inductive chunkSeriesSet :=
| SetOf (s : compactionSeriesSet)
| Merger (a b : chunkSeriesSet) (aok bok : bool) (l : Labels) (c : list (Meta C)) (intervals : Intervals).

Fixpoint cs_Err (s : chunkSeriesSet) : option error :=
  match s with
  | SetOf s => ss_Err s
  | Merger a b _ _ _ _ _ => match cs_Err a with Some e => Some e | None => cs_Err b end
  end.

Definition cs_At (s : chunkSeriesSet) : Labels * list (Meta C) * Intervals :=
  match s with SetOf s => ss_At s | Merger _ _ _ _ l c ivs => (l, c, ivs) end.

Definition at_lset (s : chunkSeriesSet) : Labels := fst (fst (cs_At s)).

Definition merger_compare (a b : chunkSeriesSet) (aok bok : bool) : Z :=
  if negb aok then 1 else if negb bok then -1 else Labels.Compare (at_lset a) (at_lset b).

(** Adding [b]'s intervals works on the slice of [a]'s tombstones in place; nothing
    reads that slice again during the compaction. *)
Fixpoint cs_Next (s : chunkSeriesSet) : res (bool * chunkSeriesSet) :=
  match s with
  | SetOf s => let? (ok, s) := ss_Next s in Ok (ok, SetOf s)
  | Merger a b aok bok l c ivs =>
      if (negb aok && negb bok) || bool_decide (is_Some (cs_Err s)) then Ok (false, s)
      else
        let d := merger_compare a b aok bok in
        let '(la, ca, ra) := cs_At a in
        let '(lb, cb, rb) := cs_At b in
        if 0 <? d then
          let? (bok, b) := cs_Next b in Ok (true, Merger a b aok bok lb cb rb)
        else if d <? 0 then
          let? (aok, a) := cs_Next a in Ok (true, Merger a b aok bok la ca ra)
        else
          let? (aok, a) := cs_Next a in
          let? (bok, b) := cs_Next b in
          Ok (true, Merger a b aok bok la (ca ++ cb) (foldl add ra rb))
  end.

Definition newCompactionMerger (a b : chunkSeriesSet) : res chunkSeriesSet :=
  let? (aok, a) := cs_Next a in
  let? (bok, b) := cs_Next b in
  let c := Merger a b aok bok [] [] [] in
  match cs_Err c with Some e => Err e | None => Ok c end.

(** A bound on the series left. *)
Fixpoint cs_size (s : chunkSeriesSet) : nat :=
  match s with
  | SetOf s => p_size (ss_p s)
  | Merger a b aok bok _ _ _ => cs_size a + cs_size b + (if aok then 1 else 0) + (if bok then 1 else 0)
  end.

(** * Populating the new block *)

(** What opening the readers of a block gives. *)
Record BlockReaders := mkReaders { br_Index : res IX; br_Chunks : res CR; br_Tombstones : res TR }.

(** One round of the first loop: the symbols so far and the set of all blocks. *)
Definition open_block (st : gset string * option chunkSeriesSet) (b : BlockReaders) :
    res (gset string * option chunkSeriesSet) :=
  let? indexr := br_Index b in
  let? chunkr := br_Chunks b in
  let? tombsr := br_Tombstones b in
  let? symbols := ix_Symbols indexr in
  let? all := ix_Postings indexr (fst AllPostingsKey) (snd AllPostingsKey) in
  let s := SetOf (newCompactionSeriesSet indexr chunkr tombsr (ix_SortedPostings indexr all)) in
  let? set := match snd st with None => Ok s | Some set => newCompactionMerger set s end in
  Ok (fst st ∪ symbols, Some set).

Fixpoint open_blocks (st : gset string * option chunkSeriesSet) (bs : list BlockReaders) :
    res (gset string * option chunkSeriesSet) :=
  match bs with [] => Ok st | b :: bs => let? st := open_block st b in open_blocks st bs end.

(** [for it.Next() { app.Append(it.At()) }]: the error of the iterator is not looked at. *)
Fixpoint recode (fuel : nat) (app : xorAppender) (it : deletedIterator (I := I)) : res XORChunk :=
  match fuel with
  | O => Err out_of_fuel
  | S fuel =>
      let? (ok, it) := ci_Next it in
      if negb ok then Ok (achunk app)
      else
        let? app := Append app (fst (ci_At it)) (snd (ci_At it)) in
        recode fuel app it
  end.

(** The loop over the chunks of a series. *)
Definition rewrite_chunk (mint maxt : Z) (dranges : Intervals) (chk : Meta C) : res (Meta (wchunk C)) :=
  let keep := mkMeta (m_Ref chk) (Source <$> m_Chunk chk) (m_MinTime chk) (m_MaxTime chk) in
  if (m_MinTime chk <? mint) || (maxt <? m_MaxTime chk) then Err (ErrMsg "found chunk outside of compacted range")
  else match dranges, last dranges with
  | d0 :: _, Some dn =>
      if negb (OverlapsClosedInterval chk (Mint d0) (Maxt dn)) then Ok keep
      else
        let? app := Appender NewXORChunk in
        match m_Chunk chk with
        | None => Panic
        | Some c =>
            let? it := ck_Iterator c in
            let? newChunk := recode (S (ci_size it)) app (mkDeleted it dranges) in
            Ok (mkMeta (m_Ref chk) (Some (Recoded newChunk)) (m_MinTime chk) (m_MaxTime chk))
        end
  | _, _ => Ok keep
  end.

Fixpoint rewrite_chunks (mint maxt : Z) (dranges : Intervals) (chks : list (Meta C)) : res (list (Meta (wchunk C))) :=
  match chks with
  | [] => Ok []
  | chk :: chks =>
      let? chk := rewrite_chunk mint maxt dranges chk in
      let? chks := rewrite_chunks mint maxt dranges chks in
      Ok (chk :: chks)
  end.

(** [meta.Stats.NumSamples += uint64(chk.Chunk.NumSamples())]. *)
Fixpoint add_samples (n : Z) (chks : list (Meta (wchunk C))) : res Z :=
  match chks with
  | [] => Ok n
  | chk :: chks =>
      match m_Chunk chk with
      | None => Panic
      | Some c => let? k := ck_NumSamples c in add_samples (u64 (n + k)) chks
      end
  end.

Context {CW IW : Type} `{ChunkWriter CW (wchunk C)} `{IndexWriter IW (wchunk C)}.

(** What the loop over the series keeps: the writers, the statistics, the postings
    and label values collected, and the number of series written. *)
Record population := mkPopulation {
  po_indexw : IW; po_chunkw : CW; po_stats : BlockStats;
  po_postings : MemPostings; po_values : gmap string (gset string); po_i : Z }.

Definition set_value (v : gmap string (gset string)) (l : Label) : gmap string (gset string) :=
  <[fst l := {[snd l]} ∪ default ∅ (v !! fst l)]> v.

(** The body of the loop for a series with chunks left.  Handing the chunks back to
    the pool at its end cannot fail for XOR chunks. *)
Definition write_series (mint maxt : Z) (st : population) (lset : Labels) (chks : list (Meta C)) (dranges : Intervals) :
    res population :=
  let? chks := rewrite_chunks mint maxt dranges chks in
  let? (chks, chunkw) := cw_WriteChunks (po_chunkw st) chks in
  let? indexw := iw_AddSeries (po_indexw st) (po_i st) lset chks in
  let s := po_stats st in
  let? n := add_samples (Plan.NumSamples s) chks in
  let stats := mkStats n (u64 (NumSeries s + 1)) (u64 (NumChunks s + Z.of_nat (length chks))) (NumTombstones s) in
  Ok (mkPopulation indexw chunkw stats (mp_Add (po_i st) lset (po_postings st))
        (foldl set_value (po_values st) lset) (u64 (po_i st + 1))).

(** Every round takes a series from the set. *)
Fixpoint populate_loop (fuel : nat) (mint maxt : Z) (st : population) (set : chunkSeriesSet) : res population :=
  match fuel with
  | O => Err out_of_fuel
  | S fuel =>
      let? (ok, set) := cs_Next set in
      if negb ok then match cs_Err set with Some e => Err e | None => Ok st end
      else
        let '(lset, chks, dranges) := cs_At set in
        if (length chks =? 0)%nat then populate_loop fuel mint maxt st set
        else let? st := write_series mint maxt st lset chks dranges in populate_loop fuel mint maxt st set
  end.

(** The order in which a map is gone through: any permutation of its entries. *)
Context (range : forall A, list A -> list A).
Arguments range {A}.

Fixpoint write_label_indices (w : IW) (values : list (string * gset string)) : res IW :=
  match values with
  | [] => Ok w
  | (n, v) :: values =>
      let? w := iw_WriteLabelIndex w [n] (range (elements v)) in write_label_indices w values
  end.

Fixpoint write_postings (w : IW) (p : MemPostings) (keys : list Label) : res IW :=
  match keys with
  | [] => Ok w
  | l :: keys =>
      let? w := iw_WritePostings w (fst l) (snd l) (mp_Get p (fst l) (snd l)) in write_postings w p keys
  end.

(** [populateBlock]: the writers and the statistics of the new block. *)
Definition populateBlock {U} (blocks : list BlockReaders) (meta : BlockMeta U) (indexw : IW) (chunkw : CW) :
    res (BlockStats * IW * CW) :=
  let? (allSymbols, set) := open_blocks (∅, None) blocks in
  match set with
  | None => Err (ErrMsg "cannot populate block from no readers")
  | Some set =>
      let? indexw := iw_AddSymbols indexw allSymbols in
      let st := mkPopulation indexw chunkw (bm_Stats meta) NewMemPostings ∅ 0 in
      let? st := populate_loop (S (cs_size set)) (bm_MinTime meta) (bm_MaxTime meta) st set in
      let? indexw := write_label_indices (po_indexw st) (range (map_to_list (po_values st))) in
      let p := po_postings st in
      let? indexw := write_postings indexw p (SortedKeys (range (map_to_list (mp_m p)).*1)) in
      Ok (po_stats st, indexw, po_chunkw st)
  end.
End Compaction.
