(* ===== verification/CompactSpec.v ===== *)
(** compact.go: what a compaction writes.  The sets of several blocks give the
    merge of their series, and the new block holds for every label set exactly the
    samples of the old blocks that are not deleted. *)
From S2P Require Import Prelude BitStream Order Labels Tombstones Postings PostingsSpec MemPostings XorChunk Chunks Buffer SeriesIter Querier Plan Compaction.
#[local] Open Scope list_scope.
#[local] Open Scope Z_scope.

(** A chunk with the samples it holds. *)
Abbreviation schunk C := (Meta C * list Buffer.sample)%type.

(** What a series set gives: labels, chunks and the intervals deleted. *)
Record centry (C : Type) := mkEntry { ce_lset : Labels; ce_chunks : list (schunk C); ce_ivs : Intervals }.
Arguments mkEntry {C}.
Arguments ce_lset {C}.
Arguments ce_chunks {C}.
Arguments ce_ivs {C}.

Definition entry_at {C} (e : centry C) : Labels * list (Meta C) * Intervals :=
  (ce_lset e, fst <$> ce_chunks e, ce_ivs e).

(** The same series of two blocks chained. *)
Definition join_entries {C} (e f : centry C) : centry C :=
  mkEntry (ce_lset e) (ce_chunks e ++ ce_chunks f) (foldl add (ce_ivs e) (ce_ivs f)).

Definition cmerge {C} : list (centry C) -> list (centry C) -> list (centry C) :=
  kmerge ce_lset labels_cmp join_entries.

Lemma cmerge_length {C} (es1 es2 : list (centry C)) : (length (cmerge es1 es2) <= length es1 + length es2)%nat.
Proof.
  unfold cmerge. pattern es1, es2, (kmerge ce_lset labels_cmp join_entries es1 es2).
  apply kmerge_ind; intros; cbn [length] in *; lia.
Qed.

Section Sets.
Context {IX C CR TR I : Type} `{IndexReader IX C} `{SymbolReader IX} `{ChunkReader CR C} `{TombstoneReader TR}.
Context `{ChunkIterator I} `{ChunkIface C I} `{CountedChunk C}.
Abbreviation set := (chunkSeriesSet (IX := IX) (C := C) (CR := CR) (TR := TR)).

(** The set gives the entries [es], ends without an error, and each call of [Next]
    uses up its bound. *)
Inductive cs_gives : set -> list (centry C) -> Prop :=
| cg_nil s s' : cs_Next s = Ok (false, s') -> cs_Err s' = None -> cs_gives s []
| cg_cons s s' e es :
    cs_Next s = Ok (true, s') -> cs_At s' = entry_at e -> cs_Err s' = None -> cs_gives s' es ->
    (length es < cs_size s)%nat -> cs_gives s (e :: es).

Lemma cs_gives_size s es : cs_gives s es -> (length es <= cs_size s)%nat.
Proof using Type. destruct 1; cbn [length]; lia. Qed.

(** ** One block *)

Definition whole_deleted (ivs : Intervals) (cl : schunk C) : bool :=
  isSubrange (mkInterval (m_MinTime (fst cl)) (m_MaxTime (fst cl))) ivs.

(** The chunk with its data. *)
Definition load (cr : CR) (cl : schunk C) : schunk C :=
  match cr_Chunk cr (m_Ref (fst cl)) with
  | Ok data => (mkMeta (m_Ref (fst cl)) (Some data) (m_MinTime (fst cl)) (m_MaxTime (fst cl)), snd cl)
  | _ => cl
  end.

Definition base_entry (cr : CR) (b : bseries C) : centry C :=
  mkEntry (b_lset b) (load cr <$> filter (fun cl => whole_deleted (b_ivs b) cl = false) (b_chunks b)) (b_ivs b).

(** The series and its chunks can be read. *)
Record readable (ix : IX) (cr : CR) (tr : TR) (b : bseries C) : Prop := {
  rb_series : ix_Series ix (b_ref b) = Ok (b_lset b, fst <$> b_chunks b);
  rb_get : tr_Get tr (b_ref b) = Ok (b_ivs b);
  rb_chunks : Forall (fun cl => exists data, cr_Chunk cr (m_Ref (fst cl)) = Ok data) (b_chunks b);
}.

Lemma fetch_chunks_ok cr (cls : list (schunk C)) :
  Forall (fun cl => exists data, cr_Chunk cr (m_Ref (fst cl)) = Ok data) cls ->
  fetch_chunks cr (fst <$> cls) = Ok (fst <$> (load cr <$> cls)).
Proof using Type.
  induction 1 as [|cl cls [data Hd] _ IH]; [done|]. rewrite !fmap_cons. cbn [fetch_chunks]. unfold load at 1.
  rewrite Hd. cbn [res_bind]. by rewrite IH.
Qed.

Lemma base_gives ix cr tr bl p l c ivs :
  p_gives p (b_ref <$> bl) -> Forall (readable ix cr tr) bl ->
  cs_gives (SetOf (mkCss p ix cr tr l c ivs None)) (base_entry cr <$> bl).
Proof using Type.
  revert p l c ivs. induction bl as [|b bl IH]; intros p l c ivs Hp Hr.
  - inversion Hp as [? p' Hn He|]; subst. eapply cg_nil.
    + cbn. unfold ss_Next. cbn [ss_p]. rewrite Hn. done.
    + cbn. unfold ss_Err. by cbn.
  - apply Forall_cons in Hr as [Hb Hr]. pose proof (p_gives_size _ _ Hp) as Hsz. rewrite length_fmap in Hsz.
    apply p_gives_cons_inv in Hp as (p' & Hn & Eref & He & Hp).
    rewrite fmap_cons. eapply (cg_cons _ (SetOf (mkCss p' ix cr tr (ce_lset (base_entry cr b)) (fst <$> ce_chunks (base_entry cr b)) (b_ivs b) None))).
    + cbn [cs_Next]. unfold ss_Next. cbn [ss_p ss_tombstones ss_index ss_chunks]. rewrite Hn. cbn [negb].
      rewrite Eref, (rb_get _ _ _ _ Hb). cbn [res_bind]. rewrite (rb_series _ _ _ _ Hb). cbn [res_bind].
      rewrite not_deleted_filter, fetch_chunks_ok; [done|]. by apply Forall_filter_weaken, (rb_chunks _ _ _ _ Hb).
    + done.
    + cbn. unfold ss_Err. by cbn.
    + by apply IH.
    + rewrite length_fmap in *. cbn [cs_size ss_p length] in *. lia.
Qed.

(** ** Two sets merged *)

(** What is left of a set with one entry of look-ahead. *)
Definition ahead (s : set) (ok : bool) (es : list (centry C)) : Prop :=
  cs_Err s = None /\
  if ok then exists e es', es = e :: es' /\ cs_At s = entry_at e /\ cs_gives s es' else es = [].

Lemma ahead_size s ok es : ahead s ok es -> (length es <= cs_size s + (if ok then 1 else 0))%nat.
Proof using Type.
  intros [_ Hs]. destruct ok; [|by subst; cbn; lia]. destruct Hs as (e & es' & -> & _ & Hg%cs_gives_size). cbn. lia.
Qed.

Lemma cs_gives_ahead s es : cs_gives s es -> exists ok s', cs_Next s = Ok (ok, s') /\ ahead s' ok es.
Proof using Type. destruct 1; do 2 eexists; (split; [done|]); (split; [done|]); eauto. Qed.

Lemma merger_gives a b aok bok l c ivs la lb :
  ahead a aok la -> ahead b bok lb -> cs_gives (Merger a b aok bok l c ivs) (cmerge la lb).
Proof using Type.
  remember (length la + length lb)%nat as n eqn:En.
  revert a b aok bok l c ivs la lb En. induction n as [n IH] using lt_wf_ind. intros a b aok bok l c ivs la lb -> Ha Hb.
  pose proof (ahead_size _ _ _ Ha) as Sa. pose proof (ahead_size _ _ _ Hb) as Sb.
  pose proof (cmerge_length (C := C)) as Hlen.
  pose proof Ha as [Ea Ga]. pose proof Hb as [Eb Gb].
  assert (Eerr : cs_Err (Merger a b aok bok l c ivs) = None) by (cbn; by rewrite Ea).
  assert (Eno : bool_decide (is_Some (cs_Err (Merger a b aok bok l c ivs))) = false) by (rewrite Eerr; by apply bool_decide_eq_false).
  destruct aok, bok.
  - destruct Ga as (e & es & -> & Aa & Ga), Gb as (f & fs & -> & Ab & Gb).
    destruct (cs_gives_ahead _ _ Ga) as (aok & a' & Na & Ha'), (cs_gives_ahead _ _ Gb) as (bok & b' & Nb & Hb').
    pose proof (Compare_cmp (ce_lset e) (ce_lset f)) as Ec.
    assert (Em : merger_compare a b true true = Labels.Compare (ce_lset e) (ce_lset f)).
    { unfold merger_compare, at_lset. cbn [negb]. by rewrite Aa, Ab. }
    unfold cmerge. rewrite kmerge_cons. fold (cmerge (C := C)).
    destruct (labels_cmp (ce_lset e) (ce_lset f)) eqn:El.
    + apply Z.compare_eq_iff in Ec.
      eapply (cg_cons _ (Merger a' b' aok bok (ce_lset e) (fst <$> ce_chunks e ++ ce_chunks f) (foldl add (ce_ivs e) (ce_ivs f)))).
      * cbn [cs_Next]. rewrite Eno, Em, Aa, Ab, Ec. cbn. rewrite Na. cbn [res_bind]. rewrite Nb. cbn [res_bind].
        by rewrite fmap_app.
      * done.
      * cbn. destruct Ha' as [-> _]. by destruct Hb' as [-> _].
      * apply (IH (length (es) + length (fs))%nat); [cbn; lia|done..].
      * specialize (Hlen es fs). cbn in *. lia.
    + rewrite Z.compare_lt_iff in Ec.
      eapply (cg_cons _ (Merger a' b aok true (ce_lset e) (fst <$> ce_chunks e) (ce_ivs e))).
      * cbn [cs_Next]. rewrite Eno, Em, Aa, Ab. cbn [negb andb orb].
        destruct (Z.ltb_spec 0 (Labels.Compare (ce_lset e) (ce_lset f))); [lia|].
        destruct (Z.ltb_spec (Labels.Compare (ce_lset e) (ce_lset f)) 0); [|lia]. cbn. by rewrite Na.
      * done.
      * cbn. destruct Ha' as [-> _]. done.
      * apply (IH (length (es) + length (f :: fs))%nat); [cbn; lia|done..].
      * specialize (Hlen es (f :: fs)). cbn in *. lia.
    + rewrite Z.compare_gt_iff in Ec.
      eapply (cg_cons _ (Merger a b' true bok (ce_lset f) (fst <$> ce_chunks f) (ce_ivs f))).
      * cbn [cs_Next]. rewrite Eno, Em, Aa, Ab. cbn [negb andb orb].
        destruct (Z.ltb_spec 0 (Labels.Compare (ce_lset e) (ce_lset f))); [|lia]. cbn. by rewrite Nb.
      * done.
      * cbn. rewrite Ea. by destruct Hb' as [-> _].
      * apply (IH (length (e :: es) + length (fs))%nat); [cbn; lia|done..].
      * specialize (Hlen (e :: es) fs). cbn in *. lia.
  - destruct Ga as (e & es & -> & Aa & Ga). subst lb. destruct (cs_gives_ahead _ _ Ga) as (aok & a' & Na & Ha').
    unfold cmerge. rewrite kmerge_nil_r. destruct (cs_At b) as [[lb cb] rb] eqn:Ab.
    eapply (cg_cons _ (Merger a' b aok false (ce_lset e) (fst <$> ce_chunks e) (ce_ivs e))).
    + cbn [cs_Next]. rewrite Eno, Aa, Ab. cbn. by rewrite Na.
    + done.
    + cbn. destruct Ha' as [-> _]. done.
    + rewrite <- (kmerge_nil_r ce_lset labels_cmp join_entries es). apply (IH (length (es) + length (@nil (centry C)))%nat); [cbn; lia|done..].
    + cbn in *. lia.
  - destruct Gb as (f & fs & -> & Ab & Gb). subst la. destruct (cs_gives_ahead _ _ Gb) as (bok & b' & Nb & Hb').
    unfold cmerge. rewrite kmerge_nil_l. destruct (cs_At a) as [[la ca] ra] eqn:Aa.
    eapply (cg_cons _ (Merger a b' false bok (ce_lset f) (fst <$> ce_chunks f) (ce_ivs f))).
    + cbn [cs_Next]. rewrite Eno, Aa, Ab. cbn. by rewrite Nb.
    + done.
    + cbn. rewrite Ea. by destruct Hb' as [-> _].
    + rewrite <- (kmerge_nil_l ce_lset labels_cmp join_entries fs). fold (cmerge [] fs). apply (IH (length (@nil (centry C)) + length (fs))%nat); [cbn; lia|done..].
    + cbn in *. lia.
  - subst la lb. eapply cg_nil; [|done]. cbn. done.
Qed.

Lemma newCompactionMerger_gives a b la lb :
  cs_gives a la -> cs_gives b lb -> exists s, newCompactionMerger a b = Ok s /\ cs_gives s (cmerge la lb).
Proof using Type.
  intros (aok & a' & Na & Ha)%cs_gives_ahead (bok & b' & Nb & Hb)%cs_gives_ahead.
  unfold newCompactionMerger. rewrite Na. cbn [res_bind]. rewrite Nb. cbn [res_bind].
  exists (Merger a' b' aok bok [] [] []). split; [|by apply merger_gives].
  cbn [cs_Err]. destruct Ha as [-> _]. by destruct Hb as [-> _].
Qed.
End Sets.

(** * What the entries hold *)

#[export] Instance label_list_eq_dec : EqDecision Labels := _.

(** The entry of a label set. *)
Abbreviation entry_of := (kfind ce_lset).

(** The samples of an entry that are not deleted. *)
Definition entry_kept {C} (e : centry C) : list Buffer.sample := kept (ce_ivs e) (mjoin (snd <$> ce_chunks e)).

Definition samples_at {C} (ls : Labels) (es : list (centry C)) : list Buffer.sample :=
  match entry_of ls es with Some e => entry_kept e | None => [] end.

(** All intervals lie in a range. *)
Definition ivs_within (lo hi : Z) (ivs : Intervals) : Prop := Forall (fun r => lo <= Mint r /\ Maxt r <= hi) ivs.

Section Entries.
Context {C I : Type} `{ChunkIterator I} `{ChunkIface C I} `{CountedChunk C} (P : C -> Prop).

(** The samples of a chunk: at its times, in order, and as many as a chunk can count. *)
Record samples_ok (lo hi : Z) (m : Meta C) (l : list Buffer.sample) : Prop := {
  sk_times : Forall (fun s => m_MinTime m <= fst s <= m_MaxTime m) l;
  sk_range : lo <= m_MinTime m /\ m_MaxTime m <= hi;
  sk_sorted : increasing_times l;
  sk_valid : Forall valid_sample l;
  sk_length : Z.of_nat (length l) <= 65535;
  sk_order : m_MinTime m <= m_MaxTime m;
}.

(** The chunk's data can be read, and it satisfies [P]. *)
Definition data_ok (c : C) (l : list Buffer.sample) : Prop :=
  (exists it, ck_Iterator c = Ok it /\ gives it l) /\ ck_NumSamples c = Ok (zlen l) /\ P c.

Record entry_ok (lo hi : Z) (e : centry C) : Prop := {
  eo_ordered : ordered (ce_ivs e);
  eo_chunks : Forall (fun cl => samples_ok lo hi (fst cl) (snd cl) /\
    exists c, m_Chunk (fst cl) = Some c /\ data_ok c (snd cl)) (ce_chunks e);
}.

(** The entry with its deletions lies between [lo] and [hi]. *)
Definition entry_in (lo hi : Z) (e : centry C) : Prop := entry_ok lo hi e /\ ivs_within lo hi (ce_ivs e).

(** The chunks lie between [lo] and [hi]. *)
Definition chunks_in (lo hi : Z) (cls : list (schunk C)) : Prop :=
  Forall (fun cl => lo <= m_MinTime (fst cl) /\ m_MaxTime (fst cl) <= hi) cls.

Lemma samples_ok_weaken lo hi lo' hi' m l : lo' <= lo -> hi <= hi' -> samples_ok lo hi m l -> samples_ok lo' hi' m l.
Proof using Type. intros ? ? [? [? ?] ? ? ? ?]. split; auto. lia. Qed.

Lemma entry_ok_chunks lo hi lo' hi' e : chunks_in lo' hi' (ce_chunks e) -> entry_ok lo hi e -> entry_ok lo' hi' e.
Proof using Type.
  intros Hin [? Hc]. split; [done|]. unfold chunks_in in Hin. rewrite Forall_forall in Hin, Hc |- *. intros cl Hcl.
  destruct (Hc cl Hcl) as [[? _ ? ? ? ?] ?]. split; [|done]. split; auto.
Qed.

Lemma entry_chunks_in lo hi e : entry_ok lo hi e -> chunks_in lo hi (ce_chunks e).
Proof using Type. intros [_ Hc]. eapply Forall_impl; [exact Hc|]. cbn. by intros cl [[_ ? _ _ _ _] _]. Qed.

Lemma chunks_in_weaken lo hi lo' hi' cls : lo' <= lo -> hi <= hi' -> chunks_in lo hi cls -> chunks_in lo' hi' cls.
Proof using Type. intros ? ? Hc. eapply Forall_impl; [exact Hc|]. cbn. lia. Qed.

Lemma ivs_within_weaken lo hi lo' hi' ivs : lo' <= lo -> hi <= hi' -> ivs_within lo hi ivs -> ivs_within lo' hi' ivs.
Proof using Type. intros ? ? Hw. eapply Forall_impl; [exact Hw|]. cbn. lia. Qed.

Lemma within_deleted lo hi ivs t : ivs_within lo hi ivs -> deleted ivs t = true -> lo <= t <= hi.
Proof using Type.
  intros Hw (r & Hr & ?)%deleted_spec%Exists_exists. unfold ivs_within in Hw. rewrite Forall_forall in Hw. specialize (Hw r Hr). lia.
Qed.

Lemma entry_in_weaken lo hi lo' hi' e : lo' <= lo -> hi <= hi' -> entry_in lo hi e -> entry_in lo' hi' e.
Proof using Type.
  intros ? ? [He Hw]. split; [|by eapply ivs_within_weaken]. eapply entry_ok_chunks; [|exact He].
  by eapply chunks_in_weaken, entry_chunks_in.
Qed.

Lemma entry_times lo hi e : entry_ok lo hi e -> Forall (fun s => lo <= fst s <= hi) (mjoin (snd <$> ce_chunks e)).
Proof using Type.
  intros [_ Hc]. apply Forall_forall. intros s (l & Hs & (cl & -> & Hcl)%list_elem_of_fmap)%list_elem_of_join.
  rewrite Forall_forall in Hc. destruct (Hc cl Hcl) as [[Ht [? ?] _ _ _ _] _]. rewrite Forall_forall in Ht. specialize (Ht s Hs). lia.
Qed.

Lemma kept_app ivs l k : kept ivs (l ++ k) = kept ivs l ++ kept ivs k.
Proof using Type. apply filter_app. Qed.

(** Deletions elsewhere keep everything. *)
Lemma kept_outside ivs ivs' l lo hi :
  ivs_within lo hi ivs' -> Forall (fun s => fst s < lo \/ hi < fst s) l ->
  (forall t, deleted ivs t = deleted ivs' t) -> kept ivs l = l.
Proof using Type.
  intros Hw Hl Hd. unfold kept. apply filter_all. eapply Forall_impl; [exact Hl|]. cbn. intros s Hs. rewrite Hd.
  apply not_true_is_false. intros ?%(within_deleted lo hi); [lia|done].
Qed.

(** Joining an entry with one of a later range. *)
Lemma join_entries_ok lo1 hi1 lo2 hi2 e f :
  MinInt64 < lo1 -> hi1 < lo2 -> hi2 < MaxInt64 -> lo1 <= hi1 -> lo2 <= hi2 ->
  entry_in lo1 hi1 e -> entry_in lo2 hi2 f ->
  entry_in lo1 hi2 (join_entries e f) /\ entry_kept (join_entries e f) = entry_kept e ++ entry_kept f.
Proof using Type.
  intros Hlo Hsep Hhi Hr1 Hr2 He Hf. pose proof (entry_times _ _ _ (proj1 He)) as Te. pose proof (entry_times _ _ _ (proj1 Hf)) as Tf.
  destruct He as [[Oe Ce] We], Hf as [[Of Cf] Wf].
  assert (Hint : Forall interior (ce_ivs f)).
  { apply Forall_forall. intros r Hr. pose proof (ordered_valid _ _ Of Hr). unfold ivs_within in Wf. rewrite Forall_forall in Wf.
    specialize (Wf r Hr). unfold interior. lia. }
  assert (Hbef : before (ce_ivs e) (ce_ivs f)).
  { unfold before, ivs_within in *. eapply Forall_impl; [exact We|]. cbn. intros r ?.
    eapply Forall_impl; [exact Wf|]. cbn. lia. }
  destruct (foldl_add_ordered _ _ Oe Of Hint Hbef) as [Oj Dj]. split; [split; [split; [done|]|]|].
  - cbn [ce_chunks join_entries]. apply Forall_app. split; [eapply Forall_impl; [exact Ce|]|eapply Forall_impl; [exact Cf|]];
      intros cl [Hs Hd]; (split; [|done]); (eapply samples_ok_weaken; [| |exact Hs]; lia).
  - cbn [ce_ivs join_entries]. apply Forall_forall. intros r Hr.
    pose proof (ordered_valid _ _ Oj Hr) as Hv.
    assert (Hends : forall t, Mint r <= t <= Maxt r -> lo1 <= t <= hi2).
    { intros t Ht. assert (Ed : deleted (foldl add (ce_ivs e) (ce_ivs f)) t = true).
      { apply deleted_spec, Exists_exists. by exists r. }
      rewrite Dj, orb_true_iff in Ed. destruct Ed as [Ed|Ed]; [apply (within_deleted lo1 hi1) in Ed|apply (within_deleted lo2 hi2) in Ed]; (done || lia). }
    pose proof (Hends (Mint r)). pose proof (Hends (Maxt r)). lia.
  - unfold entry_kept. cbn [ce_chunks ce_ivs join_entries]. rewrite fmap_app, join_app, kept_app. f_equal.
    + apply kept_ext. eapply Forall_impl; [exact Te|]. cbn. intros s ?. rewrite Dj.
      assert (deleted (ce_ivs f) (fst s) = false) as ->; [|by rewrite orb_false_r].
      apply not_true_is_false. intros ?%(within_deleted lo2 hi2); [lia|done].
    + apply kept_ext. eapply Forall_impl; [exact Tf|]. cbn. intros s ?. rewrite Dj.
      assert (deleted (ce_ivs e) (fst s) = false) as ->; [|done].
      apply not_true_is_false. intros ?%(within_deleted lo1 hi1); [lia|done].
Qed.
End Entries.

(** * The series of all blocks *)

(** A block that is compacted: its readers, the symbols of its index, its series and
    the times they lie in. *)
Record source (IX C CR TR : Type) := mkSource {
  src_index : IX; src_chunks : CR; src_tombstones : TR;
  src_symbols : gset string; src_series : list (bseries C); src_lo : Z; src_hi : Z }.
Arguments mkSource {IX C CR TR}.
Arguments src_index {IX C CR TR}.
Arguments src_chunks {IX C CR TR}.
Arguments src_tombstones {IX C CR TR}.
Arguments src_symbols {IX C CR TR}.
Arguments src_series {IX C CR TR}.
Arguments src_lo {IX C CR TR}.
Arguments src_hi {IX C CR TR}.

(** The samples of a label set in a list of series that are not deleted. *)
Definition series_samples {C} (bs : list (bseries C)) (ls : Labels) : list Buffer.sample :=
  match snd <$> list_find (fun b => b_lset b = ls) bs with
  | Some b => kept (b_ivs b) (mjoin (snd <$> b_chunks b))
  | None => []
  end.

Section Sources.
Context {IX C CR TR I : Type} `{IndexReader IX C} `{SymbolReader IX} `{ChunkReader CR C} `{TombstoneReader TR}.
Context `{ChunkIterator I} `{ChunkIface C I} `{CountedChunk C} (P : C -> Prop) (M : Z) `{!PosBound M}.
Abbreviation entry_ok := (entry_ok P).
Abbreviation entry_in := (entry_in P).
Abbreviation data_ok := (data_ok P).
Abbreviation source := (source IX C CR TR).
Abbreviation set := (chunkSeriesSet (IX := IX) (C := C) (CR := CR) (TR := TR)).

(** A series of the block: it can be read, and its chunks and deletions lie in the
    block's times. *)
Record series_in (s : source) (b : bseries C) : Prop := {
  si_series : ix_Series (src_index s) (b_ref b) = Ok (b_lset b, fst <$> b_chunks b);
  si_get : tr_Get (src_tombstones s) (b_ref b) = Ok (b_ivs b);
  si_ordered : ordered (b_ivs b);
  si_within : ivs_within (src_lo s) (src_hi s) (b_ivs b);
  si_chunks : Forall (fun cl => samples_ok (src_lo s) (src_hi s) (fst cl) (snd cl) /\
    exists c, cr_Chunk (src_chunks s) (m_Ref (fst cl)) = Ok c /\ data_ok c (snd cl)) (b_chunks b);
}.

Record source_ok (s : source) : Prop := {
  so_symbols : ix_Symbols (src_index s) = Ok (src_symbols s);
  so_index : IndexHolds M (src_index s) (b_series <$> src_series s);
  so_in : Forall (series_in s) (src_series s);
  so_lsets : NoDup (b_lset <$> src_series s);
  so_bounds : MinInt64 < src_lo s /\ src_lo s <= src_hi s /\ src_hi s < MaxInt64;
}.

Definition readers_of (s : source) : BlockReaders := mkReaders (Ok (src_index s)) (Ok (src_chunks s)) (Ok (src_tombstones s)).

Lemma series_in_readable s b : series_in s b -> readable (src_index s) (src_chunks s) (src_tombstones s) b.
Proof using Type.
  intros [? ? _ _ Hc]. split; [done..|]. eapply Forall_impl; [exact Hc|]. cbn. intros cl (_ & c & ? & _). by exists c.
Qed.

Lemma load_spec cr lo hi (cl : schunk C) c :
  cr_Chunk cr (m_Ref (fst cl)) = Ok c -> samples_ok lo hi (fst cl) (snd cl) ->
  m_Chunk (fst (load cr cl)) = Some c /\ snd (load cr cl) = snd cl /\ samples_ok lo hi (fst (load cr cl)) (snd (load cr cl)).
Proof using Type. intros Hc [? ? ? ? ? ?]. unfold load. rewrite Hc. split_and!; [done..|]. by split. Qed.

(** What a block's set gives for a series. *)
Lemma base_entry_ok s b :
  series_in s b -> entry_in (src_lo s) (src_hi s) (base_entry (src_chunks s) b) /\
  entry_kept (base_entry (src_chunks s) b) = kept (b_ivs b) (mjoin (snd <$> b_chunks b)).
Proof using Type.
  intros [_ _ Ho Hw Hc]. split; [split; [split; [done|]|done]|].
  - cbn [ce_chunks base_entry]. apply Forall_fmap, Forall_filter_weaken. eapply Forall_impl; [exact Hc|].
    intros cl (Hs & c & Hcr & Hd). destruct (load_spec _ _ _ _ _ Hcr Hs) as (Hm & Hl & Hs'). split; [done|].
    exists c. by rewrite Hl.
  - unfold entry_kept. cbn [ce_ivs ce_chunks base_entry]. induction Hc as [|cl cls (Hs & c & Hcr & _) _ IH]; [done|].
    rewrite filter_cons, !fmap_cons, join_cons, kept_app, <- IH. destruct (load_spec _ _ _ _ _ Hcr Hs) as (_ & Hl & _).
    destruct (whole_deleted (b_ivs b) cl) eqn:Ed; cbn [decide].
    + rewrite decide_False by done. destruct Hs as [Ht _ _ _ _ _].
      assert (kept (b_ivs b) (snd cl) = []) as ->; [|done]. apply filter_none. eapply Forall_impl; [exact Ht|].
      cbn. intros x Hx. rewrite (isSubrange_deleted _ _ _ Ed); [done|exact Hx].
    + rewrite decide_True, !fmap_cons, join_cons, kept_app, Hl by done. done.
Qed.

(** The series of the block in the order of their labels. *)
Lemma source_series s :
  source_ok s -> exists bl p r, ix_Postings (src_index s) (fst AllPostingsKey) (snd AllPostingsKey) = Ok p /\
    resumes M p r /\ p_gives (ix_SortedPostings (src_index s) p) (b_ref <$> bl) /\
    increasing b_lset labels_cmp bl /\ (forall b, b ∈ bl <-> b ∈ src_series s) /\ Forall (series_in s) bl.
Proof using PosBound0.
  intros [_ Hix Hin _ _]. destruct (ih_all (ix := src_index s) (series := b_series <$> src_series s)) as (p & r & Hp & Hr & Hids).
  destruct (ih_sorted (ix := src_index s) (series := b_series <$> src_series s) p r) as (l & Hl & Hperm & Hsort).
  { by apply resumes_denotes. } { intros i. by rewrite Hids. }
  pose proof (ih_ids (ix := src_index s) (series := b_series <$> src_series s)) as Hnd.
  destruct (query_bseries (src_series s) [] l) as (bl & El & Hbl & Hinc & _).
  { split_and!; [| |exact Hsort].
    - intros i. rewrite Hperm, Hids. unfold ids_of. rewrite list_elem_of_fmap. split.
      + intros ([i' ls] & -> & Hs). by exists ls.
      + intros (ls & Hs & _). by exists (i, ls).
    - rewrite Hperm. eapply incr_NoDup, denotes_incr. by apply resumes_denotes. }
  exists bl, p, r. rewrite El. split_and!; [done..| |].
  - intros b. split; [intros Hb; rewrite Forall_forall in Hbl; by apply Hbl|]. intros Hb.
    assert (Hbl' : b_ref b ∈ b_ref <$> bl).
    { rewrite El, Hperm, Hids. apply list_elem_of_fmap. exists (b_series b). split; [done|]. by apply list_elem_of_fmap_2. }
    apply list_elem_of_fmap in Hbl' as (b' & Er & Hb'). assert (b = b') as ->; [|done].
    rewrite Forall_forall in Hbl. specialize (Hbl b' Hb').
    apply list_elem_of_lookup in Hb as [k1 Hk1], Hbl as [k2 Hk2].
    assert (k1 = k2) as ->; [|congruence].
    eapply NoDup_lookup; [exact Hnd| |]; rewrite !list_lookup_fmap; [by rewrite Hk1|rewrite Hk2; cbn; by rewrite <- Er].
  - apply Forall_forall. intros b Hb. rewrite Forall_forall in Hbl, Hin. by apply Hin, Hbl.
Qed.

Lemma base_chunks_in x y cr b : chunks_in x y (b_chunks b) -> chunks_in x y (ce_chunks (base_entry cr b)).
Proof using Type. intros Hb. apply Forall_fmap, Forall_filter_weaken. eapply Forall_impl; [exact Hb|]. cbn. intros cl ?. unfold load. by destruct (cr_Chunk _ _). Qed.

(** How many chunks of a label set the blocks have. *)
Definition chunk_count (ss : list source) (ls : Labels) : nat :=
  sum_list_with (fun s => length (mjoin (b_chunks <$> filter (fun b => b_lset b = ls) (src_series s)))) ss.

(** Nothing is deleted in the blocks, and their chunks satisfy [T]. *)
Definition undeleted (T : Z -> Z -> list Buffer.sample -> Prop) (ss : list source) : Prop :=
  Forall (fun s => Forall (fun b => b_ivs b = [] /\
    Forall (fun cl => T (m_MinTime (fst cl)) (m_MaxTime (fst cl)) (snd cl)) (b_chunks b)) (src_series s)) ss.

Definition entry_undeleted (T : Z -> Z -> list Buffer.sample -> Prop) (e : centry C) : Prop :=
  ce_ivs e = [] /\ Forall (fun cl => T (m_MinTime (fst cl)) (m_MaxTime (fst cl)) (snd cl)) (ce_chunks e).

Definition series_count (ss : list source) : nat := sum_list_with (fun s => length (src_series s)) ss.

(** The entries [es] are those of the blocks [ss], which lie between [lo] and [hi]. *)
Record holds_sources (lo hi : Z) (ss : list source) (es : list (centry C)) : Prop := {
  hs_increasing : increasing ce_lset labels_cmp es;
  hs_in : Forall (entry_in lo hi) es;
  hs_samples : forall ls, samples_at ls es = mjoin ((fun s => series_samples (src_series s) ls) <$> ss);
  hs_lsets : Forall (fun e => exists s b, s ∈ ss /\ b ∈ src_series s /\ b_lset b = ce_lset e) es;
  hs_count : Forall (fun e => (length (ce_chunks e) <= chunk_count ss (ce_lset e))%nat) es;
  hs_chunks a b : Forall (fun s => Forall (fun b' => chunks_in a b (b_chunks b')) (src_series s)) ss -> Forall (fun e => chunks_in a b (ce_chunks e)) es;
  hs_size : (length es <= series_count ss)%nat;
  hs_undeleted T : undeleted T ss -> Forall (entry_undeleted T) es;
}.

Lemma length_part {A} (l : list A) ls : l ∈ ls -> (length l <= length (mjoin ls))%nat.
Proof using Type. intros (l1 & l2 & ->)%list_elem_of_split. rewrite join_app, join_cons, !length_app. lia. Qed.

Lemma base_entries s :
  source_ok s -> exists es p, ix_Postings (src_index s) (fst AllPostingsKey) (snd AllPostingsKey) = Ok p /\
    cs_gives (SetOf (newCompactionSeriesSet (src_index s) (src_chunks s) (src_tombstones s) (ix_SortedPostings (src_index s) p))) es /\
    holds_sources (src_lo s) (src_hi s) [s] es.
Proof using PosBound0.
  intros Hs. destruct (source_series s Hs) as (bl & p & r & Hp & _ & Hg & Hinc & Hmem & Hin).
  exists (base_entry (src_chunks s) <$> bl), p. split_and!; [done| |].
  - apply base_gives; [done|]. eapply Forall_impl; [exact Hin|]. apply series_in_readable.
  - assert (Hinc' : increasing ce_lset labels_cmp (base_entry (src_chunks s) <$> bl)).
    { clear - Hinc. induction Hinc as [|b bl _ IH Hb]; [constructor|]. rewrite fmap_cons. constructor; [done|]. by apply Forall_fmap. }
    split; [done| | | | | | |].
    + apply Forall_fmap. eapply Forall_impl; [exact Hin|]. intros b Hb. by apply base_entry_ok.
    + intros ls. cbn. rewrite app_nil_r. unfold samples_at, series_samples.
      destruct (list_find (fun b => b_lset b = ls) (src_series s)) as [[k b]|] eqn:Ef; cbn.
      * apply list_find_Some in Ef as (Hb%list_elem_of_lookup_2 & <- & _). apply Hmem in Hb.
        change (b_lset b) with (ce_lset (base_entry (src_chunks s) b)).
        rewrite (kfind_elem ce_lset labels_cmp) by (done || by apply list_elem_of_fmap_2).
        rewrite Forall_forall in Hin. by apply base_entry_ok, Hin.
      * apply list_find_None in Ef. rewrite (proj2 (kfind_None _ _ _)); [done|].
        intros (e & -> & (b & -> & Hb%Hmem)%list_elem_of_fmap)%list_elem_of_fmap. rewrite Forall_forall in Ef. by apply (Ef b).
    + apply Forall_fmap, Forall_forall. intros b Hb. exists s, b. split_and!; [left|by apply Hmem|done].
    + apply Forall_fmap, Forall_forall. intros b Hb%Hmem. cbn. rewrite length_fmap, Nat.add_0_r.
      etrans; [apply length_filter|]. apply length_part, list_elem_of_fmap_2, list_elem_of_filter. done.
    + intros x y [Hs' _]%Forall_cons. apply Forall_fmap, Forall_forall. intros b Hb%Hmem. rewrite Forall_forall in Hs'. by apply base_chunks_in, Hs'.
    + rewrite length_fmap. unfold series_count. cbn. rewrite Nat.add_0_r. apply submseteq_length, NoDup_submseteq.
      * apply (increasing_NoDup b_lset labels_cmp) in Hinc. by apply NoDup_fmap_1 in Hinc.
      * intros b. by rewrite Hmem.
    + intros T [Hs' _]%Forall_cons. apply Forall_fmap, Forall_forall. intros b Hb%Hmem. rewrite Forall_forall in Hs'.
      destruct (Hs' b Hb) as [Hivs Hch]. split; [done|]. cbn [ce_chunks base_entry].
      apply Forall_fmap, Forall_filter_weaken. eapply Forall_impl; [exact Hch|]. cbn. intros cl ?. unfold load. by destruct (cr_Chunk _ _).
Qed.

Lemma merge_sources lo1 hi1 lo2 hi2 ss1 ss2 es1 es2 :
  MinInt64 < lo1 -> hi1 < lo2 -> hi2 < MaxInt64 -> lo1 <= hi1 -> lo2 <= hi2 ->
  holds_sources lo1 hi1 ss1 es1 -> holds_sources lo2 hi2 ss2 es2 -> holds_sources lo1 hi2 (ss1 ++ ss2) (cmerge es1 es2).
Proof using Type.
  intros Hlo Hsep Hhi Hr1 Hr2 [Hi1 Hok1 Hs1 Hl1 Hc1 Hx1 Hz1 Hu1] [Hi2 Hok2 Hs2 Hl2 Hc2 Hx2 Hz2 Hu2].
  assert (Hinc : increasing ce_lset labels_cmp (cmerge es1 es2)) by by apply (kmerge_increasing _ _ _).
  assert (Hfind : forall ls, entry_of ls (cmerge es1 es2) =
    union_with (fun e f => Some (join_entries e f)) (entry_of ls es1) (entry_of ls es2)).
  { intros ls. by apply (kfind_kmerge ce_lset labels_cmp join_entries). }
  split; [done| | | | | | |].
  - apply Forall_forall. intros e He. pose proof (kfind_elem _ _ _ _ Hinc He) as Hf. rewrite Hfind in Hf.
    destruct (entry_of (ce_lset e) es1) as [e1|] eqn:E1, (entry_of (ce_lset e) es2) as [e2|] eqn:E2; cbn in Hf; try done;
      injection Hf as <-; rewrite Forall_forall in Hok1, Hok2;
      try (apply kfind_Some in E1 as [E1 _]; specialize (Hok1 _ E1)); try (apply kfind_Some in E2 as [E2 _]; specialize (Hok2 _ E2)).
    + by apply (join_entries_ok P lo1 hi1 lo2 hi2).
    + eapply entry_in_weaken; [| |exact Hok1]; lia.
    + eapply entry_in_weaken; [| |exact Hok2]; lia.
  - intros ls. rewrite fmap_app, join_app, <- Hs1, <- Hs2. unfold samples_at. rewrite Hfind.
    destruct (entry_of ls es1) as [e1|] eqn:E1, (entry_of ls es2) as [e2|] eqn:E2; cbn; [|by rewrite app_nil_r|done|done].
    rewrite Forall_forall in Hok1, Hok2. apply kfind_Some in E1 as [E1 _], E2 as [E2 _].
    by apply (join_entries_ok P lo1 hi1 lo2 hi2); auto.
  - apply Forall_forall. intros e He. assert (Hk : ce_lset e ∈ ce_lset <$> cmerge es1 es2) by by apply list_elem_of_fmap_2.
    rewrite Forall_forall in Hl1, Hl2. unfold cmerge in Hk. rewrite (kmerge_keys ce_lset labels_cmp join_entries (fun _ _ => eq_refl)) in Hk.
    destruct Hk as [(e' & -> & (s & b & ? & ? & ?)%Hl1)%list_elem_of_fmap|(e' & -> & (s & b & ? & ? & ?)%Hl2)%list_elem_of_fmap];
      exists s, b; rewrite elem_of_app; auto.
  - apply Forall_forall. intros e He. pose proof (kfind_elem _ _ _ _ Hinc He) as Hf. rewrite Hfind in Hf.
    rewrite Forall_forall in Hc1, Hc2. unfold chunk_count in *. rewrite sum_list_with_app.
    destruct (entry_of (ce_lset e) es1) as [e1|] eqn:E1, (entry_of (ce_lset e) es2) as [e2|] eqn:E2; cbn in Hf; try done;
      injection Hf as <-;
      try (apply kfind_Some in E1 as [E1 L1]; specialize (Hc1 _ E1)); try (apply kfind_Some in E2 as [E2 L2]; specialize (Hc2 _ E2)); [|lia..].
    cbn [ce_chunks ce_lset join_entries] in *. rewrite length_app. rewrite L2 in Hc2. lia.
  - intros x y [Hs1' Hs2']%Forall_app. specialize (Hx1 x y Hs1'). specialize (Hx2 x y Hs2'). rewrite Forall_forall in Hx1, Hx2 |- *.
    intros e He. pose proof (kfind_elem _ _ _ _ Hinc He) as Hf. rewrite Hfind in Hf.
    destruct (entry_of (ce_lset e) es1) as [e1|] eqn:E1, (entry_of (ce_lset e) es2) as [e2|] eqn:E2; cbn in Hf; try done;
      injection Hf as <-; try (apply kfind_Some in E1 as [E1 _]); try (apply kfind_Some in E2 as [E2 _]); auto.
    cbn [ce_chunks join_entries]. apply Forall_app. split; [by apply Hx1|by apply Hx2].
  - unfold series_count in *. rewrite sum_list_with_app. etrans; [apply cmerge_length|]. lia.
  - intros T [Hs1' Hs2']%Forall_app. specialize (Hu1 T Hs1'). specialize (Hu2 T Hs2'). rewrite Forall_forall in Hu1, Hu2 |- *.
    intros e He. pose proof (kfind_elem _ _ _ _ Hinc He) as Hf. rewrite Hfind in Hf.
    destruct (entry_of (ce_lset e) es1) as [e1|] eqn:E1, (entry_of (ce_lset e) es2) as [e2|] eqn:E2; cbn in Hf; try done;
      injection Hf as <-; try (apply kfind_Some in E1 as [E1 _]); try (apply kfind_Some in E2 as [E2 _]); auto.
    destruct (Hu1 _ E1) as [V1 ?], (Hu2 _ E2) as [V2 ?]. split; cbn [ce_ivs ce_chunks join_entries]; [by rewrite V1, V2|by apply Forall_app].
Qed.

(** The times of the blocks are in sequence. *)
Definition sources_sorted : list source -> Prop := StronglySorted (fun s t => src_hi s < src_lo t).

Lemma open_blocks_gives ss0 ss lo hi sy set es :
  cs_gives set es -> holds_sources lo hi ss0 es -> MinInt64 < lo -> lo <= hi -> hi < MaxInt64 ->
  Forall source_ok ss -> sources_sorted ss -> Forall (fun s => hi < src_lo s) ss ->
  exists set' es' hi', open_blocks (sy, Some set) (readers_of <$> ss) = Ok (sy ∪ ⋃ (src_symbols <$> ss), Some set') /\
    cs_gives set' es' /\ holds_sources lo hi' (ss0 ++ ss) es' /\ hi' < MaxInt64 /\
    (hi' = hi \/ exists s, s ∈ ss /\ hi' = src_hi s).
Proof using PosBound0.
  intros Hg Hh Hlo Hr Hhi Hok. revert ss0 hi sy set es Hg Hh Hr Hhi.
  induction Hok as [|s ss Hs _ IH]; intros ss0 hi sy set es Hg Hh Hr Hhi Hsort Hb.
  - exists set, es, hi. rewrite app_nil_r. cbn. split_and!; [|done..|by left]. by rewrite (right_id_L ∅ (∪)).
  - apply StronglySorted_inv in Hsort as [Hsort Hs']. apply Forall_cons in Hb as [Hb Hb'].
    destruct (base_entries s Hs) as (es2 & p & Hp & Hg2 & Hh2). destruct (so_bounds _ Hs) as (? & ? & ?).
    destruct (newCompactionMerger_gives _ _ _ _ Hg Hg2) as (set2 & Hm & Hg3).
    assert (Hh3 : holds_sources lo (src_hi s) (ss0 ++ [s]) (cmerge es es2)) by by apply (merge_sources lo hi (src_lo s) (src_hi s)).
    destruct (IH (ss0 ++ [s]) (src_hi s) (sy ∪ src_symbols s) set2 _ Hg3 Hh3) as (set' & es' & hi' & E & Hg' & Hh' & ? & Hhi'); [lia|lia|done|done|].
    exists set', es', hi'. rewrite <- (assoc_L (++)) in Hh'. split_and!; [|done..|].
    + rewrite fmap_cons. cbn [open_blocks]. unfold open_block at 1. cbn [br_Index br_Chunks br_Tombstones readers_of res_bind fst snd].
      rewrite (so_symbols _ Hs). cbn [res_bind]. rewrite Hp. cbn [res_bind]. rewrite Hm. cbn [res_bind]. rewrite E.
      rewrite fmap_cons. cbn [union_list foldr]. by rewrite (assoc_L (∪)).
    + right. destruct Hhi' as [->|(t & Ht & ->)]; [exists s; split; [left|done]|exists t; split; [by right|done]].
Qed.
End Sources.

(** * Rewriting chunks *)

Section Rewriting.
Context {C I : Type} `{ChunkIterator I} `{ChunkIface C I} `{CountedChunk C} (P : C -> Prop).
Abbreviation entry_ok := (entry_ok P).
Abbreviation data_ok := (data_ok P).

(** A chunk of the new block holds the samples. *)
Definition wholds (c : wchunk C) (l : list Buffer.sample) : Prop :=
  match c with
  | Source c => exists it : I, ck_Iterator c = Ok it /\ gives it l
  | Recoded c => exists it, XorChunk.Iterator c = Ok it /\ gives it l
  end.

(** The chunk of the new block for a chunk of an old one: its samples that are not
    deleted, as many as it counts. *)
Record rewritten (ivs : Intervals) (cl : schunk C) (m : Meta (wchunk C)) : Prop := {
  rw_times : m_MinTime m = m_MinTime (fst cl) /\ m_MaxTime m = m_MaxTime (fst cl);
  rw_chunk : exists c, m_Chunk m = Some c /\ wholds c (kept ivs (snd cl)) /\
    ck_NumSamples c = Ok (zlen (kept ivs (snd cl))) /\
    ((exists d, c = Source d /\ m_Chunk (fst cl) = Some d) \/
     (exists a, c = Recoded (achunk a) /\ encodes a (kept ivs (snd cl))));
}.

Lemma recode_ok fuel a l0 (it : deletedIterator) k :
  gives it k -> encodes a l0 -> Forall valid_sample k -> Z.of_nat (length (l0 ++ k)) <= 65535 -> (length k < fuel)%nat ->
  exists a', recode fuel a it = Ok (achunk a') /\ encodes a' (l0 ++ k).
Proof using Type.
  intros Hg. revert a l0 fuel. induction Hg as [it it' Hn He|it it' k Hn He Hg IH Hsz]; intros a l0 fuel Ha Hv Hlen Hf;
    (destruct fuel as [|fuel]; [lia|]); cbn [recode]; rewrite Hn; cbn [res_bind negb].
  - exists a. by rewrite app_nil_r.
  - apply Forall_cons in Hv as [Hs Hv]. rewrite length_app in Hlen. cbn [length] in *.
    destruct (encodes_append a l0 (fst (ci_At it')) (snd (ci_At it')) Ha) as (a1 & HA & Ha1); [lia|by destruct (ci_At it')|].
    rewrite HA. cbn [res_bind]. destruct (IH a1 (l0 ++ [(fst (ci_At it'), snd (ci_At it'))]) fuel Ha1 Hv) as (a' & HR & Ha'); [|lia|].
    { rewrite !length_app. cbn [length]. lia. }
    exists a'. split; [done|]. rewrite <- (assoc_L (++)) in Ha'. by destruct (ci_At it').
Qed.

Lemma deleted_between ivs t d0 dn :
  ordered ivs -> head ivs = Some d0 -> last ivs = Some dn -> deleted ivs t = true -> Mint d0 <= t <= Maxt dn.
Proof using Type.
  intros Ho Hh Hl (r & Hr & Ht)%deleted_spec%Exists_exists.
  assert (Mint d0 <= Mint r).
  { destruct ivs as [|d ivs]; [done|]. injection Hh as ->. destruct Ho as (? & Hlt & _). apply elem_of_cons in Hr as [->|Hr]; [done|].
    rewrite Forall_forall in Hlt. specialize (Hlt r Hr). cbn in Hlt. lia. }
  assert (Maxt r <= Maxt dn); [|lia].
  apply last_Some in Hl as [ivs' ->]. apply ordered_app in Ho as (_ & (Hdn & _) & Hb).
  apply elem_of_app in Hr as [Hr| ->%list_elem_of_singleton]; [|done].
  pose proof (Forall_inv (proj1 (Forall_forall _ _) Hb r Hr)) as Hlt. cbn in Hlt. lia.
Qed.

Lemma rewrite_chunk_ok lo hi ivs cl c :
  ordered ivs -> samples_ok lo hi (fst cl) (snd cl) -> m_Chunk (fst cl) = Some c -> data_ok c (snd cl) ->
  exists m, rewrite_chunk lo hi ivs (fst cl) = Ok m /\ rewritten ivs cl m.
Proof using Type.
  intros Ho [Ht [Hlo Hhi] Hsort Hv Hlen _] Hc [(it & Hit & Hg) [Hn _]]. unfold rewrite_chunk.
  destruct (Z.ltb_spec (m_MinTime (fst cl)) lo); [lia|]. destruct (Z.ltb_spec hi (m_MaxTime (fst cl))); [lia|]. cbn [orb].
  assert (Hkeep : kept ivs (snd cl) = snd cl ->
    rewritten ivs cl (mkMeta (m_Ref (fst cl)) (Source <$> m_Chunk (fst cl)) (m_MinTime (fst cl)) (m_MaxTime (fst cl)))).
  { intros Ek. split; [done|]. rewrite Ek. cbn [m_Chunk]. rewrite Hc. exists (Source c). split_and!; [done|by exists it|done|].
    left. by exists c. }
  destruct ivs as [|d0 ivs']; [eexists; split; [done|]; apply Hkeep, filter_all, Forall_true; done|].
  destruct (last (d0 :: ivs')) as [dn|] eqn:El; [|by apply last_None in El].
  destruct (OverlapsClosedInterval (fst cl) (Mint d0) (Maxt dn)) eqn:Eo; cbn [negb].
  - rewrite Appender_New. cbn [res_bind]. rewrite Hc, Hit. cbn [res_bind].
    pose proof (deleted_gives it (snd cl) (d0 :: ivs') Hg Ho Hsort) as Hd. set (k := kept (d0 :: ivs') (snd cl)) in *.
    assert (Hk : (length k <= length (snd cl))%nat) by apply length_filter.
    pose proof (gives_size _ _ Hg).
    destruct (recode_ok (S (ci_size it)) first_appender [] (mkDeleted it (d0 :: ivs')) k Hd encodes_first) as (a & -> & Ha).
    { by apply Forall_filter_weaken. } { etrans; [|exact Hlen]. by apply inj_le. } { apply Nat.lt_succ_r. by etrans. }
    cbn [res_bind app] in *. eexists. split; [done|]. split; [done|]. exists (Recoded (achunk a)). split_and!; [done| | |].
    + cbn. by apply xor_gives.
    + cbn. unfold ck_NumSamples, wchunk_counted. by apply NumSamples_encodes.
    + right. by exists a.
  - eexists. split; [done|]. apply Hkeep. unfold kept. apply filter_all. eapply Forall_impl; [exact Ht|]. intros s Hs. cbn in Hs.
    apply not_true_is_false. intros Hdel. apply (deleted_between _ _ d0 dn) in Hdel; [|done..].
    unfold OverlapsClosedInterval in Eo. apply andb_false_iff in Eo. rewrite !Z.leb_gt in Eo. lia.
Qed.

Lemma rewrite_chunks_ok lo hi e :
  entry_ok lo hi e -> exists ms, rewrite_chunks lo hi (ce_ivs e) (fst <$> ce_chunks e) = Ok ms /\
    Forall2 (rewritten (ce_ivs e)) (ce_chunks e) ms.
Proof using Type.
  intros [Ho Hc]. induction Hc as [|cl cls (Hs & c & Hm & Hd) _ (ms & E & Hms)]; [by exists []|].
  destruct (rewrite_chunk_ok lo hi (ce_ivs e) cl c Ho Hs Hm Hd) as (m & Em & Hr).
  rewrite fmap_cons. cbn [rewrite_chunks]. rewrite Em. cbn [res_bind]. rewrite E. cbn [res_bind].
  exists (m :: ms). split; [done|]. by constructor.
Qed.
End Rewriting.

(** * What the writers are given *)

(** What the compaction relies on from the chunk writer: a batch of acceptable chunks,
    at most [cwl_max], is stored under references of its own, as long as the writer is
    ready for it; what is stored stays. *)
Class ChunkWriterLaws (CW C : Type) `{ChunkWriter CW C} := {
  cwl_max : nat;
  cwl_ok : C -> Prop;
  cwl_ready : CW -> nat -> Prop;
  cwl_stored : CW -> Z -> C -> Prop;
  cwl_weaken w n k : (k <= n)%nat -> cwl_ready w n -> cwl_ready w k;
  cwl_write w n chks : cwl_ready w (S n) -> (length chks <= cwl_max)%nat ->
    Forall (fun m => exists c, m_Chunk m = Some c /\ cwl_ok c) chks ->
    exists ms w', cw_WriteChunks w chks = Ok (ms, w') /\ cwl_ready w' n /\
      (forall r c, cwl_stored w r c -> cwl_stored w' r c) /\
      Forall2 (fun m m' => m_MinTime m' = m_MinTime m /\ m_MaxTime m' = m_MaxTime m /\ m_Chunk m' = m_Chunk m /\
        exists c, m_Chunk m = Some c /\ cwl_stored w' (m_Ref m') c) chks ms;
}.

(** The calls of an index writer. *)
Inductive icall (C : Type) :=
| ISymbols (symbols : gset string)
| ISeries (ref : Z) (l : Labels) (chks : list (Meta C))
| ILabelIndex (names values : list string)
| IPostings (name value : string) (p : Postings).
Arguments ISymbols {C}.
Arguments ISeries {C}.
Arguments ILabelIndex {C}.
Arguments IPostings {C}.

Definition icall_run {IW C} `{IndexWriter IW C} (w : IW) (c : icall C) : res IW :=
  match c with
  | ISymbols s => iw_AddSymbols w s
  | ISeries r l chks => iw_AddSeries w r l chks
  | ILabelIndex ns vs => iw_WriteLabelIndex w ns vs
  | IPostings n v p => iw_WritePostings w n v p
  end.

Fixpoint run_calls {IW C} `{IndexWriter IW C} (w : IW) (cs : list (icall C)) : res IW :=
  match cs with [] => Ok w | c :: cs => let? w := icall_run w c in run_calls w cs end.

Lemma run_calls_app {IW C} `{IndexWriter IW C} (w : IW) (cs ds : list (icall C)) :
  run_calls w (cs ++ ds) = let? w := run_calls w cs in run_calls w ds.
Proof. revert w. induction cs as [|c cs IH]; intros w; [done|]. cbn [app run_calls]. by destruct (icall_run w c); cbn. Qed.

(** A series of the new block. *)
Abbreviation wseries C := (Labels * list (Meta (wchunk C)))%type.

Fixpoint series_calls {C} (i : Z) (ss : list (wseries C)) : list (icall (wchunk C)) :=
  match ss with [] => [] | s :: ss => ISeries i (fst s) (snd s) :: series_calls (i + 1) ss end.

Fixpoint add_postings {C} (i : Z) (ss : list (wseries C)) (p : MemPostings) : MemPostings :=
  match ss with [] => p | s :: ss => add_postings (i + 1) ss (mp_Add i (fst s) p) end.

Definition add_values {C} (ss : list (wseries C)) (v : gmap string (gset string)) : gmap string (gset string) :=
  foldl (fun v s => foldl set_value v (fst s)) v ss.

(** The statistics after a series. *)
Definition add_stats {C} (s : BlockStats) (e : centry C) : BlockStats :=
  mkStats (foldl (fun n cl => u64 (n + zlen (kept (ce_ivs e) (snd cl)))) (Plan.NumSamples s) (ce_chunks e))
    (u64 (NumSeries s + 1)) (u64 (NumChunks s + zlen (ce_chunks e))) (NumTombstones s).

Definition has_chunks {C} (e : centry C) : Prop := ce_chunks e <> [].

#[export] Instance has_chunks_dec {C} (e : centry C) : Decision (has_chunks e).
Proof. unfold has_chunks. destruct (ce_chunks e); [right; naive_solver|by left]. Defined.

Section Population.
Context {IX C CR TR I CW IW : Type} `{IndexReader IX C} `{SymbolReader IX} `{ChunkReader CR C} `{TombstoneReader TR}.
Context `{ChunkIterator I} `{ChunkIface C I} `{CountedChunk C}.
Context `{ChunkWriterLaws CW (wchunk C)} `{IndexWriter IW (wchunk C)}.
Context (Hrecoded : forall a l, encodes a l -> cwl_ok (Recoded (achunk a))).
Abbreviation entry_ok := (entry_ok (fun c => cwl_ok (Source c))).
Abbreviation set := (chunkSeriesSet (IX := IX) (C := C) (CR := CR) (TR := TR)).

(** The series of the new block for an entry: every chunk is stored under its reference. *)
Definition written_series (cw : CW) (e : centry C) (s : wseries C) : Prop :=
  fst s = ce_lset e /\ Forall2 (fun cl m => rewritten (ce_ivs e) cl m /\
    exists c, m_Chunk m = Some c /\ cwl_stored cw (m_Ref m) c) (ce_chunks e) (snd s).

(** The writer takes the entry's chunks in one batch. *)
Definition entry_fits (e : centry C) : Prop := (length (ce_chunks e) <= cwl_max)%nat.

Lemma add_samples_ok n ivs (cls : list (schunk C)) ms :
  Forall2 (rewritten ivs) cls ms -> add_samples n ms = Ok (foldl (fun n cl => u64 (n + zlen (kept ivs (snd cl)))) n cls).
Proof using Type.
  intros Hr. revert n. induction Hr as [|cl m cls ms [_ (c & Hc & _ & Hn & _)] _ IH]; intros n; [done|].
  cbn [add_samples foldl]. rewrite Hc, Hn. cbn [res_bind]. apply IH.
Qed.

Lemma write_series_ok lo hi st e n :
  entry_ok lo hi e -> entry_fits e -> cwl_ready (po_chunkw st) (S n) ->
  exists s cw, written_series cw e s /\ cwl_ready cw n /\
    (forall r c, cwl_stored (po_chunkw st) r c -> cwl_stored cw r c) /\
    write_series lo hi st (ce_lset e) (fst <$> ce_chunks e) (ce_ivs e) =
      let? iw := iw_AddSeries (po_indexw st) (po_i st) (fst s) (snd s) in
      Ok (mkPopulation iw cw (add_stats (po_stats st) e) (mp_Add (po_i st) (fst s) (po_postings st))
            (foldl set_value (po_values st) (fst s)) (u64 (po_i st + 1))).
Proof using Hrecoded.
  intros He Hmax Hready. destruct (rewrite_chunks_ok _ lo hi e He) as (ms & Ems & Hms).
  pose proof (Forall2_length _ _ _ Hms) as Hlen.
  destruct (cwl_write (po_chunkw st) n ms Hready) as (ms' & cw & Ew & Hr' & Hmono & Hst); [unfold entry_fits in Hmax; lia| |].
  { pose proof (eo_chunks _ _ _ _ He) as Hfit. clear - Hms Hfit Hrecoded.
    induction Hms as [|cl m cls ms [_ (c & Hc & _ & _ & Ho)] _ IH]; [constructor|].
    apply Forall_cons in Hfit as [(_ & d & Hm & _ & _ & Hcl) Hfit]. constructor; [|by apply IH]. exists c. split; [done|].
    destruct Ho as [(d' & -> & Hd)|(a & -> & Ha)]; [by simplify_eq|by eapply Hrecoded]. }
  assert (Hws : Forall2 (fun cl m => rewritten (ce_ivs e) cl m /\ exists c, m_Chunk m = Some c /\ cwl_stored cw (m_Ref m) c) (ce_chunks e) ms').
  { clear - Hms Hst. revert ms' Hst. induction Hms as [|cl m cls ms [[T1 T2] Hc] _ IH]; intros ms' Hst; inversion Hst as [|? m' ? ? (E1 & E2 & E3 & c & Ec & Hs)]; subst; [constructor|].
    constructor; [|by apply IH]. split; [split; [by rewrite E1, E2|by rewrite E3]|]. exists c. by rewrite E3. }
  exists (ce_lset e, ms'), cw. split; [done|]. split; [done|]. split; [done|].
  unfold write_series. rewrite Ems. cbn [res_bind]. rewrite Ew. cbn [res_bind fst snd].
  destruct (iw_AddSeries (po_indexw st) (po_i st) (ce_lset e) ms') as [iw| |]; [|done..]. cbn [res_bind].
  rewrite (add_samples_ok _ (ce_ivs e) (ce_chunks e)).
  2: { eapply Forall2_impl; [exact Hws|]. by intros ? ? [? _]. }
  cbn [res_bind]. unfold add_stats, zlen. by rewrite (Forall2_length _ _ _ Hws).
Qed.

Lemma written_series_mono cw cw' e s :
  (forall r c, cwl_stored cw r c -> cwl_stored cw' r c) -> written_series cw e s -> written_series cw' e s.
Proof using Type.
  intros Hm [E Hs]. split; [done|]. eapply Forall2_impl; [exact Hs|]. intros cl m (? & c & ? & ?). eauto.
Qed.

Lemma populate_loop_ok lo hi fuel st (s : set) es :
  cs_gives s es -> Forall (entry_ok lo hi) es -> Forall entry_fits es -> (length es < fuel)%nat ->
  cwl_ready (po_chunkw st) (length es) -> 0 <= po_i st -> po_i st + zlen es < 2 ^ 64 ->
  exists ss cw, Forall2 (written_series cw) (filter has_chunks es) ss /\
    (forall r c, cwl_stored (po_chunkw st) r c -> cwl_stored cw r c) /\ cwl_ready cw 0 /\
    populate_loop fuel lo hi st s =
      let? iw := run_calls (po_indexw st) (series_calls (po_i st) ss) in
      Ok (mkPopulation iw cw (foldl add_stats (po_stats st) (filter has_chunks es)) (add_postings (po_i st) ss (po_postings st))
            (add_values ss (po_values st)) (po_i st + zlen ss)).
Proof using Hrecoded.
  intros Hg. revert fuel st. induction Hg as [s s' Hn He|s s' e es Hn Hat He Hg IH Hsz]; intros fuel st Hok Hfit Hf Hr Hi Hlen;
    (destruct fuel as [|fuel]; [lia|]); cbn [populate_loop]; rewrite Hn; cbn [res_bind negb].
  - rewrite He. exists [], (po_chunkw st). split_and!; [constructor|done|done|]. cbn. rewrite Z.add_0_r. by destruct st.
  - apply Forall_cons in Hok as [Hoe Hok], Hfit as [Hfe Hfit]. rewrite Hat. unfold entry_at. rewrite length_fmap.
    rewrite filter_cons. assert (zlen (e :: es) = 1 + zlen es) by (unfold zlen; cbn [length]; lia).
    destruct (Nat.eqb_spec (length (ce_chunks e)) 0) as [E0|E0].
    + apply nil_length_inv in E0. rewrite decide_False by (unfold has_chunks; naive_solver).
      apply IH; [done|done|cbn in Hf; lia| |done|lia]. eapply cwl_weaken; [|exact Hr]. cbn. lia.
    + rewrite decide_True by (unfold has_chunks; intros Eq; by rewrite Eq in E0).
      destruct (write_series_ok lo hi st e (length es) Hoe Hfe Hr) as (sr & cw & Hw & Hr' & Hm & Ew). rewrite Ew.
      pose proof (zlen_nonneg es). assert (Eu : u64 (po_i st + 1) = po_i st + 1) by (apply u64_small; unfold is_u; lia).
      set (st' := fun iw : IW => mkPopulation iw cw (add_stats (po_stats st) e) (mp_Add (po_i st) (fst sr) (po_postings st))
            (foldl set_value (po_values st) (fst sr)) (po_i st + 1)).
      destruct (IH fuel (st' (po_indexw st)) Hok Hfit ltac:(cbn in Hf; lia) Hr' ltac:(cbn; lia) ltac:(cbn; lia)) as (ss0 & cw0 & Hss0 & Hm0 & Hr0 & _).
      assert (Hfail : Forall2 (written_series cw0) (e :: filter has_chunks es) (sr :: ss0) /\
        (forall r c, cwl_stored (po_chunkw st) r c -> cwl_stored cw0 r c) /\ cwl_ready cw0 0).
      { split; [|by auto]. constructor; [|done]. by eapply written_series_mono. }
      destruct (iw_AddSeries (po_indexw st) (po_i st) (fst sr) (snd sr)) as [iw|err|] eqn:Ea; cbn [res_bind]; rewrite ?Eu.
      * destruct (IH fuel (st' iw) Hok Hfit ltac:(cbn in Hf; lia) Hr' ltac:(cbn; lia) ltac:(cbn; lia)) as (ss & cw' & Hss & Hm' & Hr2 & E).
        exists (sr :: ss), cw'. split_and!; [|by auto|done|].
        -- constructor; [|done]. by eapply written_series_mono.
        -- fold (st' iw). rewrite E. cbn [series_calls run_calls icall_run]. rewrite Ea. cbn [res_bind po_indexw po_i st'].
           assert (zlen (sr :: ss) = 1 + zlen ss) as -> by (unfold zlen; cbn [length]; lia).
           by rewrite Z.add_assoc.
      * exists (sr :: ss0), cw0. destruct Hfail as (? & ? & ?). split_and!; [done..|]. cbn [series_calls run_calls icall_run]. by rewrite Ea.
      * exists (sr :: ss0), cw0. destruct Hfail as (? & ? & ?). split_and!; [done..|]. cbn [series_calls run_calls icall_run]. by rewrite Ea.
Qed.
End Population.

(** * Labels and postings of the new block *)

(** The positions, from [i] on, of the series with a label; the key of all ids stands for
    every series. *)
Fixpoint ids_with {C} (k : Label) (i : Z) (ss : list (wseries C)) : list Z :=
  match ss with
  | [] => []
  | s :: ss => if decide (k = allPostingsKey \/ k ∈ fst s) then i :: ids_with k (i + 1) ss else ids_with k (i + 1) ss
  end.

Section Written.
Context {C : Type}.
Implicit Types (ss : list (wseries C)).

(** Names occur once, values are not empty. *)
Definition proper_labels (ls : Labels) : Prop := NoDup ls.*1 /\ Forall (fun l => snd l <> EmptyString) ls.

Lemma ids_with_bounds k i ss : Forall (fun x => i <= x < i + zlen ss) (ids_with k i ss).
Proof using Type.
  revert i. induction ss as [|s ss IH]; intros i; [constructor|]. cbn [ids_with].
  assert (zlen (s :: ss) = 1 + zlen ss) as -> by (unfold zlen; cbn [length]; lia). pose proof (zlen_nonneg ss).
  assert (Forall (fun x => i <= x < i + (1 + zlen ss)) (ids_with k (i + 1) ss)).
  { eapply Forall_impl; [apply IH|]. cbn. lia. }
  case_decide; [|done]. constructor; [lia|done].
Qed.

Lemma ids_with_incr k i ss : StronglySorted Z.lt (ids_with k i ss).
Proof using Type.
  revert i. induction ss as [|s ss IH]; intros i; [constructor|]. cbn [ids_with]. case_decide; [|apply IH].
  constructor; [apply IH|]. eapply Forall_impl; [apply ids_with_bounds|]. cbn. lia.
Qed.

Lemma proper_occurs ls k :
  proper_labels ls -> length (filter (fun l => l = k) (allPostingsKey :: ls)) = if decide (k = allPostingsKey \/ k ∈ ls) then 1%nat else 0%nat.
Proof using Type.
  intros [Hnd Hne]. assert (Hf : length (filter (fun l => l = k) ls) = if decide (k ∈ ls) then 1%nat else 0%nat).
  { apply NoDup_fmap_1 in Hnd. clear Hne. induction Hnd as [|l ls Hl _ IH]; [done|]. rewrite filter_cons.
    match goal with |- length (if ?d then _ else _) = _ => destruct d as [->|Hlk] end.
    - cbn [length]. rewrite (decide_True (P := k ∈ k :: ls)) by left. f_equal. etrans; [exact IH|]. by rewrite decide_False.
    - etrans; [exact IH|]. apply decide_ext. rewrite elem_of_cons. naive_solver. }
  rewrite filter_cons. match goal with |- length (if ?d then _ else _) = _ => destruct d as [<-|Hk] end.
  - cbn [length]. rewrite (decide_True (P := allPostingsKey = allPostingsKey \/ _)) by by left. f_equal. etrans; [exact Hf|].
    rewrite decide_False; [done|]. intros Hin. rewrite Forall_forall in Hne. by apply (Hne _ Hin).
  - etrans; [exact Hf|]. apply decide_ext. split; [by right|]. naive_solver.
Qed.

Lemma add_postings_list i ss p k :
  Forall (fun s => proper_labels (fst s)) ss -> mp_inv p ->
  mp_inv (add_postings i ss p) /\ mp_ordered (add_postings i ss p) = mp_ordered p /\
  mp_list (add_postings i ss p) k ≡ₚ ids_with k i ss ++ mp_list p k.
Proof using Type.
  intros Hss. revert i p. induction Hss as [|s ss Hs _ IH]; intros i p Hp; [done|]. cbn [add_postings ids_with].
  destruct (IH (i + 1) (mp_Add i (fst s) p)) as (H1 & H2 & H3); [by apply Add_inv|]. split_and!; [done|by rewrite H2, Add_ordered|].
  rewrite H3, Add_list, proper_occurs by done. case_decide; cbn [replicate app]; [|done]. by rewrite Permutation_middle.
Qed.

(** The postings of the new block are the positions of its series. *)
Lemma block_postings ss k :
  Forall (fun s => proper_labels (fst s)) ss ->
  mp_list (add_postings 0 ss NewMemPostings) k = ids_with k 0 ss /\
  (is_Some (mp_m (add_postings 0 ss NewMemPostings) !! k) <-> ids_with k 0 ss <> []).
Proof using Type.
  intros Hss. destruct (add_postings_list 0 ss NewMemPostings k Hss) as (Hinv & Hord & Hperm).
  { intros l list Hl. cbn in Hl. by apply lookup_empty_Some in Hl. }
  assert (Hnil : mp_list NewMemPostings k = []) by done. rewrite Hnil, app_nil_r in Hperm.
  assert (E : mp_list (add_postings 0 ss NewMemPostings) k = ids_with k 0 ss).
  { eapply (StronglySorted_unique Z.le); [by apply mp_list_sorted| |done].
    eapply (StronglySorted_impl_Forall Z.lt Z.le (fun _ => True)); [by apply Forall_true| |apply ids_with_incr]. intros. lia. }
  split; [done|]. rewrite <- E. unfold mp_list. split.
  - intros [l Hl]. rewrite Hl. cbn. by apply (Hinv k).
  - destruct (mp_m _ !! k) eqn:El; [by eexists|done].
Qed.

Lemma ids_with_nil k i ss : ids_with k i ss <> [] <-> exists s, s ∈ ss /\ (k = allPostingsKey \/ k ∈ fst s).
Proof using Type.
  revert i. induction ss as [|s ss IH]; intros i; cbn [ids_with].
  - split; [done|]. by intros (? & ?%not_elem_of_nil & _).
  - case_decide as Hk; [split; [|done]; intros _; exists s; split; [left|done]|]. rewrite IH. set_solver.
Qed.

(** ** Label values *)

Lemma set_values_spec (ls : Labels) v n x :
  x ∈ default ∅ (foldl set_value v ls !! n) <-> (n, x) ∈ ls \/ x ∈ default ∅ (v !! n).
Proof using Type.
  revert v. induction ls as [|[n' x'] ls IH]; intros v; cbn [foldl]; [set_solver|]. rewrite IH. unfold set_value. cbn [fst snd].
  destruct (decide (n' = n)) as [->|Hn].
  - rewrite lookup_insert_eq. cbn. rewrite elem_of_union, elem_of_singleton, elem_of_cons. naive_solver.
  - rewrite lookup_insert_ne by done. rewrite elem_of_cons. naive_solver.
Qed.

Definition values_filled (v : gmap string (gset string)) : Prop := forall n s, v !! n = Some s -> s <> ∅.

Lemma set_values_filled (ls : Labels) v : values_filled v -> values_filled (foldl set_value v ls).
Proof using Type.
  revert v. induction ls as [|[n' x'] ls IH]; intros v Hv; cbn [foldl]; [done|]. apply IH. intros n s. unfold set_value. cbn [fst snd].
  intros [[<- <-]|[_ Hl]]%lookup_insert_Some; [set_solver|by eapply Hv].
Qed.

Lemma add_values_spec ss v :
  values_filled v -> values_filled (add_values ss v) /\
  forall n x, x ∈ default ∅ (add_values ss v !! n) <-> (exists s, s ∈ ss /\ (n, x) ∈ fst s) \/ x ∈ default ∅ (v !! n).
Proof using Type.
  unfold add_values. revert v. induction ss as [|s ss IH]; intros v Hv; cbn [foldl]; [split; [done|]; set_solver|].
  destruct (IH (foldl set_value v (fst s))) as [H1 H2]; [by apply set_values_filled|]. split; [done|]. intros n x.
  rewrite H2, set_values_spec. set_solver.
Qed.

(** The label indices: of every name the values in use, each once. *)
Definition label_calls ss (cs : list (icall (wchunk C))) : Prop :=
  exists nvs : list (string * list string), cs = (fun nv => ILabelIndex [fst nv] (snd nv)) <$> nvs /\ NoDup nvs.*1 /\
    (forall n, n ∈ nvs.*1 <-> exists v s, s ∈ ss /\ (n, v) ∈ fst s) /\
    forall n vs, (n, vs) ∈ nvs -> NoDup vs /\ forall v, v ∈ vs <-> exists s, s ∈ ss /\ (n, v) ∈ fst s.

(** The postings: of every label in use, and of all, the positions of the series, in
    the order of the labels. *)
Definition posting_calls ss (cs : list (icall (wchunk C))) : Prop :=
  exists ks : list Label, cs = (fun k => IPostings (fst k) (snd k) (of_list (ids_with k 0 ss))) <$> ks /\
    increasing id (pair_cmp str_cmp str_cmp) ks /\
    forall k, k ∈ ks <-> exists s, s ∈ ss /\ (k = allPostingsKey \/ k ∈ fst s).

Context {IW : Type} `{IndexWriter IW (wchunk C)} (range : forall A, list A -> list A).
Context (range_perm : forall A (l : list A), range A l ≡ₚ l).

Lemma write_label_indices_calls w (values : list (string * gset string)) :
  write_label_indices range w values = run_calls w ((fun nv => ILabelIndex [fst nv] (range _ (elements (snd nv)))) <$> values).
Proof using Type.
  revert w. induction values as [|[n v] values IH]; intros w; [done|]. rewrite fmap_cons. cbn [write_label_indices run_calls icall_run fst snd].
  by destruct (iw_WriteLabelIndex _ _ _); cbn.
Qed.

Lemma write_postings_calls w p (keys : list Label) :
  write_postings w p keys = run_calls w ((fun k => IPostings (fst k) (snd k) (mp_Get p (fst k) (snd k))) <$> keys).
Proof using Type.
  revert w. induction keys as [|k keys IH]; intros w; [done|]. rewrite fmap_cons. cbn [write_postings run_calls icall_run].
  by destruct (iw_WritePostings _ _ _ _); cbn.
Qed.

Lemma label_calls_ok ss :
  label_calls ss ((fun nv => ILabelIndex [fst nv] (range _ (elements (snd nv)))) <$> range _ (map_to_list (add_values ss ∅))).
Proof using range_perm.
  destruct (add_values_spec ss ∅) as [Hfill Hv]; [intros n s; by rewrite lookup_empty|].
  assert (Hv' : forall n x, x ∈ default ∅ (add_values ss ∅ !! n) <-> exists s, s ∈ ss /\ (n, x) ∈ fst s).
  { intros n x. rewrite Hv, lookup_empty. cbn. set_solver. }
  exists ((fun nv => (fst nv, range _ (elements (snd nv)))) <$> range _ (map_to_list (add_values ss ∅))). split_and!.
  - rewrite <- list_fmap_compose. done.
  - rewrite <- list_fmap_compose. rewrite range_perm. apply NoDup_fst_map_to_list.
  - intros n. rewrite <- list_fmap_compose, range_perm, list_elem_of_fmap. setoid_rewrite <- Hv'. split.
    + intros ([n' s] & -> & Hs%elem_of_map_to_list). cbn. rewrite Hs. cbn. by apply set_choose_L, (Hfill _ _ Hs).
    + intros (v & Hin). destruct (add_values ss ∅ !! n) as [s|] eqn:Es; [|set_solver].
      exists (n, s). split; [done|]. by apply elem_of_map_to_list.
  - intros n vs. rewrite list_elem_of_fmap. intros ([n' s] & [= -> ->] & Hs). rewrite range_perm in Hs. apply elem_of_map_to_list in Hs.
    split; [rewrite range_perm; apply NoDup_elements|]. intros v. rewrite range_perm, elem_of_elements, <- Hv', Hs. done.
Qed.

Lemma posting_calls_ok ss :
  Forall (fun s => proper_labels (fst s)) ss ->
  let p := add_postings 0 ss NewMemPostings in
  posting_calls ss ((fun k => IPostings (fst k) (snd k) (mp_Get p (fst k) (snd k))) <$> SortedKeys (range _ (map_to_list (mp_m p)).*1)).
Proof using range_perm.
  intros Hss p. exists (SortedKeys (range _ (map_to_list (mp_m p)).*1)). 
  assert (Hin : forall k, k ∈ SortedKeys (range _ (map_to_list (mp_m p)).*1) <-> is_Some (mp_m p !! k)).
  { intros k. unfold SortedKeys. rewrite (sort_by_perm id (pair_cmp str_cmp str_cmp)), range_perm, list_elem_of_fmap. split.
    - intros ([k' l] & -> & Hl%elem_of_map_to_list). by eexists.
    - intros [l Hl]. exists (k, l). split; [done|]. by apply elem_of_map_to_list. }
  split_and!.
  - apply list_fmap_ext. intros i k Hk%list_elem_of_lookup_2. destruct k as [n v]. cbn [fst snd]. do 2 f_equal.
    destruct (block_postings ss (n, v) Hss) as [E Hne]. fold p in E, Hne. apply Hin, Hne in Hk.
    rewrite mp_Get_list by by rewrite E. by rewrite E.
  - apply (sorted_increasing id (pair_cmp str_cmp str_cmp)); [|apply (sort_by_sorted id (pair_cmp str_cmp str_cmp))]. rewrite list_fmap_id. unfold SortedKeys.
    rewrite (sort_by_perm id (pair_cmp str_cmp str_cmp)), range_perm. apply NoDup_fst_map_to_list.
  - intros k. rewrite Hin, <- (ids_with_nil k 0). by destruct (block_postings ss k Hss).
Qed.
End Written.

(** * The new block *)

Section NewBlock.
Context {IX C CR TR I CW IW U : Type} `{IndexReader IX C} `{SymbolReader IX} `{ChunkReader CR C} `{TombstoneReader TR}.
Context `{ChunkIterator I} `{ChunkIface C I} `{CountedChunk C}.
Context `{ChunkWriterLaws CW (wchunk C)} `{IndexWriter IW (wchunk C)}.
Context (M : Z) `{!PosBound M} (range : forall A, list A -> list A).
Abbreviation P := (fun c => cwl_ok (Source c)).
Abbreviation source := (source IX C CR TR).

(** The chunk holds the samples, in order, at its times and as many as it counts, and is
    stored under its reference. *)
Definition stored_chunk (lo hi : Z) (cw : CW) (m : Meta (wchunk C)) (l : list Buffer.sample) : Prop :=
  exists c, m_Chunk m = Some c /\ wholds c l /\ ck_NumSamples c = Ok (zlen l) /\ cwl_ok c /\ cwl_stored cw (m_Ref m) c /\
    samples_ok lo hi m l.

(** The chunks of the series hold the samples one after the other. *)
Definition stored_series (lo hi : Z) (cw : CW) (s : wseries C) (l : list Buffer.sample) : Prop :=
  exists ls, Forall2 (stored_chunk lo hi cw) (snd s) ls /\ mjoin ls = l.

(** The samples of a label set in all blocks, in the order of the blocks. *)
Definition merged_samples (ss : list source) (ls : Labels) : list Buffer.sample :=
  mjoin ((fun s => series_samples (src_series s) ls) <$> ss).

(** The series [ws] make up the merge of the blocks [ss], between [lo] and [hi]. *)
Record merged (lo hi : Z) (ss : list source) (cw : CW) (ws : list (wseries C)) : Prop := {
  mg_increasing : increasing fst labels_cmp ws;
  mg_series : Forall (fun s => stored_series lo hi cw s (merged_samples ss (fst s))) ws;
  mg_complete ls : merged_samples ss ls <> [] -> ls ∈ fst <$> ws;
  mg_lsets : Forall (fun w => exists s b, s ∈ ss /\ b ∈ src_series s /\ b_lset b = fst w) ws;
  mg_count : Forall (fun w => (length (snd w) <= chunk_count ss (fst w))%nat) ws;
  mg_ready : cwl_ready cw 0;
  mg_undeleted T : undeleted T ss ->
    Forall (fun w => Forall (fun m => exists l, stored_chunk lo hi cw m l /\ T (m_MinTime m) (m_MaxTime m) l) (snd w)) ws;
}.

(** The chunks of a block lie between [lo] and [hi]. *)
Definition src_chunks_in (lo hi : Z) (s : source) : Prop := Forall (fun b => chunks_in lo hi (b_chunks b)) (src_series s).

Lemma source_chunks_in s : source_ok P M s -> src_chunks_in (src_lo s) (src_hi s) s.
Proof using Type.
  intros [_ _ Hin _ _]. eapply Forall_impl; [exact Hin|]. intros b [_ _ _ _ Hc]. eapply Forall_impl; [exact Hc|]. cbn.
  by intros cl [[_ ? _ _ _ _] _].
Qed.

Lemma src_chunks_in_weaken lo hi lo' hi' s : lo' <= lo -> hi <= hi' -> src_chunks_in lo hi s -> src_chunks_in lo' hi' s.
Proof using Type. intros ? ? Hs. eapply Forall_impl; [exact Hs|]. intros b. by apply chunks_in_weaken. Qed.

(** Everything a compaction of [ss] asks for. *)
Record compactable (meta : BlockMeta U) (cw : CW) (ss : list source) : Prop := {
  ca_nonempty : ss <> [];
  ca_sources : Forall (source_ok P M) ss;
  ca_sorted : sources_sorted ss;
  ca_range : Forall (src_chunks_in (bm_MinTime meta) (bm_MaxTime meta)) ss;
  ca_stats : bm_Stats meta = mkStats 0 0 0 0;
  ca_chunks ls : (chunk_count ss ls <= cwl_max)%nat;
  ca_ready : cwl_ready cw (series_count ss);
  ca_series : Z.of_nat (series_count ss) < 2 ^ 64;
}.

(** The set of all blocks. *)
Lemma open_sources meta cw ss :
  compactable meta cw ss -> exists set es, open_blocks (∅, None) (readers_of <$> ss) = Ok (⋃ (src_symbols <$> ss), Some set) /\
    cs_gives set es /\ exists lo hi, holds_sources P lo hi ss es.
Proof using PosBound0.
  intros [Hne Hok Hsort _ _ _ _ _]. destruct ss as [|s ss]; [done|]. clear Hne.
  apply Forall_cons in Hok as [Hs Hok]. apply StronglySorted_inv in Hsort as [Hsort Hlt].
  destruct (base_entries P M s Hs) as (es & p & Hp & Hg & Hh). pose proof (so_bounds _ _ _ Hs) as (B1 & B2 & B3).
  destruct (open_blocks_gives P M [s] ss (src_lo s) (src_hi s) (src_symbols s) _ es Hg Hh B1 B2 B3 Hok Hsort Hlt)
    as (set & es' & hi' & E & Hg' & Hh' & _ & _).
  exists set, es'. split_and!; [|done|].
  - rewrite !fmap_cons. cbn [open_blocks]. unfold open_block at 1. cbn [br_Index br_Chunks br_Tombstones readers_of res_bind fst snd].
    rewrite (so_symbols _ _ _ Hs). cbn [res_bind]. rewrite Hp. cbn [res_bind]. rewrite (left_id_L ∅ (∪)), E. done.
  - by exists (src_lo s), hi'.
Qed.

Lemma samples_ok_kept lo hi (m : Meta C) (m' : Meta (wchunk C)) ivs l :
  samples_ok lo hi m l -> m_MinTime m' = m_MinTime m -> m_MaxTime m' = m_MaxTime m -> samples_ok lo hi m' (kept ivs l).
Proof using Type.
  intros [Ht Hr Hs Hv Hl Ho] E1 E2. split; rewrite ?E1, ?E2; unfold kept.
  - by apply Forall_filter_weaken.
  - done.
  - by apply StronglySorted_filter.
  - by apply Forall_filter_weaken.
  - pose proof (length_filter (fun s => deleted ivs (fst s) = false) l). lia.
  - done.
Qed.

Lemma written_stored lo hi cw (e : centry C) s :
  (forall a l, encodes a l -> cwl_ok (Recoded (achunk a))) ->
  entry_ok P lo hi e -> written_series cw e s -> stored_series lo hi cw s (entry_kept e).
Proof using Type.
  intros Hrec [_ Hc] [_ Hw]. exists (kept (ce_ivs e) ∘ snd <$> ce_chunks e). split.
  - rewrite Forall2_fmap_r. apply Forall2_flip. revert Hc.
    induction Hw as [|cl m cls ms [[[T1 T2] (c & Ec & Hh & Hn & Ho)] (c' & Ec' & Hst)] _ IH]; [constructor|].
    intros [(Hs & d & Hd & _ & _ & Hok) Hc]%Forall_cons. constructor; [|by apply IH]. exists c. simplify_eq. split_and!; [done..| |done|].
    + destruct Ho as [(d' & -> & Hd')|(a & -> & Ha)]; [by simplify_eq|by eapply Hrec].
    + by eapply samples_ok_kept.
  - unfold entry_kept. rewrite kept_join. f_equal. by rewrite <- list_fmap_compose.
Qed.

Lemma written_undeleted T lo hi cw (e : centry C) s :
  (forall a l, encodes a l -> cwl_ok (Recoded (achunk a))) ->
  entry_ok P lo hi e -> entry_undeleted T e -> written_series cw e s ->
  Forall (fun m => exists l, stored_chunk lo hi cw m l /\ T (m_MinTime m) (m_MaxTime m) l) (snd s).
Proof using Type.
  intros Hrec [_ Hc] [Eivs Ht] [_ Hw]. revert Hc Ht.
  induction Hw as [|cl m cls ms [[[T1 T2] (c & Ec & Hh & Hn & Ho)] (c' & Ec' & Hst)] _ IH]; [constructor|].
  intros [(Hs & d & Hd & _ & _ & Hok) Hc]%Forall_cons [Hcl Ht]%Forall_cons. constructor; [|by apply IH].
  assert (Ek : kept (ce_ivs e) (snd cl) = snd cl) by (rewrite Eivs; unfold kept; apply filter_all; by apply Forall_true).
  exists (snd cl). rewrite T1, T2. split; [|done]. exists c. rewrite <- Ek. simplify_eq. split_and!; [done..| |done|].
  - destruct Ho as [(d' & -> & Hd')|(a & -> & Ha)]; [by simplify_eq|by eapply Hrec].
  - by eapply samples_ok_kept.
Qed.

Lemma add_stats_all (es : list (centry C)) s :
  0 <= Plan.NumSamples s < 2 ^ 64 -> 0 <= NumSeries s < 2 ^ 64 ->
  Plan.NumSamples (foldl add_stats s es) = u64 (Plan.NumSamples s + Z.of_nat (sum_list_with (fun e => length (entry_kept e)) es)) /\
  NumSeries (foldl add_stats s es) = u64 (NumSeries s + zlen es) /\ NumTombstones (foldl add_stats s es) = NumTombstones s.
Proof using Type.
  assert (Hu : forall a b, u64 (u64 a + b) = u64 (a + b)).
  { intros a b. unfold u64, wrapU. by rewrite Zplus_mod_idemp_l. }
  assert (Hin : forall ivs (cls : list (schunk C)) n, 0 <= n < 2 ^ 64 ->
    foldl (fun n cl => u64 (n + zlen (kept ivs (snd cl)))) n cls = u64 (n + Z.of_nat (length (kept ivs (mjoin (snd <$> cls)))))).
  { intros ivs cls. induction cls as [|cl cls IH]; intros n Hn; cbn [foldl].
    - cbn. rewrite Z.add_0_r. symmetry. by apply u64_small.
    - rewrite IH by apply u64_range. rewrite Hu, fmap_cons, join_cons, kept_app, length_app. f_equal. unfold zlen. lia. }
  revert s. induction es as [|e es IH]; intros s Hs Hn; cbn [foldl sum_list_with].
  - unfold zlen. cbn. rewrite !Z.add_0_r, !u64_small by done. done.
  - destruct (IH (add_stats s e)) as (E1 & E2 & E3); [cbn; rewrite Hin by done; apply u64_range|cbn; apply u64_range|].
    rewrite E1, E2, E3. cbn [add_stats Plan.NumSamples NumSeries NumTombstones]. rewrite Hin, !Hu by done. unfold entry_kept, zlen. cbn [length].
    split_and!; [f_equal; lia|f_equal; lia|done].
Qed.

Lemma holds_entries lo hi lo' hi' (ss : list source) es :
  holds_sources P lo' hi' ss es -> Forall (src_chunks_in lo hi) ss -> Forall (entry_ok P lo hi) es.
Proof using Type.
  intros [_ Hin _ _ _ Hch _ _] Hr%Hch. rewrite Forall_forall in Hin, Hr |- *. intros e He.
  eapply entry_ok_chunks; [by apply Hr|]. by apply Hin.
Qed.

(** The series written for the entries of the blocks. *)
Lemma written_merged lo hi lo' hi' (ss : list source) es cw ws :
  (forall a l, encodes a l -> cwl_ok (Recoded (achunk a))) -> cwl_ready cw 0 ->
  holds_sources P lo' hi' ss es -> Forall (src_chunks_in lo hi) ss -> Forall2 (written_series cw) (filter has_chunks es) ws ->
  merged lo hi ss cw ws /\
  sum_list_with (fun e => length (entry_kept e)) (filter has_chunks es) =
    sum_list_with (fun s => length (merged_samples ss (fst s))) ws.
Proof using Type.
  intros Hrec Hready Hh Hr Hw. pose proof (holds_entries _ _ _ _ _ _ Hh Hr) as Hok. destruct Hh as [Hinc _ Hs Hls Hcount _ _ Hund].
  assert (Hkept : forall e, e ∈ es -> entry_kept e = merged_samples ss (ce_lset e)).
  { intros e He. unfold merged_samples. rewrite <- Hs. unfold samples_at.
    by rewrite (kfind_elem ce_lset labels_cmp _ _ Hinc He). }
  assert (Hin : forall e, e ∈ filter has_chunks es -> e ∈ es) by by intros e [_ ?]%list_elem_of_filter.
  assert (Hall : Forall (fun e => entry_ok P lo hi e /\ entry_kept e = merged_samples ss (ce_lset e)) (filter has_chunks es)).
  { apply Forall_forall. intros e He%Hin. rewrite Forall_forall in Hok. auto. }
  assert (Elab : fst <$> ws = ce_lset <$> filter has_chunks es).
  { clear - Hw. induction Hw as [|e s esx wsx [E _] _ IH]; [done|]. rewrite !fmap_cons. by rewrite E, IH. }
  assert (Hpt : Forall (fun e => (exists s b, s ∈ ss /\ b ∈ src_series s /\ b_lset b = ce_lset e) /\
    (length (ce_chunks e) <= chunk_count ss (ce_lset e))%nat) (filter has_chunks es)).
  { apply Forall_forall. intros e He%Hin. rewrite Forall_forall in Hls, Hcount. auto. }
  split; [split|].
  - apply (StronglySorted_filter _ has_chunks) in Hinc. clear - Hinc Hw.
    revert Hinc. induction Hw as [|e s esx wsx [E _] Hw IH]; intros Hinc; [constructor|].
    apply StronglySorted_inv in Hinc as [Hinc Hlt]. constructor; [by apply IH|].
    clear - E Hw Hlt. induction Hw as [|e' s' esy wsy [E' _] _ IH]; [constructor|]. apply Forall_cons in Hlt as [? ?].
    constructor; [by rewrite E, E'|by apply IH].
  - clear - Hw Hall Hrec. induction Hw as [|e s esx wsx Hes _ IH]; [constructor|]. apply Forall_cons in Hall as [[Ho Ek] Hall].
    constructor; [|by apply IH]. rewrite (proj1 Hes), <- Ek. by eapply written_stored.
  - intros ls Hne. rewrite Elab. unfold merged_samples in Hne. rewrite <- Hs in Hne. unfold samples_at in Hne.
    destruct (entry_of ls es) as [e|] eqn:Ee; [|done]. apply kfind_Some in Ee as [He <-].
    apply list_elem_of_fmap_2, list_elem_of_filter. split; [|done]. unfold has_chunks, entry_kept in *. intros E. by rewrite E in Hne.
  - clear - Hw Hpt. induction Hw as [|e s esx wsx [E _] _ IH]; [constructor|]. apply Forall_cons in Hpt as [[? _] ?]. constructor; [by rewrite E|by apply IH].
  - clear - Hw Hpt. induction Hw as [|e s esx wsx [E Hms] _ IH]; [constructor|]. apply Forall_cons in Hpt as [[_ ?] ?].
    constructor; [by rewrite E, <- (Forall2_length _ _ _ Hms)|by apply IH].
  - done.
  - intros T HT%Hund. assert (HT' : Forall (entry_undeleted T) (filter has_chunks es)) by by apply Forall_filter_weaken. clear HT. rename HT' into HT. clear - Hw Hall Hrec HT. induction Hw as [|e s esx wsx Hes _ IH]; [constructor|].
    apply Forall_cons in Hall as [[Ho _] Hall], HT as [He HT]. constructor; [by eapply written_undeleted|by apply IH].
  - clear - Hw Hall. induction Hw as [|e s esx wsx Hes _ IH]; [done|]. apply Forall_cons in Hall as [[_ Ek] Hall].
    cbn [sum_list_with]. rewrite (proj1 Hes), <- Ek, IH by done. done.
Qed.

Lemma source_labels (ss : list source) (e : centry C) :
  Forall (source_ok P M) ss -> (exists s b, s ∈ ss /\ b ∈ src_series s /\ b_lset b = ce_lset e) -> proper_labels (ce_lset e).
Proof using Type.
  intros Hok (s & b & Hs & Hb & <-). rewrite Forall_forall in Hok. destruct (Hok s Hs) as [_ Hix _ _ _].
  apply (ih_labels (ix := src_index s) (series := b_series <$> src_series s) (b_series b)). by apply list_elem_of_fmap_2.
Qed.

Lemma populateBlock_writes (meta : BlockMeta U) (iw : IW) cw ss :
  compactable meta cw ss -> (forall a l, encodes a l -> cwl_ok (Recoded (achunk a))) -> (forall A (l : list A), range A l ≡ₚ l) ->
  exists ws cw' stats lcalls pcalls,
    populateBlock range (readers_of <$> ss) meta iw cw =
      (let? iw' := run_calls iw (ISymbols (⋃ (src_symbols <$> ss)) :: series_calls 0 ws ++ lcalls ++ pcalls) in
       Ok (stats, iw', cw')) /\
    (forall lo hi, Forall (src_chunks_in lo hi) ss -> merged lo hi ss cw' ws) /\ label_calls ws lcalls /\ posting_calls ws pcalls /\
    Plan.NumSamples stats = u64 (Z.of_nat (sum_list_with (fun s => length (merged_samples ss (fst s))) ws)) /\
    NumSeries stats = u64 (zlen ws) /\ NumTombstones stats = 0.
Proof using PosBound0.
  intros Hc Hrec Hperm. destruct (open_sources meta cw ss Hc) as (set & es & Eo & Hg & lo0 & hi0 & Hh).
  pose proof Hc as [_ Hok _ Hrange Hst Hmax Hready Hlen]. pose proof (holds_entries _ _ _ _ _ _ Hh Hrange) as Heok.
  pose proof Hh as [_ _ _ Hls Hcount _ Hsize _].
  set (syms := ⋃ (src_symbols <$> ss)) in *.
  set (iw1 := match iw_AddSymbols iw syms with Ok w => w | _ => iw end).
  set (st := mkPopulation iw1 cw (bm_Stats meta) NewMemPostings ∅ 0).
  destruct (populate_loop_ok Hrec (bm_MinTime meta) (bm_MaxTime meta) (S (cs_size set)) st set es Hg Heok) as (ws & cw' & Hws & _ & Hready' & Ep).
  { eapply Forall_impl; [exact Hcount|]. intros e He. unfold entry_fits. etrans; [exact He|apply Hmax]. }
  { pose proof (cs_gives_size _ _ Hg). lia. }
  { by eapply cwl_weaken. } { done. } { cbn [po_i st]. unfold zlen. lia. }
  destruct (written_merged _ _ _ _ _ _ _ _ Hrec Hready' Hh Hrange Hws) as [_ Hsum].
  assert (Hproper : Forall (fun s => proper_labels (fst s)) ws).
  { assert (Hp : Forall (fun e => proper_labels (ce_lset e)) (filter has_chunks es)).
    { apply Forall_filter_weaken. eapply Forall_impl; [exact Hls|]. intros e. by apply source_labels. }
    clear - Hws Hp. induction Hws as [|e s esx wsx [E _] _ IH]; [constructor|]. apply Forall_cons in Hp as [? ?].
    constructor; [by rewrite E|by apply IH]. }
  eexists ws, cw', _, _, _. split; [|split; [intros lo hi Hr; by apply (written_merged _ _ _ _ _ es _ _ Hrec Hready' Hh Hr Hws)|split; [by apply (label_calls_ok range Hperm)|split; [by apply (posting_calls_ok range Hperm)|]]]].
  - unfold populateBlock. rewrite Eo. cbn [res_bind run_calls icall_run].
    destruct (iw_AddSymbols iw syms) as [w| |]; [|done..]. cbn [res_bind]. unfold st, iw1 in Ep. rewrite Ep. cbn [res_bind po_indexw po_i po_chunkw po_stats po_postings po_values].
    rewrite !run_calls_app. destruct (run_calls w (series_calls 0 ws)) as [w1| |]; [|done..]. cbn [res_bind po_indexw po_i po_chunkw po_stats po_postings po_values].
    rewrite write_label_indices_calls, run_calls_app. destruct (run_calls w1 _) as [w2| |]; [|done..]. cbn [res_bind].
    rewrite write_postings_calls. done.
  - destruct (add_stats_all (filter has_chunks es) (bm_Stats meta)) as (E1 & E2 & E3); [by rewrite Hst..|].
    rewrite Hst in *. cbn [Plan.NumSamples NumSeries NumTombstones] in *. rewrite E1, E2, E3, Hsum.
    unfold zlen. by rewrite (Forall2_length _ _ _ Hws).
Qed.
End NewBlock.

(** * The writer of segment files *)

Definition segment_chunk_ok (c : wchunk XORChunk) : Prop := 1 <= zlen (Bytes (wchunk_xor c)) < 2 ^ 21.

Lemma encodes_segment_ok a l : encodes a l -> segment_chunk_ok (Recoded (achunk a)).
Proof.
  intros Ha. pose proof (encodes_bytes a l Ha). pose proof (enc_length a l Ha). unfold segment_chunk_ok. cbn [wchunk_xor]. lia.
Qed.

Lemma all_chunks_ok (chks : list (Meta (wchunk XORChunk))) :
  Forall (fun m => exists c, m_Chunk m = Some c /\ segment_chunk_ok c) chks ->
  exists cs, all_chunks (meta_xor <$> chks) = Ok cs /\ Forall Chunks.chunk_ok cs /\ records_len cs <= Z.of_nat (length chks) * 2100000.
Proof.
  induction 1 as [|m chks (c & Hc & Hok) _ (cs & E & Hcs & Hlen)]; [by exists []|].
  assert (Hco : Chunks.chunk_ok (wchunk_xor c)) by (unfold Chunks.chunk_ok, segment_chunk_ok in *; lia).
  exists (wchunk_xor c :: cs). rewrite fmap_cons. cbn [all_chunks meta_xor m_Chunk]. rewrite Hc. cbn [fmap option_fmap option_map].
  rewrite E. cbn [res_bind records_len]. split_and!; [done|by constructor|].
  unfold chunk_record. rewrite !zlen_app, (zlen_PutUint32 _). pose proof (zlen_PutUvarint _ Hco).
  unfold segment_chunk_ok in Hok. change (zlen [Encoding (wchunk_xor c)]) with 1. cbn [length]. lia.
Qed.

#[export] Program Instance segments_laws : ChunkWriterLaws Chunks.Writer (wchunk XORChunk) := {|
  cwl_max := 512;
  cwl_ok := segment_chunk_ok;
  cwl_ready w n := w_inv w /\ 0 <= w_segmentSize w <= 2 ^ 30 /\ zlen (w_files w) + Z.of_nat n <= 2 ^ 32;
  cwl_stored w r c := Chunks.chunk_ok (wchunk_xor c) /\ stored (w_files w) r (wchunk_xor c);
|}.
Next Obligation. intros w n k Hk (? & ? & ?). split_and!; [done|lia..]. Qed.
Next Obligation.
  intros w n chks (Hw & Hseg & Hfiles) Hmax Hok. destruct (all_chunks_ok chks Hok) as (cs & Hcs & Hco & Hlen).
  destruct (WriteChunks_spec w (meta_xor <$> chks) cs Hw Hcs Hco) as (ms & w' & E & Hw' & Hx & Hl & Es & Hms); [lia..|].
  unfold cw_WriteChunks, segments_writer. rewrite E. cbn [res_bind]. eexists _, w'. split; [done|]. split; [rewrite Es; split_and!; [done|lia..]|].
  split; [intros r c [? ?]; split; [done|by eapply stored_extends]|].
  clear - Hms. revert ms Hms. induction chks as [|m chks IH]; intros ms Hms; inversion Hms as [|? m' ? ms' (E1 & E2 & E3 & c & Ec & ? & Hst)]; subst; [constructor|].
  cbn [zip_with]. constructor; [|by apply IH]. cbn [m_MinTime m_MaxTime m_Chunk m_Ref]. split_and!; [done..|].
  cbn [meta_xor m_Chunk] in Ec. apply fmap_Some in Ec as (c' & Ec' & ->). exists c'. by rewrite Ec'.
Qed.

Lemma new_writer_ready n : Z.of_nat n <= 2 ^ 32 -> cwl_ready NewWriter n.
Proof.
  intros Hn. split; [split; [done|apply Forall_nil_2]|]. change (zlen (w_files NewWriter)) with 0. split; [done|lia].
Qed.

(** * Main theorem *)

(** C12: [populateBlock] makes the merge of the old blocks, whatever the index
    writer does with its calls.  The blocks are in sequence, each within its times, and
    their chunks can be read.  The new series are in the order of their labels; each has
    the samples of its label set in all blocks, in order, that no tombstone of the block
    deletes, in chunks that the chunk writer has stored; no label set with samples left
    is missing.  The index writer gets first all symbols, then the series with the
    references 0, 1, ..., then for every label name the values in use, each once, and
    then for every label the increasing references of the series that have it.  The
    statistics count what is written (modulo 2^64).  The only error that can come is one
    of the index writer. *)
Theorem populateBlock_correct {IX C CR TR I CW IW U} `{IndexReader IX C} `{SymbolReader IX} `{ChunkReader CR C}
    `{TombstoneReader TR} `{ChunkIterator I} `{ChunkIface C I} `{CountedChunk C} `{ChunkWriterLaws CW (wchunk C)}
    `{IndexWriter IW (wchunk C)} (M : Z) `{!PosBound M} (range : forall A, list A -> list A)
    (meta : BlockMeta U) (iw : IW) (cw : CW) (ss : list (source IX C CR TR)) :
  compactable M meta cw ss -> (forall a l, encodes a l -> cwl_ok (Recoded (achunk a))) ->
  (forall A (l : list A), range A l ≡ₚ l) ->
  exists ws cw' stats lcalls pcalls,
    populateBlock range (readers_of <$> ss) meta iw cw =
      (let? iw' := run_calls iw (ISymbols (⋃ (src_symbols <$> ss)) :: series_calls 0 ws ++ lcalls ++ pcalls) in
       Ok (stats, iw', cw')) /\
    merged (bm_MinTime meta) (bm_MaxTime meta) ss cw' ws /\ label_calls ws lcalls /\ posting_calls ws pcalls /\
    Plan.NumSamples stats = u64 (Z.of_nat (sum_list_with (fun s => length (merged_samples ss (fst s))) ws)) /\
    NumSeries stats = u64 (zlen ws) /\ NumTombstones stats = 0.
Proof.
  intros Hc Hrec Hperm. destruct (populateBlock_writes M range meta iw cw ss Hc Hrec Hperm) as (ws & cw' & stats & lcalls & pcalls & E & Hm & Hr).
  exists ws, cw', stats, lcalls, pcalls. split; [done|]. split; [apply Hm, Hc|done].
Qed.

(** Two blocks as lists of series, written to segment files and to a recorded index. *)
Module CompactExample.
Import ListIndex.

#[global] Instance record_writer : IndexWriter (list (icall (wchunk XORChunk))) (wchunk XORChunk) := {|
  iw_AddSymbols w s := Ok (w ++ [ISymbols s]);
  iw_AddSeries w r l chks := Ok (w ++ [ISeries r l chks]);
  iw_WriteLabelIndex w ns vs := Ok (w ++ [ILabelIndex ns vs]);
  iw_WritePostings w n v p := Ok (w ++ [IPostings n v p]);
|}.

(** The names and values in use. *)
#[global] Instance list_symbols : SymbolReader list_index := fun ix =>
  Ok (list_to_set (mjoin ((fun r : row => mjoin ((fun l : Label => [fst l; snd l]) <$> fst (snd r))) <$> li_rows ix))).

Definition c4 : Meta XORChunk := xor_meta 50 60 [(50, 1); (55, 2); (60, 3)].

Definition block2 : list (bseries XORChunk) := [
  mkBseries 1 [("a", "x")] [(at_ref 3 c4, [(50, 1); (55, 2); (60, 3)])] [mkInterval 55 58]]%string.

Definition source_of (b : list (bseries XORChunk)) (cs : gmap Z XORChunk) (ts : memTombstones) (lo hi : Z) :
    source list_index XORChunk (gmap Z XORChunk) memTombstones :=
  let ix := mkListIndex ((fun b => (b_ref b, (b_lset b, fst <$> b_chunks b))) <$> b) in
  mkSource ix cs ts (match ix_Symbols ix with Ok s => s | _ => ∅ end) b lo hi.

Definition source1 := source_of block chunk_map tombs 1 40.
Definition source2 := source_of block2 (map_imap (fun _ m => m_Chunk m) {[3 := c4]}) {[1 := [mkInterval 55 58]]} 50 70.

Definition meta : BlockMeta Z := mkBlockMeta 7 0 100 (mkStats 0 0 0 0) (mkCompaction 2 [1; 2] [] false).

Lemma xor_data (P : XORChunk -> Prop) (c : XORChunk) l :
  match XorChunk.Iterator c with Ok it => read_all 5 it | _ => None end = Some l ->
  XorChunk.NumSamples c = Ok (zlen l) -> P c -> data_ok P c l.
Proof.
  intros Hr Hn HP. destruct (XorChunk.Iterator c) as [it| |] eqn:E; [|done..]. split; [|done].
  exists it. split; [exact E|by eapply read_all_gives].
Qed.

Lemma samples_check lo hi (m : Meta XORChunk) l :
  bool_decide (Forall (fun s => m_MinTime m <= fst s <= m_MaxTime m) l /\ (lo <= m_MinTime m /\ m_MaxTime m <= hi) /\
    Forall (fun s => is_i64 (fst s) /\ is_u64 (snd s)) l /\ Z.of_nat (length l) <= 65535 /\ m_MinTime m <= m_MaxTime m) = true ->
  increasing_times l -> samples_ok lo hi m l.
Proof. intros (? & ? & ? & ? & ?)%bool_decide_eq_true ?. by split. Qed.

Lemma sources_ok : Forall (source_ok (I := xorIterator) (fun c => segment_chunk_ok (Source c)) (2 ^ 64)) [source1; source2].
Proof.
  repeat apply Forall_cons_2; [..|apply Forall_nil_2]; (split; [done|apply ListIndex.list_index_holds; [done|decided..]| |decided|decided]);
    repeat apply Forall_cons_2; [..|apply Forall_nil_2| |apply Forall_nil_2];
    (split; [reflexivity|reflexivity|decided|decided|]); repeat apply Forall_cons_2; try apply Forall_nil_2;
    (split; [apply samples_check; [reflexivity|by repeat constructor]|]);
    (eexists; split; [reflexivity|by apply xor_data; [reflexivity|reflexivity|by vm_compute]]).
Qed.
End CompactExample.

Lemma populateBlock_correct_witness :
  exists ws cw' stats lcalls pcalls,
    populateBlock (I := xorIterator) (fun A (l : list A) => l) (readers_of <$> [CompactExample.source1; CompactExample.source2]) CompactExample.meta
        ([] : list (icall (wchunk XORChunk))) NewWriter =
      (let? iw' := run_calls [] (ISymbols (⋃ (src_symbols <$> [CompactExample.source1; CompactExample.source2])) ::
                     series_calls 0 ws ++ lcalls ++ pcalls) in
       Ok (stats, iw', cw')) /\
    merged (I := xorIterator) 0 100 [CompactExample.source1; CompactExample.source2] cw' ws /\ label_calls ws lcalls /\ posting_calls ws pcalls /\
    Plan.NumSamples stats = u64 (Z.of_nat (sum_list_with (fun s => length (merged_samples [CompactExample.source1; CompactExample.source2] (fst s))) ws)) /\
    NumSeries stats = u64 (zlen ws) /\ NumTombstones stats = 0.
Proof.
  assert (PosBound (2 ^ 64)) by (unfold PosBound; lia).
  apply (populateBlock_correct (I := xorIterator) (2 ^ 64)); [|apply encodes_segment_ok|done].
  split; [done| |by repeat constructor|decided|done| |by apply new_writer_ready|done].
  - exact CompactExample.sources_ok.
  - intros ls. unfold chunk_count. cbn [sum_list_with src_series CompactExample.source1 CompactExample.source2 CompactExample.source_of].
    unfold ListIndex.block, CompactExample.block2. rewrite !filter_cons, !filter_nil. repeat case_decide; cbn; lia.
Defined.

(** * What goes wrong outside these conditions *)

(** The error of the chunk's iterator is not looked at: of a chunk whose data breaks off
    the samples before the break are written, the others are lost, and the compaction
    succeeds. *)
Theorem recode_ignores_error :
  let l := [(1, 10); (4, 11); (9, 12)] in
  let data c := mk_bstream (take 18 (Bytes c)) 0 in
  let broken := match m_Chunk (xor_meta 1 9 l) with Some c => mk_XORChunk (data c) | None => NewXORChunk end in
  kept [mkInterval 1 1] l = [(4, 11); (9, 12)] /\
  exists m c it, rewrite_chunk (I := xorIterator) 0 100 [mkInterval 1 1] (mkMeta 0 (Some broken) 1 9) = Ok m /\
    m_Chunk m = Some (Recoded c) /\ XorChunk.Iterator c = Ok it /\ read_all 5 it = Some [(4, 11)].
Proof. cbv zeta. split; [by vm_compute|]. eexists _, _, _. split_and!; [by vm_compute|reflexivity|reflexivity|by vm_compute]. Qed.

(** Several intervals that together delete all samples of a chunk, but none of them the
    whole chunk: a chunk without samples is written. *)
Theorem rewrite_leaves_empty_chunk :
  exists m c, rewrite_chunk (I := xorIterator) 0 100 [mkInterval 1 1; mkInterval 5 5] (xor_meta 1 5 [(1, 7); (5, 8)]) = Ok m /\
    not_deleted_chunks [mkInterval 1 1; mkInterval 5 5] [xor_meta 1 5 [(1, 7); (5, 8)]] = [xor_meta 1 5 [(1, 7); (5, 8)]] /\
    m_Chunk m = Some (Recoded c) /\ XorChunk.NumSamples c = Ok 0 /\ m_MinTime m = 1 /\ m_MaxTime m = 5.
Proof. eexists _, _. split_and!; [by vm_compute|by vm_compute|reflexivity|by vm_compute|done..]. Qed.

(** With the intervals out of order (as [add] leaves them when it swallows one) the
    overlap with all intervals is tested wrongly: a deleted sample is copied, and as the
    new block has no tombstones it comes back. *)
Theorem unordered_stones_revive :
  let ivs := foldl add [] [mkInterval 5 10; mkInterval 1 20] in
  let m := xor_meta 12 30 [(12, 1); (30, 2)] in
  deleted ivs 12 = true /\ not_deleted_chunks ivs [m] = [m] /\
  exists m', rewrite_chunk (I := xorIterator) 0 100 ivs m = Ok m' /\ m_Chunk m' = Source <$> m_Chunk m.
Proof. cbv zeta. split_and!; [by vm_compute|by vm_compute|]. eexists. by split; [vm_compute|]. Qed.
