(* ===== verification/IndexFile.v ===== *)
(** index/index.go: the index file of a block.  The writer with its stages, the
    sections of the file, and the reader; the file is the list of its bytes, as it is
    once the buffered writer is flushed. *)
From S2P Require Import Prelude Bits Varint Crc32 EncBuf Order Labels Postings MemPostings Chunks Querier Plan Db Compaction.
#[local] Open Scope list_scope.
#[local] Open Scope Z_scope.

Definition MagicIndex : Z := 0xBAAAD700.
Definition indexFormatV1 : Z := 1.
Definition indexFormatV2 : Z := 2.

(** * Writer *)

Inductive indexWriterStage :=
| idxStageNone | idxStageSymbols | idxStageSeries | idxStageLabelIndex | idxStagePostings | idxStageDone.

Definition stage_num (s : indexWriterStage) : Z :=
  match s with
  | idxStageNone => 0 | idxStageSymbols => 1 | idxStageSeries => 2
  | idxStageLabelIndex => 3 | idxStagePostings => 4 | idxStageDone => 5
  end.

Record indexTOC := mkTOC {
  toc_symbols : Z; toc_series : Z; toc_labelIndices : Z; toc_labelIndicesTable : Z; toc_postings : Z; toc_postingsTable : Z }.

Record hashEntry := mkHashEntry { he_keys : list string; he_offset : Z }.

(** [w_out] is what has been written; [pos] is its length.  The two buffers are reset
    before each use. *)
Record Writer := mkIndexWriter {
  w_out : list Z; w_toc : indexTOC; w_stage : indexWriterStage;
  w_symbols : gmap string Z; w_seriesOffsets : gmap Z Z;
  w_labelIndexes : list hashEntry; w_postings : list hashEntry; w_lastSeries : Labels }.

Definition w_pos (w : Writer) : Z := zlen (w_out w).

Definition with_out (w : Writer) (out : list Z) : Writer :=
  mkIndexWriter out (w_toc w) (w_stage w) (w_symbols w) (w_seriesOffsets w) (w_labelIndexes w) (w_postings w) (w_lastSeries w).
Definition with_stage (w : Writer) (toc : indexTOC) (s : indexWriterStage) : Writer :=
  mkIndexWriter (w_out w) toc s (w_symbols w) (w_seriesOffsets w) (w_labelIndexes w) (w_postings w) (w_lastSeries w).
Definition with_symbols (w : Writer) (m : gmap string Z) : Writer :=
  mkIndexWriter (w_out w) (w_toc w) (w_stage w) m (w_seriesOffsets w) (w_labelIndexes w) (w_postings w) (w_lastSeries w).
Definition with_series (w : Writer) (offsets : gmap Z Z) (last : Labels) : Writer :=
  mkIndexWriter (w_out w) (w_toc w) (w_stage w) (w_symbols w) offsets (w_labelIndexes w) (w_postings w) last.
Definition with_entries (w : Writer) (ls ps : list hashEntry) : Writer :=
  mkIndexWriter (w_out w) (w_toc w) (w_stage w) (w_symbols w) (w_seriesOffsets w) ls ps (w_lastSeries w).

(** One buffer: the size is checked behind it. *)
Definition write (w : Writer) (b : list Z) : res Writer :=
  let w := with_out w (w_out w ++ b) in
  if 16 * MaxUint32 <? w_pos w then Err (ErrMsg "exceeding max size of 64GiB") else Ok w.

Definition addPadding (w : Writer) (size : Z) : res Writer :=
  let p := w_pos w mod size in
  if p =? 0 then Ok w else write w (replicate (Z.to_nat (size - p)) 0).

Definition writeMeta (w : Writer) : res Writer :=
  write w (e_get (putByte indexFormatV2 (putBE32 MagicIndex (mk_encbuf [])))).

Definition empty_writer : Writer := mkIndexWriter [] (mkTOC 0 0 0 0 0 0) idxStageNone ∅ ∅ [] [] [].

Definition NewWriter : res Writer := writeMeta empty_writer.

(** A section with its length in 4 bytes before it and its checksum behind it. *)
Definition write_sized (w : Writer) (buf2 : encbuf) : res Writer :=
  let buf1 := putBE32int (e_len buf2) (mk_encbuf []) in
  let? w := write w (e_get buf1) in write w (e_get (putHash buf2)).

Definition put_keys (ks : list string) (e : encbuf) : encbuf := foldl (fun e k => putUvarintStr k e) e ks.

Definition put_entry (e : encbuf) (h : hashEntry) : encbuf :=
  putUvarint64 (he_offset h) (put_keys (he_keys h) (putUvarint (zlen (he_keys h)) e)).

Definition writeOffsetTable (w : Writer) (entries : list hashEntry) : res Writer :=
  write_sized w (foldl put_entry (putBE32int (zlen entries) (mk_encbuf [])) entries).

Definition indexTOCLen : Z := 6 * 8 + 4.

Definition writeTOC (w : Writer) : res Writer :=
  let t := w_toc w in
  write w (e_get (putHash (putBE64 (toc_postingsTable t) (putBE64 (toc_postings t) (putBE64 (toc_labelIndicesTable t)
    (putBE64 (toc_labelIndices t) (putBE64 (toc_series t) (putBE64 (toc_symbols t) (mk_encbuf []))))))))).

Definition ensureStage (w : Writer) (s : indexWriterStage) : res Writer :=
  if stage_num (w_stage w) =? stage_num s then Ok w
  else if stage_num s <? stage_num (w_stage w) then Err (ErrMsg "invalid stage")
  else
    let t := w_toc w in
    let pos := w_pos w in
    match s with
    | idxStageNone => Ok (with_stage w t s)
    | idxStageSymbols =>
        Ok (with_stage w (mkTOC pos (toc_series t) (toc_labelIndices t) (toc_labelIndicesTable t) (toc_postings t) (toc_postingsTable t)) s)
    | idxStageSeries =>
        Ok (with_stage w (mkTOC (toc_symbols t) pos (toc_labelIndices t) (toc_labelIndicesTable t) (toc_postings t) (toc_postingsTable t)) s)
    | idxStageLabelIndex =>
        Ok (with_stage w (mkTOC (toc_symbols t) (toc_series t) pos (toc_labelIndicesTable t) (toc_postings t) (toc_postingsTable t)) s)
    | idxStagePostings =>
        Ok (with_stage w (mkTOC (toc_symbols t) (toc_series t) (toc_labelIndices t) (toc_labelIndicesTable t) pos (toc_postingsTable t)) s)
    | idxStageDone =>
        let t := mkTOC (toc_symbols t) (toc_series t) (toc_labelIndices t) pos (toc_postings t) (toc_postingsTable t) in
        let? w := writeOffsetTable (with_stage w t (w_stage w)) (w_labelIndexes w) in
        let t := mkTOC (toc_symbols t) (toc_series t) (toc_labelIndices t) (toc_labelIndicesTable t) (toc_postings t) (w_pos w) in
        let? w := writeOffsetTable (with_stage w t (w_stage w)) (w_postings w) in
        let? w := writeTOC w in
        Ok (with_stage w t s)
    end.

(** ** Symbols *)

(** The table's map: the position of every symbol. *)
Fixpoint number_symbols (i : Z) (ss : list string) (m : gmap string Z) : gmap string Z :=
  match ss with [] => m | s :: ss => number_symbols (i + 1) ss (<[s := u32 i]> m) end.

Definition sort_strings (ss : list string) : list string := sort_by id str_cmp ss.

Definition AddSymbols (w : Writer) (sym : gset string) : res Writer :=
  let? w := ensureStage w idxStageSymbols in
  let symbols := sort_strings (elements sym) in
  let w := with_symbols w (number_symbols 0 symbols ∅) in
  write_sized w (foldl (fun e s => putUvarintStr s e) (putBE32int (zlen symbols) (mk_encbuf [])) symbols).

Definition lookup_ref (w : Writer) (s : string) : res Z :=
  match w_symbols w !! s with Some i => Ok i | None => Err (ErrMsg "symbol entry does not exist") end.

(** ** Series *)

Fixpoint put_labels (w : Writer) (lset : Labels) (e : encbuf) : res encbuf :=
  match lset with
  | [] => Ok e
  | l :: lset =>
      let? n := lookup_ref w (fst l) in
      let e := putUvarint32 n e in
      let? v := lookup_ref w (snd l) in
      put_labels w lset (putUvarint32 v e)
  end.

(** The chunks behind the first one. *)
Fixpoint put_metas {C} (t0 ref0 : Z) (chks : list (Meta C)) (e : encbuf) : encbuf :=
  match chks with
  | [] => e
  | c :: chks =>
      let e := putUvarint64 (u64 (m_MinTime c - t0)) e in
      let e := putUvarint64 (u64 (m_MaxTime c - m_MinTime c)) e in
      let e := putVarint64 (i64 (i64 (m_Ref c) - ref0)) e in
      put_metas (m_MaxTime c) (i64 (m_Ref c)) chks e
  end.

Definition put_chunks {C} (chks : list (Meta C)) (e : encbuf) : encbuf :=
  let e := putUvarint (zlen chks) e in
  match chks with
  | [] => e
  | c :: chks =>
      let e := putVarint64 (m_MinTime c) e in
      let e := putUvarint64 (u64 (m_MaxTime c - m_MinTime c)) e in
      let e := putUvarint64 (m_Ref c) e in
      put_metas (m_MaxTime c) (i64 (m_Ref c)) chks e
  end.

Definition AddSeries {C} (w : Writer) (ref : Z) (lset : Labels) (chks : list (Meta C)) : res Writer :=
  let? w := ensureStage w idxStageSeries in
  if Labels.Compare lset (w_lastSeries w) <=? 0 then Err (ErrMsg "out-of-order series")
  else if bool_decide (is_Some (w_seriesOffsets w !! ref)) then Err (ErrMsg "series already added")
  else
    let? w := addPadding w 16 in
    if negb (w_pos w mod 16 =? 0) then Err (ErrMsg "series write not 16-byte aligned")
    else
      let w := with_series w (<[ref := w_pos w / 16]> (w_seriesOffsets w)) (w_lastSeries w) in
      let? buf2 := put_labels w lset (putUvarint (zlen lset) (mk_encbuf [])) in
      let buf2 := put_chunks chks buf2 in
      let? w := write w (e_get (putUvarint (e_len buf2) (mk_encbuf []))) in
      let? w := write w (e_get (putHash buf2)) in
      Ok (with_series w (w_seriesOffsets w) lset).

(** ** Label indices *)

(** [stringTuples]: the entries of all tuples, one behind the other. *)
Record stringTuples := mkStrTuples { stt_length : Z; stt_entries : list string }.

Definition NewStringTuples (entries : list string) (length : Z) : res stringTuples :=
  if length =? 0 then Panic
  else if negb (Z.rem (zlen entries) length =? 0) then Err ErrInvalidSize
  else Ok (mkStrTuples length entries).

Definition stt_Len (t : stringTuples) : res Z :=
  if stt_length t =? 0 then Panic else Ok (Z.quot (zlen (stt_entries t)) (stt_length t)).

(** [At], [Swap] and [Less] take the number of a tuple for the position of its first
    entry, which it is for tuples of one name only. *)
Definition stt_At (t : stringTuples) (i : Z) : res (list string) :=
  slice (stt_entries t) i (i + stt_length t).

Fixpoint swap_loop (n : nat) (k i j : Z) (c es : list string) : res (list string) :=
  match n with
  | O => Ok es
  | S n =>
      let? x := index es (j + k) in
      let? es := set_index es (i + k) x in
      let? y := index c k in
      let? es := set_index es (j + k) y in
      swap_loop n (k + 1) i j c es
  end.

Definition stt_Swap (t : stringTuples) (i j : Z) : res stringTuples :=
  let? c := stt_At t i in
  let? es := swap_loop (Z.to_nat (stt_length t)) 0 i j c (stt_entries t) in
  Ok (mkStrTuples (stt_length t) es).

Fixpoint less_loop (n : nat) (k i j : Z) (es : list string) : res bool :=
  match n with
  | O => Ok false
  | S n =>
      let? x := index es (i + k) in
      let? y := index es (j + k) in
      match str_cmp x y with Lt => Ok true | Gt => Ok false | Eq => less_loop n (k + 1) i j es end
  end.

Definition stt_Less (t : stringTuples) (i j : Z) : res bool :=
  less_loop (Z.to_nat (stt_length t)) 0 i j (stt_entries t).

Fixpoint put_refs (w : Writer) (vs : list string) (e : encbuf) : res encbuf :=
  match vs with
  | [] => Ok e
  | v :: vs => let? i := lookup_ref w v in put_refs w vs (putBE32 i e)
  end.

Section LabelIndex.
(** What [sort.Sort] makes of tuples of several names with the [Less] and [Swap] above;
    for one name these compare and swap the
    entries themselves ([one_name_Less], [one_name_Swap] of IndexSpec). *)
Context (sort_tuples : nat -> list string -> list string).

Definition sorted_tuples (length : nat) (vs : list string) : list string :=
  if (length =? 1)%nat then sort_strings vs else sort_tuples length vs.

Definition WriteLabelIndex (w : Writer) (names values : list string) : res Writer :=
  if (length names =? 0)%nat then Panic
  else if negb (length values mod length names =? 0)%nat then Err (ErrMsg "invalid value list length")
  else
    let? w := ensureStage w idxStageLabelIndex in
    let entries := sorted_tuples (length names) values in
    let? w := addPadding w 4 in
    let w := with_entries w (w_labelIndexes w ++ [mkHashEntry names (w_pos w)]) (w_postings w) in
    let buf2 := putBE32int (zlen values / zlen names) (putBE32int (zlen names) (mk_encbuf [])) in
    let? buf2 := put_refs w entries buf2 in
    write_sized w buf2.
End LabelIndex.

(** ** Postings *)

(** The loop over the iterator. *)
Fixpoint collect_refs (fuel : nat) (w : Writer) (it : Postings) : res (list Z) :=
  match fuel with
  | O => Panic
  | S fuel =>
      let '(ok, it) := p_Next it in
      if negb ok then match p_Err it with Some e => Err e | None => Ok [] end
      else
        match w_seriesOffsets w !! p_At it with
        | None => Err (ErrMsg "series for reference not found")
        | Some offset =>
            if MaxUint32 <? offset then Err (ErrMsg "series offset exceeds 4 bytes")
            else let? refs := collect_refs fuel w it in Ok (offset :: refs)
        end
  end.

Definition WritePostings (w : Writer) (name value : string) (it : Postings) : res Writer :=
  let? w := ensureStage w idxStagePostings in
  let? w := addPadding w 4 in
  let w := with_entries w (w_labelIndexes w) (w_postings w ++ [mkHashEntry [name; value] (w_pos w)]) in
  let? refs := collect_refs (S (p_size it)) w it in
  let refs := sort_by id Z.compare refs in
  write_sized w (foldl (fun e r => putBE32 r e) (putBE32int (zlen refs) (mk_encbuf [])) refs).

(** The file. *)
Definition Close (w : Writer) : res (list Z) :=
  let? w := ensureStage w idxStageDone in Ok (w_out w).

#[export] Instance index_writer {C} : IndexWriter Writer C := {|
  iw_AddSymbols := AddSymbols;
  iw_AddSeries := AddSeries;
  iw_WriteLabelIndex := WriteLabelIndex (fun _ vs => vs);
  iw_WritePostings := WritePostings;
|}.

(** * Decoder *)

Definition lookupSymbol (symbols : gmap Z string) (o : Z) : res string :=
  match symbols !! o with Some s => Ok s | None => Err (ErrMsg "unknown symbol offset") end.

(** [of_bytes] takes what is left of the buffer; the count is only returned. *)
Definition dec_Postings (b : list Z) : res (Z * Postings) :=
  let? (n, d) := d_be32int (mk_decbuf b None) in
  match d_err d with Some e => Err e | None => Ok (n, of_bytes (d_get d)) end.

Fixpoint dec_labels (k : nat) (symbols : gmap Z string) (d : decbuf) : res (Labels * decbuf) :=
  match k with
  | O => Ok ([], d)
  | S k =>
      let? (lno, d) := d_uvarint d in
      let? (lvo, d) := d_uvarint d in
      match d_err d with
      | Some e => Err e
      | None =>
          let? ln := lookupSymbol symbols (u32 lno) in
          let? lv := lookupSymbol symbols (u32 lvo) in
          let? (ls, d) := dec_labels k symbols d in
          Ok ((ln, lv) :: ls, d)
      end
  end.

Fixpoint dec_metas {C} (k : nat) (t0 ref0 : Z) (d : decbuf) : res (list (Meta C) * decbuf) :=
  match k with
  | O => Ok ([], d)
  | S k =>
      let? (a, d) := d_uvarint64 d in
      let mint := i64 (i64 a + t0) in
      let? (b, d) := d_uvarint64 d in
      let maxt := i64 (i64 b + mint) in
      let? (r, d) := d_varint64 d in
      let ref0 := i64 (ref0 + r) in
      match d_err d with
      | Some e => Err e
      | None =>
          let? (ms, d) := dec_metas k maxt ref0 d in
          Ok (mkMeta (u64 ref0) None mint maxt :: ms, d)
      end
  end.

(** The error of the buffer is not looked at when the number of chunks is 0. *)
Definition dec_Series {C} (symbols : gmap Z string) (b : list Z) : res (Labels * list (Meta C)) :=
  let? (k, d) := d_uvarint (mk_decbuf b None) in
  let? (ls, d) := dec_labels (Z.to_nat k) symbols d in
  let? (k, d) := d_uvarint d in
  if k =? 0 then Ok (ls, [])
  else
    let? (t0, d) := d_varint64 d in
    let? (x, d) := d_uvarint64 d in
    let maxt := i64 (i64 x + t0) in
    let? (r, d) := d_uvarint64 d in
    let ref0 := i64 r in
    let? (ms, d) := dec_metas (Z.to_nat (k - 1)) maxt ref0 d in
    match d_err d with
    | Some e => Err e
    | None => Ok (ls, mkMeta (u64 ref0) None t0 maxt :: ms)
    end.

(** * Reader *)

Record Reader := mkIndexReader {
  rd_b : list Z; rd_toc : indexTOC; rd_labels : gmap string Z; rd_postings : gmap Label Z;
  rd_symbols : gmap Z string; rd_version : Z }.

(** A decoding buffer that is a failure from its start. *)
Definition failed_buf (e : error) : decbuf := mk_decbuf [] (Some e).

(** The last four bytes are the checksum of the others. *)
Definition checked_buf (b : list Z) : res decbuf :=
  let? data := slice b 0 (zlen b - 4) in
  let? rest := slice b (zlen b - 4) (zlen b) in
  let? exp := Uint32 rest in
  Ok (if crc32 data =? exp then mk_decbuf data None else failed_buf ErrInvalidChecksum).

Definition decbufAt (b : list Z) (off : Z) : res decbuf :=
  if zlen b <? i64 (off + 4) then Ok (failed_buf ErrInvalidSize)
  else
    let? h := slice b off (i64 (off + 4)) in
    let? l := Uint32 h in
    if zlen b <? i64 (off + 4 + l + 4) then Ok (failed_buf ErrInvalidSize)
    else
      let? c := slice b (i64 (off + 4)) (i64 (off + 4 + l + 4)) in
      checked_buf c.

Definition decbufUvarintAt (b : list Z) (off : Z) : res decbuf :=
  if zlen b <? i64 (off + Z.of_nat MaxVarintLen32) then Ok (failed_buf ErrInvalidSize)
  else
    let? h := slice b off (i64 (off + Z.of_nat MaxVarintLen32)) in
    let '(l, n) := Uvarint h in
    if (n <=? 0) || (Z.of_nat MaxVarintLen32 <? n) then Ok (failed_buf (ErrMsg "invalid uvarint"))
    else if zlen b <? i64 (off + n + i64 l + 4) then Ok (failed_buf ErrInvalidSize)
    else
      let? c := slice b (i64 (off + n)) (i64 (off + n + i64 l + 4)) in
      checked_buf c.

Definition readTOC (b : list Z) : res indexTOC :=
  if zlen b <? indexTOCLen then Err ErrInvalidSize
  else
    let? t := slice b (zlen b - indexTOCLen) (zlen b) in
    let? data := slice t 0 (zlen t - 4) in
    let? rest := slice t (zlen t - 4) (zlen t) in
    let? expCRC := Uint32 rest in
    if negb (crc32 data =? expCRC) then Err ErrInvalidChecksum
    else
      let? (a, d) := d_be64 (mk_decbuf data None) in
      let? (b, d) := d_be64 d in
      let? (c, d) := d_be64 d in
      let? (e, d) := d_be64 d in
      let? (f, d) := d_be64 d in
      let? (g, d) := d_be64 d in
      match d_err d with Some err => Err err | None => Ok (mkTOC a b c e f g) end.

(** The loop over the symbols: [pos_of] gives the next position in version 1. *)
Fixpoint read_symbols (fuel : nat) (version basePos origLen : Z) (nextPos cnt : Z) (d : decbuf) (m : gmap Z string) :
    res (gmap Z string) :=
  match d_err d with
  | Some e => Err e
  | None =>
      if (0 <? d_len d) && (0 <? cnt) then
        match fuel with
        | O => Panic
        | S fuel =>
            let? (s, d) := d_uvarintStr d in
            let m := <[nextPos := s]> m in
            let nextPos := if version =? 2 then u32 (nextPos + 1) else u32 (basePos + u32 (origLen - d_len d)) in
            read_symbols fuel version basePos origLen nextPos (cnt - 1) d m
        end
      else Ok m
  end.

Definition readSymbols (b : list Z) (version off : Z) : res (gmap Z string) :=
  if off =? 0 then Ok ∅
  else
    let? d := decbufAt b off in
    let origLen := d_len d in
    let? (cnt, d) := d_be32int d in
    let basePos := u32 (u32 off + 4) in
    let nextPos := if version =? 2 then 0 else u32 (basePos + u32 (origLen - d_len d)) in
    read_symbols (S (Z.to_nat (d_len d))) version basePos origLen nextPos cnt d ∅.

(** The keys of an entry: an error gives empty strings. *)
Fixpoint read_keys (k : nat) (d : decbuf) : res (list string * decbuf) :=
  match k with
  | O => Ok ([], d)
  | S k =>
      let? (s, d) := d_uvarintStr d in
      let? (ks, d) := read_keys k d in
      Ok (s :: ks, d)
  end.

(** [make([]string, 0, n)] panics for a negative [n] and beyond the address space. *)
Definition makeslice (n : Z) : res unit := if (0 <=? n) && (n <=? 2 ^ 44) then Ok () else Panic.

Fixpoint read_entries {S} (fuel : nat) (f : S -> list string -> Z -> res S) (cnt : Z) (d : decbuf) (s : S) : res S :=
  match d_err d with
  | Some e => Err e
  | None =>
      if (0 <? d_len d) && (0 <? cnt) then
        match fuel with
        | O => Panic
        | Datatypes.S fuel =>
            let? (keyCount, d) := d_uvarint d in
            let? _ := makeslice keyCount in
            let? (keys, d) := read_keys (Z.to_nat keyCount) d in
            let? (o, d) := d_uvarint64 d in
            match d_err d with
            | Some e => Err e
            | None => let? s := f s keys o in read_entries fuel f (cnt - 1) d s
            end
        end
      else Ok s
  end.

Definition readOffsetTable {S} (b : list Z) (off : Z) (f : S -> list string -> Z -> res S) (s : S) : res S :=
  let? d := decbufAt b (i64 off) in
  let? (cnt, d) := d_be32 d in
  read_entries (Datatypes.S (Z.to_nat (d_len d))) f cnt d s.

Definition add_label_entry (m : gmap string Z) (key : list string) (off : Z) : res (gmap string Z) :=
  match key with [k] => Ok (<[k := off]> m) | _ => Err (ErrMsg "unexpected key length") end.

Definition add_posting_entry (m : gmap Label Z) (key : list string) (off : Z) : res (gmap Label Z) :=
  match key with [n; v] => Ok (<[(n, v) := off]> m) | _ => Err (ErrMsg "unexpected key length") end.

Definition newReader (b : list Z) : res Reader :=
  if zlen b <? 5 then Err ErrInvalidSize
  else
    let? h := slice b 0 4 in
    let? m := Uint32 h in
    if negb (m =? MagicIndex) then Err (ErrMsg "invalid magic number")
    else
      let? v := slice b 4 5 in
      let? version := index v 0 in
      if negb (version =? 1) && negb (version =? 2) then Err (ErrMsg "unknown index file version")
      else
        let? toc := readTOC b in
        let? symbols := readSymbols b version (i64 (toc_symbols toc)) in
        let? labels := readOffsetTable b (toc_labelIndicesTable toc) add_label_entry ∅ in
        let? postings := readOffsetTable b (toc_postingsTable toc) add_posting_entry ∅ in
        Ok (mkIndexReader b toc labels postings symbols version).

Definition Symbols (r : Reader) : res (gset string) :=
  Ok (list_to_set (snd <$> map_to_list (rd_symbols r))).

Definition SymbolTable (r : Reader) : gmap Z string := rd_symbols r.

(** [PostingsRanges]: in an order of the map. *)
Fixpoint postings_ranges (b : list Z) (order : list (Label * Z)) (m : gmap Label (Z * Z)) : res (gmap Label (Z * Z)) :=
  match order with
  | [] => Ok m
  | (l, start) :: order =>
      let? d := decbufAt b (i64 start) in
      match d_err d with
      | Some e => Err e
      | None => postings_ranges b order (<[l := (i64 (i64 start + 4), i64 (i64 start + 4 + d_len d))]> m)
      end
  end.

Definition PostingsRanges (r : Reader) : res (gmap Label (Z * Z)) :=
  postings_ranges (rd_b r) (map_to_list (rd_postings r)) ∅.

(** ** Label values *)

Record serializedStringTuples := mkTuples { tp_idsCount : Z; tp_idsBytes : list Z; tp_symbols : gmap Z string }.

Definition tp_Len (t : serializedStringTuples) : res Z :=
  if tp_idsCount t =? 0 then Panic else Ok (zlen (tp_idsBytes t) / (4 * tp_idsCount t)).

Fixpoint tp_ids (t : serializedStringTuples) (n : nat) (k : Z) : res (list string) :=
  match n with
  | O => Ok []
  | S n =>
      let? rest := slice (tp_idsBytes t) (4 * k) (zlen (tp_idsBytes t)) in
      let? offset := Uint32 rest in
      let? s := lookupSymbol (tp_symbols t) offset in
      let? ss := tp_ids t n (k + 1) in
      Ok (s :: ss)
  end.

(** The ids from [i] on, whatever the length of a tuple. *)
Definition tp_At (t : serializedStringTuples) (i : Z) : res (list string) :=
  if zlen (tp_idsBytes t) <? (i + tp_idsCount t) * 4 then Err ErrInvalidSize
  else tp_ids t (Z.to_nat (tp_idsCount t)) i.

Definition label_sep : string := String (ascii_of_byte 255) EmptyString.

(** [None]: [emptyStringTuples]. *)
Definition LabelValues (r : Reader) (names : list string) : res (option serializedStringTuples) :=
  match rd_labels r !! String.concat label_sep names with
  | None => Ok None
  | Some off =>
      let? d := decbufAt (rd_b r) (i64 off) in
      let? (nc, d) := d_be32int d in
      let? (_, d) := d_be32 d in
      match d_err d with
      | Some e => Err e
      | None => Ok (Some (mkTuples nc (d_get d) (rd_symbols r)))
      end
  end.

(** [strings.Split] at the separator; [acc] is the part read so far. *)
Fixpoint split_sep (s : string) (acc : string) : list string :=
  match s with
  | EmptyString => [acc]
  | String c s =>
      if decide (c = ascii_of_byte 255) then acc :: split_sep s EmptyString
      else split_sep s (acc +:+ String c EmptyString)
  end.

(** In an order of the map. *)
Definition LabelIndices (r : Reader) : res (list (list string)) :=
  Ok ((fun e => split_sep (fst e) EmptyString) <$> map_to_list (rd_labels r)).

(** ** Series and postings *)

Definition reader_Series {C} (r : Reader) (id : Z) : res (Labels * list (Meta C)) :=
  let offset := if rd_version r =? 2 then u64 (id * 16) else id in
  let? d := decbufUvarintAt (rd_b r) (i64 offset) in
  match d_err d with Some e => Err e | None => dec_Series (rd_symbols r) (d_get d) end.

Definition reader_Postings (r : Reader) (name value : string) : res Postings :=
  match rd_postings r !! (name, value) with
  | None => Ok (of_err EmptyPostings)
  | Some off =>
      let? d := decbufAt (rd_b r) (i64 off) in
      match d_err d with
      | Some e => Err e
      | None => let? (_, p) := dec_Postings (d_get d) in Ok p
      end
  end.

(** The interface of the querier.  Its tuples cannot panic in [Len]: a table of 0 names,
    which no writer makes, panics when it is opened. *)
#[export] Instance index_reader {C} : IndexReader Reader C := {|
  ix_LabelValues r name :=
    let? t := LabelValues r [name] in
    match t with
    | None => Ok (mkStringTuples 0 (fun _ => Ok []))
    | Some t => let? n := tp_Len t in Ok (mkStringTuples (Z.to_nat n) (fun i => tp_At t (Z.of_nat i)))
    end;
  ix_Postings := reader_Postings;
  ix_SortedPostings _ p := p;
  ix_Series := reader_Series;
|}.

#[export] Instance index_symbols : SymbolReader Reader := Symbols.
