(* ===== verification/IndexSpec.v ===== *)
(** index/index.go: a block's index read back.  The sections the writer makes, their
    layout in the file, and what the reader of the whole file answers. *)
From S2P Require Import Prelude Bits Varint Crc32 EncBuf Order Labels Postings PostingsSpec MemPostings XorChunk Chunks Querier Plan Db Compaction CompactSpec IndexFile.
#[local] Open Scope list_scope.
#[local] Open Scope Z_scope.

(** * Bytes at a position *)

Definition bytes_at (b : list Z) (off : Z) (bs : list Z) : Prop := exists l r, b = l ++ bs ++ r /\ zlen l = off.

Lemma bytes_at_end l bs : bytes_at (l ++ bs) (zlen l) bs.
Proof. exists l, []. by rewrite app_nil_r. Qed.

Lemma bytes_at_app b c off bs : bytes_at b off bs -> bytes_at (b ++ c) off bs.
Proof. intros (l & r & -> & Hl). exists l, (r ++ c). by rewrite <- !(assoc_L (++)). Qed.

Lemma bytes_at_l b off x y : bytes_at b off (x ++ y) -> bytes_at b off x.
Proof. intros (l & r & -> & Hl). exists l, (y ++ r). by rewrite <- !(assoc_L (++)). Qed.

Lemma bytes_at_r b off x y : bytes_at b off (x ++ y) -> bytes_at b (off + zlen x) y.
Proof. intros (l & r & -> & <-). exists (l ++ x), r. split; [by rewrite <- !(assoc_L (++))|by rewrite zlen_app]. Qed.

Lemma bytes_at_bound b off bs : bytes_at b off bs -> 0 <= off /\ off + zlen bs <= zlen b.
Proof.
  intros (l & r & -> & <-). rewrite !zlen_app. pose proof (zlen_nonneg l). pose proof (zlen_nonneg r). lia.
Qed.

Lemma slice_at b off bs e : bytes_at b off bs -> e = off + zlen bs -> slice b off e = Ok bs.
Proof. intros (l & r & -> & Hl) ->. by apply slice_mid; rewrite Hl. Qed.

Lemma slice_prefix {A} (x y : list A) : slice (x ++ y) 0 (zlen x) = Ok x.
Proof. by apply (slice_mid [] x y). Qed.

Lemma slice_suffix {A} (x y : list A) : slice (x ++ y) (zlen x) (zlen (x ++ y)) = Ok y.
Proof. rewrite <- (app_nil_r y) at 1. apply slice_mid; [done|by rewrite zlen_app]. Qed.

(** ** Sections *)

Definition seal (data : list Z) : list Z := data ++ PutUint32 (crc32 data).
Definition section (data : list Z) : list Z := PutUint32 (u32 (zlen data)) ++ seal data.
Definition uv_section (data : list Z) : list Z := PutUvarint (u64 (zlen data)) ++ seal data.

Lemma zlen_seal data : zlen (seal data) = zlen data + 4.
Proof. unfold seal. by rewrite zlen_app, zlen_PutUint32. Qed.

Lemma zlen_section data : zlen (section data) = zlen data + 8.
Proof. unfold section. rewrite zlen_app, zlen_PutUint32, zlen_seal. lia. Qed.

Lemma Uint32_Put x l : is_u 32 x -> Uint32 (PutUint32 x ++ l) = Ok x.
Proof. intros Hx. unfold Uint32, PutUint32. rewrite UintN_app. by rewrite (Z.mod_small x) by exact Hx. Qed.

Lemma Uint32_Put' x : is_u 32 x -> Uint32 (PutUint32 x) = Ok x.
Proof. intros Hx. rewrite <- (app_nil_r (PutUint32 x)). by apply Uint32_Put. Qed.

Lemma checked_buf_seal data : Forall is_byte data -> checked_buf (seal data) = Ok (mk_decbuf data None).
Proof.
  intros Hb. unfold checked_buf. rewrite zlen_seal, Z.add_simpl_r. unfold seal.
  rewrite slice_prefix. cbn [res_bind]. replace (zlen data + 4) with (zlen (data ++ PutUint32 (crc32 data))) by (by rewrite zlen_app, zlen_PutUint32).
  rewrite slice_suffix. cbn [res_bind]. rewrite Uint32_Put' by by apply crc32_range. cbn [res_bind]. by rewrite Z.eqb_refl.
Qed.

Lemma zlen_PutUvarint32 x : is_u 32 x -> 1 <= zlen (PutUvarint x) <= 5.
Proof.
  intros Hx. pose proof (length_PutUvarint x). pose proof (length_uvarint_bytes MaxVarintLen64 5 x) as Hl.
  change (2 ^ (7 * Z.of_nat 5)) with (2 ^ 35) in Hl. fold (PutUvarint x) in Hl. unfold zlen, is_u in *. lia.
Qed.

Section Buffers.
Context (b : list Z) (Hb : zlen b < 2 ^ 62).

Lemma decbufAt_section off data :
  bytes_at b off (section data) -> Forall is_byte data -> zlen data < 2 ^ 32 -> decbufAt b off = Ok (mk_decbuf data None).
Proof using Hb.
  intros Hat Hd Hl. pose proof (bytes_at_bound _ _ _ Hat) as [Ho He]. rewrite zlen_section in He. pose proof (zlen_nonneg data).
  unfold section in Hat. pose proof (bytes_at_l _ _ _ _ Hat) as H1. apply bytes_at_r in Hat. rewrite zlen_PutUint32 in Hat.
  unfold decbufAt. rewrite !(i64_small (off + 4)) by zlia. rewrite (proj2 (Z.ltb_ge _ _)) by lia.
  rewrite (slice_at _ _ _ _ H1) by (by rewrite zlen_PutUint32). cbn [res_bind].
  assert (u32 (zlen data) = zlen data) as -> by zlia. rewrite Uint32_Put' by zlia. cbn [res_bind]. rewrite !i64_small by zlia.
  rewrite (proj2 (Z.ltb_ge _ _)) by lia. rewrite (slice_at _ _ _ _ Hat) by (rewrite zlen_seal; lia). by apply checked_buf_seal.
Qed.

(** The length of a series, which must not be at the end of the file. *)
Lemma decbufUvarintAt_section off data :
  bytes_at b off (uv_section data) -> Forall is_byte data -> zlen data < 2 ^ 32 -> off + 5 <= zlen b ->
  decbufUvarintAt b off = Ok (mk_decbuf data None).
Proof using Hb.
  intros Hat Hd Hl Hend. pose proof (bytes_at_bound _ _ _ Hat) as [Ho He]. pose proof (zlen_nonneg data).
  unfold uv_section in *. rewrite u64_small in * by zlia. set (u := PutUvarint (zlen data)) in *.
  rewrite zlen_app, zlen_seal in He. assert (Hu : 1 <= zlen u <= 5) by (apply zlen_PutUvarint32; zlia).
  pose proof (bytes_at_l _ _ _ _ Hat) as (l & r & E & El). apply bytes_at_r in Hat.
  unfold decbufUvarintAt. change (Z.of_nat MaxVarintLen32) with 5. rewrite (i64_small (off + 5)) by zlia.
  rewrite (proj2 (Z.ltb_ge _ _)) by lia. rewrite slice_ok by lia.
  assert (Hh : exists r', take (Z.to_nat (off + 5 - off)) (drop (Z.to_nat off) b) = u ++ r').
  { rewrite E, drop_zlen_app by done. rewrite take_app, (take_ge u) by (unfold zlen in Hu; lia). by eexists. }
  destruct Hh as [r' ->]. cbn [res_bind]. unfold u at 1. rewrite Uvarint_PutUvarint by zlia. fold u.
  change (Z.of_nat (length u)) with (zlen u).
  rewrite (proj2 (Z.leb_gt _ _)), (proj2 (Z.ltb_ge 5 _)) by lia. cbn [orb].
  rewrite (i64_small (zlen data)), !i64_small by zlia.
  rewrite (proj2 (Z.ltb_ge _ _)) by lia. rewrite (slice_at _ _ _ _ Hat) by (rewrite zlen_seal; lia). by apply checked_buf_seal.
Qed.
End Buffers.

(** * The contents of the sections *)

Definition str_data (s : string) : list Z := PutUvarint (u64 (Z.of_nat (length (string_bytes s)))) ++ string_bytes s.

Definition symbols_data (ss : list string) : list Z := PutUint32 (u32 (zlen ss)) ++ mjoin (str_data <$> ss).

Definition entry_data (h : hashEntry) : list Z :=
  PutUvarint (u64 (zlen (he_keys h))) ++ mjoin (str_data <$> he_keys h) ++ PutUvarint (he_offset h).

Definition table_data (es : list hashEntry) : list Z := PutUint32 (u32 (zlen es)) ++ mjoin (entry_data <$> es).

Section Refs.
Context (m : gmap string Z).

(** The number of a symbol. *)
Definition sym (s : string) : Z := default 0 (m !! s).

Definition labels_data (l : Labels) : list Z :=
  mjoin ((fun nv => PutUvarint (u64 (sym (fst nv))) ++ PutUvarint (u64 (sym (snd nv)))) <$> l).

Fixpoint metas_data {C} (t0 ref0 : Z) (chks : list (Meta C)) : list Z :=
  match chks with
  | [] => []
  | c :: chks =>
      PutUvarint (u64 (m_MinTime c - t0)) ++ PutUvarint (u64 (m_MaxTime c - m_MinTime c)) ++
      PutVarint (i64 (i64 (m_Ref c) - ref0)) ++ metas_data (m_MaxTime c) (i64 (m_Ref c)) chks
  end.

Definition chunks_data {C} (chks : list (Meta C)) : list Z :=
  PutUvarint (u64 (zlen chks)) ++
  match chks with
  | [] => []
  | c :: chks =>
      PutVarint (m_MinTime c) ++ PutUvarint (u64 (m_MaxTime c - m_MinTime c)) ++ PutUvarint (m_Ref c) ++
      metas_data (m_MaxTime c) (i64 (m_Ref c)) chks
  end.

Definition series_data {C} (s : Labels * list (Meta C)) : list Z :=
  PutUvarint (u64 (zlen (fst s))) ++ labels_data (fst s) ++ chunks_data (snd s).

(** The values are sorted when they are written. *)
Definition values_data (names : nat) (vs : list string) : list Z :=
  PutUint32 (u32 (Z.of_nat names)) ++ PutUint32 (u32 (zlen vs / Z.of_nat names)) ++ mjoin ((fun v => PutUint32 (sym v)) <$> vs).
End Refs.

Definition refs_data (refs : list Z) : list Z := PutUint32 (u32 (zlen refs)) ++ mjoin (PutUint32 <$> refs).

(** ** Written *)

Lemma foldl_put {A} (put : A -> encbuf -> encbuf) (enc : A -> list Z) l e :
  (forall x e, put x e = mk_encbuf (eb e ++ enc x)) ->
  foldl (fun e x => put x e) e l = mk_encbuf (eb e ++ mjoin (enc <$> l)).
Proof.
  intros Hp. revert e. induction l as [|x l IH]; intros e; cbn [foldl].
  - by rewrite app_nil_r; destruct e.
  - rewrite IH, Hp, fmap_cons, join_cons. cbn [eb]. by rewrite <- (assoc_L (++)).
Qed.

Lemma putUvarintStr_data s e : putUvarintStr s e = mk_encbuf (eb e ++ str_data s).
Proof. unfold putUvarintStr, putString, putUvarint, putUvarint64, str_data. cbn [eb]. by rewrite <- (assoc_L (++)). Qed.

Lemma put_entry_data h e : put_entry e h = mk_encbuf (eb e ++ entry_data h).
Proof.
  unfold put_entry, put_keys. rewrite (foldl_put putUvarintStr str_data _ _ putUvarintStr_data).
  unfold putUvarint, putUvarint64, entry_data. cbn [eb]. by rewrite <- !(assoc_L (++)).
Qed.

Lemma put_symbols_data ss :
  foldl (fun e s => putUvarintStr s e) (putBE32int (zlen ss) (mk_encbuf [])) ss = mk_encbuf (symbols_data ss).
Proof. by rewrite (foldl_put putUvarintStr str_data _ _ putUvarintStr_data). Qed.

Lemma put_table_data es : foldl put_entry (putBE32int (zlen es) (mk_encbuf [])) es = mk_encbuf (table_data es).
Proof. by rewrite (foldl_put (fun h e => put_entry e h) entry_data _ _ put_entry_data). Qed.

Lemma put_refs_data rs : foldl (fun e r => putBE32 r e) (putBE32int (zlen rs) (mk_encbuf [])) rs = mk_encbuf (refs_data rs).
Proof. by rewrite (foldl_put putBE32 PutUint32). Qed.

Lemma put_labels_data w l e :
  (forall nv, nv ∈ l -> is_Some (w_symbols w !! fst nv) /\ is_Some (w_symbols w !! snd nv)) ->
  put_labels w l e = Ok (mk_encbuf (eb e ++ labels_data (w_symbols w) l)).
Proof.
  revert e. induction l as [|[n v] l IH]; intros e Hl; cbn [put_labels].
  - unfold labels_data. cbn. by rewrite app_nil_r; destruct e.
  - destruct (Hl (n, v)) as [[i Hi] [j Hj]]; [left|]. unfold lookup_ref. cbn [fst snd] in *. rewrite Hi, Hj. cbn [res_bind].
    rewrite IH by (intros; apply Hl; by right). unfold labels_data, putUvarint32, putUvarint64, sym.
    rewrite fmap_cons, join_cons. cbn [eb fst snd]. rewrite Hi, Hj. cbn [default]. by rewrite <- !(assoc_L (++)).
Qed.

Lemma put_metas_data {C} t0 ref0 (chks : list (Meta C)) e :
  put_metas t0 ref0 chks e = mk_encbuf (eb e ++ metas_data t0 ref0 chks).
Proof.
  revert t0 ref0 e. induction chks as [|c chks IH]; intros t0 ref0 e; cbn [put_metas metas_data].
  - by rewrite app_nil_r; destruct e.
  - rewrite IH. unfold putUvarint64, putVarint64. cbn [eb]. by rewrite <- !(assoc_L (++)).
Qed.

Lemma put_chunks_data {C} (chks : list (Meta C)) e : put_chunks chks e = mk_encbuf (eb e ++ chunks_data chks).
Proof.
  unfold put_chunks, chunks_data, putUvarint, putUvarint64, putVarint64. destruct chks as [|c chks]; [by rewrite app_nil_r|].
  rewrite put_metas_data. cbn [eb]. by rewrite <- !(assoc_L (++)).
Qed.

Lemma put_refs_values w vs e :
  (forall v, v ∈ vs -> is_Some (w_symbols w !! v)) ->
  put_refs w vs e = Ok (mk_encbuf (eb e ++ mjoin ((fun v => PutUint32 (sym (w_symbols w) v)) <$> vs))).
Proof.
  revert e. induction vs as [|v vs IH]; intros e Hv; cbn [put_refs].
  - cbn. by rewrite app_nil_r; destruct e.
  - destruct (Hv v) as [i Hi]; [left|]. unfold lookup_ref. rewrite Hi. cbn [res_bind].
    rewrite IH by (intros; apply Hv; by right). rewrite fmap_cons, join_cons. unfold sym at 2. rewrite Hi.
    cbn [eb putBE32 default]. by rewrite <- (assoc_L (++)).
Qed.

(** ** Sizes *)

Definition zsum {A} (f : A -> Z) (l : list A) : Z := foldr (fun x n => f x + n) 0 l.

Lemma zsum_cons {A} (f : A -> Z) x l : zsum f (x :: l) = f x + zsum f l.
Proof. done. Qed.

Lemma zsum_app {A} (f : A -> Z) l k : zsum f (l ++ k) = zsum f l + zsum f k.
Proof. induction l as [|x l IH]; cbn [app zsum foldr]; [done|]. unfold zsum in *. lia. Qed.

Lemma zsum_const {A} n (l : list A) : zsum (fun _ => n) l = n * zlen l.
Proof. unfold zsum, zlen. induction l as [|x l IH]; cbn [foldr length] in *; lia. Qed.

Lemma zsum_perm {A} (f : A -> Z) l k : l ≡ₚ k -> zsum f l = zsum f k.
Proof. unfold zsum. induction 1; cbn [foldr] in *; lia. Qed.

Lemma zsum_nonneg {A} (f : A -> Z) l : (forall x, 0 <= f x) -> 0 <= zsum f l.
Proof. intros Hf. induction l as [|x l IH]; [done|]. specialize (Hf x). unfold zsum in *. cbn. lia. Qed.

(** Bytes, at most [n]. *)
Definition within (n : Z) (bs : list Z) : Prop := Forall is_byte bs /\ zlen bs <= n.

Lemma within_app n k x y : within n x -> within k y -> within (n + k) (x ++ y).
Proof. intros [Hx Lx] [Hy Ly]. split; [by apply Forall_app|]. rewrite zlen_app. lia. Qed.

Lemma within_weaken n k x : within n x -> n <= k -> within k x.
Proof. intros [? ?] ?. split; [done|lia]. Qed.

Lemma within_nil : within 0 [].
Proof. by split. Qed.

Lemma within_uvarint x : is_u64 x -> within 10 (PutUvarint x).
Proof. intros Hx. split; [apply Forall_PutUvarint|]. pose proof (length_PutUvarint_u64 x Hx). unfold zlen. lia. Qed.

Lemma within_varint x : is_i64 x -> within 10 (PutVarint x).
Proof. intros Hx. by apply within_uvarint, zigzag_range. Qed.

Lemma within_be32 x : within 4 (PutUint32 x).
Proof. split; [apply Forall_be_bytes|by rewrite zlen_PutUint32]. Qed.

Lemma within_join {A} (f : A -> Z) (enc : A -> list Z) l :
  (forall x, x ∈ l -> within (f x) (enc x)) -> within (zsum f l) (mjoin (enc <$> l)).
Proof.
  intros Hl. induction l as [|x l IH]; [apply within_nil|]. rewrite fmap_cons, join_cons.
  apply (within_app (f x) (zsum f l)); [apply Hl; left|apply IH; intros; apply Hl; by right].
Qed.

Create HintDb within.
#[export] Hint Resolve within_app within_nil within_uvarint within_varint within_be32 u64_range i64_range : within.

(** Splits the bytes into their parts, and bounds the sum. *)
Ltac within := eapply within_weaken; [eauto 12 with within|].

Definition str_cost (s : string) : Z := 10 + Z.of_nat (length (string_bytes s)).
Definition entry_cost (h : hashEntry) : Z := 20 + zsum str_cost (he_keys h).

Lemma within_str s : within (str_cost s) (str_data s).
Proof. unfold str_data, str_cost. apply within_app; [auto with within|]. split; [apply Forall_string_bytes|done]. Qed.

Lemma within_symbols ss : within (4 + zsum str_cost ss) (symbols_data ss).
Proof. apply within_app; [apply within_be32|]. apply within_join. intros s _. apply within_str. Qed.

Lemma within_entry h : is_u64 (he_offset h) -> within (entry_cost h) (entry_data h).
Proof.
  intros Ho. unfold entry_data, entry_cost. eapply within_weaken.
  - apply within_app; [auto with within|apply within_app; [apply (within_join str_cost); intros; apply within_str|by apply within_uvarint]].
  - lia.
Qed.

Lemma within_table es : Forall (fun h => is_u64 (he_offset h)) es -> within (4 + zsum entry_cost es) (table_data es).
Proof.
  rewrite Forall_forall. intros He. apply within_app; [apply within_be32|]. apply within_join. intros h Hh. by apply within_entry, He.
Qed.

Lemma within_labels m l : within (20 * zlen l) (labels_data m l).
Proof. rewrite <- zsum_const. apply within_join. intros nv _. within. lia. Qed.

(** The times and the reference of a chunk are of their types. *)
Definition meta_ok {C} (c : Meta C) : Prop := is_i64 (m_MinTime c) /\ is_i64 (m_MaxTime c) /\ is_u64 (m_Ref c).

Lemma within_metas {C} t0 ref0 (chks : list (Meta C)) : within (30 * zlen chks) (metas_data t0 ref0 chks).
Proof.
  revert t0 ref0. induction chks as [|c chks IH]; intros t0 ref0; [apply within_nil|]. cbn [metas_data]. within.
  unfold zlen. cbn [length]. lia.
Qed.

Lemma within_series {C} m (s : Labels * list (Meta C)) :
  Forall meta_ok (snd s) -> within (20 + 20 * zlen (fst s) + 30 * zlen (snd s)) (series_data m s).
Proof.
  intros Hc. unfold series_data, chunks_data. pose proof (within_labels m (fst s)).
  assert (within (10 + 30 * zlen (snd s)) (chunks_data (snd s))).
  { unfold chunks_data. destruct Hc as [|c chks (? & ? & ?) _]; [within; done|]. pose proof (within_metas (m_MaxTime c) (i64 (m_Ref c)) chks).
    within. unfold zlen. cbn [length]. lia. }
  within. unfold zlen. lia.
Qed.

Lemma within_values m k vs : within (8 + 4 * zlen vs) (values_data m k vs).
Proof.
  unfold values_data. assert (within (4 * zlen vs) (mjoin ((fun v => PutUint32 (sym m v)) <$> vs))).
  { rewrite <- zsum_const. apply within_join. intros v _. apply within_be32. }
  within. lia.
Qed.

Lemma within_refs rs : within (4 + 4 * zlen rs) (refs_data rs).
Proof. apply within_app; [apply within_be32|]. rewrite <- zsum_const. apply within_join. intros v _. apply within_be32. Qed.

(** ** Read back *)

(** A meta as the index gives it: without the chunk. *)
Definition bare {C D} (c : Meta C) : Meta D := mkMeta (m_Ref c) None (m_MinTime c) (m_MaxTime c).

Section Decoding.
Context (m : gmap string Z) (rm : gmap Z string).
Context (Hrm : forall s i, m !! s = Some i -> is_u 32 i /\ rm !! i = Some s).

Lemma lookupSymbol_sym s : is_Some (m !! s) -> is_u 32 (sym m s) /\ lookupSymbol rm (sym m s) = Ok s.
Proof using All. intros [i Hi]. unfold sym, lookupSymbol. rewrite Hi. cbn. destruct (Hrm _ _ Hi) as [? Hr]. by rewrite Hr. Qed.

Lemma dec_labels_data l :
  (forall nv, nv ∈ l -> is_Some (m !! fst nv) /\ is_Some (m !! snd nv)) ->
  decodes (dec_labels (length l) rm) (labels_data m l) l.
Proof using All.
  induction l as [|[n v] l IH]; intros Hl rest; [done|].
  destruct (Hl (n, v)) as [Hn Hv]; [left|]. cbn [fst snd] in *.
  destruct (lookupSymbol_sym n Hn) as [Rn En], (lookupSymbol_sym v Hv) as [Rv Ev].
  unfold labels_data. rewrite fmap_cons, join_cons. cbn [length dec_labels fst snd]. rewrite <- !(assoc_L (++)).
  rewrite (decodes_uvarint (sym m n)) by zlia. cbn [res_bind]. rewrite (decodes_uvarint (sym m v)) by zlia. cbn [res_bind d_err de].
  rewrite !(wrapU_small 32) by done. rewrite En. cbn [res_bind]. rewrite Ev. cbn [res_bind].
  rewrite IH; [done|]. intros nv Hnv. apply Hl. by right.
Qed.

Lemma dec_metas_data {C D} t0 ref0 (chks : list (Meta C)) :
  is_i64 t0 -> is_i64 ref0 -> Forall meta_ok chks ->
  decodes (dec_metas (C := D) (length chks) t0 ref0) (metas_data t0 ref0 chks) (bare <$> chks).
Proof using Type.
  intros Ht Hr Hc. revert t0 ref0 Ht Hr. induction Hc as [|c chks (Hmin & Hmax & Href) _ IH]; intros t0 ref0 Ht Hr rest; [done|].
  cbn [length metas_data dec_metas]. rewrite <- !(assoc_L (++)).
  rewrite decodes_uvarint64 by apply u64_range. cbn [res_bind]. rewrite decodes_uvarint64 by apply u64_range. cbn [res_bind].
  rewrite decodes_varint64 by apply i64_range. cbn [res_bind d_err de].
  assert (i64 (i64 (u64 (m_MinTime c - t0)) + t0) = m_MinTime c) as -> by zlia.
  assert (i64 (i64 (u64 (m_MaxTime c - m_MinTime c)) + m_MinTime c) = m_MaxTime c) as -> by zlia.
  assert (i64 (ref0 + i64 (i64 (m_Ref c) - ref0)) = i64 (m_Ref c)) as -> by zlia.
  rewrite IH by (done || apply i64_range). cbn [res_bind]. rewrite fmap_cons.
  assert (u64 (i64 (m_Ref c)) = m_Ref c) as -> by zlia. done.
Qed.

Lemma dec_Series_data {C D} (s : Labels * list (Meta C)) :
  (forall nv, nv ∈ fst s -> is_Some (m !! fst nv) /\ is_Some (m !! snd nv)) ->
  Forall meta_ok (snd s) -> zlen (fst s) < 2 ^ 32 -> zlen (snd s) < 2 ^ 32 ->
  dec_Series (C := D) rm (series_data m s) = Ok (fst s, bare <$> snd s).
Proof using All.
  intros Hl Hc Ll Lc. destruct s as [l chks]. unfold series_data, dec_Series. cbn [fst snd] in *.
  pose proof (zlen_nonneg l). pose proof (zlen_nonneg chks).
  rewrite (decodes_uvarint (zlen l)) by lia. cbn [res_bind]. unfold zlen at 1. rewrite Nat2Z.id.
  rewrite dec_labels_data by done. cbn [res_bind]. unfold chunks_data.
  rewrite (decodes_uvarint (zlen chks)) by lia. cbn [res_bind].
  destruct Hc as [|c chks (Hmin & Hmax & Href) Hc]; [done|]. rewrite (proj2 (Z.eqb_neq _ _)) by (unfold zlen; cbn [length]; lia).
  rewrite decodes_varint64 by done. cbn [res_bind]. rewrite decodes_uvarint64 by apply u64_range. cbn [res_bind].
  rewrite decodes_uvarint64 by done. cbn [res_bind].
  assert (i64 (i64 (u64 (m_MaxTime c - m_MinTime c)) + m_MinTime c) = m_MaxTime c) as -> by zlia.
  replace (Z.to_nat (zlen (c :: chks) - 1)) with (length chks) by (unfold zlen; cbn [length]; lia).
  rewrite <- (app_nil_r (metas_data _ _ _)). rewrite dec_metas_data by (done || apply i64_range). cbn [res_bind d_err de].
  rewrite fmap_cons. assert (u64 (i64 (m_Ref c)) = m_Ref c) as -> by zlia. done.
Qed.
End Decoding.

(** *** Symbols *)

(** The table of the reader, from the number [i] on. *)
Fixpoint table_of (i : Z) (ss : list string) (t : gmap Z string) : gmap Z string :=
  match ss with [] => t | s :: ss => table_of (i + 1) ss (<[i := s]> t) end.

Lemma read_symbols_data fuel base orig i ss t :
  (length ss < fuel)%nat -> 0 <= i -> i + zlen ss < 2 ^ 32 -> Forall (fun s => Z.of_nat (length (string_bytes s)) < 2 ^ 63) ss ->
  read_symbols fuel 2 base orig i (zlen ss) (mk_decbuf (mjoin (str_data <$> ss)) None) t = Ok (table_of i ss t).
Proof.
  intros Hf Hi Hn Hs. revert fuel i t Hf Hi Hn. induction Hs as [|s ss Hs _ IH]; intros fuel i t Hf Hi Hn.
  - destruct fuel; [cbn in Hf; lia|]. done.
  - destruct fuel as [|fuel]; [lia|]. cbn [length] in Hf. rewrite fmap_cons, join_cons. cbn [read_symbols d_err de].
    assert (0 < d_len (mk_decbuf (str_data s ++ mjoin (str_data <$> ss)) None)).
    { unfold d_len, str_data. cbn [db]. rewrite !length_app. pose proof (length_PutUvarint (u64 (Z.of_nat (length (string_bytes s))))). lia. }
    rewrite (proj2 (Z.ltb_lt _ _)) by done. rewrite (proj2 (Z.ltb_lt 0 (zlen (s :: ss)))) by (unfold zlen; cbn [length]; lia).
    cbn [andb]. unfold str_data at 1. rewrite decodes_uvarintStr by done. cbn [res_bind table_of]. change (2 =? 2) with true. cbn match.
    replace (zlen (s :: ss) - 1) with (zlen ss) by (unfold zlen; cbn [length]; lia).
    replace (u32 (i + 1)) with (i + 1) by (unfold zlen in Hn; cbn [length] in Hn; zlia).
    apply IH; [lia..|]. unfold zlen in *; cbn [length] in *; lia.
Qed.

Lemma table_of_lookup i ss t j :
  table_of i ss t !! j = if decide (i <= j < i + zlen ss) then ss !! Z.to_nat (j - i) else t !! j.
Proof.
  revert i t. induction ss as [|s ss IH]; intros i t; cbn [table_of].
  - case_decide; [|done]. unfold zlen in *. cbn [length] in *. lia.
  - rewrite IH. unfold zlen. cbn [length]. repeat case_decide; try lia.
    + replace (Z.to_nat (j - i)) with (S (Z.to_nat (j - (i + 1)))) by lia. done.
    + assert (j = i) as -> by lia. rewrite lookup_insert_eq, Z.sub_diag. done.
    + by rewrite lookup_insert_ne by lia.
Qed.

Lemma number_symbols_lookup i ss t s k :
  NoDup ss -> i + zlen ss <= 2 ^ 32 -> 0 <= i ->
  (number_symbols i ss t !! s = Some k <-> (exists n, ss !! n = Some s /\ k = i + Z.of_nat n) \/ s ∉ ss /\ t !! s = Some k).
Proof.
  intros Hnd. revert i t. induction Hnd as [|s' ss Hs _ IH]; intros i t Hn Hi; cbn [number_symbols].
  - split; [intros ?; right; split; [by apply not_elem_of_nil|done]|]. intros [(n & Hl & _)|[_ ?]]; [by rewrite lookup_nil in Hl|done].
  - unfold zlen in *. cbn [length] in Hn. rewrite IH by lia. split.
    + intros [(n & Hl & ->)|[Hns Hl]]; [left; exists (S n); split; [done|lia]|].
      destruct (decide (s = s')) as [->|Hne].
      * rewrite lookup_insert_eq in Hl. injection Hl as <-. left. exists 0%nat. split; [done|]. zlia.
      * rewrite lookup_insert_ne in Hl by done. right. split; [|done]. by rewrite elem_of_cons; intros [?|?].
    + intros [([|n] & Hl & ->)|[Hns Hl]].
      * injection Hl as ->. right. split; [done|]. rewrite lookup_insert_eq. f_equal. zlia.
      * left. exists n. split; [done|lia].
      * apply not_elem_of_cons in Hns as [Hne Hns]. right. split; [done|]. by rewrite lookup_insert_ne.
Qed.

(** *** Offset tables *)

Fixpoint fold_entries {S} (f : S -> list string -> Z -> res S) (es : list hashEntry) (s : S) : res S :=
  match es with [] => Ok s | h :: es => let? s := f s (he_keys h) (he_offset h) in fold_entries f es s end.

(** The lengths and offsets of an entry are of their types. *)
Definition entry_ok (h : hashEntry) : Prop :=
  is_u64 (he_offset h) /\ zlen (he_keys h) < 2 ^ 32 /\ Forall (fun s => Z.of_nat (length (string_bytes s)) < 2 ^ 63) (he_keys h).

Lemma read_keys_data ks :
  Forall (fun s => Z.of_nat (length (string_bytes s)) < 2 ^ 63) ks ->
  decodes (read_keys (length ks)) (mjoin (str_data <$> ks)) ks.
Proof.
  induction 1 as [|k ks Hk _ IH]; intros rest; [done|]. rewrite fmap_cons, join_cons. cbn [length read_keys].
  unfold str_data at 1. rewrite <- (assoc_L (++)), decodes_uvarintStr by done. cbn [res_bind]. by rewrite IH.
Qed.

Lemma read_entries_data {S} (f : S -> list string -> Z -> res S) fuel es s :
  (length es < fuel)%nat -> Forall entry_ok es ->
  read_entries fuel f (zlen es) (mk_decbuf (mjoin (entry_data <$> es)) None) s = fold_entries f es s.
Proof.
  intros Hf He. revert fuel s Hf. induction He as [|h es (Ho & Hk & Hs) _ IH]; intros fuel s Hf.
  - destruct fuel; [cbn in Hf; lia|]. done.
  - destruct fuel as [|fuel]; [lia|]. cbn [length] in Hf. rewrite fmap_cons, join_cons. cbn [read_entries d_err de fold_entries].
    assert (0 < d_len (mk_decbuf (entry_data h ++ mjoin (entry_data <$> es)) None)).
    { unfold d_len, entry_data. cbn [db]. rewrite !length_app. pose proof (length_PutUvarint (he_offset h)). lia. }
    rewrite (proj2 (Z.ltb_lt _ _)) by done. rewrite (proj2 (Z.ltb_lt 0 (zlen (h :: es)))) by (unfold zlen; cbn [length]; lia).
    cbn [andb]. unfold entry_data at 1. pose proof (zlen_nonneg (he_keys h)). rewrite <- !(assoc_L (++)).
    rewrite decodes_uvarint by lia. cbn [res_bind]. unfold makeslice. rewrite !(proj2 (Z.leb_le _ _)) by lia. cbn [andb res_bind].
    unfold zlen at 1. rewrite Nat2Z.id. rewrite read_keys_data by done. cbn [res_bind].
    rewrite decodes_uvarint64 by done. cbn [res_bind d_err de].
    destruct (f s (he_keys h) (he_offset h)); cbn [res_bind]; [|done..].
    replace (zlen (h :: es) - 1) with (zlen es) by (unfold zlen; cbn [length]; lia). apply IH. lia.
Qed.

Lemma readOffsetTable_data {S} (f : S -> list string -> Z -> res S) b off es s :
  zlen b < 2 ^ 62 -> bytes_at b off (section (table_data es)) -> zlen (table_data es) < 2 ^ 32 -> Forall entry_ok es ->
  readOffsetTable b off f s = fold_entries f es s.
Proof.
  intros Hb Hat Hl He. pose proof (bytes_at_bound _ _ _ Hat) as [Ho Hend]. rewrite zlen_section in Hend.
  pose proof (zlen_nonneg (table_data es)). unfold readOffsetTable. rewrite i64_small by zlia.
  rewrite (decbufAt_section _ Hb _ (table_data es)); [|done| |done].
  2: { apply (within_table es). eapply Forall_impl; [exact He|]. by intros h []. }
  cbn [res_bind]. unfold table_data. assert (Hn : zlen es <= zlen (mjoin (entry_data <$> es))).
  { clear. induction es as [|h es IH]; [done|]. rewrite fmap_cons, join_cons, zlen_app.
    assert (1 <= zlen (entry_data h)); [|unfold zlen in *; cbn [length]; lia].
    unfold entry_data. rewrite !zlen_app. pose proof (length_PutUvarint (u64 (zlen (he_keys h)))) as Hu.
    pose proof (zlen_nonneg (mjoin (str_data <$> he_keys h))). pose proof (zlen_nonneg (PutUvarint (he_offset h))). unfold zlen in *. lia. }
  unfold table_data in Hl. rewrite zlen_app, zlen_PutUint32 in Hl. pose proof (zlen_nonneg es).
  rewrite decodes_be32 by zlia. cbn [res_bind]. assert (u32 (zlen es) = zlen es) as -> by zlia.
  apply read_entries_data; [|done]. unfold d_len. cbn [db]. unfold zlen in *. lia.
Qed.

Lemma fold_label_entries (nos : list (string * Z)) t :
  fold_entries add_label_entry ((fun no => mkHashEntry [fst no] (snd no)) <$> nos) t = Ok (foldl (fun t no => <[fst no := snd no]> t) t nos).
Proof. revert t. induction nos as [|no nos IH]; intros t; [done|]. rewrite fmap_cons. cbn. apply IH. Qed.

Lemma fold_posting_entries (kos : list (Label * Z)) t :
  fold_entries add_posting_entry ((fun ko => mkHashEntry [fst (fst ko); snd (fst ko)] (snd ko)) <$> kos) t =
  Ok (foldl (fun t ko => <[fst ko := snd ko]> t) t kos).
Proof. revert t. induction kos as [|[[n v] o] kos IH]; intros t; [done|]. rewrite fmap_cons. cbn. apply IH. Qed.

(** Keys inserted once each. *)
Lemma foldl_insert_lookup {K V} `{Countable K} (kvs : list (K * V)) (t : gmap K V) k v :
  NoDup kvs.*1 ->
  (foldl (fun t kv => <[fst kv := snd kv]> t) t kvs !! k = Some v <-> (k, v) ∈ kvs \/ k ∉ kvs.*1 /\ t !! k = Some v).
Proof.
  revert t. induction kvs as [|[k' v'] kvs IH]; intros t Hnd; cbn [foldl]; [set_solver|].
  rewrite fmap_cons in *. apply NoDup_cons in Hnd as [Hk Hnd]. rewrite IH by done. cbn [fst snd] in *.
  rewrite !elem_of_cons. destruct (decide (k = k')) as [->|Hne].
  - rewrite lookup_insert_eq. split; [|naive_solver]. intros [Hin|[_ [= ->]]]; [|by left; left].
    destruct Hk. by apply (list_elem_of_fmap_2 fst) in Hin.
  - rewrite lookup_insert_ne by done. naive_solver.
Qed.

(** *** Label values and the table of contents *)

Lemma drop_mjoin_be32 (refs : list Z) i x :
  refs !! i = Some x -> exists r, drop (i * 4) (mjoin (PutUint32 <$> refs)) = PutUint32 x ++ r.
Proof.
  intros Hx. assert (Hh : be_holds (mjoin (PutUint32 <$> refs)) refs) by (exists []; by rewrite app_nil_r; split; [|cbn; lia]).
  apply (be_holds_drop _ _ i) in Hh; [|apply lookup_lt_Some in Hx; lia].
  rewrite (drop_S _ _ _ Hx) in Hh. apply be_holds_cons in Hh as (r & -> & _). by eexists.
Qed.

Lemma readTOC_toc b toc :
  let fields := mjoin (PutUint64 <$> [toc_symbols toc; toc_series toc; toc_labelIndices toc; toc_labelIndicesTable toc; toc_postings toc; toc_postingsTable toc]) in
  Forall is_u64 [toc_symbols toc; toc_series toc; toc_labelIndices toc; toc_labelIndicesTable toc; toc_postings toc; toc_postingsTable toc] ->
  readTOC (b ++ seal fields) = Ok toc.
Proof.
  intros fields Hf. assert (El : zlen (seal fields) = indexTOCLen) by done. unfold readTOC. rewrite zlen_app, El.
  pose proof (zlen_nonneg b). rewrite (proj2 (Z.ltb_ge _ _)) by lia. rewrite Z.add_simpl_r, <- El, <- zlen_app, slice_suffix. cbn [res_bind].
  rewrite zlen_seal, Z.add_simpl_r. unfold seal at 1. rewrite slice_prefix. cbn [res_bind].
  rewrite <- zlen_seal. unfold seal. rewrite slice_suffix. cbn [res_bind].
  assert (Hbytes : Forall is_byte fields) by (repeat (apply Forall_app; split); apply Forall_be_bytes || apply Forall_nil_2).
  rewrite Uint32_Put' by by apply crc32_range. cbn [res_bind]. rewrite Z.eqb_refl. cbn [negb].
  rewrite !Forall_cons in Hf. destruct Hf as (? & ? & ? & ? & ? & ? & _). unfold fields. rewrite !fmap_cons, !join_cons.
  do 6 (rewrite decodes_be64 by done; cbn [res_bind]). by destruct toc.
Qed.

(** * What the writer keeps *)

(** What has been added: the symbols, the series with their positions, the values of
    label names, and the postings of labels. *)
Record content (C : Type) := mkContent {
  ct_syms : list string; ct_series : list (Z * (Labels * list (Meta C)));
  ct_labels : list (string * list string); ct_posts : list (Label * list Z) }.
Arguments mkContent {C}.
Arguments ct_syms {C}.
Arguments ct_series {C}.
Arguments ct_labels {C}.
Arguments ct_posts {C}.

Section Layout.
Context {C : Type} (m : gmap string Z).

Definition series_at (out : list Z) (os : Z * (Labels * list (Meta C))) : Prop :=
  1 <= fst os /\ 16 * fst os < zlen out /\ bytes_at out (16 * fst os) (uv_section (series_data m (snd os))).

Definition values_at (out : list Z) (nv : string * list string) (h : hashEntry) : Prop :=
  he_keys h = [fst nv] /\ bytes_at out (he_offset h) (section (values_data m 1 (sort_strings (snd nv)))).

Definition posting_at (out : list Z) (kp : Label * list Z) (h : hashEntry) : Prop :=
  he_keys h = [fst (fst kp); snd (fst kp)] /\ bytes_at out (he_offset h) (section (refs_data (snd kp))).

(** Everything is in the bytes [out], at the positions in the lists of entries. *)
Record layout (out : list Z) (symbols : Z) (ls ps : list hashEntry) (ct : content C) : Prop := {
  ly_syms : 0 < symbols /\ bytes_at out symbols (section (symbols_data (ct_syms ct)));
  ly_series : Forall (series_at out) (ct_series ct);
  ly_incr : StronglySorted Z.lt (fst <$> ct_series ct);
  ly_labels : Forall2 (values_at out) (ct_labels ct) ls;
  ly_posts : Forall2 (posting_at out) (ct_posts ct) ps;
  ly_head : bytes_at out 0 (PutUint32 MagicIndex ++ [indexFormatV2]);
}.

Lemma layout_app out x symbols ls ps ct : layout out symbols ls ps ct -> layout (out ++ x) symbols ls ps ct.
Proof using Type.
  pose proof (zlen_nonneg x). intros [[? ?] Hs Hi Hl Hp Hh]. split; [split; [done|by apply bytes_at_app]| |done| | |by apply bytes_at_app].
  - eapply Forall_impl; [exact Hs|]. intros os (? & ? & ?). split_and!; [done|rewrite zlen_app; lia|by apply bytes_at_app].
  - eapply Forall2_impl; [exact Hl|]. intros ? ? [? ?]. split; [done|by apply bytes_at_app].
  - eapply Forall2_impl; [exact Hp|]. intros ? ? [? ?]. split; [done|by apply bytes_at_app].
Qed.

End Layout.

(** What the operations rely on: the numbers of the symbols, the positions of the
    series by their references, which count from 0, and the labels added last. *)
Record holds {C} (w : Writer) (ct : content C) : Prop := {
  ho_layout : layout (w_symbols w) (w_out w) (toc_symbols (w_toc w)) (w_labelIndexes w) (w_postings w) ct;
  ho_symtab s i : w_symbols w !! s = Some i <-> exists n, ct_syms ct !! n = Some s /\ i = Z.of_nat n;
  ho_refs i : w_seriesOffsets w !! i = if 0 <=? i then fst <$> ct_series ct !! Z.to_nat i else None;
  ho_last : w_lastSeries w = default [] (fst <$> (snd <$> last (ct_series ct)));
  ho_toc : Forall (fun x => 0 <= x <= w_pos w)
    [toc_symbols (w_toc w); toc_series (w_toc w); toc_labelIndices (w_toc w); toc_labelIndicesTable (w_toc w); toc_postings (w_toc w); toc_postingsTable (w_toc w)];
}.

(** The bytes written, and those the tables will need. *)
Definition budget (w : Writer) : Z := w_pos w + zsum entry_cost (w_labelIndexes w) + zsum entry_cost (w_postings w).

Lemma str_cost_pos s : 10 <= str_cost s.
Proof. unfold str_cost. lia. Qed.

Lemma entry_cost_pos h : 0 <= entry_cost h.
Proof. unfold entry_cost. assert (0 <= zsum str_cost (he_keys h)); [|lia]. apply zsum_nonneg. intros s. pose proof (str_cost_pos s). lia. Qed.

Lemma budget_pos w : w_pos w <= budget w.
Proof.
  unfold budget. pose proof (zsum_nonneg entry_cost (w_labelIndexes w) entry_cost_pos).
  pose proof (zsum_nonneg entry_cost (w_postings w) entry_cost_pos). lia.
Qed.

(** ** Writing *)

Lemma write_ok w b : w_pos w + zlen b <= 2 ^ 32 -> write w b = Ok (with_out w (w_out w ++ b)).
Proof.
  intros Hb. unfold write, w_pos. cbn [w_out with_out]. rewrite zlen_app. unfold w_pos in Hb.
  by rewrite (proj2 (Z.ltb_ge _ _)) by zlia.
Qed.

Lemma write_sized_ok w data :
  w_pos w + zlen data + 8 <= 2 ^ 32 -> write_sized w (mk_encbuf data) = Ok (with_out w (w_out w ++ section data)).
Proof.
  intros Hl. unfold write_sized. pose proof (zlen_nonneg data). pose proof (zlen_PutUint32 (u32 (zlen data))) as Hz.
  assert (E1 : e_get (putBE32int (e_len (mk_encbuf data)) (mk_encbuf [])) = PutUint32 (u32 (zlen data))) by done.
  assert (E2 : e_get (putHash (mk_encbuf data)) = seal data) by done. rewrite E1, E2.
  rewrite write_ok by lia. cbn [res_bind]. rewrite write_ok.
  - cbn [w_out with_out]. rewrite <- (assoc_L (++)). done.
  - unfold w_pos in *. cbn [w_out with_out]. rewrite zlen_app, zlen_seal. lia.
Qed.

Lemma addPadding_ok w size :
  0 < size -> w_pos w + size <= 2 ^ 32 ->
  exists pad, addPadding w size = Ok (with_out w (w_out w ++ pad)) /\ zlen pad < size /\ (w_pos w + zlen pad) mod size = 0.
Proof.
  intros Hs Hp. unfold addPadding. pose proof (Z.mod_pos_bound (w_pos w) size Hs).
  destruct (Z.eqb_spec (w_pos w mod size) 0) as [E|Hne].
  - exists []. split_and!; [rewrite app_nil_r; by destruct w|done|]. change (zlen []) with 0. by rewrite Z.add_0_r.
  - exists (replicate (Z.to_nat (size - w_pos w mod size)) 0).
    assert (El : zlen (replicate (Z.to_nat (size - w_pos w mod size)) 0) = size - w_pos w mod size).
    { unfold zlen. rewrite length_replicate. lia. }
    split_and!; [apply write_ok; lia|lia|]. rewrite El.
    pose proof (Z.div_mod (w_pos w) size ltac:(lia)).
    replace (w_pos w + (size - w_pos w mod size)) with ((w_pos w / size + 1) * size) by lia. apply Z_mod_mult.
Qed.

Section Steps.
Context {C : Type}.
Implicit Types (ct : content C).

Lemma holds_out w x ct : holds w ct -> holds (with_out w (w_out w ++ x)) ct.
Proof using Type.
  intros [Hl Hs Hr Hlast Ht]. split; cbn [w_out w_toc w_symbols w_seriesOffsets w_labelIndexes w_postings w_lastSeries with_out]; [by apply layout_app|done..|].
  eapply Forall_impl; [exact Ht|]. unfold w_pos. cbn [w_out with_out]. intros v ?. rewrite zlen_app. pose proof (zlen_nonneg x). lia.
Qed.

Definition adding (s : indexWriterStage) : Prop := s = idxStageSeries \/ s = idxStageLabelIndex \/ s = idxStagePostings.

Lemma ensureStage_ok w s ct :
  holds w ct -> adding s -> stage_num (w_stage w) <= stage_num s ->
  exists t, ensureStage w s = Ok (with_stage w t s) /\ holds (with_stage w t s) ct.
Proof using Type.
  intros Hw Hs Hle. unfold ensureStage. destruct (Z.eqb_spec (stage_num (w_stage w)) (stage_num s)) as [E|Hne].
  - exists (w_toc w). assert (w_stage w = s) as <- by (by destruct (w_stage w), s). destruct w. done.
  - rewrite (proj2 (Z.ltb_ge _ _)) by lia. destruct Hw as [Hl Hsy Hr Hlast Ht].
    rewrite !Forall_cons in Ht. destruct Ht as (? & ? & ? & ? & ? & ? & _). pose proof (zlen_nonneg (w_out w)).
    destruct Hs as [->|[->| ->]]; (eexists; split; [done|]); (split; [done..|]);
      repeat apply Forall_cons_2; try apply Forall_nil_2; cbn; unfold w_pos in *; cbn; lia.
Qed.

(** A step leaves the contents [ct'], in at most [n] more bytes. *)
Definition stepped (w w' : Writer) ct' (s : indexWriterStage) (n : Z) : Prop :=
  holds w' ct' /\ w_stage w' = s /\ budget w' <= budget w + n.

Definition add_ser ct os := mkContent (ct_syms ct) (ct_series ct ++ [os]) (ct_labels ct) (ct_posts ct).
Definition add_lab ct nv := mkContent (ct_syms ct) (ct_series ct) (ct_labels ct ++ [nv]) (ct_posts ct).
Definition add_post ct kp := mkContent (ct_syms ct) (ct_series ct) (ct_labels ct) (ct_posts ct ++ [kp]).

Definition series_cost (s : Labels * list (Meta C)) : Z := 50 + 20 * zlen (fst s) + 30 * zlen (snd s).

Definition has_symbols (w : Writer) (l : Labels) : Prop :=
  forall nv, nv ∈ l -> is_Some (w_symbols w !! fst nv) /\ is_Some (w_symbols w !! snd nv).

(** The bytes of a series behind what is there. *)
Lemma series_at_end m (out : list Z) (s : Labels * list (Meta C)) :
  zlen out mod 16 = 0 -> 1 <= zlen out ->
  series_at m (out ++ uv_section (series_data m s)) (zlen out / 16, s).
Proof using Type.
  intros Hm Ho. pose proof (Z.div_mod (zlen out) 16 ltac:(lia)) as E. unfold series_at. cbn [fst snd].
  replace (16 * (zlen out / 16)) with (zlen out) by lia. split_and!; [lia| |by apply bytes_at_end].
  rewrite zlen_app. unfold uv_section. rewrite zlen_app, zlen_seal. pose proof (zlen_nonneg (series_data m s)).
  pose proof (zlen_nonneg (PutUvarint (u64 (zlen (series_data m s))))). lia.
Qed.

Lemma layout_add_ser m out symbols ls ps ct s :
  layout m out symbols ls ps ct -> zlen out mod 16 = 0 -> 1 <= zlen out ->
  layout m (out ++ uv_section (series_data m s)) symbols ls ps (add_ser ct (zlen out / 16, s)).
Proof using Type.
  intros Hl Hm Ho. pose proof (ly_series _ _ _ _ _ _ Hl) as Hs0.
  destruct (layout_app m out (uv_section (series_data m s)) _ _ _ _ Hl) as [Hsy Hs Hi Hla Hp Hh]. split; [done| | |done..]; cbn [ct_series add_ser].
  - apply Forall_app. split; [done|]. apply Forall_singleton. by apply series_at_end.
  - rewrite fmap_app. apply StronglySorted_app_2; [|done|repeat constructor]. intros a b Ha Hb.
    apply list_elem_of_singleton in Hb as ->. apply list_elem_of_fmap in Ha as (os & -> & Hin). rewrite Forall_forall in Hs0.
    destruct (Hs0 _ Hin) as (? & ? & _). pose proof (Z.div_mod (zlen out) 16 ltac:(lia)). cbn [fst]. lia.
Qed.

(** The state after a series, from the state with the padding written. *)
Definition with_added (w : Writer) (i : Z) (s : Labels * list (Meta C)) : Writer :=
  with_series (with_out w (w_out w ++ uv_section (series_data (w_symbols w) s))) (<[i := w_pos w / 16]> (w_seriesOffsets w)) (fst s).

Lemma with_added_holds w ct s :
  holds w ct -> w_pos w mod 16 = 0 -> holds (with_added w (zlen (ct_series ct)) s) (add_ser ct (w_pos w / 16, s)).
Proof using Type.
  intros Hw Hm. pose proof (ho_toc _ _ Hw) as Ht. destruct (ly_syms _ _ _ _ _ _ (ho_layout _ _ Hw)) as [Hsy Hat].
  pose proof (bytes_at_bound _ _ _ Hat) as [_ Hend]. rewrite zlen_section in Hend.
  pose proof (zlen_nonneg (symbols_data (ct_syms ct))). unfold w_pos in *.
  destruct (holds_out _ (uv_section (series_data (w_symbols w) s)) _ Hw) as [_ Hs Hr _ Htoc].
  split; cbn [with_added w_out w_toc w_symbols w_seriesOffsets w_labelIndexes w_postings w_lastSeries with_out with_series ct_series add_ser] in *.
  - apply layout_add_ser; [apply Hw|done|lia].
  - exact Hs.
  - intros i. destruct (decide (i = zlen (ct_series ct))) as [->|Hne].
    + rewrite lookup_insert_eq, (proj2 (Z.leb_le _ _)) by apply zlen_nonneg. unfold zlen. rewrite Nat2Z.id.
      by rewrite lookup_app_r, Nat.sub_diag by done.
    + rewrite lookup_insert_ne by done. rewrite Hr. destruct (Z.leb_spec 0 i); [|done]. unfold zlen in Hne.
      destruct (decide (Z.to_nat i < length (ct_series ct))%nat); [by rewrite lookup_app_l|].
      rewrite (lookup_ge_None_2 (ct_series ct)) by lia. rewrite lookup_ge_None_2; [done|]. rewrite length_app. cbn. lia.
  - by rewrite last_snoc.
  - exact Htoc.
Qed.

Lemma AddSeries_ok w ct s :
  holds w ct -> stage_num (w_stage w) <= stage_num idxStageSeries -> budget w + series_cost s <= 2 ^ 32 ->
  labels_cmp (w_lastSeries w) (fst s) = Lt -> has_symbols w (fst s) -> Forall meta_ok (snd s) ->
  exists off w', AddSeries w (zlen (ct_series ct)) (fst s) (snd s) = Ok w' /\
    stepped w w' (add_ser ct (off, s)) idxStageSeries (series_cost s) /\ w_symbols w' = w_symbols w.
Proof using Type.
  intros Hw Hst Hb Hlt Hsym Hc. destruct (ensureStage_ok w idxStageSeries ct Hw) as (t & E & Hw1); [by left|done|].
  unfold AddSeries. rewrite E. cbn [res_bind w_lastSeries w_seriesOffsets with_stage]. set (w1 := with_stage w t idxStageSeries) in *.
  pose proof (Compare_cmp (fst s) (w_lastSeries w)) as Hcmp. rewrite (cmp_opp labels_cmp), Hlt in Hcmp. cbn in Hcmp.
  apply Z.compare_gt_iff in Hcmp. rewrite (proj2 (Z.leb_gt _ _)) by lia.
  assert (Hfresh : w_seriesOffsets w !! zlen (ct_series ct) = None).
  { rewrite (ho_refs _ _ Hw), (proj2 (Z.leb_le _ _)) by apply zlen_nonneg. unfold zlen. rewrite Nat2Z.id. by rewrite lookup_ge_None_2. }
  rewrite Hfresh. rewrite bool_decide_false by (by intros [? ?]).
  pose proof (within_series (w_symbols w) s Hc) as [Hbytes Hlen]. pose proof (budget_pos w). unfold series_cost in *.
  pose proof (zlen_nonneg (fst s)). pose proof (zlen_nonneg (snd s)). assert (0 <= w_pos w) by apply zlen_nonneg.
  destruct (addPadding_ok w1 16) as (pad & -> & Hpad & Hmod); [done|change (w_pos w1) with (w_pos w); lia|]. cbn [res_bind].
  set (w2 := with_out w1 _). assert (Ep : w_pos w2 = w_pos w1 + zlen pad) by (unfold w_pos; cbn; by rewrite zlen_app).
  assert (Hw2 : holds w2 ct) by by apply holds_out.
  rewrite Ep. change (w_pos w1) with (w_pos w) in *. rewrite Hmod. cbn [negb].
  rewrite put_labels_data by done. cbn [res_bind]. rewrite put_chunks_data.
  set (buf := mk_encbuf _). assert (Eb : buf = mk_encbuf (series_data (w_symbols w) s)).
  { unfold buf, series_data, putUvarint, putUvarint64. cbn [eb w_symbols]. by rewrite <- (assoc_L (++)). }
  rewrite Eb. change (e_len (mk_encbuf (series_data (w_symbols w) s))) with (zlen (series_data (w_symbols w) s)).
  set (data := series_data (w_symbols w) s) in *. assert (Hd : zlen data < 2 ^ 32) by (pose proof (zlen_nonneg pad); lia).
  pose proof (length_PutUvarint_u64 (u64 (zlen data)) (u64_range _)) as Hu. pose proof (zlen_nonneg pad). pose proof (zlen_nonneg data).
  change (e_get (putUvarint (zlen data) (mk_encbuf []))) with (PutUvarint (u64 (zlen data))).
  change (e_get (putHash (mk_encbuf data))) with (seal data).
  assert (Hu' : zlen (PutUvarint (u64 (zlen data))) <= 10) by (unfold zlen at 1; lia).
  rewrite write_ok by (change (w_pos _) with (w_pos w2); lia). cbn [res_bind].
  rewrite write_ok.
  2: { unfold w_pos. cbn [w_out with_out with_series]. change (w_out (with_series w2 _ _)) with (w_out w2). rewrite zlen_app, zlen_seal.
       fold (w_pos w2). lia. }
  cbn [res_bind]. exists (w_pos w2 / 16), (with_added w2 (zlen (ct_series ct)) s). split_and!.
  - unfold with_added, with_series, with_out, uv_section. cbn [w_out w_toc w_stage w_symbols w_seriesOffsets w_labelIndexes w_postings].
    change (w_symbols w2) with (w_symbols w). fold data. rewrite <- (assoc_L (++)), <- Ep. done.
  - unfold stepped. split_and!; [by apply with_added_holds; [|rewrite Ep]|done|].
    assert (w_pos (with_added w2 (zlen (ct_series ct)) s) = w_pos w2 + zlen (PutUvarint (u64 (zlen data))) + zlen data + 4) as Epos.
    { unfold w_pos, with_added. cbn [w_out with_out with_series]. rewrite zlen_app. unfold uv_section. rewrite zlen_app, zlen_seal. change (w_symbols w2) with (w_symbols w). fold data. unfold w_pos. lia. }
    unfold budget. rewrite Epos. change (w_labelIndexes (with_added _ _ _)) with (w_labelIndexes w).
    change (w_postings (with_added _ _ _)) with (w_postings w). lia.
  - done.
Qed.

(** ** Label indices and postings *)

Definition with_label (w : Writer) (nv : string * list string) : Writer :=
  with_out (with_entries w (w_labelIndexes w ++ [mkHashEntry [fst nv] (w_pos w)]) (w_postings w))
    (w_out w ++ section (values_data (w_symbols w) 1 (sort_strings (snd nv)))).

Definition with_posting (w : Writer) (kp : Label * list Z) : Writer :=
  with_out (with_entries w (w_labelIndexes w) (w_postings w ++ [mkHashEntry [fst (fst kp); snd (fst kp)] (w_pos w)]))
    (w_out w ++ section (refs_data (snd kp))).

Lemma with_label_holds w ct nv : holds w ct -> holds (with_label w nv) (add_lab ct nv).
Proof using Type.
  intros Hw. destruct (holds_out _ (section (values_data (w_symbols w) 1 (sort_strings (snd nv)))) _ Hw) as [[Hsy Hs Hi Hl Hp Hh] Hst Hr Hlast Ht].
  split; [|done..]. split; [done..| |done|done]. cbn [with_label w_labelIndexes with_out with_entries ct_labels add_lab].
  apply Forall2_app; [done|]. apply Forall2_cons; split; [|done]. split; [done|]. apply bytes_at_end.
Qed.

Lemma with_posting_holds w ct kp : holds w ct -> holds (with_posting w kp) (add_post ct kp).
Proof using Type.
  intros Hw. destruct (holds_out _ (section (refs_data (snd kp))) _ Hw) as [[Hsy Hs Hi Hl Hp Hh] Hst Hr Hlast Ht].
  split; [|done..]. split; [done..| |done]. cbn [with_posting w_postings with_out with_entries ct_posts add_post].
  apply Forall2_app; [done|]. apply Forall2_cons; split; [|done]. split; [done|]. apply bytes_at_end.
Qed.

(** Begins a section with an entry: the stage and the padding. *)
Lemma begin_entry w ct s n :
  holds w ct -> adding s -> stage_num (w_stage w) <= stage_num s -> 4 <= n -> budget w + n <= 2 ^ 32 ->
  exists t pad, ensureStage w s = Ok (with_stage w t s) /\
    addPadding (with_stage w t s) 4 = Ok (with_out (with_stage w t s) (w_out w ++ pad)) /\
    holds (with_out (with_stage w t s) (w_out w ++ pad)) ct /\ 0 <= zlen pad < 4.
Proof using Type.
  intros Hw Hs Hst Hn Hb. destruct (ensureStage_ok w s ct Hw Hs Hst) as (t & E & Hw1). pose proof (budget_pos w).
  destruct (addPadding_ok (with_stage w t s) 4) as (pad & E' & Hpad & _); [done|change (w_pos (with_stage w t s)) with (w_pos w); lia|].
  exists t, pad. split_and!; [done|done|by apply (holds_out (with_stage w t s))|apply zlen_nonneg|done].
Qed.

Definition label_cost (nv : string * list string) : Z := 39 + str_cost (fst nv) + 4 * zlen (snd nv).

Lemma sort_strings_perm vs : sort_strings vs ≡ₚ vs.
Proof using Type. apply sort_by_perm. Qed.

Lemma zlen_perm {A} (l k : list A) : l ≡ₚ k -> zlen l = zlen k.
Proof using Type. intros Hp. unfold zlen. by rewrite Hp. Qed.

Lemma WriteLabelIndex_ok st w ct nv :
  holds w ct -> stage_num (w_stage w) <= stage_num idxStageLabelIndex -> budget w + label_cost nv <= 2 ^ 32 ->
  (forall v, v ∈ snd nv -> is_Some (w_symbols w !! v)) ->
  exists w', WriteLabelIndex st w [fst nv] (snd nv) = Ok w' /\
    stepped w w' (add_lab ct nv) idxStageLabelIndex (label_cost nv) /\ w_symbols w' = w_symbols w.
Proof using Type.
  intros Hw Hst Hb Hv. unfold label_cost in *. pose proof (str_cost_pos (fst nv)). pose proof (zlen_nonneg (snd nv)).
  destruct (begin_entry w ct idxStageLabelIndex (39 + str_cost (fst nv) + 4 * zlen (snd nv)) Hw (or_intror (or_introl eq_refl)) Hst) as (t & pad & E & E' & Hw2 & Hpad); [lia..|].
  unfold WriteLabelIndex. cbn [length Nat.eqb]. rewrite Nat.mod_1_r. cbn [negb Nat.eqb]. rewrite E. cbn [res_bind]. rewrite E'. cbn [res_bind].
  set (w2 := with_out _ _) in *. change (sorted_tuples st 1 (snd nv)) with (sort_strings (snd nv)).
  pose proof (sort_strings_perm (snd nv)) as Hperm.
  rewrite put_refs_values by (intros v Hin; apply Hv; by rewrite Hperm in Hin). cbn [res_bind].
  set (buf := mk_encbuf _). assert (Eb : buf = mk_encbuf (values_data (w_symbols w) 1 (sort_strings (snd nv)))).
  { unfold buf, values_data. rewrite (zlen_perm _ _ Hperm). cbn [putBE32int putBE32 eb app w_symbols with_entries]. by rewrite <- (assoc_L (++)). }
  rewrite Eb. destruct (within_values (w_symbols w) 1 (sort_strings (snd nv))) as [_ Hlen]. rewrite (zlen_perm _ _ Hperm) in Hlen.
  pose proof (budget_pos w). assert (Ep : w_pos w2 = w_pos w + zlen pad) by (unfold w_pos; cbn [w2 w_out with_out]; by rewrite zlen_app).
  rewrite write_sized_ok by (change (w_pos _) with (w_pos w2); lia). eexists. split; [done|].
  split; [|done]. split; [by apply (with_label_holds w2)|]. split; [done|]. unfold budget.
  change (w_labelIndexes (with_out _ _)) with (w_labelIndexes w ++ [mkHashEntry [fst nv] (w_pos w2)]).
  change (w_postings (with_out _ _)) with (w_postings w). rewrite zsum_app.
  unfold w_pos at 1. cbn [w_out with_out]. change (w_out (with_entries w2 _ _)) with (w_out w2). rewrite zlen_app, zlen_section. fold (w_pos w2).
  change (zsum entry_cost [mkHashEntry [fst nv] (w_pos w2)]) with (20 + (str_cost (fst nv) + 0) + 0). lia.
Qed.

(** The position of a series. *)
Definition off_of ct (i : Z) : Z := default 0 (fst <$> ct_series ct !! Z.to_nat i).

Lemma off_of_lookup ct i : 0 <= i < zlen (ct_series ct) -> exists s, ct_series ct !! Z.to_nat i = Some (off_of ct i, s).
Proof using Type.
  intros Hi. destruct (lookup_lt_is_Some_2 (ct_series ct) (Z.to_nat i)) as [[o s] Hl]; [unfold zlen in Hi; lia|].
  exists s. unfold off_of. by rewrite Hl.
Qed.

Lemma StronglySorted_lookup {A} (R : A -> A -> Prop) l i j x y :
  StronglySorted R l -> l !! i = Some x -> l !! j = Some y -> (i < j)%nat -> R x y.
Proof using Type.
  intros Hl. revert i j. induction Hl as [|z l _ IH Hz]; intros i j Hx Hy Hij; [done|].
  destruct j as [|j]; [lia|]. destruct i as [|i]; cbn in Hx, Hy.
  - injection Hx as ->. rewrite Forall_forall in Hz. apply Hz. by eapply list_elem_of_lookup_2.
  - eapply IH; [done..|lia].
Qed.

Lemma off_of_mono w ct i j :
  holds w ct -> 0 <= i -> i < j -> j < zlen (ct_series ct) -> off_of ct i < off_of ct j.
Proof using Type.
  intros Hw Hi Hij Hj. pose proof (ly_incr _ _ _ _ _ _ (ho_layout _ _ Hw)) as Hs.
  destruct (off_of_lookup ct i) as [si Ei], (off_of_lookup ct j) as [sj Ej]; [lia..|].
  eapply (StronglySorted_lookup _ _ (Z.to_nat i) (Z.to_nat j)); [exact Hs|rewrite list_lookup_fmap, ?Ei, ?Ej; done..|lia].
Qed.

Lemma collect_refs_ok w w' ct (it : Postings) ids fuel :
  holds w ct -> w_seriesOffsets w' = w_seriesOffsets w -> zlen (w_out w) <= 2 ^ 32 -> p_gives it ids -> Forall (fun i => 0 <= i < zlen (ct_series ct)) ids -> (length ids < fuel)%nat ->
  collect_refs fuel w' it = Ok (off_of ct <$> ids).
Proof using Type.
  intros Hw Ew Hout Hp Hids Hf. revert fuel Hf. induction Hp as [it it' Hn He|it it' ids Hn He Hp IH Hsz]; intros fuel Hf;
    (destruct fuel as [|fuel]; [lia|]); cbn [collect_refs]; rewrite Hn; cbn [negb].
  - by rewrite He.
  - apply Forall_cons in Hids as [Hi Hids]. cbn [length] in Hf. rewrite Ew, (ho_refs _ _ Hw), (proj2 (Z.leb_le _ _)) by lia.
    destruct (off_of_lookup ct (p_At it')) as [s Es]; [done|]. rewrite Es. cbn [fmap option_fmap option_map fst].
    pose proof (ly_series _ _ _ _ _ _ (ho_layout _ _ Hw)) as Hser. rewrite Forall_forall in Hser.
    destruct (Hser _ (list_elem_of_lookup_2 _ _ _ Es)) as (? & ? & _). cbn [fst] in *.
    rewrite (proj2 (Z.ltb_ge _ _)) by (unfold MaxUint32; lia). rewrite IH by (done || lia). cbn [res_bind]. done.
Qed.

Definition posting_cost (k : Label) (n : Z) : Z := 39 + str_cost (fst k) + str_cost (snd k) + 4 * n.

Lemma off_of_sorted w ct ids :
  holds w ct -> StronglySorted Z.lt ids -> Forall (fun i => 0 <= i < zlen (ct_series ct)) ids ->
  StronglySorted Z.lt (off_of ct <$> ids).
Proof using Type.
  intros Hw Hs Hf. induction Hs as [|i ids _ IH Hi]; [constructor|]. rewrite fmap_cons. apply Forall_cons in Hf as [Hb Hf].
  constructor; [by apply IH|]. apply Forall_fmap, Forall_forall. intros j Hj. rewrite Forall_forall in Hi, Hf.
  cbn. eapply off_of_mono; [done|lia|by apply Hi|by apply Hf].
Qed.

Lemma WritePostings_ok w ct (k : Label) (it : Postings) ids :
  holds w ct -> stage_num (w_stage w) <= stage_num idxStagePostings -> p_gives it ids -> StronglySorted Z.lt ids ->
  Forall (fun i => 0 <= i < zlen (ct_series ct)) ids -> budget w + posting_cost k (zlen ids) <= 2 ^ 32 ->
  exists w', WritePostings w (fst k) (snd k) it = Ok w' /\
    stepped w w' (add_post ct (k, off_of ct <$> ids)) idxStagePostings (posting_cost k (zlen ids)) /\ w_symbols w' = w_symbols w.
Proof using Type.
  intros Hw Hst Hp Hinc Hids Hb. unfold posting_cost in *. pose proof (str_cost_pos (fst k)). pose proof (str_cost_pos (snd k)). pose proof (zlen_nonneg ids).
  destruct (begin_entry w ct idxStagePostings (39 + str_cost (fst k) + str_cost (snd k) + 4 * zlen ids) Hw (or_intror (or_intror eq_refl)) Hst)
    as (t & pad & E & E' & Hw2 & Hpad); [lia..|].
  unfold WritePostings. rewrite E. cbn [res_bind]. rewrite E'. cbn [res_bind]. set (w2 := with_out _ _) in *.
  pose proof (budget_pos w). assert (Ep : w_pos w2 = w_pos w + zlen pad) by (unfold w_pos; cbn [w2 w_out with_out]; by rewrite zlen_app).
  pose proof (p_gives_size _ _ Hp) as Hsz.
  rewrite (collect_refs_ok w2 _ ct it ids) by (done || unfold w_pos in *; lia). cbn [res_bind].
  rewrite (sort_by_increasing id Z.compare) by by eapply off_of_sorted. rewrite put_refs_data.
  destruct (within_refs (off_of ct <$> ids)) as [_ Hlen]. unfold zlen in Hlen at 2. rewrite length_fmap in Hlen. fold (zlen ids) in Hlen.
  rewrite write_sized_ok by (change (w_pos _) with (w_pos w2); lia). eexists. split; [done|].
  split; [|done]. split; [by apply (with_posting_holds w2 ct (k, _))|]. split; [done|]. unfold budget.
  change (w_labelIndexes (with_out _ _)) with (w_labelIndexes w).
  change (w_postings (with_out _ _)) with (w_postings w ++ [mkHashEntry [fst k; snd k] (w_pos w2)]). rewrite zsum_app.
  unfold w_pos at 1. cbn [w_out with_out]. change (w_out (with_entries w2 _ _)) with (w_out w2). rewrite zlen_app, zlen_section. fold (w_pos w2).
  change (zsum entry_cost [mkHashEntry [fst k; snd k] (w_pos w2)]) with (20 + (str_cost (fst k) + (str_cost (snd k) + 0)) + 0). lia.
Qed.
End Steps.

(** ** The symbols and the end *)

Definition new_writer : Writer := with_out empty_writer (PutUint32 MagicIndex ++ [indexFormatV2]).

Lemma NewWriter_new : NewWriter = Ok new_writer.
Proof. reflexivity. Qed.

Lemma zsum_str_cost_length ss : 10 * zlen ss <= zsum str_cost ss.
Proof.
  unfold zsum, zlen. induction ss as [|s ss IH]; cbn [foldr length]; [lia|]. pose proof (str_cost_pos s). lia.
Qed.

Lemma AddSymbols_ok {C} (symbols : gset string) :
  let L := sort_strings (elements symbols) in
  17 + zsum str_cost L <= 2 ^ 32 ->
  exists w, AddSymbols new_writer symbols = Ok w /\ holds w (mkContent (C := C) L [] [] []) /\
    w_stage w = idxStageSymbols /\ budget w <= 17 + zsum str_cost L /\
    (forall s, is_Some (w_symbols w !! s) <-> s ∈ symbols).
Proof.
  intros L Hb. pose proof (zsum_str_cost_length L) as Hn. pose proof (zlen_nonneg L).
  assert (Hnd : NoDup L) by (unfold L; rewrite sort_strings_perm; apply NoDup_elements).
  assert (Htab : forall s i, number_symbols 0 L ∅ !! s = Some i <-> exists n, L !! n = Some s /\ i = Z.of_nat n).
  { intros s i. rewrite number_symbols_lookup by (done || lia). rewrite lookup_empty. naive_solver. }
  unfold AddSymbols. change (ensureStage new_writer idxStageSymbols) with
    (Ok (with_stage new_writer (mkTOC 5 0 0 0 0 0) idxStageSymbols)). cbn [res_bind]. fold L. rewrite put_symbols_data.
  destruct (within_symbols L) as [_ Hlen].
  rewrite write_sized_ok by (change (w_pos _) with 5; lia). eexists. split; [done|]. split_and!; [|done| |].
  - split; cbn [w_out w_toc w_symbols w_seriesOffsets w_labelIndexes w_postings w_lastSeries with_out with_symbols with_stage].
    + split; [|constructor..|by apply bytes_at_app, (bytes_at_end [])]. split; [done|]. apply (bytes_at_end (w_out new_writer)).
    + done.
    + intros i. change (w_seriesOffsets _) with (∅ : gmap Z Z). rewrite lookup_empty. by destruct (0 <=? i).
    + done.
    + assert (5 <= zlen (w_out new_writer ++ section (symbols_data L))).
      { rewrite zlen_app, zlen_section. change (zlen (w_out new_writer)) with 5. pose proof (zlen_nonneg (symbols_data L)). lia. }
      repeat apply Forall_cons_2; try apply Forall_nil_2; unfold w_pos; cbn [w_out with_out toc_symbols toc_series toc_labelIndices toc_labelIndicesTable toc_postings toc_postingsTable with_symbols with_stage]; lia.
  - unfold budget, w_pos. cbn [w_out with_out w_labelIndexes w_postings]. change (zsum _ _) with 0 at 1.
    change (w_out (with_symbols _ _)) with (w_out new_writer). rewrite zlen_app, zlen_section. change (zlen (w_out new_writer)) with 5.
    change (zsum entry_cost (w_postings _)) with 0. lia.
  - intros s. cbn [w_symbols with_out with_symbols]. rewrite <- (elem_of_elements symbols), <- (sort_strings_perm (elements symbols)). fold L.
    rewrite list_elem_of_lookup. split.
    + intros [i (n & Hl & _)%Htab]. by exists n.
    + intros [n Hl]. exists (Z.of_nat n). apply Htab. by exists n.
Qed.

(** The bytes behind the sections. *)
Definition toc_fields (t : indexTOC) : list Z :=
  mjoin (PutUint64 <$> [toc_symbols t; toc_series t; toc_labelIndices t; toc_labelIndicesTable t; toc_postings t; toc_postingsTable t]).

Definition file_toc (w : Writer) : indexTOC :=
  mkTOC (toc_symbols (w_toc w)) (toc_series (w_toc w)) (toc_labelIndices (w_toc w)) (w_pos w) (toc_postings (w_toc w))
    (w_pos w + zlen (section (table_data (w_labelIndexes w)))).

Definition file_of (w : Writer) : list Z :=
  ((w_out w ++ section (table_data (w_labelIndexes w))) ++ section (table_data (w_postings w))) ++ seal (toc_fields (file_toc w)).

Lemma zlen_toc t : zlen (seal (toc_fields t)) = 52.
Proof. done. Qed.

Section End_.
Context {C : Type} (w : Writer) (ct : content C) (Hw : holds w ct).

Lemma entries_ok : budget w <= 2 ^ 32 -> Forall entry_ok (w_labelIndexes w) /\ Forall entry_ok (w_postings w).
Proof using Hw.
  intros Hb. destruct (ho_layout _ _ Hw) as [_ _ _ Hl Hp _]. pose proof (budget_pos w) as Hpos. unfold w_pos in Hpos.
  assert (Hkeys : forall h es, h ∈ es -> zsum entry_cost es <= 2 ^ 32 -> zsum str_cost (he_keys h) <= 2 ^ 32).
  { clear. intros h es Hin. revert Hin. induction es as [|h' es IH]; [by intros ?%not_elem_of_nil|].
    intros [->|Hin]%elem_of_cons; rewrite zsum_cons.
    - pose proof (zsum_nonneg entry_cost es entry_cost_pos). unfold entry_cost at 1. lia.
    - intros. apply IH; [done|]. pose proof (entry_cost_pos h'). lia. }
  assert (Hstr : forall ks : list string, zsum str_cost ks <= 2 ^ 32 -> zlen ks < 2 ^ 32 /\ Forall (fun s => Z.of_nat (length (string_bytes s)) < 2 ^ 63) ks).
  { clear. intros ks Hks. pose proof (zsum_str_cost_length ks). pose proof (zlen_nonneg ks). split; [lia|].
    clear H H0. induction ks as [|k ks IH]; [constructor|]. rewrite zsum_cons in Hks. unfold str_cost at 1 in Hks.
    pose proof (zsum_str_cost_length ks). pose proof (zlen_nonneg ks). constructor; [lia|]. apply IH; lia. }
  unfold budget, w_pos in Hb. pose proof (zlen_nonneg (w_out w)).
  pose proof (zsum_nonneg entry_cost (w_labelIndexes w) entry_cost_pos). pose proof (zsum_nonneg entry_cost (w_postings w) entry_cost_pos).
  split; apply Forall_forall; intros h Hh.
  - destruct (Hstr _ (Hkeys _ _ Hh ltac:(lia))). apply list_elem_of_lookup in Hh as [i Hi].
    destruct (Forall2_lookup_r _ _ _ _ _ Hl Hi) as (nv & _ & _ & Hat). pose proof (bytes_at_bound _ _ _ Hat) as Ho. rewrite zlen_section in Ho.
    split; [|done]. pose proof (zlen_nonneg (values_data (w_symbols w) 1 (sort_strings (snd nv)))). zlia.
  - destruct (Hstr _ (Hkeys _ _ Hh ltac:(lia))). apply list_elem_of_lookup in Hh as [i Hi].
    destruct (Forall2_lookup_r _ _ _ _ _ Hp Hi) as (kp & _ & _ & Hat). pose proof (bytes_at_bound _ _ _ Hat) as Ho. rewrite zlen_section in Ho.
    split; [|done]. pose proof (zlen_nonneg (refs_data (snd kp))). zlia.
Qed.

Lemma Close_ok : w_stage w <> idxStageDone -> budget w + 76 <= 2 ^ 32 -> Close w = Ok (file_of w) /\ zlen (file_of w) <= budget w + 76.
Proof using Hw.
  intros Hst Hb. destruct entries_ok as [Hel Hep]; [lia|].
  destruct (within_table (w_labelIndexes w)) as [_ Ll]; [eapply Forall_impl; [exact Hel|]; by intros h []|].
  destruct (within_table (w_postings w)) as [_ Lp]; [eapply Forall_impl; [exact Hep|]; by intros h []|].
  unfold budget in *. assert (0 <= w_pos w) by apply zlen_nonneg.
  pose proof (zlen_nonneg (table_data (w_labelIndexes w))). pose proof (zlen_nonneg (table_data (w_postings w))). split.
  - unfold Close, ensureStage. rewrite (proj2 (Z.eqb_neq _ _)) by (by destruct (w_stage w)).
    rewrite (proj2 (Z.ltb_ge _ _)) by (by destruct (w_stage w)). unfold writeOffsetTable at 1. rewrite put_table_data.
    rewrite write_sized_ok by (cbn [w_labelIndexes with_stage]; change (w_pos (with_stage _ _ _)) with (w_pos w); lia). cbn [res_bind].
    unfold writeOffsetTable. rewrite put_table_data. cbn [w_labelIndexes w_postings with_out with_stage w_out w_toc].
    rewrite write_sized_ok.
    2: { unfold w_pos in *. cbn [w_out with_out with_stage]. rewrite zlen_app, zlen_section. lia. }
    cbn [res_bind]. unfold writeTOC. cbn [w_toc with_out with_stage w_out].
    cbn [toc_symbols toc_series toc_labelIndices toc_labelIndicesTable toc_postings].
    set (t := mkTOC _ _ _ _ _ (w_pos (with_out _ _))). assert (Et : t = file_toc w).
    { unfold t, file_toc. f_equal. unfold w_pos. cbn [w_out with_out]. by rewrite zlen_app. }
    rewrite Et. change (e_get (putHash _)) with (seal (toc_fields (file_toc w))). rewrite write_ok.
    2: { unfold w_pos in *. cbn [w_out with_out with_stage]. rewrite !zlen_app, !zlen_section, zlen_toc. lia. }
    cbn [res_bind]. done.
  - unfold file_of, w_pos in *. rewrite !zlen_app, !zlen_section, zlen_toc. lia.
Qed.
End End_.

(** * What the reader answers *)

(** The labels and the symbols of what is added can be written. *)
Record sound {C} (w : Writer) (ct : content C) : Prop := {
  so_series : Forall (fun os => has_symbols w (fst (snd os)) /\ Forall meta_ok (snd (snd os))) (ct_series ct);
  so_values : Forall (fun nv => forall v, v ∈ snd nv -> is_Some (w_symbols w !! v)) (ct_labels ct);
  so_names : NoDup (ct_labels ct).*1;
  so_keys : NoDup (ct_posts ct).*1;
}.

Lemma symbols_data_size ss :
  zlen ss + 4 <= zlen (symbols_data ss) /\ Forall (fun s => Z.of_nat (length (string_bytes s)) <= zlen (symbols_data ss)) ss.
Proof.
  unfold symbols_data. rewrite zlen_app, zlen_PutUint32. induction ss as [|s ss [IH1 IH2]]; [done|].
  rewrite fmap_cons, join_cons, zlen_app. set (r := mjoin _) in *.
  assert (1 + Z.of_nat (length (string_bytes s)) <= zlen (str_data s)).
  { unfold str_data. rewrite zlen_app. pose proof (length_PutUvarint (u64 (Z.of_nat (length (string_bytes s))))). unfold zlen. lia. }
  pose proof (zlen_nonneg r). split; [unfold zlen in *; cbn [length]; lia|]. constructor; [lia|].
  eapply Forall_impl; [exact IH2|]. intros t Ht. cbv beta in *. pose proof (zlen_nonneg (str_data s)). lia.
Qed.

Section Reading.
Context {C : Type} (w : Writer) (ct : content C) (Hw : holds w ct) (Hs : sound w ct) (Hb : budget w + 76 <= 2 ^ 32) (Hst : w_stage w <> idxStageDone).

(** The entries of the tables, with their positions. *)
Definition label_offs : list (string * Z) := zip (ct_labels ct).*1 (he_offset <$> w_labelIndexes w).
Definition post_offs : list (Label * Z) := zip (ct_posts ct).*1 (he_offset <$> w_postings w).

Definition reader_of : Reader :=
  mkIndexReader (file_of w) (file_toc w) (foldl (fun t no => <[fst no := snd no]> t) ∅ label_offs)
    (foldl (fun t ko => <[fst ko := snd ko]> t) ∅ post_offs) (table_of 0 (ct_syms ct) ∅) 2.

Lemma file_small : zlen (file_of w) < 2 ^ 62.
Proof using All. destruct (Close_ok w ct Hw Hst Hb) as [_ ?]. lia. Qed.

Lemma file_extends : exists x, file_of w = w_out w ++ x /\ 52 <= zlen x.
Proof using Type.
  unfold file_of. eexists. rewrite <- !(assoc_L (++)). split; [done|]. rewrite !zlen_app, zlen_toc.
  pose proof (zlen_nonneg (section (table_data (w_labelIndexes w)))). pose proof (zlen_nonneg (section (table_data (w_postings w)))). lia.
Qed.

Lemma file_layout : layout (w_symbols w) (file_of w) (toc_symbols (w_toc w)) (w_labelIndexes w) (w_postings w) ct.
Proof using Hw. destruct file_extends as (x & -> & _). apply layout_app, Hw. Qed.

(** A section that lies in the file. *)
Lemma section_in off data n :
  bytes_at (file_of w) off (section data) -> within n data -> zlen data < 2 ^ 32 /\ decbufAt (file_of w) (i64 off) = Ok (mk_decbuf data None).
Proof using All.
  intros Hat [Hd _]. pose proof (bytes_at_bound _ _ _ Hat) as [? He]. rewrite zlen_section in He.
  destruct (Close_ok w ct Hw Hst Hb) as [_ ?]. pose proof (zlen_nonneg data). split; [lia|]. rewrite i64_small by zlia.
  apply decbufAt_section; [apply file_small|done..|lia].
Qed.

Lemma labels_entries : w_labelIndexes w = (fun no => mkHashEntry [fst no] (snd no)) <$> label_offs.
Proof using Hw.
  destruct (ho_layout _ _ Hw) as [_ _ _ Hl _ _]. unfold label_offs.
  induction Hl as [|nv h nvs hs [Hk _] _ IH]; [done|]. rewrite !fmap_cons. cbn [zip_with]. rewrite fmap_cons, <- IH. cbn [fst snd].
  destruct h. cbn in Hk. by subst.
Qed.

Lemma postings_entries : w_postings w = (fun ko => mkHashEntry [fst (fst ko); snd (fst ko)] (snd ko)) <$> post_offs.
Proof using Hw.
  destruct (ho_layout _ _ Hw) as [_ _ _ _ Hp _]. unfold post_offs.
  induction Hp as [|kp h kps hs [Hk _] _ IH]; [done|]. rewrite !fmap_cons. cbn [zip_with]. rewrite fmap_cons, <- IH. cbn [fst snd].
  destruct h. cbn in Hk. by subst.
Qed.

Lemma symbols_numbered s i : w_symbols w !! s = Some i -> is_u 32 i /\ table_of 0 (ct_syms ct) ∅ !! i = Some s.
Proof using All.
  intros (n & Hn & ->)%(ho_symtab _ _ Hw). pose proof (lookup_lt_Some _ _ _ Hn) as Hlt.
  destruct (ly_syms _ _ _ _ _ _ file_layout) as [_ Hat]. destruct (section_in _ _ _ Hat (within_symbols _)) as [Hl _].
  destruct (symbols_data_size (ct_syms ct)) as [Hc _].
  unfold zlen in Hc at 1. split; [unfold is_u; lia|]. rewrite table_of_lookup, decide_True by (unfold zlen; lia).
  by rewrite Z.sub_0_r, Nat2Z.id.
Qed.

Lemma readSymbols_ok : readSymbols (file_of w) 2 (i64 (toc_symbols (w_toc w))) = Ok (table_of 0 (ct_syms ct) ∅).
Proof using All.
  destruct (ly_syms _ _ _ _ _ _ file_layout) as [Hpos Hat]. destruct (section_in _ _ _ Hat (within_symbols _)) as [Hl E].
  pose proof (bytes_at_bound _ _ _ Hat) as [? Hend]. rewrite zlen_section in Hend. pose proof file_small.
  pose proof (zlen_nonneg (symbols_data (ct_syms ct))).
  unfold readSymbols. rewrite i64_small in * by zlia. rewrite (proj2 (Z.eqb_neq _ _)) by lia. rewrite E. cbn [res_bind].
  destruct (symbols_data_size (ct_syms ct)) as [Hn Hstr].
  assert (Hstr' : Forall (fun s => Z.of_nat (length (string_bytes s)) < 2 ^ 63) (ct_syms ct)) by (eapply Forall_impl; [exact Hstr|]; intros t Ht; cbv beta in *; lia).
  pose proof (zlen_nonneg (ct_syms ct)). unfold symbols_data. unfold d_be32int. rewrite decodes_be32 by zlia. cbn [res_bind].
  assert (u32 (zlen (ct_syms ct)) = zlen (ct_syms ct)) as -> by zlia. change (2 =? 2) with true. cbn match.
  apply read_symbols_data; [|lia..|done]. unfold d_len, symbols_data in *. cbn [db]. rewrite zlen_app, zlen_PutUint32 in Hn. unfold zlen in *. lia.
Qed.

Lemma index_newReader_ok : newReader (file_of w) = Ok reader_of.
Proof using All.
  destruct file_layout as [_ _ _ _ _ Hhead]. destruct file_extends as (x & Ex & Hx). destruct (entries_ok w ct Hw) as [Hel Hep]; [lia|].
  pose proof (bytes_at_bound _ _ _ Hhead) as [_ Hlen]. change (0 + zlen _) with 5 in Hlen. unfold newReader.
  rewrite (proj2 (Z.ltb_ge _ _)) by lia. pose proof (bytes_at_r _ _ _ _ Hhead) as Hver. apply bytes_at_l in Hhead.
  rewrite (slice_at _ _ _ _ Hhead) by done. cbn [res_bind]. rewrite Uint32_Put' by done. cbn [res_bind]. rewrite Z.eqb_refl. cbn [negb].
  change (0 + zlen (PutUint32 MagicIndex)) with 4 in Hver. rewrite (slice_at _ _ _ _ Hver) by done. cbn [res_bind].
  change (index [indexFormatV2] 0) with (Ok 2). cbn [res_bind]. change (negb (2 =? 1) && negb (2 =? 2)) with false. cbn match.
  assert (0 <= w_pos w) as Hout by apply zlen_nonneg. destruct (Close_ok w ct Hw Hst Hb) as [_ Hfile].
  assert (Htoc : readTOC (file_of w) = Ok (file_toc w)).
  { unfold file_of. apply readTOC_toc. pose proof (ho_toc _ _ Hw) as Ht. rewrite !Forall_cons in Ht. destruct Ht as (? & ? & ? & ? & ? & ? & _).
    pose proof (budget_pos w). pose proof (zlen_nonneg (section (table_data (w_labelIndexes w)))).
    assert (w_pos w + zlen (section (table_data (w_labelIndexes w))) <= zlen (file_of w)).
    { unfold file_of, w_pos. rewrite !zlen_app, zlen_toc. pose proof (zlen_nonneg (section (table_data (w_postings w)))). lia. }
    repeat apply Forall_cons_2; try apply Forall_nil_2; cbn [file_toc toc_symbols toc_series toc_labelIndices toc_labelIndicesTable toc_postings toc_postingsTable]; unfold is_u, w_pos in *; lia. }
  rewrite Htoc. cbn [res_bind]. cbn [toc_symbols toc_labelIndicesTable toc_postingsTable file_toc]. rewrite readSymbols_ok. cbn [res_bind].
  assert (Hl : bytes_at (file_of w) (w_pos w) (section (table_data (w_labelIndexes w)))) by (unfold file_of; apply bytes_at_app, bytes_at_app, bytes_at_end).
  assert (Hp : bytes_at (file_of w) (w_pos w + zlen (section (table_data (w_labelIndexes w)))) (section (table_data (w_postings w)))).
  { unfold file_of, w_pos. rewrite <- zlen_app. apply bytes_at_app, bytes_at_end. }
  pose proof (bytes_at_bound _ _ _ Hl) as Bl. pose proof (bytes_at_bound _ _ _ Hp) as Bp. rewrite !zlen_section in Bl. rewrite !zlen_section in Bp.
  pose proof (zlen_nonneg (table_data (w_labelIndexes w))).
  rewrite (readOffsetTable_data _ _ _ _ _ file_small Hl) by (done || lia). rewrite labels_entries at 1. rewrite fold_label_entries. cbn [res_bind].
  rewrite (readOffsetTable_data _ _ _ _ _ file_small Hp) by (done || lia). rewrite postings_entries at 1. rewrite fold_posting_entries. cbn [res_bind].
  done.
Qed.

(** ** Series *)

Lemma reader_Series_ok {D} off s : (off, s) ∈ ct_series ct -> reader_Series (C := D) reader_of off = Ok (fst s, bare <$> snd s).
Proof using All.
  intros Hin. pose proof (ly_series _ _ _ _ _ _ (ho_layout _ _ Hw)) as Hser. rewrite Forall_forall in Hser.
  destruct (Hser _ Hin) as (H1 & H2 & Hat). cbn [fst snd] in *. pose proof (so_series _ _ Hs) as Hok. rewrite Forall_forall in Hok.
  destruct (Hok _ Hin) as [Hsym Hmeta]. cbn [fst snd] in *. destruct (within_series (w_symbols w) s Hmeta) as [Hbytes _].
  pose proof (bytes_at_bound _ _ _ Hat) as [_ Hend]. unfold uv_section in Hend. rewrite zlen_app, zlen_seal in Hend.
  pose proof (budget_pos w). unfold w_pos in *. pose proof (zlen_nonneg (series_data (w_symbols w) s)) as Hsd.
  pose proof (zlen_nonneg (PutUvarint (u64 (zlen (series_data (w_symbols w) s))))).
  destruct file_extends as (x & Ex & Hx). unfold reader_Series. cbn [rd_version rd_b rd_symbols reader_of]. change (2 =? 2) with true. cbn match.
  replace (i64 (u64 (off * 16))) with (16 * off) by zlia.
  rewrite (decbufUvarintAt_section _ file_small _ (series_data (w_symbols w) s)); [|rewrite Ex; by apply bytes_at_app|done|lia|rewrite Ex, zlen_app; lia].
  cbn [res_bind d_err de d_get db]. apply dec_Series_data; [apply symbols_numbered|done|done|..].
  - assert (zlen (fst s) <= zlen (series_data (w_symbols w) s)); [|lia]. unfold series_data, labels_data. rewrite !zlen_app. clear.
    pose proof (zlen_nonneg (PutUvarint (u64 (zlen (fst s))))). pose proof (zlen_nonneg (chunks_data (snd s))).
    assert (zlen (fst s) <= zlen (labels_data (w_symbols w) (fst s))); [|unfold labels_data in *; lia]. clear.
    unfold labels_data. induction (fst s) as [|nv l IH]; [done|]. rewrite fmap_cons, join_cons, !zlen_app.
    pose proof (length_PutUvarint (u64 (sym (w_symbols w) (fst nv)))). unfold zlen in *. cbn [length]. lia.
  - assert (zlen (snd s) <= 1 + zlen (series_data (w_symbols w) s)); [|lia]. unfold series_data, chunks_data. rewrite !zlen_app. clear.
    pose proof (zlen_nonneg (PutUvarint (u64 (zlen (fst s))))). pose proof (zlen_nonneg (labels_data (w_symbols w) (fst s))).
    pose proof (zlen_nonneg (PutUvarint (u64 (zlen (snd s))))). destruct (snd s) as [|c chks]; [unfold zlen in *; cbn [length] in *; lia|].
    rewrite !zlen_app. pose proof (zlen_nonneg (PutVarint (m_MinTime c))). pose proof (zlen_nonneg (PutUvarint (u64 (m_MaxTime c - m_MinTime c)))).
    pose proof (zlen_nonneg (PutUvarint (m_Ref c))).
    assert (zlen chks <= zlen (metas_data (m_MaxTime c) (i64 (m_Ref c)) chks)); [|unfold zlen in *; cbn [length]; lia]. clear.
    generalize (m_MaxTime c) (i64 (m_Ref c)). induction chks as [|d chks IH]; intros t0 r0; [done|]. cbn [metas_data]. rewrite !zlen_app.
    specialize (IH (m_MaxTime d) (i64 (m_Ref d))). pose proof (length_PutUvarint (u64 (m_MinTime d - t0))).
    pose proof (zlen_nonneg (PutUvarint (u64 (m_MaxTime d - m_MinTime d)))). pose proof (zlen_nonneg (PutVarint (i64 (i64 (m_Ref d) - r0)))).
    unfold zlen in *. cbn [length]. lia.
Qed.

(** ** Label values *)

Lemma label_offs_names : label_offs.*1 = (ct_labels ct).*1.
Proof using Hw.
  unfold label_offs. apply fst_zip. rewrite !length_fmap. by rewrite (Forall2_length _ _ _ (ly_labels _ _ _ _ _ _ (ho_layout _ _ Hw))).
Qed.

Lemma post_offs_keys : post_offs.*1 = (ct_posts ct).*1.
Proof using Hw.
  unfold post_offs. apply fst_zip. rewrite !length_fmap. by rewrite (Forall2_length _ _ _ (ly_posts _ _ _ _ _ _ (ho_layout _ _ Hw))).
Qed.

Lemma label_found n vs :
  (n, vs) ∈ ct_labels ct -> exists off, rd_labels reader_of !! n = Some off /\
    bytes_at (file_of w) off (section (values_data (w_symbols w) 1 (sort_strings vs))).
Proof using All.
  intros [i Hi]%list_elem_of_lookup. destruct (Forall2_lookup_l _ _ _ _ _ (ly_labels _ _ _ _ _ _ file_layout) Hi) as (h & Hh & _ & Hat).
  exists (he_offset h). split; [|exact Hat]. cbn [rd_labels reader_of]. apply foldl_insert_lookup; [rewrite label_offs_names; apply Hs|].
  left. apply list_elem_of_lookup. exists i. unfold label_offs. apply lookup_zip_with_Some. exists n, (he_offset h).
  by rewrite !list_lookup_fmap, Hi, Hh.
Qed.

Lemma label_missing n : n ∉ (ct_labels ct).*1 -> rd_labels reader_of !! n = None.
Proof using All.
  intros Hn. destruct (rd_labels reader_of !! n) as [off|] eqn:E; [|done]. cbn [rd_labels reader_of] in E.
  apply foldl_insert_lookup in E as [E|[_ E]]; [|by rewrite lookup_empty in E|rewrite label_offs_names; apply Hs].
  destruct Hn. rewrite <- label_offs_names. by apply (list_elem_of_fmap_2 fst) in E.
Qed.

Lemma posting_found k refs :
  (k, refs) ∈ ct_posts ct -> exists off, rd_postings reader_of !! k = Some off /\ bytes_at (file_of w) off (section (refs_data refs)).
Proof using All.
  intros [i Hi]%list_elem_of_lookup. destruct (Forall2_lookup_l _ _ _ _ _ (ly_posts _ _ _ _ _ _ file_layout) Hi) as (h & Hh & _ & Hat).
  exists (he_offset h). split; [|exact Hat]. cbn [rd_postings reader_of]. apply foldl_insert_lookup; [rewrite post_offs_keys; apply Hs|].
  left. apply list_elem_of_lookup. exists i. unfold post_offs. apply lookup_zip_with_Some. exists k, (he_offset h).
  by rewrite !list_lookup_fmap, Hi, Hh.
Qed.

Lemma posting_missing k : k ∉ (ct_posts ct).*1 -> rd_postings reader_of !! k = None.
Proof using All.
  intros Hk. destruct (rd_postings reader_of !! k) as [off|] eqn:E; [|done]. cbn [rd_postings reader_of] in E.
  apply foldl_insert_lookup in E as [E|[_ E]]; [|by rewrite lookup_empty in E|rewrite post_offs_keys; apply Hs].
  destruct Hk. rewrite <- post_offs_keys. by apply (list_elem_of_fmap_2 fst) in E.
Qed.

Lemma zlen_mjoin_be32 {A} (f : A -> Z) l : zlen (mjoin ((fun x => PutUint32 (f x)) <$> l)) = 4 * zlen l.
Proof using Type.
  induction l as [|x l IH]; [done|]. rewrite fmap_cons, join_cons, zlen_app, zlen_PutUint32, IH. unfold zlen. cbn [length]. lia.
Qed.

(** The tuples of one name. *)
Lemma tuples_ok vs :
  (forall v, v ∈ vs -> is_Some (w_symbols w !! v)) ->
  let t := mkTuples 1 (mjoin ((fun v => PutUint32 (sym (w_symbols w) v)) <$> vs)) (table_of 0 (ct_syms ct) ∅) in
  tp_Len t = Ok (zlen vs) /\ forall i v, vs !! i = Some v -> tp_At t (Z.of_nat i) = Ok [v].
Proof using All.
  intros Hv t. split.
  - unfold tp_Len, t. cbn [tp_idsCount tp_idsBytes]. rewrite zlen_mjoin_be32. cbn [Z.eqb]. f_equal. change (4 * 1) with 4. rewrite Z.mul_comm. by apply Z_div_mult.
  - intros i v Hi. pose proof (lookup_lt_Some _ _ _ Hi) as Hlt. unfold tp_At, t. cbn [tp_idsCount tp_idsBytes tp_symbols].
    rewrite zlen_mjoin_be32, (proj2 (Z.ltb_ge _ _)) by (unfold zlen; lia). change (Z.to_nat 1) with 1%nat. cbn [tp_ids tp_idsBytes tp_symbols].
    rewrite slice_ok by (rewrite zlen_mjoin_be32; unfold zlen; lia). cbn [res_bind].
    assert (Es : (fun v => PutUint32 (sym (w_symbols w) v)) <$> vs = PutUint32 <$> (sym (w_symbols w) <$> vs)) by (by rewrite <- list_fmap_compose).
    rewrite zlen_mjoin_be32, Es. replace (Z.to_nat (4 * Z.of_nat i)) with (i * 4)%nat by lia.
    destruct (drop_mjoin_be32 (sym (w_symbols w) <$> vs) i (sym (w_symbols w) v)) as [r Er]; [by rewrite list_lookup_fmap, Hi|].
    assert (El : length (mjoin (PutUint32 <$> (sym (w_symbols w) <$> vs))) = (4 * length vs)%nat).
    { pose proof (zlen_mjoin_be32 (sym (w_symbols w)) vs) as E. rewrite Es in E. unfold zlen in E. lia. }
    rewrite take_ge by (rewrite length_drop, El; unfold zlen; lia). rewrite Er.
    destruct (lookupSymbol_sym (w_symbols w) _ symbols_numbered v) as [Hr Hl]; [apply Hv; by eapply list_elem_of_lookup_2|].
    rewrite Uint32_Put by done. cbn [res_bind]. by rewrite Hl.
Qed.

Lemma LabelValues_ok {D} n vs :
  (n, vs) ∈ ct_labels ct -> exists ts, ix_LabelValues (C := D) reader_of n = Ok ts /\ tuples_of ts (sort_strings vs).
Proof using All.
  intros Hin. destruct (label_found n vs Hin) as (off & Hoff & Hat). destruct (section_in _ _ _ Hat (within_values _ _ _)) as [Hl E].
  unfold ix_LabelValues, index_reader, LabelValues. change (String.concat label_sep [n]) with n. rewrite Hoff.
  change (rd_b reader_of) with (file_of w). rewrite E. cbn [res_bind]. unfold d_be32int, values_data.
  rewrite decodes_be32 by zlia. cbn [res_bind]. rewrite <- (app_nil_r (mjoin _)).
  rewrite decodes_be32 by zlia. cbn [res_bind d_err de d_get db]. rewrite app_nil_r.
  change (u32 (Z.of_nat 1)) with 1. change (rd_symbols reader_of) with (table_of 0 (ct_syms ct) ∅).
  destruct (tuples_ok (sort_strings vs)) as [Hlen Hat']. { intros v. rewrite sort_strings_perm. pose proof (so_values _ _ Hs) as Hv. rewrite Forall_forall in Hv. apply (Hv _ Hin). }
  rewrite Hlen. cbn [res_bind]. eexists. split; [done|]. split; [cbn; unfold zlen; lia|exact Hat'].
Qed.

Lemma reader_Postings_ok k refs :
  (k, refs) ∈ ct_posts ct -> reader_Postings reader_of (fst k) (snd k) = Ok (of_bytes (mjoin (PutUint32 <$> refs))).
Proof using All.
  intros Hin. destruct (posting_found k refs Hin) as (off & Hoff & Hat). destruct (section_in _ _ _ Hat (within_refs _)) as [Hl E].
  unfold reader_Postings. destruct k as [n v]. cbn [fst snd].
  lazymatch goal with |- context [match ?x with Some _ => _ | None => _ end] => replace x with (Some off) by exact (eq_sym Hoff) end. change (rd_b reader_of) with (file_of w). rewrite E. cbn [res_bind d_err de d_get db].
  unfold dec_Postings, d_be32int, refs_data. rewrite decodes_be32 by zlia. done.
Qed.
End Reading.

(** * All calls *)

Definition call_cost {C} (c : icall C) : Z :=
  match c with
  | ISymbols s => 12 + zsum str_cost (elements s)
  | ISeries _ l chks => series_cost (l, chks)
  | ILabelIndex ns vs => 39 + zsum str_cost ns + 4 * zlen vs
  | IPostings n v p => posting_cost (n, v) (Z.of_nat (p_size p))
  end.

(** A bound of the size of the file: the header, the calls, two tables and the table of
    contents. *)
Definition calls_cost {C} (cs : list (icall C)) : Z := 81 + zsum call_cost cs.

(** A series that can be written. *)
Record writable {C} (symbols : gset string) (s : Labels * list (Meta C)) : Prop := {
  wr_labels : fst s <> [];
  wr_names : NoDup (fst s).*1;
  wr_values : Forall (fun l => snd l <> EmptyString) (fst s);
  wr_symbols : Forall (fun l => fst l ∈ symbols /\ snd l ∈ symbols) (fst s);
  wr_metas : Forall meta_ok (snd s);
}.

Section Calls.
Context {C : Type}.
Implicit Types (ss : list (wseries C)) (ct : content (wchunk C)).

Definition set_series ct l := mkContent (C := wchunk C) (ct_syms ct) l (ct_labels ct) (ct_posts ct).
Definition set_labels ct l := mkContent (ct_syms ct) (ct_series ct) l (ct_posts ct).
Definition set_posts ct l := mkContent (ct_syms ct) (ct_series ct) (ct_labels ct) l.

(** The state after calls of a stage. *)
Definition ran (w w' : Writer) ct' (s : indexWriterStage) (n : Z) : Prop :=
  holds w' ct' /\ stage_num (w_stage w') <= stage_num s /\ budget w' <= budget w + n /\ w_symbols w' = w_symbols w.

Lemma run_series_calls ss w ct :
  holds w ct -> stage_num (w_stage w) <= stage_num idxStageSeries ->
  increasing fst labels_cmp ss -> Forall (fun s => labels_cmp (w_lastSeries w) (fst s) = Lt) ss ->
  Forall (fun s => has_symbols w (fst s) /\ Forall meta_ok (snd s)) ss -> budget w + zsum series_cost ss <= 2 ^ 32 ->
  exists offs w', run_calls w (series_calls (zlen (ct_series ct)) ss) = Ok w' /\ length offs = length ss /\
    ran w w' (set_series ct (ct_series ct ++ zip offs ss)) idxStageSeries (zsum series_cost ss).
Proof using Type.
  revert w ct. induction ss as [|s ss IH]; intros w ct Hw Hst Hinc Hlast Hok Hb; cbn [series_calls run_calls].
  - exists [], w. split_and!; [done..|]. split_and!; [|done|unfold zsum; cbn; lia|done].
    cbn [zip_with]. rewrite app_nil_r. by destruct ct.
  - rewrite zsum_cons in Hb. apply Forall_cons in Hlast as [Hl Hlast], Hok as [[Hsym Hm] Hok].
    unfold increasing in Hinc. apply StronglySorted_inv in Hinc as [Hinc Hnext].
    assert (0 <= zsum series_cost ss) as Hpos.
    { apply zsum_nonneg. intros x. unfold series_cost. pose proof (zlen_nonneg (fst x)). pose proof (zlen_nonneg (snd x)). lia. }
    destruct (AddSeries_ok w ct s) as (off & w1 & E & (Hw1 & Hst1 & Hb1) & Es1); [done..|lia|done|done|done|].
    assert (Elen : zlen (ct_series ct) + 1 = zlen (ct_series (add_ser ct (off, s)))) by (cbn [ct_series add_ser]; by rewrite zlen_app).
    assert (Elast : w_lastSeries w1 = fst s) by (rewrite (ho_last _ _ Hw1); cbn [ct_series add_ser]; by rewrite last_snoc).
    destruct (IH w1 (add_ser ct (off, s))) as (offs & w' & E' & Hlen & Hw' & Hst' & Hb' & Es'); [done|by rewrite Hst1|done|by rewrite Elast| |lia|].
    { unfold has_symbols in *. by rewrite Es1. }
    exists (off :: offs), w'. cbn [icall_run iw_AddSeries index_writer]. rewrite E. cbn [res_bind]. rewrite Elen, E'. split; [done|].
    split; [cbn; lia|]. rewrite zsum_cons. split_and!; [|done|lia|by rewrite Es', Es1].
    cbn [ct_series add_ser set_series ct_syms ct_labels ct_posts zip_with] in *. by rewrite <- (assoc_L (++)) in Hw'.
Qed.

Lemma run_label_calls nvs w ct :
  holds w ct -> stage_num (w_stage w) <= stage_num idxStageLabelIndex ->
  Forall (fun nv => forall v, v ∈ snd nv -> is_Some (w_symbols w !! v)) nvs -> budget w + zsum label_cost nvs <= 2 ^ 32 ->
  exists w', run_calls w ((fun nv => ILabelIndex (C := wchunk C) [fst nv] (snd nv)) <$> nvs) = Ok w' /\
    ran w w' (set_labels ct (ct_labels ct ++ nvs)) idxStageLabelIndex (zsum label_cost nvs).
Proof using Type.
  revert w ct. induction nvs as [|nv nvs IH]; intros w ct Hw Hst Hv Hb.
  - exists w. split; [done|]. split_and!; [|done|unfold zsum; cbn; lia|done]. rewrite app_nil_r. by destruct ct.
  - rewrite zsum_cons in Hb. apply Forall_cons in Hv as [Hv0 Hv].
    assert (0 <= zsum label_cost nvs) as Hpos.
    { apply zsum_nonneg. intros x. unfold label_cost. pose proof (str_cost_pos (fst x)). pose proof (zlen_nonneg (snd x)). lia. }
    destruct (WriteLabelIndex_ok (fun _ vs => vs) w ct nv) as (w1 & E & (Hw1 & Hst1 & Hb1) & Es1); [done..|lia|done|].
    destruct (IH w1 (add_lab ct nv)) as (w' & E' & Hw' & Hst' & Hb' & Es'); [done|by rewrite Hst1|by rewrite Es1|lia|].
    exists w'. rewrite fmap_cons. cbn [run_calls icall_run iw_WriteLabelIndex index_writer]. rewrite E. cbn [res_bind]. split; [done|].
    rewrite zsum_cons. split_and!; [|done|lia|by rewrite Es', Es1].
    cbn [ct_labels add_lab set_labels ct_syms ct_series ct_posts] in *. by rewrite <- (assoc_L (++)) in Hw'.
Qed.

Lemma run_posting_calls (f : Label -> list Z) ks w ct :
  holds w ct -> stage_num (w_stage w) <= stage_num idxStagePostings ->
  (forall k, StronglySorted Z.lt (f k) /\ Forall (fun i => 0 <= i < zlen (ct_series ct)) (f k)) ->
  budget w + zsum (fun k => posting_cost k (zlen (f k))) ks <= 2 ^ 32 ->
  exists w', run_calls w ((fun k => IPostings (C := wchunk C) (fst k) (snd k) (of_list (f k))) <$> ks) = Ok w' /\
    ran w w' (set_posts ct (ct_posts ct ++ ((fun k => (k, off_of ct <$> f k)) <$> ks))) idxStagePostings (zsum (fun k => posting_cost k (zlen (f k))) ks).
Proof using Type.
  intros Hw Hst Hf. revert w ct Hw Hst Hf. induction ks as [|k ks IH]; intros w ct Hw Hst Hf Hb.
  - exists w. split; [done|]. split_and!; [|done|unfold zsum; cbn; lia|done]. rewrite app_nil_r. by destruct ct.
  - rewrite zsum_cons in Hb. destruct (Hf k) as [Hinc Hin].
    assert (0 <= zsum (fun k => posting_cost k (zlen (f k))) ks) as Hpos.
    { apply zsum_nonneg. intros x. unfold posting_cost. pose proof (str_cost_pos (fst x)). pose proof (str_cost_pos (snd x)). pose proof (zlen_nonneg (f x)). lia. }
    destruct (WritePostings_ok w ct k (of_list (f k)) (f k)) as (w1 & E & (Hw1 & Hst1 & Hb1) & Es1); [done..|by apply of_list_gives|done|done|lia|].
    destruct (IH w1 (add_post ct (k, off_of ct <$> f k))) as (w' & E' & Hw' & Hst' & Hb' & Es'); [done|by rewrite Hst1|exact Hf|lia|].
    exists w'. rewrite fmap_cons. cbn [run_calls icall_run iw_WritePostings index_writer]. rewrite E. cbn [res_bind]. split; [done|].
    rewrite zsum_cons. split_and!; [|done|lia|by rewrite Es', Es1].
    rewrite fmap_cons. cbn [ct_posts add_post set_posts ct_syms ct_series ct_labels] in *. by rewrite <- (assoc_L (++)) in Hw'.
Qed.
End Calls.

(** * The index as a whole *)

Lemma ids_with_elem {C} k i0 (ss : list (wseries C)) i :
  i ∈ ids_with k i0 ss <-> exists n s, ss !! n = Some s /\ i = i0 + Z.of_nat n /\ (k = allPostingsKey \/ k ∈ fst s).
Proof.
  revert i0. induction ss as [|s ss IH]; intros i0; cbn [ids_with].
  - split; [by intros ?%not_elem_of_nil|]. intros (n & s & Hn & _). by rewrite lookup_nil in Hn.
  - assert (Hcons : i ∈ ids_with k (i0 + 1) ss <-> exists n s', ss !! n = Some s' /\ i = i0 + Z.of_nat (S n) /\ (k = allPostingsKey \/ k ∈ fst s')).
    { rewrite IH. split; intros (n & s' & Hn & -> & Hk); exists n, s'; (split_and!; [done|lia|done]). }
    case_decide as Hk.
    + rewrite elem_of_cons, Hcons. split.
      * intros [->|(n & s' & Hn & -> & Hk')]; [exists 0%nat, s; split_and!; [done|lia|done]|by exists (S n), s'].
      * intros ([|n] & s' & Hn & -> & Hk'); [left; lia|right; by exists n, s'].
    + rewrite Hcons. split; [intros (n & s' & ?); by exists (S n), s'|].
      intros ([|n] & s' & Hn & -> & Hk'); [injection Hn as ->; done|by exists n, s'].
Qed.

Section Whole.
Context {C D : Type} (w : Writer) (L : list string) (ss : list (wseries C)) (offs : list Z) (nvs : list (string * list string)) (ks : list Label).
Context (symbols : gset string) (Hlen : length offs = length ss).

Definition base_content : content (wchunk C) := mkContent L (zip offs ss) nvs [].
Definition whole : content (wchunk C) := set_posts base_content ((fun k => (k, off_of base_content <$> ids_with k 0 ss)) <$> ks).

Context (Hw : holds w whole) (Hb : budget w + 76 <= 2 ^ 32) (Hst : w_stage w <> idxStageDone).
Context (Hsound : sound w whole) (Hinc : increasing fst labels_cmp ss) (Hok : Forall (writable symbols) ss).
Context (Hnvs : forall n vs, (n, vs) ∈ nvs -> NoDup vs /\ forall v, v ∈ vs <-> exists s, s ∈ ss /\ (n, v) ∈ fst s).
Context (Hnames : forall n, n ∈ nvs.*1 <-> exists v s, s ∈ ss /\ (n, v) ∈ fst s).
Context (Hks : forall k, k ∈ ks <-> exists s, s ∈ ss /\ (k = allPostingsKey \/ k ∈ fst s)).

Abbreviation rd := (reader_of w whole).
Abbreviation pairs := (zip offs (fst <$> ss)).

Lemma pairs_lookup i off ls : pairs !! i = Some (off, ls) <-> exists s, zip offs ss !! i = Some (off, s) /\ fst s = ls.
Proof using Hlen.
  rewrite lookup_zip_with_Some. setoid_rewrite lookup_zip_with_Some. setoid_rewrite list_lookup_fmap. split.
  - intros (x & y & [= -> ->] & Hx & Hy). destruct (ss !! i) as [s|] eqn:E; [|done]. injection Hy as <-. exists s. split; [|done]. by exists x, s.
  - intros (s & (x & y & [= -> ->] & Hx & Hy) & <-). exists x, (fst y). by rewrite Hy.
Qed.

Lemma off_lookup n s : ss !! n = Some s -> zip offs ss !! n = Some (off_of base_content (Z.of_nat n), s).
Proof using Hlen.
  intros Hn. destruct (lookup_lt_is_Some_2 offs n) as [o Ho]; [rewrite Hlen; by eapply lookup_lt_Some|].
  assert (E : zip offs ss !! n = Some (o, s)) by (apply lookup_zip_with_Some; by exists o, s).
  unfold off_of. cbn [ct_series base_content]. rewrite Nat2Z.id, E. done.
Qed.

Lemma elem_off_ids k i :
  i ∈ off_of base_content <$> ids_with k 0 ss <-> exists ls, (i, ls) ∈ pairs /\ (k = allPostingsKey \/ k ∈ ls).
Proof using Hlen.
  rewrite list_elem_of_fmap. split.
  - intros (j & -> & (n & s & Hn & -> & Hk)%ids_with_elem). exists (fst s). split; [|done].
    apply list_elem_of_lookup. exists n. apply pairs_lookup. exists s. split; [|done]. by apply off_lookup.
  - intros (ls & [n Hn]%list_elem_of_lookup & Hk). apply pairs_lookup in Hn as (s & Hn & <-).
    assert (Hs : ss !! n = Some s) by (apply lookup_zip_with_Some in Hn as (? & ? & [= -> ->] & _ & ?); done).
    rewrite (off_lookup _ _ Hs) in Hn. injection Hn as <-. exists (Z.of_nat n). split; [done|]. apply ids_with_elem. by exists n, s.
Qed.

Lemma offs_incr : StronglySorted Z.lt offs.
Proof using Hlen Hw.
  pose proof (ly_incr _ _ _ _ _ _ (ho_layout _ _ Hw)) as Hi. cbn [ct_series whole set_posts base_content] in Hi.
  by rewrite fst_zip in Hi by lia.
Qed.

Lemma pairs_mono i j a b la lb : pairs !! i = Some (a, la) -> pairs !! j = Some (b, lb) -> a < b -> labels_cmp la lb = Lt.
Proof using Hlen Hw Hinc.
  intros (sa & Ha & <-)%pairs_lookup (sb & Hb' & <-)%pairs_lookup Hab.
  apply lookup_zip_with_Some in Ha as (? & ? & [= -> ->] & Ha & Hsa), Hb' as (? & ? & [= -> ->] & Hb' & Hsb).
  assert (i < j)%nat. { destruct (decide (i < j)%nat); [done|]. destruct (decide (i = j)) as [->|]; [rewrite Ha in Hb'; injection Hb'; lia|].
    pose proof (StronglySorted_lookup _ _ j i _ _ offs_incr Hb' Ha). lia. }
  exact (StronglySorted_lookup _ _ i j _ _ Hinc Hsa Hsb ltac:(done)).
Qed.

Lemma ids_bounds k : Forall (fun i => 0 <= i < zlen (ct_series whole)) (ids_with k 0 ss).
Proof using Hlen.
  eapply Forall_impl; [apply ids_with_bounds|]. cbn [ct_series whole set_posts base_content]. intros i.
  unfold zlen. rewrite length_zip_with, Hlen, Nat.min_id. cbv beta. lia.
Qed.

(** The postings of a key are its offsets, in order. *)
Lemma key_postings k :
  exists p r, ix_Postings (C := D) rd (fst k) (snd k) = Ok p /\ resumes (2 ^ 32) p r /\ r = off_of base_content <$> ids_with k 0 ss.
Proof using Hb Hks Hlen Hsound Hst Hw.
  destruct (decide (k ∈ ks)) as [Hin|Hn].
  - exists (of_bytes (mjoin (PutUint32 <$> (off_of base_content <$> ids_with k 0 ss)))), (off_of base_content <$> ids_with k 0 ss).
    split_and!; [|apply resumes_bytes|done].
    + apply (reader_Postings_ok w whole Hw Hsound Hb Hst k). cbn [ct_posts whole set_posts]. apply list_elem_of_fmap. by exists k.
    + unfold Bound32. lia.
    + pose proof (ly_series _ _ _ _ _ _ (ho_layout _ _ Hw)) as Hser. rewrite Forall_forall in Hser. pose proof (budget_pos w).
      assert (Hr : Forall (fun x => 0 < x < 2 ^ 32) (off_of base_content <$> ids_with k 0 ss)).
      { apply Forall_forall. intros i (ls & [n (s & Hn & _)%pairs_lookup]%list_elem_of_lookup & _)%elem_off_ids.
        destruct (Hser (i, s)) as (? & ? & _); [by eapply list_elem_of_lookup_2|]. unfold w_pos in *. cbn [fst] in *. lia. }
      split; [lia|]. split; [|eapply Forall_impl; [exact Hr|]; cbn; lia]. constructor; [|eapply Forall_impl; [exact Hr|]; cbn; lia].
      apply (off_of_sorted w whole); [done|apply ids_with_incr|apply ids_bounds].
  - exists (of_err EmptyPostings), []. split_and!; [|apply resumes_err; unfold PosBound; lia|].
    + cbn [ix_Postings index_reader]. unfold reader_Postings.
      assert (E : rd_postings rd !! k = None).
      { apply (posting_missing w whole Hw Hsound Hb Hst). cbn [ct_posts whole set_posts]. rewrite <- list_fmap_compose. intros (k' & -> & Hk')%list_elem_of_fmap. done. }
      destruct k as [n v]. cbn [fst snd]. lazymatch goal with |- context [match ?x with Some _ => _ | None => _ end] => replace x with (@None Z) by exact (eq_sym E) end. done.
    + destruct (decide (ids_with k 0 ss = [])) as [->|Hne]; [done|]. apply ids_with_nil in Hne. by apply Hks in Hne.
Qed.

Lemma sort_strings_increasing vs : NoDup vs -> increasing id str_cmp (sort_strings vs).
Proof using Type.
  intros Hnd. assert (Hs := sort_by_sorted id str_cmp vs : StronglySorted _ (sort_strings vs)).
  rewrite <- (sort_strings_perm vs) in Hnd. revert Hnd. induction Hs as [|v l _ IH Hv]; intros Hnd; [constructor|].
  apply NoDup_cons in Hnd as [Hn Hnd]. constructor; [by apply IH|]. apply Forall_forall. intros x Hx. rewrite Forall_forall in Hv.
  specialize (Hv x Hx). unfold cmp_le in Hv. cbn [id] in *. destruct (str_cmp v x) eqn:E; [|done|done].
  apply (cmp_eq str_cmp) in E as ->. done.
Qed.

Lemma index_holds : IndexHolds (C := D) (2 ^ 32) rd pairs.
Proof using All.
  assert (Hpairs : forall i ls, (i, ls) ∈ pairs -> exists s, s ∈ ss /\ fst s = ls).
  { intros i ls [n (s & Hn & <-)%pairs_lookup]%list_elem_of_lookup. exists s. split; [|done].
    apply lookup_zip_with_Some in Hn as (? & ? & [= -> ->] & _ & ?). by eapply list_elem_of_lookup_2. }
  assert (Hss : forall s, s ∈ ss -> exists i, (i, fst s) ∈ pairs).
  { intros s [n Hn]%list_elem_of_lookup. exists (off_of base_content (Z.of_nat n)). apply list_elem_of_lookup. exists n.
    apply pairs_lookup. exists s. split; [|done]. by apply off_lookup. }
  rewrite Forall_forall in Hok. split.
  - intros name _. destruct (decide (name ∈ nvs.*1)) as [Hin|Hn].
    + apply list_elem_of_fmap in Hin as ([n vs] & -> & Hin). cbn [fst]. destruct (LabelValues_ok (D := D) w whole Hw Hsound Hb Hst n vs Hin) as (ts & E & Hts).
      destruct (Hnvs _ _ Hin) as [Hnd Hv]. exists ts, (sort_strings vs). split_and!; [done|done|by apply sort_strings_increasing|].
      intros v. rewrite sort_strings_perm, Hv. split.
      * intros (s & Hs & Hl). destruct (Hss s Hs) as [i Hi]. by exists (i, fst s).
      * intros ([i ls] & Hi & Hl). destruct (Hpairs _ _ Hi) as (s & Hs & <-). by exists s.
    + exists (mkStringTuples 0 (fun _ => Ok [])), []. split_and!.
      * cbn [ix_LabelValues index_reader]. unfold LabelValues. change (String.concat label_sep [name]) with name.
        by rewrite (label_missing w whole Hw Hsound Hb Hst name Hn).
      * done.
      * constructor.
      * intros v. split; [by intros ?%not_elem_of_nil|]. intros ([i ls] & Hi & Hl). destruct (Hpairs _ _ Hi) as (s & Hs & <-).
        destruct Hn. apply Hnames. by exists v, s.
  - intros name v Hname. destruct (key_postings (name, v)) as (p & r & E & Hr & ->). exists p, (off_of base_content <$> ids_with (name, v) 0 ss).
    split_and!; [done|done|]. intros i. rewrite elem_off_ids. split; intros (ls & Hi & Hl); exists ls; (split; [done|]); [|by right].
    destruct Hl as [[= ->]|]; done.
  - destruct (key_postings AllPostingsKey) as (p & r & E & Hr & ->). eexists p, _. split_and!; [done|done|]. intros i. rewrite elem_off_ids.
    rewrite list_elem_of_fmap. split; [intros (ls & Hi & _); by exists (i, ls)|]. intros ([i' ls] & -> & Hi). exists ls. split; [done|by left].
  - intros p r Hp Hr. exists r. split_and!; [by apply denotes_gives with (2 ^ 32)|done|]. intros i j a b la lb Hi Hj Hij [na Ha]%list_elem_of_lookup [nb Hb']%list_elem_of_lookup.
    eapply pairs_mono; [exact Ha|exact Hb'|]. apply denotes_incr in Hp. exact (StronglySorted_lookup _ _ i j _ _ Hp Hi Hj Hij).
  - intros [i ls] Hi. destruct (Hpairs _ _ Hi) as (s & Hs & <-). destruct (Hok s Hs). done.
  - rewrite fst_zip by (rewrite length_fmap; lia). eapply incr_NoDup, offs_incr.
Qed.

Lemma series_back :
  Forall2 (fun off s => ix_Series (C := D) rd off = Ok (fst s, bare <$> snd s)) offs ss.
Proof using All.
  apply Forall2_same_length_lookup_2; [done|]. intros i off s Ho Hs. apply (reader_Series_ok w whole Hw Hsound Hb Hst).
  apply list_elem_of_lookup. exists i. apply lookup_zip_with_Some. by exists off, s.
Qed.

Lemma symbols_back : (forall s, is_Some (w_symbols w !! s) <-> s ∈ symbols) -> exists S, ix_Symbols rd = Ok S /\ S = symbols.
Proof using Hw Hlen.
  intros Hsym. eexists. split; [done|]. apply set_eq. intros s. rewrite elem_of_list_to_set, list_elem_of_fmap, <- Hsym. split.
  - intros ([i s'] & -> & Hi%elem_of_map_to_list). cbn [snd rd_symbols reader_of ct_syms whole set_posts base_content] in *. rewrite table_of_lookup in Hi.
    case_decide; [|by rewrite lookup_empty in Hi]. exists (Z.of_nat (Z.to_nat (i - 0))). apply (ho_symtab _ _ Hw). by exists (Z.to_nat (i - 0)).
  - intros [i (n & Hn & ->)%(ho_symtab _ _ Hw)]. exists (Z.of_nat n, s). split; [done|]. apply elem_of_map_to_list.
    cbn [rd_symbols reader_of ct_syms whole set_posts base_content] in *. rewrite table_of_lookup, decide_True.
    + by rewrite Z.sub_0_r, Nat2Z.id.
    + pose proof (lookup_lt_Some _ _ _ Hn). unfold zlen. lia.
Qed.
End Whole.

(** * Main theorem *)

(** The costs of the calls of each kind. *)
Lemma call_costs {C} (ss : list (wseries C)) i :
  zsum call_cost (series_calls i ss) = zsum series_cost ss.
Proof. revert i. induction ss as [|s ss IH]; intros i; [done|]. cbn [series_calls]. rewrite !zsum_cons, IH. by destruct s. Qed.

Lemma zsum_fmap {A B} (g : A -> B) (f : B -> Z) l : zsum f (g <$> l) = zsum (fun x => f (g x)) l.
Proof. induction l as [|x l IH]; [done|]. rewrite fmap_cons, !zsum_cons. by rewrite IH. Qed.

Lemma zsum_ext {A} (f g : A -> Z) l : (forall x, f x = g x) -> zsum f l = zsum g l.
Proof. intros E. induction l as [|x l IH]; [done|]. by rewrite !zsum_cons, E, IH. Qed.

Lemma index_written {C D} (symbols : gset string) (ss : list (wseries C)) (lcalls pcalls : list (icall (wchunk C))) :
  let calls := ISymbols symbols :: series_calls 0 ss ++ lcalls ++ pcalls in
  increasing fst labels_cmp ss -> Forall (writable symbols) ss -> label_calls ss lcalls -> posting_calls ss pcalls ->
  calls_cost calls <= 2 ^ 32 ->
  exists w file rd offs,
    (let? w := NewWriter in run_calls w calls) = Ok w /\ Close w = Ok file /\ newReader file = Ok rd /\
    zlen file <= calls_cost calls /\ length offs = length ss /\
    ix_Symbols rd = Ok symbols /\ IndexHolds (C := D) (2 ^ 32) rd (zip offs (fst <$> ss)) /\
    Forall2 (fun off s => ix_Series (C := D) rd off = Ok (fst s, bare <$> snd s)) offs ss.
Proof.
  intros calls Hinc Hok (nvs & -> & Hnd & Hnames & Hnvs) (ks & -> & Hkinc & Hks) Hcost. unfold calls, calls_cost in *.
  rewrite zsum_cons, !zsum_app, call_costs in *. rewrite !zsum_fmap in *.
  set (L := sort_strings (elements symbols)).
  assert (EL : zsum str_cost (elements symbols) = zsum str_cost L) by (apply zsum_perm; symmetry; apply sort_strings_perm).
  cbn [call_cost] in *. rewrite EL in *.
  assert (El : zsum (fun nv => 39 + zsum str_cost [fst nv] + 4 * zlen (snd nv)) nvs = zsum label_cost nvs).
  { apply zsum_ext. intros nv. unfold label_cost. rewrite zsum_cons. change (zsum str_cost []) with 0. lia. }
  assert (Ep : zsum (A := string * string) (fun k => posting_cost (fst k, snd k) (Z.of_nat (p_size (of_list (ids_with k 0 ss))))) ks =
    zsum (fun k => posting_cost k (zlen (ids_with k 0 ss))) ks) by (apply zsum_ext; by intros []).
  rewrite El in Hcost |- *. rewrite Ep in Hcost |- *. clear El Ep.
  assert (Hps : 0 <= zsum series_cost ss) by (apply zsum_nonneg; intros x; unfold series_cost; pose proof (zlen_nonneg (fst x)); pose proof (zlen_nonneg (snd x)); lia).
  assert (Hpl : 0 <= zsum label_cost nvs) by (apply zsum_nonneg; intros x; unfold label_cost; pose proof (str_cost_pos (fst x)); pose proof (zlen_nonneg (snd x)); lia).
  assert (Hpp : 0 <= zsum (fun k => posting_cost k (zlen (ids_with k 0 ss))) ks).
  { apply zsum_nonneg; intros x; unfold posting_cost; pose proof (str_cost_pos (fst x)); pose proof (str_cost_pos (snd x)); pose proof (zlen_nonneg (ids_with x 0 ss)); lia. }
  destruct (AddSymbols_ok (C := wchunk C) symbols) as (w1 & E1 & Hw1 & St1 & B1 & Sy1); [fold L; lia|]. fold L in Hw1, B1.
  assert (Hsym : forall l, Forall (fun nv : Label => fst nv ∈ symbols /\ snd nv ∈ symbols) l -> has_symbols w1 l).
  { intros l Hl nv Hnv. rewrite Forall_forall in Hl. destruct (Hl _ Hnv). split; by apply Sy1. }
  destruct (run_series_calls ss w1 _ Hw1) as (offs & w2 & E2 & Hlen & Hw2 & St2 & B2 & Sy2); [by rewrite St1|done| | |lia|].
  { rewrite (ho_last _ _ Hw1). cbn. eapply Forall_impl; [exact Hok|]. intros s [Hne _ _ _ _]. by destruct (fst s). }
  { eapply Forall_impl; [exact Hok|]. intros s [_ _ _ Hs Hm]. split; [by apply Hsym|done]. }
  cbn [ct_series app set_series ct_syms ct_labels ct_posts] in Hw2, E2. change (zlen []) with 0 in E2.
  destruct (run_label_calls nvs w2 _ Hw2) as (w3 & E3 & Hw3 & St3 & B3 & Sy3); [cbn in *; lia| |lia|].
  { apply Forall_forall. intros [n vs] Hin v Hv. rewrite Sy2. apply Sy1. apply (proj2 (Hnvs _ _ Hin)) in Hv as (s & Hs & Hl).
    rewrite Forall_forall in Hok. pose proof (wr_symbols _ _ (Hok _ Hs)) as Hsy. rewrite Forall_forall in Hsy. by apply (Hsy _ Hl). }
  cbn [ct_series app set_series set_labels ct_syms ct_labels ct_posts] in Hw3.
  destruct (run_posting_calls (fun k => ids_with k 0 ss) ks w3 _ Hw3) as (w4 & E4 & Hw4 & St4 & B4 & Sy4); [cbn in *; lia| |lia|].
  { intros k. split; [apply ids_with_incr|]. eapply Forall_impl; [apply ids_with_bounds|]. intros i. cbn [ct_series set_labels set_series app].
    unfold zlen. rewrite length_zip_with, Hlen, Nat.min_id. cbv beta. lia. }
  cbn [ct_series app set_series set_labels set_posts ct_syms ct_labels ct_posts] in Hw4.
  change (holds w4 (whole L ss offs nvs ks)) in Hw4. assert (Hst4 : w_stage w4 <> idxStageDone) by (intros E; by rewrite E in St4).
  assert (Hsym4 : forall s, is_Some (w_symbols w4 !! s) <-> s ∈ symbols) by (intros s; by rewrite Sy4, Sy3, Sy2).
  assert (Hsound : sound w4 (whole L ss offs nvs ks)).
  { rewrite Forall_forall in Hok. split; cbn [whole base_content set_posts ct_series ct_labels ct_posts].
    - apply Forall_forall. intros [o s] [i (? & ? & [= -> ->] & _ & Hs%list_elem_of_lookup_2)%lookup_zip_with_Some]%list_elem_of_lookup.
      destruct (Hok _ Hs) as [_ _ _ Hsy Hm]. split; [|done]. intros nv Hnv. rewrite Forall_forall in Hsy. destruct (Hsy nv Hnv). split; by apply Hsym4.
    - apply Forall_forall. intros [n vs] Hin v Hv. apply Hsym4. apply (proj2 (Hnvs _ _ Hin)) in Hv as (s & Hs & Hl).
      pose proof (wr_symbols _ _ (Hok _ Hs)) as Hsy. rewrite Forall_forall in Hsy. by apply (Hsy _ Hl).
    - done.
    - rewrite <- list_fmap_compose. rewrite (list_fmap_ext _ id) by done. by apply (increasing_NoDup id _ _ Hkinc). }
  destruct (Close_ok w4 _ Hw4 Hst4) as [Ec Hfile]; [lia|].
  exists w4, (file_of w4), (reader_of w4 (whole L ss offs nvs ks)), offs. split_and!.
  - rewrite NewWriter_new. cbn [res_bind run_calls icall_run iw_AddSymbols index_writer]. rewrite E1. cbn [res_bind].
    rewrite run_calls_app, E2. cbn [res_bind]. rewrite run_calls_app, E3. cbn [res_bind]. exact E4.
  - done.
  - apply index_newReader_ok; (done || lia).
  - lia.
  - done.
  - by destruct (symbols_back w4 L ss offs nvs ks symbols Hlen Hw4 Hsym4) as (S & ES & ->).
  - eapply index_holds; (done || lia).
  - eapply series_back; (done || lia).
Qed.

(** ** Tuples of names *)

Lemma index_lookup {A} (l : list A) (i : nat) x : l !! i = Some x -> index l (Z.of_nat i) = Ok x.
Proof. intros Hi. apply index_ok. split; [lia|by rewrite Nat2Z.id]. Qed.

(** With one name the tuples are the entries. *)
Lemma one_name_Less es (i j : nat) x y :
  es !! i = Some x -> es !! j = Some y ->
  stt_Less (mkStrTuples 1 es) (Z.of_nat i) (Z.of_nat j) = Ok (match str_cmp x y with Lt => true | _ => false end).
Proof.
  intros Hi Hj. unfold stt_Less. change (Z.to_nat (stt_length (mkStrTuples 1 es))) with 1%nat. cbn [less_loop stt_entries].
  rewrite !Z.add_0_r, (index_lookup _ _ _ Hi). cbn [res_bind]. rewrite (index_lookup _ _ _ Hj). cbn [res_bind]. by destruct (str_cmp x y).
Qed.

Lemma one_name_Swap es (i j : nat) x y :
  es !! i = Some x -> es !! j = Some y ->
  stt_Swap (mkStrTuples 1 es) (Z.of_nat i) (Z.of_nat j) = Ok (mkStrTuples 1 (<[j := x]> (<[i := y]> es))).
Proof.
  intros Hi Hj. pose proof (lookup_lt_Some _ _ _ Hi). pose proof (lookup_lt_Some _ _ _ Hj). unfold stt_Swap, stt_At.
  change (Z.to_nat (stt_length (mkStrTuples 1 es))) with 1%nat. cbn [stt_entries stt_length].
  rewrite slice_ok by (unfold zlen; lia). rewrite Nat2Z.id, (drop_S _ _ _ Hi). replace (Z.to_nat (Z.of_nat i + 1 - Z.of_nat i)) with 1%nat by lia.
  cbn [take res_bind swap_loop]. rewrite !Z.add_0_r, (index_lookup _ _ _ Hj). cbn [res_bind].
  rewrite set_index_ok by (unfold zlen; lia). cbn [res_bind]. change (index (x :: take 0 (drop (S i) es)) 0) with (Ok x). cbn [res_bind].
  rewrite set_index_ok by (unfold zlen; rewrite length_insert; lia). cbn [res_bind]. by rewrite !Nat2Z.id.
Qed.

(** Swapping the two tuples of two names each loses the first name of the first one:
    the positions are those of the entries, not of the tuples. *)
Theorem tuples_swap_loses (a b c d : string) :
  stt_Swap (mkStrTuples 2 [a; b; c; d]) 0 1 = Ok (mkStrTuples 2 [b; c; b; d]).
Proof. reflexivity. Qed.

(** ** What the reader accepts *)

(** Five zero bytes are the section of an empty series with its checksum, and the error
    of the exhausted buffer is not looked at: a reference to zeros reads as a series
    without labels and chunks. *)
Theorem zeros_read_as_series {C} (r : Reader) (id : Z) :
  zlen (rd_b r) < 2 ^ 62 -> rd_version r = 2 -> 0 <= id < 2 ^ 59 -> bytes_at (rd_b r) (16 * id) [0; 0; 0; 0; 0] ->
  reader_Series (C := C) r id = Ok ([], []).
Proof.
  intros Hb Hv Hid Hat. pose proof (bytes_at_bound _ _ _ Hat) as [_ He]. change (zlen [0; 0; 0; 0; 0]) with 5 in He. unfold reader_Series. rewrite Hv.
  change (2 =? 2) with true. cbn match. replace (i64 (u64 (id * 16))) with (16 * id) by zlia.
  by rewrite (decbufUvarintAt_section _ Hb _ []) by (done || lia).
Qed.

(** The number of the keys of an entry is not checked: a negative one panics. *)
Theorem read_entries_panics {S} (f : S -> list string -> Z -> res S) (s : S) :
  read_entries 2 f 1 (mk_decbuf (PutUvarint (2 ^ 63)) None) s = Panic.
Proof. reflexivity. Qed.

(** C21: the round trip of the index file.  The writer is given the symbols, then the
    series in the order of their labels, then the values of every label name and the
    postings of every label, as a compaction calls it.  If what the calls need is at most
    4 GiB, every call and [Close] succeed; the file has at most that size; the reader
    opens it, and answers the symbols, for every series under its new reference exactly
    its labels and the references and times of its chunks, and for every label name and
    every label the values and the increasing references of just the series that have
    them: it is an index that holds exactly these series. *)
Theorem index_roundtrip {C D} (symbols : gset string) (ss : list (wseries C)) (lcalls pcalls : list (icall (wchunk C))) :
  let calls := ISymbols symbols :: series_calls 0 ss ++ lcalls ++ pcalls in
  increasing fst labels_cmp ss -> Forall (writable symbols) ss -> label_calls ss lcalls -> posting_calls ss pcalls ->
  calls_cost calls <= 2 ^ 32 ->
  exists w file rd offs,
    (let? w := NewWriter in run_calls w calls) = Ok w /\ Close w = Ok file /\ newReader file = Ok rd /\
    zlen file <= calls_cost calls /\ length offs = length ss /\
    ix_Symbols rd = Ok symbols /\ IndexHolds (C := D) (2 ^ 32) rd (zip offs (fst <$> ss)) /\
    Forall2 (fun off s => ix_Series (C := D) rd off = Ok (fst s, bare <$> snd s)) offs ss.
Proof. apply index_written. Qed.

(** Two series, the first with two chunks. *)
Module IndexExample.
Definition meta (ref mint maxt : Z) : Meta (wchunk XORChunk) := mkMeta ref None mint maxt.

Definition series : list (wseries XORChunk) := [
  ([("a", "x")], [meta 8 (-5) 10; meta 40 11 MaxInt64]);
  ([("a", "y"); ("b", "x")], [meta 72 MinInt64 0])]%string.

Definition symbols : gset string := list_to_set ["a"; "b"; "x"; "y"; "unused"]%string.

Definition keep (A : Type) (l : list A) : list A := l.

Definition lcalls : list (icall (wchunk XORChunk)) :=
  (fun nv => ILabelIndex [fst nv] (keep _ (elements (snd nv)))) <$> keep _ (map_to_list (add_values series ∅)).

Definition pcalls : list (icall (wchunk XORChunk)) :=
  let p := add_postings 0 series NewMemPostings in
  (fun k => IPostings (fst k) (snd k) (mp_Get p (fst k) (snd k))) <$> SortedKeys (keep _ (map_to_list (mp_m p)).*1).
End IndexExample.

Lemma index_roundtrip_witness :
  let calls := ISymbols IndexExample.symbols :: series_calls 0 IndexExample.series ++ IndexExample.lcalls ++ IndexExample.pcalls in
  exists w file rd offs,
    (let? w := NewWriter in run_calls w calls) = Ok w /\ Close w = Ok file /\ newReader file = Ok rd /\
    zlen file <= calls_cost calls /\ length offs = length IndexExample.series /\
    ix_Symbols rd = Ok IndexExample.symbols /\
    IndexHolds (C := XORChunk) (2 ^ 32) rd (zip offs (fst <$> IndexExample.series)) /\
    Forall2 (fun off s => ix_Series (C := XORChunk) rd off = Ok (fst s, bare <$> snd s)) offs IndexExample.series.
Proof.
  apply index_roundtrip.
  - decided.
  - repeat apply Forall_cons_2; try apply Forall_nil_2; (split; [done|decided|decided|decided|]);
      repeat apply Forall_cons_2; try apply Forall_nil_2; unfold meta_ok, is_u, is_s; decided.
  - by apply (label_calls_ok IndexExample.keep).
  - apply (posting_calls_ok IndexExample.keep); [done|]. repeat apply Forall_cons_2; try apply Forall_nil_2; split; decided.
  - vm_compute. discriminate.
Defined.
