(* ===== verification/Blocks.v ===== *)
(** block.go: a persisted block.  Its files, opening it, the readers that keep it from
    being closed, deleting from it and the marks in its metadata. *)
From S2P Require Import Prelude BitStream Varint EncBuf Order Labels Tombstones Postings MemPostings XorChunk Chunks Buffer SeriesIter Querier Head Plan Db Compaction IndexFile.
#[local] Open Scope list_scope.
#[local] Open Scope Z_scope.

(** * The files of a block *)

(** The directory of a block: what [meta.json] decodes to with its version, unless it
    cannot be read, the segments, the index and the tombstones if there is a file. *)
Record files (U : Type) := mkFiles {
  f_meta : option (Z * BlockMeta U); f_chunks : list (list Z); f_index : list Z; f_tombstones : option (list Z) }.
Arguments mkFiles {U}.
Arguments f_meta {U}.
Arguments f_chunks {U}.
Arguments f_index {U}.
Arguments f_tombstones {U}.

Definition readMetaFile {U} (f : files U) : res (BlockMeta U) :=
  match f_meta f with
  | None => Err (ErrMsg "read meta.json")
  | Some (version, m) => if negb (version =? 1) then Err (ErrMsg "unexpected meta file version") else Ok m
  end.

Definition writeMetaFile {U} (m : BlockMeta U) (f : files U) : files U :=
  mkFiles (Some (1, m)) (f_chunks f) (f_index f) (f_tombstones f).

Definition with_tombstone_file {U} (b : list Z) (f : files U) : files U :=
  mkFiles (f_meta f) (f_chunks f) (f_index f) (Some b).

(** * The block *)

(** [IX] and [CR] are the types of the readers of the index and of the chunks.  The
    tombstones are in memory. *)
Record Block (U IX CR : Type) := mkBlock {
  pb_closing : bool; pb_pendingReaders : Z; pb_meta : BlockMeta U; pb_symbolTableSize : Z;
  pb_chunkr : CR; pb_indexr : IX; pb_tombstones : memTombstones }.
Arguments mkBlock {U IX CR}.
Arguments pb_closing {U IX CR}.
Arguments pb_pendingReaders {U IX CR}.
Arguments pb_meta {U IX CR}.
Arguments pb_symbolTableSize {U IX CR}.
Arguments pb_chunkr {U IX CR}.
Arguments pb_indexr {U IX CR}.
Arguments pb_tombstones {U IX CR}.

(** The size of a symbol with the varint of its length. *)
Definition symbol_size (s : string) : Z :=
  let n := Z.of_nat (length (string_bytes s)) in zlen (PutUvarint (u64 n)) + n.

Definition symbol_table_size (t : gmap Z string) : Z :=
  foldl (fun size e => u64 (size + symbol_size (snd e))) 0 (map_to_list t).

Definition OpenBlock {U} (f : files U) : res (Block U IndexFile.Reader Chunks.Reader) :=
  let? meta := readMetaFile f in
  let? cr := Chunks.newReader (f_chunks f) in
  let? ir := IndexFile.newReader (f_index f) in
  let? tr := readTombstones (f_tombstones f) in
  Ok (mkBlock false 0 meta (symbol_table_size (SymbolTable ir)) cr ir tr).

(** Chunks read without a pool. *)
#[export] Instance segment_reader : ChunkReader Chunks.Reader XORChunk :=
  Chunk (mk_XORChunk (mk_bstream [] 0)).

Section Block.
Context {U IX CR C : Type} `{IndexReader IX C} (range : forall A, list A -> list A).
Abbreviation Block := (Block U IX CR).

(** ** Readers *)

Definition with_closing (pb : Block) : Block :=
  mkBlock true (pb_pendingReaders pb) (pb_meta pb) (pb_symbolTableSize pb) (pb_chunkr pb) (pb_indexr pb) (pb_tombstones pb).
Definition with_pending (pb : Block) (n : Z) : Block :=
  mkBlock (pb_closing pb) n (pb_meta pb) (pb_symbolTableSize pb) (pb_chunkr pb) (pb_indexr pb) (pb_tombstones pb).
Definition with_stones (pb : Block) (m : BlockMeta U) (t : memTombstones) : Block :=
  mkBlock (pb_closing pb) (pb_pendingReaders pb) m (pb_symbolTableSize pb) (pb_chunkr pb) (pb_indexr pb) t.

Definition startRead (pb : Block) : res Block :=
  if pb_closing pb then Err ErrClosing else Ok (with_pending pb (pb_pendingReaders pb + 1)).

Definition pb_Index (pb : Block) : res (IX * Block) := let? pb := startRead pb in Ok (pb_indexr pb, pb).
Definition pb_Chunks (pb : Block) : res (CR * Block) := let? pb := startRead pb in Ok (pb_chunkr pb, pb).
Definition pb_Tombstones (pb : Block) : res (memTombstones * Block) := let? pb := startRead pb in Ok (pb_tombstones pb, pb).

(** [Close] of a reader; a [WaitGroup] below 0 panics. *)
Definition reader_Close (pb : Block) : res Block :=
  if pb_pendingReaders pb <=? 0 then Panic else Ok (with_pending pb (pb_pendingReaders pb - 1)).

(** [Close] of the block: it is marked, and then waits until this holds. *)
Definition no_readers (pb : Block) : bool := pb_pendingReaders pb =? 0.

(** ** Metadata *)

Definition set_failed (m : BlockMeta U) : BlockMeta U :=
  mkBlockMeta (bm_ULID m) (bm_MinTime m) (bm_MaxTime m) (bm_Stats m)
    (mkCompaction (cp_Level (bm_Compaction m)) (cp_Sources (bm_Compaction m)) (cp_Parents (bm_Compaction m)) true).

Definition setCompactionFailed (pb : Block) (f : files U) : Block * files U :=
  let m := set_failed (pb_meta pb) in (with_stones pb m (pb_tombstones pb), writeMetaFile m f).

Definition set_tombstones (m : BlockMeta U) (n : Z) : BlockMeta U :=
  mkBlockMeta (bm_ULID m) (bm_MinTime m) (bm_MaxTime m)
    (mkStats (NumSamples (bm_Stats m)) (NumSeries (bm_Stats m)) (NumChunks (bm_Stats m)) n) (bm_Compaction m).

(** ** Deleting *)

(** The stone of a series: up to its values and not beyond, if a chunk overlaps. *)
Definition series_stone (mint maxt : Z) (chks : list (Meta C)) : res (option Interval) :=
  if existsb (fun c => OverlapsClosedInterval c mint maxt) chks then
    let? first := index chks 0 in
    let? last := index chks (zlen chks - 1) in
    let '(tmin, tmax) := clampInterval mint maxt (m_MinTime first) (m_MaxTime last) in
    Ok (Some (mkInterval tmin tmax))
  else Ok None.

(** The loop over the postings; what is left of them bounds its rounds. *)
Fixpoint delete_loop (fuel : nat) (ix : IX) (mint maxt : Z) (p : Postings) (stones : memTombstones) : res memTombstones :=
  match fuel with
  | O => Panic
  | S fuel =>
      let '(ok, p) := p_Next p in
      if negb ok then match p_Err p with Some e => Err e | None => Ok stones end
      else
        let? (_, chks) := ix_Series ix (p_At p) in
        let? stone := series_stone mint maxt chks in
        delete_loop fuel ix mint maxt p
          (match stone with Some iv => addInterval stones (p_At p) [iv] | None => stones end)
  end.

(** The old intervals are added to the new ones. *)
Definition add_old (stones old : memTombstones) : memTombstones := add_stones stones (Tombstones.stones (range _ (map_to_list old))).

Definition pb_Delete (mint maxt : Z) (ms : list Matcher) (pb : Block) (f : files U) : res (Block * files U) :=
  if pb_closing pb then Err ErrClosing
  else
    let? p := PostingsForMatchers (pb_indexr pb) ms in
    let? stones := delete_loop (S (p_size p)) (pb_indexr pb) mint maxt p NewMemTombstones in
    let stones := add_old stones (pb_tombstones pb) in
    let order := range _ (map_to_list stones) in
    let m := set_tombstones (pb_meta pb) (Total order) in
    Ok (with_stones pb m stones, writeMetaFile m (with_tombstone_file (writeTombstoneFile order) f)).

(** [numStones] of [CleanTombstones]. *)
Definition num_stones (pb : Block) : nat := length (Tombstones.stones (map_to_list (pb_tombstones pb))).
End Block.

(** The readers a compaction or a querier asks of a block; closing them is apart. *)
Definition block_readers {U IX CR} (pb : Block U IX CR) : BlockReaders (IX := IX) (CR := CR) (TR := memTombstones) :=
  let guard {A} (x : A) : res A := if pb_closing pb then Err ErrClosing else Ok x in
  mkReaders (guard (pb_indexr pb)) (guard (pb_chunkr pb)) (guard (pb_tombstones pb)).
