(* ===== verification/BlockSpec.v ===== *)
(** block.go: readers keep a block open and closing waits for them; deleting from a
    block hides exactly the samples of the matching series in the range, in memory and
    in the files, as long as no range deleted before strictly contains the new one. *)
From S2P Require Import Prelude Bits Varint EncBuf Order Labels Tombstones Postings PostingsSpec MemPostings XorChunk Chunks Buffer SeriesIter Querier Head Plan Db Compaction CompactSpec IndexFile Blocks.
#[local] Open Scope list_scope.
#[local] Open Scope Z_scope.

(** * Old intervals added to a new one *)

(** An interval of the result ends with [n], or reaches down from an old one. *)
Lemma add_elem acc n x :
  interior n -> ordered acc -> x ∈ add acc n -> (exists y, y ∈ acc /\ Mint x <= Mint y /\ Maxt y = Maxt x) \/ Maxt x = Maxt n.
Proof.
  intros Hn. induction acc as [|r l IH]; intros Ho Hx.
  { cbn in Hx. apply list_elem_of_singleton in Hx as ->. by right. }
  assert (Hsame : x ∈ r :: l -> (exists y, y ∈ r :: l /\ Mint x <= Mint y /\ Maxt y = Maxt x) \/ Maxt x = Maxt n) by (intros ?; left; by exists x).
  destruct (add_cons r l n Hn Ho) as [(? & E)|[(? & ? & E)|[(? & ? & E)|(? & E)]]]; rewrite E in Hx.
  - destruct Ho as (_ & Hlt & _). unfold extend_right in Hx.
    destruct (overlap_count n l) as [|j].
    + apply elem_of_cons in Hx as [->|Hx]; [|apply Hsame; by right]. destruct (Maxt r <? Maxt n); [by right|left; exists r; split_and!; [left|done..]].
    + apply elem_of_cons in Hx as [->|Hx].
      * destruct (l !! j) as [rj|] eqn:Ej.
        -- destruct (Maxt n <? Maxt rj); cbn [Mint Maxt].
           ++ left. exists rj. pose proof (list_elem_of_lookup_2 _ _ _ Ej) as Hin. rewrite Forall_forall in Hlt. specialize (Hlt _ Hin).
              split_and!; [by right| |done]. destruct (Maxt r <? Maxt n); cbn [Mint]; lia.
           ++ destruct (Maxt r <? Maxt n); [by right|left; exists r; split_and!; [left|done..]].
        -- destruct (Maxt r <? Maxt n); [by right|left; exists r; split_and!; [left|done..]].
      * apply Hsame. right. apply list_elem_of_lookup in Hx as [i Hi]. rewrite lookup_drop in Hi. by eapply list_elem_of_lookup_2.
  - apply elem_of_cons in Hx as [->|Hx]; [|apply Hsame; by right]. left. exists r. split_and!; [left|cbn; lia|done].
  - apply elem_of_cons in Hx as [->|Hx]; [by right|by apply Hsame].
  - apply elem_of_cons in Hx as [->|Hx]; [apply Hsame; left|]. destruct Ho as (_ & _ & Ho).
    destruct (IH Ho Hx) as [(y & Hy & ?)|?]; [left; exists y; split; [by right|done]|by right].
Qed.

(** None of the intervals strictly contains [n]. *)
Definition clear_of (n : Interval) (l : Intervals) : Prop := Forall (fun r => ~ (Mint r < Mint n /\ Maxt n < Maxt r)) l.

(** Intervals added in order to a list of which every interval contains [n] or ends
    before them. *)
Lemma add_all acc n l :
  ordered acc -> ordered l -> Forall interior l -> clear_of n l ->
  Forall (fun x => (Mint x <= Mint n /\ Maxt n <= Maxt x) \/ Forall (fun r => Maxt x < Mint r) l) acc ->
  ordered (foldl add acc l) /\ forall t, deleted (foldl add acc l) t = deleted acc t || deleted l t.
Proof.
  revert acc. induction l as [|r l IH]; intros acc Ha Hl Hi Hc Hx; cbn [foldl].
  { split; [done|]. intros t. by rewrite orb_false_r. }
  destruct Hl as (Hr & Hlt & Hl). apply Forall_cons in Hi as [Hri Hi], Hc as [Hrc Hc]. rewrite Forall_forall in Hx.
  assert (Ho : ordered (add acc r)).
  { apply add_ordered_aux; [done..|]. intros [_ (x & Hin & ? & ?)%Exists_exists]. pose proof (ordered_valid _ _ Ha Hin).
    destruct (Hx x Hin) as [?|Hb]; [by lia|]. apply Forall_inv in Hb. lia. }
  destruct (IH (add acc r)) as [Ho' Hd]; [done..| |].
  - apply Forall_forall. intros x Hin. destruct (add_elem acc r x Hri Ha Hin) as [(y & Hy & ? & <-)|E].
    + destruct (Hx y Hy) as [?|Hb]; [left; lia|right]. by apply Forall_inv_tail in Hb.
    + right. rewrite E. done.
  - split; [done|]. intros t. by rewrite Hd, add_union_aux, deleted_cons, orb_assoc.
Qed.

Lemma add_to_new n l :
  interior n -> ordered l -> Forall interior l -> clear_of n l ->
  ordered (foldl add [n] l) /\ forall t, deleted (foldl add [n] l) t = inBounds n t || deleted l t.
Proof.
  intros Hn Hl Hi Hc. destruct (add_all [n] n l) as [Ho Hd]; try done.
  - destruct Hn as (? & ? & ?). by repeat constructor.
  - constructor; [|constructor]. left. lia.
  - split; [done|]. intros t. rewrite Hd, deleted_cons. cbn. by rewrite orb_false_r.
Qed.

Lemma Get_add_old range stones old ref :
  (forall A (l : list A), range A l ≡ₚ l) -> Get (add_old range stones old) ref = foldl add (Get stones ref) (Get old ref).
Proof.
  intros Hr. unfold add_old. rewrite Get_add_stones. f_equal.
  rewrite filter_stones by (rewrite Hr; apply NoDup_fst_map_to_list).
  unfold Get. rewrite (list_to_map_proper (range _ (map_to_list old)) (map_to_list old)) by (try done; rewrite Hr; apply NoDup_fst_map_to_list).
  by rewrite list_to_map_to_list.
Qed.

(** * The stones of a deletion *)

Section Stones.
Context {IX C : Type} `{IndexReader IX C} (mint maxt : Z).

(** The chunks reach from the time of the first to that of the last. *)
Definition chunks_reach (b : bseries C) : Prop :=
  StronglySorted (fun c d => m_MinTime (fst c) <= m_MinTime (fst d) /\ m_MaxTime (fst c) <= m_MaxTime (fst d)) (b_chunks b) /\
  Forall (fun c => m_MinTime (fst c) <= m_MaxTime (fst c)) (b_chunks b).

(** The stone covers exactly the times of the range that the chunks reach. *)
Lemma series_stone_ok (b : bseries C) :
  chunks_reach b -> mint <= maxt ->
  exists o, series_stone mint maxt (fst <$> b_chunks b) = Ok o /\
    match o with
    | None => Forall (fun c => forall t, m_MinTime (fst c) <= t <= m_MaxTime (fst c) -> ~ mint <= t <= maxt) (b_chunks b)
    | Some n => Mint n <= Maxt n /\ (exists c d, c ∈ b_chunks b /\ d ∈ b_chunks b /\ m_MinTime (fst c) <= Mint n /\ Maxt n <= m_MaxTime (fst d)) /\
        mint <= Mint n /\ Maxt n <= maxt /\
        Forall (fun c => forall t, m_MinTime (fst c) <= t <= m_MaxTime (fst c) -> mint <= t <= maxt -> Mint n <= t <= Maxt n) (b_chunks b)
    end.
Proof using Type.
  intros [Hs Hv] Hm. unfold series_stone. destruct (existsb _ _) eqn:E.
  - apply existsb_exists in E as (m & Hin%list_elem_of_In & Ho). apply list_elem_of_fmap in Hin as (c & -> & Hc).
    unfold OverlapsClosedInterval in Ho. apply andb_true_iff in Ho as [Ho1%Z.leb_le Ho2%Z.leb_le].
    destruct (b_chunks b) as [|c0 cs] eqn:Eb; [by apply not_elem_of_nil in Hc|]. rewrite fmap_cons. change (index (fst c0 :: _) 0) with (Ok (fst c0)).
    cbn [res_bind]. destruct (last (c0 :: cs)) as [cn|] eqn:El; [|by apply last_None in El].
    assert (Hlast : index (fst c0 :: (fst <$> cs)) (zlen (fst c0 :: (fst <$> cs)) - 1) = Ok (fst cn)).
    { apply index_ok. unfold zlen. cbn [length]. split; [lia|]. rewrite length_fmap.
      replace (Z.to_nat (Z.of_nat (S (length cs)) - 1)) with (pred (length (c0 :: cs))) by (cbn [length]; lia).
      change (fst c0 :: (fst <$> cs)) with (fst <$> c0 :: cs). rewrite list_lookup_fmap, <- last_lookup, El. done. }
    rewrite Hlast. cbn [res_bind]. unfold clampInterval. eexists. split; [done|]. cbn [Mint Maxt].
    assert (Hall : Forall (fun d => m_MinTime (fst c0) <= m_MinTime (fst d) /\ m_MaxTime (fst d) <= m_MaxTime (fst cn)) (c0 :: cs)).
    { apply Forall_forall. intros d Hd. split.
      - apply elem_of_cons in Hd as [->|Hd]; [done|]. apply StronglySorted_inv in Hs as [_ Hs]. rewrite Forall_forall in Hs. by apply Hs.
      - apply last_Some in El as [l' El]. rewrite El in Hs, Hd. apply elem_of_app in Hd as [Hd| ->%list_elem_of_singleton]; [|done].
        apply (StronglySorted_app_1_elem_of _ _ _ d cn Hs Hd). by apply list_elem_of_singleton. }
    assert (Hcn : cn ∈ c0 :: cs) by (apply last_Some in El as [l' ->]; apply elem_of_app; right; by apply list_elem_of_singleton).
    rewrite Forall_forall in Hall, Hv. destruct (Hall c Hc). specialize (Hv c Hc).
    split_and!.
    + repeat case_match; repeat match goal with Hb : (_ <? _) = true |- _ => apply Z.ltb_lt in Hb | Hb : (_ <? _) = false |- _ => apply Z.ltb_ge in Hb end; lia.
    + exists c0, cn. split_and!; [left|done|repeat case_match; repeat match goal with Hb : (_ <? _) = true |- _ => apply Z.ltb_lt in Hb | Hb : (_ <? _) = false |- _ => apply Z.ltb_ge in Hb end; lia..].
    + destruct (Z.ltb_spec mint (m_MinTime (fst c0))); lia.
    + destruct (Z.ltb_spec (m_MaxTime (fst cn)) maxt); lia.
    + apply Forall_forall. intros d Hd t Ht Hr. destruct (Hall d Hd).
      destruct (Z.ltb_spec mint (m_MinTime (fst c0))), (Z.ltb_spec (m_MaxTime (fst cn)) maxt); lia.
  - exists None. split; [done|]. apply Forall_forall. intros c Hc t Ht Hr.
    assert (existsb (fun c => OverlapsClosedInterval c mint maxt) (fst <$> b_chunks b) = true); [|congruence].
    apply existsb_exists. exists (fst c). split; [apply list_elem_of_In; by apply list_elem_of_fmap_2|].
    unfold OverlapsClosedInterval. apply andb_true_iff. split; apply Z.leb_le; lia.
Qed.

Definition the_stone (b : bseries C) : option Interval :=
  match series_stone mint maxt (fst <$> b_chunks b) with Ok o => o | _ => None end.

Definition put_stone (t : memTombstones) (b : bseries C) : memTombstones :=
  match the_stone b with Some iv => addInterval t (b_ref b) [iv] | None => t end.

Lemma delete_loop_ok fuel ix p (bl : list (bseries C)) stones :
  p_gives p (b_ref <$> bl) -> Forall (fun b => ix_Series ix (b_ref b) = Ok (b_lset b, fst <$> b_chunks b)) bl ->
  Forall (fun b => exists o, series_stone mint maxt (fst <$> b_chunks b) = Ok o) bl -> (length bl < fuel)%nat ->
  delete_loop fuel ix mint maxt p stones = Ok (foldl put_stone stones bl).
Proof using Type.
  revert fuel p stones. induction bl as [|b bl IH]; intros fuel p stones Hp Hix Hst Hf; (destruct fuel as [|fuel]; [lia|]); cbn [delete_loop].
  - inversion Hp as [? p' Hn He|]; subst. rewrite Hn. cbn [negb]. by rewrite He.
  - apply p_gives_cons_inv in Hp as (p' & Hn & Eref & He & Hp). apply Forall_cons in Hix as [Hb Hix], Hst as [[o Ho] Hst].
    rewrite Hn. cbn [negb]. rewrite Eref, Hb. cbn [res_bind]. rewrite Ho. cbn [res_bind length foldl] in *.
    rewrite IH by (done || lia). f_equal. unfold put_stone at 3, the_stone. by rewrite Ho.
Qed.

Lemma Get_put_stones bl stones ref :
  NoDup (b_ref <$> bl) -> (forall b, b ∈ bl -> Get stones (b_ref b) = []) ->
  Get (foldl put_stone stones bl) ref =
  match list_find (fun b => b_ref b = ref) bl with
  | Some (_, b) => match the_stone b with Some n => [n] | None => [] end
  | None => Get stones ref
  end.
Proof using Type.
  revert stones. induction bl as [|b bl IH]; intros stones Hnd Hs; [done|]. rewrite fmap_cons in Hnd. apply NoDup_cons in Hnd as [Hb Hnd].
  assert (Hput : forall r, Get (put_stone stones b) r = if decide (b_ref b = r) then match the_stone b with Some n => [n] | None => [] end else Get stones r).
  { intros r. unfold put_stone. destruct (the_stone b) as [n|].
    - rewrite Get_addInterval. case_decide as E; [|done]. by rewrite <- E, Hs by left.
    - case_decide as E; [|done]. by rewrite <- E, Hs by left. }
  cbn [foldl list_find]. rewrite IH, Hput.
  - destruct (decide (b_ref b = ref)) as [E|Hne].
    + destruct (list_find _ bl) as [[i b']|] eqn:Ef; cbn; [|done].
      apply list_find_Some in Ef as (Hin%list_elem_of_lookup_2 & E' & _). destruct Hb. rewrite E, <- E'. by apply list_elem_of_fmap_2.
    + by destruct (list_find _ bl) as [[i b']|].
  - done.
  - intros b' Hin. rewrite Hput. rewrite decide_False; [apply Hs; by right|]. intros E. apply Hb. rewrite E. by apply list_elem_of_fmap_2.
Qed.
End Stones.

(** * Deleting *)

Lemma filter_ext_in {A} (P1 P2 : A -> Prop) `{!forall x, Decision (P1 x), !forall x, Decision (P2 x)} (l : list A) :
  (forall x, x ∈ l -> P1 x <-> P2 x) -> filter P1 l = filter P2 l.
Proof.
  induction l as [|x l IH]; intros Hl; [done|]. rewrite !filter_cons, IH by (intros; apply Hl; by right).
  pose proof (Hl x (list_elem_of_here _ _)). repeat case_decide; tauto || done.
Qed.

Lemma within_of_deleted lo hi ivs : ordered ivs -> (forall t, deleted ivs t = true -> lo <= t <= hi) -> ivs_within lo hi ivs.
Proof.
  intros Ho Hd. apply Forall_forall. intros r Hr. pose proof (ordered_valid _ _ Ho Hr).
  assert (Hin : forall t, Mint r <= t <= Maxt r -> lo <= t <= hi) by (intros t Ht; apply Hd, deleted_spec, Exists_exists; by exists r).
  split; apply Hin; lia.
Qed.

Lemma interior_of_within lo hi ivs :
  MinInt64 < lo -> hi < MaxInt64 -> ordered ivs -> ivs_within lo hi ivs -> Forall interior ivs.
Proof.
  intros Hlo Hhi Ho Hw. apply Forall_forall. intros r Hr. pose proof (ordered_valid _ _ Ho Hr).
  unfold ivs_within in Hw. rewrite Forall_forall in Hw. destruct (Hw r Hr). split_and!; lia.
Qed.

Section Delete.
Context {U IX CR C I : Type} `{IndexReader IX C} `{SymbolReader IX} `{ChunkReader CR C}.
Context `{ChunkIterator I} `{ChunkIface C I} `{CountedChunk C} (P : C -> Prop) (M : Z) `{!PosBound M}.
Context (range : forall A, list A -> list A) (range_perm : forall A (l : list A), range A l ≡ₚ l).
Context (mint maxt : Z) (ms : list Matcher).
Abbreviation source := (source IX C CR memTombstones).
Abbreviation source_ok := (source_ok (I := I) P M).

(** What the deletion adds to a series, and the series after it. *)
Definition new_stone (b : bseries C) : option Interval :=
  if sel_Matches ms (b_lset b) then the_stone mint maxt b else None.

Definition new_ivs (b : bseries C) : Intervals :=
  foldl add (match new_stone b with Some n => [n] | None => [] end) (b_ivs b).

Definition delete_from (b : bseries C) : bseries C := mkBseries (b_ref b) (b_lset b) (b_chunks b) (new_ivs b).

Definition source_after (s : source) (stones : memTombstones) : source :=
  mkSource (src_index s) (src_chunks s) stones (src_symbols s) (delete_from <$> src_series s) (src_lo s) (src_hi s).

(** The deletion can be told exactly: the block is sound, the chunks of a series are in
    order, the tombstones are of its series, and no interval deleted before strictly
    contains what is deleted now. *)
Record deletable (s : source) : Prop := {
  dl_source : source_ok s;
  dl_reach : Forall chunks_reach (src_series s);
  dl_refs : Forall (fun b => is_u64 (b_ref b)) (src_series s);
  dl_stones ref : is_Some (src_tombstones s !! ref) -> ref ∈ b_ref <$> src_series s;
  dl_clear : Forall (fun b => match new_stone b with Some n => clear_of n (b_ivs b) | None => True end) (src_series s);
  dl_range : mint <= maxt;
  dl_matchers : Forall (fun m => m_Name m <> EmptyString) ms /\ ms <> [];
}.

(** The intervals of one series afterwards. *)
Lemma new_ivs_ok s b :
  deletable s -> b ∈ src_series s ->
  ordered (new_ivs b) /\ ivs_within (src_lo s) (src_hi s) (new_ivs b) /\
  (forall t, deleted (new_ivs b) t = match new_stone b with Some n => inBounds n t | None => false end || deleted (b_ivs b) t) /\
  forall c t, c ∈ b_chunks b -> m_MinTime (fst c) <= t <= m_MaxTime (fst c) ->
    match new_stone b with Some n => inBounds n t | None => false end = true <-> sel_Matches ms (b_lset b) = true /\ mint <= t <= maxt.
Proof using Type.
  intros [Hs Hreach _ _ Hclear Hrange _] Hb. destruct Hs as [_ _ Hin _ (Hlo & Hlh & Hhi)].
  rewrite Forall_forall in Hin, Hreach, Hclear. destruct (Hin b Hb) as [_ _ Hord Hwith Hch]. specialize (Hclear b Hb).
  pose proof (interior_of_within _ _ _ Hlo Hhi Hord Hwith) as Hint.
  destruct (series_stone_ok mint maxt b (Hreach b Hb) Hrange) as (o & Eo & Ho). unfold new_ivs.
  assert (Est : the_stone mint maxt b = o) by (unfold the_stone; by rewrite Eo).
  unfold new_stone in *. destruct (sel_Matches ms (b_lset b)) eqn:Em; [rewrite Est in *; destruct o as [n|]|].
  - destruct Ho as (Hv & (c & d & Hc & Hd & Hn1 & Hn2) & Hm1 & Hm2 & Hcov). rewrite Forall_forall in Hch, Hcov.
    destruct (Hch c Hc) as [[_ [? ?] _ _ _ _] _], (Hch d Hd) as [[_ [? ?] _ _ _ _] _].
    assert (Hni : interior n) by (split_and!; lia).
    destruct (add_to_new n (b_ivs b) Hni Hord Hint Hclear) as [Ho' Hdel]. split_and!; [done| |done|].
    + apply within_of_deleted; [done|]. intros t. rewrite Hdel, orb_true_iff, inBounds_spec.
      intros [?|Hdl]; [lia|]. by eapply within_deleted.
    + intros e t He Ht. rewrite inBounds_spec. specialize (Hcov e He t Ht). split; [intros ?; split; [done|lia]|]. intros [_ ?]. by apply Hcov.
  - destruct (foldl_add_ordered (b_ivs b) []) as [Ho' Hdel]; [done|done|done|by constructor|]. split_and!; [done| |done|].
    + apply within_of_deleted; [done|]. intros t. rewrite Hdel. by apply within_deleted.
    + intros e t He Ht. split; [done|]. intros [_ ?]. rewrite Forall_forall in Ho. by destruct (Ho e He t Ht).
  - destruct (foldl_add_ordered (b_ivs b) []) as [Ho' Hdel]; [done|done|done|by constructor|]. split_and!; [done| |done|].
    + apply within_of_deleted; [done|]. intros t. rewrite Hdel. by apply within_deleted.
    + intros e t He Ht. split; [done|]. by intros [? _].
Qed.

(** The samples of one series afterwards. *)
Lemma new_ivs_kept s b :
  deletable s -> b ∈ src_series s ->
  kept (new_ivs b) (mjoin (snd <$> b_chunks b)) =
  filter (fun sm => ~ (sel_Matches ms (b_lset b) = true /\ mint <= fst sm <= maxt)) (kept (b_ivs b) (mjoin (snd <$> b_chunks b))).
Proof using Type.
  intros Hdl Hb. destruct (new_ivs_ok s b Hdl Hb) as (_ & _ & Hdel & Hst).
  pose proof (dl_source _ Hdl) as [_ _ Hin _ _]. rewrite Forall_forall in Hin. pose proof (si_chunks _ _ _ (Hin b Hb)) as Hch.
  unfold kept. rewrite list_filter_filter. apply filter_ext_in. intros sm Hsm.
  apply list_elem_of_join in Hsm as (l & Hsm & (c & -> & Hc)%list_elem_of_fmap).
  rewrite Forall_forall in Hch. destruct (Hch c Hc) as [[Ht _ _ _ _ _] _]. rewrite Forall_forall in Ht.
  specialize (Hst c (fst sm) Hc (Ht sm Hsm)). rewrite Hdel, orb_false_iff, <- Hst, not_true_iff_false. done.
Qed.

Lemma series_samples_after s ls :
  deletable s ->
  series_samples (delete_from <$> src_series s) ls =
  filter (fun sm => ~ (sel_Matches ms ls = true /\ mint <= fst sm <= maxt)) (series_samples (src_series s) ls).
Proof using Type.
  intros Hd. unfold series_samples. assert (E : list_find (fun b => b_lset b = ls) (delete_from <$> src_series s) =
    prod_map id delete_from <$> list_find (fun b => b_lset b = ls) (src_series s)).
  { clear. induction (src_series s) as [|b bs IH]; [done|]. rewrite fmap_cons. cbn [list_find delete_from b_lset]. case_decide; [done|].
    rewrite IH. by destruct (list_find _ bs) as [[]|]. }
  rewrite E. destruct (list_find _ (src_series s)) as [[i b]|] eqn:Ef; cbn; [|done].
  apply list_find_Some in Ef as (Hb%list_elem_of_lookup_2 & <- & _). by apply (new_ivs_kept s).
Qed.

Lemma source_ok_after s stones :
  deletable s -> (forall b, b ∈ src_series s -> Get stones (b_ref b) = new_ivs b) -> source_ok (source_after s stones).
Proof using Type.
  intros Hd Hst. pose proof (dl_source _ Hd) as [Hsy Hix Hin Hls Hb]. split; cbn [source_after src_index src_chunks src_tombstones src_symbols src_series src_lo src_hi].
  - done.
  - by rewrite <- list_fmap_compose.
  - apply Forall_fmap, Forall_forall. intros b Hb'. rewrite Forall_forall in Hin. destruct (Hin b Hb') as [? ? ? ? ?].
    destruct (new_ivs_ok s b Hd Hb') as (? & ? & _). split; cbn; [done| |done|done|done]. exact (f_equal Ok (Hst b Hb')).
  - by rewrite <- list_fmap_compose.
  - done.
Qed.

(** The stones of the matching series. *)
Lemma stones_found s p l :
  deletable s -> query_ids (b_series <$> src_series s) ms l -> p_gives p l ->
  exists stones, delete_loop (S (p_size p)) (src_index s) mint maxt p NewMemTombstones = Ok stones /\
    (forall b, b ∈ src_series s -> Get stones (b_ref b) = match new_stone b with Some n => [n] | None => [] end) /\
    forall ref, ref ∉ b_ref <$> src_series s -> Get stones ref = [].
Proof using PosBound0.
  intros Hd Hq Hp. pose proof (dl_source _ Hd) as [_ Hix Hin _ _]. destruct (query_bseries (src_series s) ms l Hq) as (bl & El & Hbl & Hinc & Hm).
  pose proof Hq as (Hids & Hnd & _). rewrite <- El in *. pose proof (p_gives_size _ _ Hp) as Hsz. rewrite length_fmap in Hsz.
  pose proof (dl_reach _ Hd) as Hreach. rewrite Forall_forall in Hreach, Hin.
  assert (Huniq : forall b b', b ∈ src_series s -> b' ∈ src_series s -> b_ref b = b_ref b' -> b = b').
  { intros b b' [k1 Hk1]%list_elem_of_lookup [k2 Hk2]%list_elem_of_lookup E. pose proof (ih_ids (ix := src_index s) (series := b_series <$> src_series s)) as Hids'.
    assert (k1 = k2) as ->; [|congruence]. eapply NoDup_lookup; [exact Hids'| |]; rewrite !list_lookup_fmap; [by rewrite Hk1|rewrite Hk2; cbn; by rewrite E]. }
  exists (foldl (put_stone mint maxt) NewMemTombstones bl). split; [|split].
  - apply delete_loop_ok; [done| | |lia].
    + apply Forall_forall. intros b [Hb _]%Hm. apply Hin, Hb.
    + apply Forall_forall. intros b [Hb _]%Hm. destruct (series_stone_ok mint maxt b (Hreach b Hb) (dl_range _ Hd)) as (o & ? & _). by exists o.
  - intros b Hb. rewrite Get_put_stones by done. unfold new_stone.
    destruct (list_find (fun b' => b_ref b' = b_ref b) bl) as [[i b']|] eqn:Ef.
    + apply list_find_Some in Ef as (Hin'%list_elem_of_lookup_2 & E & _). destruct (Hm b' Hin') as [Hb' Hsel].
      rewrite (Huniq b' b Hb' Hb E) in Hsel |- *. by rewrite Hsel.
    + apply list_find_None in Ef. destruct (sel_Matches ms (b_lset b)) eqn:Hsel; [|done].
      assert (Hr : b_ref b ∈ b_ref <$> bl). { apply Hids. exists (b_lset b). split; [|done]. apply elem_b_series. by exists b. }
      apply list_elem_of_fmap in Hr as (b' & E & Hb'). rewrite Forall_forall in Ef. by destruct (Ef b' Hb').
  - intros ref Href. rewrite Get_put_stones by done. destruct (list_find _ bl) as [[i b']|] eqn:Ef; [|done].
    apply list_find_Some in Ef as (Hin'%list_elem_of_lookup_2 & <- & _). destruct Href. destruct (Hm b' Hin') as [Hb' _]. by apply list_elem_of_fmap_2.
Qed.

(** All there is to say about the deletion. *)
Lemma Delete_effect (s : source) (pb : Blocks.Block U IX CR) (f : files U) :
  deletable s -> pb_closing pb = false -> pb_indexr pb = src_index s -> pb_tombstones pb = src_tombstones s ->
  exists stones, let order := range _ (map_to_list stones) in let m := set_tombstones (pb_meta pb) (Total order) in
    pb_Delete range mint maxt ms pb f =
      Ok (with_stones pb m stones, writeMetaFile m (with_tombstone_file (writeTombstoneFile order) f)) /\
    source_ok (source_after s stones) /\
    exists t, readTombstones (Some (writeTombstoneFile order)) = Ok t /\
      forall ref, ordered (Get t ref) /\ forall x, deleted (Get t ref) x = deleted (Get stones ref) x.
Proof using All.
  intros Hd Hcl Eix Est. pose proof (dl_source _ Hd) as [_ Hix _ _ (Hlo & Hlh & Hhi)]. destruct (dl_matchers _ Hd) as [Hms Hne].
  destruct (PostingsForMatchers_ok M (src_index s) (b_series <$> src_series s) ms Hms Hne) as (p & l & Hp & Hg & Hq).
  destruct (stones_found s p l Hd Hq Hg) as (st & Eloop & Hst & Hst0). exists (add_old range st (src_tombstones s)).
  pose proof (dl_source _ Hd) as [_ _ Hin _ _]. rewrite Forall_forall in Hin.
  assert (Hget : forall b, b ∈ src_series s -> Get (add_old range st (src_tombstones s)) (b_ref b) = new_ivs b).
  { intros b Hb. rewrite Get_add_old by done. rewrite (Hst b Hb). unfold new_ivs. f_equal. destruct (Hin b Hb) as [_ Hget _ _ _]. by injection Hget. }
  assert (Hother : forall ref, ref ∉ b_ref <$> src_series s -> Get (add_old range st (src_tombstones s)) ref = []).
  { intros ref Href. rewrite Get_add_old, Hst0 by done. unfold Get. destruct (src_tombstones s !! ref) eqn:E; [|done].
    destruct Href. apply (dl_stones _ Hd). by eexists. }
  cbn zeta. split; [|split].
  - unfold pb_Delete. rewrite Hcl, Eix, Hp. cbn [res_bind]. rewrite Eloop. cbn [res_bind]. by rewrite Est.
  - by apply source_ok_after.
  - set (stones := add_old range st (src_tombstones s)) in *.
    assert (Hall : forall ref, ordered (Get stones ref) /\ Forall interior (Get stones ref)).
    { intros ref. destruct (decide (ref ∈ b_ref <$> src_series s)) as [(b & -> & Hb)%list_elem_of_fmap|Hn]; [|by rewrite (Hother _ Hn)].
      destruct (new_ivs_ok s b Hd Hb) as (Ho & Hw & _). rewrite (Hget b Hb). split; [done|]. by eapply interior_of_within. }
    assert (Hiter : iteration stones (range _ (map_to_list stones))) by (apply range_perm).
    exists (add_stones ∅ (Tombstones.stones (range _ (map_to_list stones)))). split.
    + apply read_write_stones, Forall_forall. intros [ref iv] ([k ivs] & Hin' & Hk)%list_elem_of_bind. cbn [fst snd] in *.
      apply list_elem_of_fmap in Hin' as (iv' & [= -> ->] & Hiv). rewrite range_perm in Hk. apply elem_of_map_to_list in Hk.
      assert (Eg : Get stones k = ivs) by (unfold Get; by rewrite Hk). destruct (Hall k) as [_ Hi]. rewrite Eg, Forall_forall in Hi.
      destruct (Hi _ Hiv) as (? & ? & ?). destruct (decide (k ∈ b_ref <$> src_series s)) as [(b & -> & Hb)%list_elem_of_fmap|Hn].
      * pose proof (dl_refs _ Hd) as Hr. rewrite Forall_forall in Hr. split_and!; cbn [fst snd]; [by apply Hr|unfold is_s, MinInt64, MaxInt64 in *; lia..].
      * rewrite (Hother _ Hn) in Eg. subst ivs. by apply not_elem_of_nil in Hiv.
    + intros ref. rewrite (Get_stones stones _ ref Hiter). destruct (Hall ref) as [Ho Hi].
      destruct (foldl_add_ordered (Get stones ref) []) as [Ho' Hdl]; [done|done|done|by constructor|]. split; [done|]. intros x. by rewrite Hdl.
Qed.
End Delete.

(** * Main theorems *)

(** C23: deleting from a block.  The block is sound, its matchers name labels, and no
    interval deleted before strictly contains what is deleted of a series now.  The
    deletion succeeds; afterwards the block is sound again and holds of every label set
    that satisfies the matchers exactly the samples outside the range, and of the others
    what it held; its files are those of the new state: the metadata counts the
    intervals, and the tombstones file reads back to the same deletions. *)
Theorem Delete_correct {U IX CR C I} `{IndexReader IX C} `{SymbolReader IX} `{ChunkReader CR C} `{ChunkIterator I}
    `{ChunkIface C I} `{CountedChunk C} (P : C -> Prop) (M : Z) `{!PosBound M} (range : forall A, list A -> list A)
    (mint maxt : Z) (ms : list Matcher) (s : source IX C CR memTombstones) (pb : Blocks.Block U IX CR) (f : files U) :
  (forall A (l : list A), range A l ≡ₚ l) -> deletable (I := I) P M mint maxt ms s ->
  pb_closing pb = false -> pb_indexr pb = src_index s -> pb_tombstones pb = src_tombstones s ->
  exists pb' f', pb_Delete range mint maxt ms pb f = Ok (pb', f') /\
    let s' := source_after mint maxt ms s (pb_tombstones pb') in
    source_ok (I := I) P M s' /\ pb_indexr pb' = src_index s' /\
    (forall ls, series_samples (src_series s') ls =
      filter (fun sm => ~ (sel_Matches ms ls = true /\ mint <= fst sm <= maxt)) (series_samples (src_series s) ls)) /\
    readMetaFile f' = Ok (pb_meta pb') /\
    NumTombstones (bm_Stats (pb_meta pb')) = Total (range _ (map_to_list (pb_tombstones pb'))) /\
    exists t, readTombstones (f_tombstones f') = Ok t /\
      forall ref x, deleted (Get t ref) x = deleted (Get (pb_tombstones pb') ref) x.
Proof.
  intros Hr Hd Hcl Eix Est. destruct (Delete_effect P M range Hr mint maxt ms s pb f Hd Hcl Eix Est) as (stones & E & Hok & t & Et & Ht).
  eexists _, _. split; [exact E|]. cbn zeta. split_and!; [exact Hok|done| |done|done|].
  - intros ls. by apply (series_samples_after P M mint maxt ms s).
  - exists t. split; [exact Et|]. intros ref x. apply Ht.
Qed.

(** The first block of the compaction's example, opened. *)
Module BlockExample.
Import CompactExample.

Definition keep (A : Type) (l : list A) : list A := l.
Definition no_files : files Z := mkFiles None [] [] None.
Definition opened (t : memTombstones) : Blocks.Block Z ListIndex.list_index (gmap Z XORChunk) :=
  mkBlock false 0 CompactExample.meta 0 (src_chunks source1) (src_index source1) t.
Definition ax : list Matcher := [EqualMatcher "a" "x"]%string.
End BlockExample.

Lemma Delete_correct_witness :
  exists pb' f', pb_Delete BlockExample.keep 3 10 BlockExample.ax (BlockExample.opened (src_tombstones CompactExample.source1)) BlockExample.no_files = Ok (pb', f') /\
    let s' := source_after 3 10 BlockExample.ax CompactExample.source1 (pb_tombstones pb') in
    source_ok (I := xorIterator) (fun c => segment_chunk_ok (Source c)) (2 ^ 64) s' /\ pb_indexr pb' = src_index s' /\
    (forall ls, series_samples (src_series s') ls =
      filter (fun sm => ~ (sel_Matches BlockExample.ax ls = true /\ 3 <= fst sm <= 10)) (series_samples (src_series CompactExample.source1) ls)) /\
    readMetaFile f' = Ok (pb_meta pb') /\
    NumTombstones (bm_Stats (pb_meta pb')) = Total (BlockExample.keep _ (map_to_list (pb_tombstones pb'))) /\
    exists t, readTombstones (f_tombstones f') = Ok t /\
      forall ref x, deleted (Get t ref) x = deleted (Get (pb_tombstones pb') ref) x.
Proof.
  assert (PosBound (2 ^ 64)) by (unfold PosBound; lia).
  apply (Delete_correct (I := xorIterator) (fun c => segment_chunk_ok (Source c)) (2 ^ 64)); [done| |done..].
  split.
  - exact (Forall_inv CompactExample.sources_ok).
  - repeat apply Forall_cons_2; [..|apply Forall_nil_2]; (split; [repeat constructor; decided|decided]).
  - decided.
  - intros ref [ivs Hr]. change (({[1 := [mkInterval 9 12]]} : memTombstones) !! ref = Some ivs) in Hr. apply lookup_singleton_Some in Hr as [<- _]. left.
  - unfold clear_of. apply Forall_cons_2; [|apply Forall_cons_2; [|apply Forall_nil_2]]; vm_compute; [|done]. repeat constructor. by intros [? ?].
  - done.
  - split; [decided|done].
Defined.

(** Three deletions from one series: the second one lies strictly within the first, the
    third one reaches past the second one on both sides.  The times from 11 to 20, which
    the first one deleted, are back. *)
Theorem block_deletes_revive :
  exists pb1 pb2 pb3 f1 f2 f3,
    pb_Delete BlockExample.keep 1 20 BlockExample.ax (BlockExample.opened ∅) BlockExample.no_files = Ok (pb1, f1) /\
    pb_Delete BlockExample.keep 5 6 BlockExample.ax pb1 f1 = Ok (pb2, f2) /\
    pb_Delete BlockExample.keep 4 10 BlockExample.ax pb2 f2 = Ok (pb3, f3) /\
    Get (pb_tombstones pb1) 1 = [mkInterval 1 20] /\ Get (pb_tombstones pb2) 1 = [mkInterval 1 20; mkInterval 5 6] /\
    Get (pb_tombstones pb3) 1 = [mkInterval 1 10].
Proof. eexists _, _, _, _, _, _. split_and!; reflexivity. Qed.

(** * Readers and closing *)

Section Readers.
Context {U IX CR : Type}.
Abbreviation Block := (Blocks.Block U IX CR).

(** A block in use: the readers handed out and not closed, the number of the next
    one, and whether the block's files have been released. *)
Record rstate := mkRstate { rs_block : Block; rs_open : gset nat; rs_next : nat; rs_released : bool }.

(** What users of the block do, in any interleaving: start reading, which may be
    refused; close a reader once; delete; and close the block, which marks it and
    releases its files when no reader is left. *)
Inductive rstep : rstate -> rstate -> Prop :=
| step_start st pb : startRead (rs_block st) = Ok pb ->
    rstep st (mkRstate pb ({[rs_next st]} ∪ rs_open st) (S (rs_next st)) (rs_released st))
| step_refused st e : startRead (rs_block st) = Err e -> rstep st st
| step_done st h pb : h ∈ rs_open st -> reader_Close (rs_block st) = Ok pb ->
    rstep st (mkRstate pb (rs_open st ∖ {[h]}) (rs_next st) (rs_released st))
| step_delete st m stones : pb_closing (rs_block st) = false ->
    rstep st (mkRstate (with_stones (rs_block st) m stones) (rs_open st) (rs_next st) (rs_released st))
| step_closing st : rstep st (mkRstate (with_closing (rs_block st)) (rs_open st) (rs_next st) (rs_released st))
| step_release st : pb_closing (rs_block st) = true -> no_readers (rs_block st) = true ->
    rstep st (mkRstate (rs_block st) (rs_open st) (rs_next st) true).

(** The block as [OpenBlock] leaves it, and what can come of it. *)
Definition fresh (st : rstate) : Prop :=
  pb_closing (rs_block st) = false /\ pb_pendingReaders (rs_block st) = 0 /\ rs_open st = ∅ /\ rs_released st = false.

Inductive reachable : rstate -> Prop :=
| reach_fresh st : fresh st -> reachable st
| reach_step st st' : reachable st -> rstep st st' -> reachable st'.

(** The [WaitGroup] counts the open readers; the files are released only when the block
    is closing and none is left. *)
Definition readers_inv (st : rstate) : Prop :=
  pb_pendingReaders (rs_block st) = Z.of_nat (size (rs_open st)) /\
  (forall h, h ∈ rs_open st -> (h < rs_next st)%nat) /\
  (rs_released st = true -> pb_closing (rs_block st) = true /\ rs_open st = ∅).

Lemma size_remove (X : gset nat) h : h ∈ X -> Z.of_nat (size (X ∖ {[h]})) = Z.of_nat (size X) - 1.
Proof using Type.
  intros Hh. rewrite size_difference by set_solver. rewrite size_singleton.
  assert (size X <> 0%nat) by (rewrite size_non_empty_iff; set_solver). lia.
Qed.

Lemma readers_inv_step st st' : readers_inv st -> rstep st st' -> readers_inv st'.
Proof using Type.
  intros (Hp & Hn & Hr) Hs. destruct Hs as [st pb E|st e E|st h pb Hh E|st m stones Hc|st|st Hc Hno].
  - unfold startRead in E. destruct (pb_closing (rs_block st)) eqn:Ec; [done|]. injection E as <-. split_and!; cbn.
    + rewrite Hp, size_union, size_singleton by (apply disjoint_singleton_l; intros ?%Hn; lia). lia.
    + intros h. rewrite elem_of_union, elem_of_singleton. intros [->|?%Hn]; lia.
    + intros ?. destruct Hr as [? _]; congruence.
  - done.
  - unfold reader_Close in E. destruct (pb_pendingReaders (rs_block st) <=? 0); [done|]. injection E as <-. split_and!; cbn.
    + by rewrite Hp, size_remove.
    + intros h'. rewrite elem_of_difference. intros [? _]. auto.
    + intros ?. destruct Hr as [Hc Ho]; [done|]. rewrite Ho in Hh. by apply not_elem_of_empty in Hh.
  - split_and!; cbn; [done|done|]. intros ?. destruct Hr as [? _]; congruence.
  - split_and!; cbn; [done|done|]. intros ?. by destruct Hr.
  - split_and!; cbn; [done|done|]. intros _. split; [done|]. unfold no_readers in Hno. apply Z.eqb_eq in Hno.
    apply leibniz_equiv, size_empty_inv. lia.
Qed.

Lemma reachable_inv st : reachable st -> readers_inv st.
Proof using Type.
  induction 1 as [st (Hc & Hp & Ho & Hr)|st st' _ IH Hs]; [|by eapply readers_inv_step].
  split_and!; [by rewrite Hp, Ho|by rewrite Ho; intros h ?%not_elem_of_empty|by rewrite Hr].
Qed.

(** [n] readers closed one after the other. *)
Fixpoint close_readers (n : nat) (pb : Block) : res Block :=
  match n with O => Ok pb | S n => let? pb := reader_Close pb in close_readers n pb end.

Lemma close_readers_ok n pb :
  Z.of_nat n <= pb_pendingReaders pb -> close_readers n pb = Ok (with_pending pb (pb_pendingReaders pb - Z.of_nat n)).
Proof using Type.
  revert pb. induction n as [|n IH]; intros pb Hn; cbn [close_readers].
  - rewrite Z.sub_0_r. by destruct pb.
  - unfold reader_Close. rewrite (proj2 (Z.leb_gt _ _)) by lia. cbn [res_bind]. rewrite IH by (cbn; lia).
    unfold with_pending. cbn. do 2 f_equal. lia.
Qed.
End Readers.
Arguments rstate : clear implicits.

(** C25: readers and closing, in every interleaving of the users of a block.  As long as
    a reader is open the block's files are not released, and closing an open reader
    does not panic. *)
Theorem readers_keep_open {U IX CR} (st : rstate U IX CR) :
  reachable st -> (rs_open st <> ∅ -> rs_released st = false) /\
  forall h, h ∈ rs_open st -> exists pb, reader_Close (rs_block st) = Ok pb.
Proof.
  intros (Hp & _ & Hr)%reachable_inv. split.
  - intros Ho. destruct (rs_released st); [|done]. by destruct Hr.
  - intros h Hh. unfold reader_Close. assert (size (rs_open st) <> 0%nat) by (rewrite size_non_empty_iff; set_solver).
    rewrite (proj2 (Z.leb_gt _ _)) by lia. by eexists.
Qed.

(** Closing comes to its end.  Once a block is marked no reader starts any more,
    whatever else happens, and the open ones become fewer only; after [n] of them are
    closed the wait is over exactly if they were all there were, and then the files can
    be released. *)
Theorem Close_waits_for_readers {U IX CR} (st : rstate U IX CR) :
  reachable st -> pb_closing (rs_block st) = true ->
  startRead (rs_block st) = Err ErrClosing /\
  (forall st', rstep st st' -> pb_closing (rs_block st') = true /\ rs_open st' ⊆ rs_open st) /\
  forall n, (n <= size (rs_open st))%nat ->
    exists pb, close_readers n (rs_block st) = Ok pb /\ no_readers pb = (n =? size (rs_open st))%nat.
Proof.
  intros (Hp & _ & Hr)%reachable_inv Hc. split_and!.
  - unfold startRead. by rewrite Hc.
  - intros st' Hs. destruct Hs as [st pb E|st e E|st h pb Hh E|st m stones Hc'|st|st _ Hno]; cbn; try (split; [done|set_solver]).
    + unfold startRead in E. by rewrite Hc in E.
    + unfold reader_Close in E. destruct (_ <=? 0); [done|]. injection E as <-. split; [done|set_solver].
  - intros n Hn. eexists. split; [apply close_readers_ok; lia|]. unfold no_readers. cbn. rewrite Hp.
    destruct (Nat.eqb_spec n (size (rs_open st))) as [->|?]; [by rewrite Z.sub_diag|]. apply Z.eqb_neq. lia.
Qed.

(** A block with two readers that is being closed. *)
Module ReadersExample.
Definition block0 : Blocks.Block Z unit unit := mkBlock false 0 CompactExample.meta 0 () () ∅.
Definition init : rstate Z unit unit := mkRstate block0 ∅ 0 false.
Definition two : rstate Z unit unit := mkRstate (with_closing (with_pending block0 2)) ({[1%nat]} ∪ {[0%nat]}) 2 false.

Lemma two_reachable : reachable two.
Proof.
  eapply (reach_step (mkRstate (with_pending block0 2) ({[1%nat]} ∪ {[0%nat]}) 2 false)); [|apply step_closing].
  eapply (reach_step (mkRstate (with_pending block0 1) {[0%nat]} 1 false)).
  - eapply (reach_step init); [by apply reach_fresh|].
    replace ({[0%nat]} : gset nat) with ({[0%nat]} ∪ ∅ : gset nat) by set_solver. exact (step_start init (with_pending block0 1) eq_refl).
  - exact (step_start (mkRstate (with_pending block0 1) {[0%nat]} 1 false) (with_pending block0 2) eq_refl).
Qed.
End ReadersExample.

Lemma readers_keep_open_witness :
  (rs_open ReadersExample.two <> ∅ -> rs_released ReadersExample.two = false) /\
  forall h, h ∈ rs_open ReadersExample.two -> exists pb, reader_Close (rs_block ReadersExample.two) = Ok pb.
Proof. apply readers_keep_open, ReadersExample.two_reachable. Defined.

Lemma Close_waits_for_readers_witness :
  startRead (rs_block ReadersExample.two) = Err ErrClosing /\
  (forall st', rstep ReadersExample.two st' -> pb_closing (rs_block st') = true /\ rs_open st' ⊆ rs_open ReadersExample.two) /\
  forall n, (n <= size (rs_open ReadersExample.two))%nat ->
    exists pb, close_readers n (rs_block ReadersExample.two) = Ok pb /\ no_readers pb = (n =? size (rs_open ReadersExample.two))%nat.
Proof. apply Close_waits_for_readers; [apply ReadersExample.two_reachable|done]. Defined.
