(* ===== verification/Checkpoint.v ===== *)
(** checkpoint.go and the rest of [Head.Truncate] and [Head.Init]: checkpoints of the
    write-ahead log.  A checkpoint is a directory of segments next to those of the
    log, with the records of old segments that are still of use. *)
From S2P Require Import Prelude Bits Varint Order Labels Tombstones EncBuf Records MemPostings MemSeries Head Wal Recovery.
#[local] Open Scope list_scope.
#[local] Open Scope Z_scope.

(** * Names *)

(** Names are strings, their characters bytes. *)
Fixpoint digits (l : list Z) (acc : Z) : option Z :=
  match l with
  | [] => Some acc
  | c :: l => if (48 <=? c) && (c <=? 57) then digits l (10 * acc + (c - 48)) else None
  end.

(** [strconv.Atoi]: an optional sign and digits, within 64 bits. *)
Definition Atoi (l : list Z) : option Z :=
  let sign := bool_decide (head l = Some 43 \/ head l = Some 45) in
  let l' := if sign then tail l else l in
  if (length l' =? 0)%nat then None
  else match digits l' 0 with
       | Some n =>
           let n := if bool_decide (head l = Some 45) then - n else n in
           if bool_decide (is_i64 n) then Some n else None
       | None => None
       end.

(** The digits of [n] in front of [l], at least [width]; 20 rounds are enough for an int. *)
Fixpoint pad (fuel width : nat) (n : Z) (l : list Z) : list Z :=
  match fuel with
  | O => l
  | S fuel =>
      let l := 48 + n mod 10 :: l in
      if (n <? 10) && (width <=? 1)%nat then l else pad fuel (pred width) (n / 10) l
  end.

Definition checkpointPrefix : string := "checkpoint.".

(** [fmt.Sprintf("checkpoint.%06d", to)], for [to] not negative, and its ".tmp". *)
Definition cp_name (to : Z) : string := bytes_string (string_bytes checkpointPrefix ++ pad 20 6 to []).
Definition cp_tmp (to : Z) : string := bytes_string (string_bytes (cp_name to) ++ string_bytes ".tmp").

(** * The directory *)

(** What the directory of the log holds besides its segments. *)
Inductive cp_file := CpDir (dir : directory) | CpFile (content : list Z).
Abbreviation cp_dir := (gmap string cp_file).

(** [ioutil.ReadDir]: by name. *)
Definition ReadDir (fs : cp_dir) : list (string * cp_file) := sort_by fst str_cmp (map_to_list fs).

(** [strings.HasPrefix] and what is behind the prefix. *)
Definition cp_suffix (name : string) : option (list Z) :=
  let p := string_bytes checkpointPrefix in
  if bool_decide (take (length p) (string_bytes name) = p) then Some (drop (length p) (string_bytes name)) else None.

(** The loop of [LastCheckpoint] over the files from the last one on. *)
Fixpoint last_loop (files : list (string * cp_file)) : res (string * Z) :=
  match files with
  | [] => Err ErrNotFound
  | (name, f) :: files =>
      match cp_suffix name with
      | None => last_loop files
      | Some suffix =>
          match f with
          | CpFile _ => Err (ErrMsg "checkpoint is not a directory")
          | CpDir _ => match Atoi suffix with None => last_loop files | Some idx => Ok (name, idx) end
          end
      end
  end.

Definition LastCheckpoint (fs : cp_dir) : res (string * Z) := last_loop (reverse (ReadDir fs)).

(** [DeleteCheckpoints]: the names with an index below [maxIndex] go. *)
Definition cp_index (name : string) : option Z := cp_suffix name ≫= Atoi.
Definition DeleteCheckpoints (fs : cp_dir) (maxIndex : Z) : cp_dir :=
  filter (fun kv => (match cp_index (fst kv) with Some i => maxIndex <=? i | None => true end) = true) fs.

(** The segments of a checkpoint. *)
Definition cp_segments (fs : cp_dir) (name : string) : res directory :=
  match fs !! name with Some (CpDir d) => Ok d | _ => Err ErrNotFound end.

(** * Creating a checkpoint *)

Record CheckpointStats := mkCheckpointStats {
  DroppedSeries : Z; DroppedSamples : Z; DroppedTombstones : Z; TotalSeries : Z; TotalSamples : Z; TotalTombstones : Z }.

Definition no_stats : CheckpointStats := mkCheckpointStats 0 0 0 0 0 0.

(** [io.MultiReader] of two readers. *)
#[export] Instance multi_reader {A B} `{IoReader A} `{IoReader B} : IoReader (A * B) := {|
  rd_Fill r n :=
    let '(b, r1) := rd_Fill (fst r) n in
    if (length b =? n)%nat then (b, (r1, snd r))
    else let '(b', r2) := rd_Fill (snd r) (n - length b) in (b ++ b', (r1, r2));
  rd_size r := (rd_size (fst r) + rd_size (snd r))%nat;
  rd_at _ := None;
|}.

Section Checkpoint.
Variable keep : Z -> bool.
Variable mint : Z.

Definition stone_kept (s : Stone) : bool := existsb (fun iv => mint <=? Maxt iv) (st_intervals s).

(** The switch over the type of a record: what is kept of it is added to [buf]. *)
Definition cp_record (rec buf : list Z) (st : CheckpointStats) : res (list Z * CheckpointStats) :=
  let t := Type_ rec in
  let put {A} (enc : list A -> list Z -> list Z) (repl : list A) := if (0 <? length repl)%nat then enc repl buf else buf in
  if t =? RecordSeries then
    let? series := Dec_Series rec [] in
    let repl := filter (fun s => keep (rs_Ref s) = true) series in
    Ok (put Enc_Series repl,
        mkCheckpointStats (DroppedSeries st + (zlen series - zlen repl)) (DroppedSamples st) (DroppedTombstones st)
          (TotalSeries st + zlen series) (TotalSamples st) (TotalTombstones st))
  else if t =? RecordSamples then
    let? samples := Dec_Samples rec [] in
    let repl := filter (fun s => (mint <=? s_T s) = true) samples in
    Ok (put Enc_Samples repl,
        mkCheckpointStats (DroppedSeries st) (DroppedSamples st + (zlen samples - zlen repl)) (DroppedTombstones st)
          (TotalSeries st) (TotalSamples st + zlen samples) (TotalTombstones st))
  else if t =? RecordTombstones then
    let? tstones := Dec_Tombstones rec [] in
    let repl := filter (fun s => stone_kept s = true) tstones in
    Ok (put Enc_Tombstones repl,
        mkCheckpointStats (DroppedSeries st) (DroppedSamples st) (DroppedTombstones st + (zlen tstones - zlen repl))
          (TotalSeries st) (TotalSamples st) (TotalTombstones st + zlen tstones))
  else Err (ErrMsg "invalid record type").

(** The state of the loop: the log of the checkpoint, the buffer, its records and the
    counts. *)
Record cp_state := mkCpState { cs_wal : wal; cs_buf : list Z; cs_recs : list (list Z); cs_stats : CheckpointStats }.

Definition cp_flush_size : Z := 1 * 1024 * 1024.

(** The loop over the records; with the error of one that cannot be decoded. *)
Fixpoint cp_loop (st : cp_state) (recs : list (list Z)) : res (cp_state * option error) :=
  match recs with
  | [] => Ok (st, None)
  | rec :: recs =>
      let start := length (cs_buf st) in
      match cp_record rec (cs_buf st) (cs_stats st) with
      | Panic => Panic
      | Err e => Ok (st, Some e)
      | Ok (buf, stats) =>
          if (length (drop start buf) =? 0)%nat then cp_loop (mkCpState (cs_wal st) buf (cs_recs st) stats) recs
          else
            let out := cs_recs st ++ [drop start buf] in
            if cp_flush_size <? zlen buf
            then let? w := Log (cs_wal st) out in cp_loop (mkCpState w [] [] stats) recs
            else cp_loop (mkCpState (cs_wal st) buf out stats) recs
      end
  end.

(** What the records are read from: the last checkpoint, if there is one, and the
    segments behind it up to [to]. *)
Definition cp_source (w : wal) (fs : cp_dir) (from to : Z) : res (list (list Z) * option CorruptionErr) :=
  match LastCheckpoint fs with
  | Ok (name, idx) =>
      if idx + 1 <? from then Err (ErrMsg "unexpected gap to last checkpoint")
      else
        let? d := cp_segments fs name in
        let? r := NewSegmentsReader d in
        let? segsr := NewSegmentsRangeReader (w_dir w) (idx + 1) to in
        let '(recs, rd) := read_all_records (r, segsr) in Ok (recs, r_Err rd)
  | Err ErrNotFound =>
      let? segsr := NewSegmentsRangeReader (w_dir w) from to in
      let '(recs, rd) := read_all_records segsr in Ok (recs, r_Err rd)
  | Err e => Err e
  | Panic => Panic
  end.

(** [os.MkdirAll]: a directory left behind stays as it is. *)
Definition MkdirAll (fs : cp_dir) (name : string) : res directory :=
  match fs !! name with
  | None => Ok ∅
  | Some (CpDir d) => Ok d
  | Some (CpFile _) => Err (ErrMsg "not a directory")
  end.

(** [Checkpoint]: the directory afterwards, and the counts or an error.  Until it has
    its name, the checkpoint is a ".tmp" directory, which an error leaves behind. *)
Definition Checkpoint (w : wal) (fs : cp_dir) (from to : Z) : res (cp_dir * (CheckpointStats + error)) :=
  let tmp := cp_tmp to in
  match cp_source w fs from to, MkdirAll fs tmp with
  | Panic, _ | _, Panic => Panic
  | Err e, _ | _, Err e => Ok (fs, inr e)
  | Ok (recs, rerr), Ok d =>
      match NewSize d defaultSegmentSize with
      | Panic => Panic
      | Err e => Ok (<[tmp := CpDir d]> fs, inr e)
      | Ok cp =>
          let? (st, e) := cp_loop (mkCpState cp [] [] no_stats) recs in
          match e, rerr with
          | Some e, _ => Ok (<[tmp := CpDir (w_dir (cs_wal st))]> fs, inr e)
          | None, Some ce => Ok (<[tmp := CpDir (w_dir (cs_wal st))]> fs, inr (ce_Err ce))
          | None, None =>
              let? cp := Log (cs_wal st) (cs_recs st) in
              let? d := Close cp in
              Ok (<[cp_name to := CpDir d]> (delete tmp fs), inl (cs_stats st))
          end
      end
  end.
End Checkpoint.

(** * The head *)

Section Head.
Variable Sum64 : list Z -> Z.
Abbreviation Head := (Head wal).

(** [Truncate] from the segments of the log on; failures to truncate the log or to
    delete old checkpoints are only reported. *)
Definition truncate_log (h : Head) (fs : cp_dir) (mint : Z) : res (Head * cp_dir * option error) :=
  match h_wal h with
  | None => Ok (h, fs, None)
  | Some w =>
      match Segments w with
      | Panic => Panic
      | Err e => Ok (h, fs, Some e)
      | Ok (first, last) =>
          let last := last - 1 in
          if last <? 0 then Ok (h, fs, None)
          else
            let last := first + Z.quot (last - first) 3 in
            if last <=? first then Ok (h, fs, None)
            else
              let keep id := bool_decide (is_Some (getByID h id)) in
              let? (fs, r) := Checkpoint keep mint w fs first last in
              match r with
              | inr e => Ok (h, fs, Some e)
              | inl _ =>
                  let? w' := match wal_Truncate w (last + 1) with Err _ => Ok w | r => r end in
                  Ok (with_wal h w', DeleteCheckpoints fs last, None)
              end
      end
  end.

(** [Truncate]; [hashes] and [keys] are the orders in which maps are visited. *)
Definition Truncate_disk (h : Head) (fs : cp_dir) (mint : Z) (hashes : list Z) (keys : list Label) :
    res (Head * cp_dir * option error) :=
  let initialize := h_minTime h =? MaxInt64 in
  let h' := Truncate h mint hashes keys in
  if (mint <=? h_minTime h) || initialize then Ok (h', fs, None) else truncate_log h' fs mint.

(** [loadWAL] of a reader.  The error [Repair] gets has a position if it is one of the
    reader and not of the decoder. *)
Definition load_reader {R} `{IoReader R} (h : Head) (rd : R) : res (Head * option (option CorruptionErr * error)) :=
  let '(recs, r) := read_all_records rd in
  let? (h1, e) := loadWAL Sum64 h recs None in
  match e, r_Err r with
  | Some e, _ => Ok (h1, Some (None, e))
  | None, None => Ok (h1, None)
  | None, Some ce =>
      let? (h1, _) := loadWAL Sum64 h recs (Some (ce_Err ce)) in
      Ok (h1, Some (Some ce, ce_Err ce))
  end.

(** [Init] behind the checkpoint: the segments from [startFrom] on; an error in them
    is repaired. *)
Definition init_segments (h : Head) (w : wal) (startFrom : Z) : res (Head * option error) :=
  match NewSegmentsRangeReader (w_dir w) startFrom (-1) with
  | Panic => Panic
  | Err e => Ok (h, Some e)
  | Ok rd =>
      let? (h, e) := load_reader h rd in
      match e with
      | None => Ok (h, None)
      | Some (origErr, _) =>
          match Repair w origErr with
          | Panic => Panic
          | Err e => Ok (h, Some e)
          | Ok w => Ok (with_wal h w, None)
          end
      end
  end.

(** [Init] on the files of the log. *)
Definition init_files (h : Head) (w : wal) (fs : cp_dir) : res (Head * option error) :=
  match LastCheckpoint fs with
  | Panic => Panic
  | Err ErrNotFound => init_segments h w 0
  | Err e => Ok (h, Some e)
  | Ok (name, idx) =>
      match (let? d := cp_segments fs name in NewSegmentsReader d) with
      | Panic => Panic
      | Err e => Ok (h, Some e)
      | Ok rd =>
          let? (h, e) := load_reader h rd in
          match e with
          | Some (_, e) => Ok (h, Some e)
          | None => init_segments h w (idx + 1)
          end
      end
  end.

Definition Init_disk (h : Head) (fs : cp_dir) : res (Head * option error) :=
  match h_wal h with
  | None => Ok (EnsureOrder_head h, None)
  | Some w => let? (h, e) := init_files h w fs in Ok (EnsureOrder_head h, e)
  end.
End Head.

Example cp_name_example : cp_name 5 = "checkpoint.000005"%string /\ cp_tmp 1234567 = "checkpoint.1234567.tmp"%string.
Proof. done. Qed.

Example LastCheckpoint_example :
  LastCheckpoint (<["checkpoint.000007.tmp" := CpDir ∅]> (<["checkpoint.000005" := CpDir ∅]> {["checkpoint.000003" := CpDir ∅]})) =
    Ok ("checkpoint.000005"%string, 5).
Proof. by vm_compute. Qed.
