(* ===== verification/CheckpointSpec.v ===== *)
(** Checkpoints: what they keep of the log, that truncating the log behind one keeps
    the log readable, and that a head is recovered from it as from the whole log. *)
From S2P Require Import Prelude Bits Varint Order Files Labels Tombstones EncBuf Records Buffer MemPostings MemSeries Head HeadInv HeadAppend HeadWal Wal WalSpec WalLog Recovery Checkpoint.
#[local] Open Scope list_scope.
#[local] Open Scope Z_scope.
#[local] Opaque pageSize.

(** * Names *)

Lemma string_bytes_string l : Forall is_byte l -> string_bytes (bytes_string l) = l.
Proof.
  intros Hl. unfold string_bytes, bytes_string. rewrite String.list_ascii_of_string_of_list_ascii, <- list_fmap_compose.
  induction Hl as [|b l Hb _ IH]; [done|]. rewrite fmap_cons, IH. f_equal. unfold compose, byte_of_ascii, ascii_of_byte.
  unfold is_byte in Hb. rewrite Ascii.N_ascii_embedding by lia. lia.
Qed.

Section Pad.
Variables (f w : nat).

Lemma pad_S n l : pad (S f) w n l =
  if (n <? 10) && (w <=? 1)%nat then 48 + n mod 10 :: l else pad f (pred w) (n / 10) (48 + n mod 10 :: l).
Proof using Type. done. Qed.
End Pad.

Lemma pad_bytes f w n l : Forall is_byte l -> Forall is_byte (pad f w n l).
Proof.
  revert w n l. induction f as [|f IH]; intros w n l Hl; [done|]. rewrite pad_S.
  assert (Forall is_byte (48 + n mod 10 :: l)).
  { constructor; [|done]. unfold is_byte. pose proof (Z.mod_pos_bound n 10 ltac:(lia)). lia. }
  destruct (_ && _); [done|by apply IH].
Qed.

Lemma pad_nonempty f w n l : l <> [] -> pad f w n l <> [].
Proof. revert w n l. induction f as [|f IH]; intros w n l Hl; [done|]. rewrite pad_S. destruct (_ && _); [done|by apply IH]. Qed.

(** The first digit is a digit. *)
Lemma pad_head f w n l c : head (pad (S f) w n l) = Some c -> 48 <= c <= 57.
Proof.
  revert w n l. induction f as [|f IH]; intros w n l.
  - cbn. pose proof (Z.mod_pos_bound n 10 ltac:(lia)). case_match; intros [= <-]; lia.
  - rewrite pad_S. pose proof (Z.mod_pos_bound n 10 ltac:(lia)). destruct (_ && _); [intros [= <-]; lia|apply IH].
Qed.

(** Reading the digits back. *)
Lemma digits_pad f w n l acc :
  0 <= n < 10 ^ Z.of_nat f -> exists k, digits (pad f w n l) acc = digits l (acc * 10 ^ k + n) /\ 0 <= k.
Proof.
  revert w n l acc. induction f as [|f IH]; intros w n l acc Hn.
  - exists 0. cbn in Hn. cbn [pad]. rewrite Z.pow_0_r. split; [f_equal; lia|lia].
  - rewrite pad_S. pose proof (Z.mod_pos_bound n 10 ltac:(lia)) as Hm.
    assert (Hd : forall acc, digits (48 + n mod 10 :: l) acc = digits l (10 * acc + n mod 10)).
    { intros a. cbn [digits]. rewrite (proj2 (Z.leb_le 48 _)), (proj2 (Z.leb_le _ 57)) by lia. cbn [andb]. f_equal. lia. }
    destruct ((n <? 10) && (w <=? 1)%nat) eqn:E.
    + exists 1. apply andb_true_iff in E as [E%Z.ltb_lt _]. rewrite Hd, Z.mod_small by lia. split; [f_equal; lia|lia].
    + destruct (IH (pred w) (n / 10) (48 + n mod 10 :: l) acc) as (k & -> & Hk).
      { rewrite Nat2Z.inj_succ, Z.pow_succ_r in Hn by lia. split; [apply Z.div_pos; lia|]. apply Z.div_lt_upper_bound; lia. }
      exists (k + 1). rewrite Hd. split; [f_equal|lia]. rewrite Z.pow_add_r, Z.pow_1_r by lia.
      pose proof (Z.div_mod n 10 ltac:(lia)). lia.
Qed.

Lemma pad_app f w n l : pad f w n l = pad f w n [] ++ l.
Proof.
  revert w n l. induction f as [|f IH]; intros w n l; [done|]. rewrite !pad_S. destruct (_ && _); [done|].
  rewrite IH, (IH _ _ [_]), <- (assoc_L (++)). done.
Qed.

(** Numbers of at most [w] digits have exactly [w], and compare as their digits do. *)
Lemma pad_compare f w n m l k :
  (w <= f)%nat -> (1 <= w)%nat -> 0 <= n < 10 ^ Z.of_nat w -> 0 <= m < 10 ^ Z.of_nat w ->
  lex_cmp Z.compare (pad f w n l) (pad f w m k) = match n ?= m with Eq => lex_cmp Z.compare l k | c => c end.
Proof.
  revert w n m l k. induction f as [|f IH]; intros w n m l k Hf Hw Hn Hm; [lia|]. rewrite !pad_S.
  pose proof (Z.mod_pos_bound n 10 ltac:(lia)). pose proof (Z.mod_pos_bound m 10 ltac:(lia)).
  pose proof (Z.div_mod n 10 ltac:(lia)). pose proof (Z.div_mod m 10 ltac:(lia)).
  assert (Hd : forall c, n / 10 = m / 10 -> then_cmp (48 + n mod 10 ?= 48 + m mod 10) c = match n ?= m with Eq => c | d => d end).
  { intros c E. destruct (Z.compare_spec n m), (Z.compare_spec (48 + n mod 10) (48 + m mod 10)); try lia; done. }
  destruct (decide (w = 1%nat)) as [->|Hw1].
  - cbn in Hn, Hm. assert (n <? 10 = true) as -> by lia. assert (m <? 10 = true) as -> by lia. cbn [andb Nat.leb lex_cmp].
    apply Hd. rewrite !Z.div_small; lia.
  - assert ((w <=? 1)%nat = false) as -> by (apply Nat.leb_gt; lia). rewrite !andb_false_r.
    assert (Hp : forall x, 0 <= x < 10 ^ Z.of_nat w -> 0 <= x / 10 < 10 ^ Z.of_nat (pred w)).
    { intros x Hx. replace (Z.of_nat w) with (Z.succ (Z.of_nat (pred w))) in Hx by lia. rewrite Z.pow_succ_r in Hx by lia.
      split; [apply Z.div_pos; lia|]. apply Z.div_lt_upper_bound; lia. }
    rewrite IH by (lia || by apply Hp). cbn [lex_cmp]. destruct (Z.compare_spec (n / 10) (m / 10)) as [E|E|E].
    + by apply Hd.
    + by destruct (Z.compare_spec n m); [lia|..|lia].
    + by destruct (Z.compare_spec n m); [lia|lia|].
Qed.

Lemma cp_name_bytes to : string_bytes (cp_name to) = string_bytes checkpointPrefix ++ pad 20 6 to [].
Proof. apply string_bytes_string, Forall_app_2; [apply Forall_string_bytes|by apply pad_bytes]. Qed.

Lemma cp_tmp_bytes to : string_bytes (cp_tmp to) = string_bytes checkpointPrefix ++ pad 20 6 to [] ++ string_bytes ".tmp".
Proof.
  unfold cp_tmp. rewrite string_bytes_string by (apply Forall_app_2; apply Forall_string_bytes).
  by rewrite cp_name_bytes, (assoc_L (++)).
Qed.

Lemma cp_suffix_app name l : string_bytes name = string_bytes checkpointPrefix ++ l -> cp_suffix name = Some l.
Proof. intros E. unfold cp_suffix. by rewrite E, take_app_length, drop_app_length, bool_decide_true. Qed.

Lemma Atoi_digits to l :
  0 <= to < 2 ^ 63 -> Atoi (pad 20 6 to l) = match digits l to with Some n => if bool_decide (is_i64 n) then Some n else None | None => None end.
Proof.
  intros Hto. destruct (digits_pad 20 6 to l 0) as (k & E & _); [lia|]. unfold Atoi.
  pose proof (pad_head 19 6 to l) as Hh.
  destruct (pad 20 6 to l) as [|c cs] eqn:Ep.
  { exfalso. change 20%nat with (S 19) in Ep. rewrite pad_S in Ep. destruct (_ && _); [done|]. revert Ep. by apply pad_nonempty. }
  cbn [head] in *. specialize (Hh c eq_refl).
  rewrite !bool_decide_false by (intros [?|?] || intros ?; simplify_eq; lia). cbn [length Nat.eqb]. by rewrite E, Z.mul_0_l, Z.add_0_l.
Qed.

Lemma cp_index_name to : 0 <= to < 2 ^ 63 -> cp_index (cp_name to) = Some to.
Proof.
  intros Hto. unfold cp_index. rewrite (cp_suffix_app _ _ (cp_name_bytes to)). cbn [mbind option_bind]. rewrite Atoi_digits by done.
  cbn [digits]. rewrite bool_decide_true by (unfold is_s; lia). done.
Qed.

Lemma cp_index_tmp to : 0 <= to < 2 ^ 63 -> cp_index (cp_tmp to) = None.
Proof.
  intros Hto. unfold cp_index. rewrite (cp_suffix_app _ _ (cp_tmp_bytes to)), <- pad_app. cbn [mbind option_bind]. by rewrite Atoi_digits.
Qed.

(** Up to 999999, the names are in the order of the numbers. *)
Lemma cp_name_compare i j : 0 <= i < 10 ^ 6 -> 0 <= j < 10 ^ 6 -> str_cmp (cp_name i) (cp_name j) = (i ?= j).
Proof.
  intros Hi Hj. unfold str_cmp. rewrite !cp_name_bytes.
  assert (Hp : forall p l k, lex_cmp Z.compare (p ++ l) (p ++ k) = lex_cmp Z.compare l k).
  { intros p l k. induction p as [|x p IH]; [done|]. cbn. by rewrite Z.compare_refl. }
  rewrite Hp, pad_compare by (lia || done). by destruct (i ?= j).
Qed.

Lemma cp_name_inj i j : 0 <= i < 2 ^ 63 -> 0 <= j < 2 ^ 63 -> cp_name i = cp_name j -> i = j.
Proof. intros Hi Hj E%(f_equal cp_index). rewrite !cp_index_name in E by done. congruence. Qed.

Lemma cp_name_tmp i j : 0 <= i < 2 ^ 63 -> 0 <= j < 2 ^ 63 -> cp_name i <> cp_tmp j.
Proof. intros Hi Hj E%(f_equal cp_index). by rewrite cp_index_name, cp_index_tmp in E. Qed.

(** ** The last checkpoint *)

(** The files with the prefix of a checkpoint are those of checkpoints, complete or
    not, with numbers of six digits. *)
Definition cp_dir_ok (fs : cp_dir) : Prop :=
  forall name f, fs !! name = Some f -> cp_suffix name = None \/
    (exists d, f = CpDir d) /\ exists i, 0 <= i < 10 ^ 6 /\ (name = cp_name i \/ name = cp_tmp i).

Lemma last_loop_skip l1 l2 :
  Forall (fun kv => cp_suffix (fst kv) = None \/ cp_index (fst kv) = None /\ exists d, snd kv = CpDir d) l1 ->
  last_loop (l1 ++ l2) = last_loop l2.
Proof.
  induction 1 as [|[name f] l1 Hx _ IH]; [done|]. cbn [app last_loop fst snd] in *. destruct Hx as [->|[Hi [d ->]]]; [done|].
  unfold cp_index in Hi. destruct (cp_suffix name); [|done]. cbn in Hi. by rewrite Hi.
Qed.

Lemma ReadDir_elem fs name f : (name, f) ∈ ReadDir fs <-> fs !! name = Some f.
Proof. unfold ReadDir. rewrite (sort_by_perm fst str_cmp). apply elem_of_map_to_list. Qed.

Lemma ReadDir_increasing fs : increasing fst str_cmp (ReadDir fs).
Proof.
  apply (sorted_increasing fst str_cmp); [|apply sort_by_sorted; apply _].
  unfold ReadDir. rewrite (sort_by_perm fst str_cmp). apply NoDup_fst_map_to_list.
Qed.

Lemma LastCheckpoint_max fs i d :
  cp_dir_ok fs -> 0 <= i < 10 ^ 6 -> fs !! cp_name i = Some (CpDir d) ->
  (forall j, 0 <= j < 10 ^ 6 -> is_Some (fs !! cp_name j) -> j <= i) ->
  LastCheckpoint fs = Ok (cp_name i, i).
Proof.
  intros Hok Hi Hd Hmax. unfold LastCheckpoint.
  apply ReadDir_elem, list_elem_of_split in Hd as (l1 & l2 & E). rewrite E, reverse_app, reverse_cons, <- (assoc_L (++)).
  rewrite last_loop_skip.
  - cbn [app last_loop]. pose proof (cp_index_name i ltac:(lia)) as Ei. unfold cp_index in Ei.
    destruct (cp_suffix (cp_name i)) as [sfx|]; [|done]. cbn [mbind option_bind] in Ei. by rewrite Ei.
  - apply Forall_reverse, Forall_forall. intros [name f] Hin. cbn [fst snd].
    assert (Hf : fs !! name = Some f) by (apply ReadDir_elem; rewrite E; set_solver).
    destruct (Hok _ _ Hf) as [?|([d' ->] & j & Hj & Hn)]; [by left|right]. split; [|by exists d'].
    destruct Hn as [->| ->]; [|by apply cp_index_tmp; lia]. exfalso.
    pose proof (ReadDir_increasing fs) as Hs. rewrite E in Hs. unfold increasing in Hs.
    apply StronglySorted_app_1_r in Hs. apply StronglySorted_cons in Hs as [Hlt _].
    rewrite Forall_forall in Hlt. specialize (Hlt _ Hin). cbn [fst] in Hlt. rewrite cp_name_compare in Hlt by done.
    assert (j <= i) by (apply Hmax; [done|by eexists]). rewrite Z.compare_lt_iff in Hlt. lia.
Qed.

Lemma LastCheckpoint_none fs :
  cp_dir_ok fs -> (forall j, 0 <= j < 10 ^ 6 -> fs !! cp_name j = None) -> LastCheckpoint fs = Err ErrNotFound.
Proof.
  intros Hok Hno. unfold LastCheckpoint. rewrite <- (app_nil_r (reverse _)), last_loop_skip; [done|].
  apply Forall_reverse, Forall_forall. intros [name f] Hf%ReadDir_elem. cbn [fst snd].
  destruct (Hok _ _ Hf) as [?|([d ->] & j & Hj & [->| ->])]; [by left|by rewrite Hno in Hf|right].
  split; [apply cp_index_tmp; lia|by exists d].
Qed.

(** * The records that are kept *)

(** ** Appending to the buffer *)

Lemma Enc_Series_app l buf : Enc_Series l buf = buf ++ Enc_Series l [].
Proof.
  unfold Enc_Series, e_get. rewrite !(foldl_enc _ series_bytes) by apply enc_series_app. cbn. by rewrite <- (assoc_L (++)).
Qed.

Lemma Enc_Samples_app l buf : Enc_Samples l buf = buf ++ Enc_Samples l [].
Proof.
  unfold Enc_Samples, e_get. destruct l as [|x l]; [done|].
  rewrite !(foldl_enc _ (sample_bytes x)) by apply enc_sample_app. cbn. by rewrite <- !(assoc_L (++)).
Qed.

Lemma Enc_Tombstones_app l buf : Enc_Tombstones l buf = buf ++ Enc_Tombstones l [].
Proof.
  unfold Enc_Tombstones, e_get. rewrite !(foldl_enc _ stone_enc) by (intros; apply foldl_enc, enc_interval_app).
  cbn. by rewrite <- (assoc_L (++)).
Qed.

Lemma Forall_Enc_Tombstones l : Forall is_byte (Enc_Tombstones l []).
Proof.
  unfold Enc_Tombstones, e_get. rewrite (foldl_enc _ stone_enc) by (intros; apply foldl_enc, enc_interval_app).
  apply Forall_app_2; [by repeat constructor|]. apply Forall_join, Forall_fmap, Forall_true. intros s.
  apply Forall_join, Forall_fmap, Forall_true. intros iv. unfold compose, interval_bytes, PutUint64, PutVarint.
  repeat apply Forall_app_2; first [apply Forall_be_bytes|apply Forall_PutUvarint].
Qed.

Section Kept.
Variable keep : Z -> bool.
Variable mint : Z.

(** What is kept of a record: nothing, or a record. *)
Definition kept (rec : list Z) : list (list Z) :=
  match cp_record keep mint rec [] no_stats with
  | Ok (b, _) => if (length b =? 0)%nat then [] else [b]
  | _ => []
  end.

(** The decoder accepts the record. *)
Definition decodable (rec : list Z) : Prop := exists b st, cp_record keep mint rec [] no_stats = Ok (b, st).

Lemma cp_record_buf rec buf st :
  decodable rec -> exists b st', cp_record keep mint rec buf st = Ok (buf ++ b, st') /\ Forall is_byte b /\
    kept rec = if (length b =? 0)%nat then [] else [b].
Proof using Type.
  assert (Hput : forall {A} (enc : list A -> list Z -> list Z) repl buf, (forall buf, enc repl buf = buf ++ enc repl []) ->
    (if (0 <? length repl)%nat then enc repl buf else buf) = buf ++ (if (0 <? length repl)%nat then enc repl [] else [])).
  { intros A enc repl b He. destruct (_ <? _)%nat; [apply He|by rewrite app_nil_r]. }
  unfold decodable, kept, cp_record. intros (b0 & st0 & E). revert E.
  destruct (_ =? RecordSeries); [|destruct (_ =? RecordSamples); [|destruct (_ =? RecordTombstones); [|done]]].
  - destruct (Dec_Series rec []) as [l| |]; cbn [res_bind]; [|done..]. intros _. rewrite Hput by apply Enc_Series_app.
    eexists _, _. split; [done|]. split; [destruct (_ <? _)%nat; [apply Forall_Enc_Series|constructor]|done].
  - destruct (Dec_Samples rec []) as [l| |]; cbn [res_bind]; [|done..]. intros _. rewrite Hput by apply Enc_Samples_app.
    eexists _, _. split; [done|]. split; [destruct (_ <? _)%nat; [apply Forall_Enc_Samples|constructor]|done].
  - destruct (Dec_Tombstones rec []) as [l| |]; cbn [res_bind]; [|done..]. intros _. rewrite Hput by apply Enc_Tombstones_app.
    eexists _, _. split; [done|]. split; [destruct (_ <? _)%nat; [apply Forall_Enc_Tombstones|constructor]|done].
Qed.

(** The loop writes them, in batches. *)
Lemma cp_loop_ok st recs rss cur :
  WalLog.logged 0 (cs_wal st) rss cur -> synced (cs_wal st) -> Forall (Forall is_byte) (cs_recs st) -> Forall decodable recs ->
  exists st' rss' cur' done, cp_loop keep mint st recs = Ok (st', None) /\ WalLog.logged 0 (cs_wal st') rss' cur' /\ synced (cs_wal st') /\
    Forall (Forall is_byte) (cs_recs st') /\ adds_records rss cur done rss' cur' /\
    done ++ cs_recs st' = cs_recs st ++ (recs ≫= kept).
Proof using Type.
  intros Hl Hs Hb Hd. revert st rss cur Hl Hs Hb. induction Hd as [|rec recs Hr _ IH]; intros st rss cur Hl Hs Hb.
  { exists st, rss, cur, []. cbn. rewrite app_nil_r. do 4 (split; [done|]). split; [apply adds_records_refl|done]. }
  destruct (cp_record_buf rec (cs_buf st) (cs_stats st) Hr) as (b & st1 & E & Hbb & Ek). cbn [cp_loop]. rewrite E, drop_app_length.
  change ((rec :: recs) ≫= kept) with (kept rec ++ (recs ≫= kept)). rewrite Ek. destruct (length b =? 0)%nat; [exact (IH (mkCpState (cs_wal st) _ (cs_recs st) st1) rss cur Hl Hs Hb)|].
  assert (Hb' : Forall (Forall is_byte) (cs_recs st ++ [b])) by (apply Forall_app_2; [done|by constructor]).
  destruct (_ <? _).
  - destruct (Log_logged 0 _ rss cur _ Hl Hs Hb') as (w & rss1 & cur1 & -> & Hl1 & Hs1 & Ha). cbn [res_bind].
    destruct (IH (mkCpState w [] [] st1) rss1 cur1 Hl1 Hs1 ltac:(constructor)) as (st2 & rss2 & cur2 & out & ? & ? & ? & ? & Ha2 & Eo).
    exists st2, rss2, cur2, ((cs_recs st ++ [b]) ++ out). do 4 (split; [done|]).
    split; [by eapply adds_records_trans|]. rewrite <- (assoc_L (++)), Eo. cbn [cs_recs app]. by rewrite <- (assoc_L (++)).
  - destruct (IH (mkCpState (cs_wal st) (cs_buf st ++ b) (cs_recs st ++ [b]) st1) rss cur Hl Hs Hb')
      as (st2 & rss2 & cur2 & out & ? & ? & ? & ? & Ha2 & Eo).
    exists st2, rss2, cur2, out. do 5 (split; [done|]). rewrite Eo. cbn [cs_recs]. by rewrite <- (assoc_L (++)).
Qed.
End Kept.

(** * Reading the log *)

#[export, program] Instance multi_content {A B} `{IoContent A} `{IoContent B} : IoContent (A * B) :=
  {| rd_content r := rd_content (fst r) ++ rd_content (snd r) |}.
Next Obligation.
  intros A B HA CA HB CB [a b] n. cbn [rd_Fill multi_reader fst snd].
  destruct (rd_Fill_spec a n) as [E1 E2]. destruct (rd_Fill a n) as [x a']. cbn [fst snd] in *. subst x.
  destruct (Nat.eqb_spec (length (take n (rd_content a))) n) as [El|El]; rewrite length_take in El.
  - cbn [fst snd]. rewrite E2, take_app_le, drop_app_le by lia. done.
  - destruct (rd_Fill_spec b (n - length (take n (rd_content a)))) as [E3 E4].
    destruct (rd_Fill b _) as [y b']. cbn [fst snd] in *. subst y. rewrite length_take in *.
    rewrite E2, E4, (take_ge (rd_content a)), (drop_ge (rd_content a)) by lia.
    rewrite take_app_ge, drop_app_ge by lia. cbn [app]. by replace (n `min` length (rd_content a))%nat with (length (rd_content a)) by lia.
Qed.
Next Obligation. intros A B HA CA HB CB [a b]. cbn. by rewrite length_app, !rd_size_spec. Qed.

(** A segment of whole pages with these records. *)
Definition seg_ok (c : list Z) (rs : list (list Z)) : Prop := zlen c mod pageSize = 0 /\ holds 0 c rs.

(** The directory of a checkpoint, closed. *)
Definition cp_holds (d : directory) (recs : list (list Z)) : Prop :=
  exists segs rss, d = seg_dir 0 segs /\ Forall2 seg_ok segs rss /\ mjoin rss = recs /\ zlen segs <= MaxInt32.

(** The last checkpoint, if there is one, has the records before segment [start]. *)
Definition base_holds (fs : cp_dir) (start : Z) (base : list (list Z)) : Prop :=
  (base = [] /\ forall j, 0 <= j < 10 ^ 6 -> fs !! cp_name j = None) \/
  (exists d, fs !! cp_name (start - 1) = Some (CpDir d) /\ cp_holds d base /\ 0 <= start - 1 < 10 ^ 6 /\
     forall j, 0 <= j < 10 ^ 6 -> is_Some (fs !! cp_name j) -> j <= start - 1).

Lemma range_reader {A} i (cs : list A) first last :
  first <= i ->
  filter (fun kv => (first < 0 \/ first <= fst kv) /\ (last < 0 \/ fst kv <= last)) (numbered i cs) =
    numbered i (take (if last <? 0 then length cs else Z.to_nat (last - i + 1)) cs).
Proof.
  revert i. induction cs as [|c cs IH]; intros i Hi; [by rewrite take_nil|]. cbn [numbered]. rewrite filter_cons. cbn [fst].
  destruct (Z.ltb_spec last 0) as [Hl|Hl].
  - rewrite decide_True by lia. cbn [length take numbered]. f_equal. apply IH. lia.
  - destruct (decide (i <= last)) as [Hil|Hil].
    + rewrite decide_True by lia. replace (Z.to_nat (last - i + 1)) with (S (Z.to_nat (last - (i + 1) + 1))) by lia.
      cbn [take numbered]. f_equal. apply IH. lia.
    + rewrite decide_False by lia. replace (Z.to_nat (last - i + 1)) with 0%nat by lia. cbn [take numbered].
      rewrite IH by lia. by replace (Z.to_nat (last - (i + 1) + 1)) with 0%nat by lia.
Qed.

Lemma segments_range i cs first last :
  first <= i -> NewSegmentsRangeReader (seg_dir i cs) first last =
    Ok (newSegmentBufReader (numbered i (take (if last <? 0 then length cs else Z.to_nat (last - i + 1)) cs))).
Proof. intros Hi. unfold NewSegmentsRangeReader. rewrite listSegments_seg_dir. cbn [res_bind]. by rewrite range_reader. Qed.

Lemma holds_segs segs rss : Forall2 seg_ok segs rss -> seg_ok (mjoin segs) (mjoin rss).
Proof. intros Hs. destruct (holds_join segs rss 0) as [? ?]; [by rewrite Z.mod_0_l by page_lia|done|by split]. Qed.

Lemma seg_ok_app c rs c' rs' : seg_ok c rs -> holds 0 c' rs' -> holds 0 (c ++ c') (rs ++ rs').
Proof.
  intros [Hm Hh] Hh'. apply holds_app; [done|]. apply (holds_shift 0); [done|].
  by rewrite Z.add_0_l, Hm, Z.mod_0_l by page_lia.
Qed.

Lemma cp_holds_reader d recs : cp_holds d recs ->
  exists rd, NewSegmentsReader d = Ok rd /\ seg_ok (rd_content rd) recs.
Proof.
  intros (segs & rss & -> & Hs & <- & Hlen). eexists. unfold NewSegmentsReader. rewrite segments_range by done. split; [done|].
  cbn [rd_content segment_content]. rewrite sb_content_numbered, take_ge; [by apply holds_segs|].
  unfold zlen, MaxInt32 in *. rewrite (proj2 (Z.ltb_ge _ _)); lia.
Qed.

Lemma cp_source_ok w fs i rss cur base to :
  dir_holds i (w_dir w) rss cur -> cp_dir_ok fs -> base_holds fs i base -> i <= to < i + zlen rss -> 0 <= to ->
  cp_source w fs i to = Ok (base ++ mjoin (take (Z.to_nat (to - i + 1)) rss), None).
Proof.
  intros (segs & file & E & Hh & Hall) Hok Hb Hto Hto0. unfold cp_source. rewrite E.
  assert (El : length segs = length rss) by exact (Forall2_length _ _ _ Hall).
  assert (Hseg : seg_ok (mjoin (take (Z.to_nat (to - i + 1)) (segs ++ [file]))) (mjoin (take (Z.to_nat (to - i + 1)) rss))).
  { unfold zlen in Hto. rewrite take_app_le by lia. by apply holds_segs, Forall2_take. }
  destruct Hb as [[-> Hno]|(d & Hd & Hcp & Hi & Hmax)].
  - rewrite LastCheckpoint_none by done. rewrite segments_range by lia. cbn [res_bind app].
    rewrite (proj2 (Z.ltb_ge _ _)) by lia.
    destruct (read_all_holds (newSegmentBufReader (numbered i (take (Z.to_nat (to - i + 1)) (segs ++ [file])))) (mjoin (take (Z.to_nat (to - i + 1)) rss)))
      as (r & -> & ->); [|done].
    cbn [rd_content segment_content]. rewrite sb_content_numbered. apply Hseg.
  - rewrite (LastCheckpoint_max fs (i - 1) d) by done. rewrite (proj2 (Z.ltb_ge _ _)) by lia.
    unfold cp_segments. rewrite Hd. cbn [res_bind]. destruct (cp_holds_reader d base Hcp) as (rd & -> & Hrd). cbn [res_bind].
    rewrite segments_range by lia. cbn [res_bind]. rewrite (proj2 (Z.ltb_ge to 0)) by lia.
    edestruct (read_all_holds (rd, newSegmentBufReader (numbered i (take (Z.to_nat (to - i + 1)) (segs ++ [file]))))) as (r & -> & ->); [|done].
    cbn [rd_content multi_content segment_content fst snd]. rewrite sb_content_numbered. by apply seg_ok_app; [|apply Hseg].
Qed.

(** * Creating a checkpoint *)

Lemma Close_complete w rss cur :
  WalLog.logged 0 w rss cur -> synced w -> zlen rss < MaxInt32 -> exists d, Close w = Ok d /\ cp_holds d (mjoin rss ++ cur).
Proof.
  intros Hl Hs Hlen. destruct (Close_logged 0 w rss cur Hl Hs) as (d & E & segs & file & Ed & Hh & Hall).
  exists d. split; [done|]. exists (segs ++ [file]), (rss ++ [cur]). split; [done|].
  split; [|split; [apply mjoin_snoc|unfold zlen in *; rewrite length_app, (Forall2_length _ _ _ Hall); cbn; lia]].
  apply Forall2_app; [done|]. constructor; [|done]. split; [|done].
  destruct Hl as (segs' & L & Hw & Hr & _). revert E. unfold Close. destruct (writer_alloc _ _ _ _ Hw) as (_ & Ha2 & Hm).
  assert (Hfile : forall w' L', writer 0 segs' L' w' -> synced w' -> w_dir w' = seg_dir 0 (segs ++ [file]) -> zlen file mod pageSize = p_alloc (w_page w') mod pageSize).
  { intros w' L' (f & pre & pend & n & Hd & _ & _ & _ & _ & _ & _ & Hmod) Hsy Ed'. rewrite <- Hsy, <- Hmod.
    rewrite Hd in Ed'. apply (f_equal listSegments) in Ed'. rewrite !listSegments_seg_dir in Ed'. injection Ed' as Ed'.
    apply (f_equal last) in Ed'. rewrite !last_numbered in Ed'. by injection Ed' as _ ->. }
  destruct (Z.ltb_spec 0 (p_alloc (w_page w))) as [Ha|Ha].
  - destruct (flushPage_clear 0 segs' L w true Hw (or_introl eq_refl)) as (w' & -> & Hw' & Hal & Hfl). cbn [res_bind]. intros [= Ew].
    rewrite (Hfile w' _ Hw'); [by rewrite Hal, Z.mod_0_l by page_lia|unfold synced; by rewrite Hal, Hfl|by rewrite Ew].
  - cbn [res_bind]. intros [= Ew]. rewrite (Hfile w _ Hw Hs) by by rewrite Ew.
    assert (0 <= p_alloc (w_page w)) by (destruct Hw as (f & pre & pend & n & _ & _ & _ & _ & ? & ? & _); unfold zlen in *; lia).
    replace (p_alloc (w_page w)) with 0 by lia. by rewrite Z.mod_0_l by page_lia.
Qed.

Lemma length_kept keep mint recs : (length (recs ≫= kept keep mint) <= length recs)%nat.
Proof.
  induction recs as [|r recs IH]; [done|]. change ((r :: recs) ≫= kept keep mint) with (kept keep mint r ++ (recs ≫= kept keep mint)).
  rewrite length_app. cbn [length]. assert (length (kept keep mint r) <= 1)%nat; [|lia].
  unfold kept. repeat case_match; cbn; lia.
Qed.

(** The state of a log with its checkpoint: the records of the checkpoint and those
    of the segments from [start] on. *)
Record log_state (fs : cp_dir) (w : wal) (base : list (list Z)) (start : Z) (rss : list (list (list Z))) (cur : list (list Z)) : Prop := {
  ls_dir : cp_dir_ok fs;
  ls_base : base_holds fs start base;
  ls_start : 0 <= start;
  ls_log : WalLog.logged start w rss cur;
  ls_synced : synced w;
}.

Lemma Checkpoint_ok keep mint w fs i rss cur base to :
  log_state fs w base i rss cur -> i <= to < i + zlen rss ->
  fs !! cp_tmp to = None ->
  Forall (decodable keep mint) (base ++ mjoin (take (Z.to_nat (to - i + 1)) rss)) ->
  zlen (base ++ mjoin (take (Z.to_nat (to - i + 1)) rss)) < MaxInt32 ->
  exists d stats, Checkpoint keep mint w fs i to = Ok (<[cp_name to := CpDir d]> fs, inl stats) /\
    cp_holds d ((base ++ mjoin (take (Z.to_nat (to - i + 1)) rss)) ≫= kept keep mint).
Proof.
  intros [Hok Hb Hi Hl Hs] Hto Htmp Hdec Hlen. destruct (logged_dir i w rss cur Hl Hs) as [Hd _].
  unfold Checkpoint. rewrite (cp_source_ok w fs i rss cur base to) by (done || lia).
  unfold MkdirAll. rewrite Htmp. destruct (NewSize_fresh defaultSegmentSize eq_refl) as (cp & -> & Hlc & Hsc & _).
  destruct (cp_loop_ok keep mint (mkCpState cp [] [] no_stats) _ [] [] Hlc Hsc ltac:(constructor) Hdec)
    as (st & rss1 & cur1 & out & -> & Hl1 & Hs1 & Hb1 & Ha1 & Eo). cbn [res_bind]. cbn [cs_recs app] in Eo.
  destruct (Log_logged 0 _ rss1 cur1 _ Hl1 Hs1 Hb1) as (w2 & rss2 & cur2 & -> & Hl2 & Hs2 & Ha2). cbn [res_bind].
  pose proof (adds_records_trans _ _ _ _ _ _ _ _ Ha1 Ha2) as [Ej Hle]. rewrite Eo in *.
  pose proof (length_kept keep mint (base ++ mjoin (take (Z.to_nat (to - i + 1)) rss))) as Hk.
  destruct (Close_complete w2 rss2 cur2 Hl2 Hs2) as (d & -> & Hcp); [unfold zlen in *; cbn in *; lia|]. cbn [res_bind].
  exists d, (cs_stats st). rewrite delete_id by done. split; [done|]. by rewrite Ej in Hcp.
Qed.

(** ** Truncating the log *)

Lemma DeleteCheckpoints_lookup fs n name f :
  DeleteCheckpoints fs n !! name = Some f <-> fs !! name = Some f /\ match cp_index name with Some i => n <= i | None => True end.
Proof.
  unfold DeleteCheckpoints. rewrite map_lookup_filter_Some. cbn [fst]. destruct (cp_index name); [by rewrite Z.leb_le|naive_solver].
Qed.

Lemma checkpointed_state fs w w' base base' i to rss cur d :
  log_state fs w base i rss cur -> i <= to < 10 ^ 6 -> cp_holds d base' ->
  WalLog.logged (to + 1) w' (drop (Z.to_nat (to + 1 - i)) rss) cur -> synced w' ->
  log_state (DeleteCheckpoints (<[cp_name to := CpDir d]> fs) to) w' base' (to + 1) (drop (Z.to_nat (to + 1 - i)) rss) cur.
Proof.
  intros [Hok Hb Hi Hl Hs] Hto Hd Hl' Hs'.
  assert (Hsub : forall name f, DeleteCheckpoints (<[cp_name to := CpDir d]> fs) to !! name = Some f ->
    name = cp_name to /\ f = CpDir d \/ fs !! name = Some f).
  { intros name f [[[<- <-]|[_ ?]]%lookup_insert_Some _]%DeleteCheckpoints_lookup; [by left|by right]. }
  split; [| |lia|done|done].
  - intros name f [[-> ->]|Hf]%Hsub; [|by apply Hok]. right. split; [by exists d|]. exists to. split; [lia|by left].
  - right. rewrite Z.add_simpl_r. exists d. split.
    { apply DeleteCheckpoints_lookup. by rewrite lookup_insert_eq, cp_index_name by lia. }
    split; [done|]. split; [lia|]. intros j Hj [f [[Ej _]|Hf]%Hsub]; [apply cp_name_inj in Ej; lia|].
    destruct Hb as [[_ Hno]|(d0 & _ & _ & _ & Hmax)]; [by rewrite Hno in Hf|]. enough (j <= i - 1) by lia. apply Hmax; [done|by eexists].
Qed.

(** The series that are in the head. *)
Definition in_head (h : Head wal) (id : Z) : bool := bool_decide (is_Some (getByID h id)).

(** Of the [n] segments before the active one, the first that go into a checkpoint. *)
Definition truncated (n : nat) : nat := if (n <? 4)%nat then 0%nat else S (Nat.div (n - 1) 3).

Lemma truncate_log_ok (h : Head wal) w fs i rss cur base mint :
  h_wal h = Some w -> log_state fs w base i rss cur -> i + zlen rss <= 10 ^ 6 ->
  (forall j, 0 <= j < 10 ^ 6 -> fs !! cp_tmp j = None) ->
  let old := base ++ mjoin (take (truncated (length rss)) rss) in
  Forall (decodable (in_head h) mint) old -> zlen old < MaxInt32 ->
  if (truncated (length rss) =? 0)%nat then truncate_log h fs mint = Ok (h, fs, None)
  else exists fs' w', truncate_log h fs mint = Ok (with_wal h w', fs', None) /\
    log_state fs' w' (old ≫= kept (in_head h) mint) (i + Z.of_nat (truncated (length rss))) (drop (truncated (length rss)) rss) cur.
Proof.
  intros Hw Hst Hmax Htmp old Hdec Hlen. unfold truncate_log. rewrite Hw.
  destruct (logged_dir i w rss cur (ls_log _ _ _ _ _ _ Hst) (ls_synced _ _ _ _ _ _ Hst)) as [(segs & file & Ed & _ & Hall) Eseg].
  rewrite (Segments_seg_dir i segs file w Ed).
  assert (El : zlen segs = zlen rss) by (unfold zlen; by rewrite (Forall2_length _ _ _ Hall)). rewrite El.
  pose proof (ls_start _ _ _ _ _ _ Hst) as Hi. unfold truncated in *.
  destruct (Nat.ltb_spec (length rss) 4) as [H4|H4]; cbn [Nat.eqb] in *.
  { destruct (_ <? 0); [done|]. assert (Eq : Z.quot (i + zlen rss - 1 - i) 3 = 0).
    { unfold zlen. destruct (decide (length rss = 0%nat)) as [->|]; [by replace (i + Z.of_nat 0 - 1 - i) with (-1) by lia|].
      apply Z.quot_small. lia. }
    by rewrite Eq, (proj2 (Z.leb_le _ _)) by lia. }
  rewrite (proj2 (Z.ltb_ge _ _)) by (unfold zlen; lia).
  assert (Eq : Z.quot (i + zlen rss - 1 - i) 3 = Z.of_nat (Nat.div (length rss - 1) 3)).
  { rewrite Z.quot_div_nonneg, Nat2Z.inj_div by (unfold zlen; lia). f_equal. unfold zlen. lia. }
  rewrite Eq. set (q := Nat.div (length rss - 1) 3) in *.
  assert (Hq : (1 <= q < length rss)%nat).
  { unfold q. split; [apply Nat.div_le_lower_bound; lia|]. apply Nat.Div0.div_lt_upper_bound; lia. }
  rewrite (proj2 (Z.leb_gt _ _)) by lia. set (to := i + Z.of_nat q).
  assert (Hk : forall z, z = to - i + 1 \/ z = to + 1 - i -> Z.to_nat z = S q) by (unfold to; lia).
  destruct (Checkpoint_ok (in_head h) mint w fs i rss cur base to Hst) as (d & stats & E & Hd);
    [unfold to, zlen in *; lia|apply Htmp; unfold to, zlen in *; lia|by rewrite (Hk (to - i + 1)) by tauto..|].
  rewrite (Hk (to - i + 1)) in Hd by tauto.
  change (fun id => bool_decide (is_Some (getByID h id))) with (in_head h). rewrite E. cbn [res_bind].
  destruct (Truncate_logged i (to + 1) w rss cur (ls_log _ _ _ _ _ _ Hst)) as (w' & -> & Hl' & Hs');
    [rewrite Eseg; unfold to, zlen; lia|]. cbn [res_bind].
  specialize (Hs' (ls_synced _ _ _ _ _ _ Hst)). eexists _, w'. split; [done|].
  pose proof (checkpointed_state fs w w' base _ i to rss cur d Hst ltac:(unfold to, zlen in *; lia) Hd Hl' Hs') as Hst'.
  rewrite (Hk (to + 1 - i)) in Hst' by tauto. by replace (i + Z.of_nat (S q)) with (to + 1) by (unfold to; lia).
Qed.
