(* ===== verification/CheckpointLoad.v ===== *)
(** Loading a log from a checkpoint on: what the records of any log do to a head, and
    that a head is recovered from a checkpoint as from the records it was made of. *)
From S2P Require Import Prelude Bits Varint Order Files Labels Tombstones EncBuf Records Buffer MemPostings MemSeries Head HeadInv HeadAppend HeadWal Wal WalSpec WalLog Recovery Checkpoint CheckpointSpec.
#[local] Open Scope list_scope.
#[local] Open Scope Z_scope.
#[local] Opaque pageSize.

(** * What a log does to a head *)

Inductive entry := ESeries (l : list RefSeries) | ESamples (l : list RefSample) | EStones (l : list Stone).

Definition enc_entry (e : entry) : list Z :=
  match e with
  | ESeries l => Enc_Series l []
  | ESamples l => Enc_Samples l []
  | EStones l => Enc_Tombstones l []
  end.

Abbreviation flatmap := (gmap Z (Labels * list Buffer.sample)).

(** The samples from [m] on. *)
Definition recent (m : Z) (l : list RefSample) : list RefSample := filter (fun x => m <= s_T x) l.

(** Series, samples and deletions after an entry, loaded with [m] as the first time. *)
Definition replay1 (m : Z) (S : flatmap * memTombstones) (e : entry) : flatmap * memTombstones :=
  match e with
  | ESeries l => (flat_series (fst S) l, snd S)
  | ESamples l => (flat_samples (fst S) (recent m l), snd S)
  | EStones l => (fst S, foldl (load_stone m) (snd S) (l ≫= split_stone))
  end.

Definition replay (m : Z) : flatmap * memTombstones -> list entry -> flatmap * memTombstones := foldl (replay1 m).

(** The samples of the entries. *)
Definition n_samples (es : list entry) : nat := length (es ≫= fun e => match e with ESamples l => l | _ => [] end).

(** A sample as a head takes it. *)
Definition ref_sample_ok (x : RefSample) : Prop := MemSeries.sample_ok (s_T x, s_V x) /\ is_u64 (s_Ref x).

Definition entry_ok (F : flatmap) (e : entry) : Prop :=
  match e with
  | ESeries l => series_fresh F l
  | ESamples l => Forall ref_sample_ok l
  | EStones l => Forall stone_wf l
  end.

Fixpoint entries_ok (m : Z) (S : flatmap * memTombstones) (es : list entry) : Prop :=
  match es with
  | [] => True
  | e :: es => entry_ok (fst S) e /\ entries_ok m (replay1 m S e) es
  end.

Lemma replay_app m S es es' : replay m S (es ++ es') = replay m (replay m S es) es'.
Proof. apply foldl_app. Qed.

Lemma entries_ok_app m S es es' : entries_ok m S (es ++ es') <-> entries_ok m S es /\ entries_ok m (replay m S es) es'.
Proof. revert S. induction es as [|e es IH]; intros S; cbn; [tauto|]. rewrite IH. tauto. Qed.

Lemma n_samples_app es es' : n_samples (es ++ es') = (n_samples es + n_samples es')%nat.
Proof. unfold n_samples. by rewrite bind_app, length_app. Qed.

Lemma ref_sample_wf x : ref_sample_ok x -> Records.sample_ok x.
Proof.
  intros [[Ht Hv] Hr]. unfold time_ok in Ht. cbn in Ht, Hv. split_and!; [done|unfold is_s; lia|done].
Qed.

Lemma load_stones_eq m t l : foldl (load_stone m) t (l ≫= split_stone) = foldl (load_stone m) t l.
Proof.
  revert t. induction l as [|s l IH]; intros t; [done|]. change ((s :: l) ≫= split_stone) with (split_stone s ++ (l ≫= split_stone)).
  rewrite foldl_app. cbn [foldl]. rewrite IH. f_equal. unfold load_stone, split_stone. generalize (st_intervals s) t.
  induction l0 as [|iv ivs IHi]; intros t'; [done|]. cbn [foldl fmap list_fmap st_intervals st_ref]. by rewrite IHi.
Qed.

(** * Loading *)

Section Load.
Context {W : Type} `{WAL W} (Sum64 : list Z -> Z).
Abbreviation rep := (HeadInv.rep (W := W) Sum64).

Lemma load_series_tombstones (h : Head W) l : h_tombstones (foldl (load_series Sum64) h l) = h_tombstones h.
Proof using Type.
  revert h. induction l as [|[id ls] l IH]; intros h; [done|]. cbn [foldl]. rewrite IH.
  unfold load_series, getOrCreateWithID, getOrSet. destruct (hm_get _ _ _); cbn; by destruct (_ <? _).
Qed.

Lemma processWALSamples_tombstones (h : Head W) m xs u a b h' u' a' b' :
  processWALSamples h m xs u a b = Ok (h', u', a', b') -> h_tombstones h' = h_tombstones h.
Proof using Type.
  revert h u a b. induction xs as [|x xs IH]; intros h u a b; cbn [processWALSamples]; [by intros [= <- _ _ _]|].
  destruct (s_T x <? m); [apply IH|]. destruct (getByID h (s_Ref x)); [|apply IH]. destruct (series_at h _) as [s|]; [|done].
  intros ([s' c] & _ & Hp)%res_bind_ok. by apply IH in Hp.
Qed.

(** Samples before [m] and those of no series are passed over. *)
Lemma load_samples_any (h : Head W) A m xs u a b :
  rep h A -> Forall ref_sample_ok xs -> froom (flat A) (length xs) -> m <= a ->
  exists h' A' u' a' b', processWALSamples h m xs u a b = Ok (h', u', a', b') /\ rep h' A' /\
    flat A' = flat_samples (flat A) (recent m xs) /\ m <= a'.
Proof using Type.
  revert h A u a b. induction xs as [|x xs IH]; intros h A u a b Hr Hxs Hroom Ha; [by exists h, A, u, a, b|].
  apply Forall_cons in Hxs as [[Hok _] Hxs]. cbn [processWALSamples]. unfold recent. rewrite filter_cons. fold (recent m xs).
  assert (Hroom' : froom (flat A) (length xs)) by (intros id c Hc; specialize (Hroom id c Hc); cbn in Hroom; lia).
  destruct (Z.ltb_spec (s_T x) m) as [Hm|Hm]; [rewrite decide_False by lia; by apply IH|]. rewrite decide_True by lia.
  change (flat_samples (flat A) (x :: recent m xs)) with (flat_samples (flat_sample (flat A) x) (recent m xs)).
  unfold getByID. destruct (h_series h !! s_Ref x) as [l|] eqn:Hl.
  - destruct (rep_series _ _ _ _ _ (proj1 Hr) Hl) as (c & Hc & _).
    destruct (append_live Sum64 h A x l c false Hr) as (s & s' & bs & c' & -> & -> & El & Ej & Hr' & Hflat & _).
    { by split. }
    { done. }
    { apply room_flat. eapply (fun Hf => Hf). intros id d Hd. specialize (Hroom id d Hd). cbn [length] in *. lia. }
    cbn [res_bind]. destruct (IH (set_series h l s') _ u (if s_T x <? a then s_T x else a) (if b <? s_T x then s_T x else b) Hr' Hxs)
      as (h2 & A2 & u2 & a2 & b2 & E & Hr2 & Hf2 & Ha2).
    + apply room_flat. refine (room_step _ _ _ _ _ _ _ Hc Ej). apply room_flat. exact Hroom.
    + destruct (_ <? a); lia.
    + exists h2, A2, u2, a2, b2. split; [exact E|]. split; [done|]. by rewrite Hf2, Hflat.
  - assert (E : flat_sample (flat A) x = flat A).
    { unfold flat_sample. apply map_eq. intros i. destruct (decide (s_Ref x = i)) as [<-|Hi]; [|by rewrite lookup_alter_ne].
      rewrite lookup_alter_eq, flat_lookup. destruct (A !! s_Ref x) eqn:EA; [|done].
      destruct (proj2 (rp_dom _ _ _ (proj1 Hr) (s_Ref x))) as [? ?]; [by eexists|congruence]. }
    rewrite E. by apply IH.
Qed.

(** A head loaded with [S], with room for [n] more samples. *)
Record loads (h0 h : Head W) (S : flatmap * memTombstones) (n : nat) : Prop := {
  ls_rep : exists A, rep h A /\ flat A = fst S;
  ls_stones : h_tombstones h = snd S;
  ls_times : same_times h0 h;
  ls_room : froom (fst S) n /\ Z.of_nat n <= 65535;
}.

Lemma froom_series F l n : froom F n -> Z.of_nat n <= 65535 -> froom (flat_series F l) n.
Proof using Type.
  intros Hf Hn. revert F Hf. induction l as [|rs l IH]; intros F Hf; [done|]. cbn [flat_series foldl]. apply IH.
  intros id c [[_ <-]|[_ Hc]]%lookup_insert_Some; [cbn; lia|exact (Hf id c Hc)].
Qed.

Lemma froom_recent F m l n : froom F (length l + n) -> froom (flat_samples F (recent m l)) n.
Proof using Type.
  intros Hf. apply froom_samples. intros id c Hc. specialize (Hf id c Hc).
  pose proof (length_filter (fun x => m <= s_T x) l). unfold recent. lia.
Qed.

Lemma load_record_stones m (st : loading (W := W)) l :
  Forall stone_wf l ->
  load_record Sum64 m st (Enc_Tombstones l []) =
    Ok (mkLoading (with_tombstones (ld_head st) (foldl (load_stone m) (h_tombstones (ld_head st)) (l ≫= split_stone)))
          (ld_unknown st) (ld_mint st) (ld_maxt st), None).
Proof using Type.
  intros Hl. destruct (Dec_Tombstones_Enc l [] Hl) as [Et Ed]. unfold load_record. by rewrite Et, Ed.
Qed.

Lemma load_entry m h0 (st : loading (W := W)) S e n :
  loads h0 (ld_head st) S (n_samples [e] + n) -> m <= ld_mint st -> entry_ok (fst S) e ->
  exists st', load_record Sum64 m st (enc_entry e) = Ok (st', None) /\ loads h0 (ld_head st') (replay1 m S e) n /\ m <= ld_mint st'.
Proof using Type.
  intros [(A & Hr & EA) Es Et [Hf Hn]] Hm Hok. destruct S as [F T]. cbn [fst snd] in *. subst F T.
  destruct e as [l|l|l]; cbn [enc_entry entry_ok replay1 fst snd] in *.
  - rewrite load_record_series by by eapply fresh_series_ok. eexists. split; [done|]. cbn [ld_head ld_mint]. split; [|done].
    destruct (load_all_series Sum64 _ A l Hr Hok) as (A' & Hr' & Ef & Emin & Emax). split; cbn [fst snd].
    + by exists A'.
    + apply load_series_tombstones.
    + eapply same_times_trans; [exact Et|by split].
    + split; [by apply froom_series|done].
  - assert (E : n_samples [ESamples l] = length l) by (cbn; by rewrite app_nil_r). rewrite E in *.
    rewrite load_record_samples by (eapply Forall_impl; [exact Hok|]; apply ref_sample_wf).
    destruct (load_samples_any _ A m l (ld_unknown st) (ld_mint st) (ld_maxt st) Hr Hok) as (h' & A' & u & a & b & Ep & Hr' & Ef & Ha);
      [intros id c Hc; specialize (Hf id c Hc); lia|done|].
    rewrite Ep. cbn [res_bind]. eexists. split; [done|]. cbn [ld_head ld_mint]. split; [|done]. split; cbn [fst snd].
    + by exists A'.
    + by eapply processWALSamples_tombstones.
    + eapply same_times_trans; [exact Et|by eapply processWALSamples_times].
    + split; [by apply froom_recent|lia].
  - rewrite load_record_stones by done. eexists. split; [done|]. cbn [ld_head ld_mint]. split; [|done]. split; cbn [fst snd].
    + exists A. split; [by apply with_tombstones_rep|done].
    + done.
    + done.
    + split; [done|]. change (n_samples [EStones l]) with 0%nat in Hn. lia.
Qed.

Lemma load_entries m h0 (st : loading (W := W)) S es n :
  loads h0 (ld_head st) S (n_samples es + n) -> m <= ld_mint st -> entries_ok m S es ->
  exists st', Head.load_records Sum64 m st (enc_entry <$> es) = Ok (st', None) /\ loads h0 (ld_head st') (replay m S es) n /\ m <= ld_mint st'.
Proof using Type.
  revert st S. induction es as [|e es IH]; intros st S Hl Hm Hok; [by exists st|]. destruct Hok as [He Hok].
  change (e :: es) with ([e] ++ es) in Hl. rewrite n_samples_app, <- Nat.add_assoc in Hl.
  destruct (load_entry m h0 st S e _ Hl Hm He) as (st1 & E1 & Hl1 & Hm1). cbn [fmap list_fmap Head.load_records]. rewrite E1. cbn [res_bind].
  by apply IH.
Qed.

(** Loading a log into a head whose first time is [m] keeps that time. *)
Lemma loadWAL_entries (h0 : Head W) S es n :
  let m := h_minTime h0 in
  loads h0 h0 S (n_samples es + n) -> m <> MaxInt64 -> m <= MaxInt64 -> entries_ok m S es ->
  exists h, loadWAL Sum64 h0 (enc_entry <$> es) None = Ok (h, None) /\ loads h h (replay m S es) n /\ h_minTime h = m.
Proof using Type.
  intros m Hl Hm Hm2 Hok. unfold loadWAL. fold m. rewrite (proj2 (Z.eqb_neq m _)) by done.
  destruct (load_entries m h0 (mkLoading h0 0 MaxInt64 MinInt64) S es n Hl Hm2 Hok) as (st & -> & [(A & Hr & EA) Es [Et _] Hf] & Ha).
  cbn [res_bind]. eexists. split; [done|]. split; [|cbn; rewrite Et; fold m; destruct (Z.leb_spec m (ld_mint st)); lia].
  split; [|done|done|done]. exists A. split; [by apply with_times_rep|done].
Qed.
End Load.

(** * Fewer series *)

Section Alive.
Variable dead : gset Z.

(** Without the series that are dropped. *)
Definition alive (F : flatmap) : flatmap := filter (fun kv => fst kv ∉ dead) F.

Lemma alive_lookup F id c : alive F !! id = Some c <-> F !! id = Some c /\ id ∉ dead.
Proof using Type. unfold alive. by rewrite map_lookup_filter_Some. Qed.

Lemma alive_insert F id c : alive (<[id := c]> F) = if decide (id ∈ dead) then alive F else <[id := c]> (alive F).
Proof using Type.
  apply map_eq. intros j. apply option_eq. intros d. destruct (decide (id ∈ dead)) as [Hd|Hd].
  - rewrite !alive_lookup, lookup_insert_Some. naive_solver.
  - rewrite alive_lookup, !lookup_insert_Some, alive_lookup. naive_solver.
Qed.

Lemma alive_sample F x : flat_sample (alive F) x = alive (flat_sample F x).
Proof using Type.
  unfold flat_sample. apply map_eq. intros j. apply option_eq. intros d. rewrite alive_lookup.
  rewrite !lookup_alter_Some. setoid_rewrite alive_lookup. naive_solver.
Qed.

Lemma alive_samples F l : flat_samples (alive F) l = alive (flat_samples F l).
Proof using Type. revert F. induction l as [|x l IH]; intros F; [done|]. cbn [flat_samples foldl]. rewrite alive_sample. apply IH. Qed.

End Alive.

(** * What a checkpoint keeps *)

Section Kept.
Variable keep : Z -> bool.
Variable mint m : Z.
Hypothesis Hmint : mint <= m.

Definition unless_empty {A} (mk : list A -> entry) (l : list A) : list entry := if (0 <? length l)%nat then [mk l] else [].

(** The entries of the records that are kept. *)
Definition kept_entry (e : entry) : list entry :=
  match e with
  | ESeries l => unless_empty ESeries (filter (fun s => keep (rs_Ref s) = true) l)
  | ESamples l => unless_empty ESamples (filter (fun s => (mint <=? s_T s) = true) l)
  | EStones l => unless_empty EStones (filter (fun s => stone_kept mint s = true) (l ≫= split_stone))
  end.

Definition wf_entry (e : entry) : Prop :=
  match e with
  | ESeries l => Forall Records.series_ok l
  | ESamples l => Forall Records.sample_ok l
  | EStones l => Forall stone_wf l
  end.

Lemma Enc_nonempty e : enc_entry e <> [].
Proof using Type.
  destruct e as [l|[|x l]|l]; cbn [enc_entry].
  - unfold Enc_Series, e_get. by rewrite (foldl_enc _ series_bytes) by apply enc_series_app.
  - done.
  - cbn [Enc_Samples]. unfold e_get. by rewrite (foldl_enc _ (sample_bytes x)) by apply enc_sample_app.
  - unfold Enc_Tombstones, e_get. by rewrite (foldl_enc _ stone_enc) by (intros; apply foldl_enc, enc_interval_app).
Qed.

Lemma kept_enc e : wf_entry e -> decodable keep mint (enc_entry e) /\ kept keep mint (enc_entry e) = enc_entry <$> kept_entry e.
Proof using Type.
  assert (Hput : forall {A} (mk : list A -> entry) (enc : list A -> list Z -> list Z) l b st,
    (forall l, enc l [] = enc_entry (mk l)) ->
    b = (if (0 <? length l)%nat then enc l [] else []) ->
    match @Ok (list Z * CheckpointStats) (b, st) with Ok (b, _) => if (length b =? 0)%nat then [] else [b] | _ => [] end =
      enc_entry <$> unless_empty mk l).
  { intros A mk enc l b st He ->. unfold unless_empty. destruct l as [|x l]; [done|]. cbn [length Nat.ltb Nat.leb fmap list_fmap]. rewrite He.
    pose proof (Enc_nonempty (mk (x :: l))). by destruct (enc_entry (mk (x :: l))). }
  intros Hwf. unfold decodable, kept, cp_record. destruct e as [l|l|l]; cbn [wf_entry enc_entry kept_entry] in *.
  - destruct (Dec_Series_Enc l [] Hwf) as [-> ->]. cbn [res_bind app Z.eqb RecordSeries Pos.eqb]. split; [by eexists _, _|].
    by apply (Hput _ ESeries Enc_Series _ _ no_stats).
  - destruct (Dec_Samples_Enc l [] Hwf) as [-> ->]. cbn [res_bind app Z.eqb RecordSeries RecordSamples Pos.eqb]. split; [by eexists _, _|].
    by apply (Hput _ ESamples Enc_Samples _ _ no_stats).
  - destruct (Dec_Tombstones_Enc l [] Hwf) as [-> ->]. cbn [res_bind app Z.eqb RecordSeries RecordSamples RecordTombstones Pos.eqb].
    split; [by eexists _, _|]. by apply (Hput _ EStones Enc_Tombstones _ _ no_stats).
Qed.

Lemma kept_enc_all es :
  Forall wf_entry es -> Forall (decodable keep mint) (enc_entry <$> es) /\ (enc_entry <$> es) ≫= kept keep mint = enc_entry <$> (es ≫= kept_entry).
Proof using Type.
  induction 1 as [|e es He _ [IH1 IH2]]; [done|]. destruct (kept_enc e He) as [Hd Ek]. rewrite fmap_cons. split; [by constructor|].
  change ((e :: es) ≫= kept_entry) with (kept_entry e ++ (es ≫= kept_entry)). rewrite fmap_app, <- IH2, <- Ek. done.
Qed.

(** ** Loading it *)

Variable dead : gset Z.

#[local] Abbreviation alive := (alive dead).

(** The series of an entry that are kept are those that are alive. *)
Definition kept_alive (l : list RefSeries) : Prop := Forall (fun rs => keep (rs_Ref rs) = true <-> rs_Ref rs ∉ dead) l.
Definition entry_alive (e : entry) : Prop := match e with ESeries l => kept_alive l | _ => True end.

Lemma series_fresh_alive F l :
  series_fresh F l -> kept_alive l ->
  let l' := filter (fun s => keep (rs_Ref s) = true) l in
  series_fresh (alive F) l' /\ flat_series (alive F) l' = alive (flat_series F l).
Proof using Type.
  intros Hf Ha. revert F Hf. induction Ha as [|rs l Hk _ IH]; intros F; [done|]. intros (Hid & Hls & Hok & Hpos & Hf).
  destruct (IH _ Hf) as [IH1 IH2]. rewrite alive_insert in IH1, IH2. cbn zeta. rewrite filter_cons.
  change (flat_series F (rs :: l)) with (flat_series (<[rs_Ref rs := (rs_Labels rs, [])]> F) l).
  destruct (decide (keep (rs_Ref rs) = true)) as [Hkeep|Hkeep]; rewrite Hk in Hkeep.
  - rewrite decide_False in IH1, IH2 by done. split; [|exact IH2]. cbn [series_fresh]. split_and!; [| |done|lia|lia|exact IH1].
    + destruct (alive F !! rs_Ref rs) eqn:E; [|done]. apply alive_lookup in E as [? _]. congruence.
    + intros i c [Hc _]%alive_lookup. by apply (Hls i).
  - apply dec_stable in Hkeep. rewrite decide_True in IH1, IH2 by done. done.
Qed.

Lemma recent_kept l : recent m (filter (fun s => (mint <=? s_T s) = true) l) = recent m l.
Proof using Hmint.
  unfold recent. rewrite list_filter_filter. apply list_filter_iff. intros x. rewrite Z.leb_le. lia.
Qed.

Lemma load_stones_kept T l :
  foldl (load_stone m) T (filter (fun s => stone_kept mint s = true) l) = foldl (load_stone m) T l.
Proof using Hmint.
  revert T. induction l as [|s l IH]; intros T; [done|]. rewrite filter_cons.
  destruct (decide (stone_kept mint s = true)) as [Hs|Hs]; [apply IH|]. cbn [foldl]. rewrite IH. f_equal.
  unfold load_stone. rewrite not_true_iff_false in Hs. unfold stone_kept in Hs.
  revert T. induction (st_intervals s) as [|iv ivs IHi]; intros T; [done|]. cbn [existsb] in Hs.
  apply orb_false_iff in Hs as [Hiv Hs]. cbn [foldl]. rewrite <- IHi by done. by rewrite (proj2 (Z.ltb_lt _ _)) by lia.
Qed.

Lemma stones_wf_split l : Forall stone_wf l -> Forall stone_wf (l ≫= split_stone).
Proof using Type.
  intros Hl. apply Forall_bind. eapply Forall_impl; [exact Hl|]. intros s [Hr Hi]. apply Forall_fmap.
  eapply Forall_impl; [exact Hi|]. intros iv ?. split; [done|]. by constructor.
Qed.

Lemma Forall_filter_1 {A} (P Q : A -> Prop) `{!forall x, Decision (Q x)} l : Forall P l -> Forall P (filter Q l).
Proof using Type. rewrite !Forall_forall. intros Hl x [_ Hx]%list_elem_of_filter. by apply Hl. Qed.

Lemma replay_unless {A} (mk : list A -> entry) (l : list A) S :
  replay1 m S (mk []) = S -> replay m S (unless_empty mk l) = replay1 m S (mk l).
Proof using Type. intros E. unfold unless_empty. by destruct l. Qed.

Lemma entries_ok_unless {A} (mk : list A -> entry) (l : list A) S :
  entry_ok (fst S) (mk l) -> entries_ok m S (unless_empty mk l).
Proof using Type. intros E. unfold unless_empty. by destruct l. Qed.

(** What is kept of an entry does to the series that are alive what the entry does. *)
Lemma replay1_kept F T e :
  entry_ok F e -> entry_alive e ->
  entries_ok m (alive F, T) (kept_entry e) /\
  replay m (alive F, T) (kept_entry e) = (alive (fst (replay1 m (F, T) e)), snd (replay1 m (F, T) e)).
Proof using Hmint.
  intros Hok Ha. destruct e as [l|l|l]; cbn [kept_entry entry_ok entry_alive] in *; (split; [apply entries_ok_unless|rewrite replay_unless; [|done]]);
    cbn [fst snd entry_ok replay1].
  - by apply series_fresh_alive.
  - by rewrite (proj2 (series_fresh_alive F l Hok Ha)).
  - by apply Forall_filter_1.
  - by rewrite recent_kept, alive_samples.
  - by apply Forall_filter_1, stones_wf_split.
  - by rewrite !load_stones_eq, load_stones_kept, load_stones_eq.
Qed.

Lemma replay_kept S es :
  entries_ok m S es -> Forall entry_alive es ->
  entries_ok m (alive (fst S), snd S) (es ≫= kept_entry) /\
  replay m (alive (fst S), snd S) (es ≫= kept_entry) = (alive (fst (replay m S es)), snd (replay m S es)).
Proof using Hmint.
  intros Hok Ha. revert S Hok. induction Ha as [|e es He _ IH]; intros [F T] Hok; [done|]. destruct Hok as [H1 Hok].
  destruct (replay1_kept F T e H1 He) as [K1 K2]. change ((e :: es) ≫= kept_entry) with (kept_entry e ++ (es ≫= kept_entry)).
  rewrite entries_ok_app, replay_app. cbn [fst snd]. rewrite K2. destruct (IH _ Hok) as [IH1 IH2]. by rewrite IH2.
Qed.

Lemma n_samples_kept es : (n_samples (es ≫= kept_entry) <= n_samples es)%nat.
Proof using Type.
  induction es as [|e es IH]; [done|]. change ((e :: es) ≫= kept_entry) with (kept_entry e ++ (es ≫= kept_entry)).
  change (e :: es) with ([e] ++ es). rewrite !n_samples_app. enough (n_samples (kept_entry e) <= n_samples [e])%nat by lia.
  destruct e as [l|l|l]; cbn [kept_entry]; unfold unless_empty; [by destruct (_ <? _)%nat| |by destruct (_ <? _)%nat].
  pose proof (length_filter (fun s => (mint <=? s_T s) = true) l).
  destruct (_ <? _)%nat; cbn; rewrite ?app_nil_r; lia.
Qed.
End Kept.

(** ** The records behind the checkpoint *)

Lemma flat_series_dom F l id : is_Some (F !! id) -> is_Some (flat_series F l !! id).
Proof.
  revert F. induction l as [|rs l IH]; intros F Hid; [done|]. cbn [flat_series foldl]. apply IH.
  destruct (decide (rs_Ref rs = id)) as [->|Hne]; [by rewrite lookup_insert_eq|by rewrite lookup_insert_ne].
Qed.

Lemma flat_samples_dom F l id : is_Some (F !! id) -> is_Some (flat_samples F l !! id).
Proof.
  revert F. induction l as [|x l IH]; intros F Hid; [done|]. cbn [flat_samples foldl]. apply IH.
  unfold flat_sample. destruct (decide (s_Ref x = id)) as [->|Hne]; [by rewrite lookup_alter_eq, fmap_is_Some|by rewrite lookup_alter_ne].
Qed.

Lemma replay1_dom m S e id : is_Some (fst S !! id) -> is_Some (fst (replay1 m S e) !! id).
Proof. destruct e; cbn; [apply flat_series_dom|apply flat_samples_dom|done]. Qed.

(** The references of new series are not those of dropped ones. *)
Lemma fresh_alive F l dead : series_fresh F l -> (forall id, id ∈ dead -> is_Some (F !! id)) -> kept_alive (fun _ => true) dead l.
Proof.
  revert F. induction l as [|rs l IH]; intros F; [constructor|]. intros (Hid & _ & _ & _ & Hf) Hd. constructor.
  - split; [|done]. intros _ Hin%Hd. rewrite Hid in Hin. by destruct Hin.
  - apply (IH _ Hf). intros id Hin. rewrite lookup_insert_is_Some'. right. by apply Hd.
Qed.

Lemma replay_alive m dead S es :
  entries_ok m S es -> (forall id, id ∈ dead -> is_Some (fst S !! id)) ->
  entries_ok m (alive dead (fst S), snd S) es /\
  replay m (alive dead (fst S), snd S) es = (alive dead (fst (replay m S es)), snd (replay m S es)).
Proof.
  revert S. induction es as [|e es IH]; intros S; [done|]. intros [He Hok] Hd.
  assert (H1 : entry_ok (alive dead (fst S)) e /\ replay1 m (alive dead (fst S), snd S) e = (alive dead (fst (replay1 m S e)), snd (replay1 m S e))).
  { destruct e as [l|l|l]; cbn [entry_ok replay1 fst snd] in *; [|by rewrite alive_samples|done].
    destruct (series_fresh_alive (fun _ => true) dead (fst S) l He (fresh_alive _ _ _ He Hd)) as [K1 K2].
    rewrite filter_all in K1, K2 by by apply Forall_true. by rewrite K2. }
  destruct H1 as [H1 E1]. destruct (IH _ Hok) as [IH1 IH2]; [intros id Hin; by apply replay1_dom, Hd|].
  cbn [entries_ok replay foldl fst snd]. rewrite E1. by split.
Qed.

(** * Loading from the files *)

Lemma entries_wf m S es : entries_ok m S es -> Forall wf_entry es.
Proof.
  revert S. induction es as [|e es IH]; intros S; [constructor|]. intros [He Hok]. constructor; [|by eapply IH].
  destruct e as [l|l|l]; cbn [entry_ok wf_entry] in *; [by eapply fresh_series_ok| |done].
  eapply Forall_impl; [exact He|]. apply ref_sample_wf.
Qed.

Section Files.
Variable Sum64 : list Z -> Z.
Abbreviation loads := (loads (W := wal) Sum64).

Lemma loads_weaken h0 h S n k : loads h0 h S n -> (k <= n)%nat -> loads h0 h S k.
Proof using Type.
  intros [? ? ? [Hf Hn]] Hk. split; [done..|]. split; [|lia]. intros id c Hc. specialize (Hf id c Hc). lia.
Qed.

Lemma load_reader_entries {R} `{IoContent R} (rd : R) h0 S es n :
  holds 0 (rd_content rd) (enc_entry <$> es) ->
  let m := h_minTime h0 in
  loads h0 h0 S (n_samples es + n) -> m < MaxInt64 -> entries_ok m S es ->
  exists h, load_reader Sum64 h0 rd = Ok (h, None) /\ loads h h (replay m S es) n /\ h_minTime h = m.
Proof using Type.
  intros Hh m Hl Hm Hok. destruct (loadWAL_entries Sum64 h0 S es n Hl ltac:(lia) ltac:(lia) Hok) as (h & E & Hl' & Em).
  unfold load_reader. destruct (read_all_holds rd _ Hh) as (r & -> & ->). rewrite E. cbn [res_bind]. by exists h.
Qed.

Lemma Init_disk_entries fs w base start rss cur h0 S eb es :
  log_state fs w base start rss cur -> h_wal h0 = Some w -> base = enc_entry <$> eb -> mjoin rss ++ cur = enc_entry <$> es ->
  let m := h_minTime h0 in
  loads h0 h0 S (n_samples (eb ++ es)) -> m < MaxInt64 -> entries_ok m S (eb ++ es) ->
  exists h A, Init_disk Sum64 h0 fs = Ok (h, None) /\ HeadInv.rep Sum64 h A /\ flat A = fst (replay m S (eb ++ es)) /\
    h_tombstones h = snd (replay m S (eb ++ es)) /\ h_minTime h = m.
Proof using Type.
  intros [Hdir Hbase Hstart Hlog Hsync] Hw -> Hes m Hl Hm Hok.
  destruct (logged_dir start w rss cur Hlog Hsync) as [(segs & file & Ed & Hh & Hall) _].
  rewrite n_samples_app in Hl. apply entries_ok_app in Hok as [Hok1 Hok2]. rewrite replay_app.
  assert (Hseg : forall from h1, from <= start -> loads h1 h1 (replay m S eb) (n_samples es) -> h_minTime h1 = m ->
    exists h, init_segments Sum64 h1 w from = Ok (h, None) /\ loads h h (replay m (replay m S eb) es) 0 /\ h_minTime h = m).
  { intros from h1 Hf Hl1 Em1. unfold init_segments. rewrite Ed, segments_range by done. cbn [Z.ltb Z.compare].
    rewrite take_ge by done.
    destruct (load_reader_entries (newSegmentBufReader (numbered start (segs ++ [file]))) h1 (replay m S eb) es 0) as (h & -> & Hl2 & Em2).
    - cbn [rd_content segment_content]. rewrite sb_content_numbered, mjoin_snoc, <- Hes. by apply seg_ok_app; [apply holds_segs|].
    - by rewrite Nat.add_0_r.
    - by rewrite Em1.
    - by rewrite Em1.
    - cbn [res_bind]. rewrite Em1 in *. by exists h. }
  assert (Hfiles : exists h, init_files Sum64 h0 w fs = Ok (h, None) /\ loads h h (replay m (replay m S eb) es) 0 /\ h_minTime h = m).
  { unfold init_files. destruct Hbase as [[Hb Hno]|(d & Hd & Hcp & Hi & Hmax)].
    - rewrite LastCheckpoint_none by done. destruct eb; [|done]. apply Hseg; [lia|exact Hl|done].
    - rewrite (LastCheckpoint_max fs (start - 1) d) by done. unfold cp_segments. rewrite Hd. cbn [res_bind].
      destruct (cp_holds_reader d _ Hcp) as (rd & -> & [_ Hrd]).
      destruct (load_reader_entries rd h0 S eb (n_samples es) Hrd Hl Hm Hok1) as (h1 & -> & Hl1 & Em1). cbn [res_bind].
      replace (start - 1 + 1) with start by lia. by apply Hseg. }
  destruct Hfiles as (h & E & [(A & Hr & EA) Es _ _] & Em). unfold Init_disk. rewrite Hw, E. cbn [res_bind].
  destruct (EnsureOrder_rep Sum64 h A Hr) as [Hr' _]. by exists (EnsureOrder_head h), A.
Qed.

(** The head of a database that has blocks up to [m], before its log is loaded. *)
Definition blank_head (cr m : Z) (w : wal) : Head wal := Truncate (new_head cr w) m [] [].

Lemma blank_loads cr m w n :
  range_ok cr -> Z.of_nat n <= 65535 ->
  loads (blank_head cr m w) (blank_head cr m w) (∅, NewMemTombstones) n /\ h_wal (blank_head cr m w) = Some w /\ h_minTime (blank_head cr m w) = m.
Proof using Type.
  intros Hcr Hn. destruct (new_head_rep Sum64 cr w Hcr) as [_ Hr]. unfold blank_head, Truncate.
  cbn [new_head h_minTime]. rewrite Z.eqb_refl, andb_false_r. split; [|done]. split; [|done|done|].
  - exists ∅. split; [by apply with_times_rep|]. unfold flat. by rewrite fmap_empty.
  - split; [|done]. intros id c Hc. cbn in Hc. by rewrite lookup_empty in Hc.
Qed.
End Files.

(** * Properties *)

Definition enc_segment (es : list entry) : list (list Z) := enc_entry <$> es.

(** The records of the log are entries. *)
Record log_entries (base : list (list Z)) (rss : list (list (list Z))) (cur : list (list Z)) (eb : list entry) (ess : list (list entry)) (ec : list entry) : Prop := {
  le_base : base = enc_entry <$> eb;
  le_segs : rss = enc_segment <$> ess;
  le_cur : cur = enc_entry <$> ec;
}.

Lemma mjoin_segments ess : mjoin (enc_segment <$> ess) = enc_entry <$> mjoin ess.
Proof. induction ess as [|es ess IH]; [done|]. by rewrite fmap_cons, !join_cons, IH, fmap_app. Qed.

(** The series of the entries that the head does not have. *)
Definition dropped (keep : Z -> bool) (es : list entry) : gset Z :=
  list_to_set (filter (fun id => keep id = false) (es ≫= fun e => match e with ESeries l => rs_Ref <$> l | _ => [] end)).

Lemma dropped_elem keep es id :
  id ∈ dropped keep es -> keep id = false /\ exists l, ESeries l ∈ es /\ id ∈ (rs_Ref <$> l).
Proof.
  unfold dropped. rewrite elem_of_list_to_set. intros [Hk ([l|l|l] & Hid & He)%list_elem_of_bind]%list_elem_of_filter.
  - split; [done|by exists l].
  - by apply not_elem_of_nil in Hid.
  - by apply not_elem_of_nil in Hid.
Qed.

Lemma dropped_alive keep es : Forall (entry_alive keep (dropped keep es)) es.
Proof.
  apply Forall_forall. intros [l|l|l] He; [|done..]. apply Forall_forall. intros rs Hrs. split.
  - intros Hk [Hk' _]%dropped_elem. congruence.
  - intros Hnot. apply not_false_iff_true. intros Hk. apply Hnot. unfold dropped. apply elem_of_list_to_set, list_elem_of_filter.
    split; [done|]. apply list_elem_of_bind. exists (ESeries l). split; [by apply list_elem_of_fmap_2|done].
Qed.

Lemma flat_series_new F l rs : rs ∈ l -> is_Some (flat_series F l !! rs_Ref rs).
Proof.
  revert F. induction l as [|x l IH]; intros F Hin; [by apply not_elem_of_nil in Hin|]. apply elem_of_cons in Hin as [->|Hin]; [|by apply IH].
  change (flat_series F (x :: l)) with (flat_series (<[rs_Ref x := (rs_Labels x, [])]> F) l).
  apply flat_series_dom. by rewrite lookup_insert_eq.
Qed.

Lemma replay_series m S es l rs : ESeries l ∈ es -> rs ∈ l -> is_Some (fst (replay m S es) !! rs_Ref rs).
Proof.
  intros He Hin. apply list_elem_of_split in He as (es1 & es2 & ->). rewrite replay_app.
  assert (Hkeep : forall es S id, is_Some (fst S !! id) -> is_Some (fst (replay m S es) !! id)).
  { clear. induction es as [|e es IH]; intros S id Hid; [done|]. apply IH. by apply replay1_dom. }
  change (replay m ?s (ESeries l :: es2)) with (replay m (replay1 m s (ESeries l)) es2). apply Hkeep. by apply flat_series_new.
Qed.

(** Loading what is kept of the first entries, and the others, gives what loading all
    of them does, without the series that are dropped. *)
Lemma replay_checkpoint keep mint m S es1 es2 :
  mint <= m -> entries_ok m S (es1 ++ es2) -> (forall id, id ∈ dropped keep es1 -> fst S !! id = None) ->
  let es' := (es1 ≫= kept_entry keep mint) ++ es2 in
  entries_ok m S es' /\
  replay m S es' = (alive (dropped keep es1) (fst (replay m S (es1 ++ es2))), snd (replay m S (es1 ++ es2))).
Proof.
  intros Hmint [H1 H2]%entries_ok_app Hnew. set (dead := dropped keep es1) in *.
  assert (ES : S = (alive dead (fst S), snd S)).
  { destruct S as [F T]. cbn [fst snd] in *. f_equal. apply map_eq. intros id. apply option_eq. intros c. rewrite alive_lookup.
    split; [|by intros [? _]]. intros Hc. split; [done|]. intros Hd%Hnew. congruence. }
  destruct (replay_kept keep mint m Hmint dead S es1 H1 (dropped_alive keep es1)) as [K1 K2]. rewrite <- ES in K1, K2.
  destruct (replay_alive m dead (replay m S es1) es2 H2) as [L1 L2].
  { intros id (_ & l & Hl & Hin)%dropped_elem. apply list_elem_of_fmap in Hin as (rs & -> & Hrs). by eapply replay_series. }
  cbn zeta. rewrite entries_ok_app, !replay_app, K2. by split.
Qed.

(** C7: a checkpoint loses nothing that matters.  The log, from its last checkpoint on, has
    the records of a run of the database; the head truncates it at [mint].  That
    succeeds, and restarting on the files afterwards, for any time [m] from [mint] on up
    to which the blocks reach, gives the head that restarting on the files before gives:
    the same series, references, samples and deletions, except for series of the
    truncated segments that the head no longer had.  The files are those of such a log
    again. *)
Theorem checkpoint_recovers (Sum64 : list Z -> Z) (h : Head wal) (w : wal) (fs : cp_dir) (i cr mint m : Z)
    base rss cur eb ess ec :
  h_wal h = Some w -> log_state fs w base i rss cur -> log_entries base rss cur eb ess ec ->
  i + zlen rss <= 10 ^ 6 -> (forall j, 0 <= j < 10 ^ 6 -> fs !! cp_tmp j = None) ->
  let es := eb ++ mjoin ess ++ ec in
  entries_ok m (∅, NewMemTombstones) es -> Z.of_nat (n_samples es) <= 65535 -> zlen es < MaxInt32 ->
  range_ok cr -> mint <= m < MaxInt64 ->
  exists h' fs' w', truncate_log h fs mint = Ok (h', fs', None) /\ h_wal h' = Some w' /\
  (exists base' i' rss' eb' ess', log_state fs' w' base' i' rss' cur /\ log_entries base' rss' cur eb' ess' ec /\
     entries_ok m (∅, NewMemTombstones) (eb' ++ mjoin ess' ++ ec)) /\
  exists h1 A1 h2 A2 dead,
    Init_disk Sum64 (blank_head cr m w) fs = Ok (h1, None) /\ HeadInv.rep Sum64 h1 A1 /\
    Init_disk Sum64 (blank_head cr m w') fs' = Ok (h2, None) /\ HeadInv.rep Sum64 h2 A2 /\
    (forall id, id ∈ dead -> getByID h id = None) /\
    flat A2 = alive dead (flat A1) /\ h_tombstones h2 = h_tombstones h1.
Proof.
  intros Hw Hst [-> -> ->] Hmax Htmp es Hok Hn Hlen Hcr Hm.
  set (n := truncated (length (enc_segment <$> ess))) in *. set (old := eb ++ mjoin (take n ess)). set (new := mjoin (drop n ess) ++ ec).
  assert (Ees : es = old ++ new).
  { unfold es, old, new. rewrite <- (take_drop n ess) at 1. by rewrite join_app, <- !(assoc_L (++)). }
  assert (Eold : (enc_entry <$> eb) ++ mjoin (take n (enc_segment <$> ess)) = enc_entry <$> old).
  { unfold old. by rewrite <- fmap_take, mjoin_segments, <- fmap_app. }
  assert (Elog : forall k, mjoin (drop k (enc_segment <$> ess)) ++ (enc_entry <$> ec) = enc_entry <$> (mjoin (drop k ess) ++ ec)).
  { intros k. by rewrite <- fmap_drop, mjoin_segments, <- fmap_app. }
  assert (Hinit : forall fs w base' i rss eb' es' , log_state fs w base' i rss (enc_entry <$> ec) -> base' = enc_entry <$> eb' ->
    mjoin rss ++ (enc_entry <$> ec) = enc_entry <$> es' -> entries_ok m (∅, NewMemTombstones) (eb' ++ es') -> Z.of_nat (n_samples (eb' ++ es')) <= 65535 ->
    exists h A, Init_disk Sum64 (blank_head cr m w) fs = Ok (h, None) /\ HeadInv.rep Sum64 h A /\
      flat A = fst (replay m (∅, NewMemTombstones) (eb' ++ es')) /\ h_tombstones h = snd (replay m (∅, NewMemTombstones) (eb' ++ es'))).
  { intros fs1 w1 b1 i1 rss1 eb1 es1 Hst1 Eb1 Es1 Hok1 Hn1.
    destruct (blank_loads Sum64 cr m w1 (n_samples (eb1 ++ es1)) Hcr Hn1) as (Hl & Hw1 & Em).
    destruct (Init_disk_entries Sum64 fs1 w1 b1 i1 rss1 _ (blank_head cr m w1) (∅, NewMemTombstones) eb1 es1 Hst1 Hw1 Eb1 Es1 Hl)
      as (h1 & A1 & ? & ? & ? & ? & _); [rewrite Em; lia|by rewrite Em|]. rewrite Em in *. by exists h1, A1. }
  destruct (Hinit fs w _ i _ eb (mjoin ess ++ ec) Hst eq_refl (Elog 0%nat) Hok Hn) as (h1 & A1 & E1 & Hr1 & F1 & T1).
  pose proof (truncate_log_ok h w fs i _ _ _ mint Hw Hst Hmax Htmp) as Ht. cbn zeta in Ht. fold n in Ht. rewrite Eold in Ht.
  assert (Hwf : Forall wf_entry old).
  { rewrite Ees in Hok. apply entries_ok_app in Hok as [Hok _]. by eapply entries_wf. }
  specialize (Ht (proj1 (kept_enc_all _ _ _ Hwf))).
  assert (Hold : zlen (enc_entry <$> old) < MaxInt32).
  { unfold zlen in *. rewrite length_fmap. rewrite Ees, length_app in Hlen. lia. }
  specialize (Ht Hold). destruct (Nat.eqb_spec n 0) as [En|En].
  - exists h, fs, w. do 2 (split; [done|]). split; [by eexists _, _, _, eb, ess|]. exists h1, A1, h1, A1, ∅. do 4 (split; [done|]). split; [set_solver|]. split; [|done].
    apply map_eq. intros id. apply option_eq. intros c. rewrite alive_lookup. set_solver.
  - destruct Ht as (fs' & w' & Et & Hst'). exists (with_wal h w'), fs', w'. do 2 (split; [done|]).
    destruct (replay_checkpoint (in_head h) mint m (∅, NewMemTombstones) old new) as [K1 K2]; [lia|by rewrite <- Ees|done|].
    destruct (kept_enc_all (in_head h) mint old Hwf) as [_ Ek]. split.
    { eexists _, _, _, (old ≫= kept_entry (in_head h) mint), (drop n ess). split; [exact Hst'|].
      split; [split; [done|by rewrite fmap_drop|done]|exact K1]. }
    destruct (Hinit fs' w' _ _ _ (old ≫= kept_entry (in_head h) mint) new Hst') as (h2 & A2 & E2 & Hr2 & F2 & T2).
    + exact Ek.
    + apply Elog.
    + exact K1.
    + rewrite Ees in Hn. rewrite n_samples_app in *. pose proof (n_samples_kept (in_head h) mint old). lia.
    + exists h1, A1, h2, A2, (dropped (in_head h) old). do 4 (split; [done|]). split.
      { intros id [Hk _]%dropped_elem. unfold in_head in Hk. apply bool_decide_eq_false, eq_None_not_Some in Hk. exact Hk. }
      rewrite K2 in F2, T2. cbn [fst snd] in F2, T2. rewrite F2, F1, T2, T1, <- Ees. done.
Qed.

(** ** A log of five segments *)

Module CheckpointExample.
(** A record on a page of its own. *)
Definition page_of (rec : list Z) : list Z := pad_torn (rec_bytes 0 rec).

Lemma page_of_ok rec : Forall is_byte rec -> seg_ok (page_of rec) [rec].
Proof.
  intros Hb. destruct (pad_torn_zeros (rec_bytes 0 rec)) as (n & E & Hn & Hm). unfold page_of, seg_ok. rewrite E in *. split; [done|].
  apply holds_snoc_zeros; [|done|right; by rewrite zlen_app, zlen_zeros in Hm].
  rewrite <- (app_nil_r (rec_bytes 0 rec)). change 0 with (0 mod pageSize) at 2.
  apply holds_rec; [rewrite Z.mod_0_l by page_lia; page_lia|done|constructor].
Qed.

Definition series1 : RefSeries := mkRefSeries 1 [("a", "1")]%string.
Definition series2 : RefSeries := mkRefSeries 2 [("a", "2")]%string.

Definition segs : list (list entry) :=
  [[ESeries [series1; series2]]; [ESamples [mkRefSample 1 10 7; mkRefSample 2 20 8; mkRefSample 1 60 9]];
   [ESamples [mkRefSample 1 70 1]]; [EStones [mkStone 1 [mkInterval 0 60]]]].

Definition files : list (list Z) := (fun es => page_of (enc_entry es)) <$> mjoin segs.

(** The active segment is empty. *)
Definition log : wal := mkWal (128 * pageSize) (seg_dir 0 (files ++ [[]])) 4 0 new_page.

(** The second series has been collected. *)
Definition head1 : Head wal :=
  mkHead 1000 (Some log) 50 70 2 [] {[1 := 0%nat]} ∅ ∅ ∅ NewUnorderedMemPostings NewMemTombstones.

Lemma files_ok : Forall2 seg_ok files (enc_segment <$> segs).
Proof.
  unfold files, segs. cbn [mjoin list_join app fmap list_fmap enc_segment].
  constructor; [apply page_of_ok, Forall_Enc_Series|]. do 2 (constructor; [apply page_of_ok, Forall_Enc_Samples|]).
  constructor; [apply page_of_ok, Forall_Enc_Tombstones|constructor].
Qed.

Lemma log_ok : log_state ∅ log [] 0 (enc_segment <$> segs) [].
Proof.
  split; [by intros ? ? ?|left; split; [done|intros; apply lookup_empty]|done| |done].
  exists files, []. split; [|split; [unfold ready; cbn; page_lia|split; [constructor|exact files_ok]]].
  exists [], [], [], (Z.to_nat pageSize). cbn [log w_dir w_segment w_page new_page p_buf p_flushed p_alloc].
  do 6 (split; [done|]). split; [page_lia|done].
Qed.

Lemma segs_ok : entries_ok 50 (∅, NewMemTombstones) (mjoin segs).
Proof.
  assert (Hl : forall v, v = "1"%string \/ v = "2"%string -> lset_ok [("a"%string, v)]) by (intros v [->| ->]; decided).
  assert (Hs : forall r t v, is_u64 r -> time_ok t -> is_u64 v -> ref_sample_ok (mkRefSample r t v)) by (intros; by split).
  unfold segs. cbn [mjoin list_join app entries_ok entry_ok]. split_and!; [|..|done].
  - cbn [series_fresh fst series1 series2 rs_Ref rs_Labels].
    split_and!; try (unfold max_id; lia); try (by apply Hl; auto); try done.
    all: intros i c; rewrite ?lookup_insert_Some, lookup_empty; naive_solver.
  - repeat constructor; unfold time_ok, is_u; cbn; lia.
  - repeat constructor; unfold time_ok, is_u; cbn; lia.
  - repeat constructor; unfold is_u, is_s; cbn; lia.
Qed.
End CheckpointExample.

Lemma checkpoint_recovers_witness :
  exists h' fs' w', truncate_log CheckpointExample.head1 ∅ 50 = Ok (h', fs', None) /\ h_wal h' = Some w' /\
  (exists base' i' rss' eb' ess', log_state fs' w' base' i' rss' [] /\ log_entries base' rss' [] eb' ess' [] /\
     entries_ok 50 (∅, NewMemTombstones) (eb' ++ mjoin ess' ++ [])) /\
  exists h1 A1 h2 A2 dead,
    Init_disk AppendExample.sum (blank_head 1000 50 CheckpointExample.log) ∅ = Ok (h1, None) /\ HeadInv.rep AppendExample.sum h1 A1 /\
    Init_disk AppendExample.sum (blank_head 1000 50 w') fs' = Ok (h2, None) /\ HeadInv.rep AppendExample.sum h2 A2 /\
    (forall id, id ∈ dead -> getByID CheckpointExample.head1 id = None) /\
    flat A2 = alive dead (flat A1) /\ h_tombstones h2 = h_tombstones h1.
Proof.
  apply (checkpoint_recovers AppendExample.sum CheckpointExample.head1 CheckpointExample.log ∅ 0 1000 50 50
    [] (enc_segment <$> CheckpointExample.segs) [] [] CheckpointExample.segs []).
  - done.
  - exact CheckpointExample.log_ok.
  - by split.
  - vm_compute. discriminate.
  - intros. apply lookup_empty.
  - cbn [app]. rewrite app_nil_r. exact CheckpointExample.segs_ok.
  - vm_compute. discriminate.
  - vm_compute. reflexivity.
  - unfold range_ok. lia.
  - unfold MaxInt64. lia.
Defined.

(** * Where checkpoints go wrong *)

(** A crash while a checkpoint was written has left its ".tmp" directory with the
    first page of a record of two.  The next checkpoint of that number goes on behind it:
    it succeeds, but cannot be read, and the head does not start any more. *)
Definition leftover : cp_dir := {[cp_tmp 2 := CpDir (seg_dir 0 [take (Z.to_nat pageSize) (rec_bytes 0 big_record)])]}.

Theorem leftover_poisons_checkpoint :
  match Checkpoint (fun _ => true) 50 CheckpointExample.log leftover 0 2 with
  | Ok (fs, inl stats) =>
      Some (LastCheckpoint fs, TotalSeries stats, let? (_, e) := Init_disk AppendExample.sum (blank_head 1000 50 CheckpointExample.log) fs in Ok e)
  | _ => None
  end = Some (Ok (cp_name 2, 2), 2, Ok (Some (ErrMsg "unexpected full record"))).
Proof. vm_compute. reflexivity. Qed.

(** The directory is read in the order of the names: behind a million, the last
    checkpoint is not the one with the greatest number. *)
Theorem last_of_a_million :
  LastCheckpoint (<[cp_name 1000000 := CpDir ∅]> {[cp_name 999999 := CpDir ∅]}) = Ok (cp_name 999999, 999999).
Proof. vm_compute. reflexivity. Qed.
