(* ===== verification/LegacyWal.v ===== *)
(** wal.go: the write-ahead log of older versions, and its migration into the log
    of wal/wal.go.  The directory is the map of its segment files by number, as
    [ReadDir] lists the six-digit names in the order of the numbers.  Operations of
    the file system succeed; reading gives what is asked for or what is left. *)
From S2P Require Import Prelude Bits Varint Crc32 EncBuf Order Files Labels Tombstones Records Head Wal.
#[local] Open Scope list_scope.
#[local] Open Scope Z_scope.

(** * Data *)

Definition WALMagic : Z := 1135542511. (* 0x43AF00EF *)
Definition WALFormatDefault : Z := 1.

Definition WALEntrySymbols : Z := 1.
Definition WALEntrySeries : Z := 2.
Definition WALEntrySamples : Z := 3.
Definition WALEntryDeletes : Z := 4.

Definition MaxUint64 : Z := 2 ^ 64 - 1.

(** A file with the position of its handle, and whether the handle is open. *)
Record segmentFile := mkSegmentFile {
  sf_name : Z; sf_open : bool; sf_pos : Z; sf_maxTime : Z; sf_minSeries : Z }.

Definition newSegmentFile (name pos : Z) : segmentFile := mkSegmentFile name true pos MinInt64 MaxUint64.

Definition sf_seek (f : segmentFile) (pos : Z) : segmentFile :=
  mkSegmentFile (sf_name f) (sf_open f) pos (sf_maxTime f) (sf_minSeries f).
Definition sf_close (f : segmentFile) : segmentFile :=
  mkSegmentFile (sf_name f) false (sf_pos f) (sf_maxTime f) (sf_minSeries f).
Definition sf_seen (f : segmentFile) (maxTime minSeries : Z) : segmentFile :=
  mkSegmentFile (sf_name f) (sf_open f) (sf_pos f) maxTime minSeries.

Definition ErrClosed : error := ErrMsg "file already closed".

Definition walSegmentSizeBytes : Z := 256 * 1024 * 1024.
Definition curBufferSize : Z := 8 * 1024 * 1024.

(** [sw_cur] is the [bufio.Writer] on the newest file with the bytes it holds;
    [sw_actorc] are the numbers of the files that [cut] has left to the background to
    finish, and that are not finished yet. *)
Record SegmentWAL := mkSegmentWAL {
  sw_dir : directory; sw_files : list segmentFile; sw_segmentSize : Z;
  sw_cur : option (list Z); sw_curN : Z; sw_closed : bool; sw_actorc : list Z }.

Definition sw_with (w : SegmentWAL) (dir : directory) (files : list segmentFile) : SegmentWAL :=
  mkSegmentWAL dir files (sw_segmentSize w) (sw_cur w) (sw_curN w) (sw_closed w) (sw_actorc w).

(** * Files *)

(** [File.Read]: the end of the file is an error unless nothing was asked for. *)
Definition f_Read (c : list Z) (f : segmentFile) (n : Z) : list Z * segmentFile * option error :=
  if negb (sf_open f) then ([], f, Some ErrClosed)
  else
    let b := take (Z.to_nat n) (drop (Z.to_nat (sf_pos f)) c) in
    (b, sf_seek f (sf_pos f + zlen b), if (0 <? n) && (zlen b =? 0) then Some EOF else None).

Definition meta_bytes : list Z := PutUint32 WALMagic ++ [WALFormatDefault; 0; 0; 0].

(** [openSegmentFile]: the position after the header. *)
Definition openSegmentFile (dir : directory) (name : Z) : res Z :=
  match dir !! name with
  | None => Err ErrNotFound
  | Some c =>
      let metab := take 8 c in
      if (length metab =? 0)%nat then Err EOF
      else if negb (length metab =? 8)%nat then Err (ErrMsg "invalid header size")
      else if negb (be_val (take 4 metab) =? WALMagic) then Err (ErrMsg "invalid magic header")
      else if negb (nth 4 metab 0 =? WALFormatDefault) then Err (ErrMsg "unknown WAL segment format")
      else Ok 8
  end.

(** [createSegmentFile]: the contents of the new file, preallocated with zeros. *)
Definition createSegmentFile (segmentSize : Z) : list Z :=
  write_at (Preallocate [] segmentSize true) 0 meta_bytes.

(** * Opening *)

(** The loop of [OpenSegmentWAL]: the first invalid file is removed and all files
    after it. *)
Fixpoint open_files (dir : directory) (fns : list Z) : list segmentFile * directory :=
  match fns with
  | [] => ([], dir)
  | fn :: fns' =>
      match openSegmentFile dir fn with
      | Ok pos => let '(fs, dir) := open_files dir fns' in (newSegmentFile fn pos :: fs, dir)
      | _ => ([], foldl (fun dir k => delete k dir) dir fns)
      end
  end.

(** The code's [segmentSize] is [walSegmentSizeBytes]. *)
Definition OpenSegmentWAL (dir : directory) (segmentSize : Z) : SegmentWAL :=
  let '(files, dir) := open_files dir (sequenceFiles dir) in
  mkSegmentWAL dir files segmentSize None 0 false [].

Definition sw_head (w : SegmentWAL) : option segmentFile := last (sw_files w).

Definition set_head (w : SegmentWAL) (f : segmentFile) : list segmentFile :=
  take (length (sw_files w) - 1) (sw_files w) ++ [f].

(** * Encoding *)

Definition encodeSeries (series : list RefSeries) : list Z := e_get (foldl enc_series (mk_encbuf []) series).

Definition encodeSamples (samples : list RefSample) : list Z :=
  match samples with
  | [] => []
  | first :: _ =>
      e_get (foldl (enc_sample first) (putBE64int64 (s_T first) (putBE64 (s_Ref first) (mk_encbuf []))) samples)
  end.

Definition encodeDeletes (stones : list Stone) : list Z :=
  e_get (foldl (fun buf s => foldl (enc_interval (st_ref s)) buf (st_intervals s)) (mk_encbuf []) stones).

Definition walSeriesSimple : Z := 1.
Definition walSamplesSimple : Z := 1.
Definition walDeletesSimple : Z := 1.

(** * Writing *)

(** A write to the newest file. *)
Definition head_write (w : SegmentWAL) (b : list Z) : SegmentWAL :=
  match sw_head w with
  | None => w
  | Some f => sw_with w (alter (fun c => write_at c (sf_pos f) b) (sf_name f) (sw_dir w))
                (set_head w (sf_seek f (sf_pos f + zlen b)))
  end.

Definition with_cur (w : SegmentWAL) (cur : option (list Z)) (curN : Z) : SegmentWAL :=
  mkSegmentWAL (sw_dir w) (sw_files w) (sw_segmentSize w) cur curN (sw_closed w) (sw_actorc w).

Definition sw_flush (w : SegmentWAL) : SegmentWAL :=
  match sw_cur w with
  | None => w
  | Some buf => with_cur (head_write w buf) (Some []) (sw_curN w)
  end.

(** A write to [w.cur]. *)
Definition cur_write (w : SegmentWAL) (p : list Z) : SegmentWAL :=
  match sw_cur w with
  | None => w
  | Some buf => let '(out, buf) := bufio_Write curBufferSize buf p in
                with_cur (head_write w out) (Some buf) (sw_curN w)
  end.

Definition with_actorc (w : SegmentWAL) (queue : list Z) : SegmentWAL :=
  mkSegmentWAL (sw_dir w) (sw_files w) (sw_segmentSize w) (sw_cur w) (sw_curN w) (sw_closed w) queue.

(** [cut]: that the file that ends is finished is left to the background. *)
Definition sw_cut (w : SegmentWAL) : SegmentWAL :=
  let queue := sw_actorc w ++ match sw_head w with None => [] | Some hf => [sf_name hf] end in
  let w := sw_flush w in
  let p := nextSequenceFile (sw_dir w) in
  mkSegmentWAL (<[p := createSegmentFile (sw_segmentSize w)]> (sw_dir w)) (sw_files w ++ [newSegmentFile p 8])
    (sw_segmentSize w) (Some []) 8 (sw_closed w) queue.

(** The operation [cut] has queued for the file [hf], number [i] of the log's: it is
    truncated where its handle stands, which removes what is left of the space that was
    preallocated, and closed. *)
Definition finish_segment (w : SegmentWAL) (i : nat) (hf : segmentFile) : SegmentWAL :=
  sw_with w (alter (fun c => truncate_at c (sf_pos hf)) (sf_name hf) (sw_dir w)) (<[i := sf_close hf]> (sw_files w)).

(** [run] gets to the operation for the file of number [k], if it is queued.  The
    operations come from goroutines, in any order. *)
Definition run_actor (w : SegmentWAL) (k : Z) : SegmentWAL :=
  if decide (k ∈ sw_actorc w) then
    let w := with_actorc w (filter (fun j => j <> k) (sw_actorc w)) in
    match list_find (fun f => sf_name f = k) (sw_files w) with
    | Some (i, hf) => finish_segment w i hf
    | None => w
    end
  else w.

(** The three writes of [writeTo]; the checksum covers the first two. *)
Definition entry_header (t flag : Z) (buf : list Z) : list Z := [t; flag] ++ PutUint32 (u32 (zlen buf)).
Definition writeTo {W} (wr : W -> list Z -> W) (w : W) (t flag : Z) (buf : list Z) : W * Z :=
  if zlen buf =? 0 then (w, 0)
  else
    let b := entry_header t flag buf in
    let sum := PutUint32 (crc32 (b ++ buf)) in
    (wr (wr (wr w b) buf) sum, zlen b + zlen buf + zlen sum).

Definition sw_write (w : SegmentWAL) (t flag : Z) (buf : list Z) : SegmentWAL :=
  let sz := zlen buf + 6 in
  let newsz := sw_curN w + sz in
  let w :=
    if match sw_cur w with None => true | Some _ => false end ||
       (sw_segmentSize w <? sw_curN w) || (sw_segmentSize w <? newsz) && (sz <=? sw_segmentSize w)
    then sw_cut w else w in
  let '(w, n) := writeTo cur_write w t flag buf in
  with_cur w (sw_cur w) (sw_curN w + n).

Definition upd_head (w : SegmentWAL) (g : segmentFile -> segmentFile) : SegmentWAL :=
  match sw_head w with None => w | Some f => sw_with w (sw_dir w) (set_head w (g f)) end.

(** The loops that note the references and times of a file. *)
Definition see_series (f : segmentFile) (series : list RefSeries) : segmentFile :=
  foldl (fun f s => if rs_Ref s <? sf_minSeries f then sf_seen f (sf_maxTime f) (rs_Ref s) else f) f series.
Definition see_time (f : segmentFile) (t : Z) : segmentFile :=
  if sf_maxTime f <? t then sf_seen f t (sf_minSeries f) else f.
Definition see_samples (f : segmentFile) (samples : list RefSample) : segmentFile :=
  foldl (fun f s => see_time f (s_T s)) f samples.
Definition see_stones (f : segmentFile) (stones : list Stone) : segmentFile :=
  foldl (fun f s => foldl (fun f iv => see_time f (Maxt iv)) f (st_intervals s)) f stones.

Definition LogSeries (w : SegmentWAL) (series : list RefSeries) : SegmentWAL :=
  upd_head (sw_write w WALEntrySeries walSeriesSimple (encodeSeries series)) (fun f => see_series f series).
Definition LogSamples (w : SegmentWAL) (samples : list RefSample) : SegmentWAL :=
  upd_head (sw_write w WALEntrySamples walSamplesSimple (encodeSamples samples)) (fun f => see_samples f samples).
Definition LogDeletes (w : SegmentWAL) (stones : list Stone) : SegmentWAL :=
  upd_head (sw_write w WALEntryDeletes walDeletesSimple (encodeDeletes stones)) (fun f => see_stones f stones).

Definition Sync (w : SegmentWAL) : SegmentWAL := sw_flush w.

(** [Close]: once more, it does nothing.  What is still queued is not waited for. *)
Definition sw_Close (w : SegmentWAL) : SegmentWAL * option error :=
  if sw_closed w then (w, None)
  else
    let w := sw_flush w in
    let w := mkSegmentWAL (sw_dir w) (sw_files w) (sw_segmentSize w) (sw_cur w) (sw_curN w) true (sw_actorc w) in
    match sw_head w with
    | None => (w, None)
    | Some f => if sf_open f then (upd_head w sf_close, None) else (w, Some ErrClosed)
    end.

(** * Reading *)

(** An error, or a [walCorruptionErr] with the file and the offset after the last
    valid entry. *)
Inductive walErr :=
| PlainErr (e : error)
| walCorruptionErr (e : error) (file : Z) (lastOffset : Z).

(** [walReader]; its files are those of the log. *)
Record walReader := mkWalReader {
  lr_files : list segmentFile; lr_cur : Z; lr_lastOffset : Z; lr_err : option walErr }.

Definition newWALReader (files : list segmentFile) : walReader := mkWalReader files 0 0 None.

Definition lr_set (r : walReader) (f : segmentFile) : walReader :=
  mkWalReader (<[Z.to_nat (lr_cur r) := f]> (lr_files r)) (lr_cur r) (lr_lastOffset r) (lr_err r).
Definition lr_fail (r : walReader) (e : walErr) : walReader :=
  mkWalReader (lr_files r) (lr_cur r) (lr_lastOffset r) (Some e).

Definition corruptionErr (r : walReader) (msg : string) : walErr :=
  walCorruptionErr (ErrMsg msg) (lr_cur r) (lr_lastOffset r).

(** [entry] on the file [f] with contents [c]: type, flag and body. *)
Definition entry (r : walReader) (c : list Z) (f : segmentFile) : segmentFile * (walErr + Z * Z * list Z) :=
  let '(b, f, e) := f_Read c f 6 in
  match e with
  | Some e => (f, inl (PlainErr e))
  | None =>
      if negb (zlen b =? 6) then (f, inl (corruptionErr r "invalid entry header size"))
      else
        let etype := nth 0 b 0 in
        let flag := nth 1 b 0 in
        let length := be_val (drop 2 b) in
        if etype =? 0 then (f, inl (PlainErr EOF))
        else if negb (etype =? WALEntrySeries) && negb (etype =? WALEntrySamples) && negb (etype =? WALEntryDeletes)
        then (f, inl (corruptionErr r "invalid entry type"))
        else
          let '(buf, f, e) := f_Read c f length in
          match e with
          | Some e => (f, inl (PlainErr e))
          | None =>
              if negb (zlen buf =? length) then (f, inl (corruptionErr r "invalid entry body size"))
              else
                let '(s, f, e) := f_Read c f 4 in
                match e with
                | Some e => (f, inl (PlainErr e))
                | None =>
                    if negb (zlen s =? 4) then (f, inl (corruptionErr r "invalid checksum length"))
                    else if negb (crc32 (b ++ buf) =? be_val s)
                    then (f, inl (corruptionErr r "unexpected CRC32 checksum"))
                    else (f, inr (etype, flag, buf))
                end
          end
  end.

(** [next], which calls itself on the next file: [fuel] is the number of files. *)
Fixpoint lr_next (fuel : nat) (dir : directory) (r : walReader) : option (Z * Z * list Z) * walReader :=
  match lr_files r !! Z.to_nat (lr_cur r) with
  | None => (None, r)
  | Some cf =>
      if negb (sf_open cf) then (None, lr_fail r (PlainErr ErrClosed))
      else
        let r := mkWalReader (lr_files r) (lr_cur r) (sf_pos cf) None in
        let '(cf, e) := entry r (default [] (dir !! sf_name cf)) cf in
        let r := lr_set r cf in
        match e with
        | inl (PlainErr EOF) =>
            if lr_cur r =? zlen (lr_files r) - 1 then (None, r)
            else
              let r := lr_set r (sf_close cf) in
              let r := mkWalReader (lr_files r) (lr_cur r + 1) (lr_lastOffset r) (lr_err r) in
              match fuel with O => (None, r) | S fuel => lr_next fuel dir r end
        | inl e => (None, lr_fail r e)
        | inr x => (Some x, r)
        end
  end.

(** ** Decoding the body of an entry *)

Definition decodeSeries (b : list Z) : res (list RefSeries) := dec_all dec_series (mk_decbuf b None) [].

Definition decodeSamples (b : list Z) : res (list RefSample) :=
  if zlen b =? 0 then Ok []
  else
    let? (baseRef, d) := d_be64 (mk_decbuf b None) in
    let? (baseTime, d) := d_be64int64 d in
    dec_all (dec_sample baseRef baseTime) d [].

Definition decodeDeletes (b : list Z) : res (list Stone) := dec_all dec_stone (mk_decbuf b None) [].

(** What the callbacks of [Read] are called with. *)
Inductive walData :=
| SeriesData (series : list RefSeries)
| SamplesData (samples : list RefSample)
| DeletesData (stones : list Stone).

(** An entry: its data, and what the file notes of them. *)
Definition decode_entry (et : Z) (b : list Z) (f : segmentFile) : res (option walData * segmentFile) :=
  if et =? WALEntrySeries then
    let? series := decodeSeries b in Ok (Some (SeriesData series), see_series f series)
  else if et =? WALEntrySamples then
    let? samples := decodeSamples b in Ok (Some (SamplesData samples), see_samples f samples)
  else if et =? WALEntryDeletes then
    let? stones := decodeDeletes b in Ok (Some (DeletesData stones), see_stones f stones)
  else Ok (None, f).

(** The loop of [Read], with the variable [err]: an entry that can be decoded sets
    it to nil again.  Each round reads a byte at least. *)
Fixpoint read_loop (fuel : nat) (dir : directory) (r : walReader) (err : option error) :
    res (list walData * walReader * option error) :=
  match fuel with
  | O => Err out_of_fuel
  | S fuel =>
      match lr_next (length (lr_files r)) dir r with
      | (None, r) => Ok ([], r, err)
      | (Some (et, flag, b), r) =>
          match lr_files r !! Z.to_nat (lr_cur r) with
          | None => Panic
          | Some cf =>
              match decode_entry et b cf with
              | Panic => Panic
              | Err e => read_loop fuel dir r (Some e)
              | Ok (d, cf) =>
                  let? (ds, r, err) := read_loop fuel dir (lr_set r cf) (if d then None else err) in
                  Ok (option_list d ++ ds, r, err)
              end
          end
      end
  end.

Definition dir_size (dir : directory) : nat := length (mjoin (snd <$> map_to_list dir)).

Definition lr_Read (dir : directory) (r : walReader) : res (list walData * walReader * option walErr) :=
  let? (ds, r, err) := read_loop (S (dir_size dir)) dir r None in
  Ok (ds, r, match err with Some e => Some (PlainErr e) | None => lr_err r end).

(** The files after the corrupted one are closed and removed. *)
Fixpoint remove_files (dir : directory) (fs : list segmentFile) : directory * option error :=
  match fs with
  | [] => (dir, None)
  | f :: fs => if sf_open f then remove_files (delete (sf_name f) dir) fs else (dir, Some ErrClosed)
  end.

(** [SegmentWAL.truncate]: the handle of [file] moves to the last valid offset. *)
Definition sw_truncate (w : SegmentWAL) (file lastOffset : Z) : SegmentWAL * option error :=
  let k := Z.to_nat file in
  match remove_files (sw_dir w) (drop (S k) (sw_files w)) with
  | (dir, Some e) => (sw_with w dir (sw_files w), Some e)
  | (dir, None) =>
      let files := take (S k) (sw_files w) in
      match files !! k with
      | Some f => if sf_open f then (sw_with w dir (<[k := sf_seek f lastOffset]> files), None)
                  else (sw_with w dir files, Some ErrClosed)
      | None => (sw_with w dir files, None)
      end
  end.

(** [repairingWALReader.Read] on the log's files. *)
Definition sw_Read (w : SegmentWAL) : res (list walData * SegmentWAL * option error) :=
  let? (ds, r, err) := lr_Read (sw_dir w) (newWALReader (sw_files w)) in
  let w := sw_with w (sw_dir w) (lr_files r) in
  match err with
  | None => Ok (ds, w, None)
  | Some (walCorruptionErr _ file lastOffset) =>
      let '(w, e) := sw_truncate w file lastOffset in Ok (ds, w, e)
  | Some (PlainErr e) => Ok (ds, w, Some e)
  end.

(** * Truncation *)

(** The loop over the closed files: it stops at the first one with a time that is
    not before [mint].  The files it passes are opened again. *)
Fixpoint select_candidates (dir : directory) (mint : Z) (fs : list segmentFile) : res (list segmentFile) :=
  match fs with
  | [] => Ok []
  | sf :: fs =>
      if mint <=? sf_maxTime sf then Ok []
      else
        let? pos := openSegmentFile dir (sf_name sf) in
        let? cs := select_candidates dir mint fs in
        Ok (mkSegmentFile (sf_name sf) true pos (sf_maxTime sf) (sf_minSeries sf) :: cs)
  end.

(** A write to the new file, its contents and position. *)
Definition file_write (f : list Z * Z) (b : list Z) : list Z * Z := (write_at (fst f) (snd f) b, snd f + zlen b).

(** The entries of the candidates: of the series, those that [keep] keeps are
    written to the new file. *)
Fixpoint compact_loop (fuel : nat) (dir : directory) (keep : Z -> bool) (r : walReader) (out : list Z * Z) :
    res (walReader * (list Z * Z)) :=
  match fuel with
  | O => Err out_of_fuel
  | S fuel =>
      match lr_next (length (lr_files r)) dir r with
      | (None, r) => Ok (r, out)
      | (Some (rt, flag, byt), r) =>
          if negb (rt =? WALEntrySeries) then compact_loop fuel dir keep r out
          else
            let? decSeries := decodeSeries byt in
            let activeSeries := filter (fun s => keep (rs_Ref s) = true) decSeries in
            let '(out, _) := writeTo file_write out WALEntrySeries walSeriesSimple (encodeSeries activeSeries) in
            compact_loop fuel dir keep r out
      end
  end.

Definition err_of (e : walErr) : error := match e with PlainErr e => e | walCorruptionErr e _ _ => e end.

(** [Truncate].  The new file replaces the first candidate.  What is queued for the
    candidates then concerns files that have no name any more. *)
Definition sw_Truncate (w : SegmentWAL) (mint : Z) (keep : Z -> bool) : res SegmentWAL :=
  if (length (sw_files w) <? 2)%nat then Ok w
  else
    let? candidates := select_candidates (sw_dir w) mint (take (length (sw_files w) - 1) (sw_files w)) in
    match candidates with
    | [] => Ok w
    | c0 :: cs =>
        let f := (createSegmentFile (sw_segmentSize w), 8) in
        let? (r, f) := compact_loop (S (dir_size (sw_dir w))) (sw_dir w) keep (newWALReader candidates) f in
        match lr_err r with
        | Some e => Err (err_of e)
        | None =>
            let data := truncate_at (fst f) (snd f) in
            let dir := <[sf_name c0 := data]> (sw_dir w) in
            let dir := foldl (fun dir c => delete (sf_name c) dir) dir cs in
            let? pos := openSegmentFile dir (sf_name c0) in
            let csf := sf_close (newSegmentFile (sf_name c0) pos) in
            let queue := filter (fun k => k ∉ sf_name <$> candidates) (sw_actorc w) in
            Ok (with_actorc (sw_with w dir (csf :: drop (length candidates) (sw_files w))) queue)
        end
    end.

(** * The interface and its empty implementation *)

(** The [WAL] interface of this file; [Reader().Read] is one operation. *)
Class LegacyWAL (W : Type) := {
  wl_Read : W -> res (list walData * W * option error);
  wl_LogSeries : W -> list RefSeries -> W * option error;
  wl_LogSamples : W -> list RefSample -> W * option error;
  wl_LogDeletes : W -> list Stone -> W * option error;
  wl_Truncate : W -> Z -> (Z -> bool) -> res W;
  wl_Close : W -> W * option error;
}.

#[export] Instance segment_wal : LegacyWAL SegmentWAL := {|
  wl_Read := sw_Read;
  wl_LogSeries w l := (LogSeries w l, None);
  wl_LogSamples w l := (LogSamples w l, None);
  wl_LogDeletes w l := (LogDeletes w l, None);
  wl_Truncate := sw_Truncate;
  wl_Close := sw_Close;
|}.

Inductive nopWAL := NopWAL.

#[export] Instance nop_wal : LegacyWAL nopWAL := {|
  wl_Read w := Ok ([], w, None);
  wl_LogSeries w _ := (w, None);
  wl_LogSamples w _ := (w, None);
  wl_LogDeletes w _ := (w, None);
  wl_Truncate w _ _ := Ok w;
  wl_Close w := (w, None);
|}.

(** * Migration *)

(** The first four bytes of the first file, with zeros for those it does not have. *)
Definition deprecatedWALExists (dir : directory) : bool :=
  match sequenceFiles dir with
  | [] => false
  | fn :: _ =>
      let c := default [] (dir !! fn) in
      be_val (take 4 (c ++ [0; 0; 0; 0])) =? WALMagic
  end.

Definition encode_data (d : walData) : list Z :=
  match d with
  | SeriesData s => Enc_Series s []
  | SamplesData s => Enc_Samples s []
  | DeletesData s => Enc_Tombstones s []
  end.

(** The callbacks: after an error nothing is logged. *)
Fixpoint log_all (repl : wal) (ds : list walData) : res (wal * option error) :=
  match ds with
  | [] => Ok (repl, None)
  | d :: ds =>
      match Log repl [encode_data d] with
      | Ok repl => log_all repl ds
      | Err e => Ok (repl, Some e)
      | Panic => Panic
      end
  end.

(** [MigrateWAL]: the directory after it, and the error.  An error of reading the
    old log is returned as [errors.Wrap(err, _)] with the error of writing the new
    one, which is nil when that is nil. *)
Definition MigrateWAL (dir : directory) : res (directory * option error) :=
  if negb (deprecatedWALExists dir) then Ok (dir, None)
  else
    let? repl := NewSize ∅ defaultSegmentSize in
    let w := OpenSegmentWAL dir walSegmentSizeBytes in
    let? (ds, w, decErr) := sw_Read w in
    let? (repl, err) := log_all repl ds in
    match decErr with
    | Some _ => Ok (sw_dir (fst (sw_Close w)), err)
    | None =>
        match err with
        | Some e => Ok (sw_dir (fst (sw_Close w)), Some e)
        | None =>
            match sw_Close w with
            | (w, Some e) => Ok (sw_dir w, Some e)
            | (w, None) =>
                match Wal.Close repl with
                | Ok new => Ok (new, None)
                | Err e => Ok (sw_dir w, Some e)
                | Panic => Panic
                end
            end
        end
    end.

(** * Examples *)

Definition example_log (w : SegmentWAL) : SegmentWAL :=
  LogDeletes (LogSamples (LogSeries w [mkRefSeries 1 [("a", "b")]%string; mkRefSeries 2 []])
                [mkRefSample 1 10 5; mkRefSample 2 20 6]) [mkStone 1 [mkInterval 0 5; mkInterval 7 30]].

Definition example_data : list walData :=
  [SeriesData [mkRefSeries 1 [("a", "b")]%string; mkRefSeries 2 []];
   SamplesData [mkRefSample 1 10 5; mkRefSample 2 20 6];
   DeletesData [mkStone 1 [mkInterval 0 5]; mkStone 1 [mkInterval 7 30]]].

Definition example_read (dir : directory) : res (list walData * list (Z * Z) * option error) :=
  let? (ds, w, e) := sw_Read (OpenSegmentWAL dir 100) in
  Ok (ds, (fun kv => (fst kv, zlen (snd kv))) <$> sort_by fst Z.compare (map_to_list (sw_dir w)), e).

(** Three entries do not fit into a segment of a hundred bytes; the first file is finished
    when the background gets to it. *)
Example legacy_log_example :
  example_read (sw_dir (fst (sw_Close (example_log (OpenSegmentWAL ∅ 100))))) =
    Ok (example_data, [(1, 100); (2, 100)], None) /\
  example_read (sw_dir (fst (sw_Close (run_actor (example_log (OpenSegmentWAL ∅ 100)) 1)))) =
    Ok (example_data, [(1, 86); (2, 100)], None).
Proof. split; by vm_compute. Qed.

Example migrate_example :
  (let? (dir, e) := MigrateWAL (sw_dir (fst (sw_Close (example_log (OpenSegmentWAL ∅ 100))))) in
   let? rd := NewSegmentsReader dir in
   let '(recs, r) := read_all_records rd in
   Ok (recs, r_Err r, e)) = Ok (encode_data <$> example_data, None, None).
Proof. by vm_compute. Qed.
