(* ===== verification/LegacyWalSpec.v ===== *)
(** Reading the legacy log of wal.go: the entries, the files with the data in them and
    what follows the data, and the reader, which gives all data up to the first
    damage. *)
From S2P Require Import Prelude Bits Varint Crc32 EncBuf Order Files Labels Tombstones Records Head Wal WalSpec WalLog LegacyWal.
#[local] Open Scope list_scope.
#[local] Open Scope Z_scope.

(** * Entries *)

(** What is at the end of a file: nothing more, something damaged, or an entry; and
    how many bytes are read to see it. *)
Inductive scan_result := SEnd | SBad (msg : string) | SEntry (t flag : Z) (body : list Z).

Definition known_type (t : Z) : bool := (t =? WALEntrySeries) || (t =? WALEntrySamples) || (t =? WALEntryDeletes).

Definition scan (l : list Z) : Z * scan_result :=
  let b := take 6 l in
  if zlen b =? 0 then (0, SEnd)
  else if negb (zlen b =? 6) then (zlen b, SBad "invalid entry header size")
  else if nth 0 b 0 =? 0 then (6, SEnd)
  else if negb (known_type (nth 0 b 0)) then (6, SBad "invalid entry type")
  else
    let n := be_val (drop 2 b) in
    let buf := take (Z.to_nat n) (drop 6 l) in
    if (0 <? n) && (zlen buf =? 0) then (6, SEnd)
    else if negb (zlen buf =? n) then (6 + zlen buf, SBad "invalid entry body size")
    else
      let s := take 4 (drop (6 + length buf) l) in
      if zlen s =? 0 then (6 + zlen buf, SEnd)
      else if negb (zlen s =? 4) then (6 + zlen buf + zlen s, SBad "invalid checksum length")
      else if negb (crc32 (b ++ buf) =? be_val s) then (6 + zlen buf + 4, SBad "unexpected CRC32 checksum")
      else (6 + zlen buf + 4, SEntry (nth 0 b 0) (nth 1 b 0) buf).

Lemma sf_seek_seek f p q : sf_seek (sf_seek f p) q = sf_seek f q.
Proof. done. Qed.

Lemma sf_seek_same f : sf_seek f (sf_pos f) = f.
Proof. by destruct f. Qed.

(** Equality of the results of two reads that end at the same position. *)
#[local] Ltac seek_eq :=
  unfold sf_seek; cbn [sf_name sf_open sf_pos sf_maxTime sf_minSeries];
  match goal with |- (mkSegmentFile _ _ ?p _ _, _) = (mkSegmentFile _ _ ?q _ _, _) =>
    replace p with q by lia; reflexivity end.

Lemma drop_seek (c : list Z) p k : 0 <= p -> 0 <= k -> drop (Z.to_nat (p + k)) c = drop (Z.to_nat k) (drop (Z.to_nat p) c).
Proof. intros ??. rewrite drop_drop. f_equal. lia. Qed.

Lemma zlen_eqb {A} (l : list A) k : (zlen l =? Z.of_nat k) = (length l =? k)%nat.
Proof. unfold zlen. destruct (Z.eqb_spec (Z.of_nat (length l)) (Z.of_nat k)), (Nat.eqb_spec (length l) k); (done || lia). Qed.

(** [entry] is [scan] on what is left of the file. *)
Lemma entry_scan r c f :
  sf_open f = true -> 0 <= sf_pos f ->
  let '(k, s) := scan (drop (Z.to_nat (sf_pos f)) c) in
  entry r c f = (sf_seek f (sf_pos f + k),
    match s with
    | SEnd => inl (PlainErr EOF)
    | SBad msg => inl (corruptionErr r msg)
    | SEntry t flag body => inr (t, flag, body)
    end).
Proof.
  intros Ho Hp. unfold scan, entry, f_Read. rewrite Ho. cbn [negb].
  set (l := drop (Z.to_nat (sf_pos f)) c). change (Z.to_nat 6) with 6%nat. set (b := take 6 l).
  change (0 <? 6) with true. cbn [andb].
  destruct (Z.eqb_spec (zlen b) 0) as [E0|E0]; [by rewrite E0|].
  destruct (Z.eqb_spec (zlen b) 6) as [E6|E6]; cbn [negb]; [|done]. rewrite E6.
  destruct (Z.eqb_spec (nth 0 b 0) 0) as [|Et]; [done|].
  assert (forall x y z, negb x && negb y && negb z = negb (x || y || z)) as -> by by intros [] [] [].
  fold (known_type (nth 0 b 0)). destruct (known_type (nth 0 b 0)); cbn [negb]; [|done].
  cbn [sf_seek sf_open sf_pos sf_name sf_maxTime sf_minSeries]. rewrite Ho. cbn [negb].
  rewrite (drop_seek c (sf_pos f) 6) by lia. fold l. change (Z.to_nat 6) with 6%nat.
  set (n := be_val (drop 2 b)). set (buf := take (Z.to_nat n) (drop 6 l)).
  destruct ((0 <? n) && (zlen buf =? 0)) eqn:En.
  { apply andb_prop in En as [_ E]. apply Z.eqb_eq in E. rewrite E. seek_eq. }
  destruct (Z.eqb_spec (zlen buf) n) as [Eb|Eb]; cbn [negb].
  2:{ seek_eq. }
  cbn [sf_seek sf_open sf_pos sf_name sf_maxTime sf_minSeries].
  rewrite Ho. cbn [negb].
  replace (drop (Z.to_nat (sf_pos f + 6 + zlen buf)) c) with (drop (6 + length buf) l).
  2:{ unfold l. rewrite drop_drop. f_equal. unfold zlen. lia. }
  change (Z.to_nat 4) with 4%nat. set (s := take 4 (drop (6 + length buf) l)). change (0 <? 4) with true. cbn [andb].
  destruct (Z.eqb_spec (zlen s) 0) as [Es|Es].
  { rewrite Es. seek_eq. }
  destruct (Z.eqb_spec (zlen s) 4) as [E4|E4]; cbn [negb]; [rewrite E4|].
  2:{ seek_eq. }
  destruct (crc32 (b ++ buf) =? be_val s); cbn [negb]; seek_eq.
Qed.

(** ** The entries of data *)

Definition data_type (d : walData) : Z :=
  match d with SeriesData _ => WALEntrySeries | SamplesData _ => WALEntrySamples | DeletesData _ => WALEntryDeletes end.

Definition data_body (d : walData) : list Z :=
  match d with
  | SeriesData s => encodeSeries s
  | SamplesData s => encodeSamples s
  | DeletesData s => encodeDeletes s
  end.

Definition entry_bytes (t flag : Z) (body : list Z) : list Z :=
  let b := entry_header t flag body in b ++ body ++ PutUint32 (crc32 (b ++ body)).

Definition data_bytes (d : walData) : list Z := entry_bytes (data_type d) 1 (data_body d).

(** Data that an entry holds: not empty, one interval per stone. *)
Definition data_wf (d : walData) : Prop :=
  match d with
  | SeriesData s => s <> [] /\ Forall series_ok s
  | SamplesData s => s <> [] /\ Forall sample_ok s
  | DeletesData s => s <> [] /\ Forall (fun st => stone_wf st /\ length (st_intervals st) = 1%nat) s
  end.

Definition data_ok (d : walData) : Prop := data_wf d /\ zlen (data_body d) < 2 ^ 32.

Lemma encodeSeries_bytes s : encodeSeries s = mjoin (series_bytes <$> s).
Proof. unfold encodeSeries, e_get. by rewrite (foldl_enc _ series_bytes) by apply enc_series_app. Qed.

Lemma encodeSamples_bytes first s :
  encodeSamples (first :: s) = PutUint64 (s_Ref first) ++ PutUint64 (u64 (s_T first)) ++ mjoin (sample_bytes first <$> first :: s).
Proof.
  unfold encodeSamples, e_get. rewrite (foldl_enc _ (sample_bytes first)) by apply enc_sample_app.
  cbn [eb putBE64int64 putBE64 app]. by rewrite <- (assoc_L (++)).
Qed.

Lemma encodeDeletes_bytes s : encodeDeletes s = mjoin (stone_enc <$> s).
Proof. unfold encodeDeletes, e_get. by rewrite (foldl_enc _ stone_enc) by (intros; apply foldl_enc, enc_interval_app). Qed.

(** Stones are written one interval at a time. *)
Lemma encodeDeletes_split s : encodeDeletes s = encodeDeletes (s ≫= split_stone).
Proof. rewrite !encodeDeletes_bytes. apply stones_enc_split. Qed.

Lemma Forall_interval_bytes ref iv : Forall is_byte (interval_bytes ref iv).
Proof.
  unfold interval_bytes, PutVarint, PutUint64.
  auto using Forall_app_2, Forall_be_bytes, Forall_PutUvarint.
Qed.

Lemma data_body_byte d : Forall is_byte (data_body d).
Proof.
  destruct d as [s|[|first s]|s]; cbn [data_body].
  - rewrite encodeSeries_bytes. apply Forall_mjoin_fmap, Forall_series_bytes.
  - constructor.
  - rewrite encodeSamples_bytes. unfold PutUint64.
    do 2 (apply Forall_app_2; [apply Forall_be_bytes|]). apply Forall_mjoin_fmap, Forall_sample_bytes.
  - rewrite encodeDeletes_bytes. apply Forall_mjoin_fmap. intros st. apply Forall_mjoin_fmap, Forall_interval_bytes.
Qed.

Lemma data_body_nonempty d : data_wf d -> data_body d <> [].
Proof.
  destruct d as [[|s0 s]|[|s0 s]|[|[r [|iv ivs]] s]]; cbn [data_wf data_body]; intros [Hne Hs]; try congruence.
  - by rewrite encodeSeries_bytes.
  - by rewrite encodeSamples_bytes.
  - by apply Forall_inv in Hs as [_ ?].
  - by rewrite encodeDeletes_bytes.
Qed.

Lemma data_type_known d : known_type (data_type d) = true.
Proof. by destruct d. Qed.

Lemma data_type_nonzero d : data_type d <> 0.
Proof. by destruct d. Qed.

Lemma scan_entry d rest : data_ok d ->
  scan (data_bytes d ++ rest) = (zlen (data_bytes d), SEntry (data_type d) 1 (data_body d)).
Proof.
  intros [Hwf Hlen]. pose proof (data_body_nonempty d Hwf) as Hne. pose proof (data_body_byte d) as Hb.
  pose proof (data_type_known d) as Hk. pose proof (data_type_nonzero d) as Hz.
  unfold data_bytes, entry_bytes. set (body := data_body d) in *. set (t := data_type d) in *.
  assert (Hh : length (entry_header t 1 body) = 6%nat) by done.
  assert (Hpos : 0 < zlen body) by (unfold zlen; destruct body; cbn; [done|lia]).
  set (h := entry_header t 1 body) in *. set (sum := PutUint32 (crc32 (h ++ body))).
  assert (Hs : length sum = 4%nat) by done.
  assert (Hv : be_val (drop 2 h) = zlen body).
  { unfold h, entry_header. change (drop 2 ([t; 1] ++ ?x)) with x. unfold PutUint32.
    rewrite be_val_be_bytes. unfold u32. change (8 * Z.of_nat 4) with 32. zlia. }
  unfold scan. rewrite <- !(assoc_L (++)). rewrite (take_app_length' h) by done.
  replace (zlen h) with 6 by (unfold zlen; by rewrite Hh). cbn [Z.eqb Pos.eqb negb].
  change (nth 0 h 0) with t. rewrite (proj2 (Z.eqb_neq t 0)) by done. rewrite Hk. cbn [negb].
  rewrite Hv, (drop_app_length' h) by done. change (nth 1 h 0) with 1.
  rewrite (take_app_length' body) by (unfold zlen; lia).
  rewrite (proj2 (Z.eqb_neq (zlen body) 0)) by lia. rewrite andb_false_r, Z.eqb_refl. cbn [negb].
  replace (drop (6 + length body) (h ++ body ++ sum ++ rest)) with (sum ++ rest).
  2:{ rewrite (assoc_L (++) h). symmetry. apply drop_app_length'. rewrite length_app. lia. }
  rewrite (take_app_length' sum) by done.
  replace (zlen sum) with 4 by (unfold zlen; by rewrite Hs). cbn [Z.eqb Pos.eqb negb].
  assert (be_val sum = crc32 (h ++ body)) as ->.
  { unfold sum, PutUint32. rewrite be_val_be_bytes. change (8 * Z.of_nat 4) with 32. unfold u32.
    pose proof (crc32_range (h ++ body)) as Hc. rewrite Z.mod_small; [done|]. apply Hc, Forall_app_2; [|done].
    unfold h, entry_header, PutUint32. apply Forall_app_2; [|apply Forall_be_bytes].
    repeat constructor; (done || by destruct d). }
  rewrite Z.eqb_refl. cbn [negb]. f_equal. rewrite !zlen_app.
  unfold zlen. rewrite Hh, Hs. lia.
Qed.

(** What is left of an end is an end. *)
Lemma scan_range l : 0 <= fst (scan l) <= zlen l.
Proof.
  unfold scan. pose proof (zlen_nonneg l). pose proof (length_take l 6).
  set (b := take 6 l) in *. set (buf := take (Z.to_nat (be_val (drop 2 b))) (drop 6 l)).
  assert (length buf <= length l - 6)%nat by (unfold buf; rewrite length_take, length_drop; lia).
  set (s := take 4 (drop (6 + length buf) l)).
  assert (length s <= length l - (6 + length buf))%nat by (unfold s; rewrite length_take, length_drop; lia).
  destruct (Z.eqb_spec (zlen b) 0); [cbn [fst]; lia|]. destruct (Z.eqb_spec (zlen b) 6); cbn [negb]; [|cbn [fst]; unfold zlen in *; lia].
  destruct (_ =? 0); [cbn [fst]; unfold zlen in *; lia|]. destruct (negb (known_type _)); [cbn [fst]; unfold zlen in *; lia|].
  destruct (_ && _); [cbn [fst]; unfold zlen in *; lia|]. destruct (negb _); [cbn [fst]; unfold zlen in *; lia|].
  destruct (Z.eqb_spec (zlen s) 0); [cbn [fst]; unfold zlen in *; lia|].
  destruct (Z.eqb_spec (zlen s) 4); cbn [negb]; [|cbn [fst]; unfold zlen in *; lia].
  destruct (negb _); cbn [fst]; unfold zlen in *; lia.
Qed.

Definition quiet (l : list Z) : bool := match snd (scan l) with SEnd => true | _ => false end.
Definition damaged (l : list Z) : bool := match snd (scan l) with SBad _ => true | _ => false end.

Lemma quiet_nil : quiet [] = true.
Proof. done. Qed.

Lemma quiet_zeros n : n = 0%nat \/ (6 <= n)%nat -> quiet (zeros n) = true.
Proof. intros [->|H]; [done|]. by do 6 (destruct n as [|n]; [lia|]). Qed.

Lemma zeros_no_entry n : quiet (zeros n) || damaged (zeros n) = true.
Proof. by do 6 (destruct n as [|n]; [done|]). Qed.

Lemma quiet_take l : quiet l = true -> quiet (take (Z.to_nat (fst (scan l))) l) = true.
Proof.
  unfold quiet. unfold scan at 1 3.
  set (b := take 6 l). set (buf := take (Z.to_nat (be_val (drop 2 b))) (drop 6 l)).
  set (s := take 4 (drop (6 + length buf) l)).
  destruct (Z.eqb_spec (zlen b) 0); [done|]. destruct (Z.eqb_spec (zlen b) 6) as [E6|]; cbn [negb]; [|done].
  assert (E6' : length b = 6%nat) by (unfold zlen in E6; lia).
  destruct (Z.eqb_spec (nth 0 b 0) 0) as [Et|Et].
  { intros _. cbn [fst]. change (Z.to_nat 6) with 6%nat. fold b. unfold scan.
    rewrite (take_ge b 6) by lia. rewrite E6. cbn [Z.eqb Pos.eqb negb]. by rewrite Et. }
  destruct (known_type (nth 0 b 0)) eqn:Ek; cbn [negb]; [|done].
  destruct (_ && _) eqn:Eb.
  { intros _. cbn [fst]. change (Z.to_nat 6) with 6%nat. fold b. unfold scan.
    rewrite (take_ge b 6) by lia. rewrite E6. cbn [Z.eqb Pos.eqb negb].
    rewrite (proj2 (Z.eqb_neq _ _) Et), Ek. cbn [negb].
    apply andb_prop in Eb as [-> _]. by rewrite (drop_ge b 6), take_nil by lia. }
  destruct (Z.eqb_spec (zlen buf) (be_val (drop 2 b))) as [En|]; cbn [negb]; [|done].
  destruct (Z.eqb_spec (zlen s) 0) as [Es|]; cbn [negb].
  2:{ destruct (negb _); [done|]. by destruct (negb _). }
  intros _. cbn [fst].
  assert (Hl : take (Z.to_nat (6 + zlen buf)) l = b ++ buf).
  { replace (Z.to_nat (6 + zlen buf)) with (6 + length buf)%nat by (unfold zlen; lia).
    rewrite <- take_take_drop. fold b. f_equal. unfold buf.
    generalize (Z.to_nat (be_val (drop 2 b))) (drop 6 l). intros k D.
    rewrite <- (take_drop k D) at 2. apply take_app_length. }
  rewrite Hl. unfold scan. rewrite (take_app_length' b) by done. rewrite E6. cbn [Z.eqb Pos.eqb negb].
  rewrite (proj2 (Z.eqb_neq _ _) Et), Ek. cbn [negb]. rewrite (drop_app_length' b) by done.
  rewrite <- En. rewrite (take_ge buf) by (unfold zlen; lia).
  rewrite En in Eb |- *. rewrite Eb, Z.eqb_refl. cbn [negb].
  rewrite drop_ge by (rewrite length_app; lia). done.
Qed.

(** ** Decoding *)

(** The times of data are at most [m]. *)
Definition data_until (m : Z) (d : walData) : Prop :=
  match d with
  | SeriesData _ => True
  | SamplesData s => Forall (fun x => s_T x <= m) s
  | DeletesData s => Forall (fun st => Forall (fun iv => Maxt iv <= m) (st_intervals st)) s
  end.

Lemma data_until_mono m m' d : m <= m' -> data_until m d -> data_until m' d.
Proof.
  intros Hm. destruct d as [s|s|s]; cbn; [done|intros H; eapply Forall_impl; [exact H|]; cbn; lia|].
  intros H; eapply Forall_impl; [exact H|]. intros st Hst. eapply Forall_impl; [exact Hst|]. cbn. lia.
Qed.

(** The file notes the times of its data. *)
Definition see_data (f : segmentFile) (d : walData) : segmentFile :=
  match d with SeriesData s => see_series f s | SamplesData s => see_samples f s | DeletesData s => see_stones f s end.

(** Same file and position, times not earlier. *)
Definition sees (f f' : segmentFile) : Prop :=
  sf_name f' = sf_name f /\ sf_open f' = sf_open f /\ sf_pos f' = sf_pos f /\ sf_maxTime f <= sf_maxTime f'.

#[export] Instance sees_preorder : PreOrder sees.
Proof. split; [intros f|intros f g h (? & ? & ? & ?) (? & ? & ? & ?)]; unfold sees; split_and!; (congruence || lia). Qed.

Lemma see_time_sees f t : sees f (see_time f t) /\ t <= sf_maxTime (see_time f t).
Proof. unfold see_time, sees, sf_seen. destruct (Z.ltb_spec (sf_maxTime f) t); cbn; split_and!; (done || lia). Qed.

Lemma foldl_sees {A} (g : segmentFile -> A -> segmentFile) (P : Z -> A -> Prop) l f :
  (forall f a, sees f (g f a) /\ P (sf_maxTime (g f a)) a) -> (forall m m' a, m <= m' -> P m a -> P m' a) ->
  sees f (foldl g f l) /\ Forall (P (sf_maxTime (foldl g f l))) l.
Proof.
  intros Hg Hm. revert f. induction l as [|a l IH]; intros f; cbn [foldl]; [split; [done|constructor]|].
  destruct (Hg f a) as [H1 H2]. destruct (IH (g f a)) as [H3 H4]. split; [by etransitivity|].
  constructor; [|done]. eapply Hm; [|exact H2]. apply H3.
Qed.

Lemma see_data_sees f d : sees f (see_data f d) /\ data_until (sf_maxTime (see_data f d)) d.
Proof.
  destruct d as [s|s|s]; cbn.
  - split; [|done]. apply (foldl_sees _ (fun _ _ => True)); [|done]. intros f' x.
    by destruct (_ <? _).
  - apply (foldl_sees _ (fun m x => s_T x <= m)); [intros; apply see_time_sees|lia].
  - apply (foldl_sees _ (fun m st => Forall (fun iv => Maxt iv <= m) (st_intervals st))).
    + intros f' st. apply (foldl_sees _ (fun m iv => Maxt iv <= m)); [intros; apply see_time_sees|lia].
    + intros m m' st Hm Hst. eapply Forall_impl; [exact Hst|]. cbn. lia.
Qed.

Lemma decode_series_ok s : Forall series_ok s -> decodeSeries (encodeSeries s) = Ok s.
Proof.
  intros Hs. unfold decodeSeries. rewrite encodeSeries_bytes.
  rewrite (dec_all_decodes dec_series series_bytes); [done|]. eapply Forall_impl; [exact Hs|].
  intros x ?. split; [by apply decodes_series|done].
Qed.

Lemma sample_bytes_nonempty first s : sample_bytes first s <> [].
Proof.
  unfold sample_bytes, PutVarint. pose proof (length_PutUvarint (zigzag (i64 (i64 (s_Ref s) - i64 (s_Ref first))))).
  by destruct (PutUvarint _); [cbn in *; lia|].
Qed.

Lemma decode_samples_ok s : Forall sample_ok s -> decodeSamples (encodeSamples s) = Ok s.
Proof.
  intros Hs. destruct s as [|first s]; [done|]. rewrite encodeSamples_bytes. unfold decodeSamples.
  pose proof (Forall_inv Hs) as (Hr & Ht & _).
  destruct (Z.eqb_spec (zlen (PutUint64 (s_Ref first) ++ PutUint64 (u64 (s_T first)) ++ mjoin (sample_bytes first <$> first :: s))) 0) as [E|_].
  { rewrite zlen_app in E. pose proof (zlen_nonneg (PutUint64 (u64 (s_T first)) ++ mjoin (sample_bytes first <$> first :: s))).
    change (zlen (PutUint64 (s_Ref first))) with 8 in E. lia. }
  rewrite (decodes_be64 (s_Ref first) Hr). cbn [res_bind]. rewrite (decodes_be64int64 (s_T first) Ht). cbn [res_bind].
  rewrite (dec_all_decodes _ (sample_bytes first)); [done|]. eapply Forall_impl; [exact Hs|]. intros x ?.
  split; [by apply decodes_sample|apply sample_bytes_nonempty].
Qed.

Lemma decode_deletes_ok s :
  Forall (fun st => stone_wf st /\ length (st_intervals st) = 1%nat) s -> decodeDeletes (encodeDeletes s) = Ok s.
Proof.
  intros Hs. unfold decodeDeletes. rewrite encodeDeletes_bytes.
  rewrite (dec_all_decodes dec_stone stone_enc); [done|]. eapply Forall_impl; [exact Hs|].
  intros [ref ivs] [[Hr Hi] Hl]. cbn in *. destruct ivs as [|iv [|? ?]]; try done.
  apply Forall_inv in Hi as [? ?]. unfold stone_enc; cbn. rewrite app_nil_r. split; [by apply decodes_dec_stone|done].
Qed.

Lemma decode_entry_ok d f : data_wf d -> decode_entry (data_type d) (data_body d) f = Ok (Some d, see_data f d).
Proof.
  destruct d as [s|s|s]; intros [_ Hs]; unfold decode_entry; cbn [data_type data_body Z.eqb WALEntrySeries WALEntrySamples WALEntryDeletes Pos.eqb].
  - by rewrite decode_series_ok.
  - by rewrite decode_samples_ok.
  - by rewrite decode_deletes_ok.
Qed.

(** * Directories *)

(** A segment file: its number, the data in it, and what follows them. *)
Record seg := mkSeg { sg_name : Z; sg_data : list walData; sg_tail : list Z }.

Definition stream (ds : list walData) : list Z := mjoin (data_bytes <$> ds).
Definition seg_bytes (s : seg) : list Z := meta_bytes ++ stream (sg_data s) ++ sg_tail s.
Definition dir_of (L : list seg) : directory := list_to_map ((fun s => (sg_name s, seg_bytes s)) <$> L).

(** The files have numbers in order, hold data, and then nothing or something damaged. *)
Definition segs_ok (L : list seg) : Prop :=
  increasing sg_name Z.compare L /\
  Forall (fun s => Forall data_ok (sg_data s) /\ quiet (sg_tail s) || damaged (sg_tail s) = true) L.

Definition all_data (L : list seg) : list walData := L ≫= sg_data.

(** The files up to the first damaged one. *)
Fixpoint readable (L : list seg) : list seg :=
  match L with [] => [] | s :: L => if damaged (sg_tail s) then [s] else s :: readable L end.

Lemma stream_app a b : stream (a ++ b) = stream a ++ stream b.
Proof. unfold stream. by rewrite fmap_app, join_app. Qed.

Lemma stream_cons d ds : stream (d :: ds) = data_bytes d ++ stream ds.
Proof. done. Qed.

Lemma increasing_by_app {A} (key : A -> Z) l k :
  increasing key Z.compare (l ++ k) <->
  increasing key Z.compare l /\ increasing key Z.compare k /\ Forall (fun a => Forall (fun b => key a < key b) k) l.
Proof.
  unfold increasing. induction l as [|a l IH]; cbn.
  - split; [intros H; split_and!; [constructor|done|constructor]|by intros (_ & ? & _)].
  - split.
    + intros [H1 H2]%StronglySorted_inv. apply IH in H1 as (H3 & H4 & H5). apply Forall_app in H2 as [H2 H6].
      split_and!; [by constructor|done|]. constructor; [|done].
      eapply Forall_impl; [exact H6|]. cbn. intros b. apply Z.compare_lt_iff.
    + intros ([H1 H2]%StronglySorted_inv & H3 & [H4 H5]%Forall_cons). constructor; [by apply IH|].
      apply Forall_app. split; [done|]. eapply Forall_impl; [exact H4|]. cbn. intros b. apply Z.compare_lt_iff.
Qed.

Lemma dir_of_NoDup L : increasing sg_name Z.compare L -> NoDup ((fun s => (sg_name s, seg_bytes s)) <$> L).*1.
Proof. intros H. rewrite <- list_fmap_compose. by apply (increasing_NoDup sg_name Z.compare). Qed.

Lemma dir_lookup L s : increasing sg_name Z.compare L -> s ∈ L -> dir_of L !! sg_name s = Some (seg_bytes s).
Proof.
  intros HL Hs. apply elem_of_list_to_map_1; [by apply dir_of_NoDup|].
  by apply (list_elem_of_fmap_2 (fun s => (sg_name s, seg_bytes s))).
Qed.

Lemma dir_fresh L k : Forall (fun s => sg_name s <> k) L -> dir_of L !! k = None.
Proof.
  intros H. apply not_elem_of_list_to_map_1. rewrite <- list_fmap_compose.
  intros (s & -> & Hs)%list_elem_of_fmap. rewrite Forall_forall in H. by apply (H s).
Qed.

Lemma dir_of_snoc L s : Forall (fun x => sg_name x < sg_name s) L ->
  dir_of (L ++ [s]) = <[sg_name s := seg_bytes s]> (dir_of L).
Proof.
  intros H. unfold dir_of. rewrite fmap_app. cbn. rewrite list_to_map_snoc; [done|].
  rewrite <- list_fmap_compose. intros (x & E & Hx)%list_elem_of_fmap. cbn in E.
  rewrite Forall_forall in H. specialize (H x Hx). lia.
Qed.

Lemma sequenceFiles_dir_of L : increasing sg_name Z.compare L -> sequenceFiles (dir_of L) = sg_name <$> L.
Proof.
  intros HL. unfold sequenceFiles, dir_names, dir_of.
  rewrite (sort_by_unique fst Z.compare _ ((fun s => (sg_name s, seg_bytes s)) <$> L)).
  - by rewrite <- list_fmap_compose.
  - clear -HL. induction HL as [|s L _ IH Hs]; [constructor|]. cbn. constructor; [done|]. by apply Forall_fmap.
  - apply map_to_list_to_map. by apply dir_of_NoDup.
Qed.

Lemma foldl_delete_lookup (ks : list Z) (m : directory) k :
  foldl (fun dir k => delete k dir) m ks !! k = if decide (k ∈ ks) then None else m !! k.
Proof.
  revert m. induction ks as [|x ks IH]; intros m; cbn [foldl]; [by rewrite decide_False by set_solver|].
  rewrite IH. destruct (decide (k ∈ ks)); [by rewrite decide_True by set_solver|].
  destruct (decide (x = k)) as [->|]; [by rewrite lookup_delete_eq, decide_True by set_solver|].
  rewrite lookup_delete_ne by done. by rewrite decide_False by set_solver.
Qed.

Lemma delete_names L1 L2 :
  increasing sg_name Z.compare (L1 ++ L2) -> foldl (fun dir k => delete k dir) (dir_of (L1 ++ L2)) (sg_name <$> L2) = dir_of L1.
Proof.
  intros (H1 & H2 & H3)%increasing_by_app. apply map_eq. intros k. rewrite foldl_delete_lookup. unfold dir_of. rewrite fmap_app, list_to_map_app.
  case_decide as Hk.
  - symmetry. apply dir_fresh. apply list_elem_of_fmap in Hk as (s & -> & Hs).
    eapply Forall_impl; [exact H3|]. intros x Hx. rewrite Forall_forall in Hx. specialize (Hx s Hs). lia.
  - apply lookup_union_l. apply (dir_fresh L2). apply Forall_forall. intros s Hs <-. apply Hk.
    by apply list_elem_of_fmap_2.
Qed.

Lemma openSegmentFile_ok dir s : dir !! sg_name s = Some (seg_bytes s) -> openSegmentFile dir (sg_name s) = Ok 8.
Proof. intros H. unfold openSegmentFile. rewrite H. unfold seg_bytes. rewrite take_app_length' by done. done. Qed.

Lemma open_files_ok dir L :
  Forall (fun s => dir !! sg_name s = Some (seg_bytes s)) L ->
  open_files dir (sg_name <$> L) = ((fun s => newSegmentFile (sg_name s) 8) <$> L, dir).
Proof.
  induction 1 as [|s L Hs _ IH]; [done|]. cbn. by rewrite openSegmentFile_ok, IH.
Qed.

Lemma Open_ok L size : increasing sg_name Z.compare L ->
  OpenSegmentWAL (dir_of L) size =
    mkSegmentWAL (dir_of L) ((fun s => newSegmentFile (sg_name s) 8) <$> L) size None 0 false [].
Proof.
  intros HL. unfold OpenSegmentWAL. rewrite sequenceFiles_dir_of by done.
  rewrite open_files_ok; [done|]. apply Forall_forall. intros s. by apply dir_lookup.
Qed.

(** * Reading *)

(** The handle [f] of [s] has read [ds0] and not yet [ds]. *)
Definition at_pos (dir : directory) (f : segmentFile) (s : seg) (ds0 ds : list walData) : Prop :=
  sf_name f = sg_name s /\ sf_open f = true /\ dir !! sg_name s = Some (seg_bytes s) /\
  sg_data s = ds0 ++ ds /\ sf_pos f = 8 + zlen (stream ds0).

(** The file has noted the times of the data. *)
Definition noted (f : segmentFile) (ds : list walData) : Prop := Forall (data_until (sf_maxTime f)) ds.

Lemma noted_sees f f' ds : sees f f' -> noted f ds -> noted f' ds.
Proof. intros (_ & _ & _ & H) Hn. eapply Forall_impl; [exact Hn|]. intros d. by apply data_until_mono. Qed.

Lemma at_pos_sees dir f f' s ds0 ds : sees f f' -> at_pos dir f s ds0 ds -> at_pos dir f' s ds0 ds.
Proof. intros (E1 & E2 & E3 & _). unfold at_pos. by rewrite E1, E2, E3. Qed.

Lemma at_pos_left dir f s ds0 ds : at_pos dir f s ds0 ds ->
  0 <= sf_pos f /\ drop (Z.to_nat (sf_pos f)) (default [] (dir !! sf_name f)) = stream ds ++ sg_tail s.
Proof.
  intros (-> & _ & -> & E & ->). cbn [default]. pose proof (zlen_nonneg (stream ds0)). split; [lia|].
  unfold seg_bytes. rewrite E, stream_app. rewrite <- !(assoc_L (++)), (assoc_L (++) meta_bytes).
  apply drop_app_length'. rewrite length_app. change (length meta_bytes) with 8%nat. unfold zlen in *. lia.
Qed.

Lemma lookup_middle {A} (l : list A) x k : (l ++ x :: k) !! length l = Some x.
Proof. by rewrite lookup_app_r, Nat.sub_diag by done. Qed.

Lemma insert_middle {A} (l : list A) x y k : <[length l := y]> (l ++ x :: k) = l ++ y :: k.
Proof. rewrite insert_app_r_alt by done. by rewrite Nat.sub_diag. Qed.

Lemma take_middle {A} (l : list A) x k : take (S (length l)) (l ++ x :: k) = l ++ [x].
Proof. rewrite take_app_ge by lia. by rewrite Nat.sub_succ_l, Nat.sub_diag by done. Qed.

Lemma drop_middle {A} (l : list A) x k : drop (S (length l)) (l ++ x :: k) = k.
Proof. rewrite drop_app_ge by lia. by rewrite Nat.sub_succ_l, Nat.sub_diag by done. Qed.

Lemma lr_set_middle pre cf post last err f :
  lr_set (mkWalReader (pre ++ cf :: post) (zlen pre) last err) f = mkWalReader (pre ++ f :: post) (zlen pre) last err.
Proof. unfold lr_set; cbn [lr_files lr_cur lr_lastOffset lr_err]. by rewrite to_nat_zlen, insert_middle. Qed.

Section Next.
(** What is known of a file and the data read from it. *)
Context (N : segmentFile -> list walData -> Prop)
  (HN : forall f f' ds, sf_maxTime f' = sf_maxTime f -> N f ds -> N f' ds) (HN0 : forall f, N f []).
Context (dir : directory) (L : list seg).

Definition seg_closed (f : segmentFile) (s : seg) : Prop :=
  sf_name f = sg_name s /\ sf_open f = false /\ damaged (sg_tail s) = false /\ N f (sg_data s).
Definition seg_start (f : segmentFile) (s : seg) : Prop := at_pos dir f s [] (sg_data s).

(** A reader on the files of [L], at [f]: the files before it are closed, those
    behind it are at their start. *)
Definition reading (r : walReader) (f : segmentFile) (s : seg) (ds0 ds : list walData) (rest : list seg) : Prop :=
  exists pre post L0,
    lr_files r = pre ++ f :: post /\ lr_cur r = zlen pre /\ L = L0 ++ s :: rest /\
    Forall2 seg_closed pre L0 /\ Forall2 seg_start post rest /\ at_pos dir f s ds0 ds.

(** The end: all files are read, or the current one is damaged. *)
Definition finished (r : walReader) : Prop :=
  exists pre f post L0 s rest,
    lr_files r = pre ++ f :: post /\ lr_cur r = zlen pre /\ L = L0 ++ s :: rest /\
    Forall2 seg_closed pre L0 /\ Forall2 seg_start post rest /\ readable (s :: rest) = [s] /\
    sf_name f = sg_name s /\ sf_open f = true /\ dir !! sg_name s = Some (seg_bytes s) /\ N f (sg_data s) /\
    if damaged (sg_tail s)
    then exists e, lr_err r = Some (walCorruptionErr e (zlen pre) (8 + zlen (stream (sg_data s))))
    else rest = [] /\ lr_err r = None /\ sf_pos f = 8 + zlen (stream (sg_data s)) + fst (scan (sg_tail s)).

(** The data still to come. *)
Definition pending (s : seg) (ds : list walData) (rest : list seg) : list walData :=
  ds ++ all_data (if damaged (sg_tail s) then [] else readable rest).

Definition seg_ok (s : seg) : Prop := Forall data_ok (sg_data s) /\ quiet (sg_tail s) || damaged (sg_tail s) = true.

Lemma lr_next_entry fuel r f s ds0 d ds rest :
  reading r f s ds0 (d :: ds) rest -> data_ok d ->
  exists r' f', reading r' f' s (ds0 ++ [d]) ds rest /\ sf_maxTime f' = sf_maxTime f /\
    lr_next fuel dir r = (Some (data_type d, 1, data_body d), r') /\ lr_err r' = None.
Proof using Type.
  destruct r as [files cur last err]. intros (pre & post & L0 & E1 & E2 & EL & Hpre & Hpost & Hat) Hok.
  cbn [lr_files lr_cur] in E1, E2. subst files cur.
  destruct (at_pos_left _ _ _ _ _ Hat) as [Hp Hd]. pose proof Hat as (E1 & Eo & E2 & E3 & E4).
  set (f' := sf_seek f (sf_pos f + zlen (data_bytes d))).
  exists (mkWalReader (pre ++ f' :: post) (zlen pre) (sf_pos f) None), f'. split; [|split; [done|]].
  - exists pre, post, L0. do 5 (split; [done|]). split_and!; [done..| |].
    + by rewrite <- (assoc_L (++)).
    + cbn [sf_pos sf_seek f']. rewrite E4, stream_app, stream_cons, app_nil_r, zlen_app. lia.
  - split; [|done].
    destruct fuel; cbn [lr_next lr_files lr_cur]; rewrite to_nat_zlen, lookup_middle, Eo; cbn [negb];
      pose proof (entry_scan (mkWalReader (pre ++ f :: post) (zlen pre) (sf_pos f) None) (default [] (dir !! sf_name f)) f Eo Hp) as H;
      rewrite Hd, stream_cons, <- (assoc_L (++)), scan_entry in H by done; rewrite H;
      by rewrite lr_set_middle.
Qed.

(** At the end of a damaged file, or of the last one, reading ends. *)
Lemma lr_next_end fuel r f s ds0 rest :
  reading r f s ds0 [] rest -> N f ds0 -> seg_ok s -> readable (s :: rest) = [s] ->
  exists r', lr_next fuel dir r = (None, r') /\ finished r'.
Proof using HN.
  destruct r as [files cur last err]. intros (pre & post & L0 & E1 & E2 & EL & Hpre & Hpost & Hat) HNf [_ Hs] Hr.
  cbn [lr_files lr_cur] in E1, E2. subst files cur.
  destruct (at_pos_left _ _ _ _ _ Hat) as [Hp Hd]. pose proof Hat as (E1 & Eo & E2 & E3 & E4). rewrite app_nil_r in E3.
  pose proof (entry_scan (mkWalReader (pre ++ f :: post) (zlen pre) (sf_pos f) None) (default [] (dir !! sf_name f)) f Eo Hp) as H.
  rewrite Hd in H. change (stream [] ++ sg_tail s) with (sg_tail s) in H.
  unfold quiet, damaged in Hs. destruct (scan (sg_tail s)) as [k sc] eqn:Esc. cbn [snd] in Hs.
  set (f' := sf_seek f (sf_pos f + k)) in *.
  destruct sc as [|msg|]; [| |done].
  - assert (rest = []) as ->.
    { cbn [readable] in Hr. unfold damaged in Hr. rewrite Esc in Hr. cbn [snd] in Hr. destruct rest; [done|].
      cbn [readable] in Hr. by destruct (damaged _). }
    apply Forall2_nil_inv_r in Hpost as ->.
    exists (mkWalReader (pre ++ [f']) (zlen pre) (sf_pos f) None). split.
    + destruct fuel; cbn [lr_next lr_files lr_cur]; rewrite to_nat_zlen, lookup_middle, Eo; cbn [negb]; rewrite H;
        rewrite lr_set_middle; cbn [lr_cur lr_files];
        by rewrite (proj2 (Z.eqb_eq (zlen pre) (zlen (pre ++ [f']) - 1))) by (rewrite zlen_app; change (zlen [f']) with 1; lia).
    + exists pre, f', [], L0, s, []. do 8 (split; [done|]). split; [done|]. split; [eapply HN; [|rewrite E3; exact HNf]; done|].
      unfold damaged. rewrite Esc. cbn [snd fst]. split_and!; [done..|]. cbn [f' sf_seek sf_pos]. by rewrite E4, E3.
  - exists (mkWalReader (pre ++ f' :: post) (zlen pre) (sf_pos f) (Some (walCorruptionErr (ErrMsg msg) (zlen pre) (sf_pos f)))). split.
    + destruct fuel; cbn [lr_next lr_files lr_cur]; rewrite to_nat_zlen, lookup_middle, Eo; cbn [negb]; rewrite H;
        by rewrite lr_set_middle.
    + exists pre, f', post, L0, s, rest. do 8 (split; [done|]). split; [done|]. split; [eapply HN; [|rewrite E3; exact HNf]; done|].
      unfold damaged. rewrite Esc. cbn [snd lr_err]. eexists. by rewrite E4, E3.
Qed.

(** At the end of another file, reading goes on with the next one. *)
Lemma lr_next_move fuel r f s ds0 s2 rest :
  reading r f s ds0 [] (s2 :: rest) -> N f ds0 -> seg_ok s -> damaged (sg_tail s) = false ->
  exists r' f', lr_next (S fuel) dir r = lr_next fuel dir r' /\ reading r' f' s2 [] (sg_data s2) rest.
Proof using HN.
  destruct r as [files cur last err]. intros (pre & post & L0 & E1 & E2 & EL & Hpre & Hpost & Hat) HNf [_ Hs] Hd'.
  cbn [lr_files lr_cur] in E1, E2. subst files cur. apply Forall2_cons_inv_r in Hpost as (f2 & post' & Hf2 & Hpost & ->).
  destruct (at_pos_left _ _ _ _ _ Hat) as [Hp Hd]. pose proof Hat as (E1 & Eo & E2 & E3 & E4). rewrite app_nil_r in E3.
  pose proof (entry_scan (mkWalReader (pre ++ f :: f2 :: post') (zlen pre) (sf_pos f) None) (default [] (dir !! sf_name f)) f Eo Hp) as H.
  rewrite Hd in H. change (stream [] ++ sg_tail s) with (sg_tail s) in H.
  rewrite Hd', orb_false_r in Hs. unfold quiet in Hs.
  destruct (scan (sg_tail s)) as [k sc] eqn:Esc. cbn [snd] in Hs. destruct sc; try done.
  set (f' := sf_seek f (sf_pos f + k)) in *.
  exists (mkWalReader ((pre ++ [sf_close f']) ++ f2 :: post') (zlen (pre ++ [sf_close f'])) (sf_pos f) None), f2. split.
  - cbn [lr_next lr_files lr_cur]. rewrite to_nat_zlen, lookup_middle, Eo. cbn [negb]. rewrite H, lr_set_middle. cbn [lr_cur lr_files].
    destruct (Z.eqb_spec (zlen pre) (zlen (pre ++ f' :: f2 :: post') - 1)) as [E|_].
    { rewrite zlen_app in E. unfold zlen in E. cbn in E. lia. }
    rewrite lr_set_middle. cbn [lr_cur lr_files lr_lastOffset lr_err].
    rewrite <- (assoc_L (++)), zlen_app. done.
  - exists (pre ++ [sf_close f']), post', (L0 ++ [s]). do 2 (split; [done|]). split; [by rewrite <- (assoc_L (++))|].
    split; [|done]. apply Forall2_app; [done|]. constructor; [|done]. split_and!; [done..|].
    eapply HN; [|rewrite E3; exact HNf]. done.
Qed.

Lemma reading_seg_ok r f s ds0 ds rest : Forall seg_ok L -> reading r f s ds0 ds rest -> seg_ok s.
Proof using Type.
  intros HL (? & ? & L0 & _ & _ & -> & _). apply Forall_app in HL as [_ HL]. by apply Forall_inv in HL.
Qed.

Lemma lr_next_data fuel r f s ds0 d ds rest :
  reading r f s ds0 (d :: ds) rest -> N f ds0 -> seg_ok s ->
  exists r' f' s' ds0' ds1 rest',
    lr_next fuel dir r = (Some (data_type d, 1, data_body d), r') /\ lr_err r' = None /\
    reading r' f' s' (ds0' ++ [d]) ds1 rest' /\ N f' ds0' /\ pending s ds rest = pending s' ds1 rest'.
Proof using HN.
  intros Hrd HNf [Hs _]. assert (Hd : data_ok d).
  { destruct Hrd as (? & ? & ? & _ & _ & _ & _ & _ & (_ & _ & _ & E & _)). rewrite E in Hs.
    apply Forall_app in Hs as [_ Hs]. by apply Forall_inv in Hs. }
  destruct (lr_next_entry fuel _ _ _ _ _ _ _ Hrd Hd) as (r' & f' & H1 & H2 & H3 & H4).
  exists r', f', s, ds0, ds, rest. split_and!; try done. by eapply HN.
Qed.

(** The next data, or the end. *)
Lemma lr_next_spec fuel r f s ds0 ds rest :
  reading r f s ds0 ds rest -> N f ds0 -> Forall seg_ok L -> (length rest <= fuel)%nat ->
  match pending s ds rest with
  | d :: ds' =>
      exists r' f' s' ds0' ds1 rest',
        lr_next fuel dir r = (Some (data_type d, 1, data_body d), r') /\ lr_err r' = None /\
        reading r' f' s' (ds0' ++ [d]) ds1 rest' /\ N f' ds0' /\ ds' = pending s' ds1 rest'
  | [] => exists r', lr_next fuel dir r = (None, r') /\ finished r'
  end.
Proof using HN HN0.
  intros Hrd HNf HL. revert r f s ds0 ds rest Hrd HNf. induction fuel as [|fuel IH]; intros r f s ds0 ds rest Hrd HNf Hf;
    pose proof (reading_seg_ok _ _ _ _ _ _ HL Hrd) as Hs;
    (destruct ds as [|d ds]; cbn [pending app]; [|by apply (lr_next_data _ _ _ _ _ _ _ _ Hrd HNf Hs)]).
  - destruct rest; [|cbn in Hf; lia].
    destruct (lr_next_end 0 _ _ _ _ _ Hrd HNf Hs) as (r' & H1 & H2); [cbn; by destruct (damaged _)|].
    cbn. destruct (damaged _); by exists r'.
  - destruct (damaged (sg_tail s)) eqn:Ed.
    { destruct (lr_next_end (S fuel) _ _ _ _ _ Hrd HNf Hs) as (r' & H1 & H2); [cbn; by rewrite Ed|]. by exists r'. }
    destruct rest as [|s2 rest].
    { destruct (lr_next_end (S fuel) _ _ _ _ _ Hrd HNf Hs) as (r' & H1 & H2); [cbn; by rewrite Ed|]. by exists r'. }
    destruct (lr_next_move fuel _ _ _ _ _ _ Hrd HNf Hs Ed) as (r' & f' & H1 & H2).
    rewrite H1. assert (E : all_data (readable (s2 :: rest)) = pending s2 (sg_data s2) rest).
    { unfold pending. cbn [readable]. by destruct (damaged (sg_tail s2)). }
    rewrite E. apply (IH _ _ _ _ _ _ H2); [apply HN0|]. cbn in Hf. lia.
Qed.
End Next.

Lemma reading_set N dir L r f f' s ds0 ds rest :
  reading N dir L r f s ds0 ds rest -> sees f f' ->
  lr_files r !! Z.to_nat (lr_cur r) = Some f /\ reading N dir L (lr_set r f') f' s ds0 ds rest.
Proof.
  destruct r as [files cur last err]. intros (pre & post & L0 & E1 & E2 & EL & Hpre & Hpost & Hat) Hs.
  cbn [lr_files lr_cur] in *. subst files cur. split; [by rewrite to_nat_zlen, lookup_middle|].
  rewrite lr_set_middle. exists pre, post, L0. do 5 (split; [done|]). by eapply at_pos_sees.
Qed.

Lemma reading_data_ok N dir L r f s ds0 d ds rest :
  Forall seg_ok L -> reading N dir L r f s (ds0 ++ [d]) ds rest -> data_ok d.
Proof.
  intros HL Hrd. pose proof (reading_seg_ok _ _ _ _ _ _ _ _ _ HL Hrd) as [Hs _].
  destruct Hrd as (? & ? & ? & _ & _ & _ & _ & _ & (_ & _ & _ & E & _)). rewrite E in Hs.
  apply Forall_app in Hs as [Hs _]. apply Forall_app in Hs as [_ Hs]. by apply Forall_inv in Hs.
Qed.

Lemma reading_length N dir L r f s ds0 ds rest :
  reading N dir L r f s ds0 ds rest -> (length rest <= length (lr_files r))%nat.
Proof.
  intros (pre & post & L0 & E1 & _ & _ & _ & Hpost & _). rewrite E1, length_app. cbn.
  rewrite (Forall2_length _ _ _ Hpost). lia.
Qed.

Lemma noted_same f f' ds : sf_maxTime f' = sf_maxTime f -> noted f ds -> noted f' ds.
Proof. unfold noted. by intros ->. Qed.

(** The loop of [Read] gives all data up to the first damage. *)
Lemma read_loop_spec dir L fuel r f s ds0 ds rest :
  reading noted dir L r f s ds0 ds rest -> noted f ds0 -> Forall seg_ok L ->
  (length (pending s ds rest) < fuel)%nat ->
  exists r', read_loop fuel dir r None = Ok (pending s ds rest, r', None) /\ finished noted dir L r'.
Proof.
  revert r f s ds0 ds rest. induction fuel as [|fuel IH]; intros r f s ds0 ds rest Hrd Hn HL Hf; [lia|].
  cbn [read_loop].
  pose proof (lr_next_spec noted noted_same (fun _ => Forall_nil_2 _) dir L (length (lr_files r)) _ _ _ _ _ _ Hrd Hn HL (reading_length _ _ _ _ _ _ _ _ _ Hrd)) as H.
  destruct (pending s ds rest) as [|d l] eqn:Ep.
  - destruct H as (r' & -> & Hfin). by exists r'.
  - destruct H as (r' & f' & s' & ds0' & ds1 & rest' & -> & _ & Hrd' & Hn' & ->).
    destruct (reading_set _ _ _ _ _ _ _ _ _ _ Hrd' (reflexivity f')) as [-> _].
    pose proof (reading_data_ok _ _ _ _ _ _ _ _ _ _ HL Hrd') as Hd.
    rewrite decode_entry_ok by apply Hd. destruct (see_data_sees f' d) as [Hsee Hu].
    destruct (reading_set _ _ _ _ _ _ _ _ _ _ Hrd' Hsee) as [_ Hrd''].
    destruct (IH _ _ _ _ _ _ Hrd'') as (r'' & -> & Hfin); [|done|cbn in Hf; lia|by exists r''].
    apply Forall_app. split; [by eapply noted_sees|by constructor].
Qed.

Lemma data_bytes_length d : (1 <= length (data_bytes d))%nat.
Proof. unfold data_bytes, entry_bytes, entry_header. cbv zeta. rewrite !length_app. cbn [length]. lia. Qed.

Lemma stream_length ds : (length ds <= length (stream ds))%nat.
Proof.
  induction ds as [|d ds IH]; [done|]. rewrite stream_cons, length_app. cbn. pose proof (data_bytes_length d). lia.
Qed.

Lemma all_data_app L K : all_data (L ++ K) = all_data L ++ all_data K.
Proof. unfold all_data. by rewrite bind_app. Qed.

Lemma all_data_length L : increasing sg_name Z.compare L -> (length (all_data L) <= dir_size (dir_of L))%nat.
Proof.
  intros HL. unfold dir_size, dir_of.
  rewrite (map_to_list_to_map _ (dir_of_NoDup L HL)), <- list_fmap_compose.
  change (length (all_data L) <= length (mjoin (seg_bytes <$> L)))%nat. clear HL.
  induction L as [|s L IH]; [done|]. rewrite fmap_cons, join_cons, length_app.
  change (all_data (s :: L)) with (sg_data s ++ all_data L). rewrite length_app.
  unfold seg_bytes at 1. rewrite !length_app. pose proof (stream_length (sg_data s)). lia.
Qed.

Lemma readable_prefix L : exists K, L = readable L ++ K.
Proof.
  induction L as [|s L [K IH]]; [by exists []|]. cbn [readable]. destruct (damaged _); [by exists L|].
  exists K. cbn. by rewrite <- IH.
Qed.

Lemma readable_length L : (length (all_data (readable L)) <= length (all_data L))%nat.
Proof. destruct (readable_prefix L) as [K E]. rewrite E at 2. rewrite all_data_app, length_app. lia. Qed.

Lemma segs_ok_split L : segs_ok L <-> increasing sg_name Z.compare L /\ Forall seg_ok L.
Proof. done. Qed.

(** The read files after [Read]. *)
Definition read_ended (dir : directory) (L : list seg) (r : walReader) : Prop :=
  (L = [] /\ lr_files r = [] /\ lr_err r = None) \/ finished noted dir L r.

Lemma lr_Read_spec L :
  segs_ok L ->
  exists r, lr_Read (dir_of L) (newWALReader ((fun s => newSegmentFile (sg_name s) 8) <$> L)) =
    Ok (all_data (readable L), r, lr_err r) /\ read_ended (dir_of L) L r.
Proof.
  intros [Hinc HL]. unfold lr_Read. destruct L as [|s L].
  { eexists. split; [done|]. by left. }
  assert (Hst : Forall2 (seg_start (dir_of (s :: L))) ((fun s => newSegmentFile (sg_name s) 8) <$> s :: L) (s :: L)).
  { apply Forall2_fmap_l, Forall_Forall2_diag, Forall_forall. intros x Hx. split_and!; [done..|by apply dir_lookup|done|done]. }
  apply Forall2_cons in Hst as [Hs Hrest].
  assert (Hrd : reading noted (dir_of (s :: L)) (s :: L) (newWALReader ((fun s => newSegmentFile (sg_name s) 8) <$> s :: L))
            (newSegmentFile (sg_name s) 8) s [] (sg_data s) L).
  { exists [], ((fun s => newSegmentFile (sg_name s) 8) <$> L), []. do 3 (split; [done|]). split; [constructor|]. by split. }
  assert (E : all_data (readable (s :: L)) = pending s (sg_data s) L).
  { unfold pending. cbn [readable]. by destruct (damaged (sg_tail s)). }
  destruct (read_loop_spec _ _ (S (dir_size (dir_of (s :: L)))) _ _ _ _ _ _ Hrd) as (r & Er & Hfin).
  - constructor.
  - done.
  - rewrite <- E. pose proof (readable_length (s :: L)). pose proof (all_data_length _ Hinc). lia.
  - rewrite Er. cbn [res_bind]. rewrite E. exists r. split; [done|]. by right.
Qed.
