(* ===== verification/LegacyWalLog.v ===== *)
(** The legacy log of wal.go: what is logged is read back, over segments, restarts and
    damage; truncation keeps what it has to; migration gives the same data. *)
From S2P Require Import Prelude Bits Varint Crc32 EncBuf Order Files Labels Tombstones Records Head Wal WalSpec WalLog LegacyWal LegacyWalSpec.
#[local] Open Scope list_scope.
#[local] Open Scope Z_scope.

(** * The log that is read *)

Definition old_file (f : segmentFile) (s : seg) : Prop := sf_name f = sg_name s /\ noted f (sg_data s).

(** The file is to be truncated where its handle [f] stands; then it has its data and an end
    that is no damage. *)
Definition to_finish (f : segmentFile) (s : seg) : Prop :=
  sf_open f = true /\ exists tail, quiet tail = true /\
    truncate_at (seg_bytes s) (sf_pos f) = seg_bytes (mkSeg (sg_name s) (sg_data s) tail).

(** The log after it has been read and before something is logged.  Where the
    handle of the newest file stands, it will be cut. *)
Definition idle (w : SegmentWAL) (L : list seg) : Prop :=
  sw_dir w = dir_of L /\ segs_ok L /\ readable L = L /\ sw_cur w = None /\ sw_closed w = false /\ sw_actorc w = [] /\
  ((L = [] /\ sw_files w = []) \/
   exists pre f L0 s, sw_files w = pre ++ [f] /\ L = L0 ++ [s] /\ Forall2 old_file pre L0 /\ old_file f s /\ to_finish f s).

Lemma zlen_meta : zlen meta_bytes = 8.
Proof. done. Qed.

(** A file cut behind its data and a part of its end. *)
Lemma truncate_seg s k :
  0 <= k <= zlen (sg_tail s) ->
  truncate_at (seg_bytes s) (8 + zlen (stream (sg_data s)) + k) =
    seg_bytes (mkSeg (sg_name s) (sg_data s) (take (Z.to_nat k) (sg_tail s))).
Proof.
  intros Hk. pose proof (zlen_nonneg (stream (sg_data s))). unfold seg_bytes. cbn [sg_data sg_tail].
  rewrite truncate_at_take by (rewrite !zlen_app, zlen_meta; lia).
  rewrite (assoc_L (++)), take_app_ge by (rewrite length_app; unfold zlen in *; change (length meta_bytes) with 8%nat; lia).
  rewrite <- (assoc_L (++)). do 3 f_equal. rewrite length_app. unfold zlen. change (length meta_bytes) with 8%nat. lia.
Qed.

Definition none_damaged (L : list seg) : Prop := Forall (fun s => damaged (sg_tail s) = false) L.

Lemma readable_none_damaged L0 L : none_damaged L0 -> readable (L0 ++ L) = L0 ++ readable L.
Proof. induction 1 as [|s L0 Hs _ IH]; [done|]. cbn. by rewrite Hs, IH. Qed.

Lemma readable_snoc_inv L0 s : readable (L0 ++ [s]) = L0 ++ [s] -> none_damaged L0.
Proof.
  induction L0 as [|x L0 IH]; [constructor|]. cbn. destruct (damaged (sg_tail x)) eqn:E.
  - intros [=H]. by destruct L0.
  - intros [=H]. constructor; [done|]. by apply IH.
Qed.

Lemma seg_closed_old pre L0 : Forall2 (seg_closed noted) pre L0 -> Forall2 old_file pre L0 /\ none_damaged L0.
Proof.
  induction 1 as [|f s pre L0 (H1 & H2 & H3 & H4) _ [IH1 IH2]]; [by split; constructor|].
  split; constructor; done.
Qed.

Lemma remove_files_ok dir0 dir post rest :
  Forall2 (seg_start dir0) post rest ->
  remove_files dir post = (foldl (fun dir k => delete k dir) dir (sg_name <$> rest), None).
Proof.
  intros H. revert dir. induction H as [|f s post rest (H1 & H2 & _) _ IH]; intros dir; [done|].
  cbn [remove_files]. rewrite H2, H1. apply IH.
Qed.

Lemma segs_ok_app L K : segs_ok (L ++ K) -> segs_ok L.
Proof. intros [(? & _ & _)%increasing_by_app [? _]%Forall_app]. by split. Qed.

(** Reading gives all data up to the first damage, and no error: a damaged file
    is the newest one from then on. *)
Lemma sw_Read_spec L size :
  segs_ok L ->
  exists w, sw_Read (OpenSegmentWAL (dir_of L) size) = Ok (all_data (readable L), w, None) /\
    idle w (readable L) /\ sw_segmentSize w = size.
Proof.
  intros HL. rewrite Open_ok by apply HL. unfold sw_Read. cbn [sw_dir sw_files].
  destruct (lr_Read_spec L HL) as (r & -> & Hend). cbn [res_bind].
  destruct Hend as [(-> & Ef & ->)|(pre & f & post & L0 & s & rest & Ef & Ec & -> & Hpre & Hpost & Hr & Hname & Ho & Hdir & Hn & He)].
  { eexists. split; [done|]. split; [|done]. rewrite Ef. split; [done|]. split; [by split; constructor|]. do 4 (split; [done|]). by left. }
  apply seg_closed_old in Hpre as [Hold Hnd].
  assert (Hrd : readable (L0 ++ s :: rest) = L0 ++ [s]) by (by rewrite readable_none_damaged, Hr).
  rewrite Hrd. assert (HL' : segs_ok (L0 ++ [s])).
  { apply (segs_ok_app _ rest). by rewrite <- (assoc_L (++)). }
  assert (Hrd' : readable (L0 ++ [s]) = L0 ++ [s]).
  { rewrite readable_none_damaged by done. f_equal. cbn. by destruct (damaged _). }
  pose proof (scan_range (sg_tail s)) as Hsc. pose proof (zlen_nonneg (stream (sg_data s))) as Hp0.
  destruct (damaged (sg_tail s)) eqn:Ed.
  - destruct He as [e ->]. cbn [sw_dir sw_files sw_with sw_segmentSize sw_cur sw_curN sw_closed].
    unfold sw_truncate. cbn [sw_dir sw_files sw_with sw_segmentSize sw_cur sw_curN sw_closed].
    rewrite Ef, to_nat_zlen.
    rewrite drop_middle, take_middle, (remove_files_ok _ _ _ _ Hpost).
    assert (El : L0 ++ s :: rest = (L0 ++ [s]) ++ rest) by by rewrite <- (assoc_L (++)).
    rewrite El, delete_names by (rewrite <- El; apply HL).
    rewrite lookup_middle, Ho, insert_middle. eexists. split; [done|]. split; [|done].
    unfold idle. cbn [sw_dir sw_files sw_with sw_cur sw_closed sw_actorc]. do 6 (split; [done|]). right.
    eexists pre, _, L0, s. do 4 (split; [done|]). split; [done|]. exists []. split; [done|]. cbn [sf_seek sf_pos].
    rewrite <- (Z.add_0_r (8 + zlen (stream (sg_data s)))), truncate_seg; [done|]. pose proof (zlen_nonneg (sg_tail s)). lia.
  - destruct He as (-> & -> & Hpos). eexists. split; [done|]. split; [|done].
    unfold idle. cbn [sw_dir sw_files sw_with sw_cur sw_closed sw_actorc]. do 6 (split; [done|]). right.
    exists pre, f, L0, s. apply Forall2_nil_inv_r in Hpost as ->. do 4 (split; [done|]). split; [done|].
    exists (take (Z.to_nat (fst (scan (sg_tail s)))) (sg_tail s)).
    split; [|rewrite Hpos; by apply truncate_seg]. apply quiet_take. destruct HL' as [_ [_ Hok]%Forall_app]. apply Forall_inv in Hok as [_ Hok].
    by rewrite Ed, orb_false_r in Hok.
Qed.

(** * Logging *)

(** A file behind the newest one: it has been finished, or that is still queued. *)
Definition past_file (queue : list Z) (f : segmentFile) (s : seg) : Prop :=
  old_file f s /\ if decide (sg_name s ∈ queue) then to_finish f s else damaged (sg_tail s) = false.

(** The files of the log without the newest one, of number [k]. *)
Definition past_files (w : SegmentWAL) (pre : list segmentFile) (L0 : list seg) (k : Z) : Prop :=
  Forall2 (past_file (sw_actorc w)) pre L0 /\ segs_ok L0 /\ Forall (fun s => sg_name s < k) L0 /\
  Forall (fun j => j ∈ sg_name <$> L0) (sw_actorc w).

(** The log that is written: its newest file, of number [k], holds the bytes [str] once
    what is buffered is written. *)
Definition writing (w : SegmentWAL) (L0 : list seg) (k : Z) (ds : list walData) (str : list Z) : Prop :=
  exists pre f written buf n,
    sw_files w = pre ++ [f] /\ past_files w pre L0 k /\ sf_name f = k /\ sf_open f = true /\ noted f ds /\
    sw_cur w = Some buf /\ written ++ buf = str /\ sf_pos f = 8 + zlen written /\
    sw_dir w = <[k := meta_bytes ++ written ++ zeros n]> (dir_of L0) /\ sw_closed w = false.

Lemma sw_head_last w pre f : sw_files w = pre ++ [f] -> sw_head w = Some f.
Proof. unfold sw_head. intros ->. apply last_snoc. Qed.

Lemma set_head_last w pre f g : sw_files w = pre ++ [f] -> set_head w g = pre ++ [g].
Proof.
  unfold set_head. intros ->. rewrite length_app. cbn. rewrite Nat.add_sub. by rewrite take_app_length.
Qed.

(** Writing to the file moves bytes from the buffer to it. *)
Lemma head_write_writing w L0 k ds pre f written out n :
  sw_files w = pre ++ [f] -> sf_name f = k -> sf_pos f = 8 + zlen written ->
  sw_dir w = <[k := meta_bytes ++ written ++ zeros n]> (dir_of L0) -> sf_open f = true -> noted f ds ->
  exists f' n', sw_files (head_write w out) = pre ++ [f'] /\ sf_name f' = k /\ sf_open f' = true /\ noted f' ds /\
    sf_pos f' = 8 + zlen (written ++ out) /\
    sw_dir (head_write w out) = <[k := meta_bytes ++ (written ++ out) ++ zeros n']> (dir_of L0) /\
    sw_closed (head_write w out) = sw_closed w /\ sw_cur (head_write w out) = sw_cur w /\
    sw_actorc (head_write w out) = sw_actorc w.
Proof.
  intros E1 E2 E3 E4 E5 E6. unfold head_write. rewrite (sw_head_last w pre f E1), (set_head_last w pre f _ E1).
  exists (sf_seek f (sf_pos f + zlen out)), (n - length out)%nat. cbn [sw_files sw_with sw_dir sw_closed sw_cur sw_actorc sf_seek sf_name sf_open sf_pos].
  split_and!; try done.
  - rewrite E3, zlen_app. lia.
  - rewrite E2, E4, alter_insert. do 2 f_equal. rewrite (assoc_L (++)), write_at_zeros.
    + by rewrite <- !(assoc_L (++)).
    + by rewrite E3, zlen_app, zlen_meta.
Qed.

Lemma past_files_same w w' pre L0 k : sw_actorc w' = sw_actorc w -> past_files w pre L0 k -> past_files w' pre L0 k.
Proof. unfold past_files. by intros ->. Qed.

Lemma cur_write_writing w L0 k ds str p :
  writing w L0 k ds str -> writing (cur_write w p) L0 k ds (str ++ p).
Proof.
  intros (pre & f & written & buf & n & E1 & Hold & E2 & E3 & Hn & E4 & <- & E5 & E6 & H).
  unfold cur_write. rewrite E4. destruct (bufio_Write curBufferSize buf p) as [out buf'] eqn:Eb.
  apply bufio_Write_app in Eb.
  destruct (head_write_writing w L0 k ds pre f written out n E1 E2 E5 E6 E3 Hn) as (f' & n' & F1 & F2 & F3 & F4 & F5 & F6 & F7 & F8 & F9).
  exists pre, f', (written ++ out), buf', n'. cbn [with_cur sw_files sw_cur sw_dir sw_closed].
  split_and!; try done; [by eapply past_files_same|by rewrite <- !(assoc_L (++)), Eb|by rewrite F7].
Qed.

Lemma sw_flush_writing w L0 k ds str :
  writing w L0 k ds str ->
  writing (sw_flush w) L0 k ds str /\ sw_actorc (sw_flush w) = sw_actorc w /\
  exists n pre f, sw_dir (sw_flush w) = <[k := meta_bytes ++ str ++ zeros n]> (dir_of L0) /\
    sw_files (sw_flush w) = pre ++ [f] /\ sf_pos f = 8 + zlen str.
Proof.
  intros (pre & f & written & buf & n & E1 & Hold & E2 & E3 & Hn & E4 & <- & E5 & E6 & H).
  unfold sw_flush. rewrite E4.
  destruct (head_write_writing w L0 k ds pre f written buf n E1 E2 E5 E6 E3 Hn) as (f' & n' & F1 & F2 & F3 & F4 & F5 & F6 & F7 & F8 & F9).
  split; [|split; [done|by exists n', pre, f']].
  exists pre, f', (written ++ buf), [], n'. cbn [with_cur sw_files sw_cur sw_dir sw_closed].
  split_and!; try done; [by eapply past_files_same|by rewrite app_nil_r|by rewrite F7].
Qed.

Lemma segs_ok_snoc L s :
  segs_ok L -> Forall (fun x => sg_name x < sg_name s) L -> seg_ok s -> segs_ok (L ++ [s]).
Proof.
  intros [H1 H2] H3 H4. split; [|apply Forall_app; split; [done|by constructor]].
  apply increasing_by_app. split_and!; [done|repeat constructor|]. eapply Forall_impl; [exact H3|]. by constructor.
Qed.

Lemma quiet_not_damaged l : quiet l = true -> damaged l = false.
Proof. unfold quiet, damaged. by destruct (snd (scan l)). Qed.

(** A file that was the newest one, before it is finished. *)
Lemma past_files_snoc w queue pre L0 f s :
  past_files w pre L0 (sg_name s) -> old_file f s -> to_finish f s -> seg_ok s -> queue = sw_actorc w ++ [sg_name s] ->
  Forall2 (past_file queue) (pre ++ [f]) (L0 ++ [s]) /\ segs_ok (L0 ++ [s]) /\ Forall (fun j => j ∈ sg_name <$> L0 ++ [s]) queue.
Proof.
  intros (Hp & Hs & Hlt & Hq) Ho Hf Hok ->. split; [|split; [by apply segs_ok_snoc|]].
  - apply Forall2_app; [|constructor; [|constructor]].
    + clear -Hp Hlt. revert Hlt. induction Hp as [|g x pre L0 [Hg Hx] _ IH]; intros Hlt; constructor.
      * split; [done|]. apply Forall_inv in Hlt. destruct (decide (sg_name x ∈ sw_actorc w ++ [sg_name s])) as [Hin|Hin].
        -- apply elem_of_app in Hin as [Hin|Hin%list_elem_of_singleton]; [by rewrite decide_True in Hx by done|lia].
        -- rewrite decide_False in Hx; [done|]. intros ?. apply Hin, elem_of_app. by left.
      * apply IH. by apply Forall_cons in Hlt as [_ ?].
    + split; [done|]. rewrite decide_True; [done|]. apply elem_of_app. right. left.
  - rewrite fmap_app. apply Forall_app. split; [|apply Forall_singleton, elem_of_app; right; left].
    eapply Forall_impl; [exact Hq|]. intros j Hj. apply elem_of_app. by left.
Qed.

Lemma nextSequenceFile_gt L : increasing sg_name Z.compare L ->
  Forall (fun s => sg_name s < nextSequenceFile (dir_of L)) L.
Proof.
  intros HL. unfold nextSequenceFile. rewrite sequenceFiles_dir_of by done.
  destruct L as [|s L] using rev_ind; [constructor|]. rewrite fmap_app. cbn. rewrite last_snoc. cbn.
  apply increasing_by_app in HL as (_ & _ & HL). apply Forall_app. split; [|repeat constructor; lia].
  eapply Forall_impl; [exact HL|]. intros x Hx. apply Forall_inv in Hx. cbn in *. lia.
Qed.

Lemma createSegmentFile_zeros size : exists n, createSegmentFile size = meta_bytes ++ zeros n.
Proof.
  unfold createSegmentFile. destruct (Preallocate_new size) as (n & -> & _). exists (n - length meta_bytes)%nat.
  by rewrite (write_at_zeros [] n).
Qed.

Definition cut_queue (w : SegmentWAL) : list Z := sw_actorc w ++ match sw_head w with None => [] | Some hf => [sf_name hf] end.

(** The new newest file is empty. *)
Lemma cut_writing w L :
  sw_dir (sw_flush w) = dir_of L -> sw_closed (sw_flush w) = false ->
  Forall2 (past_file (cut_queue w)) (sw_files (sw_flush w)) L -> segs_ok L -> Forall (fun j => j ∈ sg_name <$> L) (cut_queue w) ->
  exists k, writing (sw_cut w) L k [] [].
Proof.
  intros Ed Hc Hp Hs Hq. exists (nextSequenceFile (sw_dir (sw_flush w))). unfold sw_cut. fold (cut_queue w).
  destruct (createSegmentFile_zeros (sw_segmentSize (sw_flush w))) as [n En]. set (w1 := sw_flush w) in *.
  exists (sw_files w1), (newSegmentFile (nextSequenceFile (sw_dir w1)) 8), [], [], n.
  cbn [sw_files sw_cur sw_dir sw_closed newSegmentFile sf_name sf_open sf_pos].
  split_and!; try done; [|constructor|by rewrite En, Ed]. split_and!; [done..| |done]. rewrite Ed. apply nextSequenceFile_gt, Hs.
Qed.

(** What the log holds: it is read but not yet written to, or it is written. *)
Definition holding (w : SegmentWAL) (D : list walData) : Prop :=
  (exists L, idle w L /\ all_data L = D) \/
  (exists L0 k ds, writing w L0 k ds (stream ds) /\ Forall data_ok ds /\ all_data L0 ++ ds = D).

Lemma no_queue_files pre L0 : Forall2 old_file pre L0 -> none_damaged L0 -> Forall2 (past_file []) pre L0.
Proof.
  induction 1 as [|f s pre L0 Hf _ IH]; intros Hnd; constructor; apply Forall_cons in Hnd as [? ?]; [|by apply IH].
  split; [done|]. by rewrite decide_False by apply not_elem_of_nil.
Qed.

Lemma past_none_damaged pre L0 : Forall2 (past_file []) pre L0 -> none_damaged L0.
Proof. induction 1 as [|f s pre L0 [_ Hf] _ IH]; constructor; [|done]. by rewrite decide_False in Hf by apply not_elem_of_nil. Qed.

Lemma past_old queue pre L0 : Forall2 (past_file queue) pre L0 -> Forall2 old_file pre L0.
Proof. intros H. eapply Forall2_impl; [exact H|]. by intros f s []. Qed.

Lemma dir_of_names_lt L0 s : increasing sg_name Z.compare (L0 ++ [s]) -> Forall (fun x => sg_name x < sg_name s) L0.
Proof.
  intros (_ & _ & H)%increasing_by_app. eapply Forall_impl; [exact H|]. intros x Hx. by apply Forall_inv in Hx.
Qed.

Lemma idle_past w pre L0 s : sw_actorc w = [] -> Forall2 old_file pre L0 -> segs_ok (L0 ++ [s]) -> readable (L0 ++ [s]) = L0 ++ [s] ->
  past_files w pre L0 (sg_name s).
Proof.
  intros Ea Ho Hs Hr. unfold past_files. rewrite Ea. split; [by apply no_queue_files; [|eapply readable_snoc_inv]|].
  split; [by eapply segs_ok_app|]. split; [by apply dir_of_names_lt, Hs|constructor].
Qed.

Lemma seg_ok_last L0 s : segs_ok (L0 ++ [s]) -> seg_ok s.
Proof. intros [_ H]. apply Forall_app in H as [_ H]. by apply Forall_inv in H. Qed.

Lemma cut_holding w D : holding w D ->
  exists L0 k, writing (sw_cut w) L0 k [] [] /\ all_data L0 = D.
Proof.
  intros [(L & (Ed & Hs & Hr & Ec & Hc & Ea & Hf) & <-)|(L0 & k & ds & Hw & Hok & <-)].
  - assert (Ew : sw_flush w = w) by (unfold sw_flush; by rewrite Ec).
    cut (exists k, writing (sw_cut w) L k [] []); [intros [k Hk]; by exists L, k|].
    destruct Hf as [[-> Ef]|(pre & f & L0 & s & Ef & -> & Hold & Ho & Hf)]; apply cut_writing; rewrite ?Ew; try done; rewrite ?Ef.
    + by constructor.
    + unfold cut_queue, sw_head. rewrite Ea, Ef. by constructor.
    + unfold cut_queue. rewrite Ea, (sw_head_last w pre f Ef). destruct Ho as [En Hn]. rewrite En.
      by apply (past_files_snoc w _ pre L0 f s); [apply idle_past|split|..|eapply seg_ok_last|rewrite Ea].
    + unfold cut_queue. rewrite Ea, (sw_head_last w pre f Ef). destruct Ho as [En Hn]. rewrite En.
      by apply (past_files_snoc w _ pre L0 f s); [apply idle_past|split|..|eapply seg_ok_last|rewrite Ea].
  - destruct (sw_flush_writing w L0 k ds _ Hw) as (Hw' & Ea & n & pre' & f0 & Ed & Ef & Ep).
    assert (Eh : cut_queue w = sw_actorc w ++ [k]).
    { unfold cut_queue. destruct Hw as (pre & f & _ & _ & _ & E1 & _ & <- & _). by rewrite (sw_head_last w pre f E1). }
    destruct Hw' as (pre & f & written & buf & n' & E1 & Hp & E2 & E3 & Hn & _ & _ & _ & _ & Hc).
    rewrite E1 in Ef. apply app_inj_tail in Ef as [<- <-].
    destruct (past_files_snoc (sw_flush w) (cut_queue w) pre L0 f (mkSeg k ds (zeros n))) as (F1 & F2 & F3); [done|done| | |by rewrite Ea|].
    { split; [done|]. exists []. split; [done|]. unfold seg_bytes. cbn [sg_data sg_tail sg_name]. rewrite app_nil_r, (assoc_L (++)), Ep.
      apply truncate_at_zeros. by rewrite zlen_app, zlen_meta. }
    { split; [done|apply zeros_no_entry]. }
    destruct (cut_writing w (L0 ++ [mkSeg k ds (zeros n)])) as [k' Hw']; [|done|by rewrite E1|done|done|].
    { rewrite Ed, dir_of_snoc; [done|apply Hp]. }
    exists (L0 ++ [mkSeg k ds (zeros n)]), k'. split; [done|]. rewrite all_data_app. cbn. by rewrite app_nil_r.
Qed.

(** Before an entry is written the newest file is there. *)
Lemma sw_write_ready w D (sz : Z) :
  holding w D ->
  let w' := if match sw_cur w with None => true | Some _ => false end ||
       (sw_segmentSize w <? sw_curN w) || (sw_segmentSize w <? sw_curN w + sz) && (sz <=? sw_segmentSize w)
    then sw_cut w else w in
  exists L0 k ds, writing w' L0 k ds (stream ds) /\ Forall data_ok ds /\ all_data L0 ++ ds = D.
Proof.
  intros Hh. cbv zeta. match goal with |- context [if ?b then _ else _] => destruct b eqn:Eb end.
  - destruct (cut_holding w D Hh) as (L0 & k & Hw & E). exists L0, k, []. split; [done|]. split; [constructor|by rewrite app_nil_r].
  - destruct Hh as [(L & Hi & _)|H]; [|done]. destruct Hi as (_ & _ & _ & Hc & _). by rewrite Hc in Eb.
Qed.

Lemma with_cur_writing w L0 k ds str n :
  writing w L0 k ds str -> writing (with_cur w (sw_cur w) n) L0 k ds str.
Proof. done. Qed.

(** The three writes of an entry are one write of its bytes. *)
Lemma writeTo_writing w L0 k ds t flag body :
  writing w L0 k ds (stream ds) -> body <> [] ->
  exists n w', writeTo cur_write w t flag body = (w', n) /\ writing w' L0 k ds (stream ds ++ entry_bytes t flag body).
Proof.
  intros Hw Hb. unfold writeTo. destruct (Z.eqb_spec (zlen body) 0) as [E|_].
  { by destruct body. }
  eexists _, _. split; [done|]. unfold entry_bytes. rewrite !(assoc_L (++)).
  by do 3 apply cur_write_writing.
Qed.

Lemma sw_write_data w D d :
  holding w D -> data_ok d ->
  exists L0 k ds, writing (sw_write w (data_type d) 1 (data_body d)) L0 k ds (stream (ds ++ [d])) /\
    Forall data_ok ds /\ all_data L0 ++ ds = D.
Proof.
  intros Hh [Hwf Hlen]. unfold sw_write.
  destruct (sw_write_ready w D (zlen (data_body d) + 6) Hh) as (L0 & k & ds & Hw & Hok & E).
  cbv zeta. match goal with |- context [writeTo cur_write ?w0] => set (w1 := w0) in * end.
  destruct (writeTo_writing w1 L0 k ds (data_type d) 1 (data_body d) Hw (data_body_nonempty d Hwf)) as (n & w' & -> & Hw').
  exists L0, k, ds. split; [|done]. apply with_cur_writing. rewrite stream_app, stream_cons, app_nil_r. exact Hw'.
Qed.

Lemma sw_write_nil w D t : holding w D -> exists L0 k ds, writing (sw_write w t 1 []) L0 k ds (stream ds) /\ Forall data_ok ds /\ all_data L0 ++ ds = D.
Proof.
  intros Hh. unfold sw_write.
  destruct (sw_write_ready w D (zlen (@nil Z) + 6) Hh) as (L0 & k & ds & Hw & Hok & E).
  exists L0, k, ds. split; [|done]. by apply with_cur_writing.
Qed.

Lemma upd_head_writing w L0 k ds str g new :
  writing w L0 k ds str -> (forall f, sees f (g f) /\ noted (g f) new) -> writing (upd_head w g) L0 k (ds ++ new) str.
Proof.
  intros (pre & f & written & buf & n & E1 & Hold & E2 & E3 & Hn & E4 & E5 & E6 & E7 & H) Hg.
  unfold upd_head. rewrite (sw_head_last _ pre f E1), (set_head_last _ pre f _ E1).
  destruct (Hg f) as [Hs Hnew]. pose proof Hs as (F1 & F2 & F3 & _).
  exists pre, (g f), written, buf, n. cbn [sw_with sw_files sw_dir sw_cur sw_closed]. rewrite F1, F2, F3.
  split_and!; try done. apply Forall_app. split; [by eapply noted_sees|done].
Qed.

(** ** The background *)

Lemma run_actor_queue w j : sw_actorc (run_actor w j) = filter (fun i => i <> j) (sw_actorc w).
Proof.
  unfold run_actor. destruct (decide (j ∈ sw_actorc w)) as [Hj|Hj].
  - by destruct (list_find _ _) as [[i hf]|].
  - symmetry. apply filter_all, Forall_forall. by intros i Hi ->.
Qed.

Lemma dir_of_cons x L : dir_of (x :: L) = <[sg_name x := seg_bytes x]> (dir_of L).
Proof. done. Qed.

Lemma dir_of_alter La s s' Lb g :
  Forall (fun x => sg_name x <> sg_name s) La -> sg_name s' = sg_name s -> g (seg_bytes s) = seg_bytes s' ->
  alter g (sg_name s) (dir_of (La ++ s :: Lb)) = dir_of (La ++ s' :: Lb).
Proof.
  intros Hla En Eg. induction Hla as [|x La Hx _ IH]; cbn [app]; rewrite !dir_of_cons.
  - by rewrite alter_insert, Eg, En.
  - by rewrite alter_insert_ne, IH by done.
Qed.

Lemma segs_ok_replace La s s' Lb : segs_ok (La ++ s :: Lb) -> sg_name s' = sg_name s -> seg_ok s' -> segs_ok (La ++ s' :: Lb).
Proof.
  intros [Hi Hok] En Hs. split; [|by apply Forall_app in Hok as [? [_ ?]%Forall_cons]; apply Forall_app; split; [|constructor]].
  clear Hok. induction La as [|x La IH]; cbn [app] in *; apply StronglySorted_inv in Hi as [Hi Hx].
  - constructor; [done|]. by rewrite En.
  - constructor; [by apply IH|]. apply Forall_app in Hx as [? [? ?]%Forall_cons]. apply Forall_app. split; [done|]. constructor; [by rewrite En|done].
Qed.

(** A file that is finished has an end that is no damage. *)
Lemma finish_past queue j pre L0 :
  Forall2 (past_file queue) pre L0 -> segs_ok L0 -> j ∈ queue -> j ∈ sg_name <$> L0 ->
  exists La s s' Lb pa g pb, L0 = La ++ s :: Lb /\ pre = pa ++ g :: pb /\ length pa = length La /\ sf_name g = j /\ sg_name s = j /\
    Forall (fun f => sf_name f <> j) pa /\ Forall (fun x => sg_name x <> j) La /\ sg_name s' = sg_name s /\ sg_data s' = sg_data s /\ seg_ok s' /\
    truncate_at (seg_bytes s) (sf_pos g) = seg_bytes s' /\
    Forall2 (past_file (filter (fun i => i <> j) queue)) (pa ++ sf_close g :: pb) (La ++ s' :: Lb).
Proof.
  intros Hp [Hi Hok] Hj (s & -> & (La & Lb & ->)%list_elem_of_split)%list_elem_of_fmap.
  apply Forall2_app_inv_r in Hp as (pa & pg & Hpa & Hpg & ->). apply Forall2_cons_inv_r in Hpg as (g & pb & [[En Hn] Hg] & Hpb & ->).
  rewrite decide_True in Hg by done. destruct Hg as (Ho & tail & Hq & Et).
  apply increasing_by_app in Hi as (_ & Hi & Hlt). change (s :: Lb) with ([s] ++ Lb) in Hi.
  apply increasing_by_app in Hi as (_ & _ & Hgt%Forall_inv).
  assert (Hla : Forall (fun x => sg_name x <> sg_name s) La).
  { eapply Forall_impl; [exact Hlt|]. intros x Hx. apply Forall_inv in Hx. cbn in Hx. lia. }
  assert (Hlb : Forall (fun x => sg_name x <> sg_name s) Lb).
  { eapply Forall_impl; [exact Hgt|]. intros x Hx. cbn in Hx. lia. }
  assert (Hkeep : forall fs L, Forall2 (past_file queue) fs L -> Forall (fun x => sg_name x <> sg_name s) L ->
    Forall2 (past_file (filter (fun i => i <> sg_name s) queue)) fs L).
  { intros fs L H. induction H as [|f x fs L [Hf Hx] _ IH]; intros Hne; constructor; apply Forall_cons in Hne as [Hne ?]; [|by apply IH].
    split; [done|]. destruct (decide (sg_name x ∈ queue)) as [Hin|Hin].
    - rewrite decide_True; [done|]. by apply list_elem_of_filter.
    - rewrite decide_False; [done|]. by intros [_ ?]%list_elem_of_filter. }
  exists La, s, (mkSeg (sg_name s) (sg_data s) tail), Lb, pa, g, pb. do 2 (split; [done|]).
  split; [by eapply Forall2_length|]. do 2 (split; [done|]). split.
  { clear -Hpa Hla. induction Hpa as [|f x fs L [[E _] _] _ IH]; constructor; apply Forall_cons in Hla as [? ?]; [by rewrite E|by apply IH]. }
  do 3 (split; [done|]). split.
  { split; [|cbn; by rewrite Hq]. apply Forall_app in Hok as [_ [[? _] _]%Forall_cons]. done. }
  split; [done|]. apply Forall2_app; [by apply Hkeep|]. constructor; [|by apply Hkeep].
  split; [done|]. cbn [sg_name sg_tail]. rewrite decide_False by (by intros [? _]%list_elem_of_filter). by apply quiet_not_damaged.
Qed.

Lemma run_actor_writing w L0 k ds str j : writing w L0 k ds str ->
  exists L0', writing (run_actor w j) L0' k ds str /\ all_data L0' = all_data L0.
Proof.
  intros Hw. unfold run_actor. destruct (decide (j ∈ sw_actorc w)) as [Hj|Hj]; [|by exists L0].
  destruct Hw as (pre & f & written & buf & n & E1 & (Hp & Hs & Hlt & Hq) & E2 & E3 & Hn & E4 & E5 & E6 & E7 & Hc).
  pose proof Hq as Hjl. rewrite Forall_forall in Hjl.
  destruct (finish_past (sw_actorc w) j pre L0 Hp Hs Hj (Hjl j Hj)) as (La & s & s' & Lb & pa & g & pb & -> & -> & Elen & Eg & Es & Hpa & Hla & En & Ed & Hok & Et & Hp').
  assert (Ef : list_find (fun f => sf_name f = j) (sw_files (with_actorc w (filter (fun i => i <> j) (sw_actorc w)))) = Some (length pa, g)).
  { cbn [with_actorc sw_files]. rewrite E1, <- (assoc_L (++)). apply list_find_Some. split; [by rewrite lookup_app_r, Nat.sub_diag by done|]. split; [done|].
    intros i y Hy Hi. rewrite lookup_app_l in Hy by done. rewrite Forall_forall in Hpa. apply Hpa. by eapply list_elem_of_lookup_2. }
  cbv zeta. rewrite Ef. exists (La ++ s' :: Lb). split; [|by rewrite !all_data_app; cbn; rewrite Ed].
  assert (Hk : sg_name s <> k). { apply Forall_app in Hlt as [_ [? _]%Forall_cons]. lia. }
  exists (pa ++ sf_close g :: pb), f, written, buf, n. cbn [finish_segment sw_with with_actorc sw_files sw_dir sw_cur sw_closed].
  split_and!; try done.
  - rewrite E1. rewrite <- !(assoc_L (++)). cbn [app]. by rewrite insert_middle.
  - unfold past_files. cbn [finish_segment sw_with with_actorc sw_actorc]. split; [done|]. split; [by eapply segs_ok_replace|]. split.
    + apply Forall_app in Hlt as [? [? ?]%Forall_cons]. apply Forall_app. split; [done|]. constructor; [by rewrite En|done].
    + apply Forall_forall. intros i [_ Hi]%list_elem_of_filter. specialize (Hjl i Hi). rewrite fmap_app, fmap_cons in *. by rewrite En.
  - rewrite E7, Eg, <- Es. rewrite alter_insert_ne by done. f_equal. apply dir_of_alter; [by rewrite Es|done|done].
Qed.

Lemma run_actor_holding w D j : holding w D -> holding (run_actor w j) D.
Proof.
  intros [(L & Hi & E)|(L0 & k & ds & Hw & Hok & <-)].
  - left. exists L. split; [|done]. unfold run_actor. pose proof Hi as (_ & _ & _ & _ & _ & -> & _). by rewrite decide_False by apply not_elem_of_nil.
  - right. destruct (run_actor_writing w L0 k ds _ j Hw) as (L0' & Hw' & <-). by exists L0', k, ds.
Qed.

(** The background does all that is queued. *)
Definition catch_up (w : SegmentWAL) : SegmentWAL := foldl run_actor w (sw_actorc w).

Lemma run_actors_holding ks w D : holding w D ->
  holding (foldl run_actor w ks) D /\ (Forall (fun j => j ∈ ks) (sw_actorc w) -> sw_actorc (foldl run_actor w ks) = []).
Proof.
  revert w. induction ks as [|k ks IH]; intros w Hh; cbn [foldl].
  - split; [done|]. destruct (sw_actorc w) as [|j q]; [done|]. by intros ?%Forall_inv%not_elem_of_nil.
  - destruct (IH (run_actor w k) (run_actor_holding w D k Hh)) as [H1 H2]. split; [done|]. intros Hq. apply H2.
    rewrite run_actor_queue. apply Forall_forall. intros j [Hj Hin]%list_elem_of_filter. rewrite Forall_forall in Hq.
    specialize (Hq j Hin). by apply elem_of_cons in Hq as [?|?].
Qed.

Lemma catch_up_holding w D : holding w D -> holding (catch_up w) D /\ sw_actorc (catch_up w) = [].
Proof. intros Hh. destruct (run_actors_holding (sw_actorc w) w D Hh) as [H1 H2]. split; [done|]. apply H2, Forall_forall. done. Qed.

(** ** Operations *)

Inductive legacy_op :=
| OpSeries (series : list RefSeries)
| OpSamples (samples : list RefSample)
| OpDeletes (stones : list Stone)
| OpSync
| OpBackground (k : Z).

Definition run_legacy_op (w : SegmentWAL) (op : legacy_op) : SegmentWAL :=
  match op with
  | OpSeries s => LogSeries w s
  | OpSamples s => LogSamples w s
  | OpDeletes s => LogDeletes w s
  | OpSync => Sync w
  | OpBackground k => run_actor w k
  end.

(** What is read of an operation: nothing of an empty batch, a stone per interval. *)
Definition op_data (op : legacy_op) : list walData :=
  match op with
  | OpSeries [] | OpSamples [] | OpSync | OpBackground _ => []
  | OpSeries s => [SeriesData s]
  | OpSamples s => [SamplesData s]
  | OpDeletes s => match s ≫= split_stone with [] => [] | l => [DeletesData l] end
  end.

Definition op_ok (op : legacy_op) : Prop :=
  match op with
  | OpSeries s => Forall series_ok s /\ zlen (encodeSeries s) < 2 ^ 32
  | OpSamples s => Forall sample_ok s /\ zlen (encodeSamples s) < 2 ^ 32
  | OpDeletes s => Forall stone_wf s /\ zlen (encodeDeletes s) < 2 ^ 32
  | OpSync | OpBackground _ => True
  end.

Lemma log_holding w D g d :
  holding w D -> data_ok d -> (forall f, sees f (g f) /\ noted (g f) [d]) ->
  holding (upd_head (sw_write w (data_type d) 1 (data_body d)) g) (D ++ [d]).
Proof.
  intros Hh Hd Hg. destruct (sw_write_data w D d Hh Hd) as (L0 & k & ds & Hw & Hok & <-).
  right. exists L0, k, (ds ++ [d]). split; [by apply upd_head_writing|]. split; [|by rewrite (assoc_L (++))].
  apply Forall_app. split; [done|by constructor].
Qed.

Lemma log_holding_nil w D t g :
  holding w D -> (forall f, sees f (g f)) -> holding (upd_head (sw_write w t 1 []) g) D.
Proof.
  intros Hh Hg. destruct (sw_write_nil w D t Hh) as (L0 & k & ds & Hw & Hok & <-).
  right. exists L0, k, ds. split; [|done]. rewrite <- (app_nil_r ds) at 1. apply upd_head_writing; [done|].
  intros f. split; [apply Hg|constructor].
Qed.

Lemma noted_one f d : noted f [d] <-> data_until (sf_maxTime f) d.
Proof. unfold noted. rewrite Forall_singleton. done. Qed.

Lemma see_data_noted f d : sees f (see_data f d) /\ noted (see_data f d) [d].
Proof. destruct (see_data_sees f d). split; [done|by apply noted_one]. Qed.

(** Noting a stone at a time is noting an interval at a time. *)
Lemma see_stones_split f s : see_stones f (s ≫= split_stone) = see_stones f s.
Proof.
  unfold see_stones. revert f. induction s as [|st s IH]; intros f; [done|].
  change ((st :: s) ≫= split_stone) with (split_stone st ++ (s ≫= split_stone)). rewrite foldl_app, IH. cbn [foldl]. f_equal.
  unfold split_stone. generalize f. induction (st_intervals st) as [|iv ivs IHi]; intros f0; [done|]. cbn. by rewrite IHi.
Qed.

Lemma split_stones_ok s : Forall stone_wf s ->
  Forall (fun st => stone_wf st /\ length (st_intervals st) = 1%nat) (s ≫= split_stone).
Proof.
  intros Hs. apply Forall_bind. eapply Forall_impl; [exact Hs|]. intros st [Hr Hi].
  apply Forall_fmap. eapply Forall_impl; [exact Hi|]. intros iv ?. cbn.
  split; [|done]. split; [done|by constructor].
Qed.

Lemma run_legacy_op_holding w D op : holding w D -> op_ok op -> holding (run_legacy_op w op) (D ++ op_data op).
Proof.
  intros Hh. destruct op as [s|s|s| |k]; cbn [run_legacy_op op_data op_ok].
  - intros [Hs Hl]. destruct s as [|s0 s].
    { rewrite app_nil_r. apply log_holding_nil; [done|]. intros f. apply (see_data_sees f (SeriesData [])). }
    apply (log_holding w D _ (SeriesData (s0 :: s))); [done|by split; [split|]|apply (fun f => see_data_noted f (SeriesData (s0 :: s)))].
  - intros [Hs Hl]. destruct s as [|s0 s].
    { rewrite app_nil_r. apply log_holding_nil; [done|]. intros f. apply (see_data_sees f (SamplesData [])). }
    apply (log_holding w D _ (SamplesData (s0 :: s))); [done|by split; [split|]|apply (fun f => see_data_noted f (SamplesData (s0 :: s)))].
  - intros [Hs Hl]. unfold LogDeletes. rewrite encodeDeletes_split in Hl |- *. apply split_stones_ok in Hs.
    assert (Hg : forall f, sees f (see_stones f s) /\ noted (see_stones f s) [DeletesData (s ≫= split_stone)]).
    { intros f. rewrite <- see_stones_split. apply (see_data_noted f (DeletesData (s ≫= split_stone))). }
    destruct (s ≫= split_stone) as [|s0 l].
    { rewrite app_nil_r. apply log_holding_nil; [done|]. intros f. apply Hg. }
    apply (log_holding w D _ (DeletesData (s0 :: l))); [done|by split; [split|]|done].
  - intros _. rewrite app_nil_r. destruct Hh as [(L & Hi & <-)|(L0 & k & ds & Hw & Hok & <-)].
    + left. exists L. split; [|done]. unfold Sync, sw_flush. pose proof Hi as (_ & _ & _ & -> & _). done.
    + right. exists L0, k, ds. split; [|done]. by apply sw_flush_writing.
  - intros _. rewrite app_nil_r. by apply run_actor_holding.
Qed.

Lemma run_ops_holding w D ops : holding w D -> Forall op_ok ops -> holding (foldl run_legacy_op w ops) (D ++ (ops ≫= op_data)).
Proof.
  intros Hh Hops. revert w D Hh. induction Hops as [|op ops Hop _ IH]; intros w D Hh; cbn [foldl].
  - by rewrite app_nil_r.
  - change ((op :: ops) ≫= op_data) with (op_data op ++ (ops ≫= op_data)). rewrite (assoc_L (++)).
    by apply IH, run_legacy_op_holding.
Qed.

(** Synced or closed, the files hold the data; when nothing is queued, they can be read. *)
Lemma Sync_dir w D : holding w D ->
  exists L, sw_dir (Sync w) = dir_of L /\ segs_ok L /\ all_data L = D /\ (sw_actorc w = [] -> readable L = L).
Proof.
  unfold Sync. intros [(L & Hi & <-)|(L0 & k & ds & Hw & Hok & <-)].
  - exists L. unfold sw_flush. destruct Hi as (Hd & Hs & Hr & -> & _). done.
  - destruct (sw_flush_writing w L0 k ds _ Hw) as (_ & _ & n & _ & _ & Ed & _).
    destruct Hw as (pre & _ & _ & _ & _ & _ & (Hp & Hs & Hlt & _) & _).
    exists (L0 ++ [mkSeg k ds (zeros n)]). split; [by rewrite Ed, dir_of_snoc|]. split_and!.
    + apply segs_ok_snoc; [done|done|]. split; [done|]. apply zeros_no_entry.
    + by rewrite all_data_app; cbn; rewrite app_nil_r.
    + intros Eq. rewrite Eq in Hp. rewrite readable_none_damaged by by eapply past_none_damaged. cbn. by destruct (damaged (zeros n)).
Qed.

Lemma Close_dir w D : holding w D -> sw_dir (fst (sw_Close w)) = sw_dir (Sync w) /\ snd (sw_Close w) = None.
Proof.
  assert (Hu : forall w g, sw_dir (upd_head w g) = sw_dir w) by (intros w0 g; unfold upd_head; by destruct (sw_head w0)).
  intros [(L & Hi & <-)|(L0 & k & ds & Hw & Hok & <-)]; unfold sw_Close, Sync.
  - destruct Hi as (Hd & Hs & Hr & Hc & Hcl & _ & Hf). rewrite Hcl. unfold sw_flush. rewrite Hc. cbn zeta.
    destruct Hf as [[_ Ef]|(pre & f & _ & _ & Ef & _ & _ & _ & Ho & _)].
    + unfold sw_head; cbn [sw_files]. by rewrite Ef.
    + rewrite (sw_head_last _ pre f) by done. rewrite Ho. cbn [fst snd]. by rewrite Hu.
  - destruct (sw_flush_writing w L0 k ds _ Hw) as [Hw' _].
    destruct Hw' as (pre & f & _ & _ & _ & Ef & _ & _ & Ho & _).
    destruct Hw as (_ & _ & _ & _ & _ & _ & _ & _ & _ & _ & _ & _ & _ & _ & ->). cbn zeta.
    rewrite (sw_head_last _ pre f) by done. rewrite Ho. cbn [fst snd]. by rewrite Hu.
Qed.

(** ** Sessions *)

(** A run of the program: it opens the log, reads it, logs, and ends by closing it or
    by a crash after a sync; before that, [last] of what is queued for the background is
    done.  The data read, the files left, and the error of reading. *)
Definition session_with (last : SegmentWAL -> SegmentWAL) (dir : directory) (size : Z) (ops : list legacy_op) (close : bool) :
    res (list walData * directory * option error) :=
  let? (ds, w, e) := sw_Read (OpenSegmentWAL dir size) in
  let w := last (foldl run_legacy_op w ops) in
  Ok (ds, sw_dir (if close then fst (sw_Close w) else Sync w), e).

(** The data of each session, as read at its start. *)
Fixpoint sessions_with (last : SegmentWAL -> SegmentWAL) (dir : directory) (ss : list (Z * list legacy_op * bool)) :
    res (list (list walData) * directory) :=
  match ss with
  | [] => Ok ([], dir)
  | (size, ops, close) :: ss =>
      let? (ds, dir, e) := session_with last dir size ops close in
      match e with
      | Some e => Err e
      | None => let? (dss, dir) := sessions_with last dir ss in Ok (ds :: dss, dir)
      end
  end.

(** Either everything that is queued gets done, or no more than the operations
    [OpBackground] of the session. *)
Definition session := session_with catch_up.
Definition sessions := sessions_with catch_up.
Definition sessions_cut_off := sessions_with id.

Lemma idle_holding w L : idle w L -> holding w (all_data L).
Proof. intros Hi. left. by exists L. Qed.

Lemma session_with_ok last L size ops close :
  (forall w D, holding w D -> holding (last w) D) -> segs_ok L -> Forall op_ok ops ->
  exists w L', session_with last (dir_of L) size ops close = Ok (all_data (readable L), dir_of L', None) /\
    holding w (all_data (readable L) ++ (ops ≫= op_data)) /\
    segs_ok L' /\ all_data L' = all_data (readable L) ++ (ops ≫= op_data) /\ (sw_actorc (last w) = [] -> readable L' = L').
Proof.
  intros Hlast HL Hops. destruct (sw_Read_spec L size HL) as (w & Er & Hi & _).
  unfold session_with. rewrite Er. cbn [res_bind].
  pose proof (run_ops_holding w _ ops (idle_holding _ _ Hi) Hops) as Hh. pose proof (Hlast _ _ Hh) as Hh'.
  destruct (Sync_dir _ _ Hh') as (L' & Ed & Hs & Ea & Hr). destruct (Close_dir _ _ Hh') as [Ec _].
  exists (foldl run_legacy_op w ops), L'. split; [|done]. destruct close; by rewrite ?Ec, Ed.
Qed.

Lemma session_ok L size ops close :
  segs_ok L -> Forall op_ok ops ->
  exists L', session (dir_of L) size ops close = Ok (all_data (readable L), dir_of L', None) /\
    segs_ok L' /\ readable L' = L' /\ all_data L' = all_data (readable L) ++ (ops ≫= op_data).
Proof.
  intros HL Hops. destruct (session_with_ok catch_up L size ops close) as (w & L' & E & Hh & Hs & Ea & Hr); [apply catch_up_holding|done..|].
  exists L'. split; [done|]. split; [done|]. split; [|done]. by eapply Hr, catch_up_holding.
Qed.

(** All data logged before each session. *)
Fixpoint logged_before (D : list walData) (ss : list (Z * list legacy_op * bool)) : list (list walData) :=
  match ss with
  | [] => []
  | (_, ops, _) :: ss => D :: logged_before (D ++ (ops ≫= op_data)) ss
  end.

Lemma sessions_ok L ss :
  segs_ok L -> Forall (fun x => Forall op_ok (snd (fst x))) ss ->
  exists L', sessions (dir_of L) ss = Ok (logged_before (all_data (readable L)) ss, dir_of L') /\ segs_ok L' /\
    all_data (readable L') = all_data (readable L) ++ mjoin ((fun x => snd (fst x) ≫= op_data) <$> ss).
Proof.
  intros HL Hss. revert L HL. induction Hss as [|[[size ops] close] ss Hops _ IH]; intros L HL.
  { exists L. split; [done|]. split; [done|]. by rewrite app_nil_r. }
  cbn [snd fst] in Hops. destruct (session_ok L size ops close HL Hops) as (L1 & E1 & Hs1 & Hr1 & Ea1).
  destruct (IH L1 Hs1) as (L2 & E2 & Hs2 & Ea2). exists L2. unfold sessions in *. cbn [sessions_with]. fold session. rewrite E1. cbn [res_bind]. rewrite E2. cbn [res_bind logged_before].
  rewrite Hr1, Ea1 in *. split; [done|]. split; [done|]. rewrite Ea2. cbn. by rewrite <- (assoc_L (++)).
Qed.

(** Sessions that read [dss], and whoever opens the log at the end [D']: each reads the
    first part of what the session before it has read and logged. *)
Inductive reads_prefixes : list walData -> list (Z * list legacy_op * bool) -> list (list walData) -> list walData -> Prop :=
| reads_end D D' : D' `prefix_of` D -> reads_prefixes D [] [] D'
| reads_session D D1 size ops close ss dss D' :
    D1 `prefix_of` D -> reads_prefixes (D1 ++ (ops ≫= op_data)) ss dss D' ->
    reads_prefixes D ((size, ops, close) :: ss) (D1 :: dss) D'.

Lemma readable_data_prefix L : all_data (readable L) `prefix_of` all_data L.
Proof. destruct (readable_prefix L) as [K EK]. rewrite EK at 2. rewrite all_data_app. by eexists. Qed.

Lemma sessions_cut_off_ok L ss :
  segs_ok L -> Forall (fun x => Forall op_ok (snd (fst x))) ss ->
  exists L' dss, sessions_cut_off (dir_of L) ss = Ok (dss, dir_of L') /\ segs_ok L' /\
    reads_prefixes (all_data L) ss dss (all_data (readable L')).
Proof.
  intros HL Hss. revert L HL. induction Hss as [|[[size ops] close] ss Hops _ IH]; intros L HL.
  { exists L, []. split; [done|]. split; [done|]. constructor. apply readable_data_prefix. }
  cbn [snd fst] in Hops. destruct (session_with_ok id L size ops close ltac:(done) HL Hops) as (_ & L1 & E1 & _ & Hs1 & Ea1 & _).
  destruct (IH L1 Hs1) as (L2 & dss & E2 & Hs2 & Hr). exists L2, (all_data (readable L) :: dss). unfold sessions_cut_off in *. cbn [sessions_with]. rewrite E1. cbn [res_bind]. rewrite E2.
  split; [done|]. split; [done|]. rewrite Ea1 in Hr. constructor; [apply readable_data_prefix|done].
Qed.

(** * Truncation *)

(** What truncation leaves of data: the series that are kept. *)
Definition compact_data (keep : Z -> bool) (d : walData) : list walData :=
  match d with
  | SeriesData s => match filter (fun s => keep (rs_Ref s) = true) s with [] => [] | l => [SeriesData l] end
  | _ => []
  end.

(** A file with its position behind [pre]. *)
Definition file_at (pre : list Z) (n : nat) : list Z * Z := (pre ++ zeros n, zlen pre).

Lemma file_write_at pre n b : file_write (file_at pre n) b = file_at (pre ++ b) (n - length b).
Proof.
  unfold file_write, file_at. cbn [fst snd]. rewrite write_at_zeros, zlen_app by done. by rewrite (assoc_L (++)).
Qed.

Lemma writeTo_file_at pre n t flag body : body <> [] ->
  exists n' k, writeTo file_write (file_at pre n) t flag body = (file_at (pre ++ entry_bytes t flag body) n', k).
Proof.
  intros Hb. unfold writeTo. destruct (Z.eqb_spec (zlen body) 0) as [E|_]; [by destruct body|].
  rewrite !file_write_at. eexists _, _. unfold entry_bytes. by rewrite !(assoc_L (++)).
Qed.

Lemma encodeSeries_filter (P : RefSeries -> Prop) `{!forall x, Decision (P x)} s :
  zlen (encodeSeries (filter P s)) <= zlen (encodeSeries s).
Proof.
  rewrite !encodeSeries_bytes. induction s as [|x s IH]; [done|]. rewrite filter_cons.
  pose proof (zlen_nonneg (series_bytes x)). case_decide; rewrite ?fmap_cons, ?join_cons, ?zlen_app; lia.
Qed.

Lemma compact_data_ok keep d : data_ok d -> Forall data_ok (compact_data keep d).
Proof.
  destruct d as [s|s|s]; [|constructor..]. intros [[_ Hs] Hl]. cbn [compact_data].
  pose proof (encodeSeries_filter (fun s => keep (rs_Ref s) = true) s) as Hle. cbn [data_body] in Hl.
  destruct (filter _ s) as [|x l] eqn:E; [constructor|]. apply Forall_singleton.
  split; [|cbn [data_body]; lia]. split; [done|]. rewrite <- E. by apply Forall_filter_weaken.
Qed.

Definition no_note (f : segmentFile) (ds : list walData) : Prop := True.

Lemma compact_loop_spec dir L keep fuel r f s ds0 ds rest pre n :
  reading no_note dir L r f s ds0 ds rest -> Forall seg_ok L -> (length (pending s ds rest) < fuel)%nat ->
  exists r' n', compact_loop fuel dir keep r (file_at pre n) =
    Ok (r', file_at (pre ++ stream (pending s ds rest ≫= compact_data keep)) n') /\ finished no_note dir L r'.
Proof.
  revert r f s ds0 ds rest pre n. induction fuel as [|fuel IH]; intros r f s ds0 ds rest pre n Hrd HL Hf; [lia|].
  cbn [compact_loop].
  pose proof (lr_next_spec no_note (fun _ _ _ _ H => H) (fun _ => I) dir L (length (lr_files r)) _ _ _ _ _ _ Hrd I HL (reading_length _ _ _ _ _ _ _ _ _ Hrd)) as H.
  destruct (pending s ds rest) as [|d l] eqn:Ep.
  { destruct H as (r' & -> & Hfin). exists r', n. split; [|done]. cbn. by rewrite app_nil_r. }
  destruct H as (r' & f' & s' & ds0' & ds1 & rest' & -> & _ & Hrd' & _ & ->).
  pose proof (reading_data_ok _ _ _ _ _ _ _ _ _ _ HL Hrd') as Hd.
  cbn in Hf. change ((d :: ?l) ≫= ?g) with (g d ++ (l ≫= g)). rewrite stream_app, (assoc_L (++)).
  destruct d as [series|samples|stones]; cbn [data_type];
    change (negb (WALEntrySeries =? WALEntrySeries)) with false;
    change (negb (WALEntrySamples =? WALEntrySeries)) with true;
    change (negb (WALEntryDeletes =? WALEntrySeries)) with true; cbn match.
  2, 3: cbn [compact_data]; change (stream []) with (@nil Z); rewrite app_nil_r; apply (IH _ _ _ _ _ _ _ _ Hrd' HL); lia.
  cbn [data_body]. rewrite decode_series_ok by apply Hd. cbn [res_bind compact_data].
  destruct (filter _ series) as [|x l0] eqn:El.
  { change (stream []) with (@nil Z). rewrite app_nil_r. apply (IH _ _ _ _ _ _ _ _ Hrd' HL). lia. }
  destruct (writeTo_file_at pre n WALEntrySeries walSeriesSimple (encodeSeries (x :: l0))) as (n' & k & ->).
  { by rewrite encodeSeries_bytes. }
  rewrite stream_cons. change (stream []) with (@nil Z). rewrite app_nil_r. change (entry_bytes WALEntrySeries walSeriesSimple (encodeSeries (x :: l0))) with (data_bytes (SeriesData (x :: l0))).
  apply (IH _ _ _ _ _ _ _ _ Hrd' HL). lia.
Qed.

(** The files that are compacted: a prefix of the closed files, all their times
    before [mint], and it ends only at a file with a later time. *)
Definition candidates_of (mint : Z) (pre cs : list segmentFile) : Prop :=
  exists m, cs = (fun f => mkSegmentFile (sf_name f) true 8 (sf_maxTime f) (sf_minSeries f)) <$> take m pre /\
    (m <= length pre)%nat /\ Forall (fun f => sf_maxTime f < mint) (take m pre) /\
    match pre !! m with Some f => mint <= sf_maxTime f | None => True end.

Lemma select_candidates_spec dir mint pre L0 :
  Forall2 (fun f s => sf_name f = sg_name s /\ dir !! sg_name s = Some (seg_bytes s)) pre L0 ->
  exists cs, select_candidates dir mint pre = Ok cs /\ candidates_of mint pre cs.
Proof.
  induction 1 as [|f s pre L0 [En El] _ (cs & E & m & Ec & Hm & Hlt & Hnext)].
  { exists []. split; [done|]. exists 0%nat. split_and!; (done || lia || constructor). }
  cbn [select_candidates]. destruct (Z.leb_spec mint (sf_maxTime f)) as [Hle|Hgt].
  - exists []. split; [done|]. exists 0%nat. cbn. split_and!; (done || lia || constructor).
  - rewrite En, openSegmentFile_ok by done. cbn [res_bind]. rewrite E. cbn [res_bind]. eexists. split; [done|].
    exists (S m). cbn. rewrite <- Ec, En. split_and!; (done || lia || by constructor).
Qed.

Lemma dir_size_subseteq (m1 m2 : directory) : m1 ⊆ m2 -> (dir_size m1 <= dir_size m2)%nat.
Proof.
  intros H%map_to_list_submseteq. apply submseteq_Permutation in H as [k H]. unfold dir_size.
  rewrite H, fmap_app, join_app, length_app. lia.
Qed.

(** The log as truncation sees it: the files behind, and the newest one as it is. *)
Definition on_top (w : SegmentWAL) (pre : list segmentFile) (f : segmentFile) (L0 : list seg) (k : Z) (c : list Z) : Prop :=
  sw_dir w = <[k := c]> (dir_of L0) /\ sw_files w = pre ++ [f] /\ past_files w pre L0 k.

Lemma on_top_lookup w pre f L0 k c s : on_top w pre f L0 k c -> s ∈ L0 -> sw_dir w !! sg_name s = Some (seg_bytes s).
Proof.
  intros (-> & _ & _ & [Hi _] & Hlt & _) Hs. rewrite lookup_insert_ne; [by apply dir_lookup|].
  rewrite Forall_forall in Hlt. specialize (Hlt s Hs). lia.
Qed.

(** The compacted file takes the place of the first candidate. *)
Lemma compacted_dir C K s0 x k c :
  increasing sg_name Z.compare (s0 :: C ++ K) -> Forall (fun s => sg_name s < k) (s0 :: C ++ K) -> sg_name x = sg_name s0 ->
  foldl (fun dir k => delete k dir) (<[sg_name s0 := seg_bytes x]> (<[k := c]> (dir_of (s0 :: C ++ K)))) (sg_name <$> C) =
  <[k := c]> (dir_of (x :: K)).
Proof.
  intros Hinc Hlt Hx. apply map_eq. intros j. rewrite foldl_delete_lookup.
  change (s0 :: C ++ K) with ([s0] ++ C ++ K) in Hinc. apply increasing_by_app in Hinc as (_ & Hinc & H0).
  apply Forall_inv in H0. apply Forall_app in H0 as [H0C H0K].
  apply Forall_cons in Hlt as [Hk0 Hlt]. apply Forall_app in Hlt as [HkC HkK].
  apply increasing_by_app in Hinc as (_ & _ & HCK).
  unfold dir_of. cbn [fmap list_fmap list_to_map foldr fst snd]. rewrite Hx. fold (dir_of (C ++ K)). 
  change (foldr _ ∅ ((fun s => (sg_name s, seg_bytes s)) <$> K)) with (dir_of K).
  change (foldr _ ∅ ((fun s => (sg_name s, seg_bytes s)) <$> (C ++ K))) with (dir_of (C ++ K)).
  case_decide as Hj.
  - apply list_elem_of_fmap in Hj as (y & -> & Hy). rewrite Forall_forall in H0C, HkC, HCK.
    specialize (H0C y Hy). specialize (HkC y Hy). specialize (HCK y Hy). cbn in H0C.
    rewrite !lookup_insert_ne by (cbn; lia). symmetry. apply dir_fresh.
    eapply Forall_impl; [exact HCK|]. cbn. lia.
  - destruct (decide (j = sg_name s0)) as [->|Hj0].
    { rewrite lookup_insert_eq, lookup_insert_ne by lia. by rewrite lookup_insert_eq. }
    rewrite lookup_insert_ne by done. destruct (decide (j = k)) as [->|Hjk]; [by rewrite !lookup_insert_eq|].
    rewrite !lookup_insert_ne by done. unfold dir_of. rewrite fmap_app, list_to_map_app.
    apply lookup_union_r. apply (dir_fresh C). apply Forall_forall. intros s Hs <-. apply Hj. by apply list_elem_of_fmap_2.
Qed.

Lemma none_damaged_readable L : none_damaged L -> readable L = L.
Proof. intros H. rewrite <- (app_nil_r L) at 1. by rewrite readable_none_damaged, app_nil_r. Qed.

Definition reopened (f : segmentFile) : segmentFile := mkSegmentFile (sf_name f) true 8 (sf_maxTime f) (sf_minSeries f).

Lemma finished_undamaged dir L r : finished no_note dir L r -> lr_err r = None -> none_damaged L.
Proof.
  intros (pre & f & post & L1 & s & rest & _ & _ & -> & Hpre & _ & _ & _ & _ & _ & _ & He) Hn.
  destruct (damaged (sg_tail s)) eqn:Ed; [by destruct He as [e He]; rewrite He in Hn|]. destruct He as [-> _].
  apply Forall_app. split; [|by constructor]. clear -Hpre. induction Hpre as [|g x fs K (_ & _ & ? & _) _ IH]; by constructor.
Qed.

(** Compacting the candidates gives their series that are kept, unless one of them has not
    been finished and its end is taken for damage. *)
Lemma compact_candidates dir size keep fs s L :
  segs_ok (s :: L) -> Forall2 old_file fs (s :: L) ->
  (forall x, x ∈ s :: L -> dir !! sg_name x = Some (seg_bytes x)) -> (length (all_data (s :: L)) <= dir_size dir)%nat ->
  exists r out, compact_loop (S (dir_size dir)) dir keep (newWALReader (reopened <$> fs)) (createSegmentFile size, 8) = Ok (r, out) /\
    (none_damaged (s :: L) /\ lr_err r = None /\ (exists n, out = file_at (meta_bytes ++ stream (all_data (s :: L) ≫= compact_data keep)) n) \/
     ~ none_damaged (s :: L) /\ lr_err r <> None).
Proof.
  intros [_ HL] Hold Hdir Hsize. destruct (createSegmentFile_zeros size) as [n ->].
  assert (Hst : Forall2 (seg_start dir) (reopened <$> fs) (s :: L)).
  { apply Forall2_fmap_l. clear -Hold Hdir. revert Hold Hdir. generalize (s :: L). intros K Hold Hdir.
    induction Hold as [|x y fs K [En _] _ IH]; constructor; [|by apply IH; intros z Hz; apply Hdir; right].
    split_and!; try done. apply Hdir. by left. }
  destruct fs as [|f fs]; [by apply Forall2_nil_inv_l in Hold|]. apply Forall2_cons in Hst as [Hs Hrest].
  assert (Hrd : reading no_note dir (s :: L) (newWALReader (reopened <$> f :: fs)) (reopened f) s [] (sg_data s) L).
  { exists [], (reopened <$> fs), []. do 3 (split; [done|]). split; [constructor|]. by split. }
  assert (E : pending s (sg_data s) L = all_data (readable (s :: L))).
  { unfold pending. cbn [readable]. by destruct (damaged (sg_tail s)). }
  destruct (compact_loop_spec dir (s :: L) keep (S (dir_size dir)) _ _ _ _ _ _ meta_bytes n Hrd HL) as (r & n' & Er & Hfin).
  { rewrite E. pose proof (readable_length (s :: L)). lia. }
  rewrite E in Er. exists r. eexists. split; [exact Er|].
  destruct (decide (Forall (fun s => damaged (sg_tail s) = false) (s :: L))) as [Hnd|Hnd]; [left|right].
  - split; [done|]. split; [|exists n'; by rewrite none_damaged_readable].
    destruct Hfin as (pre' & f' & post & L1 & s1 & rest & _ & _ & EL & _ & _ & _ & _ & _ & _ & _ & He).
    rewrite EL in Hnd. apply Forall_app in Hnd as [_ Hnd]. apply Forall_cons in Hnd as [Hnd _]. rewrite Hnd in He. apply He.
  - split; [done|]. intros Hn. apply Hnd. by eapply finished_undamaged.
Qed.

Lemma Forall2_take_drop {A B} (R : A -> B -> Prop) m l k :
  Forall2 R l k -> Forall2 R (take m l) (take m k) /\ Forall2 R (drop m l) (drop m k).
Proof. intros H. split; [by apply Forall2_take|by apply Forall2_drop]. Qed.

Lemma noted_until_before fs L mint :
  Forall2 old_file fs L -> Forall (fun f => sf_maxTime f < mint) fs -> Forall (data_until (mint - 1)) (all_data L).
Proof.
  induction 1 as [|f s fs L [_ Hn] _ IH]; intros Hlt; [constructor|]. apply Forall_cons in Hlt as [Hf Hlt].
  change (all_data (s :: L)) with (sg_data s ++ all_data L). apply Forall_app. split; [|by apply IH].
  eapply Forall_impl; [exact Hn|]. intros d. apply data_until_mono. lia.
Qed.

Lemma compacted_segs_ok s C K X :
  segs_ok (s :: C ++ K) -> Forall data_ok X -> segs_ok (mkSeg (sg_name s) X [] :: K).
Proof.
  intros [Hi Hok] HX. change (s :: C ++ K) with ([s] ++ C ++ K) in Hi, Hok.
  apply increasing_by_app in Hi as (_ & Hi & H0). apply Forall_inv in H0. apply Forall_app in H0 as [_ H0].
  apply increasing_by_app in Hi as (_ & Hi & _). apply Forall_app in Hok as [_ Hok]. apply Forall_app in Hok as [_ Hok].
  split; [|by constructor]. change (mkSeg (sg_name s) X [] :: K) with ([mkSeg (sg_name s) X []] ++ K).
  apply increasing_by_app. split_and!; [repeat constructor|done|by constructor].
Qed.

Lemma no_times_in_series keep D m : Forall (data_until m) (D ≫= compact_data keep).
Proof.
  apply Forall_bind, Forall_true. intros [s|s|s]; cbn; [|constructor..]. destruct (filter _ s); by repeat constructor.
Qed.

Lemma delete_reopened fs C (dir : directory) :
  Forall2 old_file fs C ->
  foldl (fun dir f => delete (sf_name f) dir) dir (reopened <$> fs) = foldl (fun dir k => delete k dir) dir (sg_name <$> C).
Proof.
  intros H. revert dir. induction H as [|f s fs C [E _] _ IH]; intros dir; [done|]. cbn. rewrite E. apply IH.
Qed.

(** Which files are behind does not depend on what is queued for other files. *)
Lemma past_filter (P : Z -> Prop) `{!forall k, Decision (P k)} queue fs L :
  Forall2 (past_file queue) fs L -> Forall (fun s => P (sg_name s)) L -> Forall2 (past_file (filter P queue)) fs L.
Proof.
  induction 1 as [|f s fs L [Hf Hs] _ IH]; intros Hp; constructor; apply Forall_cons in Hp as [? ?]; [|by apply IH].
  split; [done|]. destruct (decide (sg_name s ∈ queue)) as [Hin|Hin].
  - rewrite decide_True; [done|]. by apply list_elem_of_filter.
  - rewrite decide_False; [done|]. by intros [_ ?]%list_elem_of_filter.
Qed.

Lemma past_damaged queue fs L : Forall2 (past_file queue) fs L -> ~ none_damaged L -> queue <> [].
Proof. intros Hp Hd ->. by apply Hd, (past_none_damaged fs). Qed.

(** The files after truncation: the new one in the place of the first of [C]. *)
Lemma past_files_compacted w w' s C K fs gs g k X :
  past_files w (fs ++ gs) (s :: C ++ K) k -> length fs = S (length C) ->
  sf_name g = sg_name s -> Forall data_ok X -> noted g X ->
  sw_actorc w' = filter (fun j => j ∉ sg_name <$> s :: C) (sw_actorc w) ->
  past_files w' (g :: gs) (mkSeg (sg_name s) X [] :: K) k.
Proof.
  intros (Hp & Hs & Hlt & Hq) Elen Eg HX Hn Ea. pose proof Hs as [Hi _]. change (s :: C ++ K) with ((s :: C) ++ K) in *.
  apply Forall2_app_inv_l in Hp as (L1 & L2 & Hp1 & Hp2 & EL). apply app_inj_1 in EL as [<- <-]; [|by rewrite <- (Forall2_length _ _ _ Hp1)].
  apply increasing_by_app in Hi as (_ & _ & Hck).
  assert (HK : Forall (fun x => sg_name x ∉ sg_name <$> s :: C) K).
  { apply Forall_forall. intros x Hx (y & E & Hy)%list_elem_of_fmap. rewrite Forall_forall in Hck. specialize (Hck y Hy). rewrite Forall_forall in Hck.
    specialize (Hck x Hx). cbn in Hck. lia. }
  unfold past_files. rewrite Ea. split.
  - constructor; [|by apply past_filter]. split; [done|]. cbn [sg_name sg_tail]. rewrite decide_False; [done|]. intros [Hno _]%list_elem_of_filter. apply Hno. left.
  - split; [by eapply compacted_segs_ok|]. split.
    + apply Forall_app in Hlt as [[? _]%Forall_cons ?]. by constructor.
    + apply Forall_forall. intros j [Hno Hj]%list_elem_of_filter. rewrite Forall_forall in Hq. specialize (Hq j Hj). rewrite fmap_app in Hq.
      apply elem_of_app in Hq as [?|?]; [done|by right].
Qed.

(** Truncation succeeds, or fails since a file has not been finished yet. *)
Lemma sw_Truncate_on_top w pre f L0 k c mint keep :
  on_top w pre f L0 k c -> (length (all_data L0) <= dir_size (sw_dir w))%nat ->
  (exists w' pre' L' L1 L2, sw_Truncate w mint keep = Ok w' /\ on_top w' pre' f L' k c /\
    L0 = L1 ++ L2 /\ Forall (data_until (mint - 1)) (all_data L1) /\
    all_data L' = (all_data L1 ≫= compact_data keep) ++ all_data L2 /\
    sw_cur w' = sw_cur w /\ sw_closed w' = sw_closed w /\ (sw_actorc w = [] -> sw_actorc w' = [])) \/
  (sw_actorc w <> [] /\ exists e, sw_Truncate w mint keep = Err e).
Proof.
  intros Ht Hsize. pose proof Ht as (Ed & Ef & Hp). pose proof Hp as (Hpast & Hs & Hlt & Hq). pose proof (past_old _ _ _ Hpast) as Hold.
  unfold sw_Truncate. rewrite Ef, length_app. cbn [length].
  destruct (Nat.ltb_spec (length pre + 1) 2) as [Hlen|Hlen].
  { left. exists w, pre, L0, [], L0. split; [done|]. split; [done|]. split_and!; (done || constructor). }
  rewrite Nat.add_sub, take_app_length.
  destruct (select_candidates_spec (sw_dir w) mint pre L0) as (cs & -> & m & -> & Hm & Hbefore & _).
  { clear -Ht Hold. assert (Hl : forall x, x ∈ L0 -> sw_dir w !! sg_name x = Some (seg_bytes x)) by (intros x; by eapply on_top_lookup).
    clear Ht. induction Hold as [|x y fs K [En _] _ IH]; constructor; [|by apply IH; intros z Hz; apply Hl; right].
    split; [done|]. apply Hl. by left. }
  cbn [res_bind]. fold reopened. destruct (Forall2_take_drop _ m _ _ Hold) as [Hold1 Hold2].
  pose proof (take_drop m L0) as EL. pose proof (take_drop m pre) as Epre.
  assert (Hprefix : forall x, x ∈ take m L0 -> sw_dir w !! sg_name x = Some (seg_bytes x)).
  { intros x Hx. eapply on_top_lookup; [exact Ht|]. rewrite <- EL. apply elem_of_app. by left. }
  destruct (take m L0) as [|s C] eqn:EC.
  { apply Forall2_nil_inv_r in Hold1. rewrite Hold1. cbn. left.
    exists w, pre, L0, [], L0. split; [done|]. split; [done|]. split_and!; (done || constructor). }
  set (K := drop m L0) in *. rewrite <- EL in Ed, Hs, Hlt, Hsize, Hp, Hpast. set (gs := drop m pre) in *.
  assert (Elen : length (take m pre) = S (length C)) by (by rewrite (Forall2_length _ _ _ Hold1)).
  destruct (take m pre) as [|g fs] eqn:Efs; [done|]. cbn [fmap list_fmap].
  pose proof (segs_ok_app (s :: C) K Hs) as Hs1.
  destruct (compact_candidates (sw_dir w) (sw_segmentSize w) keep (g :: fs) s C Hs1 Hold1 Hprefix) as (r & out & Er & [(Hnd1 & He & n & ->)|(Hd & He)]).
  { rewrite (all_data_app (s :: C) K), length_app in Hsize. lia. }
  2:{ right. split.
      - rewrite <- Epre in Hpast. apply Forall2_app_inv_l in Hpast as (K1 & K2 & Hp1 & _ & EK). apply app_inj_1 in EK as [<- _]; [|by rewrite <- (Forall2_length _ _ _ Hp1)].
        by eapply past_damaged.
      - cbn [fmap list_fmap] in Er. rewrite Er. cbn [res_bind]. destruct (lr_err r) as [e|]; [by eexists|done]. }
  left. cbn [fmap list_fmap] in Er. rewrite Er. cbn [res_bind]. rewrite He. cbn [fst snd file_at].
  rewrite truncate_at_zeros by done.
  set (X := all_data (s :: C) ≫= compact_data keep). set (x := mkSeg (sg_name s) X []).
  replace (meta_bytes ++ stream X) with (seg_bytes x) by (unfold seg_bytes; cbn [sg_data sg_tail x]; by rewrite app_nil_r).
  assert (Enames : sf_name <$> reopened g :: (reopened <$> fs) = sg_name <$> s :: C).
  { change (reopened g :: (reopened <$> fs)) with (reopened <$> g :: fs). rewrite <- list_fmap_compose. clear -Hold1.
    induction Hold1 as [|y z ys zs [E _] _ IH]; [done|]. rewrite !fmap_cons, IH. by f_equal. }
  cbn [fmap list_fmap] in Enames |- *. rewrite Enames. apply Forall2_cons in Hold1 as [[Eg Hg] Hfs]. change (sf_name (reopened g)) with (sf_name g). rewrite Eg, (delete_reopened fs C _ Hfs).
  rewrite Ed. change ((s :: C) ++ K) with (s :: C ++ K) in *. rewrite (compacted_dir C K s x k c (proj1 Hs) Hlt) by done.
  assert (HX : Forall data_ok X).
  { apply Forall_bind. destruct Hs1 as [_ Hok]. clear -Hok. induction Hok as [|y l [Hy _] _ IH]; [constructor|].
    change (all_data (y :: l)) with (sg_data y ++ all_data l). apply Forall_app. split; [|done].
    eapply Forall_impl; [exact Hy|]. apply compact_data_ok. }
  pose proof (compacted_segs_ok s C K X Hs HX) as HsL.
  assert (HkL : Forall (fun y => sg_name y < k) (x :: K)).
  { apply Forall_cons in Hlt as [? Hlt]. apply Forall_app in Hlt as [_ ?]. by constructor. }
  assert (Em : length (reopened g :: (reopened <$> fs)) = m).
  { cbn. rewrite length_fmap. change (S (length fs)) with (length (g :: fs)). rewrite <- Efs, length_take. lia. }
  rewrite Em, drop_app_le by done. fold gs.
  change (sg_name s) with (sg_name x). rewrite openSegmentFile_ok.
  2:{ rewrite lookup_insert_ne by (apply Forall_cons in HkL as [? _]; lia). apply dir_lookup; [apply HsL|by left]. }
  cbn [res_bind]. eexists _, (sf_close (newSegmentFile (sg_name x) 8) :: gs), (x :: K), (s :: C), K.
  split; [done|]. split; [|split; [done|]; split].
  - split; [done|]. split; [done|]. rewrite <- Epre in Hp. apply (past_files_compacted w _ s C K (g :: fs) gs _ k X Hp); try done.
    apply no_times_in_series.
  - eapply noted_until_before; [|exact Hbefore]. by constructor.
  - split; [done|]. do 2 (split; [done|]). cbn [with_actorc sw_actorc]. by intros ->.
Qed.

(** Truncation drops samples, deletions and series of old data only. *)
Lemma Truncate_holding w D mint keep :
  holding w D ->
  (exists w' D1 D2, sw_Truncate w mint keep = Ok w' /\ D = D1 ++ D2 /\ Forall (data_until (mint - 1)) D1 /\
    holding w' ((D1 ≫= compact_data keep) ++ D2)) \/
  (sw_actorc w <> [] /\ exists e, sw_Truncate w mint keep = Err e).
Proof.
  intros [(L & Hi & <-)|(L0 & k & ds & Hw & Hok & <-)].
  - left. destruct Hi as (Ed & Hs & Hr & Hc & Hcl & Ha & Hf).
    destruct Hf as [[-> Ef]|(pre & f & L0 & s & Ef & -> & Hold & Hfs & Hfin)].
    { exists w, [], []. unfold sw_Truncate. rewrite Ef. cbn. split; [done|]. split; [done|]. split; [constructor|].
      left. exists []. split; [|done]. do 6 (split; [done|]). by left. }
    assert (Ht : on_top w pre f L0 (sg_name s) (seg_bytes s)).
    { split; [by rewrite Ed, dir_of_snoc by apply dir_of_names_lt, Hs|]. split; [done|]. by apply idle_past. }
    destruct (sw_Truncate_on_top w pre f L0 _ _ mint keep Ht) as [(w' & pre' & L' & L1 & L2 & E & Ht' & EL & Hb & Ea & Ec & Ecl & Eq)|[? _]]; [|..|done].
    { rewrite Ed. pose proof (all_data_length _ (proj1 Hs)) as H. rewrite all_data_app, length_app in H. lia. }
    exists w', (all_data L1), (all_data L2 ++ sg_data s). split; [done|]. rewrite EL, !all_data_app. cbn. rewrite app_nil_r, <- (assoc_L (++)).
    split; [done|]. split; [done|]. left. exists (L' ++ [s]). rewrite all_data_app, Ea. cbn. rewrite app_nil_r, <- (assoc_L (++)). split; [|done].
    destruct Ht' as (Ed' & Ef' & Hp' & Hs' & Hlt' & _). rewrite (Eq Ha) in Hp'. specialize (Eq Ha).
    split; [by rewrite Ed', dir_of_snoc|]. split; [by apply segs_ok_snoc; [..|eapply seg_ok_last]|].
    split; [rewrite readable_none_damaged by (by eapply past_none_damaged); cbn; by destruct (damaged _)|].
    split; [by rewrite Ec|]. split; [by rewrite Ecl|]. split; [done|]. right. exists pre', f, L', s. do 2 (split; [done|]). split; [by eapply past_old|done].
  - destruct Hw as (pre & f & written & buf & n & E1 & Hp & E2 & E3 & Hn & E4 & E5 & E6 & E7 & Hcl).
    assert (Ht : on_top w pre f L0 k (meta_bytes ++ written ++ zeros n)) by done.
    destruct (sw_Truncate_on_top w pre f L0 _ _ mint keep Ht) as [(w' & pre' & L' & L1 & L2 & E & Ht' & EL & Hb & Ea & Ec & Ecl & _)|?]; [|left|by right].
    { destruct Hp as (_ & Hs & Hlt & _). etransitivity; [apply all_data_length, Hs|]. apply dir_size_subseteq. rewrite E7. apply insert_subseteq, dir_fresh.
      eapply Forall_impl; [exact Hlt|]. cbn. lia. }
    exists w', (all_data L1), (all_data L2 ++ ds). split; [done|]. rewrite EL, all_data_app, <- (assoc_L (++)).
    split; [done|]. split; [done|]. right. exists L', k, ds. rewrite Ea, <- (assoc_L (++)). split; [|done].
    destruct Ht' as (Ed' & Ef' & Hp'). exists pre', f, written, buf, n. split_and!; try done; by rewrite ?Ec, ?Ecl.
Qed.

(** * Migration *)

(** Reading the directory gives the data, without an error. *)
Definition legacy_reads (dir : directory) (D : list walData) : Prop :=
  forall size, exists w, sw_Read (OpenSegmentWAL dir size) = Ok (D, w, None).

Lemma segs_ok_reads L : segs_ok L -> legacy_reads (dir_of L) (all_data (readable L)).
Proof. intros HL size. destruct (sw_Read_spec L size HL) as (w & E & _). by exists w. Qed.

Lemma dir_reads L D : segs_ok L -> readable L = L -> all_data L = D -> legacy_reads (dir_of L) D.
Proof. intros HL Hr <-. rewrite <- Hr at 2. by apply segs_ok_reads. Qed.

Lemma deprecatedWALExists_dir L : increasing sg_name Z.compare L -> deprecatedWALExists (dir_of L) = negb (length L =? 0)%nat.
Proof.
  intros HL. unfold deprecatedWALExists. rewrite sequenceFiles_dir_of by done. destruct L as [|s L]; [done|].
  cbn [fmap list_fmap]. by rewrite (dir_lookup _ s) by (done || left).
Qed.

Lemma stone_enc_byte st : Forall is_byte (stone_enc st).
Proof. apply Forall_mjoin_fmap, Forall_interval_bytes. Qed.

Lemma encode_data_bytes d : Forall is_byte (encode_data d).
Proof.
  destruct d as [s|s|s]; cbn [encode_data]; [apply Forall_Enc_Series|apply Forall_Enc_Samples|].
  unfold Enc_Tombstones, e_get. rewrite (foldl_enc _ stone_enc) by (intros; apply foldl_enc, enc_interval_app).
  apply Forall_app_2; [by repeat constructor|apply Forall_mjoin_fmap, stone_enc_byte].
Qed.

Lemma log_all_logged i w rss cur ds :
  logged i w rss cur -> synced w ->
  exists w' rss' cur', log_all w ds = Ok (w', None) /\ logged i w' rss' cur' /\ synced w' /\ adds_records rss cur (encode_data <$> ds) rss' cur'.
Proof.
  revert w rss cur. induction ds as [|d ds IH]; intros w rss cur Hl Hs.
  - exists w, rss, cur. do 3 (split; [done|]). apply adds_records_refl.
  - destruct (Log_logged i w rss cur [encode_data d] Hl Hs) as (w1 & rss1 & cur1 & E1 & Hl1 & Hs1 & He1).
    { constructor; [apply encode_data_bytes|constructor]. }
    destruct (IH w1 rss1 cur1 Hl1 Hs1) as (w2 & rss2 & cur2 & E2 & Hl2 & Hs2 & He2).
    exists w2, rss2, cur2. cbn [log_all]. rewrite E1. do 3 (split; [done|]).
    exact (adds_records_trans _ _ _ _ _ _ _ _ He1 He2).
Qed.

Lemma migrate_spec L : segs_ok L -> zlen (all_data (readable L)) <= MaxInt32 ->
  exists new, MigrateWAL (dir_of L) = Ok (new, None) /\ reads_back new (encode_data <$> all_data (readable L)).
Proof.
  intros HL Hmax. unfold MigrateWAL. rewrite deprecatedWALExists_dir by apply HL. rewrite negb_involutive.
  destruct L as [|s L]; [exists ∅; split; [done|by eexists _, _]|]. cbn [length Nat.eqb].
  destruct (NewSize_fresh defaultSegmentSize eq_refl) as (repl & -> & Hl0 & Hs0 & _). cbn [res_bind].
  destruct (sw_Read_spec (s :: L) walSegmentSizeBytes HL) as (w & -> & Hi & _). cbn [res_bind].
  set (D := all_data (readable (s :: L))) in *.
  destruct (log_all_logged 0 repl [] [] D Hl0 Hs0) as (repl' & rss & cur & -> & Hl & Hs & Ej & Hle). cbn [res_bind].
  destruct (Close_dir w _ (idle_holding _ _ Hi)) as [_ Hc]. destruct (sw_Close w) as [w' e]. cbn [snd] in Hc. subst e.
  destruct (Close_logged 0 repl' rss cur Hl Hs) as (new & -> & Hd). exists new. split; [done|].
  change (mjoin rss ++ cur = encode_data <$> D) in Ej. rewrite <- Ej. apply (dir_holds_reads 0); [done| |done].
  change (zlen []) with 0 in Hle. unfold zlen in *. rewrite length_fmap in Hle. lia.
Qed.

(** A record of the new log, decoded by its type. *)
Definition decode_record (rec : list Z) : res walData :=
  if Type_ rec =? RecordSeries then let? s := Dec_Series rec [] in Ok (SeriesData s)
  else if Type_ rec =? RecordSamples then let? s := Dec_Samples rec [] in Ok (SamplesData s)
  else if Type_ rec =? RecordTombstones then let? s := Dec_Tombstones rec [] in Ok (DeletesData s)
  else Err errRecordType.

Lemma split_single s :
  Forall (fun st => stone_wf st /\ length (st_intervals st) = 1%nat) s -> s ≫= split_stone = s.
Proof.
  induction 1 as [|[ref [|iv [|? ?]]] s [_ Hl] _ IH]; try done.
  change ((mkStone ref [iv] :: s) ≫= split_stone) with (mkStone ref [iv] :: (s ≫= split_stone)). by rewrite IH.
Qed.

Lemma decode_record_ok d : data_wf d -> decode_record (encode_data d) = Ok d.
Proof.
  unfold decode_record. destruct d as [s|s|s]; intros [_ Hs]; cbn [encode_data].
  - destruct (Dec_Series_Enc s [] Hs) as [-> ->]. done.
  - destruct (Dec_Samples_Enc s [] Hs) as [-> ->]. done.
  - assert (Hs' : Forall stone_wf s) by (eapply Forall_impl; [exact Hs|]; by intros st []).
    destruct (Dec_Tombstones_Enc s [] Hs') as [-> ->]. cbn. by rewrite split_single.
Qed.

Lemma readable_data_ok L : Forall seg_ok L -> Forall data_ok (all_data (readable L)).
Proof.
  intros HL. destruct (readable_prefix L) as [K E]. rewrite E in HL. apply Forall_app in HL as [HL _].
  clear E. induction HL as [|s l [Hs _] _ IH]; [constructor|]. by apply Forall_app.
Qed.

(** All data logged in sessions. *)
Definition all_logged (ss : list (Z * list legacy_op * bool)) : list walData :=
  mjoin ((fun x => snd (fst x) ≫= op_data) <$> ss).
Definition sessions_okay (ss : list (Z * list legacy_op * bool)) : Prop := Forall (fun x => Forall op_ok (snd (fst x))) ss.

(** Migrating a directory of segments gives their readable data. *)
Lemma migrate_decodes L : segs_ok L -> zlen (all_data (readable L)) <= MaxInt32 ->
  exists new recs, MigrateWAL (dir_of L) = Ok (new, None) /\ reads_back new recs /\ decode_record <$> recs = Ok <$> all_data (readable L).
Proof.
  intros HL Hmax. destruct (migrate_spec L HL Hmax) as (new & Em & Hr). exists new, (encode_data <$> all_data (readable L)). do 2 (split; [done|]).
  rewrite <- list_fmap_compose. apply list_fmap_ext. intros i d Hi. cbn. apply decode_record_ok.
  pose proof (readable_data_ok L (proj2 HL)) as Hok. rewrite Forall_forall in Hok. apply (Hok d). by eapply list_elem_of_lookup_2.
Qed.

Lemma reads_prefixes_length D ss dss D' : reads_prefixes D ss dss D' -> (length D' <= length D + length (all_logged ss))%nat.
Proof.
  induction 1 as [D D' Hp%prefix_length|D D1 size ops close ss dss D' Hp%prefix_length _ IH]; [lia|].
  change (all_logged ((size, ops, close) :: ss)) with ((ops ≫= op_data) ++ all_logged ss). rewrite length_app in *. lia.
Qed.

Lemma sessions_fresh ss : sessions_okay ss ->
  exists L, sessions ∅ ss = Ok (logged_before [] ss, dir_of L) /\ segs_ok L /\ all_data (readable L) = all_logged ss.
Proof.
  intros Hss. destruct (sessions_ok [] ss) as (L & E & Hs & Ea); [split; constructor|done|]. by exists L.
Qed.

(** ** Example data *)

Definition ex_series : list RefSeries := [mkRefSeries 1 [("a", "b")]%string; mkRefSeries 2 []].
Definition ex_samples : list RefSample := [mkRefSample 1 10 5; mkRefSample 2 20 6].
Definition ex_stones : list Stone := [mkStone 1 [mkInterval 0 5; mkInterval 7 30]; mkStone 2 []].
Definition ex_ops : list legacy_op := [OpSeries ex_series; OpSamples ex_samples; OpSamples []; OpDeletes ex_stones].
Definition ex_sessions : list (Z * list legacy_op * bool) :=
  [(100, ex_ops, true); (60, [OpSamples ex_samples; OpSync; OpSeries []], false); (100, ex_ops, false)].

Lemma ex_series_ok : Forall series_ok ex_series.
Proof.
  assert (H1 : increasing fst str_cmp [("a", "b")]%string) by repeat constructor.
  assert (H2 : increasing fst str_cmp ([] : Labels)) by constructor.
  repeat apply Forall_cons_2; [| |apply Forall_nil_2]; (split_and!; [decided|decided|decided|done]).
Qed.

Lemma ex_samples_ok : Forall sample_ok ex_samples.
Proof. decided. Qed.

Lemma ex_ops_ok : Forall op_ok ex_ops.
Proof.
  repeat apply Forall_cons_2; [..|apply Forall_nil_2].
  - exact (conj ex_series_ok eq_refl).
  - exact (conj ex_samples_ok eq_refl).
  - exact (conj (Forall_nil_2 _) eq_refl).
  - split; [decided|reflexivity].
Qed.

Lemma ex_sessions_okay : sessions_okay ex_sessions.
Proof.
  apply Forall_cons_2; [exact ex_ops_ok|]. apply Forall_cons_2; [|apply Forall_cons_2; [exact ex_ops_ok|apply Forall_nil_2]].
  repeat apply Forall_cons_2; [..|apply Forall_nil_2].
  - exact (conj ex_samples_ok eq_refl).
  - exact I.
  - exact (conj (Forall_nil_2 _) eq_refl).
Qed.

(** A file with a torn entry between two others. *)
Definition ex_torn : seg := mkSeg 2 [SeriesData ex_series] [3; 1; 0; 0; 0; 2; 9].

Lemma ex_segs_ok : segs_ok ([mkSeg 1 [SamplesData ex_samples] (zeros 6)] ++ ex_torn :: [mkSeg 4 [SamplesData ex_samples] []]).
Proof.
  assert (Hs : data_ok (SamplesData ex_samples)).
  { split; [split; [done|exact ex_samples_ok]|reflexivity]. }
  assert (Hr : data_ok (SeriesData ex_series)).
  { split; [split; [done|exact ex_series_ok]|reflexivity]. }
  split; [repeat constructor|]. repeat apply Forall_cons_2; [..|apply Forall_nil_2];
    (split; [apply Forall_singleton; assumption|vm_compute; reflexivity]).
Qed.

(** * Properties *)

(** C19: round trip of the legacy log.  Whatever is logged in any number of sessions, with
    whatever segment size, and with whatever of the background's operations at any time
    ([OpBackground]), each session ended by closing the log or by a crash after a sync:
    when the background gets to finish the files that were cut before a session ends, each
    session reads at its start exactly what was logged before, in order and without an
    error (a stone per interval, nothing of empty batches), and so does whoever opens the
    log at the end.
    When it does not, opening and reading still succeed, and each session reads a first part
    of what the session before it has read and logged, and nothing else.  (More cannot be
    said: see [cut_off_loses_data].) *)
Theorem legacy_log_roundtrip (ss : list (Z * list legacy_op * bool)) :
  sessions_okay ss ->
  (exists dir, sessions ∅ ss = Ok (logged_before [] ss, dir) /\ legacy_reads dir (all_logged ss)) /\
  (exists dir dss D, sessions_cut_off ∅ ss = Ok (dss, dir) /\ legacy_reads dir D /\ reads_prefixes [] ss dss D).
Proof.
  intros Hss. split.
  - destruct (sessions_fresh ss Hss) as (L & E & Hs & <-). exists (dir_of L). split; [done|]. by apply segs_ok_reads.
  - destruct (sessions_cut_off_ok [] ss) as (L & dss & E & Hs & Hr); [by split; constructor|done|].
    exists (dir_of L), dss, (all_data (readable L)). split; [exact E|]. split; [by apply segs_ok_reads|exact Hr].
Qed.

Lemma legacy_log_roundtrip_witness :
  (exists dir, sessions ∅ ex_sessions = Ok (logged_before [] ex_sessions, dir) /\ legacy_reads dir (all_logged ex_sessions)) /\
  (exists dir dss D, sessions_cut_off ∅ ex_sessions = Ok (dss, dir) /\ legacy_reads dir D /\ reads_prefixes [] ex_sessions dss D).
Proof. exact (legacy_log_roundtrip ex_sessions ex_sessions_okay). Defined.

(** C29: damage in a file of the legacy log.  When the data of a file are followed
    by something that is no entry, reading gives the data up to there without an
    error, the files behind are removed, and what is logged afterwards follows the
    data that were read, once the background has finished the file at its damage. *)
Theorem legacy_damage_repaired (L0 rest : list seg) (s : seg) (size : Z) (ops : list legacy_op) :
  segs_ok (L0 ++ s :: rest) -> none_damaged L0 -> damaged (sg_tail s) = true -> Forall op_ok ops ->
  exists dir, session (dir_of (L0 ++ s :: rest)) size ops true = Ok (all_data L0 ++ sg_data s, dir, None) /\
    legacy_reads dir (all_data L0 ++ sg_data s ++ (ops ≫= op_data)).
Proof.
  intros HL Hnd Hd Hops. destruct (session_ok _ size ops true HL Hops) as (L' & E & Hs & Hr & Ea).
  rewrite readable_none_damaged in E, Ea by done. cbn [readable] in E, Ea. rewrite Hd, all_data_app in E, Ea.
  change (all_data [s]) with (sg_data s ++ []) in E, Ea. rewrite app_nil_r in E, Ea.
  exists (dir_of L'). split; [done|]. by apply dir_reads; [..|rewrite (assoc_L (++))].
Qed.

Lemma legacy_damage_repaired_witness :
  exists dir, session (dir_of ([mkSeg 1 [SamplesData ex_samples] (zeros 6)] ++ ex_torn :: [mkSeg 4 [SamplesData ex_samples] []])) 100 ex_ops true =
      Ok (all_data [mkSeg 1 [SamplesData ex_samples] (zeros 6)] ++ sg_data ex_torn, dir, None) /\
    legacy_reads dir (all_data [mkSeg 1 [SamplesData ex_samples] (zeros 6)] ++ sg_data ex_torn ++ (ex_ops ≫= op_data)).
Proof.
  apply (legacy_damage_repaired [mkSeg 1 [SamplesData ex_samples] (zeros 6)] [mkSeg 4 [SamplesData ex_samples] []] ex_torn 100 ex_ops).
  - exact ex_segs_ok.
  - apply Forall_singleton. vm_compute. reflexivity.
  - vm_compute. reflexivity.
  - exact ex_ops_ok.
Defined.

(** Truncation of the legacy log, after any sessions and while logging goes on, once the
    background has finished the files that were cut.  It succeeds; of an old part of the data, all of whose times are before [mint], the
    series that [keep] keeps remain; all other data remain as they are, in order,
    and are read back with what is logged afterwards. *)
Theorem legacy_Truncate_correct (ss : list (Z * list legacy_op * bool)) (size : Z) (ops more : list legacy_op) (mint : Z) (keep : Z -> bool) :
  sessions_okay ss -> Forall op_ok ops -> Forall op_ok more ->
  exists dss dir w w' D1 D2,
    sessions ∅ ss = Ok (dss, dir) /\ sw_Read (OpenSegmentWAL dir size) = Ok (all_logged ss, w, None) /\
    sw_Truncate (catch_up (foldl run_legacy_op w ops)) mint keep = Ok w' /\
    all_logged ss ++ (ops ≫= op_data) = D1 ++ D2 /\ Forall (data_until (mint - 1)) D1 /\
    legacy_reads (sw_dir (fst (sw_Close (catch_up (foldl run_legacy_op w' more)))))
      ((D1 ≫= compact_data keep) ++ D2 ++ (more ≫= op_data)).
Proof.
  intros Hss Hops Hmore. destruct (sessions_fresh ss Hss) as (L & E & HL & Ea).
  destruct (sw_Read_spec L size HL) as (w & Er & Hi & _). rewrite Ea in Er.
  pose proof (run_ops_holding w _ ops (idle_holding _ _ Hi) Hops) as Hh. rewrite Ea in Hh. apply catch_up_holding in Hh as [Hh Hq].
  destruct (Truncate_holding _ _ mint keep Hh) as [(w' & D1 & D2 & Et & ED & Hb & Hh')|[? _]]; [|done].
  pose proof (run_ops_holding w' _ more Hh' Hmore) as Hh2. apply catch_up_holding in Hh2 as [Hh2 Hq2].
  destruct (Sync_dir _ _ Hh2) as (L2 & Ed2 & Hs2 & Ea2 & Hr2). destruct (Close_dir _ _ Hh2) as [Ec _].
  exists (logged_before [] ss), (dir_of L), w, w', D1, D2. do 5 (split; [done|]).
  rewrite Ec, Ed2. by apply dir_reads; [..|rewrite (assoc_L (++))]; [|apply Hr2|].
Qed.

Lemma legacy_Truncate_correct_witness :
  exists dss dir w w' D1 D2,
    sessions ∅ ex_sessions = Ok (dss, dir) /\ sw_Read (OpenSegmentWAL dir 100) = Ok (all_logged ex_sessions, w, None) /\
    sw_Truncate (catch_up (foldl run_legacy_op w ex_ops)) 25 (Z.eqb 1) = Ok w' /\
    all_logged ex_sessions ++ (ex_ops ≫= op_data) = D1 ++ D2 /\ Forall (data_until (25 - 1)) D1 /\
    legacy_reads (sw_dir (fst (sw_Close (catch_up (foldl run_legacy_op w' ex_ops)))))
      ((D1 ≫= compact_data (Z.eqb 1)) ++ D2 ++ (ex_ops ≫= op_data)).
Proof. exact (legacy_Truncate_correct ex_sessions 100 ex_ops ex_ops 25 (Z.eqb 1) ex_sessions_okay ex_ops_ok ex_ops_ok). Defined.

(** C20: migration of the legacy log.  After any sessions, [MigrateWAL] succeeds and
    leaves a log of the new format; reading it gives one record for each batch of
    the old log, in order, and each record decodes to the data of its batch: all that was
    logged when the background got to finish the files that were cut before each session
    ended, and otherwise what the old log still gives to a reader. *)
Theorem MigrateWAL_correct (ss : list (Z * list legacy_op * bool)) :
  sessions_okay ss -> zlen (all_logged ss) <= MaxInt32 ->
  (exists dss dir new recs, sessions ∅ ss = Ok (dss, dir) /\ MigrateWAL dir = Ok (new, None) /\
     reads_back new recs /\ decode_record <$> recs = Ok <$> all_logged ss) /\
  (exists dss dir D new recs, sessions_cut_off ∅ ss = Ok (dss, dir) /\ legacy_reads dir D /\ reads_prefixes [] ss dss D /\
     MigrateWAL dir = Ok (new, None) /\ reads_back new recs /\ decode_record <$> recs = Ok <$> D).
Proof.
  intros Hss Hmax. split.
  - destruct (sessions_fresh ss Hss) as (L & E & HL & Ea). rewrite <- Ea in *.
    destruct (migrate_decodes L HL Hmax) as (new & recs & Em & Hr & Hd). by exists (logged_before [] ss), (dir_of L), new, recs.
  - destruct (sessions_cut_off_ok [] ss) as (L & dss & E & HL & Hr); [by split; constructor|done|].
    pose proof (reads_prefixes_length _ _ _ _ Hr) as Hlen.
    destruct (migrate_decodes L HL) as (new & recs & Em & Hb & Hd); [unfold zlen in *; fold (all_logged ss) in Hlen; change (all_data []) with (@nil walData) in Hlen; cbn [length] in Hlen; lia|].
    exists dss, (dir_of L), (all_data (readable L)), new, recs. do 3 (split; [done || by apply segs_ok_reads|]). done.
Qed.

Lemma MigrateWAL_correct_witness :
  (exists dss dir new recs, sessions ∅ ex_sessions = Ok (dss, dir) /\ MigrateWAL dir = Ok (new, None) /\
     reads_back new recs /\ decode_record <$> recs = Ok <$> all_logged ex_sessions) /\
  (exists dss dir D new recs, sessions_cut_off ∅ ex_sessions = Ok (dss, dir) /\ legacy_reads dir D /\ reads_prefixes [] ex_sessions dss D /\
     MigrateWAL dir = Ok (new, None) /\ reads_back new recs /\ decode_record <$> recs = Ok <$> D).
Proof. apply (MigrateWAL_correct ex_sessions ex_sessions_okay). vm_compute. discriminate. Defined.

(** C30: the log is well formed at all times: opening and reading a well-formed
    directory gives a log that holds its data ([holding]: files with a valid header,
    whole entries and what may follow them, numbers in order, the newest file open
    with its position behind what is written, the others finished or queued to be, times
    noted that cover the data), and logging, syncing, truncating, closing and the operations
    of the background keep it so.  While files are queued to be finished, truncating may
    fail instead, and the files of a log that was closed may not give all data; when none
    is, neither happens, and the background can always get there. *)
Theorem legacy_log_invariant (L : list seg) (size : Z) :
  segs_ok L ->
  (exists w, sw_Read (OpenSegmentWAL (dir_of L) size) = Ok (all_data (readable L), w, None) /\ holding w (all_data (readable L))) /\
  (forall w D op, holding w D -> op_ok op -> holding (run_legacy_op w op) (D ++ op_data op)) /\
  (forall w D mint keep, holding w D ->
     (exists w' D1 D2, sw_Truncate w mint keep = Ok w' /\ D = D1 ++ D2 /\ holding w' ((D1 ≫= compact_data keep) ++ D2)) \/
     (sw_actorc w <> [] /\ exists e, sw_Truncate w mint keep = Err e)) /\
  (forall w D, holding w D -> snd (sw_Close w) = None /\
     exists L', sw_dir (fst (sw_Close w)) = dir_of L' /\ segs_ok L' /\ all_data L' = D /\ (sw_actorc w = [] -> all_data (readable L') = D)) /\
  (forall w D, holding w D -> holding (catch_up w) D /\ sw_actorc (catch_up w) = []).
Proof.
  intros HL. split; [|split; [|split; [|split]]].
  - destruct (sw_Read_spec L size HL) as (w & E & Hi & _). exists w. split; [done|]. by apply idle_holding.
  - apply run_legacy_op_holding.
  - intros w D mint keep Hh. destruct (Truncate_holding w D mint keep Hh) as [(w' & D1 & D2 & E & ED & _ & Hh')|?]; [|by right].
    left. by exists w', D1, D2.
  - intros w D Hh. destruct (Close_dir w D Hh) as [Ec ->]. split; [done|].
    destruct (Sync_dir w D Hh) as (L' & Ed & Hs & Ea & Hr). exists L'. rewrite Ec. split; [done|]. split; [done|]. split; [done|].
    intros Hq. by rewrite Hr.
  - apply catch_up_holding.
Qed.

Lemma legacy_log_invariant_witness :
  let L := [mkSeg 1 [SamplesData ex_samples] (zeros 6)] ++ ex_torn :: [mkSeg 4 [SamplesData ex_samples] []] in
  exists w, sw_Read (OpenSegmentWAL (dir_of L) 100) = Ok (all_data (readable L), w, None) /\ holding w (all_data (readable L)).
Proof. exact (proj1 (legacy_log_invariant _ 100 ex_segs_ok)). Defined.

(** * Flaws *)

(** An entry whose checksum is right and whose body cannot be decoded. *)
Definition undecodable : list Z := entry_bytes WALEntrySeries 1 [1].

(** A later entry that can be decoded makes [Read] forget the error. *)
Theorem decode_error_forgotten :
  let file ds := <[1 := meta_bytes ++ undecodable ++ stream ds]> (∅ : directory) in
  (exists w e, sw_Read (OpenSegmentWAL (file []) 100) = Ok ([], w, Some e)) /\
  (exists w, sw_Read (OpenSegmentWAL (file [SamplesData ex_samples]) 100) = Ok ([SamplesData ex_samples], w, None)).
Proof.
  split; vm_compute.
  - eexists _, _. reflexivity.
  - eexists. reflexivity.
Qed.

(** When the old log cannot be decoded, [MigrateWAL] returns no error, and the log
    is not migrated. *)
Theorem migrate_hides_decode_error :
  let dir := <[1 := meta_bytes ++ stream [SamplesData ex_samples] ++ undecodable]> (∅ : directory) in
  MigrateWAL dir = Ok (dir, None) /\ deprecatedWALExists dir = true.
Proof. split; vm_compute; reflexivity. Qed.

(** Truncation looks at the files up to the first one with a late time: a later file
    with early times stays as it is. *)
Definition ex_out_of_order : SegmentWAL :=
  foldl run_legacy_op (OpenSegmentWAL ∅ 60)
    [OpSamples [mkRefSample 1 20000 0]; OpSamples [mkRefSample 1 100 0]; OpSamples [mkRefSample 1 30000 0]].

Theorem Truncate_stops_at_late_file :
  (sf_maxTime <$> sw_files ex_out_of_order = [20000; 100; 30000]) /\
  sw_Truncate ex_out_of_order 10000 (fun _ => true) = Ok ex_out_of_order.
Proof. split; vm_compute; reflexivity. Qed.

(** What is left of the preallocated space is taken for damage when it is shorter than
    a header.  If the program ends, even by closing the log, before the background has
    finished a file that was cut, the next start removes the files behind it: of the three
    batches logged, each in a file of its own, only the first is read. *)
Definition cut_off_sessions : list (Z * list legacy_op * bool) :=
  [(48, [OpSamples [mkRefSample 1 10 5]; OpSamples [mkRefSample 1 20 6]; OpSamples [mkRefSample 1 30 7]], true); (48, [], true)].

Theorem cut_off_loses_data :
  (exists dir, sessions_cut_off ∅ cut_off_sessions = Ok ([[]; [SamplesData [mkRefSample 1 10 5]]], dir) /\ sequenceFiles dir = [1]) /\
  (exists dir, sessions ∅ cut_off_sessions =
     Ok ([[]; [SamplesData [mkRefSample 1 10 5]; SamplesData [mkRefSample 1 20 6]; SamplesData [mkRefSample 1 30 7]]], dir) /\
     sequenceFiles dir = [1; 2; 3]).
Proof. split; eexists; split; vm_compute; reflexivity. Qed.

(** Truncating while such a file is not finished fails. *)
Theorem truncate_before_finished_fails :
  let w := foldl run_legacy_op (OpenSegmentWAL ∅ 48) [OpSamples [mkRefSample 1 10 5]; OpSamples [mkRefSample 1 20 6]] in
  sw_actorc w = [1] /\ sw_Truncate w 15 (fun _ => true) = Err (ErrMsg "invalid entry header size") /\
  (exists w', sw_Truncate (run_actor w 1) 15 (fun _ => true) = Ok w').
Proof. split; [vm_compute; reflexivity|]. split; [vm_compute; reflexivity|]. eexists. vm_compute. reflexivity. Qed.

(** The size that [write] compares leaves out the checksum. *)
Theorem segment_exceeds_size :
  let w := foldl run_legacy_op (OpenSegmentWAL ∅ 76) [OpSamples [mkRefSample 1 1 0]; OpSamples [mkRefSample 1 2 0]] in
  (fun kv => (fst kv, zlen (snd kv))) <$> map_to_list (sw_dir (fst (sw_Close w))) = [(1, 80)].
Proof. vm_compute. reflexivity. Qed.
