(* ===== verification/Repair.v ===== *)
(** repair.go: blocks written with version 2 in meta.json instead of in the index are
    repaired when the database is opened, with the states a crash can leave. *)
From S2P Require Import Prelude Order Files Tombstones Plan Db Blocks.
#[local] Open Scope list_scope.
#[local] Open Scope Z_scope.

(** * Repairing a directory *)

(** A block's directory with the file index.repaired, if there is one. *)
Record rdir (U : Type) := mkRdir { rd_files : files U; rd_repaired : option (list Z) }.
Arguments mkRdir {U}.
Arguments rd_files {U}.
Arguments rd_repaired {U}.

Section Repair.
Context {U : Type} `{Countable U}.
Implicit Types (x : rdir U) (d : gmap U (rdir U)).

Definition readBogusMetaFile (f : files U) : res (Z * BlockMeta U) :=
  match f_meta f with
  | None => Err (ErrMsg "read meta.json")
  | Some (version, m) =>
      if negb (version =? 1) && negb (version =? 2) then Err (ErrMsg "unexpected meta file version") else Ok (version, m)
  end.

(** The steps: index.repaired is created, the index copied, the version set, the file
    renamed, and the metadata written. *)
Definition create_repaired x : rdir U := mkRdir (rd_files x) (Some []).

(** After [k] bytes. *)
Definition copy_index (k : nat) x : rdir U := mkRdir (rd_files x) (Some (take k (f_index (rd_files x)))).

Definition set_version x : rdir U := mkRdir (rd_files x) ((fun b => write_at b 4 [2]) <$> rd_repaired x).

Definition rename_repaired x : rdir U :=
  match rd_repaired x with
  | Some b => mkRdir (mkFiles (f_meta (rd_files x)) (f_chunks (rd_files x)) b (f_tombstones (rd_files x))) None
  | None => x
  end.

Definition reset_meta (m : BlockMeta U) x : rdir U := mkRdir (writeMetaFile m (rd_files x)) (rd_repaired x).

(** The states of the directory while it is repaired; the last one is the result. *)
Definition repair_states (m : BlockMeta U) x : list (rdir U) :=
  let created := create_repaired x in
  let copies := (fun k => copy_index k created) <$> seq 0 (S (length (f_index (rd_files x)))) in
  let versioned := set_version (copy_index (length (f_index (rd_files x))) created) in
  let renamed := rename_repaired versioned in
  x :: created :: copies ++ [versioned; renamed; reset_meta m renamed].

Definition repair_dir (m : BlockMeta U) x : rdir U :=
  reset_meta m (rename_repaired (set_version (copy_index (length (f_index (rd_files x))) (create_repaired x)))).

(** * All directories *)

(** The loop; a directory that cannot be read ends it. *)
Fixpoint repair_dirs (es : list (U * rdir U)) d : gmap U (rdir U) * option error :=
  match es with
  | [] => (d, None)
  | (k, x) :: es =>
      match readBogusMetaFile (rd_files x) with
      | Ok (version, m) => repair_dirs es (if version =? 1 then d else <[k := repair_dir m x]> d)
      | Err e => (d, Some e)
      | Panic => (d, None)
      end
  end.

Definition repairBadIndexVersion (Compare : U -> U -> comparison) d : gmap U (rdir U) * option error := repair_dirs (blockDirs Compare d) d.

(** The states of the disk while it runs. *)
Fixpoint dirs_states (es : list (U * rdir U)) d : list (gmap U (rdir U)) :=
  match es with
  | [] => [d]
  | (k, x) :: es =>
      match readBogusMetaFile (rd_files x) with
      | Ok (version, m) =>
          if version =? 1 then dirs_states es d
          else ((fun y => <[k := y]> d) <$> repair_states m x) ++ dirs_states es (<[k := repair_dir m x]> d)
      | _ => [d]
      end
  end.

(** The run is broken off. *)
Definition interrupted (Compare : U -> U -> comparison) d d' : Prop := d' ∈ dirs_states (blockDirs Compare d) d.

(** * What a broken directory stands for *)

(** The directory holds the block [f]: as it is, or with version 2 in the metadata
    and any version in the index. *)
Definition stands_for x (f : files U) : Prop :=
  let g := rd_files x in
  f_chunks g = f_chunks f /\ f_tombstones g = f_tombstones f /\
  exists m, f_meta f = Some (1, m) /\
    ((f_meta g = Some (1, m) /\ f_index g = f_index f) \/
     (f_meta g = Some (2, m) /\ write_at (f_index g) 4 [2] = f_index f)).

Lemma copied_all x : copy_index (length (f_index (rd_files x))) (create_repaired x) = mkRdir (rd_files x) (Some (f_index (rd_files x))).
Proof using Type. unfold copy_index. cbn. by rewrite take_ge. Qed.

Lemma repair_files m x :
  rd_files (repair_dir m x) = mkFiles (Some (1, m)) (f_chunks (rd_files x)) (write_at (f_index (rd_files x)) 4 [2]) (f_tombstones (rd_files x)).
Proof using Type.
  unfold repair_dir. by rewrite copied_all.
Qed.

Lemma stands_bogus x f : stands_for x f ->
  exists m, f_meta f = Some (1, m) /\
    ((readBogusMetaFile (rd_files x) = Ok (1, m) /\ rd_files x = f) \/
     (readBogusMetaFile (rd_files x) = Ok (2, m) /\ rd_files (repair_dir m x) = f)).
Proof using Type.
  intros (Ec & Et & m & Em & Hx). exists m. split; [done|]. unfold readBogusMetaFile. destruct Hx as [[Eg Ei]|[Eg Ei]]; rewrite Eg; [left|right];
    (split; [done|]); [|rewrite repair_files]; destruct f, (rd_files x); cbn in *; congruence.
Qed.

(** Wherever the repair of a directory stops, it still stands for the block. *)
Lemma stands_states x f m y :
  stands_for x f -> readBogusMetaFile (rd_files x) = Ok (2, m) -> y ∈ repair_states m x -> stands_for y f.
Proof using Type.
  intros Hx Hr. assert (Hs : forall g, rd_files g = rd_files x -> stands_for g f) by (intros g E; unfold stands_for; by rewrite E).
  pose proof Hx as (Ec & Et & m' & Em & Hm). unfold readBogusMetaFile in Hr.
  destruct Hm as [[Eg _]|[Eg Ei]]; rewrite Eg in Hr; [done|]. injection Hr as ->.
  unfold repair_states. rewrite !elem_of_cons, elem_of_app, !elem_of_cons, elem_of_nil.
  intros [->|[->|[(k & -> & _)%list_elem_of_fmap|[->|[->|[->|[]]]]]]]; [by apply Hs..| |].
  all: rewrite copied_all; unfold stands_for; cbn; split; [done|]; split; [done|]; exists m; split; [done|].
  - right. by rewrite write_at_twice.
  - by left.
Qed.

(** Each directory of the disk stands for one of the blocks. *)
Definition disk_stands d (D : gmap U (files U)) : Prop := forall k, option_relation stands_for (const False) (const False) (d !! k) (D !! k).

Lemma disk_stands_insert d D k x f : disk_stands d D -> D !! k = Some f -> stands_for x f -> disk_stands (<[k := x]> d) D.
Proof using Type.
  intros Hd Hf Hx j. destruct (decide (j = k)) as [->|]; [rewrite lookup_insert_eq, Hf|rewrite lookup_insert_ne by done; apply Hd]. done.
Qed.

Lemma stands_lookup d D k x : disk_stands d D -> d !! k = Some x -> exists f, D !! k = Some f /\ stands_for x f.
Proof using Type. intros Hd Hk. specialize (Hd k). rewrite Hk in Hd. destruct (D !! k) as [f|]; [by exists f|done]. Qed.

(** The loop on any part of the directories: where it stops, and its result. *)
Lemma dirs_stand es d D :
  disk_stands d D -> (forall k x, (k, x) ∈ es -> d !! k = Some x) -> NoDup es.*1 ->
  (forall d', d' ∈ dirs_states es d -> disk_stands d' D) /\
  exists d', repair_dirs es d = (d', None) /\ disk_stands d' D /\
    (forall k, k ∉ es.*1 -> d' !! k = d !! k) /\ forall k, k ∈ es.*1 -> rd_files <$> d' !! k = D !! k.
Proof using Type.
  revert d. induction es as [|[k x] es IH]; intros d Hd Hes Hnd; cbn [dirs_states repair_dirs].
  { split; [by intros d' ->%list_elem_of_singleton|]. exists d. split_and!; [done..|]. by intros k ?%not_elem_of_nil. }
  apply NoDup_cons in Hnd as [Hk Hnd]. assert (Hx : d !! k = Some x) by (apply Hes; left).
  destruct (stands_lookup d D k x Hd Hx) as (f & Hf & Hst). destruct (stands_bogus x f Hst) as (m & Em & [[-> Efx]|[Er Efx]]).
  - cbn [Z.eqb Pos.eqb]. destruct (IH d Hd) as (H1 & d' & E & Hd' & Hout & Hin); [intros j y ?; apply Hes; by right|done|]. split; [exact H1|].
    exists d'. split; [exact E|]. split; [done|]. split; [intros j [_ ?]%not_elem_of_cons; by apply Hout|].
    intros j [->|Hj]%elem_of_cons; [|by apply Hin]. cbn [fst]. by rewrite (Hout k Hk), Hx, Hf, <- Efx.
  - rewrite Er. cbn [Z.eqb Pos.eqb]. assert (Hd2 : disk_stands (<[k := repair_dir m x]> d) D).
    { apply (disk_stands_insert d D k _ f); [done..|]. apply (stands_states x f m); [done..|]. unfold repair_states. rewrite !elem_of_cons, elem_of_app, !elem_of_cons. tauto. }
    destruct (IH _ Hd2) as (H1 & d' & E & Hd' & Hout & Hin); [|done|].
    { intros j y Hj. rewrite lookup_insert_ne; [apply Hes; by right|]. intros ->. apply Hk. by apply (list_elem_of_fmap_2 fst) in Hj. }
    split.
    + intros d1 [(y & -> & Hy)%list_elem_of_fmap|H1']%elem_of_app; [|by apply H1].
      apply (disk_stands_insert d D k _ f); [done..|]. by apply (stands_states x f m).
    + exists d'. split; [exact E|]. split; [done|]. split.
      * intros j [Hjk ?]%not_elem_of_cons. cbn [fst] in Hjk. by rewrite Hout, lookup_insert_ne.
      * intros j [->|Hj]%elem_of_cons; [|by apply Hin]. cbn [fst]. by rewrite (Hout k Hk), lookup_insert_eq, Hf, <- Efx.
Qed.
Lemma elem_of_blockDirs (Compare : U -> U -> comparison) d k x : (k, x) ∈ blockDirs Compare d <-> d !! k = Some x.
Proof using Type. unfold blockDirs. by rewrite (sort_by_perm fst Compare), elem_of_map_to_list. Qed.

Lemma NoDup_blockDirs (Compare : U -> U -> comparison) d : NoDup (blockDirs Compare d).*1.
Proof using Type. unfold blockDirs. rewrite (sort_by_perm fst Compare). apply NoDup_fst_map_to_list. Qed.

Lemma repair_ok (Compare : U -> U -> comparison) d D :
  disk_stands d D -> exists d2, repairBadIndexVersion Compare d = (d2, None) /\ rd_files <$> d2 = D.
Proof using Type.
  intros Hd. destruct (dirs_stand _ d D Hd (fun k x => proj1 (elem_of_blockDirs Compare d k x)) (NoDup_blockDirs Compare d)) as (_ & d2 & E & _ & Hout & Hin).
  exists d2. split; [exact E|]. apply map_eq. intros k. rewrite lookup_fmap. destruct (decide (k ∈ (blockDirs Compare d).*1)) as [Hk|Hk]; [by apply Hin|].
  rewrite Hout by done. assert (Ek : d !! k = None).
  { apply eq_None_not_Some. intros [x Hx]. apply Hk, (list_elem_of_fmap_2 fst _ (k, x)). by apply elem_of_blockDirs. }
  specialize (Hd k). rewrite Ek in Hd |- *. by destruct (D !! k).
Qed.
End Repair.

(** * Main theorems *)

(** C26: the repair of old blocks.  On a disk whose directories hold blocks, some of them
    with version 2 in the metadata and any version in the index, the repair gives exactly
    these blocks, and it does so also when earlier runs have been broken off by crashes, at
    any step and while copying, any number of times. *)
Theorem repair_survives_crashes {U : Type} `{Countable U} (Compare : U -> U -> comparison)
    (d d' : gmap U (rdir U)) (D : gmap U (files U)) :
  disk_stands d D -> rtc (interrupted Compare) d d' ->
  exists d2, repairBadIndexVersion Compare d' = (d2, None) /\ rd_files <$> d2 = D.
Proof.
  intros Hd Hr. apply repair_ok. induction Hr as [d|d d1 d2 H1 _ IH]; [done|]. apply IH.
  destruct (dirs_stand _ d D Hd (fun k x => proj1 (elem_of_blockDirs Compare d k x)) (NoDup_blockDirs Compare d)) as [Hs _]. by apply Hs.
Qed.

(** One directory that cannot be read makes the repair fail, and with it the opening of
    the database; the directories before it are repaired, the others as they were. *)
Theorem repair_stops {U : Type} `{Countable U} (Compare : U -> U -> comparison) (d : gmap U (rdir U)) (k : U) (x : rdir U) (e : error) :
  d !! k = Some x -> readBogusMetaFile (rd_files x) = Err e ->
  exists d' e', repairBadIndexVersion Compare d = (d', Some e') /\
    forall j y, d !! j = Some y -> d' !! j = Some y \/ exists m, readBogusMetaFile (rd_files y) = Ok (2, m) /\ d' !! j = Some (repair_dir m y).
Proof.
  intros Hk Hx. unfold repairBadIndexVersion.
  assert (Hgen : forall es d1, (forall j y, (j, y) ∈ es -> d !! j = Some y) -> (k, x) ∈ es -> NoDup es.*1 ->
    (forall j y, d !! j = Some y -> j ∈ es.*1 -> d1 !! j = Some y) ->
    (forall j y, d !! j = Some y -> d1 !! j = Some y \/ exists m, readBogusMetaFile (rd_files y) = Ok (2, m) /\ d1 !! j = Some (repair_dir m y)) ->
    exists d' e', repair_dirs es d1 = (d', Some e') /\
      forall j y, d !! j = Some y -> d' !! j = Some y \/ exists m, readBogusMetaFile (rd_files y) = Ok (2, m) /\ d' !! j = Some (repair_dir m y)).
  { intros es. induction es as [|[j y] es IH]; intros d1 Hes Hin Hnd Hsame Hall; [by apply not_elem_of_nil in Hin|]. cbn [repair_dirs].
    apply NoDup_cons in Hnd as [Hj Hnd]. assert (Hy : d !! j = Some y) by (apply Hes; left).
    destruct (readBogusMetaFile (rd_files y)) as [[v m]|e'|] eqn:Er.
    - assert (Hin' : (k, x) ∈ es) by (apply elem_of_cons in Hin as [[= -> ->]|?]; [congruence|done]).
      apply IH; [intros i z ?; apply Hes; by right|done|done| |]; destruct (Z.eqb_spec v 1) as [->|Hv].
      + intros i z Hz Hi. apply Hsame; [done|by right].
      + intros i z Hz Hi. rewrite lookup_insert_ne by (intros ->; done). apply Hsame; [done|by right].
      + done.
      + intros i z Hz. destruct (decide (i = j)) as [->|]; [|by rewrite lookup_insert_ne; [apply Hall|]]. right. assert (z = y) as -> by congruence.
        exists m. rewrite lookup_insert_eq, Er. split; [|done]. revert Er. unfold readBogusMetaFile. destruct (f_meta _) as [[v' m']|]; [|done].
        destruct (Z.eqb_spec v' 1), (Z.eqb_spec v' 2); cbn; intros [= <- <-]; congruence.
    - by exists d1, e'.
    - revert Er. unfold readBogusMetaFile. by repeat case_match. }
  apply Hgen.
  - intros j y. by rewrite elem_of_blockDirs.
  - by apply elem_of_blockDirs.
  - apply NoDup_blockDirs.
  - done.
  - intros j y Hj. by left.
Qed.

Module RepairExample.
Definition block (u : Z) (index : list Z) : files Z :=
  mkFiles (Some (1, mkBlockMeta u 0 10 (mkStats 0 0 0 0) (mkCompaction 1 [u] [] false))) [] index None.

Definition blocks : gmap Z (files Z) := list_to_map [(1, block 1 [186; 170; 215; 0; 2; 7; 8]); (2, block 2 [186; 170; 215; 0; 1; 9])].

(** The first block is broken, with what an earlier run has left. *)
Definition broken : gmap Z (rdir Z) :=
  list_to_map [(1, mkRdir (mkFiles (Some (2, mkBlockMeta 1 0 10 (mkStats 0 0 0 0) (mkCompaction 1 [1] [] false))) [] [186; 170; 215; 0; 1; 7; 8] None) (Some [186]));
               (2, mkRdir (block 2 [186; 170; 215; 0; 1; 9]) None)].

(** After the tenth step of the repair the index is renamed and the metadata not yet
    written. *)
Definition crashed : gmap Z (rdir Z) := default broken (dirs_states (blockDirs Z.compare broken) broken !! 11%nat).
End RepairExample.

Lemma repair_survives_crashes_witness :
  let x := RepairExample.crashed !! 1 in
  fst <$> (x ≫= fun x => f_meta (rd_files x)) = Some 2 /\ (fun x => (f_index (rd_files x), rd_repaired x)) <$> x = Some ([186; 170; 215; 0; 2; 7; 8], None) /\
  exists d2, repairBadIndexVersion Z.compare RepairExample.crashed = (d2, None) /\ rd_files <$> d2 = RepairExample.blocks.
Proof.
  split; [vm_compute; reflexivity|]. split; [vm_compute; reflexivity|].
  apply (repair_survives_crashes Z.compare RepairExample.broken).
  - intros k. destruct (decide (k = 1)) as [->|H1]; [|destruct (decide (k = 2)) as [->|H2]].
    + split; [done|]. split; [done|]. eexists. split; [reflexivity|]. right. split; [reflexivity|]. vm_compute. reflexivity.
    + split; [done|]. split; [done|]. eexists. split; [reflexivity|]. left. split; reflexivity.
    + unfold RepairExample.broken, RepairExample.blocks. cbn [list_to_map foldr fst snd]. rewrite !lookup_insert_ne by congruence. rewrite !lookup_empty. exact I.
  - apply rtc_once. unfold interrupted. apply (list_elem_of_lookup_2 _ 11). vm_compute. reflexivity.
Defined.
