(* ===== verification/DbQuery.v ===== *)
(** db.go with querier.go and block.go: a query on the database.  Its querier asks the
    blocks in the range and the head; here their readers, of two kinds, are put together,
    and the samples that a query gives are those of blocks and head. *)
From S2P Require Import Prelude BitStream Order Labels Tombstones Postings PostingsSpec MemPostings XorChunk Chunks Buffer SeriesIter SeriesSets Querier MemSeries Head HeadInv HeadAppend HeadQuery Plan PlanSpec Db DbSpec Compaction CompactSpec IndexFile Blocks.
#[local] Open Scope list_scope.
#[local] Open Scope Z_scope.

(** * Two implementations of an interface *)

(** The values of an interface type that has two implementations. *)
Fixpoint Series_map {B B'} (f : B -> B') (s : Series B) : Series B' :=
  match s with SBase b => SBase (f b) | SChain ss => SChain (map (Series_map f) ss) end.

Section Sum.
Context {X1 B1 It1 X2 B2 It2 : Type}.
Context `{BaseSet X1 B1} `{BaseSeries B1 It1} `{SeriesIterator It1} `{BaseSet X2 B2} `{BaseSeries B2 It2} `{SeriesIterator It2}.

#[export] Instance sum_iterator : SeriesIterator (It1 + It2) := {|
  si_Seek it t := match it with
                  | inl it => let? (ok, it) := si_Seek it t in Ok (ok, inl it)
                  | inr it => let? (ok, it) := si_Seek it t in Ok (ok, inr it)
                  end;
  si_At it := match it with inl it => si_At it | inr it => si_At it end;
  si_Next it := match it with
                | inl it => let? (ok, it) := si_Next it in Ok (ok, inl it)
                | inr it => let? (ok, it) := si_Next it in Ok (ok, inr it)
                end;
  si_Err it := match it with inl it => si_Err it | inr it => si_Err it end;
|}.

#[export] Instance sum_series : BaseSeries (B1 + B2) (It1 + It2) := {|
  b_Labels b := match b with inl b => b_Labels (It := It1) b | inr b => b_Labels (It := It2) b end;
  b_Iterator b := match b with inl b => res_map inl (b_Iterator b) | inr b => res_map inr (b_Iterator b) end;
|}.

#[export] Instance sum_set : BaseSet (X1 + X2) (B1 + B2) := {|
  x_Next x := match x with
              | inl x => let? (ok, x) := x_Next x in Ok (ok, inl x)
              | inr x => let? (ok, x) := x_Next x in Ok (ok, inr x)
              end;
  x_At x := match x with inl x => Series_map inl <$> x_At x | inr x => Series_map inr <$> x_At x end;
  x_Err x := match x with inl x => x_Err x | inr x => x_Err x end;
|}.
End Sum.

(** What one implementation gives it gives as a value of the interface. *)
Section Embed.
Context {X B It X' B' It' : Type}.
Context `{BaseSet X B} `{BaseSeries B It} `{SeriesIterator It} `{BaseSet X' B'} `{BaseSeries B' It'} `{SeriesIterator It'}.
Context (fx : X -> X') (fb : B -> B') (fi : It -> It').

Record embedding : Prop := {
  em_Next (i : It) : si_Next (fi i) = let? (ok, i) := si_Next i in Ok (ok, fi i);
  em_At i : si_At (fi i) = si_At i;
  em_Err i : si_Err (fi i) = si_Err i;
  em_Labels b : b_Labels (It := It') (fb b) = b_Labels (It := It) b;
  em_Iterator b : b_Iterator (fb b) = res_map fi (b_Iterator b);
  em_x_Next (x : X) : x_Next (fx x) = let? (ok, x) := x_Next x in Ok (ok, fx x);
  em_x_At x : x_At (fx x) = Series_map fb <$> x_At x;
  em_x_Err x : x_Err (fx x) = x_Err x;
  em_base (x : X) s : x_At x = Some s -> exists b, s = SBase b;
}.

Context (Hem : embedding).

Lemma embed_yields it l : yields it l -> yields (fi it) l.
Proof using Hem.
  destruct Hem as [Hn Ha He _ _ _ _ _ _]. induction 1 as [it it' En Ee|it it' s l En Ea _ IH].
  - apply (yields_nil _ (fi it')); [by rewrite Hn, En|by rewrite He].
  - apply (yields_cons _ (fi it')); [by rewrite Hn, En|by rewrite Ha|done].
Qed.

Lemma embed_denotes (b : B) e : denotes (It := It) (SBase b) e -> denotes (It := It') (SBase (fb b)) e.
Proof using Hem.
  destruct e as [ls l]. intros [El Hy]. split; cbn [s_Labels fst snd] in *; [by rewrite (em_Labels Hem)|].
  inversion Hy as [b' it l' Hit Hl|]; subst. apply (sy_base _ (fi it)); [|by apply embed_yields].
  by rewrite (em_Iterator Hem), Hit.
Qed.

Lemma embed_set (x : X) l : set_yields (It := It) (SetBase x) l -> set_yields (It := It') (SetBase (fx x)) l.
Proof using Hem.
  remember (SetBase x) as st eqn:Est. intros Hy. revert x Est. induction Hy as [st st' En Ee|st st' s e l En Ee Ea Hd Hy IH]; intros x ->.
  - cbn [set_Next] in En. apply res_bind_ok in En as ([ok x'] & En & [= -> <-]). apply (gy_nil _ (SetBase (fx x'))).
    + cbn [set_Next]. by rewrite (em_x_Next Hem), En.
    + cbn [set_Err] in *. by rewrite (em_x_Err Hem).
  - cbn [set_Next] in En. apply res_bind_ok in En as ([ok x'] & En & [= -> <-]). cbn [set_At] in Ea.
    destruct (em_base Hem x' s Ea) as [b ->]. apply (gy_cons _ (SetBase (fx x')) (SBase (fb b)) e).
    + cbn [set_Next]. by rewrite (em_x_Next Hem), En.
    + cbn [set_Err] in *. by rewrite (em_x_Err Hem).
    + cbn [set_At]. by rewrite (em_x_At Hem), Ea.
    + by apply embed_denotes.
    + by apply IH.
Qed.
End Embed.

(** * The querier of the database *)

Abbreviation pblock U := (Blocks.Block U IndexFile.Reader Chunks.Reader).

(** The iterators of blocks and head. *)
Abbreviation db_iterator :=
  (chunkSeriesIterator (C := XORChunk) (I := xorIterator) + chunkSeriesIterator (C := safeChunk) (I := ms_iter))%type.

(** A directory holds the files of a block. *)
#[export] Instance files_dir {U} : BlockDir (files U) U (pblock U) := {|
  de_meta f := match readMetaFile f with Ok m => Some m | _ => None end;
  de_data f := OpenBlock f;
|}.

Section Querying.
Context {U W : Type} `{Countable U} `{WAL W}.
Abbreviation DB := (DB (F := files U) (U := U) (D := pblock U) (H := Head W)).
Abbreviation blockQ := (blockQuerier (IX := IndexFile.Reader) (CR := Chunks.Reader) (TR := memTombstones)).
Abbreviation headQ := (blockQuerier (IX := headIndexReader W) (CR := headChunkReader W) (TR := memTombstones)).
Abbreviation bset := (blockSeriesSet (IX := IndexFile.Reader) (C := XORChunk) (CR := Chunks.Reader) (TR := memTombstones)).
Abbreviation hset := (blockSeriesSet (IX := headIndexReader W) (C := safeChunk) (CR := headChunkReader W) (TR := memTombstones)).
Abbreviation bseriesC := (chunkSeries (C := XORChunk)).
Abbreviation hseriesC := (chunkSeries (C := safeChunk)).

#[export] Instance db_querier : Querier (blockQ + headQ) (bset + hset) (bseriesC + hseriesC) := {|
  q_Select q ms := match q with
                   | inl q => let? st := block_Select q ms in Ok (SetBase (inl st))
                   | inr q => let? st := block_Select q ms in Ok (SetBase (inr st))
                   end;
  q_LabelValues q n := match q with
                       | inl q => block_LabelValues (C := XORChunk) q n
                       | inr q => block_LabelValues (C := safeChunk) q n
                       end;
|}.

(** [NewBlockQuerier] on a reader: a block gives its readers unless it is closing. *)
Definition open_querier (mint maxt : Z) (r : Db.Block U (pblock U) + Head W) : res (blockQ + headQ) :=
  match r with
  | inl b =>
      let rs := block_readers (blk_data b) in
      res_map inl (NewBlockQuerier (br_Index rs) (br_Chunks rs) (br_Tombstones rs) mint maxt)
  | inr h => res_map inr (head_querier h mint maxt)
  end.

Definition db_Querier (db : DB) (mint maxt : Z) : res (list (blockQ + headQ)) :=
  open_queriers (open_querier mint maxt) (query_readers db mint maxt).
End Querying.

(** * What blocks and head hold *)

Definition clip (mint maxt : Z) (l : list Buffer.sample) : list Buffer.sample := filter (fun s => mint <= fst s <= maxt) l.

Lemma visible_clip mint maxt ivs l : visible mint maxt ivs l = clip mint maxt (kept ivs l).
Proof. unfold visible, clip. by apply list_filter_iff. Qed.

Section Views.
Context {U : Type}.

(** The times of the chunk are those of its first and last sample. *)
Definition spans {C} (cl : Meta C * list Buffer.sample) : Prop :=
  snd cl <> [] /\ span (snd cl) = (m_MinTime (fst cl), m_MaxTime (fst cl)).

(** A series whose chunks can be queried over any range: a chunk is deleted by one
    interval, or its last sample is not deleted. *)
Record series_sound {IX C CR TR I} `{IndexReader IX C} `{ChunkReader CR C} `{TombstoneReader TR} `{ChunkIterator I} `{ChunkIface C I}
    (ix : IX) (cr : CR) (tr : TR) (b : bseries C) : Prop := {
  ss_series : ix_Series ix (b_ref b) = Ok (b_lset b, fst <$> b_chunks b);
  ss_get : tr_Get tr (b_ref b) = Ok (b_ivs b);
  ss_ivs : ordered (b_ivs b);
  ss_chunks : Forall (fun cl =>
    (exists data it, cr_Chunk cr (m_Ref (fst cl)) = Ok data /\ ck_Iterator data = Ok it /\ gives it (snd cl)) /\ spans cl /\
    (isSubrange (mkInterval (m_MinTime (fst cl)) (m_MaxTime (fst cl))) (b_ivs b) = true \/
     deleted (b_ivs b) (m_MaxTime (fst cl)) = false)) (b_chunks b);
  ss_sorted : increasing_times (mjoin (snd <$> b_chunks b));
}.

Lemma series_sound_ok {IX C CR TR I} `{IndexReader IX C} `{ChunkReader CR C} `{TombstoneReader TR} `{ChunkIterator I} `{ChunkIface C I}
    mint maxt (ix : IX) (cr : CR) (tr : TR) (b : bseries C) :
  series_sound ix cr tr b -> series_ok mint maxt ix cr tr b.
Proof.
  intros [Hs Hg Ho Hc Hsort]. split; [done..| |apply spans_order; [|done]|done].
  - apply Forall_forall. intros cl Hcl. rewrite Forall_forall in Hc. destruct (Hc cl Hcl) as (Hd & [Hne Hspan] & Hdel).
    assert (Hl : increasing_times (snd cl)) by (eapply increasing_part; [exact Hsort|by apply list_elem_of_fmap_2]).
    unfold span in Hspan. destruct (head (snd cl)) as [a|] eqn:Ea; [|by destruct (snd cl)].
    destruct (last (snd cl)) as [z|] eqn:Ez; [|by apply last_None in Ez]. injection Hspan as Emin Emax.
    pose proof (times_between (snd cl) (fst a) (fst z) Hl ltac:(by rewrite Ea) ltac:(by rewrite Ez)) as Hb. cbn in Emin, Emax. rewrite Emin, Emax in Hb.
    assert (Hz : z ∈ snd cl) by by apply last_Some_elem_of. split_and!; [done|done| |].
    + rewrite Forall_forall in Hb. specialize (Hb z Hz). lia.
    + intros (Hq & _ & Hsub). destruct Hdel as [Hdel|Hdel]; [congruence|]. apply Exists_exists. exists z. split; [done|]. by rewrite Emax.
  - eapply Forall_impl; [exact Hc|]. cbn. intros cl (_ & [? ?] & _). done.
Qed.

(** The block in memory has the series [bs], within its times. *)
Record block_view (b : Db.Block U (pblock U)) (bs : list (bseries XORChunk)) : Prop := {
  bv_open : pb_closing (blk_data b) = false;
  bv_index : IndexHolds (C := XORChunk) (2 ^ 32) (pb_indexr (blk_data b)) (b_series <$> bs);
  bv_series : Forall (series_sound (I := xorIterator) (pb_indexr (blk_data b)) (pb_chunkr (blk_data b)) (pb_tombstones (blk_data b))) bs;
  bv_lsets : NoDup (b_lset <$> bs);
  bv_times : Forall (fun s => Forall (fun x => bm_MinTime (blk_meta b) <= fst x < bm_MaxTime (blk_meta b)) (mjoin (snd <$> b_chunks s))) bs;
}.

Lemma find_lset {C} (bs : list (bseries C)) b : NoDup (b_lset <$> bs) -> b ∈ bs -> snd <$> list_find (fun b' => b_lset b' = b_lset b) bs = Some b.
Proof.
  intros Hnd [j Hj]%list_elem_of_lookup. destruct (list_find (fun b' => b_lset b' = b_lset b) bs) as [[i b']|] eqn:Ef.
  - apply list_find_Some in Ef as (Hi & El & _). cbn. f_equal.
    assert (i = j) as ->; [|congruence]. eapply (NoDup_lookup (b_lset <$> bs)); [exact Hnd| |]; rewrite list_lookup_fmap.
    + by rewrite Hi.
    + by rewrite Hj, El.
  - apply list_find_None in Ef. rewrite Forall_forall in Ef. by destruct (Ef b (list_elem_of_lookup_2 _ _ _ Hj)).
Qed.

Lemma series_samples_of {C} (bs : list (bseries C)) b :
  NoDup (b_lset <$> bs) -> b ∈ bs -> series_samples bs (b_lset b) = kept (b_ivs b) (mjoin (snd <$> b_chunks b)).
Proof. intros Hnd Hb. unfold series_samples. by rewrite find_lset. Qed.

Lemma samples_at_one (l : list entry) e : increasing fst labels_cmp l -> e ∈ l -> SeriesSets.samples_at (fst e) l = snd e.
Proof.
  induction l as [|a l IH]; [by intros _ ?%not_elem_of_nil|]. intros Hl [->|He]%elem_of_cons; rewrite samples_at_cons.
  - by rewrite decide_True, samples_at_rest, app_nil_r.
  - pose proof Hl as [Hl' Ha]%(increasing_cons fst labels_cmp). rewrite decide_False; [by apply IH|]. intros E.
    specialize (Ha (fst e) (list_elem_of_fmap_2 fst _ _ He)). rewrite E in Ha. by apply (cmp_lt_irrefl labels_cmp) in Ha.
Qed.

(** What a query on a block gives of a label set. *)
Lemma block_entries_samples {C} mint maxt (bs : list (bseries C)) ms es ls :
  NoDup (b_lset <$> bs) -> (forall b, b ∈ bs -> ~ Querier.has_chunks mint maxt b -> b_visible mint maxt b = []) -> block_entries mint maxt bs ms es ->
  SeriesSets.samples_at ls es = if sel_Matches ms ls then clip mint maxt (series_samples bs ls) else [].
Proof.
  intros Hnd Hvis [Hinc He]. destruct (decide (ls ∈ fst <$> es)) as [(e & -> & Hin)%list_elem_of_fmap|Hn].
  - rewrite (samples_at_one _ _ Hinc Hin). apply He in Hin as (b & Hb & Hm & _ & ->). unfold b_entry. cbn [fst snd].
    rewrite Hm, series_samples_of by done. unfold b_visible. apply visible_clip.
  - rewrite samples_at_absent by done. destruct (sel_Matches ms ls) eqn:Hm; [|done].
    unfold series_samples. destruct (list_find (fun b => b_lset b = ls) bs) as [[i b]|] eqn:Ef; [|done]. cbn [fmap option_fmap option_map snd].
    apply list_find_Some in Ef as (Hb%list_elem_of_lookup_2 & El & _). rewrite <- visible_clip. fold (b_visible mint maxt b).
    destruct (q_chunks mint maxt b) eqn:Eq; [symmetry; apply (Hvis b Hb); intros Hc; by apply Hc|]. exfalso. apply Hn. rewrite <- El.
    change (b_lset b) with (fst (b_entry mint maxt b)). apply list_elem_of_fmap_2, He. exists b. rewrite El. split_and!; [done|done| |done]. unfold Querier.has_chunks. by rewrite Eq.
Qed.
End Views.

(** The samples of a label set in the head. *)
Definition head_samples {W} (h : Head W) (A : contents) (mint maxt : Z) (ls : Labels) : list Buffer.sample :=
  match snd <$> list_find (fun ic => fst (snd ic) = ls) (map_to_list A) with
  | Some ic => head_visible h mint maxt (fst ic) (snd ic)
  | None => []
  end.

Lemma find_content {W} `{WAL W} Sum64 (h : Head W) A id c :
  series_rep Sum64 h A -> A !! id = Some c -> snd <$> list_find (fun ic => fst (snd ic) = fst c) (map_to_list A) = Some (id, c).
Proof.
  intros Hr Hc. destruct (list_find (fun ic => fst (snd ic) = fst c) (map_to_list A)) as [[i [id' c']]|] eqn:Ef; cbn.
  - apply list_find_Some in Ef as (Hi%list_elem_of_lookup_2%elem_of_map_to_list & El & _). cbn in El.
    assert (id' = id) as -> by by eapply (rp_unique _ _ _ Hr). congruence.
  - apply list_find_None in Ef. rewrite Forall_forall in Ef. apply elem_of_map_to_list in Hc. by destruct (Ef _ Hc).
Qed.

Lemma head_samples_of {W} `{WAL W} Sum64 (h : Head W) A mint maxt id c :
  series_rep Sum64 h A -> A !! id = Some c -> head_samples h A mint maxt (fst c) = head_visible h mint maxt id c.
Proof. intros Hr Hc. unfold head_samples. by rewrite (find_content Sum64 h A id c Hr Hc). Qed.

Lemma head_samples_none {W} (h : Head W) A mint maxt ls :
  (forall id c, A !! id = Some c -> fst c <> ls) -> head_samples h A mint maxt ls = [].
Proof.
  intros Hno. unfold head_samples. destruct (list_find _ _) as [[i [id c]]|] eqn:Ef; [|done]. exfalso.
  apply list_find_Some in Ef as (Hi%list_elem_of_lookup_2%elem_of_map_to_list & El & _). by apply (Hno id c).
Qed.

Section DbSelect.
Context {U W : Type} `{Countable U} `{WW : WAL W} (Sum64 : list Z -> Z).
Abbreviation DB := (DB (F := files U) (U := U) (D := pblock U) (H := Head W)).

(** What the database has of a label set: the samples of its blocks in their order, and
    those of the head when the query reaches it. *)
Definition db_samples (h : Head W) (vs : list (list (bseries XORChunk))) (A : contents) (mint maxt : Z) (ls : Labels) : list Buffer.sample :=
  mjoin ((fun bs => clip mint maxt (series_samples bs ls)) <$> vs) ++
  (if h_minTime h <=? maxt then head_samples h A mint maxt ls else []).

(** The head can be queried from [mint] on. *)
Record head_view (h : Head W) (A : contents) (mint : Z) : Prop := {
  hv_rep : rep Sum64 h A;
  hv_postings : mp_ordered (h_postings h) = true;
  hv_fit : Forall ids_fit (h_heap h);
  hv_stones id : ordered (Get (h_tombstones h) id);
  hv_survives id c l : A !! id = Some c -> l ∈ chunked c -> survives mint (Get (h_tombstones h) id) l;
}.

Context (mint maxt : Z) (ms : list Matcher) (Hms : Forall (fun m => m_Name m <> EmptyString) ms) (Hne : ms <> []).

Lemma block_querier_gives (b : Db.Block U (pblock U)) bs :
  block_view b bs -> exists q es, open_querier (U := U) (W := W) mint maxt (inl b) = Ok q /\
    q_gives (It := db_iterator) ms q es /\
    (forall e, e ∈ es -> sel_Matches ms (fst e) = true) /\
    forall ls, SeriesSets.samples_at ls es = if sel_Matches ms ls then clip mint maxt (series_samples bs ls) else [].
Proof using WW Hms Hne.
  intros [Ho Hix Hser Hnd _]. assert (PosBound (2 ^ 32)) by (unfold PosBound; lia).
  assert (Hok : Forall (series_ok (I := xorIterator) mint maxt (pb_indexr (blk_data b)) (pb_chunkr (blk_data b)) (pb_tombstones (blk_data b))) bs).
  { eapply Forall_impl; [exact Hser|]. intros s. by apply series_sound_ok. }
  destruct (block_Select_ok (I := xorIterator) mint maxt (pb_indexr (blk_data b)) (pb_chunkr (blk_data b)) (pb_tombstones (blk_data b)) (2 ^ 32) bs ms Hix Hok Hms Hne)
    as (st & es & Est & Hy & He).
  eexists (inl _), es. split; [unfold open_querier, block_readers; rewrite Ho; done|]. split.
  - exists (SetBase (inl st)). split; [cbn [q_Select db_querier]; by rewrite Est|]. split; [|apply He].
    eapply (embed_set inl inl inl); [|exact Hy]. split; try done.
    intros x s Hx. cbn in Hx. apply fmap_Some in Hx as (c & _ & ->). by exists c.
  - split; [by intros e (s & _ & Hm & _ & ->)%He|]. intros ls. eapply block_entries_samples; [done| |exact He]. intros s Hs Hq. unfold b_visible. rewrite Forall_forall in Hok.
    rewrite <- (visible_queried (I := xorIterator) mint maxt (pb_chunkr (blk_data b))) by apply (Hok s Hs).
    fold (q_chunks mint maxt s). unfold Querier.has_chunks in Hq. by destruct (q_chunks mint maxt s); [|destruct Hq].
Qed.

Lemma head_querier_gives h A :
  head_view h A mint -> exists q es, open_querier (U := U) mint maxt (inr h) = Ok q /\
    q_gives (It := db_iterator) ms q es /\
    (forall e, e ∈ es -> sel_Matches ms (fst e) = true) /\
    forall ls, SeriesSets.samples_at ls es = if sel_Matches ms ls then head_samples h A mint maxt ls else [].
Proof using WW Hms Hne.
  intros [Hr Hp Hfit Hst Hsv]. destruct (head_Select_ok Sum64 h A Hr mint maxt Hfit Hst Hsv ms Hp Hms Hne) as (q & st & es & Eq & Est & Hy & Hinc & Hin & Hall).
  exists (inr q), es. split; [unfold open_querier; by rewrite Eq|]. split.
  - exists (SetBase (inr st)). split; [cbn [q_Select db_querier]; by rewrite Est|]. split; [|done].
    eapply (embed_set inr inr inr); [|exact Hy]. split; try done.
    intros x s Hx. cbn in Hx. apply fmap_Some in Hx as (c & _ & ->). by exists c.
  - split; [by intros e (id & c & _ & Hm & ->)%Hin|]. intros ls. destruct (decide (ls ∈ fst <$> es)) as [(e & -> & He)%list_elem_of_fmap|Hn].
    + rewrite (samples_at_one _ _ Hinc He). destruct (Hin e He) as (id & c & Hc & Hm & ->). cbn [fst snd]. rewrite Hm.
      by rewrite (head_samples_of Sum64 h A mint maxt id c (proj1 Hr) Hc).
    + rewrite samples_at_absent by done. destruct (sel_Matches ms ls) eqn:Hm; [|done].
      destruct (list_find (fun ic => fst (snd ic) = ls) (map_to_list A)) as [[i [id c]]|] eqn:Ef; [|unfold head_samples; by rewrite Ef].
      apply list_find_Some in Ef as (Hi%list_elem_of_lookup_2%elem_of_map_to_list & El & _). cbn in El. subst ls.
      rewrite (head_samples_of Sum64 h A mint maxt id c (proj1 Hr) Hi). destruct (head_visible h mint maxt id c) as [|x l] eqn:Ev; [done|]. exfalso.
      apply Hn. change (fst c) with (fst (fst c, head_visible h mint maxt id c)). apply list_elem_of_fmap_2, Hall; [done|done|]. by rewrite Ev.
Qed.

(** A block out of the range has nothing to give. *)
Lemma clip_outside (b : Db.Block U (pblock U)) bs ls : block_view b bs -> bm_Overlaps (blk_meta b) mint maxt = false -> clip mint maxt (series_samples bs ls) = [].
Proof using Type.
  intros [_ _ _ _ Ht] Ho. unfold clip. apply filter_none. unfold series_samples.
  destruct (list_find _ _) as [[i s]|] eqn:Ef; [|constructor]. cbn [fmap option_fmap option_map snd].
  apply list_find_Some in Ef as (Hs%list_elem_of_lookup_2 & _). rewrite Forall_forall in Ht. specialize (Ht s Hs).
  apply Forall_filter_weaken. eapply Forall_impl; [exact Ht|]. cbn. intros x Hx Hr. unfold bm_Overlaps in Ho.
  apply andb_false_iff in Ho as [Ho|Ho]; [apply Z.leb_gt in Ho|apply Z.ltb_ge in Ho]; lia.
Qed.

Lemma db_queriers_give (db : DB) vs A :
  Forall2 block_view (db_blocks db) vs -> head_view (db_head db) A mint ->
  exists qs ess, db_Querier db mint maxt = Ok qs /\
    Forall2 (q_gives (It := db_iterator) ms) qs ess /\
    (forall es e, es ∈ ess -> e ∈ es -> sel_Matches ms (fst e) = true) /\
    forall ls, mjoin (SeriesSets.samples_at ls <$> ess) = if sel_Matches ms ls then db_samples (db_head db) vs A mint maxt ls else [].
Proof using WW Hms Hne.
  intros Hb Hh. unfold db_Querier, query_readers, db_samples. change (hd_MinTime (db_head db)) with (h_minTime (db_head db)).
  assert (Hhead : exists qs ess, open_queriers (open_querier (U := U) mint maxt) (if h_minTime (db_head db) <=? maxt then [inr (db_head db)] else []) = Ok qs /\
    Forall2 (q_gives (It := db_iterator) ms) qs ess /\
    (forall es e, es ∈ ess -> e ∈ es -> sel_Matches ms (fst e) = true) /\
    forall ls, mjoin (SeriesSets.samples_at ls <$> ess) =
      if sel_Matches ms ls then (if h_minTime (db_head db) <=? maxt then head_samples (db_head db) A mint maxt ls else []) else []).
  { destruct (h_minTime (db_head db) <=? maxt).
    - destruct (head_querier_gives _ _ Hh) as (q & es & Eq & Hq & Hm & Hs). exists [q], [es]. cbn [open_queriers]. rewrite Eq. split; [done|].
      split; [by repeat constructor|]. split; [intros es' e ->%list_elem_of_singleton; apply Hm|]. intros ls. cbn [fmap list_fmap mjoin list_join]. by rewrite app_nil_r, Hs.
    - exists [], []. split; [done|]. split; [constructor|]. split; [by intros ? ? ?%not_elem_of_nil|]. intros ls. cbn. by destruct (sel_Matches ms ls). }
  induction Hb as [|b bs blocks vs Hbv Hb IH]; [exact Hhead|]. clear Hhead. destruct IH as (qs & ess & Eqs & Hqs & Hms' & Hss).
  rewrite filter_cons. destruct (bm_Overlaps (blk_meta b) mint maxt) eqn:Eo.
  - rewrite decide_True by done. destruct (block_querier_gives b bs Hbv) as (q & es & Eq & Hq & Hm & Hs). exists (q :: qs), (es :: ess).
    rewrite fmap_cons. cbn [app open_queriers]. rewrite Eq. cbn [res_bind]. rewrite Eqs. split; [done|]. split; [by constructor|].
    split; [intros es' e [->|?]%elem_of_cons; [apply Hm|by apply Hms']|]. intros ls. rewrite !fmap_cons. cbn [mjoin list_join]. rewrite Hss, Hs. destruct (sel_Matches ms ls); [|done]. by rewrite <- (assoc_L (++)).
  - rewrite decide_False by done. exists qs, ess. split_and!; [done..|]. intros ls. rewrite Hss.
    destruct (sel_Matches ms ls); [|done]. rewrite !fmap_cons. cbn [mjoin list_join]. by rewrite (clip_outside b bs ls Hbv Eo).
Qed.
End DbSelect.

(** * Main theorem *)

(** C6: a query on the database.  The blocks in memory have readable series within
    their times, and the head its series.  The querier opens, and what it selects are
    series that satisfy the matchers, by increasing labels, each label set once.  For every
    label set that satisfies the matchers the samples are those in range that are not
    deleted, of the blocks one after the other and then of the head, which is asked when
    the range reaches its first time; and the iterators of the series yield them. *)
Theorem db_Select_correct {U W : Type} `{Countable U} `{WAL W} (Sum64 : list Z -> Z)
    (db : DB (F := files U) (U := U) (D := pblock U) (H := Head W)) (vs : list (list (bseries XORChunk))) (A : contents)
    (mint maxt : Z) (ms : list Matcher) :
  Forall2 block_view (db_blocks db) vs -> head_view Sum64 (db_head db) A mint ->
  Forall (fun m => m_Name m <> EmptyString) ms -> ms <> [] ->
  exists qs st l, db_Querier db mint maxt = Ok qs /\ SeriesSets.Select (It := db_iterator) qs ms = Ok st /\
    set_yields (It := db_iterator) st l /\
    increasing fst labels_cmp l /\
    (forall e, e ∈ l -> sel_Matches ms (fst e) = true /\ snd e = db_samples (db_head db) vs A mint maxt (fst e)) /\
    (forall ls, sel_Matches ms ls = true -> db_samples (db_head db) vs A mint maxt ls <> [] -> ls ∈ fst <$> l) /\
    forall s e, denotes s e -> exists it, s_Iterator s = Ok it /\ yields it (snd e).
Proof.
  intros Hb Hh Hms Hne. destruct (db_queriers_give Sum64 mint maxt ms Hms Hne db vs A Hb Hh) as (qs & ess & Eq & Hq & Hm & Hs).
  destruct (sel_merges (length qs) qs ms ess) as (st & l & Est & Hy & Hinc & Hlabels & Hsam); [done..|].
  exists qs, st, l. split_and!; [done..| | |].
  - intros e He. assert (Hme : sel_Matches ms (fst e) = true).
    { destruct (proj1 (Hlabels (fst e)) (list_elem_of_fmap_2 fst _ _ He)) as (es & Hes & (e' & E & He')%list_elem_of_fmap). rewrite E. by eapply Hm. }
    split; [done|]. rewrite <- (samples_at_one l e Hinc He), Hsam, Hs. by rewrite Hme.
  - intros ls Hls Hd. destruct (decide (ls ∈ fst <$> l)) as [|Hn]; [done|]. exfalso. apply Hd.
    pose proof (Hsam ls) as E. rewrite samples_at_absent, Hs, Hls in E by done. by symmetry.
  - intros s e [_ Hy']. by apply s_yields_yields.
Qed.
