(* ===== verification/Compactor.v ===== *)
(** compact.go: the compactor on the files of the blocks.  It writes the directory of a
    new block, for the head or for blocks that it opens, and marks the blocks when that
    fails. *)
From S2P Require Import Prelude BitStream Order Labels Tombstones Postings MemPostings XorChunk Chunks Buffer SeriesIter Querier MemSeries Head Plan Db Compaction IndexFile Blocks.
#[local] Open Scope list_scope.
#[local] Open Scope Z_scope.

(** * The chunks of the head *)

(** The chunk a [safeChunk] wraps; it was there when the wrapper was made. *)
Definition safe_xor (c : safeChunk) : XORChunk :=
  match ms_chunk (sc_s c) (sc_cid c) with Some m => mc_chunk m | None => NewXORChunk end.

#[export] Instance safe_counted : CountedChunk safeChunk := fun c => XorChunk.NumSamples (safe_xor c).

Definition wchunk_encoded (c : wchunk safeChunk) : wchunk XORChunk :=
  match c with Source c => Source (safe_xor c) | Recoded c => Recoded c end.

#[export] Instance head_segments_writer : ChunkWriter Chunks.Writer (wchunk safeChunk) := fun w chks =>
  let? (ms, w) := cw_WriteChunks w ((fun m => mkMeta (m_Ref m) (wchunk_encoded <$> m_Chunk m) (m_MinTime m) (m_MaxTime m)) <$> chks) in
  Ok (zip_with (fun m m' => mkMeta (m_Ref m') (m_Chunk m) (m_MinTime m) (m_MaxTime m)) chks ms, w).

#[export] Instance head_symbols {W} : SymbolReader (headIndexReader W) := fun r => Ok (hi_Symbols r).

(** The readers of [rangeHead]. *)
Definition range_head_readers {W} (h : rangeHead (W := W)) : BlockReaders (IX := headIndexReader W) (CR := headChunkReader W) (TR := memTombstones) :=
  mkReaders (rh_Index h) (rh_Chunks h) (rh_Tombstones h).

(** * Writing a block *)

Definition with_stats {U} (m : BlockMeta U) (s : BlockStats) : BlockMeta U :=
  mkBlockMeta (bm_ULID m) (bm_MinTime m) (bm_MaxTime m) s (bm_Compaction m).

Section Writing.
Context {IX C CR TR I : Type} `{IndexReader IX C} `{SymbolReader IX} `{ChunkReader CR C} `{TombstoneReader TR}.
Context `{ChunkIterator I} `{ChunkIface C I} `{CountedChunk C} `{ChunkWriter Chunks.Writer (wchunk C)}.
Context {U : Type} `{Countable U} (range : forall A, list A -> list A).
Abbreviation BlockReaders := (BlockReaders (IX := IX) (CR := CR) (TR := TR)).
Abbreviation disk := (gmap U (files U)).

(** What [write] puts into the temporary directory. *)
Definition block_files (meta : BlockMeta U) (blocks : list BlockReaders) : res (files U) :=
  let? indexw := IndexFile.NewWriter in
  let? (stats, indexw, chunkw) := populateBlock (I := I) range blocks meta indexw Chunks.NewWriter in
  let? index := IndexFile.Close indexw in
  Ok (mkFiles (Some (1, with_stats meta stats)) (w_files chunkw) index (Some (writeTombstoneFile []))).

(** [write]: the temporary directory gets its name at the end; when something fails it
    is removed. *)
Definition write (d : disk) (meta : BlockMeta U) (blocks : list BlockReaders) : disk * res unit :=
  match block_files meta blocks with
  | Ok f => (<[bm_ULID meta := f]> d, Ok ())
  | Err e => (d, Err e)
  | Panic => (d, Panic)
  end.

(** [Write]; [uid] is the new identifier. *)
Definition Write (uid : U) (d : disk) (b : BlockReaders) (mint maxt : Z) (parent : option (BlockMeta U)) : disk * res U :=
  let parents := match parent with Some p => [mkDesc (bm_ULID p) (bm_MinTime p) (bm_MaxTime p)] | None => [] end in
  let meta := mkBlockMeta uid mint maxt (mkStats 0 0 0 0) (mkCompaction 1 [uid] parents false) in
  let '(d, r) := write d meta [b] in (d, res_map (fun _ => uid) r).
End Writing.

(** * Compacting blocks *)

Section Compacting.
Context {U : Type} `{Countable U} (Compare : U -> U -> comparison) (range : forall A, list A -> list A).
Abbreviation disk := (gmap U (files U)).
Abbreviation Block := (Blocks.Block U IndexFile.Reader Chunks.Reader).

(** The first loop of [Compact]: the directories are opened and their metadata read. *)
Fixpoint open_dirs (d : disk) (dirs : list U) : res (list (U * Block * BlockMeta U)) :=
  match dirs with
  | [] => Ok []
  | u :: dirs =>
      match d !! u with
      | None => Err ErrNotFound
      | Some f =>
          let? b := OpenBlock f in
          let? meta := readMetaFile f in
          let? bs := open_dirs d dirs in
          Ok ((u, b, meta) :: bs)
      end
  end.

(** The blocks are marked; the mark goes into their files. *)
Definition mark_failed (d : disk) (u : U) (b : Block) : disk :=
  match d !! u with Some f => <[u := snd (setCompactionFailed b f)]> d | None => d end.

(** [Compact] of blocks on disk. *)
Definition Compact (uid : U) (d : disk) (dirs : list U) : disk * res U :=
  match open_dirs d dirs with
  | Err e => (d, Err e)
  | Panic => (d, Panic)
  | Ok bs =>
      match compactBlockMetas Compare uid (snd <$> bs) with
      | Err e => (d, Err e)
      | Panic => (d, Panic)
      | Ok meta =>
          let '(d, r) := write (I := xorIterator) range d meta ((fun b => block_readers (snd (fst b))) <$> bs) in
          match r with
          | Ok _ => (d, Ok uid)
          | Err e => (foldl (fun d b => mark_failed d (fst (fst b)) (snd (fst b))) d bs, Err e)
          | Panic => (d, Panic)
          end
      end
  end.
End Compacting.
