(* ===== verification/CompactorSpec.v ===== *)
(** The compactor: the block it writes is sound and holds the merge of its sources,
    read back from its files. *)
From S2P Require Import Prelude Bits BitStream Order EncBuf Labels Tombstones Postings PostingsSpec MemPostings XorChunk Chunks Buffer SeriesIter Querier MemSeries Head Plan PlanSpec Db Compaction CompactSpec IndexFile IndexSpec Blocks Compactor.
#[local] Open Scope list_scope.
#[local] Open Scope Z_scope.

(** * What the index of the new block needs *)

Lemma gives_det {J} `{ChunkIterator J} (it : J) l k : gives it l -> gives it k -> l = k.
Proof.
  intros Hg. revert k. induction Hg as [it it' Hn He|it it' l Hn He Hg IH Hsz]; intros k Hk; inversion Hk as [? ? Hn'|? ? ? Hn' ? Hg']; subst; [done|congruence..|].
  assert (it'0 = it') as -> by congruence. f_equal. by apply IH.
Qed.

Lemma zsum_le {A} (f g : A -> Z) l : Forall (fun x => f x <= g x) l -> zsum f l <= zsum g l.
Proof. induction 1 as [|x l Hx _ IH]; [done|]. rewrite !zsum_cons. lia. Qed.

Lemma zsum_ext_in {A} (f g : A -> Z) l : Forall (fun x => f x = g x) l -> zsum f l = zsum g l.
Proof. induction 1 as [|x l E _ IH]; [done|]. by rewrite !zsum_cons, E, IH. Qed.

Lemma zsum_plus {A} (f g : A -> Z) l : zsum (fun x => f x + g x) l = zsum f l + zsum g l.
Proof. induction l as [|x l IH]; [done|]. rewrite !zsum_cons, IH. lia. Qed.

Lemma zsum_scale {A} (f : A -> Z) n l : zsum (fun x => n * f x) l = n * zsum f l.
Proof. induction l as [|x l IH]; [cbn; lia|]. rewrite !zsum_cons, IH. lia. Qed.

Lemma zsum_join {A} (f : A -> Z) ls : zsum f (mjoin ls) = zsum (zsum f) ls.
Proof. induction ls as [|l ls IH]; [done|]. by rewrite join_cons, zsum_app, zsum_cons, IH. Qed.

(** A list without repetitions costs no more than one that has all its elements. *)
Lemma zsum_subset {A} (f : A -> Z) l k : (forall x, 0 <= f x) -> NoDup l -> l ⊆ k -> zsum f l <= zsum f k.
Proof.
  intros Hf Hnd Hsub. apply NoDup_submseteq in Hsub as (k' & E)%submseteq_Permutation; [|done].
  rewrite (zsum_perm f k _ E), zsum_app. pose proof (zsum_nonneg f k' Hf). lia.
Qed.

Lemma sum_list_ext {A} (f g : A -> nat) l : (forall x, f x = g x) -> sum_list_with f l = sum_list_with g l.
Proof. intros E. induction l as [|x l IH]; [done|]. cbn [sum_list_with]. by rewrite E, IH. Qed.

Lemma zlen_zsum {A} (l : list A) : zlen l = zsum (fun _ => 1) l.
Proof. rewrite zsum_const. lia. Qed.

Section Cost.
Context {C : Type}.
Implicit Types ss : list (wseries C).

(** What a label needs: in the index of its name's values and in the list of its
    postings. *)
Definition label_need (l : string * string) : Z := 86 + 2 * str_cost (fst l) + str_cost (snd l).

(** What a series with [n] chunks needs. *)
Definition series_need (ls : Labels) (n : Z) : Z := 54 + 20 * zlen ls + 30 * n + zsum label_need ls.

Lemma series_need_mono ls n k : n <= k -> series_need ls n <= series_need ls k.
Proof. intros. unfold series_need. lia. Qed.

Definition all_labels ss : Labels := mjoin (fst <$> ss).

Lemma all_labels_elem ss l : l ∈ all_labels ss <-> exists s, s ∈ ss /\ l ∈ fst s.
Proof.
  unfold all_labels. rewrite list_elem_of_join. setoid_rewrite list_elem_of_fmap. naive_solver.
Qed.

Lemma label_calls_cost ss cs :
  label_calls ss cs -> zsum call_cost cs <= zsum (fun l => 43 + str_cost (fst l)) (all_labels ss).
Proof.
  intros (nvs & -> & Hnd & Hn & Hv). rewrite zsum_fmap. cbn [call_cost].
  set (k := all_labels ss). assert (Hk : nvs.*1 ⊆ k.*1).
  { intros n (v & s & Hs & Hin)%Hn. apply list_elem_of_fmap. exists (n, v). split; [done|]. apply all_labels_elem. by exists s. }
  pose proof (zsum_subset (fun n => 39 + str_cost n) nvs.*1 k.*1 ltac:(intros x; pose proof (str_cost_pos x); lia) Hnd Hk) as H1.
  rewrite !zsum_fmap in H1.
  set (pairs := mjoin ((fun nv => pair (fst nv) <$> snd nv) <$> nvs)).
  assert (Hp : NoDup pairs).
  { unfold pairs. clear - Hnd Hv. induction nvs as [|[n vs] nvs IH]; [constructor|]. rewrite fmap_cons, join_cons.
    apply NoDup_cons in Hnd as [Hnotin Hnd]. apply NoDup_app. split; [|split].
    - apply NoDup_fmap; [intros ? ? [=]; done|]. apply (Hv n vs). left.
    - intros [n' v'] Hin Hin'. cbn in Hin. apply list_elem_of_fmap in Hin as (? & [= -> ->] & _).
      apply list_elem_of_join in Hin' as (q & Hx & ([n2 vs2] & -> & H2)%list_elem_of_fmap). apply list_elem_of_fmap in Hx as (? & [= -> ->] & _).
      apply Hnotin. by apply (list_elem_of_fmap_2 fst) in H2.
    - apply IH; [done|]. intros n' vs' Hin. apply Hv. by right. }
  assert (Hsub : pairs ⊆ k).
  { intros [n v] (q & Hx & ([n' vs] & -> & Hin)%list_elem_of_fmap)%list_elem_of_join. apply list_elem_of_fmap in Hx as (v' & [= -> ->] & Hv').
    apply all_labels_elem. by apply (Hv n' vs). }
  pose proof (zsum_subset (fun _ => 4) pairs k ltac:(done) Hp Hsub) as H2.
  assert (Hlen : zsum (fun _ => 4) pairs = zsum (fun nv => 4 * zlen (snd nv)) nvs).
  { unfold pairs. rewrite zsum_join, zsum_fmap. apply zsum_ext. intros nv. rewrite zsum_const. unfold zlen. by rewrite length_fmap. }
  rewrite Hlen in H2. rewrite (zsum_ext _ (fun nv => (39 + str_cost (fst nv)) + 4 * zlen (snd nv))), zsum_plus.
  - assert (E43 : zsum (fun l : string * string => 43 + str_cost (fst l)) k =
      zsum (fun l : string * string => 39 + str_cost (fst l)) k + zsum (fun _ : string * string => 4) k).
    { rewrite <- zsum_plus. apply zsum_ext. intros l. lia. }
    lia.
  - intros nv. rewrite zsum_cons. change (zsum str_cost []) with 0. lia.
Qed.

Lemma ids_with_cost (ks : list Label) i ss :
  NoDup ks -> zsum (fun k => zlen (ids_with k i ss)) ks <= zsum (fun s => 1 + zlen (fst s)) ss.
Proof.
  intros Hnd. revert i. induction ss as [|s ss IH]; intros i.
  - rewrite (zsum_ext _ (fun _ => 0)) by done. rewrite zsum_const. done.
  - rewrite zsum_cons. specialize (IH (i + 1)). cbn [ids_with].
    assert (E : zsum (fun k => zlen (if decide (k = allPostingsKey \/ k ∈ fst s) then i :: ids_with k (i + 1) ss else ids_with k (i + 1) ss)) ks =
      zlen (filter (fun k => k = allPostingsKey \/ k ∈ fst s) ks) + zsum (fun k => zlen (ids_with k (i + 1) ss)) ks).
    { clear. induction ks as [|k ks IHk]; [done|]. rewrite !zsum_cons, IHk, filter_cons.
      case_decide; unfold zlen; cbn [length]; lia. }
    rewrite E. assert (zlen (filter (fun k => k = allPostingsKey \/ k ∈ fst s) ks) <= 1 + zlen (fst s)); [|lia].
    assert (Hsub : filter (fun k => k = allPostingsKey \/ k ∈ fst s) ks ⊆+ allPostingsKey :: fst s).
    { apply NoDup_submseteq; [by apply NoDup_filter|]. intros k [[->|Hk] _]%list_elem_of_filter; [left|by right]. }
    apply submseteq_length, Nat2Z.inj_le in Hsub. unfold zlen. etrans; [exact Hsub|]. cbn [length]. by rewrite Nat2Z.inj_succ, <- Z.add_1_l.
Qed.

Lemma posting_calls_cost ss cs :
  posting_calls ss cs -> zsum call_cost cs <= 59 + zsum (fun l => 39 + str_cost (fst l) + str_cost (snd l)) (all_labels ss) +
    4 * zsum (fun s => 1 + zlen (fst s)) ss.
Proof.
  intros (ks & -> & Hinc & Hk). rewrite zsum_fmap. cbn [call_cost].
  assert (Hnd : NoDup ks).
  { apply (increasing_NoDup id (pair_cmp str_cmp str_cmp)) in Hinc. by rewrite list_fmap_id in Hinc. }
  rewrite (zsum_ext _ (fun k => (39 + str_cost (fst k) + str_cost (snd k)) + 4 * zlen (ids_with k 0 ss))), zsum_plus by by intros [].
  pose proof (ids_with_cost ks 0 ss Hnd) as H1.
  rewrite zsum_scale.
  assert (Hsub : ks ⊆ allPostingsKey :: all_labels ss).
  { intros k (s & Hs & [->|Hin])%Hk; [left|right]. apply all_labels_elem. by exists s. }
  pose proof (zsum_subset (fun k : Label => 39 + str_cost (fst k) + str_cost (snd k)) ks _
    ltac:(intros x; pose proof (str_cost_pos (fst x)); pose proof (str_cost_pos (snd x)); lia) Hnd Hsub) as H2.
  rewrite zsum_cons in H2. change (str_cost (fst allPostingsKey)) with 10 in H2. change (str_cost (snd allPostingsKey)) with 10 in H2. change Label with (string * string)%type in *. lia.
Qed.

(** All calls of a compaction. *)
Lemma calls_need ss symbols lcalls pcalls :
  label_calls ss lcalls -> posting_calls ss pcalls ->
  calls_cost (ISymbols symbols :: series_calls 0 ss ++ lcalls ++ pcalls) <=
    152 + zsum str_cost (elements symbols) + zsum (fun s => series_need (fst s) (zlen (snd s))) ss.
Proof.
  intros Hl%label_calls_cost Hp%posting_calls_cost. unfold calls_cost. rewrite zsum_cons, !zsum_app, call_costs. cbn [call_cost].
  assert (E : zsum (fun s => series_need (fst s) (zlen (snd s))) ss =
    zsum series_cost ss + zsum (fun l => 43 + str_cost (fst l)) (all_labels ss) +
    zsum (fun l => 39 + str_cost (fst l) + str_cost (snd l)) (all_labels ss) + 4 * zsum (fun s => 1 + zlen (fst s)) ss); [|lia].
  clear. unfold all_labels. induction ss as [|s ss IH]; [done|].
  rewrite fmap_cons, join_cons, !zsum_app, !zsum_cons, IH. unfold series_need, series_cost.
  assert (El : zsum label_need (fst s) = zsum (fun l => 43 + str_cost (fst l)) (fst s) +
    zsum (fun l => 39 + str_cost (fst l) + str_cost (snd l)) (fst s) + 4 * zlen (fst s)); [|lia].
  clear. generalize (fst s). induction l as [|l ls IH]; [done|]. rewrite !zsum_cons, IH. unfold label_need, zlen. cbn [length]. lia.
Qed.
End Cost.

(** ** The series of the sources *)

Section Need.
Context {IX C CR TR : Type}.
Abbreviation source := (source IX C CR TR).

Definition bseries_need (b : bseries C) : Z := series_need (b_lset b) (zlen (b_chunks b)).

Definition series_of (s : source) : list (bseries C) := src_series s.

(** What the index of the merge of the blocks needs at most. *)
Definition index_need (ss : list source) : Z :=
  152 + zsum str_cost (elements (⋃ (src_symbols <$> ss))) + zsum bseries_need (mjoin (series_of <$> ss)).

Definition chunks_of (ls : Labels) (bs : list (bseries C)) : Z := zsum (fun b => zlen (b_chunks b)) (filter (fun b => b_lset b = ls) bs).

Lemma chunk_count_of ss ls : Z.of_nat (chunk_count ss ls) = chunks_of ls (mjoin (series_of <$> ss)).
Proof.
  unfold chunk_count, chunks_of. induction ss as [|s ss IH]; [done|]. rewrite fmap_cons, join_cons, filter_app, zsum_app. cbn [sum_list_with].
  rewrite Nat2Z.inj_add, IH. f_equal. unfold series_of. induction (filter _ (src_series s)) as [|b bs IHb]; [done|].
  rewrite fmap_cons, join_cons, length_app, zsum_cons, Nat2Z.inj_add, IHb. done.
Qed.

Lemma label_needs_pos (ls : Labels) : 0 <= zsum label_need ls.
Proof. apply zsum_nonneg. intros l. unfold label_need. pose proof (str_cost_pos (fst l)). pose proof (str_cost_pos (snd l)). lia. Qed.

Lemma bseries_need_pos (b : bseries C) : 30 * zlen (b_chunks b) <= bseries_need b.
Proof. unfold bseries_need, series_need. pose proof (zlen_nonneg (b_lset b)). pose proof (label_needs_pos (b_lset b)). lia. Qed.

(** Of distinct label sets there is one series each. *)
Lemma chunks_of_one ls (bs : list (bseries C)) n :
  NoDup (b_lset <$> bs) -> 0 <= n -> (forall b, b ∈ bs -> b_lset b = ls -> zlen (b_chunks b) <= n) -> chunks_of ls bs <= n.
Proof.
  intros Hnd Hn Hin. unfold chunks_of. induction bs as [|b bs IH]; [done|]. rewrite fmap_cons in Hnd. apply NoDup_cons in Hnd as [Hnotin Hnd].
  rewrite filter_cons. case_decide as Eb.
  - rewrite zsum_cons, (filter_none _ bs); [cbn; specialize (Hin b ltac:(left) Eb); lia|]. apply Forall_forall. intros b' Hb' E.
    apply Hnotin. rewrite Eb, <- E. by apply list_elem_of_fmap_2.
  - apply IH; [done|]. intros b' Hb'. apply Hin. by right.
Qed.

(** Several series with one label set. *)
Lemma one_lset_need ls (bs : list (bseries C)) :
  bs <> [] -> Forall (fun b => b_lset b = ls) bs -> series_need ls (zsum (fun b => zlen (b_chunks b)) bs) <= zsum bseries_need bs.
Proof.
  intros Hne Hall. destruct bs as [|b bs]; [done|]. apply Forall_cons in Hall as [<- _]. rewrite !zsum_cons. unfold bseries_need at 1, series_need.
  assert (Hz : zsum (fun b => 30 * zlen (b_chunks b)) bs <= zsum bseries_need bs) by (apply zsum_le, Forall_true, bseries_need_pos).
  rewrite zsum_scale in Hz. lia.
Qed.

(** Distinct label sets of the series, each with all its chunks. *)
Lemma lsets_need (L : list Labels) (bs : list (bseries C)) :
  NoDup L -> L ⊆ b_lset <$> bs -> zsum (fun ls => series_need ls (chunks_of ls bs)) L <= zsum bseries_need bs.
Proof.
  revert bs. induction L as [|ls L IH]; intros bs Hnd Hsub.
  - apply zsum_nonneg. intros b. pose proof (bseries_need_pos b). pose proof (zlen_nonneg (b_chunks b)). lia.
  - apply NoDup_cons in Hnd as [Hnotin Hnd]. rewrite zsum_cons.
    set (here := filter (fun b => b_lset b = ls) bs). set (rest := filter (fun b => b_lset b <> ls) bs).
    assert (Ep : zsum bseries_need bs = zsum bseries_need here + zsum bseries_need rest).
    { unfold here, rest. clear. induction bs as [|b bs IH]; [done|]. rewrite zsum_cons, IH, !filter_cons.
      destruct (decide (b_lset b = ls)); [rewrite decide_False by naive_solver|rewrite decide_True by done]; rewrite zsum_cons; lia. }
    assert (Hrest : zsum (fun ls' => series_need ls' (chunks_of ls' bs)) L <= zsum bseries_need rest).
    { etrans; [|apply (IH rest Hnd)].
      - apply zsum_le, Forall_forall. intros ls' Hin. assert (E : chunks_of ls' bs = chunks_of ls' rest); [|by rewrite E].
        unfold chunks_of, rest. rewrite list_filter_filter. f_equal. apply list_filter_iff. intros b. split; [|tauto].
        intros E. split; [done|]. rewrite E. intros ->. done.
      - intros ls' Hin. assert (Hb : ls' ∈ b_lset <$> bs) by (apply Hsub; by right). apply list_elem_of_fmap in Hb as (b & -> & Hb).
        apply list_elem_of_fmap_2, list_elem_of_filter. split; [|done]. by intros <-. }
    assert (Hhere : series_need ls (chunks_of ls bs) <= zsum bseries_need here); [|lia].
    assert (Hne : here <> []).
    { assert (Hb : ls ∈ b_lset <$> bs) by (apply Hsub; left). apply list_elem_of_fmap in Hb as (b & -> & Hb).
      intros E. apply (not_elem_of_nil b). rewrite <- E. unfold here. by apply list_elem_of_filter. }
    apply one_lset_need; [done|]. apply Forall_forall. by intros b [? _]%list_elem_of_filter.
Qed.

Lemma series_count_need ss : Z.of_nat (series_count ss) <= index_need ss.
Proof.
  unfold index_need.
  assert (Hs : 0 <= zsum str_cost (elements (⋃ (src_symbols <$> ss)))) by (apply zsum_nonneg; intros x; pose proof (str_cost_pos x); lia).
  assert (Z.of_nat (series_count ss) <= zsum bseries_need (mjoin (series_of <$> ss))); [|lia].
  clear. unfold series_count. induction ss as [|s ss IH]; [done|]. cbn [sum_list_with]. rewrite fmap_cons, join_cons, zsum_app, Nat2Z.inj_add.
  assert (Z.of_nat (length (src_series s)) <= zsum bseries_need (series_of s)); [|lia]. change (src_series s) with (series_of s).
  fold (zlen (series_of s)). rewrite zlen_zsum. apply zsum_le, Forall_true. intros b. unfold bseries_need, series_need.
  pose proof (zlen_nonneg (b_lset b)). pose proof (zlen_nonneg (b_chunks b)). pose proof (label_needs_pos (b_lset b)). lia.
Qed.
End Need.

(** * The block read back *)

(** What the chunks of the sources have to do with the chunks in segment files: every
    chunk is written as an XOR chunk that holds the same samples. *)
Class SegmentChunks (C I : Type) `{ChunkIterator I} `{ChunkIface C I} `{CountedChunk C} `{ChunkWriterLaws Chunks.Writer (wchunk C)} := {
  sg_xor : wchunk C -> XORChunk;
  sg_ready w : cwl_ready w 0 -> w_inv w;
  sg_stored w r c : cwl_stored w r c -> Chunks.chunk_ok (sg_xor c) /\ stored (w_files w) r (sg_xor c);
  sg_reads c l : cwl_ok c -> wholds (I := I) c l -> ck_NumSamples c = Ok (zlen l) ->
    segment_chunk_ok (Source (sg_xor c)) /\ XorChunk.NumSamples (sg_xor c) = Ok (zlen l) /\
    exists it, XorChunk.Iterator (sg_xor c) = Ok it /\ gives it l;
  sg_recoded a l : encodes a l -> cwl_ok (Recoded (achunk a));
}.

#[export] Program Instance xor_segment_chunks : SegmentChunks XORChunk xorIterator := {| sg_xor := wchunk_xor |}.
Next Obligation. by intros w [? _]. Qed.
Next Obligation. by intros w r c []. Qed.
Next Obligation. intros c l Hok Hh Hn. destruct c as [c|c]; destruct Hh as (it & Hit & Hg); (split; [done|]; split; [done|]; by exists it). Qed.
Next Obligation. exact encodes_segment_ok. Qed.

(** What the writer of the index asks of the labels of a block. *)
Definition labels_known {C} (symbols : gset string) (b : bseries C) : Prop :=
  b_lset b <> [] /\ Forall (fun l => fst l ∈ symbols /\ snd l ∈ symbols) (b_lset b).

Section Result.
Context {IX C CR TR I U : Type} `{IndexReader IX C} `{SymbolReader IX} `{ChunkReader CR C} `{TombstoneReader TR}.
Context `{SC : SegmentChunks C I} `{Countable U} (M : Z) `{!PosBound M} (range : forall A, list A -> list A).
Abbreviation source := (source IX C CR TR).
Abbreviation merged := (merged (I := I)).
Abbreviation stored_chunk := (stored_chunk (I := I)).
Implicit Types (ss : list source) (ws : list (wseries C)) (cw : Chunks.Writer) (bs : list (bseries XORChunk)).

Lemma merged_need lo hi ss cw ws lcalls pcalls :
  merged lo hi ss cw ws -> label_calls ws lcalls -> posting_calls ws pcalls ->
  calls_cost (ISymbols (⋃ (src_symbols <$> ss)) :: series_calls 0 ws ++ lcalls ++ pcalls) <= index_need ss.
Proof using Type.
  intros [Hinc _ _ Hls Hcount _ _] Hl Hp. etrans; [by apply calls_need|]. unfold index_need.
  assert (Hw : zsum (fun w => series_need (fst w) (zlen (snd w))) ws <= zsum bseries_need (mjoin (series_of <$> ss))); [|lia].
  etrans; [|apply (lsets_need (fst <$> ws)); [by apply (increasing_NoDup fst labels_cmp)|]].
  - rewrite zsum_fmap. apply zsum_le. eapply Forall_impl; [exact Hcount|]. cbn. intros w Hw.
    rewrite <- chunk_count_of. apply series_need_mono. unfold zlen. lia.
  - intros ls (w & -> & Hw)%list_elem_of_fmap. rewrite Forall_forall in Hls. destruct (Hls w Hw) as (s & b & Hs & Hb & <-).
    apply list_elem_of_fmap_2, list_elem_of_join. exists (series_of s). split; [done|]. by apply list_elem_of_fmap_2.
Qed.

Lemma stored_ref fs r c : stored fs r c -> is_u64 r.
Proof using Type. intros (i & pre & post & _ & _ & _ & ->). apply lor_is_u; [lia|by apply shlU_range|apply u64_range]. Qed.

(** A chunk of the new block is read back from its file. *)
Lemma stored_chunk_back lo hi cw (m : Meta (wchunk C)) l :
  stored_chunk lo hi cw m l ->
  (exists c, cr_Chunk (Chunks.mkReader (w_files cw)) (m_Ref m) = Ok c /\ data_ok (I := xorIterator) (fun c => segment_chunk_ok (Source c)) c l) /\
  samples_ok lo hi (bare (D := XORChunk) m) l /\ is_u64 (m_Ref m).
Proof using SC.
  intros (c & _ & Hh & Hn & Hok & Hst & Hs). apply sg_stored in Hst as [Hc Hst]. split_and!; [|by destruct Hs; split|by eapply stored_ref].
  exists (mk_XORChunk (mk_bstream (Bytes (sg_xor c)) 0)). split; [by apply Chunk_stored|].
  destruct (sg_reads c l Hok Hh Hn) as (? & ? & it & Hit & Hg). split; [by exists it|by split].
Qed.

(** A series of the new block as its index has it. *)
Record reads_back lo hi cw (w : wseries C) (l : list Buffer.sample) (b : bseries XORChunk) : Prop := {
  rb_lset : b_lset b = fst w;
  rb_chunks : fst <$> b_chunks b = bare <$> snd w;
  rb_ivs : b_ivs b = [];
  rb_stored : Forall (fun cl => samples_ok lo hi (fst cl) (snd cl) /\
    exists c, cr_Chunk (Chunks.mkReader (w_files cw)) (m_Ref (fst cl)) = Ok c /\
    data_ok (I := xorIterator) (fun c => segment_chunk_ok (Source c)) c (snd cl)) (b_chunks b);
  rb_samples : mjoin (snd <$> b_chunks b) = l;
}.

Lemma series_reads_back lo hi cw (w : wseries C) l off :
  stored_series (I := I) lo hi cw w l -> exists b, b_ref b = off /\ reads_back lo hi cw w l b.
Proof using SC.
  intros (ls & Hls & <-). exists (mkBseries off (fst w) (zip (bare <$> snd w) ls) []).
  assert (Hlen : length (bare (D := XORChunk) <$> snd w) = length ls) by (rewrite length_fmap; by eapply Forall2_length).
  split; [done|]. split; cbn [b_lset b_chunks b_ivs].
  - done.
  - apply fst_zip. lia.
  - done.
  - clear Hlen. induction Hls as [|m l ms ls Hm _ IH]; [constructor|]. rewrite fmap_cons. cbn [zip zip_with]. constructor; [|done].
    destruct (stored_chunk_back _ _ _ _ _ Hm) as (Hc & Hs & _). by split.
  - by rewrite snd_zip by lia.
Qed.

(** The series of the new block under the references of its index. *)
Lemma block_reads_back lo hi ss cw ws offs :
  Forall (fun s => stored_series (I := I) lo hi cw s (merged_samples ss (fst s))) ws -> length offs = length ws ->
  exists bs, Forall2 (fun w b => reads_back lo hi cw w (merged_samples ss (fst w)) b) ws bs /\
    b_series <$> bs = zip offs (fst <$> ws) /\ b_ref <$> bs = offs.
Proof using SC.
  intros Hws. revert offs. induction Hws as [|w ws Hw _ IH]; intros [|off offs] Hlen; try done; [by exists []|].
  destruct (IH offs ltac:(cbn in Hlen; lia)) as (bs & Hbs & E & E'). destruct (series_reads_back _ _ _ _ _ off Hw) as (b & Eo & Hb).
  exists (b :: bs). split; [by constructor|]. rewrite !fmap_cons, E, E'. cbn [zip zip_with]. rewrite <- Eo, <- (rb_lset _ _ _ _ _ _ Hb). done.
Qed.

Lemma kept_nil l : kept [] l = l.
Proof using Type. unfold kept. apply filter_all. by apply Forall_true. Qed.

Lemma back_lsets lo hi ss cw ws bs :
  Forall2 (fun w b => reads_back lo hi cw w (merged_samples ss (fst w)) b) ws bs -> b_lset <$> bs = fst <$> ws.
Proof using Type. induction 1 as [|w b ws bs Hb _ IH]; [done|]. by rewrite !fmap_cons, IH, (rb_lset _ _ _ _ _ _ Hb). Qed.

(** The samples of the new block are those of the sources. *)
Lemma back_samples lo hi ss cw ws bs :
  merged lo hi ss cw ws -> Forall2 (fun w b => reads_back lo hi cw w (merged_samples ss (fst w)) b) ws bs ->
  forall ls, series_samples bs ls = merged_samples ss ls.
Proof using Type.
  intros Hm Hbs ls. pose proof (back_lsets _ _ _ _ _ _ Hbs) as E. unfold series_samples.
  destruct (list_find (fun b => b_lset b = ls) bs) as [[i b]|] eqn:Ef; cbn [fmap option_fmap option_map snd].
  - apply list_find_Some in Ef as (Hb & <- & _). destruct (Forall2_lookup_r _ _ _ _ _ Hbs Hb) as (w & _ & Hw).
    by rewrite (rb_ivs _ _ _ _ _ _ Hw), kept_nil, (rb_samples _ _ _ _ _ _ Hw), (rb_lset _ _ _ _ _ _ Hw).
  - apply list_find_None in Ef. destruct (merged_samples ss ls) as [|x l] eqn:El; [done|exfalso].
    assert (Hin : ls ∈ b_lset <$> bs) by (rewrite E; apply (mg_complete _ _ _ _ _ Hm); by rewrite El).
    apply list_elem_of_fmap in Hin as (b & -> & Hb). rewrite Forall_forall in Ef. by eapply Ef.
Qed.

(** The block as a source of a further compaction. *)
Definition block_source {V} (lo hi : Z) (symbols : gset string) bs (pb : Block V IndexFile.Reader Chunks.Reader) :
    CompactSpec.source IndexFile.Reader XORChunk Chunks.Reader memTombstones :=
  mkSource (pb_indexr pb) (pb_chunkr pb) (pb_tombstones pb) symbols bs lo hi.

Lemma block_source_ok {V} lo hi ss cw ws bs offs symbols (pb : Block V IndexFile.Reader Chunks.Reader) :
  MinInt64 < lo <= hi -> hi < MaxInt64 -> merged lo hi ss cw ws ->
  Forall2 (fun w b => reads_back lo hi cw w (merged_samples ss (fst w)) b) ws bs ->
  b_series <$> bs = zip offs (fst <$> ws) -> b_ref <$> bs = offs ->
  pb_chunkr pb = Chunks.mkReader (w_files cw) -> pb_tombstones pb = ∅ ->
  ix_Symbols (pb_indexr pb) = Ok symbols -> IndexHolds (C := XORChunk) (2 ^ 32) (pb_indexr pb) (zip offs (fst <$> ws)) ->
  Forall2 (fun off s => ix_Series (C := XORChunk) (pb_indexr pb) off = Ok (fst s, bare <$> snd s)) offs ws ->
  source_ok (I := xorIterator) (fun c => segment_chunk_ok (Source c)) (2 ^ 32) (block_source lo hi symbols bs pb).
Proof using Type.
  intros Hlo Hhi Hm Hbs Eix Eref Ec Et Hsym Hix Hser. split; cbn [src_index src_series src_lo src_hi src_symbols block_source].
  - done.
  - by rewrite Eix.
  - rewrite <- Eref, Forall2_fmap_l in Hser. clear Eix Eref Hix Hm. generalize bs at 1 as bs0. intros bs0.
    induction Hbs as [|w b ws bs Hb _ IH]; [constructor|]. apply Forall2_cons in Hser as [Hs Hser]. constructor; [|by apply IH].
    destruct Hb as [El Ech Eiv Hst _]. split; cbn [src_index src_chunks src_tombstones src_lo src_hi block_source].
    + by rewrite Hs, El, Ech.
    + by rewrite Et, Eiv.
    + rewrite Eiv. constructor.
    + rewrite Eiv. constructor.
    + by rewrite Ec.
  - rewrite (back_lsets _ _ _ _ _ _ Hbs). apply (increasing_NoDup fst labels_cmp). apply Hm.
  - lia.
Qed.

(** The new block has no more series and chunks than the sources, and its index needs no
    more. *)
Lemma back_elem lo hi ss cw ws bs b :
  merged lo hi ss cw ws -> Forall2 (fun w b => reads_back lo hi cw w (merged_samples ss (fst w)) b) ws bs -> b ∈ bs ->
  b_lset b ∈ b_lset <$> mjoin (series_of <$> ss) /\ zlen (b_chunks b) <= chunks_of (b_lset b) (mjoin (series_of <$> ss)).
Proof using Type.
  intros [_ _ _ Hls Hcount _ _] Hbs [i Hi]%list_elem_of_lookup. destruct (Forall2_lookup_r _ _ _ _ _ Hbs Hi) as (w & Hw & [El Ec _ _ _]).
  apply list_elem_of_lookup_2 in Hw. rewrite Forall_forall in Hls. destruct (Hls w Hw) as (s & b' & Hs & Hb' & E). split.
  - rewrite El, <- E. apply list_elem_of_fmap_2, list_elem_of_join. exists (series_of s). split; [done|]. by apply list_elem_of_fmap_2.
  - rewrite Forall_forall in Hcount. specialize (Hcount w Hw). rewrite <- chunk_count_of, El. unfold zlen.
    apply (f_equal length) in Ec. rewrite !length_fmap in Ec. lia.
Qed.

Lemma back_NoDup lo hi ss cw ws bs :
  merged lo hi ss cw ws -> Forall2 (fun w b => reads_back lo hi cw w (merged_samples ss (fst w)) b) ws bs -> NoDup (b_lset <$> bs).
Proof using Type. intros Hm Hbs. rewrite (back_lsets _ _ _ _ _ _ Hbs). apply (increasing_NoDup fst labels_cmp), Hm. Qed.

Lemma back_chunks lo hi ss cw ws bs ls :
  merged lo hi ss cw ws -> Forall2 (fun w b => reads_back lo hi cw w (merged_samples ss (fst w)) b) ws bs ->
  chunks_of ls bs <= chunks_of ls (mjoin (series_of <$> ss)).
Proof using Type.
  intros Hm Hbs. apply chunks_of_one; [by eapply back_NoDup|apply zsum_nonneg; intros; apply zlen_nonneg|].
  intros b Hb <-. by eapply back_elem.
Qed.

(** When nothing is deleted the chunks have the samples that they had. *)
Lemma back_undeleted T lo hi ss cw ws bs :
  merged lo hi ss cw ws -> Forall2 (fun w b => reads_back lo hi cw w (merged_samples ss (fst w)) b) ws bs ->
  undeleted T ss -> Forall (fun b => Forall (fun cl => T (m_MinTime (fst cl)) (m_MaxTime (fst cl)) (snd cl)) (b_chunks b)) bs.
Proof using SC.
  intros Hm Hbs HT%(mg_undeleted _ _ _ _ _ Hm). clear Hm. induction Hbs as [|w b ws bs [_ Ech _ Hst _] _ IH]; [constructor|].
  apply Forall_cons in HT as [Hw HT]. constructor; [|by apply IH]. clear IH HT.
  apply Forall_forall. intros cl Hcl. rewrite Forall_forall in Hw. rewrite Forall_forall in Hst. destruct (Hst cl Hcl) as (_ & c & Hc & (it & Hit & Hg) & _).
  apply (list_elem_of_fmap_2 fst) in Hcl as Hm. rewrite Ech in Hm. apply list_elem_of_fmap in Hm as (m & Em & Hin).
  destruct (Hw m Hin) as (l & Hl & Ht). destruct (stored_chunk_back _ _ _ _ _ Hl) as ((c' & Hc' & (it' & Hit' & Hg') & _) & _).
  rewrite Em in Hc. cbn [m_Ref bare] in Hc. assert (c' = c) as -> by congruence. assert (it' = it) as -> by congruence.
  rewrite Em, (gives_det _ _ _ Hg Hg'). exact Ht.
Qed.

Lemma back_size lo hi ss cw ws bs :
  merged lo hi ss cw ws -> Forall2 (fun w b => reads_back lo hi cw w (merged_samples ss (fst w)) b) ws bs ->
  zlen bs <= zlen (mjoin (series_of <$> ss)).
Proof using Type.
  intros Hm Hbs. assert (Hsub : b_lset <$> bs ⊆+ b_lset <$> mjoin (series_of <$> ss)).
  { apply NoDup_submseteq; [by eapply back_NoDup|]. intros ls (b & -> & Hb)%list_elem_of_fmap. by eapply back_elem. }
  apply submseteq_length in Hsub. rewrite !length_fmap in Hsub. unfold zlen. lia.
Qed.

Lemma back_need lo hi ss cw ws bs :
  merged lo hi ss cw ws -> Forall2 (fun w b => reads_back lo hi cw w (merged_samples ss (fst w)) b) ws bs ->
  zsum bseries_need bs <= zsum bseries_need (mjoin (series_of <$> ss)).
Proof using Type.
  intros Hm Hbs. etrans; [|apply (lsets_need (b_lset <$> bs)); [by eapply back_NoDup|]].
  - rewrite zsum_fmap. apply zsum_le, Forall_forall. intros b Hb. destruct (back_elem _ _ _ _ _ _ _ Hm Hbs Hb) as [_ ?].
    by apply series_need_mono.
  - intros ls (b & -> & Hb)%list_elem_of_fmap. by eapply back_elem.
Qed.

(** The new block: its files open, its readers are those of a sound source within its
    times, from which its samples come. *)
Record new_block (meta : BlockMeta U) (lo hi : Z) ss (f : files U) (pb : Block U IndexFile.Reader Chunks.Reader) bs (stats : BlockStats) : Prop := {
  nb_open : OpenBlock f = Ok pb;
  nb_meta : readMetaFile f = Ok (with_stats meta stats) /\ pb_meta pb = with_stats meta stats;
  nb_readers : block_readers pb = readers_of (block_source lo hi (⋃ (src_symbols <$> ss)) bs pb);
  nb_source : source_ok (I := xorIterator) (fun c => segment_chunk_ok (Source c)) (2 ^ 32)
    (block_source lo hi (⋃ (src_symbols <$> ss)) bs pb);
  nb_known : Forall (labels_known (⋃ (src_symbols <$> ss))) bs;
  nb_chunks ls : chunks_of ls bs <= chunks_of ls (mjoin (series_of <$> ss));
  nb_series : zlen bs <= zlen (mjoin (series_of <$> ss));
  nb_need : zsum bseries_need bs <= zsum bseries_need (mjoin (series_of <$> ss));
  nb_samples ls : series_samples bs ls = merged_samples ss ls;
  nb_stats : Plan.NumSamples stats = u64 (Z.of_nat (sum_list_with (fun b => length (merged_samples ss (b_lset b))) bs)) /\
    NumSeries stats = u64 (zlen bs) /\ NumTombstones stats = 0;
  nb_ivs : Forall (fun b => b_ivs b = []) bs;
  nb_undeleted T : undeleted T ss ->
    Forall (fun b => Forall (fun cl => T (m_MinTime (fst cl)) (m_MaxTime (fst cl)) (snd cl)) (b_chunks b)) bs;
}.

(** What a source has to satisfy so that its merge can be written. *)
Definition sources_known ss : Prop := Forall (fun s => Forall (labels_known (src_symbols s)) (src_series s)) ss.

Lemma merged_writable lo hi ss cw ws :
  Forall (source_ok (I := I) (fun c => cwl_ok (Source c)) M) ss -> sources_known ss ->
  MinInt64 < lo -> hi < MaxInt64 -> merged lo hi ss cw ws -> Forall (writable (⋃ (src_symbols <$> ss))) ws.
Proof using SC.
  intros Hok Hkn Hlo Hhi [_ Hser _ Hls _ _ _]. unfold sources_known in Hkn. rewrite Forall_forall in Hok. rewrite Forall_forall in Hkn. rewrite Forall_forall in Hser, Hls.
  apply Forall_forall. intros w Hw. destruct (Hls w Hw) as (s & b & Hs & Hb & E). specialize (Hkn s Hs). rewrite Forall_forall in Hkn.
  destruct (Hkn b Hb) as [Hne Hsy]. destruct (Hok s Hs) as [_ Hix _ _ _].
  destruct (ih_labels (ix := src_index s) (series := b_series <$> src_series s) (b_series b)) as [Hnd Hv]; [by apply list_elem_of_fmap_2|].
  cbn [b_series snd] in Hnd, Hv. rewrite E in *. split; [done..| |].
  - eapply Forall_impl; [exact Hsy|]. intros l [H1' H2']. split; apply elem_of_union_list; exists (src_symbols s); (split; [by apply list_elem_of_fmap_2|done]).
  - destruct (Hser w Hw) as (ls & Hst & _). clear - SC Hst Hlo Hhi. induction Hst as [|m l ms ls Hm _ IH]; [constructor|]. constructor; [|done].
    destruct (stored_chunk_back _ _ _ _ _ Hm) as (_ & [_ [? ?] _ _ _ Hord] & Hu). cbn [bare m_MinTime m_MaxTime] in *.
    unfold meta_ok, is_i64, MinInt64, MaxInt64 in *. split_and!; [lia..|done].
Qed.

Lemma block_files_open (meta : BlockMeta U) lo hi ss :
  compactable (U := U) (I := I) M meta Chunks.NewWriter ss -> sources_known ss ->
  Forall (src_chunks_in lo hi) ss -> MinInt64 < lo -> lo <= hi -> hi < MaxInt64 ->
  (forall A (l : list A), range A l ≡ₚ l) -> index_need ss <= 2 ^ 32 ->
  exists f pb bs stats, block_files (I := I) range meta (readers_of <$> ss) = Ok f /\ new_block meta lo hi ss f pb bs stats.
Proof using SC PosBound0.
  intros Hc Hkn Hr Hlo Hlh Hhi Hperm Hneed.
  destruct (populateBlock_writes M range meta IndexSpec.new_writer Chunks.NewWriter ss Hc sg_recoded Hperm)
    as (ws & cw & stats & lcalls & pcalls & E & Hm' & Hl & Hp & Hn1 & Hn2 & Hn3).
  pose proof (Hm' lo hi Hr) as Hm. clear Hm'.
  pose proof (merged_writable _ _ _ _ _ (ca_sources _ _ _ _ Hc) Hkn Hlo Hhi Hm) as Hw.
  pose proof (merged_need _ _ _ _ _ _ _ Hm Hl Hp) as Hcost.
  destruct (index_written (D := XORChunk) (⋃ (src_symbols <$> ss)) ws lcalls pcalls (mg_increasing _ _ _ _ _ Hm) Hw Hl Hp ltac:(lia))
    as (iw & file & rd & offs & Erun & Ecl & Erd & _ & Hlen & Hsym & Hix & Hser).
  destruct (block_reads_back _ _ _ _ _ offs (mg_series _ _ _ _ _ Hm) Hlen) as (bs & Hbs & Eix & Eref).
  set (f := mkFiles (Some (1, with_stats meta stats)) (w_files cw) file (Some (writeTombstoneFile []))).
  set (pb := mkBlock false 0 (with_stats meta stats) (symbol_table_size (SymbolTable rd)) (Chunks.mkReader (w_files cw)) rd (∅ : memTombstones)).
  exists f, pb, bs, stats. rewrite NewWriter_new in Erun. cbn [res_bind] in Erun. split.
  { unfold block_files. rewrite NewWriter_new. cbn [res_bind]. rewrite E, Erun. cbn [res_bind]. by rewrite Ecl. }
  split.
  - unfold OpenBlock. cbn [readMetaFile f_meta f f_chunks f_index f_tombstones]. rewrite (newReader_ok cw) by apply sg_ready, (mg_ready _ _ _ _ _ Hm).
    rewrite Erd. done.
  - done.
  - done.
  - by apply (block_source_ok _ _ ss cw ws bs offs).
  - clear - Hw Hbs. induction Hbs as [|w b ws bs Hb _ IH]; [constructor|]. apply Forall_cons in Hw as [[? _ _ ? _] Hw]. constructor; [|by apply IH].
    unfold labels_known. by rewrite (rb_lset _ _ _ _ _ _ Hb).
  - intros ls. by eapply back_chunks.
  - by eapply back_size.
  - by eapply back_need.
  - by eapply back_samples.
  - split_and!; [rewrite Hn1|rewrite Hn2; unfold zlen; by rewrite (Forall2_length _ _ _ Hbs)|done]. do 2 f_equal.
    clear - Hbs. induction Hbs as [|w b ws bs Hb _ IH]; [done|]. cbn [sum_list_with]. by rewrite IH, (rb_lset _ _ _ _ _ _ Hb).
  - clear - Hbs. induction Hbs as [|w b ws bs Hb _ IH]; [constructor|]. constructor; [apply Hb|done].
  - intros T. by eapply back_undeleted.
Qed.
End Result.

(** * Compacting blocks on disk *)

Section OnDisk.
Context {U : Type} `{Countable U} (Compare : U -> U -> comparison) (range : forall A, list A -> list A).
Context (range_perm : forall A (l : list A), range A l ≡ₚ l).
Abbreviation disk := (gmap U (files U)).
Abbreviation source := (CompactSpec.source IndexFile.Reader XORChunk Chunks.Reader memTombstones).
Implicit Types (d : disk) (s : source) (ss : list source).

(** The directory [u] holds a block with this metadata: its files open, and what its
    readers give is a sound source within its times. *)
Record disk_block d (u : U) (m : BlockMeta U) s : Prop := {
  dk_files : exists f pb, d !! u = Some f /\ OpenBlock f = Ok pb /\ readMetaFile f = Ok m /\ block_readers pb = readers_of s;
  dk_source : source_ok (I := xorIterator) (fun c => segment_chunk_ok (Source c)) (2 ^ 32) s;
  dk_known : Forall (labels_known (src_symbols s)) (src_series s);
  dk_times : bm_MinTime m <= src_lo s /\ src_hi s < bm_MaxTime m;
}.

(** The merge fits into one block: no series with more chunks than a segment takes at
    once, and an index below 4 GiB. *)
Definition fits_block {IX C CR TR} (ss : list (CompactSpec.source IX C CR TR)) : Prop :=
  (forall ls, chunks_of ls (mjoin (series_of <$> ss)) <= 512) /\ index_need ss <= 2 ^ 32.

Lemma open_dirs_ok d (blocks : list (U * BlockMeta U * source)) :
  Forall (fun b => disk_block d (fst (fst b)) (snd (fst b)) (snd b)) blocks ->
  exists bs, open_dirs d (fst ∘ fst <$> blocks) = Ok bs /\ snd <$> bs = snd ∘ fst <$> blocks /\
    (fun b => block_readers (snd (fst b))) <$> bs = readers_of ∘ snd <$> blocks.
Proof using Type.
  induction 1 as [|[[u m] s] blocks [(f & pb & Hf & Ho & Hm & Hr) _ _ _] _ (bs & E & E1 & E2)]; [by exists []|].
  cbn [fst snd] in *. exists ((u, pb, m) :: bs). rewrite !fmap_cons. cbn [open_dirs compose fst snd]. rewrite Hf, Ho. cbn [res_bind].
  rewrite Hm. cbn [res_bind]. rewrite E, E1, E2, Hr. done.
Qed.

Lemma sequence_sorted d (blocks : list (U * BlockMeta U * source)) :
  Forall (fun b => disk_block d (fst (fst b)) (snd (fst b)) (snd b)) blocks -> in_sequence (snd ∘ fst <$> blocks) -> sources_sorted (snd <$> blocks).
Proof using Type.
  intros Hb [_ Hs]. induction Hb as [|[[u m] s] blocks [_ _ _ Ht] Hb IH]; [constructor|].
  rewrite fmap_cons in Hs. rewrite fmap_cons. apply StronglySorted_inv in Hs as [Hs Hlt]. constructor; [by apply IH|].
  apply Forall_forall. intros t (b & -> & Hin)%list_elem_of_fmap.
  eapply Forall_forall in Hlt; [|apply (list_elem_of_fmap_2 (snd ∘ fst)); exact Hin]. eapply Forall_forall in Hb; [|exact Hin]. destruct Hb as [_ _ _ Ht'].
  cbn in Hlt, Ht |- *. lia.
Qed.

(** A block of [disk_block] is one again after it is merged into a new one. *)
Lemma new_block_on_disk {IX C CR TR} d meta (ss : list (CompactSpec.source IX C CR TR)) f pb bs stats :
  new_block meta (bm_MinTime meta) (bm_MaxTime meta - 1) ss f pb bs stats ->
  disk_block (<[bm_ULID meta := f]> d) (bm_ULID meta) (with_stats meta stats)
    (block_source (bm_MinTime meta) (bm_MaxTime meta - 1) (⋃ (src_symbols <$> ss)) bs pb).
Proof using Type.
  intros [Ho [Hm _] Hr Hs Hk _ _ _ _ _]. split; [|done..|cbn; lia].
  exists f, pb. split; [by rewrite lookup_insert_eq|done].
Qed.

Lemma block_fits {IX C CR TR} lo hi meta (ss : list (CompactSpec.source IX C CR TR)) f pb bs stats :
  new_block (U := U) meta lo hi ss f pb bs stats -> fits_block ss -> fits_block [block_source lo hi (⋃ (src_symbols <$> ss)) bs pb].
Proof using Type.
  intros [_ _ _ _ _ Hc _ Hn _ _ _ _] [F1 F2]. unfold fits_block, index_need in *. cbn [fmap list_fmap src_symbols block_source union_list foldr].
  rewrite (right_id_L ∅ (∪)). unfold series_of at 1 2. cbn [fmap list_fmap src_series block_source mjoin list_join]. rewrite app_nil_r.
  split; [intros ls; etrans; [apply Hc|apply F1]|lia].
Qed.
End OnDisk.

Lemma compactBlockMetas_stats {U} `{Countable U} (Compare : U -> U -> comparison) uid ms m :
  compactBlockMetas Compare uid ms = Ok m -> bm_Stats m = mkStats 0 0 0 0.
Proof.
  unfold compactBlockMetas. destruct (index ms 0); [|done..]. cbn [res_bind]. destruct (index ms (zlen ms - 1)); [|done..]. cbn [res_bind].
  by intros [= <-].
Qed.

Lemma chunks_of_total {C} ls (bs : list (bseries C)) : chunks_of ls bs <= zsum (fun b => zlen (b_chunks b)) bs.
Proof.
  unfold chunks_of. induction bs as [|b bs IH]; [done|]. rewrite filter_cons. pose proof (zlen_nonneg (b_chunks b)).
  case_decide; rewrite !zsum_cons; lia.
Qed.

Lemma disk_block_other {U} `{Countable U} (d : gmap U (files U)) u v m s f :
  u <> v -> disk_block d u m s -> disk_block (<[v := f]> d) u m s.
Proof. intros Hne [(f' & pb & Hf & ?) ? ? ?]. split; [|done..]. exists f', pb. by rewrite lookup_insert_ne. Qed.

(** The merge of blocks on disk writes one new block. *)
Lemma Compact_block {U} `{Countable U} (Compare : U -> U -> comparison) `{!CompareLaws Compare} (range : forall A, list A -> list A)
    (d : gmap U (files U)) (uid : U) (blocks : list (U * BlockMeta U * source IndexFile.Reader XORChunk Chunks.Reader memTombstones)) :
  (forall A (l : list A), range A l ≡ₚ l) -> blocks <> [] ->
  Forall (fun b => disk_block d (fst (fst b)) (snd (fst b)) (snd b)) blocks ->
  in_sequence (snd ∘ fst <$> blocks) -> fits_block (snd <$> blocks) ->
  exists f meta pb nbs stats, Compact Compare range uid d (fst ∘ fst <$> blocks) = (<[uid := f]> d, Ok uid) /\
    compactBlockMetas Compare uid (snd ∘ fst <$> blocks) = Ok meta /\
    new_block meta (bm_MinTime meta) (bm_MaxTime meta - 1) (snd <$> blocks) f pb nbs stats.
Proof.
  intros Hperm Hne Hb Hseq Hfit. set (ss := snd <$> blocks) in *.
  destruct (open_dirs_ok d blocks Hb) as (bs & Eo & Em & Er).
  destruct (compactBlockMetas_ok Compare uid (snd ∘ fst <$> blocks) ltac:(by destruct blocks) Hseq)
    as (meta & Ec & Eid & Hmeta & Hcover & _).
  assert (Hin : forall b, b ∈ blocks -> source_ok (I := xorIterator) (fun c => segment_chunk_ok (Source c)) (2 ^ 32) (snd b) /\
    Forall (labels_known (src_symbols (snd b))) (src_series (snd b)) /\
    bm_MinTime meta <= src_lo (snd b) /\ src_hi (snd b) <= bm_MaxTime meta - 1).
  { intros b Hin. rewrite Forall_forall in Hb. destruct (Hb b Hin) as [_ ? ? ?].
    eapply Forall_forall in Hcover; [|apply (list_elem_of_fmap_2 (snd ∘ fst)); exact Hin]. cbn in Hcover. split_and!; [done..|lia|lia]. }
  assert (Hss : Forall (fun s => source_ok (I := xorIterator) (fun c => segment_chunk_ok (Source c)) (2 ^ 32) s /\
    Forall (labels_known (src_symbols s)) (src_series s) /\ bm_MinTime meta <= src_lo s /\ src_hi s <= bm_MaxTime meta - 1) ss).
  { apply Forall_forall. intros s (b & -> & Hbin)%list_elem_of_fmap. by apply Hin. }
  destruct Hmeta as (Hsmall1 & Hsmall2 & Hlt). unfold small_time in Hsmall1, Hsmall2.
  assert (PosBound (2 ^ 32)) by (unfold PosBound; lia).
  destruct (block_files_open (2 ^ 32) range meta (bm_MinTime meta) (bm_MaxTime meta - 1) ss) as (f & pb & nbs & stats & Ef & Hnew).
  - split.
    + by destruct blocks.
    + eapply Forall_impl; [exact Hss|]. by intros s (? & _).
    + by eapply sequence_sorted.
    + eapply Forall_impl; [exact Hss|]. cbn. intros s (? & _ & ? & ?).
      apply (src_chunks_in_weaken (src_lo s) (src_hi s)); [lia|lia|]. by eapply source_chunks_in.
    + by eapply compactBlockMetas_stats.
    + intros ls. destruct Hfit as [Hc _]. specialize (Hc ls). rewrite <- chunk_count_of in Hc. cbn [cwl_max segments_laws]. lia.
    + apply new_writer_ready. etrans; [apply series_count_need|apply Hfit].
    + pose proof (series_count_need ss). destruct Hfit. lia.
  - eapply Forall_impl; [exact Hss|]. by intros s (_ & ? & _).
  - eapply Forall_impl; [exact Hss|]. intros s (? & _ & ? & ?).
    apply (src_chunks_in_weaken (src_lo s) (src_hi s)); [lia|lia|]. by eapply source_chunks_in.
  - unfold MinInt64. lia.
  - lia.
  - unfold MaxInt64. lia.
  - done.
  - apply Hfit.
  - exists f, meta, pb, nbs, stats. split; [|by split]. unfold Compact. rewrite Eo, Em, Ec. unfold write. rewrite Er, list_fmap_compose. fold ss.
    rewrite Ef, Eid. done.
Qed.

(** C4: compacting blocks on disk.  The directories hold blocks in sequence, each with
    readable chunks within its times, and the merge fits into one block.  [Compact]
    succeeds, and the only change on disk is the directory of the new block.  That is
    again such a block: its files open, its index and chunks are sound, it covers the
    times of the old blocks, has them as its parents and their sources as its sources;
    and for every label set its samples are those that the old blocks had, one after the
    other, without what their tombstones delete.  It fits into a block, so that it can be
    compacted again. *)
Theorem Compact_correct {U} `{Countable U} (Compare : U -> U -> comparison) `{!CompareLaws Compare} (range : forall A, list A -> list A)
    (d : gmap U (files U)) (uid : U) (blocks : list (U * BlockMeta U * source IndexFile.Reader XORChunk Chunks.Reader memTombstones)) :
  (forall A (l : list A), range A l ≡ₚ l) -> blocks <> [] ->
  Forall (fun b => disk_block d (fst (fst b)) (snd (fst b)) (snd b)) blocks ->
  in_sequence (snd ∘ fst <$> blocks) -> fits_block (snd <$> blocks) ->
  exists f m stats s, Compact Compare range uid d (fst ∘ fst <$> blocks) = (<[uid := f]> d, Ok uid) /\
    compactBlockMetas Compare uid (snd ∘ fst <$> blocks) = Ok m /\
    disk_block (<[uid := f]> d) uid (with_stats m stats) s /\ bm_ULID m = uid /\ PlanSpec.meta_ok m /\ fits_block [s] /\
    Forall (fun a => bm_MinTime m <= bm_MinTime a /\ bm_MaxTime a <= bm_MaxTime m) (snd ∘ fst <$> blocks) /\
    cp_Parents (bm_Compaction m) = desc <$> (snd ∘ fst <$> blocks) /\
    (forall u, u ∈ cp_Sources (bm_Compaction m) <-> exists a, a ∈ snd ∘ fst <$> blocks /\ u ∈ cp_Sources (bm_Compaction a)) /\
    Plan.NumSamples stats = u64 (Z.of_nat (sum_list_with (fun b => length (series_samples (src_series s) (b_lset b))) (src_series s))) /\
    NumSeries stats = u64 (zlen (src_series s)) /\ NumTombstones stats = 0 /\
    forall ls, series_samples (src_series s) ls = mjoin ((fun b => series_samples (src_series (snd b)) ls) <$> blocks).
Proof.
  intros Hperm Hne Hb Hseq Hfit. destruct (Compact_block Compare range d uid blocks Hperm Hne Hb Hseq Hfit) as (f & meta & pb & nbs & stats & Er & Ec & Hnew).
  destruct (compactBlockMetas_ok Compare uid (snd ∘ fst <$> blocks) ltac:(by destruct blocks) Hseq)
    as (meta' & Ec' & Eid & Hmeta & Hcover & _ & _ & Hpar & _ & Hsrc). assert (meta' = meta) as -> by congruence. set (ss := snd <$> blocks) in *.
  exists f, meta, stats, (block_source (bm_MinTime meta) (bm_MaxTime meta - 1) (⋃ (src_symbols <$> ss)) nbs pb).
  destruct (nb_stats _ _ _ _ _ _ _ _ Hnew) as (S1 & S2 & S3). pose proof (nb_samples _ _ _ _ _ _ _ _ Hnew) as Hsam.
  split_and!; [exact Er|exact Ec| |exact Eid|done..|by eapply block_fits|exact Hcover|exact Hpar|exact Hsrc| |exact S2|exact S3|].
  - rewrite <- Eid. by apply new_block_on_disk.
  - cbn [src_series block_source]. rewrite S1. do 2 f_equal. apply sum_list_ext. intros b. by rewrite Hsam.
  - intros ls. etrans; [apply Hsam|]. unfold merged_samples, ss. by rewrite <- list_fmap_compose.
Qed.

(** ** When it fails *)

Section Failing.
Context {U : Type} `{Countable U}.
Implicit Types (d : gmap U (files U)).

Definition mark_all d (bs : list (U * Block U IndexFile.Reader Chunks.Reader * BlockMeta U)) : gmap U (files U) :=
  foldl (fun d b => mark_failed d (fst (fst b)) (snd (fst b))) d bs.

Lemma open_dirs_elem d dirs bs b :
  open_dirs d dirs = Ok bs -> b ∈ bs ->
  fst (fst b) ∈ dirs /\ exists f, d !! fst (fst b) = Some f /\ readMetaFile f = Ok (pb_meta (snd (fst b))).
Proof.
  revert bs. induction dirs as [|u dirs IH]; intros bs; cbn [open_dirs]; [intros [= <-] ?%elem_of_nil; done|].
  destruct (d !! u) as [f|] eqn:Ef; [|done]. unfold OpenBlock. destruct (readMetaFile f) as [m| |] eqn:Em; [|done..]. cbn [res_bind].
  destruct (Chunks.newReader _) as [cr| |]; [|done..]. cbn [res_bind]. destruct (IndexFile.newReader _) as [ir| |]; [|done..]. cbn [res_bind].
  destruct (readTombstones _) as [tr| |]; [|done..]. cbn [res_bind]. destruct (open_dirs d dirs) as [bs'| |]; [|done..].
  intros [= <-] [->|Hb]%elem_of_cons; [split; [left|by exists f]|]. destruct (IH bs' eq_refl Hb) as [? ?]. split; [by right|done].
Qed.

Lemma open_dirs_dirs d dirs bs : open_dirs d dirs = Ok bs -> (fst ∘ fst) <$> bs = dirs.
Proof.
  revert bs. induction dirs as [|u dirs IH]; intros bs; cbn [open_dirs]; [by intros [= <-]|].
  destruct (d !! u) as [f|]; [|done]. destruct (OpenBlock f) as [pb| |]; [|done..]. cbn [res_bind].
  destruct (readMetaFile f); [|done..]. cbn [res_bind]. destruct (open_dirs d dirs) as [bs'| |]; [|done..].
  intros [= <-]. by rewrite fmap_cons, IH.
Qed.

(** A directory that is marked keeps its data; the others stay. *)
Lemma mark_all_lookup d0 d bs :
  (forall b, b ∈ bs -> exists f, d0 !! fst (fst b) = Some f /\ readMetaFile f = Ok (pb_meta (snd (fst b)))) ->
  (forall u f m, d0 !! u = Some f -> readMetaFile f = Ok m -> d !! u = Some f \/ d !! u = Some (writeMetaFile (set_failed m) f)) ->
  (forall u, u ∉ fst ∘ fst <$> bs -> mark_all d bs !! u = d !! u) /\
  (forall u f m, u ∈ fst ∘ fst <$> bs -> d0 !! u = Some f -> readMetaFile f = Ok m ->
    mark_all d bs !! u = Some (writeMetaFile (set_failed m) f)).
Proof.
  revert d. induction bs as [|[[v pb] mv] bs IH]; intros d Hbs Hd; [by split; [|intros ? ? ? ?%elem_of_nil]|].
  destruct (Hbs (v, pb, mv) ltac:(left)) as (fv & Hfv & Hmv). cbn [fst snd] in Hfv, Hmv.
  assert (E : mark_failed d v pb = <[v := writeMetaFile (set_failed (pb_meta pb)) fv]> d).
  { unfold mark_failed. by destruct (Hd v fv _ Hfv Hmv) as [->| ->]. }
  change (mark_all d ((v, pb, mv) :: bs)) with (mark_all (mark_failed d v pb) bs). rewrite E.
  destruct (IH (<[v := writeMetaFile (set_failed (pb_meta pb)) fv]> d)) as [I1 I2].
  - intros b Hb. apply Hbs. by right.
  - intros u f m Hf Hm. destruct (decide (u = v)) as [->|Hne]; [right|rewrite lookup_insert_ne by done; by apply Hd].
    rewrite lookup_insert_eq. congruence.
  - split.
    + intros u Hu. rewrite fmap_cons in Hu. apply not_elem_of_cons in Hu as [Hne Hu]. rewrite I1 by done. by rewrite lookup_insert_ne.
    + intros u f m Hu Hf Hm. destruct (decide (u ∈ fst ∘ fst <$> bs)) as [Hin|Hnot]; [by apply I2|].
      rewrite I1 by done. rewrite fmap_cons in Hu. apply elem_of_cons in Hu as [->|Hu]; [|done]. cbn in *. rewrite lookup_insert_eq. congruence.
Qed.
(** The files of a block after the compaction has failed: its metadata say so, and nothing
    else has changed. *)
Record marked (f f' : files U) : Prop := {
  mk_meta : exists m m', readMetaFile f = Ok m /\ readMetaFile f' = Ok m' /\
    cp_Failed (bm_Compaction m') = true /\
    bm_ULID m' = bm_ULID m /\ bm_MinTime m' = bm_MinTime m /\ bm_MaxTime m' = bm_MaxTime m /\ bm_Stats m' = bm_Stats m /\
    cp_Level (bm_Compaction m') = cp_Level (bm_Compaction m) /\ cp_Sources (bm_Compaction m') = cp_Sources (bm_Compaction m) /\
    cp_Parents (bm_Compaction m') = cp_Parents (bm_Compaction m);
  mk_chunks : f_chunks f' = f_chunks f;
  mk_index : f_index f' = f_index f;
  mk_tombstones : f_tombstones f' = f_tombstones f;
}.

Lemma set_failed_marked (f : files U) m : readMetaFile f = Ok m -> marked f (writeMetaFile (set_failed m) f).
Proof using Type. intros Hm. split; [|done..]. by exists m, (set_failed m). Qed.
End Failing.

(** C22: a compaction that fails returns the error, adds no directory, and changes none but
    those that were to be compacted.  When one of these cannot be opened, or their metadata
    cannot be merged, nothing is changed and nothing marked.  Otherwise writing the new
    block has failed, and then every directory that was to be compacted has metadata that
    read back with the mark of a failed compaction and with all other fields as before,
    and its chunks, index and tombstones stay as they were. *)
Theorem Compact_failure {U} `{Countable U} (Compare : U -> U -> comparison) (range : forall A, list A -> list A)
    (d d' : gmap U (files U)) (uid : U) (dirs : list U) e :
  Compact Compare range uid d dirs = (d', Err e) ->
  (forall u, u ∉ dirs -> d' !! u = d !! u) /\
  ((d' = d /\ (open_dirs d dirs = Err e \/ exists bs, open_dirs d dirs = Ok bs /\ compactBlockMetas Compare uid (snd <$> bs) = Err e)) \/
   ((exists bs meta, open_dirs d dirs = Ok bs /\ compactBlockMetas Compare uid (snd <$> bs) = Ok meta /\
       block_files (I := xorIterator) range meta ((fun b => block_readers (snd (fst b))) <$> bs) = Err e) /\
    forall u, u ∈ dirs -> exists f f', d !! u = Some f /\ d' !! u = Some f' /\ marked f f')).
Proof.
  unfold Compact. destruct (open_dirs d dirs) as [bs|e'|] eqn:Eo; [|intros [= <- <-]; split; [done|left; split; [done|by left]]|done].
  destruct (compactBlockMetas Compare uid (snd <$> bs)) as [meta|e'|] eqn:Em;
    [|intros [= <- <-]; split; [done|left; split; [done|right; by exists bs]]|done].
  unfold write. destruct (block_files _ _ _) as [f|e'|] eqn:Ef; [done| |done]. intros [= <- <-]. fold (mark_all d bs).
  destruct (mark_all_lookup d d bs) as [Hout Hin]; [by intros b Hb; destruct (open_dirs_elem _ _ _ _ Eo Hb)|by left|].
  rewrite (open_dirs_dirs _ _ _ Eo) in Hout, Hin. split; [exact Hout|]. right. split; [by exists bs, meta|]. intros u Hu.
  assert (Hb : u ∈ fst ∘ fst <$> bs) by by rewrite (open_dirs_dirs _ _ _ Eo).
  apply list_elem_of_fmap in Hb as (b & -> & Hb). destruct (open_dirs_elem _ _ _ _ Eo Hb) as (_ & f & Hf & Hm).
  exists f, (writeMetaFile (set_failed (pb_meta (snd (fst b)))) f). split; [exact Hf|]. split; [by apply Hin|by apply set_failed_marked].
Qed.

(** The blocks of [CompactExample], written to disk one after the other. *)
Module CompactorExample.
Import CompactExample.

Definition keep (A : Type) (l : list A) : list A := l.

Definition meta_of (u mint maxt : Z) : BlockMeta Z := mkBlockMeta u mint maxt (mkStats 0 0 0 0) (mkCompaction 1 [u] [] false).

Lemma single_ok (u mint maxt : Z) (s : source ListIndex.list_index XORChunk (gmap Z XORChunk) memTombstones) :
  s ∈ [source1; source2] -> mint <= src_lo s /\ src_hi s < maxt -> MinInt64 < mint -> maxt <= MaxInt64 ->
  exists f pb bs stats, block_files (I := xorIterator) keep (meta_of u mint maxt) (readers_of <$> [s]) = Ok f /\
    new_block (meta_of u mint maxt) mint (maxt - 1) [s] f pb bs stats.
Proof.
  intros Hs Ht Hmin Hmax. assert (PosBound (2 ^ 64)) by (unfold PosBound; lia).
  assert (Hall : forall s, s ∈ [source1; source2] ->
    (series_count [s] <= 512)%nat /\ zsum (fun b => zlen (b_chunks b)) (src_series s) <= 512 /\ index_need [s] <= 2 ^ 32 /\ sources_known [s]).
  { apply Forall_forall. repeat apply Forall_cons_2; [..|apply Forall_nil_2]; unfold sources_known, labels_known; decided. }
  destruct (Hall s Hs) as (H1 & H2 & H3 & H4). pose proof sources_ok as Hok. rewrite Forall_forall in Hok.
  assert (Hin : forall lo hi, lo <= src_lo s -> src_hi s <= hi -> Forall (src_chunks_in lo hi) [s]).
  { intros lo hi ? ?. apply Forall_singleton, (src_chunks_in_weaken (src_lo s) (src_hi s)); [done..|]. eapply source_chunks_in. by apply Hok. }
  assert (Hlh : src_lo s <= src_hi s) by by apply (so_bounds _ _ _ (Hok s Hs)).
  apply (block_files_open (2 ^ 64)); [|done|apply Hin; lia|done|lia|lia|done|done]. split.
  - done.
  - apply Forall_singleton. by apply Hok.
  - by repeat constructor.
  - apply Hin; cbn; lia.
  - done.
  - intros ls. apply Nat2Z.inj_le. rewrite chunk_count_of. etrans; [apply chunks_of_total|].
    cbn [fmap list_fmap mjoin list_join]. rewrite app_nil_r. exact H2.
  - apply new_writer_ready. lia.
  - lia.
Qed.

Definition disk1 : gmap Z (files Z) := fst (write (I := xorIterator) keep ∅ (meta_of 1 0 50) (readers_of <$> [source1])).
Definition disk2 : gmap Z (files Z) := fst (write (I := xorIterator) keep disk1 (meta_of 2 50 100) (readers_of <$> [source2])).

Lemma fits_two m1 lo1 hi1 f1 pb1 bs1 st1 m2 lo2 hi2 f2 pb2 bs2 st2 :
  new_block (U := Z) m1 lo1 hi1 [source1] f1 pb1 bs1 st1 -> new_block (U := Z) m2 lo2 hi2 [source2] f2 pb2 bs2 st2 ->
  fits_block [block_source lo1 hi1 (⋃ (src_symbols <$> [source1])) bs1 pb1; block_source lo2 hi2 (⋃ (src_symbols <$> [source2])) bs2 pb2].
Proof.
  intros [_ _ _ _ _ C1 _ B1 _ _] [_ _ _ _ _ C2 _ B2 _ _]. unfold fits_block, index_need.
  cbn [fmap list_fmap mjoin list_join src_symbols block_source] in *. unfold series_of in *. cbn [src_series block_source] in *.
  rewrite !app_nil_r in *. split.
  - intros ls. unfold chunks_of. rewrite filter_app, zsum_app. specialize (C1 ls). specialize (C2 ls).
    pose proof (chunks_of_total ls (src_series source1)) as T1. pose proof (chunks_of_total ls (src_series source2)) as T2.
    change (zsum (fun b => zlen (b_chunks b)) (src_series source1)) with 3 in T1.
    change (zsum (fun b => zlen (b_chunks b)) (src_series source2)) with 1 in T2. unfold chunks_of in *. lia.
  - rewrite zsum_app. assert (N1 : zsum bseries_need (src_series source1) <= 10000) by decided.
    assert (N2 : zsum bseries_need (src_series source2) <= 10000) by decided.
    assert (Ns : zsum str_cost (elements (⋃ [⋃ [src_symbols source1]; ⋃ [src_symbols source2]])) <= 10000) by decided. lia.
Qed.
End CompactorExample.

Lemma Compact_correct_witness :
  exists f m stats s, Compact Z.compare CompactorExample.keep 9 CompactorExample.disk2 [1; 2] = (<[9 := f]> CompactorExample.disk2, Ok 9) /\
    m = mkBlockMeta 9 0 100 (mkStats 0 0 0 0) (mkCompaction 2 [1; 2] [mkDesc 1 0 50; mkDesc 2 50 100] false) /\
    disk_block (<[9 := f]> CompactorExample.disk2) 9 (with_stats m stats) s /\
    forall ls, series_samples (src_series s) ls = merged_samples [CompactExample.source1; CompactExample.source2] ls.
Proof.
  destruct (CompactorExample.single_ok 1 0 50 CompactExample.source1) as (f1 & pb1 & bs1 & st1 & E1 & N1); [left|decided..|].
  destruct (CompactorExample.single_ok 2 50 100 CompactExample.source2) as (f2 & pb2 & bs2 & st2 & E2 & N2); [right; left|decided..|].
  assert (Ed : CompactorExample.disk2 = <[2 := f2]> (<[1 := f1]> ∅)).
  { unfold CompactorExample.disk2, CompactorExample.disk1, write. by rewrite E1, E2. }
  set (s1 := block_source 0 (50 - 1) (⋃ (src_symbols <$> [CompactExample.source1])) bs1 pb1).
  set (s2 := block_source 50 (100 - 1) (⋃ (src_symbols <$> [CompactExample.source2])) bs2 pb2).
  assert (D1 : disk_block (<[1 := f1]> ∅) 1 (with_stats (CompactorExample.meta_of 1 0 50) st1) s1) by exact (new_block_on_disk ∅ _ _ _ _ _ _ N1).
  assert (D2 : disk_block CompactorExample.disk2 2 (with_stats (CompactorExample.meta_of 2 50 100) st2) s2).
  { rewrite Ed. exact (new_block_on_disk (<[1 := f1]> ∅) _ _ _ _ _ _ N2). }
  destruct (Compact_correct Z.compare CompactorExample.keep CompactorExample.disk2 9
    [(1, with_stats (CompactorExample.meta_of 1 0 50) st1, s1); (2, with_stats (CompactorExample.meta_of 2 50 100) st2, s2)])
    as (f & m & stats & s & E & Em & Hb & _ & _ & _ & _ & _ & _ & _ & _ & _ & Hs).
  - done.
  - done.
  - apply Forall_cons_2; [rewrite Ed; apply disk_block_other; [done|exact D1]|]. apply Forall_cons_2; [exact D2|apply Forall_nil_2].
  - cbn [fmap list_fmap compose fst snd]. split; [|repeat constructor; cbn [with_stats bm_MaxTime bm_MinTime CompactorExample.meta_of]; lia].
    repeat apply Forall_cons_2; try apply Forall_nil_2; unfold PlanSpec.meta_ok, small_time; cbn [with_stats bm_MaxTime bm_MinTime CompactorExample.meta_of]; lia.
  - exact (CompactorExample.fits_two _ _ _ _ _ _ _ _ _ _ _ _ _ _ N1 N2).
  - exists f, m, stats, s. split; [exact E|]. split; [by injection Em as <-|]. split; [exact Hb|].
    intros ls. rewrite Hs. cbn [fmap list_fmap snd src_series block_source s1 s2].
    rewrite (nb_samples _ _ _ _ _ _ _ _ N1), (nb_samples _ _ _ _ _ _ _ _ N2).
    unfold merged_samples. cbn [fmap list_fmap mjoin list_join]. rewrite !app_nil_r. reflexivity.
Defined.

(** A block with chunks beyond the times in its metadata. *)
Lemma Compact_failure_witness :
  let short m := mkBlockMeta (bm_ULID m) 0 30 (bm_Stats m) (bm_Compaction m) in
  let d := (fun f => writeMetaFile (short (CompactorExample.meta_of 1 0 50)) f) <$> CompactorExample.disk1 in
  exists d' e, Compact Z.compare CompactorExample.keep 9 d [1] = (d', Err e) /\ (forall u, u ∉ [1] -> d' !! u = d !! u) /\
    ((d' = d /\ (open_dirs d [1] = Err e \/ exists bs, open_dirs d [1] = Ok bs /\ compactBlockMetas Z.compare 9 (snd <$> bs) = Err e)) \/
     ((exists bs meta, open_dirs d [1] = Ok bs /\ compactBlockMetas Z.compare 9 (snd <$> bs) = Ok meta /\
         block_files (I := xorIterator) CompactorExample.keep meta ((fun b => block_readers (snd (fst b))) <$> bs) = Err e) /\
      forall u, u ∈ [1] -> exists f f', d !! u = Some f /\ d' !! u = Some f' /\ marked f f')).
Proof.
  cbv zeta. set (d := _ <$> CompactorExample.disk1).
  assert (Er : snd (Compact Z.compare CompactorExample.keep 9 d [1]) = Err (ErrMsg "found chunk outside of compacted range")) by by vm_compute.
  exists (fst (Compact Z.compare CompactorExample.keep 9 d [1])), (ErrMsg "found chunk outside of compacted range").
  assert (E : Compact Z.compare CompactorExample.keep 9 d [1] = (fst (Compact Z.compare CompactorExample.keep 9 d [1]), Err (ErrMsg "found chunk outside of compacted range"))).
  { etransitivity; [apply surjective_pairing|]. by rewrite Er. }
  split; [exact E|]. exact (Compact_failure Z.compare CompactorExample.keep d _ 9 [1] _ E).
Defined.
