(* ===== verification/HeadBlock.v ===== *)
(** Writing a range of the head as a block: the chunks of the head as chunks of segment
    files, the head as a source of the compactor, and the block that [Write] makes. *)
From S2P Require Import Prelude Bits BitStream Order EncBuf Labels Tombstones Records Postings PostingsSpec MemPostings XorChunk Chunks Buffer SeriesIter SeriesSets Querier MemSeries Head HeadInv HeadAppend HeadQuery Plan PlanSpec Db Compaction CompactSpec IndexFile IndexSpec Blocks Compactor CompactorSpec.
#[local] Open Scope list_scope.
#[local] Open Scope Z_scope.

(** * The chunks of the head in segment files *)

(** What the iterator of the chunk gives can be read from its bytes, too. *)
Definition faithful (c : safeChunk) : Prop :=
  forall l, (exists it : ms_iter, ck_Iterator c = Ok it /\ gives it l) -> exists it, XorChunk.Iterator (safe_xor c) = Ok it /\ gives it l.

Definition head_chunk_ok (c : wchunk safeChunk) : Prop :=
  segment_chunk_ok (wchunk_encoded c) /\ match c with Source c => faithful c | Recoded _ => True end.

Definition encoded_meta (m : Meta (wchunk safeChunk)) : Meta (wchunk XORChunk) :=
  mkMeta (m_Ref m) (wchunk_encoded <$> m_Chunk m) (m_MinTime m) (m_MaxTime m).

#[export] Program Instance head_segments_laws : ChunkWriterLaws Chunks.Writer (wchunk safeChunk) := {|
  cwl_max := 512;
  cwl_ok := head_chunk_ok;
  cwl_ready := cwl_ready (C := wchunk XORChunk);
  cwl_stored w r c := cwl_stored w r (wchunk_encoded c);
|}.
Next Obligation. intros w n k. apply cwl_weaken. Qed.
Next Obligation.
  intros w n chks Hw Hmax Hok. cbn beta in Hw.
  destruct (cwl_write w n (encoded_meta <$> chks) Hw) as (ms & w' & E & Hw' & Hmono & Hms); [by rewrite length_fmap| |].
  { apply Forall_fmap. eapply Forall_impl; [exact Hok|]. cbn. intros m (c & -> & [Hc _]). by exists (wchunk_encoded c). }
  unfold cw_WriteChunks, head_segments_writer. fold encoded_meta. rewrite E. cbn [res_bind]. eexists _, w'. split; [done|]. split; [done|].
  split; [intros r c; apply Hmono|]. clear - Hms Hok. revert ms Hms.
  induction chks as [|m chks IH]; intros ms Hms; inversion Hms as [|? m' ? ms' (E1 & E2 & E3 & c & Ec & Hst)]; subst; [constructor|].
  apply Forall_cons in Hok as [(c' & Hc' & _) Hok]. cbn [zip_with]. constructor; [|by apply IH].
  cbn [m_MinTime m_MaxTime m_Chunk m_Ref encoded_meta] in *. split_and!; [done..|]. exists c'. split; [done|].
  rewrite Hc' in Ec. by injection Ec as <-.
Qed.

#[export] Program Instance head_segment_chunks : SegmentChunks safeChunk ms_iter := {| sg_xor c := wchunk_xor (wchunk_encoded c) |}.
Next Obligation. by intros w [? _]. Qed.
Next Obligation. by intros w r c []. Qed.
Next Obligation.
  intros c l [Hs Hf] Hh Hn. destruct c as [c|c].
  - split; [done|]. split; [done|]. by apply Hf.
  - destruct Hh as (it & Hit & Hg). split; [done|]. split; [done|]. by exists it.
Qed.
Next Obligation. intros a l Ha. split; [by eapply encodes_segment_ok|done]. Qed.

(** * The head as a source *)

Lemma ms_chunk_at s j c : ms_chunks s !! j = Some c -> ms_chunk s (ms_chunkID s (Z.of_nat j)) = Some c.
Proof.
  intros Hj. pose proof (lookup_lt_Some _ _ _ Hj). unfold ms_chunk, ms_chunkID. rewrite Z.add_simpl_r, Nat2Z.id.
  rewrite (proj2 (Z.ltb_ge _ _)), (proj2 (Z.leb_gt _ _)) by (unfold zlen; lia). done.
Qed.

(** A chunk of a series can be written. *)
Lemma safe_chunk_data s ls j mc l a :
  ms_holds s ls -> ms_chunks s !! j = Some mc -> ls !! j = Some l -> chunk_holds mc a l ->
  data_ok (fun c => head_chunk_ok (Source c)) (mkSafeChunk s (ms_chunkID s (Z.of_nat j))) l.
Proof.
  intros Hs Hj Hl (Ha & Emc & _). destruct (ms_iterator_ok _ _ _ _ Hs Hl) as (it & Hit & Hg).
  assert (Ex : safe_xor (mkSafeChunk s (ms_chunkID s (Z.of_nat j))) = achunk a).
  { unfold safe_xor. cbn [sc_s sc_cid]. by rewrite (ms_chunk_at _ _ _ Hj). }
  split; [by exists it|]. unfold ck_NumSamples, safe_counted. rewrite Ex. split; [by apply NumSamples_encodes|]. split.
  - unfold wchunk_encoded. rewrite Ex. by apply (encodes_segment_ok a l).
  - intros l' (it' & Hit' & Hg'). change (ms_iterator s (ms_chunkID s (Z.of_nat j)) = Ok it') in Hit'.
    assert (it' = it) as -> by congruence. rewrite (gives_det _ _ _ Hg' Hg), Ex. by apply xor_gives.
Qed.

Lemma chunk_samples_ok s ls j mc l ref :
  ms_holds s ls -> ms_chunks s !! j = Some mc -> ls !! j = Some l ->
  samples_ok (MinInt64 + 1) (MaxInt64 - 1) (mkMeta (C := safeChunk) ref None (mc_minTime mc) (mc_maxTime mc)) l.
Proof.
  intros Hs Hj Hl. destruct (Forall2_lookup_lr _ _ _ _ _ _ (mh_chunks _ _ Hs) Hj Hl) as (a & Ha & _ & Hmin & Hmax).
  apply list_elem_of_lookup_2 in Hl. pose proof (increasing_part _ _ (mh_sorted _ _ Hs) Hl) as Hinc.
  assert (Hok : Forall sample_ok l).
  { pose proof (mh_ok _ _ Hs) as Hok. rewrite Forall_forall in Hok |- *. intros x Hx. apply Hok, list_elem_of_join. by exists l. }
  pose proof (times_between _ _ _ Hinc Hmin Hmax) as Ht.
  apply fmap_Some in Hmin as (x & Hx & Ex), Hmax as (y & Hy & Ey). apply last_Some_elem_of in Hy.
  assert (Hxl : x ∈ l) by (destruct l; [done|injection Hx as ->; left]).
  rewrite Forall_forall in Hok. destruct (Hok _ Hxl) as [Tx _], (Hok _ Hy) as [Ty _]. unfold time_ok in Tx, Ty.
  rewrite Forall_forall in Ht. pose proof (Ht _ Hy) as Hty. rewrite <- Forall_forall in Ht. split; cbn [m_MinTime m_MaxTime].
  - done.
  - unfold MinInt64, MaxInt64. lia.
  - done.
  - apply Forall_forall. intros [t v] Hz. destruct (Hok _ Hz) as [Hz' ?]. split; [|done]. unfold time_ok in Hz'. cbn [fst] in *. unfold is_i64, is_s. lia.
  - exact (enc_length _ _ Ha).
  - lia.
Qed.

Section Source.
Context {W : Type} `{WAL W} (Sum64 : list Z -> Z).
Context (h : Head W) (A : contents) (Hrep : rep Sum64 h A).
Context (mint maxt : Z).
Context (Hfit : Forall ids_fit (h_heap h)) (Hord : forall id, ordered (Get (h_tombstones h) id)).
Context (Hwithin : forall id, ivs_within (MinInt64 + 1) (MaxInt64 - 1) (Get (h_tombstones h) id)).

Abbreviation ix := (indexRange h mint maxt).
Abbreviation cr := (chunksRange h mint maxt).
Abbreviation lo := (lo h mint).

(** The series [id] as a series of a block. *)
Record head_series_of (id : Z) (c : HeadInv.content) (b : bseries safeChunk) : Prop := {
  hb_ref : b_ref b = id;
  hb_lset : b_lset b = fst c;
  hb_ivs : b_ivs b = Get (h_tombstones h) id;
  hb_chunks : snd <$> b_chunks b = filter (in_span lo maxt) (chunked c);
  hb_spans : Forall (fun cl => span (snd cl) = (m_MinTime (fst cl), m_MaxTime (fst cl))) (b_chunks b);
  hb_series : ix_Series ix id = Ok (fst c, fst <$> b_chunks b);
  hb_data : Forall (fun cl => samples_ok (MinInt64 + 1) (MaxInt64 - 1) (fst cl) (snd cl) /\
    exists k, cr_Chunk cr (m_Ref (fst cl)) = Ok k /\ data_ok (I := ms_iter) (fun c => head_chunk_ok (Source c)) k (snd cl)) (b_chunks b);
}.

Lemma head_series_exists id c : A !! id = Some c -> exists b, head_series_of id c b.
Proof using Hrep Hfit.
  intros Hc. destruct (rep_lookup _ _ _ _ _ (proj1 Hrep) Hc) as (l & Hl & s & Hs & Eid & _ & Hh & _).
  pose proof (series_fit h Hfit l s Hs) as Hsf. pose proof (id_range Sum64 h A Hrep id c Hc s Eid) as Hid.
  destruct (exposed_ok s (chunked c) Hh Hsf Hid lo maxt 0) as (cls & Hcls & Hex & Esnd). rewrite !drop_0 in *.
  exists (mkBseries id (fst c) cls (Get (h_tombstones h) id)). split; cbn [b_ref b_lset b_chunks b_ivs]; [done..| | |].
  - eapply Forall_impl; [exact Hex|]. intros cl Hcl. by eapply (exposes_span h mint maxt c s Hh).
  - cbn [ix_Series head_index_reader]. unfold hi_Series, getByID, Head.series_at. cbn [indexRange hi_head hi_mint hi_maxt].
    rewrite Hl, Hs. change 0 with (Z.of_nat 0). fold (HeadQuery.lo h mint). rewrite Hcls. cbn [res_bind].
    destruct (rp_loc _ _ _ (proj1 Hrep) _ _ _ Hl Hc) as (s' & Hs' & _ & El & _). rewrite Hs in Hs'. injection Hs' as <-. by rewrite El.
  - eapply Forall_impl; [exact Hex|]. intros cl Hcl. split.
    + destruct Hcl as (j & mc & Hj & Hlj & _ & ref & _ & ->). by eapply chunk_samples_ok.
    + destruct (hc_Chunk_ok Sum64 h A Hrep mint maxt Hfit id c Hc l s Hl Hs Eid Hh cl Hcl) as (it & Hck & _).
      eexists. split; [exact Hck|]. destruct Hcl as (j & mc & Hj & Hlj & _ & ref & Href & ->). cbn [m_Ref].
      destruct (chunk_ref s Hsf Hid j mc Hj) as (ref' & Href' & Hun & _). assert (ref' = ref) as -> by congruence. rewrite Hun. cbn [snd].
      destruct (Forall2_lookup_lr _ _ _ _ _ _ (mh_chunks _ _ Hh) Hj Hlj) as [a Ha]. by eapply safe_chunk_data.
Qed.

(** ** All series *)

(** A chunk that reaches into the range lies in it. *)
Definition aligned : Prop := forall id c l, A !! id = Some c -> l ∈ chunked c -> in_span mint maxt l -> mint <= fst (span l) /\ snd (span l) <= maxt.

Definition all_series (bs : list (bseries safeChunk)) : Prop := Forall2 (fun ic b => head_series_of (fst ic) (snd ic) b) (map_to_list A) bs.

Lemma all_series_exists : exists bs, all_series bs.
Proof using Hrep Hfit.
  unfold all_series. assert (Hall : Forall (fun ic => A !! fst ic = Some (snd ic)) (map_to_list A)).
  { apply Forall_forall. intros [id c] Hic. by apply elem_of_map_to_list in Hic. }
  induction Hall as [|[id c] ics Hc _ [bs Hbs]]; [by exists []|]. destruct (head_series_exists id c Hc) as [b Hb].
  exists (b :: bs). by constructor.
Qed.

Context (bs : list (bseries safeChunk)) (Hbs : all_series bs).

Definition head_source : source (headIndexReader W) safeChunk (headChunkReader W) memTombstones :=
  mkSource ix cr (h_tombstones h) (h_symbols h) bs (MinInt64 + 1) (MaxInt64 - 1).

Lemma head_lsets : b_lset <$> bs = (fun ic => fst (snd ic)) <$> map_to_list A.
Proof using Hbs. revert Hbs. unfold all_series. generalize (map_to_list A) as ics. induction 1 as [|ic b ics bs' Hb _ IH]; [done|]. by rewrite !fmap_cons, IH, (hb_lset _ _ _ Hb). Qed.

Lemma head_elem b : b ∈ bs <-> exists id c, A !! id = Some c /\ head_series_of id c b /\ b ∈ bs.
Proof using Hbs.
  split; [|naive_solver]. intros Hb. pose proof Hb as [k Hk]%list_elem_of_lookup.
  destruct (Forall2_lookup_r _ _ _ _ _ Hbs Hk) as ([id c] & Hic%list_elem_of_lookup_2%elem_of_map_to_list & Hs). by exists id, c.
Qed.

Lemma head_of id c : A !! id = Some c -> exists b, b ∈ bs /\ head_series_of id c b.
Proof using Hbs.
  intros Hc. apply elem_of_map_to_list in Hc as [k Hk]%list_elem_of_lookup.
  destruct (Forall2_lookup_l _ _ _ _ _ Hbs Hk) as (b & Hb%list_elem_of_lookup_2 & Hs). by exists b.
Qed.

Lemma head_lsets_NoDup : NoDup (b_lset <$> bs).
Proof using Hbs Hrep.
  rewrite head_lsets. apply NoDup_fmap_2_strong; [|apply NoDup_map_to_list]. intros [i c] [j d] Hc Hd E.
  apply elem_of_map_to_list in Hc, Hd. cbn in E. assert (i = j) as -> by by eapply (rp_unique _ _ _ (proj1 Hrep)). congruence.
Qed.

Lemma head_source_ok :
  mp_ordered (h_postings h) = true -> source_ok (I := ms_iter) (fun c => head_chunk_ok (Source c)) max_id head_source.
Proof using Hbs Hrep Hord Hwithin.
  intros Ho. split; cbn [src_index src_series src_lo src_hi src_symbols head_source].
  - done.
  - pose proof (head_index_holds Sum64 h A Hrep Ho mint maxt) as Hix. assert (E : b_series <$> bs = head_series A); [|by rewrite E].
    unfold head_series. revert Hbs. unfold all_series. generalize (map_to_list A) as ics. clear. induction 1 as [|[id c] b ics bs' Hb _ IH]; [done|].
    rewrite !fmap_cons, IH. unfold b_series. by rewrite (hb_ref _ _ _ Hb), (hb_lset _ _ _ Hb).
  - apply Forall_forall. intros b (id & c & Hc & Hb & _)%head_elem.
    destruct Hb as [Er El Ei _ _ Hs Hd]. split; cbn [src_index src_chunks src_tombstones src_lo src_hi head_source].
    + by rewrite Er, El.
    + by rewrite Er, Ei.
    + by rewrite Ei.
    + by rewrite Ei.
    + done.
  - apply head_lsets_NoDup.
  - done.
Qed.

Lemma head_known : (forall id c, A !! id = Some c -> fst c <> []) -> sources_known [head_source].
Proof using Hbs Hrep. clear Hwithin Hord Hfit.
  intros Hne. unfold sources_known. apply Forall_singleton, Forall_forall. cbn [src_series src_symbols head_source].
  intros b (id & c & Hc & Hb & _)%head_elem. unfold labels_known. rewrite (hb_lset _ _ _ Hb). split; [by eapply Hne|].
  apply Forall_forall. intros l Hl. pose proof (rp_symbols _ _ (proj2 Hrep) id c l Hc Hl). set_solver.
Qed.

(** The chunks of the series the block gets. *)
Lemma head_chunks_aligned id c b cl :
  aligned -> A !! id = Some c -> head_series_of id c b -> cl ∈ b_chunks b ->
  snd cl ∈ chunked c /\ mint <= m_MinTime (fst cl) /\ m_MaxTime (fst cl) <= maxt.
Proof using Type.
  intros Hal Hc Hb Hcl. pose proof (list_elem_of_fmap_2 snd _ _ Hcl) as Hin. rewrite (hb_chunks _ _ _ Hb) in Hin.
  apply list_elem_of_filter in Hin as [[Hhi Hlo] Hin]. split; [done|].
  pose proof (hb_spans _ _ _ Hb) as Hsp. rewrite Forall_forall in Hsp. specialize (Hsp cl Hcl). cbn beta in Hsp.
  destruct (Hal id c (snd cl) Hc Hin) as [? ?]; [split; [done|]; unfold HeadQuery.lo in Hlo; destruct (mint <? h_minTime h) eqn:E; lia|].
  by rewrite Hsp in *.
Qed.

Lemma head_chunks_in : aligned -> Forall (src_chunks_in mint maxt) [head_source].
Proof using Hbs.
  intros Hal. apply Forall_singleton, Forall_forall. cbn [src_series head_source]. intros b (id & c & Hc & Hb & _)%head_elem.
  apply Forall_forall. intros cl Hcl. by destruct (head_chunks_aligned _ _ _ _ Hal Hc Hb Hcl).
Qed.

(** The samples are those that a query sees. *)
Lemma head_samples id c : aligned -> A !! id = Some c -> series_samples bs (fst c) = head_visible h mint maxt id c.
Proof using Hbs Hrep.
  intros Hal Hc. destruct (head_of id c Hc) as (b & Hin & Hb). unfold series_samples.
  assert (Ef : snd <$> list_find (fun b => b_lset b = fst c) bs = Some b).
  { destruct (list_find (fun b => b_lset b = fst c) bs) as [[i b']|] eqn:Ef.
    - apply list_find_Some in Ef as (Hi & El & _). cbn. f_equal. apply list_elem_of_lookup in Hin as [j Hj].
      assert (i = j) as ->; [|congruence]. eapply (NoDup_lookup (b_lset <$> bs)); [exact head_lsets_NoDup| |]; rewrite list_lookup_fmap.
      + by rewrite Hi.
      + rewrite Hj. cbn. by rewrite (hb_lset _ _ _ Hb), El.
    - apply list_find_None in Ef. rewrite Forall_forall in Ef. destruct (Ef b Hin). apply (hb_lset _ _ _ Hb). }
  rewrite Ef, (hb_ivs _ _ _ Hb), (hb_chunks _ _ _ Hb). unfold head_visible, current.
  destruct (rep_lookup _ _ _ _ _ (proj1 Hrep) Hc) as (l & _ & s & _ & _ & _ & Hh & _).
  assert (Hne : Forall (fun l => l <> []) (chunked c)).
  { pose proof (mh_chunks _ _ Hh) as H2. clear -H2. induction H2 as [|mc k cs ls (a & _ & _ & Hmin & _) _ IH]; [constructor|]. constructor; [|done]. by intros ->. }
  rewrite <- visible_spans; [|by apply Forall_filter_weaken|by apply increasing_filter, Hh].
  rewrite <- (filter_in_span h mint maxt). unfold visible. symmetry. apply filter_all. unfold kept. apply Forall_filter_weaken.
  apply Forall_forall. intros x (l' & Hx & Hl')%list_elem_of_join. rewrite <- (hb_chunks _ _ _ Hb) in Hl'. apply list_elem_of_fmap in Hl' as (cl & -> & Hcl).
  destruct (head_chunks_aligned _ _ _ _ Hal Hc Hb Hcl) as (_ & ? & ?). pose proof (hb_data _ _ _ Hb) as Hd.
  eapply Forall_forall in Hd; [|exact Hcl]. destruct Hd as [[Ht _ _ _ _ _] _]. rewrite Forall_forall in Ht. specialize (Ht x Hx). unfold in_range. lia.
Qed.

Lemma head_no_samples ls : (forall id c, A !! id = Some c -> fst c <> ls) -> series_samples bs ls = [].
Proof using Hbs.
  intros Hno. unfold series_samples. destruct (list_find (fun b => b_lset b = ls) bs) as [[i b]|] eqn:Ef; [|done]. exfalso.
  apply list_find_Some in Ef as (Hi%list_elem_of_lookup_2 & El & _). apply head_elem in Hi as (id & c & Hc & Hb & _).
  apply (Hno id c Hc). by rewrite <- (hb_lset _ _ _ Hb).
Qed.

(** What the index of the block needs. *)
Definition head_need : Z :=
  152 + zsum str_cost (elements (h_symbols h)) + zsum (fun ic => series_need (fst (snd ic)) (zlen (chunked (snd ic)))) (map_to_list A).

Lemma chunks_fewer id c b : head_series_of id c b -> zlen (b_chunks b) <= zlen (chunked c).
Proof using Type.
  intros Hb. pose proof (f_equal length (hb_chunks _ _ _ Hb)) as E. rewrite length_fmap in E.
  pose proof (length_filter (in_span lo maxt) (chunked c)). unfold zlen. lia.
Qed.

Lemma head_index_need : index_need [head_source] <= head_need.
Proof using Hbs.
  unfold index_need, head_need. cbn [fmap list_fmap src_symbols head_source union_list foldr mjoin list_join].
  rewrite (right_id_L ∅ (∪)), app_nil_r. unfold series_of. cbn [src_series head_source].
  assert (zsum bseries_need bs <= zsum (fun ic => series_need (fst (snd ic)) (zlen (chunked (snd ic)))) (map_to_list A)); [|lia].
  revert Hbs. unfold all_series. generalize (map_to_list A) as ics. induction 1 as [|[id c] b ics bs' Hb _ IH]; [done|].
  rewrite !zsum_cons. unfold bseries_need at 1. rewrite (hb_lset _ _ _ Hb). cbn [fst snd].
  pose proof (series_need_mono (fst c) _ _ (chunks_fewer _ _ _ Hb)) as Hle. cbn [fst snd] in Hle. lia.
Qed.

Lemma head_chunk_count ls : (forall id c, A !! id = Some c -> zlen (chunked c) <= 512) -> chunks_of ls (mjoin (series_of <$> [head_source])) <= 512.
Proof using Hbs Hrep.
  intros Hmax. cbn [fmap list_fmap mjoin list_join]. rewrite app_nil_r. unfold series_of. cbn [src_series head_source].
  pose proof head_lsets_NoDup as Hnd. assert (Hall : forall b, b ∈ bs -> zlen (b_chunks b) <= 512).
  { intros b (id & c & Hc & Hb & _)%head_elem. etrans; [by eapply chunks_fewer|by eapply Hmax]. }
  apply chunks_of_one; [done|lia|]. intros b Hb _. by apply Hall.
Qed.
End Source.

(** ** Conditions on the head's memory *)

(** The series the head has. *)
Definition live {W} (h : Head W) : list memSeries := omap (fun il => h_heap h !! snd il) (map_to_list (h_series h)).

(** A series that can be written: it has labels, not too many chunks, and those that reach
    into the range lie in it. *)
Definition writable_series (mint maxt : Z) (s : memSeries) : Prop :=
  ms_lset s <> [] /\ zlen (ms_chunks s) <= 512 /\
  Forall (fun c => mc_Overlaps c mint maxt = true -> mint <= mc_minTime c /\ mc_maxTime c <= maxt) (ms_chunks s).

#[export] Instance writable_series_dec mint maxt s : Decision (writable_series mint maxt s).
Proof. unfold writable_series. apply _. Defined.

(** What the index of the block needs at most. *)
Definition live_need {W} (h : Head W) : Z :=
  152 + zsum str_cost (elements (h_symbols h)) + zsum (fun s => series_need (ms_lset s) (zlen (ms_chunks s))) (live h).

Section Live.
Context {W : Type} (Sum64 : list Z -> Z) (h : Head W) (A : contents) (Hrep : rep Sum64 h A).

Lemma live_of id c : A !! id = Some c -> exists l s, h_series h !! id = Some l /\ h_heap h !! l = Some s /\ s ∈ live h /\ ms_lset s = fst c /\ ms_holds s (chunked c).
Proof using Hrep.
  intros Hc. destruct (rep_lookup _ _ _ _ _ (proj1 Hrep) Hc) as (l & Hl & s & Hs & _ & El & Hh & _).
  exists l, s. split_and!; [done..| |done|done]. unfold live. apply list_elem_of_omap. exists (id, l). by rewrite elem_of_map_to_list.
Qed.

Lemma live_aligned mint maxt : Forall (writable_series mint maxt) (live h) -> aligned A mint maxt.
Proof using Hrep.
  intros Hl id c k Hc Hk Hin. destruct (live_of id c Hc) as (l & s & _ & _ & Hlive & _ & Hh). rewrite Forall_forall in Hl.
  destruct (Hl s Hlive) as (_ & _ & Hch). apply list_elem_of_lookup in Hk as [j Hj].
  destruct (Forall2_lookup_r _ _ _ _ _ (mh_chunks _ _ Hh) Hj) as (mc & Hmc%list_elem_of_lookup_2 & a & Ha).
  rewrite Forall_forall in Hch. rewrite (chunk_holds_span _ _ _ Ha). apply (Hch mc Hmc). by eapply chunk_holds_overlaps.
Qed.

Lemma live_series mint maxt : Forall (writable_series mint maxt) (live h) -> forall id c, A !! id = Some c -> fst c <> [] /\ zlen (chunked c) <= 512.
Proof using Hrep.
  intros Hl id c Hc. destruct (live_of id c Hc) as (l & s & _ & _ & Hlive & El & Hh). rewrite Forall_forall in Hl.
  destruct (Hl s Hlive) as (Hne & Hlen & _). rewrite <- El. split; [done|].
  unfold zlen in *. by rewrite <- (Forall2_length _ _ _ (mh_chunks _ _ Hh)).
Qed.

Lemma head_need_live : head_need h A = live_need h.
Proof using Hrep.
  unfold head_need, live_need. f_equal.
  set (g := fun id => match h_series h !! id with
                      | Some l => match h_heap h !! l with Some s => series_need (ms_lset s) (zlen (ms_chunks s)) | None => 0 end
                      | None => 0 end).
  trans (zsum g (map_to_list A).*1); [|trans (zsum g (map_to_list (h_series h)).*1)].
  - rewrite zsum_fmap. apply zsum_ext_in, Forall_forall. intros [id c] Hc%elem_of_map_to_list. cbn [fst snd]. unfold g.
    destruct (live_of id c Hc) as (l & s & -> & -> & _ & -> & Hh). unfold zlen. by rewrite (Forall2_length _ _ _ (mh_chunks _ _ Hh)).
  - apply zsum_perm, NoDup_Permutation; [apply NoDup_fst_map_to_list..|]. intros id. rewrite !list_elem_of_fmap.
    pose proof (rp_dom _ _ _ (proj1 Hrep) id) as Hd. split.
    + intros ([id' c] & -> & Hc%elem_of_map_to_list). destruct (proj2 Hd) as [l Hl]; [by exists c|]. exists (id', l). by rewrite elem_of_map_to_list.
    + intros ([id' l] & -> & Hl%elem_of_map_to_list). destruct (proj1 Hd) as [c Hc]; [by exists l|]. exists (id', c). by rewrite elem_of_map_to_list.
  - rewrite zsum_fmap. unfold live. assert (Hall : Forall (fun il => h_series h !! fst il = Some (snd il)) (map_to_list (h_series h))).
    { apply Forall_forall. by intros [id l] ?%elem_of_map_to_list. }
    induction Hall as [|[id l] ils Hl _ IH]; [done|]. rewrite zsum_cons, IH. cbn [omap list_omap fst snd] in *. unfold g at 1. rewrite Hl.
    destruct (h_heap h !! l); [by rewrite zsum_cons|]. cbn. lia.
Qed.
End Live.

(** The metadata of the block before its statistics. *)
Definition written_meta {U} (uid : U) (mint maxt : Z) : BlockMeta U :=
  mkBlockMeta uid mint maxt (mkStats 0 0 0 0) (mkCompaction 1 [uid] [] false).

Lemma Write_head_block {W U : Type} `{WAL W} `{Countable U} (Sum64 : list Z -> Z) (range : forall A, list A -> list A)
    (h : Head W) (A : contents) (d : gmap U (files U)) (uid : U) (mint maxt : Z) :
  (forall A (l : list A), range A l ≡ₚ l) ->
  rep Sum64 h A -> mp_ordered (h_postings h) = true -> Forall ids_fit (h_heap h) ->
  (forall id, ordered (Get (h_tombstones h) id) /\ ivs_within (MinInt64 + 1) (MaxInt64 - 1) (Get (h_tombstones h) id)) ->
  Forall (writable_series mint (maxt - 1)) (live h) -> live_need h <= 2 ^ 32 ->
  small_time mint -> small_time maxt -> mint < maxt ->
  exists bs f pb nbs stats, all_series h A mint (maxt - 1) bs /\
    Write (I := ms_iter) range uid d (range_head_readers (mkRangeHead h mint (maxt - 1))) mint maxt None = (<[uid := f]> d, Ok uid) /\
    new_block (written_meta uid mint maxt) mint (maxt - 1) [head_source h mint (maxt - 1) bs] f pb nbs stats.
Proof.
  intros Hperm Hrep Ho Hfit Hst Hlive Hneed Hmin Hmax Hlt. unfold small_time in Hmin, Hmax.
  pose proof (live_aligned Sum64 h A Hrep _ _ Hlive) as Hal. pose proof (live_series Sum64 h A Hrep _ _ Hlive) as Hser.
  rewrite <- (head_need_live Sum64 h A Hrep) in Hneed.
  destruct (all_series_exists Sum64 h A Hrep mint (maxt - 1) Hfit) as (bs & Hbs).
  set (meta := written_meta uid mint maxt).
  pose proof (head_index_need h A mint (maxt - 1) bs Hbs) as Hin.
  pose proof (head_chunk_count Sum64 h A Hrep mint (maxt - 1) bs Hbs) as Hcc.
  assert (Hcount : Z.of_nat (series_count [head_source h mint (maxt - 1) bs]) <= 2 ^ 32).
  { etrans; [apply series_count_need|lia]. }
  assert (PosBound max_id) by (unfold PosBound, max_id; lia).
  destruct (block_files_open max_id range meta mint (maxt - 1) [head_source h mint (maxt - 1) bs]) as (f & pb & nbs & stats & Ef & Hnew).
  - split.
    + done.
    + apply Forall_singleton. apply (head_source_ok Sum64 h A); [done|intros id; by apply Hst..|done|done].
    + by repeat constructor.
    + eapply Forall_impl; [by apply (head_chunks_in h A)|]. intros s. apply src_chunks_in_weaken; cbn; lia.
    + done.
    + intros ls. apply Nat2Z.inj_le. rewrite chunk_count_of. cbn [cwl_max head_segments_laws]. apply Hcc. by intros id c [_ ?]%Hser.
    + by apply new_writer_ready.
    + lia.
  - apply (head_known Sum64 h A Hrep); [done|]. by intros id c [? _]%Hser.
  - by apply (head_chunks_in h A).
  - unfold MinInt64. lia.
  - lia.
  - unfold MaxInt64. lia.
  - done.
  - lia.
  - exists bs, f, pb, nbs, stats. split; [done|]. split; [|exact Hnew]. unfold Write. fold (written_meta uid mint maxt). fold meta.
    change [range_head_readers _] with (readers_of <$> [head_source h mint (maxt - 1) bs]). unfold write. rewrite Ef. done.
Qed.

(** C5: writing the head to disk.  The compactor is given the head for the range of a block,
    whose chunks that reach into the range lie in it.  [Write] succeeds, and the only
    change on disk is the directory of the new block.  Its files open, its index and
    chunks are sound, and it has for every series of the head the samples that a query
    on the head over the same range sees, and no others.  It is a block like those that
    are compacted. *)
Theorem Write_head_correct {W U : Type} `{WAL W} `{Countable U} (Sum64 : list Z -> Z) (range : forall A, list A -> list A)
    (h : Head W) (A : contents) (d : gmap U (files U)) (uid : U) (mint maxt : Z) :
  (forall A (l : list A), range A l ≡ₚ l) ->
  rep Sum64 h A -> mp_ordered (h_postings h) = true -> Forall ids_fit (h_heap h) ->
  (forall id, ordered (Get (h_tombstones h) id) /\ ivs_within (MinInt64 + 1) (MaxInt64 - 1) (Get (h_tombstones h) id)) ->
  Forall (writable_series mint (maxt - 1)) (live h) -> live_need h <= 2 ^ 32 ->
  small_time mint -> small_time maxt -> mint < maxt ->
  exists f m s, Write (I := ms_iter) range uid d (range_head_readers (mkRangeHead h mint (maxt - 1))) mint maxt None = (<[uid := f]> d, Ok uid) /\
    disk_block (<[uid := f]> d) uid m s /\ (bm_ULID m, bm_MinTime m, bm_MaxTime m) = (uid, mint, maxt) /\
    bm_Compaction m = mkCompaction 1 [uid] [] false /\ NumSeries (bm_Stats m) = u64 (zlen (src_series s)) /\
    (forall id c, A !! id = Some c -> series_samples (src_series s) (fst c) = head_visible h mint (maxt - 1) id c) /\
    forall ls, (forall id c, A !! id = Some c -> fst c <> ls) -> series_samples (src_series s) ls = [].
Proof.
  intros Hperm Hrep Ho Hfit Hst Hlive Hneed Hmin Hmax Hlt.
  destruct (Write_head_block Sum64 range h A d uid mint maxt) as (bs & f & pb & nbs & stats & Hbs & E & Hnew); [done..|].
  pose proof (live_aligned Sum64 h A Hrep _ _ Hlive) as Hal. set (meta := written_meta uid mint maxt) in *.
  exists f, (with_stats meta stats), (block_source mint (maxt - 1) (⋃ (src_symbols <$> [head_source h mint (maxt - 1) bs])) nbs pb).
  pose proof (nb_samples _ _ _ _ _ _ _ _ Hnew) as Hsam. cbn [src_series block_source].
  assert (Hm : forall ls, series_samples nbs ls = series_samples bs ls).
  { intros ls. rewrite Hsam. unfold merged_samples. cbn [fmap list_fmap src_series head_source mjoin list_join]. by rewrite app_nil_r. }
  split_and!; [done|by apply (new_block_on_disk d meta)|done|done|apply (nb_stats _ _ _ _ _ _ _ _ Hnew)| |].
  - intros id c Hc. rewrite Hm. by apply (head_samples Sum64 h A Hrep mint (maxt - 1) bs Hbs).
  - intros ls Hno. rewrite Hm. by apply (head_no_samples h A mint (maxt - 1) bs Hbs).
Qed.

Lemma Write_head_correct_witness :
  exists A f m s, rep AppendExample.sum QueryExample.committed A /\
    Write (I := ms_iter) CompactorExample.keep 7 (∅ : gmap Z (files Z)) (range_head_readers (mkRangeHead QueryExample.committed 0 (1000 - 1))) 0 1000 None =
      (<[7 := f]> ∅, Ok 7) /\
    disk_block (<[7 := f]> ∅) 7 m s /\ (bm_ULID m, bm_MinTime m, bm_MaxTime m) = (7, 0, 1000) /\
    forall id c, A !! id = Some c -> series_samples (src_series s) (fst c) = head_visible QueryExample.committed 0 (1000 - 1) id c.
Proof.
  destruct QueryExample.committed_rep as (A & Hr & _). exists A.
  destruct (Write_head_correct AppendExample.sum CompactorExample.keep QueryExample.committed A (∅ : gmap Z (files Z)) 7 0 1000)
    as (f & m & s & E & Hd & Et & _ & _ & Hs & _).
  - done.
  - exact Hr.
  - by vm_compute.
  - decided.
  - intros id. assert (Eh : h_tombstones QueryExample.committed = ∅) by by vm_compute. rewrite Eh. split; [exact I|apply Forall_nil_2].
  - decided.
  - decided.
  - unfold small_time. lia.
  - unfold small_time. lia.
  - lia.
  - exists f, m, s. exact (conj Hr (conj E (conj Hd (conj Et Hs)))).
Defined.

(** * What goes wrong outside these conditions *)

Module HeadBlockExample.
(** A head with blocks of 10, after a transaction. *)
Definition head_of (mint : Z) (reqs : list (Labels * Buffer.sample)) : Head (list (list Z)) :=
  let h := EnsureOrder_head (mkHead 10 (Some []) mint mint 0 [] ∅ ∅ ∅ ∅ NewUnorderedMemPostings NewMemTombstones) in
  let '(h, a, _) := adds AppendExample.sum h (appender h) reqs in
  match a_Commit h a with Ok (h, _) => h | _ => h end.

(** Writing its first block. *)
Definition write_first (h : Head (list (list Z))) : res (Z * Z * res Z) :=
  let? (mint, maxt) := rangeForTimestamp (h_minTime h) 10 in
  Ok (mint, maxt, snd (Write (I := ms_iter) CompactorExample.keep 7 (∅ : gmap Z (files Z)) (range_head_readers (mkRangeHead h mint (maxt - 1))) mint maxt None)).
End HeadBlockExample.

(** Before the epoch: the range of time -5 begins at 0, and the chunk with its sample is
    continued up to the end of that range.  The compactor then finds the chunk outside of
    the range, however often it is tried. *)
Theorem head_before_epoch_never_written :
  let h := HeadBlockExample.head_of (-5) [([("a", "1")], (-5, 1)); ([("a", "1")], (5, 2)); ([("a", "1")], (25, 3))]%string in
  (fun s => (fun c => (mc_minTime c, mc_maxTime c)) <$> ms_chunks s) <$> live h = [[(-5, 5); (25, 25)]] /\
  HeadBlockExample.write_first h = Ok (0, 10, Err (ErrMsg "found chunk outside of compacted range")).
Proof. split; by vm_compute. Qed.

(** The head takes a series without labels; the writer of the index compares it with the
    empty labels it starts with and refuses it, so that no block is ever written. *)
Theorem head_empty_labels_never_written :
  let h := HeadBlockExample.head_of 0 [([], (1, 1)); ([("a", "1")]%string, (25, 2))] in
  length (live h) = 2%nat /\ HeadBlockExample.write_first h = Ok (0, 10, Err (ErrMsg "out-of-order series")).
Proof. split; by vm_compute. Qed.
