(* ===== verification/Database.v ===== *)
(** db.go, the database with its parts: the leveled compactor on the block directories,
    the appender that triggers compactions, opening, snapshots, closing and the loop in
    the background. *)
From stdpp Require Import pretty.
From S2P Require Import Prelude BitStream Order Files Labels Tombstones Postings MemPostings XorChunk Chunks Buffer SeriesIter SeriesSets Querier MemSeries Head Plan Db Compaction IndexFile Blocks DbQuery Compactor Wal Recovery Checkpoint LegacyWal Repair.
#[local] Open Scope list_scope.
#[local] Open Scope Z_scope.

(** * The leveled compactor *)

Section Leveled.
Context {U W : Type} `{Countable U} (Compare : U -> U -> comparison) `{WAL W}.
(** The order in which maps are gone through, the identifier of the next block, and the
    name of a directory. *)
Context (range : forall A, list A -> list A) (newUID : gmap U (files U) -> U) (ULID_String : U -> string).
Abbreviation disk := (gmap U (files U)).

Definition NewLeveledCompactor (ranges : list Z) : res (list Z) :=
  if (length ranges =? 0)%nat then Err (ErrMsg "at least one range must be provided") else Ok ranges.

(** [Plan] names directories. *)
Definition leveled_Plan (ranges : list Z) (d : disk) : res (list U) :=
  let dirs := blockDirs Compare d in
  let? names := Plan ranges ((fun e => (ULID_String (fst e), de_meta (snd e))) <$> dirs) in
  Ok (omap (fun s => (fst ∘ snd) <$> list_find (fun e => ULID_String (fst e) = s) dirs) names).

Definition leveled_Write (d : disk) (b : BlockReader (U := U) (D := pblock U) (H := Head W)) (mint maxt : Z) (parent : option (BlockMeta U)) :
    disk * res U :=
  match b with
  | RangeHead h lo hi => Write (I := ms_iter) range (newUID d) d (range_head_readers (mkRangeHead h lo hi)) mint maxt parent
  | OnDisk b => Write (C := XORChunk) (I := xorIterator) range (newUID d) d (block_readers (blk_data b)) mint maxt parent
  end.

Definition LeveledCompactor (ranges : list Z) : Db.Compactor (F := files U) (U := U) (D := pblock U) (H := Head W) := {|
  c_Plan := leveled_Plan ranges;
  c_Write := leveled_Write;
  c_Compact d dirs := Compact Compare range (newUID d) d dirs;
|}.
End Leveled.

(** * Errors *)

(** An error may be a [MultiError], which is a list of errors. *)
Inductive any_error := One (e : error) | Multi (es : list error).

Definition me_Add (es : list error) (err : option any_error) : list error :=
  match err with None => es | Some (Multi l) => es ++ l | Some (One e) => es ++ [e] end.

Definition me_Err (es : list error) : option any_error := if (length es =? 0)%nat then None else Some (Multi es).

(** [Error]; [text] is that of the errors. *)
Definition me_Error (text : error -> string) (es : list error) : string :=
  ((if (1 <? length es)%nat then pretty (N.of_nat (length es)) +:+ " errors: " else "") +:+ String.concat "; " (text <$> es))%string.

(** [closeAll] of closers with these results. *)
Definition closeAll (results : list (option any_error)) : option any_error := me_Err (foldl me_Add [] results).

(** * The loop in the background *)

Definition Second : Z := 10 ^ 9.
Definition Minute : Z := 60 * Second.

Definition exponential (d min max : Z) : Z :=
  let d := i64 (d * 2) in
  let d := if d <? min then min else d in
  if max <? d then max else d.

Section Loop.
Context {F U D W : Type} `{Countable U} (Compare : U -> U -> comparison) `{BlockDir F U D} `{WAL W}.
Abbreviation DB := (DB (F := F) (U := U) (D := D) (H := Head W)).

(** [Commit]: after it a compaction may be triggered; [compactc] has room for one. *)
Definition dbAppender_Commit (db : DB) (compactc : bool) (a : Appender) : res (DB * bool * option error) :=
  let? (h, e) := Commit (db_head db) a in
  Ok (with_head db h, compactc || commit_triggers (h_chunkRange h) h, e).

(** [run] waits for its backoff, then for a trigger or a minute, is inside [compact], or
    has returned. *)
Inductive phase := Waiting | Ready | Compacting (p : compact_at (U := U)) | Returned.

Record runner := mkRunner { rn_phase : phase; rn_backoff : Z; rn_compactc : bool; rn_stopc : bool; rn_db : DB }.

Definition new_runner (db : DB) : runner := mkRunner Waiting 0 false false db.

Definition next_backoff (backoff : Z) (e : option error) : Z :=
  match e with Some _ => exponential backoff (1 * Second) (1 * Minute) | None => 0 end.

(** Where [compact] begins. *)
Definition compact_begin (db : DB) : compact_at (U := U) := if db_compactionsEnabled db then AtHeadStop else AtReturn None.

(** [compact] holds its lock. *)
Definition compacting (p : phase) : Prop := match p with Compacting _ => True | _ => False end.

(** The steps of the loop.  A [select] takes any of its cases that is ready; [compact] is
    run step by step. *)
Inductive loop_step (c : Compactor (F := F) (U := U) (D := D) (H := Head W)) : runner -> runner -> Prop :=
| loop_backoff b t s db : loop_step c (mkRunner Waiting b t s db) (mkRunner Ready b t s db)
| loop_minute b t s db : loop_step c (mkRunner Ready b t s db) (mkRunner Waiting b true s db)
| loop_triggered b s db : loop_step c (mkRunner Ready b true s db) (mkRunner (Compacting (compact_begin db)) b false s db)
| loop_compact p p' b t s db db' :
    (forall e, p <> AtReturn e) -> compact_step Compare c s p db = Ok (p', db') ->
    loop_step c (mkRunner (Compacting p) b t s db) (mkRunner (Compacting p') b t s db')
| loop_compacted e b t s db : loop_step c (mkRunner (Compacting (AtReturn e)) b t s db) (mkRunner Waiting (next_backoff b e) t s db)
| loop_stop p b t db : p = Waiting \/ p = Ready -> loop_step c (mkRunner p b t true db) (mkRunner Returned b t true db).

(** The steps of others, at any time: an appender commits, [Close] closes [stopc]; and
    while no compaction is running, compactions are enabled or disabled. *)
Inductive other_step : runner -> runner -> Prop :=
| other_commit p b t t' s db db' a e :
    dbAppender_Commit db t a = Ok (db', t', e) -> other_step (mkRunner p b t s db) (mkRunner p b t' s db')
| other_close p b t s db : other_step (mkRunner p b t s db) (mkRunner p b t true db)
| other_enable p b t s db : ~ compacting p -> other_step (mkRunner p b t s db) (mkRunner p b t s (EnableCompactions db))
| other_disable p b t s db : ~ compacting p -> other_step (mkRunner p b t s db) (mkRunner p b t s (DisableCompactions db)).

Definition run_step (c : Compactor (F := F) (U := U) (D := D) (H := Head W)) (r r' : runner) : Prop := loop_step c r r' \/ other_step r r'.
End Loop.

(** * Opening and closing *)

(** The directory of the database: the blocks, the segments of the log, the checkpoints. *)
Record db_dir (U : Type) `{Countable U} := mkDbDir { dd_blocks : gmap U (rdir U); dd_wal : directory; dd_checkpoints : cp_dir }.
Arguments mkDbDir {U _ _}.
Arguments dd_blocks {U _ _}.
Arguments dd_wal {U _ _}.
Arguments dd_checkpoints {U _ _}.

Section Open.
Context {U : Type} `{Countable U} (Compare : U -> U -> comparison) (Sum64 : list Z -> Z).
Abbreviation DB := (DB (F := files U) (U := U) (D := pblock U) (H := Head wal)).

(** [Open]; [lock] is what taking the lock of the directory gives, if it is taken.  The
    loop in the background is started on the result. *)
Definition Open (dir : db_dir U) (opts : Options) (lock : option (res unit)) : res DB :=
  match repairBadIndexVersion Compare (dd_blocks dir) with
  | (_, Some e) => Err e
  | (blocks, None) =>
      let? (wal_dir, e) := MigrateWAL (dd_wal dir) in
      match e with
      | Some e => Err e
      | None =>
          let? _ := default (Ok ()) lock in
          let? _ := NewLeveledCompactor (o_BlockRanges opts) in
          let? wlog := NewSize wal_dir defaultSegmentSize in
          let? r0 := index (o_BlockRanges opts) 0 in
          let? h := NewHead (Some wlog) r0 in
          let? (db, e) := reload Compare (mkDB opts (rd_files <$> blocks) [] h true : DB) in
          match e with
          | Some e => Err e
          | None =>
              let? (h, e) := Init_disk Sum64 (db_head db) (dd_checkpoints dir) in
              match e with Some e => Err e | None => Ok (with_head db h) end
          end
      end
  end.

(** [Close] once the loop has returned and the blocks have no readers left: they are
    closed, the lock is released and the log closed.  The directory of the log after it
    and the error. *)
Definition db_Close (db : DB) (release : option error) : res (DB * option directory * option any_error) :=
  let bs := (fun b => Db.mkBlock (blk_meta b) (with_closing (blk_data b))) <$> db_blocks db in
  let merr := me_Add [] (One <$> release) in
  match h_wal (db_head db) with
  | None => Ok (with_blocks db bs, None, me_Err merr)
  | Some w =>
      match Wal.Close w with
      | Ok dir => Ok (with_blocks db bs, Some dir, me_Err merr)
      | Err e => Ok (with_blocks db bs, Some (w_dir w), me_Err (me_Add merr (Some (One e))))
      | Panic => Panic
      end
  end.
End Open.

(** * Snapshots *)

Section Snapshot.
Context {U W : Type} `{Countable U}.
Abbreviation DB := (DB (F := files U) (U := U) (D := pblock U) (H := Head W)).

(** [Block.Snapshot]: the files are linked one after the other; a link fails where there
    is a file, or none to link.  The files themselves are never changed. *)
Definition block_Snapshot (u : U) (f : files U) (dest : gmap U (files U)) : gmap U (files U) * option error :=
  match dest !! u with
  | Some _ => (dest, Some (ErrMsg "create snapshot meta.json"))
  | None =>
      match f_tombstones f with
      | None => (<[u := mkFiles (f_meta f) [] (f_index f) None]> dest, Some (ErrMsg "create snapshot tombstones"))
      | Some _ => (<[u := f]> dest, None)
      end
  end.

Fixpoint snapshot_blocks (disk : gmap U (files U)) (bs : list (Db.Block U (pblock U))) (dest : gmap U (files U)) : gmap U (files U) * option error :=
  match bs with
  | [] => (dest, None)
  | b :: bs =>
      let u := bm_ULID (blk_meta b) in
      match disk !! u with
      | None => (dest, Some (ErrMsg "create snapshot meta.json"))
      | Some f =>
          match block_Snapshot u f dest with
          | (dest, Some e) => (dest, Some e)
          | (dest, None) => snapshot_blocks disk bs dest
          end
      end
  end.

(** [Snapshot] into [dest]; [base] and [is_ulid] say whether its path is that of the
    database or an identifier.  The head is read as a whole. *)
Definition Snapshot (c : Db.Compactor (F := files U) (U := U) (D := pblock U) (H := Head W)) (db : DB) (base is_ulid : bool)
    (dest : gmap U (files U)) (withHead : bool) : gmap U (files U) * option error :=
  if base then (dest, Some (ErrMsg "cannot snapshot into base directory"))
  else if is_ulid then (dest, Some (ErrMsg "dir must not be a valid ULID"))
  else
    match snapshot_blocks (db_disk db) (db_blocks db) dest with
    | (dest, Some e) => (dest, Some e)
    | (dest, None) =>
        if negb withHead then (dest, None)
        else
          let h := db_head db in
          let '(dest, r) := c_Write c dest (RangeHead h MinInt64 MaxInt64) (h_minTime h) (h_maxTime h) None in
          (dest, match r with Err e => Some e | _ => None end)
    end.
End Snapshot.
