(* ===== verification/HeadCompact.v ===== *)
(** Compacting the head with the leveled compactor: what goes into the block and what
    stays in the head are together what the head had, so that every query gives the same
    before and after. *)
From S2P Require Import Prelude Bits BitStream Order EncBuf Labels Tombstones Records Postings PostingsSpec MemPostings XorChunk Chunks Buffer SeriesIter SeriesSets Querier MemSeries Head HeadInv HeadAppend HeadQuery HeadGc Plan PlanSpec Db DbSpec Compaction CompactSpec IndexFile IndexSpec Blocks DbQuery Compactor CompactorSpec HeadBlock Database.
#[local] Open Scope list_scope.
#[local] Open Scope Z_scope.

(** * The samples before and after a time *)

Lemma filter_join {A} (P : A -> Prop) (Q : list A -> Prop) `{!forall x, Decision (P x), !forall l, Decision (Q l)} (ls : list (list A)) :
  Forall (fun l => (Q l -> Forall P l) /\ (~ Q l -> Forall (fun x => ~ P x) l)) ls -> filter P (mjoin ls) = mjoin (filter Q ls).
Proof.
  induction 1 as [|l ls [H1 H2] _ IH]; [done|]. rewrite join_cons, filter_app, filter_cons, IH. case_decide as Hq.
  - by rewrite (filter_all P) by auto.
  - by rewrite (filter_none P) by auto.
Qed.

Lemma increasing_split (t : Z) l : increasing_times l -> l = filter (fun s => fst s < t) l ++ filter (fun s => t <= fst s) l.
Proof.
  induction l as [|x l IH]; [done|]. intros Hl. apply StronglySorted_inv in Hl as [Hl Hx]. rewrite !filter_cons.
  do 2 case_decide; try lia.
  - cbn [app]. f_equal. by apply IH.
  - rewrite (filter_none (fun s => fst s < t)), (filter_all (fun s => t <= fst s)); [done| |];
      (eapply Forall_impl; [exact Hx|]; cbn; intros; lia).
Qed.

Lemma clip_app a b l k : clip a b (l ++ k) = clip a b l ++ clip a b k.
Proof. apply filter_app. Qed.

Lemma clip_none a b l : Forall (fun s => fst s < a \/ b < fst s) l -> clip a b l = [].
Proof. intros Hl. apply filter_none. eapply Forall_impl; [exact Hl|]. cbn. lia. Qed.

Lemma kept_none l : kept [] l = l.
Proof. unfold kept. apply filter_all. by apply Forall_true. Qed.

Lemma drop_before_filter t (ls : list (list Buffer.sample)) :
  filter (fun l => t <= snd (span l)) (drop_before t ls) = filter (fun l => t <= snd (span l)) ls.
Proof.
  induction ls as [|l ls IH]; [done|]. cbn [drop_before]. destruct (Z.ltb_spec (snd (span l)) t); [|done].
  rewrite filter_cons, decide_False by lia. exact IH.
Qed.

Lemma drop_before_incl t ls (l : list Buffer.sample) : l ∈ drop_before t ls -> l ∈ ls.
Proof.
  induction ls as [|k ls IH]; [done|]. cbn [drop_before]. destruct (_ <? _); [|done]. intros ?. right. by apply IH.
Qed.

Lemma drop_before_length t ls : zlen (drop_before t ls) <= zlen ls.
Proof.
  induction ls as [|k ls IH]; [done|]. cbn [drop_before]. destruct (_ <? _); [|lia]. unfold zlen in *. cbn [length]. lia.
Qed.

(** * The conditions on the head *)

(** The chunk lies in one range of the compaction. *)
Definition in_one_range (r0 : Z) (c : memChunk) : Prop := mc_minTime c / r0 = mc_maxTime c / r0.

(** The series can be written for every range: it has labels, not too many chunks, and
    each of them lies in one range. *)
Definition storable (r0 : Z) (s : memSeries) : Prop :=
  ms_lset s <> [] /\ zlen (ms_chunks s) <= 512 /\ Forall (in_one_range r0) (ms_chunks s) /\ ids_fit s.

#[export] Instance storable_dec r0 s : Decision (storable r0 s).
Proof. unfold storable, in_one_range. apply _. Defined.

Lemma chunks_before_le t cs : (chunks_before t cs <= length cs)%nat.
Proof. induction cs as [|c cs IH]; [done|]. cbn [chunks_before length]. destruct (_ <=? _); lia. Qed.

Lemma storable_truncate r0 s t : storable r0 s -> storable r0 (fst (truncateChunksBefore s t)).
Proof.
  intros (Hl & Hn & Hc & Hf & Hf'). unfold truncateChunksBefore, storable, ids_fit. cbn [fst ms_lset ms_chunks ms_firstChunkID].
  pose proof (chunks_before_le t (ms_chunks s)). unfold zlen in *. rewrite length_drop. split_and!; [done|lia|by apply Forall_drop|lia|lia].
Qed.

(** What the index of a block needs at most, with the empty symbol that garbage collection
    adds. *)
Definition index_cost (symbols : gset string) (A : contents) : Z :=
  152 + zsum str_cost (elements ({[EmptyString]} ∪ symbols)) +
  zsum (fun ic => series_need (fst (snd ic)) (zlen (chunked (snd ic)))) (map_to_list A).

(** The head holds the series of [A], nothing is deleted, its series can be written, and
    its first time is that of the samples it shows. *)
Record compactable_head {W} `{WAL W} (Sum64 : list Z -> Z) (r0 : Z) (h : Head W) (A : contents) : Prop := {
  ch_rep : rep Sum64 h A;
  ch_postings : mp_ordered (h_postings h) = true;
  ch_heap : Forall (storable r0) (h_heap h);
  ch_stones : h_tombstones h = ∅;
  ch_need : index_cost (h_symbols h) A <= 2 ^ 32;
  ch_first id c l : A !! id = Some c -> l ∈ chunked c -> h_minTime h <= snd (span l) -> h_minTime h <= fst (span l);
}.

Lemma zsum_elements (f : string -> Z) (S T : gset string) : (forall x, 0 <= f x) -> S ⊆ T -> zsum f (elements S) <= zsum f (elements T).
Proof.
  intros Hf Hst. apply zsum_subset; [done|apply NoDup_elements|]. intros x. rewrite !elem_of_elements. apply Hst.
Qed.

(** Fewer series with fewer chunks need less. *)
Lemma index_cost_mono (S T : gset string) (A B : contents) :
  S ⊆ {[EmptyString]} ∪ T ->
  (forall id b, B !! id = Some b -> exists a, A !! id = Some a /\ fst b = fst a /\ zlen (chunked b) <= zlen (chunked a)) ->
  index_cost S B <= index_cost T A.
Proof.
  intros Hst Hab. unfold index_cost.
  assert (H1 : zsum str_cost (elements ({[EmptyString]} ∪ S)) <= zsum str_cost (elements ({[EmptyString]} ∪ T))).
  { apply zsum_elements; [intros; unfold str_cost; pose proof (zlen_nonneg (string_bytes x)); lia|set_solver]. }
  set (g := fun ic : Z * HeadInv.content => series_need (fst (snd ic)) (zlen (chunked (snd ic)))).
  set (G := fun id => match A !! id with Some a => g (id, a) | None => 0 end).
  assert (Hg : forall ic, 0 <= g ic).
  { intros ic. unfold g, series_need. pose proof (zlen_nonneg (fst (snd ic))). pose proof (zlen_nonneg (chunked (snd ic))).
    assert (0 <= zsum label_need (fst (snd ic))); [|lia]. apply zsum_nonneg. intros l. unfold label_need, str_cost.
    pose proof (zlen_nonneg (string_bytes (fst l))). pose proof (zlen_nonneg (string_bytes (snd l))). lia. }
  assert (H2 : zsum g (map_to_list B) <= zsum g (map_to_list A)); [|lia].
  trans (zsum G (map_to_list B).*1); [|trans (zsum G (map_to_list A).*1)].
  - rewrite zsum_fmap. apply zsum_le, Forall_forall. intros [id b] Hb%elem_of_map_to_list. unfold G, g. cbn [fst snd].
    destruct (Hab id b Hb) as (a & -> & -> & ?). by apply series_need_mono.
  - apply zsum_subset; [|apply NoDup_fst_map_to_list|].
    + intros id. unfold G. destruct (A !! id); [apply Hg|done].
    + intros id ([id' b] & -> & Hb%elem_of_map_to_list)%list_elem_of_fmap. destruct (Hab _ _ Hb) as (a & Ha & _).
      apply list_elem_of_fmap. exists (id', a). by rewrite elem_of_map_to_list.
  - rewrite zsum_fmap. apply zsum_le, Forall_forall. intros [id a] Ha%elem_of_map_to_list. unfold G. cbn [fst snd]. by rewrite Ha.
Qed.

(** The conditions as a check on the heap. *)
Definition starts_clean (m : Z) (s : memSeries) : Prop := Forall (fun c => m <= mc_maxTime c -> m <= mc_minTime c) (ms_chunks s).

#[export] Instance starts_clean_dec m s : Decision (starts_clean m s).
Proof. unfold starts_clean. apply _. Defined.

Lemma heap_compactable {W} `{WAL W} Sum64 r0 (h : Head W) A :
  rep Sum64 h A -> mp_ordered (h_postings h) = true -> h_tombstones h = ∅ ->
  Forall (fun s => storable r0 s /\ starts_clean (h_minTime h) s) (h_heap h) ->
  live_need h + zsum str_cost (elements ({[EmptyString]} ∪ h_symbols h)) <= 2 ^ 32 -> compactable_head Sum64 r0 h A.
Proof.
  intros Hrep Ho Hst Hheap Hneed. split; [done..| |done| |].
  - eapply Forall_impl; [exact Hheap|]. by intros s [? _].
  - rewrite <- (head_need_live Sum64 h A Hrep) in Hneed. unfold head_need, index_cost in *.
    assert (0 <= zsum str_cost (elements (h_symbols h))); [|lia]. apply zsum_nonneg. intros x. unfold str_cost.
    pose proof (zlen_nonneg (string_bytes x)). lia.
  - intros id c l Hid Hl. destruct (rep_lookup _ _ _ _ _ (proj1 Hrep) Hid) as (j & _ & s & Hs & _ & _ & Hh & _).
    rewrite Forall_lookup in Hheap. destruct (Hheap j s Hs) as [_ Hc]. apply list_elem_of_lookup in Hl as [i Hi].
    destruct (Forall2_lookup_r _ _ _ _ _ (mh_chunks _ _ Hh) Hi) as (mc & Hmc & a & Ha). unfold starts_clean in Hc.
    rewrite Forall_lookup in Hc. rewrite (chunk_holds_span _ _ _ Ha). by apply (Hc i mc Hmc).
Qed.

(** Two times of one range are on the same side of a bound of ranges. *)
Lemma same_range a b k r : 0 < r -> a / r = b / r -> (k * r <= a <-> k * r <= b).
Proof.
  intros Hr E. assert (Hdiv : forall x, k * r <= x <-> k <= x / r); [|by rewrite !Hdiv, E].
  intros x. split; [intros ?; apply Z.div_le_lower_bound; lia|]. pose proof (Z.mul_div_le x r Hr). nia.
Qed.

Section Head.
Context {W : Type} `{WW : WAL W} (Sum64 : list Z -> Z) (r0 : Z) (h : Head W) (A : contents).
Context (Hc : compactable_head Sum64 r0 h A) (Hr0 : 0 < r0).
Let mint : Z := h_minTime h / r0 * r0.
Let maxt : Z := mint + r0.

Lemma range_bounds : mint <= h_minTime h < maxt.
Proof using Hr0. unfold maxt, mint. pose proof (Z.div_mod (h_minTime h) r0). pose proof (Z.mod_pos_bound (h_minTime h) r0). lia. Qed.

Lemma content_chunk id c l : A !! id = Some c -> l ∈ chunked c ->
  fst (span l) / r0 = snd (span l) / r0 /\ l <> [] /\ increasing_times (mjoin (chunked c)) /\
  Forall (fun x => fst (span l) <= fst x <= snd (span l)) l.
Proof using Hc.
  intros Hid Hl. destruct (rep_lookup _ _ _ _ _ (proj1 (ch_rep _ _ _ _ Hc)) Hid) as (j & _ & s & Hs & _ & _ & Hh & _).
  pose proof (ch_heap _ _ _ _ Hc) as Hheap. rewrite Forall_lookup in Hheap. destruct (Hheap j s Hs) as (_ & _ & Hr & _).
  apply list_elem_of_lookup in Hl as [i Hi]. destruct (Forall2_lookup_r _ _ _ _ _ (mh_chunks _ _ Hh) Hi) as (mc & Hmc & a & Ha).
  rewrite Forall_lookup in Hr. specialize (Hr i mc Hmc). rewrite (chunk_holds_span _ _ _ Ha). split; [done|].
  destruct Ha as (_ & _ & Hmin & Hmax). split; [by intros ->|]. split; [apply Hh|]. apply (times_between l); [|done|done].
  eapply increasing_part; [apply Hh|]. by eapply list_elem_of_lookup_2.
Qed.

(** A chunk the head shows lies before the end of the range or behind it. *)
Lemma chunk_sides id c l : A !! id = Some c -> l ∈ chunked c -> h_minTime h <= snd (span l) ->
  h_minTime h <= fst (span l) /\ (snd (span l) < maxt \/ maxt <= fst (span l)).
Proof using Hc Hr0.
  intros Hid Hl Hm. split; [by apply (ch_first _ _ _ _ Hc id c)|]. destruct (content_chunk id c l Hid Hl) as (E & _).
  destruct (Z.lt_ge_cases (snd (span l)) maxt) as [?|Hge]; [by left|right].
  pose proof (same_range _ _ (h_minTime h / r0 + 1) r0 Hr0 E). unfold maxt, mint in *. lia.
Qed.

Lemma live_heap s : s ∈ HeadBlock.live h -> storable r0 s.
Proof using Hc.
  intros ([id l] & _ & Hs)%list_elem_of_omap. pose proof (ch_heap _ _ _ _ Hc) as Hheap. rewrite Forall_lookup in Hheap. by apply (Hheap l).
Qed.

Lemma live_writable : Forall (writable_series mint (maxt - 1)) (HeadBlock.live h).
Proof using Hc Hr0.
  apply Forall_forall. intros s Hs. destruct (live_heap s Hs) as (Hl & Hn & Hr & _). split_and!; [done..|].
  eapply Forall_impl; [exact Hr|]. unfold in_one_range, mc_Overlaps. cbn. intros c E Ho.
  apply andb_true_iff in Ho as [?%Z.leb_le ?%Z.leb_le].
  pose proof (same_range _ _ (h_minTime h / r0) r0 Hr0 E). pose proof (same_range _ _ (h_minTime h / r0 + 1) r0 Hr0 E).
  unfold maxt, mint in *. lia.
Qed.

Lemma live_cost : live_need h <= 2 ^ 32.
Proof using Hc Hr0.
  rewrite <- (head_need_live Sum64 h A (ch_rep _ _ _ _ Hc)). etrans; [|exact (ch_need _ _ _ _ Hc)]. unfold head_need, index_cost.
  assert (zsum str_cost (elements (h_symbols h)) <= zsum str_cost (elements ({[EmptyString]} ∪ h_symbols h))); [|lia].
  apply zsum_elements; [intros x; unfold str_cost; pose proof (zlen_nonneg (string_bytes x)); lia|set_solver].
Qed.

Lemma heap_fits : Forall ids_fit (h_heap h).
Proof using Hc. eapply Forall_impl; [exact (ch_heap _ _ _ _ Hc)|]. by intros s (_ & _ & _ & ?). Qed.

Lemma no_stones id : Get (h_tombstones h) id = [].
Proof using Hc. rewrite (ch_stones _ _ _ _ Hc). unfold Get. by rewrite lookup_empty. Qed.

Lemma compactable_view t : head_view Sum64 h A t.
Proof using Hc.
  split; [apply Hc|apply Hc|apply heap_fits|intros id; by rewrite no_stones|].
  apply (no_stones_survive Sum64); apply Hc.
Qed.

(** ** The head after the truncation *)

Context (hashes : list Z) (keys : list Label) (Hcov : covers h hashes keys) (Hinit : h_minTime h <> MaxInt64).
Let h2 : Head W := Truncate h maxt hashes keys.
Let A2 : contents := gc_contents maxt A.

Lemma truncated_times : rep Sum64 h2 A2 /\ h_minTime h2 = maxt /\ h_maxTime h2 = Z.max (h_maxTime h) maxt.
Proof using Hc Hr0 Hcov Hinit.
  pose proof range_bounds as [_ Hlt]. destruct (Truncate_rep Sum64 h A maxt hashes keys (ch_rep _ _ _ _ Hc) Hinit Hlt Hcov) as (Hr & Hm & _).
  split; [done|]. split; [done|]. unfold h2, Truncate. rewrite (proj2 (Z.eqb_neq _ _)), (proj2 (Z.leb_gt _ _)) by done. cbn [andb negb].
  set (h1 := with_times h maxt _). assert (Hr1 : rep Sum64 h1 A) by (apply with_times_rep, Hc).
  destruct (h_gc_ok Sum64 h1 A hashes keys Hr1 Hcov) as (_ & _ & ->). cbn. destruct (Z.ltb_spec (h_maxTime h) maxt); lia.
Qed.

Lemma gc_content_chunks id c2 : A2 !! id = Some c2 ->
  exists c, A !! id = Some c /\ fst c2 = fst c /\ chunked c2 = drop_before maxt (chunked c).
Proof using Type.
  unfold A2, gc_contents. rewrite lookup_omap. destruct (A !! id) as [c|]; [|done]. cbn. unfold gc_content.
  destruct (_ || _); [|done]. intros [= <-]. by exists c.
Qed.

Lemma truncated_compactable : compactable_head Sum64 r0 h2 A2.
Proof using Hc Hr0 Hcov Hinit.
  destruct truncated_times as (Hr & Hm & _). pose proof range_bounds as [_ Hlt].
  destruct (Truncate_rest Sum64 h A maxt hashes keys (ch_rep _ _ _ _ Hc) Hinit Hlt Hcov) as (Hp & Ht & Hs). split.
  - done.
  - unfold h2. rewrite Hp. apply Hc.
  - apply Truncate_heap; [apply storable_truncate|apply Hc].
  - unfold h2. rewrite Ht. apply Hc.
  - etrans; [|exact (ch_need _ _ _ _ Hc)]. apply index_cost_mono; [exact Hs|]. intros id c2 Hc2.
    destruct (gc_content_chunks id c2 Hc2) as (c & Hid & E & Ech). exists c. split_and!; [done..|]. rewrite Ech. apply drop_before_length.
  - intros id c2 l Hc2 Hl Hml. rewrite Hm in *. destruct (gc_content_chunks id c2 Hc2) as (c & Hid & _ & Ech). rewrite Ech in Hl.
    apply drop_before_incl in Hl. destruct (chunk_sides id c l Hid Hl) as [_ [?|?]]; [lia|lia|done].
Qed.

(** ** The samples of a series *)

(** The samples the head shows. *)
Definition shown (g : Head W) (c : HeadInv.content) : list Buffer.sample := mjoin (current g c).

Lemma head_visible_shown a b id c : head_visible h a b id c = clip a b (shown h c).
Proof using Hc. unfold head_visible. rewrite no_stones, visible_clip, kept_none. done. Qed.

Lemma shown_split id c : A !! id = Some c ->
  mjoin (filter (fun l => maxt <= snd (span l)) (chunked c)) = filter (fun s => maxt <= fst s) (shown h c) /\
  Forall (fun s => h_minTime h <= fst s) (shown h c) /\ increasing_times (shown h c).
Proof using Hc Hr0.
  intros Hid. pose proof range_bounds as [_ Hlt]. unfold shown, current. split_and!.
  - rewrite (filter_join (fun s => maxt <= fst s) (fun l => maxt <= snd (span l))).
    + rewrite list_filter_filter. f_equal. apply list_filter_iff. intros l. lia.
    + apply Forall_forall. intros l [Hm Hl]%list_elem_of_filter. destruct (chunk_sides id c l Hid Hl Hm) as [_ Hside].
      destruct (content_chunk id c l Hid Hl) as (_ & _ & _ & Ht). split; intros ?; (eapply Forall_impl; [exact Ht|]); cbn beta; intros x ?; lia.
  - apply Forall_forall. intros x (l & Hx & [Hm Hl]%list_elem_of_filter)%list_elem_of_join.
    destruct (chunk_sides id c l Hid Hl Hm) as [? _]. destruct (content_chunk id c l Hid Hl) as (_ & _ & _ & Ht).
    rewrite Forall_forall in Ht. specialize (Ht x Hx). lia.
  - apply increasing_filter. destruct (rep_lookup _ _ _ _ _ (proj1 (ch_rep _ _ _ _ Hc)) Hid) as (j & _ & s & _ & _ & _ & Hh & _). apply Hh.
Qed.

(** What is left of a series shows its samples from the end of the range on. *)
Lemma shown_after id c : A !! id = Some c ->
  match A2 !! id with Some c2 => shown h2 c2 | None => [] end = filter (fun s => maxt <= fst s) (shown h c).
Proof using Hc Hr0 Hcov Hinit.
  intros Hid. rewrite <- (proj1 (shown_split id c Hid)), <- drop_before_filter. unfold A2, gc_contents. rewrite lookup_omap, Hid. cbn. unfold gc_content.
  destruct truncated_times as (_ & Hm & _). destruct (_ || _) eqn:E.
  - unfold shown, current. rewrite Hm. done.
  - apply orb_false_iff in E as [E _]. destruct (drop_before maxt (chunked c)); [done|discriminate E].
Qed.

Lemma samples_divided a b id c : A !! id = Some c ->
  clip a b (head_visible h mint (maxt - 1) id c) ++
    (if maxt <=? b then DbQuery.head_samples h2 A2 a b (fst c) else []) =
  if h_minTime h <=? b then head_visible h a b id c else [].
Proof using Hc Hr0 Hcov Hinit.
  intros Hid. pose proof range_bounds as [Hlo Hlt]. destruct (shown_split id c Hid) as (_ & Hfrom & Hinc).
  rewrite !head_visible_shown.
  assert (E1 : clip a b (clip mint (maxt - 1) (shown h c)) = clip a b (filter (fun s => fst s < maxt) (shown h c))).
  { f_equal. unfold clip. apply filter_iff_in. eapply Forall_impl; [exact Hfrom|]. cbn beta. intros x ?. lia. }
  assert (E2 : DbQuery.head_samples h2 A2 a b (fst c) = clip a b (filter (fun s => maxt <= fst s) (shown h c))).
  { rewrite <- (shown_after id c Hid). destruct truncated_times as (Hr2 & _). destruct (A2 !! id) as [c2|] eqn:Hc2.
    - destruct (gc_content_chunks id c2 Hc2) as (c' & Hid' & El & _). assert (c' = c) as -> by congruence. rewrite <- El.
      rewrite (head_samples_of Sum64 h2 A2 a b id c2 (proj1 Hr2) Hc2). unfold head_visible. rewrite visible_clip.
      rewrite (ch_stones _ _ _ _ truncated_compactable). unfold Get. rewrite lookup_empty. cbn [default]. by rewrite kept_none.
    - apply head_samples_none. intros i c2 Hc2' E. destruct (gc_content_chunks i c2 Hc2') as (c' & Hid' & E' & _).
      assert (i = id) as ->; [|congruence]. eapply (rp_unique _ _ _ (proj1 (ch_rep _ _ _ _ Hc))); [done..|congruence]. }
  rewrite E1, E2. destruct (Z.leb_spec maxt b) as [Hb|Hb].
  - rewrite (proj2 (Z.leb_le _ _)) by lia. rewrite <- clip_app. f_equal. symmetry. by apply increasing_split.
  - rewrite app_nil_r. destruct (Z.leb_spec (h_minTime h) b).
    + rewrite (increasing_split maxt (shown h c) Hinc) at 2. rewrite clip_app.
      rewrite (clip_none a b (filter (fun s => maxt <= fst s) _)), app_nil_r; [done|]. apply Forall_forall. intros x [? _]%list_elem_of_filter. lia.
    + apply clip_none. apply Forall_filter_weaken. eapply Forall_impl; [exact Hfrom|]. cbn beta. lia.
Qed.
End Head.

(** * The new block *)

Lemma head_series_undeleted {W} `{WW : WAL W} Sum64 r0 (h : Head W) A mint maxt bs :
  compactable_head Sum64 r0 h A -> all_series h A mint maxt bs ->
  undeleted (fun t t' l => l <> [] /\ span l = (t, t')) [head_source h mint maxt bs].
Proof.
  intros Hc Hbs. apply Forall_singleton, Forall_forall. cbn [src_series head_source].
  intros b (id & c & Hid & Hb & _)%(head_elem h A mint maxt bs Hbs). split; [by rewrite (hb_ivs _ _ _ _ _ _ Hb), (no_stones Sum64 r0 h A Hc)|].
  pose proof (hb_spans _ _ _ _ _ _ Hb) as Hsp. apply Forall_forall. intros cl Hcl. rewrite Forall_forall in Hsp. split; [|by apply Hsp].
  apply (list_elem_of_fmap_2 snd) in Hcl. rewrite (hb_chunks _ _ _ _ _ _ Hb) in Hcl. apply list_elem_of_filter in Hcl as [_ Hcl].
  by destruct (content_chunk Sum64 r0 h A Hc id c _ Hid Hcl) as (_ & ? & _).
Qed.

Lemma new_block_view {U W} `{Countable U} `{WW : WAL W} Sum64 r0 (h : Head W) A mint maxt bs (uid : U) f pb nbs stats :
  compactable_head Sum64 r0 h A -> all_series h A mint (maxt - 1) bs -> aligned A mint (maxt - 1) ->
  new_block (written_meta uid mint maxt) mint (maxt - 1) [head_source h mint (maxt - 1) bs] f pb nbs stats ->
  block_view (Db.mkBlock (with_stats (written_meta uid mint maxt) stats) pb) nbs /\
  (forall id c, A !! id = Some c -> series_samples nbs (fst c) = head_visible h mint (maxt - 1) id c) /\
  (forall ls, (forall id c, A !! id = Some c -> fst c <> ls) -> series_samples nbs ls = []).
Proof.
  intros Hc Hbs Hal Hn. assert (Hm : forall ls, series_samples nbs ls = series_samples bs ls).
  { intros ls. rewrite (nb_samples _ _ _ _ _ _ _ _ Hn). unfold merged_samples. cbn [fmap list_fmap src_series head_source mjoin list_join]. by rewrite app_nil_r. }
  assert (Hvis : forall id c, A !! id = Some c -> series_samples nbs (fst c) = head_visible h mint (maxt - 1) id c).
  { intros id c Hid. rewrite Hm. by apply (head_samples Sum64 h A (ch_rep _ _ _ _ Hc) mint (maxt - 1) bs Hbs). }
  assert (Hnone : forall ls, (forall id c, A !! id = Some c -> fst c <> ls) -> series_samples nbs ls = []).
  { intros ls Hno. rewrite Hm. by apply (head_no_samples h A mint (maxt - 1) bs Hbs). }
  split; [|done]. pose proof (nb_source _ _ _ _ _ _ _ _ Hn) as [_ Hix Hin Hnd _]. cbn [src_index src_series block_source] in *.
  pose proof (nb_undeleted _ _ _ _ _ _ _ _ Hn _ (head_series_undeleted Sum64 r0 h A mint (maxt - 1) bs Hc Hbs)) as Htight.
  pose proof (nb_ivs _ _ _ _ _ _ _ _ Hn) as Hivs. rewrite Forall_forall in Htight, Hivs. rewrite Forall_forall in Hin. split; cbn [blk_data blk_meta].
  - pose proof (nb_readers _ _ _ _ _ _ _ _ Hn) as Hr. unfold block_readers in Hr. by destruct (pb_closing pb).
  - exact Hix.
  - apply Forall_forall. intros b Hb. destruct (Hin b Hb) as [Hs Hg Ho _ Hch]. cbn [src_index src_chunks src_tombstones block_source] in *. split; [done..| |].
    + pose proof (Htight b Hb) as Ht. rewrite Forall_forall in Hch, Ht |- *. intros cl Hcl. destruct (Hch cl Hcl) as (_ & k & Hk & (it & Hit & Hgv) & _).
      split; [by exists k, it|]. split; [by apply Ht|]. right. by rewrite (Hivs b Hb).
    + assert (E : mjoin (snd <$> b_chunks b) = series_samples nbs (b_lset b)).
      { rewrite series_samples_of by done. by rewrite (Hivs b Hb), kept_none. }
      rewrite E. destruct (list_find (fun ic => fst (snd ic) = b_lset b) (map_to_list A)) as [[i [id c]]|] eqn:Ef.
      * apply list_find_Some in Ef as (Hi%list_elem_of_lookup_2%elem_of_map_to_list & El & _). cbn in El. rewrite <- El, (Hvis id c Hi).
        rewrite (head_visible_shown Sum64 r0 h A Hc). apply StronglySorted_filter, increasing_filter.
        destruct (rep_lookup _ _ _ _ _ (proj1 (ch_rep _ _ _ _ Hc)) Hi) as (j & _ & s & _ & _ & _ & Hh & _). apply Hh.
      * rewrite Hnone; [constructor|]. intros id c Hid El. apply list_find_None in Ef. rewrite Forall_forall in Ef.
        apply elem_of_map_to_list in Hid. by apply (Ef (id, c)).
  - exact Hnd.
  - apply Forall_forall. intros b Hb. destruct (Hin b Hb) as [_ _ _ _ Hch]. cbn [src_lo src_hi block_source] in Hch.
    apply Forall_forall. intros x (l & Hx & (cl & -> & Hcl)%list_elem_of_fmap)%list_elem_of_join. rewrite Forall_forall in Hch.
    destruct (Hch cl Hcl) as ([Ht [? ?] _ _ _ _] & _). rewrite Forall_forall in Ht. specialize (Ht x Hx).
    cbn [with_stats written_meta bm_MinTime bm_MaxTime]. lia.
Qed.

(** * One round of the loop *)

Section Round.
Context {U W : Type} `{Countable U} (Compare : U -> U -> comparison) `{!CompareLaws Compare} `{WW : WAL W} (Sum64 : list Z -> Z).
Context (range : forall A, list A -> list A) (newUID : gmap U (files U) -> U) (ULID_String : U -> string) (ranges : list Z).
Context (Hperm : forall A (l : list A), range A l ≡ₚ l) (Hfresh : forall d, fresh_id (newUID d) d).
Abbreviation DB := (Db.DB (F := files U) (U := U) (D := pblock U) (H := Head W)).
Abbreviation compactor := (LeveledCompactor (W := W) Compare range newUID ULID_String ranges).
Implicit Types (db : DB) (vs : list (list (bseries XORChunk))).

(** A database without a limit on its age, whose blocks in memory are those on disk, lie
    before the range of the head's first time and can be queried, and whose head can be
    compacted. *)
Record db_state (r0 : Z) db (A : contents) vs : Prop := {
  ds_settled : settled r0 db;
  ds_retention : o_RetentionDuration (db_opts db) = 0;
  ds_live : DbSpec.live Compare db (db_blocks db);
  ds_current k : is_Some (db_disk db !! k) -> ~ obsolete db k;
  ds_sequence : in_sequence (blk_meta <$> db_blocks db);
  ds_before : Forall (fun b => bm_MaxTime (blk_meta b) <= h_minTime (db_head db) / r0 * r0) (db_blocks db);
  ds_views : Forall2 block_view (db_blocks db) vs;
  ds_head : compactable_head Sum64 r0 (db_head db) A;
  ds_first : 0 <= h_minTime (db_head db);
}.

Lemma no_retention db m : o_RetentionDuration (db_opts db) = 0 -> beyondRetention db m = false.
Proof using Type. intros E. unfold beyondRetention. by rewrite E. Qed.

Lemma all_current db : (forall k, is_Some (db_disk db !! k) -> ~ obsolete db k) ->
  filter (fun e => ~ obsolete db (fst e)) (blockDirs Compare (db_disk db)) = blockDirs Compare (db_disk db).
Proof using CompareLaws0.
  intros Hc. apply filter_all, Forall_forall. intros [k x] He%(elem_of_dirs Compare). apply Hc. by exists x.
Qed.

Lemma sequence_increasing (bs : list (Db.Block U (pblock U))) : in_sequence (blk_meta <$> bs) -> increasing blk_min Z.compare bs.
Proof using Type.
  intros [Hok Hs]. induction bs as [|b bs IH]; [constructor|]. rewrite fmap_cons in Hok, Hs.
  apply Forall_cons in Hok as [(_ & _ & Hlt) Hok]. apply StronglySorted_inv in Hs as [Hs Hb]. constructor; [by apply IH|].
  rewrite Forall_fmap in Hb. eapply Forall_impl; [exact Hb|]. cbn. intros b' Hb'. unfold blk_min. apply Z.compare_lt_iff. lia.
Qed.

(** The block in memory for a directory is the only one with its identifier. *)
Lemma loads_unique db e b b' : loads db e b -> loads db e b' -> b = b'.
Proof using Type.
  intros (m & Hm & Hb) (m' & Hm' & Hb'). rewrite Hm in Hm'. injection Hm' as <-. destruct (getBlock db (bm_ULID m)); [by subst|].
  destruct Hb as (x & Hx & ->), Hb' as (x' & Hx' & ->). congruence.
Qed.

Section Insert.
Context (r0 : Z) db (A : contents) vs (Hst : db_state r0 db A vs).
Context (u : U) (f : files U) (pb : pblock U) (m : BlockMeta U).
Context (Hu : fresh_id u (db_disk db)) (Hmeta : readMetaFile f = Ok m) (Hopen : OpenBlock f = Ok pb) (Hid : bm_ULID m = u).
Context (Hparents : cp_Parents (bm_Compaction m) = []).
Let db1 := with_disk db (<[u := f]> (db_disk db)).
Let b1 : Db.Block U (pblock U) := Db.mkBlock m pb.

Lemma insert_current k : is_Some (db_disk db1 !! k) -> ~ obsolete db1 k.
Proof using Hst Hu Hmeta Hparents.
  intros Hk (k' & x & m' & Hx & Hm' & Ho). rewrite no_retention in Ho by apply (ds_retention _ _ _ _ Hst).
  cbn [db1 with_disk db_disk] in Hx, Hk. apply lookup_insert_Some in Hx as [[<- <-]|[Hne Hx]].
  - cbn [de_meta files_dir] in Hm'. rewrite Hmeta in Hm'. injection Hm' as <-. rewrite Hparents in Ho. by apply not_elem_of_nil in Ho.
  - destruct (decide (k = u)) as [->|Hku]; [by apply (proj2 Hu k' x m')|]. rewrite lookup_insert_ne in Hk by done.
    apply (ds_current _ _ _ _ Hst k Hk). exists k', x, m'. split_and!; [done..|]. rewrite no_retention; [done|apply (ds_retention _ _ _ _ Hst)].
Qed.

Lemma insert_loads : loads db1 (u, f) b1.
Proof using Hst Hu Hmeta Hopen Hid.
  exists m. cbn [snd de_meta files_dir]. rewrite Hmeta. split; [done|]. rewrite Hid.
  destruct (getBlock db1 u) as [b|] eqn:Eg; [exfalso|by exists pb]. apply getBlock_some in Eg as [Hb Eu].
  destruct (st_mem _ _ (ds_settled _ _ _ _ Hst) b Hb) as ([x Hx] & _). rewrite Eu, (proj1 Hu) in Hx. done.
Qed.

Lemma insert_live : in_sequence (blk_meta <$> (db_blocks db ++ [b1])) -> DbSpec.live Compare db1 (db_blocks db ++ [b1]).
Proof using Hst Hu Hmeta Hopen Hid Hparents CompareLaws0.
  intros Hq. destruct (ds_live _ _ _ _ Hst) as (bs0 & Hbs0 & Eb). rewrite (all_current db) in Hbs0 by apply (ds_current _ _ _ _ Hst).
  unfold DbSpec.live. rewrite (all_current db1) by apply insert_current.
  assert (Hp : (u, f) :: blockDirs Compare (db_disk db) ≡ₚ blockDirs Compare (db_disk db1)).
  { unfold blockDirs, db1. cbn [with_disk db_disk]. rewrite !(sort_by_perm fst Compare). by rewrite map_to_list_insert by apply Hu. }
  assert (Hl : Forall2 (loads db1) ((u, f) :: blockDirs Compare (db_disk db)) (b1 :: bs0)) by (constructor; [apply insert_loads|done]).
  destruct (Permutation_Forall2 Hp Hl) as (bs1 & Hp1 & Hl1). exists bs1. split; [exact Hl1|]. symmetry.
  apply (sort_by_unique blk_min Z.compare); [by apply sequence_increasing|]. rewrite <- Hp1, Eb, (sort_by_perm blk_min Z.compare).
  by rewrite Permutation_app_comm.
Qed.

Lemma insert_good : good_disk db1.
Proof using Hst Hu Hmeta Hopen Hid CompareLaws0.
  intros k x Hk. cbn [db1 with_disk db_disk] in Hk. apply lookup_insert_Some in Hk as [[<- <-]|[Hne Hk]].
  - exists m. cbn [de_meta files_dir]. rewrite Hmeta. split_and!; [done..|]. right. exists b1. apply insert_loads.
  - destruct (ds_live _ _ _ _ Hst) as (bs0 & Hbs0 & _). rewrite (all_current db) in Hbs0 by apply (ds_current _ _ _ _ Hst).
    assert (He : (k, x) ∈ blockDirs Compare (db_disk db)) by by apply elem_of_dirs. apply list_elem_of_lookup in He as [i Hi].
    destruct (Forall2_lookup_l _ _ _ _ _ Hbs0 Hi) as (b & _ & Hb). pose proof Hb as (m' & Hm' & _).
    exists m'. split; [done|]. split; [|right; by exists b]. destruct (st_disk _ _ (ds_settled _ _ _ _ Hst) k x Hk) as [_ Hd]. by destruct (Hd m' Hm').
Qed.

Lemma insert_reload : in_sequence (blk_meta <$> (db_blocks db ++ [b1])) ->
  reload Compare db1 = Ok (reloaded Compare db1 (db_blocks db ++ [b1])).
Proof using Hst Hu Hmeta Hopen Hid Hparents CompareLaws0.
  intros Hq. destruct (reload_ok Compare db1 insert_good) as (bs & Hl & Hr).
  assert (bs = db_blocks db ++ [b1]) as -> by (eapply (live_unique Compare db1); [exact Hl|by apply insert_live]).
  apply Hr; [apply Hq|done].
Qed.
End Insert.

(** The identifiers of the blocks loaded are the names of their directories. *)
Lemma loads_ids db (es : list (U * files U)) (bs : list (Db.Block U (pblock U))) :
  (forall b, b ∈ db_blocks db -> PlanSpec.meta_ok (blk_meta b)) ->
  Forall (fun e => forall m, de_meta (snd e) = Some m -> bm_ULID m = fst e /\ PlanSpec.meta_ok m) es ->
  Forall2 (loads db) es bs -> (fun b => bm_ULID (blk_meta b)) <$> bs = fst <$> es.
Proof using Type.
  intros Hmem He Hl. induction Hl as [|[k x] b es bs Hb _ IH]; [done|]. apply Forall_cons in He as [Hx He]. rewrite !fmap_cons, (IH He).
  f_equal. by apply (loads_meta db k x b Hmem Hx Hb).
Qed.

(** Blocks that are in memory are not opened again. *)
Lemma live_again db (bs : list (Db.Block U (pblock U))) (h : Head W) :
  (forall b, b ∈ db_blocks db -> PlanSpec.meta_ok (blk_meta b)) ->
  (forall k x m, db_disk db !! k = Some x -> de_meta x = Some m -> bm_ULID m = k /\ PlanSpec.meta_ok m) ->
  o_RetentionDuration (db_opts db) = 0 -> (forall k, is_Some (db_disk db !! k) -> ~ obsolete db k) -> DbSpec.live Compare db bs ->
  let db2 := with_head (with_disk (with_blocks db bs) (db_disk db)) h in
  (forall k, is_Some (db_disk db2 !! k) -> ~ obsolete db2 k) /\ DbSpec.live Compare db2 bs.
Proof using CompareLaws0.
  intros Hmem Hdisk Hret Hcur (bs0 & Hl & Eb) db2. assert (Hcur2 : forall k, is_Some (db_disk db2 !! k) -> ~ obsolete db2 k).
  { intros k Hk (k' & x & m & Hx & Hm & Ho). apply (Hcur k Hk). exists k', x, m. split_and!; [done..|].
    rewrite no_retention in Ho by done. by rewrite no_retention. }
  split; [done|]. exists bs0. split; [|done]. rewrite (all_current db2 Hcur2). rewrite (all_current db Hcur) in Hl.
  assert (Hes : Forall (fun e => forall m, de_meta (snd e) = Some m -> bm_ULID m = fst e /\ PlanSpec.meta_ok m) (blockDirs Compare (db_disk db))).
  { apply Forall_forall. intros [k x] He%(elem_of_dirs Compare) m Hm. by apply (Hdisk k x). }
  pose proof (loads_ids db _ _ Hmem Hes Hl) as Hids.
  assert (Hnd : NoDup ((fun b => bm_ULID (blk_meta b)) <$> bs)).
  { rewrite Eb, (sort_by_perm blk_min Z.compare), Hids. unfold blockDirs. rewrite (sort_by_perm fst Compare). apply NoDup_fst_map_to_list. }
  assert (Hget : forall b, b ∈ bs -> getBlock db2 (bm_ULID (blk_meta b)) = Some b).
  { intros b [j Hj]%list_elem_of_lookup. unfold getBlock. cbn [db2 with_head with_disk with_blocks db_blocks].
    destruct (list_find (fun b' => bm_ULID (blk_meta b') = bm_ULID (blk_meta b)) bs) as [[i b']|] eqn:Ef.
    - apply list_find_Some in Ef as (Hi & E & _). cbn. f_equal. assert (i = j) as ->; [|congruence].
      eapply NoDup_lookup; [exact Hnd| |]; rewrite list_lookup_fmap; [by rewrite Hi|by rewrite Hj, E].
    - apply list_find_None in Ef. rewrite Forall_forall in Ef. by destruct (Ef b (list_elem_of_lookup_2 _ _ _ Hj)). }
  apply Forall2_same_length_lookup_2; [by eapply Forall2_length|]. intros i [k x] b He Hb. change (db_disk db2) with (db_disk db) in He.
  destruct (Forall2_lookup_lr _ _ _ _ _ _ Hl He Hb) as (m & Hm & _). exists m. split; [done|]. cbn [snd] in Hm.
  assert (Ek : bm_ULID m = bm_ULID (blk_meta b)).
  { rewrite Forall_lookup in Hes. destruct (Hes i _ He m Hm) as [-> _]. pose proof (f_equal (lookup i) Hids) as E.
    rewrite !list_lookup_fmap, He, Hb in E. by injection E. }
  assert (Hin : b ∈ bs) by (rewrite Eb, (sort_by_perm blk_min Z.compare); by eapply list_elem_of_lookup_2).
  by rewrite Ek, (Hget b Hin).
Qed.

(** What a round does: the samples of the first range become a new block. *)
Record rounded r0 db A vs db2 vs2 : Prop := {
  rd_block : let mint := h_minTime (db_head db) / r0 * r0 in
    exists u f pb nbs stats bs, db_disk db !! u = None /\ db_disk db2 = <[u := f]> (db_disk db) /\
      db_blocks db2 = db_blocks db ++ [Db.mkBlock (with_stats (written_meta u mint (mint + r0)) stats) pb] /\ vs2 = vs ++ [nbs] /\
      all_series (db_head db) A mint (mint + r0 - 1) bs /\
      new_block (written_meta u mint (mint + r0)) mint (mint + r0 - 1) [head_source (db_head db) mint (mint + r0 - 1) bs] f pb nbs stats;
  rd_times : h_minTime (db_head db2) = h_minTime (db_head db) / r0 * r0 + r0 /\
    h_maxTime (db_head db2) = Z.max (h_maxTime (db_head db)) (h_minTime (db_head db) / r0 * r0 + r0);
  rd_enabled : db_compactionsEnabled db2 = db_compactionsEnabled db;
  rd_state : exists A2, db_state r0 db2 A2 vs2 /\
    forall a b ls, db_samples (db_head db2) vs2 A2 a b ls = db_samples (db_head db) vs A a b ls;
}.

Lemma head_round r0 db A vs :
  db_state r0 db A vs -> h_minTime (db_head db) < h_maxTime (db_head db) ->
  let mint := h_minTime (db_head db) / r0 * r0 in
  let maxt := mint + r0 in
  exists d' u db2 vs2,
    c_Write compactor (db_disk db) (RangeHead (db_head db) mint (maxt - 1)) mint maxt None = (d', Ok u) /\
    reload Compare (with_disk db d') = Ok (db2, None) /\ rounded r0 db A vs db2 vs2.
Proof using CompareLaws0 Hperm Hfresh.
  intros Hst Hlt mint maxt. pose proof (ds_head _ _ _ _ Hst) as Hc. destruct (st_ranges _ _ (ds_settled _ _ _ _ Hst)) as [Hidx Hr0].
  destruct (st_head _ _ (ds_settled _ _ _ _ Hst)) as (Hmin & Hmax & Hmax'). cbn [hd_MinTime hd_MaxTime head_db_head] in *. specialize (Hmax' Hlt).
  pose proof (ds_first _ _ _ _ Hst) as H0. unfold range_ok in Hr0.
  pose proof (range_bounds r0 (db_head db) (proj1 Hr0)) as Hb. fold mint maxt in Hb.
  assert (Hmm : maxt = mint + r0) by done. assert (Hq : mint = h_minTime (db_head db) / r0 * r0) by done. clearbody maxt mint.
  set (h := db_head db) in *. set (u := newUID (db_disk db)).
  assert (Hm0 : 0 <= mint) by (rewrite Hq; apply Z.mul_nonneg_nonneg; [apply Z.div_pos; lia|lia]).
  assert (Hst0 : forall id, ordered (Get (h_tombstones h) id) /\ ivs_within (MinInt64 + 1) (MaxInt64 - 1) (Get (h_tombstones h) id)).
  { intros id. rewrite (no_stones Sum64 r0 h A Hc). by split; [|constructor]. }
  pose proof (live_writable Sum64 r0 h A Hc (proj1 Hr0)) as Hw. rewrite <- Hq, <- Hmm in Hw.
  destruct (Write_head_block Sum64 range h A (db_disk db) u mint maxt Hperm (ch_rep _ _ _ _ Hc) (ch_postings _ _ _ _ Hc) (heap_fits Sum64 r0 h A Hc) Hst0 Hw
    (live_cost Sum64 r0 h A Hc (proj1 Hr0))) as (bs & f & pb & nbs & stats & Hbs & Ew & Hnb); [unfold small_time; lia..|lia|].
  pose proof (live_aligned Sum64 h A (ch_rep _ _ _ _ Hc) _ _ Hw) as Hal.
  destruct (new_block_view Sum64 r0 h A mint maxt bs u f pb nbs stats Hc Hbs Hal Hnb) as (Hview & Hsam & Hnone).
  set (m := with_stats (written_meta u mint maxt) stats) in *. set (b1 := Db.mkBlock m pb) in *.
  pose proof (nb_open _ _ _ _ _ _ _ _ Hnb) as Hopen. destruct (nb_meta _ _ _ _ _ _ _ _ Hnb) as [Hmeta _]. fold m in Hmeta.
  assert (Hmok : PlanSpec.meta_ok m) by (unfold PlanSpec.meta_ok, small_time, m; cbn; lia).
  assert (Hseq : in_sequence (blk_meta <$> (db_blocks db ++ [b1]))).
  { rewrite fmap_app. apply in_sequence_app. split; [apply Hst|]. split; [split; [by apply Forall_singleton|by repeat constructor]|].
    intros a b (x & -> & Hx)%list_elem_of_fmap ->%list_elem_of_singleton. pose proof (ds_before _ _ _ _ Hst) as Hbf.
    rewrite Forall_forall in Hbf. specialize (Hbf x Hx). cbn beta in Hbf. fold h in Hbf. change (bm_MinTime (blk_meta b1)) with mint. lia. }
  pose proof (insert_live r0 db A vs Hst u f pb m (Hfresh _) Hmeta Hopen eq_refl eq_refl Hseq) as Hlive.
  pose proof (insert_current r0 db A vs Hst u f m (Hfresh _) Hmeta eq_refl) as Hcur.
  pose proof (insert_reload r0 db A vs Hst u f pb m (Hfresh _) Hmeta Hopen eq_refl eq_refl Hseq) as Hre.
  set (d1 := <[u := f]> (db_disk db)) in *. fold b1 in Hlive, Hre. set (db1 := with_disk db d1) in *.
  assert (Hld : live_disk Compare db1 = d1).
  { unfold live_disk. apply map_filter_id. intros k x Hk. cbn [fst]. apply Hcur. by exists x. }
  assert (Hinit : h_minTime h <> MaxInt64) by (unfold MaxInt64; lia).
  pose proof (truncated_times Sum64 r0 h A Hc (proj1 Hr0) _ _ (covers_all h) Hinit) as (_ & Et1 & Et2).
  pose proof (truncated_compactable Sum64 r0 h A Hc (proj1 Hr0) _ _ (covers_all h) Hinit) as Hc2. rewrite <- Hq, <- Hmm in Hc2, Et1, Et2.
  set (h2 := Truncate h maxt (map_to_list (h_hashes h)).*1 (map_to_list (mp_m (h_postings h))).*1) in *.
  exists d1, u, (with_head (with_disk (with_blocks db1 (db_blocks db ++ [b1])) d1) h2), (vs ++ [nbs]). split; [exact Ew|]. split.
  { fold db1. rewrite Hre. unfold reloaded. rewrite last_snoc, Hld. done. }
  split; cbn [with_head with_disk with_blocks db_head db_disk db_blocks db_compactionsEnabled].
  - fold h. rewrite <- Hq, <- Hmm. exists u, f, pb, nbs, stats, bs. split; [apply Hfresh|]. done.
  - fold h. by rewrite <- Hq, <- Hmm.
  - done.
  - exists (gc_contents maxt A). split.
  { assert (Hmem1 : forall b, b ∈ db_blocks db1 -> PlanSpec.meta_ok (blk_meta b)).
    { intros b Hin. by destruct (st_mem _ _ (ds_settled _ _ _ _ Hst) b Hin) as (_ & ? & _). }
    assert (Hdisk1 : forall k x m', d1 !! k = Some x -> de_meta x = Some m' -> bm_ULID m' = k /\ PlanSpec.meta_ok m').
    { intros k x m' [[<- <-]|[_ Hk]]%lookup_insert_Some Hm'; [|by apply (st_disk _ _ (ds_settled _ _ _ _ Hst) k x Hk)].
      cbn [de_meta files_dir] in Hm'. rewrite Hmeta in Hm'. by injection Hm' as <-. }
    destruct (live_again db1 (db_blocks db ++ [b1]) h2 Hmem1 Hdisk1 (ds_retention _ _ _ _ Hst) Hcur Hlive) as [Hcur2 Hlive2].
    split; cbn [with_head with_disk with_blocks db_head db_disk db_blocks db_opts]; [|apply Hst|exact Hlive2|exact Hcur2|exact Hseq| | |exact Hc2|lia].
    + split; cbn [with_head with_disk with_blocks db_head db_disk db_blocks db_opts hd_MinTime hd_MaxTime head_db_head].
      * intros b [Hin| ->%list_elem_of_singleton]%elem_of_app.
        -- destruct (st_mem _ _ (ds_settled _ _ _ _ Hst) b Hin) as ([x Hx] & ? & Hle). cbn [hd_MinTime head_db_head] in Hle. fold h in Hle.
           split; [|split; [done|lia]]. unfold d1. destruct (decide (bm_ULID (blk_meta b) = u)) as [->|Hne]; [rewrite lookup_insert_eq|rewrite lookup_insert_ne by done]; by eexists.
        -- split; [exists f; apply lookup_insert_eq|]. split; [done|]. change (bm_MaxTime (blk_meta b1)) with maxt. lia.
      * intros k x Hk. split; [|intros m' Hm'; by apply (Hdisk1 k x)]. apply lookup_insert_Some in Hk as [[_ <-]|[_ Hk]].
        -- cbn [de_data files_dir]. by rewrite Hopen.
        -- by apply (st_disk _ _ (ds_settled _ _ _ _ Hst) k x).
      * by split.
      * apply Hst.
      * lia.
    + rewrite Et1. assert (Ediv : maxt / r0 * r0 = maxt).
      { rewrite Hmm, Hq. replace (h_minTime h / r0 * r0 + r0) with ((h_minTime h / r0 + 1) * r0) by lia. rewrite Z.div_mul by lia. done. }
      rewrite Ediv. apply Forall_app. split; [|apply Forall_singleton; change (bm_MaxTime (blk_meta b1)) with maxt; lia].
      eapply Forall_impl; [apply (ds_before _ _ _ _ Hst)|]. cbn beta. fold h. intros b. lia.
    + apply Forall2_app; [apply Hst|]. constructor; [exact Hview|constructor]. }
    intros a b ls. unfold db_samples. cbn [with_head db_head]. fold h. rewrite fmap_app, join_app, <- (assoc_L (++)). f_equal. rewrite Et1.
    cbn [fmap list_fmap mjoin list_join]. rewrite app_nil_r.
    destruct (list_find (fun ic => fst (snd ic) = ls) (map_to_list A)) as [[i [id c]]|] eqn:Ef.
    + apply list_find_Some in Ef as (Hi%list_elem_of_lookup_2%elem_of_map_to_list & El & _). cbn in El. subst ls.
      rewrite (Hsam id c Hi), (head_samples_of Sum64 h A a b id c (proj1 (ch_rep _ _ _ _ Hc)) Hi).
      pose proof (samples_divided Sum64 r0 h A Hc (proj1 Hr0) _ _ (covers_all h) Hinit a b id c Hi) as E. rewrite <- Hq, <- Hmm in E. exact E.
    + assert (Hno : forall id c, A !! id = Some c -> fst c <> ls).
      { intros id c Hid El. apply list_find_None in Ef. rewrite Forall_forall in Ef. apply elem_of_map_to_list in Hid. by apply (Ef (id, c)). }
      rewrite (Hnone ls Hno), (head_samples_none h A a b ls Hno), (head_samples_none h2 _ a b ls).
      * by destruct (_ <=? _), (_ <=? _).
      * intros id c2 Hid2. destruct (gc_contents_lookup _ _ _ _ Hid2) as (c & Hid & ->). by apply (Hno id c).
Qed.
Lemma head_begin r0 m : 0 <= m <= 2 ^ 60 -> range_ok r0 -> rangeForTimestamp m r0 = Ok (m / r0 * r0, m / r0 * r0 + r0).
Proof using Type.
  intros Hm Hr. destruct (rangeForTimestamp_spec m r0) as (a & E & Hb & Hdiv & Hpos); [unfold time_ok; lia|done|]. rewrite E.
  unfold range_ok in Hr. assert (a = m / r0 * r0) as ->; [|done]. destruct Hdiv as [k ->]. specialize (Hpos ltac:(lia)). f_equal.
  apply (Z.div_unique_pos _ _ _ (m - k * r0)); lia.
Qed.

(** How the loop ends: with at most one and a half ranges in the head, or since the
    database is being closed. *)
Definition head_ended (r0 : Z) (stopc : nat -> bool) db (l : loop_end) : Prop :=
  match l with
  | Broke => h_maxTime (db_head db) - h_minTime (db_head db) <= Z.quot r0 2 * 3
  | Return e => e = None /\ exists n, stopc n = true
  end.

(** The rounds of the loop, with what each of them keeps. *)
Lemma head_rounds r0 (P : DB -> list (list (bseries XORChunk)) -> Prop) fuel stopc db A vs :
  (forall db A vs db2 vs2, db_state r0 db A vs -> P db vs -> rounded r0 db A vs db2 vs2 -> P db2 vs2) ->
  db_state r0 db A vs -> P db vs -> (Z.to_nat (h_maxTime (db_head db) - h_minTime (db_head db)) < fuel)%nat ->
  exists db' A' vs' l, compact_head Compare fuel compactor stopc db = Ok (db', l) /\ db_state r0 db' A' vs' /\ P db' vs' /\
    head_ended r0 stopc db' l /\ db_compactionsEnabled db' = db_compactionsEnabled db /\
    (length (db_blocks db') <= length (db_blocks db) + Z.to_nat (h_maxTime (db_head db) - h_minTime (db_head db)))%nat /\
    forall a b ls, db_samples (db_head db') vs' A' a b ls = db_samples (db_head db) vs A a b ls.
Proof using CompareLaws0 Hperm Hfresh.
  intros HP. revert stopc db A vs. induction fuel as [|fuel IH]; intros stopc db A vs Hst HPdb Hf; [lia|]. cbn [compact_head].
  destruct (stopc O) eqn:Es.
  { exists db, A, vs, (Return None). split_and!; [done..| |done|lia|done]. split; [done|by exists O]. }
  pose proof (ds_settled _ _ _ _ Hst) as Hse. destruct (st_ranges _ _ Hse) as [Hidx Hr0]. rewrite Hidx. cbn [res_bind].
  destruct (head_small r0 db) eqn:Esm.
  { exists db, A, vs, Broke. split_and!; [done..| |done|lia|done]. exact (proj1 (head_small_spec r0 db Hse) Esm). }
  assert (Hgt : Z.quot r0 2 * 3 < h_maxTime (db_head db) - h_minTime (db_head db)).
  { apply Z.lt_nge. intros Hle. change (hd_MaxTime (db_head db) - hd_MinTime (db_head db) <= Z.quot r0 2 * 3) in Hle.
    apply (head_small_spec r0 db Hse) in Hle. by rewrite Hle in Esm. }
  destruct (st_head _ _ Hse) as (Hmin & Hmax & Hmax'). cbn [hd_MinTime hd_MaxTime head_db_head] in *.
  pose proof (ds_first _ _ _ _ Hst) as H0. pose proof Hr0 as Hr. unfold range_ok in Hr.
  assert (Hq : 0 <= Z.quot r0 2) by (apply Z.quot_pos; lia). specialize (Hmax' ltac:(lia)).
  destruct (head_round r0 db A vs Hst ltac:(lia)) as (d' & u & db2 & vs2 & Ew & Er & Hround).
  pose proof Hround as [(u' & f & pb & nbs & stats & bs & _ & _ & Eb & _) [E1 E2] Een (A2 & Hst2 & Hs)].
  pose proof (range_bounds r0 (db_head db) (proj1 Hr)) as Hb.
  unfold write_head. cbn [hd_MinTime head_db_head]. rewrite head_begin by (done || lia). cbn [res_bind].
  rewrite i64_small by (unfold is_s; lia). rewrite Ew. cbn [and_reload res_bind]. rewrite Er. cbn [res_bind].
  destruct (IH (fun n => stopc (S n)) db2 A2 vs2 Hst2) as (db' & A' & vs' & l & E & Hst' & HP' & Hle & Een' & Hlen & Hs'); [by apply (HP db A vs)|lia|].
  exists db', A', vs', l. split; [done|]. split; [done|]. split; [done|]. split.
  { destruct l as [|e]; [done|]. destruct Hle as [-> [n Hn]]. split; [done|by exists (S n)]. }
  split; [congruence|]. split.
  - rewrite Eb, length_app in Hlen. cbn [length] in Hlen. lia.
  - intros a b ls. by rewrite Hs', Hs.
Qed.
End Round.

(** * What a query gives *)

(** The entries with samples. *)
Definition answered (l : list entry) : list entry := filter (fun e => snd e <> []) l.

Lemma answered_in l e : increasing fst labels_cmp l -> e ∈ answered l <-> SeriesSets.samples_at (fst e) l = snd e /\ snd e <> [].
Proof.
  intros Hl. unfold answered. rewrite list_elem_of_filter. split; [intros [Hs He]; by rewrite samples_at_one|]. intros [E Hs].
  split; [done|]. destruct (decide (fst e ∈ fst <$> l)) as [([ls s] & E' & He)%list_elem_of_fmap|Hn].
  - rewrite E' in E. pose proof (samples_at_one l (ls, s) Hl He) as E2. cbn [fst snd] in *. rewrite E in E2. destruct e; cbn in *. by subst.
  - by rewrite samples_at_absent in E.
Qed.

Lemma answered_eq l l' : increasing fst labels_cmp l -> increasing fst labels_cmp l' ->
  (forall ls, SeriesSets.samples_at ls l = SeriesSets.samples_at ls l') -> answered l = answered l'.
Proof.
  intros Hl Hl' E. assert (Hi : forall k : list entry, increasing fst labels_cmp k -> increasing fst labels_cmp (answered k)).
  { intros k. apply StronglySorted_filter. }
  rewrite <- (sort_by_unique fst labels_cmp (answered l) (answered l) (Hi l Hl) (Permutation_refl _)). apply (sort_by_unique fst labels_cmp).
  - by apply Hi.
  - apply NoDup_Permutation; [by eapply NoDup_fmap_1, (increasing_NoDup fst labels_cmp), Hi..|]. intros e.
    by rewrite !answered_in, E by done.
Qed.

(** A query on the database opens and gives these entries. *)
Definition query_gives {U W} `{Countable U} `{WAL W} (db : Db.DB (F := files U) (U := U) (D := pblock U) (H := Head W)) (mint maxt : Z)
    (ms : list Matcher) (l : list entry) : Prop :=
  exists qs st, db_Querier db mint maxt = Ok qs /\ SeriesSets.Select (It := db_iterator) qs ms = Ok st /\ set_yields (It := db_iterator) st l.

Lemma db_query {U W} `{Countable U} `{WAL W} Sum64 (db : Db.DB (F := files U) (U := U) (D := pblock U) (H := Head W)) vs A mint maxt ms :
  Forall2 block_view (db_blocks db) vs -> head_view Sum64 (db_head db) A mint -> Forall (fun m => m_Name m <> EmptyString) ms -> ms <> [] ->
  exists l, query_gives db mint maxt ms l /\ increasing fst labels_cmp l /\
    forall ls, SeriesSets.samples_at ls l = if sel_Matches ms ls then db_samples (db_head db) vs A mint maxt ls else [].
Proof.
  intros Hb Hh Hms Hne. destruct (db_queriers_give Sum64 mint maxt ms Hms Hne db vs A Hb Hh) as (qs & ess & Eq & Hq & _ & Hs).
  destruct (sel_merges (length qs) qs ms ess) as (st & l & Est & Hy & Hinc & _ & Hsam); [done..|].
  exists l. split; [by exists qs, st|]. split; [done|]. intros ls. by rewrite Hsam, Hs.
Qed.

(** * Main theorem *)

(** C2: compacting the head loses nothing.  The database has no limit on its age, its
    blocks in memory are those on disk and lie before the range of the head's first time,
    and nothing in the head is deleted or reaches over two ranges.  Then the loop of
    [compact] over the head ends without an error and with a database of this kind again:
    with a break, and then at most one and a half ranges are left in the head, or, if
    [stopc] is found closed at some round, by returning there.  Either way every query gives
    the same series with the same samples as before, however they are now divided between
    the blocks written and the head. *)
Theorem compact_head_keeps_answers {U W : Type} `{Countable U} (Compare : U -> U -> comparison) `{!CompareLaws Compare} `{WAL W}
    (Sum64 : list Z -> Z) (range : forall A, list A -> list A) (newUID : gmap U (files U) -> U) (ULID_String : U -> string) (ranges : list Z)
    (r0 : Z) (fuel : nat) (stopc : nat -> bool) (db : Db.DB (F := files U) (U := U) (D := pblock U) (H := Head W)) (A : contents) (vs : list (list (bseries XORChunk))) :
  (forall A (l : list A), range A l ≡ₚ l) -> (forall d, fresh_id (newUID d) d) ->
  db_state Compare Sum64 r0 db A vs ->
  (Z.to_nat (h_maxTime (db_head db) - h_minTime (db_head db)) < fuel)%nat ->
  exists db' A' vs' l, compact_head Compare fuel (LeveledCompactor Compare range newUID ULID_String ranges) stopc db = Ok (db', l) /\
    db_state Compare Sum64 r0 db' A' vs' /\
    match l with
    | Broke => h_maxTime (db_head db') - h_minTime (db_head db') <= Z.quot r0 2 * 3
    | Return e => e = None /\ exists n, stopc n = true
    end /\
    forall mint maxt ms, Forall (fun m => m_Name m <> EmptyString) ms -> ms <> [] ->
      exists l l', query_gives db mint maxt ms l /\ query_gives db' mint maxt ms l' /\ answered l' = answered l.
Proof.
  intros Hperm Hfresh Hst Hf. destruct (head_rounds Compare Sum64 range newUID ULID_String ranges Hperm Hfresh r0 (fun _ _ => True) fuel stopc db A vs ltac:(done) Hst I Hf)
    as (db' & A' & vs' & l0 & E & Hst' & _ & Hle & _ & _ & Hs).
  exists db', A', vs', l0. split; [done|]. split; [done|]. split; [done|]. intros mint maxt ms Hms Hne.
  pose proof (compactable_view Sum64 r0 _ _ (ds_head _ _ _ _ _ _ Hst) mint) as Hv.
  pose proof (compactable_view Sum64 r0 _ _ (ds_head _ _ _ _ _ _ Hst') mint) as Hv'.
  destruct (db_query Sum64 db vs A mint maxt ms (ds_views _ _ _ _ _ _ Hst) Hv Hms Hne) as (l & Hl & Hi & Hsam).
  destruct (db_query Sum64 db' vs' A' mint maxt ms (ds_views _ _ _ _ _ _ Hst') Hv' Hms Hne) as (l' & Hl' & Hi' & Hsam').
  exists l, l'. split; [done|]. split; [done|]. apply answered_eq; [done..|]. intros ls. rewrite Hsam, Hsam'. by rewrite Hs.
Qed.

Module HeadCompactExample.
Import HeadBlockExample.

Definition reqs : list (Labels * Buffer.sample) :=
  [([("a", "1")], (1, 1)); ([("a", "1")], (11, 2)); ([("a", "2")], (12, 5)); ([("a", "1")], (22, 3))]%string.

Definition head : Head (list (list Z)) := head_of 1 reqs.

Lemma head_rep : exists A, rep AppendExample.sum head A.
Proof.
  pose (start := EnsureOrder_head (mkHead 10 (Some ([] : list (list Z))) 1 1 0 [] ∅ ∅ ∅ ∅ NewUnorderedMemPostings NewMemTombstones)).
  assert (Hr : rep AppendExample.sum start ∅).
  { apply (EnsureOrder_rep AppendExample.sum). destruct (NewHead_rep AppendExample.sum (Some ([] : list (list Z))) 10) as (h & [= <-] & Hr); [unfold range_ok; lia|].
    exact (proj1 (with_times_rep AppendExample.sum _ ∅ 1 1) Hr). }
  assert (Hok : Forall request_ok reqs).
  { unfold request_ok, sample_ok, time_ok, is_u. repeat (constructor; [split; [decided|cbn; lia]|]). constructor. }
  pose proof (adds_ok AppendExample.sum _ _ _ _ _ _ reqs (appender_rep _ _ _ _ Hr AppendExample.empty_shows) Hok eq_refl) as Ha.
  pose proof (spec_adds_grows (ap_minValidTime (appender start)) ∅ reqs) as Hg.
  destruct (spec_adds _ ∅ reqs) as [[D1 taken] es]. destruct Ha as (h1 & A1 & a1 & Hadds & Ha1 & _), Hg as (Hlen & HD1 & Htaken).
  cbn [app length reqs] in Ha1, Hlen. destruct (Commit_ok _ _ _ _ _ _ _ Ha1) as (h2 & A2 & Hc & Hr2 & Hm).
  - rewrite Forall_forall in Hok, Htaken |- *. intros r Hin%Htaken. by apply Hok.
  - intros id c Hid. pose proof (proj2 (ar_shows _ _ _ _ _ _ _ Ha1 (fst c) (mjoin (chunked c)))) as Hs.
    specialize (Hs (ex_intro _ id (ex_intro _ c (conj Hid (conj eq_refl eq_refl))))).
    apply HD1 in Hs as [Hs|Hs]; [by rewrite lookup_empty in Hs|]. rewrite Hs. cbn. lia.
  - exists A2. unfold head, head_of. fold start. rewrite Hadds, Hc. done.
Qed.

(** A new database around a head. *)
Definition db_of (h : Head (list (list Z))) : Db.DB (F := files Z) (U := Z) (D := pblock Z) (H := Head (list (list Z))) :=
  mkDB (mkOptions 0 [10; 30]) ∅ [] h true.

Lemma db_of_state h A :
  compactable_head AppendExample.sum 10 h A -> 0 <= h_minTime h <= 2 ^ 60 -> h_minTime h <= h_maxTime h <= 2 ^ 60 ->
  db_state Z.compare AppendExample.sum 10 (db_of h) A [].
Proof.
  intros Hc Hmin Hmax. split; cbn [db_of db_opts db_disk db_blocks db_head o_RetentionDuration]; [|done| | |by split; constructor|by constructor|by constructor|done|lia].
  - split; cbn [db_of db_opts db_disk db_blocks db_head o_RetentionDuration hd_MinTime hd_MaxTime head_db_head].
    + by intros b ?%not_elem_of_nil.
    + intros k x Hk. by rewrite lookup_empty in Hk.
    + split; [done|]. unfold range_ok. lia.
    + lia.
    + lia.
  - by exists [].
  - intros k [x Hk]. by rewrite lookup_empty in Hk.
Qed.

Definition db := db_of head.

Definition name (u : Z) : string := String (Ascii.ascii_of_N (Z.to_N u)) EmptyString.

Definition leveled := LeveledCompactor (W := list (list Z)) Z.compare CompactorExample.keep (fun d => fresh (DbExample.ids d)) name [10; 30].

Lemma head_times : h_minTime head = 1 /\ h_maxTime head = 22.
Proof. split; vm_compute; reflexivity. Qed.

Lemma head_state : exists A, db_state Z.compare AppendExample.sum 10 db A [].
Proof.
  destruct head_rep as [A Hr], head_times as [E1 E2]. exists A. apply db_of_state; [|rewrite E1; lia|rewrite E1, E2; lia].
  apply heap_compactable; [exact Hr|vm_compute; reflexivity|vm_compute; reflexivity|unfold storable, in_one_range; decided|].
  apply Z.leb_le. vm_compute. reflexivity.
Qed.

Lemma few_rounds : (Z.to_nat (h_maxTime (db_head db) - h_minTime (db_head db)) < 30)%nat.
Proof. unfold db, db_of. cbn [db_head]. destruct head_times as [-> ->]. lia. Qed.

(** One block is written. *)
(** The database is not closed meanwhile. *)
Definition never (n : nat) : bool := false.

Lemma compacted db' l : compact_head Z.compare 30 leveled never db = Ok (db', l) -> length (db_blocks db') = 1%nat /\ h_minTime (db_head db') = 10.
Proof.
  intros E. pose proof (f_equal (fun r => match r with Ok (d, _) => (length (db_blocks d), h_minTime (db_head d)) | _ => (0%nat, 0) end) E) as E'.
  cbn beta iota in E'. assert (Ev : match compact_head Z.compare 30 leveled never db with Ok (d, _) => (length (db_blocks d), h_minTime (db_head d)) | _ => (0%nat, 0) end = (1%nat, 10)) by (vm_compute; reflexivity).
  rewrite Ev in E'. apply pair_equal_spec in E' as [E1 E2]. split; symmetry; [exact E1|exact E2].
Qed.
End HeadCompactExample.

Lemma compact_head_keeps_answers_witness :
  exists db' A' vs' l, compact_head Z.compare 30 HeadCompactExample.leveled HeadCompactExample.never HeadCompactExample.db = Ok (db', l) /\
    db_state Z.compare AppendExample.sum 10 db' A' vs' /\
    match l with
    | Broke => h_maxTime (db_head db') - h_minTime (db_head db') <= Z.quot 10 2 * 3
    | Return e => e = None /\ exists n, HeadCompactExample.never n = true
    end /\
    forall mint maxt ms, Forall (fun m => m_Name m <> EmptyString) ms -> ms <> [] ->
      exists l l', query_gives HeadCompactExample.db mint maxt ms l /\ query_gives db' mint maxt ms l' /\ answered l' = answered l.
Proof.
  destruct HeadCompactExample.head_state as [A Hst]. unfold HeadCompactExample.leveled.
  refine (compact_head_keeps_answers Z.compare AppendExample.sum CompactorExample.keep (fun d => fresh (DbExample.ids d)) HeadCompactExample.name [10; 30]
    10 30 HeadCompactExample.never HeadCompactExample.db A [] _ _ Hst HeadCompactExample.few_rounds).
  - done.
  - intros d. apply DbExample.ids_fresh.
Defined.

(** A query on the database after the compaction, with one block and a head. *)
Lemma db_Select_correct_witness :
  exists db vs A, length (db_blocks db) = 1%nat /\ h_minTime (db_head db) = 10 /\
    Forall2 block_view (db_blocks db) vs /\ head_view AppendExample.sum (db_head db) A 0 /\
    exists qs st l, db_Querier (U := Z) (W := list (list Z)) db 0 30 = Ok qs /\
      SeriesSets.Select (It := db_iterator) qs [EqualMatcher "a" "1"]%string = Ok st /\ set_yields (It := db_iterator) st l /\
      increasing fst labels_cmp l /\
      (forall e, e ∈ l -> sel_Matches [EqualMatcher "a" "1"]%string (fst e) = true /\ snd e = db_samples (db_head db) vs A 0 30 (fst e)) /\
      (forall ls, sel_Matches [EqualMatcher "a" "1"]%string ls = true -> db_samples (db_head db) vs A 0 30 ls <> [] -> ls ∈ fst <$> l) /\
      forall s e, denotes s e -> exists it, s_Iterator s = Ok it /\ yields it (snd e).
Proof.
  destruct HeadCompactExample.head_state as [A0 Hst].
  destruct (head_rounds Z.compare AppendExample.sum CompactorExample.keep (fun d => fresh (DbExample.ids d)) HeadCompactExample.name [10; 30]
    (fun _ _ => Permutation_refl _) DbExample.ids_fresh 10 (fun _ _ => True) 30 HeadCompactExample.never HeadCompactExample.db A0 [] ltac:(done) Hst I) as (db' & A & vs & l & E & Hst' & _).
  { exact HeadCompactExample.few_rounds. }
  destruct (HeadCompactExample.compacted db' l E) as [E1 E2].
  assert (Hv : head_view AppendExample.sum (db_head db') A 0) by exact (compactable_view _ _ _ _ (ds_head _ _ _ _ _ _ Hst') 0).
  exists db', vs, A. split; [exact E1|]. split; [exact E2|]. split; [exact (ds_views _ _ _ _ _ _ Hst')|]. split; [exact Hv|].
  apply (db_Select_correct AppendExample.sum db' vs A 0 30 [EqualMatcher "a" "1"]%string (ds_views _ _ _ _ _ _ Hst') Hv).
  - decided.
  - discriminate.
Defined.
