(* ===== verification/DbCompact.v ===== *)
(** db.go, compact: the second loop, which merges blocks as the leveled compactor plans,
    ends and changes no answer.  HeadCompact has the same for the first loop, over the head. *)
From stdpp Require Import pretty.
From S2P Require Import Prelude Bits BitStream Order EncBuf Labels Tombstones Records Postings PostingsSpec MemPostings XorChunk Chunks Buffer SeriesIter SeriesSets Querier MemSeries Head HeadInv HeadAppend HeadQuery HeadGc Plan PlanSpec Db DbSpec Compaction CompactSpec IndexFile IndexSpec Blocks DbQuery Compactor CompactorSpec HeadBlock Database HeadCompact.
#[local] Open Scope list_scope.
#[local] Open Scope Z_scope.

(** Without tombstones a block is not rewritten. *)
Lemma no_stones_few st : NumTombstones st = 0 -> many_tombstones st = false.
Proof.
  intros E. unfold many_tombstones. rewrite E. change (float_of 0) with (SpecFloat.S754_zero false).
  by destruct (float_of (u64 (NumSeries st + 1))) as [[]|[]| |[]].
Qed.

(** * Blocks without deletions *)

Abbreviation file_source := (CompactSpec.source IndexFile.Reader XORChunk Chunks.Reader memTombstones).

(** The chunk's times are those of its samples. *)
Definition tight (t t' : Z) (l : list Buffer.sample) : Prop := l <> [] /\ span l = (t, t').

Section Whole.
Context {U : Type} `{Countable U}.
Implicit Types (D : gmap U (files U)) (b : Db.Block U (pblock U)) (s : file_source).

(** The block in memory is what opening its directory gives: a sound source without
    deletions. *)
Record whole_block D b s : Prop := {
  wb_disk : disk_block D (bm_ULID (blk_meta b)) (blk_meta b) s;
  wb_open : exists f, D !! bm_ULID (blk_meta b) = Some f /\ OpenBlock f = Ok (blk_data b);
  wb_undeleted : undeleted tight [s];
  wb_sorted : Forall (fun x => increasing_times (mjoin (snd <$> b_chunks x))) (src_series s);
}.

Lemma open_not_closing (f : files U) pb : OpenBlock f = Ok pb -> pb_closing pb = false.
Proof using Type.
  unfold OpenBlock. intros (m & _ & (cr & _ & (ir & _ & (tr & _ & [= <-])%res_bind_ok)%res_bind_ok)%res_bind_ok)%res_bind_ok. done.
Qed.

Lemma whole_readers D b s : whole_block D b s ->
  pb_closing (blk_data b) = false /\ pb_indexr (blk_data b) = src_index s /\ pb_chunkr (blk_data b) = src_chunks s /\
  pb_tombstones (blk_data b) = src_tombstones s.
Proof using Type.
  intros [[(f & pb & Hf & Ho & _ & Hr) _ _ _] (f' & Hf' & Ho') _ _]. assert (f' = f) as -> by congruence.
  assert (pb = blk_data b) as -> by congruence. pose proof (open_not_closing f _ Ho') as Hc.
  unfold block_readers in Hr. rewrite Hc in Hr. by injection Hr.
Qed.

Lemma whole_view D b s : whole_block D b s -> block_view b (src_series s).
Proof using Type.
  intros Hb. destruct (whole_readers D b s Hb) as (Hc & Ei & Ec & Et). destruct Hb as [[_ [_ Hix Hin Hnd _] _ [Hlo Hhi]] _ Hu Hs].
  apply Forall_inv in Hu. rewrite Forall_forall in Hin. rewrite Forall_forall in Hu. rewrite Forall_forall in Hs. split; [done|by rewrite Ei| |done|].
  - rewrite Ei, Ec, Et. apply Forall_forall. intros x Hx. destruct (Hin x Hx) as [H1' H2' H3' _ H5']. split; [done..| |by apply Hs].
    destruct (Hu x Hx) as [Hivs Ht]. rewrite Forall_forall in H5', Ht. apply Forall_forall. intros cl Hcl.
    destruct (H5' cl Hcl) as (_ & k & Hk & (it & Hit & Hg) & _). split; [by exists k, it|]. split; [by apply Ht|]. right. by rewrite Hivs.
  - apply Forall_forall. intros x Hx. destruct (Hin x Hx) as [_ _ _ _ Hch].
    apply Forall_forall. intros y (l & Hy & (cl & -> & Hcl)%list_elem_of_fmap)%list_elem_of_join. rewrite Forall_forall in Hch.
    destruct (Hch cl Hcl) as ([Ht [? ?] _ _ _ _] & _). rewrite Forall_forall in Ht. specialize (Ht y Hy). lia.
Qed.

Lemma whole_other D D' b s : D' !! bm_ULID (blk_meta b) = D !! bm_ULID (blk_meta b) -> whole_block D b s -> whole_block D' b s.
Proof using Type.
  intros E [[Hf ? ? ?] Ho ? ?]. split; [split|..]; [by rewrite E|done..|by rewrite E|done|done].
Qed.

(** The samples of a series of a block come in order and lie in its times. *)
Lemma whole_samples D b s ls : whole_block D b s ->
  increasing_times (series_samples (src_series s) ls) /\
  Forall (fun x => bm_MinTime (blk_meta b) <= fst x < bm_MaxTime (blk_meta b)) (series_samples (src_series s) ls).
Proof using Type.
  intros Hb. pose proof (whole_view D b s Hb) as [_ _ _ _ Ht]. pose proof (wb_sorted _ _ _ Hb) as Hs. unfold series_samples.
  destruct (list_find _ (src_series s)) as [[i x]|] eqn:Ef; [|by split; constructor]. cbn [fmap option_fmap option_map snd].
  apply list_find_Some in Ef as (Hx%list_elem_of_lookup_2 & _). rewrite Forall_forall in Ht. rewrite Forall_forall in Hs.
  unfold kept. split; [by apply StronglySorted_filter, Hs|by apply Forall_filter_weaken, Ht].
Qed.

(** The blocks of [bs] together. *)
Lemma sequence_samples D bs ss ls : Forall2 (whole_block D) bs ss -> in_sequence (blk_meta <$> bs) ->
  increasing_times (mjoin ((fun s => series_samples (src_series s) ls) <$> ss)) /\
  forall t, Forall (fun b => t <= bm_MinTime (blk_meta b)) bs -> Forall (fun x => t <= fst x) (mjoin ((fun s => series_samples (src_series s) ls) <$> ss)).
Proof using Type.
  induction 1 as [|b s bs ss Hb _ IH]; intros Hq; [by split; [|intros]; constructor|]. rewrite fmap_cons in Hq. destruct Hq as [Hok Hs].
  apply Forall_cons in Hok as [Hok1 Hok]. apply StronglySorted_inv in Hs as [Hs Hlt]. destruct (IH (conj Hok Hs)) as [Hi Hge].
  rewrite fmap_cons, join_cons. destruct (whole_samples D b s ls Hb) as [Hi1 Hr1]. rewrite Forall_fmap in Hlt. split.
  - apply StronglySorted_app. split; [|by split]. intros x y Hx Hy. rewrite Forall_forall in Hr1. specialize (Hr1 x Hx). cbn beta in Hr1.
    specialize (Hge (bm_MaxTime (blk_meta b)) Hlt). rewrite Forall_forall in Hge. specialize (Hge y Hy). lia.
  - intros t Ht. apply Forall_cons in Ht as [Ht1 Ht]. apply Forall_app. split; [|by apply Hge]. eapply Forall_impl; [exact Hr1|]. cbn. lia.
Qed.

(** A new block with its samples in order. *)
Lemma new_block_whole {IX C CR TR} D meta (ss : list (CompactSpec.source IX C CR TR)) f pb nbs stats :
  let b := Db.mkBlock (with_stats meta stats) pb in
  new_block meta (bm_MinTime meta) (bm_MaxTime meta - 1) ss f pb nbs stats -> D !! bm_ULID meta = Some f ->
  undeleted tight ss -> (forall ls, increasing_times (merged_samples ss ls)) ->
  whole_block D b (block_source (bm_MinTime meta) (bm_MaxTime meta - 1) (⋃ (src_symbols <$> ss)) nbs pb).
Proof using Type.
  intros b Hn Hf Hu Hinc. pose proof (nb_undeleted _ _ _ _ _ _ _ _ Hn _ Hu) as Ht. pose proof (nb_ivs _ _ _ _ _ _ _ _ Hn) as Hivs.
  pose proof (nb_source _ _ _ _ _ _ _ _ Hn) as [_ _ _ Hnd _]. cbn [src_series block_source] in Hnd. split.
  - pose proof (new_block_on_disk D meta ss f pb nbs stats Hn) as Hd. by rewrite insert_id in Hd.
  - exists f. split; [done|]. apply Hn.
  - apply Forall_singleton, Forall_forall. cbn [src_series block_source]. intros x Hx. rewrite Forall_forall in Ht, Hivs. split; [by apply Hivs|by apply Ht].
  - cbn [src_series block_source]. apply Forall_forall. intros x Hx. rewrite Forall_forall in Hivs.
    assert (E : mjoin (snd <$> b_chunks x) = series_samples nbs (b_lset x)) by (rewrite series_samples_of by done; by rewrite (Hivs x Hx), kept_none).
    by rewrite E, (nb_samples _ _ _ _ _ _ _ _ Hn).
Qed.

(** The block that a merge writes. *)
Lemma new_whole D D0 meta (ss : list file_source) f pb nbs stats bs :
  let b := Db.mkBlock (with_stats meta stats) pb in
  new_block meta (bm_MinTime meta) (bm_MaxTime meta - 1) ss f pb nbs stats -> D !! bm_ULID meta = Some f ->
  undeleted tight ss -> Forall2 (whole_block D0) bs ss -> in_sequence (blk_meta <$> bs) ->
  whole_block D b (block_source (bm_MinTime meta) (bm_MaxTime meta - 1) (⋃ (src_symbols <$> ss)) nbs pb).
Proof using Type.
  intros b Hn Hf Hu Hbs Hq. apply (new_block_whole D meta ss f pb nbs stats Hn Hf Hu). intros ls. unfold merged_samples. by apply (sequence_samples D0 bs ss).
Qed.
End Whole.

(** * Planning *)

Section Planning.
Context {U W : Type} `{Countable U} (Compare : U -> U -> comparison) `{WW : WAL W} (ULID_String : U -> string) (Hname : forall u v, ULID_String u = ULID_String v -> u = v).
Implicit Types (D : gmap U (files U)) (bs : list (Db.Block U (pblock U))) (ss : list file_source).

Definition block_id (b : Db.Block U (pblock U)) : U := bm_ULID (blk_meta b).
Definition dm_of (b : Db.Block U (pblock U)) : @dirMeta U := mkDirMeta (ULID_String (block_id b)) (blk_meta b).
Definition dir_meta (e : U * files U) : list (@dirMeta U) :=
  match de_meta (D := pblock U) (snd e) with Some m => [mkDirMeta (ULID_String (fst e)) m] | None => [] end.

(** The directories are those of the blocks. *)
Lemma dirs_blocks D bs ss : Forall2 (whole_block D) bs ss -> NoDup (block_id <$> bs) -> (forall k, is_Some (D !! k) -> k ∈ block_id <$> bs) ->
  (blockDirs Compare D).*1 ≡ₚ block_id <$> bs /\ blockDirs Compare D ≫= dir_meta ≡ₚ dm_of <$> bs /\
  Forall (fun e => is_Some (de_meta (D := pblock U) (snd e))) (blockDirs Compare D).
Proof using Type.
  intros Hb Hnd Hall. set (es := omap (fun b => (fun f => (block_id b, f)) <$> D !! block_id b) bs).
  assert (Hf : forall b, b ∈ bs -> exists f, D !! block_id b = Some f /\ readMetaFile f = Ok (blk_meta b)).
  { intros b [i Hi]%list_elem_of_lookup. destruct (Forall2_lookup_l _ _ _ _ _ Hb Hi) as (s & _ & [[(f & pb & E & _ & Em & _) _ _ _] _ _ _]). by exists f. }
  assert (E1 : es.*1 = block_id <$> bs /\ es ≫= dir_meta = dm_of <$> bs).
  { unfold es. clear - Hf. induction bs as [|b bs IH]; [done|]. destruct (Hf b ltac:(left)) as (f & E & Em). cbn [omap list_omap]. rewrite E. cbn [fmap option_fmap option_map].
    destruct IH as [E1 E2]; [intros; apply Hf; by right|]. split; [rewrite !fmap_cons; by f_equal|]. rewrite bind_cons, fmap_cons. unfold dir_meta at 1. cbn [snd de_meta files_dir]. rewrite Em. cbn [app]. f_equal. exact E2. }
  assert (Hp : blockDirs Compare D ≡ₚ es).
  { unfold blockDirs. rewrite (sort_by_perm fst Compare). apply NoDup_Permutation; [apply NoDup_map_to_list|apply (NoDup_fmap_1 fst); by rewrite (proj1 E1)|].
    intros [k f]. rewrite elem_of_map_to_list. unfold es. rewrite list_elem_of_omap. split.
    - intros Hk. destruct (proj1 (list_elem_of_fmap _ _ _) (Hall k (ex_intro _ f Hk))) as (b & -> & Hin). exists b. split; [done|]. by rewrite Hk.
    - intros (b & Hin & E). destruct (D !! block_id b) as [f'|] eqn:Ef; [|done]. by injection E as <- <-. }
  destruct E1 as [E1 E2]. split; [by rewrite Hp, E1|]. split; [by rewrite Hp, E2|]. apply Forall_forall. intros e He. rewrite Hp in He. unfold es in He.
  apply list_elem_of_omap in He as (b & Hin & E). destruct (Hf b Hin) as (f & Ef & Em). rewrite Ef in E. injection E as <-. cbn [snd de_meta files_dir]. rewrite Em. by eexists.
Qed.

Lemma Plan_dirs ranges (es : list (U * files U)) : es <> [] -> Forall (fun e => is_Some (de_meta (D := pblock U) (snd e))) es ->
  Plan ranges ((fun e => (ULID_String (fst e), de_meta (snd e))) <$> es) = plan ranges (es ≫= dir_meta).
Proof using Type.
  intros Hne He. unfold Plan. rewrite length_fmap. destruct es as [|e es]; [done|]. cbn [length Nat.ltb Nat.leb].
  set (step := fun (d : string * option (BlockMeta U)) r => _). assert (E : forall l, Forall (fun e => is_Some (de_meta (D := pblock U) (snd e))) l ->
    foldr step (Ok []) ((fun e => (ULID_String (fst e), de_meta (D := pblock U) (snd e))) <$> l) = Ok (l ≫= dir_meta)); [|by rewrite E].
  induction 1 as [|x l [m Hm] _ IH]; [done|]. rewrite fmap_cons, bind_cons. cbn [foldr]. rewrite IH. unfold step. unfold dir_meta at 2. cbn [snd fst]. rewrite Hm. done.
Qed.

Lemma leveled_Plan_ok ranges D bs ss :
  Forall small_range ranges -> ranges <> [] -> Forall2 (whole_block D) bs ss -> in_sequence (blk_meta <$> bs) ->
  NoDup (block_id <$> bs) -> (forall k, is_Some (D !! k) -> k ∈ block_id <$> bs) -> Forall (fun b => NumTombstones (bm_Stats (blk_meta b)) = 0) bs ->
  exists pre sel post, leveled_Plan Compare ULID_String ranges D = Ok (block_id <$> sel) /\ bs = pre ++ sel ++ post /\
    (sel = [] \/ ((1 < length sel)%nat /\ post <> [])).
Proof using Hname.
  intros Hr Hrne Hb Hq Hnd Hall Hst. destruct (dirs_blocks D bs ss Hb Hnd Hall) as (Hp1 & Hp2 & Hsome). unfold leveled_Plan.
  destruct (decide (bs = [])) as [->|Hne]; [|destruct (exists_last Hne) as (binit & blast & ->)].
  { exists [], [], []. assert (E : blockDirs Compare D = []) by (apply (fmap_nil_inv fst), Permutation_nil_r; exact Hp1). rewrite E. split; [done|]. by split; [|left]. }
  rewrite Plan_dirs; [|intros E; rewrite E in Hp1; symmetry in Hp1; apply Permutation_nil_r, fmap_nil_inv in Hp1; by destruct binit|done].
  assert (Es : sort_by dm_min Z.compare (blockDirs Compare D ≫= dir_meta) = (dm_of <$> binit) ++ [dm_of blast]).
  { change [dm_of blast] with (dm_of <$> [blast]). rewrite <- fmap_app. apply (sort_by_unique dm_min Z.compare); [|exact Hp2].
    pose proof (sequence_increasing (binit ++ [blast]) Hq) as Hi. revert Hi. unfold increasing. generalize (binit ++ [blast]) as l.
    induction l as [|b l IH]; intros Hi; [constructor|]. apply StronglySorted_inv in Hi as [Hi Hf]. rewrite fmap_cons. constructor; [by apply IH|].
    rewrite Forall_fmap. exact Hf. }
  assert (Hok : Forall (fun d => PlanSpec.meta_ok (dm_meta d)) (dm_of <$> binit)).
  { destruct Hq as [Hok _]. rewrite fmap_app, Forall_app in Hok. destruct Hok as [Hok _]. rewrite Forall_fmap in Hok. apply Forall_fmap. exact Hok. }
  destruct (plan_selects ranges _ _ _ Hr Hrne Hok Es) as (sel & pre & post & -> & Ei & Hsel). cbn [res_bind].
  apply fmap_app_inv in Ei as (bpre & brest & -> & Ei & ->). symmetry in Ei. apply fmap_app_inv in Ei as (bsel & bpost & -> & -> & ->).
  exists bpre, bsel, (bpost ++ [blast]). split; [|split].
  - f_equal. rewrite <- list_fmap_compose. assert (Hin : forall b, b ∈ bsel -> block_id b ∈ (blockDirs Compare D).*1).
    { intros b Hin. rewrite Hp1. apply list_elem_of_fmap_2. rewrite !elem_of_app. tauto. }
    clear - Hin Hname. induction bsel as [|b bsel IH]; [done|]. rewrite !fmap_cons. cbn [omap list_omap compose dm_of dm_dir].
    specialize (IH ltac:(intros; apply Hin; by right)).
    destruct (list_find (fun e => ULID_String (fst e) = ULID_String (block_id b)) (blockDirs Compare D)) as [[i e]|] eqn:Ef.
    + apply list_find_Some in Ef as (_ & E & _). apply Hname in E. cbn [fmap option_fmap option_map compose fst snd]. rewrite E. f_equal. exact IH.
    + exfalso. apply list_find_None in Ef. destruct (proj1 (list_elem_of_fmap _ _ _) (Hin b ltac:(left))) as (e & E & He).
      rewrite Forall_forall in Ef. apply (Ef e He). by rewrite E.
  - by rewrite <- !(assoc_L (++)).
  - destruct Hsel as [E|[(iv & w & _ & Hl & _)|(d & E & Hm)]].
    + left. by apply fmap_nil_inv in E.
    + right. rewrite length_fmap in Hl. split; [done|]. by destruct bpost.
    + exfalso. destruct bsel as [|b [|]]; [done| |done]. injection E as <-. cbn [dm_of dm_meta] in Hm. rewrite no_stones_few in Hm; [done|].
      rewrite Forall_forall in Hst. apply Hst. rewrite !elem_of_app, list_elem_of_singleton. tauto.
Qed.
End Planning.

(** * Merging blocks *)

Lemma clip_join a b (ls : list (list Buffer.sample)) : clip a b (mjoin ls) = mjoin (clip a b <$> ls).
Proof. induction ls as [|l ls IH]; [done|]. rewrite fmap_cons, !join_cons, clip_app, IH. done. Qed.

Lemma fits_part (s1 s2 s3 : list file_source) : fits_block (s1 ++ s2 ++ s3) -> fits_block s2.
Proof.
  intros [F1 F2]. unfold fits_block, index_need in *. rewrite !fmap_app, !join_app, !zsum_app, !union_list_app_L in F2. split.
  - intros ls. specialize (F1 ls). rewrite !fmap_app, !join_app in F1. unfold chunks_of in *. rewrite !filter_app, !zsum_app in F1.
    assert (Hnn : forall bs : list (bseries XORChunk), 0 <= zsum (fun b => zlen (b_chunks b)) bs) by (intros; apply zsum_nonneg; intros; apply zlen_nonneg).
    pose proof (Hnn (filter (fun b => b_lset b = ls) (mjoin (series_of <$> s1)))). pose proof (Hnn (filter (fun b => b_lset b = ls) (mjoin (series_of <$> s3)))). lia.
  - assert (Hnn : forall bs : list (bseries XORChunk), 0 <= zsum bseries_need bs).
    { intros bs. apply zsum_nonneg. intros b. unfold bseries_need, series_need. pose proof (zlen_nonneg (b_lset b)). pose proof (zlen_nonneg (b_chunks b)).
      assert (0 <= zsum label_need (b_lset b)); [|lia]. apply zsum_nonneg. intros l. unfold label_need, str_cost.
      pose proof (zlen_nonneg (string_bytes (fst l))). pose proof (zlen_nonneg (string_bytes (snd l))). lia. }
    pose proof (Hnn (mjoin (series_of <$> s1))). pose proof (Hnn (mjoin (series_of <$> s3))).
    assert (zsum str_cost (elements (⋃ (src_symbols <$> s2))) <= zsum str_cost (elements (⋃ (src_symbols <$> s1) ∪ (⋃ (src_symbols <$> s2) ∪ ⋃ (src_symbols <$> s3)))));
      [|lia]. apply zsum_elements; [intros x; unfold str_cost; pose proof (zlen_nonneg (string_bytes x)); lia|set_solver].
Qed.

Lemma whole_tuples {U} `{Countable U} (D : gmap U (files U)) bs (ss : list file_source) : Forall2 (whole_block D) bs ss ->
  exists l : list (U * BlockMeta U * file_source), fst ∘ fst <$> l = block_id <$> bs /\ snd ∘ fst <$> l = blk_meta <$> bs /\ snd <$> l = ss /\
    Forall (fun b => disk_block D (fst (fst b)) (snd (fst b)) (snd b)) l.
Proof.
  induction 1 as [|b s bs ss Hb _ (l & E1 & E2 & E3 & Hl)]; [by exists []|]. exists ((block_id b, blk_meta b, s) :: l).
  rewrite !fmap_cons, E1, E2, E3. split_and!; [done..|]. constructor; [apply Hb|done].
Qed.

Section Rounds.
Context {U W : Type} `{Countable U} (Compare : U -> U -> comparison) `{!CompareLaws Compare} `{WW : WAL W} (Sum64 : list Z -> Z).
Context (range : forall A, list A -> list A) (newUID : gmap U (files U) -> U) (ULID_String : U -> string) (ranges : list Z).
Context (Hperm : forall A (l : list A), range A l ≡ₚ l) (Hfresh : forall d, fresh_id (newUID d) d).
Context (Hname : forall u v, ULID_String u = ULID_String v -> u = v) (Hranges : Forall small_range ranges) (Hrne : ranges <> []).
Abbreviation DB := (Db.DB (F := files U) (U := U) (D := pblock U) (H := Head W)).
Abbreviation compactor := (LeveledCompactor (W := W) Compare range newUID ULID_String ranges).
Abbreviation db_state := (db_state Compare Sum64).
Implicit Types (db : DB) (ss : list file_source) (bs : list (Db.Block U (pblock U))).

(** The blocks that are loaded are these. *)
Lemma live_intro db bs :
  (forall b, b ∈ bs -> ~ obsolete db (block_id b) /\ exists x, db_disk db !! block_id b = Some x /\ loads db (block_id b, x) b) ->
  NoDup (block_id <$> bs) -> (forall k, is_Some (db_disk db !! k) -> ~ obsolete db k -> k ∈ block_id <$> bs) ->
  in_sequence (blk_meta <$> bs) -> DbSpec.live Compare db bs.
Proof using CompareLaws0.
  intros Hb Hnd Hall Hq. set (es := omap (fun b => (fun x => (block_id b, x)) <$> db_disk db !! block_id b) bs).
  assert (Hes : es.*1 = block_id <$> bs /\ Forall2 (loads db) es bs).
  { unfold es. clear - Hb. induction bs as [|b bs IH]; [by split; constructor|]. destruct (Hb b ltac:(left)) as (_ & x & E & Hl). cbn [omap list_omap].
    rewrite E. cbn [fmap option_fmap option_map]. destruct IH as [E1 E2]; [intros; apply Hb; by right|]. split; [rewrite !fmap_cons; by f_equal|by constructor]. }
  destruct Hes as [E1 E2]. assert (Hp : es ≡ₚ filter (fun e => ~ obsolete db (fst e)) (blockDirs Compare (db_disk db))).
  { apply NoDup_Permutation; [apply (NoDup_fmap_1 fst); by rewrite E1| |].
    - apply NoDup_filter. unfold blockDirs. rewrite (sort_by_perm fst Compare). apply NoDup_map_to_list.
    - intros [k x]. rewrite list_elem_of_filter, (elem_of_dirs Compare). cbn [fst snd]. unfold es. rewrite list_elem_of_omap. split.
      + intros (b & Hin & E). destruct (Hb b Hin) as (Ho & y & Ey & _). rewrite Ey in E. by injection E as <- <-.
      + intros [Ho Hx]. destruct (proj1 (list_elem_of_fmap _ _ _) (Hall k (ex_intro _ x Hx) Ho)) as (b & -> & Hin). exists b. split; [done|]. by rewrite Hx. }
  destruct (Permutation_Forall2 Hp E2) as (bs0 & Hp0 & Hl). exists bs0. split; [exact Hl|]. symmetry.
  apply (sort_by_unique blk_min Z.compare); [by apply sequence_increasing|]. by symmetry.
Qed.

Record tidy db ss : Prop := {
  td_blocks : Forall2 (whole_block (db_disk db)) (db_blocks db) ss;
  td_stones : Forall (fun b => NumTombstones (bm_Stats (blk_meta b)) = 0) (db_blocks db);
}.

(** Each directory has its block in memory. *)
Lemma state_ids r0 db A vs : db_state r0 db A vs ->
  NoDup (block_id <$> db_blocks db) /\ forall k, is_Some (db_disk db !! k) -> k ∈ block_id <$> db_blocks db.
Proof using CompareLaws0.
  intros Hst. destruct (ds_live _ _ _ _ _ _ Hst) as (bs0 & Hl & Eb). rewrite (all_current Compare db) in Hl by apply Hst.
  pose proof (loads_ids db (blockDirs Compare (db_disk db)) bs0) as Hids.
  assert (E : block_id <$> bs0 = (blockDirs Compare (db_disk db)).*1).
  { apply Hids; [intros b Hb; by apply (st_mem _ _ (ds_settled _ _ _ _ _ _ Hst) b Hb)| |done].
    apply Forall_forall. intros [k x] He%(elem_of_dirs Compare) m Hm. by apply (st_disk _ _ (ds_settled _ _ _ _ _ _ Hst) k x). }
  assert (Hp : block_id <$> db_blocks db ≡ₚ (blockDirs Compare (db_disk db)).*1) by (rewrite Eb, (sort_by_perm blk_min Z.compare), E; done).
  split.
  - rewrite Hp. unfold blockDirs. rewrite (sort_by_perm fst Compare). apply NoDup_fst_map_to_list.
  - intros k [x Hx]. rewrite Hp. apply (list_elem_of_fmap_2 fst _ (k, x)). by apply (elem_of_dirs Compare).
Qed.

(** What a merge leaves of the blocks in memory and on disk. *)
Section Merge.
Context (r0 : Z) db (A : contents) (spre ssel spost : list file_source) (pre sel post : list (Db.Block U (pblock U))).
Context (Hst : db_state r0 db A (src_series <$> (spre ++ ssel ++ spost))) (Hst0 : Forall (fun b => NumTombstones (bm_Stats (blk_meta b)) = 0) (db_blocks db)).
Context (Hblocks : db_blocks db = pre ++ sel ++ post) (Hpost : post <> []).
Context (Hbpre : Forall2 (whole_block (db_disk db)) pre spre) (Hbsel : Forall2 (whole_block (db_disk db)) sel ssel).
Context (Hbpost : Forall2 (whole_block (db_disk db)) post spost).
Let uid : U := newUID (db_disk db).
Context (f : files U) (meta : BlockMeta U) (pb : pblock U) (nbs : list (bseries XORChunk)) (stats : BlockStats) (Hmeta : compactBlockMetas Compare uid (blk_meta <$> sel) = Ok meta).
Context (Hnew : new_block meta (bm_MinTime meta) (bm_MaxTime meta - 1) ssel f pb nbs stats) (Hsel : sel <> []).
Let db1 : DB := with_disk db (<[uid := f]> (db_disk db)).
Let m := with_stats meta stats.
Let nb : Db.Block U (pblock U) := Db.mkBlock m pb.
Let bs2 := pre ++ nb :: post.
Let s2 : file_source := block_source (bm_MinTime meta) (bm_MaxTime meta - 1) (⋃ (src_symbols <$> ssel)) nbs pb.
Let ss2 := spre ++ s2 :: spost.

Lemma merge_meta : bm_ULID m = uid /\ PlanSpec.meta_ok m /\ bd_ULID <$> cp_Parents (bm_Compaction m) = block_id <$> sel /\
  in_sequence (blk_meta <$> bs2) /\ exists a, a ∈ sel /\ bm_MaxTime m = bm_MaxTime (blk_meta a).
Proof using All.
  pose proof (ds_sequence _ _ _ _ _ _ Hst) as Hq. rewrite Hblocks, !fmap_app in Hq.
  assert (Hqs : in_sequence (blk_meta <$> sel)) by (apply in_sequence_app in Hq as (_ & (Hms & _)%in_sequence_app & _); done).
  destruct (compactBlockMetas_ok Compare uid (blk_meta <$> sel)) as (meta' & E & Eid & Hok & _ & Hmin & Hmax & Hpar & _); [by destruct sel|done|].
  rewrite Hmeta in E. injection E as <-. split; [done|]. split; [done|]. split; [|split].
  - cbn [m with_stats bm_Compaction]. rewrite Hpar. by rewrite <- !list_fmap_compose.
  - unfold bs2. rewrite fmap_app, fmap_cons. by eapply in_sequence_replace.
  - destruct Hmax as (a & (b & -> & Hb)%list_elem_of_fmap & E). by exists b.
Qed.

Lemma ids_split : NoDup (block_id <$> pre ++ sel ++ post) /\ db_disk db !! uid = None /\ uid ∉ block_id <$> pre ++ sel ++ post /\
  forall k, is_Some (db_disk db !! k) -> k ∈ block_id <$> pre ++ sel ++ post.
Proof using All.
  destruct (state_ids _ _ _ _ Hst) as [Hnd Hall]. rewrite Hblocks in *. pose proof (proj1 (Hfresh (db_disk db))) as Hu. fold uid in Hu.
  split; [done|]. split; [done|]. split; [|done]. intros (b & E & Hb)%list_elem_of_fmap. rewrite <- Hblocks in Hb.
  destruct (st_mem _ _ (ds_settled _ _ _ _ _ _ Hst) b Hb) as ([x Hx] & _). unfold block_id in E. rewrite <- E, Hu in Hx. done.
Qed.

Lemma merge_meta_on_disk k x : db_disk db1 !! k = Some x -> exists m', de_meta (D := pblock U) x = Some m' /\ bm_ULID m' = k /\ PlanSpec.meta_ok m' /\
  ((k = uid /\ x = f /\ m' = m) \/ (k <> uid /\ db_disk db !! k = Some x)).
Proof using All.
  destruct merge_meta as (Eid & Hok & _). cbn [db1 with_disk db_disk]. intros [[<- <-]|[Hne Hk]]%lookup_insert_Some.
  - exists m. cbn [de_meta files_dir]. rewrite (proj1 (nb_meta _ _ _ _ _ _ _ _ Hnew)). split_and!; [done..|]. left. done.
  - destruct ids_split as (_ & _ & _ & Hall). destruct (proj1 (list_elem_of_fmap _ _ _) (Hall k (ex_intro _ x Hk))) as (b & -> & Hb).
    assert (Hw : Forall2 (whole_block (db_disk db)) (pre ++ sel ++ post) (spre ++ ssel ++ spost)) by by repeat apply Forall2_app.
    apply list_elem_of_lookup in Hb as [i Hi]. destruct (Forall2_lookup_l _ _ _ _ _ Hw Hi) as (s & _ & [[(g & pb' & Eg & _ & Em & _) _ _ _] _ _ _]).
    unfold block_id in Hk. rewrite Eg in Hk. injection Hk as <-. exists (blk_meta b). cbn [de_meta files_dir]. rewrite Em. split; [done|]. split; [done|]. split.
    + apply list_elem_of_lookup_2 in Hi. rewrite <- Hblocks in Hi. by destruct (st_mem _ _ (ds_settled _ _ _ _ _ _ Hst) b Hi) as (_ & ? & _).
    + right. split; [congruence|done].
Qed.

(** Of the directories just those of the merged blocks are obsolete. *)
Lemma merge_obsolete k : is_Some (db_disk db1 !! k) -> obsolete db1 k <-> k ∈ block_id <$> sel.
Proof using All.
  intros Hk. destruct merge_meta as (Eid & _ & Hpar & _). pose proof (ds_retention _ _ _ _ _ _ Hst) as Hret. split.
  - intros (k' & x & m' & Hx & Hm' & Ho). rewrite no_retention in Ho by done.
    destruct (merge_meta_on_disk k' x Hx) as (m2 & Em2 & _ & _ & [(-> & -> & ->)|[Hne Hd]]); rewrite Hm' in Em2; injection Em2 as <-; [by rewrite <- Hpar|].
    exfalso. destruct (decide (k = uid)) as [->|Hku]; [by apply (proj2 (Hfresh (db_disk db)) k' x m')|].
    cbn [db1 with_disk db_disk] in Hk. rewrite lookup_insert_ne in Hk by done. apply (ds_current _ _ _ _ _ _ Hst k Hk). exists k', x, m'.
    split; [done|]. split; [done|]. by rewrite no_retention.
  - intros Hin. exists uid, f, m. split; [apply lookup_insert_eq|]. cbn [de_meta files_dir]. rewrite (proj1 (nb_meta _ _ _ _ _ _ _ _ Hnew)). split; [done|].
    rewrite no_retention by done. by rewrite Hpar.
Qed.

Lemma merge_kept b : b ∈ pre ++ post -> block_id b ∉ block_id <$> sel /\ block_id b <> uid /\ getBlock db1 (block_id b) = Some b /\
  exists x, db_disk db !! block_id b = Some x /\ de_meta (D := pblock U) x = Some (blk_meta b).
Proof using All.
  intros Hb. destruct ids_split as (Hnd & _ & Hu & _). assert (Hin : b ∈ pre ++ sel ++ post) by (rewrite !elem_of_app in *; tauto).
  split; [|split; [|split]].
  - rewrite !fmap_app in Hnd. apply NoDup_app in Hnd as (_ & Hn1 & (_ & Hn2 & _)%NoDup_app). intros Hs.
    apply elem_of_app in Hb as [Hb|Hb]; apply (list_elem_of_fmap_2 block_id) in Hb; [apply (Hn1 _ Hb); apply elem_of_app; by left|by apply (Hn2 _ Hs)].
  - intros E. apply Hu. rewrite <- E. by apply list_elem_of_fmap_2.
  - unfold getBlock. cbn [db1 with_disk db_blocks]. rewrite Hblocks. apply list_elem_of_lookup in Hin as [j Hj].
    destruct (list_find (fun b' => bm_ULID (blk_meta b') = block_id b) (pre ++ sel ++ post)) as [[i b']|] eqn:Ef.
    + apply list_find_Some in Ef as (Hi & E & _). cbn. f_equal. assert (i = j) as ->; [|congruence].
      eapply (NoDup_lookup (block_id <$> pre ++ sel ++ post)); [exact Hnd| |]; rewrite list_lookup_fmap; [by rewrite Hi|rewrite Hj; cbn; f_equal; by symmetry].
    + apply list_find_None in Ef. rewrite Forall_forall in Ef. by destruct (Ef b (list_elem_of_lookup_2 _ _ _ Hj)).
  - assert (Hw : Forall2 (whole_block (db_disk db)) (pre ++ post) (spre ++ spost)) by by apply Forall2_app.
    apply list_elem_of_lookup in Hb as [i Hi]. destruct (Forall2_lookup_l _ _ _ _ _ Hw Hi) as (s & _ & [[(g & pb' & Eg & _ & Em & _) _ _ _] _ _ _]).
    exists g. split; [done|]. cbn [de_meta files_dir]. by rewrite Em.
Qed.

Lemma merge_ids : NoDup (block_id <$> bs2) /\ forall k, is_Some (db_disk db1 !! k) -> k ∉ block_id <$> sel -> k ∈ block_id <$> bs2.
Proof using All.
  destruct ids_split as (Hnd & _ & Hu & Hall). destruct merge_meta as (Eid & _). assert (En : block_id nb = uid) by done. unfold bs2. split.
  - rewrite !fmap_app in *. rewrite fmap_cons, En. apply NoDup_app in Hnd as (N1 & N2 & (N3 & N4 & N5)%NoDup_app).
    apply NoDup_app. split; [done|]. split; [|constructor; [|done]].
    + intros k Hk [->|Hp]%elem_of_cons; [apply Hu; apply elem_of_app; by left|]. apply (N2 k Hk). apply elem_of_app. by right.
    + intros Hp. apply Hu. rewrite !elem_of_app. tauto.
  - intros k Hk Hs. rewrite fmap_app, fmap_cons, En, elem_of_app, elem_of_cons. destruct (decide (k = uid)) as [->|Hne]; [tauto|].
    cbn [db1 with_disk db_disk] in Hk. rewrite lookup_insert_ne in Hk by done. specialize (Hall k Hk). rewrite !fmap_app, !elem_of_app in Hall. tauto.
Qed.

Lemma merge_cases b : b ∈ bs2 -> b = nb \/ b ∈ pre ++ post.
Proof using All. unfold bs2. rewrite !elem_of_app, elem_of_cons. tauto. Qed.

Lemma merge_current b : b ∈ bs2 -> is_Some (db_disk db1 !! block_id b) /\ ~ obsolete db1 (block_id b).
Proof using All.
  intros Hb. assert (Hk : is_Some (db_disk db1 !! block_id b) /\ block_id b ∉ block_id <$> sel).
  { destruct ids_split as (_ & _ & Hu & _). destruct merge_meta as (Eid & _). cbn [db1 with_disk db_disk].
    destruct (merge_cases b Hb) as [->|Hk].
    - change (block_id nb) with (bm_ULID m). rewrite Eid, lookup_insert_eq. split; [by eexists|]. intros Hs. apply Hu. rewrite !fmap_app, !elem_of_app. tauto.
    - destruct (merge_kept b Hk) as (Hs & Hnu & _ & x & Hx & _). split; [|done]. rewrite lookup_insert_ne by done. by eexists. }
  destruct Hk as [Hk Hs]. split; [done|]. by intros ?%(merge_obsolete _ Hk).
Qed.

Lemma merge_live : DbSpec.live Compare db1 bs2.
Proof using All.
  apply live_intro; [|apply (proj1 merge_ids)|intros k Hk Ho; apply (proj2 merge_ids); [done|by intros ?%(merge_obsolete _ Hk)]|by destruct merge_meta as (_ & _ & _ & ? & _)].
  intros b Hb. destruct (merge_current b Hb) as [[x Hx] Ho]. split; [done|]. exists x. split; [done|]. destruct merge_meta as (Eid & _).
  destruct (merge_cases b Hb) as [->|Hk].
  - change (block_id nb) with (bm_ULID m) in *. rewrite Eid in *. cbn [db1 with_disk db_disk] in Hx. rewrite lookup_insert_eq in Hx. injection Hx as <-.
    exists m. cbn [snd de_meta files_dir]. rewrite (proj1 (nb_meta _ _ _ _ _ _ _ _ Hnew)). split; [done|]. rewrite Eid.
    destruct (getBlock db1 uid) as [b|] eqn:Eg; [exfalso|exists pb; split; [apply Hnew|done]]. apply getBlock_some in Eg as [Hb' E].
    destruct ids_split as (_ & _ & Hu & _). apply Hu. rewrite <- Hblocks, <- E. by apply (list_elem_of_fmap_2 block_id).
  - destruct (merge_kept b Hk) as (_ & Hnu & Hg & y & Hy & Em). cbn [db1 with_disk db_disk] in Hx.
    rewrite lookup_insert_ne in Hx by done. assert (y = x) as -> by congruence. exists (blk_meta b). split; [done|].
    change (bm_ULID (blk_meta b)) with (block_id b). by rewrite Hg.
Qed.

Lemma merge_good : good_disk db1.
Proof using All.
  intros k x Hk. destruct (merge_meta_on_disk k x Hk) as (m' & Em & Eid & _ & _). exists m'. split; [done|]. split; [done|].
  destruct (decide (k ∈ block_id <$> sel)) as [Hs|Hs]; [left; apply merge_obsolete; [by eexists|done]|right].
  destruct merge_live as (bs0 & Hl & _). destruct merge_ids as [_ Hall].
  assert (He : (k, x) ∈ filter (fun e => ~ obsolete db1 (fst e)) (blockDirs Compare (db_disk db1))).
  { apply list_elem_of_filter. split; [cbn [fst]; by intros ?%(merge_obsolete _ (ex_intro _ x Hk))|by apply (elem_of_dirs Compare)]. }
  apply list_elem_of_lookup in He as [i Hi]. destruct (Forall2_lookup_l _ _ _ _ _ Hl Hi) as (b & _ & Hb). by exists b.
Qed.

(** The state after reloading. *)
Definition merged_db : DB := with_disk (with_blocks db bs2) (live_disk Compare db1).

Lemma merge_reload : reload Compare db1 = Ok (merged_db, None).
Proof using All.
  destruct (reload_ok Compare db1 merge_good) as (bs & Hl & Hr). assert (bs = bs2) as -> by (eapply (live_unique Compare); [exact Hl|exact merge_live]).
  destruct merge_meta as (_ & _ & _ & Hq & _). rewrite (proj1 (Hr (proj1 Hq)) Hq). unfold reloaded.
  destruct (exists_last Hpost) as (pinit & b & Ep). assert (El : last bs2 = Some b) by (unfold bs2; by rewrite Ep, app_comm_cons, (assoc_L (++)), last_snoc).
  rewrite El. cbn [with_disk with_blocks db_head hd_Truncate head_db_head].
  assert (Hb : b ∈ db_blocks db) by (rewrite Hblocks, Ep, !elem_of_app, list_elem_of_singleton; tauto).
  destruct (st_mem _ _ (ds_settled _ _ _ _ _ _ Hst) b Hb) as (_ & _ & Hle). destruct (st_head _ _ (ds_settled _ _ _ _ _ _ Hst)) as (Hmin & _).
  cbn [hd_MinTime head_db_head] in *. change (db_head db1) with (db_head db). unfold Truncate. rewrite (proj2 (Z.leb_le _ _)) by done. rewrite (proj2 (Z.eqb_neq _ _)) by (unfold MaxInt64; lia). done.
Qed.

Lemma merged_disk k x : db_disk merged_db !! k = Some x <-> db_disk db1 !! k = Some x /\ k ∉ block_id <$> sel.
Proof using All.
  cbn [merged_db with_disk db_disk]. unfold live_disk. rewrite map_lookup_filter_Some. cbn [fst]. split; intros [Hx Ho]; (split; [done|]).
  - intros Hs. by apply Ho, (merge_obsolete _ (ex_intro _ x Hx)).
  - by intros ?%(merge_obsolete _ (ex_intro _ x Hx)).
Qed.

Lemma merged_whole : Forall2 (whole_block (db_disk merged_db)) bs2 ss2.
Proof using All.
  destruct ids_split as (_ & _ & Hu & _). destruct merge_meta as (Eid & _).
  assert (Hkeep : forall bs ss, (forall b, b ∈ bs -> b ∈ pre ++ post) -> Forall2 (whole_block (db_disk db)) bs ss -> Forall2 (whole_block (db_disk merged_db)) bs ss).
  { intros bs ss Hin Hw. induction Hw as [|b s bs ss Hb _ IH]; [constructor|]. constructor; [|apply IH; intros; apply Hin; by right].
    destruct (merge_kept b (Hin b ltac:(left))) as (Hs & Hnu & _ & x & Hx & _). eapply whole_other; [|exact Hb].
    change (bm_ULID (blk_meta b)) with (block_id b). rewrite Hx. apply merged_disk. cbn [db1 with_disk db_disk]. by rewrite lookup_insert_ne. }
  apply Forall2_app; [apply Hkeep; [intros; apply elem_of_app; by left|done]|]. constructor; [|apply Hkeep; [intros; apply elem_of_app; by right|done]].
  apply (new_whole (db_disk merged_db) (db_disk db) meta ssel f pb nbs stats sel); [exact Hnew| | |exact Hbsel|].
  - change (bm_ULID meta) with (bm_ULID m). rewrite Eid. apply merged_disk. split; [apply lookup_insert_eq|]. intros Hs. apply Hu. rewrite !fmap_app, !elem_of_app. tauto.
  - clear - Hbsel. induction Hbsel as [|b s bs ss Hb Hbs IH]; [constructor|]. constructor; [apply (Forall_inv (wb_undeleted _ _ _ Hb))|by apply IH].
  - pose proof (ds_sequence _ _ _ _ _ _ Hst) as Hq. rewrite Hblocks, !fmap_app in Hq. by apply in_sequence_app in Hq as (_ & (? & _)%in_sequence_app & _).
Qed.

Lemma merged_current k : is_Some (db_disk merged_db !! k) -> ~ obsolete merged_db k.
Proof using All.
  intros [x [Hx Hs]%merged_disk] (k' & y & m' & [Hy _]%merged_disk & Hm' & Ho). apply Hs, (merge_obsolete _ (ex_intro _ x Hx)).
  exists k', y, m'. split; [done|]. split; [done|]. pose proof (ds_retention _ _ _ _ _ _ Hst) as Hret. rewrite no_retention in Ho by done. by rewrite no_retention.
Qed.

Lemma merged_block b : b ∈ bs2 -> exists x, db_disk merged_db !! block_id b = Some x /\ de_meta (D := pblock U) x = Some (blk_meta b) /\
  bm_MaxTime (blk_meta b) <= h_minTime (db_head db) / r0 * r0.
Proof using All.
  intros Hb. pose proof (ds_before _ _ _ _ _ _ Hst) as Hbf. rewrite Forall_forall, Hblocks in Hbf.
  assert (Ht : bm_MaxTime (blk_meta b) <= h_minTime (db_head db) / r0 * r0).
  { destruct merge_meta as (_ & _ & _ & _ & a & Ha & Emax). destruct (merge_cases b Hb) as [->|Hk].
    - change (bm_MaxTime (blk_meta nb)) with (bm_MaxTime m). rewrite Emax. apply Hbf. rewrite !elem_of_app. tauto.
    - apply Hbf. rewrite !elem_of_app in *. tauto. }
  apply list_elem_of_lookup in Hb as [i Hi]. destruct (Forall2_lookup_l _ _ _ _ _ merged_whole Hi) as (s & _ & [[(g & pb' & Eg & _ & Em & _) _ _ _] _ _ _]).
  exists g. split; [done|]. cbn [de_meta files_dir]. by rewrite Em.
Qed.

Lemma merged_state : db_state r0 merged_db A (src_series <$> ss2).
Proof using All.
  destruct merge_meta as (Eid & Hok & _ & Hq & _). destruct merge_ids as [Hnd Hall]. pose proof (ds_settled _ _ _ _ _ _ Hst) as Hset.
  assert (Hlt : h_minTime (db_head db) / r0 * r0 <= h_minTime (db_head db)).
  { destruct (st_ranges _ _ Hset) as [_ [Hr0 _]]. pose proof (Z.mul_div_le (h_minTime (db_head db)) r0 Hr0). lia. }
  assert (Hm : forall b, b ∈ bs2 -> PlanSpec.meta_ok (blk_meta b)).
  { intros b Hb. pose proof (proj1 Hq) as Hall'. rewrite Forall_forall in Hall'. apply Hall'. by apply list_elem_of_fmap_2. }
  split; [split|..]; cbn [merged_db with_disk with_blocks db_blocks db_head db_opts].
  - intros b Hb. destruct (merged_block b Hb) as (x & Hx & _ & Ht). split; [by exists x|]. split; [by apply Hm|]. cbn [hd_MinTime head_db_head]. lia.
  - intros k x [Hx _]%merged_disk. destruct (merge_meta_on_disk k x Hx) as (m' & Em & Ek & Hm' & Hcase). split.
    + destruct Hcase as [(_ & -> & _)|[_ Hd]]; [cbn [de_data files_dir]; by rewrite (nb_open _ _ _ _ _ _ _ _ Hnew)|by apply (st_disk _ _ Hset k x)].
    + intros m2 Em2. rewrite Em in Em2. injection Em2 as <-. done.
  - apply Hset.
  - apply Hset.
  - apply Hset.
  - apply Hst.
  - apply live_intro; [|done|intros k [x [Hx Hs]%merged_disk] _; apply Hall; [by exists x|done]|done].
    intros b Hb. destruct (merged_block b Hb) as (x & Hx & Em & _). split; [apply merged_current; by exists x|]. exists x. split; [done|].
    exists (blk_meta b). split; [done|]. change (bm_ULID (blk_meta b)) with (block_id b).
    unfold getBlock. cbn [merged_db with_disk with_blocks db_blocks]. apply list_elem_of_lookup in Hb as [j Hj].
    destruct (list_find (fun b' => bm_ULID (blk_meta b') = block_id b) bs2) as [[i b']|] eqn:Ef.
    + apply list_find_Some in Ef as (Hi & E & _). cbn. assert (i = j) as ->; [|congruence].
      eapply (NoDup_lookup (block_id <$> bs2)); [exact Hnd| |]; rewrite list_lookup_fmap; [by rewrite Hi|rewrite Hj; cbn; f_equal; by symmetry].
    + exfalso. apply list_find_None in Ef. rewrite Forall_forall in Ef. by apply (Ef b (list_elem_of_lookup_2 _ _ _ Hj)).
  - apply merged_current.
  - exact Hq.
  - apply Forall_forall. intros b Hb. by destruct (merged_block b Hb) as (x & _ & _ & Ht).
  - rewrite Forall2_fmap_r. eapply Forall2_impl; [exact merged_whole|]. intros b s. apply whole_view.
  - apply Hst.
  - apply Hst.
Qed.

Lemma merged_tidy : tidy merged_db ss2.
Proof using All.
  split; [exact merged_whole|]. cbn [merged_db with_disk with_blocks db_blocks]. rewrite Hblocks, !Forall_app in Hst0. destruct Hst0 as (H1' & _ & H2').
  apply Forall_app. split; [done|]. constructor; [|done]. apply (nb_stats _ _ _ _ _ _ _ _ Hnew).
Qed.

Lemma merged_samples_same a b ls : db_samples (db_head merged_db) (src_series <$> ss2) A a b ls =
  db_samples (db_head db) (src_series <$> (spre ++ ssel ++ spost)) A a b ls.
Proof using All.
  unfold db_samples. cbn [merged_db with_disk with_blocks db_head]. f_equal. unfold ss2. rewrite !fmap_app, !fmap_cons, !join_app. f_equal.
  rewrite join_cons. f_equal. cbn [s2 src_series block_source]. rewrite (nb_samples _ _ _ _ _ _ _ _ Hnew ls). unfold merged_samples.
  rewrite clip_join, <- !list_fmap_compose. done.
Qed.

Lemma merged_fits : fits_block (spre ++ ssel ++ spost) -> fits_block ss2.
Proof using All.
  assert (Em : forall l, mjoin (series_of <$> spre ++ l ++ spost) = mjoin (series_of <$> spre) ++ mjoin (series_of <$> l) ++ mjoin (series_of <$> spost)).
  { intros l. by rewrite !fmap_app, !join_app. }
  intros [F1 F2]. change ss2 with (spre ++ [s2] ++ spost). unfold fits_block, index_need in *. rewrite (Em ssel) in F2. rewrite (Em [s2]).
  cbn [fmap list_fmap mjoin list_join]. rewrite app_nil_r. unfold series_of at 2 5. cbn [s2 src_series block_source]. split.
  - intros ls. specialize (F1 ls). rewrite (Em ssel) in F1. unfold chunks_of in *. rewrite !filter_app, !zsum_app in *.
    pose proof (nb_chunks _ _ _ _ _ _ _ _ Hnew ls) as Hc. unfold chunks_of in Hc. lia.
  - etrans; [|exact F2]. rewrite !zsum_app. pose proof (nb_need _ _ _ _ _ _ _ _ Hnew) as Hc.
    assert (E : ⋃ (src_symbols <$> spre ++ [s2] ++ spost) = ⋃ (src_symbols <$> spre ++ ssel ++ spost)).
    { rewrite !fmap_app, !union_list_app_L. cbn [fmap list_fmap s2 src_symbols block_source union_list foldr]. by rewrite (right_id_L ∅ (∪)). }
    rewrite E. lia.
Qed.
End Merge.

(** ** The loop over the plans *)

Lemma block_round r0 db A ss : db_state r0 db A (src_series <$> ss) -> tidy db ss -> fits_block ss ->
  leveled_Plan Compare ULID_String ranges (db_disk db) = Ok [] \/
  exists p d' u db2 ss2, leveled_Plan Compare ULID_String ranges (db_disk db) = Ok p /\ p <> [] /\
    Compact Compare range (newUID (db_disk db)) (db_disk db) p = (d', Ok u) /\ reload Compare (with_disk db d') = Ok (db2, None) /\
    db_state r0 db2 A (src_series <$> ss2) /\ tidy db2 ss2 /\ fits_block ss2 /\ db_head db2 = db_head db /\
    (length (db_blocks db2) < length (db_blocks db))%nat /\
    forall a b ls, db_samples (db_head db2) (src_series <$> ss2) A a b ls = db_samples (db_head db) (src_series <$> ss) A a b ls.
Proof using All.
  intros Hst [Hw Hst0] Hfit. destruct (state_ids _ _ _ _ Hst) as [Hnd Hall].
  destruct (leveled_Plan_ok Compare ULID_String Hname ranges (db_disk db) (db_blocks db) ss Hranges Hrne Hw (ds_sequence _ _ _ _ _ _ Hst) Hnd Hall Hst0)
    as (pre & sel & post & Ep & Eb & Hsel). destruct Hsel as [->|[Hlen Hpost]]; [by left|right]. assert (Hsel : sel <> []) by (intros ->; cbn in Hlen; lia).
  rewrite Eb in Hw. apply Forall2_app_inv_l in Hw as (spre & srest & Hpre & Hw & ->). apply Forall2_app_inv_l in Hw as (ssel & spost & Hs & Hp & ->).
  destruct (whole_tuples _ _ _ Hs) as (l & E1 & E2 & E3 & Hl).
  destruct (Compact_block Compare range (db_disk db) (newUID (db_disk db)) l Hperm) as (f & meta & pb & nbs & stats & Ec & Em & Hn).
  - intros ->. by destruct sel.
  - exact Hl.
  - rewrite E2. pose proof (ds_sequence _ _ _ _ _ _ Hst) as Hq. rewrite Eb, !fmap_app in Hq. by apply in_sequence_app in Hq as (_ & (? & _)%in_sequence_app & _).
  - rewrite E3. by eapply fits_part.
  - rewrite E1 in Ec. rewrite E2 in Em. rewrite E3 in Hn. exists (block_id <$> sel), (<[newUID (db_disk db) := f]> (db_disk db)), (newUID (db_disk db)).
    eexists _, _. split; [exact Ep|]. split; [by destruct sel|]. split; [exact Ec|].
    split; [eapply merge_reload; eassumption|]. split; [eapply merged_state; eassumption|]. split; [eapply merged_tidy; eassumption|].
    split; [eapply merged_fits; eassumption|]. split; [done|]. split; [|eapply merged_samples_same; eassumption].
    cbn [merged_db with_disk with_blocks db_blocks]. rewrite Eb, !length_app. cbn [length]. lia.
Qed.

(** How the loop ends: with nothing left to plan, or since the database is being closed. *)
Definition blocks_ended (stopc : nat -> bool) db (l : loop_end) : Prop :=
  match l with
  | Broke => leveled_Plan Compare ULID_String ranges (db_disk db) = Ok []
  | Return e => e = None /\ exists n, stopc n = true
  end.

Lemma block_rounds r0 A fuel : forall stopc db ss, db_state r0 db A (src_series <$> ss) -> tidy db ss -> fits_block ss -> (length (db_blocks db) < fuel)%nat ->
  exists db' ss' l, compact_blocks Compare fuel compactor stopc db = Ok (db', l) /\ db_state r0 db' A (src_series <$> ss') /\ tidy db' ss' /\ fits_block ss' /\
    blocks_ended stopc db' l /\ db_head db' = db_head db /\ (length (db_blocks db') <= length (db_blocks db))%nat /\
    forall a b ls, db_samples (db_head db') (src_series <$> ss') A a b ls = db_samples (db_head db) (src_series <$> ss) A a b ls.
Proof using All.
  induction fuel as [|fuel IH]; intros stopc db ss Hst Ht Hfit Hf; [lia|]. cbn [compact_blocks LeveledCompactor c_Plan].
  destruct (block_round r0 db A ss Hst Ht Hfit) as [Ep|(p & d' & u & db2 & ss2 & Ep & Hne & Ec & Er & Hst2 & Ht2 & Hf2 & Eh & Hlen & Hs)]; rewrite Ep.
  { by exists db, ss, Broke. }
  destruct p as [|q p]; [done|]. destruct (stopc O) eqn:Es.
  { exists db, ss, (Return None). do 4 (split; [done|]). split; [split; [done|by exists O]|done]. }
  unfold merge_blocks. cbn [LeveledCompactor c_Compact]. rewrite Ec. cbn [and_reload res_bind]. rewrite Er. cbn [res_bind].
  destruct (IH (fun n => stopc (S n)) db2 ss2 Hst2 Ht2 Hf2 ltac:(lia)) as (db' & ss' & l & E & Hst' & Ht' & Hf' & Hl & Eh' & Hlen' & Hs').
  exists db', ss', l. split; [exact E|]. do 3 (split; [done|]). split; [|split; [congruence|]; split; [lia|]].
  - destruct l as [|e]; [done|]. destruct Hl as [-> [n Hn]]. split; [done|by exists (S n)].
  - intros a b ls. by rewrite Hs', Hs.
Qed.
End Rounds.

(** * Main theorem *)

(** C24: compacting blocks loses nothing.  The database is as for [compact_head_keeps_answers],
    its blocks are what their directories hold, without deletions ([tidy]), and fit into one
    block together.  Then the loop of [compact] over the plans ends without an error, with a
    database of this kind again and the same head: with nothing left to plan, or, if
    [stopc] is found closed at some round, by returning there.  Either way every query gives
    the same series with the same samples as before. *)
Theorem compact_blocks_keeps_answers {U W : Type} `{Countable U} (Compare : U -> U -> comparison) `{!CompareLaws Compare} `{WAL W}
    (Sum64 : list Z -> Z) (range : forall A, list A -> list A) (newUID : gmap U (files U) -> U) (ULID_String : U -> string) (ranges : list Z)
    (r0 : Z) (fuel : nat) (stopc : nat -> bool) (db : Db.DB (F := files U) (U := U) (D := pblock U) (H := Head W)) (A : contents) (ss : list file_source) :
  (forall A (l : list A), range A l ≡ₚ l) -> (forall d, fresh_id (newUID d) d) -> (forall u v, ULID_String u = ULID_String v -> u = v) ->
  Forall small_range ranges -> ranges <> [] ->
  db_state Compare Sum64 r0 db A (src_series <$> ss) -> tidy db ss -> fits_block ss -> (length (db_blocks db) < fuel)%nat ->
  exists db' ss' l, compact_blocks Compare fuel (LeveledCompactor Compare range newUID ULID_String ranges) stopc db = Ok (db', l) /\
    db_state Compare Sum64 r0 db' A (src_series <$> ss') /\ tidy db' ss' /\ fits_block ss' /\ db_head db' = db_head db /\
    match l with
    | Broke => leveled_Plan Compare ULID_String ranges (db_disk db') = Ok []
    | Return e => e = None /\ exists n, stopc n = true
    end /\
    forall mint maxt ms, Forall (fun m => m_Name m <> EmptyString) ms -> ms <> [] ->
      exists l l', query_gives db mint maxt ms l /\ query_gives db' mint maxt ms l' /\ answered l' = answered l.
Proof.
  intros Hperm Hfresh Hname Hr Hne Hst Ht Hfit Hf.
  destruct (block_rounds Compare Sum64 range newUID ULID_String ranges Hperm Hfresh Hname Hr Hne r0 A fuel stopc db ss Hst Ht Hfit Hf)
    as (db' & ss' & l0 & E & Hst' & Ht' & Hf' & Hl & Eh & _ & Hs).
  exists db', ss', l0. do 6 (split; [done|]). intros mint maxt ms Hms Hn.
  pose proof (compactable_view Sum64 r0 _ _ (ds_head _ _ _ _ _ _ Hst) mint) as Hv.
  pose proof (compactable_view Sum64 r0 _ _ (ds_head _ _ _ _ _ _ Hst') mint) as Hv'.
  destruct (db_query Sum64 db _ A mint maxt ms (ds_views _ _ _ _ _ _ Hst) Hv Hms Hn) as (l & Hlq & Hi & Hsam).
  destruct (db_query Sum64 db' _ A mint maxt ms (ds_views _ _ _ _ _ _ Hst') Hv' Hms Hn) as (l' & Hlq' & Hi' & Hsam').
  exists l, l'. split; [done|]. split; [done|]. apply answered_eq; [done..|]. intros ls. rewrite Hsam, Hsam'. by rewrite Hs.
Qed.

(** * Witness: three blocks on disk, of which the first two are merged *)

Module MergeExample.
Import ListIndex CompactExample CompactorExample.

(** Three blocks of 50, with a chunk of one series each, and a head behind them. *)
Definition chunk_at (t : Z) : Meta XORChunk := xor_meta t (t + 10) [(t, 1); (t + 5, 2); (t + 10, 3)].
Definition series_at (r t : Z) : list (bseries XORChunk) :=
  [mkBseries 1 [("a", "x")]%string [(at_ref r (chunk_at t), [(t, 1); (t + 5, 2); (t + 10, 3)])] []].
Definition src (r t : Z) := source_of (series_at r t) (map_imap (fun _ m => m_Chunk m) {[r := chunk_at t]}) ∅ t (t + 10).
Definition source_a := src 8 10.
Definition source_b := src 9 60.
Definition source_c := src 10 110.

Lemma abc_ok : Forall (source_ok (I := xorIterator) (fun c => segment_chunk_ok (Source c)) (2 ^ 64)) [source_a; source_b; source_c].
Proof.
  repeat apply Forall_cons_2; [..|apply Forall_nil_2]; (split; [done|apply ListIndex.list_index_holds; [done|decided..]| |decided|decided]);
    (apply Forall_cons_2; [|apply Forall_nil_2]);
    (split; [reflexivity|reflexivity|decided|decided|]); (apply Forall_cons_2; [|apply Forall_nil_2]);
    (split; [apply samples_check; [reflexivity|by repeat constructor]|]);
    (eexists; split; [reflexivity|by apply xor_data; [reflexivity|reflexivity|by vm_compute]]).
Qed.

Definition files_of (u : Z) (s : source ListIndex.list_index XORChunk (gmap Z XORChunk) memTombstones) : files Z :=
  match block_files (I := xorIterator) keep (meta_of u (50 * (u - 1)) (50 * u)) (readers_of <$> [s]) with Ok f => f | _ => mkFiles None [] [] None end.

Lemma source_written u s : (u, s) ∈ [(1, source_a); (2, source_b); (3, source_c)] ->
  exists pb bs stats, new_block (meta_of u (50 * (u - 1)) (50 * u)) (50 * (u - 1)) (50 * u - 1) [s] (files_of u s) pb bs stats.
Proof.
  intros Hu. assert (PosBound (2 ^ 64)) by (unfold PosBound; lia).
  assert (Hs : s ∈ [source_a; source_b; source_c]) by (apply (list_elem_of_fmap_2 snd) in Hu; exact Hu).
  assert (Hall : forall s, s ∈ [source_a; source_b; source_c] ->
    (series_count [s] <= 512)%nat /\ zsum (fun b => zlen (b_chunks b)) (src_series s) <= 512 /\ index_need [s] <= 2 ^ 32 /\ sources_known [s]).
  { apply Forall_forall. repeat apply Forall_cons_2; [..|apply Forall_nil_2]; unfold sources_known, labels_known; decided. }
  destruct (Hall s Hs) as (H1 & H2 & H3 & H4). pose proof abc_ok as Hok. rewrite Forall_forall in Hok.
  assert (Ht : 50 * (u - 1) <= src_lo s /\ src_hi s < 50 * u /\ 1 <= u <= 3).
  { rewrite !elem_of_cons, elem_of_nil in Hu. destruct Hu as [[= -> ->]|[[= -> ->]|[[= -> ->]|[]]]]; cbn; lia. }
  assert (Hin : forall lo hi, lo <= src_lo s -> src_hi s <= hi -> Forall (src_chunks_in lo hi) [s]).
  { intros lo hi ? ?. apply Forall_singleton, (src_chunks_in_weaken (src_lo s) (src_hi s)); [done..|]. eapply source_chunks_in. by apply Hok. }
  assert (Hlh : src_lo s <= src_hi s) by by apply (so_bounds _ _ _ (Hok s Hs)).
  destruct (block_files_open (2 ^ 64) keep (meta_of u (50 * (u - 1)) (50 * u)) (50 * (u - 1)) (50 * u - 1) [s]) as (f & pb & bs & stats & E & Hn);
    [|done|apply Hin; lia|unfold MinInt64; lia|lia|unfold MaxInt64; lia|done|done|].
  - split.
    + done.
    + apply Forall_singleton. by apply Hok.
    + by repeat constructor.
    + apply Hin; cbn; lia.
    + done.
    + intros ls. apply Nat2Z.inj_le. rewrite chunk_count_of. etrans; [apply chunks_of_total|].
      cbn [fmap list_fmap mjoin list_join]. rewrite app_nil_r. exact H2.
    + apply new_writer_ready. lia.
    + lia.
  - exists pb, bs, stats. unfold files_of. by rewrite E.
Qed.

Lemma abc_tight s : s ∈ [source_a; source_b; source_c] -> undeleted tight [s] /\
  Forall (fun x => increasing_times (mjoin (snd <$> b_chunks x))) (src_series s).
Proof.
  revert s. apply Forall_forall. repeat apply Forall_cons_2; [..|apply Forall_nil_2]; (split; [|by repeat constructor]);
    (apply Forall_singleton, Forall_singleton; split; [done|apply Forall_singleton; split; [done|by vm_compute]]).
Qed.

Definition disk : gmap Z (files Z) := <[3 := files_of 3 source_c]> (<[2 := files_of 2 source_b]> (<[1 := files_of 1 source_a]> ∅)).

Definition head : Head (list (list Z)) :=
  EnsureOrder_head (mkHead 50 (Some []) 150 150 0 [] ∅ ∅ ∅ ∅ NewUnorderedMemPostings NewMemTombstones).

Definition db_of bs : Db.DB (F := files Z) (U := Z) (D := pblock Z) (H := Head (list (list Z))) :=
  mkDB (mkOptions 0 [50; 100]) disk bs head true.

Lemma head_compactable : compactable_head AppendExample.sum 50 head ∅.
Proof.
  apply heap_compactable; [|done|done|apply Forall_nil_2|apply Z.leb_le; vm_compute; reflexivity].
  apply (EnsureOrder_rep AppendExample.sum). destruct (NewHead_rep AppendExample.sum (Some ([] : list (list Z))) 50) as (h & [= <-] & Hr); [unfold range_ok; lia|].
  exact (proj1 (with_times_rep AppendExample.sum _ ∅ 150 150) Hr).
Qed.

(** The block of one source, in memory and on disk. *)
Record loaded (u : Z) (b : Db.Block Z (pblock Z)) (s : file_source) : Prop := {
  ld_id : block_id b = u;
  ld_times : bm_MinTime (blk_meta b) = 50 * (u - 1) /\ bm_MaxTime (blk_meta b) = 50 * u;
  ld_parents : cp_Parents (bm_Compaction (blk_meta b)) = [];
  ld_stones : NumTombstones (bm_Stats (blk_meta b)) = 0;
  ld_file : exists f, disk !! u = Some f /\ readMetaFile f = Ok (blk_meta b) /\ OpenBlock f = Ok (blk_data b);
  ld_whole : whole_block disk b s;
  ld_chunks ls : chunks_of ls (src_series s) <= 4;
  ld_need : zsum bseries_need (src_series s) <= 10000;
  ld_symbols : src_symbols s = {["a"; "x"]}%string;
}.

Lemma block_loaded u s : (u, s) ∈ [(1, source_a); (2, source_b); (3, source_c)] -> exists b s', loaded u b s'.
Proof.
  intros Hu. destruct (source_written u s Hu) as (pb & bs & stats & Hn).
  assert (Hs : s ∈ [source_a; source_b; source_c]) by (apply (list_elem_of_fmap_2 snd) in Hu; exact Hu).
  destruct (abc_tight s Hs) as [Ht Hi].
  assert (Hall : zsum (fun b => zlen (b_chunks b)) (src_series s) <= 4 /\ zsum bseries_need (src_series s) <= 10000 /\ src_symbols s = {["a"; "x"]}%string).
  { clear Hu Hn Ht Hi. revert s Hs. apply Forall_forall. repeat apply Forall_cons_2; [..|apply Forall_nil_2]; (split; [decided|split; [decided|by vm_compute]]). }
  assert (Hd : disk !! u = Some (files_of u s)).
  { rewrite !elem_of_cons, elem_of_nil in Hu. unfold disk. destruct Hu as [[= -> ->]|[[= -> ->]|[[= -> ->]|[]]]]; by simplify_map_eq. }
  exists (Db.mkBlock (with_stats (meta_of u (50 * (u - 1)) (50 * u)) stats) pb),
    (block_source (50 * (u - 1)) (50 * u - 1) (⋃ (src_symbols <$> [s])) bs pb). split.
  - done.
  - by split.
  - done.
  - apply Hn.
  - exists (files_of u s). split; [done|]. split; apply Hn.
  - apply (new_block_whole disk (meta_of u (50 * (u - 1)) (50 * u)) [s] (files_of u s) pb bs stats Hn Hd Ht).
    intros ls. unfold merged_samples. cbn [fmap list_fmap mjoin list_join]. rewrite app_nil_r. unfold series_samples.
    destruct (list_find _ (src_series s)) as [[i x]|] eqn:Ef; [|by constructor]. cbn [fmap option_fmap option_map snd].
    apply list_find_Some in Ef as (Hx%list_elem_of_lookup_2 & _). rewrite Forall_forall in Hi. unfold kept. by apply StronglySorted_filter, Hi.
  - intros ls. cbn [src_series block_source]. etrans; [apply Hn|]. cbn [fmap list_fmap mjoin list_join]. rewrite app_nil_r. etrans; [apply chunks_of_total|]. apply Hall.
  - cbn [src_series block_source]. etrans; [apply Hn|]. cbn [fmap list_fmap mjoin list_join]. rewrite app_nil_r. apply Hall.
  - cbn [src_symbols block_source fmap list_fmap]. rewrite (proj2 (proj2 Hall)). set_solver.
Qed.

Lemma disk_ids k : is_Some (disk !! k) -> k ∈ [1; 2; 3].
Proof.
  unfold disk. intros [f Hf]. rewrite !elem_of_cons, elem_of_nil.
  apply lookup_insert_Some in Hf as [[<- _]|[_ Hf]]; [tauto|]. apply lookup_insert_Some in Hf as [[<- _]|[_ Hf]]; [tauto|].
  apply lookup_insert_Some in Hf as [[<- _]|[_ Hf]]; [tauto|]. by rewrite lookup_empty in Hf.
Qed.

(** The three blocks as a database. *)
Section Loaded.
Context (b1 b2 b3 : Db.Block Z (pblock Z)) (s1 s2 s3 : file_source) (L1 : loaded 1 b1 s1) (L2 : loaded 2 b2 s2) (L3 : loaded 3 b3 s3).
Let bs := [b1; b2; b3].
Let ss := [s1; s2; s3].

Lemma loaded_blocks : Forall2 (whole_block disk) bs ss /\ block_id <$> bs = [1; 2; 3] /\
  forall b, b ∈ bs -> exists s, loaded (block_id b) b s /\ 1 <= block_id b <= 3.
Proof.
  split; [|split].
  - apply Forall2_cons_2; [apply L1|]. apply Forall2_cons_2; [apply L2|]. apply Forall2_cons_2; [apply L3|]. apply Forall2_nil_2.
  - unfold bs. cbn [fmap list_fmap]. rewrite (ld_id _ _ _ L1), (ld_id _ _ _ L2), (ld_id _ _ _ L3). reflexivity.
  - intros b. unfold bs. rewrite !elem_of_cons, elem_of_nil. intros [->|[->|[->|[]]]]; [exists s1|exists s2|exists s3].
    + rewrite (ld_id _ _ _ L1). split; [exact L1|lia].
    + rewrite (ld_id _ _ _ L2). split; [exact L2|lia].
    + rewrite (ld_id _ _ _ L3). split; [exact L3|lia].
Qed.

Lemma loaded_file k x : disk !! k = Some x -> exists b, b ∈ bs /\ block_id b = k /\ readMetaFile x = Ok (blk_meta b) /\ OpenBlock x = Ok (blk_data b) /\
  cp_Parents (bm_Compaction (blk_meta b)) = [].
Proof.
  intros Hx. destruct loaded_blocks as (_ & Hids & Hall). pose proof (disk_ids k (ex_intro _ x Hx)) as Hk. rewrite <- Hids in Hk.
  apply list_elem_of_fmap in Hk as (b & -> & Hb). exists b. destruct (Hall b Hb) as (s & [_ _ Hp _ (f & Hf & Hm & Ho) _ _ _ _] & _).
  rewrite Hx in Hf. injection Hf as ->. split; [exact Hb|]. split; [reflexivity|]. split; [exact Hm|]. split; [exact Ho|exact Hp].
Qed.

Lemma loaded_meta b : b ∈ bs -> is_Some (disk !! block_id b) /\ PlanSpec.meta_ok (blk_meta b) /\ bm_MaxTime (blk_meta b) <= 150.
Proof.
  intros Hb. destruct (proj2 (proj2 loaded_blocks) b Hb) as (s & [_ [T1 T2] _ _ (f & Hf & _) _ _ _ _] & Hr). split; [by exists f|].
  unfold PlanSpec.meta_ok, small_time. rewrite T1, T2. lia.
Qed.

Lemma loaded_sequence : in_sequence (blk_meta <$> bs).
Proof.
  split; [apply Forall_fmap, Forall_forall; intros b Hb; apply (loaded_meta b Hb)|]. unfold bs. cbn [fmap list_fmap].
  destruct (ld_times _ _ _ L1) as [A1 B1], (ld_times _ _ _ L2) as [A2 B2], (ld_times _ _ _ L3) as [A3 B3]. repeat constructor; lia.
Qed.

Lemma not_obsolete k : ~ obsolete (db_of bs) k.
Proof.
  intros (k' & x & m & Hx & Hm & Ho). rewrite no_retention in Ho by reflexivity. cbn [db_of db_disk] in Hx.
  destruct (loaded_file k' x Hx) as (b & _ & _ & Em & _ & Ep). cbn [de_meta files_dir] in Hm. rewrite Em in Hm. injection Hm as <-.
  rewrite Ep in Ho. by apply not_elem_of_nil in Ho.
Qed.

Lemma loaded_settled : settled 50 (db_of bs).
Proof.
  split; cbn [db_of db_opts db_disk db_blocks db_head].
  - intros b Hb. destruct (loaded_meta b Hb) as (H1 & H2 & H3). split; [exact H1|]. split; [exact H2|exact H3].
  - intros k x Hx. destruct (loaded_file k x Hx) as (b & Hb & Eb & Em & Ed & _). cbn [de_data de_meta files_dir]. rewrite Em, Ed. split; [discriminate|].
    intros m [= <-]. split; [exact Eb|apply (loaded_meta b Hb)].
  - split; [reflexivity|]. unfold range_ok. lia.
  - split; [reflexivity|]. cbn [o_RetentionDuration]. lia.
  - change (hd_MinTime head) with 150. change (hd_MaxTime head) with 150. lia.
Qed.

Lemma loaded_same b b' : b ∈ bs -> b' ∈ bs -> block_id b = block_id b' -> b = b'.
Proof.
  intros [i Hi]%list_elem_of_lookup [j Hj]%list_elem_of_lookup E. destruct loaded_blocks as (_ & Hids & _).
  assert (i = j) as ->; [|congruence].
  apply (NoDup_lookup (block_id <$> bs) i j (block_id b)); [rewrite Hids; decided|by rewrite list_lookup_fmap, Hi|by rewrite list_lookup_fmap, Hj, E].
Qed.

Lemma loaded_live : DbSpec.live Z.compare (db_of bs) bs.
Proof.
  destruct loaded_blocks as (_ & Hids & _). apply live_intro.
  - intros b Hb. split; [apply not_obsolete|]. destruct (loaded_meta b Hb) as ((x & Hx) & _). exists x. split; [exact Hx|].
    destruct (loaded_file _ x Hx) as (b' & Hb' & Eb & Em & _). apply (loaded_same b' b Hb' Hb) in Eb as ->.
    exists (blk_meta b). cbn [snd de_meta files_dir]. rewrite Em. split; [reflexivity|].
    destruct (getBlock (db_of bs) (bm_ULID (blk_meta b))) as [y|] eqn:Ef.
    + apply getBlock_some in Ef as [Hy Ey]. exact (loaded_same b y Hb Hy (eq_sym Ey)).
    + exfalso. apply (fmap_None snd) in Ef. apply list_find_None in Ef. rewrite Forall_forall in Ef. exact (Ef b Hb eq_refl).
  - rewrite Hids. decided.
  - intros k Hk _. rewrite Hids. by apply disk_ids.
  - exact loaded_sequence.
Qed.

Lemma loaded_state : db_state Z.compare AppendExample.sum 50 (db_of bs) ∅ (src_series <$> ss).
Proof.
  destruct loaded_blocks as (Hw & Hids & Hall). split.
  - exact loaded_settled.
  - reflexivity.
  - exact loaded_live.
  - intros k _. apply not_obsolete.
  - exact loaded_sequence.
  - apply Forall_forall. intros b Hb. exact (proj2 (proj2 (loaded_meta b Hb))).
  - apply Forall2_fmap_r. eapply Forall2_impl; [exact Hw|]. intros b s Hb. exact (whole_view _ _ _ Hb).
  - exact head_compactable.
  - change (h_minTime (db_head (db_of bs))) with 150. lia.
Qed.

Lemma loaded_fits : fits_block ss.
Proof.
  unfold fits_block, index_need, ss, series_of. cbn [fmap list_fmap mjoin list_join]. rewrite !app_nil_r. split.
  - intros ls. unfold chunks_of. rewrite !filter_app, !zsum_app.
    pose proof (ld_chunks _ _ _ L1 ls) as H1. pose proof (ld_chunks _ _ _ L2 ls) as H2. pose proof (ld_chunks _ _ _ L3 ls) as H3. unfold chunks_of in *. lia.
  - rewrite !zsum_app, (ld_symbols _ _ _ L1), (ld_symbols _ _ _ L2), (ld_symbols _ _ _ L3).
    pose proof (ld_need _ _ _ L1) as H1. pose proof (ld_need _ _ _ L2) as H2. pose proof (ld_need _ _ _ L3) as H3.
    assert (zsum str_cost (elements (⋃ [{["a"; "x"]}; {["a"; "x"]}; {["a"; "x"]}] : gset string)) <= 10000) by decided. lia.
Qed.
End Loaded.

(** A database with the three blocks. *)
Lemma abc_state : exists bs ss, length bs = 3%nat /\ db_state Z.compare AppendExample.sum 50 (db_of bs) ∅ (src_series <$> ss) /\
  tidy (db_of bs) ss /\ fits_block ss.
Proof.
  destruct (block_loaded 1 source_a) as (b1 & s1 & L1); [left|]. destruct (block_loaded 2 source_b) as (b2 & s2 & L2); [right; left|].
  destruct (block_loaded 3 source_c) as (b3 & s3 & L3); [right; right; left|].
  exists [b1; b2; b3], [s1; s2; s3]. split; [reflexivity|]. split; [exact (loaded_state _ _ _ _ _ _ L1 L2 L3)|].
  split; [|exact (loaded_fits _ _ _ _ _ _ L1 L2 L3)]. split; [exact (proj1 (loaded_blocks _ _ _ _ _ _ L1 L2 L3))|].
  cbn [db_of db_blocks]. apply Forall_cons_2; [apply L1|]. apply Forall_cons_2; [apply L2|]. apply Forall_cons_2; [apply L3|apply Forall_nil_2].
Qed.

(** The first two are to be merged. *)
Lemma abc_plan bs : leveled_Plan Z.compare pretty [50; 100] (db_disk (db_of bs)) = Ok [1; 2].
Proof. vm_compute. reflexivity. Qed.
End MergeExample.

Lemma compact_blocks_keeps_answers_witness :
  exists db, length (db_blocks db) = 3%nat /\ leveled_Plan Z.compare pretty [50; 100] (db_disk db) = Ok [1; 2] /\
    exists db', compact_blocks Z.compare 4 (LeveledCompactor (W := list (list Z)) Z.compare CompactorExample.keep (fun d => fresh (DbExample.ids d)) pretty [50; 100])
        HeadCompactExample.never db = Ok (db', Broke) /\
      leveled_Plan Z.compare pretty [50; 100] (db_disk db') = Ok [] /\
      forall mint maxt ms, Forall (fun m => m_Name m <> EmptyString) ms -> ms <> [] ->
        exists l l', query_gives db mint maxt ms l /\ query_gives db' mint maxt ms l' /\ answered l' = answered l.
Proof.
  destruct MergeExample.abc_state as (bs & ss & Hlen & Hst & Ht & Hf). exists (MergeExample.db_of bs). split; [exact Hlen|]. split; [exact (MergeExample.abc_plan bs)|].
  destruct (compact_blocks_keeps_answers Z.compare AppendExample.sum CompactorExample.keep (fun d => fresh (DbExample.ids d)) pretty [50; 100] 50 4
    HeadCompactExample.never (MergeExample.db_of bs) ∅ ss) as (db' & ss' & l & E & _ & _ & _ & _ & Hl & Hq).
  - done.
  - intros d. apply DbExample.ids_fresh.
  - intros u v. apply (inj pretty).
  - unfold small_range. repeat constructor; lia.
  - discriminate.
  - exact Hst.
  - exact Ht.
  - exact Hf.
  - cbn [MergeExample.db_of db_blocks]. rewrite Hlen. lia.
  - exists db'. destruct l as [|e]; [|by destruct Hl as (_ & n & Hn)]. split; [exact E|]. split; [exact Hl|exact Hq].
Defined.
