(* ===== verification/DatabaseSpec.v ===== *)
(** The database as a whole: opening it on what an earlier run has left, the loop in
    the background, and snapshots. *)
From S2P Require Import Prelude Bits Varint Crc32 Order Files EncBuf Labels Tombstones Records Postings MemPostings XorChunk Chunks Buffer SeriesIter SeriesSets Querier MemSeries Head HeadInv HeadAppend HeadGc HeadWal Wal WalSpec WalLog Recovery Plan PlanSpec Db DbSpec Compaction CompactSpec IndexFile Blocks BlockSpec Checkpoint CheckpointSpec CheckpointLoad LegacyWal Repair DbQuery Compactor CompactorSpec HeadBlock Database HeadCompact.
#[local] Open Scope list_scope.
#[local] Open Scope Z_scope.

(** * Opening *)

Lemma be_val_bound l : Forall is_byte l -> 0 <= be_val l < 2 ^ (8 * Z.of_nat (length l)).
Proof.
  intros Hl. pose proof (be_val_be_bytes (length l) (be_val l)) as E. rewrite be_bytes_be_val in E by done. rewrite E.
  apply Z.mod_pos_bound. lia.
Qed.

(** A segment of the log is none of the legacy log: its first byte is the type of a
    record. *)
Lemma segment_not_legacy c recs : holds 0 c recs -> be_val (take 4 (c ++ [0; 0; 0; 0])) <> WALMagic.
Proof.
  intros Hh. inversion Hh as [t|t n bs rs Hn Hn2 Hm _|t rec bs rs _ _ _]; subst; [done| |].
  - rewrite Z.add_0_l, Z.mod_small in Hm by lia. lia.
  - rewrite Z.mod_0_l by done. unfold rec_bytes. cbn [rec_frags]. set (part := take _ rec). unfold fragment.
    set (ty := frag_type _ _). set (rest := if (0 <? _)%nat then _ else _). rewrite <- !(assoc_L (++)).
    pose proof (Forall_be_bytes 2 (u16 (zlen part))) as H2. pose proof (Forall_be_bytes 4 (crc32 part)) as H4.
    unfold PutUint16, PutUint32. destruct (be_bytes 2 _) as [|b0 [|b1 [|]]] eqn:E2; try (apply (f_equal length) in E2; by rewrite length_be_bytes in E2).
    destruct (be_bytes 4 _) as [|c0 [|c1 [|c2 [|c3 [|]]]]] eqn:E4; try (apply (f_equal length) in E4; by rewrite length_be_bytes in E4).
    cbn [app take]. rewrite be_val_cons. cbn [length]. pose proof (be_val_bound [b0; b1; c0]) as Hb.
    assert (u8 ty <= 4) by (unfold ty; destruct (zlen part =? zlen rec); vm_compute; discriminate).
    assert (Hf : Forall is_byte [b0; b1; c0]).
    { apply Forall_cons in H2 as [? [? _]%Forall_cons]. apply Forall_cons in H4 as [? _]. repeat (apply Forall_cons_2; [done|]). apply Forall_nil_2. }
    specialize (Hb Hf). cbn [length] in Hb. unfold WALMagic. lia.
Qed.

Lemma not_migrated i dir rss cur : 0 <= i -> dir_holds i dir rss cur -> MigrateWAL dir = Ok (dir, None).
Proof.
  intros Hi (segs & file & -> & Hh & Hall). unfold MigrateWAL, deprecatedWALExists. rewrite sequenceFiles_seg_dir.
  assert (exists c cs recs, segs ++ [file] = c :: cs /\ holds 0 c recs) as (c & cs & recs & E & Hc).
  { destruct Hall as [|c rs segs rss [_ Hc] _]; [by exists file, [], cur|]. by exists c, (segs ++ [file]), rs. }
  rewrite E. cbn [numbered fmap list_fmap fst]. assert (El : seg_dir i (c :: cs) !! i = Some c) by by rewrite seg_dir_lookup, decide_True, Z.sub_diag by lia.
  rewrite El. change (default [] (Some c)) with c. pose proof (segment_not_legacy c recs Hc) as Hn. by rewrite (proj2 (Z.eqb_neq _ _) Hn).
Qed.

(** The database with blocks and log on disk, before anything is loaded. *)
Definition closed_db {U} `{Countable U} (opts : Options) (D : gmap U (files U)) (cr : Z) (w : wal) :
    Db.DB (F := files U) (U := U) (D := pblock U) (H := Head wal) := mkDB opts D [] (new_head cr w) true.

(** Which blocks are live does not depend on the log. *)
Lemma live_any_log {U} `{Countable U} (Compare : U -> U -> comparison) `{!CompareLaws Compare} opts (D : gmap U (files U)) cr w w1 :
  live_disk Compare (closed_db opts D cr w1) = live_disk Compare (closed_db opts D cr w) /\
  forall bs, DbSpec.live Compare (closed_db opts D cr w) bs -> DbSpec.live Compare (closed_db opts D cr w1) bs.
Proof.
  split.
  - apply map_filter_ext. intros k x _. done.
  - intros bs (bs0 & Hl & E). exists bs0. split; [|done].
    rewrite (list_filter_iff _ (fun e => ~ obsolete (closed_db opts D cr w) (fst e))); [exact Hl|]. intros e. done.
Qed.

Lemma blank_truncated cr m w hs ks : Truncate (new_head cr w) m hs ks = blank_head cr m w.
Proof. unfold blank_head, Truncate. cbn [new_head h_minTime]. by rewrite Z.eqb_refl, andb_false_r. Qed.

(** * The loop in the background *)



Section Loop.
Context {F U D W : Type} `{Countable U} (Compare : U -> U -> comparison) `{BlockDir F U D} `{WAL W}.
Context (c : Db.Compactor (F := F) (U := U) (D := D) (H := Head W)).
Abbreviation runner := (runner (F := F) (U := U) (D := D) (W := W)).
Abbreviation step := (run_step Compare c).
Implicit Types r : runner.













(** Run in one go, [compact] takes these steps. *)
Section Runs.
Context (b : Z) (t s : bool).
Abbreviation at_point p db := (mkRunner (Compacting p) b t s db).




End Runs.
End Loop.

(** * Snapshots *)

Lemma closeAll_errors (rs : list (option any_error)) :
  closeAll rs = me_Err (rs ≫= fun r => match r with None => [] | Some (One e) => [e] | Some (Multi es) => es end).
Proof.
  unfold closeAll. f_equal. set (flat := fun r => _). assert (E : forall es, foldl me_Add es rs = es ++ (rs ≫= flat)); [|by rewrite E].
  induction rs as [|r rs IH]; intros es; [by rewrite app_nil_r|]. cbn [foldl]. rewrite IH, bind_cons, (assoc_L (++)). f_equal.
  destruct r as [[e|es']|]; [done|done|by rewrite app_nil_r].
Qed.

Section Snapshots.
Context {U W : Type} `{Countable U}.
Implicit Types (bs : list (Db.Block U (pblock U))) (d : gmap U (files U)).

(** The block can be linked from the disk into the directory. *)
Definition linkable d (dest : gmap U (files U)) (u : U) : Prop := exists f, d !! u = Some f /\ f_tombstones f <> None /\ dest !! u = None.

Lemma snapshot_blocks_ok d bs (dest : gmap U (files U)) :
  let us := (fun b => bm_ULID (blk_meta b)) <$> bs in
  NoDup us -> Forall (linkable d dest) us ->
  exists dest', snapshot_blocks d bs dest = (dest', None) /\ (forall u, u ∈ us -> dest' !! u = d !! u) /\ (forall u, u ∉ us -> dest' !! u = dest !! u).
Proof using Type.
  cbn zeta. revert dest. induction bs as [|b bs IH]; intros dest Hnd Hl.
  - exists dest. split; [done|]. split; [by intros u ?%not_elem_of_nil|done].
  - rewrite fmap_cons in *. apply NoDup_cons in Hnd as [Hb Hnd]. apply Forall_cons in Hl as [(f & Hf & Ht & Hd) Hl].
    cbn [snapshot_blocks]. rewrite Hf. unfold block_Snapshot. rewrite Hd. destruct (f_tombstones f); [|done].
    destruct (IH (<[bm_ULID (blk_meta b) := f]> dest) Hnd) as (dest' & E & Hin & Hout).
    { rewrite Forall_forall in Hl |- *. intros u Hu. destruct (Hl u Hu) as (g & ? & ? & ?). exists g. split; [done|]. split; [done|].
      rewrite lookup_insert_ne; [done|]. intros <-. by apply Hb. }
    exists dest'. split; [exact E|]. split.
    + intros u [->|Hu]%elem_of_cons; [|by apply Hin]. rewrite Hout, lookup_insert_eq by done. done.
    + intros u [Hne Hu]%not_elem_of_cons. by rewrite Hout, lookup_insert_ne.
Qed.
End Snapshots.

(** * Main theorems *)

(** C3: opening the database after a crash.  On disk there are blocks, some perhaps still
    in the broken format, a log and perhaps its checkpoint, as a run of the database
    leaves them.  [Open] then succeeds: its blocks are those that are neither beyond the
    retention nor parents of others, the directories of the others are removed, and the
    head begins where the last block ends and has the series, samples and deletions that
    replaying the checkpoint and the log from that time on gives. *)
Theorem Open_recovers {U : Type} `{Countable U} (Compare : U -> U -> comparison) `{!CompareLaws Compare} (Sum64 : list Z -> Z)
    (dir : db_dir U) (opts : Options) (lock : option (res unit)) (D : gmap U (files U)) (bs : list (Db.Block U (pblock U)))
    (b : Db.Block U (pblock U)) (w : wal) (i cr : Z) base rss cur eb ess ec :
  let m := bm_MaxTime (blk_meta b) in
  let es := eb ++ mjoin ess ++ ec in
  disk_stands (dd_blocks dir) D -> good_disk (closed_db opts D cr w) -> DbSpec.live Compare (closed_db opts D cr w) bs -> last bs = Some b ->
  Forall PlanSpec.meta_ok (blk_meta <$> bs) -> in_sequence (blk_meta <$> bs) ->
  dd_wal dir = w_dir w -> log_state (dd_checkpoints dir) w base i rss cur -> log_entries base rss cur eb ess ec ->
  entries_ok m (∅, NewMemTombstones) es -> Z.of_nat (n_samples es) <= 65535 ->
  default (Ok ()) lock = Ok () -> index (o_BlockRanges opts) 0 = Ok cr -> range_ok cr ->
  exists db A, Open Compare Sum64 dir opts lock = Ok db /\ db_opts db = opts /\
    db_blocks db = bs /\ db_disk db = live_disk Compare (closed_db opts D cr w) /\
    HeadInv.rep Sum64 (db_head db) A /\ h_minTime (db_head db) = m /\
    flat A = fst (replay m (∅, NewMemTombstones) es) /\ h_tombstones (db_head db) = snd (replay m (∅, NewMemTombstones) es).
Proof.
  intros m es Hst Hgood Hlive Hlast Hok Hseq Ew Hlog [Eb Er Ec] Hent Hn Hlock Hidx Hcr. unfold Open.
  destruct (repair_ok Compare _ D Hst) as (d2 & -> & Ed). destruct Hlog as [Hdir Hbase Hstart Hl Hsync].
  destruct (logged_dir i w rss cur Hl Hsync) as [Hd _]. rewrite Ew, (not_migrated i _ rss cur Hstart Hd). cbn [res_bind].
  rewrite Hlock. cbn [res_bind]. unfold NewLeveledCompactor. destruct (o_BlockRanges opts) as [|r0 rs] eqn:Eo; [by vm_compute in Hidx|].
  cbn [length Nat.eqb res_bind]. destruct (NewSize_logged i _ rss cur defaultSegmentSize Hstart eq_refl Hd) as (w1 & -> & Hl1 & Hs1 & _).
  cbn [res_bind]. rewrite Hidx. cbn [res_bind]. rewrite (proj1 (new_head_rep Sum64 cr w1 Hcr)). cbn [res_bind]. rewrite Ed.
  change (mkDB opts D [] (new_head cr w1) true) with (closed_db opts D cr w1).
  destruct (reload_ok Compare (closed_db opts D cr w1) Hgood) as (bs' & Hl' & Hre).
  assert (bs' = bs) as -> by (eapply (live_unique Compare); [exact Hl'|by eapply live_any_log]).
  rewrite (proj1 (Hre Hok) Hseq). unfold reloaded. rewrite Hlast, (proj1 (live_any_log Compare opts D cr w w1)). cbn [with_disk with_blocks closed_db db_head db_opts hd_Truncate head_db_head res_bind].
  rewrite blank_truncated. fold m. set (db1 := with_head _ _).
  destruct (blank_loads Sum64 cr m w1 (n_samples es) Hcr Hn) as (Hload & Hw1 & Em).
  assert (Hm : m < MaxInt64).
  { apply last_Some in Hlast as (l & ->). rewrite fmap_app, Forall_app in Hok. destruct Hok as [_ Hok].
    rewrite fmap_cons, Forall_cons in Hok. destruct Hok as [(? & ? & ?) _]. unfold small_time in *. unfold m, MaxInt64. lia. }
  destruct (Init_disk_entries Sum64 (dd_checkpoints dir) w1 base i rss cur (blank_head cr m w1) (∅, NewMemTombstones) eb (mjoin ess ++ ec))
    as (h & A & E & Hr & Hf & Ht & Hmin); rewrite ?Em; [by split|done|done| |done|done|done|].
  { by rewrite Er, Ec, mjoin_segments, <- fmap_app. }
  change (db_head db1) with (blank_head cr m w1). rewrite E. cbn [res_bind]. rewrite Em in *. by exists (with_head db1 h), A.
Qed.


(** A snapshot without the head.  When no block of the database is in the directory
    yet and all have a file of tombstones, it succeeds, and the directory has the files of
    every block, and what it had before. *)
Theorem Snapshot_copies {U W : Type} `{Countable U} (c : Db.Compactor (F := files U) (U := U) (D := pblock U) (H := Head W))
    (db : Db.DB (F := files U) (U := U) (D := pblock U) (H := Head W)) (dest : gmap U (files U)) :
  let us := (fun b => bm_ULID (blk_meta b)) <$> db_blocks db in
  NoDup us -> Forall (linkable (db_disk db) dest) us ->
  exists dest', Snapshot c db false false dest false = (dest', None) /\
    (forall u, u ∈ us -> dest' !! u = db_disk db !! u) /\ (forall u, u ∉ us -> dest' !! u = dest !! u).
Proof.
  intros us Hnd Hl. destruct (snapshot_blocks_ok (db_disk db) (db_blocks db) dest Hnd Hl) as (dest' & E & Hin & Hout).
  exists dest'. unfold Snapshot. rewrite E. done.
Qed.

(** A block without a file of tombstones can be opened, but not be part of a snapshot. *)
Theorem snapshot_needs_tombstones {U : Type} `{Countable U} (u : U) (f : files U) (dest : gmap U (files U)) :
  f_tombstones f = None -> dest !! u = None ->
  readTombstones (f_tombstones f) = Ok NewMemTombstones /\
  exists dest', block_Snapshot u f dest = (dest', Some (ErrMsg "create snapshot tombstones")) /\ f_chunks <$> dest' !! u = Some [].
Proof. intros Ef Hd. unfold block_Snapshot. rewrite Hd, Ef. split; [done|]. eexists. split; [done|]. by rewrite lookup_insert_eq. Qed.

(** The block that a snapshot makes of the head ends at the time of the last sample and not
    behind it: it holds the sample, but a query for its time does not ask the block. *)
Theorem snapshot_hides_last_sample :
  let '(dest, e) := Snapshot HeadCompactExample.leveled HeadCompactExample.db false false ∅ true in
  e = None /\ h_maxTime HeadCompactExample.head = 22 /\
  omap (fun kf => match readMetaFile (snd kf) with
                  | Ok m => Some (bm_MinTime m, bm_MaxTime m, Plan.NumSamples (bm_Stats m), bm_Overlaps m 22 22)
                  | _ => None end) (map_to_list dest) = [(1, 22, 4, false)] /\
  length HeadCompactExample.reqs = 4%nat.
Proof. vm_compute. do 3 (split; [reflexivity|]). reflexivity. Qed.

(** A commit between the write of the head and its truncation.  The appender of series
    [late] was opened before the samples that made a compaction due, so its sample at 8 is
    not too old for it.  It commits after the block of [0, 10) has been written: the commit
    succeeds, but the reload that follows drops the sample from the head, and it is not in
    the block. *)
Module LateCommit.
Import HeadBlockExample.

Definition late : Labels := [("late", "1")]%string.
Definition early : Head (list (list Z)) := head_of 1 [([("a", "1")], (1, 1)); ([("a", "1")], (12, 2))]%string.
Definition added : Head (list (list Z)) * headAppender := fst (adds AppendExample.sum early (appender early) [(late, (8, 9))]).
(** Another appender, in between. *)
Definition due : Head (list (list Z)) :=
  let '(h, a, _) := adds AppendExample.sum (fst added) (appender (fst added)) [([("a", "1")]%string, (22, 3))] in
  match a_Commit h a with Ok (h, _) => h | _ => h end.

(** The samples of the series in the head. *)
Definition samples_of (h : Head (list (list Z))) (ls : Labels) : Z :=
  let chunks l := match series_at h l with
                  | Some s => if decide (ms_lset s = ls) then ms_chunks s else []
                  | None => [] end in
  foldr (fun c n => match XorChunk.NumSamples (mc_chunk c) with Ok k => k + n | _ => n end) 0 (mjoin (map chunks (map_to_list (h_series h)).*2)).

Definition block_stats (db : Db.DB (F := files Z) (U := Z) (D := pblock Z) (H := Head (list (list Z)))) : list (Z * Z * Z) :=
  (fun b => (bm_MinTime (blk_meta b), bm_MaxTime (blk_meta b), Plan.NumSamples (bm_Stats (blk_meta b)))) <$> db_blocks db.

(** The three steps: the write, the commit, the reload. *)
Definition run : res (list (Z * Z * Z) * Z * Z * option error) :=
  let? (p1, db1) := compact_step Z.compare HeadCompactExample.leveled false AtHeadWrite (HeadCompactExample.db_of due) in
  let? (db2, _, e) := dbAppender_Commit db1 false (AHead (snd added)) in
  let? (p2, db3) := compact_step Z.compare HeadCompactExample.leveled false p1 db2 in
  match p1, p2 with
  | AtHeadReload, AtHeadStop => Ok (block_stats db3, samples_of (db_head db2) late, samples_of (db_head db3) late, e)
  | _, _ => Err (ErrMsg "another path")
  end.
End LateCommit.

Theorem commit_during_compaction_lost : LateCommit.run = Ok ([(0, 10, 1)], 1, 0, None).
Proof. vm_compute. reflexivity. Qed.

(** ** Witnesses *)

Module DatabaseExample.
(** A disk with the first block of [CompactorExample]. *)
Definition meta : BlockMeta Z := CompactorExample.meta_of 1 0 50.
Definition opts : Options := mkOptions 0 [1000].

Lemma block_written : exists f pb bs stats, block_files (I := xorIterator) CompactorExample.keep meta (readers_of <$> [CompactExample.source1]) = Ok f /\
  new_block meta 0 49 [CompactExample.source1] f pb bs stats.
Proof. apply (CompactorExample.single_ok 1 0 50 CompactExample.source1); [left|decided..]. Qed.

Section Block.
Context (f : files Z) (pb : pblock Z) (stats : BlockStats) (Hopen : OpenBlock f = Ok pb) (Hmeta : readMetaFile f = Ok (with_stats meta stats)).
Let db (w : wal) := closed_db opts {[1 := f]} 1000 w.

Lemma single_cases w k x : db_disk (db w) !! k = Some x -> k = 1 /\ x = f.
Proof using Type. cbn [db closed_db db_disk]. intros [E1 E2]%lookup_singleton_Some. split; by symmetry. Qed.

Lemma single_current w k : ~ obsolete (db w) k.
Proof using Hmeta.
  intros (k' & x & m & [-> ->]%single_cases & Hm & Ho). cbn [de_meta files_dir] in Hm. rewrite Hmeta in Hm. injection Hm as <-.
  cbn in Ho. by apply not_elem_of_nil in Ho.
Qed.

Lemma single_loads w : DbSpec.loads (db w) (1, f) (Db.mkBlock (with_stats meta stats) pb).
Proof using Hmeta Hopen.
  exists (with_stats meta stats). cbn [snd de_meta files_dir]. rewrite Hmeta. split; [done|]. exists pb. by cbn [de_data files_dir].
Qed.

Lemma single_good w : good_disk (db w) /\ DbSpec.live Z.compare (db w) [Db.mkBlock (with_stats meta stats) pb].
Proof using Hmeta Hopen.
  split.
  - intros k x [-> ->]%single_cases. exists (with_stats meta stats). cbn [de_meta files_dir]. rewrite Hmeta. do 2 (split; [done|]). right.
    eexists. apply single_loads.
  - exists [Db.mkBlock (with_stats meta stats) pb]. split; [|done]. rewrite filter_all by (apply Forall_forall; intros e _; apply single_current).
    assert (E : blockDirs Z.compare (db_disk (db w)) = [(1, f)]).
    { unfold blockDirs. cbn [db closed_db db_disk]. by rewrite map_to_list_singleton. }
    rewrite E. constructor; [apply single_loads|constructor].
Qed.
End Block.
End DatabaseExample.

Lemma Open_recovers_witness :
  exists (dir : db_dir Z) D b db A, dd_wal dir = w_dir CheckpointExample.log /\
    Open Z.compare AppendExample.sum dir DatabaseExample.opts None = Ok db /\ db_opts db = DatabaseExample.opts /\
    db_blocks db = [b] /\ db_disk db = live_disk Z.compare (closed_db DatabaseExample.opts D 1000 CheckpointExample.log) /\
    HeadInv.rep AppendExample.sum (db_head db) A /\ h_minTime (db_head db) = 50 /\
    flat A = fst (replay 50 (∅, NewMemTombstones) (mjoin CheckpointExample.segs)) /\
    h_tombstones (db_head db) = snd (replay 50 (∅, NewMemTombstones) (mjoin CheckpointExample.segs)).
Proof.
  destruct DatabaseExample.block_written as (f & pb & bs & stats & _ & Hn). pose proof (nb_open _ _ _ _ _ _ _ _ Hn) as Hopen.
  pose proof (proj1 (nb_meta _ _ _ _ _ _ _ _ Hn)) as Hmeta.
  destruct (DatabaseExample.single_good f pb stats Hopen Hmeta CheckpointExample.log) as [Hgood Hlive].
  exists (mkDbDir {[1 := mkRdir f None]} (w_dir CheckpointExample.log) ∅), {[1 := f]}, (Db.mkBlock (with_stats DatabaseExample.meta stats) pb).
  destruct (Open_recovers Z.compare AppendExample.sum (mkDbDir {[1 := mkRdir f None]} (w_dir CheckpointExample.log) ∅) DatabaseExample.opts None {[1 := f]}
    [Db.mkBlock (with_stats DatabaseExample.meta stats) pb] (Db.mkBlock (with_stats DatabaseExample.meta stats) pb) CheckpointExample.log 0 1000
    [] (enc_segment <$> CheckpointExample.segs) [] [] CheckpointExample.segs []) as (db & A & H).
  - intros k. cbn [dd_blocks]. destruct (decide (k = 1)) as [->|Hk]; [rewrite !lookup_singleton_eq|by rewrite !lookup_singleton_ne by done].
    split; [done|]. split; [done|]. exists (with_stats DatabaseExample.meta stats). cbn [rd_files].
    unfold readMetaFile in Hmeta. destruct (f_meta f) as [[v m]|]; [|done]. destruct (Z.eqb_spec v 1) as [->|]; [|done]. injection Hmeta as ->. split; [done|]. by left.
  - exact Hgood.
  - exact Hlive.
  - done.
  - apply Forall_singleton. unfold PlanSpec.meta_ok, small_time. cbn. lia.
  - split; [|repeat constructor]. apply Forall_singleton. unfold PlanSpec.meta_ok, small_time. cbn. lia.
  - done.
  - exact CheckpointExample.log_ok.
  - by split.
  - cbn [app]. rewrite app_nil_r. exact CheckpointExample.segs_ok.
  - vm_compute. discriminate.
  - done.
  - done.
  - unfold range_ok. lia.
  - exists db, A. split; [done|]. cbn [app] in H. rewrite app_nil_r in H. exact H.
Defined.


Lemma Snapshot_copies_witness :
  exists (f : files Z) (pb : pblock Z) (c : Db.Compactor (F := files Z) (U := Z) (D := pblock Z) (H := Head (list (list Z)))) dest',
    let db := mkDB DatabaseExample.opts {[1 := f]} [Db.mkBlock DatabaseExample.meta pb] (DbExample.head_at 0 100) true in
    Snapshot c db false false ∅ false = (dest', None) /\
    (forall u, u ∈ [1] -> dest' !! u = db_disk db !! u) /\ (forall u, u ∉ [1] -> dest' !! u = (∅ : gmap Z (files Z)) !! u).
Proof.
  destruct DatabaseExample.block_written as (f & pb & bs & stats & Ef & Hn).
  exists f, pb, (LeveledCompactor Z.compare CompactorExample.keep (fun _ => 2) (fun _ => EmptyString) [1000]).
  set (db := mkDB _ _ _ _ _). destruct (Snapshot_copies (LeveledCompactor Z.compare CompactorExample.keep (fun _ => 2) (fun _ => EmptyString) [1000]) db ∅) as (dest' & H).
  - apply NoDup_singleton.
  - apply Forall_singleton. exists f. split; [apply lookup_singleton_eq|]. split; [|done].
    unfold block_files in Ef. apply res_bind_ok in Ef as (iw & _ & Ef). apply res_bind_ok in Ef as ([[st iw2] cw] & _ & Ef).
    apply res_bind_ok in Ef as (ix & _ & Ef). injection Ef as <-. discriminate.
  - exists dest'. exact H.
Defined.
